(* ===== verification/_CoqProject ===== *)
-Q . S2P
Prelude.v
SymWord.v
SymExpr.v
SymSimpl.v
SymSound.v
SymCmp.v
SymBytes.v
SymSeq.v
SymStorage.v
SymMem.v
SymMemSpec.v
SymPath.v
SymWorld.v
SymWorldSpec.v
SymStatic.v
SymPrecompile.v
SymLog.v
SymExpect.v
SymExec.v
SymEvm.v
SymSim.v
SymStep.v
SymExplore.v
SymAccount.v
SymCall.v
SymVerdict.v
SymBounds.v
SymAccountSpec.v
SymCallSpec.v
SymCallFuel.v
SymProps.v
SymRunProps.v
SymExecProps.v
SymWorldProps.v
SymCallProps.v
SymContext.v
SymVisit.v
SymMonotone.v
SymPoly.v
SymHashes.v
SymFacts.v
SymNorm.v
SymNormSound.v
SymSmt.v
SymFallback.v
SymFallbackSound.v
SymSolver.v
SymSolverSound.v
SymSolverProps.v
Pool.v
PoolPending.v
PoolReady.v
PoolInv.v
PoolProps.v
Time.v
Printer.v
PrinterProofs.v
