(* ===== verification/Prelude.v ===== *)
(** * A verification of parts of Foundry

    Foundry is a toolkit for Ethereum development: [forge] builds and tests
    contracts, [anvil] is a local node, [cast] a client, [chisel] a shell.  This
    development models four parts that carry logic of their own, from the Rust
    sources under src/crates, and proves what makes them correct.

    ** The parts

    - The symbolic executor (crates/evm/symbolic).  It runs the bytecode of a
      test on symbolic inputs: words are expressions, a path has a frame, a
      world of accounts and a path condition, a step forks the path at a branch,
      and a run explores the paths and gives a verdict.  A wrong rewrite, a
      missed alias or a dropped path makes it report a failing test as safe.
    - The transaction pool of anvil (crates/anvil/src/eth/pool).  A ready queue
      and a pending queue, linked by markers that transactions require and
      provide; the miner takes from the ready queue and reports mined blocks
      back.
    - The block clock of anvil (crates/anvil/src/eth/backend/time.rs), which the
      miner and the RPC calls that move time share.
    - The pretty printer of the formatter (crates/fmt/src/pp), which all of the
      Solidity formatter writes through.

    ** The files

    Prelude: loops with fuel ([iterate]) and their termination, panics
    ([Outcome]), folds and sums shared by the components.

    Expressions (runtime/expr, runtime/symbols.rs, runtime/address.rs):
    - SymWord: 256-bit words, the operators and their [eval].
    - SymExpr: [SymExprKind] and [SymBoolExprKind], the reference semantics
      [denote_word]/[denote_bool] and the memoising [ModelEvaluator] of mod.rs.
    - SymSimpl: the constructors of expr.rs and bool.rs with all their rewrites
      ([binop], [ternop], [ite], [not], [and], [or]) and the analyses they use;
      SymSound: the rewrites refine the plain nodes, the loops end, the fuel of
      the recursive arms is enough.
    - SymCmp: [SymBoolExpr::cmp], [constant_difference] and the bounds that a
      condition gives, with their soundness.
    - SymBytes: bytes of words, [from_bytes], [address_match_condition], forced
      constants, with their soundness.
    - SymSeq: the byte sequences of runtime/bytes.rs, their readers and the
      plain meaning [bytes] they agree with.
    - SymStorage: storage keys (select_storage_write to storage_mapping_key_eq
      of expr.rs); their soundness for the slots that the layout of Solidity
      gives ([key_ok]), from hashes that do not come close ([well_spread]).

    State of a path (runtime/memory.rs, calldata.rs, state.rs, evm.rs):
    - SymMem: [SymStack], [SymMemory], [SymCalldata], [SymReturnData], [SymCode];
      SymMemSpec: memory as a map from addresses to bytes and that every read,
      store and copy refines it.
    - SymPath: the bounds and forced constants that the path condition gives,
      and the word opcodes.
    - SymWorld: [SymbolicWorld] and [SymbolicBlock], addresses and their
      aliases; SymWorldSpec: storage as a map, balances, snapshots, block hashes
      and that the operations refine them.
      SymStatic: what operations that only read leave alone.
    - SymLog: logs, the record of accessed slots and expected emits; SymExpect:
      pranks, mocks, expected reverts, calls and creates (state.rs).
    - SymPrecompile: runtime/precompiles.rs and the KZG part of calls.rs.

    Execution (executor/opcodes.rs, run.rs, mod.rs, constraints.rs, calls.rs,
    create.rs):
    - SymExec: the path state, the memory guards, feasibility and deferral, and
      [step] over the opcodes; what needs accounts is the class [Handlers].
    - SymAccount: the account opcodes, logs and storage hooks, an instance of
      [Handlers] ([account_handlers]) over the class [CallHandlers] of calls,
      creates and hook callbacks.
    - SymCall: calls and creates, the paths of nested calls and how the caller
      goes on behind their outcomes; [full_handlers] and [full_step] close the
      step function over them.
    - SymExplore: scheduling, the loop over a path, the tally and the verdict.
    - SymEvm: the concrete machine (frames of words and bytes) that the claims
      compare with; SymSim: the relation between a path and a concrete frame;
      SymStep: every opcode refines the machine.
    - SymVerdict: a run explores every execution: the deferral marks ([marked])
      and the hash table ([truthful]) as instances of [ExecInv] that every step
      keeps under [HandlerLaws]; SymBounds: memory, stack and queue bounds under
      [HandlerBounds]; SymAccountSpec: [account_handlers] satisfies both when
      its calls do, and refines the storage of the EVM; SymCallSpec: calls do,
      when the cheatcodes do ([CheatLaws], [CheatBounds]); a [Stable] property
      of the context of a path, such as that it only reads ([reading]), is kept
      by all that it executes; SymCallFuel: more fuel changes no result.
    - SymProps, SymRunProps, SymExecProps, SymWorldProps, SymCallProps: the
      claims, with witnesses.

    Anvil and the formatter:
    - Pool: transactions.rs and mod.rs of the pool, one definition per method;
      PoolPending, PoolReady, PoolInv: the invariants of the queues and of the
      pool and that every method keeps them; PoolProps: the pool as a state
      machine, block order, listeners, claims and witnesses.
    - Time: time.rs, the interleavings of its calls, claims and witnesses.
    - Printer: mod.rs, ring.rs, convenience.rs and helpers.rs of the printer;
      PrinterProofs: its invariant, claims and witnesses.

    ** How the code is modelled

    Rust values are Rocq values: a [HashMap] is a [gmap], a [HashSet] a [gset],
    a struct a [Record], an enum an [Inductive]; a hash-consed expression handle
    is the expression, and the equality of handles structural equality.  Words
    are integers with their range, [usize], [u64] and [i128] are integers with
    the wrapping and saturating operations written out.  Methods on [&mut self]
    pass the state; [unwrap], [expect], [assert!] and indexing return a panic as
    a value ([Outcome]); [Result] is a sum.  The executor is a state monad over
    [Exec] (the answers of the solver, the deferral marks, the table of hash
    inputs) with errors and panics.

    Loops over worklists have fuel from a measure of the input: the number of
    waiting transactions, the links of the ready queue, the length of the ring,
    the visit budgets of the source, the length of a queue of paths, the depth
    limit of a path.  Every definition says what it returns without fuel, and
    the theorems show that this does not occur.  Only the whole run and
    nested calls have fuel as an argument, since a guard may queue a path again;
    [safe_runs_end] and [path_loop_terminates] say what is total, calls panic
    without fuel and return the same with more
    ([call_fuel_never_changes_results]), and the loop of one path of a call
    needs no more than the depth limit ([call_path_rounds_suffice]).  Recursion that is not structural
    has fuel from the size of the expression; [recursion_is_complete] shows that
    more fuel changes nothing.  The recursion through recorded hashes in
    storage keys ([key_fuel]) and the loops over mapping keys ([chain_fuel])
    have the number of recorded hashes as fuel and panic without it, as the
    stack overflow of a cyclic table would.

    What is not under src/ is a parameter: revm's signed arithmetic
    ([SignedArith] with [SignedArithLaws]), keccak and the structural hash that
    orders operands ([HashFns]), jump tables, symbol names, iteration order of
    hash maps and the parts of a path that only cheatcodes touch ([Parts],
    [IterLaws]), the accounts of the chain ([ChainBackend]), the precompiles
    ([Precompiles]), the cheatcode contracts, the derivation of the addresses of
    new contracts and the code size limit ([CallParts]), the
    answers of the solver ([SolverEnv], with [SolverLaws] that an answer of
    unsatisfiable is true), the root paths and concrete replay ([RunParts]), the
    iteration order of the pool ([IterOrder]), the channels of listeners, and
    the wall clock.  Memory that would exceed its limit, and RETURNDATACOPY out
    of bounds, revert as the executor treats them; SymEvm does the same.

    ** What the theorems show

    - Words: every simplifying constructor gives an expression with the value of
      the plain node (when the plain node has one), for all operators and
      rewrites; the evaluator with its shared memo tables agrees with the
      reference semantics; the analyses are sound; the loops end.
    - State: reads, stores and copies of memory refine a map of bytes; loads and
      stores of storage refine a map of words, also for symbolic keys; transfers
      conserve balances; SELFDESTRUCT destroys; snapshots restore; aliases of
      symbolic addresses denote the same address; the table of hash inputs is
      true.
    - Execution: a step covers the step of the EVM for every model of the path
      condition; when a run without a loop bound is Safe, no execution that the
      roots stand for fails; every loop over a path ends; stacks, memories and
      queues stay within their bounds.
    - Calls: each outcome of the callee gives one path of the caller, with the
      callee's world only after a success; the payment follows the balances
      under every model; a static frame, with all that it calls, writes
      nothing; the bounds and the table of hashes are kept through calls.
    - Pool: from the empty pool, any sequence of operations with transactions
      that do not require what they provide runs without panic, and keeps the
      invariant that ties both queues to their indices; adding and mining
      do what they promise and report every transaction that leaves; dropping
      takes exactly what depends on the dropped transaction; the block iterator
      yields the best transaction first ([best_transaction_first]).
    - Clock: time stamps never go back while the head is kept, overrides are
      used once, concurrent increases survive a commit, temporary increases and
      snapshots can be taken back.
    - Printer: printing a well-nested document ends, does not panic except for a
      negative indentation, and keeps all characters that are not white space.

    Where the code does not do what it means to, a theorem says so: the byte
    terms of a complement ([address_match_of_complement]), the panic of
    [low_byte], slices of slices ([slice_of_slice_leaks]), the return data of
    STOP ([stop_keeps_return_data]), the loop bound
    ([loop_bound_hides_failures]), members of structs in mappings
    ([struct_member_alias_missed]), balances of symbolic addresses
    ([symbolic_balance_misses_backend]), failures behind a symbolic target
    ([symbolic_target_failure_forgets]), a replaced break of the printer
    ([replaced_break_loses_document]) and cyclic insertion into the pool
    ([cyclic_insertion_loses_waiting]).

    ** What is not modelled

    Of the symbolic executor: cheatcodes, the exploration of invariants, building roots from the ABI, the solver process and SMT
    printing; equality of two hash expressions ([cmp_sound] excludes it).  Gas
    is not metered, in the code as in the model.
    Of the pool: draining the iterator by sender or type, snapshots, the Tempo
    and Base nonce lanes.  Of anvil: the RPC layer, the fee rules, the EVM
    (revm).  Of the formatter: the Solidity printer on top of [pp] and the
    [FMT_DEBUG] marks.  The command line tools, compilers, configuration,
    cheatcodes and bindings are glue around other crates and are left out.

    ** Plan

    Next: the cheatcodes as an instance of [CallParts], the roots of a run, the
    remaining pool operations and the fee rules of anvil. *)

From stdpp Require Import base list gmap sets strings option.
From Stdlib Require Import ZArith Lia.

(** ** Bounded iteration

    Rust [while]/[loop] bodies over an explicit worklist are modelled by a
    step function that either continues with a new state or stops with a
    result; [iterate] runs it with fuel and [iterate_total] turns a decreasing
    measure into a proof that the loop ends. *)
Section Iterate.
Context {St Res : Type}.
Variable step : St -> St + Res.

Fixpoint iterate (fuel : nat) (s : St) : option Res :=
  match fuel with
  | O => None
  | S f => match step s with
           | inl s' => iterate f s'
           | inr r => Some r
           end
  end.

Lemma iterate_more f s r : iterate f s = Some r -> forall g, (f <= g)%nat -> iterate g s = Some r.
Proof.
  revert s; induction f as [|f IH]; intros s; simpl; [done|].
  intros H [|g] Hle; [lia|]. simpl.
  destruct (step s); [|done]. eapply IH; [done|lia].
Qed.

Section Measure.
Variables (Inv : St -> Prop) (mu : St -> nat).
Hypothesis step_dec : forall s s', Inv s -> step s = inl s' -> Inv s' /\ (mu s' < mu s)%nat.

Lemma iterate_total fuel s : Inv s -> (mu s < fuel)%nat -> is_Some (iterate fuel s).
Proof.
  revert s; induction fuel as [|f IH]; intros s Hi Hlt; [lia|]. simpl.
  destruct (step s) as [s'|r] eqn:E; [|eauto].
  destruct (step_dec s s' Hi E). apply IH; [done|lia].
Qed.
End Measure.

(** Partial correctness: an invariant that every step keeps and that the
    final step turns into the post-condition. *)
Lemma iterate_ind (Inv : St -> Prop) (Post : Res -> Prop) :
  (forall s s', Inv s -> step s = inl s' -> Inv s') ->
  (forall s r, Inv s -> step s = inr r -> Post r) ->
  forall fuel s r, Inv s -> iterate fuel s = Some r -> Post r.
Proof.
  intros Hk Hd fuel; induction fuel as [|f IH]; intros s r Hi; simpl; [done|].
  destruct (step s) as [s'|r'] eqn:E; intros H; simplify_eq; eauto.
Qed.
End Iterate.

(** ** Decisions that compute: from a boolean equality *)
Definition dec_of_eqb {A} (eqb : A -> A -> bool) (Heq : forall x y, eqb x y = true <-> x = y) (x y : A) : Decision (x = y) :=
  match eqb x y as b return (b = true <-> x = y) -> Decision (x = y) with
  | true => fun H => left (proj1 H eq_refl)
  | false => fun H => right (fun E => diff_false_true (proj2 H E))
  end (Heq x y).

(** ** Association lists: the memo tables of the source, newest entry first. *)
Section Assoc.
Context {K V : Type} (eqb : K -> K -> bool).

Fixpoint assoc (k : K) (l : list (K * V)) : option V :=
  match l with
  | [] => None
  | (k', v) :: l' => if eqb k k' then Some v else assoc k l'
  end.

Lemma assoc_Some_in k l v :
  (forall a b, eqb a b = true -> a = b) -> assoc k l = Some v -> In (k, v) l.
Proof.
  intros Hok; induction l as [|[k' v'] l IH]; simpl; [done|].
  destruct (eqb k k') eqn:E; [|eauto].
  intros; simplify_eq. left. f_equal. symmetry. by apply Hok.
Qed.
End Assoc.

(** ** Panics

    A computation that may panic ([unwrap], [expect], an index out of range, a
    checked conversion) is an [Outcome]. *)
Inductive Outcome (A : Type) :=
  | Ret (a : A)
  | Panic.
Arguments Ret {A} a.
Arguments Panic {A}.

Definition obind {A B} (m : Outcome A) (k : A -> Outcome B) : Outcome B :=
  match m with Ret a => k a | Panic => Panic end.

Declare Scope outcome_scope.
Delimit Scope outcome_scope with outcome.
Notation "'let*' x := c 'in' k" := (obind c (fun x => k))
  (at level 200, x pattern, c at level 100, k at level 200) : outcome_scope.

Lemma obind_Ret {A B} (m : Outcome A) (k : A -> Outcome B) b :
  obind m k = Ret b <-> exists a, m = Ret a /\ k a = Ret b.
Proof. destruct m; simpl; naive_solver. Qed.

(** Folding an operation that may panic over a list. *)
Fixpoint ofold {A S} (f : A -> S -> Outcome S) (l : list A) (s : S) : Outcome S :=
  match l with
  | [] => Ret s
  | a :: l' => obind (f a s) (ofold f l')
  end.

Lemma ofold_inv {A S} (Inv : S -> Prop) (f : A -> S -> Outcome S) l s :
  Inv s -> (forall a s, a ∈ l -> Inv s -> exists s', f a s = Ret s' /\ Inv s') ->
  exists s', ofold f l s = Ret s' /\ Inv s'.
Proof.
  revert s; induction l as [|a l IH]; intros s Hs Hf; simpl; [eauto|].
  destruct (Hf a s) as (s' & -> & Hs'); [left|done|]. simpl. apply IH; [done|].
  intros a' s'' ?. apply Hf. by right.
Qed.

(** ** Sums over finite maps, the measures of loops that consume a map *)
Section MapSum.
Context `{Countable K} {A : Type} (f : A -> nat).

Definition msum (m : gmap K A) : nat := map_fold (fun _ a n => (f a + n)%nat) O m.

Lemma msum_empty : msum ∅ = O.
Proof. apply map_fold_empty. Qed.

Lemma msum_insert m k a : m !! k = None -> msum (<[k := a]> m) = (f a + msum m)%nat.
Proof. intros. unfold msum.
  by rewrite (map_fold_insert_L (fun (_ : K) (a : A) n => (f a + n)%nat) O k a m) by (intros; lia || done). Qed.

Lemma msum_delete m k a : m !! k = Some a -> msum m = (f a + msum (delete k m))%nat.
Proof.
  intros Hk. rewrite <- (insert_delete_id m k a Hk) at 1. apply msum_insert. apply lookup_delete_eq.
Qed.

Lemma msum_update m k a a' : m !! k = Some a -> (msum (<[k := a']> m) + f a = msum m + f a')%nat.
Proof.
  intros Hk. rewrite (msum_delete m k a Hk). rewrite <- insert_delete_eq, msum_insert by apply lookup_delete_eq. lia.
Qed.
End MapSum.

Lemma elem_of_rev {A} (x : A) l : x ∈ rev l <-> x ∈ l.
Proof. by rewrite !list_elem_of_In, <- in_rev. Qed.
