(* ===== verification/SymWord.v ===== *)
(** * SymWord: 256-bit words and the operators of symbolic expressions

    Models [U256] as a 256-bit unsigned integer (an integer together with its
    range), the word operations the symbolic engine uses, and the evaluation
    functions of [SymBinOp], [SymTernOp] and [SymCmpOp]
    (crates/evm/symbolic/src/runtime/expr/{expr,bool}.rs).  Signed division,
    remainder and comparison come from revm ([i256_div], [i256_mod],
    [i256_cmp]) and are parameters: [SignedArith] is the record of them and
    [SignedArithLaws] the EVM facts the rewrites rely on. *)

From Stdlib Require Import ZArith Lia Bool Eqdep_dec.
From stdpp Require Import base list option.
From S2P Require Import Prelude.
Local Open Scope Z_scope.

(** ** The word type *)
Definition word_modulus : Z := 2 ^ 256.

Definition in_word (z : Z) : bool := (0 <=? z) && (z <? word_modulus).

Record U256 := mkU256 { uval : Z; uval_ok : in_word uval = true }.

Lemma in_word_mod z : in_word (z mod word_modulus) = true.
Proof.
  unfold in_word. pose proof (Z.mod_pos_bound z word_modulus eq_refl).
  apply andb_true_intro; split; [apply Z.leb_le | apply Z.ltb_lt]; lia.
Qed.

Definition U (z : Z) : U256 := mkU256 (z mod word_modulus) (in_word_mod z).

Lemma uval_inj a b : uval a = uval b -> a = b.
Proof.
  destruct a as [a Ha], b as [b Hb]; simpl; intros ->.
  f_equal. apply UIP_dec, bool_dec.
Qed.

Lemma uval_range a : 0 <= uval a < word_modulus.
Proof.
  destruct a as [a Ha]; simpl. unfold in_word in Ha.
  apply andb_prop in Ha as [H1 H2].
  apply Z.leb_le in H1. apply Z.ltb_lt in H2. lia.
Qed.

Lemma uval_U z : uval (U z) = z mod word_modulus.
Proof. reflexivity. Qed.

Lemma uval_U_small z : 0 <= z < word_modulus -> uval (U z) = z.
Proof. intros. rewrite uval_U. by apply Z.mod_small. Qed.

Lemma U_uval a : U (uval a) = a.
Proof. apply uval_inj. apply uval_U_small, uval_range. Qed.

Lemma U_mod z : U (z mod word_modulus) = U z.
Proof. apply uval_inj. rewrite !uval_U. by rewrite Z.mod_mod. Qed.

(** ** Word operations *)
Definition u_eqb (a b : U256) : bool := uval a =? uval b.
Definition u_ltb (a b : U256) : bool := uval a <? uval b.
Definition u_leb (a b : U256) : bool := uval a <=? uval b.
Definition ZERO : U256 := U 0.
Definition ONE : U256 := U 1.
Definition MAX : U256 := U (word_modulus - 1).
Definition is_zero (a : U256) : bool := uval a =? 0.
Definition wrapping_add (a b : U256) : U256 := U (uval a + uval b).
Definition wrapping_sub (a b : U256) : U256 := U (uval a - uval b).
Definition wrapping_mul (a b : U256) : U256 := U (uval a * uval b).
Definition u_div (a b : U256) : U256 := U (uval a / uval b).
Definition u_rem (a b : U256) : U256 := U (uval a mod uval b).
Definition u_and (a b : U256) : U256 := U (Z.land (uval a) (uval b)).
Definition u_or (a b : U256) : U256 := U (Z.lor (uval a) (uval b)).
Definition u_xor (a b : U256) : U256 := U (Z.lxor (uval a) (uval b)).
Definition u_not (a : U256) : U256 := U (word_modulus - 1 - uval a).
(** [value << shift] and [value >> shift] for a [usize] shift. *)
Definition u_shl (a : U256) (shift : Z) : U256 := U (Z.shiftl (uval a) shift).
Definition u_shr (a : U256) (shift : Z) : U256 := U (Z.shiftr (uval a) shift).
(** Two's complement reading, and the arithmetic right shift. *)
Definition signed (a : U256) : Z :=
  if uval a <? 2 ^ 255 then uval a else uval a - word_modulus.
Definition arithmetic_shr (a : U256) (shift : Z) : U256 := U (Z.shiftr (signed a) shift).
(** Number of significant bits. *)
Definition bit_len (a : U256) : Z := if uval a =? 0 then 0 else Z.log2 (uval a) + 1.
Definition is_power_of_two (a : U256) : bool :=
  negb (uval a =? 0) && (uval a =? 2 ^ Z.log2 (uval a)).
Definition add_mod (a b m : U256) : U256 := U ((uval a + uval b) mod uval m).
Definition mul_mod (a b m : U256) : U256 := U ((uval a * uval b) mod uval m).

(** [usize::try_from(value)] on a 64-bit target. *)
Definition usize_max : Z := 2 ^ 64 - 1.
Definition to_usize (a : U256) : option Z :=
  if uval a <=? usize_max then Some (uval a) else None.

(** [value.to_be_bytes::<32>()[index]]. *)
Definition be_byte (a : U256) (index : Z) : Z := (uval a / 2 ^ (8 * (31 - index))) mod 256.

(** [U256::from_be_bytes] of a big-endian byte list (missing bytes are the
    zero tail of the 32-byte buffer). *)
Fixpoint be_value (idx : nat) (bytes : list Z) : Z :=
  match bytes with
  | [] => 0
  | b :: bs => b * 2 ^ (8 * (31 - Z.of_nat idx)) + be_value (S idx) bs
  end.

(** ** Elementary facts, and the automation for word goals *)
Lemma u_eqb_eq a b : u_eqb a b = true <-> a = b.
Proof.
  unfold u_eqb. rewrite Z.eqb_eq. split; [apply uval_inj | by intros ->].
Qed.

Lemma u_eqb_refl a : u_eqb a a = true.
Proof. by apply u_eqb_eq. Qed.

Lemma u_eqb_spec a b : reflect (a = b) (u_eqb a b).
Proof. apply iff_reflect. by rewrite u_eqb_eq. Qed.

Lemma is_zero_true a : is_zero a = true <-> a = ZERO.
Proof.
  unfold is_zero. rewrite Z.eqb_eq. split; [|by intros ->].
  intros H. apply uval_inj. by rewrite H.
Qed.

Lemma is_zero_eqb a : is_zero a = u_eqb a ZERO.
Proof. reflexivity. Qed.

Lemma uval_ZERO : uval ZERO = 0. Proof. reflexivity. Qed.
Lemma uval_ONE : uval ONE = 1. Proof. reflexivity. Qed.
Lemma uval_MAX : uval MAX = word_modulus - 1. Proof. reflexivity. Qed.

Lemma one_ne_zero : ONE <> ZERO.
Proof. intros H. apply (f_equal uval) in H. by rewrite uval_ONE, uval_ZERO in H. Qed.

#[global] Instance U256_eq_dec : EqDecision U256 := dec_of_eqb u_eqb u_eqb_eq.

#[global] Opaque word_modulus.

(** Bits of words: two words are equal when their low 256 bits agree. *)
Lemma testbit_high a i : 256 <= i -> Z.testbit (uval a) i = false.
Proof.
  intros Hi. rewrite <- (Z.mod_small (uval a) (2 ^ 256)) by apply uval_range.
  by apply Z.mod_pow2_bits_high.
Qed.

Lemma testbit_U z i : 0 <= i < 256 -> Z.testbit (uval (U z)) i = Z.testbit z i.
Proof.
  intros. rewrite uval_U. change word_modulus with (2 ^ 256).
  rewrite Z.mod_pow2_bits_low; [done | lia].
Qed.

Lemma u_bits_eq a b :
  (forall i, 0 <= i < 256 -> Z.testbit (uval a) i = Z.testbit (uval b) i) -> a = b.
Proof.
  intros H. apply uval_inj, Z.bits_inj'. intros i Hi.
  destruct (Z.ltb_spec i 256); [apply H; lia|].
  by rewrite !testbit_high by lia.
Qed.

Lemma testbit_u_and a b i :
  0 <= i < 256 -> Z.testbit (uval (u_and a b)) i = Z.testbit (uval a) i && Z.testbit (uval b) i.
Proof. intros. unfold u_and. rewrite testbit_U by done. apply Z.land_spec. Qed.

Lemma testbit_u_or a b i :
  0 <= i < 256 -> Z.testbit (uval (u_or a b)) i = Z.testbit (uval a) i || Z.testbit (uval b) i.
Proof. intros. unfold u_or. rewrite testbit_U by done. apply Z.lor_spec. Qed.

Lemma testbit_u_xor a b i :
  0 <= i < 256 ->
  Z.testbit (uval (u_xor a b)) i = xorb (Z.testbit (uval a) i) (Z.testbit (uval b) i).
Proof. intros. unfold u_xor. rewrite testbit_U by done. apply Z.lxor_spec. Qed.

Lemma u_not_lnot a : u_not a = U (Z.lnot (uval a)).
Proof.
  apply uval_inj. unfold u_not. rewrite !uval_U. unfold Z.lnot.
  replace (word_modulus - 1 - uval a) with (Z.pred (- uval a) + 1 * word_modulus) by lia.
  by rewrite Z_mod_plus_full.
Qed.

Lemma testbit_u_not a i :
  0 <= i < 256 -> Z.testbit (uval (u_not a)) i = negb (Z.testbit (uval a) i).
Proof. intros. rewrite u_not_lnot, testbit_U by done. apply Z.lnot_spec; lia. Qed.

Lemma testbit_u_shl a s i :
  0 <= i < 256 -> Z.testbit (uval (u_shl a s)) i = Z.testbit (uval a) (i - s).
Proof. intros. unfold u_shl. rewrite testbit_U by done. apply Z.shiftl_spec; lia. Qed.

Lemma testbit_u_shr a s i :
  0 <= i < 256 -> Z.testbit (uval (u_shr a s)) i = Z.testbit (uval a) (i + s).
Proof. intros. unfold u_shr. rewrite testbit_U by done. apply Z.shiftr_spec; lia. Qed.

Lemma testbit_MAX i : 0 <= i < 256 -> Z.testbit (uval MAX) i = true.
Proof.
  intros. rewrite uval_MAX. change (word_modulus - 1) with (Z.pred (2 ^ 256)).
  rewrite <- Z.ones_equiv. apply Z.ones_spec_low. lia.
Qed.

Lemma testbit_ZERO i : Z.testbit (uval ZERO) i = false.
Proof. rewrite uval_ZERO. apply Z.bits_0. Qed.

Create HintDb words.
#[export] Hint Rewrite testbit_u_and testbit_u_or testbit_u_xor testbit_u_not
  testbit_u_shl testbit_u_shr testbit_MAX testbit_ZERO using lia : words.

(** [word_bits] proves an equation between words bit by bit. *)
Ltac word_bits :=
  apply u_bits_eq; intros i ?; autorewrite with words;
  repeat match goal with
         | |- context [Z.testbit ?a ?j] => destruct (Z.testbit a j) eqn:?
         end; try done; try congruence.

(** [word_arith] reduces an equation between words to one between integers. *)
Ltac word_arith := apply uval_inj; rewrite ?uval_U, ?uval_ZERO, ?uval_ONE, ?uval_MAX.

(** ** Masks and powers of two (address.rs [mask_bits], expr.rs helpers) *)
Definition mask_bits (value : U256) (bits : Z) : U256 :=
  if 256 <=? bits then value
  else u_and value (wrapping_sub (u_shl ONE bits) ONE).

Definition mask_low_bits (mask : U256) : option Z :=
  let bits := bit_len mask in
  if u_eqb mask (mask_bits MAX bits) then Some bits else None.

Definition power_of_two_shift (value : U256) : option Z :=
  if u_leb value ONE || negb (is_power_of_two value) then None
  else Some (bit_len value - 1).

(** ** Operators *)
Inductive SymBinOp :=
  | Add | Sub | Mul | UDiv | URem | SDiv | SRem | And | Or | Xor | Shl | Shr | Sar.

Inductive SymTernOp := AddMod | MulMod.

Inductive SymCmpOp := Eq | Ult | Ugt | Ule | Uge | Slt | Sgt.

Scheme Equality for SymBinOp.
Scheme Equality for SymTernOp.
Scheme Equality for SymCmpOp.

(** revm's signed arithmetic on words. *)
Class SignedArith := {
  i256_div : U256 -> U256 -> U256;
  i256_mod : U256 -> U256 -> U256;
  i256_cmp : U256 -> U256 -> comparison
}.

(** EVM semantics of SDIV, SMOD, SLT and SGT as far as the rewrites use it:
    division and remainder by zero give zero, division by one is the identity,
    the remainder modulo one is zero, and a word compares equal to itself. *)
Class SignedArithLaws `{SignedArith} := {
  i256_div_zero : forall a, i256_div a ZERO = ZERO;
  i256_div_one : forall a, i256_div a ONE = a;
  i256_mod_zero : forall a, i256_mod a ZERO = ZERO;
  i256_mod_one : forall a, i256_mod a ONE = ZERO;
  i256_cmp_refl : forall a, i256_cmp a a = Datatypes.Eq
}.

Section Operators.
Context `{SignedArith}.

Definition binop_eval (op : SymBinOp) (left right : U256) : U256 :=
  match op with
  | Add => wrapping_add left right
  | Sub => wrapping_sub left right
  | Mul => wrapping_mul left right
  | UDiv => if is_zero right then ZERO else u_div left right
  | URem => if is_zero right then ZERO else u_rem left right
  | SDiv => i256_div left right
  | SRem => i256_mod left right
  | And => u_and left right
  | Or => u_or left right
  | Xor => u_xor left right
  | Shl => if u_leb (U 256) right then ZERO else u_shl left (uval right)
  | Shr => if u_leb (U 256) right then ZERO else u_shr left (uval right)
  | Sar => if u_leb (U 256) right then arithmetic_shr left 256
           else arithmetic_shr left (uval right)
  end.

Definition ternop_eval (op : SymTernOp) (left right modulus : U256) : U256 :=
  if is_zero modulus then ZERO
  else match op with
       | AddMod => add_mod left right modulus
       | MulMod => mul_mod left right modulus
       end.

Definition cmpop_eval (op : SymCmpOp) (left right : U256) : bool :=
  match op with
  | Eq => u_eqb left right
  | Ult => u_ltb left right
  | Ugt => u_ltb right left
  | Ule => u_leb left right
  | Uge => u_leb right left
  | Slt => match i256_cmp left right with Lt => true | _ => false end
  | Sgt => match i256_cmp left right with Gt => true | _ => false end
  end.
End Operators.

(** ** Facts about masks *)
Lemma mask_bits_MAX_val bits :
  0 <= bits -> uval (mask_bits MAX bits) = Z.ones (Z.min bits 256).
Proof.
  intros Hb. unfold mask_bits. destruct (Z.leb_spec 256 bits).
  - rewrite Z.min_r by lia. rewrite uval_MAX.
    change (word_modulus - 1) with (Z.pred (2 ^ 256)). symmetry; apply Z.ones_equiv.
  - rewrite Z.min_l by lia.
    apply Z.bits_inj'; intros i Hi.
    destruct (Z.ltb_spec i 256).
    + rewrite testbit_u_and, testbit_MAX by lia. rewrite andb_true_l.
      unfold wrapping_sub, u_shl. rewrite testbit_U by lia.
      rewrite uval_U, uval_ONE, Z.shiftl_1_l.
      change word_modulus with (2 ^ 256).
      rewrite Z.mod_small by (split; [apply Z.pow_nonneg; lia | apply Z.pow_lt_mono_r; lia]).
      rewrite Z.sub_1_r. by rewrite Z.ones_equiv.
    + rewrite testbit_high by lia. rewrite Z.ones_spec_high by lia. done.
Qed.

Lemma bit_len_nonneg a : 0 <= bit_len a.
Proof. unfold bit_len. case_match; [lia|]. pose proof (Z.log2_nonneg (uval a)). lia. Qed.

Lemma bit_len_bound a : uval a < 2 ^ bit_len a.
Proof.
  pose proof (uval_range a). unfold bit_len.
  destruct (Z.eqb_spec (uval a) 0) as [->|]; [done|].
  pose proof (Z.log2_spec (uval a)) as Hs.
  replace (Z.log2 (uval a) + 1) with (Z.succ (Z.log2 (uval a))) by lia. lia.
Qed.

Lemma bit_len_le_256 a : bit_len a <= 256.
Proof.
  pose proof (uval_range a) as Hr. change word_modulus with (2 ^ 256) in Hr.
  unfold bit_len. destruct (Z.eqb_spec (uval a) 0); [lia|].
  assert (Z.log2 (uval a) < 256); [|lia].
  apply Z.log2_lt_pow2; lia.
Qed.

Lemma mask_low_bits_Some mask bits :
  mask_low_bits mask = Some bits ->
  0 <= bits <= 256 /\ uval mask = Z.ones bits.
Proof.
  unfold mask_low_bits. destruct (u_eqb_spec mask (mask_bits MAX (bit_len mask))) as [E|]; [|done].
  intros [= <-]. pose proof (bit_len_nonneg mask). pose proof (bit_len_le_256 mask).
  split; [lia|]. rewrite E at 1. rewrite mask_bits_MAX_val by lia. f_equal. lia.
Qed.

Lemma power_of_two_shift_Some v s :
  power_of_two_shift v = Some s -> 1 <= s < 256 /\ uval v = 2 ^ s.
Proof.
  unfold power_of_two_shift, u_leb, is_power_of_two.
  rewrite uval_ONE.
  destruct (Z.leb_spec (uval v) 1); simpl; [done|].
  destruct (Z.eqb_spec (uval v) 0); simpl; [lia|].
  destruct (Z.eqb_spec (uval v) (2 ^ Z.log2 (uval v))) as [E|]; simpl; [|done].
  intros [= <-]. unfold bit_len. destruct (Z.eqb_spec (uval v) 0); [lia|].
  replace (Z.log2 (uval v) + 1 - 1) with (Z.log2 (uval v)) by lia.
  split; [|done].
  pose proof (uval_range v) as Hr. change word_modulus with (2 ^ 256) in Hr.
  split; [apply Z.log2_le_pow2; lia | apply Z.log2_lt_pow2; lia].
Qed.

(** ** Big-endian bytes *)
Lemma be_byte_range a i : 0 <= be_byte a i < 256.
Proof. unfold be_byte. apply Z.mod_pos_bound. lia. Qed.

Lemma be_byte_bits a i j :
  0 <= i <= 31 -> 0 <= j < 8 -> Z.testbit (be_byte a i) j = Z.testbit (uval a) (8 * (31 - i) + j).
Proof.
  intros. unfold be_byte. change 256 with (2 ^ 8).
  rewrite Z.mod_pow2_bits_low, Z.div_pow2_bits by lia. f_equal. lia.
Qed.

Lemma byte_bits_high b j : 0 <= b < 256 -> 8 <= j -> Z.testbit b j = false.
Proof.
  intros Hb Hj. rewrite <- (Z.mod_small b (2 ^ 8)) by lia. by apply Z.mod_pow2_bits_high.
Qed.

Lemma byte_eq a b :
  0 <= a < 256 -> 0 <= b < 256 ->
  (forall j, 0 <= j < 8 -> Z.testbit a j = Z.testbit b j) -> a = b.
Proof.
  intros Ha Hb H. apply Z.bits_inj'. intros j Hj. destruct (Z.ltb_spec j 8); [by apply H|].
  by rewrite !byte_bits_high by done.
Qed.

Lemma byte_bitop_range (f : Z -> Z -> Z) (g : bool -> bool -> bool) a b :
  (forall x y j, Z.testbit (f x y) j = g (Z.testbit x j) (Z.testbit y j)) -> g false false = false ->
  0 <= a < 256 -> 0 <= b < 256 -> 0 <= f a b < 256.
Proof.
  intros Hf Hg Ha Hb.
  assert (E : f a b = (f a b) mod 2 ^ 8); [|rewrite E; apply Z.mod_pos_bound; lia].
  apply Z.bits_inj'. intros j Hj. destruct (Z.ltb_spec j 8).
  - by rewrite Z.mod_pow2_bits_low by lia.
  - rewrite Z.mod_pow2_bits_high by lia. by rewrite Hf, !byte_bits_high by done.
Qed.

Section BeByteOps.
Variable i : Z.
Hypothesis Hi : 0 <= i <= 31.

Lemma be_byte_and a b : be_byte (u_and a b) i = Z.land (be_byte a i) (be_byte b i).
Proof.
  apply byte_eq; [apply be_byte_range | apply (byte_bitop_range _ andb); auto using be_byte_range, Z.land_spec |].
  intros j Hj. rewrite Z.land_spec, !be_byte_bits by done. apply testbit_u_and. lia.
Qed.
Lemma be_byte_or a b : be_byte (u_or a b) i = Z.lor (be_byte a i) (be_byte b i).
Proof.
  apply byte_eq; [apply be_byte_range | apply (byte_bitop_range _ orb); auto using be_byte_range, Z.lor_spec |].
  intros j Hj. rewrite Z.lor_spec, !be_byte_bits by done. apply testbit_u_or. lia.
Qed.
Lemma be_byte_xor a b : be_byte (u_xor a b) i = Z.lxor (be_byte a i) (be_byte b i).
Proof.
  apply byte_eq; [apply be_byte_range | apply (byte_bitop_range _ xorb); auto using be_byte_range, Z.lxor_spec |].
  intros j Hj. rewrite Z.lxor_spec, !be_byte_bits by done. apply testbit_u_xor. lia.
Qed.
Lemma be_byte_not a : be_byte (u_not a) i = 255 - be_byte a i.
Proof.
  pose proof (be_byte_range a i) as Hr.
  apply byte_eq; [apply be_byte_range | lia |].
  intros j Hj. rewrite be_byte_bits, testbit_u_not by lia.
  rewrite <- be_byte_bits by lia.
  rewrite <- Z.lnot_spec by lia. unfold Z.lnot.
  rewrite <- (Z.mod_pow2_bits_low (Z.pred (- be_byte a i)) 8), <- (Z.mod_pow2_bits_low (255 - be_byte a i) 8) by lia.
  f_equal. replace (255 - be_byte a i) with (Z.pred (- be_byte a i) + 1 * 2 ^ 8) by lia.
  by rewrite Z_mod_plus_full.
Qed.
Lemma be_byte_shl a s :
  0 <= uval s -> uval s mod 8 = 0 ->
  be_byte (u_shl a (uval s)) i =
  if 32 <=? i + uval s / 8 then 0 else be_byte a (i + uval s / 8).
Proof.
  intros H0 Hm. pose proof (Z.div_mod (uval s) 8 ltac:(lia)) as Hd. rewrite Hm in Hd.
  apply byte_eq; [apply be_byte_range | case_match; [lia|apply be_byte_range] |].
  intros j Hj. rewrite be_byte_bits, testbit_u_shl by lia.
  destruct (Z.leb_spec 32 (i + uval s / 8)).
  - rewrite Z.bits_0. apply Z.testbit_neg_r. lia.
  - rewrite be_byte_bits by lia. f_equal. lia.
Qed.
Lemma be_byte_shr a s :
  0 <= uval s -> uval s mod 8 = 0 ->
  be_byte (u_shr a (uval s)) i =
  if i <? uval s / 8 then 0 else be_byte a (i - uval s / 8).
Proof.
  intros H0 Hm. pose proof (Z.div_mod (uval s) 8 ltac:(lia)) as Hd. rewrite Hm in Hd.
  apply byte_eq; [apply be_byte_range | case_match; [lia|apply be_byte_range] |].
  intros j Hj. rewrite be_byte_bits, testbit_u_shr by lia.
  destruct (Z.ltb_spec i (uval s / 8)).
  - rewrite Z.bits_0. apply testbit_high. lia.
  - rewrite be_byte_bits by lia. f_equal. lia.
Qed.
End BeByteOps.

(** A word is the value of its 32 bytes. *)
Lemma be_value_from a n idx :
  (idx + n = 32)%nat ->
  be_value idx (map (fun i => be_byte a (Z.of_nat i)) (seq idx n)) = uval a mod 2 ^ (8 * Z.of_nat n).
Proof.
  revert idx; induction n as [|n IH]; intros idx Hn; simpl be_value; [by rewrite Z.mod_1_r|].
  rewrite IH by lia. unfold be_byte.
  replace (31 - Z.of_nat idx) with (Z.of_nat n) by lia.
  replace (8 * Z.of_nat (S n)) with (8 * Z.of_nat n + 8) by lia. rewrite Z.pow_add_r by lia.
  change 256 with (2 ^ 8). rewrite (Z.rem_mul_r (uval a) (2 ^ (8 * Z.of_nat n)) (2 ^ 8)) by lia. lia.
Qed.

Lemma be_value_bytes a : U (be_value 0 (map (fun i => be_byte a (Z.of_nat i)) (seq 0 32))) = a.
Proof.
  rewrite be_value_from by done. change (2 ^ (8 * Z.of_nat 32)) with word_modulus.
  by rewrite U_mod, U_uval.
Qed.

Lemma pow2_shift s : 1 <= s < 256 -> power_of_two_shift (U (2 ^ s)) = Some s.
Proof.
  intros Hs. unfold power_of_two_shift, u_leb, is_power_of_two, bit_len.
  assert (2 ^ 1 <= 2 ^ s) by (apply Z.pow_le_mono_r; lia).
  rewrite uval_U_small, uval_ONE, Z.log2_pow2 by
    (lia || (split; [lia|change word_modulus with (2 ^ 256); apply Z.pow_lt_mono_r; lia])).
  destruct (Z.leb_spec (2 ^ s) 1); [lia|]. destruct (Z.eqb_spec (2 ^ s) 0); [lia|].
  rewrite Z.eqb_refl. simpl. f_equal. lia.
Qed.
