(* ===== verification/SymExpr.v ===== *)
(** * SymExpr: symbolic word and Boolean expressions, and their evaluation

    Models [SymExprKind], [SymBoolExprKind] and [ModelEvaluator]
    (crates/evm/symbolic/src/runtime/expr/{mod,expr,bool}.rs).  Expressions are
    hash-consed in the source: two handles of one [SymCx] are equal exactly when
    the expressions are structurally equal, so Rust's [==] on handles is the
    structural test [expr_eqb]/[bexpr_eqb] here and the context argument
    disappears.  [denote_word]/[denote_bool] is the reference semantics without
    memo tables; [eval_word]/[eval_bool] is the source's memoising evaluator. *)

From Stdlib Require Import ZArith Lia Bool.
From stdpp Require Import base list option.
From S2P Require Import Prelude SymWord.
Local Open Scope Z_scope.

(** ** Syntax *)
Definition Symbol := positive.

(** The hash algorithms a [Hash] node names (a static string in the source). *)
Definition Algorithm := nat.

Inductive SymExpr : Type :=
  | EConst (value : U256)
  | EVar (symbol : Symbol)
  | EGasLeft (symbol : Symbol)
  | EKeccak (name : Symbol) (len : SymExpr) (bytes : list SymExpr)
  | EHash (name : Symbol) (algorithm : Algorithm) (bytes : list SymExpr)
  | ENot (value : SymExpr)
  | EBinOp (op : SymBinOp) (left right : SymExpr)
  | ETernOp (op : SymTernOp) (left right modulus : SymExpr)
  | EIte (condition : SymBoolExpr) (then_expr else_expr : SymExpr)
with SymBoolExpr : Type :=
  | BConst (value : bool)
  | BNot (value : SymBoolExpr)
  | BAnd (values : list SymBoolExpr)
  | BCmp (op : SymCmpOp) (left right : SymExpr).

(** ** Induction over the mutual, nested syntax *)
Section Induction.
Variables (P : SymExpr -> Prop) (Q : SymBoolExpr -> Prop).
Hypothesis HConst : forall v, P (EConst v).
Hypothesis HVar : forall s, P (EVar s).
Hypothesis HGas : forall s, P (EGasLeft s).
Hypothesis HKeccak : forall n l bs, P l -> Forall P bs -> P (EKeccak n l bs).
Hypothesis HHash : forall n a bs, Forall P bs -> P (EHash n a bs).
Hypothesis HNot : forall e, P e -> P (ENot e).
Hypothesis HBin : forall op l r, P l -> P r -> P (EBinOp op l r).
Hypothesis HTern : forall op l r m, P l -> P r -> P m -> P (ETernOp op l r m).
Hypothesis HIte : forall c t e, Q c -> P t -> P e -> P (EIte c t e).
Hypothesis HBConst : forall b, Q (BConst b).
Hypothesis HBNot : forall b, Q b -> Q (BNot b).
Hypothesis HBAnd : forall bs, Forall Q bs -> Q (BAnd bs).
Hypothesis HBCmp : forall op l r, P l -> P r -> Q (BCmp op l r).

Fixpoint expr_ind' (e : SymExpr) : P e :=
  match e with
  | EConst v => HConst v
  | EVar s => HVar s
  | EGasLeft s => HGas s
  | EKeccak n l bs =>
      HKeccak n l bs (expr_ind' l)
        ((fix go bs := match bs return Forall P bs with
                       | [] => Forall_nil_2 P
                       | b :: bs' => Forall_cons_2 P b bs' (expr_ind' b) (go bs')
                       end) bs)
  | EHash n a bs =>
      HHash n a bs
        ((fix go bs := match bs return Forall P bs with
                       | [] => Forall_nil_2 P
                       | b :: bs' => Forall_cons_2 P b bs' (expr_ind' b) (go bs')
                       end) bs)
  | ENot v => HNot v (expr_ind' v)
  | EBinOp op l r => HBin op l r (expr_ind' l) (expr_ind' r)
  | ETernOp op l r m => HTern op l r m (expr_ind' l) (expr_ind' r) (expr_ind' m)
  | EIte c t e => HIte c t e (bexpr_ind' c) (expr_ind' t) (expr_ind' e)
  end
with bexpr_ind' (b : SymBoolExpr) : Q b :=
  match b with
  | BConst v => HBConst v
  | BNot v => HBNot v (bexpr_ind' v)
  | BAnd vs =>
      HBAnd vs
        ((fix go vs := match vs return Forall Q vs with
                       | [] => Forall_nil_2 Q
                       | v :: vs' => Forall_cons_2 Q v vs' (bexpr_ind' v) (go vs')
                       end) vs)
  | BCmp op l r => HBCmp op l r (expr_ind' l) (expr_ind' r)
  end.

Lemma expr_bexpr_ind : (forall e, P e) /\ (forall b, Q b).
Proof. split; [exact expr_ind' | exact bexpr_ind']. Qed.
End Induction.

(** ** Structural equality (the source's handle equality) *)
Fixpoint expr_eqb (x y : SymExpr) {struct x} : bool :=
  match x, y with
  | EConst a, EConst b => u_eqb a b
  | EVar a, EVar b => Pos.eqb a b
  | EGasLeft a, EGasLeft b => Pos.eqb a b
  | EKeccak n l bs, EKeccak n' l' bs' =>
      Pos.eqb n n' && expr_eqb l l' &&
      (fix go bs bs' := match bs, bs' with
                        | [], [] => true
                        | b :: r, b' :: r' => expr_eqb b b' && go r r'
                        | _, _ => false
                        end) bs bs'
  | EHash n a bs, EHash n' a' bs' =>
      Pos.eqb n n' && Nat.eqb a a' &&
      (fix go bs bs' := match bs, bs' with
                        | [], [] => true
                        | b :: r, b' :: r' => expr_eqb b b' && go r r'
                        | _, _ => false
                        end) bs bs'
  | ENot a, ENot b => expr_eqb a b
  | EBinOp o l r, EBinOp o' l' r' => SymBinOp_beq o o' && expr_eqb l l' && expr_eqb r r'
  | ETernOp o l r m, ETernOp o' l' r' m' =>
      SymTernOp_beq o o' && expr_eqb l l' && expr_eqb r r' && expr_eqb m m'
  | EIte c t e, EIte c' t' e' => bexpr_eqb c c' && expr_eqb t t' && expr_eqb e e'
  | _, _ => false
  end
with bexpr_eqb (x y : SymBoolExpr) {struct x} : bool :=
  match x, y with
  | BConst a, BConst b => Bool.eqb a b
  | BNot a, BNot b => bexpr_eqb a b
  | BAnd vs, BAnd vs' =>
      (fix go vs vs' := match vs, vs' with
                        | [], [] => true
                        | v :: r, v' :: r' => bexpr_eqb v v' && go r r'
                        | _, _ => false
                        end) vs vs'
  | BCmp o l r, BCmp o' l' r' => SymCmpOp_beq o o' && expr_eqb l l' && expr_eqb r r'
  | _, _ => false
  end.

Lemma list_eqb_spec {A} (eqb : A -> A -> bool) bs :
  Forall (fun b => forall b', eqb b b' = true <-> b = b') bs ->
  forall bs', (fix go bs bs' := match bs, bs' with
                        | [], [] => true
                        | b :: r, b' :: r' => eqb b b' && go r r'
                        | _, _ => false
                        end) bs bs' = true <-> bs = bs'.
Proof.
  induction 1 as [|b bs Hb _ IH]; intros [|b' bs']; try done.
  rewrite andb_true_iff, Hb, IH. naive_solver.
Qed.

Lemma expr_bexpr_eqb_eq :
  (forall x y, expr_eqb x y = true <-> x = y) /\ (forall x y, bexpr_eqb x y = true <-> x = y).
Proof.
  apply expr_bexpr_ind; intros;
    match goal with |- _ ?x ?y = true <-> _ => destruct y end; simpl; try done;
    rewrite ?andb_true_iff, ?u_eqb_eq, ?Pos.eqb_eq, ?Nat.eqb_eq, ?Bool.eqb_true_iff;
    repeat match goal with
           | H : forall _, expr_eqb ?x _ = true <-> _ |- context [expr_eqb ?x _] => rewrite H
           | H : forall _, bexpr_eqb ?x _ = true <-> _ |- context [bexpr_eqb ?x _] => rewrite H
           | H : Forall (fun b => forall _, expr_eqb b _ = true <-> _) ?bs |- _ =>
               rewrite (list_eqb_spec expr_eqb bs H); clear H
           | H : Forall (fun b => forall _, bexpr_eqb b _ = true <-> _) ?bs |- _ =>
               rewrite (list_eqb_spec bexpr_eqb bs H); clear H
           end.
  all: split; [intros Hs; destruct_and?; f_equal; try done | intros [=]; subst; split_and?; try done].
  all: first [by apply internal_SymBinOp_dec_bl | by apply internal_SymBinOp_dec_lb
             |by apply internal_SymTernOp_dec_bl | by apply internal_SymTernOp_dec_lb
             |by apply internal_SymCmpOp_dec_bl | by apply internal_SymCmpOp_dec_lb].
Qed.

Lemma expr_eqb_eq x y : expr_eqb x y = true <-> x = y.
Proof. apply expr_bexpr_eqb_eq. Qed.
Lemma bexpr_eqb_eq x y : bexpr_eqb x y = true <-> x = y.
Proof. apply expr_bexpr_eqb_eq. Qed.

Lemma expr_eqb_spec x y : reflect (x = y) (expr_eqb x y).
Proof. apply iff_reflect. by rewrite expr_eqb_eq. Qed.
Lemma bexpr_eqb_spec x y : reflect (x = y) (bexpr_eqb x y).
Proof. apply iff_reflect. by rewrite bexpr_eqb_eq. Qed.

#[global] Instance SymExpr_eq_dec : EqDecision SymExpr := dec_of_eqb expr_eqb expr_eqb_eq.
#[global] Instance SymBoolExpr_eq_dec : EqDecision SymBoolExpr := dec_of_eqb bexpr_eqb bexpr_eqb_eq.

(** ** Size, the measure of every recursion over expressions *)
Fixpoint esize (e : SymExpr) : nat :=
  match e with
  | EConst _ | EVar _ | EGasLeft _ => 1
  | EKeccak _ l bs => S (esize l + (fix go bs := match bs with [] => O | b :: r => (esize b + go r)%nat end) bs)
  | EHash _ _ bs => S ((fix go bs := match bs with [] => O | b :: r => (esize b + go r)%nat end) bs)
  | ENot v => S (esize v)
  | EBinOp _ l r => S (esize l + esize r)
  | ETernOp _ l r m => S (esize l + esize r + esize m)
  | EIte c t e => S (bsize c + esize t + esize e)
  end
with bsize (b : SymBoolExpr) : nat :=
  match b with
  | BConst _ => 1
  | BNot v => S (bsize v)
  | BAnd vs => S ((fix go vs := match vs with [] => O | v :: r => (bsize v + go r)%nat end) vs)
  | BCmp _ l r => S (esize l + esize r)
  end.

(** ** External functions the engine calls

    [keccak256] is the hash of a byte string, [stable_hash] the structural hash
    that the hash-consing table caches for a node (used only to order operands
    of commutative operators). *)
Class HashFns := {
  keccak256 : list Z -> U256;
  stable_hash : SymExpr -> Z
}.

Definition SymbolicModel := Symbol -> option U256.

(** The errors of the executor; messages and payloads that only the reports
    show are left out. *)
Inductive SymbolicError :=
  | MissingAccount (address : Z)
  | MissingCode (address : Z)
  | Backend
  | UnsupportedAbi
  | CalldataVariantLimit (limit : Z)
  | Unsupported (reason : String.string)
  | UnsupportedOpcode (op : Z)
  | InvalidBytecode (reason : String.string)
  | InvalidJump (dest : Z)
  | StackUnderflow
  | StackOverflow
  | Solver (* "solver model uses an invalid keccak length" *)
  | SolverUnknown
  | Timeout (seconds : Z)
  | SolverQueryLimit (limit : Z)
  | Abi.

(** [kind.get_eval_var()] and [kind.get_var()]. *)
Definition get_eval_var (e : SymExpr) : option Symbol :=
  match e with
  | EVar s | EGasLeft s => Some s
  | EHash n _ _ => Some n
  | _ => None
  end.

Definition get_var (e : SymExpr) : option Symbol :=
  match e with
  | EVar s | EGasLeft s => Some s
  | EKeccak n _ _ => Some n
  | EHash n _ _ => Some n
  | _ => None
  end.

Definition low_byte_of (v : U256) : Z := uval (u_and v (U 255)).

Section Semantics.
Context `{SignedArith, HashFns}.
Variable model : SymbolicModel.

Definition model_value (s : Symbol) : U256 := default ZERO (model s).

(** *** Reference semantics: [None] is an evaluation error. *)
Fixpoint denote_word (e : SymExpr) : option U256 :=
  match e with
  | EConst v => Some v
  | EVar s | EGasLeft s => Some (model_value s)
  | EHash n _ _ => Some (model_value n)
  | EKeccak _ len bytes =>
      match denote_word len with
      | None => None
      | Some l =>
          if (uval l <=? usize_max) && (uval l <=? Z.of_nat (length bytes)) then
            option_map keccak256
              ((fix go n bs {struct bs} := match bs, n with
                | b :: bs', S n' =>
                    match denote_word b with
                    | None => None
                    | Some v => option_map (cons (low_byte_of v)) (go n' bs')
                    end
                | _, _ => Some []
                end) (Z.to_nat (uval l)) bytes)
          else None
      end
  | ENot v => option_map u_not (denote_word v)
  | EBinOp op l r =>
      match denote_word l, denote_word r with
      | Some a, Some b => Some (binop_eval op a b)
      | _, _ => None
      end
  | ETernOp op l r m =>
      match denote_word l, denote_word r, denote_word m with
      | Some a, Some b, Some c => Some (ternop_eval op a b c)
      | _, _, _ => None
      end
  | EIte c t e' =>
      match denote_bool c with
      | Some true => denote_word t
      | Some false => denote_word e'
      | None => None
      end
  end
with denote_bool (b : SymBoolExpr) : option bool :=
  match b with
  | BConst v => Some v
  | BNot v => option_map negb (denote_bool v)
  | BAnd vs =>
      (fix go vs := match vs with
        | [] => Some true
        | v :: r => match denote_bool v with
                    | Some true => go r
                    | Some false => Some false
                    | None => None
                    end
        end) vs
  | BCmp op l r =>
      match denote_word l, denote_word r with
      | Some a, Some b => Some (cmpop_eval op a b)
      | _, _ => None
      end
  end.

(** Short-circuit conjunction and disjunction of a list of conditions. *)
Fixpoint denote_all (vs : list SymBoolExpr) : option bool :=
  match vs with
  | [] => Some true
  | v :: r => match denote_bool v with
              | Some true => denote_all r
              | Some false => Some false
              | None => None
              end
  end.

Fixpoint denote_any (vs : list SymBoolExpr) : option bool :=
  match vs with
  | [] => Some false
  | v :: r => match denote_bool v with
              | Some true => Some true
              | Some false => denote_any r
              | None => None
              end
  end.

Lemma denote_BAnd vs : denote_bool (BAnd vs) = denote_all vs.
Proof. induction vs as [|v vs IH]; simpl; [done|]. by destruct (denote_bool v) as [[]|]. Qed.

(** The bytes a hash consumes: the low byte of each of the first [n] words. *)
Fixpoint denote_bytes (n : nat) (bs : list SymExpr) {struct bs} : option (list Z) :=
  match bs, n with
  | b :: bs', S n' =>
      match denote_word b with
      | None => None
      | Some v => option_map (cons (low_byte_of v)) (denote_bytes n' bs')
      end
  | _, _ => Some []
  end.

Lemma denote_EKeccak nm len bytes :
  denote_word (EKeccak nm len bytes) =
  match denote_word len with
  | None => None
  | Some l => if (uval l <=? usize_max) && (uval l <=? Z.of_nat (length bytes))
              then option_map keccak256 (denote_bytes (Z.to_nat (uval l)) bytes) else None
  end.
Proof.
  simpl. destruct (denote_word len) as [l|]; [|done].
  by case_match.
Qed.
End Semantics.

(** ** The memoising evaluator ([ModelEvaluator]) *)
Record ModelEvaluator := {
  me_words : list (SymExpr * U256);
  me_bools : list (SymBoolExpr * bool)
}.

Definition new_evaluator : ModelEvaluator := {| me_words := []; me_bools := [] |}.

Definition EvalM (A : Type) := ModelEvaluator -> ModelEvaluator * (A + SymbolicError).
Definition eret {A} (a : A) : EvalM A := fun st => (st, inl a).
Definition eerr {A} (e : SymbolicError) : EvalM A := fun st => (st, inr e).
Definition ebind {A B} (c : EvalM A) (k : A -> EvalM B) : EvalM B :=
  fun st => match c st with
            | (st', inl a) => k a st'
            | (st', inr e) => (st', inr e)
            end.
Definition insert_word (e : SymExpr) (v : U256) : EvalM U256 :=
  fun st => ({| me_words := (e, v) :: me_words st; me_bools := me_bools st |}, inl v).
Definition insert_bool (b : SymBoolExpr) (v : bool) : EvalM bool :=
  fun st => ({| me_words := me_words st; me_bools := (b, v) :: me_bools st |}, inl v).

Declare Scope eval_scope.
Notation "'let!' x := c 'in' k" := (ebind c (fun x => k))
  (at level 200, x name, c at level 100, k at level 200) : eval_scope.

Section Evaluator.
Context `{SignedArith, HashFns}.
Variable model : SymbolicModel.
Local Open Scope eval_scope.

Fixpoint eval_word (expr : SymExpr) : EvalM U256 :=
  match get_eval_var expr with
  | Some var => eret (default ZERO (model var))
  | None =>
    match expr with
    | EConst value => eret value
    | _ => fun st =>
      match assoc expr_eqb expr (me_words st) with
      | Some value => eret value st
      | None =>
        (let! value := match expr with
          | EConst _ | EVar _ | EGasLeft _ | EHash _ _ _ => eerr Solver (* unreachable *)
          | EKeccak _ len bytes =>
              let! len := eval_word len in
              match to_usize len with
              | None => eerr Solver
              | Some len =>
                  if Z.of_nat (length bytes) <? len then eerr Solver
                  else
                    let! input := (fix go (bs : list SymExpr) (n : nat) : EvalM (list Z) :=
                                match bs, n with
                                | byte :: bs', S n' =>
                                    let! b := eval_word byte in
                                    let! rest := go bs' n' in
                                    eret (low_byte_of b :: rest)
                                | _, _ => eret []
                                end) bytes (Z.to_nat len) in
                    eret (keccak256 input)
              end
          | ENot value => let! v := eval_word value in eret (u_not v)
          | EBinOp op lhs rhs =>
              let! l := eval_word lhs in let! r := eval_word rhs in eret (binop_eval op l r)
          | ETernOp op lhs rhs modulus =>
              let! l := eval_word lhs in let! r := eval_word rhs in let! m := eval_word modulus in
              eret (ternop_eval op l r m)
          | EIte condition then_expr else_expr =>
              let! c := eval_bool condition in
              if c : bool then eval_word then_expr else eval_word else_expr
          end in
        insert_word expr value) st
      end
    end
  end
with eval_bool (expr : SymBoolExpr) : EvalM bool :=
  match expr with
  | BConst value => eret value
  | _ => fun st =>
    let cache_result := match expr with BAnd _ => true | _ => false end in
    match (if cache_result : bool then assoc bexpr_eqb expr (me_bools st) else None) with
    | Some value => eret value st
    | None =>
      (let! value := match expr with
        | BConst _ => eerr Solver (* unreachable *)
        | BNot value => let! v := eval_bool value in eret (negb v)
        | BAnd values =>
            (fix go (vs : list SymBoolExpr) : EvalM bool :=
               match vs with
               | [] => eret true
               | value :: vs' =>
                   let! v := eval_bool value in
                   if v : bool then go vs' else eret false
               end) values
        | BCmp op lhs rhs =>
            let! l := eval_word lhs in let! r := eval_word rhs in eret (cmpop_eval op l r)
        end in
      if cache_result : bool then insert_bool expr value else eret value) st
    end
  end.

(** [eval_model] on a fresh evaluator, and [eval_model_constraints], which
    shares one evaluator between the constraints of a path. *)
Definition eval_model_word (e : SymExpr) : U256 + SymbolicError := snd (eval_word e new_evaluator).
Definition eval_model_bool (b : SymBoolExpr) : bool + SymbolicError := snd (eval_bool b new_evaluator).

Fixpoint eval_constraints_from (st : ModelEvaluator) (constraints : list SymBoolExpr) : bool :=
  match constraints with
  | [] => true
  | c :: cs => match eval_bool c st with
               | (st', inl true) => eval_constraints_from st' cs
               | _ => false
               end
  end.
Definition eval_model_constraints (constraints : list SymBoolExpr) : bool :=
  eval_constraints_from new_evaluator constraints.

(** *** The memo tables never change the result

    [memo_ok st] says that every cached value is the denotation of its key;
    the evaluator keeps it and returns the denotation, with the only error
    being the one of the reference semantics. *)
Definition memo_ok (st : ModelEvaluator) : Prop :=
  (forall e v, assoc expr_eqb e (me_words st) = Some v -> denote_word model e = Some v) /\
  (forall b v, assoc bexpr_eqb b (me_bools st) = Some v -> denote_bool model b = Some v).

Definition agrees {A} (c : EvalM A) (d : option A) : Prop :=
  forall st, memo_ok st ->
    memo_ok (fst (c st)) /\
    snd (c st) = match d with Some v => inl v | None => inr Solver end.

Lemma agrees_ret {A} (a : A) : agrees (eret a) (Some a).
Proof. by intros st Hst. Qed.
Lemma agrees_err {A} : agrees (A := A) (eerr Solver) None.
Proof. by intros st Hst. Qed.
Lemma agrees_bind {A B} (c : EvalM A) (k : A -> EvalM B) d (f : A -> option B) :
  agrees c d -> (forall a, d = Some a -> agrees (k a) (f a)) ->
  agrees (ebind c k) (match d with Some a => f a | None => None end).
Proof.
  intros Hc Hk st Hst. unfold ebind. specialize (Hc st Hst) as [Hm Hr].
  destruct (c st) as [st' r]; simpl in *. rewrite Hr.
  destruct d as [a|]; [by apply Hk|done].
Qed.

Lemma new_evaluator_ok : memo_ok new_evaluator.
Proof. by split. Qed.

Lemma agrees_eq {A} (c : EvalM A) d d' : agrees c d -> d = d' -> agrees c d'.
Proof. by intros ? ->. Qed.

Lemma agrees_insert_word e v : denote_word model e = Some v -> agrees (insert_word e v) (Some v).
Proof.
  intros He st [Hw Hb]. split; [|done]. split; [|done]. simpl. intros e' v'.
  destruct (expr_eqb_spec e' e) as [->|]; [|apply Hw]. intros; by simplify_eq.
Qed.

Lemma agrees_insert_bool b v : denote_bool model b = Some v -> agrees (insert_bool b v) (Some v).
Proof.
  intros He st [Hw Hb]. split; [|done]. split; [done|]. simpl. intros b' v'.
  destruct (bexpr_eqb_spec b' b) as [->|]; [|apply Hb]. intros; by simplify_eq.
Qed.

(** A memoised computation of [e]'s denotation agrees with it. *)
Lemma agrees_memo_word e c :
  agrees c (denote_word model e) ->
  agrees (fun st => match assoc expr_eqb e (me_words st) with
                    | Some value => eret value st
                    | None => ebind c (insert_word e) st
                    end) (denote_word model e).
Proof.
  intros Hc st Hst. destruct (assoc _ _ _) as [v|] eqn:E.
  - destruct Hst as [Hw Hb]. split; [by split|]. by rewrite (Hw _ _ E).
  - revert st Hst E. intros st Hst _. eapply (agrees_eq _ _ _ (agrees_bind c (insert_word e) _ Some Hc _)); [|done].
    by destruct (denote_word model e).
  Unshelve. intros a Ha. by apply agrees_insert_word.
Qed.

Lemma agrees_memo_and vs c :
  agrees c (denote_bool model (BAnd vs)) ->
  agrees (fun st => match assoc bexpr_eqb (BAnd vs) (me_bools st) with
                    | Some value => eret value st
                    | None => ebind c (insert_bool (BAnd vs)) st
                    end) (denote_bool model (BAnd vs)).
Proof.
  intros Hc st Hst. destruct (assoc _ _ _) as [v|] eqn:E.
  - destruct Hst as [Hw Hb]. split; [by split|]. by rewrite (Hb _ _ E).
  - revert st Hst E. intros st Hst _. eapply (agrees_eq _ _ _ (agrees_bind c (insert_bool (BAnd vs)) _ Some Hc _)); [|done].
    by destruct (denote_bool model (BAnd vs)).
  Unshelve. intros a Ha. by apply agrees_insert_bool.
Qed.

Lemma agrees_bytes bs :
  Forall (fun b => agrees (eval_word b) (denote_word model b)) bs -> forall n,
  agrees ((fix go (bs : list SymExpr) (n : nat) : EvalM (list Z) :=
             match bs, n with
             | byte :: bs', S n' =>
                 let! b := eval_word byte in let! rest := go bs' n' in eret (low_byte_of b :: rest)
             | _, _ => eret []
             end) bs n) (denote_bytes model n bs).
Proof.
  induction 1 as [|b bs Hb _ IH]; intros [|n]; try apply agrees_ret.
  eapply agrees_eq.
  { eapply agrees_bind; [exact Hb|]. intros v _. eapply agrees_bind; [apply IH|].
    intros rest _. apply agrees_ret. }
  simpl. destruct (denote_word model b); [|done]. by destruct (denote_bytes model n bs).
Qed.

Lemma agrees_all vs :
  Forall (fun b => agrees (eval_bool b) (denote_bool model b)) vs ->
  agrees ((fix go (vs : list SymBoolExpr) : EvalM bool :=
             match vs with
             | [] => eret true
             | value :: vs' => let! v := eval_bool value in if v : bool then go vs' else eret false
             end) vs) (denote_all model vs).
Proof.
  induction 1 as [|b vs Hb _ IH]; [apply agrees_ret|].
  eapply agrees_eq.
  { eapply (agrees_bind _ _ _ (fun v : bool => if v then denote_all model vs else Some false)); [exact Hb|].
    intros [] _; [apply IH|apply agrees_ret]. }
  simpl. by destruct (denote_bool model b) as [[]|].
Qed.

Ltac agrees_step :=
  eapply agrees_eq;
  [repeat (first [eassumption | apply agrees_ret | eapply agrees_bind; [|intros ? _]])|].

Lemma eval_agrees :
  (forall e, agrees (eval_word e) (denote_word model e)) /\
  (forall b, agrees (eval_bool b) (denote_bool model b)).
Proof.
  apply expr_bexpr_ind; intros; try apply agrees_ret.
  - apply agrees_memo_word. rewrite denote_EKeccak. eapply agrees_bind; [done|]. intros lv Hl.
    unfold to_usize. destruct (Z.leb_spec (uval lv) usize_max); simpl; [|apply agrees_err].
    destruct (Z.ltb_spec (Z.of_nat (length bs)) (uval lv)), (Z.leb_spec (uval lv) (Z.of_nat (length bs)));
      try lia; [apply agrees_err|].
    eapply agrees_eq; [eapply agrees_bind; [by apply agrees_bytes|intros; apply agrees_ret]|].
    by destruct (denote_bytes model _ bs).
  - apply agrees_memo_word. agrees_step. simpl. by destruct (denote_word model e).
  - apply agrees_memo_word. agrees_step. simpl.
    destruct (denote_word model l); [|done]. by destruct (denote_word model r).
  - apply agrees_memo_word. agrees_step. simpl.
    destruct (denote_word model l); [|done]. destruct (denote_word model r); [|done].
    by destruct (denote_word model m).
  - apply agrees_memo_word. eapply agrees_eq.
    { eapply (agrees_bind _ _ _ (fun v : bool => if v then denote_word model t else denote_word model e));
        [done|]. by intros []. }
    simpl. by destruct (denote_bool model c) as [[]|].
  - simpl. agrees_step. simpl. by destruct (denote_bool model b).
  - apply agrees_memo_and. rewrite denote_BAnd. by apply agrees_all.
  - simpl. agrees_step. simpl.
    destruct (denote_word model l); [|done]. by destruct (denote_word model r).
Qed.
End Evaluator.

(** ** Properties *)
Section EvaluatorProperties.
Context `{SignedArith, HashFns}.
Variable model : SymbolicModel.

Lemma eval_word_spec e : eval_model_word model e = match denote_word model e with Some v => inl v | None => inr Solver end.
Proof. apply (proj1 (eval_agrees model)), new_evaluator_ok. Qed.
Lemma eval_bool_spec b : eval_model_bool model b = match denote_bool model b with Some v => inl v | None => inr Solver end.
Proof. apply (proj2 (eval_agrees model)), new_evaluator_ok. Qed.
Lemma eval_constraints_spec cs : eval_model_constraints model cs = true <-> Forall (fun c => denote_bool model c = Some true) cs.
Proof.
  unfold eval_model_constraints. generalize (new_evaluator_ok model). generalize new_evaluator.
  induction cs as [|c cs IH]; intros st Hst; simpl; [done|].
  destruct (proj2 (eval_agrees model) c st Hst) as [Hok Hr]. destruct (eval_bool model c st) as [st' r]; simpl in *.
  rewrite Forall_cons_iff, <- (IH st' Hok), Hr.
  destruct (denote_bool model c) as [[]|]; naive_solver.
Qed.

(** C16: the memoising evaluator of a model agrees with the reference semantics
    on every word expression, evaluation errors included, and a list of path
    constraints is accepted exactly when every constraint denotes [true]
    although the memo tables are shared between them. *)
Theorem eval_model_correct :
  (forall e, eval_model_word model e =
     match denote_word model e with Some v => inl v | None => inr Solver end) /\
  (forall b, eval_model_bool model b =
     match denote_bool model b with Some v => inl v | None => inr Solver end) /\
  (forall cs, eval_model_constraints model cs = true <->
     Forall (fun c => denote_bool model c = Some true) cs).
Proof. split; [exact eval_word_spec|]. split; [exact eval_bool_spec|exact eval_constraints_spec]. Qed.
End EvaluatorProperties.
