(* ===== verification/SymSimpl.v ===== *)
(** * SymSimpl: the simplifying constructors of symbolic expressions

    Models the smart constructors of [SymExpr] and the connectives of
    [SymBoolExpr] (crates/evm/symbolic/src/runtime/expr/{expr,bool}.rs).  The
    [SymCx] argument only interns nodes and is dropped.  Match arms with guards
    are translated in the order of the source; each arm of [binop] is a
    definition of its own and [binop] dispatches to them. *)

From Stdlib Require Import ZArith Lia Bool.
From stdpp Require Import base list option.
From S2P Require Import Prelude SymWord SymExpr.
Local Open Scope Z_scope.

(** ** Boolean connectives (bool.rs) *)
Module SBool.
Definition constant (value : bool) : SymBoolExpr := BConst value.

Definition as_const (b : SymBoolExpr) : option bool :=
  match b with BConst v => Some v | _ => None end.

Definition not_bool (value : SymBoolExpr) : SymBoolExpr :=
  match value with
  | BConst v => constant (negb v)
  | BNot v => v
  | _ => BNot value
  end.

(** The accumulation loop of [and]: [None] is the early return of [false]. *)
Fixpoint and_loop (out values : list SymBoolExpr) : option (list SymBoolExpr) :=
  match values with
  | [] => Some out
  | BConst true :: rest => and_loop out rest
  | BConst false :: _ => None
  | BAnd vs :: rest => and_loop (out ++ vs) rest
  | value :: rest => and_loop (out ++ [value]) rest
  end.

Definition and (values : list SymBoolExpr) : SymBoolExpr :=
  match and_loop [] values with
  | None => constant false
  | Some [] => constant true
  | Some [v] => v
  | Some out => BAnd out
  end.

Fixpoint or_loop (out values : list SymBoolExpr) : option (list SymBoolExpr) :=
  match values with
  | [] => Some out
  | BConst false :: rest => or_loop out rest
  | BConst true :: _ => None
  | value :: rest => or_loop (out ++ [value]) rest
  end.

Definition or (values : list SymBoolExpr) : SymBoolExpr :=
  match or_loop [] values with
  | None => constant true
  | Some [] => constant false
  | Some [v] => v
  | Some out => not_bool (and (map not_bool out))
  end.

Definition zero_check_operand (b : SymBoolExpr) : option SymExpr :=
  match b with
  | BCmp Eq l (EConst v) => if is_zero v then Some l else None
  | _ => None
  end.
End SBool.

(** ** Leaves and accessors (expr.rs) *)
Definition constant (value : U256) : SymExpr :=
  if is_zero value then EConst ZERO
  else if u_eqb value ONE then EConst ONE
  else EConst value.
Definition zero : SymExpr := constant ZERO.
Definition one : SymExpr := constant ONE.

Definition as_const (e : SymExpr) : option U256 :=
  match e with EConst v => Some v | _ => None end.

Definition const_is (e : SymExpr) (p : U256 -> bool) : bool :=
  match as_const e with Some v => p v | None => false end.

Definition sym_not (value : SymExpr) : SymExpr :=
  match value with
  | EConst v => constant (u_not v)
  | ENot v => v
  | _ => ENot value
  end.

Definition udiv_operands (e : SymExpr) : option (SymExpr * SymExpr) :=
  match e with EBinOp UDiv n d => Some (n, d) | _ => None end.

(** Source of [a & low_mask]. *)
Definition low_masked_source (e : SymExpr) (bits : Z) : option SymExpr :=
  match e with
  | EBinOp And l r =>
      match as_const r with
      | Some m => match mask_low_bits m with
                  | Some b => if b =? bits then Some l else None
                  | None => None
                  end
      | None => None
      end
  | _ => None
  end.

Definition low_masked_source_any (e : SymExpr) : option SymExpr :=
  match e with
  | EBinOp And l r =>
      match as_const r with
      | Some m => match mask_low_bits m with Some _ => Some l | None => None end
      | None => None
      end
  | _ => None
  end.

(** ** Boolean words and if-then-else *)
Definition bool_word_condition_from_parts (condition : SymBoolExpr) (then_expr else_expr : SymExpr)
  : option SymBoolExpr :=
  match as_const then_expr, as_const else_expr with
  | Some t, Some e => if u_eqb t ONE && is_zero e then Some condition else None
  | _, _ => None
  end.

Definition bool_word_condition (e : SymExpr) : option SymBoolExpr :=
  match e with
  | EIte c t e' => bool_word_condition_from_parts c t e'
  | _ => None
  end.

Definition direct_bool_word_condition (e : SymExpr) : option SymBoolExpr :=
  match e with
  | EIte c t e' =>
      match as_const t, as_const e' with
      | Some tv, Some ev =>
          if u_eqb tv ONE && is_zero ev then Some c
          else if is_zero tv && u_eqb ev ONE then Some (SBool.not_bool c)
          else None
      | _, _ => None
      end
  | _ => None
  end.

Definition self_div_expr_matches_zero_check (cond : SymBoolExpr) (expr : SymExpr) : bool :=
  match SBool.zero_check_operand cond with
  | None => false
  | Some zero_operand =>
      match udiv_operands expr with
      | None => false
      | Some (numerator, denominator) =>
          expr_eqb numerator zero_operand && expr_eqb denominator zero_operand
      end
  end.

Definition raw_bool_word (value : SymBoolExpr) : SymExpr := EIte value one zero.

(** [bool_word] only reaches the first, second and last arm of [ite] (its arms
    are the distinct constants 1 and 0), and [ite] calls it, so both are given
    by one definition parametrised by the call. *)
Definition ite_with (bool_word : SymBoolExpr -> SymExpr)
    (condition : SymBoolExpr) (then_expr else_expr : SymExpr) : SymExpr :=
  match SBool.as_const condition with
  | Some true => then_expr
  | Some false => else_expr
  | None =>
      if expr_eqb then_expr else_expr then then_expr
      else if const_is then_expr is_zero && self_div_expr_matches_zero_check condition else_expr
      then bool_word (SBool.not_bool condition)
      else if const_is then_expr (u_eqb ONE) &&
              match bool_word_condition else_expr with
              | Some c => bexpr_eqb c condition | None => false end
      then else_expr
      else if const_is else_expr is_zero &&
              match bool_word_condition then_expr with
              | Some c => bexpr_eqb c condition | None => false end
      then then_expr
      else EIte condition then_expr else_expr
  end.

Definition bool_word (value : SymBoolExpr) : SymExpr := ite_with raw_bool_word value one zero.
Definition ite : SymBoolExpr -> SymExpr -> SymExpr -> SymExpr := ite_with bool_word.

(** ** Operand ordering *)
Definition complexity (e : SymExpr) : Z :=
  match e with
  | EConst _ => 0
  | ENot _ => 1
  | EBinOp _ _ _ => 2
  | ETernOp _ _ _ _ => 3
  | _ => 4
  end.

Definition ordered_commutative_operands `{HashFns} (l r : SymExpr) : SymExpr * SymExpr :=
  match complexity l ?= complexity r with
  | Lt => (r, l)
  | Gt => (l, r)
  | Datatypes.Eq => match stable_hash r ?= stable_hash l with
                    | Lt => (r, l)
                    | _ => (l, r)
                    end
  end.

Definition commutative_binop `{HashFns} (op : SymBinOp) (l r : SymExpr) : SymExpr :=
  let '(l, r) := ordered_commutative_operands l r in EBinOp op l r.

(** ** Unsigned width analysis

    The worklist of [unsigned_bits_cached]: [pending] has its top first, a
    [true] flag says that the operands were visited before.  Indexing the width
    table at an absent key would panic; [node_bits] is [None] then. *)
Definition sat_add (a b : Z) : Z := Z.min usize_max (a + b).
Definition sat_sub (a b : Z) : Z := Z.max 0 (a - b).
Definition Widths := list (SymExpr * Z).

Definition shift_amount (e : SymExpr) : option Z :=
  match as_const e with Some v => to_usize v | None => None end.

(** Operands whose width is needed, in the order they are popped. *)
Definition width_operands (e : SymExpr) : list SymExpr :=
  match e with
  | EBinOp And l r => match as_const r with Some _ => [l] | None => [] end
  | EBinOp Add l r | EBinOp Mul l r => [l; r]
  | EIte _ l r => [l; r]
  | EBinOp Shl l r | EBinOp Shr l r => match shift_amount r with Some _ => [l] | None => [] end
  | EBinOp UDiv l _ => [l]
  | ETernOp _ _ _ m => [m]
  | _ => []
  end.

Definition node_bits (w : Widths) (e : SymExpr) : option Z :=
  let width x := assoc expr_eqb x w in
  match e with
  | EConst v => Some (Z.max (bit_len v) 1)
  | EBinOp And l r =>
      match as_const r with
      | Some mask => option_map (fun b => Z.min b (bit_len mask)) (width l)
      | None => Some 256
      end
  | EBinOp Add l r =>
      match width l, width r with
      | Some a, Some b => Some (Z.min (sat_add (Z.max a b) 1) 256)
      | _, _ => None
      end
  | EBinOp Mul l r =>
      match width l, width r with
      | Some a, Some b => Some (Z.min (sat_add a b) 256)
      | _, _ => None
      end
  | EBinOp Shl l r =>
      match shift_amount r with
      | Some s => option_map (fun b => Z.min (sat_add b s) 256) (width l)
      | None => Some 256
      end
  | EBinOp Shr l r =>
      match shift_amount r with
      | Some s => option_map (fun b => Z.max (sat_sub b s) 1) (width l)
      | None => Some 256
      end
  | EBinOp UDiv l _ => width l
  | ETernOp _ _ _ m => width m
  | EIte _ l r =>
      match width l, width r with
      | Some a, Some b => Some (Z.max a b)
      | _, _ => None
      end
  | _ => Some 256
  end.

Record WidthState := { ws_pending : list (SymExpr * bool); ws_widths : Widths; ws_remaining : Z }.

Inductive WidthExit :=
  | WDone (widths : Widths) (remaining : Z)
  | WExhausted (widths : Widths)   (* the visit budget ran out: [return None] *)
  | WPanic.      (* an absent width was indexed *)

Definition width_step (st : WidthState) : WidthState + WidthExit :=
  match ws_pending st with
  | [] => inr (WDone (ws_widths st) (ws_remaining st))
  | (e, children_visited) :: rest =>
      match assoc expr_eqb e (ws_widths st) with
      | Some _ => inl {| ws_pending := rest; ws_widths := ws_widths st; ws_remaining := ws_remaining st |}
      | None =>
          if negb children_visited then
            if ws_remaining st =? 0 then inr (WExhausted (ws_widths st))
            else inl {| ws_pending := map (fun c => (c, false)) (width_operands e) ++ (e, true) :: rest;
                        ws_widths := ws_widths st; ws_remaining := ws_remaining st - 1 |}
          else match node_bits (ws_widths st) e with
               | Some bits => inl {| ws_pending := rest; ws_widths := (e, bits) :: ws_widths st;
                                     ws_remaining := ws_remaining st |}
               | None => inr WPanic
               end
      end
  end.

(** Work left: an unvisited node costs at most twice its size. *)
Definition width_fuel (e : SymExpr) : nat := S (2 * esize e).

(** The result of [unsigned_bits_cached], with the updated table and budget;
    [None] would be a panic or a loop that does not end. *)
Definition unsigned_bits_cached (e : SymExpr) (w : Widths) (remaining : Z)
  : option (option Z * Widths * Z) :=
  match assoc expr_eqb e w with
  | Some bits => Some (Some bits, w, remaining)
  | None =>
      match iterate width_step (width_fuel e)
              {| ws_pending := [(e, false)]; ws_widths := w; ws_remaining := remaining |} with
      | Some (WDone w' r') => Some (assoc expr_eqb e w', w', r')
      | Some (WExhausted w') => Some (None, w', 0)
      | Some WPanic | None => None
      end
  end.

Definition unsigned_bits (e : SymExpr) : Z :=
  match unsigned_bits_cached e [] usize_max with
  | Some (Some bits, _, _) => bits
  | _ => 256
  end.

(** ** Cost bound of rewrites that duplicate an operand ([UnfoldedNodeCounter]) *)
Definition MAX_BRANCHLESS_REWRITE_NODES : Z := 256.
Definition MAX_BRANCHLESS_REWRITE_UNFOLDED_NODES : Z := 8 * 1024.

Record UnfoldedNodeCounter := {
  uc_expr : list (SymExpr * Z);
  uc_bool : list (SymBoolExpr * Z);
  uc_remaining : Z
}.

Definition new_counter : UnfoldedNodeCounter :=
  {| uc_expr := []; uc_bool := []; uc_remaining := MAX_BRANCHLESS_REWRITE_NODES |}.

(** A counting computation: [None] is the early [return None]/[?]. *)
Definition CountM := UnfoldedNodeCounter -> option (Z * UnfoldedNodeCounter).
Definition checked_add (a b : Z) : option Z := if a + b <=? usize_max then Some (a + b) else None.
Definition checked_mul (a b : Z) : option Z := if a * b <=? usize_max then Some (a * b) else None.
Definition count_ret (n : Z) : CountM := fun c => Some (n, c).
Definition count_add (m : CountM) (k : CountM) : CountM := fun c =>
  match m c with
  | None => None
  | Some (a, c') => match k c' with
                    | None => None
                    | Some (b, c'') => option_map (fun n => (n, c'')) (checked_add a b)
                    end
  end.
(** Memo lookup, visit budget and result bound around the count of a node. *)
Definition count_node_expr (e : SymExpr) (body : CountM) : CountM := fun c =>
  match assoc expr_eqb e (uc_expr c) with
  | Some n => Some (n, c)
  | None =>
      if uc_remaining c =? 0 then None
      else match body {| uc_expr := uc_expr c; uc_bool := uc_bool c; uc_remaining := uc_remaining c - 1 |} with
           | None => None
           | Some (n, c') =>
               if MAX_BRANCHLESS_REWRITE_UNFOLDED_NODES <? n then None
               else Some (n, {| uc_expr := (e, n) :: uc_expr c'; uc_bool := uc_bool c';
                                uc_remaining := uc_remaining c' |})
           end
  end.
Definition count_node_bool (b : SymBoolExpr) (body : CountM) : CountM := fun c =>
  match assoc bexpr_eqb b (uc_bool c) with
  | Some n => Some (n, c)
  | None =>
      if uc_remaining c =? 0 then None
      else match body {| uc_expr := uc_expr c; uc_bool := uc_bool c; uc_remaining := uc_remaining c - 1 |} with
           | None => None
           | Some (n, c') =>
               if MAX_BRANCHLESS_REWRITE_UNFOLDED_NODES <? n then None
               else Some (n, {| uc_expr := uc_expr c'; uc_bool := (b, n) :: uc_bool c';
                                uc_remaining := uc_remaining c' |})
           end
  end.

Fixpoint expr_nodes (e : SymExpr) : CountM :=
  count_node_expr e
    match e with
    | EConst _ | EVar _ | EGasLeft _ => count_ret 1
    | EKeccak _ len bytes =>
        (fix go (acc : CountM) (bs : list SymExpr) : CountM :=
           match bs with
           | [] => acc
           | b :: bs' => go (count_add acc (expr_nodes b)) bs'
           end) (count_add (count_ret 1) (expr_nodes len)) bytes
    | EHash _ _ bytes =>
        (fix go (acc : CountM) (bs : list SymExpr) : CountM :=
           match bs with
           | [] => acc
           | b :: bs' => go (count_add acc (expr_nodes b)) bs'
           end) (count_ret 1) bytes
    | ENot v => count_add (count_ret 1) (expr_nodes v)
    | EBinOp _ l r => count_add (count_add (count_ret 1) (expr_nodes l)) (expr_nodes r)
    | ETernOp _ l r m =>
        count_add (count_add (count_add (count_ret 1) (expr_nodes l)) (expr_nodes r)) (expr_nodes m)
    | EIte c t e' =>
        count_add (count_add (count_add (count_ret 1) (bool_nodes c)) (expr_nodes t)) (expr_nodes e')
    end
with bool_nodes (b : SymBoolExpr) : CountM :=
  count_node_bool b
    match b with
    | BConst _ => count_ret 1
    | BNot v => count_add (count_ret 1) (bool_nodes v)
    | BAnd vs =>
        (fix go (acc : CountM) (vs : list SymBoolExpr) : CountM :=
           match vs with
           | [] => acc
           | v :: vs' => go (count_add acc (bool_nodes v)) vs'
           end) (count_ret 1) vs
    | BCmp _ l r => count_add (count_add (count_ret 1) (expr_nodes l)) (expr_nodes r)
    end.

Definition duplicating_branchless_rewrite_fits (operand conditional : SymExpr) : bool :=
  match expr_nodes operand new_counter with
  | None => false
  | Some (operand_nodes, c) =>
      match expr_nodes conditional c with
      | None => false
      | Some (conditional_nodes, _) =>
          match checked_mul operand_nodes 2 with
          | None => false
          | Some duplicated =>
              match checked_add conditional_nodes duplicated with
              | None => false
              | Some n => match checked_add n 2 with
                          | None => false
                          | Some n => n <=? MAX_BRANCHLESS_REWRITE_UNFOLDED_NODES
                          end
              end
          end
      end
  end.

(** ** Known bytes *)
Fixpoint known_byte (e : SymExpr) (index : Z) : option Z :=
  match e with
  | EConst v => Some (be_byte v index)
  | EVar _ | EGasLeft _ | EKeccak _ _ _ | EHash _ _ _ => None
  | ENot v => option_map (fun b => 255 - b) (known_byte v index)
  | EIte _ t e' =>
      match known_byte t index, known_byte e' index with
      | Some a, Some b => if a =? b then Some a else None
      | _, _ => None
      end
  | EBinOp op l r =>
      match op with
      | And =>
          match known_byte l index, known_byte r index with
          | Some a, Some b => Some (Z.land a b)
          | Some a, None => if a =? 0 then Some 0 else None
          | None, Some b => if b =? 0 then Some 0 else None
          | None, None => None
          end
      | Or => match known_byte l index, known_byte r index with
              | Some a, Some b => Some (Z.lor a b) | _, _ => None end
      | Xor => match known_byte l index, known_byte r index with
               | Some a, Some b => Some (Z.lxor a b) | _, _ => None end
      | Shl =>
          match as_const r with
          | None => None
          | Some shift =>
              if u_leb (U 256) shift then Some 0
              else if negb (uval shift mod 8 =? 0) then None
              else let source_index := index + uval shift / 8 in
                   if 32 <=? source_index then Some 0 else known_byte l source_index
          end
      | Shr =>
          match as_const r with
          | None => None
          | Some shift =>
              if u_leb (U 256) shift then Some 0
              else if negb (uval shift mod 8 =? 0) then None
              else let byte_shift := uval shift / 8 in
                   if index <? byte_shift then Some 0 else known_byte l (index - byte_shift)
          end
      | _ => None
      end
  | ETernOp _ _ _ _ => None
  end.

(** The loop of [known_word] over the 32 byte indices, from [idx] on. *)
Fixpoint known_bytes_from (e : SymExpr) (idx : nat) (n : nat) : option (list Z) :=
  match n with
  | O => Some []
  | S n' => match known_byte e (Z.of_nat idx) with
            | None => None
            | Some b => option_map (cons b) (known_bytes_from e (S idx) n')
            end
  end.
Definition known_word (e : SymExpr) : option U256 :=
  option_map (fun bs => U (be_value 0 bs)) (known_bytes_from e 0 32).

(** ** Byte sources *)
Fixpoint strip_low_byte_mask (e : SymExpr) : SymExpr :=
  match e with
  | EBinOp And l r =>
      if const_is r (u_eqb (U 255)) then strip_low_byte_mask l else e
  | _ => e
  end.

Definition extracted_byte_source (e : SymExpr) (index : Z) : option SymExpr :=
  let e' := strip_low_byte_mask e in
  if index =? 31 then Some e'
  else match e' with
       | EBinOp Shr source shift =>
           match as_const shift with
           | None => None
           | Some s => if u_eqb s (U ((31 - index) * 8)) then Some source else None
           end
       | _ => None
       end.

Definition extracted_unshifted_byte_source : SymExpr -> Z -> option SymExpr := extracted_byte_source.

Definition extracted_shifted_byte_term (e : SymExpr) : option (SymExpr * Z) :=
  match e with
  | EBinOp Shl byte shift =>
      match shift_amount shift with
      | None => None
      | Some s =>
          if negb (s mod 8 =? 0) || (248 <? s) then None
          else let index := 31 - s / 8 in
               option_map (fun source => (source, index)) (extracted_unshifted_byte_source byte index)
      end
  | _ => option_map (fun source => (source, 31)) (extracted_unshifted_byte_source e 31)
  end.

(** ** Rebuilding a word from an OR of its parts *)
Fixpoint or_terms (e : SymExpr) : list SymExpr :=
  match e with
  | EBinOp Or l r => or_terms l ++ or_terms r
  | _ => [e]
  end.

(** The loop over the terms: the common source and the byte indices seen. *)
Fixpoint byte_terms_loop (source : option SymExpr) (seen : list Z) (terms : list SymExpr)
  : option (option SymExpr * list Z) :=
  match terms with
  | [] => Some (source, seen)
  | term :: rest =>
      if const_is term is_zero then byte_terms_loop source seen rest
      else match extracted_shifted_byte_term term with
           | None => None
           | Some (term_source, index) =>
               match source with
               | Some s => if expr_eqb s term_source
                           then byte_terms_loop source (index :: seen) rest else None
               | None => byte_terms_loop (Some term_source) (index :: seen) rest
               end
           end
  end.

Definition byte_seen (seen : list Z) (index : Z) : bool := existsb (Z.eqb index) seen.

Definition byte_indices : list Z := map Z.of_nat (seq 0 32).

Definition rebuild_from_extracted_byte_terms (terms : list SymExpr) : option SymExpr :=
  if (length terms <=? 1)%nat then None
  else match byte_terms_loop None [] terms with
       | Some (Some source, seen) =>
           if forallb (fun index => byte_seen seen index ||
                         match known_byte source index with Some b => b =? 0 | None => false end)
                byte_indices
           then Some source else None
       | _ => None
       end.

Definition low_word_fragment (e : SymExpr) : option (SymExpr * Z) :=
  match e with
  | EBinOp And l r =>
      match as_const r with
      | None => None
      | Some mask => option_map (fun bits => (l, bits)) (mask_low_bits mask)
      end
  | _ => None
  end.

Definition shifted_low_fragment_source_with_mask (value : SymExpr) (mask : U256)
  : option (SymExpr * Z * Z) :=
  match mask_low_bits mask with
  | None => None
  | Some width =>
      match value with
      | EBinOp Shr source shift => option_map (fun s => (source, s, width)) (shift_amount shift)
      | _ => Some (value, 0, width)
      end
  end.

Definition shifted_low_fragment_source (e : SymExpr) : option (SymExpr * Z * Z) :=
  match e with
  | EBinOp And l r =>
      match as_const r with
      | None => None
      | Some mask => shifted_low_fragment_source_with_mask l mask
      end
  | _ => None
  end.

Definition shifted_high_word_fragment (e : SymExpr) : option (SymExpr * Z) :=
  match e with
  | EBinOp Shl value shift =>
      match shift_amount shift with
      | None => None
      | Some bits =>
          if (bits =? 0) || (256 <=? bits) then None
          else match shifted_low_fragment_source value with
               | None => None
               | Some (source, source_shift, width) =>
                   if (source_shift =? bits) && (width =? 256 - bits) then Some (source, bits) else None
               end
      end
  | _ => None
  end.

Definition rebuild_from_shifted_word_fragments (terms : list SymExpr) : option SymExpr :=
  match terms with
  | [t0; t1] =>
      match low_word_fragment t0, low_word_fragment t1,
            shifted_high_word_fragment t0, shifted_high_word_fragment t1 with
      | Some (low_source, low_bits), None, None, Some (high_source, high_bits)
      | None, Some (low_source, low_bits), Some (high_source, high_bits), None =>
          if expr_eqb low_source high_source && (low_bits =? high_bits) then Some low_source else None
      | _, _, _, _ => None
      end
  | _ => None
  end.

Definition rebuild_from_or_terms (l r : SymExpr) : option SymExpr :=
  let terms := or_terms l ++ or_terms r in
  match rebuild_from_extracted_byte_terms terms with
  | Some e => Some e
  | None => rebuild_from_shifted_word_fragments terms
  end.

(** ** The arms of [binop] *)
Section Binop.
Context `{SignedArith, HashFns}.

Definition sym_or (l r : SymExpr) : SymExpr :=
  match rebuild_from_or_terms l r with
  | Some rebuilt => rebuilt
  | None => commutative_binop Or l r
  end.

Definition or_with_absorbing_ite (conditional other : SymExpr) : option SymExpr :=
  match conditional with
  | EIte c t e =>
      if const_is t is_zero && const_is e (u_eqb MAX) then Some (ite c other e)
      else if const_is t (u_eqb MAX) && const_is e is_zero then Some (ite c t other)
      else None
  | _ => None
  end.

Definition binop_or (l r : SymExpr) : SymExpr :=
  match as_const l, as_const r with
  | Some a, Some b => constant (binop_eval Or a b)
  | _, _ =>
      if const_is l is_zero then r
      else if const_is r is_zero then l
      else if expr_eqb l r then l
      else match or_with_absorbing_ite l r with
           | Some value => value
           | None => match or_with_absorbing_ite r l with
                     | Some value => value
                     | None => sym_or l r
                     end
           end
  end.

Definition binop_shl (l r : SymExpr) : SymExpr :=
  match as_const l, as_const r with
  | Some a, Some b => constant (binop_eval Shl a b)
  | _, _ =>
      if const_is r is_zero then l
      else if const_is l is_zero then zero
      else if const_is r (u_leb (U 256)) then zero
      else EBinOp Shl l r
  end.

Fixpoint and_const (e : SymExpr) (mask : U256) : SymExpr :=
  if is_zero mask then zero
  else if u_eqb mask MAX then e
  else match e with
       | EConst v => constant (u_and v mask)
       | EBinOp Or l r => binop_or (and_const l mask) (and_const r mask)
       | EBinOp Shl _ shift =>
           if match mask_low_bits mask, shift_amount shift with
              | Some bits, Some s => bits <=? s
              | _, _ => false
              end
           then zero else EBinOp And e (constant mask)
       | EBinOp And l r =>
           if const_is r (u_eqb mask) then and_const l mask
           else if expr_eqb l r then and_const l mask
           else EBinOp And e (constant mask)
       | _ => EBinOp And e (constant mask)
       end.

Fixpoint shr_const (e : SymExpr) (shift : U256) : SymExpr :=
  if is_zero shift then e
  else if u_leb (U 256) shift then zero
  else if unsigned_bits e <=? uval shift then zero
  else
    let fallback := EBinOp Shr e (constant shift) in
    match e with
    | EBinOp Shl inner left_shift =>
        if const_is left_shift (u_eqb shift) && (unsigned_bits inner <=? 256 - uval shift)
        then inner else fallback
    | EBinOp Or l r =>
        let l' := shr_const l shift in
        let r' := shr_const r shift in
        if const_is l' is_zero then r'
        else if const_is r' is_zero then l'
        else fallback
    | _ => fallback
    end.

Definition binop_shr (l r : SymExpr) : SymExpr :=
  match as_const l, as_const r with
  | Some a, Some b => constant (binop_eval Shr a b)
  | _, cb =>
      if const_is r is_zero then l
      else if const_is l is_zero then zero
      else match cb with
           | Some b => shr_const l b
           | None => EBinOp Shr l r
           end
  end.

Definition binop_sar (l r : SymExpr) : SymExpr :=
  match as_const l, as_const r with
  | Some a, Some b => constant (binop_eval Sar a b)
  | _, _ => if const_is r is_zero then l else EBinOp Sar l r
  end.

Definition binop_and (l r : SymExpr) : SymExpr :=
  match as_const l, as_const r with
  | Some a, Some b => constant (binop_eval And a b)
  | ca, cb =>
      if const_is l is_zero || const_is r is_zero then zero
      else if const_is l (u_eqb MAX) then r
      else if const_is r (u_eqb MAX) then l
      else if expr_eqb l r then l
      else match ca, cb with
           | Some mask, _ => and_const r mask
           | None, Some mask => and_const l mask
           | None, None => commutative_binop And l r
           end
  end.

(** *** Recovering a Boolean from a one-bit word *)
Definition MAX_BITWISE_BOOL_WORD_VISITS : Z := 256.

Record BitwiseState := {
  bs_pending : list SymExpr;
  bs_seen : list SymExpr;
  bs_leaves : list SymBoolExpr;  (* insertion order *)
  bs_widths : Widths;
  bs_remaining : Z
}.

Definition index_insert (x : SymBoolExpr) (l : list SymBoolExpr) : list SymBoolExpr :=
  if existsb (bexpr_eqb x) l then l else l ++ [x].

Definition nonzero_leaf (word : SymExpr) : SymBoolExpr :=
  let '(w, z) := ordered_commutative_operands word zero in SBool.not_bool (BCmp Eq w z).

Definition bitwise_step (st : BitwiseState) : BitwiseState + option (list SymBoolExpr) :=
  match bs_pending st with
  | [] => inr (Some (bs_leaves st))
  | word :: rest =>
      if existsb (expr_eqb word) (bs_seen st) then
        inl {| bs_pending := rest; bs_seen := bs_seen st; bs_leaves := bs_leaves st;
               bs_widths := bs_widths st; bs_remaining := bs_remaining st |}
      else if bs_remaining st =? 0 then inr None
      else
        let seen := word :: bs_seen st in
        let remaining := bs_remaining st - 1 in
        match direct_bool_word_condition word with
        | Some condition =>
            inl {| bs_pending := rest; bs_seen := seen;
                   bs_leaves := index_insert condition (bs_leaves st);
                   bs_widths := bs_widths st; bs_remaining := remaining |}
        | None =>
            match word with
            | EBinOp Or l r =>
                inl {| bs_pending := l :: r :: rest; bs_seen := seen; bs_leaves := bs_leaves st;
                       bs_widths := bs_widths st; bs_remaining := remaining |}
            | _ =>
                match unsigned_bits_cached word (bs_widths st) remaining with
                | Some (Some 1, widths, remaining') =>
                    inl {| bs_pending := rest; bs_seen := seen;
                           bs_leaves := index_insert (nonzero_leaf word) (bs_leaves st);
                           bs_widths := widths; bs_remaining := remaining' |}
                | _ => inr None
                end
            end
        end
  end.

(** Every round but the ones that skip a seen word spends budget, and a round
    pushes at most two words. *)
Definition bitwise_fuel : nat := 1000.

Definition bitwise_bool_word_condition (e : SymExpr) : option SymBoolExpr :=
  match iterate bitwise_step bitwise_fuel
          {| bs_pending := [e]; bs_seen := []; bs_leaves := []; bs_widths := [];
             bs_remaining := MAX_BITWISE_BOOL_WORD_VISITS |} with
  | Some (Some leaves) => Some (SBool.or leaves)
  | _ => None
  end.

Definition binop_sub (l r : SymExpr) : SymExpr :=
  match as_const l, as_const r with
  | Some a, Some b => constant (binop_eval Sub a b)
  | ca, cb =>
      if const_is r is_zero then l
      else if expr_eqb l r then zero
      else match (if const_is r (u_eqb ONE) then bitwise_bool_word_condition l else None) with
           | Some c => ite c zero (constant MAX)
           | None =>
               match ca with
               | Some a =>
                   match bitwise_bool_word_condition r with
                   | Some c => ite c (constant (wrapping_sub a ONE)) (constant a)
                   | None => EBinOp Sub l r
                   end
               | None => EBinOp Sub l r
               end
           end
  end.

Definition binop_mul (l r : SymExpr) : SymExpr :=
  match as_const l, as_const r with
  | Some a, Some b => constant (binop_eval Mul a b)
  | _, _ =>
      if const_is l is_zero || const_is r is_zero then zero
      else if const_is l (u_eqb ONE) then r
      else if const_is r (u_eqb ONE) then l
      else
        let '(l, r) := ordered_commutative_operands l r in
        match direct_bool_word_condition l with
        | Some c => ite c r zero
        | None =>
            match direct_bool_word_condition r with
            | Some c => ite c l zero
            | None =>
                match option_bind _ _ power_of_two_shift (as_const r) with
                | Some shift => binop_shl l (constant (U shift))
                | None => EBinOp Mul l r
                end
            end
        end
  end.

(** [UDiv | SDiv]: [op] is one of the two. *)
Definition binop_div (op : SymBinOp) (l r : SymExpr) : SymExpr :=
  match as_const l, as_const r with
  | Some a, Some b => constant (binop_eval op a b)
  | _, cb =>
      if const_is r is_zero then zero
      else if const_is r (u_eqb ONE) then l
      else
        match (if SymBinOp_beq op UDiv then option_bind _ _ power_of_two_shift cb else None) with
        | Some shift =>
            match l with
            | EBinOp Sub value low_bits =>
                if match low_masked_source low_bits shift with
                   | Some source => expr_eqb source value | None => false end
                then binop_shr value (constant (U shift))
                else binop_shr l (constant (U shift))
            | _ => binop_shr l (constant (U shift))
            end
        | None => EBinOp op l r
        end
  end.

(** [URem | SRem]. *)
Definition binop_rem (op : SymBinOp) (l r : SymExpr) : SymExpr :=
  match as_const l, as_const r with
  | Some a, Some b => constant (binop_eval op a b)
  | _, cb =>
      if const_is r is_zero then zero
      else if const_is r (u_eqb ONE) then zero
      else
        match (if SymBinOp_beq op URem then option_bind _ _ power_of_two_shift cb else None) with
        | Some bits => and_const l (mask_bits MAX bits)
        | None => EBinOp op l r
        end
  end.

(** *** Addition.  [add] is the recursive call. *)
Definition add_with_const_ite (add : SymExpr -> SymExpr -> SymExpr) (other conditional : SymExpr)
  : option SymExpr :=
  match as_const other with
  | Some _ => None
  | None =>
      match conditional with
      | EIte c t e =>
          match as_const t, as_const e with
          | Some _, Some _ =>
              if duplicating_branchless_rewrite_fits other conditional
              then Some (ite c (add other t) (add other e)) else None
          | _, _ => None
          end
      | _ => None
      end
  end.

Definition add_default (add : SymExpr -> SymExpr -> SymExpr) (l r : SymExpr) : SymExpr :=
  let '(l, r) := ordered_commutative_operands l r in
  match add_with_const_ite add l r with
  | Some value => value
  | None => match add_with_const_ite add r l with
            | Some value => value
            | None => EBinOp Add l r
            end
  end.

(** [k] plus a word that may be a Boolean word. *)
Definition add_const_bool (default : SymExpr) (k : U256) (word : SymExpr) : SymExpr :=
  match (if u_eqb k MAX then bitwise_bool_word_condition word else None) with
  | Some c => ite c zero (constant MAX)
  | None => match bitwise_bool_word_condition word with
            | Some c => ite c (constant (wrapping_add k ONE)) (constant k)
            | None => default
            end
  end.

Definition add_body (add : SymExpr -> SymExpr -> SymExpr) (l r : SymExpr) : SymExpr :=
  match as_const l, as_const r with
  | Some a, Some b => constant (binop_eval Add a b)
  | Some a, None => if is_zero a then r else add_const_bool (add_default add l r) a r
  | None, Some b => if is_zero b then l else add_const_bool (add_default add l r) b l
  | None, None => add_default add l r
  end.

Fixpoint binop_add_fuel (fuel : nat) (l r : SymExpr) : SymExpr :=
  match fuel with
  | O => EBinOp Add l r
  | S f => add_body (binop_add_fuel f) l r
  end.

(** An arm of the recursive calls is a constant, and an addition with a
    constant operand makes no further call: two levels are enough. *)
Definition binop_add : SymExpr -> SymExpr -> SymExpr := binop_add_fuel 2.

(** *** Exclusive or.  [xor] is the recursive call. *)
Definition xor_with_shared_operand (base nested : SymExpr) : option SymExpr :=
  match nested with
  | EBinOp Xor l r =>
      if expr_eqb l base then Some r else if expr_eqb r base then Some l else None
  | _ => None
  end.

(** The delta [base ^ selected] of a product, and its selected word. *)
Definition xor_delta (base e : SymExpr) : option SymExpr := xor_with_shared_operand base e.

Definition xor_with_bool_select (base selector : SymExpr) : option SymExpr :=
  match selector with
  | EBinOp Mul l r =>
      let found := match xor_delta base l with
                   | Some selected => Some (r, selected)
                   | None => match xor_delta base r with
                             | Some selected => Some (l, selected)
                             | None => None
                             end
                   end in
      match found with
      | None => None
      | Some (condition_word, selected) =>
          option_map (fun c => ite c selected base) (bitwise_bool_word_condition condition_word)
      end
  | _ => None
  end.

Definition xor_with_zero_ite (xor : SymExpr -> SymExpr -> SymExpr) (base conditional : SymExpr)
  : option SymExpr :=
  match conditional with
  | EIte c t e =>
      if const_is t is_zero then
        if duplicating_branchless_rewrite_fits base conditional
        then Some (ite c base (xor base e)) else None
      else if const_is e is_zero then
        if duplicating_branchless_rewrite_fits base conditional
        then Some (ite c (xor base t) base) else None
      else None
  | _ => None
  end.

Definition first_some {A} (x y : option A) : option A := match x with Some a => Some a | None => y end.

Definition xor_body (xor : SymExpr -> SymExpr -> SymExpr) (l r : SymExpr) : SymExpr :=
  match as_const l, as_const r with
  | Some a, Some b => constant (binop_eval Xor a b)
  | _, _ =>
      if const_is l is_zero then r
      else if const_is r is_zero then l
      else if expr_eqb l r then zero
      else
        let '(l, r) := ordered_commutative_operands l r in
        match first_some (xor_with_shared_operand l r) (xor_with_shared_operand r l) with
        | Some value => value
        | None =>
        match first_some (xor_with_bool_select l r) (xor_with_bool_select r l) with
        | Some value => value
        | None =>
        match first_some (xor_with_zero_ite xor l r) (xor_with_zero_ite xor r l) with
        | Some value => value
        | None => EBinOp Xor l r
        end end end
  end.

Fixpoint binop_xor_fuel (fuel : nat) (l r : SymExpr) : SymExpr :=
  match fuel with
  | O => EBinOp Xor l r
  | S f => xor_body (binop_xor_fuel f) l r
  end.

(** A recursive call replaces an if-then-else by one of its arms. *)
Definition binop_xor (l r : SymExpr) : SymExpr := binop_xor_fuel (esize l + esize r) l r.

Definition binop (op : SymBinOp) (l r : SymExpr) : SymExpr :=
  match op with
  | Add => binop_add l r
  | Sub => binop_sub l r
  | Mul => binop_mul l r
  | UDiv | SDiv => binop_div op l r
  | URem | SRem => binop_rem op l r
  | And => binop_and l r
  | Or => binop_or l r
  | Xor => binop_xor l r
  | Shl => binop_shl l r
  | Shr => binop_shr l r
  | Sar => binop_sar l r
  end.

Definition ternop (op : SymTernOp) (l r modulus : SymExpr) : SymExpr :=
  if const_is modulus (fun m => is_zero m || u_eqb m ONE) then zero
  else match as_const l, as_const r, as_const modulus with
       | Some a, Some b, Some m => constant (ternop_eval op a b m)
       | _, _, cm =>
           match option_bind _ _ power_of_two_shift cm with
           | Some bits =>
               let value := binop (match op with AddMod => Add | MulMod => Mul end) l r in
               and_const value (mask_bits MAX bits)
           | None =>
               let '(l, r) := ordered_commutative_operands l r in
               ETernOp op l r modulus
           end
       end.
End Binop.
