(* ===== verification/SymSound.v ===== *)
(** * SymSound: the simplifying constructors keep the meaning of expressions

    [x ⊑ y] (refinement) says that whenever [x] evaluates under the model, [y]
    evaluates to the same word.  Every constructor of [SymSimpl] refines the
    plain node it stands for.  Refinement rather than equality, because a
    rewrite may drop an operand whose evaluation fails. *)

From Stdlib Require Import ZArith Lia Bool Btauto.
From stdpp Require Import base list option sets.
From S2P Require Import Prelude SymWord SymExpr SymSimpl.
Local Open Scope Z_scope.

Create HintDb symb.

(** ** The width analysis ends and never indexes an absent width *)
Section WidthTotal.
Abbreviation cached w e := (is_Some (assoc expr_eqb e w)).

Lemma node_bits_total w e :
  (forall c, c ∈ width_operands e -> cached w c) -> is_Some (node_bits w e).
Proof.
  intros Hc. destruct e as [| | | | | |[] l r|op l r m|c t e]; simpl in *; try by eexists.
  all: repeat match goal with
       | H : forall _, _ ∈ [?x; ?y] -> _ |- _ =>
           destruct (H x ltac:(set_solver)) as [? ->]; destruct (H y ltac:(set_solver)) as [? ->]; clear H
       | H : forall _, _ ∈ [?x] -> _ |- _ => destruct (H x ltac:(set_solver)) as [? Hx]; rewrite Hx; clear H
       | |- context [match as_const ?x with _ => _ end] => destruct (as_const x)
       | |- context [match shift_amount ?x with _ => _ end] => destruct (shift_amount x)
       end; by eexists.
Qed.

(** [above]: the nodes that sit on top of the rest of the stack. *)
Fixpoint stack_ok (w : Widths) (above : list SymExpr) (pending : list (SymExpr * bool)) : Prop :=
  match pending with
  | [] => True
  | (e, visited) :: rest =>
      (visited = true -> forall c, c ∈ width_operands e -> cached w c \/ c ∈ above) /\
      stack_ok w (e :: above) rest
  end.

Lemma stack_ok_weaken w w' above above' pending :
  (forall c, c ∈ above -> cached w' c \/ c ∈ above') ->
  (forall c, cached w c -> cached w' c) ->
  stack_ok w above pending -> stack_ok w' above' pending.
Proof.
  intros Ha Hw. revert above above' Ha.
  induction pending as [|[e f] rest IH]; intros above above' Ha; simpl; [done|].
  intros [H1 H2]. split.
  - intros Hf c Hc. destruct (H1 Hf c Hc) as [?|?]; auto.
  - apply (IH (e :: above)); [|done]. intros c [->|Hc]%elem_of_cons; [right; left|].
    destruct (Ha c Hc); [by left|right; by right].
Qed.

Lemma stack_ok_push w above cs rest :
  stack_ok w (rev cs ++ above) rest -> stack_ok w above (map (fun c => (c, false)) cs ++ rest).
Proof.
  revert above; induction cs as [|c cs IH]; intros above; simpl; [done|].
  intros H. split; [done|]. apply IH. by rewrite <- app_assoc in H.
Qed.

Fixpoint stack_size (pending : list (SymExpr * bool)) : nat :=
  match pending with
  | [] => 0
  | (e, visited) :: rest => (if visited then 1 else 2 * esize e) + stack_size rest
  end%nat.

Lemma stack_size_app p q : stack_size (p ++ q) = (stack_size p + stack_size q)%nat.
Proof. induction p as [|[e f] p IH]; simpl; [done|]. rewrite IH. lia. Qed.

Lemma esize_pos e : (1 <= esize e)%nat.
Proof. destruct e; simpl; lia. Qed.

Lemma width_operands_size e :
  (stack_size (map (fun c => (c, false)) (width_operands e)) + 2 <= 2 * esize e)%nat.
Proof.
  destruct e as [| | | | | |[] l r|op l r m|c t e]; simpl; repeat case_match; simpl; lia.
Qed.

Definition width_inv (st : WidthState) : Prop := stack_ok (ws_widths st) [] (ws_pending st).

Lemma width_step_inv st st' :
  width_inv st -> width_step st = inl st' ->
  width_inv st' /\ (stack_size (ws_pending st') < stack_size (ws_pending st))%nat.
Proof.
  unfold width_inv, width_step. destruct st as [[|[e f] rest] w rm]; simpl; [done|].
  intros [Hf Hrest]. pose proof (esize_pos e).
  destruct (assoc expr_eqb e w) as [b|] eqn:Ee.
  - intros; simplify_eq/=. split; [|destruct f; lia].
    eapply stack_ok_weaken, Hrest; [|done]. intros c ->%list_elem_of_singleton. left. by rewrite Ee.
  - destruct f; simpl.
    + destruct (node_bits w e) as [b|] eqn:Eb; [|done]. intros; simplify_eq/=. split; [|lia].
      eapply stack_ok_weaken, Hrest.
      * intros c ->%list_elem_of_singleton. left. simpl.
        destruct (expr_eqb_spec e e); [by eexists|done].
      * intros c Hc. simpl. destruct (expr_eqb c e); [by eexists|done].
    + destruct (rm =? 0); [done|]. intros; simplify_eq/=. split.
      * apply stack_ok_push. rewrite app_nil_r. simpl. split.
        { intros _ c Hc. right. by apply elem_of_rev. }
        eapply stack_ok_weaken, Hrest; [|done]. intros c ->%list_elem_of_singleton. right. left.
      * rewrite stack_size_app. simpl. pose proof (width_operands_size e). lia.
Qed.

Lemma width_no_panic st fuel :
  width_inv st -> iterate width_step fuel st <> Some WPanic.
Proof.
  intros Hi Hr. refine (iterate_ind width_step width_inv (fun r => r <> WPanic) _ _ fuel st _ Hi Hr _);
    [| |done].
  - intros s s' Hs Hstep. by eapply width_step_inv.
  - clear. intros s r Hs. unfold width_step.
    destruct s as [[|[e f] rest] w rm]; unfold width_inv in Hs; simpl in *; [naive_solver|].
    destruct (assoc expr_eqb e w); [done|]. destruct f; simpl; [|case_match; naive_solver].
    destruct (node_bits_total w e) as [b ->]; [|done].
    intros c Hc. destruct Hs as [Hs _]. destruct (Hs eq_refl c Hc) as [|Hn]; [done|].
    by apply not_elem_of_nil in Hn.
Qed.

Lemma unsigned_bits_cached_total e w remaining : is_Some (unsigned_bits_cached e w remaining).
Proof.
  unfold unsigned_bits_cached. destruct (assoc expr_eqb e w); [by eexists|].
  set (st := {| ws_pending := [(e, false)]; ws_widths := w; ws_remaining := remaining |}).
  assert (Hi : width_inv st) by done.
  destruct (iterate_total width_step width_inv (fun s => stack_size (ws_pending s)) width_step_inv
              (width_fuel e) st Hi) as [r Hr].
  { unfold width_fuel. simpl. lia. }
  rewrite Hr. destruct r; [by eexists|by eexists|].
  by destruct (width_no_panic st (width_fuel e) Hi).
Qed.
End WidthTotal.


(** The word of a Boolean. *)
Definition b2u (b : bool) : U256 := if b then ONE else ZERO.

Section Sound.
Context `{SA : SignedArith, HF : HashFns}.
Variable model : SymbolicModel.
Abbreviation den := (denote_word model).
Abbreviation denb := (denote_bool model).

Definition refines (x y : SymExpr) : Prop := forall v, den x = Some v -> den y = Some v.
Definition brefines (x y : SymBoolExpr) : Prop := forall v, denb x = Some v -> denb y = Some v.

#[global] Instance refines_preorder : PreOrder refines.
Proof. split; [intros x v; done | intros x y z Hxy Hyz v ?; eauto]. Qed.
#[global] Instance brefines_preorder : PreOrder brefines.
Proof. split; [intros x v; done | intros x y z Hxy Hyz v ?; eauto]. Qed.

(** Plain nodes are monotone. *)
#[global] Instance EBinOp_mono op : Proper (refines ==> refines ==> refines) (EBinOp op).
Proof.
  intros l l' Hl r r' Hr v. simpl.
  destruct (den l) as [a|] eqn:Ha, (den r) as [b|] eqn:Hb; try done.
  by rewrite (Hl _ Ha), (Hr _ Hb).
Qed.
#[global] Instance ENot_mono : Proper (refines ==> refines) ENot.
Proof.
  intros l l' Hl v. simpl. destruct (den l) as [a|] eqn:Ha; [|done]. by rewrite (Hl _ Ha).
Qed.
#[global] Instance ETernOp_mono op :
  Proper (refines ==> refines ==> refines ==> refines) (ETernOp op).
Proof.
  intros l l' Hl r r' Hr m m' Hm v. simpl.
  destruct (den l) as [a|] eqn:Ha, (den r) as [b|] eqn:Hb, (den m) as [c|] eqn:Hc; try done.
  by rewrite (Hl _ Ha), (Hr _ Hb), (Hm _ Hc).
Qed.
#[global] Instance EIte_mono : Proper (brefines ==> refines ==> refines ==> refines) EIte.
Proof.
  intros c c' Hc t t' Ht e e' He v. simpl.
  destruct (denb c) as [[]|] eqn:E; [| |done]; rewrite (Hc _ E); auto.
Qed.

(** Inversion of a denoting node. *)
Lemma den_binop_inv op l r v :
  den (EBinOp op l r) = Some v ->
  exists a b, den l = Some a /\ den r = Some b /\ v = binop_eval op a b.
Proof. simpl. destruct (den l), (den r); naive_solver. Qed.

Lemma den_binop_intro op l r a b :
  den l = Some a -> den r = Some b -> den (EBinOp op l r) = Some (binop_eval op a b).
Proof. simpl. by intros -> ->. Qed.

Lemma den_ite_inv c t e v :
  den (EIte c t e) = Some v ->
  exists b : bool, denb c = Some b /\ den (if b then t else e) = Some v.
Proof. simpl. destruct (denb c) as [[]|]; naive_solver. Qed.

Lemma den_ite_intro c t e (b : bool) v :
  denb c = Some b -> den (if b then t else e) = Some v -> den (EIte c t e) = Some v.
Proof. simpl. intros ->. by destruct b. Qed.

(** ** Constants *)
Lemma den_constant v : den (constant v) = Some v.
Proof.
  unfold constant. destruct (is_zero v) eqn:E; [by apply is_zero_true in E as ->|].
  by destruct (u_eqb_spec v ONE) as [->|].
Qed.
Lemma den_zero : den zero = Some ZERO. Proof. apply den_constant. Qed.
Lemma den_one : den one = Some ONE. Proof. apply den_constant. Qed.

Lemma as_const_den e c v : as_const e = Some c -> den e = Some v -> v = c.
Proof. destruct e; naive_solver. Qed.
Lemma as_const_den' e c : as_const e = Some c -> den e = Some c.
Proof. destruct e; naive_solver. Qed.
Lemma as_const_shape e c : as_const e = Some c -> e = EConst c.
Proof. destruct e; naive_solver. Qed.

Lemma const_is_inv e p v :
  const_is e p = true -> den e = Some v -> as_const e = Some v /\ p v = true.
Proof.
  unfold const_is. destruct (as_const e) as [c|] eqn:E; [|done].
  intros Hp Hv. by rewrite (as_const_den _ _ _ E Hv).
Qed.
Lemma const_is_shape e p : const_is e p = true -> exists c, e = EConst c /\ p c = true.
Proof. unfold const_is. destruct e; naive_solver. Qed.
Lemma const_zero_den e : const_is e is_zero = true -> den e = Some ZERO.
Proof. intros (c & -> & Hc)%const_is_shape. by apply is_zero_true in Hc as ->. Qed.
Lemma const_zero_val e v : const_is e is_zero = true -> den e = Some v -> v = ZERO.
Proof. intros H1 H2. rewrite const_zero_den in H2 by done. naive_solver. Qed.
Lemma const_eq_den e c : const_is e (u_eqb c) = true -> den e = Some c.
Proof. intros (c' & -> & Hc)%const_is_shape. by apply u_eqb_eq in Hc as ->. Qed.
Lemma const_eq_val e c v : const_is e (u_eqb c) = true -> den e = Some v -> v = c.
Proof. intros H1 H2. rewrite (const_eq_den _ _ H1) in H2. naive_solver. Qed.
Lemma shift_amount_den e s v :
  shift_amount e = Some s -> den e = Some v -> uval v = s /\ s <= usize_max.
Proof.
  unfold shift_amount, to_usize. destruct (as_const e) as [c|] eqn:E; [|done].
  intros Hs Hv. rewrite (as_const_den _ _ _ E Hv). case_match eqn:Hle; [|done].
  apply Z.leb_le in Hle. naive_solver.
Qed.

(** ** Boolean connectives *)
Lemma den_not_bool b : denb (SBool.not_bool b) = option_map negb (denb b).
Proof.
  destruct b; try done. simpl. destruct (denb b) as [[]|]; done.
Qed.

Lemma denote_all_app xs ys :
  denote_all model (xs ++ ys) =
  match denote_all model xs with Some true => denote_all model ys | r => r end.
Proof.
  induction xs as [|x xs IH]; simpl; [done|].
  destruct (denb x) as [[]|]; [apply IH|done|done].
Qed.

Lemma and_loop_spec values out :
  match SBool.and_loop out values with
  | Some out' => denote_all model out' = denote_all model (out ++ values)
  | None => denote_all model (out ++ values) <> Some true
  end.
Proof.
  revert out; induction values as [|v values IH]; intros out; simpl.
  { by rewrite app_nil_r. }
  assert (Hgo : match SBool.and_loop (out ++ [v]) values with
    | Some out' => denote_all model out' = denote_all model (out ++ v :: values)
    | None => denote_all model (out ++ v :: values) <> Some true end).
  { specialize (IH (out ++ [v])). by rewrite <- app_assoc in IH. }
  destruct v as [[]| |vs|]; try exact Hgo.
  - specialize (IH out). rewrite !denote_all_app in *. simpl. done.
  - rewrite denote_all_app. simpl. by destruct (denote_all model out) as [[]|].
  - specialize (IH (out ++ vs)). rewrite <- app_assoc in IH.
    assert (Heq : denote_all model (out ++ BAnd vs :: values) = denote_all model (out ++ vs ++ values)).
    { rewrite !denote_all_app. cbn [denote_all]. rewrite denote_BAnd. by destruct (denote_all model vs) as [[]|]. }
    rewrite Heq. exact IH.
Qed.

Lemma denote_all_single v : denote_all model [v] = denb v.
Proof. simpl. by destruct (denb v) as [[]|]. Qed.

Lemma den_and vs b : denote_all model vs = Some b -> denb (SBool.and vs) = Some b.
Proof.
  intros Hd. unfold SBool.and. pose proof (and_loop_spec vs []) as Hs.
  destruct (SBool.and_loop [] vs) as [out|]; simpl in Hs; rewrite Hd in Hs.
  - destruct out as [|v [|w out]]; [done| by rewrite denote_all_single in Hs |].
    by rewrite denote_BAnd.
  - destruct b; [done|]. done.
Qed.

Lemma denote_any_app xs ys :
  denote_any model (xs ++ ys) =
  match denote_any model xs with Some false => denote_any model ys | r => r end.
Proof.
  induction xs as [|x xs IH]; simpl; [done|].
  destruct (denb x) as [[]|]; [done|apply IH|done].
Qed.

Lemma or_loop_spec values out :
  match SBool.or_loop out values with
  | Some out' => denote_any model out' = denote_any model (out ++ values)
  | None => denote_any model (out ++ values) <> Some false
  end.
Proof.
  revert out; induction values as [|v values IH]; intros out; simpl.
  { by rewrite app_nil_r. }
  assert (Hgo : match SBool.or_loop (out ++ [v]) values with
    | Some out' => denote_any model out' = denote_any model (out ++ v :: values)
    | None => denote_any model (out ++ v :: values) <> Some false end).
  { specialize (IH (out ++ [v])). by rewrite <- app_assoc in IH. }
  destruct v as [[]| |vs|]; try exact Hgo.
  - rewrite denote_any_app. simpl. by destruct (denote_any model out) as [[]|].
  - specialize (IH out). rewrite !denote_any_app in *. simpl. done.
Qed.

Lemma denote_all_not vs :
  denote_all model (map SBool.not_bool vs) = option_map negb (denote_any model vs).
Proof.
  induction vs as [|v vs IH]; simpl; [done|]. rewrite den_not_bool.
  destruct (denb v) as [[]|]; simpl; done.
Qed.

Lemma den_or vs b : denote_any model vs = Some b -> denb (SBool.or vs) = Some b.
Proof.
  intros Hd. unfold SBool.or. pose proof (or_loop_spec vs []) as Hs.
  destruct (SBool.or_loop [] vs) as [out|]; simpl in Hs; rewrite Hd in Hs.
  - destruct out as [|v [|w out]]; [done| |].
    + simpl in Hs. by destruct (denb v) as [[]|].
    + rewrite den_not_bool. erewrite den_and; [|rewrite denote_all_not, Hs; done].
      simpl. by rewrite negb_involutive.
  - destruct b; [|done]. done.
Qed.
(** ** Boolean words and if-then-else *)
Lemma direct_bool_word_sound e c v :
  direct_bool_word_condition e = Some c -> den e = Some v ->
  exists b, denb c = Some b /\ v = b2u b.
Proof.
  destruct e as [| | | | | | | |c0 t e0]; try done. unfold direct_bool_word_condition.
  destruct (as_const t) as [tv|] eqn:Et, (as_const e0) as [ev|] eqn:Ee; try done.
  intros Hc (b & Hb & Hv)%den_ite_inv.
  destruct (u_eqb tv ONE && is_zero ev) eqn:E1; [|destruct (is_zero tv && u_eqb ev ONE) eqn:E2; [|done]].
  - apply andb_prop in E1 as [->%u_eqb_eq ->%is_zero_true]. simplify_eq.
    exists b. split; [done|]. destruct b; by eapply as_const_den.
  - apply andb_prop in E2 as [->%is_zero_true ->%u_eqb_eq]. simplify_eq.
    exists (negb b). rewrite den_not_bool, Hb. split; [done|]. destruct b; by eapply as_const_den.
Qed.

Lemma bool_word_condition_sound e c v :
  bool_word_condition e = Some c -> den e = Some v ->
  exists b, denb c = Some b /\ v = b2u b.
Proof.
  intros Hc. apply direct_bool_word_sound.
  destruct e as [| | | | | | | |c0 t e0]; try done. revert Hc. simpl.
  unfold bool_word_condition_from_parts. by repeat case_match.
Qed.

Lemma zero_check_sound c x b :
  SBool.zero_check_operand c = Some x -> denb c = Some b ->
  exists v, den x = Some v /\ b = is_zero v.
Proof.
  destruct c as [| | |[] l r]; try done. simpl. destruct r as [k| | | | | | | |]; try done.
  destruct (is_zero k) eqn:Ek; [|done]. intros [= ->]. apply is_zero_true in Ek as ->.
  simpl. destruct (den x) as [v|]; [|done]. intros [= <-]. eauto.
Qed.

Lemma ite_with_sound bw c t e :
  (forall c', refines (EIte c' one zero) (bw c')) ->
  refines (EIte c t e) (ite_with bw c t e).
Proof.
  intros Hbw v Hv. pose proof (den_ite_inv _ _ _ _ Hv) as (b & Hb & Hd).
  unfold ite_with. destruct (SBool.as_const c) as [cb|] eqn:Ec.
  { destruct c; try done. simpl in *. simplify_eq. by destruct b. }
  destruct (expr_eqb_spec t e) as [->|]; [by destruct b|].
  destruct (const_is t is_zero && self_div_expr_matches_zero_check c e) eqn:E1.
  { apply andb_prop in E1 as [Ht Hs]. apply Hbw. unfold self_div_expr_matches_zero_check in Hs.
    destruct (SBool.zero_check_operand c) as [x|] eqn:Ez; [|done].
    destruct (zero_check_sound _ _ _ Ez Hb) as (xv & Hx & ->).
    destruct e as [| | | | | |[] num d| |]; try done. simpl in Hs.
    apply andb_prop in Hs as [->%expr_eqb_eq ->%expr_eqb_eq].
    eapply den_ite_intro; [rewrite den_not_bool, Hb; done|].
    destruct (is_zero xv) eqn:Exv; cbn [negb].
    - rewrite den_zero. by rewrite (const_zero_val _ _ Ht Hd).
    - rewrite den_one. simpl in Hd. rewrite Hx in Hd. simpl in Hd. rewrite Exv in Hd.
      simplify_eq. f_equal. symmetry. unfold u_div. word_arith. unfold is_zero in Exv.
      apply Z.eqb_neq in Exv. by rewrite Z.div_same. }
  destruct (const_is t (u_eqb ONE) && _) eqn:E2.
  { apply andb_prop in E2 as [Ht Hs]. destruct (bool_word_condition e) as [c'|] eqn:Ee; [|done].
    apply bexpr_eqb_eq in Hs as ->. destruct e as [| | | | | | | |c1 t1 e1]; try done.
    simpl in Ee. unfold bool_word_condition_from_parts in Ee.
    destruct (as_const t1) as [tv|] eqn:Et1, (as_const e1) as [ev|] eqn:Ee1; try done.
    destruct (u_eqb_spec tv ONE) as [->|]; [|done]. destruct (is_zero ev); [|done]. simplify_eq/=.
    destruct b; [|exact Hd]. rewrite (const_eq_val _ _ _ Ht Hd).
    eapply den_ite_intro; [exact Hb|]. by apply as_const_den'. }
  destruct (const_is e is_zero && _) eqn:E3; [|exact Hv].
  apply andb_prop in E3 as [He Hs]. destruct (bool_word_condition t) as [c'|] eqn:Et; [|done].
  apply bexpr_eqb_eq in Hs as ->. destruct t as [| | | | | | | |c1 t1 e1]; try done.
  simpl in Et. unfold bool_word_condition_from_parts in Et.
  destruct (as_const t1) as [tv|] eqn:Et1, (as_const e1) as [ev|] eqn:Ee1; try done.
  destruct (u_eqb_spec tv ONE) as [->|]; [|done].
  destruct (is_zero ev) eqn:Eev; [|done]. simplify_eq/=. apply is_zero_true in Eev as ->.
  destruct b; [exact Hd|]. rewrite (const_zero_val _ _ He Hd).
  eapply den_ite_intro; [exact Hb|]. by apply as_const_den'.
Qed.

Lemma bool_word_sound c : refines (EIte c one zero) (bool_word c).
Proof. apply ite_with_sound. intros c'. reflexivity. Qed.

Lemma ite_sound c t e : refines (EIte c t e) (ite c t e).
Proof. apply ite_with_sound, bool_word_sound. Qed.

(** The form in which the other constructors use it. *)
Lemma den_ite c t e (b : bool) v :
  denb c = Some b -> den (if b then t else e) = Some v -> den (ite c t e) = Some v.
Proof. intros. eapply ite_sound, den_ite_intro; eauto. Qed.

Lemma den_ENot e v : den e = Some v -> den (ENot e) = Some (u_not v).
Proof. simpl. by intros ->. Qed.

Lemma den_not e v : den e = Some v -> den (sym_not e) = Some (u_not v).
Proof.
  intros Hv. destruct e; try (by apply den_ENot); simpl in *; simplify_eq.
  - apply den_constant.
  - destruct (den e) as [w|]; [|done]. simplify_eq/=. f_equal. word_bits.
Qed.

(** ** Commutative operators *)
Definition commutes (op : SymBinOp) : Prop := forall a b, binop_eval op a b = binop_eval op b a.

Lemma commutes_Add : commutes Add.
Proof. intros a b. simpl. unfold wrapping_add. f_equal. lia. Qed.
Lemma commutes_Mul : commutes Mul.
Proof. intros a b. simpl. unfold wrapping_mul. f_equal. lia. Qed.
Lemma commutes_And : commutes And.
Proof. intros a b. simpl. unfold u_and. f_equal. apply Z.land_comm. Qed.
Lemma commutes_Or : commutes Or.
Proof. intros a b. simpl. unfold u_or. f_equal. apply Z.lor_comm. Qed.
Lemma commutes_Xor : commutes Xor.
Proof. intros a b. simpl. unfold u_xor. f_equal. apply Z.lxor_comm. Qed.

Lemma ordered_cases l r :
  ordered_commutative_operands l r = (l, r) \/ ordered_commutative_operands l r = (r, l).
Proof. unfold ordered_commutative_operands. repeat case_match; auto. Qed.

Lemma commutative_binop_sound op l r :
  commutes op -> refines (EBinOp op l r) (commutative_binop op l r).
Proof.
  intros Hc v (a & b & Ha & Hb & ->)%den_binop_inv. unfold commutative_binop.
  destruct (ordered_cases l r) as [-> | ->]; [by apply den_binop_intro|].
  rewrite Hc. by apply den_binop_intro.
Qed.

(** ** Unsigned widths *)
Definition width_ok (e : SymExpr) (b : Z) : Prop :=
  0 <= b <= 256 /\ forall v, den e = Some v -> uval v < 2 ^ b.
Definition widths_ok (w : Widths) : Prop := Forall (fun '(e, b) => width_ok e b) w.

Lemma widths_lookup w e b : widths_ok w -> assoc expr_eqb e w = Some b -> width_ok e b.
Proof.
  intros Hw Ha. apply assoc_Some_in in Ha; [|intros; by apply expr_eqb_eq].
  by apply (proj1 (List.Forall_forall _ _) Hw (e, b)).
Qed.

Lemma uval_lt_pow x : uval x < 2 ^ 256.
Proof. apply uval_range. Qed.

Lemma width_ok_256 e : width_ok e 256.
Proof. split; [lia|]. intros v _. apply uval_range. Qed.

Lemma uval_U_le z : 0 <= z -> uval (U z) <= z.
Proof. intros. rewrite uval_U. apply Z.mod_le; [done|]. reflexivity. Qed.

Lemma width_add l r a b :
  width_ok l a -> width_ok r b -> width_ok (EBinOp Add l r) (Z.min (sat_add (Z.max a b) 1) 256).
Proof.
  intros [Ha Hl] [Hb Hr]. unfold sat_add. rewrite (Z.min_r usize_max) by (unfold usize_max; lia).
  split; [lia|]. intros v (x & y & Hx & Hy & ->)%den_binop_inv.
  apply Hl in Hx. apply Hr in Hy. cbn [binop_eval].
  apply Z.min_case_strong; [|intros; apply uval_lt_pow]. intros _.
  pose proof (uval_range x). pose proof (uval_range y).
  eapply Z.le_lt_trans; [apply uval_U_le; lia|]. rewrite Z.pow_add_r by lia.
  assert (2 ^ a <= 2 ^ Z.max a b) by (apply Z.pow_le_mono_r; lia).
  assert (2 ^ b <= 2 ^ Z.max a b) by (apply Z.pow_le_mono_r; lia). lia.
Qed.

Lemma width_mul l r a b :
  width_ok l a -> width_ok r b -> width_ok (EBinOp Mul l r) (Z.min (sat_add a b) 256).
Proof.
  intros [Ha Hl] [Hb Hr]. unfold sat_add. rewrite (Z.min_r usize_max) by (unfold usize_max; lia).
  split; [lia|]. intros v (x & y & Hx & Hy & ->)%den_binop_inv.
  apply Hl in Hx. apply Hr in Hy. cbn [binop_eval].
  apply Z.min_case_strong; [|intros; apply uval_lt_pow]. intros _.
  pose proof (uval_range x). pose proof (uval_range y).
  eapply Z.le_lt_trans; [apply uval_U_le; nia|]. rewrite Z.pow_add_r by lia.
  apply Z.mul_lt_mono_nonneg; lia.
Qed.

Lemma width_and l r b mask :
  as_const r = Some mask -> width_ok l b -> width_ok (EBinOp And l r) (Z.min b (bit_len mask)).
Proof.
  intros Hr [Hb Hl]. pose proof (bit_len_nonneg mask). split; [lia|].
  intros v (x & y & Hx & Hy & ->)%den_binop_inv.
  rewrite (as_const_den _ _ _ Hr Hy). apply Hl in Hx. cbn [binop_eval]. unfold u_and.
  pose proof (uval_range x). pose proof (uval_range mask).
  assert (Hbits : forall n z y, 0 <= n -> 0 <= z < 2 ^ n -> Z.land z y < 2 ^ n).
  { intros n z y' Hn Hz. rewrite <- (Z.mod_small z (2 ^ n)) by lia.
    rewrite <- Z.land_ones, <- Z.land_assoc, (Z.land_comm (Z.ones n)), Z.land_assoc, Z.land_ones by lia.
    apply Z.mod_pos_bound. lia. }
  eapply Z.le_lt_trans; [apply uval_U_le, Z.land_nonneg; lia|].
  apply Z.min_case; [apply Hbits; lia|]. rewrite Z.land_comm. apply Hbits; [lia|].
  pose proof (bit_len_bound mask). lia.
Qed.

Lemma width_shl l r b s :
  shift_amount r = Some s -> width_ok l b -> width_ok (EBinOp Shl l r) (Z.min (sat_add b s) 256).
Proof.
  intros Hr [Hb Hl]. split.
  { unfold sat_add, usize_max. unfold shift_amount, to_usize in Hr. repeat case_match; simplify_eq.
    pose proof (uval_range u). lia. }
  intros v (x & y & Hx & Hy & ->)%den_binop_inv.
  destruct (shift_amount_den _ _ _ Hr Hy) as [Hs Hsm]. apply Hl in Hx. cbn [binop_eval].
  apply Z.min_case_strong; [|intros; apply uval_lt_pow]. intros Hlt.
  unfold sat_add in *. rewrite Z.min_r in Hlt |- * by (unfold usize_max in *; lia).
  pose proof (uval_range x). pose proof (uval_range y). rewrite Hs in *.
  unfold u_leb. change (uval (U 256)) with 256. rewrite Hs.
  case_match; [rewrite uval_ZERO; lia|]. unfold u_shl.
  eapply Z.le_lt_trans; [apply uval_U_le, Z.shiftl_nonneg; lia|].
  rewrite Z.shiftl_mul_pow2, Z.pow_add_r by lia.
  apply Z.mul_lt_mono_pos_r; lia.
Qed.

Lemma width_shr l r b s :
  shift_amount r = Some s -> width_ok l b -> width_ok (EBinOp Shr l r) (Z.max (sat_sub b s) 1).
Proof.
  intros Hr [Hb Hl]. unfold sat_sub. split.
  { unfold shift_amount, to_usize in Hr. repeat case_match; simplify_eq. pose proof (uval_range u). lia. }
  intros v (x & y & Hx & Hy & ->)%den_binop_inv.
  destruct (shift_amount_den _ _ _ Hr Hy) as [Hs Hsm]. apply Hl in Hx. cbn [binop_eval].
  pose proof (uval_range x). pose proof (uval_range y). rewrite Hs in *.
  unfold u_leb. change (uval (U 256)) with 256. rewrite Hs.
  case_match; [rewrite uval_ZERO; lia|]. unfold u_shr.
  eapply Z.le_lt_trans; [apply uval_U_le, Z.shiftr_nonneg; lia|].
  rewrite Z.shiftr_div_pow2 by lia.
  apply Z.div_lt_upper_bound; [lia|]. eapply Z.lt_le_trans; [exact Hx|].
  rewrite <- Z.pow_add_r by lia. apply Z.pow_le_mono_r; lia.
Qed.

Lemma width_udiv l r b : width_ok l b -> width_ok (EBinOp UDiv l r) b.
Proof.
  intros [Hb Hl]. split; [done|]. intros v (x & y & Hx & Hy & ->)%den_binop_inv.
  apply Hl in Hx. cbn [binop_eval]. unfold is_zero. pose proof (uval_range x). pose proof (uval_range y).
  destruct (Z.eqb_spec (uval y) 0); [rewrite uval_ZERO; lia|]. unfold u_div.
  eapply Z.le_lt_trans; [apply uval_U_le, Z.div_pos; lia|].
  eapply Z.le_lt_trans; [apply Z.div_le_upper_bound with (q := uval x); nia | done].
Qed.

Lemma width_ternop op l r m b : width_ok m b -> width_ok (ETernOp op l r m) b.
Proof.
  intros [Hb Hm]. split; [done|]. intros v. simpl.
  destruct (den l) as [x|], (den r) as [y|], (den m) as [z|]; try done. intros [= <-].
  specialize (Hm z eq_refl). unfold ternop_eval, is_zero. pose proof (uval_range z).
  destruct (Z.eqb_spec (uval z) 0); [rewrite uval_ZERO; lia|].
  assert (Hmod : forall a, uval (U (a mod uval z)) < 2 ^ b).
  { intros a. pose proof (Z.mod_pos_bound a (uval z)). eapply Z.le_lt_trans; [apply uval_U_le|]; lia. }
  destruct op; apply Hmod.
Qed.

Lemma width_ite c l r a b : width_ok l a -> width_ok r b -> width_ok (EIte c l r) (Z.max a b).
Proof.
  intros [Ha Hl] [Hb Hr]. split; [lia|]. intros v ([] & _ & Hv)%den_ite_inv.
  - eapply Z.lt_le_trans; [by apply Hl|]. apply Z.pow_le_mono_r; lia.
  - eapply Z.lt_le_trans; [by apply Hr|]. apply Z.pow_le_mono_r; lia.
Qed.

Lemma node_bits_sound w e b : widths_ok w -> node_bits w e = Some b -> width_ok e b.
Proof.
  intros Hw. destruct e as [c| | | | | |op l r|op l r m|c t e]; simpl; try (intros [= <-]; apply width_ok_256).
  - intros [= <-]. pose proof (bit_len_nonneg c). pose proof (bit_len_le_256 c).
    split; [lia|]. intros v [= <-]. eapply Z.lt_le_trans; [apply bit_len_bound|].
    apply Z.pow_le_mono_r; lia.
  - destruct op; try (intros [= <-]; apply width_ok_256); repeat case_match; intros; simplify_eq/=;
      try apply width_ok_256;
      repeat match goal with
      | H : fmap _ _ = Some _ |- _ => apply fmap_Some in H as (? & ? & ?); simplify_eq
      | H : option_map _ _ = Some _ |- _ => apply fmap_Some in H as (? & ? & ?); simplify_eq
      | H : assoc expr_eqb _ _ = Some _ |- _ => apply (widths_lookup _ _ _ Hw) in H
      end;
      eauto using width_add, width_mul, width_and, width_shl, width_shr, width_udiv.
  - intros Hm. eapply width_ternop, widths_lookup; eauto.
  - repeat case_match; intros; simplify_eq/=. apply width_ite; eapply widths_lookup; eauto.
Qed.

Lemma width_loop_sound e fuel w rem r :
  widths_ok w ->
  iterate width_step fuel {| ws_pending := [(e, false)]; ws_widths := w; ws_remaining := rem |} = Some r ->
  match r with WDone w' _ | WExhausted w' => widths_ok w' | WPanic => True end.
Proof.
  intros Hw.
  apply (iterate_ind width_step (fun st => widths_ok (ws_widths st))
    (fun r => match r with WDone w' _ | WExhausted w' => widths_ok w' | WPanic => True end)); [| |done]; clear.
  - intros [[|[e f] rest] w rm] s' Hw; unfold width_step; simpl in *; [done|].
    repeat case_match; intros; simplify_eq/=; try done.
    constructor; [|done]. by eapply node_bits_sound.
  - intros [[|[e f] rest] w rm] r Hw; unfold width_step; simpl in *; repeat case_match; intros; simplify_eq/=; done.
Qed.

Lemma unsigned_bits_cached_sound e w rem b w' rem' :
  widths_ok w -> unsigned_bits_cached e w rem = Some (Some b, w', rem') ->
  width_ok e b /\ widths_ok w'.
Proof.
  intros Hw. unfold unsigned_bits_cached. destruct (assoc expr_eqb e w) as [b0|] eqn:Ea.
  { intros; simplify_eq. split; [by eapply widths_lookup|done]. }
  destruct (iterate _ _ _) as [[w0 r0|w0|]|] eqn:Ei; try done.
  apply (width_loop_sound _ _ _ _ _ Hw) in Ei. intros; simplify_eq.
  split; [by eapply widths_lookup|done].
Qed.

Lemma unsigned_bits_ok e : width_ok e (unsigned_bits e).
Proof.
  unfold unsigned_bits.
  destruct (unsigned_bits_cached e [] usize_max) as [[[[b|] w'] r']|] eqn:E; try apply width_ok_256.
  eapply unsigned_bits_cached_sound, E. constructor.
Qed.


(** ** Known bytes *)
Lemma known_byte_sound e index b v :
  0 <= index <= 31 -> known_byte e index = Some b -> den e = Some v -> b = be_byte v index.
Proof.
  revert index b v. induction e as [e IH] using (induction_ltof1 _ esize). unfold ltof in IH.
  intros index b v Hi.
  destruct e as [c| | | | |x|op l r| |c t e']; simpl; try done.
  - naive_solver.
  - intros (b0 & Hb & ->)%fmap_Some Hv. destruct (den x) as [w|] eqn:Hw; [|done]. simplify_eq/=.
    rewrite (IH x ltac:(simpl; lia) _ _ _ Hi Hb Hw). symmetry. by apply be_byte_not.
  - assert (Hl : forall index b v, 0 <= index <= 31 -> known_byte l index = Some b -> den l = Some v -> b = be_byte v index).
    { intros; eapply IH; eauto. simpl; lia. }
    assert (Hr : forall index b v, 0 <= index <= 31 -> known_byte r index = Some b -> den r = Some v -> b = be_byte v index).
    { intros; eapply IH; eauto. simpl; lia. }
    clear IH. destruct op; try done.
    all: intros Hk (x & y & Hx & Hy & ->)%den_binop_inv; cbn [binop_eval].
    + rewrite be_byte_and by done.
      destruct (known_byte l index) as [a|] eqn:Ea; [rewrite <- (Hl _ _ _ Hi Ea Hx)|];
      destruct (known_byte r index) as [b'|] eqn:Eb; try rewrite <- (Hr _ _ _ Hi Eb Hy);
        repeat case_match; simplify_eq; try done.
      * by rewrite (proj1 (Z.eqb_eq _ _) H).
      * rewrite (proj1 (Z.eqb_eq _ _) H). by rewrite Z.land_0_r.
    + rewrite be_byte_or by done. repeat case_match; simplify_eq. f_equal; eauto.
    + rewrite be_byte_xor by done. repeat case_match; simplify_eq. f_equal; eauto.
    + destruct (as_const r) as [s|] eqn:Er; [|done]. rewrite (as_const_den _ _ _ Er Hy).
      destruct (u_leb (U 256) s) eqn:E256; [by simplify_eq|].
      destruct (Z.eqb_spec (uval s mod 8) 0) as [Hm|]; simpl in Hk; [|done].
      pose proof (uval_range s). rewrite be_byte_shl by (done || lia).
      case_match eqn:Hs; [by simplify_eq|]. apply Z.leb_gt in Hs.
      apply (Hl (index + uval s / 8)); [|done|done]. pose proof (Z.div_pos (uval s) 8). lia.
    + destruct (as_const r) as [s|] eqn:Er; [|done]. rewrite (as_const_den _ _ _ Er Hy).
      destruct (u_leb (U 256) s) eqn:E256; [by simplify_eq|].
      destruct (Z.eqb_spec (uval s mod 8) 0) as [Hm|]; simpl in Hk; [|done].
      pose proof (uval_range s). rewrite be_byte_shr by (done || lia).
      case_match eqn:Hs; [by simplify_eq|]. apply Z.ltb_ge in Hs.
      apply (Hl (index - uval s / 8)); [|done|done]. pose proof (Z.div_pos (uval s) 8). lia.
  - destruct (known_byte t index) as [a|] eqn:Ea; [|done].
    destruct (known_byte e' index) as [b'|] eqn:Eb; [|done].
    destruct (Z.eqb_spec a b') as [->|]; [|done]. intros; simplify_eq.
    destruct (denb c) as [[]|]; [| |done].
    + eapply (IH t); eauto. simpl; lia.
    + eapply (IH e'); eauto. simpl; lia.
Qed.

Lemma known_bytes_spec e n idx bs v :
  known_bytes_from e idx n = Some bs -> den e = Some v -> (idx + n <= 32)%nat ->
  bs = map (fun i => be_byte v (Z.of_nat i)) (seq idx n).
Proof.
  intros Hk Hv. revert idx bs Hk. induction n as [|n IH]; intros idx bs Hk Hle; simpl in *; [by simplify_eq|].
  destruct (known_byte e (Z.of_nat idx)) as [b|] eqn:Eb; [|done].
  apply fmap_Some in Hk as (bs' & Hbs & ->). f_equal; [|apply IH; [done|lia]].
  eapply known_byte_sound; eauto. lia.
Qed.

Lemma known_word_sound e w v : known_word e = Some w -> den e = Some v -> v = w.
Proof.
  unfold known_word. intros (bs & Hbs & ->)%fmap_Some Hv.
  rewrite (known_bytes_spec _ _ _ _ _ Hbs Hv) by lia. symmetry. apply be_value_bytes.
Qed.


(** ** Rebuilding a word from an OR of its parts *)
Abbreviation bit v i := (Z.testbit (uval v) i).
(** [v] is a part of [s]; [v] has the byte [index] of [s]. *)
Definition part_of (v s : U256) : Prop := forall i, 0 <= i -> bit v i = true -> bit s i = true.
Definition has_byte (v s : U256) (index : Z) : Prop :=
  0 <= index <= 31 /\ forall j, 0 <= j < 8 -> bit v (8 * (31 - index) + j) = bit s (8 * (31 - index) + j).

Lemma part_of_refl v : part_of v v.
Proof. by intros i. Qed.
Lemma part_of_bit v s i : part_of v s -> 0 <= i -> bit s i = false -> bit v i = false.
Proof. intros H Hi Hs. apply not_true_is_false. intros Hv%H; congruence. Qed.

Lemma bit_range v i : bit v i = true -> i < 256.
Proof. intros H. destruct (Z.ltb_spec i 256); [done|]. by rewrite testbit_high in H by lia. Qed.

Lemma strip_sound e v :
  den e = Some v ->
  exists w, den (strip_low_byte_mask e) = Some w /\ part_of v w /\ has_byte v w 31.
Proof.
  revert v. induction e as [e IH] using (induction_ltof1 _ esize). unfold ltof in IH. intros v Hv.
  assert (Hid : exists w, den e = Some w /\ part_of v w /\ has_byte v w 31) 
    by (exists v; split_and!; [done|apply part_of_refl|split; [lia|done]]).
  destruct e as [| | | | | |[] l r| |]; try exact Hid. simpl.
  destruct (const_is r (u_eqb (U 255))) eqn:Er; [|exact Hid]. clear Hid.
  apply den_binop_inv in Hv as (x & y & Hx & Hy & ->).
  rewrite (const_eq_val _ _ _ Er Hy). cbn [binop_eval].
  destruct (IH l ltac:(simpl; lia) x Hx) as (w & Hw & Hp & _ & Hb). exists w. split; [done|].
  assert (Hm : forall i, 0 <= i < 256 -> bit (u_and x (U 255)) i = bit x i && (i <? 8)).
  { intros i Hi. rewrite testbit_u_and, testbit_U by done. f_equal. apply (Z.testbit_ones_nonneg 8); lia. }
  split; [|split; [lia|]].
  - intros i Hi H. pose proof (bit_range _ _ H). rewrite Hm in H by lia.
    apply andb_prop in H as [H _]. by apply Hp.
  - intros j Hj. rewrite Hm by lia. rewrite <- Hb by done. destruct (Z.ltb_spec (8 * (31 - 31) + j) 8); [by rewrite andb_true_r|lia].
Qed.

Lemma shr_bits x s i :
  0 <= i < 256 -> bit (binop_eval Shr x s) i = bit x (i + uval s).
Proof.
  intros Hi. simpl. unfold u_leb. change (uval (U 256)) with 256. pose proof (uval_range s).
  destruct (Z.leb_spec 256 (uval s)); [|by apply testbit_u_shr].
  rewrite testbit_ZERO. symmetry. apply testbit_high. lia.
Qed.
Lemma shl_bits x s i :
  0 <= i < 256 -> bit (binop_eval Shl x s) i = bit x (i - uval s).
Proof.
  intros Hi. simpl. unfold u_leb. change (uval (U 256)) with 256. pose proof (uval_range s).
  destruct (Z.leb_spec 256 (uval s)); [|by apply testbit_u_shl].
  rewrite testbit_ZERO. symmetry. apply Z.testbit_neg_r. lia.
Qed.

(** The byte, shifted back into its place, is a part of the source. *)
Lemma extracted_byte_source_sound e index source v :
  0 <= index <= 31 -> extracted_byte_source e index = Some source -> den e = Some v ->
  exists s, den source = Some s /\
    (forall i, 0 <= i -> bit v i = true -> bit s (i + 8 * (31 - index)) = true) /\
    (forall j, 0 <= j < 8 -> bit v j = bit s (8 * (31 - index) + j)).
Proof.
  intros Hi He Hv. destruct (strip_sound _ _ Hv) as (w & Hw & Hp & _ & Hb).
  unfold extracted_byte_source in He. revert He Hw. generalize (strip_low_byte_mask e) as e'.
  intros e' He Hw. destruct (Z.eqb_spec index 31) as [->|].
  { simplify_eq. exists w. split; [done|]. split; [|exact Hb].
    intros i Hi' H. replace (i + 8 * (31 - 31)) with i by lia. by apply Hp. }
  destruct e' as [| | | | | |[] src sh| |]; try done.
  destruct (as_const sh) as [s|] eqn:Es; [|done].
  destruct (u_eqb_spec s (U ((31 - index) * 8))) as [->|]; [|done]. simplify_eq.
  apply den_binop_inv in Hw as (x & y & Hx & Hy & ->). exists x. split; [done|].
  rewrite (as_const_den _ _ _ Es Hy) in *.
  assert (Hs : uval (U ((31 - index) * 8)) = 8 * (31 - index)).
  { rewrite uval_U_small; [lia|]. change word_modulus with (2 ^ 256). lia. }
  split.
  - intros i Hi' H. pose proof (bit_range _ _ H). apply Hp in H; [|done].
    rewrite shr_bits in H by lia. by rewrite Hs in H.
  - intros j Hj. specialize (Hb j Hj). replace (8 * (31 - 31) + j) with j in Hb by lia.
    rewrite Hb, shr_bits, Hs by lia. f_equal. lia.
Qed.

Lemma extracted_term_sound e source index v :
  extracted_shifted_byte_term e = Some (source, index) -> den e = Some v ->
  exists s, den source = Some s /\ part_of v s /\ has_byte v s index.
Proof.
  assert (Hplain : forall e v source, extracted_byte_source e 31 = Some source -> den e = Some v ->
    exists s, den source = Some s /\ part_of v s /\ has_byte v s 31).
  { clear. intros e v source He Hv.
    destruct (extracted_byte_source_sound e 31 source v ltac:(lia) He Hv) as (s & Hs & Hp & Hb).
    exists s. split; [done|]. split; [|split; [lia|]].
    - intros i Hi H. apply Hp in H; [|done]. by rewrite Z.add_0_r in H.
    - intros j Hj. rewrite <- Hb by done. f_equal; lia. }
  assert (Hdef : option_map (fun s => (s, 31)) (extracted_unshifted_byte_source e 31) = Some (source, index) ->
     den e = Some v -> exists s, den source = Some s /\ part_of v s /\ has_byte v s index).
  { intros (src & Hsrc & Heq)%fmap_Some Hv. simplify_eq. by apply (Hplain e v). }
  destruct e as [| | | | | |[] byte sh| |]; try exact Hdef. clear Hdef. unfold extracted_shifted_byte_term.
  destruct (shift_amount sh) as [s|] eqn:Es; [|done].
  destruct (negb (s mod 8 =? 0) || (248 <? s)) eqn:Ec; [done|].
  apply orb_false_iff in Ec as [Em%negb_false_iff%Z.eqb_eq Ele%Z.ltb_ge].
  intros (src & Hsrc & Heq)%fmap_Some (x & y & Hx & Hy & ->)%den_binop_inv. simplify_eq.
  destruct (shift_amount_den _ _ _ Es Hy) as [Hsv _]. pose proof (uval_range y).
  pose proof (Z.div_mod s 8 ltac:(lia)) as Hd.
  assert (Hidx : 0 <= 31 - s / 8 <= 31) by (pose proof (Z.div_pos s 8); lia).
  destruct (extracted_byte_source_sound _ _ _ _ Hidx Hsrc Hx) as (w & Hw & Hp & Hb).
  exists w. split; [done|]. split; [|split; [done|]].
  - intros i Hi H'. pose proof (bit_range _ _ H'). rewrite shl_bits in H' by lia.
    destruct (Z.ltb_spec i (uval y)); [by rewrite Z.testbit_neg_r in H' by lia|].
    apply Hp in H'; [|lia]. by replace (i - uval y + 8 * (31 - (31 - s / 8))) with i in H' by lia.
  - intros j Hj. rewrite shl_bits by lia. rewrite <- Hb by done. f_equal. lia.
Qed.

Lemma or_terms_bits e v :
  den e = Some v ->
  exists vs, Forall2 (fun t w => den t = Some w) (or_terms e) vs /\
    forall i, 0 <= i < 256 -> bit v i = existsb (fun w => bit w i) vs.
Proof.
  revert v. induction e as [e IH] using (induction_ltof1 _ esize). unfold ltof in IH. intros v Hv.
  assert (Hid : exists vs, Forall2 (fun t w => den t = Some w) [e] vs /\
    forall i, 0 <= i < 256 -> bit v i = existsb (fun w => bit w i) vs).
  { exists [v]. split; [by repeat constructor|]. intros; simpl. by rewrite orb_false_r. }
  destruct e as [| | | | | |[] l r| |]; try exact Hid. clear Hid. simpl.
  apply den_binop_inv in Hv as (x & y & Hx & Hy & ->).
  destruct (IH l ltac:(simpl; lia) x Hx) as (xs & Hxs & Hxb).
  destruct (IH r ltac:(simpl; lia) y Hy) as (ys & Hys & Hyb).
  exists (xs ++ ys). split; [by apply Forall2_app|].
  intros i Hi. cbn [binop_eval]. rewrite testbit_u_or, existsb_app by done. by rewrite Hxb, Hyb.
Qed.

Lemma byte_terms_loop_sound terms vs source seen s seen' :
  byte_terms_loop source seen terms = Some (Some s, seen') ->
  Forall2 (fun t w => den t = Some w) terms vs ->
  (source = Some s \/ source = None /\ exists sv, den s = Some sv) /\
  forall sv, den s = Some sv ->
    Forall (fun w => part_of w sv) vs /\
    forall i, i ∈ seen' -> i ∈ seen \/ exists w, w ∈ vs /\ has_byte w sv i.
Proof.
  intros Hl Hf. revert source seen Hl. induction Hf as [|t w terms vs Ht _ IH]; intros source seen Hl; simpl in Hl.
  { simplify_eq. split; [by left|]. intros sv Hs. split; [done|]. auto. }
  destruct (const_is t is_zero) eqn:Ez.
  { rewrite (const_zero_val _ _ Ez Ht). destruct (IH _ _ Hl) as [H1 H2]. split; [done|].
    intros sv Hs. destruct (H2 sv Hs) as [H3 H4]. split.
    - constructor; [|done]. intros i _. by rewrite testbit_ZERO.
    - intros i Hi. destruct (H4 i Hi) as [|(w' & ? & ?)]; [by left|right; exists w'; set_solver]. }
  destruct (extracted_shifted_byte_term t) as [[ts idx]|] eqn:Et; [|done].
  destruct (extracted_term_sound _ _ _ _ Et Ht) as (tv & Htv & Hp & Hb).
  assert (Hgo : byte_terms_loop (Some ts) (idx :: seen) terms = Some (Some s, seen') /\
                (source = Some ts \/ source = None)).
  { destruct source as [s0|]; [|auto]. destruct (expr_eqb_spec s0 ts) as [->|]; [auto|done]. }
  destruct Hgo as [Hgo Hsrc]. destruct (IH _ _ Hgo) as [[H1|[H1 _]] H2]; [|done]. simplify_eq.
  split; [destruct Hsrc; eauto|]. intros sv Hs. assert (sv = tv) as -> by congruence.
  destruct (H2 tv Hs) as [H3 H4]. split; [by constructor|].
  intros i Hi. destruct (H4 i Hi) as [[->|Hin]%elem_of_cons|(w' & ? & ?)].
  - right. exists w. set_solver.
  - by left.
  - right. exists w'. set_solver.
Qed.

Lemma byte_seen_elem seen i : byte_seen seen i = true -> i ∈ seen.
Proof.
  unfold byte_seen. intros (x & Hx & ->%Z.eqb_eq)%existsb_exists. by apply list_elem_of_In.
Qed.

Lemma rebuild_bytes_sound terms vs e v :
  rebuild_from_extracted_byte_terms terms = Some e ->
  Forall2 (fun t w => den t = Some w) terms vs ->
  (forall i, 0 <= i < 256 -> bit v i = existsb (fun w => bit w i) vs) ->
  den e = Some v.
Proof.
  unfold rebuild_from_extracted_byte_terms. destruct (length terms <=? 1)%nat; [done|].
  destruct (byte_terms_loop None [] terms) as [[[s|] seen]|] eqn:El; try done.
  destruct (forallb _ byte_indices) eqn:Ef; [|done]. intros [= <-] Hf Hv.
  destruct (byte_terms_loop_sound _ _ _ _ _ _ El Hf) as [[H|[_ (sv & Hs)]] Hall]; [done|].
  destruct (Hall sv Hs) as [Hp Hseen]. clear Hall. rewrite Hs. f_equal. apply u_bits_eq. intros i Hi.
  rewrite Hv by done. symmetry.
  assert (Hex : existsb (fun w => bit w i) vs = true -> bit sv i = true).
  { intros (w & Hw & Hb)%existsb_exists. apply (proj1 (List.Forall_forall _ _) Hp w Hw); [lia|done]. }
  destruct (bit sv i) eqn:Eb; [|destruct (existsb _ _); [by symmetry; apply Hex|done]].
  set (index := 31 - i / 8).
  assert (Hidx : 0 <= index <= 31).
  { unfold index. pose proof (Z.div_pos i 8). pose proof (Z.div_lt_upper_bound i 8 32). lia. }
  assert (Hi8 : i = 8 * (31 - index) + i mod 8).
  { unfold index. pose proof (Z.div_mod i 8). lia. }
  pose proof (Z.mod_pos_bound i 8).
  rewrite forallb_forall in Ef. specialize (Ef index). rewrite orb_true_iff in Ef.
  destruct Ef as [Hs'|Hk].
  - unfold byte_indices. apply in_map_iff. exists (Z.to_nat index). split; [lia|]. apply in_seq. lia.
  - apply byte_seen_elem in Hs'. destruct (Hseen index Hs') as [Hn|(w & Hw & _ & Hb)]; [by apply not_elem_of_nil in Hn|].
    apply existsb_exists. exists w. split; [by apply list_elem_of_In|].
    rewrite Hi8, Hb, <- Hi8 by lia. done.
  - destruct (known_byte s index) as [b|] eqn:Ek; [|done]. apply Z.eqb_eq in Hk as ->.
    pose proof (known_byte_sound _ _ _ _ Hidx Ek Hs) as H0.
    rewrite Hi8, <- be_byte_bits, <- H0, Z.bits_0 in Eb by lia. done.
Qed.


Lemma ones_bits b i : 0 <= b <= 256 -> 0 <= i -> Z.testbit (Z.ones b) i = (i <? b).
Proof. intros. apply Z.testbit_ones_nonneg; lia. Qed.

Lemma low_fragment_sound e l bits v :
  low_word_fragment e = Some (l, bits) -> den e = Some v ->
  0 <= bits <= 256 /\ exists s, den l = Some s /\ forall i, 0 <= i < 256 -> bit v i = bit s i && (i <? bits).
Proof.
  destruct e as [| | | | | |[] a r| |]; try done. unfold low_word_fragment.
  destruct (as_const r) as [m|] eqn:Er; [|done].
  intros (b & [Hb Hm]%mask_low_bits_Some & Heq)%fmap_Some (x & y & Hx & Hy & ->)%den_binop_inv.
  simplify_eq. split; [done|]. exists x. split; [done|]. intros i Hi.
  rewrite (as_const_den _ _ _ Er Hy). cbn [binop_eval].
  rewrite testbit_u_and, Hm by lia. f_equal. apply ones_bits; lia.
Qed.

Lemma high_fragment_sound e source bits v :
  shifted_high_word_fragment e = Some (source, bits) -> den e = Some v ->
  exists s, den source = Some s /\ forall i, 0 <= i < 256 -> bit v i = bit s i && (bits <=? i).
Proof.
  destruct e as [| | | | | |[] value sh| |]; try done. unfold shifted_high_word_fragment.
  destruct (shift_amount sh) as [s|] eqn:Es; [|done].
  destruct ((s =? 0) || (256 <=? s)) eqn:Ec; [done|].
  apply orb_false_iff in Ec as [E0%Z.eqb_neq E256%Z.leb_gt].
  destruct value as [| | | | | |[] inner m| |]; try done. unfold shifted_low_fragment_source.
  destruct (as_const m) as [mask|] eqn:Em; [|done]. unfold shifted_low_fragment_source_with_mask.
  destruct (mask_low_bits mask) as [width|] eqn:Ew; [|done]. apply mask_low_bits_Some in Ew as [Hw Hmask].
  destruct inner as [| | | | | |[] src sh2| |]; 
    try (destruct (Z.eqb_spec 0 s); [lia|done]).
  destruct (shift_amount sh2) as [s2|] eqn:Es2; [|done]. simpl option_map.
  cbn beta iota. destruct (Z.eqb_spec s2 s) as [->|]; [|done]. cbn [andb].
  destruct (Z.eqb_spec width (256 - s)) as [->|]; [|done]. intros Heq; simplify_eq.
  intros (x & y & Hx & Hy & ->)%(den_binop_inv Shl).
  apply (den_binop_inv And) in Hx as (x1 & y1 & Hx1 & Hy1 & ->).
  apply (den_binop_inv Shr) in Hx1 as (x2 & y2 & Hx2 & Hy2 & ->).
  exists x2. split; [done|]. intros i Hi.
  destruct (shift_amount_den _ _ _ Es Hy) as [Hs _]. destruct (shift_amount_den _ _ _ Es2 Hy2) as [Hs2 _].
  pose proof (uval_range y). rewrite (as_const_den _ _ _ Em Hy1). rewrite shl_bits, Hs by done.
  destruct (Z.leb_spec bits i); [|by rewrite Z.testbit_neg_r, andb_false_r by lia].
  change (binop_eval And ?a ?b) with (u_and a b).
  rewrite testbit_u_and, Hmask, ones_bits, shr_bits, Hs2, andb_true_r by lia.
  replace (i - bits + bits) with i by lia. destruct (Z.ltb_spec (i - bits) (256 - bits)); [|lia].
  by rewrite andb_true_r.
Qed.

Lemma fragments_cover low high (sl sh : U256) bits :
  sl = sh -> (forall i, 0 <= i < 256 -> bit low i = bit sl i && (i <? bits)) ->
  (forall i, 0 <= i < 256 -> bit high i = bit sh i && (bits <=? i)) ->
  forall i, 0 <= i < 256 -> bit low i || bit high i = bit sl i.
Proof.
  intros -> Hl Hh i Hi. rewrite Hl, Hh by done. rewrite Z.leb_antisym.
  destruct (i <? bits); simpl; btauto.
Qed.

Lemma rebuild_fragments_sound terms vs e v :
  rebuild_from_shifted_word_fragments terms = Some e ->
  Forall2 (fun t w => den t = Some w) terms vs ->
  (forall i, 0 <= i < 256 -> bit v i = existsb (fun w => bit w i) vs) ->
  den e = Some v.
Proof.
  intros Hr Hf Hv. destruct Hf as [|t0 w0 ? ? H0 Hf]; [done|].
  destruct Hf as [|t1 w1 ? ? H1 Hf]; [done|]. destruct Hf; [|done]. simpl in Hr, Hv.
  assert (Hgo : forall tl th wl wh s bl bh s',
    low_word_fragment tl = Some (s, bl) -> shifted_high_word_fragment th = Some (s', bh) ->
    den tl = Some wl -> den th = Some wh ->
    (forall i, 0 <= i < 256 -> bit v i = bit wl i || bit wh i) ->
    (if expr_eqb s s' && (bl =? bh) then Some s else None) = Some e -> den e = Some v).
  { clear. intros tl th wl wh s bl bh s' Hl Hh Hdl Hdh Hv Hc.
    destruct (expr_eqb_spec s s') as [<-|]; [|done]. destruct (Z.eqb_spec bl bh) as [<-|]; [|done].
    simpl in Hc. simplify_eq.
    destruct (low_fragment_sound _ _ _ _ Hl Hdl) as (_ & x & Hx & Hbx).
    destruct (high_fragment_sound _ _ _ _ Hh Hdh) as (y & Hy & Hby).
    rewrite Hx. f_equal. apply u_bits_eq. intros i Hi. rewrite Hv by done. symmetry.
    apply (fragments_cover wl wh x y bl); [congruence|done|done|done]. }
  destruct (low_word_fragment t0) as [[s0 b0]|] eqn:El0, (low_word_fragment t1) as [[s1 b1]|] eqn:El1; try done;
  destruct (shifted_high_word_fragment t0) as [[s0' b0']|] eqn:Eh0, (shifted_high_word_fragment t1) as [[s1' b1']|] eqn:Eh1; try done.
  - eapply (Hgo t0 t1); eauto. intros i Hi. rewrite Hv by done. btauto.
  - eapply (Hgo t1 t0); eauto. intros i Hi. rewrite Hv by done. btauto.
Qed.

Lemma rebuild_sound l r e : rebuild_from_or_terms l r = Some e -> refines (EBinOp Or l r) e.
Proof.
  unfold rebuild_from_or_terms. intros Hr v Hv.
  destruct (or_terms_bits _ _ Hv) as (vs & Hvs & Hb). simpl in Hvs.
  destruct (rebuild_from_extracted_byte_terms _) as [e'|] eqn:E1.
  - simplify_eq. by eapply rebuild_bytes_sound.
  - by eapply rebuild_fragments_sound.
Qed.

(** ** Shared facts on operators *)
Lemma or_zero_l a : binop_eval Or ZERO a = a. Proof. cbn [binop_eval]. word_bits. Qed.
Lemma or_zero_r a : binop_eval Or a ZERO = a. Proof. cbn [binop_eval]. word_bits. Qed.
Lemma or_max_l a : binop_eval Or MAX a = MAX. Proof. cbn [binop_eval]. word_bits. Qed.
Lemma or_max_r a : binop_eval Or a MAX = MAX. Proof. cbn [binop_eval]. word_bits. Qed.
Lemma or_diag a : binop_eval Or a a = a. Proof. cbn [binop_eval]. word_bits. Qed.
Lemma and_zero_l a : binop_eval And ZERO a = ZERO. Proof. cbn [binop_eval]. word_bits. Qed.
Lemma and_zero_r a : binop_eval And a ZERO = ZERO. Proof. cbn [binop_eval]. word_bits. Qed.
Lemma and_max_l a : binop_eval And MAX a = a. Proof. cbn [binop_eval]. word_bits. Qed.
Lemma and_max_r a : binop_eval And a MAX = a. Proof. cbn [binop_eval]. word_bits. Qed.
Lemma and_diag a : binop_eval And a a = a. Proof. cbn [binop_eval]. word_bits. Qed.
Lemma xor_zero_l a : binop_eval Xor ZERO a = a. Proof. cbn [binop_eval]. word_bits. Qed.
Lemma xor_zero_r a : binop_eval Xor a ZERO = a. Proof. cbn [binop_eval]. word_bits. Qed.
Lemma xor_diag a : binop_eval Xor a a = ZERO. Proof. cbn [binop_eval]. word_bits. Qed.
Lemma xor_assoc_l a b : binop_eval Xor a (binop_eval Xor a b) = b. Proof. cbn [binop_eval]. word_bits. Qed.
Lemma and_or_distr a b m :
  binop_eval And (binop_eval Or a b) m = binop_eval Or (binop_eval And a m) (binop_eval And b m).
Proof. cbn [binop_eval]. word_bits. Qed.
Lemma and_and_same a m : binop_eval And (binop_eval And a m) m = binop_eval And a m.
Proof. cbn [binop_eval]. word_bits. Qed.
Lemma shl_zero_l s : binop_eval Shl ZERO s = ZERO.
Proof. apply u_bits_eq. intros. by rewrite shl_bits, !testbit_ZERO. Qed.
Lemma shl_zero_r a : binop_eval Shl a ZERO = a.
Proof. apply u_bits_eq. intros. rewrite shl_bits by done. rewrite uval_ZERO. f_equal. lia. Qed.
Lemma shr_zero_l s : binop_eval Shr ZERO s = ZERO.
Proof. apply u_bits_eq. intros. by rewrite shr_bits, !testbit_ZERO. Qed.
Lemma shr_zero_r a : binop_eval Shr a ZERO = a.
Proof. apply u_bits_eq. intros. rewrite shr_bits by done. rewrite uval_ZERO. f_equal. lia. Qed.
Lemma shr_or a b s :
  binop_eval Shr (binop_eval Or a b) s = binop_eval Or (binop_eval Shr a s) (binop_eval Shr b s).
Proof.
  apply u_bits_eq. intros i Hi. cbn [binop_eval].
  change (if u_leb (U 256) s then ZERO else u_shr ?a (uval s)) with (binop_eval Shr a s).
  rewrite testbit_u_or by done. rewrite !(shr_bits _ _ i) by done. pose proof (uval_range s).
  destruct (Z.ltb_spec (i + uval s) 256); [by rewrite testbit_u_or by lia|].
  by rewrite !testbit_high by lia.
Qed.

(** The operands of a denoting operator, with what the guards say of them. *)
Ltac operands :=
  let Hd := fresh "Hd" in
  match goal with
  | |- refines (EBinOp _ ?l ?r) _ =>
      intros ? Hd; apply den_binop_inv in Hd as (?a & ?b & ?Ha & ?Hb & ->)
  end.
Ltac guards :=
  repeat match goal with
  | H : const_is ?e is_zero = true, D : denote_word _ ?e = Some ?v |- _ =>
      is_var v; assert (v = ZERO) by exact (const_zero_val e v H D); subst v
  | H : const_is ?e (u_eqb ?c) = true, D : denote_word _ ?e = Some ?v |- _ =>
      is_var v; assert (v = c) by exact (const_eq_val e c v H D); subst v
  | H : as_const ?e = Some ?c, D : denote_word _ ?e = Some ?v |- _ =>
      is_var v; assert (v = c) by exact (as_const_den e c v H D); first [subst v | subst c]
  | H : _ || _ = true |- _ => apply orb_prop in H as [H|H]
  | H : _ && _ = true |- _ => apply andb_prop in H as [? H]
  end.

(** ** OR *)
Lemma sym_or_sound l r : refines (EBinOp Or l r) (sym_or l r).
Proof.
  unfold sym_or. destruct (rebuild_from_or_terms l r) as [e|] eqn:E; [by apply rebuild_sound|].
  apply commutative_binop_sound, commutes_Or.
Qed.

Lemma absorbing_ite_sound conditional other e a b :
  or_with_absorbing_ite conditional other = Some e ->
  den conditional = Some a -> den other = Some b -> den e = Some (binop_eval Or a b).
Proof.
  destruct conditional as [| | | | | | | |c t f]; try done. unfold or_with_absorbing_ite.
  intros He (cb & Hc & Hd)%den_ite_inv Hb.
  destruct (const_is t is_zero && _) eqn:E1; [|destruct (const_is t (u_eqb MAX) && _) eqn:E2; [|done]];
    simplify_eq; guards; (eapply den_ite; [exact Hc|]); destruct cb; guards;
    rewrite ?or_zero_l, ?or_max_l; done.
Qed.

Lemma binop_or_sound l r : refines (EBinOp Or l r) (binop_or l r).
Proof.
  unfold binop_or. operands. destruct (as_const l) as [x|] eqn:El, (as_const r) as [y|] eqn:Er.
  { guards. by rewrite den_constant. }
  all: destruct (const_is l is_zero) eqn:?; [guards; by rewrite or_zero_l|].
  all: destruct (const_is r is_zero) eqn:?; [guards; by rewrite or_zero_r|].
  all: destruct (expr_eqb_spec l r) as [->|]; [replace b with a by congruence; by rewrite or_diag|].
  all: destruct (or_with_absorbing_ite l r) as [e|] eqn:E1; [by eapply absorbing_ite_sound|].
  all: destruct (or_with_absorbing_ite r l) as [e|] eqn:E2; [rewrite commutes_Or; by eapply absorbing_ite_sound|].
  all: apply sym_or_sound; by apply den_binop_intro.
Qed.


(** ** Shifts *)
Lemma shl_big a s : u_leb (U 256) s = true -> binop_eval Shl a s = ZERO.
Proof. simpl. by intros ->. Qed.
Lemma shr_big a s : u_leb (U 256) s = true -> binop_eval Shr a s = ZERO.
Proof. simpl. by intros ->. Qed.

Lemma binop_shl_sound l r : refines (EBinOp Shl l r) (binop_shl l r).
Proof.
  unfold binop_shl. operands. destruct (as_const l) as [x|] eqn:El, (as_const r) as [y|] eqn:Er.
  { guards. by rewrite den_constant. }
  all: destruct (const_is r is_zero) eqn:?; [guards; by rewrite shl_zero_r|].
  all: destruct (const_is l is_zero) eqn:?; [guards; by rewrite shl_zero_l, den_zero|].
  all: destruct (const_is r (u_leb (U 256))) eqn:Eb; [|by apply den_binop_intro].
  all: apply (const_is_inv _ _ _ Eb) in Hb as [_ Hb]; by rewrite shl_big, den_zero by done.
Qed.

Lemma shr_narrow x s w : 0 <= w -> uval x < 2 ^ w -> w <= uval s -> binop_eval Shr x s = ZERO.
Proof.
  intros Hw Hx Hs. apply u_bits_eq. intros i Hi. rewrite shr_bits, testbit_ZERO by done.
  pose proof (uval_range x). rewrite <- (Z.mod_small (uval x) (2 ^ w)) by lia.
  apply Z.mod_pow2_bits_high. lia.
Qed.

Lemma shr_shl_narrow x s :
  uval s < 256 -> uval x < 2 ^ (256 - uval s) -> binop_eval Shr (binop_eval Shl x s) s = x.
Proof.
  intros Hs Hx. apply u_bits_eq. intros i Hi. pose proof (uval_range s). pose proof (uval_range x).
  rewrite shr_bits by done. destruct (Z.ltb_spec (i + uval s) 256).
  - rewrite shl_bits by lia. f_equal. lia.
  - rewrite testbit_high by lia. rewrite <- (Z.mod_small (uval x) (2 ^ (256 - uval s))) by lia.
    symmetry. apply Z.mod_pow2_bits_high. lia.
Qed.

Lemma shr_const_sound e s v :
  den e = Some v -> den (shr_const e s) = Some (binop_eval Shr v s).
Proof.
  revert v. induction e as [e IH] using (induction_ltof1 _ esize). unfold ltof in IH. intros v Hv.
  assert (Hfall : den (EBinOp Shr e (constant s)) = Some (binop_eval Shr v s)).
  { apply den_binop_intro; [done|apply den_constant]. }
  pose proof (unsigned_bits_ok e) as [Hw Hwv].
  assert (Hhead : forall k, den k = Some (binop_eval Shr v s) ->
    den (if is_zero s then e else if u_leb (U 256) s then zero
         else if unsigned_bits e <=? uval s then zero else k) = Some (binop_eval Shr v s)).
  { intros k Hk. destruct (is_zero s) eqn:Ez; [apply is_zero_true in Ez as ->; by rewrite shr_zero_r|].
    destruct (u_leb (U 256) s) eqn:Eb; [by rewrite shr_big, den_zero|].
    destruct (Z.leb_spec (unsigned_bits e) (uval s)); [|done].
    rewrite (shr_narrow v s (unsigned_bits e)), den_zero; auto; lia. }
  destruct e as [| | | | | |op l r| |]; cbn [shr_const]; try (by apply Hhead).
  destruct op; try (by apply Hhead).
  - apply Hhead. apply den_binop_inv in Hv as (a & b & Ha & Hb & ->).
    rewrite shr_or in *.
    pose proof (IH l ltac:(simpl; lia) a Ha) as Hl. pose proof (IH r ltac:(simpl; lia) b Hb) as Hr.
    destruct (const_is (shr_const l s) is_zero) eqn:?.
    { rewrite (const_zero_val _ _ Heqb0 Hl). by rewrite or_zero_l. }
    destruct (const_is (shr_const r s) is_zero) eqn:?; [|done].
    rewrite (const_zero_val _ _ Heqb1 Hr). by rewrite or_zero_r.
  - destruct (is_zero s) eqn:Ez; [apply is_zero_true in Ez as ->; by rewrite shr_zero_r|].
    destruct (u_leb (U 256) s) eqn:Eb; [by rewrite shr_big, den_zero|].
    destruct (Z.leb_spec (unsigned_bits (EBinOp Shl l r)) (uval s)).
    { rewrite (shr_narrow v s (unsigned_bits (EBinOp Shl l r))), den_zero; auto; lia. }
    destruct (const_is r (u_eqb s) && _) eqn:Ec; [|done]. apply andb_prop in Ec as [Er Ei%Z.leb_le].
    apply den_binop_inv in Hv as (a & b & Ha & Hb & ->). guards.
    rewrite shr_shl_narrow; [done| |].
    + unfold u_leb in Eb. change (uval (U 256)) with 256 in Eb. by apply Z.leb_gt.
    + pose proof (unsigned_bits_ok l) as [Hw' Hl]. eapply Z.lt_le_trans; [by apply Hl|].
      apply Z.pow_le_mono_r; lia.
Qed.

Lemma binop_shr_sound l r : refines (EBinOp Shr l r) (binop_shr l r).
Proof.
  unfold binop_shr. operands. destruct (as_const l) as [x|] eqn:El, (as_const r) as [y|] eqn:Er.
  { guards. by rewrite den_constant. }
  all: destruct (const_is r is_zero) eqn:?; [guards; by rewrite shr_zero_r|].
  all: destruct (const_is l is_zero) eqn:?; [guards; by rewrite shr_zero_l, den_zero|].
  all: try (by apply den_binop_intro).
  guards. by apply shr_const_sound.
Qed.

Lemma sar_zero_r a : binop_eval Sar a ZERO = a.
Proof.
  change (binop_eval Sar a ZERO) with (arithmetic_shr a (uval ZERO)).
  unfold arithmetic_shr, signed. rewrite uval_ZERO. word_arith. rewrite Z.shiftr_0_r.
  pose proof (uval_range a). case_match; [by apply Z.mod_small|].
  replace (uval a - word_modulus) with (uval a + (-1) * word_modulus) by lia.
  rewrite Z_mod_plus_full. by apply Z.mod_small.
Qed.

Lemma binop_sar_sound l r : refines (EBinOp Sar l r) (binop_sar l r).
Proof.
  unfold binop_sar. operands. destruct (as_const l) as [x|] eqn:El, (as_const r) as [y|] eqn:Er.
  { guards. by rewrite den_constant. }
  all: destruct (const_is r is_zero) eqn:?; [guards; by rewrite sar_zero_r|].
  all: by apply den_binop_intro.
Qed.

(** ** AND *)
Lemma and_const_sound e m v :
  den e = Some v -> den (and_const e m) = Some (binop_eval And v m).
Proof.
  revert v. induction e as [e IH] using (induction_ltof1 _ esize). unfold ltof in IH. intros v Hv.
  assert (Hfall : den (EBinOp And e (constant m)) = Some (binop_eval And v m)).
  { apply den_binop_intro; [done|apply den_constant]. }
  assert (Hhead : forall k, den k = Some (binop_eval And v m) ->
    den (if is_zero m then zero else if u_eqb m MAX then e else k) = Some (binop_eval And v m)).
  { intros k Hk. destruct (is_zero m) eqn:Ez; [apply is_zero_true in Ez as ->; by rewrite and_zero_r, den_zero|].
    destruct (u_eqb_spec m MAX) as [->|]; [|done]. by rewrite and_max_r. }
  destruct e as [c| | | | | |op l r| |]; cbn [and_const]; apply Hhead; try done.
  { simpl in Hv. simplify_eq. apply den_constant. }
  destruct op; try done; apply den_binop_inv in Hv as (a & b & Ha & Hb & ->).
  - destruct (const_is r (u_eqb m)) eqn:Er.
    { guards. rewrite and_and_same. apply IH; [simpl; lia|done]. }
    destruct (expr_eqb_spec l r) as [->|]; [|done].
    replace b with a by congruence. rewrite and_diag. apply IH; [simpl; lia|done].
  - rewrite and_or_distr. apply binop_or_sound, den_binop_intro; apply IH; simpl; lia || done.
  - destruct (mask_low_bits m) as [bits|] eqn:Em; [|done].
    destruct (shift_amount r) as [s|] eqn:Es; [|done].
    destruct (Z.leb_spec bits s); [|done]. rewrite den_zero. f_equal.
    apply mask_low_bits_Some in Em as [Hbits Hm]. destruct (shift_amount_den _ _ _ Es Hb) as [Hs _].
    apply u_bits_eq. intros i Hi. rewrite testbit_ZERO. symmetry.
    change (binop_eval And ?x ?y) with (u_and x y). rewrite testbit_u_and, Hm, ones_bits, shl_bits by lia.
    destruct (Z.ltb_spec i bits); [|by rewrite andb_false_r].
    rewrite Z.testbit_neg_r by lia. done.
Qed.

Lemma binop_and_sound l r : refines (EBinOp And l r) (binop_and l r).
Proof.
  unfold binop_and. operands. destruct (as_const l) as [x|] eqn:El, (as_const r) as [y|] eqn:Er.
  { guards. by rewrite den_constant. }
  all: destruct (const_is l is_zero || const_is r is_zero) eqn:?;
    [guards; by rewrite ?and_zero_l, ?and_zero_r, den_zero|].
  all: destruct (const_is l (u_eqb MAX)) eqn:?; [guards; by rewrite and_max_l|].
  all: destruct (const_is r (u_eqb MAX)) eqn:?; [guards; by rewrite and_max_r|].
  all: destruct (expr_eqb_spec l r) as [->|]; [replace b with a by congruence; by rewrite and_diag|].
  - guards. rewrite commutes_And. by apply and_const_sound.
  - guards. by apply and_const_sound.
  - apply commutative_binop_sound; [apply commutes_And | by apply den_binop_intro].
Qed.


(** ** Boolean words found by scanning ORs *)
Definition covered (leaves : list SymBoolExpr) (pending : list SymExpr) (bound : nat) (i : Z) : Prop :=
  (i = 0 /\ exists c, c ∈ leaves /\ denb c = Some true) \/
  (exists w wv, w ∈ pending /\ (esize w < bound)%nat /\ den w = Some wv /\ bit wv i = true).

(** The bits of [v] are those of the pending words and the true leaves, and
    what a seen word stands for is still there in smaller words. *)
Record scan_inv (v : U256) (leaves : list SymBoolExpr) (pending seen : list SymExpr) : Prop := {
  scan_pending : forall w, w ∈ pending -> exists wv, den w = Some wv /\ part_of wv v;
  scan_leaves : forall c, c ∈ leaves -> exists b, denb c = Some b /\ (b = true -> bit v 0 = true);
  scan_bits : forall i, bit v i = true -> exists n, covered leaves pending n i;
  scan_seen : forall s sv i, s ∈ seen -> den s = Some sv -> bit sv i = true ->
                covered leaves pending (esize s) i
}.

Lemma covered_replace leaves leaves' w wv ps rest n i :
  (forall c, c ∈ leaves -> c ∈ leaves') -> den w = Some wv ->
  (bit wv i = true -> covered leaves' (ps ++ rest) (esize w) i) ->
  covered leaves (w :: rest) n i -> covered leaves' (ps ++ rest) n i.
Proof.
  intros Hl Hw Hc [(-> & c & Hin & Hb)|(x & xv & Hin & Hn & Hx & Hb)].
  - left. split; [done|]. exists c. auto.
  - apply elem_of_cons in Hin as [->|Hin].
    + simplify_eq. destruct (Hc Hb) as [?|(y & yv & ? & ? & ? & ?)]; [by left|].
      right. exists y, yv. split_and!; try done. lia.
    + right. exists x, xv. split_and!; try done. set_solver.
Qed.

Lemma scan_replace v leaves leaves' w wv ps rest seen :
  scan_inv v leaves (w :: rest) seen -> den w = Some wv ->
  (forall c, c ∈ leaves -> c ∈ leaves') ->
  (forall c, c ∈ leaves' -> c ∈ leaves \/ exists b, denb c = Some b /\ (b = true -> bit wv 0 = true)) ->
  (forall p, p ∈ ps -> exists pv, den p = Some pv /\ part_of pv wv) ->
  (forall i, bit wv i = true -> covered leaves' (ps ++ rest) (esize w) i) ->
  scan_inv v leaves' (ps ++ rest) (w :: seen).
Proof.
  intros [Hp Hl Hb Hs] Hw Hsub Hnew Hps Hc.
  destruct (Hp w (list_elem_of_here _ _)) as (wv' & Hw' & Hpart). simplify_eq. split.
  - intros x [Hx|Hx]%elem_of_app; [|apply Hp; by right].
    destruct (Hps x Hx) as (pv & ? & Hpv). exists pv. split; [done|]. intros i Hi Hbi. apply Hpart; auto.
  - intros c Hc'. destruct (Hnew c Hc') as [?|(b & ? & Hb0)]; [auto|].
    exists b. split; [done|]. intros E. apply Hpart; auto with lia.
  - intros i Hi. destruct (Hb i Hi) as [n Hn]. exists n. by apply (covered_replace _ _ _ _ _ _ _ _ Hsub Hw (Hc i)).
  - intros s sv i [->|Hin]%elem_of_cons Hsv Hbit.
    + apply Hc. congruence.
    + apply (covered_replace _ _ _ _ _ _ _ _ Hsub Hw (Hc i)). eauto.
Qed.

Lemma index_insert_elem x l c : c ∈ index_insert x l <-> c = x \/ c ∈ l.
Proof.
  unfold index_insert. destruct (existsb (bexpr_eqb x) l) eqn:E; [|set_solver].
  apply existsb_exists in E as (y & Hy & <-%bexpr_eqb_eq). apply list_elem_of_In in Hy. set_solver.
Qed.

Lemma bit_b2u b i : bit (b2u b) i = true -> i = 0 /\ b = true.
Proof.
  destruct b; simpl b2u; [|by rewrite testbit_ZERO]. rewrite uval_ONE. intros H.
  destruct (Z.eq_dec i 0) as [->|]; [done|]. exfalso.
  destruct (Z.ltb_spec i 0); [by rewrite Z.testbit_neg_r in H|].
  change 1 with (2 ^ 0) in H. by rewrite Z.pow2_bits_false in H by lia.
Qed.

(** A word that is 0 or 1 is scanned as a leaf. *)
Lemma scan_leaf v leaves w wv c b rest seen :
  scan_inv v leaves (w :: rest) seen -> den w = Some wv -> wv = b2u b -> denb c = Some b ->
  scan_inv v (index_insert c leaves) rest (w :: seen).
Proof.
  intros Hi Hw -> Hc. apply (scan_replace _ _ _ _ _ [] _ _ Hi Hw).
  - intros ? ?. apply index_insert_elem. by right.
  - intros c' [->|?]%index_insert_elem; [right|by left]. exists b. split; [done|]. by intros ->.
  - intros p Hp. by apply not_elem_of_nil in Hp.
  - intros i [-> ->]%bit_b2u. left. split; [done|]. exists c. split; [|done]. apply index_insert_elem. by left.
Qed.

Lemma den_nonzero_leaf w wv : den w = Some wv -> denb (nonzero_leaf w) = Some (negb (is_zero wv)).
Proof.
  intros Hw. unfold nonzero_leaf. destruct (ordered_cases w zero) as [-> | ->]; simpl.
  - by rewrite Hw.
  - rewrite Hw. simpl. unfold u_eqb, is_zero. by rewrite Z.eqb_sym.
Qed.

Lemma one_bit_word w : uval w < 2 -> w = b2u (negb (is_zero w)).
Proof.
  intros H. pose proof (uval_range w). apply uval_inj. unfold is_zero.
  destruct (Z.eqb_spec (uval w) 0) as [E|]; cbn [negb b2u]; [by rewrite E|]. rewrite uval_ONE. lia.
Qed.

Definition bitwise_inv (v : U256) (st : BitwiseState) : Prop :=
  scan_inv v (bs_leaves st) (bs_pending st) (bs_seen st) /\ widths_ok (bs_widths st).

Lemma scan_skip v leaves w rest seen :
  scan_inv v leaves (w :: rest) seen -> w ∈ seen -> scan_inv v leaves rest seen.
Proof.
  intros Hi Hin. pose proof Hi as [Hp Hl Hb Hs].
  destruct (Hp w (list_elem_of_here _ _)) as (wv & Hw & _).
  assert (Hcov : forall i, bit wv i = true -> covered leaves ([] ++ rest) (esize w) i).
  { intros i Hbi. destruct (Hs w wv i Hin Hw Hbi) as [?|(x & xv & [->|Hx]%elem_of_cons & ? & ? & ?)]; [by left|lia|].
    right. exists x, xv. done. }
  destruct (scan_replace v leaves leaves w wv [] rest seen Hi Hw) as [H1 H2 H3 H4]; auto.
  { intros p Hnil. by apply not_elem_of_nil in Hnil. }
  split; auto. intros s sv i Hs' ? ?. eapply H4; eauto. by right.
Qed.

Lemma scan_or v leaves l r rest seen :
  scan_inv v leaves (EBinOp Or l r :: rest) seen ->
  scan_inv v leaves (l :: r :: rest) (EBinOp Or l r :: seen).
Proof.
  intros Hi. destruct (scan_pending _ _ _ _ Hi _ (list_elem_of_here _ _)) as (wv & Hw & _).
  pose proof (den_binop_inv _ _ _ _ Hw) as (a & b & Ha & Hb & ->).
  apply (scan_replace _ leaves leaves _ _ [l; r] rest seen Hi Hw); [auto|auto| |].
  - intros p Hp. assert (p = l \/ p = r) as [-> | ->] by set_solver.
    + exists a. split; [done|]. intros i Hi' Hbit. pose proof (bit_range _ _ Hbit).
      cbn [binop_eval]. by rewrite testbit_u_or, Hbit by lia.
    + exists b. split; [done|]. intros i Hi' Hbit. pose proof (bit_range _ _ Hbit).
      cbn [binop_eval]. by rewrite testbit_u_or, Hbit, orb_true_r by lia.
  - intros i Hbit. right. pose proof (bit_range _ _ Hbit).
    destruct (Z.ltb_spec i 0); [by rewrite Z.testbit_neg_r in Hbit|].
    cbn [binop_eval] in Hbit. rewrite testbit_u_or in Hbit by lia.
    apply orb_prop in Hbit as [Hbit|Hbit]; [exists l, a|exists r, b]; simpl; split_and!; try done; try lia; set_solver.
Qed.

Lemma bitwise_step_inv v st st' :
  bitwise_inv v st -> bitwise_step st = inl st' -> bitwise_inv v st'.
Proof.
  destruct st as [[|w rest] seen leaves widths rem]; unfold bitwise_inv, bitwise_step; simpl; [done|].
  intros [Hi Hw]. destruct (existsb (expr_eqb w) seen) eqn:Es.
  { intros; simplify_eq/=. split; [|done]. apply (scan_skip _ _ w); [done|].
    apply existsb_exists in Es as (y & Hy & <-%expr_eqb_eq). by apply list_elem_of_In. }
  destruct (rem =? 0); [done|].
  destruct (scan_pending _ _ _ _ Hi w (list_elem_of_here _ _)) as (wv & Hwv & _).
  destruct (direct_bool_word_condition w) as [c|] eqn:Ed.
  { intros; simplify_eq/=. split; [|done].
    destruct (direct_bool_word_sound _ _ _ Ed Hwv) as (b & Hb & Hv). by eapply scan_leaf. }
  assert (Hnarrow : match unsigned_bits_cached w widths (rem - 1) with
    | Some (Some 1, w', rem') => inl {| bs_pending := rest; bs_seen := w :: seen;
        bs_leaves := index_insert (nonzero_leaf w) leaves; bs_widths := w'; bs_remaining := rem' |}
    | _ => inr None end = (inl st' : BitwiseState + option (list SymBoolExpr)) ->
    scan_inv v (bs_leaves st') (bs_pending st') (bs_seen st') /\ widths_ok (bs_widths st')).
  { destruct (unsigned_bits_cached w widths (rem - 1)) as [[[[bits|] w'] rem']|] eqn:Eu; try done.
    destruct (Z.eq_dec bits 1) as [->|]; [|by repeat case_match].
    intros; simplify_eq/=. destruct (unsigned_bits_cached_sound _ _ _ _ _ _ Hw Eu) as [[_ Hlt] Hw'].
    split; [|done]. eapply scan_leaf; [done|done|apply one_bit_word, Hlt; done|by apply den_nonzero_leaf]. }
  destruct w as [| | | | | |[] l r| |]; try exact Hnarrow.
  intros; simplify_eq/=. split; [by apply scan_or|done].
Qed.

Lemma denote_any_total leaves :
  (forall c, c ∈ leaves -> exists b, denb c = Some b) ->
  exists b, denote_any model leaves = Some b /\ (b = true <-> exists c, c ∈ leaves /\ denb c = Some true).
Proof.
  induction leaves as [|c leaves IH]; intros H; simpl.
  { exists false. split; [done|]. split; [done|]. intros (c & Hc & _). by apply not_elem_of_nil in Hc. }
  destruct (H c (list_elem_of_here _ _)) as [[] Hc]; rewrite Hc.
  { exists true. split; [done|]. split; [|done]. intros _. exists c. split; [left|done]. }
  destruct IH as (b & -> & Hb); [intros; apply H; by right|]. exists b. split; [done|].
  rewrite Hb. split; intros (x & Hx & ?); exists x; (split; [|done]).
  - by right.
  - apply elem_of_cons in Hx as [->|]; congruence.
Qed.

Lemma bitwise_step_final st leaves :
  bitwise_step st = inr (Some leaves) -> bs_pending st = [] /\ bs_leaves st = leaves.
Proof.
  unfold bitwise_step. destruct (bs_pending st) as [|w rest]; [intros; by simplify_eq|].
  destruct (existsb _ _); [done|]. destruct (_ =? 0); [done|].
  destruct (direct_bool_word_condition w); [done|].
  assert (Hn : forall (A B : Type) (x : option (option Z * A * Z)) (k : A -> Z -> B),
    match x with Some (Some 1, w', r') => inl (k w' r') | _ => inr None end = (inr (Some leaves) : B + option (list SymBoolExpr)) -> False).
  { intros A B [[[[[|[]|]|] ?] ?]|] k; done. }
  destruct w as [| | | | | |[] l r| |]; try done; intros H; by apply Hn in H.
Qed.

Lemma bitwise_sound e c v :
  bitwise_bool_word_condition e = Some c -> den e = Some v ->
  exists b, denb c = Some b /\ v = b2u b.
Proof.
  unfold bitwise_bool_word_condition. destruct (iterate _ _ _) as [[leaves|]|] eqn:Ei; try done.
  intros [= <-] Hv.
  assert (Hfin : exists seen, scan_inv v leaves [] seen).
  { refine (iterate_ind bitwise_step (bitwise_inv v)
      (fun r => forall leaves, r = Some leaves -> exists seen, scan_inv v leaves [] seen)
      (bitwise_step_inv v) _ _ _ _ _ Ei _ eq_refl).
    - intros st r [Hi _] Hstep ? ->. apply bitwise_step_final in Hstep as [Hp <-].
      rewrite Hp in Hi. eauto.
    - split; [|constructor]. split; simpl.
      + intros w ->%list_elem_of_singleton. exists v. split; [done|apply part_of_refl].
      + intros ? ?%not_elem_of_nil; done.
      + intros i Hbit. exists (S (esize e)). right. exists e, v. split_and!; try done; [left|lia].
      + intros ? ? ? ?%not_elem_of_nil; done. }
  destruct Hfin as [seen [_ Hl Hb _]].
  destruct (denote_any_total leaves) as (b & Hany & Hiff).
  { intros c Hc; destruct (Hl c Hc) as (b & ? & _); eauto. }
  exists b. split; [by apply den_or|].
  apply u_bits_eq. intros i Hi. destruct (bit v i) eqn:Ev; symmetry.
  - destruct (Hb i Ev) as [n [(-> & Hex)|(? & ? & Hn & _)]]; [|by apply not_elem_of_nil in Hn].
    by apply Hiff in Hex as ->.
  - destruct (bit (b2u b) i) eqn:Eb; [|done]. apply bit_b2u in Eb as [-> ->].
    destruct (proj1 Hiff eq_refl) as (c & Hc & Hct). destruct (Hl c Hc) as (b & Hb' & Htrue).
    simplify_eq. rewrite (Htrue eq_refl) in Ev. done.
Qed.

Lemma unsigned_bits_cached_budget e w rem bits w' rem' :
  0 <= rem -> unsigned_bits_cached e w rem = Some (bits, w', rem') -> 0 <= rem' <= rem.
Proof.
  intros H0. unfold unsigned_bits_cached. destruct (assoc expr_eqb e w); [intros; simplify_eq; lia|].
  destruct (iterate _ _ _) as [r|] eqn:Ei; [|done].
  assert (Hr : match r with WDone _ r' => 0 <= r' <= rem | _ => True end).
  { refine (iterate_ind width_step (fun st => 0 <= ws_remaining st <= rem)
      (fun r => match r with WDone _ r' => 0 <= r' <= rem | _ => True end) _ _ _ _ _ _ Ei); [| |simpl; lia].
    - clear. intros [[|[e f] rest] w rm] s' Hw; unfold width_step; simpl in *; [done|].
      destruct (assoc expr_eqb e w); [intros; simplify_eq/=; lia|].
      destruct f; simpl; [case_match; intros; simplify_eq/=; lia|].
      destruct (Z.eqb_spec rm 0); intros; simplify_eq/=; lia.
    - clear. intros [[|[e f] rest] w rm] s' Hw; unfold width_step; simpl in *; repeat case_match; intros; simplify_eq/=; done. }
  destruct r; intros; simplify_eq; lia.
Qed.

(** The scan ends within its fuel. *)
Lemma bitwise_terminates e :
  is_Some (iterate bitwise_step bitwise_fuel
    {| bs_pending := [e]; bs_seen := []; bs_leaves := []; bs_widths := [];
       bs_remaining := MAX_BITWISE_BOOL_WORD_VISITS |}).
Proof.
  apply (iterate_total bitwise_step (fun st => 0 <= bs_remaining st)
    (fun st => Z.to_nat (3 * bs_remaining st) + length (bs_pending st))%nat);
    [|unfold MAX_BITWISE_BOOL_WORD_VISITS; simpl; lia
     |unfold MAX_BITWISE_BOOL_WORD_VISITS, bitwise_fuel; simpl; lia].
  clear. intros [[|w rest] seen ls ws rem] st'; unfold bitwise_step; simpl; [done|]. intros H0.
  destruct (existsb _ _); [intros; simplify_eq/=; lia|].
  destruct (Z.eqb_spec rem 0); [done|].
  destruct (direct_bool_word_condition w); [intros; simplify_eq/=; lia|].
  assert (Hn : match unsigned_bits_cached w ws (rem - 1) with
    | Some (Some 1, w', rem') => inl {| bs_pending := rest; bs_seen := w :: seen;
        bs_leaves := index_insert (nonzero_leaf w) ls; bs_widths := w'; bs_remaining := rem' |}
    | _ => inr None end = (inl st' : BitwiseState + option (list SymBoolExpr)) ->
    0 <= bs_remaining st' /\
    (Z.to_nat (3 * bs_remaining st') + length (bs_pending st') < Z.to_nat (3 * rem) + S (length rest))%nat).
  { destruct (unsigned_bits_cached w ws (rem - 1)) as [[[[bits|] w'] rem']|] eqn:Eu; try done.
    apply unsigned_bits_cached_budget in Eu; [|lia].
    destruct (Z.eq_dec bits 1) as [->|]; [|by destruct bits as [|[]|]].
    intros; simplify_eq/=; lia. }
  destruct w as [| | | | | |[] l r| |]; try exact Hn. intros; simplify_eq/=; lia.
Qed.

(** ** The remaining arms *)
Lemma b2u_cases b : b2u b = ONE \/ b2u b = ZERO.
Proof. destruct b; auto. Qed.

Lemma sub_zero_r a : binop_eval Sub a ZERO = a.
Proof. simpl. unfold wrapping_sub. rewrite uval_ZERO, Z.sub_0_r. apply U_uval. Qed.
Lemma sub_diag a : binop_eval Sub a a = ZERO.
Proof. simpl. unfold wrapping_sub. by rewrite Z.sub_diag. Qed.
Lemma one_sub_one : binop_eval Sub ONE ONE = ZERO.
Proof. apply sub_diag. Qed.
Lemma zero_sub_one : binop_eval Sub ZERO ONE = MAX.
Proof.
  simpl. unfold wrapping_sub. word_arith. replace (0 - 1) with (word_modulus - 1 + (-1) * word_modulus) by lia.
  apply Z_mod_plus_full.
Qed.
Lemma add_zero_l a : binop_eval Add ZERO a = a.
Proof. simpl. unfold wrapping_add. rewrite uval_ZERO, Z.add_0_l. apply U_uval. Qed.
Lemma add_zero_r a : binop_eval Add a ZERO = a.
Proof. rewrite commutes_Add. apply add_zero_l. Qed.
Lemma max_add_one : binop_eval Add MAX ONE = ZERO.
Proof. apply uval_inj. reflexivity. Qed.
Lemma mul_zero_l a : binop_eval Mul ZERO a = ZERO.
Proof. simpl. unfold wrapping_mul. by rewrite uval_ZERO. Qed.
Lemma mul_one_l a : binop_eval Mul ONE a = a.
Proof. simpl. unfold wrapping_mul. rewrite uval_ONE, Z.mul_1_l. apply U_uval. Qed.
Lemma mul_zero_r a : binop_eval Mul a ZERO = ZERO.
Proof. rewrite commutes_Mul. apply mul_zero_l. Qed.
Lemma mul_one_r a : binop_eval Mul a ONE = a.
Proof. rewrite commutes_Mul. apply mul_one_l. Qed.

Lemma binop_sub_sound l r : refines (EBinOp Sub l r) (binop_sub l r).
Proof.
  unfold binop_sub. operands.
  assert (Hone : forall k, den k = Some (binop_eval Sub a b) ->
    den (match (if const_is r (u_eqb ONE) then bitwise_bool_word_condition l else None) with
         | Some c => ite c zero (constant MAX) | None => k end) = Some (binop_eval Sub a b)).
  { intros k Hk. destruct (const_is r (u_eqb ONE)) eqn:Er1; [|done].
    destruct (bitwise_bool_word_condition l) as [c|] eqn:Ec; [|done]. guards.
    destruct (bitwise_sound _ _ _ Ec Ha) as (cb & Hc & ->). eapply den_ite; [done|].
    destruct cb; cbn [b2u]; [by rewrite den_zero, one_sub_one|by rewrite den_constant, zero_sub_one]. }
  destruct (as_const l) as [x|] eqn:El, (as_const r) as [y|] eqn:Er.
  { guards. by rewrite den_constant. }
  all: destruct (const_is r is_zero) eqn:?; [guards; by rewrite sub_zero_r|].
  all: destruct (expr_eqb_spec l r) as [->|]; [replace b with a by congruence; by rewrite sub_diag, den_zero|].
  all: apply Hone; try (by apply den_binop_intro).
  destruct (bitwise_bool_word_condition r) as [c|] eqn:Ec; [|by apply den_binop_intro]. guards.
  destruct (bitwise_sound _ _ _ Ec Hb) as (cb & Hc & ->). eapply den_ite; [done|].
  destruct cb; cbn [b2u]; rewrite den_constant; [done|by rewrite sub_zero_r].
Qed.

Lemma uval_shift s : 0 <= s < 256 -> uval (U s) = s.
Proof. intros. apply uval_U_small. change word_modulus with (2 ^ 256). lia. Qed.

Lemma mul_pow2 a v s : power_of_two_shift v = Some s -> binop_eval Mul a v = binop_eval Shl a (U s).
Proof.
  intros [Hs Hv]%power_of_two_shift_Some. cbn [binop_eval]. unfold u_leb. rewrite (uval_shift s) by lia.
  change (uval (U 256)) with 256. destruct (Z.leb_spec 256 s); [lia|].
  unfold wrapping_mul, u_shl. by rewrite Hv, Z.shiftl_mul_pow2 by lia.
Qed.
Lemma udiv_pow2 a v s : power_of_two_shift v = Some s -> binop_eval UDiv a v = binop_eval Shr a (U s).
Proof.
  intros [Hs Hv]%power_of_two_shift_Some. cbn [binop_eval]. unfold u_leb, is_zero. rewrite (uval_shift s), Hv by lia.
  change (uval (U 256)) with 256. destruct (Z.leb_spec 256 s); [lia|].
  destruct (Z.eqb_spec (2 ^ s) 0); [lia|]. unfold u_div, u_shr. rewrite Hv, Z.shiftr_div_pow2 by lia. done.
Qed.
Lemma mask_bits_MAX_ones s : 0 <= s <= 256 -> uval (mask_bits MAX s) = Z.ones s.
Proof. intros. rewrite mask_bits_MAX_val by lia. f_equal. lia. Qed.
Lemma urem_pow2 a v s :
  power_of_two_shift v = Some s -> binop_eval URem a v = binop_eval And a (mask_bits MAX s).
Proof.
  intros [Hs Hv]%power_of_two_shift_Some. cbn [binop_eval]. unfold is_zero. rewrite Hv.
  destruct (Z.eqb_spec (2 ^ s) 0); [lia|]. unfold u_rem, u_and.
  by rewrite Hv, mask_bits_MAX_ones, Z.land_ones by lia.
Qed.

(** [cond ? x : 0] is the product with a Boolean word. *)
Lemma den_select_mul w c x a b :
  direct_bool_word_condition w = Some c -> den w = Some a -> den x = Some b ->
  den (ite c x zero) = Some (binop_eval Mul a b).
Proof.
  intros Hc Ha Hb. destruct (direct_bool_word_sound _ _ _ Hc Ha) as (cb & Hcb & ->).
  eapply den_ite; [done|]. destruct cb; cbn [b2u]; [by rewrite mul_one_l|by rewrite mul_zero_l, den_zero].
Qed.

Lemma pow2_operand e v s :
  option_bind _ _ power_of_two_shift (as_const e) = Some s -> den e = Some v -> power_of_two_shift v = Some s.
Proof.
  destruct (as_const e) as [c|] eqn:E; simpl; [|done]. intros Hs Hv. by rewrite (as_const_den _ _ _ E Hv).
Qed.

Lemma binop_mul_sound l r : refines (EBinOp Mul l r) (binop_mul l r).
Proof.
  unfold binop_mul. operands.
  assert (Htail : den (let '(l, r) := ordered_commutative_operands l r in
        match direct_bool_word_condition l with
        | Some c => ite c r zero
        | None =>
            match direct_bool_word_condition r with
            | Some c => ite c l zero
            | None =>
                match option_bind _ _ power_of_two_shift (as_const r) with
                | Some shift => binop_shl l (constant (U shift))
                | None => EBinOp Mul l r
                end
            end
        end) = Some (binop_eval Mul a b)).
  { assert (Hgo : exists l' r' a' b', ordered_commutative_operands l r = (l', r') /\ den l' = Some a' /\
      den r' = Some b' /\ binop_eval Mul a b = binop_eval Mul a' b').
    { destruct (ordered_cases l r) as [-> | ->]; [by exists l, r, a, b|].
      exists r, l, b, a. by rewrite commutes_Mul. }
    destruct Hgo as (l' & r' & a' & b' & -> & Ha' & Hb' & ->). clear Ha Hb.
    destruct (direct_bool_word_condition l') as [c|] eqn:E1; [by eapply den_select_mul|].
    destruct (direct_bool_word_condition r') as [c|] eqn:E2; [rewrite commutes_Mul; by eapply den_select_mul|].
    destruct (option_bind _ _ _ _) as [s|] eqn:E3; [|by apply den_binop_intro].
    rewrite (mul_pow2 _ _ _ (pow2_operand _ _ _ E3 Hb')).
    apply binop_shl_sound, den_binop_intro; [done|apply den_constant]. }
  destruct (as_const l) as [x|] eqn:El, (as_const r) as [y|] eqn:Er.
  { guards. by rewrite den_constant. }
  all: destruct (const_is l is_zero || const_is r is_zero) eqn:?;
    [guards; by rewrite ?mul_zero_l, ?mul_zero_r, den_zero|].
  all: destruct (const_is l (u_eqb ONE)) eqn:?; [guards; by rewrite mul_one_l|].
  all: destruct (const_is r (u_eqb ONE)) eqn:?; [guards; by rewrite mul_one_r|].
  all: exact Htail.
Qed.


(** *** Addition *)
Lemma add_const_bool_sound k word d a :
  den word = Some a -> den d = Some (binop_eval Add k a) ->
  den (add_const_bool d k word) = Some (binop_eval Add k a).
Proof.
  intros Ha Hd. unfold add_const_bool. destruct (bitwise_bool_word_condition word) as [c|] eqn:Ec.
  2: { by destruct (u_eqb k MAX). }
  destruct (bitwise_sound _ _ _ Ec Ha) as (cb & Hc & ->).
  destruct (u_eqb_spec k MAX) as [->|]; (eapply den_ite; [done|]); destruct cb; cbn [b2u];
    rewrite ?max_add_one, ?add_zero_r, ?den_zero, ?den_constant; done.
Qed.

Lemma add_const_ite_sound add other conditional e a b :
  (forall l r, refines (EBinOp Add l r) (add l r)) ->
  add_with_const_ite add other conditional = Some e ->
  den other = Some a -> den conditional = Some b -> den e = Some (binop_eval Add a b).
Proof.
  intros Hadd. unfold add_with_const_ite. destruct (as_const other); [done|].
  destruct conditional as [| | | | | | | |c t f]; try done. repeat case_match; try done.
  intros ? Ha (cb & Hc & Hd)%den_ite_inv. simplify_eq. eapply den_ite; [done|].
  destruct cb; by apply Hadd, den_binop_intro.
Qed.

Lemma add_default_sound add l r :
  (forall l r, refines (EBinOp Add l r) (add l r)) ->
  refines (EBinOp Add l r) (add_default add l r).
Proof.
  intros Hadd. operands. unfold add_default.
  assert (Hgo : exists l' r' a' b', ordered_commutative_operands l r = (l', r') /\ den l' = Some a' /\
      den r' = Some b' /\ binop_eval Add a b = binop_eval Add a' b').
  { destruct (ordered_cases l r) as [-> | ->]; [by exists l, r, a, b|].
    exists r, l, b, a. by rewrite commutes_Add. }
  destruct Hgo as (l' & r' & a' & b' & -> & Ha' & Hb' & ->).
  destruct (add_with_const_ite add l' r') as [e|] eqn:E1; [by eapply add_const_ite_sound|].
  destruct (add_with_const_ite add r' l') as [e|] eqn:E2; [|by apply den_binop_intro].
  rewrite commutes_Add. by eapply add_const_ite_sound.
Qed.

Lemma add_body_sound add l r :
  (forall l r, refines (EBinOp Add l r) (add l r)) ->
  refines (EBinOp Add l r) (add_body add l r).
Proof.
  intros Hadd. pose proof (add_default_sound add l r Hadd) as Hdef. operands. unfold add_body.
  assert (Hd : den (add_default add l r) = Some (binop_eval Add a b)) by (by apply Hdef, den_binop_intro).
  destruct (as_const l) as [x|] eqn:El, (as_const r) as [y|] eqn:Er; [| | |done].
  - guards. by rewrite den_constant.
  - guards. destruct (is_zero x) eqn:Ez; [apply is_zero_true in Ez as ->; by rewrite add_zero_l|].
    by apply add_const_bool_sound.
  - guards. destruct (is_zero y) eqn:Ez; [apply is_zero_true in Ez as ->; by rewrite add_zero_r|].
    rewrite commutes_Add in *. by apply add_const_bool_sound.
Qed.

Lemma add_fuel_sound fuel l r : refines (EBinOp Add l r) (binop_add_fuel fuel l r).
Proof. revert l r; induction fuel; intros l r; [done|]. by apply add_body_sound. Qed.

(** *** Exclusive or *)
Lemma xor_shared_sound base nested e a b :
  xor_with_shared_operand base nested = Some e ->
  den base = Some a -> den nested = Some b -> den e = Some (binop_eval Xor a b).
Proof.
  destruct nested as [| | | | | |[] l r| |]; try done. unfold xor_with_shared_operand.
  intros He Ha (x & y & Hx & Hy & ->)%den_binop_inv.
  destruct (expr_eqb_spec l base) as [->|].
  - replace x with a by congruence. rewrite xor_assoc_l. congruence.
  - destruct (expr_eqb_spec r base) as [->|]; [|done].
    replace y with a by congruence. rewrite (commutes_Xor x a), xor_assoc_l. congruence.
Qed.

Lemma select_word (a x : U256) (cb : bool) :
  binop_eval Xor a (binop_eval Mul (b2u cb) x) = if cb then binop_eval Xor a x else a.
Proof. destruct cb; cbn [b2u]; [by rewrite mul_one_l|by rewrite mul_zero_l, xor_zero_r]. Qed.

Lemma xor_select_sound base selector e a b :
  xor_with_bool_select base selector = Some e ->
  den base = Some a -> den selector = Some b -> den e = Some (binop_eval Xor a b).
Proof.
  destruct selector as [| | | | | |[] l r| |]; try done. unfold xor_with_bool_select, xor_delta.
  intros He Ha (x & y & Hx & Hy & ->)%den_binop_inv.
  assert (Hgo : forall w wv d dv sel, den w = Some wv -> den d = Some dv ->
    xor_with_shared_operand base d = Some sel ->
    option_map (fun c => ite c sel base) (bitwise_bool_word_condition w) = Some e ->
    den e = Some (binop_eval Xor a (binop_eval Mul wv dv))).
  { clear -Ha. intros w wv d dv sel Hw Hd Hsel (c & Hc & ->)%fmap_Some.
    destruct (bitwise_sound _ _ _ Hc Hw) as (cb & Hcb & ->). rewrite select_word.
    eapply den_ite; [done|]. destruct cb; [by eapply xor_shared_sound|done]. }
  destruct (xor_with_shared_operand base l) as [sel|] eqn:E1; [rewrite commutes_Mul; by eapply Hgo|].
  destruct (xor_with_shared_operand base r) as [sel|] eqn:E2; [|done]. by eapply Hgo.
Qed.

Lemma xor_zero_ite_sound xor base conditional e a b :
  (forall l r, refines (EBinOp Xor l r) (xor l r)) ->
  xor_with_zero_ite xor base conditional = Some e ->
  den base = Some a -> den conditional = Some b -> den e = Some (binop_eval Xor a b).
Proof.
  intros Hx. destruct conditional as [| | | | | | | |c t f]; try done. unfold xor_with_zero_ite.
  intros He Ha (cb & Hc & Hd)%den_ite_inv.
  destruct (const_is t is_zero) eqn:Et; [|destruct (const_is f is_zero) eqn:Ef; [|done]];
    (destruct (duplicating_branchless_rewrite_fits _ _); [|done]); simplify_eq;
    (eapply den_ite; [done|]); destruct cb; guards; rewrite ?xor_zero_r; try done;
    by apply Hx, den_binop_intro.
Qed.

Lemma first_some_cases {A} (x y : option A) v : first_some x y = Some v -> x = Some v \/ y = Some v.
Proof. destruct x; simpl; auto. Qed.

Lemma xor_body_sound xor l r :
  (forall l r, refines (EBinOp Xor l r) (xor l r)) ->
  refines (EBinOp Xor l r) (xor_body xor l r).
Proof.
  intros Hx. operands. unfold xor_body.
  assert (Htail : den (let '(l, r) := ordered_commutative_operands l r in
        match first_some (xor_with_shared_operand l r) (xor_with_shared_operand r l) with
        | Some value => value
        | None =>
        match first_some (xor_with_bool_select l r) (xor_with_bool_select r l) with
        | Some value => value
        | None =>
        match first_some (xor_with_zero_ite xor l r) (xor_with_zero_ite xor r l) with
        | Some value => value
        | None => EBinOp Xor l r
        end end end) = Some (binop_eval Xor a b)).
  { assert (Hgo : exists l' r' a' b', ordered_commutative_operands l r = (l', r') /\ den l' = Some a' /\
      den r' = Some b' /\ binop_eval Xor a b = binop_eval Xor a' b').
    { destruct (ordered_cases l r) as [-> | ->]; [by exists l, r, a, b|].
      exists r, l, b, a. by rewrite commutes_Xor. }
    destruct Hgo as (l' & r' & a' & b' & -> & Ha' & Hb' & ->).
    destruct (first_some (xor_with_shared_operand _ _) _) as [v|] eqn:E1.
    { apply first_some_cases in E1 as [E1|E1]; [|rewrite commutes_Xor]; by eapply xor_shared_sound. }
    destruct (first_some (xor_with_bool_select _ _) _) as [v|] eqn:E2.
    { apply first_some_cases in E2 as [E2|E2]; [|rewrite commutes_Xor]; by eapply xor_select_sound. }
    destruct (first_some (xor_with_zero_ite _ _ _) _) as [v|] eqn:E3; [|by apply den_binop_intro].
    apply first_some_cases in E3 as [E3|E3]; [|rewrite commutes_Xor]; by eapply xor_zero_ite_sound. }
  destruct (as_const l) as [x|] eqn:El, (as_const r) as [y|] eqn:Er.
  { guards. by rewrite den_constant. }
  all: destruct (const_is l is_zero) eqn:?; [guards; by rewrite xor_zero_l|].
  all: destruct (const_is r is_zero) eqn:?; [guards; by rewrite xor_zero_r|].
  all: destruct (expr_eqb_spec l r) as [->|]; [replace b with a by congruence; by rewrite xor_diag, den_zero|].
  all: exact Htail.
Qed.

Lemma xor_fuel_sound fuel l r : refines (EBinOp Xor l r) (binop_xor_fuel fuel l r).
Proof. revert l r; induction fuel; intros l r; [done|]. by apply xor_body_sound. Qed.

(** *** Division and remainder *)
Lemma low_masked_sound e bits s v :
  low_masked_source e bits = Some s -> den e = Some v ->
  exists a, den s = Some a /\ uval v = uval a mod 2 ^ bits /\ 0 <= bits <= 256.
Proof.
  destruct e as [| | | | | |[] l r| |]; try done. unfold low_masked_source.
  destruct (as_const r) as [m|] eqn:Er; [|done].
  destruct (mask_low_bits m) as [k|] eqn:Em; [|done]. destruct (Z.eqb_spec k bits) as [->|]; [|done].
  apply mask_low_bits_Some in Em as [Hk Hm].
  intros [= <-] (a & b & Ha & Hb & ->)%den_binop_inv. exists a. split; [done|]. split; [|done]. guards.
  cbn [binop_eval]. unfold u_and. rewrite Hm, Z.land_ones by lia. apply uval_U_small.
  pose proof (uval_range a). pose proof (Z.mod_pos_bound (uval a) (2 ^ bits)).
  pose proof (Z.mod_le (uval a) (2 ^ bits)). lia.
Qed.

Lemma shr_drop_low v low s :
  1 <= s < 256 -> uval low = uval v mod 2 ^ s ->
  binop_eval Shr (binop_eval Sub v low) (U s) = binop_eval Shr v (U s).
Proof.
  intros Hs Hlow. pose proof (uval_range v). pose proof (Z.mod_pos_bound (uval v) (2 ^ s)).
  pose proof (Z.mod_le (uval v) (2 ^ s)).
  assert (Hd : uval (binop_eval Sub v low) = 2 ^ s * (uval v / 2 ^ s)).
  { cbn [binop_eval]. unfold wrapping_sub. rewrite uval_U_small, Hlow by lia.
    pose proof (Z.div_mod (uval v) (2 ^ s)). lia. }
  rewrite <- !(udiv_pow2 _ (U (2 ^ s))).
  - change (binop_eval UDiv ?x ?y) with (if is_zero y then ZERO else u_div x y). case_match; [done|]. unfold u_div. rewrite Hd.
    rewrite uval_U_small; [|split; [lia|change word_modulus with (2 ^ 256); apply Z.pow_lt_mono_r; lia]].
    f_equal. rewrite Z.mul_comm, Z.div_mul by lia. done.
  - apply pow2_shift; lia.
  - apply pow2_shift; lia.
Qed.

Lemma udiv_one a : binop_eval UDiv a ONE = a.
Proof. cbn [binop_eval]. change (is_zero ONE) with false. unfold u_div. rewrite uval_ONE, Z.div_1_r. apply U_uval. Qed.
Lemma urem_one a : binop_eval URem a ONE = ZERO.
Proof. cbn [binop_eval]. change (is_zero ONE) with false. unfold u_rem. by rewrite uval_ONE, Z.mod_1_r. Qed.

Context {SL : SignedArithLaws}.

Lemma div_zero op a : op = UDiv \/ op = SDiv -> binop_eval op a ZERO = ZERO.
Proof. intros [-> | ->]; [done|]. apply i256_div_zero. Qed.
Lemma div_one op a : op = UDiv \/ op = SDiv -> binop_eval op a ONE = a.
Proof. intros [-> | ->]; [apply udiv_one|]. apply i256_div_one. Qed.
Lemma rem_zero op a : op = URem \/ op = SRem -> binop_eval op a ZERO = ZERO.
Proof. intros [-> | ->]; [done|]. apply i256_mod_zero. Qed.
Lemma rem_one op a : op = URem \/ op = SRem -> binop_eval op a ONE = ZERO.
Proof. intros [-> | ->]; [apply urem_one|]. apply i256_mod_one. Qed.

Lemma binop_div_sound op l r :
  op = UDiv \/ op = SDiv -> refines (EBinOp op l r) (binop_div op l r).
Proof.
  intros Hop. operands. unfold binop_div.
  assert (Htail : den (match (if SymBinOp_beq op UDiv then option_bind _ _ power_of_two_shift (as_const r) else None) with
        | Some shift =>
            match l with
            | EBinOp Sub value low_bits =>
                if match low_masked_source low_bits shift with
                   | Some source => expr_eqb source value | None => false end
                then binop_shr value (constant (U shift))
                else binop_shr l (constant (U shift))
            | _ => binop_shr l (constant (U shift))
            end
        | None => EBinOp op l r
        end) = Some (binop_eval op a b)).
  { destruct Hop as [-> | ->]; [|by apply den_binop_intro]. cbn [SymBinOp_beq].
    destruct (option_bind _ _ _ _) as [s|] eqn:E3; [|by apply den_binop_intro].
    pose proof (pow2_operand _ _ _ E3 Hb) as Hp. rewrite (udiv_pow2 _ _ _ Hp).
    assert (Hplain : den (binop_shr l (constant (U s))) = Some (binop_eval Shr a (U s))).
    { apply binop_shr_sound, den_binop_intro; [done|apply den_constant]. }
    destruct l as [| | | | | |[] value low| |]; try exact Hplain.
    destruct (low_masked_source low s) as [src|] eqn:El; [|done].
    destruct (expr_eqb_spec src value) as [->|]; [|done].
    apply den_binop_inv in Ha as (v & lv & Hv & Hl & ->).
    destruct (low_masked_sound _ _ _ _ El Hl) as (v' & Hv' & Hlv & _). simplify_eq.
    apply power_of_two_shift_Some in Hp as [Hs _]. rewrite shr_drop_low by done.
    apply binop_shr_sound, den_binop_intro; [done|apply den_constant]. }
  destruct (as_const l) as [x|] eqn:El, (as_const r) as [y|] eqn:Er.
  { guards. by rewrite den_constant. }
  all: destruct (const_is r is_zero) eqn:?; [guards; by rewrite div_zero, den_zero|].
  all: destruct (const_is r (u_eqb ONE)) eqn:?; [guards; by rewrite div_one|].
  all: exact Htail.
Qed.

Lemma binop_rem_sound op l r :
  op = URem \/ op = SRem -> refines (EBinOp op l r) (binop_rem op l r).
Proof.
  intros Hop. operands. unfold binop_rem.
  assert (Htail : den (match (if SymBinOp_beq op URem then option_bind _ _ power_of_two_shift (as_const r) else None) with
        | Some bits => and_const l (mask_bits MAX bits)
        | None => EBinOp op l r
        end) = Some (binop_eval op a b)).
  { destruct Hop as [-> | ->]; [|by apply den_binop_intro]. cbn [SymBinOp_beq].
    destruct (option_bind _ _ _ _) as [s|] eqn:E3; [|by apply den_binop_intro].
    rewrite (urem_pow2 _ _ _ (pow2_operand _ _ _ E3 Hb)). by apply and_const_sound. }
  destruct (as_const l) as [x|] eqn:El, (as_const r) as [y|] eqn:Er.
  { guards. by rewrite den_constant. }
  all: destruct (const_is r is_zero) eqn:?; [guards; by rewrite rem_zero, den_zero|].
  all: destruct (const_is r (u_eqb ONE)) eqn:?; [guards; by rewrite rem_one, den_zero|].
  all: exact Htail.
Qed.


(** *** The whole constructors *)
Lemma binop_refines op l r : refines (EBinOp op l r) (binop op l r).
Proof.
  destruct op; cbn [binop];
    auto using binop_sub_sound, binop_mul_sound, binop_and_sound, binop_or_sound,
      binop_shl_sound, binop_shr_sound, binop_sar_sound, binop_div_sound, binop_rem_sound.
  - apply add_fuel_sound.
  - apply xor_fuel_sound.
Qed.

Lemma den_binop op l r a b :
  den l = Some a -> den r = Some b -> den (binop op l r) = Some (binop_eval op a b).
Proof. intros. by apply binop_refines, den_binop_intro. Qed.

Lemma ternop_pow2 op a b m s :
  power_of_two_shift m = Some s ->
  ternop_eval op a b m =
  binop_eval And (binop_eval (match op with AddMod => Add | MulMod => Mul end) a b) (mask_bits MAX s).
Proof.
  intros Hp. rewrite <- (urem_pow2 _ _ _ Hp). apply power_of_two_shift_Some in Hp as [Hs Hm].
  unfold ternop_eval. cbn [binop_eval]. unfold is_zero. rewrite Hm.
  destruct (Z.eqb_spec (2 ^ s) 0); [done|]. unfold u_rem. rewrite Hm.
  assert (Hmod : forall z, (z mod word_modulus) mod 2 ^ s = z mod 2 ^ s).
  { intros z. change word_modulus with (2 ^ 256). replace 256 with (s + (256 - s)) by lia.
    rewrite Z.pow_add_r by lia. apply Z.mod_mod_divide. by exists (2 ^ (256 - s)); lia. }
  destruct op; unfold add_mod, mul_mod, wrapping_add, wrapping_mul; rewrite Hm; apply (f_equal U);
    symmetry; apply Hmod.
Qed.

Lemma ternop_comm op a b m : ternop_eval op a b m = ternop_eval op b a m.
Proof.
  unfold ternop_eval. case_match; [done|]. unfold add_mod, mul_mod. destruct op; do 2 f_equal; lia.
Qed.

Lemma ternop_mod_one op a b m : is_zero m || u_eqb m ONE = true -> ternop_eval op a b m = ZERO.
Proof.
  unfold ternop_eval. destruct (is_zero m) eqn:E; [done|]. simpl. intros ->%u_eqb_eq.
  unfold add_mod, mul_mod. rewrite uval_ONE, !Z.mod_1_r. by destruct op.
Qed.

Lemma ternop_refines op l r m : refines (ETernOp op l r m) (ternop op l r m).
Proof.
  intros v. simpl. destruct (den l) as [a|] eqn:Ha, (den r) as [b|] eqn:Hb, (den m) as [c|] eqn:Hc; try done.
  intros [= <-]. unfold ternop.
  destruct (const_is m _) eqn:Em.
  { apply (const_is_inv _ _ _ Em) in Hc as [_ Hc]. by rewrite ternop_mod_one, den_zero. }
  assert (Htail : den (match option_bind _ _ power_of_two_shift (as_const m) with
           | Some bits =>
               let value := binop (match op with AddMod => Add | MulMod => Mul end) l r in
               and_const value (mask_bits MAX bits)
           | None =>
               let '(l, r) := ordered_commutative_operands l r in
               ETernOp op l r m
           end) = Some (ternop_eval op a b c)).
  { destruct (option_bind _ _ _ _) as [s|] eqn:E3.
    - rewrite (ternop_pow2 _ _ _ _ _ (pow2_operand _ _ _ E3 Hc)).
      by apply and_const_sound, den_binop.
    - destruct (ordered_cases l r) as [-> | ->]; simpl; rewrite Ha, Hb, Hc; [done|].
      by rewrite ternop_comm. }
  destruct (as_const l) as [x|] eqn:El, (as_const r) as [y|] eqn:Er, (as_const m) as [z|] eqn:Ez;
    try exact Htail.
  guards. by rewrite den_constant.
Qed.


End Sound.

(** ** The fuel of the recursive constructors is enough *)
Section Fuel.
Context `{SA : SignedArith, HF : HashFns}.

(** An addition with a constant operand makes no recursive call. *)
Lemma add_default_const add add' l r c :
  as_const r = Some c -> as_const l = None -> add_default add l r = add_default add' l r.
Proof.
  intros Hr%as_const_shape Hl. subst r. unfold add_default, ordered_commutative_operands.
  destruct (complexity l ?= complexity (EConst c)) eqn:E.
  2: { destruct l; done. }
  { destruct l; done. }
  unfold add_with_const_ite. by rewrite Hl.
Qed.

Lemma add_body_const add add' l r c :
  as_const r = Some c -> as_const l = None -> add_body add l r = add_body add' l r.
Proof.
  intros Hr Hl. unfold add_body. rewrite Hr, Hl. case_match; [done|].
  by rewrite (add_default_const add add' l r c).
Qed.

Lemma add_const_ite_ext add add' o c :
  (forall l r k, as_const r = Some k -> as_const l = None -> add l r = add' l r) ->
  add_with_const_ite add o c = add_with_const_ite add' o c.
Proof.
  intros H. unfold add_with_const_ite. destruct (as_const o) eqn:Eo; [done|].
  destruct c as [| | | | | | | |c t e]; try done.
  destruct (as_const t) eqn:Et, (as_const e) eqn:Ee; try done. by rewrite !(H o _ _) by done.
Qed.

Lemma add_body_ext add add' l r :
  (forall l r k, as_const r = Some k -> as_const l = None -> add l r = add' l r) ->
  add_body add l r = add_body add' l r.
Proof.
  intros H. assert (Hd : forall l r, add_default add l r = add_default add' l r).
  { intros l' r'. unfold add_default. case_match. by rewrite !(add_const_ite_ext add add') by done. }
  unfold add_body. by rewrite !Hd.
Qed.

Lemma add_fuel_stable n l r : binop_add_fuel (S (S n)) l r = binop_add l r.
Proof.
  unfold binop_add. cbn [binop_add_fuel]. apply add_body_ext. intros l' r' k Hr Hl.
  by eapply add_body_const.
Qed.

Lemma xor_zero_ite_ext xor xor' base c :
  (forall r, (esize r < esize c)%nat -> xor base r = xor' base r) ->
  xor_with_zero_ite xor base c = xor_with_zero_ite xor' base c.
Proof.
  intros H. destruct c as [| | | | | | | |c t e]; try done. simpl in *. by rewrite !H by lia.
Qed.

Lemma xor_body_ext xor xor' l r :
  (forall l' r', (esize l' + esize r' < esize l + esize r)%nat -> xor l' r' = xor' l' r') ->
  xor_body xor l r = xor_body xor' l r.
Proof.
  intros H.
  assert (Hs : forall x y, ordered_commutative_operands l r = (x, y) ->
    xor_with_zero_ite xor x y = xor_with_zero_ite xor' x y /\ xor_with_zero_ite xor y x = xor_with_zero_ite xor' y x).
  { intros x y E. destruct (ordered_cases l r) as [E'|E']; rewrite E' in E; simplify_eq;
      split; apply xor_zero_ite_ext; intros; apply H; lia. }
  unfold xor_body. destruct (ordered_commutative_operands l r) as [x y].
  destruct (Hs x y eq_refl) as [-> ->]. done.
Qed.

Lemma xor_fuel_stable n m l r :
  (esize l + esize r <= n)%nat -> (esize l + esize r <= m)%nat ->
  binop_xor_fuel n l r = binop_xor_fuel m l r.
Proof.
  revert m l r; induction n as [|n IH]; intros [|m] l r Hn Hm; pose proof (esize_pos l); try lia.
  simpl. apply xor_body_ext. intros l' r' Hlt. apply IH; lia.
Qed.
End Fuel.
