(* ===== verification/SymCmp.v ===== *)
(** * SymCmp: comparison constructors and the facts conditions imply

    Models [SymBoolExpr::cmp] and its helpers, the bound and implication
    queries on conditions (bool.rs), and the word queries that build on them
    (expr.rs: [into_zero_bool], [constant_difference], [nonzero_forces_const]). *)

From Stdlib Require Import ZArith Lia Bool.
From stdpp Require Import base list option sets.
From S2P Require Import Prelude SymWord SymExpr SymSimpl SymSound.
Local Open Scope Z_scope.

(** ** Equality against an if-then-else tree of constants *)
Definition MAX_CONSTANT_ITE_EQ_NODES : Z := 128.
Definition MAX_CONSTANT_ITE_EQ_UNFOLDED_NODES : Z := 8 * 1024.

(** The loop that counts the Boolean skeleton of a condition: [None] is the
    early return.  [pending] has its top first. *)
Definition condition_step (st : list SymBoolExpr * Z) : (list SymBoolExpr * Z) + option Z :=
  let '(pending, nodes) := st in
  match pending with
  | [] => inr (Some nodes)
  | condition :: rest =>
      match checked_add nodes 1 with
      | None => inr None
      | Some nodes =>
          if MAX_CONSTANT_ITE_EQ_UNFOLDED_NODES <? nodes then inr None
          else inl (match condition with
                    | BNot v => v :: rest
                    | BAnd vs => rev vs ++ rest
                    | BConst _ | BCmp _ _ _ => rest
                    end, nodes)
      end
  end.

(** Every round counts one node and the count is bounded. *)
Definition condition_fuel : nat := Z.to_nat (MAX_CONSTANT_ITE_EQ_UNFOLDED_NODES + 2).
Definition condition_nodes (c : SymBoolExpr) : option Z :=
  match iterate condition_step condition_fuel ([c], 0) with
  | Some r => r
  | None => None
  end.

Record CostState := { cs_cache : list (SymExpr * option Z); cs_remaining : Z }.

(** [None] of the source (both the [?] returns and the cached [None]) is [None]
    of the first component; the cache and the budget are threaded through. *)
Fixpoint constant_ite_eq_unfolded_nodes (e : SymExpr) (st : CostState) : option Z * CostState :=
  match assoc expr_eqb e (cs_cache st) with
  | Some cached => (cached, st)
  | None =>
      if cs_remaining st =? 0
      then (None, {| cs_cache := (e, None) :: cs_cache st; cs_remaining := cs_remaining st |})
      else
        let st := {| cs_cache := cs_cache st; cs_remaining := cs_remaining st - 1 |} in
        let finish result st :=
          (result, {| cs_cache := (e, result) :: cs_cache st; cs_remaining := cs_remaining st |}) in
        match e with
        | EConst _ => finish (Some 1) st
        | EIte c t f =>
            match constant_ite_eq_unfolded_nodes t st with
            | (None, st) => (None, st)
            | (Some then_nodes, st) =>
                match constant_ite_eq_unfolded_nodes f st with
                | (None, st) => (None, st)
                | (Some else_nodes, st) =>
                    match condition_nodes c with
                    | None => (None, st)
                    | Some nodes =>
                        let total :=
                          match checked_add then_nodes else_nodes with
                          | None => None
                          | Some n => match checked_add n (2 * nodes) with
                                      | None => None
                                      | Some n => match checked_add n 7 with
                                                  | None => None
                                                  | Some n => if n <=? MAX_CONSTANT_ITE_EQ_UNFOLDED_NODES
                                                              then Some n else None
                                                  end
                                      end
                          end in
                        finish total st
                    end
                end
            end
        | _ => finish None st
        end
  end.

Definition and_ite_branch (condition branch : SymBoolExpr) : SymBoolExpr :=
  match SBool.as_const condition, SBool.as_const branch with
  | Some false, _ | _, Some false => SBool.constant false
  | Some true, _ => branch
  | _, Some true => condition
  | None, None => if bexpr_eqb condition branch then condition else BAnd [condition; branch]
  end.

Record EqState := { es_cache : list (SymExpr * option SymBoolExpr); es_remaining : Z }.

Fixpoint constant_ite_eq (e : SymExpr) (expected : U256) (st : EqState)
  : option SymBoolExpr * EqState :=
  match assoc expr_eqb e (es_cache st) with
  | Some cached => (cached, st)
  | None =>
      if es_remaining st =? 0
      then (None, {| es_cache := (e, None) :: es_cache st; es_remaining := es_remaining st |})
      else
        let st := {| es_cache := es_cache st; es_remaining := es_remaining st - 1 |} in
        let finish result st :=
          (result, {| es_cache := (e, result) :: es_cache st; es_remaining := es_remaining st |}) in
        match e with
        | EConst v => finish (Some (SBool.constant (u_eqb v expected))) st
        | EIte c t f =>
            let '(then_matches, st) := constant_ite_eq t expected st in
            let '(else_matches, st) := constant_ite_eq f expected st in
            finish
              (match then_matches, else_matches with
               | Some tm, Some em =>
                   Some (SBool.or [and_ite_branch c tm; and_ite_branch (SBool.not_bool c) em])
               | _, _ => None
               end) st
        | _ => finish None st
        end
  end.

Definition bool_word_eq_const (word : SymExpr) (value : U256) : option SymBoolExpr :=
  match word with
  | EIte c t f =>
      match as_const t, as_const f with
      | Some tv, Some fv =>
          if u_eqb tv ONE && is_zero fv then
            Some (if is_zero value then SBool.not_bool c
                  else if u_eqb value ONE then c else SBool.constant false)
          else if is_zero tv && u_eqb fv ONE then
            Some (if is_zero value then c
                  else if u_eqb value ONE then SBool.not_bool c else SBool.constant false)
          else None
      | _, _ => None
      end
  | _ => None
  end.

Section Cmp.
Context `{SA : SignedArith, HF : HashFns}.

Definition ordered_eq (l r : SymExpr) : SymBoolExpr :=
  let '(l, r) := ordered_commutative_operands l r in BCmp Eq l r.

(** Conditionals on the same condition with constant arms. *)
Definition cmp_aligned_ite (op : SymCmpOp) (l r : SymExpr) : option SymBoolExpr :=
  match l, r with
  | EIte lc lt le, EIte rc rt re =>
      if bexpr_eqb lc rc then
        match as_const lt, as_const le, as_const rt, as_const re with
        | Some lt, Some le, Some rt, Some re =>
            Some (match cmpop_eval op lt rt, cmpop_eval op le re with
                  | true, true => SBool.constant true
                  | false, false => SBool.constant false
                  | true, false => lc
                  | false, true => SBool.not_bool lc
                  end)
        | _, _, _, _ => None
        end
      else None
  | _, _ => None
  end.

(** [eq] is the recursive call to [Self::eq]. *)
Definition ite_eq_arm (eq : SymExpr -> SymExpr -> SymBoolExpr) (conditional expected : SymExpr)
  : option SymBoolExpr :=
  match conditional with
  | EIte c t f =>
      if expr_eqb t expected then Some (SBool.or [c; eq f expected])
      else if expr_eqb f expected then Some (SBool.or [SBool.not_bool c; eq t expected])
      else
        match as_const expected with
        | Some expected_value =>
            match fst (constant_ite_eq_unfolded_nodes conditional
                         {| cs_cache := []; cs_remaining := MAX_CONSTANT_ITE_EQ_NODES |}) with
            | None => Some (ordered_eq conditional expected)
            | Some _ => fst (constant_ite_eq conditional expected_value
                               {| es_cache := []; es_remaining := MAX_CONSTANT_ITE_EQ_NODES |})
            end
        | None => None
        end
  | _ => None
  end.

Definition eq_with_const (word : SymExpr) (value : U256) (fallback : SymBoolExpr) : SymBoolExpr :=
  match bool_word_eq_const word value with
  | Some condition => condition
  | None => match known_word word with
            | Some known => SBool.constant (u_eqb known value)
            | None => fallback
            end
  end.

Definition eq_body (eq : SymExpr -> SymExpr -> SymBoolExpr) (l r : SymExpr) : SymBoolExpr :=
  match cmp_aligned_ite Eq l r with
  | Some result => result
  | None =>
      match first_some (ite_eq_arm eq l r) (ite_eq_arm eq r l) with
      | Some condition => condition
      | None =>
          if expr_eqb l r then SBool.constant true
          else match l, r with
               | EConst lv, EConst rv => SBool.constant (u_eqb lv rv)
               | _, EConst rv => eq_with_const l rv (ordered_eq l r)
               | EConst lv, _ => eq_with_const r lv (ordered_eq l r)
               | EKeccak _ llen lbytes, EKeccak _ rlen rbytes =>
                   if (length lbytes =? length rbytes)%nat
                   then SBool.and (eq llen rlen :: map (fun '(a, b) => eq a b) (combine lbytes rbytes))
                   else ordered_eq l r
               | EHash _ la lbytes, EHash _ ra rbytes =>
                   if (la =? ra)%nat && (length lbytes =? length rbytes)%nat
                   then SBool.and (map (fun '(a, b) => eq a b) (combine lbytes rbytes))
                   else ordered_eq l r
               | _, _ => ordered_eq l r
               end
      end
  end.

Fixpoint eq_fuel (fuel : nat) (l r : SymExpr) : SymBoolExpr :=
  match fuel with
  | O => BCmp Eq l r
  | S f => eq_body (eq_fuel f) l r
  end.

(** Every recursive call is on strictly smaller operands. *)
Definition sym_eq (l r : SymExpr) : SymBoolExpr := eq_fuel (esize l + esize r) l r.

Definition is_low_mask_of (masked source : SymExpr) : bool :=
  match low_masked_source_any masked with Some s => expr_eqb s source | None => false end.

Definition cmp_ult (l r : SymExpr) : SymBoolExpr :=
  if expr_eqb l r then SBool.constant false
  else match as_const l, as_const r with
       | Some a, Some b => SBool.constant (cmpop_eval Ult a b)
       | _, _ =>
           if const_is r is_zero then SBool.constant false
           else if const_is l (u_eqb MAX) then SBool.constant false
           else if is_low_mask_of r l then SBool.constant false
           else BCmp Ult l r
       end.

Definition cmp_ugt (l r : SymExpr) : SymBoolExpr :=
  if expr_eqb l r then SBool.constant false
  else match as_const l, as_const r with
       | Some a, Some b => SBool.constant (cmpop_eval Ugt a b)
       | _, _ =>
           if const_is l is_zero then SBool.constant false
           else if const_is r (u_eqb MAX) then SBool.constant false
           else if is_low_mask_of l r then SBool.constant false
           else BCmp Ugt l r
       end.

Definition cmp_ule (l r : SymExpr) : SymBoolExpr :=
  if expr_eqb l r then SBool.constant true
  else match as_const l, as_const r with
       | Some a, Some b => SBool.constant (cmpop_eval Ule a b)
       | _, _ =>
           if const_is l is_zero then SBool.constant true
           else if const_is r (u_eqb MAX) then SBool.constant true
           else if is_low_mask_of l r then SBool.constant true
           else BCmp Ule l r
       end.

Definition cmp_uge (l r : SymExpr) : SymBoolExpr :=
  if expr_eqb l r then SBool.constant true
  else match as_const l, as_const r with
       | Some a, Some b => SBool.constant (cmpop_eval Uge a b)
       | _, _ =>
           if const_is r is_zero then SBool.constant true
           else if const_is l (u_eqb MAX) then SBool.constant true
           else if is_low_mask_of r l then SBool.constant true
           else BCmp Uge l r
       end.

Definition cmp_signed (op : SymCmpOp) (l r : SymExpr) : SymBoolExpr :=
  if expr_eqb l r then SBool.constant false
  else match as_const l, as_const r with
       | Some a, Some b => SBool.constant (cmpop_eval op a b)
       | _, _ => BCmp op l r
       end.

Definition cmp (op : SymCmpOp) (l r : SymExpr) : SymBoolExpr :=
  match cmp_aligned_ite op l r with
  | Some result => result
  | None =>
      match op with
      | Eq => sym_eq l r
      | Ult => cmp_ult l r
      | Ugt => cmp_ugt l r
      | Ule => cmp_ule l r
      | Uge => cmp_uge l r
      | Slt | Sgt => cmp_signed op l r
      end
  end.

Definition cmp_word_const (op : SymCmpOp) (word : SymExpr) (value : U256) : SymBoolExpr :=
  match as_const word with
  | Some w => SBool.constant (cmpop_eval op w value)
  | None => cmp op word (constant value)
  end.

Definition eq_word_const (word : SymExpr) (value : U256) : SymBoolExpr :=
  match as_const word with
  | Some w => SBool.constant (u_eqb w value)
  | None => cmp Eq word (constant value)
  end.

Definition into_zero_bool (e : SymExpr) : SymBoolExpr :=
  match e with
  | EConst v => SBool.constant (is_zero v)
  | EIte c t f =>
      match bool_word_condition_from_parts c t f with
      | Some condition => SBool.not_bool condition
      | None => cmp Eq e zero
      end
  | _ => cmp Eq e zero
  end.

Definition nonzero_bool (e : SymExpr) : SymBoolExpr := SBool.not_bool (into_zero_bool e).
End Cmp.

(** ** What a condition implies *)
Definition usize_of (e : SymExpr) : option Z :=
  match as_const e with Some v => to_usize v | None => None end.
Definition usize_below (e : SymExpr) : option Z :=
  match as_const e with
  | Some bound => if is_zero bound then None else to_usize (wrapping_sub bound ONE)
  | None => None
  end.
Definition min_bound (bound candidate : option Z) : option Z :=
  match candidate with
  | None => bound
  | Some c => Some (match bound with Some b => Z.min b c | None => c end)
  end.

Fixpoint upper_bound_usize (b : SymBoolExpr) (e : SymExpr) : option Z :=
  match b with
  | BConst _ | BNot _ => None
  | BAnd vs =>
      (fix go (bound : option Z) (vs : list SymBoolExpr) : option Z :=
         match vs with
         | [] => bound
         | v :: r => go (min_bound bound (upper_bound_usize v e)) r
         end) None vs
  | BCmp op l r =>
      if SymCmpOp_beq op Eq then
        if expr_eqb l e then usize_of r
        else if expr_eqb r e then usize_of l else None
      else if expr_eqb l e then
        match op with Ult => usize_below r | Ule => usize_of r | _ => None end
      else if expr_eqb r e then
        match op with Ugt => usize_below l | Uge => usize_of l | _ => None end
      else None
  end.

(** Result and remaining visit budget. *)
Fixpoint implies_unsigned_less_or_equal (b : SymBoolExpr) (expected : bool) (l r : SymExpr)
    (remaining : Z) : bool * Z :=
  if expr_eqb l r then (true, remaining)
  else if remaining =? 0 then (false, remaining)
  else
    let remaining := remaining - 1 in
    match b with
    | BNot v => implies_unsigned_less_or_equal v (negb expected) l r remaining
    | BAnd vs =>
        if expected then
          (fix any (vs : list SymBoolExpr) (remaining : Z) : bool * Z :=
             match vs with
             | [] => (false, remaining)
             | v :: rest =>
                 match implies_unsigned_less_or_equal v true l r remaining with
                 | (true, remaining) => (true, remaining)
                 | (false, remaining) => any rest remaining
                 end
             end) vs remaining
        else (false, remaining)
    | BCmp op fl fr =>
        (match op, expected with
         | Ult, true | Ule, true | Uge, false | Ugt, false => expr_eqb fl l && expr_eqb fr r
         | Uge, true | Ugt, true | Ult, false | Ule, false => expr_eqb fr l && expr_eqb fl r
         | Eq, true => (expr_eqb fl l && expr_eqb fr r) || (expr_eqb fr l && expr_eqb fl r)
         | Eq, false | Slt, _ | Sgt, _ => false
         end, remaining)
    | BConst _ => (false, remaining)
    end.

(** ** Constant differences *)
Definition MAX_CONSTANT_DIFFERENCE_VISITS : Z := 256.

Definition pair_eqb (x y : SymExpr * SymExpr) : bool :=
  expr_eqb (fst x) (fst y) && expr_eqb (snd x) (snd y).

Record DiffState := {
  ds_cache : list ((SymExpr * SymExpr) * option U256);
  ds_remaining : Z
}.

(** One call of [constant_difference_cached]; [diff] is the recursive call.
    [None] with the cache unchanged is the [?] return. *)
Definition difference_body
    (diff : SymExpr -> SymExpr -> DiffState -> option U256 * DiffState)
    (x y : SymExpr) (st : DiffState) : option U256 * DiffState :=
  if expr_eqb x y then (Some ZERO, st)
  else match assoc pair_eqb (x, y) (ds_cache st) with
  | Some difference => (difference, st)
  | None =>
      if ds_remaining st =? 0 then (None, st)
      else
        let st := {| ds_cache := ds_cache st; ds_remaining := ds_remaining st - 1 |} in
        let finish result st :=
          (result, {| ds_cache := ((x, y), result) :: ds_cache st; ds_remaining := ds_remaining st |}) in
        let right_arms st :=
          match y with
          | EBinOp Add value c =>
              match as_const c with
              | Some c => let '(d, st) := diff x value st in
                          finish (option_map (fun d => wrapping_sub d c) d) st
              | None => finish None st
              end
          | EBinOp Sub value c =>
              match as_const c with
              | Some c => let '(d, st) := diff x value st in
                          finish (option_map (fun d => wrapping_add d c) d) st
              | None => finish None st
              end
          | _ => finish None st
          end in
        let left_arms st :=
          match x with
          | EBinOp Add value c =>
              match as_const c with
              | Some c => let '(d, st) := diff value y st in
                          finish (option_map (fun d => wrapping_add d c) d) st
              | None => right_arms st
              end
          | EBinOp Sub value c =>
              match as_const c with
              | Some c => let '(d, st) := diff value y st in
                          finish (option_map (fun d => wrapping_sub d c) d) st
              | None => right_arms st
              end
          | _ => right_arms st
          end in
        match x, y with
        | EConst a, EConst b => finish (Some (wrapping_sub a b)) st
        | EIte lc lt le, EIte rc rt re =>
            if bexpr_eqb lc rc then
              match diff lt rt st with
              | (None, st) => (None, st)
              | (Some td, st) =>
                  match diff le re st with
                  | (None, st) => (None, st)
                  | (Some ed, st) => finish (if u_eqb td ed then Some td else None) st
                  end
              end
            else finish None st
        | _, _ => left_arms st
        end
  end.

Fixpoint difference_fuel (fuel : nat) (x y : SymExpr) (st : DiffState) : option U256 * DiffState :=
  match fuel with
  | O => (None, st)
  | S f => difference_body (difference_fuel f) x y st
  end.

Definition constant_difference (x y : SymExpr) : option U256 :=
  fst (difference_fuel (esize x + esize y) x y
         {| ds_cache := []; ds_remaining := MAX_CONSTANT_DIFFERENCE_VISITS |}).

(** ** Soundness *)

(** No leaf of the if-then-else tree is a hash: equality of hashes is decided
    on their inputs (a collision-freeness assumption of the engine), so the
    pointwise theorems are about the other comparisons. *)
Fixpoint no_hash_leaf (e : SymExpr) : bool :=
  match e with
  | EKeccak _ _ _ | EHash _ _ _ => false
  | EIte _ t f => no_hash_leaf t && no_hash_leaf f
  | _ => true
  end.

Section CmpSound.
Context `{SA : SignedArith, HF : HashFns}.
Variable model : SymbolicModel.
Abbreviation den := (denote_word model).
Abbreviation denb := (denote_bool model).
Abbreviation brefines := (brefines model).

Lemma den_cmp_inv op l r b :
  denb (BCmp op l r) = Some b ->
  exists x y, den l = Some x /\ den r = Some y /\ b = cmpop_eval op x y.
Proof. simpl. destruct (den l), (den r); naive_solver. Qed.

Lemma den_cmp_intro op l r x y :
  den l = Some x -> den r = Some y -> denb (BCmp op l r) = Some (cmpop_eval op x y).
Proof. simpl. by intros -> ->. Qed.

Lemma u_eqb_sym x y : u_eqb x y = u_eqb y x.
Proof. apply Z.eqb_sym. Qed.

Lemma ordered_eq_sound l r : brefines (BCmp Eq l r) (ordered_eq l r).
Proof.
  intros b (x & y & Hx & Hy & ->)%den_cmp_inv. unfold ordered_eq.
  destruct (ordered_cases l r) as [-> | ->]; [by apply den_cmp_intro|].
  simpl. rewrite Hx, Hy. by rewrite u_eqb_sym.
Qed.

Lemma aligned_ite_sound op l r c : cmp_aligned_ite op l r = Some c -> brefines (BCmp op l r) c.
Proof.
  destruct l as [| | | | | | | |lc lt le], r as [| | | | | | | |rc rt re]; try done. unfold cmp_aligned_ite.
  destruct (bexpr_eqb_spec lc rc) as [->|]; [|done].
  destruct (as_const lt) as [ltv|] eqn:E1, (as_const le) as [lev|] eqn:E2,
    (as_const rt) as [rtv|] eqn:E3, (as_const re) as [rev|] eqn:E4; try done.
  intros [= <-] b (x & y & Hx & Hy & ->)%den_cmp_inv.
  apply den_ite_inv in Hx as (cb & Hc & Hx). apply den_ite_inv in Hy as (cb' & Hc' & Hy).
  assert (cb' = cb) as -> by congruence.
  assert (Hv : x = (if cb then ltv else lev) /\ y = (if cb then rtv else rev)).
  { destruct cb; split; eapply as_const_den; eauto. }
  destruct Hv as [-> ->].
  destruct cb, (cmpop_eval op ltv rtv), (cmpop_eval op lev rev); rewrite ?den_not_bool, ?Hc; done.
Qed.

Lemma and_branch_sound c m (cb b : bool) :
  denb c = Some cb -> (cb = true -> denb m = Some b) ->
  denb (and_ite_branch c m) = Some (cb && b).
Proof.
  intros Hc Hm. unfold and_ite_branch.
  assert (Hboth : denb (if bexpr_eqb c m then c else BAnd [c; m]) = Some (cb && b)).
  { destruct (bexpr_eqb_spec c m) as [<-|].
    - destruct cb; [by apply Hm|done].
    - rewrite denote_BAnd. simpl. rewrite Hc. destruct cb; [|done]. rewrite Hm by done. by destruct b. }
  destruct c as [[]| | |], m as [[]| | |]; simpl in *; simplify_eq/=; try done;
    rewrite ?Hc; try (rewrite Hm by done; done); try exact Hboth;
    try (specialize (Hm eq_refl); simplify_eq; done);
    destruct cb; try (specialize (Hm eq_refl)); simplify_eq/=; try done.
Qed.

Definition eq_ok (expected : U256) (e : SymExpr) (m : SymBoolExpr) : Prop :=
  forall v, den e = Some v -> denb m = Some (u_eqb v expected).
Definition eq_cache_ok (expected : U256) (st : EqState) : Prop :=
  Forall (fun '(e, m) => forall c, m = Some c -> eq_ok expected e c) (es_cache st).

Lemma or_pair_sound c1 c2 b1 b2 :
  denb c1 = Some b1 -> (b1 = false -> denb c2 = Some b2) -> denb (SBool.or [c1; c2]) = Some (b1 || b2).
Proof.
  intros H1 H2. apply den_or. simpl. rewrite H1. destruct b1; [done|]. rewrite H2 by done. by destruct b2.
Qed.

Lemma constant_ite_node_sound expected c t f tm em :
  eq_ok expected t tm -> eq_ok expected f em ->
  eq_ok expected (EIte c t f) (SBool.or [and_ite_branch c tm; and_ite_branch (SBool.not_bool c) em]).
Proof.
  intros Ht Hf v (cb & Hc & Hv)%den_ite_inv. destruct cb.
  - rewrite (or_pair_sound _ _ (u_eqb v expected) false); [by rewrite orb_false_r| |].
    + rewrite (and_branch_sound _ _ true (u_eqb v expected)); [done|done|]. intros _. by apply Ht.
    + intros _. rewrite (and_branch_sound _ _ false false); [done| |done]. by rewrite den_not_bool, Hc.
  - rewrite (or_pair_sound _ _ false (u_eqb v expected)); [done| |].
    + by rewrite (and_branch_sound _ _ false false).
    + intros _. rewrite (and_branch_sound _ _ true (u_eqb v expected)); [done| |].
      * by rewrite den_not_bool, Hc.
      * intros _. by apply Hf.
Qed.

Lemma constant_ite_eq_sound expected e st :
  eq_cache_ok expected st ->
  eq_cache_ok expected (snd (constant_ite_eq e expected st)) /\
  forall m, fst (constant_ite_eq e expected st) = Some m -> eq_ok expected e m.
Proof.
  revert st. induction e as [e IH] using (induction_ltof1 _ esize). unfold ltof in IH. intros st Hst.
  assert (Hlookup : forall r, assoc expr_eqb e (es_cache st) = Some r -> forall m, r = Some m -> eq_ok expected e m).
  { intros r Ha. apply assoc_Some_in in Ha; [|intros; by apply expr_eqb_eq].
    apply (proj1 (List.Forall_forall _ _) Hst (e, r) Ha). }
  destruct (assoc expr_eqb e (es_cache st)) as [r|] eqn:Ea.
  { destruct e; simpl; rewrite Ea; simpl; split; eauto. }
  destruct (es_remaining st =? 0) eqn:Er.
  { destruct e; simpl; rewrite Ea, Er; simpl; (split; [by constructor|done]). }
  destruct e as [v| | | | | | | |c t f]; simpl; rewrite Ea, Er; simpl;
    try (split; [by constructor|done]).
  { assert (Hc : eq_ok expected (EConst v) (BConst (u_eqb v expected))) by (intros w [= <-]; done).
    split; [constructor; [by intros ? [= <-]|done] | by intros ? [= <-]]. }
  set (st0 := {| es_cache := es_cache st; es_remaining := es_remaining st - 1 |}).
  destruct (IH t ltac:(simpl; lia) st0 Hst) as [Hc1 Ht].
  destruct (constant_ite_eq t expected st0) as [tm st1]. simpl in *.
  destruct (IH f ltac:(lia) st1 Hc1) as [Hc2 Hf].
  destruct (constant_ite_eq f expected st1) as [em st2]. simpl in *.
  assert (Hnode : forall m, match tm, em with
      | Some tm, Some em => Some (SBool.or [and_ite_branch c tm; and_ite_branch (SBool.not_bool c) em])
      | _, _ => None end = Some m -> eq_ok expected (EIte c t f) m).
  { destruct tm, em; try done. intros ? [= <-]. apply constant_ite_node_sound; auto. }
  split; [by constructor|done].
Qed.

Lemma bool_word_eq_const_sound word value c v :
  bool_word_eq_const word value = Some c -> den word = Some v -> denb c = Some (u_eqb v value).
Proof.
  destruct word as [| | | | | | | |c0 t f]; try done. unfold bool_word_eq_const.
  destruct (as_const t) as [tv|] eqn:Et, (as_const f) as [fv|] eqn:Ef; try done.
  intros Hc (b & Hb & Hv)%den_ite_inv.
  assert (v = if b then tv else fv) as -> by (destruct b; eapply as_const_den; eauto).
  assert (H01 : u_eqb ONE ZERO = false /\ u_eqb ZERO ONE = false) by done. destruct H01 as [H10 H01].
  assert (Hother : forall k, is_zero value = false -> u_eqb value ONE = false -> u_eqb (b2u k) value = false).
  { intros k Hz Ho. rewrite u_eqb_sym. destruct k; simpl; [done|]. by rewrite <- is_zero_eqb. }
  destruct (u_eqb tv ONE && is_zero fv) eqn:E1; [|destruct (is_zero tv && u_eqb fv ONE) eqn:E2; [|done]].
  - apply andb_prop in E1 as [->%u_eqb_eq ->%is_zero_true].
    destruct (is_zero value) eqn:Ez; [apply is_zero_true in Ez as ->|destruct (u_eqb_spec value ONE) as [->|Hn]]; simplify_eq;
      rewrite ?den_not_bool, ?Hb; destruct b; simpl; rewrite ?u_eqb_refl, ?H10, ?H01; try done.
    + f_equal. symmetry. apply (Hother true); [done|]. by destruct (u_eqb_spec value ONE).
    + f_equal. symmetry. apply (Hother false); [done|]. by destruct (u_eqb_spec value ONE).
  - apply andb_prop in E2 as [->%is_zero_true ->%u_eqb_eq].
    destruct (is_zero value) eqn:Ez; [apply is_zero_true in Ez as ->|destruct (u_eqb_spec value ONE) as [->|Hn]]; simplify_eq;
      rewrite ?den_not_bool, ?Hb; destruct b; simpl; rewrite ?u_eqb_refl, ?H10, ?H01; try done.
    + f_equal. symmetry. apply (Hother false); [done|]. by destruct (u_eqb_spec value ONE).
    + f_equal. symmetry. apply (Hother true); [done|]. by destruct (u_eqb_spec value ONE).
Qed.

Lemma eq_with_const_sound word value fallback v :
  den word = Some v -> denb fallback = Some (u_eqb v value) ->
  denb (eq_with_const word value fallback) = Some (u_eqb v value).
Proof.
  intros Hv Hf. unfold eq_with_const.
  destruct (bool_word_eq_const word value) as [c|] eqn:Ec; [by eapply bool_word_eq_const_sound|].
  destruct (known_word word) as [k|] eqn:Ek; [|done]. by rewrite (known_word_sound model _ _ _ Ek Hv).
Qed.

Lemma ite_eq_arm_parts_sound eq conditional expected c x y :
  (forall c0 t f arm v, conditional = EIte c0 t f -> arm = t \/ arm = f ->
     den arm = Some v -> denb (eq arm expected) = Some (u_eqb v y)) ->
  ite_eq_arm eq conditional expected = Some c ->
  den conditional = Some x -> den expected = Some y -> denb c = Some (u_eqb x y).
Proof.
  intros Heq Hc Hx Hy. destruct conditional as [| | | | | | | |c0 t f]; try done.
  unfold ite_eq_arm in Hc. pose proof (den_ite_inv _ _ _ _ _ Hx) as (cb & Hcb & Hv).
  assert (Harm : forall arm v, arm = t \/ arm = f -> den arm = Some v -> denb (eq arm expected) = Some (u_eqb v y)) by eauto.
  destruct (expr_eqb_spec t expected) as [->|].
  { simplify_eq. destruct cb.
    - replace y with x by congruence. rewrite (or_pair_sound _ _ true false); [by rewrite u_eqb_refl|done|done].
    - by rewrite (or_pair_sound _ _ false (u_eqb x y)); auto. }
  destruct (expr_eqb_spec f expected) as [->|].
  { simplify_eq. destruct cb.
    - rewrite (or_pair_sound _ _ false (u_eqb x y)); [done|by rewrite den_not_bool, Hcb|auto].
    - replace y with x by congruence. rewrite (or_pair_sound _ _ true false); [by rewrite u_eqb_refl| |done].
      by rewrite den_not_bool, Hcb. }
  destruct (as_const expected) as [ev|] eqn:Ee; [|done].
  rewrite (as_const_den _ _ _ _ Ee Hy) in *.
  destruct (fst (constant_ite_eq_unfolded_nodes _ _)); simplify_eq.
  - eapply constant_ite_eq_sound; [|exact Hc|done]. constructor.
  - apply (ordered_eq_sound _ _ (cmpop_eval Eq x ev)), den_cmp_intro; [done|].
    by apply as_const_den'.
Qed.

Lemma ite_eq_arm_sound eq conditional expected c x y :
  (forall arm v, (esize arm < esize conditional)%nat -> (no_hash_leaf conditional = true -> no_hash_leaf arm = true) ->
     den arm = Some v -> denb (eq arm expected) = Some (u_eqb v y)) ->
  ite_eq_arm eq conditional expected = Some c ->
  den conditional = Some x -> den expected = Some y -> denb c = Some (u_eqb x y).
Proof.
  intros Heq. apply ite_eq_arm_parts_sound. intros c0 t f arm v -> Ha. apply Heq; simpl; [destruct Ha as [-> | ->]; lia|].
  intros [? ?]%andb_prop. by destruct Ha as [-> | ->].
Qed.

Lemma no_hash_arm e c t f : e = EIte c t f -> no_hash_leaf e = true -> no_hash_leaf t = true /\ no_hash_leaf f = true.
Proof. intros ->. simpl. apply andb_prop. Qed.

Lemma eq_body_sound eq l r :
  (forall l' r', (esize l' + esize r' < esize l + esize r)%nat ->
     no_hash_leaf l' || no_hash_leaf r' = true -> brefines (BCmp Eq l' r') (eq l' r')) ->
  no_hash_leaf l || no_hash_leaf r = true -> brefines (BCmp Eq l r) (eq_body eq l r).
Proof.
  intros Heq Hnh b Hb. pose proof (den_cmp_inv _ _ _ _ Hb) as (x & y & Hx & Hy & ->). unfold eq_body.
  destruct (cmp_aligned_ite Eq l r) as [c|] eqn:Ea; [by eapply aligned_ite_sound|].
  destruct (first_some (ite_eq_arm eq l r) (ite_eq_arm eq r l)) as [c|] eqn:Ei.
  { apply first_some_cases in Ei as [Ei|Ei].
    - eapply ite_eq_arm_sound; [|exact Ei|done|done]. intros arm v Hlt Hn Hv.
      apply Heq; [lia| |by apply (den_cmp_intro Eq)].
      apply orb_true_iff in Hnh as [?|?]; apply orb_true_iff; auto.
    - simpl. rewrite u_eqb_sym. eapply ite_eq_arm_sound; [|exact Ei|done|done]. intros arm v Hlt Hn Hv.
      apply Heq; [lia| |by apply (den_cmp_intro Eq)].
      apply orb_true_iff in Hnh as [?|?]; apply orb_true_iff; auto. }
  clear Ei. destruct (expr_eqb_spec l r) as [->|].
  { replace y with x by congruence. simpl. by rewrite u_eqb_refl. }
  assert (Hord : denb (ordered_eq l r) = Some (cmpop_eval Eq x y)) by (by apply ordered_eq_sound).
  destruct l as [lv| | |ln ll lb|ln la lb| | | |]; destruct r as [rv| | |rn rl rb|rn ra rb| | | |];
    try exact Hord; try (simpl in Hnh; done);
    try (simpl in Hx, Hy; simplify_eq; done);
    try (simpl in Hy; simplify_eq; by apply eq_with_const_sound);
    try (simpl in Hx; simplify_eq; simpl in *; rewrite u_eqb_sym in *; by apply eq_with_const_sound).
Qed.

Lemma eq_fuel_sound fuel l r :
  no_hash_leaf l || no_hash_leaf r = true -> brefines (BCmp Eq l r) (eq_fuel fuel l r).
Proof.
  revert l r. induction fuel as [|fuel IH]; intros l r Hnh; [done|]. apply eq_body_sound; auto.
Qed.
Lemma low_mask_le masked source m s :
  is_low_mask_of masked source = true -> den masked = Some m -> den source = Some s -> uval m <= uval s.
Proof.
  unfold is_low_mask_of. destruct (low_masked_source_any masked) as [src|] eqn:E; [|done].
  intros <-%expr_eqb_eq Hm Hs. destruct masked as [| | | | | |[] l r| |]; try done. unfold low_masked_source_any in E.
  destruct (as_const r) as [k|] eqn:Er; [|done]. destruct (mask_low_bits k) as [bits|] eqn:Ek; [|done]. simplify_eq.
  destruct (low_masked_sound model (EBinOp And src r) bits src m) as (a & Ha & -> & Hb); [|done|].
  { unfold low_masked_source. by rewrite Er, Ek, Z.eqb_refl. }
  simplify_eq. pose proof (uval_range s). apply Z.mod_le; lia.
Qed.

Lemma zero_ltb x : u_ltb x ZERO = false.
Proof. unfold u_ltb. pose proof (uval_range x). rewrite uval_ZERO. apply Z.ltb_ge. lia. Qed.
Lemma zero_leb x : u_leb ZERO x = true.
Proof. unfold u_leb. pose proof (uval_range x). rewrite uval_ZERO. apply Z.leb_le. lia. Qed.
Lemma max_ltb x : u_ltb MAX x = false.
Proof. unfold u_ltb. pose proof (uval_range x). rewrite uval_MAX. apply Z.ltb_ge. lia. Qed.
Lemma max_leb x : u_leb x MAX = true.
Proof. unfold u_leb. pose proof (uval_range x). rewrite uval_MAX. apply Z.leb_le. lia. Qed.

Context {SL : SignedArithLaws}.

(** The four unsigned comparisons share their guards. *)
Lemma cmp_unsigned_sound op (l r : SymExpr) (diag : bool) low high masked source :
  (forall x, cmpop_eval op x x = diag) ->
  (forall x y, den l = Some x -> den r = Some y -> const_is low is_zero = true -> cmpop_eval op x y = diag) ->
  (forall x y, den l = Some x -> den r = Some y -> const_is high (u_eqb MAX) = true -> cmpop_eval op x y = diag) ->
  (forall x y, den l = Some x -> den r = Some y -> is_low_mask_of masked source = true -> cmpop_eval op x y = diag) ->
  brefines (BCmp op l r)
    (if expr_eqb l r then SBool.constant diag
     else match as_const l, as_const r with
       | Some a, Some b => SBool.constant (cmpop_eval op a b)
       | _, _ =>
           if const_is low is_zero then SBool.constant diag
           else if const_is high (u_eqb MAX) then SBool.constant diag
           else if is_low_mask_of masked source then SBool.constant diag
           else BCmp op l r
       end).
Proof.
  intros Hd Hl Hh Hm b Hb. pose proof (den_cmp_inv _ _ _ _ Hb) as (x & y & Hx & Hy & ->).
  destruct (expr_eqb_spec l r) as [->|]; [replace y with x by congruence; by rewrite Hd|].
  destruct (as_const l) as [a|] eqn:El, (as_const r) as [c|] eqn:Er.
  { by rewrite (as_const_den _ _ _ _ El Hx), (as_const_den _ _ _ _ Er Hy). }
  all: destruct (const_is low is_zero) eqn:E1; [by rewrite (Hl x y)|].
  all: destruct (const_is high (u_eqb MAX)) eqn:E2; [by rewrite (Hh x y)|].
  all: destruct (is_low_mask_of masked source) eqn:E3; [by rewrite (Hm x y)|done].
Qed.

Lemma signed_irrefl op x : op = Slt \/ op = Sgt -> cmpop_eval op x x = false.
Proof. intros [-> | ->]; simpl; by rewrite i256_cmp_refl. Qed.

Lemma cmp_signed_sound op l r :
  op = Slt \/ op = Sgt -> brefines (BCmp op l r) (cmp_signed op l r).
Proof.
  intros Hop b Hb. pose proof (den_cmp_inv _ _ _ _ Hb) as (x & y & Hx & Hy & ->). unfold cmp_signed.
  destruct (expr_eqb_spec l r) as [->|].
  { replace y with x by congruence. by rewrite signed_irrefl. }
  destruct (as_const l) as [a|] eqn:El, (as_const r) as [c|] eqn:Er; try done.
  by rewrite (as_const_den _ _ _ _ El Hx), (as_const_den _ _ _ _ Er Hy).
Qed.

(** Only the equality rewrites compare hashes. *)
Lemma cmp_refines_order op l r :
  (op = Eq -> no_hash_leaf l || no_hash_leaf r = true) -> brefines (BCmp op l r) (cmp op l r).
Proof.
  intros Hnh. unfold cmp. destruct (cmp_aligned_ite op l r) as [c|] eqn:Ea; [by apply aligned_ite_sound|].
  destruct op; [by apply eq_fuel_sound, Hnh|..]; try (apply cmp_signed_sound; auto).
  all: apply cmp_unsigned_sound; [intros x; simpl; unfold u_ltb, u_leb; by rewrite ?Z.ltb_irrefl, ?Z.leb_refl|..].
  all: intros x y Hx Hy H; simpl.
  all: match goal with
       | H : const_is ?e is_zero = true, D : den ?e = Some ?v |- _ => rewrite (const_zero_val _ _ _ H D)
       | H : const_is ?e (u_eqb MAX) = true, D : den ?e = Some ?v |- _ => rewrite (const_eq_val _ _ _ _ H D)
       | H : is_low_mask_of ?m ?s = true, D : den ?m = Some _, D' : den ?s = Some _ |- _ =>
           pose proof (low_mask_le _ _ _ _ H D D'); unfold u_ltb, u_leb
       end; rewrite ?zero_ltb, ?zero_leb, ?max_ltb, ?max_leb; try done.
  all: rewrite ?Z.ltb_ge, ?Z.leb_le; lia.
Qed.

Lemma cmp_refines op l r :
  no_hash_leaf l || no_hash_leaf r = true -> brefines (BCmp op l r) (cmp op l r).
Proof. intros Hnh. by apply cmp_refines_order. Qed.

Lemma into_zero_bool_sound e v :
  den e = Some v -> denb (into_zero_bool e) = Some (is_zero v).
Proof.
  intros Hv.
  assert (Hcmp : denb (cmp Eq e zero) = Some (is_zero v)).
  { apply (cmp_refines Eq e zero); [by rewrite orb_true_r|]. simpl. by rewrite Hv. }
  destruct e as [c| | | | | | | |c t f]; try exact Hcmp; [by simpl in *; simplify_eq|].
  simpl. destruct (bool_word_condition_from_parts c t f) as [c'|] eqn:E; [|exact Hcmp].
  destruct (bool_word_condition_sound model (EIte c t f) c' v E Hv) as (b & Hb & ->).
  rewrite den_not_bool, Hb. by destruct b.
Qed.

(** ** Bounds and implications *)
Lemma to_usize_val v n : to_usize v = Some n -> uval v = n.
Proof. unfold to_usize. case_match; naive_solver. Qed.

Lemma usize_of_den e n v : usize_of e = Some n -> den e = Some v -> uval v = n.
Proof.
  unfold usize_of. destruct (as_const e) as [c|] eqn:E; [|done]. intros Hn Hv.
  rewrite (as_const_den _ _ _ _ E Hv). by apply to_usize_val.
Qed.
Lemma usize_below_den e n v : usize_below e = Some n -> den e = Some v -> uval v = n + 1.
Proof.
  unfold usize_below. destruct (as_const e) as [c|] eqn:E; [|done].
  destruct (is_zero c) eqn:Ez; [done|]. intros Hn%to_usize_val Hv.
  rewrite (as_const_den _ _ _ _ E Hv). unfold is_zero in Ez. apply Z.eqb_neq in Ez.
  pose proof (uval_range c). unfold wrapping_sub in Hn. rewrite uval_ONE, uval_U_small in Hn by lia. lia.
Qed.

Lemma upper_bound_cmp op l r e n v :
  upper_bound_usize (BCmp op l r) e = Some n -> denb (BCmp op l r) = Some true ->
  den e = Some v -> uval v <= n.
Proof.
  intros Hn (x & y & Hx & Hy & Hc)%den_cmp_inv Hv. simpl in Hn.
  destruct op; simpl in Hn, Hc; unfold u_eqb, u_ltb, u_leb in Hc;
    destruct (expr_eqb_spec l e) as [->|]; try destruct (expr_eqb_spec r e) as [->|]; try done;
    simplify_eq; symmetry in Hc; rewrite ?Z.eqb_eq, ?Z.ltb_lt, ?Z.leb_le in Hc;
    repeat match goal with
    | H : usize_of _ = Some _ |- _ => eapply usize_of_den in H; [|eassumption]
    | H : usize_below _ = Some _ |- _ => eapply usize_below_den in H; [|eassumption]
    end; lia.
Qed.

Lemma upper_bound_sound b e n v :
  upper_bound_usize b e = Some n -> denb b = Some true -> den e = Some v -> uval v <= n.
Proof.
  revert n. apply (bexpr_ind' (fun _ => True) (fun b => forall n, upper_bound_usize b e = Some n ->
    denb b = Some true -> den e = Some v -> uval v <= n)); try done; clear b.
  - intros vs Hvs n. rewrite denote_BAnd. intros Hn Hall Hv. simpl in Hn.
    assert (Hgo : forall bound, (forall k, bound = Some k -> uval v <= k) ->
      (fix go (bound : option Z) (vs : list SymBoolExpr) : option Z :=
       match vs with
       | [] => bound
       | v :: r => go (min_bound bound (upper_bound_usize v e)) r
       end) bound vs = Some n -> uval v <= n).
    { clear Hn. induction Hvs as [|b vs Hb _ IH]; intros bound Hbound Hgo; [eauto|]. simpl in Hall.
      destruct (denb b) as [[]|] eqn:Eb; try done. eapply IH; [done| |exact Hgo].
      unfold min_bound. destruct (upper_bound_usize b e) as [k|] eqn:Ek; [|done].
      pose proof (Hb k eq_refl eq_refl Hv). destruct bound as [k'|]; intros ? [= <-]; [|done].
      pose proof (Hbound k' eq_refl). lia. }
    eapply Hgo; [|exact Hn]. done.
  - intros op l r _ _ n Hn Hb Hv. by eapply upper_bound_cmp.
Qed.

Lemma implies_ule_sound b expected l r rem x y :
  fst (implies_unsigned_less_or_equal b expected l r rem) = true ->
  denb b = Some expected -> den l = Some x -> den r = Some y -> uval x <= uval y.
Proof.
  intros Hi Hb Hx Hy. destruct (expr_eqb_spec l r) as [->|Hne]; [simplify_eq; lia|].
  revert expected rem Hi Hb.
  apply (bexpr_ind' (fun _ => True) (fun b => forall expected rem,
    fst (implies_unsigned_less_or_equal b expected l r rem) = true -> denb b = Some expected -> uval x <= uval y));
    try done; clear b.
  all: assert (Hf : expr_eqb l r = false) by (by destruct (expr_eqb_spec l r)).
  - intros b expected rem. simpl. rewrite Hf. by case_match.
  - intros b IH expected rem. simpl. rewrite Hf. destruct (rem =? 0); [done|]. intros Hi Hb.
    eapply IH; [exact Hi|]. destruct (denb b) as [[]|]; simpl in Hb; by simplify_eq.
  - intros vs Hvs expected rem. rewrite denote_BAnd. simpl. rewrite Hf.
    destruct (rem =? 0); [done|]. destruct expected; [|done]. generalize (rem - 1).
    induction Hvs as [|b vs Hb _ IH]; intros rm Hi Hall; [done|]. simpl in Hall.
    destruct (denb b) as [[]|] eqn:Eb; try done.
    destruct (implies_unsigned_less_or_equal b true l r rm) as [[] rm'] eqn:Ei; [|by eapply IH].
    eapply (Hb true rm); [by rewrite Ei|done].
  - intros op fl fr _ _ expected rem. simpl. rewrite Hf. destruct (rem =? 0); [done|]. simpl.
    intros Hi Hb. assert (Hfacts : fl = l /\ fr = r \/ fr = l /\ fl = r).
    { destruct op, expected; try done; rewrite ?orb_true_iff, !andb_true_iff, !expr_eqb_eq in Hi; tauto. }
    destruct (den fl) as [a|] eqn:Ea, (den fr) as [c|] eqn:Ec; try done.
    destruct op, expected; try done; injection Hb as Hb; unfold u_eqb, u_ltb, u_leb in Hb;
      rewrite ?orb_true_iff, !andb_true_iff, !expr_eqb_eq in Hi;
      rewrite ?Z.eqb_eq, ?Z.ltb_lt, ?Z.leb_le, ?Z.ltb_ge, ?Z.leb_gt in Hb;
      destruct_or? Hi; destruct_and? Hi; subst; simplify_eq; lia.
Qed.

(** ** Constant differences *)
Definition diff_ok (x y : SymExpr) (d : U256) : Prop :=
  forall a b, den x = Some a -> den y = Some b -> wrapping_sub a b = d.
Definition diff_cache_ok (st : DiffState) : Prop :=
  Forall (fun '((x, y), r) => forall d, r = Some d -> diff_ok x y d) (ds_cache st).
Definition diff_result_ok (x y : SymExpr) (out : option U256 * DiffState) : Prop :=
  diff_cache_ok (snd out) /\ forall d, fst out = Some d -> diff_ok x y d.

Lemma diff_finish x y result st :
  diff_cache_ok st -> (forall d, result = Some d -> diff_ok x y d) ->
  diff_result_ok x y (result, {| ds_cache := ((x, y), result) :: ds_cache st; ds_remaining := ds_remaining st |}).
Proof. intros Hc Hr. split; [by constructor|done]. Qed.

Lemma sub_add_l a b c : wrapping_sub (wrapping_add a c) b = wrapping_add (wrapping_sub a b) c.
Proof.
  unfold wrapping_sub, wrapping_add. word_arith.
  rewrite Zminus_mod_idemp_l, Zplus_mod_idemp_l. f_equal. lia.
Qed.
Lemma sub_sub_l a b c : wrapping_sub (wrapping_sub a c) b = wrapping_sub (wrapping_sub a b) c.
Proof.
  unfold wrapping_sub. word_arith. rewrite !Zminus_mod_idemp_l. f_equal. lia.
Qed.
Lemma sub_add_r a b c : wrapping_sub a (wrapping_add b c) = wrapping_sub (wrapping_sub a b) c.
Proof.
  unfold wrapping_sub, wrapping_add. word_arith. rewrite Zminus_mod_idemp_r, Zminus_mod_idemp_l. f_equal. lia.
Qed.
Lemma sub_sub_r a b c : wrapping_sub a (wrapping_sub b c) = wrapping_add (wrapping_sub a b) c.
Proof.
  unfold wrapping_sub, wrapping_add. word_arith. rewrite Zminus_mod_idemp_r, Zplus_mod_idemp_l. f_equal. lia.
Qed.

Lemma diff_left_ok op x c k y d :
  as_const c = Some k -> diff_ok x y d ->
  (op = Add -> diff_ok (EBinOp op x c) y (wrapping_add d k)) /\
  (op = Sub -> diff_ok (EBinOp op x c) y (wrapping_sub d k)).
Proof.
  intros Hc Hd. split; intros -> a b (u & w & Hu & Hw & ->)%den_binop_inv Hb;
    rewrite (as_const_den _ _ _ _ Hc Hw), <- (Hd u b Hu Hb); [apply sub_add_l|apply sub_sub_l].
Qed.
Lemma diff_right_ok op x c k y d :
  as_const c = Some k -> diff_ok y x d ->
  (op = Add -> diff_ok y (EBinOp op x c) (wrapping_sub d k)) /\
  (op = Sub -> diff_ok y (EBinOp op x c) (wrapping_add d k)).
Proof.
  intros Hc Hd. split; intros -> a b Ha (u & w & Hu & Hw & ->)%den_binop_inv;
    rewrite (as_const_den _ _ _ _ Hc Hw), <- (Hd a u Ha Hu); [apply sub_add_r|apply sub_sub_r].
Qed.

Lemma diff_ite_ok c lt le rt re d :
  diff_ok lt rt d -> diff_ok le re d -> diff_ok (EIte c lt le) (EIte c rt re) d.
Proof.
  intros Ht He a b (cb & Hc & Ha)%den_ite_inv (cb' & Hc' & Hb)%den_ite_inv.
  assert (cb' = cb) as -> by congruence. destruct cb; [by apply Ht|by apply He].
Qed.

Lemma pair_eqb_eq p q : pair_eqb p q = true -> p = q.
Proof.
  destruct p, q. unfold pair_eqb. simpl. intros [->%expr_eqb_eq ->%expr_eqb_eq]%andb_prop. done.
Qed.

Lemma difference_body_sound diff x y st :
  (forall x y st, diff_cache_ok st -> diff_result_ok x y (diff x y st)) ->
  diff_cache_ok st -> diff_result_ok x y (difference_body diff x y st).
Proof.
  intros IH Hst. unfold difference_body.
  destruct (expr_eqb_spec x y) as [->|].
  { split; [done|]. intros d [= <-] a b Ha Hb. replace b with a by congruence. apply (sub_diag a). }
  destruct (assoc pair_eqb (x, y) (ds_cache st)) as [r|] eqn:Ea.
  { apply assoc_Some_in in Ea; [|apply pair_eqb_eq]. split; [done|].
    apply (proj1 (List.Forall_forall _ _) Hst ((x, y), r) Ea). }
  destruct (ds_remaining st =? 0); [done|].
  set (st0 := {| ds_cache := ds_cache st; ds_remaining := ds_remaining st - 1 |}).
  assert (Hst0 : diff_cache_ok st0) by done. clearbody st0. clear st Hst Ea.
  assert (Hnone : diff_result_ok x y (None, {| ds_cache := ((x, y), None) :: ds_cache st0; ds_remaining := ds_remaining st0 |})).
  { by apply diff_finish. }
  set (finish := fun (result : option U256) (st : DiffState) =>
    (result, {| ds_cache := ((x, y), result) :: ds_cache st; ds_remaining := ds_remaining st |})).
  assert (Hright : diff_result_ok x y (match y with
        | EBinOp Add value c =>
            match as_const c with
            | Some c => let '(d, st) := diff x value st0 in
                        finish (option_map (fun d => wrapping_sub d c) d) st
            | None => finish None st0
            end
        | EBinOp Sub value c =>
            match as_const c with
            | Some c => let '(d, st) := diff x value st0 in
                        finish (option_map (fun d => wrapping_add d c) d) st
            | None => finish None st0
            end
        | _ => finish None st0
        end)).
  { destruct y as [| | | | | |[] value c| |]; try exact Hnone;
      (destruct (as_const c) as [k|] eqn:Ec; [|exact Hnone]);
      destruct (IH x value st0 Hst0) as [Hc Hd]; destruct (diff x value st0) as [d st1]; simpl in *;
      (apply diff_finish; [done|]); intros d' (d0 & Hd0 & ->)%fmap_Some;
      eapply (diff_right_ok _ value c k x d0 Ec (Hd d0 Hd0)); done. }
  destruct x as [xv| | | | | |xop xl xr| |xc xt xf].
  - destruct y as [yv| | | | | |yop yl yr| |]; try exact Hright.
    apply diff_finish; [done|]. intros d [= <-] a b [= <-] [= <-]. done.
  - exact Hright.
  - exact Hright.
  - exact Hright.
  - exact Hright.
  - exact Hright.
  - destruct xop; try exact Hright.
    all: destruct (as_const xr) as [k|] eqn:Ec; [|exact Hright].
    all: destruct (IH xl y st0 Hst0) as [Hc Hd]; destruct (diff xl y st0) as [d st1]; simpl in Hc, Hd.
    all: apply diff_finish; [done|]; intros d' (d0 & Hd0 & ->)%fmap_Some.
    all: eapply (diff_left_ok _ xl xr k y d0 Ec (Hd d0 Hd0)); done.
  - exact Hright.
  - destruct y as [| | | | | |yop yl yr| |yc yt yf]; try exact Hright.
    destruct (bexpr_eqb_spec xc yc) as [->|]; [|exact Hnone].
    destruct (IH xt yt st0 Hst0) as [Hc1 Hd1]. destruct (diff xt yt st0) as [[d1|] st1]; [|done]. simpl in *.
    destruct (IH xf yf st1 Hc1) as [Hc2 Hd2]. destruct (diff xf yf st1) as [[d2|] st2]; [|done]. simpl in *.
    apply diff_finish; [done|]. destruct (u_eqb_spec d1 d2) as [->|]; [|done].
    intros d [= <-]. apply diff_ite_ok; auto.
Qed.

Lemma difference_sound x y d : constant_difference x y = Some d -> diff_ok x y d.
Proof.
  unfold constant_difference.
  assert (Hf : forall fuel x y st, diff_cache_ok st -> diff_result_ok x y (difference_fuel fuel x y st)).
  { induction fuel as [|fuel IH]; intros x' y' st Hst; [done|]. by apply difference_body_sound. }
  destruct (Hf (esize x + esize y)%nat x y {| ds_cache := []; ds_remaining := MAX_CONSTANT_DIFFERENCE_VISITS |})
    as [_ Hd]; [constructor|]. apply Hd.
Qed.
End CmpSound.

(** ** The fuel of the recursive definitions is enough *)
Section CmpFuel.
Context `{SA : SignedArith, HF : HashFns}.

Lemma bytes_size b (bs : list SymExpr) :
  b ∈ bs -> (esize b <= (fix go bs := match bs with [] => O | b :: r => (esize b + go r)%nat end) bs)%nat.
Proof.
  induction bs as [|c bs IH]; [by intros ?%not_elem_of_nil|]. intros [->|Hb]%elem_of_cons; [lia|].
  specialize (IH Hb). lia.
Qed.

Lemma ite_eq_arm_ext eq eq' c e :
  (forall a, (esize a < esize c)%nat -> eq a e = eq' a e) -> ite_eq_arm eq c e = ite_eq_arm eq' c e.
Proof.
  intros H. destruct c as [| | | | | | | |c t f]; try done. unfold ite_eq_arm. simpl in H.
  by rewrite !H by lia.
Qed.

Lemma map_combine_ext (eq eq' : SymExpr -> SymExpr -> SymBoolExpr) (xs ys : list SymExpr) :
  (forall x y, x ∈ xs -> y ∈ ys -> eq x y = eq' x y) ->
  map (fun '(a, b) => eq a b) (combine xs ys) = map (fun '(a, b) => eq' a b) (combine xs ys).
Proof.
  intros H. apply map_ext_in. intros [a b] Hin. pose proof (in_combine_l _ _ _ _ Hin).
  pose proof (in_combine_r _ _ _ _ Hin). apply H; by apply list_elem_of_In.
Qed.

Lemma eq_body_ext eq eq' l r :
  (forall l' r', (esize l' + esize r' < esize l + esize r)%nat -> eq l' r' = eq' l' r') ->
  eq_body eq l r = eq_body eq' l r.
Proof.
  intros H. unfold eq_body.
  rewrite (ite_eq_arm_ext eq eq' l r) by (intros; apply H; lia).
  rewrite (ite_eq_arm_ext eq eq' r l) by (intros; apply H; lia).
  destruct l as [| | |ln ll lb|ln la lb| | | |], r as [| | |rn rl rb|rn ra rb| | | |]; try reflexivity.
  - assert (E1 : eq ll rl = eq' ll rl) by (apply H; simpl; lia).
    assert (E2 : map (fun '(a, b) => eq a b) (combine lb rb) = map (fun '(a, b) => eq' a b) (combine lb rb)).
    { apply map_combine_ext. intros x y Hx%bytes_size Hy%bytes_size. apply H. simpl. lia. }
    by rewrite E1, E2.
  - assert (E2 : map (fun '(a, b) => eq a b) (combine lb rb) = map (fun '(a, b) => eq' a b) (combine lb rb)).
    { apply map_combine_ext. intros x y Hx%bytes_size Hy%bytes_size. apply H. simpl. lia. }
    by rewrite E2.
Qed.

Lemma eq_fuel_stable n m l r :
  (esize l + esize r <= n)%nat -> (esize l + esize r <= m)%nat -> eq_fuel n l r = eq_fuel m l r.
Proof.
  revert m l r. induction n as [|n IH]; intros [|m] l r Hn Hm; pose proof (esize_pos l); try lia.
  simpl. apply eq_body_ext. intros l' r' Hlt. apply IH; lia.
Qed.

(** The source's recursion equation. *)
Lemma sym_eq_unfold l r : sym_eq l r = eq_body sym_eq l r.
Proof.
  unfold sym_eq at 1. destruct (esize l + esize r)%nat as [|n] eqn:E; [pose proof (esize_pos l); lia|].
  simpl. apply eq_body_ext. intros l' r' Hlt. unfold sym_eq. apply eq_fuel_stable; lia.
Qed.

Lemma difference_body_ext diff diff' x y st :
  (forall x' y' st, (esize x' + esize y' < esize x + esize y)%nat -> diff x' y' st = diff' x' y' st) ->
  difference_body diff x y st = difference_body diff' x y st.
Proof.
  intros H. unfold difference_body. destruct (expr_eqb x y); [done|].
  destruct (assoc pair_eqb (x, y) (ds_cache st)); [done|]. destruct (ds_remaining st =? 0); [done|].
  set (st0 := {| ds_cache := ds_cache st; ds_remaining := ds_remaining st - 1 |}).
  destruct x as [xv| | | | | |xop xl xr| |xc xt xf], y as [yv| | | | | |yop yl yr| |yc yt yf]; try reflexivity.
  all: try (rewrite (H xl _ st0) by (simpl; lia)).
  all: try (rewrite (H _ yl st0) by (simpl; lia)).
  all: try reflexivity.
  rewrite (H xt yt st0) by (simpl; lia). destruct (diff' xt yt st0) as [[d|] st1]; [|done].
  by rewrite (H xf yf st1) by (simpl; lia).
Qed.

Lemma difference_fuel_stable n m x y st :
  (esize x + esize y <= n)%nat -> (esize x + esize y <= m)%nat ->
  difference_fuel n x y st = difference_fuel m x y st.
Proof.
  revert m x y st. induction n as [|n IH]; intros [|m] x y st Hn Hm; pose proof (esize_pos x); try lia.
  simpl. apply difference_body_ext. intros x' y' st' Hlt. apply IH; lia.
Qed.

Lemma condition_nodes_total c : is_Some (iterate condition_step condition_fuel ([c], 0)).
Proof.
  apply (iterate_total condition_step (fun st => 0 <= snd st <= MAX_CONSTANT_ITE_EQ_UNFOLDED_NODES)
    (fun st => Z.to_nat (MAX_CONSTANT_ITE_EQ_UNFOLDED_NODES + 1 - snd st)));
    [|unfold MAX_CONSTANT_ITE_EQ_UNFOLDED_NODES; simpl; lia
     |unfold condition_fuel, MAX_CONSTANT_ITE_EQ_UNFOLDED_NODES; simpl; lia].
  clear. intros [[|c rest] n] s'; simpl; [done|]. intros Hn. unfold checked_add.
  destruct (n + 1 <=? usize_max); [|done].
  destruct (Z.ltb_spec MAX_CONSTANT_ITE_EQ_UNFOLDED_NODES (n + 1)); [done|].
  intros [= <-]. simpl. lia.
Qed.
End CmpFuel.
