(* ===== verification/SymBytes.v ===== *)
(** * SymBytes: bytes of symbolic words, address matching and forced constants

    Models [low_byte], [extracted_byte], [byte_term], [from_bytes] and
    [eval] (expr.rs), [address_match_condition] (address.rs) and the queries
    that read a constant off a path condition ([forces_expr_const_with_context]
    in bool.rs, [equality_forces_const] and [nonzero_forces_const] in expr.rs).
    [U256::to::<u8>()] panics on a value that does not fit; the definitions that
    call it return an [Outcome]. *)

From Stdlib Require Import ZArith Lia Bool.
From stdpp Require Import base list option sets.
From S2P Require Import Prelude SymWord SymExpr SymSimpl SymSound SymCmp.
Local Open Scope Z_scope.
Local Open Scope outcome_scope.

(** ** Evaluation without a model *)
Definition NoopModel : SymbolicModel := fun _ => None.

(** Whether [collect_eval_vars] finds a variable: every word node is visited. *)
Fixpoint has_eval_var (e : SymExpr) : bool :=
  match e with
  | EConst _ => false
  | EVar _ | EGasLeft _ | EHash _ _ _ => true
  | EKeccak _ len bytes =>
      has_eval_var len ||
      (fix go bs := match bs with [] => false | b :: r => has_eval_var b || go r end) bytes
  | ENot v => has_eval_var v
  | EBinOp _ l r => has_eval_var l || has_eval_var r
  | ETernOp _ l r m => has_eval_var l || has_eval_var r || has_eval_var m
  | EIte c t f => bhas_eval_var c || has_eval_var t || has_eval_var f
  end
with bhas_eval_var (b : SymBoolExpr) : bool :=
  match b with
  | BConst _ => false
  | BNot v => bhas_eval_var v
  | BAnd vs => (fix go vs := match vs with [] => false | v :: r => bhas_eval_var v || go r end) vs
  | BCmp _ l r => has_eval_var l || has_eval_var r
  end.

Section Bytes.
Context `{SA : SignedArith, HF : HashFns}.

Definition sym_eval (e : SymExpr) : option U256 :=
  if has_eval_var e then None
  else match eval_model_word NoopModel e with inl v => Some v | inr _ => None end.

(** [value.to::<u8>()]. *)
Definition to_u8 (v : U256) : Outcome Z := if uval v <? 256 then Ret (uval v) else Panic.

Definition low_byte (e : SymExpr) : Outcome SymExpr :=
  match as_const e with
  | Some word => let* b := to_u8 word in Ret (constant (U b))
  | None => Ret (binop And e (constant (U 255)))
  end.

Definition extracted_byte (e : SymExpr) (index : Z) : SymExpr :=
  binop And (binop Shr e (constant (U ((31 - index) * 8)))) (constant (U 255)).

Definition opt_to_u8 (v : option U256) : Outcome (option Z) :=
  match v with None => Ret None | Some v => let* b := to_u8 v in Ret (Some b) end.

Definition is_byte (p : Z -> bool) (b : option Z) : bool :=
  match b with Some b => p b | None => false end.

(** [left] and [right] are the byte terms of the operands. *)
Definition binary_byte_term (left right : Outcome (option SymExpr)) (op : SymBinOp)
    (identity absorbing : Z -> bool) : Outcome (option SymExpr) :=
  let* lt := left in
  match lt with
  | None => Ret None
  | Some l =>
      let* rt := right in
      match rt with
      | None => Ret None
      | Some r =>
          let* lb := opt_to_u8 (as_const l) in
          let* rb := opt_to_u8 (as_const r) in
          Ret (Some
            (if is_byte absorbing lb then constant (U (default 0 lb))
             else if is_byte absorbing rb then constant (U (default 0 rb))
             else if is_byte identity lb then r
             else if is_byte identity rb then l
             else binop op l r))
      end
  end.

Fixpoint byte_term (e : SymExpr) (index : Z) : Outcome (option SymExpr) :=
  match e with
  | EConst v => Ret (Some (constant (U (be_byte v index))))
  | EVar _ | EGasLeft _ | EKeccak _ _ _ | EHash _ _ _ => Ret (Some (extracted_byte e index))
  | ENot v => let* t := byte_term v index in Ret (option_map sym_not t)
  | EIte c t f =>
      let* t' := byte_term t index in
      match t' with
      | None => Ret None
      | Some t' => let* f' := byte_term f index in Ret (option_map (ite c t') f')
      end
  | EBinOp And l r =>
      binary_byte_term (byte_term l index) (byte_term r index) And (Z.eqb 255) (Z.eqb 0)
  | EBinOp Or l r =>
      binary_byte_term (byte_term l index) (byte_term r index) Or (Z.eqb 0) (fun _ => false)
  | EBinOp Xor l r =>
      binary_byte_term (byte_term l index) (byte_term r index) Xor (Z.eqb 0) (fun _ => false)
  | EBinOp Shl l r =>
      match sym_eval r with
      | None => Ret None
      | Some shift =>
          if u_leb (U 256) shift then Ret (Some zero)
          else if negb (uval shift mod 8 =? 0) then Ret None
          else let source_index := index + uval shift / 8 in
               if 32 <=? source_index then Ret (Some zero) else byte_term l source_index
      end
  | EBinOp Shr l r =>
      match sym_eval r with
      | None => Ret None
      | Some shift =>
          if u_leb (U 256) shift then Ret (Some zero)
          else if negb (uval shift mod 8 =? 0) then Ret None
          else let byte_shift := uval shift / 8 in
               if index <? byte_shift then Ret (Some zero) else byte_term l (index - byte_shift)
      end
  | EBinOp _ _ _ | ETernOp _ _ _ _ => Ret None
  end.

(** *** Address matching (address.rs) *)
Definition address_indices : list Z := map Z.of_nat (seq 12 20).

(** [collect::<Option<Vec<_>>>] stops at the first [None]. *)
Fixpoint collect_byte_terms (e : SymExpr) (indices : list Z) : Outcome (option (list SymExpr)) :=
  match indices with
  | [] => Ret (Some [])
  | i :: rest =>
      let* t := byte_term e i in
      match t with
      | None => Ret None
      | Some t => let* ts := collect_byte_terms e rest in Ret (option_map (cons t) ts)
      end
  end.

(** The address is its word, [address_word(address)]; [address.as_slice()] is
    its bytes 12..32. *)
Definition address_match_condition (e : SymExpr) (address : U256) : Outcome SymBoolExpr :=
  match as_const e with
  | Some word => Ret (SBool.constant (u_eqb word address))
  | None =>
      let* terms := collect_byte_terms e address_indices in
      match terms with
      | None => Ret (cmp Eq e (constant address))
      | Some terms =>
          Ret (SBool.and (map (fun '(i, t) => cmp Eq t (constant (U (be_byte address i))))
                            (combine address_indices terms)))
      end
  end.

(** *** Words from bytes *)
Fixpoint concrete_expr_bytes (bytes : list SymExpr) : Outcome (option (list Z)) :=
  match bytes with
  | [] => Ret (Some [])
  | b :: rest =>
      match as_const b with
      | None => Ret None
      | Some v => let* n := to_u8 v in
                  let* ns := concrete_expr_bytes rest in Ret (option_map (cons n) ns)
      end
  end.

Fixpoint find_byte_source (idx : nat) (bytes : list SymExpr) : option SymExpr :=
  match bytes with
  | [] => None
  | b :: rest => match extracted_byte_source b (Z.of_nat idx) with
                 | Some s => Some s
                 | None => find_byte_source (S idx) rest
                 end
  end.

Fixpoint check_bytes (source : SymExpr) (idx : nat) (bytes : list SymExpr) : Outcome (option SymExpr) :=
  match bytes with
  | [] => Ret (Some source)
  | b :: rest =>
      match extracted_byte_source b (Z.of_nat idx) with
      | Some s => if expr_eqb s source then check_bytes source (S idx) rest else Ret None
      | None =>
          match as_const b with
          | None => Ret None
          | Some v =>
              let* n := to_u8 v in
              if match known_byte source (Z.of_nat idx) with Some k => k =? n | None => false end
              then check_bytes source (S idx) rest else Ret None
          end
      end
  end.

Definition word_from_extracted_bytes (bytes : list SymExpr) : Outcome (option SymExpr) :=
  if (length bytes <? 32)%nat then Ret None
  else match find_byte_source 0 (take 32 bytes) with
       | None => Ret None
       | Some source => check_bytes source 0 (take 32 bytes)
       end.

(** The loop that ORs the shifted bytes together. *)
Fixpoint or_bytes (expr : SymExpr) (idx : nat) (bytes : list SymExpr) : Outcome SymExpr :=
  match bytes with
  | [] => Ret expr
  | b :: rest =>
      let shift := (31 - Z.of_nat idx) * 8 in
      let* byte := low_byte b in
      let byte := if shift =? 0 then byte else binop Shl byte (constant (U shift)) in
      or_bytes (binop Or expr byte) (S idx) rest
  end.

Definition from_bytes (bytes : list SymExpr) : Outcome SymExpr :=
  let* concrete := concrete_expr_bytes bytes in
  match concrete with
  | Some ns => Ret (constant (U (be_value 0 (take 32 ns))))
  | None =>
      let* source := word_from_extracted_bytes bytes in
      match source with
      | Some e => Ret e
      | None => or_bytes zero 0 (take 32 bytes)
      end
  end.

(** ** Constants forced by a condition *)
Definition masked_expr_matches (candidate target : SymExpr) : option U256 :=
  match candidate with
  | EBinOp And l r =>
      if expr_eqb l target then sym_eval r
      else if expr_eqb r target then sym_eval l else None
  | _ => None
  end.

Definition opt_word_is (v : option U256) (mask : U256) : bool :=
  match v with Some v => u_eqb v mask | None => false end.

Fixpoint condition_forces_masked (target : SymExpr) (mask : U256) (c : SymBoolExpr) : bool :=
  match c with
  | BCmp Eq l r =>
      (expr_eqb l target && opt_word_is (masked_expr_matches r target) mask) ||
      (expr_eqb r target && opt_word_is (masked_expr_matches l target) mask)
  | BAnd vs => (fix any vs := match vs with
                              | [] => false
                              | v :: r => condition_forces_masked target mask v || any r
                              end) vs
  | _ => false
  end.

Definition context_forces_masked_expr (context : list SymBoolExpr) (target : SymExpr) (mask : U256) : bool :=
  existsb (condition_forces_masked target mask) context.

Definition equality_forces_const (e : SymExpr) (value : U256) (target : SymExpr)
    (context : list SymBoolExpr) : option U256 :=
  if expr_eqb e target then Some value
  else match masked_expr_matches e target with
       | None => None
       | Some mask =>
           if negb (is_zero (u_and value (u_not mask))) || negb (context_forces_masked_expr context target mask)
           then None else Some value
       end.

Definition eval_is (e : SymExpr) (p : U256 -> bool) : bool :=
  match sym_eval e with Some v => p v | None => false end.

Fixpoint nonzero_forces_const (e target : SymExpr) (context : list SymBoolExpr) : option U256 :=
  match e with
  | EIte c t f =>
      if eval_is t (fun v => negb (is_zero v)) && eval_is f is_zero
      then forces_expr_const_with_context c target context else None
  | EBinOp Or l r =>
      if eval_is l is_zero then nonzero_forces_const r target context
      else if eval_is r is_zero then nonzero_forces_const l target context
      else None
  | EBinOp And l r =>
      if eval_is l (fun v => negb (is_zero v)) then nonzero_forces_const r target context
      else if eval_is r (fun v => negb (is_zero v)) then nonzero_forces_const l target context
      else None
  | EBinOp Shl value shift | EBinOp Shr value shift =>
      if eval_is shift is_zero then nonzero_forces_const value target context else None
  | _ => None
  end
with forces_expr_const_with_context (b : SymBoolExpr) (target : SymExpr)
    (context : list SymBoolExpr) : option U256 :=
  match b with
  | BCmp Eq l (EConst value) => equality_forces_const l value target context
  | BNot (BCmp Eq l (EConst value)) =>
      if is_zero value then nonzero_forces_const l target context else None
  | BNot (BNot v) => forces_expr_const_with_context v target context
  | BAnd vs =>
      (fix find vs := match vs with
                      | [] => None
                      | v :: r => match forces_expr_const_with_context v target context with
                                  | Some x => Some x
                                  | None => find r
                                  end
                      end) vs
  | _ => None
  end.
End Bytes.

(** ** Soundness *)
Section BytesSound.
Context `{SA : SignedArith, HF : HashFns}.
Variable model : SymbolicModel.
Abbreviation den := (denote_word model).
Abbreviation denb := (denote_bool model).

Lemma denote_bytes_closed bs n :
  Forall (fun e => has_eval_var e = false -> denote_word NoopModel e = den e) bs ->
  (fix go bs := match bs with [] => false | b :: r => has_eval_var b || go r end) bs = false ->
  denote_bytes NoopModel n bs = denote_bytes model n bs.
Proof.
  intros Hbs. revert n. induction Hbs as [|b bs Hb _ IH]; intros [|n] H; try done. simpl.
  apply orb_false_iff in H as [H1 H2]. rewrite Hb, IH by done. done.
Qed.

Lemma closed_denote :
  (forall e, has_eval_var e = false -> denote_word NoopModel e = den e) /\
  (forall b, bhas_eval_var b = false -> denote_bool NoopModel b = denb b).
Proof.
  apply expr_bexpr_ind; try done.
  - intros n l bs Hl Hbs [H1 H2]%orb_false_iff. rewrite !denote_EKeccak, Hl by done.
    destruct (den l); [|done]. case_match; [|done]. by rewrite denote_bytes_closed.
  - intros e He H. simpl in *. by rewrite He.
  - intros op l r Hl Hr [H1 H2]%orb_false_iff. simpl. by rewrite Hl, Hr.
  - intros op l r m Hl Hr Hm [[H1 H2]%orb_false_iff H3]%orb_false_iff. simpl. by rewrite Hl, Hr, Hm.
  - intros c t f Hc Ht Hf [[H1 H2]%orb_false_iff H3]%orb_false_iff. simpl. by rewrite Hc, Ht, Hf.
  - intros b Hb H. simpl in *. by rewrite Hb.
  - intros bs Hbs. rewrite !denote_BAnd. simpl.
    induction Hbs as [|b bs Hb _ IH]; intros H; [done|]. apply orb_false_iff in H as [H1 H2].
    simpl. rewrite Hb by done. destruct (denb b) as [[]|]; [by apply IH|done|done].
  - intros op l r Hl Hr [H1 H2]%orb_false_iff. simpl. by rewrite Hl, Hr.
Qed.

Lemma sym_eval_sound e v : sym_eval e = Some v -> den e = Some v.
Proof.
  unfold sym_eval. destruct (has_eval_var e) eqn:E; [done|].
  rewrite <- (proj1 closed_denote e E). unfold eval_model_word.
  destruct (proj1 (eval_agrees NoopModel) e new_evaluator (new_evaluator_ok NoopModel)) as [_ ->].
  destruct (denote_word NoopModel e); naive_solver.
Qed.

Context {SL : SignedArithLaws}.

Lemma to_u8_Ret v b : to_u8 v = Ret b <-> uval v = b /\ b < 256.
Proof. unfold to_u8. destruct (Z.ltb_spec (uval v) 256); naive_solver lia. Qed.

Lemma be_byte_31 v : be_byte v 31 = uval (u_and v (U 255)).
Proof.
  unfold be_byte. change (2 ^ (8 * (31 - 31))) with 1. rewrite Z.div_1_r.
  unfold u_and. change (uval (U 255)) with (Z.ones 8). rewrite Z.land_ones by lia.
  rewrite uval_U_small; [done|]. change word_modulus with (2 ^ 256). pose proof (Z.mod_pos_bound (uval v) (2 ^ 8)). lia.
Qed.

Lemma uval_byte b : 0 <= b < 256 -> uval (U b) = b.
Proof. intros. apply uval_U_small. change word_modulus with (2 ^ 256). lia. Qed.

Lemma low_byte_of_small v : uval v < 256 -> low_byte_of v = uval v.
Proof.
  intros. unfold low_byte_of. rewrite <- be_byte_31. unfold be_byte. rewrite Z.div_1_r.
  pose proof (uval_range v). apply Z.mod_small. lia.
Qed.
Lemma low_byte_of_range v : 0 <= low_byte_of v < 256.
Proof. unfold low_byte_of. rewrite <- be_byte_31. apply be_byte_range. Qed.

Lemma low_byte_sound e t v :
  low_byte e = Ret t -> den e = Some v -> den t = Some (U (low_byte_of v)).
Proof.
  unfold low_byte. intros Ht Hv. destruct (as_const e) as [c|] eqn:E.
  - apply obind_Ret in Ht as (b & [<- Hb]%to_u8_Ret & [= <-]). rewrite (as_const_den _ _ _ _ E Hv).
    rewrite den_constant. by rewrite low_byte_of_small.
  - injection Ht as <-. unfold low_byte_of. rewrite U_uval.
    exact (den_binop model And e (constant (U 255)) v (U 255) Hv (den_constant model _)).
Qed.

Lemma low_byte_Panic e : low_byte e = Panic <-> exists c, e = EConst c /\ 256 <= uval c.
Proof.
  unfold low_byte, to_u8. split.
  - destruct e; try done. simpl. destruct (Z.ltb_spec (uval value) 256); [done|]. eauto.
  - intros (c & -> & Hc). simpl. destruct (Z.ltb_spec (uval c) 256); [lia|done].
Qed.

(** The value of a byte as a word. *)
Abbreviation byte_word v i := (U (be_byte v i)).

Lemma byte_word_shr v i :
  0 <= i <= 31 -> u_and (binop_eval Shr v (U ((31 - i) * 8))) (U 255) = byte_word v i.
Proof.
  intros Hi. assert (Hs : uval (U ((31 - i) * 8)) = (31 - i) * 8).
  { apply uval_U_small. change word_modulus with (2 ^ 256). lia. }
  apply uval_inj. rewrite <- be_byte_31, (uval_byte (be_byte v i)) by apply be_byte_range.
  apply byte_eq; [apply be_byte_range..|]. intros j Hj.
  rewrite !be_byte_bits, shr_bits, Hs by lia. f_equal. lia.
Qed.

Lemma extracted_byte_sound e i v :
  0 <= i <= 31 -> den e = Some v -> den (extracted_byte e i) = Some (byte_word v i).
Proof.
  intros Hi Hv. unfold extracted_byte. rewrite <- byte_word_shr by done.
  apply (den_binop model And); [|apply den_constant].
  apply (den_binop model Shr); [done|apply den_constant].
Qed.

(** The bitwise skeleton that [byte_term] walks has no complement. *)
Fixpoint no_complement (e : SymExpr) : bool :=
  match e with
  | ENot _ => false
  | EIte _ t f => no_complement t && no_complement f
  | EBinOp (And | Or | Xor) l r => no_complement l && no_complement r
  | EBinOp (Shl | Shr) l _ => no_complement l
  | _ => true
  end.

Definition term_ok (r : Outcome (option SymExpr)) (b : Z) : Prop :=
  forall t, r = Ret (Some t) -> den t = Some (U b).

Lemma const_byte t b n k :
  0 <= b < 256 -> den t = Some (U b) -> opt_to_u8 (as_const t) = Ret n -> n = Some k -> k = b.
Proof.
  intros Hb Ht Hn ->. destruct (as_const t) as [c|] eqn:E; [|done].
  apply (as_const_den _ _ _ _ E) in Ht as <-. simpl in Hn. unfold to_u8 in Hn. rewrite uval_byte in Hn by done.
  case_match; simpl in Hn; naive_solver.
Qed.

Lemma binary_byte_term_inv l r op identity absorbing t :
  binary_byte_term l r op identity absorbing = Ret (Some t) ->
  exists tl tr lb rb, l = Ret (Some tl) /\ r = Ret (Some tr) /\
    opt_to_u8 (as_const tl) = Ret lb /\ opt_to_u8 (as_const tr) = Ret rb /\
    t = (if is_byte absorbing lb then constant (U (default 0 lb))
         else if is_byte absorbing rb then constant (U (default 0 rb))
         else if is_byte identity lb then tr
         else if is_byte identity rb then tl
         else binop op tl tr).
Proof.
  unfold binary_byte_term. destruct l as [[tl|]|]; try done. destruct r as [[tr|]|]; try done. simpl.
  intros (lb & Hlb & (rb & Hrb & [= <-])%obind_Ret)%obind_Ret. by exists tl, tr, lb, rb.
Qed.

Lemma binary_byte_term_ok l r op identity absorbing (f : Z -> Z -> Z) a b :
  0 <= a < 256 -> 0 <= b < 256 -> term_ok l a -> term_ok r b ->
  binop_eval op (U a) (U b) = U (f a b) ->
  (forall x y, absorbing x = true -> f x y = x) -> (forall x y, absorbing y = true -> f x y = y) ->
  (forall y, 0 <= y < 256 -> forall x, identity x = true -> f x y = y) ->
  (forall x, 0 <= x < 256 -> forall y, identity y = true -> f x y = x) ->
  term_ok (binary_byte_term l r op identity absorbing) (f a b).
Proof.
  intros Ha Hb Hl Hr Hop Hal Har Hil Hir t (tl & tr & nl & nr & -> & -> & Enl & Enr & ->)%binary_byte_term_inv.
  specialize (Hl tl eq_refl). specialize (Hr tr eq_refl).
  pose proof (fun k => const_byte tl a nl k Ha Hl Enl) as Hnl. pose proof (fun k => const_byte tr b nr k Hb Hr Enr) as Hnr.
  destruct (is_byte absorbing nl) eqn:E1.
  { destruct nl as [k|]; [|done]. rewrite (Hnl k eq_refl) in *. simpl in *. by rewrite den_constant, Hal. }
  destruct (is_byte absorbing nr) eqn:E2.
  { destruct nr as [k|]; [|done]. rewrite (Hnr k eq_refl) in *. simpl in *. by rewrite den_constant, Har. }
  destruct (is_byte identity nl) eqn:E3.
  { destruct nl as [k|]; [|done]. rewrite (Hnl k eq_refl) in *. simpl in *. by rewrite Hil. }
  destruct (is_byte identity nr) eqn:E4.
  { destruct nr as [k|]; [|done]. rewrite (Hnr k eq_refl) in *. simpl in *. by rewrite Hir. }
  rewrite <- Hop. by apply den_binop.
Qed.

Lemma land_255 y : 0 <= y < 256 -> Z.land 255 y = y.
Proof. intros. change 255 with (Z.ones 8). rewrite Z.land_comm, Z.land_ones by lia. by apply Z.mod_small. Qed.

Lemma word_bitop_byte a b :
  0 <= a < 256 -> 0 <= b < 256 ->
  u_and (U a) (U b) = U (Z.land a b) /\ u_or (U a) (U b) = U (Z.lor a b) /\ u_xor (U a) (U b) = U (Z.lxor a b).
Proof. intros. unfold u_and, u_or, u_xor. by rewrite !uval_byte. Qed.

Lemma term_ok_zero b : b = 0 -> term_ok (Ret (Some zero)) b.
Proof. intros -> x [= <-]. apply den_zero. Qed.

Lemma byte_term_ok e i v :
  no_complement e = true -> 0 <= i <= 31 -> den e = Some v -> term_ok (byte_term e i) (be_byte v i).
Proof.
  revert i v. induction e as [e IH] using (induction_ltof1 _ esize). unfold ltof in IH. intros i v Hnc Hi Hv.
  assert (Hext : term_ok (Ret (Some (extracted_byte e i))) (be_byte v i)).
  { intros x [= <-]. by apply extracted_byte_sound. }
  destruct e as [c| | | | |x|op l r| |c t f]; try exact Hext; try done.
  - intros x [= <-]. simpl in Hv. simplify_eq. apply den_constant.
  - assert (Hbits : forall f op identity absorbing, op = And \/ op = Or \/ op = Xor ->
      no_complement l && no_complement r = true -> den (EBinOp op l r) = Some v ->
      (forall a b, binop_eval op a b = v -> f (be_byte a i) (be_byte b i) = be_byte v i) ->
      (forall a b, 0 <= a < 256 -> 0 <= b < 256 -> binop_eval op (U a) (U b) = U (f a b)) ->
      (forall x y, absorbing x = true -> f x y = x) -> (forall x y, absorbing y = true -> f x y = y) ->
      (forall y, 0 <= y < 256 -> forall x, identity x = true -> f x y = y) ->
      (forall x, 0 <= x < 256 -> forall y, identity y = true -> f x y = x) ->
      term_ok (binary_byte_term (byte_term l i) (byte_term r i) op identity absorbing) (be_byte v i)).
    { intros f op' idy ab _ [Hl Hr]%andb_prop (a & b & Ha & Hb & Hab)%den_binop_inv Hf Hw H1 H2 H3 H4.
      rewrite <- (Hf a b) by done. apply binary_byte_term_ok; auto using be_byte_range;
        apply IH; simpl; lia || done. }
    assert (Hsh : forall a s, den l = Some a -> no_complement l = true -> forall j, 0 <= j <= 31 ->
      be_byte v i = be_byte a j -> s = j -> term_ok (byte_term l s) (be_byte v i)).
    { intros a s Ha Hn j Hj -> ->. apply IH; simpl; lia || done. }
    destruct op; simpl in Hnc; try (done); simpl byte_term.
    + apply (Hbits Z.land And); auto.
      * intros a b <-. by rewrite be_byte_and.
      * intros. cbn [binop_eval]. by apply word_bitop_byte.
      * by intros x y <-%Z.eqb_eq.
      * intros x y <-%Z.eqb_eq. apply Z.land_0_r.
      * intros y Hy x <-%Z.eqb_eq. by apply land_255.
      * intros x Hx y <-%Z.eqb_eq. rewrite Z.land_comm. by apply land_255.
    + apply (Hbits Z.lor Or); auto; try done.
      * intros a b <-. by rewrite be_byte_or.
      * intros. cbn [binop_eval]. by apply word_bitop_byte.
      * by intros y Hy x <-%Z.eqb_eq.
      * intros x Hx y <-%Z.eqb_eq. apply Z.lor_0_r.
    + apply (Hbits Z.lxor Xor); auto; try done.
      * intros a b <-. by rewrite be_byte_xor.
      * intros. cbn [binop_eval]. by apply word_bitop_byte.
      * by intros y Hy x <-%Z.eqb_eq.
      * intros x Hx y <-%Z.eqb_eq. apply Z.lxor_0_r.
    + destruct (sym_eval r) as [s|] eqn:Es; [|done]. apply sym_eval_sound in Es.
      apply den_binop_inv in Hv as (a & b & Ha & Hb & ->). simplify_eq. cbn [binop_eval] in *. clear Hbits.
      destruct (u_leb (U 256) b); [by apply term_ok_zero|].
      destruct (Z.eqb_spec (uval b mod 8) 0); simpl; [|done]. pose proof (uval_range b).
      rewrite be_byte_shl in * by (done || lia). pose proof (Z.div_pos (uval b) 8).
      destruct (Z.leb_spec 32 (i + uval b / 8)); [by apply term_ok_zero|]. apply IH; simpl; lia || done.
    + destruct (sym_eval r) as [s|] eqn:Es; [|done]. apply sym_eval_sound in Es.
      apply den_binop_inv in Hv as (a & b & Ha & Hb & ->). simplify_eq. cbn [binop_eval] in *. clear Hbits.
      destruct (u_leb (U 256) b); [by apply term_ok_zero|].
      destruct (Z.eqb_spec (uval b mod 8) 0); simpl; [|done]. pose proof (uval_range b).
      rewrite be_byte_shr in * by (done || lia). pose proof (Z.div_pos (uval b) 8).
      destruct (Z.ltb_spec i (uval b / 8)); [by apply term_ok_zero|]. apply IH; simpl; lia || done.
  - simpl in Hnc. apply andb_prop in Hnc as [Ht Hf]. intros x. simpl.
    intros (t' & Et & Hx)%obind_Ret. destruct t' as [t'|]; [|done].
    apply obind_Ret in Hx as (f' & Ef & Hx). destruct f' as [f'|]; [|done]. simplify_eq/=.
    apply den_ite_inv in Hv as (b & Hb & Hv). eapply den_ite; [done|].
    destruct b; [eapply (IH t)|eapply (IH f)]; simpl; try done; lia.
Qed.

(** Every leaf that [byte_term] reaches has a value (hashes of more bytes than
    they have do not), so that no term of a branch that is not taken is out of
    range. *)
Fixpoint leaves_defined (e : SymExpr) : bool :=
  match e with
  | EIte c t f => bool_decide (is_Some (denb c)) && leaves_defined t && leaves_defined f
  | EBinOp (And | Or | Xor) l r => leaves_defined l && leaves_defined r
  | EBinOp (Shl | Shr) l _ => leaves_defined l
  | _ => bool_decide (is_Some (den e))
  end.

(** A term that is returned is a byte, and nothing panics. *)
Definition byte_result (r : Outcome (option SymExpr)) : Prop :=
  exists t, r = Ret t /\ forall t', t = Some t' -> exists b, 0 <= b < 256 /\ den t' = Some (U b).

Lemma byte_result_None : byte_result (Ret None).
Proof. by exists None. Qed.

Lemma byte_result_Some t b : 0 <= b < 256 -> den t = Some (U b) -> byte_result (Ret (Some t)).
Proof. intros. eexists; split; [done|]. intros ? [= <-]. eauto. Qed.

Lemma const_byte_total t b : 0 <= b < 256 -> den t = Some (U b) -> exists n, opt_to_u8 (as_const t) = Ret n.
Proof.
  intros Hb Ht. destruct (as_const t) as [c|] eqn:E; [|by exists None].
  apply (as_const_den _ _ _ _ E) in Ht as <-. simpl. unfold to_u8. rewrite uval_byte by done.
  destruct (Z.ltb_spec b 256); [by eexists|lia].
Qed.

Lemma binary_byte_result l r op identity absorbing (f : Z -> Z -> Z) :
  byte_result l -> byte_result r ->
  (forall a b, 0 <= a < 256 -> 0 <= b < 256 -> 0 <= f a b < 256 /\ binop_eval op (U a) (U b) = U (f a b)) ->
  byte_result (binary_byte_term l r op identity absorbing).
Proof.
  intros (tl & -> & Hl) (tr & -> & Hr) Hop. unfold binary_byte_term. simpl.
  destruct tl as [tl|]; [|by apply byte_result_None]. destruct tr as [tr|]; [|by apply byte_result_None].
  destruct (Hl tl eq_refl) as (a & Ha & Hta), (Hr tr eq_refl) as (b & Hb & Htb). simpl.
  destruct (const_byte_total tl a Ha Hta) as [nl Enl], (const_byte_total tr b Hb Htb) as [nr Enr].
  rewrite Enl, Enr. simpl.
  pose proof (fun k => const_byte tl a nl k Ha Hta Enl) as Hnl. pose proof (fun k => const_byte tr b nr k Hb Htb Enr) as Hnr.
  destruct (Hop a b Ha Hb) as [Hf He].
  destruct (is_byte absorbing nl).
  { apply (byte_result_Some _ (default 0 nl)); [|apply den_constant].
    destruct nl as [k|]; simpl; [by rewrite (Hnl k eq_refl)|lia]. }
  destruct (is_byte absorbing nr).
  { apply (byte_result_Some _ (default 0 nr)); [|apply den_constant].
    destruct nr as [k|]; simpl; [by rewrite (Hnr k eq_refl)|lia]. }
  destruct (is_byte identity nl); [by apply (byte_result_Some _ b)|].
  destruct (is_byte identity nr); [by apply (byte_result_Some _ a)|].
  apply (byte_result_Some _ (f a b)); [done|]. rewrite <- He. by apply den_binop.
Qed.

Lemma byte_range_bitop a b :
  0 <= a < 256 -> 0 <= b < 256 ->
  0 <= Z.land a b < 256 /\ 0 <= Z.lor a b < 256 /\ 0 <= Z.lxor a b < 256.
Proof.
  intros Ha Hb. assert (Hlt : forall x, 0 <= x -> Z.shiftr x 8 = 0 -> 0 <= x < 256).
  { intros x Hx Hs. rewrite Z.shiftr_div_pow2 in Hs by lia. change (2 ^ 8) with 256 in Hs. apply Z.div_small_iff in Hs; lia. }
  assert (Hz : forall x, 0 <= x < 256 -> Z.shiftr x 8 = 0).
  { intros x Hx. rewrite Z.shiftr_div_pow2 by lia. by apply Z.div_small. }
  split; [|split]; apply Hlt.
  - apply Z.land_nonneg. lia.
  - by rewrite Z.shiftr_land, !Hz.
  - apply Z.lor_nonneg. lia.
  - by rewrite Z.shiftr_lor, !Hz.
  - apply Z.lxor_nonneg. lia.
  - by rewrite Z.shiftr_lxor, !Hz.
Qed.

Lemma byte_term_total e i :
  no_complement e = true -> leaves_defined e = true -> 0 <= i <= 31 -> byte_result (byte_term e i).
Proof.
  revert i. induction e as [e IH] using (induction_ltof1 _ esize). unfold ltof in IH. intros i Hnc Hd Hi.
  assert (Hz : byte_result (Ret (Some zero))) by (apply (byte_result_Some _ 0); [lia|apply den_zero]).
  assert (Hext : bool_decide (is_Some (den e)) = true -> byte_result (Ret (Some (extracted_byte e i)))).
  { intros [v Hv]%bool_decide_eq_true. eapply byte_result_Some; [|by apply extracted_byte_sound]. apply be_byte_range. }
  destruct e as [c| | | | |x|op l r| |c t f]; try (by apply Hext); try (by apply byte_result_None); try done.
  - eapply byte_result_Some; [|apply den_constant]. apply be_byte_range.
  - assert (Hbit : forall op identity absorbing f, no_complement l && no_complement r = true ->
      leaves_defined l && leaves_defined r = true ->
      (forall a b, 0 <= a < 256 -> 0 <= b < 256 -> 0 <= f a b < 256 /\ binop_eval op (U a) (U b) = U (f a b)) ->
      byte_result (binary_byte_term (byte_term l i) (byte_term r i) op identity absorbing)).
    { intros op' idy ab f [Hnl Hnr]%andb_prop [Hdl Hdr]%andb_prop Hf.
      apply binary_byte_result with f; [apply IH; simpl; lia || done..|done]. }
    destruct op; simpl in Hnc, Hd; try (by apply byte_result_None); simpl byte_term.
    + apply (Hbit _ _ _ Z.land); auto. intros. split; [by apply byte_range_bitop|by apply word_bitop_byte].
    + apply (Hbit _ _ _ Z.lor); auto. intros. split; [by apply byte_range_bitop|by apply word_bitop_byte].
    + apply (Hbit _ _ _ Z.lxor); auto. intros. split; [by apply byte_range_bitop|by apply word_bitop_byte].
    + destruct (sym_eval r) as [s|]; [|by apply byte_result_None].
      repeat (case_match; try (done || by apply byte_result_None)). pose proof (uval_range s).
      pose proof (Z.div_pos (uval s) 8). apply IH; simpl; try done; lia.
    + destruct (sym_eval r) as [s|]; [|by apply byte_result_None].
      repeat (case_match; try (done || by apply byte_result_None)). pose proof (uval_range s).
      pose proof (Z.div_pos (uval s) 8). apply IH; simpl; try done; lia.
  - simpl in Hnc, Hd. apply andb_prop in Hnc as [Hnt Hnf]. apply andb_prop in Hd as [[Hc Hdt]%andb_prop Hdf].
    apply bool_decide_eq_true in Hc as [b Hb]. simpl.
    destruct (IH t ltac:(simpl; lia) i) as (t' & -> & Ht); try done. simpl.
    destruct t' as [t'|]; [|by apply byte_result_None].
    destruct (IH f ltac:(simpl; lia) i) as (f' & -> & Hf); try done. simpl.
    destruct f' as [f'|]; [|by apply byte_result_None]. simpl.
    destruct (Ht t' eq_refl) as (x & Hx & Htx), (Hf f' eq_refl) as (y & Hy & Hty).
    destruct b; (eapply byte_result_Some; [|eapply den_ite; [done|]; simpl; done]; done).
Qed.

(** *** Words from bytes *)
Abbreviation den_list := (Forall2 (fun e v => den e = Some v)).

Lemma concrete_bytes_sound bytes vs ns :
  concrete_expr_bytes bytes = Ret (Some ns) -> den_list bytes vs -> ns = map low_byte_of vs.
Proof.
  intros Hc Hd. revert ns Hc. induction Hd as [|e v bytes vs He _ IH]; intros ns Hc; simpl in Hc; [by simplify_eq|].
  destruct (as_const e) as [c|] eqn:E; [|done].
  apply obind_Ret in Hc as (n & [<- Hn]%to_u8_Ret & Hc). apply obind_Ret in Hc as (ns' & Hns & Hc).
  destruct ns' as [ns'|]; [|done]. simplify_eq/=. rewrite (as_const_den _ _ _ _ E He).
  rewrite low_byte_of_small by done. f_equal. by apply IH.
Qed.

Lemma extracted_byte_source_byte e i s v :
  0 <= i <= 31 -> extracted_byte_source e i = Some s -> den e = Some v ->
  exists sv, den s = Some sv /\ low_byte_of v = be_byte sv i.
Proof.
  intros Hi He Hv. destruct (extracted_byte_source_sound model _ _ _ _ Hi He Hv) as (sv & Hs & _ & Hb).
  exists sv. split; [done|]. unfold low_byte_of. rewrite <- be_byte_31.
  apply byte_eq; [apply be_byte_range..|]. intros j Hj. rewrite !be_byte_bits by lia.
  rewrite <- Hb by done. f_equal; lia.
Qed.

Lemma check_bytes_sound source idx bytes vs sv e :
  check_bytes source idx bytes = Ret (Some e) -> den_list bytes vs -> (idx + length bytes <= 32)%nat ->
  den source = Some sv ->
  e = source /\ map low_byte_of vs = map (fun i => be_byte sv (Z.of_nat i)) (seq idx (length vs)).
Proof.
  intros Hc Hd Hle Hs. revert idx Hc Hle. induction Hd as [|b v bytes vs Hb _ IH]; intros idx Hc Hle; simpl in *; [by simplify_eq|].
  assert (Hgo : check_bytes source (S idx) bytes = Ret (Some e) -> low_byte_of v = be_byte sv (Z.of_nat idx) ->
    e = source /\ low_byte_of v :: map low_byte_of vs =
      be_byte sv (Z.of_nat idx) :: map (fun i => be_byte sv (Z.of_nat i)) (seq (S idx) (length vs))).
  { intros Hc' Hv. destruct (IH (S idx) Hc') as [-> Hm]; [lia|]. split; [done|]. by rewrite Hv, Hm. }
  destruct (extracted_byte_source b (Z.of_nat idx)) as [s|] eqn:Es.
  - destruct (expr_eqb_spec s source) as [->|]; [|done]. apply Hgo; [done|].
    destruct (extracted_byte_source_byte b (Z.of_nat idx) source v) as (sv' & ? & ->); [lia|done|done|congruence].
  - destruct (as_const b) as [c|] eqn:Ec; [|done].
    apply obind_Ret in Hc as (n & [<- Hn]%to_u8_Ret & Hc).
    destruct (known_byte source (Z.of_nat idx)) as [k|] eqn:Ek; [|done].
    destruct (Z.eqb_spec k (uval c)) as [->|]; [|done]. apply Hgo; [done|].
    rewrite (as_const_den _ _ _ _ Ec Hb), low_byte_of_small by done.
    eapply known_byte_sound; [|exact Ek|done]. lia.
Qed.

Lemma find_byte_source_den idx bytes vs s :
  find_byte_source idx bytes = Some s -> den_list bytes vs -> (idx + length bytes <= 32)%nat ->
  exists sv, den s = Some sv.
Proof.
  intros Hf Hd. revert idx Hf. induction Hd as [|b v bytes vs Hb _ IH]; intros idx Hf Hle; simpl in *; [done|].
  destruct (extracted_byte_source b (Z.of_nat idx)) as [s'|] eqn:Es; [|eapply IH; [done|lia]]. simplify_eq.
  destruct (extracted_byte_source_byte b (Z.of_nat idx) s v) as (sv & ? & _); [lia|done|done|eauto].
Qed.

(** The byte at [i] of a word assembled from [vs]. *)
Definition nth_byte (vs : list U256) (i : nat) : Z := default 0 (low_byte_of <$> vs !! i).

Lemma be_byte_small b j :
  0 <= b < 256 -> 0 <= j <= 31 -> be_byte (U b) j = if j =? 31 then b else 0.
Proof.
  intros Hb Hj. unfold be_byte. rewrite uval_byte by done. destruct (Z.eqb_spec j 31) as [->|].
  - rewrite Z.div_1_r. by apply Z.mod_small.
  - rewrite Z.div_small; [done|]. split; [lia|]. eapply Z.lt_le_trans; [apply (proj2 Hb)|].
    change 256 with (2 ^ 8). apply Z.pow_le_mono_r; lia.
Qed.

Lemma shifted_byte b idx i :
  0 <= b < 256 -> 0 <= idx <= 31 -> 0 <= i <= 31 ->
  be_byte (binop_eval Shl (U b) (U ((31 - idx) * 8))) i = if i =? idx then b else 0.
Proof.
  intros Hb Hx Hi. assert (Hs : uval (U ((31 - idx) * 8)) = (31 - idx) * 8).
  { apply uval_U_small. change word_modulus with (2 ^ 256). lia. }
  cbn [binop_eval]. unfold u_leb. rewrite Hs. change (uval (U 256)) with 256.
  destruct (Z.leb_spec 256 ((31 - idx) * 8)); [lia|].
  rewrite <- Hs, be_byte_shl, Hs, Z.div_mul; [|lia|done|lia|by rewrite Hs, Z.mod_mul].
  destruct (Z.leb_spec 32 (i + (31 - idx))), (Z.eqb_spec i idx); try lia; rewrite be_byte_small by lia;
    destruct (Z.eqb_spec (i + (31 - idx)) 31); lia.
Qed.

Lemma or_bytes_sound acc idx bytes vs e w :
  or_bytes acc idx bytes = Ret e -> den_list bytes vs -> (idx + length bytes <= 32)%nat ->
  den acc = Some w -> (forall i, (idx <= i < 32)%nat -> be_byte w (Z.of_nat i) = 0) ->
  exists w', den e = Some w' /\
    forall i, (i < 32)%nat ->
      be_byte w' (Z.of_nat i) = if (i <? idx)%nat then be_byte w (Z.of_nat i) else nth_byte vs (i - idx).
Proof.
  intros Hor Hd. revert acc idx w Hor. induction Hd as [|b v bytes vs Hb _ IH]; intros acc idx w Hor Hle Hw Hz; simpl in *.
  { simplify_eq. exists w. split; [done|]. intros i Hi. destruct (Nat.ltb_spec i idx); [done|].
    rewrite Hz by lia. unfold nth_byte. by rewrite lookup_nil. }
  apply obind_Ret in Hor as (t & Ht & Hor). apply (low_byte_sound _ _ _ Ht) in Hb.
  pose proof (low_byte_of_range v) as Hr.
  set (sh := binop_eval Shl (U (low_byte_of v)) (U ((31 - Z.of_nat idx) * 8))).
  assert (Hsh : den (if (31 - Z.of_nat idx) * 8 =? 0 then t
                     else binop Shl t (constant (U ((31 - Z.of_nat idx) * 8)))) = Some sh).
  { unfold sh. destruct (Z.eqb_spec ((31 - Z.of_nat idx) * 8) 0) as [->|].
    - rewrite Hb. change (U 0) with ZERO. by rewrite shl_zero_r.
    - apply (den_binop model Shl); [done|apply den_constant]. }
  destruct (IH _ (S idx) (binop_eval Or w sh) Hor ltac:(lia)) as (w' & Hw' & Hbytes).
  { by apply (den_binop model Or). }
  { intros i Hi. cbn [binop_eval]. rewrite be_byte_or by lia. rewrite Hz by lia. unfold sh.
    rewrite shifted_byte by lia. destruct (Z.eqb_spec (Z.of_nat i) (Z.of_nat idx)); [lia|done]. }
  exists w'. split; [done|]. intros i Hi. rewrite Hbytes by done. cbn [binop_eval].
  destruct (Nat.ltb_spec i (S idx)).
  - rewrite be_byte_or by lia. unfold sh. rewrite shifted_byte by lia.
    destruct (Nat.ltb_spec i idx); destruct (Z.eqb_spec (Z.of_nat i) (Z.of_nat idx)); try lia; [by rewrite Z.lor_0_r|].
    rewrite Hz by lia. replace (i - idx)%nat with O by lia. done.
  - destruct (Nat.ltb_spec i idx); [lia|]. unfold nth_byte.
    replace (i - idx)%nat with (S (i - S idx)) by lia. done.
Qed.

Lemma be_value_bound ns idx :
  Forall (fun n => 0 <= n < 256) ns -> (idx + length ns <= 32)%nat ->
  0 <= be_value idx ns < 2 ^ (8 * (32 - Z.of_nat idx)).
Proof.
  intros Hns. revert idx. induction Hns as [|n ns Hn _ IH]; intros idx Hle; simpl in *.
  { split; [lia|]. apply Z.pow_pos_nonneg; lia. }
  specialize (IH (S idx) ltac:(lia)).
  replace (8 * (32 - Z.of_nat (S idx))) with (8 * (31 - Z.of_nat idx)) in IH by lia.
  replace (8 * (32 - Z.of_nat idx)) with (8 * (31 - Z.of_nat idx) + 8) by lia.
  rewrite Z.pow_add_r by lia. change (2 ^ 8) with 256. nia.
Qed.

Lemma be_value_digit ns idx i :
  Forall (fun n => 0 <= n < 256) ns -> (idx + length ns <= 32)%nat -> (idx <= i < 32)%nat ->
  (be_value idx ns / 2 ^ (8 * (31 - Z.of_nat i))) mod 256 = default 0 (ns !! (i - idx)%nat).
Proof.
  intros Hns. revert idx. induction Hns as [|n ns Hn Hns IH]; intros idx Hle Hi; simpl be_value in *.
  { by rewrite Z.div_0_l by lia. }
  simpl in Hle. pose proof (be_value_bound ns (S idx) Hns ltac:(lia)) as Hb.
  replace (8 * (32 - Z.of_nat (S idx))) with (8 * (31 - Z.of_nat idx)) in Hb by lia.
  destruct (Nat.eq_dec i idx) as [->|].
  - rewrite Nat.sub_diag. simpl. rewrite Z.div_add_l, Z.div_small, Z.add_0_r by lia. by apply Z.mod_small.
  - replace (i - idx)%nat with (S (i - S idx)) by lia. simpl. rewrite <- IH by lia.
    replace (8 * (31 - Z.of_nat idx)) with (8 * (Z.of_nat i - Z.of_nat idx - 1) + 8 + 8 * (31 - Z.of_nat i)) by lia.
    rewrite !Z.pow_add_r by lia. rewrite Z.mul_assoc, Z.div_add_l by lia.
    rewrite Z.mul_assoc, Z.add_comm. apply Z_mod_plus_full.
Qed.

(** The word that [from_bytes] builds has the low bytes of its arguments, and
    zero where there are fewer than 32 of them. *)
Lemma from_bytes_sound bytes vs e :
  from_bytes bytes = Ret e -> den_list bytes vs ->
  exists w, den e = Some w /\ forall i, (i < 32)%nat -> be_byte w (Z.of_nat i) = nth_byte vs i.
Proof.
  unfold from_bytes. intros (concrete & Hc & He)%obind_Ret Hd. destruct concrete as [ns|].
  { simplify_eq. rewrite (concrete_bytes_sound _ _ _ Hc Hd). eexists; split; [apply den_constant|].
    intros i Hi. assert (Hf : Forall (fun n => 0 <= n < 256) (take 32 (map low_byte_of vs))).
    { apply Forall_take, Forall_map, Forall_true. apply low_byte_of_range. }
    pose proof (length_take_le (map low_byte_of vs) 32) as Hl.
    assert (length (take 32 (map low_byte_of vs)) <= 32)%nat by (rewrite length_take; lia).
    pose proof (be_value_bound _ 0 Hf ltac:(lia)) as Hb. unfold be_byte.
    rewrite uval_U_small by (change word_modulus with (2 ^ (8 * (32 - Z.of_nat 0))); lia).
    rewrite (be_value_digit _ 0 i) by (done || lia). unfold nth_byte.
    rewrite Nat.sub_0_r, lookup_take_lt by lia. by rewrite list_lookup_fmap. }
  apply obind_Ret in He as (source & Hs & He).
  assert (Htd : den_list (take 32 bytes) (take 32 vs)) by (by apply Forall2_take).
  assert (Hlen : (length (take 32 bytes) <= 32)%nat) by (rewrite length_take; lia).
  assert (Hnth : forall i, (i < 32)%nat -> nth_byte (take 32 vs) i = nth_byte vs i).
  { intros i Hi. unfold nth_byte. by rewrite lookup_take_lt. }
  destruct source as [src|]; simplify_eq.
  - unfold word_from_extracted_bytes in Hs. destruct (Nat.ltb_spec (length bytes) 32); [done|].
    destruct (find_byte_source 0 (take 32 bytes)) as [s|] eqn:Ef; [|done].
    destruct (find_byte_source_den _ _ _ _ Ef Htd ltac:(lia)) as [sv Hsv].
    destruct (check_bytes_sound _ _ _ _ _ _ Hs Htd ltac:(lia) Hsv) as [-> Hm]. exists sv. split; [done|].
    intros i Hi. rewrite <- Hnth by done. unfold nth_byte.
    rewrite <- list_lookup_fmap. change (low_byte_of <$> take 32 vs) with (map low_byte_of (take 32 vs)). rewrite Hm.
    pose proof (Forall2_length _ _ _ Hd). rewrite length_take.
    rewrite list_lookup_fmap, lookup_seq_lt by lia. done.
  - destruct (or_bytes_sound _ _ _ _ _ _ He Htd ltac:(lia) (den_zero model)) as (w & Hw & Hb).
    { intros i Hi. unfold be_byte. rewrite uval_ZERO. by rewrite Z.div_0_l by lia. }
    exists w. split; [done|]. intros i Hi. rewrite Hb, Nat.sub_0_r by done. simpl. auto.
Qed.

(** The assembly does not panic when the constants among the bytes are bytes. *)
Definition byte_constants (bytes : list SymExpr) : bool :=
  forallb (fun b => match as_const b with Some c => uval c <? 256 | None => true end) bytes.

Lemma concrete_bytes_total bytes : byte_constants bytes = true -> exists r, concrete_expr_bytes bytes = Ret r.
Proof.
  unfold byte_constants. induction bytes as [|b bytes IH]; simpl; [by eexists|]. intros [Hb Hr]%andb_prop.
  destruct (as_const b) as [c|]; [|by eexists]. unfold to_u8. rewrite Hb. simpl.
  destruct (IH Hr) as [r ->]. by eexists.
Qed.

Lemma check_bytes_total source idx bytes : byte_constants bytes = true -> exists r, check_bytes source idx bytes = Ret r.
Proof.
  unfold byte_constants. revert idx. induction bytes as [|b bytes IH]; intros idx; simpl; [by eexists|].
  intros [Hb Hr]%andb_prop. destruct (extracted_byte_source b _); [destruct (expr_eqb _ _); [auto|by eexists]|].
  destruct (as_const b) as [c|]; [|by eexists]. unfold to_u8. rewrite Hb. simpl. case_match; [by apply IH|by eexists].
Qed.

Lemma or_bytes_total acc idx bytes : byte_constants bytes = true -> exists e, or_bytes acc idx bytes = Ret e.
Proof.
  unfold byte_constants. revert acc idx. induction bytes as [|b bytes IH]; intros acc idx; simpl; [by eexists|].
  intros [Hb Hr]%andb_prop. unfold low_byte at 1. destruct (as_const b) as [c|]; [|simpl; auto].
  unfold to_u8. rewrite Hb. simpl. auto.
Qed.

Lemma byte_constants_take n bytes : byte_constants bytes = true -> byte_constants (take n bytes) = true.
Proof.
  unfold byte_constants. revert n. induction bytes as [|b bytes IH]; intros [|n]; simpl; try done.
  intros [-> Hr]%andb_prop. simpl. auto.
Qed.

Lemma from_bytes_total bytes : byte_constants bytes = true -> exists e, from_bytes bytes = Ret e.
Proof.
  intros Hb. unfold from_bytes. destruct (concrete_bytes_total _ Hb) as [r ->]. simpl. destruct r; [by eexists|].
  assert (Hw : exists r, word_from_extracted_bytes bytes = Ret r).
  { unfold word_from_extracted_bytes. destruct (_ <? _)%nat; [by eexists|].
    destruct (find_byte_source _ _); [|by eexists]. by apply check_bytes_total, byte_constants_take. }
  destruct Hw as [r ->]. simpl. destruct r; [by eexists|]. by apply or_bytes_total, byte_constants_take.
Qed.

(** *** Address matching *)
Definition low_bytes_match (v address : U256) : bool :=
  forallb (fun i => be_byte v i =? be_byte address i) address_indices.

Lemma collect_byte_terms_inv e idxs ts :
  collect_byte_terms e idxs = Ret (Some ts) ->
  Forall2 (fun i t => byte_term e i = Ret (Some t)) idxs ts.
Proof.
  revert ts; induction idxs as [|i idxs IH]; intros ts; simpl; [intros; by simplify_eq|].
  intros (t & Ht & Hk)%obind_Ret. destruct t as [t|]; [|done].
  apply obind_Ret in Hk as (ts' & Hts & Hk). destruct ts' as [ts'|]; [|done]. simplify_eq/=. auto.
Qed.

Lemma address_index_range i : i ∈ address_indices -> 0 <= i <= 31.
Proof. unfold address_indices. intros (n & -> & Hn)%list_elem_of_fmap. apply elem_of_seq in Hn. lia. Qed.

Lemma address_indices_cons : exists i l, address_indices = i :: l.
Proof. by eexists _, _. Qed.
#[local] Opaque address_indices.

Lemma const_no_hash v : no_hash_leaf (constant v) = true.
Proof. unfold constant. by repeat case_match. Qed.

Lemma cmp_const_den t k v : den t = Some v -> denb (cmp Eq t (constant k)) = Some (u_eqb v k).
Proof.
  intros Hv. apply (cmp_refines model Eq t (constant k)).
  - by rewrite const_no_hash, orb_true_r.
  - apply (den_cmp_intro model Eq); [done|apply den_constant].
Qed.

Lemma byte_words_eqb a b : 0 <= a < 256 -> 0 <= b < 256 -> u_eqb (U a) (U b) = (a =? b).
Proof. intros. unfold u_eqb. by rewrite !uval_byte. Qed.

Lemma address_terms_sound e address v idxs ts :
  Forall2 (fun i t => byte_term e i = Ret (Some t)) idxs ts ->
  (forall i, i ∈ idxs -> 0 <= i <= 31) -> no_complement e = true -> den e = Some v ->
  denote_all model (map (fun '(i, t) => cmp Eq t (constant (U (be_byte address i)))) (combine idxs ts)) =
  Some (forallb (fun i => be_byte v i =? be_byte address i) idxs).
Proof.
  intros Hf Hr Hnc Hv. induction Hf as [|i t idxs ts Ht _ IH]; [done|]. simpl.
  assert (Hi : 0 <= i <= 31) by (apply Hr; by left).
  rewrite (cmp_const_den _ _ _ (byte_term_ok _ _ _ Hnc Hi Hv _ Ht)).
  rewrite byte_words_eqb by apply be_byte_range. destruct (_ =? _); [|done].
  apply IH. intros j Hj. apply Hr. by right.
Qed.

(** Whether the condition is built byte by byte. *)
Definition matches_bytes (e : SymExpr) : bool :=
  match as_const e, collect_byte_terms e address_indices with
  | None, Ret (Some _) => true
  | _, _ => false
  end.

Lemma collect_byte_terms_total e idxs :
  no_complement e = true -> leaves_defined e = true -> (forall i, i ∈ idxs -> 0 <= i <= 31) ->
  exists ts, collect_byte_terms e idxs = Ret ts.
Proof.
  intros Hn Hd. induction idxs as [|i idxs IH]; intros Hr; simpl; [by eexists|].
  destruct (byte_term_total e i Hn Hd) as (t & -> & _); [apply Hr; by left|]. simpl.
  destruct t as [t|]; [|by eexists]. destruct IH as [ts ->]; [intros j Hj; apply Hr; by right|]. by eexists.
Qed.

Lemma address_match_sound e address v :
  no_complement e = true -> leaves_defined e = true -> den e = Some v ->
  exists c, address_match_condition e address = Ret c /\
    denb c = Some (if matches_bytes e then low_bytes_match v address else u_eqb v address).
Proof.
  intros Hnc Hd Hv. unfold address_match_condition, matches_bytes. destruct (as_const e) as [w|] eqn:Ew.
  { eexists; split; [done|]. by rewrite (as_const_den _ _ _ _ Ew Hv). }
  destruct (collect_byte_terms_total e address_indices Hnc Hd) as [ts Hts]; [apply address_index_range|].
  rewrite Hts. simpl. destruct ts as [ts|]; (eexists; split; [done|]).
  - apply den_and. apply (address_terms_sound e); auto using collect_byte_terms_inv, address_index_range.
  - by apply cmp_const_den.
Qed.

(** The byte term of a complement is the complement of a whole word, which is
    never a byte. *)
Lemma complement_byte_term x i t v :
  no_complement x = true -> 0 <= i <= 31 -> den x = Some v ->
  byte_term (ENot x) i = Ret (Some t) -> den t = Some (u_not (U (be_byte v i))).
Proof.
  intros Hnc Hi Hv. simpl. intros (t' & Ht & Hk)%obind_Ret. destruct t' as [t'|]; [|done]. simplify_eq/=.
  apply den_not. by eapply byte_term_ok.
Qed.

Lemma complement_not_byte a b : 0 <= a < 256 -> 0 <= b < 256 -> u_eqb (u_not (U a)) (U b) = false.
Proof.
  intros Ha Hb. unfold u_eqb. rewrite (uval_byte b) by done. unfold u_not. rewrite (uval_byte a) by done.
  apply Z.eqb_neq. rewrite uval_U_small; change word_modulus with (2 ^ 256); lia.
Qed.

Lemma complement_address_match x address c v :
  no_complement x = true -> den x = Some v ->
  address_match_condition (ENot x) address = Ret c ->
  (exists ts, collect_byte_terms (ENot x) address_indices = Ret (Some ts)) ->
  denb c = Some false.
Proof.
  intros Hnc Hv Hc (ts & Hts). unfold address_match_condition in Hc. simpl as_const in Hc. rewrite Hts in Hc.
  simpl obind in Hc. injection Hc as <-. apply den_and. apply collect_byte_terms_inv in Hts.
  destruct address_indices_cons as (i & l & Eis).
  assert (Hi : 0 <= i <= 31) by (apply address_index_range; rewrite Eis; left).
  rewrite Eis in Hts |- *. inversion Hts as [|? t ? ts' Ht _]; subst.
  simpl. rewrite (cmp_const_den _ _ _ (complement_byte_term _ _ _ _ Hnc Hi Hv Ht)).
  by rewrite complement_not_byte by apply be_byte_range.
Qed.

(** *** Forced constants *)
Lemma masked_matches_sound candidate target mask x :
  masked_expr_matches candidate target = Some mask -> den target = Some x ->
  den candidate = Some (u_and x mask).
Proof.
  destruct candidate as [| | | | | |[] l r| |]; try done. simpl. intros Hm Hx.
  destruct (expr_eqb_spec l target) as [->|].
  - apply sym_eval_sound in Hm. by rewrite Hx, Hm.
  - destruct (expr_eqb_spec r target) as [->|]; [|done]. apply sym_eval_sound in Hm. rewrite Hx, Hm.
    by rewrite (commutes_And mask x : u_and mask x = u_and x mask).
Qed.

Lemma opt_word_is_Some v m : opt_word_is v m = true <-> v = Some m.
Proof. destruct v as [v|]; simpl; [|done]. rewrite u_eqb_eq. naive_solver. Qed.

Lemma forces_masked_sound target mask c x :
  condition_forces_masked target mask c = true -> denb c = Some true -> den target = Some x ->
  x = u_and x mask.
Proof.
  intros H Hc Hx. revert H Hc. apply (bexpr_ind' (fun _ => True) (fun c =>
    condition_forces_masked target mask c = true -> denb c = Some true -> x = u_and x mask)); try done; clear c.
  - intros vs Hvs. rewrite denote_BAnd. simpl. induction Hvs as [|b vs Hb _ IH]; intros H Hall; [done|].
    simpl in Hall. destruct (denb b) as [[]|] eqn:Eb; try done. apply orb_prop in H as [H|H]; auto.
  - intros op l r _ _. destruct op; try done. simpl. rewrite orb_true_iff, !andb_true_iff, !opt_word_is_Some.
    intros [[->%expr_eqb_eq Hm]|[->%expr_eqb_eq Hm]]; rewrite (masked_matches_sound _ _ _ _ Hm Hx), Hx;
      intros [= He%u_eqb_eq]; congruence.
Qed.

Lemma equality_forces_sound e value target context k x :
  equality_forces_const e value target context = Some k ->
  den e = Some value -> Forall (fun c => denb c = Some true) context -> den target = Some x -> x = k.
Proof.
  unfold equality_forces_const. intros Hk He Hctx Hx.
  destruct (expr_eqb_spec e target) as [->|]; [congruence|].
  destruct (masked_expr_matches e target) as [mask|] eqn:Em; [|done].
  destruct (negb _ || _) eqn:Ec; [done|]. simplify_eq. apply orb_false_iff in Ec as [_ Hf%negb_false_iff].
  unfold context_forces_masked_expr in Hf. apply existsb_exists in Hf as (c & Hin & Hf).
  pose proof (masked_matches_sound _ _ _ _ Em Hx) as He'. rewrite He in He'.
  rewrite (forces_masked_sound target mask c x Hf); [congruence| |done].
  by apply (proj1 (List.Forall_forall _ _) Hctx).
Qed.

Lemma eval_is_den e p v : eval_is e p = true -> den e = Some v -> p v = true.
Proof.
  unfold eval_is. destruct (sym_eval e) as [c|] eqn:E; [|done]. apply sym_eval_sound in E. congruence.
Qed.

Lemma forces_sound target context x :
  Forall (fun c => denb c = Some true) context -> den target = Some x ->
  (forall e k v, nonzero_forces_const e target context = Some k -> den e = Some v -> v <> ZERO -> x = k) /\
  (forall b k, (forces_expr_const_with_context b target context = Some k -> denb b = Some true -> x = k) /\
               (forces_expr_const_with_context (BNot b) target context = Some k -> denb b = Some false -> x = k)).
Proof.
  intros Hctx Hx.
  assert (Hmul : forall op l r k v, (op = Shl \/ op = Shr) ->
    (forall k v, nonzero_forces_const l target context = Some k -> den l = Some v -> v <> ZERO -> x = k) ->
    (if eval_is r is_zero then nonzero_forces_const l target context else None) = Some k ->
    den (EBinOp op l r) = Some v -> v <> ZERO -> x = k).
  { intros op l r k v Hop IH Hk (a & b & Ha & Hb & ->)%den_binop_inv Hnz.
    destruct (eval_is r is_zero) eqn:E; [|done]. apply (eval_is_den _ _ _ E), is_zero_true in Hb as ->.
    eapply IH; [done..|]. intros ->. apply Hnz. destruct Hop as [-> | ->]; [apply shl_zero_r|apply shr_zero_r]. }
  apply (expr_bexpr_ind
    (fun e => forall k v, nonzero_forces_const e target context = Some k -> den e = Some v -> v <> ZERO -> x = k)
    (fun b => forall k, (forces_expr_const_with_context b target context = Some k -> denb b = Some true -> x = k) /\
               (forces_expr_const_with_context (BNot b) target context = Some k -> denb b = Some false -> x = k)));
    try done.
  - intros op l r Hl Hr k v Hk Hv Hnz. destruct op; try done.
    + apply den_binop_inv in Hv as (a & b & Ha & Hb & ->). simpl in Hk.
      destruct (eval_is l _) eqn:E1; [eapply Hr; [done..|]; intros ->; apply Hnz, and_zero_r|].
      destruct (eval_is r _) eqn:E2; [|done]. eapply Hl; [done..|]. intros ->. apply Hnz, and_zero_l.
    + apply den_binop_inv in Hv as (a & b & Ha & Hb & ->). simpl in Hk.
      destruct (eval_is l is_zero) eqn:E1.
      { apply (eval_is_den _ _ _ E1), is_zero_true in Ha as ->. rewrite or_zero_l in Hnz. by eapply Hr. }
      destruct (eval_is r is_zero) eqn:E2; [|done].
      apply (eval_is_den _ _ _ E2), is_zero_true in Hb as ->. rewrite or_zero_r in Hnz. by eapply Hl.
    + by apply (Hmul Shl l r k v); [left| | | |].
    + by apply (Hmul Shr l r k v); [right| | | |].
  - intros c t f Hc _ _ k v. simpl. intros Hk (cb & Hcb & Hv)%den_ite_inv Hnz.
    destruct (eval_is t _ && eval_is f is_zero) eqn:E; [|done]. apply andb_prop in E as [E1 E2].
    destruct cb; [by apply (proj1 (Hc k))|]. apply (eval_is_den _ _ _ E2), is_zero_true in Hv. done.
  - intros b Hb k. split; intros Hk Hd.
    + apply (proj2 (Hb k)); [done|]. simpl in Hd. by destruct (denb b) as [[]|].
    + apply (proj1 (Hb k)); [done|]. simpl in Hd. by destruct (denb b) as [[]|].
  - intros vs Hvs k. split; [|done]. rewrite denote_BAnd. simpl.
    induction Hvs as [|b vs Hb _ IH]; intros Hk Hall; [done|]. simpl in Hall.
    destruct (denb b) as [[]|] eqn:Eb; try done.
    destruct (forces_expr_const_with_context b target context) as [k'|] eqn:Ek; [|by apply IH].
    simplify_eq. by apply (proj1 (Hb k)).
  - intros op l r Hl Hr k. destruct op; try done. split.
    + simpl. destruct r as [rv| | | | | | | |]; try done. intros Hk.
      destruct (den l) as [lv|] eqn:El; [|done]. simpl. intros [= ->%u_eqb_eq]. by eapply equality_forces_sound.
    + simpl. destruct r as [rv| | | | | | | |]; try done. destruct (is_zero rv) eqn:Ez; [|done].
      apply is_zero_true in Ez as ->. intros Hk. destruct (den l) as [lv|] eqn:El; [|done].
      simpl. intros [= Hne]. eapply (Hl k lv); [done..|]. intros ->. by rewrite u_eqb_refl in Hne.
Qed.


End BytesSound.
