(* ===== verification/SymSeq.v ===== *)
(** * SymSeq: symbolic byte sequences

    Models [SymBytes] (runtime/bytes.rs): concrete bytes, byte expressions,
    words, concatenations, slices at a symbolic offset and prefixes of symbolic
    size.  Lengths and offsets are [usize] values kept as [Z]; the plain
    additions of the source wrap around ([usize_add]), the checked and
    saturating ones are written out.  Operations that convert a constant with
    [to::<u8>()] return an [Outcome].

    The reference semantics [seq_at] gives the byte at every index under a
    model, zero past the end; [seq_ok] is the well-formedness that the
    constructors establish.  The theorems show that every way of reading a
    sequence (byte, slice, word, fragment, concrete range, evaluation) agrees
    with [seq_at]. *)

From Stdlib Require Import ZArith Lia Bool.
From stdpp Require Import base list option sets.
From S2P Require Import Prelude SymWord SymExpr SymSimpl SymSound SymCmp SymBytes.
Local Open Scope Z_scope.
Local Open Scope outcome_scope.

(** ** Machine arithmetic and lists indexed by [usize] *)
Definition usize_add (a b : Z) : Z := (a + b) mod 2 ^ 64.
Definition checked_add (a b : Z) : option Z := if a + b <=? usize_max then Some (a + b) else None.
Definition checked_sub (a b : Z) : option Z := if b <=? a then Some (a - b) else None.
Definition zlen {A} (l : list A) : Z := Z.of_nat (length l).
(** [l.get(i)]. *)
Definition at_z {A} (l : list A) (i : Z) : option A := if i <? 0 then None else l !! Z.to_nat i.
(** [0..n] and [vec![0; n]]. *)
Definition range (n : Z) : list Z := map Z.of_nat (seq 0 (Z.to_nat n)).
Definition zeros (n : Z) : list Z := replicate (Z.to_nat n) 0.
(** [l[from..to]]; the callers keep the range inside the list. *)
Definition sub_list {A} (l : list A) (from n : Z) : list A := take (Z.to_nat n) (drop (Z.to_nat from) l).

Lemma zlen_nonneg {A} (l : list A) : 0 <= zlen l. Proof. unfold zlen. lia. Qed.

Lemma at_z_None {A} (l : list A) i : at_z l i = None <-> i < 0 \/ zlen l <= i.
Proof.
  unfold at_z, zlen. destruct (Z.ltb_spec i 0); [naive_solver|].
  rewrite lookup_ge_None. split; intros; [right|]; lia.
Qed.

Lemma at_z_Some {A} (l : list A) i : 0 <= i < zlen l -> exists a, at_z l i = Some a /\ a ∈ l.
Proof.
  intros Hi. destruct (at_z l i) as [a|] eqn:E; [|apply at_z_None in E; lia].
  exists a. split; [done|]. revert E. unfold at_z. case_match; [done|]. apply list_elem_of_lookup_2.
Qed.

Lemma at_z_elem {A} (l : list A) i a : at_z l i = Some a -> a ∈ l.
Proof. unfold at_z. case_match; [done|]. apply list_elem_of_lookup_2. Qed.

Lemma at_z_map {A B} (f : A -> B) l i : at_z (map f l) i = f <$> at_z l i.
Proof. unfold at_z. case_match; [done|]. apply list_lookup_fmap. Qed.

Lemma zlen_range n : 0 <= n -> zlen (range n) = n.
Proof. intros. unfold zlen, range. rewrite length_map, length_seq. lia. Qed.

Lemma at_z_range n i : 0 <= i < n -> at_z (range n) i = Some i.
Proof.
  intros Hi. unfold at_z, range. destruct (Z.ltb_spec i 0); [lia|].
  rewrite list_lookup_fmap, lookup_seq_lt by lia. simpl. f_equal. lia.
Qed.

Lemma elem_of_range n i : i ∈ range n <-> 0 <= i < n.
Proof.
  unfold range. rewrite list_elem_of_fmap. setoid_rewrite elem_of_seq. split.
  - intros (k & -> & ?). lia.
  - intros ?. exists (Z.to_nat i). lia.
Qed.

Lemma zlen_map {A B} (f : A -> B) l : zlen (map f l) = zlen l.
Proof. unfold zlen. by rewrite length_map. Qed.

Lemma zlen_app {A} (l k : list A) : zlen (l ++ k) = zlen l + zlen k.
Proof. unfold zlen. rewrite length_app. lia. Qed.

Lemma at_z_app {A} (l k : list A) i :
  0 <= i -> at_z (l ++ k) i = if i <? zlen l then at_z l i else at_z k (i - zlen l).
Proof.
  intros Hi. unfold at_z, zlen. destruct (Z.ltb_spec i 0); [lia|].
  destruct (Z.ltb_spec i (Z.of_nat (length l))).
  - by rewrite lookup_app_l by lia.
  - destruct (Z.ltb_spec (i - Z.of_nat (length l)) 0); [lia|]. rewrite lookup_app_r by lia. f_equal. lia.
Qed.

Lemma zlen_zeros n : 0 <= n -> zlen (zeros n) = n.
Proof. intros. unfold zlen, zeros. rewrite length_replicate. lia. Qed.

Lemma at_z_zeros n i : default 0 (at_z (zeros n) i) = 0.
Proof.
  unfold at_z, zeros. case_match; [done|]. destruct (replicate _ _ !! _) eqn:E; [|done].
  by apply lookup_replicate in E as [-> _].
Qed.

Lemma zlen_sub_list {A} (l : list A) from n :
  0 <= from -> 0 <= n -> from + n <= zlen l -> zlen (sub_list l from n) = n.
Proof. unfold zlen, sub_list. intros. rewrite length_take, length_drop. lia. Qed.

Lemma at_z_sub_list {A} (l : list A) from n i :
  0 <= from -> 0 <= i < n -> at_z (sub_list l from n) i = at_z l (from + i).
Proof.
  intros Hf Hi. unfold at_z, sub_list. destruct (Z.ltb_spec i 0); [lia|].
  destruct (Z.ltb_spec (from + i) 0); [lia|]. rewrite lookup_take_lt, lookup_drop by lia. f_equal. lia.
Qed.

Lemma sub_list_Forall {A} (P : A -> Prop) l from n : Forall P l -> Forall P (sub_list l from n).
Proof. intros. by apply Forall_take, Forall_drop. Qed.

(** Mapping an operation that may panic over a list. *)
Fixpoint omap_all {A B} (f : A -> Outcome B) (l : list A) : Outcome (list B) :=
  match l with
  | [] => Ret []
  | a :: l' => let* b := f a in let* bs := omap_all f l' in Ret (b :: bs)
  end.

(** ** Expressions that mention the remaining gas *)
Fixpoint contains_gasleft (e : SymExpr) : bool :=
  match e with
  | EGasLeft _ => true
  | EConst _ | EVar _ => false
  | EKeccak _ l bs => contains_gasleft l || existsb contains_gasleft bs
  | EHash _ _ bs => existsb contains_gasleft bs
  | ENot e => contains_gasleft e
  | EBinOp _ l r => contains_gasleft l || contains_gasleft r
  | ETernOp _ l r m => contains_gasleft l || contains_gasleft r || contains_gasleft m
  | EIte c t f => bcontains_gasleft c || contains_gasleft t || contains_gasleft f
  end
with bcontains_gasleft (b : SymBoolExpr) : bool :=
  match b with
  | BConst _ => false
  | BNot b => bcontains_gasleft b
  | BAnd bs => existsb bcontains_gasleft bs
  | BCmp _ l r => contains_gasleft l || contains_gasleft r
  end.

(** ** The sequences *)
Inductive SymBytes : Type :=
  | SConcrete (bytes : list Z)
  | SExprs (bytes : list SymExpr)
  | SWord (word : SymExpr)
  | SConcat (values : list SymBytes)
  | SSlice (bytes : SymBytes) (offset : SymExpr) (len : Z)
  | SSized (bytes : SymBytes) (size : SymExpr) (max_size : Z).

Section SeqInduction.
Variable P : SymBytes -> Prop.
Hypothesis HConcrete : forall bs, P (SConcrete bs).
Hypothesis HExprs : forall es, P (SExprs es).
Hypothesis HWord : forall w, P (SWord w).
Hypothesis HConcat : forall vs, Forall P vs -> P (SConcat vs).
Hypothesis HSlice : forall b o l, P b -> P (SSlice b o l).
Hypothesis HSized : forall b s m, P b -> P (SSized b s m).

Fixpoint seq_ind (b : SymBytes) : P b :=
  match b with
  | SConcrete bs => HConcrete bs
  | SExprs es => HExprs es
  | SWord w => HWord w
  | SConcat vs =>
      HConcat vs ((fix go vs : Forall P vs :=
        match vs with [] => Forall_nil_2 P | v :: r => Forall_cons_2 P v r (seq_ind v) (go r) end) vs)
  | SSlice b o l => HSlice b o l (seq_ind b)
  | SSized b s m => HSized b s m (seq_ind b)
  end.
End SeqInduction.

(** [SymBoolExpr::eq]. *)
Definition eq_exprs `{SignedArith, HashFns} (l r : SymExpr) : SymBoolExpr := cmp Eq l r.

Module SBytes.
Section Ops.
Context `{SA : SignedArith, HF : HashFns}.

Definition concrete (bytes : list Z) : SymBytes := SConcrete bytes.
Definition empty : SymBytes := concrete [].

Definition as_concrete_slice (b : SymBytes) : option (list Z) :=
  match b with SConcrete bytes => Some bytes | _ => None end.

Definition exprs (bytes : list SymExpr) : Outcome SymBytes :=
  let* c := concrete_expr_bytes bytes in
  match c with
  | Some values => Ret (concrete values)
  | None => Ret (SExprs bytes)
  end.

(** [word.to_be_bytes::<32>()]. *)
Definition to_be_bytes (v : U256) : list Z := map (be_byte v) (range 32).

Definition word (w : SymExpr) : SymBytes :=
  match as_const w with
  | Some v => concrete (to_be_bytes v)
  | None => SWord w
  end.

Definition flatten_part (b : SymBytes) : list SymBytes :=
  match b with
  | SConcrete [] => []
  | SConcat values => values
  | _ => [b]
  end.

Definition concat (parts : list SymBytes) : SymBytes :=
  match flat_map flatten_part parts with
  | [] => empty
  | [b] => b
  | out => SConcat out
  end.

Fixpoint len (b : SymBytes) : Z :=
  match b with
  | SConcrete bytes => zlen bytes
  | SExprs bytes => zlen bytes
  | SWord _ => 32
  | SConcat values => fold_left (fun n b => sat_add n (len b)) values 0
  | SSlice _ _ l => l
  | SSized _ _ m => m
  end.

Definition is_empty (b : SymBytes) : bool := len b =? 0.

(** [offset.eval().and_then(|offset| usize::try_from(offset).ok())]. *)
Definition eval_usize (e : SymExpr) : option Z := v ← sym_eval e; to_usize v.

(** The loop of [byte_dynamic_with_delta]: [byte] reads one of [total] bytes. *)
Definition select_dynamic (byte : Z -> SymExpr) (total : Z) (offset : SymExpr) (delta : Z) : SymExpr :=
  fold_right (fun candidate result =>
      ite (eq_exprs offset (constant (U (candidate - delta)))) (byte candidate) result)
    zero (map (Z.add delta) (range (total - delta))).

(** The loop of [byte] over the parts of a concatenation. *)
Section ByteWalk.
Variable byte : SymBytes -> Z -> SymExpr.
Fixpoint byte_parts (values : list SymBytes) (offset : Z) : SymExpr :=
  match values with
  | [] => zero
  | b :: rest => if offset <? len b then byte b offset
                 else byte_parts rest (sat_sub offset (len b))
  end.
End ByteWalk.

Fixpoint byte (b : SymBytes) (offset : Z) : SymExpr :=
  match b with
  | SConcrete bytes => match at_z bytes offset with Some n => constant (U n) | None => zero end
  | SExprs bytes => default zero (at_z bytes offset)
  | SWord w =>
      if 32 <=? offset then zero
      else match known_byte w offset with
           | Some n => constant (U n)
           | None => extracted_byte w offset
           end
  | SConcat values => byte_parts byte values offset
  | SSlice bytes base_offset l =>
      if l <=? offset then zero
      else match sym_eval base_offset with
           | Some base =>
               match to_usize base with
               | None => zero
               | Some base => match checked_add base offset with
                              | None => zero
                              | Some offset => byte bytes offset
                              end
               end
           | None => select_dynamic (byte bytes) (len bytes) base_offset offset
           end
  | SSized bytes size max_size =>
      if max_size <=? offset then zero
      else ite (cmp Ult (constant (U offset)) size) (byte bytes offset) zero
  end.

Definition byte_dynamic_with_delta (b : SymBytes) (offset : SymExpr) (delta : Z) : SymExpr :=
  select_dynamic (byte b) (len b) offset delta.

Definition slice_node (b : SymBytes) (offset : SymExpr) (l : Z) : SymBytes := SSlice b offset l.

(** The loop over the parts of a concatenation that [slice_concrete] and
    [append_concrete_range] share: the part of each value that lies in the
    range, and the length that is left over at the end. *)
Section PartWalk.
Context {A : Type}.
Variable piece : SymBytes -> Z -> Z -> Outcome A.
Fixpoint walk_parts (values : list SymBytes) (offset l : Z) : Outcome (list A * Z) :=
  match values with
  | [] => Ret ([], l)
  | b :: rest =>
      if l =? 0 then Ret ([], l)
      else if len b <=? offset then walk_parts rest (offset - len b) l
      else let take := Z.min (len b - offset) l in
           let* p := piece b offset take in
           let* r := walk_parts rest 0 (l - take) in
           Ret (p :: fst r, snd r)
  end.
End PartWalk.

Fixpoint slice_concrete (b : SymBytes) (offset l : Z) : Outcome SymBytes :=
  if l =? 0 then Ret empty
  else if (offset =? 0) && (l =? len b) then Ret b
  else
  match b with
  | SConcrete bytes =>
      Ret (concrete
        (if match checked_add offset l with Some end_ => end_ <=? zlen bytes | None => false end
         then sub_list bytes offset l
         else map (fun idx => default 0 (at_z bytes (usize_add offset idx))) (range l)))
  | SExprs bytes =>
      exprs (map (fun idx => default zero (at_z bytes (usize_add offset idx))) (range l))
  | SWord w =>
      if (offset =? 0) && (l =? 32) then Ret (word w)
      else Ret (slice_node b (constant (U offset)) l)
  | SSized _ _ _ => Ret (slice_node b (constant (U offset)) l)
  | SSlice bytes base_offset _ =>
      match base ← eval_usize base_offset; checked_add base offset with
      | Some offset => slice_concrete bytes offset l
      | None => Ret (slice_node b (constant (U offset)) l)
      end
  | SConcat values =>
      let* r := walk_parts (fun p o take =>
          if (o =? 0) && (take =? len p) then Ret p else slice_concrete p o take) values offset l in
      Ret (concat (fst r ++ if snd r =? 0 then [] else [concrete (zeros (snd r))]))
  end.

Definition slice (b : SymBytes) (offset : SymExpr) (l : Z) : Outcome SymBytes :=
  if l =? 0 then Ret empty
  else match sym_eval offset with
       | Some offset => match to_usize offset with
                        | None => Ret (concrete (zeros l))
                        | Some offset => slice_concrete b offset l
                        end
       | None => Ret (slice_node b offset l)
       end.

Definition read_offset (b : SymBytes) (offset : SymExpr) (l : Z) : Outcome SymBytes := slice b offset l.

(** [usize::try_from(size).map_or(max_size, |size| size.min(max_size))]. *)
Definition clamp_size (size : U256) (max_size : Z) : Z :=
  match to_usize size with Some n => Z.min n max_size | None => max_size end.

Definition sized (b : SymBytes) (size : SymExpr) (max_size : Z) : Outcome SymBytes :=
  if max_size =? 0 then Ret empty
  else match sym_eval size with
       | Some size =>
           let size := clamp_size size max_size in
           let* bytes := slice_concrete b 0 size in
           Ret (concat [bytes; concrete (zeros (max_size - size))])
       | None => Ret (SSized b size max_size)
       end.

(** A word that has [bytes] from index [out_offset] on and zeros elsewhere. *)
Definition placed_word (bytes : list Z) (out_offset : Z) : SymExpr :=
  constant (U (be_value (Z.to_nat out_offset) bytes)).

Definition word_expr_fragment (w : SymExpr) (offset l out_offset : Z) : option SymExpr :=
  left ← checked_sub 32 offset;
  let l := Z.min left l in
  if l =? 0 then Some zero
  else if (offset =? 0) && (l =? 32) && (out_offset =? 0) then Some w
  else
    let src_trailing_bits := (32 - (offset + l)) * 8 in
    let dst_trailing_bits := (32 - (out_offset + l)) * 8 in
    let mask := mask_bits MAX (l * 8) in
    let expr := binop Shr w (constant (U src_trailing_bits)) in
    let expr := binop And expr (constant mask) in
    Some (binop Shl expr (constant (U dst_trailing_bits))).

(** The loop of [word_fragment_at] over the parts of a concatenation. *)
Section FragmentWalk.
Variable fragment : SymBytes -> Z -> Z -> Z -> option SymExpr.
Fixpoint fragment_parts (values : list SymBytes) (offset remaining out_offset : Z) (out : SymExpr)
    : option SymExpr :=
  match values with
  | [] => Some out
  | b :: rest =>
      if remaining =? 0 then Some out
      else if len b <=? offset then fragment_parts rest (offset - len b) remaining out_offset out
      else let take := Z.min (len b - offset) remaining in
           f ← fragment b offset take out_offset;
           fragment_parts rest 0 (remaining - take) (out_offset + take) (binop Or out f)
  end.
End FragmentWalk.

Fixpoint word_fragment_at (b : SymBytes) (offset l out_offset : Z) : option SymExpr :=
  if l =? 0 then Some zero
  else
  match b with
  | SConcrete bytes =>
      let take := Z.min (zlen bytes - offset) l in
      Some (placed_word (if offset <? zlen bytes then sub_list bytes offset take else []) out_offset)
  | SWord w => word_expr_fragment w offset l out_offset
  | SSlice bytes base_offset slice_len =>
      let available := Z.min (sat_sub slice_len offset) l in
      if available =? 0 then Some zero
      else base ← eval_usize base_offset;
           start ← checked_add base offset;
           word_fragment_at bytes start available out_offset
  | SConcat values => fragment_parts word_fragment_at values offset l out_offset zero
  | SExprs _ | SSized _ _ _ => None
  end.

(** The 32 bytes from [offset] on, as a word. *)
Definition word_of_bytes (b : SymBytes) (offset : Z) : Outcome SymExpr :=
  from_bytes (map (fun idx => byte b (usize_add offset idx)) (range 32)).

Fixpoint word_at (b : SymBytes) (offset : Z) : Outcome SymExpr :=
  match word_fragment_at b offset 32 0 with
  | Some w => Ret w
  | None =>
      match b with
      | SConcrete bytes =>
          Ret (placed_word (if offset <? zlen bytes
                            then sub_list bytes offset (Z.min (zlen bytes - offset) 32) else []) 0)
      | SExprs bytes =>
          from_bytes (map (fun idx => default zero (at_z bytes (usize_add offset idx))) (range 32))
      | SWord w => if offset =? 0 then Ret w
                   else if 32 <=? offset then Ret zero
                   else word_of_bytes b offset
      | SSlice bytes base_offset l =>
          match (if match checked_add offset 32 with Some end_ => end_ <=? l | None => false end
                 then base ← eval_usize base_offset; checked_add base offset
                 else None) with
          | Some start => word_at bytes start
          | None => word_of_bytes b offset
          end
      | SConcat _ | SSized _ _ _ => word_of_bytes b offset
      end
  end.

Definition right_aligned_word (b : SymBytes) (offset l : Z) : Outcome SymExpr :=
  let l := Z.min l 32 in
  match word_fragment_at b offset l (32 - l) with
  | Some w => Ret w
  | None => from_bytes (map (fun _ => zero) (range (32 - l)) ++
                        map (fun idx => byte b (usize_add offset idx)) (range l))
  end.

Definition materialize (b : SymBytes) : list SymExpr := map (byte b) (range (len b)).

Definition same_bytes (b other : SymBytes) : bool :=
  (len b =? len other) && forallb (fun idx => expr_eqb (byte b idx) (byte other idx)) (range (len b)).

(** [into_bytes] and [into_byte_exprs] of a word (expr.rs). *)
Definition into_bytes (w : SymExpr) : SymBytes := word w.
Definition into_byte_exprs (w : SymExpr) : list SymExpr := materialize (word w).

(** *** Dependence on the remaining gas *)
Fixpoint shape_depends_on_gasleft (b : SymBytes) : bool :=
  match b with
  | SConcrete _ | SExprs _ | SWord _ => false
  | SConcat parts => existsb shape_depends_on_gasleft parts
  | SSlice bytes offset _ => contains_gasleft offset || shape_depends_on_gasleft bytes
  | SSized bytes size _ => contains_gasleft size || shape_depends_on_gasleft bytes
  end.

Fixpoint backing_contains_gasleft (b : SymBytes) : bool :=
  match b with
  | SConcrete _ => false
  | SExprs bytes => existsb contains_gasleft bytes
  | SWord w => contains_gasleft w
  | SConcat parts => existsb backing_contains_gasleft parts
  | SSlice bytes _ _ | SSized bytes _ _ => backing_contains_gasleft bytes
  end.

Definition bytes_contain_gasleft (b : SymBytes) : bool :=
  if shape_depends_on_gasleft b then true
  else if negb (backing_contains_gasleft b) then false
  else existsb (fun offset => contains_gasleft (byte b offset)) (range (len b)).

(** *** Conditions and concrete values *)
(** The loop of [prefix_condition] over the indices of the prefix. *)
Fixpoint prefix_conditions (b prefix : SymBytes) (idxs : list Z) : Outcome (option (list SymBoolExpr)) :=
  match idxs with
  | [] => Ret (Some [])
  | idx :: rest =>
      let actual := byte b idx in
      let expected := byte prefix idx in
      if expr_eqb actual expected then prefix_conditions b prefix rest
      else match as_const actual, as_const expected with
           | Some actual, Some expected =>
               let* x := to_u8 actual in
               let* y := to_u8 expected in
               if x =? y then prefix_conditions b prefix rest else Ret None
           | _, _ =>
               let* cs := prefix_conditions b prefix rest in
               Ret (option_map (cons (eq_exprs actual expected)) cs)
           end
  end.

Definition prefix_condition (b prefix : SymBytes) : Outcome (option SymBoolExpr) :=
  if len b <? len prefix then Ret None
  else let* cs := prefix_conditions b prefix (range (len prefix)) in Ret (option_map SBool.and cs).

(** The value of every byte, up to the first that has none. *)
Fixpoint eval_bytes (model : SymbolicModel) (b : SymBytes) (idxs : list Z) : Outcome (list Z + SymbolicError) :=
  match idxs with
  | [] => Ret (inl [])
  | idx :: rest =>
      match eval_model_word model (byte b idx) with
      | inr e => Ret (inr e)
      | inl v => let* n := to_u8 v in
                 let* ns := eval_bytes model b rest in
                 Ret (match ns with inl ns => inl (n :: ns) | inr e => inr e end)
      end
  end.

Definition eval_model (model : SymbolicModel) (b : SymBytes) : Outcome (list Z + SymbolicError) :=
  match b with
  | SConcrete bytes => Ret (inl bytes)
  | _ => eval_bytes model b (range (len b))
  end.

(** The loop of [append_concrete_range] over byte expressions. [None] stands
    for the error [Unsupported(reason)]. *)
Fixpoint append_exprs (bytes : list SymExpr) (offset : Z) (idxs : list Z) : Outcome (option (list Z)) :=
  match idxs with
  | [] => Ret (Some [])
  | idx :: rest =>
      match i ← checked_add offset idx; at_z bytes i with
      | None => let* ns := append_exprs bytes offset rest in Ret (option_map (cons 0) ns)
      | Some e =>
          match as_const e with
          | None => Ret None
          | Some v => let* n := to_u8 v in
                      let* ns := append_exprs bytes offset rest in Ret (option_map (cons n) ns)
          end
      end
  end.

(** Its loop over the parts of a concatenation. *)
Section AppendWalk.
Variable append : SymBytes -> Z -> Z -> Outcome (option (list Z)).
Fixpoint append_parts (values : list SymBytes) (offset l : Z) : Outcome (option (list Z)) :=
  match values with
  | [] => Ret (Some (zeros l))
  | b :: rest =>
      if l =? 0 then Ret (Some [])
      else if len b <=? offset then append_parts rest (offset - len b) l
      else let take := Z.min (len b - offset) l in
           let* p := append b offset take in
           match p with
           | None => Ret None
           | Some p => let* ps := append_parts rest 0 (l - take) in Ret (option_map (app p) ps)
           end
  end.
End AppendWalk.

(** The bytes that [append_concrete_range] appends. *)
Fixpoint append_concrete_range (b : SymBytes) (offset l : Z) : Outcome (option (list Z)) :=
  if l =? 0 then Ret (Some [])
  else
  match b with
  | SConcrete bytes =>
      if zlen bytes <=? offset then Ret (Some (zeros l))
      else let take := Z.min (zlen bytes - offset) l in
           Ret (Some (sub_list bytes offset take ++ zeros (l - take)))
  | SExprs bytes => append_exprs bytes offset (range l)
  | SConcat values => append_parts append_concrete_range values offset l
  | SSlice bytes base_offset slice_len =>
      if slice_len <=? offset then Ret (Some (zeros l))
      else
      let take := Z.min (slice_len - offset) l in
      match base ← eval_usize base_offset; checked_add base offset with
      | Some offset =>
          let* p := append_concrete_range bytes offset take in
          Ret (option_map (fun p => p ++ zeros (l - take)) p)
      | None => let* s := slice_concrete b offset l in concrete_expr_bytes (materialize s)
      end
  | SWord _ | SSized _ _ _ => let* s := slice_concrete b offset l in concrete_expr_bytes (materialize s)
  end.

Definition concrete_bytes (b : SymBytes) : Outcome (option (list Z)) := append_concrete_range b 0 (len b).
End Ops.
End SBytes.

(** ** Reference semantics *)
Section Semantics.
Context `{SA : SignedArith, HF : HashFns}.
Variable model : SymbolicModel.
Abbreviation den := (denote_word model).
Abbreviation denb := (denote_bool model).
Import SBytes.

(** The value of a defined expression. *)
Definition den_val (e : SymExpr) : Z := default 0 (uval <$> den e).

Fixpoint parts_at (at_ : SymBytes -> Z -> Z) (values : list SymBytes) (i : Z) : Z :=
  match values with
  | [] => 0
  | b :: rest => if i <? len b then at_ b i else parts_at at_ rest (i - len b)
  end.

(** The byte at index [i] under the model, zero past the end. *)
Fixpoint seq_at (b : SymBytes) (i : Z) : Z :=
  match b with
  | SConcrete bytes => default 0 (at_z bytes i)
  | SExprs bytes => match at_z bytes i with Some e => den_val e | None => 0 end
  | SWord w => if (0 <=? i) && (i <? 32) then default 0 ((fun v => be_byte v i) <$> den w) else 0
  | SConcat values => parts_at seq_at values i
  | SSlice bytes offset l => if i <? l then seq_at bytes (den_val offset + i) else 0
  | SSized bytes size m => if (i <? m) && (i <? den_val size) then seq_at bytes i else 0
  end.

(** Whether reading [b] at [offset] continues in the sequence that [b] slices. *)
Definition resolves (b : SymBytes) (offset : Z) : bool :=
  match b with
  | SSlice _ base _ => match eval_usize base with Some n => n + offset <=? usize_max | None => false end
  | _ => false
  end.

Definition usize_ok (n : Z) : Prop := 0 <= n <= usize_max.

Fixpoint total_len (values : list SymBytes) : Z :=
  match values with [] => 0 | b :: rest => len b + total_len rest end.

Definition defined (e : SymExpr) : Prop := exists v, den e = Some v.
Definition is_byte_expr (e : SymExpr) : Prop := exists n, 0 <= n < 256 /\ den e = Some (U n).

Fixpoint seq_ok (b : SymBytes) : Prop :=
  match b with
  | SConcrete bytes => Forall (fun n => 0 <= n < 256) bytes /\ usize_ok (zlen bytes)
  | SExprs bytes => Forall is_byte_expr bytes /\ usize_ok (zlen bytes)
  | SWord w => defined w
  | SConcat values => fold_right (fun b P => seq_ok b /\ P) True values /\ usize_ok (total_len values)
  | SSlice bytes offset l =>
      seq_ok bytes /\ usize_ok l /\ defined offset /\
      match eval_usize offset with
      | Some base => base + l <= usize_max /\ resolves bytes base = false
      | None => True
      end
  | SSized bytes size m => seq_ok bytes /\ usize_ok m /\ defined size
  end.

Lemma seq_ok_SConcat values : seq_ok (SConcat values) <-> Forall seq_ok values /\ usize_ok (total_len values).
Proof.
  simpl. assert (fold_right (fun b P => seq_ok b /\ P) True values <-> Forall seq_ok values) as ->; [|done].
  induction values as [|b values IH]; simpl; [by rewrite Forall_nil|]. by rewrite Forall_cons, IH.
Qed.

(** *** Lengths *)
Lemma total_len_nonneg values : Forall (fun b => 0 <= len b) values -> 0 <= total_len values.
Proof. induction 1; simpl; lia. Qed.

Lemma saturated_total values n :
  Forall (fun b => 0 <= len b) values -> 0 <= n -> n + total_len values <= usize_max ->
  fold_left (fun n b => sat_add n (len b)) values n = n + total_len values.
Proof.
  intros Hp. revert n. induction Hp as [|b values Hb Hp IH]; intros n Hn Hle; simpl in *; [lia|].
  pose proof (total_len_nonneg _ Hp). unfold sat_add at 2. rewrite Z.min_r, IH by lia. lia.
Qed.

Lemma len_usize b : seq_ok b -> usize_ok (len b).
Proof.
  induction b as [bs|es|w|vs IH|b o l IH|b s m IH] using seq_ind; try (simpl; tauto).
  { simpl. by unfold usize_ok, usize_max. }
  intros [Hvs [H0 Ht]]%seq_ok_SConcat. simpl. rewrite saturated_total; [done| |lia..].
  rewrite Forall_forall in *. intros b Hb. by apply IH; [|apply Hvs].
Qed.

Lemma parts_nonneg values : Forall seq_ok values -> Forall (fun b => 0 <= len b) values.
Proof. intros Hvs. eapply Forall_impl; [exact Hvs|]. intros b Hb. apply (len_usize b Hb). Qed.

Lemma len_SConcat vs : seq_ok (SConcat vs) -> len (SConcat vs) = total_len vs.
Proof. intros [Hvs [H0 Ht]]%seq_ok_SConcat. simpl. by rewrite saturated_total by (by apply parts_nonneg || lia). Qed.

Lemma total_len_app vs ws : total_len (vs ++ ws) = total_len vs + total_len ws.
Proof. induction vs; simpl; lia. Qed.

(** *** Bytes of the reference semantics *)
Lemma defined_val e : defined e -> exists v, den e = Some v /\ den_val e = uval v.
Proof. intros [v Hv]. exists v. unfold den_val. by rewrite Hv. Qed.

Lemma den_val_Some e v : den e = Some v -> den_val e = uval v.
Proof. unfold den_val. by intros ->. Qed.

Lemma den_val_nonneg e : 0 <= den_val e.
Proof. unfold den_val. destruct (den e) as [v|]; simpl; [apply uval_range|lia]. Qed.

Lemma den_val_constant n : 0 <= n < word_modulus -> den_val (constant (U n)) = n.
Proof. intros. unfold den_val. rewrite den_constant. simpl. by apply uval_U_small. Qed.

Lemma is_byte_expr_val e : is_byte_expr e -> 0 <= den_val e < 256 /\ den e = Some (U (den_val e)).
Proof. intros (n & Hn & He). rewrite (den_val_Some _ _ He), uval_byte by done. done. Qed.

Lemma seq_at_range b i : seq_ok b -> 0 <= seq_at b i < 256.
Proof.
  revert i. induction b as [bs|es|w|vs IH|b o l IH|b s m IH] using seq_ind; intros i.
  - intros [Hbs _]. simpl. destruct (at_z bs i) as [n|] eqn:E; simpl; [|lia].
    rewrite Forall_forall in Hbs. by apply Hbs, (at_z_elem _ i).
  - intros [Hes _]. simpl. destruct (at_z es i) as [e|] eqn:E; simpl; [|lia].
    rewrite Forall_forall in Hes. by apply is_byte_expr_val, Hes, (at_z_elem _ i).
  - intros [v Hv]. simpl. case_match; [|lia]. rewrite Hv. apply be_byte_range.
  - intros [Hvs _]%seq_ok_SConcat. simpl. revert i.
    induction Hvs as [|b vs Hb Hvs IHvs]; intros i; simpl; [lia|]. inversion_clear IH.
    case_match; auto.
  - intros (Hb & _). simpl. case_match; [auto|lia].
  - intros (Hb & _). simpl. case_match; [auto|lia].
Qed.

Lemma seq_at_past b i : seq_ok b -> len b <= i -> seq_at b i = 0.
Proof.
  revert i. induction b as [bs|es|w|vs IH|b o l IH|b s m IH] using seq_ind; intros i.
  - intros _ Hi. simpl in *. by rewrite (proj2 (at_z_None bs i)) by lia.
  - intros _ Hi. simpl in *. by rewrite (proj2 (at_z_None es i)) by lia.
  - intros _ Hi. simpl in *. destruct (Z.ltb_spec i 32); [lia|]. by rewrite andb_false_r.
  - intros Hok. rewrite len_SConcat by done. apply seq_ok_SConcat in Hok as [Hvs _]. revert i.
    induction Hvs as [|b vs Hb Hvs IHvs]; intros i Hi; simpl in *; [done|]. inversion_clear IH.
    pose proof (total_len_nonneg _ (parts_nonneg _ Hvs)).
    destruct (Z.ltb_spec i (len b)); [lia|]. apply IHvs; [done|lia].
  - intros _ Hi. simpl in *. destruct (Z.ltb_spec i l); [lia|done].
  - intros _ Hi. simpl in *. destruct (Z.ltb_spec i m); [lia|done].
Qed.

(** *** One byte *)
Context {SL : SignedArithLaws}.

Lemma eq_exprs_const t k v : den t = Some v -> denb (eq_exprs t (constant k)) = Some (u_eqb v k).
Proof. intros. by apply cmp_const_den. Qed.

Lemma eval_usize_sound e n : eval_usize e = Some n -> den_val e = n /\ defined e /\ usize_ok n.
Proof.
  unfold eval_usize. destruct (sym_eval e) as [v|] eqn:E; simpl; [|done].
  apply sym_eval_sound with (model := model) in E. unfold to_usize. intros H. case_match; simplify_eq.
  pose proof (uval_range v). rewrite (den_val_Some _ _ E). unfold usize_ok, defined. split_and!; eauto; lia.
Qed.

Lemma select_dynamic_sound rd f total offset delta v :
  den offset = Some v -> 0 <= delta -> total <= usize_max ->
  (forall c, delta <= c < total -> den (rd c) = Some (U (f c))) ->
  den (select_dynamic rd total offset delta) =
    Some (U (if uval v + delta <? total then f (uval v + delta) else 0)).
Proof.
  intros Hv Hd Ht Hf. unfold select_dynamic.
  assert (Hgen : forall l, Forall (fun c => delta <= c < total) l ->
    den (fold_right (fun c r => ite (eq_exprs offset (constant (U (c - delta)))) (rd c) r) zero l) =
      Some (U (if bool_decide (uval v + delta ∈ l) then f (uval v + delta) else 0))).
  { induction 1 as [|c l Hc Hl IH]; simpl; [apply (den_zero model)|].
    eapply den_ite; [by apply eq_exprs_const|]. unfold u_eqb.
    rewrite uval_U_small by (change word_modulus with (2 ^ 256); unfold usize_max in *; lia).
    destruct (Z.eqb_spec (uval v) (c - delta)) as [E|E].
    - replace (uval v + delta) with c by lia. rewrite bool_decide_true by set_solver. auto.
    - rewrite IH. do 2 f_equal. case_bool_decide as H1; case_bool_decide as H2; set_solver by lia. }
  rewrite Hgen.
  - do 2 f_equal. pose proof (uval_range v). case_bool_decide as H1.
    + apply list_elem_of_fmap in H1 as (k & Hk & H1%elem_of_range). destruct (Z.ltb_spec (uval v + delta) total); [done|lia].
    + destruct (Z.ltb_spec (uval v + delta) total); [|done]. destruct H1.
      apply list_elem_of_fmap. exists (uval v). rewrite elem_of_range. lia.
  - apply Forall_map, Forall_forall. intros k Hk%elem_of_range. lia.
Qed.

Lemma word_byte_sound w v i :
  den w = Some v -> 0 <= i < 32 ->
  den (match known_byte w i with Some n => constant (U n) | None => extracted_byte w i end) = Some (U (be_byte v i)).
Proof.
  intros Hv Hi. destruct (known_byte w i) as [n|] eqn:E.
  - rewrite (known_byte_sound model w i n v ltac:(lia) E Hv). apply (den_constant model).
  - rewrite (extracted_byte_sound model w i v ltac:(lia) Hv). done.
Qed.

(** A byte of a slice, given the bytes of the sliced sequence. *)
Lemma slice_byte_sound b o l i :
  seq_ok (SSlice b o l) -> (forall k, usize_ok k -> den (byte b k) = Some (U (seq_at b k))) ->
  usize_ok i -> den (byte (SSlice b o l) i) = Some (U (seq_at (SSlice b o l) i)).
Proof.
  intros (Hb & Hl & Ho & _) IH Hi. destruct (len_usize b Hb) as [Hb0 Hb1]. unfold usize_ok in *. simpl.
  destruct (Z.leb_spec l i) as [H|H]; destruct (Z.ltb_spec i l); try lia; [apply (den_zero model)|].
  destruct (defined_val _ Ho) as (v & Hv & Hval). rewrite Hval. pose proof (uval_range v).
  destruct (sym_eval o) as [base|] eqn:Ee.
  - apply sym_eval_sound with (model := model) in Ee. assert (base = v) as -> by congruence.
    unfold to_usize. destruct (Z.leb_spec (uval v) usize_max).
    + unfold checked_add. destruct (Z.leb_spec (uval v + i) usize_max); [apply IH; lia|].
      rewrite seq_at_past by (done || lia). apply (den_zero model).
    + rewrite seq_at_past by (done || lia). apply (den_zero model).
  - rewrite (select_dynamic_sound _ (seq_at b) _ _ _ v); [|done|lia|lia|].
    + destruct (Z.ltb_spec (uval v + i) (len b)); [done|]. by rewrite seq_at_past by (done || lia).
    + intros c Hc. apply IH. lia.
Qed.

(** Reading a byte yields an expression with the byte's value. *)
Lemma byte_sound b i : seq_ok b -> usize_ok i -> den (byte b i) = Some (U (seq_at b i)).
Proof.
  revert i. induction b as [bs|es|w|vs IH|b o l IH|b s m IH] using seq_ind; intros i.
  - intros _ Hi. simpl. destruct (at_z bs i); [apply (den_constant model)|apply (den_zero model)].
  - intros [Hes _] Hi. simpl. destruct (at_z es i) as [e|] eqn:E; simpl; [|apply (den_zero model)].
    rewrite Forall_forall in Hes. by apply is_byte_expr_val, Hes, (at_z_elem _ i).
  - intros [v Hv] [Hi _]. simpl. destruct (Z.leb_spec 32 i) as [H|H].
    { destruct (Z.ltb_spec i 32); [lia|]. rewrite andb_false_r. apply (den_zero model). }
    destruct (Z.leb_spec 0 i); [|lia]. destruct (Z.ltb_spec i 32); [|lia]. rewrite Hv. simpl.
    by apply word_byte_sound.
  - intros [Hvs _]%seq_ok_SConcat. simpl. revert i.
    induction Hvs as [|b vs Hb Hvs IHvs]; intros i Hi; simpl; [apply (den_zero model)|]. inversion_clear IH.
    destruct (Z.ltb_spec i (len b)); [auto|]. destruct (len_usize b Hb). unfold usize_ok in *.
    unfold sat_sub. rewrite Z.max_r by lia. apply IHvs; [done|lia].
  - intros Hok. apply slice_byte_sound; [done|]. intros k. apply IH, Hok.
  - intros (Hb & Hm & Hs) Hi. unfold usize_ok in *. simpl.
    destruct (Z.leb_spec m i) as [H|H]; destruct (Z.ltb_spec i m); try lia; [apply (den_zero model)|].
    destruct (defined_val _ Hs) as (v & Hv & ->). simpl.
    eapply den_ite.
    + apply (cmp_refines model Ult); [by rewrite const_no_hash|]. by apply (den_cmp_intro model Ult); [apply (den_constant model)|].
    + simpl. unfold u_ltb. rewrite uval_U_small by (change word_modulus with (2 ^ 256); unfold usize_max in *; lia).
      destruct (i <? uval v); [by apply IH|apply (den_zero model)].
Qed.

(** *** Constructors and slices *)

(** [b] is a well-formed sequence of [n] bytes whose values [f] gives. *)
Definition represents (b : SymBytes) (n : Z) (f : Z -> Z) : Prop :=
  seq_ok b /\ len b = n /\ forall i, 0 <= i < n -> seq_at b i = f i.

Lemma represents_self b : seq_ok b -> represents b (len b) (seq_at b).
Proof. intros. unfold represents. by split_and!. Qed.

Lemma represents_ext b n f g : (forall i, 0 <= i < n -> f i = g i) -> represents b n f -> represents b n g.
Proof. intros Hfg (Hok & Hl & Hf). unfold represents. split_and!; [done..|]. intros i Hi. by rewrite Hf, Hfg. Qed.

Lemma concrete_represents bs :
  Forall (fun n => 0 <= n < 256) bs -> zlen bs <= usize_max ->
  represents (concrete bs) (zlen bs) (fun i => default 0 (at_z bs i)).
Proof. intros. pose proof (zlen_nonneg bs). by unfold represents; split_and!. Qed.

Lemma zeros_represent n : usize_ok n -> represents (concrete (zeros n)) n (fun _ => 0).
Proof.
  intros [Hn0 Hn]. rewrite <- (zlen_zeros n) at 2 by done.
  eapply represents_ext, concrete_represents; [|apply Forall_replicate; lia|by rewrite zlen_zeros].
  intros i _. apply at_z_zeros.
Qed.

Lemma empty_represents f : represents empty 0 f.
Proof. unfold represents. split_and!; simpl; [|done|lia]. split; [done|]. by unfold usize_ok, usize_max. Qed.

Lemma byte_expr_constants es : Forall is_byte_expr es -> byte_constants es = true.
Proof.
  unfold byte_constants. induction 1 as [|e es (n & Hn & He) _ IH]; simpl; [done|]. rewrite IH, andb_true_r.
  destruct (as_const e) as [c|] eqn:E; [|done]. rewrite <- (as_const_den _ _ _ _ E He), uval_byte by done. lia.
Qed.

Lemma concrete_exprs_vals es ns :
  Forall is_byte_expr es -> concrete_expr_bytes es = Ret (Some ns) -> ns = map den_val es.
Proof.
  intros Hes. revert ns. induction Hes as [|e es He _ IH]; intros ns Hc; simpl in Hc; [by simplify_eq|].
  destruct (as_const e) as [c|] eqn:E; [|done].
  apply obind_Ret in Hc as (n & [<- Hn]%to_u8_Ret & Hc). apply obind_Ret in Hc as (ns' & Hns & Hc).
  destruct ns' as [ns'|]; [|done]. simplify_eq/=. f_equal; [|by apply IH].
  by rewrite (den_val_Some _ _ (as_const_den' model _ _ E)).
Qed.

Lemma exprs_represent es :
  Forall is_byte_expr es -> zlen es <= usize_max ->
  exists b, exprs es = Ret b /\
    represents b (zlen es) (fun i => match at_z es i with Some e => den_val e | None => 0 end).
Proof.
  intros Hes Hl. unfold exprs. destruct (concrete_bytes_total es (byte_expr_constants es Hes)) as [[ns|] Hc]; rewrite Hc; simpl.
  - apply (concrete_exprs_vals _ _ Hes) in Hc as ->. eexists; split; [done|].
    rewrite <- (zlen_map den_val es). eapply represents_ext, concrete_represents.
    + intros i _. cbv beta. rewrite at_z_map. by destruct (at_z es i).
    + apply Forall_map. eapply Forall_impl; [exact Hes|]. intros e He. by apply is_byte_expr_val.
    + by rewrite zlen_map.
  - eexists; split; [done|]. pose proof (zlen_nonneg es). by unfold represents; split_and!.
Qed.

(** Sequences built from [n] byte expressions. *)
Lemma exprs_range_represent (e : Z -> SymExpr) (f : Z -> Z) n :
  usize_ok n -> (forall i, 0 <= i < n -> 0 <= f i < 256 /\ den (e i) = Some (U (f i))) ->
  exists b, exprs (map e (range n)) = Ret b /\ represents b n f.
Proof.
  intros [Hn0 Hn] He. destruct (exprs_represent (map e (range n))) as (b & Hb & Hr).
  - apply Forall_map, Forall_forall. intros i Hi%elem_of_range. exists (f i). by apply He.
  - by rewrite zlen_map, zlen_range.
  - exists b. split; [done|]. rewrite zlen_map, zlen_range in Hr by done. eapply represents_ext, Hr.
    intros i Hi. simpl. rewrite at_z_map, at_z_range by done. simpl. destruct (He i Hi) as [Hf Hd].
    by rewrite (den_val_Some _ _ Hd), uval_byte.
Qed.

Lemma to_be_bytes_represent v : represents (concrete (to_be_bytes v)) 32 (be_byte v).
Proof.
  unfold to_be_bytes. eapply represents_ext with (f := fun i => default 0 (at_z (map (be_byte v) (range 32)) i)).
  - intros i Hi. cbv beta. by rewrite at_z_map, at_z_range.
  - apply (concrete_represents (map (be_byte v) (range 32))); [|done].
    apply Forall_map, Forall_forall. intros i _. apply be_byte_range.
Qed.

Lemma word_represents w v : den w = Some v -> represents (word w) 32 (be_byte v).
Proof.
  intros Hv. unfold word. destruct (as_const w) as [c|] eqn:E.
  - rewrite (as_const_den _ _ _ _ E Hv). apply to_be_bytes_represent.
  - split; [by exists v|]. split; [done|]. intros i Hi. simpl.
    destruct (Z.leb_spec 0 i); [|lia]. destruct (Z.ltb_spec i 32); [|lia]. simpl. by rewrite Hv.
Qed.

Lemma flatten_part_spec b :
  seq_ok b -> Forall seq_ok (flatten_part b) /\ total_len (flatten_part b) = len b /\
    forall i, 0 <= i < len b -> parts_at seq_at (flatten_part b) i = seq_at b i.
Proof.
  intros Hok.
  assert (Hone : Forall seq_ok [b] /\ total_len [b] = len b /\ forall i, 0 <= i < len b -> parts_at seq_at [b] i = seq_at b i).
  { split_and!; [by constructor|simpl; lia|]. intros i Hi. simpl. destruct (Z.ltb_spec i (len b)); [done|lia]. }
  destruct b as [[|n bs]|es|w|vs|b o l|b s m]; try exact Hone.
  - split_and!; [done..|]. simpl. unfold zlen. simpl. lia.
  - pose proof Hok as [Hvs _]%seq_ok_SConcat. by rewrite <- len_SConcat.
Qed.

Lemma parts_at_app vs ws i :
  Forall seq_ok vs -> 0 <= i ->
  parts_at seq_at (vs ++ ws) i =
    if i <? total_len vs then parts_at seq_at vs i else parts_at seq_at ws (i - total_len vs).
Proof.
  intros Hvs. revert i. induction Hvs as [|b vs Hb Hvs IH]; intros i Hi; simpl.
  { rewrite Z.sub_0_r. destruct (Z.ltb_spec i 0); [lia|done]. }
  pose proof (total_len_nonneg _ (parts_nonneg _ Hvs)). destruct (len_usize b Hb).
  destruct (Z.ltb_spec i (len b)), (Z.ltb_spec i (len b + total_len vs)); try (done || lia).
  - rewrite IH by lia. destruct (Z.ltb_spec (i - len b) (total_len vs)); [done|lia].
  - rewrite IH by lia. destruct (Z.ltb_spec (i - len b) (total_len vs)); [lia|]. f_equal. lia.
Qed.

Lemma flatten_parts_spec parts :
  Forall seq_ok parts ->
  Forall seq_ok (flat_map flatten_part parts) /\ total_len (flat_map flatten_part parts) = total_len parts /\
    forall i, 0 <= i < total_len parts -> parts_at seq_at (flat_map flatten_part parts) i = parts_at seq_at parts i.
Proof.
  induction 1 as [|b parts Hb _ (IHok & IHl & IHat)]; simpl; [by split_and!|].
  destruct (flatten_part_spec b Hb) as (Hok & Hl & Hat). destruct (len_usize b Hb). split_and!.
  - by apply Forall_app.
  - rewrite total_len_app. lia.
  - intros i Hi. rewrite parts_at_app by (done || lia). rewrite Hl.
    destruct (Z.ltb_spec i (len b)); [apply Hat; lia|apply IHat; lia].
Qed.

(** Concatenation flattens without changing a byte. *)
Lemma concat_represents parts :
  Forall seq_ok parts -> total_len parts <= usize_max ->
  represents (concat parts) (total_len parts) (parts_at seq_at parts).
Proof.
  intros Hok Ht. destruct (flatten_parts_spec parts Hok) as (Hf & Hl & Hat). unfold concat.
  pose proof (total_len_nonneg _ (parts_nonneg _ Hf)).
  destruct (flat_map flatten_part parts) as [|b [|c rest]] eqn:E.
  - simpl in Hl. rewrite <- Hl. apply empty_represents.
  - inversion_clear Hf. simpl in Hl. rewrite Z.add_0_r in Hl. rewrite <- Hl in *.
    eapply represents_ext; [|by apply represents_self]. intros i Hi. cbv beta. rewrite <- Hat by done. simpl.
    destruct (Z.ltb_spec i (len b)); [done|lia].
  - assert (Hseq : seq_ok (SConcat (b :: c :: rest))) by (apply seq_ok_SConcat; unfold usize_ok; split; [done|lia]).
    split; [done|]. split; [by rewrite len_SConcat|]. intros i Hi. by rewrite <- Hat.
Qed.

(** The walk over the parts of a concatenation: the pieces are the requested
    range, less a rest that lies past the end. *)
Lemma walk_parts_spec piece values offset l :
  Forall (fun b => seq_ok b /\ forall o take, 0 <= o -> 0 < take -> o + take <= len b ->
            exists p, piece b o take = Ret p /\ represents p take (fun i => seq_at b (o + i))) values ->
  0 <= offset -> 0 <= l ->
  exists ps left, walk_parts piece values offset l = Ret (ps, left) /\ Forall seq_ok ps /\
    0 <= left /\ total_len ps + left = l /\
    (forall i, 0 <= i < total_len ps -> parts_at seq_at ps i = parts_at seq_at values (offset + i)) /\
    (0 < left -> total_len values <= offset + total_len ps).
Proof.
  intros Hvs. revert offset l. induction Hvs as [|b vs [Hb Hpiece] Hvs IH]; intros offset l Ho Hl; simpl.
  { exists [], l. simpl. split_and!; try done; try lia. }
  destruct (Z.eqb_spec l 0) as [->|Hl0].
  { exists [], 0. simpl. split_and!; try done; try lia. }
  destruct (len_usize b Hb) as [Hb0 _]. destruct (Z.leb_spec (len b) offset) as [Hge|Hlt].
  - destruct (IH (offset - len b) l) as (ps & left & -> & Hps & Hleft & Hsum & Hat & Hpast); [lia..|].
    exists ps, left. split_and!; try done; try lia.
    intros i Hi. rewrite Hat by done. destruct (Z.ltb_spec (offset + i) (len b)); [lia|]. f_equal. lia.
  - set (take := Z.min (len b - offset) l).
    destruct (Hpiece offset take) as (p & -> & Hp & Hplen & Hpat); [lia..|]. simpl.
    destruct (IH 0 (l - take)) as (ps & left & -> & Hps & Hleft & Hsum & Hat & Hpast); [lia..|].
    pose proof (total_len_nonneg _ (parts_nonneg _ Hps)).
    exists (p :: ps), left. simpl. split_and!; [done|by constructor|done|lia| |lia].
    intros i Hi. rewrite Hplen in *. destruct (Z.ltb_spec i take).
    + rewrite Hpat by lia. destruct (Z.ltb_spec (offset + i) (len b)); [done|lia].
    + destruct (Z.ltb_spec (offset + i) (len b)); [lia|]. rewrite Hat by lia. f_equal. lia.
Qed.

Lemma slice_node_represents b offset l :
  seq_ok b -> usize_ok offset -> usize_ok l -> offset + l <= usize_max -> resolves b offset = false ->
  represents (slice_node b (constant (U offset)) l) l (fun i => seq_at b (offset + i)).
Proof.
  intros Hb Ho Hl Hsum Hr. unfold usize_ok in *.
  assert (Hv : den_val (constant (U offset)) = offset)
    by (apply den_val_constant; change word_modulus with (2 ^ 256); unfold usize_max in *; lia).
  split.
  - simpl. split_and!; try done; try lia; [eexists; apply (den_constant model)|].
    destruct (eval_usize (constant (U offset))) as [n|] eqn:E; [|done].
    apply eval_usize_sound in E as [<- _]. rewrite Hv. done.
  - split; [done|]. intros i Hi. simpl. rewrite Hv. destruct (Z.ltb_spec i l); [done|lia].
Qed.

Lemma resolves_mono b i j : i <= j -> resolves b i = false -> resolves b j = false.
Proof. destruct b as [| | | |b o l|]; try done. simpl. destruct (eval_usize o); [|done]. lia. Qed.

Lemma slice_bytes_represent bs offset l :
  Forall (fun n => 0 <= n < 256) bs -> usize_ok offset -> usize_ok l -> offset + l <= usize_max ->
  represents (concrete
    (if match checked_add offset l with Some e => e <=? zlen bs | None => false end
     then sub_list bs offset l
     else map (fun idx => default 0 (at_z bs (usize_add offset idx))) (range l))) l
    (fun i => default 0 (at_z bs (offset + i))).
Proof.
  intros Hbs [Ho _] [Hl Hl'] Hsum. unfold checked_add. destruct (Z.leb_spec (offset + l) usize_max); [|lia].
  destruct (Z.leb_spec (offset + l) (zlen bs)).
  - rewrite <- (zlen_sub_list bs offset l) at 2 by lia.
    eapply represents_ext, concrete_represents; [|by apply sub_list_Forall|by rewrite zlen_sub_list by lia].
    rewrite zlen_sub_list by lia. intros i Hi. cbv beta. by rewrite at_z_sub_list.
  - set (f := fun idx => default 0 (at_z bs (usize_add offset idx))).
    rewrite <- (zlen_range l) at 2 by done. rewrite <- (zlen_map f).
    eapply represents_ext, concrete_represents; [| |by rewrite zlen_map, zlen_range].
    + rewrite zlen_map, zlen_range by done. intros i Hi. cbv beta. rewrite at_z_map, at_z_range by done. simpl.
      unfold f, usize_add. by rewrite Z.mod_small by (unfold usize_max in *; lia).
    + apply Forall_map, Forall_forall. intros i _. unfold f. destruct (at_z bs _) eqn:E; simpl; [|lia].
      rewrite Forall_forall in Hbs. by eapply Hbs, at_z_elem.
Qed.

Lemma parts_at_past values i : Forall seq_ok values -> total_len values <= i -> parts_at seq_at values i = 0.
Proof.
  intros Hvs. revert i. induction Hvs as [|b vs Hb Hvs IH]; intros i Hi; simpl in *; [done|].
  pose proof (total_len_nonneg _ (parts_nonneg _ Hvs)). destruct (Z.ltb_spec i (len b)); [lia|]. apply IH. lia.
Qed.

(** The pieces of a walk and the zeros for what is left over. *)
Lemma padded_parts_represent values offset l ps left :
  Forall seq_ok values -> Forall seq_ok ps -> usize_ok l -> 0 <= offset -> 0 <= left -> total_len ps + left = l ->
  (forall i, 0 <= i < total_len ps -> parts_at seq_at ps i = parts_at seq_at values (offset + i)) ->
  (0 < left -> total_len values <= offset + total_len ps) ->
  represents (concat (ps ++ if left =? 0 then [] else [concrete (zeros left)])) l
    (fun i => parts_at seq_at values (offset + i)).
Proof.
  intros Hvs Hps [Hl0 Hl] Ho Hleft Hsum Hat Hpast. pose proof (total_len_nonneg _ (parts_nonneg _ Hps)).
  destruct (zeros_represent left) as (Hz & Hzl & Hzat); [unfold usize_ok; lia|].
  set (pad := if left =? 0 then [] else [concrete (zeros left)]).
  assert (Hpad : Forall seq_ok pad /\ total_len pad = left).
  { unfold pad. destruct (Z.eqb_spec left 0) as [->|]; [done|]. cbn [total_len]. split; [by constructor|lia]. }
  destruct Hpad as [Hpok Hplen]. rewrite <- Hsum, <- Hplen, <- total_len_app.
  eapply represents_ext, concat_represents; [|by apply Forall_app|rewrite total_len_app; lia].
  rewrite total_len_app, Hplen. intros i Hi. cbv beta. rewrite parts_at_app by (done || lia).
  destruct (Z.ltb_spec i (total_len ps)); [apply Hat; lia|].
  rewrite (parts_at_past values) by (done || lia). unfold pad. destruct (Z.eqb_spec left 0); [lia|].
  cbn [parts_at]. destruct (Z.ltb_spec (i - total_len ps) (len (concrete (zeros left)))); [|done].
  apply Hzat. lia.
Qed.

(** A slice of a sequence is the range of its bytes, zero past the end. A slice
    of a resolved slice is exact only inside it. *)
Lemma slice_concrete_spec b offset l :
  seq_ok b -> usize_ok offset -> usize_ok l -> offset + l <= usize_max ->
  resolves b offset = false \/ offset + l <= len b ->
  exists r, slice_concrete b offset l = Ret r /\ represents r l (fun i => seq_at b (offset + i)).
Proof.
  revert offset l. induction b as [bs|es|w|vs IH|b o n IH|b s m IH] using seq_ind; intros offset l Hok Ho Hl Hsum Hin;
    cbn [slice_concrete]; (destruct (Z.eqb_spec l 0) as [->|Hl0]; [eexists; split; [done|apply empty_represents]|]);
    match goal with |- context [if ?c then Ret ?x else _] =>
      destruct c eqn:Ewhole; [apply andb_prop in Ewhole as [->%Z.eqb_eq ->%Z.eqb_eq];
        eexists; split; [done|by apply represents_self]|] end.
  - eexists; split; [done|]. apply slice_bytes_represent; naive_solver.
  - destruct Hok as [Hes _]. unfold usize_ok in *. apply exprs_range_represent; [done|]. intros i Hi.
    unfold usize_add. rewrite Z.mod_small by (unfold usize_max in *; lia). simpl.
    destruct (at_z es (offset + i)) as [e|] eqn:E; simpl; [|split; [lia|apply (den_zero model)]].
    rewrite Forall_forall in Hes. by apply is_byte_expr_val, Hes, (at_z_elem _ (offset + i)).
  - destruct ((offset =? 0) && (l =? 32)) eqn:E.
    { apply andb_prop in E as [->%Z.eqb_eq ->%Z.eqb_eq]. simpl in Ewhole. done. }
    eexists; split; [done|]. by apply slice_node_represents.
  - pose proof Hok as [Hvs _]%seq_ok_SConcat.
    destruct (walk_parts_spec (fun p o take => if (o =? 0) && (take =? len p) then Ret p else slice_concrete p o take)
      vs offset l) as (ps & left & -> & Hps & Hleft & Htot & Hat & Hpast); [|apply Ho|apply Hl|].
    { rewrite Forall_forall in *. intros p Hp. split; [by apply Hvs|]. intros o take Ho' Ht Hle.
      destruct (len_usize p (Hvs p Hp)). destruct ((o =? 0) && (take =? len p)) eqn:E.
      - apply andb_prop in E as [->%Z.eqb_eq ->%Z.eqb_eq]. eexists; split; [done|]. by apply represents_self, Hvs.
      - apply IH; unfold usize_ok; auto; lia. }
    cbn [obind fst snd]. eexists; split; [done|]. apply padded_parts_represent; try done. apply Ho.
  - pose proof Hok as (Hb & Hn & Hdef & Hres). destruct (eval_usize o) as [base|] eqn:Ebase; simpl.
    + pose proof (eval_usize_sound _ _ Ebase) as (Hval & _ & Hbase).
      unfold checked_add. destruct (Z.leb_spec (base + offset) usize_max) as [Hfit|Hover].
      * simpl in Hin. rewrite Ebase in Hin. destruct Hin as [Hin|Hin]; [lia|].
        destruct Hres as [Hend Hres]. unfold usize_ok in *. simpl in Hin.
        destruct (IH (base + offset) l) as (r & -> & Hr); [done|lia..|left; by eapply resolves_mono; [|exact Hres]; lia|].
        exists r. split; [done|]. eapply represents_ext, Hr. intros i Hi. simpl. rewrite Hval.
        destruct (Z.ltb_spec (offset + i) n); [|lia]. f_equal. lia.
      * eexists; split; [done|]. apply slice_node_represents; try done.
        simpl. rewrite Ebase. lia.
    + eexists; split; [done|]. apply slice_node_represents; try done. simpl. by rewrite Ebase.
  - eexists; split; [done|]. by apply slice_node_represents.
Qed.

Lemma constant_EConst v : constant v = EConst v.
Proof.
  unfold constant. destruct (is_zero v) eqn:E; [by apply is_zero_true in E as ->|].
  destruct (u_eqb_spec v ONE) as [->|]; done.
Qed.

Lemma sym_eval_constant v : sym_eval (constant v) = Some v.
Proof. by rewrite constant_EConst. Qed.

Lemma eval_usize_constant n : usize_ok n -> eval_usize (constant (U n)) = Some n.
Proof.
  intros [H0 H1]. unfold eval_usize. rewrite sym_eval_constant. simpl. unfold to_usize.
  rewrite uval_U_small by (change word_modulus with (2 ^ 256); unfold usize_max in *; lia).
  destruct (Z.leb_spec n usize_max); [done|lia].
Qed.

(** A slice at any offset. *)
Lemma slice_spec b offset l v :
  seq_ok b -> usize_ok l -> den offset = Some v ->
  match eval_usize offset with
  | Some base => base + l <= usize_max /\ (resolves b base = false \/ base + l <= len b)
  | None => True
  end ->
  exists r, slice b offset l = Ret r /\ represents r l (fun i => seq_at b (uval v + i)).
Proof.
  intros Hb Hl Hv Hfit. unfold slice. destruct (Z.eqb_spec l 0) as [->|]; [eexists; split; [done|apply empty_represents]|].
  unfold eval_usize in Hfit. destruct (sym_eval offset) as [o|] eqn:E; simpl in Hfit.
  - apply sym_eval_sound with (model := model) in E. assert (o = v) as -> by congruence.
    unfold to_usize in *. pose proof (uval_range v). destruct (Z.leb_spec (uval v) usize_max).
    + destruct Hfit. apply slice_concrete_spec; unfold usize_ok in *; auto; lia.
    + eexists; split; [done|]. eapply represents_ext; [|by apply zeros_represent].
      intros i Hi. simpl. destruct (len_usize b Hb). rewrite seq_at_past; [done..|lia].
  - eexists; split; [done|]. split; [|split; [done|]].
    + simpl. unfold eval_usize. rewrite E. simpl. split_and!; try done. by exists v.
    + intros i Hi. simpl. rewrite (den_val_Some _ _ Hv). destruct (Z.ltb_spec i l); [done|lia].
Qed.

Lemma clamp_size_spec v m : 0 <= m <= usize_max -> clamp_size v m = Z.min (uval v) m.
Proof. intros. unfold clamp_size, to_usize. destruct (Z.leb_spec (uval v) usize_max); lia. Qed.

(** Bytes padded with zeros. *)
Lemma padded_represents p k m f :
  represents p k f -> 0 <= k <= m -> m <= usize_max ->
  represents (concat [p; concrete (zeros (m - k))]) m (fun i => if i <? k then f i else 0).
Proof.
  intros (Hp & Hpl & Hpat) Hk Hm. destruct (zeros_represent (m - k)) as (Hz & Hzl & Hzat); [unfold usize_ok; lia|].
  assert (Htot : total_len [p; concrete (zeros (m - k))] = m) by (cbn [total_len]; lia).
  pose proof (concat_represents [p; concrete (zeros (m - k))] ltac:(rewrite !Forall_cons; split_and!; done || apply Forall_nil_2) ltac:(lia)) as Hc.
  rewrite Htot in Hc. eapply represents_ext, Hc. intros i Hi. cbn [parts_at]. rewrite Hpl, Hzl.
  destruct (Z.ltb_spec i k); [apply Hpat; lia|]. destruct (Z.ltb_spec (i - k) (m - k)); [|lia]. apply Hzat. lia.
Qed.

(** A prefix of symbolic size, zero from the size on. *)
Lemma sized_spec b size m v :
  seq_ok b -> usize_ok m -> den size = Some v ->
  match sym_eval size with
  | Some _ => resolves b 0 = false \/ Z.min (uval v) m <= len b
  | None => True
  end ->
  exists r, sized b size m = Ret r /\ represents r m (fun i => if i <? uval v then seq_at b i else 0).
Proof.
  intros Hb [Hm0 Hm] Hv Hfit. unfold sized. destruct (Z.eqb_spec m 0) as [->|]; [eexists; split; [done|apply empty_represents]|].
  destruct (sym_eval size) as [s|] eqn:E.
  - apply sym_eval_sound with (model := model) in E. assert (s = v) as -> by congruence.
    rewrite clamp_size_spec by done. pose proof (uval_range v). set (k := Z.min (uval v) m) in *.
    destruct (slice_concrete_spec b 0 k) as (p & -> & Hp); [done|unfold usize_ok; lia..|naive_solver lia|].
    simpl obind. eexists; split; [done|]. eapply represents_ext, padded_represents; [|exact Hp|lia..].
    intros i Hi. cbv beta. destruct (Z.ltb_spec i k), (Z.ltb_spec i (uval v)); lia || done.
  - eexists; split; [done|]. split; [|split; [done|]]; [simpl; split_and!; try done; by exists v|].
    intros i Hi. simpl. rewrite (den_val_Some _ _ Hv). destruct (Z.ltb_spec i m); [done|lia].
Qed.

(** *** Words *)

(** [w] has [l] bytes given by [f] from index [o] on, and zeros elsewhere. *)
Definition placed (w : U256) (f : Z -> Z) (o l : Z) : Prop :=
  forall j, 0 <= j < 32 -> be_byte w j = if (o <=? j) && (j <? o + l) then f (j - o) else 0.

Lemma placed_ext w f g o l : (forall k, 0 <= k < l -> f k = g k) -> placed w f o l -> placed w g o l.
Proof.
  intros Hfg Hw j Hj. rewrite Hw by done. destruct (Z.leb_spec o j), (Z.ltb_spec j (o + l)); simpl; try done. apply Hfg. lia.
Qed.

(** A shorter fragment with zeros after it. *)
Lemma placed_extend w f o l l' :
  l <= l' -> (forall k, l <= k < l' -> f k = 0) -> placed w f o l -> placed w f o l'.
Proof.
  intros Hl Hf Hw j Hj. rewrite Hw by done.
  destruct (Z.leb_spec o j), (Z.ltb_spec j (o + l)), (Z.ltb_spec j (o + l')); simpl; try done; [lia|].
  symmetry. apply Hf. lia.
Qed.

Lemma placed_zero f o l : (forall k, 0 <= k < l -> f k = 0) -> placed ZERO f o l.
Proof.
  intros Hf j Hj. unfold be_byte. rewrite uval_ZERO, Z.div_0_l by lia.
  destruct (Z.leb_spec o j), (Z.ltb_spec j (o + l)); simpl; try done. symmetry. apply Hf. lia.
Qed.

Lemma placed_unique w w' f : placed w f 0 32 -> placed w' f 0 32 -> w = w'.
Proof.
  intros Hw Hw'. rewrite <- (be_value_bytes w), <- (be_value_bytes w'). do 2 f_equal. apply map_ext_in.
  intros i Hi%in_seq. by rewrite Hw, Hw' by lia.
Qed.

Lemma placed_word_sound bs o :
  Forall (fun n => 0 <= n < 256) bs -> 0 <= o -> o + zlen bs <= 32 ->
  exists w, den (placed_word bs o) = Some w /\ placed w (fun k => default 0 (at_z bs k)) o (zlen bs).
Proof.
  intros Hbs Ho Hle. eexists; split; [apply (den_constant model)|]. unfold zlen in *. intros j Hj.
  pose proof (be_value_bound bs (Z.to_nat o) Hbs ltac:(lia)) as Hb. rewrite Z2Nat.id in Hb by done.
  assert (2 ^ (8 * (32 - o)) <= word_modulus) by (change word_modulus with (2 ^ 256); apply Z.pow_le_mono_r; lia).
  unfold be_byte. rewrite uval_U_small by lia. destruct (Z.leb_spec o j).
  - rewrite <- (Z2Nat.id j) at 1 by lia. rewrite be_value_digit by (done || lia). simpl.
    unfold at_z. destruct (Z.ltb_spec j (o + Z.of_nat (length bs))).
    + destruct (Z.ltb_spec (j - o) 0); [lia|]. do 2 f_equal. lia.
    + by rewrite lookup_ge_None_2 by lia.
  - simpl. rewrite Z.div_small; [done|]. split; [lia|].
    eapply Z.lt_le_trans; [apply Hb|]. apply Z.pow_le_mono_r; lia.
Qed.

Lemma be_byte_shifted_right v k j :
  0 <= k <= 31 -> 0 <= j < 32 -> be_byte (binop_eval Shr v (U (k * 8))) j = if j <? k then 0 else be_byte v (j - k).
Proof.
  intros Hk Hj. assert (Hs : uval (U (k * 8)) = k * 8) by (apply uval_U_small; change word_modulus with (2 ^ 256); lia).
  cbn [binop_eval]. unfold u_leb. rewrite Hs. change (uval (U 256)) with 256. destruct (Z.leb_spec 256 (k * 8)); [lia|].
  rewrite <- Hs, be_byte_shr by (rewrite ?Hs, ?Z.mod_mul; lia). by rewrite Hs, Z.div_mul.
Qed.

Lemma be_byte_shifted_left v k j :
  0 <= k <= 31 -> 0 <= j < 32 -> be_byte (binop_eval Shl v (U (k * 8))) j = if 32 <=? j + k then 0 else be_byte v (j + k).
Proof.
  intros Hk Hj. assert (Hs : uval (U (k * 8)) = k * 8) by (apply uval_U_small; change word_modulus with (2 ^ 256); lia).
  cbn [binop_eval]. unfold u_leb. rewrite Hs. change (uval (U 256)) with 256. destruct (Z.leb_spec 256 (k * 8)); [lia|].
  rewrite <- Hs, be_byte_shl by (rewrite ?Hs, ?Z.mod_mul; lia). by rewrite Hs, Z.div_mul.
Qed.

Lemma be_byte_low_mask l j :
  0 <= l <= 32 -> 0 <= j < 32 -> be_byte (mask_bits MAX (l * 8)) j = if 32 - l <=? j then 255 else 0.
Proof.
  intros Hl Hj. apply byte_eq; [apply be_byte_range|case_match; lia|]. intros i Hi.
  rewrite be_byte_bits, mask_bits_MAX_val, Z.min_l by lia. destruct (Z.leb_spec (32 - l) j).
  - rewrite Z.ones_spec_low by lia. symmetry. apply (Z.ones_spec_low 8). lia.
  - rewrite Z.ones_spec_high by lia. by rewrite Z.bits_0.
Qed.

(** *** Fragments of words *)
Lemma word_expr_fragment_sound w v offset l o e :
  den w = Some v -> 0 <= offset -> 0 <= l -> 0 <= o -> o + l <= 32 ->
  word_expr_fragment w offset l o = Some e ->
  exists x, den e = Some x /\ placed x (fun k => if offset + k <? 32 then be_byte v (offset + k) else 0) o l.
Proof.
  intros Hv Hoff Hl Ho Hle. unfold word_expr_fragment, checked_sub. destruct (Z.leb_spec offset 32) as [Ho32|]; simpl; [|done].
  set (n := Z.min (32 - offset) l). destruct (Z.eqb_spec n 0) as [Hn|Hn]; intros He.
  { simplify_eq. exists ZERO. split; [apply (den_zero model)|]. apply placed_zero.
    intros k Hk. destruct (Z.ltb_spec (offset + k) 32); [lia|done]. }
  enough (Hx : exists x, den e = Some x /\ placed x (fun k => be_byte v (offset + k)) o n).
  { destruct Hx as (x & Hx & Hp). exists x. split; [done|]. apply (placed_extend _ _ _ n); [lia| |].
    - intros k Hk. destruct (Z.ltb_spec (offset + k) 32); [lia|done].
    - eapply placed_ext, Hp. intros k Hk. simpl. destruct (Z.ltb_spec (offset + k) 32); [done|lia]. }
  destruct ((offset =? 0) && (n =? 32) && (o =? 0)) eqn:Ewhole; simplify_eq.
  { apply andb_prop in Ewhole as [[->%Z.eqb_eq Hn32%Z.eqb_eq]%andb_prop ->%Z.eqb_eq]. exists v. split; [done|].
    intros j Hj. rewrite Hn32. destruct (Z.leb_spec 0 j), (Z.ltb_spec j (0 + 32)); try lia. simpl. by rewrite Z.sub_0_r. }
  eexists; split.
  { apply (den_binop model Shl); [|apply (den_constant model)].
    apply (den_binop model And); [|apply (den_constant model)].
    apply (den_binop model Shr); [exact Hv|apply (den_constant model)]. }
  intros j Hj. rewrite be_byte_shifted_left by lia. cbn [binop_eval].
  destruct (Z.leb_spec 32 (j + (32 - (o + n)))).
  { destruct (Z.ltb_spec j (o + n)); [lia|]. by rewrite andb_false_r. }
  rewrite be_byte_and, be_byte_low_mask by lia. fold (binop_eval Shr v (U ((32 - (offset + n)) * 8))).
  rewrite be_byte_shifted_right by lia. destruct (Z.ltb_spec j (o + n)); [|lia].
  destruct (Z.leb_spec (32 - n) (j + (32 - (o + n)))), (Z.leb_spec o j); try lia; simpl; [|by rewrite Z.land_0_r].
  destruct (Z.ltb_spec (j + (32 - (o + n))) (32 - (offset + n))); [lia|].
  rewrite Z.land_comm, land_255 by apply be_byte_range. f_equal. lia.
Qed.

(** Joining two adjacent fragments. *)
Lemma placed_or x y f o l k :
  0 <= l -> 0 <= k -> placed x f o l -> placed y (fun i => f (l + i)) (o + l) k ->
  placed (u_or x y) f o (l + k).
Proof.
  intros Hl Hk Hx Hy j Hj. rewrite be_byte_or, Hx, Hy by lia.
  destruct (Z.leb_spec o j), (Z.ltb_spec j (o + l)), (Z.leb_spec (o + l) j), (Z.ltb_spec j (o + l + k)),
    (Z.ltb_spec j (o + (l + k))); try lia; simpl; try done.
  all: rewrite ?Z.lor_0_r, ?Z.lor_0_l; try done. f_equal. lia.
Qed.

Lemma fragment_parts_sound fragment values offset l o out e x g done_ :
  Forall (fun b => seq_ok b /\ forall off n o e, 0 <= off -> 0 <= n -> 0 <= o -> o + n <= 32 -> usize_ok off ->
            fragment b off n o = Some e ->
            exists x, den e = Some x /\ placed x (fun k => seq_at b (off + k)) o n) values ->
  0 <= offset -> offset <= usize_max -> 0 <= l -> 0 <= o -> 0 <= done_ -> o + done_ + l <= 32 ->
  den out = Some x -> placed x g o done_ ->
  (forall k, 0 <= k < l -> g (done_ + k) = parts_at seq_at values (offset + k)) ->
  fragment_parts fragment values offset l (o + done_) out = Some e ->
  exists y, den e = Some y /\ placed y g o (done_ + l).
Proof.
  intros Hvs. revert offset l out x done_. induction Hvs as [|b vs [Hb Hf] Hvs IH];
    intros offset l out x done_ Hoff Hoffm Hl Ho Hd Hle Hx Hp Hg He; cbn [fragment_parts] in He.
  { simplify_eq. exists x. split; [done|]. apply (placed_extend _ _ _ done_); [lia| |done].
    intros k Hk. replace k with (done_ + (k - done_)) by lia. by rewrite Hg by lia. }
  destruct (Z.eqb_spec l 0) as [->|Hl0].
  { simplify_eq. exists x. by rewrite Z.add_0_r. }
  destruct (len_usize b Hb) as [Hb0 Hb1]. destruct (Z.leb_spec (len b) offset) as [Hge|Hlt].
  { apply (IH (offset - len b) l out x done_); try done; try lia. intros k Hk. rewrite Hg by done. cbn [parts_at].
    destruct (Z.ltb_spec (offset + k) (len b)); [lia|]. f_equal. lia. }
  set (take := Z.min (len b - offset) l) in *.
  destruct (fragment b offset take (o + done_)) as [p|] eqn:Ep; simpl in He; [|done].
  destruct (Hf offset take (o + done_) p) as (y & Hy & Hyp); [lia..|unfold usize_ok; lia|done|].
  rewrite <- Z.add_assoc in He. replace (done_ + l) with (done_ + take + (l - take)) by lia.
  eapply (IH 0 (l - take) _ _ (done_ + take)); [..|exact He]; try lia; [by apply (den_binop model Or)| |].
  - apply placed_or; [lia..|done|]. eapply placed_ext, Hyp. intros k Hk. simpl. rewrite Hg by lia. cbn [parts_at].
    destruct (Z.ltb_spec (offset + k) (len b)); [done|lia].
  - intros k Hk. rewrite <- Z.add_assoc, Hg by lia. cbn [parts_at].
    destruct (Z.ltb_spec (offset + (take + k)) (len b)); [lia|]. f_equal. lia.
Qed.

Lemma concrete_fragment_sound bs offset l o :
  Forall (fun n => 0 <= n < 256) bs -> 0 <= offset -> 0 <= l -> 0 <= o -> o + l <= 32 ->
  exists x, den (placed_word (if offset <? zlen bs then sub_list bs offset (Z.min (zlen bs - offset) l) else []) o) = Some x /\
    placed x (fun k => default 0 (at_z bs (offset + k))) o l.
Proof.
  intros Hbs Hoff Hl Ho Hle. destruct (Z.ltb_spec offset (zlen bs)).
  - set (n := Z.min (zlen bs - offset) l). assert (Hlen : zlen (sub_list bs offset n) = n) by (apply zlen_sub_list; lia).
    destruct (placed_word_sound (sub_list bs offset n) o) as (x & Hx & Hp); [by apply sub_list_Forall|lia..|].
    rewrite Hlen in Hp. exists x. split; [done|]. apply (placed_extend _ _ _ n); [lia| |].
    + intros k Hk. simpl. by rewrite (proj2 (at_z_None bs (offset + k))) by lia.
    + eapply placed_ext, Hp. intros k Hk. simpl. by rewrite at_z_sub_list.
  - destruct (placed_word_sound [] o) as (x & Hx & Hp); [done|unfold zlen; simpl; lia..|].
    exists x. split; [done|]. apply (placed_extend _ _ _ 0); [lia| |].
    + intros k Hk. simpl. by rewrite (proj2 (at_z_None bs (offset + k))) by lia.
    + eapply placed_ext, Hp. intros k Hk. lia.
Qed.

(** The fragment that a word takes from a sequence. *)
Lemma word_fragment_sound b offset l o e :
  seq_ok b -> usize_ok offset -> 0 <= l -> 0 <= o -> o + l <= 32 ->
  word_fragment_at b offset l o = Some e ->
  exists x, den e = Some x /\ placed x (fun k => seq_at b (offset + k)) o l.
Proof.
  revert offset l o e. induction b as [bs|es|w|vs IH|b off n IH|b s m IH] using seq_ind;
    intros offset l o e Hok Hoff Hl Ho Hle; cbn [word_fragment_at];
    (destruct (Z.eqb_spec l 0) as [->|Hl0]; [intros; simplify_eq; exists ZERO; split; [apply (den_zero model)|apply placed_zero; lia]|]);
    intros He; try done.
  - simplify_eq. destruct Hok, Hoff. by apply concrete_fragment_sound.
  - destruct Hok as [v Hv]. eapply word_expr_fragment_sound in He as (x & Hx & Hp); [|done|apply Hoff|done..].
    exists x. split; [done|]. eapply placed_ext, Hp. intros k Hk. simpl. rewrite Hv. destruct Hoff.
    destruct (Z.leb_spec 0 (offset + k)); [|lia]. by destruct (Z.ltb_spec (offset + k) 32).
  - pose proof Hok as [Hvs _]%seq_ok_SConcat. destruct Hoff as [Hoff0 Hoff].
    change (exists x, den e = Some x /\ placed x (fun k => parts_at seq_at vs (offset + k)) o (0 + l)).
    apply (fragment_parts_sound word_fragment_at vs offset l o zero e ZERO _ 0); try done; try lia;
      [|apply placed_zero; lia|by rewrite Z.add_0_r].
    rewrite Forall_forall in *. intros b Hb. split; [by apply Hvs|]. intros. eapply IH; eauto.
  - destruct Hok as (Hb & Hn & Hdef & Hres). unfold sat_sub in He. set (avail := Z.min (Z.max 0 (n - offset)) l) in *.
    assert (Hpast : forall k, avail <= k < l -> seq_at (SSlice b off n) (offset + k) = 0).
    { intros k Hk. simpl. destruct (Z.ltb_spec (offset + k) n); [lia|done]. }
    destruct (Z.eqb_spec avail 0).
    { simplify_eq. exists ZERO. split; [apply (den_zero model)|]. apply placed_zero. intros k Hk. apply Hpast. lia. }
    destruct (eval_usize off) as [base|] eqn:Eb; simpl in He; [|done].
    apply eval_usize_sound in Eb as (Hval & _ & Hbase). unfold checked_add in He.
    destruct (Z.leb_spec (base + offset) usize_max); simpl in He; [|done]. unfold usize_ok in *.
    eapply IH in He as (x & Hx & Hp); [|done|lia..]. exists x. split; [done|].
    apply (placed_extend _ _ _ avail); [lia|done|]. eapply placed_ext, Hp. intros k Hk. simpl. rewrite Hval.
    destruct (Z.ltb_spec (offset + k) n); [f_equal; lia|lia].
Qed.

(** *** Whole words *)
Lemma byte_is_byte_expr b i : seq_ok b -> usize_ok i -> is_byte_expr (byte b i).
Proof. intros. exists (seq_at b i). split; [by apply seq_at_range|by apply byte_sound]. Qed.

Lemma from_bytes_placed es :
  Forall is_byte_expr es ->
  exists e w, from_bytes es = Ret e /\ den e = Some w /\
    placed w (fun k => match at_z es k with Some e => den_val e | None => 0 end) 0 32.
Proof.
  intros Hes. destruct (from_bytes_total es (byte_expr_constants es Hes)) as [e He].
  assert (Hd : Forall2 (fun e v => den e = Some v) es (map (fun e => U (den_val e)) es)).
  { apply Forall2_fmap_r, Forall_Forall2_diag. eapply Forall_impl; [exact Hes|]. intros x Hx. by apply is_byte_expr_val. }
  destruct (from_bytes_sound model _ _ _ He Hd) as (w & Hw & Hb). exists e, w. split_and!; [done..|].
  intros j Hj. rewrite <- (Z2Nat.id j), Hb by lia. unfold nth_byte. rewrite Z2Nat.id by lia.
  destruct (Z.leb_spec 0 j), (Z.ltb_spec j (0 + 32)); try lia. simpl. rewrite Z.sub_0_r.
  unfold at_z. destruct (Z.ltb_spec j 0); [lia|]. rewrite list_lookup_fmap.
  destruct (es !! Z.to_nat j) as [x|] eqn:E; [|done]. simpl.
  rewrite Forall_forall in Hes. destruct (is_byte_expr_val x) as [Hr _]; [by eapply Hes, list_elem_of_lookup_2|].
  rewrite low_byte_of_small; rewrite uval_byte; done || lia.
Qed.

(** A word from 32 byte expressions that are given by index. *)
Lemma from_bytes_range (e : Z -> SymExpr) (f : Z -> Z) :
  (forall i, 0 <= i < 32 -> 0 <= f i < 256 /\ den (e i) = Some (U (f i))) ->
  exists x w, from_bytes (map e (range 32)) = Ret x /\ den x = Some w /\ placed w f 0 32.
Proof.
  intros He. destruct (from_bytes_placed (map e (range 32))) as (x & w & Hx & Hw & Hp).
  { apply Forall_map, Forall_forall. intros i Hi%elem_of_range. exists (f i). by apply He. }
  exists x, w. split_and!; [done..|]. eapply placed_ext, Hp. intros k Hk. cbv beta.
  rewrite at_z_map, at_z_range by done. simpl. destruct (He k Hk) as [Hf Hd].
  by rewrite (den_val_Some _ _ Hd), uval_byte.
Qed.

Lemma word_of_bytes_sound b offset :
  seq_ok b -> usize_ok offset -> offset + 32 <= usize_max ->
  exists e w, word_of_bytes b offset = Ret e /\ den e = Some w /\ placed w (fun k => seq_at b (offset + k)) 0 32.
Proof.
  intros Hb [Ho _] Hsum. apply from_bytes_range. intros i Hi. unfold usize_add.
  rewrite Z.mod_small by (unfold usize_max in *; lia).
  split; [by apply seq_at_range|]. apply byte_sound; [done|]. unfold usize_ok. lia.
Qed.

(** The word read at an offset consists of the 32 bytes there. *)
Lemma word_at_sound b offset :
  seq_ok b -> usize_ok offset -> offset + 32 <= usize_max ->
  exists e w, word_at b offset = Ret e /\ den e = Some w /\ placed w (fun k => seq_at b (offset + k)) 0 32.
Proof.
  revert offset. induction b as [bs|es|w|vs IH|b o n IH|b s m IH] using seq_ind; intros offset Hok Ho Hsum;
    cbn [word_at]; match type of Hok with seq_ok ?b => destruct (word_fragment_at b offset 32 0) as [e|] eqn:Ef end;
    try (apply word_fragment_sound in Ef as (x & Hx & Hp); [by exists e, x|done..|lia|lia]);
    try by apply word_of_bytes_sound.
  - done.
  - destruct Hok as [Hes _], Ho as [Ho _]. apply from_bytes_range. intros i Hi. unfold usize_add.
    rewrite Z.mod_small by (unfold usize_max in *; lia). simpl.
    destruct (at_z es (offset + i)) as [e|] eqn:E; simpl; [|split; [lia|apply (den_zero model)]].
    rewrite Forall_forall in Hes. by apply is_byte_expr_val, Hes, (at_z_elem _ (offset + i)).
  - pose proof Hok as [v Hv]. destruct (Z.eqb_spec offset 0) as [->|]; [by simpl in Ef|].
    destruct (Z.leb_spec 32 offset); [|by apply word_of_bytes_sound].
    exists zero, ZERO. split_and!; [done|apply (den_zero model)|]. apply placed_zero. intros k Hk. simpl.
    destruct (Z.ltb_spec (offset + k) 32); [lia|]. by rewrite andb_false_r.
  - pose proof Hok as (Hb & Hn & Hdef & Hres). unfold checked_add at 1.
    destruct (Z.leb_spec (offset + 32) usize_max); [|lia].
    destruct (Z.leb_spec (offset + 32) n); [|by apply word_of_bytes_sound].
    destruct (eval_usize o) as [base|] eqn:Eb; simpl; [|by apply word_of_bytes_sound].
    pose proof (eval_usize_sound _ _ Eb) as (Hval & _ & Hbase). destruct Hres as [Hend _].
    unfold checked_add. destruct (Z.leb_spec (base + offset) usize_max); [|by apply word_of_bytes_sound].
    unfold usize_ok in *. destruct (IH (base + offset)) as (e & w & He & Hw & Hp); [done|lia..|].
    exists e, w. split_and!; [done..|]. eapply placed_ext, Hp. intros k Hk. simpl. rewrite Hval.
    destruct (Z.ltb_spec (offset + k) n); [f_equal; lia|lia].
Qed.

Lemma byte_val b i : seq_ok b -> usize_ok i -> den_val (byte b i) = seq_at b i.
Proof. intros Hb Hi. rewrite (den_val_Some _ _ (byte_sound b i Hb Hi)). apply uval_byte. by apply seq_at_range. Qed.

Lemma right_aligned_sound b offset l :
  seq_ok b -> usize_ok offset -> 0 <= l <= 32 -> offset + l <= usize_max ->
  exists e w, right_aligned_word b offset l = Ret e /\ den e = Some w /\
    placed w (fun k => seq_at b (offset + k)) (32 - l) l.
Proof.
  intros Hb Ho Hl Hsum. unfold right_aligned_word. rewrite Z.min_l by lia.
  destruct (word_fragment_at b offset l (32 - l)) as [e|] eqn:Ef.
  { apply word_fragment_sound in Ef as (x & Hx & Hp); [by exists e, x|done|done|lia..]. }
  destruct (from_bytes_placed (map (fun _ => zero) (range (32 - l)) ++
    map (fun idx => byte b (usize_add offset idx)) (range l))) as (e & w & He & Hw & Hp).
  { apply Forall_app; split; apply Forall_map, Forall_forall; intros i Hi%elem_of_range.
    - exists 0. split; [lia|apply (den_zero model)].
    - unfold usize_add. destruct Ho. rewrite Z.mod_small by (unfold usize_max in *; lia).
      apply byte_is_byte_expr; [done|]. unfold usize_ok. lia. }
  exists e, w. split_and!; [done..|]. intros j Hj. rewrite Hp by done.
  destruct (Z.leb_spec 0 j), (Z.ltb_spec j (0 + 32)); try lia. simpl. rewrite Z.sub_0_r.
  rewrite at_z_app, zlen_map, zlen_range by lia. destruct (Z.leb_spec (32 - l) j).
  - destruct (Z.ltb_spec j (32 - l)); [lia|]. destruct (Z.ltb_spec j (32 - l + l)); [|lia]. simpl.
    rewrite at_z_map, at_z_range by lia. simpl. unfold usize_add. destruct Ho.
    rewrite Z.mod_small by (unfold usize_max in *; lia).
    by apply byte_val; [|unfold usize_ok; lia].
  - destruct (Z.ltb_spec j (32 - l)); [|lia]. rewrite at_z_map, at_z_range by lia. simpl.
    by rewrite (den_val_Some _ _ (den_zero model)).
Qed.

(** *** All bytes *)
Definition seq_values (b : SymBytes) : list Z := map (seq_at b) (range (len b)).

Lemma range_usize b i : seq_ok b -> i ∈ range (len b) -> usize_ok i.
Proof. intros Hb Hi%elem_of_range. destruct (len_usize b Hb). unfold usize_ok. lia. Qed.

Lemma materialize_sound b :
  seq_ok b -> Forall2 (fun e n => den e = Some (U n)) (materialize b) (seq_values b) /\ Forall is_byte_expr (materialize b).
Proof.
  intros Hb. unfold materialize, seq_values. split.
  - apply Forall2_fmap, Forall_Forall2_diag, Forall_forall. intros i Hi. apply byte_sound; [done|by apply (range_usize b)].
  - apply Forall_map, Forall_forall. intros i Hi. apply byte_is_byte_expr; [done|by apply (range_usize b)].
Qed.

Lemma materialize_vals b : seq_ok b -> map den_val (materialize b) = seq_values b.
Proof.
  intros Hb. unfold materialize, seq_values. rewrite map_map. apply map_ext_in. intros i Hi%list_elem_of_In.
  apply byte_val; [done|by apply (range_usize b)].
Qed.

Lemma same_bytes_sound b c : same_bytes b c = true -> seq_ok b -> seq_ok c -> seq_values b = seq_values c.
Proof.
  unfold same_bytes, seq_values. intros [Hl%Z.eqb_eq Hs]%andb_prop Hb Hc. rewrite <- Hl. apply map_ext_in.
  intros i Hi. rewrite forallb_forall in Hs. apply Hs in Hi as He. apply expr_eqb_eq in He.
  apply list_elem_of_In in Hi. pose proof (range_usize b i Hb Hi) as Hu.
  rewrite <- (byte_val b i), <- (byte_val c i) by done. congruence.
Qed.

Lemma eval_word_den e v : den e = Some v -> eval_model_word model e = inl v.
Proof.
  intros Hv. unfold eval_model_word.
  destruct (proj1 (eval_agrees model) e new_evaluator (new_evaluator_ok model)) as [_ ->]. by rewrite Hv.
Qed.

(** Evaluation under the model yields the bytes. *)
Lemma eval_model_sound b : seq_ok b -> SBytes.eval_model model b = Ret (inl (seq_values b)).
Proof.
  intros Hb. assert (Hgo : eval_bytes model b (range (len b)) = Ret (inl (seq_values b))).
  { unfold seq_values. assert (Hall : Forall usize_ok (range (len b))).
    { apply Forall_forall. intros i. by apply range_usize. }
    induction Hall as [|i idxs Hi _ IH]; [done|]. cbn [eval_bytes map].
    rewrite (eval_word_den _ _ (byte_sound b i Hb Hi)). pose proof (seq_at_range b i Hb).
    unfold to_u8. rewrite uval_byte by done. destruct (Z.ltb_spec (seq_at b i) 256); [|lia].
    cbn [obind]. by rewrite IH. }
  destruct b as [bs| | | | |]; try exact Hgo. cbn [SBytes.eval_model]. do 2 f_equal. unfold seq_values.
  apply list_eq. intros i. rewrite list_lookup_fmap. simpl. unfold range, zlen. rewrite Nat2Z.id, list_lookup_fmap.
  destruct (decide (i < length bs)%nat).
  - rewrite lookup_seq_lt by done. simpl. unfold at_z. destruct (Z.ltb_spec (Z.of_nat i) 0); [lia|].
    rewrite Nat2Z.id. by destruct (lookup_lt_is_Some_2 bs i) as [n ->].
  - by rewrite lookup_seq_ge, lookup_ge_None_2 by lia.
Qed.

(** *** Concrete ranges *)

(** The bytes [f] gives on [0..l], if the read succeeded. *)
Definition reads (r : Outcome (option (list Z))) (l : Z) (f : Z -> Z) : Prop :=
  r = Ret None \/ r = Ret (Some (map f (range l))).

Lemma range_shift n k : 0 <= n -> 0 <= k -> range (n + k) = range n ++ map (Z.add n) (range k).
Proof.
  intros. unfold range. rewrite Z2Nat.inj_add, seq_app, map_app, map_map by done. f_equal.
  replace (0 + Z.to_nat n)%nat with (Z.to_nat n + 0)%nat by lia. rewrite <- fmap_add_seq.
  change (map Z.of_nat (map (Nat.add (Z.to_nat n)) (seq 0 (Z.to_nat k))) = map (fun x => n + Z.of_nat x) (seq 0 (Z.to_nat k))).
  rewrite map_map. apply map_ext. intros. lia.
Qed.

Lemma reads_ext r l f g : (forall i, 0 <= i < l -> f i = g i) -> reads r l f -> reads r l g.
Proof.
  intros Hfg [->| ->]; [by left|right]. do 2 f_equal. apply map_ext_in. intros i Hi%list_elem_of_In%elem_of_range. auto.
Qed.

Lemma reads_len r l l' f : l = l' -> reads r l' f -> reads r l f.
Proof. by intros ->. Qed.

Lemma zeros_map l (f : Z -> Z) : (forall i, 0 <= i < l -> f i = 0) -> zeros l = map f (range l).
Proof.
  intros Hf. unfold zeros, range. rewrite map_map.
  rewrite (map_ext_in _ (fun _ => 0)) by (intros i Hi%in_seq; apply Hf; lia).
  generalize 0%nat. induction (Z.to_nat l) as [|n IH]; intros k; simpl; [done|]. by rewrite <- IH.
Qed.

Lemma reads_app r l l' f :
  0 <= l -> 0 <= l' -> (forall i, l <= i < l + l' -> f i = 0) -> reads r l f ->
  reads (let* p := r in Ret (option_map (fun p => p ++ zeros l') p)) (l + l') f.
Proof.
  intros Hl Hl' Hf [->| ->]; [by left|right]. simpl. do 2 f_equal. rewrite range_shift, map_app, map_map by done. f_equal.
  apply zeros_map. intros. apply Hf. lia.
Qed.

Lemma slice_read b offset l :
  seq_ok b -> usize_ok offset -> usize_ok l -> offset + l <= usize_max -> resolves b offset = false ->
  reads (let* s := slice_concrete b offset l in concrete_expr_bytes (materialize s)) l (fun i => seq_at b (offset + i)).
Proof.
  intros Hb Ho Hl Hs Hr. destruct (slice_concrete_spec b offset l) as (s & -> & Hok & Hlen & Hat); [done..|by left|]. simpl.
  destruct (materialize_sound s Hok) as [_ Hm].
  destruct (concrete_bytes_total _ (byte_expr_constants _ Hm)) as [[ns|] Hc]; rewrite Hc; [right|by left].
  rewrite (concrete_exprs_vals _ _ Hm Hc), materialize_vals by done. do 2 f_equal. unfold seq_values. rewrite Hlen.
  apply map_ext_in. intros i Hi%list_elem_of_In%elem_of_range. by apply Hat.
Qed.

Lemma append_exprs_sound es offset l :
  Forall is_byte_expr es -> usize_ok offset -> usize_ok l -> offset + l <= usize_max ->
  reads (append_exprs es offset (range l)) l (fun i => match at_z es (offset + i) with Some e => den_val e | None => 0 end).
Proof.
  intros Hes [Ho _] Hl Hs. unfold reads.
  assert (Hall : Forall (fun i => offset + i <= usize_max) (range l)).
  { apply Forall_forall. intros i Hi%elem_of_range. lia. }
  induction Hall as [|i idxs Hi _ IH]; [by right|]. cbn [append_exprs map]. unfold checked_add.
  destruct (Z.leb_spec (offset + i) usize_max); [|lia]. simpl.
  destruct (at_z es (offset + i)) as [e|] eqn:E.
  - destruct (as_const e) as [c|] eqn:Ec; [|by left].
    pose proof (as_const_den' model _ _ Ec) as Hc. rewrite (den_val_Some _ _ Hc).
    rewrite Forall_forall in Hes. destruct (is_byte_expr_val e) as [Hr _]; [by eapply Hes, at_z_elem|].
    rewrite (den_val_Some _ _ Hc) in Hr. unfold to_u8. destruct (Z.ltb_spec (uval c) 256); [|lia].
    simpl. destruct IH as [->| ->]; [by left|by right].
  - destruct IH as [->| ->]; [by left|by right].
Qed.

Lemma append_parts_sound append values offset l :
  Forall (fun b => seq_ok b /\ forall o take, usize_ok o -> 0 < take -> o + take <= len b ->
            reads (append b o take) take (fun i => seq_at b (o + i))) values ->
  usize_ok offset -> 0 <= l ->
  reads (append_parts append values offset l) l (fun i => parts_at seq_at values (offset + i)).
Proof.
  intros Hvs. revert offset l. induction Hvs as [|b vs [Hb Hf] Hvs IH]; intros offset l Ho Hl; cbn [append_parts].
  { right. do 2 f_equal. by apply zeros_map. }
  destruct (Z.eqb_spec l 0) as [->|Hl0]; [by right|]. destruct (len_usize b Hb) as [Hb0 Hb1]. unfold usize_ok in *.
  destruct (Z.leb_spec (len b) offset) as [Hge|Hlt].
  { eapply reads_ext, IH; [|lia..]. intros i Hi. cbn [parts_at].
    destruct (Z.ltb_spec (offset + i) (len b)); [lia|]. f_equal. lia. }
  set (take := Z.min (len b - offset) l). destruct (Hf offset take) as [->| ->]; [lia..|by left|]. cbn [obind].
  apply (reads_len _ _ (take + (l - take))); [lia|].
  destruct (IH 0 (l - take)) as [->| ->]; [lia..|by left|right]. cbn [obind option_map]. do 2 f_equal.
  rewrite range_shift, map_app, map_map by lia. f_equal.
  - apply map_ext_in. intros i Hi%list_elem_of_In%elem_of_range. cbn [parts_at].
    destruct (Z.ltb_spec (offset + i) (len b)); [done|lia].
  - apply map_ext_in. intros i Hi%list_elem_of_In%elem_of_range. cbn [parts_at].
    destruct (Z.ltb_spec (offset + (take + i)) (len b)); [lia|]. f_equal. lia.
Qed.

Lemma sub_list_map bs offset n :
  0 <= offset -> 0 <= n -> offset + n <= zlen bs -> sub_list bs offset n = map (fun i => default 0 (at_z bs (offset + i))) (range n).
Proof.
  intros Ho Hn Hle. apply list_eq. intros i. unfold range, sub_list. rewrite map_map, list_lookup_fmap.
  unfold zlen in Hle. destruct (decide (i < Z.to_nat n)%nat).
  - rewrite lookup_take_lt, lookup_drop, lookup_seq_lt by lia. simpl. unfold at_z.
    destruct (Z.ltb_spec (offset + Z.of_nat i) 0); [lia|].
    replace (Z.to_nat (offset + Z.of_nat i)) with (Z.to_nat offset + i)%nat by lia.
    by destruct (lookup_lt_is_Some_2 bs (Z.to_nat offset + i)) as [x ->]; [lia|].
  - rewrite lookup_take_ge, lookup_seq_ge by lia. done.
Qed.

(** A concrete range is either refused or consists of the bytes there. *)
Lemma append_concrete_sound b offset l :
  seq_ok b -> usize_ok offset -> usize_ok l -> offset + l <= usize_max ->
  reads (append_concrete_range b offset l) l (fun i => seq_at b (offset + i)).
Proof.
  revert offset l. induction b as [bs|es|w|vs IH|b o n IH|b s m IH] using seq_ind; intros offset l Hok Ho Hl Hs;
    cbn [append_concrete_range]; (destruct (Z.eqb_spec l 0) as [->|Hl0]; [by right|]).
  - unfold usize_ok in *. destruct (Z.leb_spec (zlen bs) offset).
    + right. do 2 f_equal. apply zeros_map. intros i Hi. simpl. by rewrite (proj2 (at_z_None _ _)) by lia.
    + set (take := Z.min (zlen bs - offset) l). apply (reads_len _ _ (take + (l - take))); [lia|].
      apply (reads_app (Ret (Some (sub_list bs offset take)))); [lia..| |].
      * intros i Hi. simpl. by rewrite (proj2 (at_z_None _ _)) by lia.
      * right. by rewrite sub_list_map by lia.
  - destruct Hok as [Hes _]. eapply reads_ext, append_exprs_sound; done.
  - by apply slice_read.
  - pose proof Hok as [Hvs _]%seq_ok_SConcat. apply append_parts_sound; [|done|apply Hl].
    rewrite Forall_forall in *. intros b Hb. split; [by apply Hvs|]. intros o take Ho' Ht Hle.
    destruct (len_usize b (Hvs b Hb)). unfold usize_ok in *. apply IH; [done|by apply Hvs|lia..].
  - pose proof Hok as (Hb & Hn & Hdef & Hres). unfold usize_ok in *. destruct (Z.leb_spec n offset).
    { right. do 2 f_equal. apply zeros_map. intros i Hi. simpl. destruct (Z.ltb_spec (offset + i) n); [lia|done]. }
    set (take := Z.min (n - offset) l). destruct (eval_usize o) as [base|] eqn:Eb.
    2:{ apply slice_read; unfold usize_ok; try lia; [done|]. simpl. by rewrite Eb. }
    pose proof (eval_usize_sound _ _ Eb) as (Hval & _ & Hbase). unfold usize_ok in *. destruct Hres as [Hend _].
    cbn [mbind option_bind]. unfold checked_add. destruct (Z.leb_spec (base + offset) usize_max); [|lia].
    apply (reads_len _ _ (take + (l - take))); [lia|]. apply reads_app; [lia..| |].
    + intros i Hi. simpl. destruct (Z.ltb_spec (offset + i) n); [lia|done].
    + eapply reads_ext, IH; [|done|lia..]. intros i Hi. simpl. rewrite Hval.
      destruct (Z.ltb_spec (offset + i) n); [f_equal; lia|lia].
  - by apply slice_read.
Qed.

(** *** Prefixes *)

(** Comparing bytes by [eq] is exact unless both are hashes. *)
Definition comparable (l r : SymExpr) : bool := no_hash_leaf l || no_hash_leaf r.

Definition same_byte (b p : SymBytes) (i : Z) : bool := seq_at b i =? seq_at p i.

Lemma bytes_eq_sound b p i :
  seq_ok b -> seq_ok p -> usize_ok i -> comparable (byte b i) (byte p i) = true ->
  denb (eq_exprs (byte b i) (byte p i)) = Some (same_byte b p i).
Proof.
  intros Hb Hp Hi Hc. unfold same_byte. rewrite <- byte_words_eqb by (by apply seq_at_range).
  apply (cmp_refines model Eq _ _ Hc). by apply (den_cmp_intro model Eq); apply byte_sound.
Qed.

Lemma const_byte_fits e c : is_byte_expr e -> as_const e = Some c -> to_u8 c = Ret (den_val e).
Proof.
  intros He Hc. apply is_byte_expr_val in He as [Hr _]. apply as_const_den' with (model := model) in Hc.
  rewrite (den_val_Some _ _ Hc) in *. unfold to_u8. destruct (Z.ltb_spec (uval c) 256); [done|lia].
Qed.

Lemma prefix_conditions_sound b p idxs :
  seq_ok b -> seq_ok p -> Forall (fun i => usize_ok i /\ comparable (byte b i) (byte p i) = true) idxs ->
  exists r, prefix_conditions b p idxs = Ret r /\
    match r with
    | Some cs => denote_all model cs = Some (forallb (same_byte b p) idxs)
    | None => forallb (same_byte b p) idxs = false
    end.
Proof.
  intros Hb Hp Hall. induction Hall as [|i idxs [Hi Hc] _ (r & Hr & IH)]; [by exists (Some [])|].
  cbn [prefix_conditions forallb]. rewrite Hr.
  pose proof (byte_val b i Hb Hi) as Hbv. pose proof (byte_val p i Hp Hi) as Hpv.
  destruct (expr_eqb_spec (byte b i) (byte p i)) as [Heq|Hne].
  { exists r. split; [done|]. unfold same_byte at 1 3. rewrite <- Hbv, <- Hpv, Heq, Z.eqb_refl. done. }
  assert (Hpush : exists r', (let* cs := Ret r in Ret (option_map (cons (eq_exprs (byte b i) (byte p i))) cs)) = Ret r' /\
    match r' with
    | Some cs => denote_all model cs = Some (same_byte b p i && forallb (same_byte b p) idxs)
    | None => same_byte b p i && forallb (same_byte b p) idxs = false
    end).
  { eexists; split; [done|]. destruct r as [cs|]; simpl; [|by rewrite IH, andb_false_r].
    rewrite bytes_eq_sound by done. destruct (same_byte b p i); [by rewrite IH|done]. }
  destruct (as_const (byte b i)) as [x|] eqn:Ex; [|done]. destruct (as_const (byte p i)) as [y|] eqn:Ey; [|done].
  rewrite (const_byte_fits _ _ (byte_is_byte_expr b i Hb Hi) Ex), (const_byte_fits _ _ (byte_is_byte_expr p i Hp Hi) Ey).
  cbn [obind]. rewrite Hbv, Hpv. unfold same_byte at 1 3. destruct (seq_at b i =? seq_at p i); [by exists r|by exists None].
Qed.

Definition has_prefix (b p : SymBytes) : bool := forallb (same_byte b p) (range (len p)).

Lemma prefix_condition_sound b p :
  seq_ok b -> seq_ok p -> (forall i, 0 <= i < len p -> comparable (byte b i) (byte p i) = true) ->
  exists r, prefix_condition b p = Ret r /\
    match r with
    | Some c => len p <= len b /\ denb c = Some (has_prefix b p)
    | None => len b < len p \/ has_prefix b p = false
    end.
Proof.
  intros Hb Hp Hc. unfold prefix_condition. destruct (Z.ltb_spec (len b) (len p)); [exists None; auto|].
  destruct (prefix_conditions_sound b p (range (len p)) Hb Hp) as (r & -> & Hr).
  { apply Forall_forall. intros i Hi. split; [by apply (range_usize p)|by apply Hc, elem_of_range]. }
  eexists; split; [done|]. destruct r as [cs|]; simpl; [|by right]. split; [done|]. by apply den_and.
Qed.
End Semantics.

(** ** Independence of the remaining gas

    Two models that give the same values to the variables (but not to the gas
    that was left) see the same bytes in a sequence that passes the gas check. *)
Section GasIndependence.
Context `{SA : SignedArith, HF : HashFns}.
Variables m1 m2 : SymbolicModel.
Import SBytes.

Fixpoint vars_agree (e : SymExpr) : Prop :=
  match e with
  | EConst _ | EGasLeft _ => True
  | EVar s | EHash s _ _ => m1 s = m2 s
  | EKeccak _ l bs => vars_agree l /\ fold_right (fun b P => vars_agree b /\ P) True bs
  | ENot e => vars_agree e
  | EBinOp _ l r => vars_agree l /\ vars_agree r
  | ETernOp _ l r m => vars_agree l /\ vars_agree r /\ vars_agree m
  | EIte c t f => bvars_agree c /\ vars_agree t /\ vars_agree f
  end
with bvars_agree (b : SymBoolExpr) : Prop :=
  match b with
  | BConst _ => True
  | BNot b => bvars_agree b
  | BAnd bs => fold_right (fun b P => bvars_agree b /\ P) True bs
  | BCmp _ l r => vars_agree l /\ vars_agree r
  end.

Lemma gas_free_bytes n bs :
  Forall (fun e => contains_gasleft e = false -> vars_agree e -> denote_word m1 e = denote_word m2 e) bs ->
  existsb contains_gasleft bs = false -> fold_right (fun b P => vars_agree b /\ P) True bs ->
  denote_bytes m1 n bs = denote_bytes m2 n bs.
Proof.
  intros Hbs. revert n. induction Hbs as [|b bs Hb _ IH]; intros [|n]; simpl; try done.
  intros [H1 H2]%orb_false_iff [H3 H4]. by rewrite Hb, IH.
Qed.

Lemma gas_free_denote :
  (forall e, contains_gasleft e = false -> vars_agree e -> denote_word m1 e = denote_word m2 e) /\
  (forall b, bcontains_gasleft b = false -> bvars_agree b -> denote_bool m1 b = denote_bool m2 b).
Proof.
  apply expr_bexpr_ind; try done.
  - intros s _ Hs. simpl in *. unfold model_value. by rewrite Hs.
  - intros n l bs Hl Hbs [H1 H2]%orb_false_iff [H3 H4]. rewrite !denote_EKeccak, Hl by done.
    destruct (denote_word m2 l); [|done]. case_match; [|done]. f_equal. by apply gas_free_bytes.
  - intros n a bs _ _ Hs. simpl in *. unfold model_value. by rewrite Hs.
  - intros e He H1 H2. simpl in *. by rewrite He.
  - intros op l r Hl Hr [H1 H2]%orb_false_iff [H3 H4]. simpl. by rewrite Hl, Hr.
  - intros op l r m Hl Hr Hm [[H1 H2]%orb_false_iff H3]%orb_false_iff (H4 & H5 & H6). simpl. by rewrite Hl, Hr, Hm.
  - intros c t f Hc Ht Hf [[H1 H2]%orb_false_iff H3]%orb_false_iff (H4 & H5 & H6). simpl. by rewrite Hc, Ht, Hf.
  - intros b Hb H1 H2. simpl in *. by rewrite Hb.
  - intros bs Hbs. rewrite !denote_BAnd. simpl.
    induction Hbs as [|b bs Hb _ IH]; [done|]. intros [H1 H2]%orb_false_iff [H3 H4]. simpl. rewrite Hb by done.
    destruct (denote_bool m2 b) as [[]|]; [by apply IH|done|done].
  - intros op l r Hl Hr [H1 H2]%orb_false_iff [H3 H4]. simpl. by rewrite Hl, Hr.
Qed.

Fixpoint seq_vars_agree (b : SymBytes) : Prop :=
  match b with
  | SConcrete _ => True
  | SExprs es => Forall vars_agree es
  | SWord w => vars_agree w
  | SConcat vs => fold_right (fun b P => seq_vars_agree b /\ P) True vs
  | SSlice b o _ => seq_vars_agree b /\ vars_agree o
  | SSized b s _ => seq_vars_agree b /\ vars_agree s
  end.

Lemma gas_free_val e : contains_gasleft e = false -> vars_agree e -> den_val m1 e = den_val m2 e.
Proof. intros H1 H2. unfold den_val. by rewrite (proj1 gas_free_denote e H1 H2). Qed.

(** No part mentions the gas: the structural pre-check. *)
Lemma gas_free_backing b i :
  shape_depends_on_gasleft b = false -> backing_contains_gasleft b = false -> seq_vars_agree b ->
  seq_at m1 b i = seq_at m2 b i.
Proof.
  revert i. induction b as [bs|es|w|vs IH|b o l IH|b s m IH] using seq_ind; intros i; simpl; try done.
  - intros _ Hg Ha. destruct (at_z es i) as [e|] eqn:E; [|done]. apply at_z_elem in E. apply gas_free_val.
    + apply not_true_iff_false. intros He. apply not_true_iff_false in Hg as []. apply existsb_exists.
      exists e. by rewrite <- list_elem_of_In.
    + rewrite Forall_forall in Ha. auto.
  - intros _ Hg Ha. by rewrite (proj1 gas_free_denote w Hg Ha).
  - revert i. induction IH as [|b vs Hb _ IHvs]; intros i; simpl; [done|].
    intros [H1 H2]%orb_false_iff [H3 H4]%orb_false_iff [H5 H6]. rewrite Hb by done. by rewrite IHvs.
  - intros [H1 H2]%orb_false_iff H3 [H4 H5]. by rewrite (gas_free_val o), IH.
  - intros [H1 H2]%orb_false_iff H3 [H4 H5]. by rewrite (gas_free_val s), IH.
Qed.

Lemma gas_free_values {SL : SignedArithLaws} b :
  bytes_contain_gasleft b = false -> seq_ok m1 b -> seq_ok m2 b -> seq_vars_agree b ->
  (forall i, 0 <= i < len b -> vars_agree (byte b i)) -> seq_values m1 b = seq_values m2 b.
Proof.
  unfold bytes_contain_gasleft, seq_values. intros Hg H1 H2 Ha Hab. apply map_ext_in. intros i Hi.
  destruct (shape_depends_on_gasleft b) eqn:Es; [done|]. destruct (backing_contains_gasleft b) eqn:Eb; [|by apply gas_free_backing].
  simpl in Hg. pose proof Hi as Hu. apply list_elem_of_In in Hu. apply elem_of_range in Hu as Hr.
  apply (range_usize m1 b i H1) in Hu. rewrite <- (byte_val m1 b i), <- (byte_val m2 b i) by done.
  apply gas_free_val; [|auto]. apply not_true_iff_false. intros He. apply not_true_iff_false in Hg as [].
  apply existsb_exists. eauto.
Qed.
End GasIndependence.
