(* ===== verification/SymStorage.v ===== *)
(** * SymStorage: keys of contract storage

    Models the storage part of runtime/expr/expr.rs ([select_storage_write],
    [storage_key_eq] and the recognition of Solidity's storage layout) and of
    runtime/address.rs.  A storage key is a slot number, the hash of a mapping
    key and a slot (64 bytes), or such a hash plus an offset.  The executor
    decides whether two keys are equal from their layouts, assuming that hashes
    do not collide and that the regions behind them do not overlap.

    [Preimages] is the table of [SymCx] that remembers the 64-byte preimages of
    hashes that were computed on constants.  Recursion along nested mappings is
    not structural: it has fuel, and running out of it is the stack overflow of
    the source. *)

From Stdlib Require Import ZArith Lia Bool.
From stdpp Require Import base list option gmap sets.
From S2P Require Import Prelude SymWord SymExpr SymSimpl SymSound SymCmp SymBytes SymSeq.
Local Open Scope Z_scope.
Local Open Scope outcome_scope.

Abbreviation Preimages := (gmap Z (list SymExpr)).

Fixpoint contains_keccak (e : SymExpr) : bool :=
  match e with
  | EKeccak _ _ _ => true
  | EConst _ | EVar _ | EGasLeft _ => false
  | EHash _ _ bs => existsb contains_keccak bs
  | ENot e => contains_keccak e
  | EBinOp _ l r => contains_keccak l || contains_keccak r
  | ETernOp _ l r m => contains_keccak l || contains_keccak r || contains_keccak m
  | EIte c t f => bcontains_keccak c || contains_keccak t || contains_keccak f
  end
with bcontains_keccak (b : SymBoolExpr) : bool :=
  match b with
  | BConst _ => false
  | BNot b => bcontains_keccak b
  | BAnd bs => existsb bcontains_keccak bs
  | BCmp _ l r => contains_keccak l || contains_keccak r
  end.

Module SStorage.
Section Keys.
Context `{SA : SignedArith, HF : HashFns}.
Variable pre : Preimages.

Definition concrete_keccak_preimage (hash : U256) : option (list SymExpr) := pre !! uval hash.

Definition storage_mapping_key_bytes (e : SymExpr) : option (list SymExpr) :=
  match e with
  | EKeccak _ len bytes =>
      match as_const len with
      | Some n => if u_eqb n (U 64) && (64 <=? zlen bytes) then Some bytes else None
      | None => None
      end
  | EConst hash => concrete_keccak_preimage hash
  | _ => None
  end.

(** The slices [bytes[..32]] and [bytes[32..64]], which panic on fewer bytes. *)
Definition key_half (bytes : list SymExpr) : Outcome (list SymExpr) :=
  if zlen bytes <? 32 then Panic else Ret (take 32 bytes).
Definition slot_half (bytes : list SymExpr) : Outcome (list SymExpr) :=
  if zlen bytes <? 64 then Panic else Ret (take 32 (drop 32 bytes)).

Definition slot_of_bytes (bytes : list SymExpr) : Outcome SymExpr :=
  let* half := slot_half bytes in from_bytes half.

Record StorageMappingKey := mkMappingKey {
  map_key : SymExpr;
  map_key_bytes : option (list SymExpr);
  map_slot : SymExpr
}.

Definition storage_mapping_key (e : SymExpr) : Outcome (option StorageMappingKey) :=
  match storage_mapping_key_bytes e with
  | None => Ret None
  | Some bytes =>
      let* key_bytes := key_half bytes in
      let* preserve :=
        (if forallb (fun b => bool_decide (is_Some (as_const b))) key_bytes then Ret None
         else let* w := word_from_extracted_bytes key_bytes in
              Ret (match w with None => Some key_bytes | Some _ => None end)) in
      let* key := from_bytes key_bytes in
      let* slot := slot_of_bytes bytes in
      Ret (Some (mkMappingKey key preserve slot))
  end.

Fixpoint storage_mapping_root_slot (fuel : nat) (e : SymExpr) : Outcome (option U256) :=
  match fuel with
  | O => Panic
  | S fuel =>
      match storage_mapping_key_bytes e with
      | None => Ret None
      | Some bytes =>
          let* slot := slot_of_bytes bytes in
          match slot with
          | EConst v => match concrete_keccak_preimage v with
                        | Some _ => storage_mapping_root_slot fuel slot
                        | None => Ret (Some v)
                        end
          | EKeccak _ _ _ => storage_mapping_root_slot fuel slot
          | _ => Ret None
          end
      end
  end.

(** Base and offset of a key. *)
Fixpoint storage_layout_key (e : SymExpr) : option (SymExpr * SymExpr) :=
  match e with
  | EKeccak _ _ _ => Some (e, zero)
  | EConst hash => match concrete_keccak_preimage hash with Some _ => Some (e, zero) | None => None end
  | EBinOp Add l r =>
      match storage_layout_key l, contains_keccak r with
      | Some (base, offset), false => Some (base, binop Add offset r)
      | _, _ =>
          match storage_layout_key r, contains_keccak l with
          | Some (base, offset), false => Some (base, binop Add offset l)
          | _, _ => None
          end
      end
  | _ => None
  end.

(** [byte_term(31)], or the low byte. *)
Definition key_byte (b : SymExpr) : Outcome SymExpr :=
  let* t := byte_term b 31 in
  match t with Some t => Ret t | None => low_byte b end.

Fixpoint key_bytes_eq (read write : list SymExpr) : Outcome (list SymBoolExpr) :=
  match read, write with
  | r :: read, w :: write =>
      let* r := key_byte r in
      let* w := key_byte w in
      let* rest := key_bytes_eq read write in
      Ret (eq_exprs r w :: rest)
  | _, _ => Ret []
  end.

Definition storage_mapping_key_eq (read write : StorageMappingKey) : Outcome SymBoolExpr :=
  match map_key_bytes read, map_key_bytes write with
  | None, None => Ret (eq_exprs (map_key read) (map_key write))
  | rb, wb =>
      let* conditions := key_bytes_eq (default (SBytes.into_byte_exprs (map_key read)) rb)
                           (default (SBytes.into_byte_exprs (map_key write)) wb) in
      Ret (SBool.and conditions)
  end.

Fixpoint storage_base_eq (fuel : nat) (e other : SymExpr) : Outcome (option SymBoolExpr) :=
  match fuel with
  | O => Panic
  | S fuel =>
      let* read := storage_mapping_key e in
      match read with
      | None => Ret None
      | Some read =>
          let* write := storage_mapping_key other in
          match write with
          | None => Ret None
          | Some write =>
              let* key_eq := storage_mapping_key_eq read write in
              let* nested := storage_base_eq fuel (map_slot read) (map_slot write) in
              let slot_eq := default (eq_exprs (map_slot read) (map_slot write)) nested in
              Ret (Some (SBool.and [key_eq; slot_eq]))
          end
      end
  end.

(** Nested mappings that a key can have: one hash node or one entry of the
    table per level. *)
Definition key_fuel (e : SymExpr) : nat := S (esize e + size pre).

Definition differing_roots (a b : option U256) : bool :=
  match a, b with Some a, Some b => negb (u_eqb a b) | _, _ => false end.

Definition storage_key_eq (e write_key : SymExpr) : Outcome SymBoolExpr :=
  let* read_root := storage_mapping_root_slot (key_fuel e) e in
  let* write_root := storage_mapping_root_slot (key_fuel write_key) write_key in
  if differing_roots read_root write_root then Ret (SBool.constant false)
  else
    match storage_layout_key e, storage_layout_key write_key with
    | Some (read_base, read_offset), Some (write_base, write_offset) =>
        let* base := storage_base_eq (key_fuel read_base + key_fuel write_base) read_base write_base in
        Ret (SBool.and [default (eq_exprs read_base write_base) base; eq_exprs read_offset write_offset])
    | Some _, None =>
        match as_const write_key with
        | Some _ => Ret (SBool.constant false)
        | None => Ret (eq_exprs e write_key)
        end
    | None, Some _ =>
        match as_const e with
        | Some _ => Ret (SBool.constant false)
        | None => Ret (eq_exprs e write_key)
        end
    | None, None => Ret (eq_exprs e write_key)
    end.

Definition select_storage_write (key write_key write_value base : SymExpr) : Outcome SymExpr :=
  if expr_eqb write_value base then Ret base
  else
    let* condition := storage_key_eq key write_key in
    match SBool.as_const condition with
    | Some true => Ret write_value
    | Some false => Ret base
    | None => Ret (ite condition write_value base)
    end.
End Keys.
End SStorage.

(** ** Where hashes lie

    The finite set of hash inputs, offsets and plain slots that a contract
    uses.  [well_spread] says that its hashes do not collide, that the regions
    behind different hashes do not overlap at these offsets, and that no plain
    slot lies in one of them: what Solidity's storage layout relies on. *)
Record Landmarks := mkLandmarks {
  lm_preimages : list (list Z);
  lm_offsets : list U256;
  lm_slots : list U256
}.

Record well_spread `{HashFns} (lm : Landmarks) : Prop := {
  spread_zero : ZERO ∈ lm_offsets lm;
  spread_regions p q o o' :
    p ∈ lm_preimages lm -> q ∈ lm_preimages lm -> o ∈ lm_offsets lm -> o' ∈ lm_offsets lm ->
    wrapping_add (keccak256 p) o = wrapping_add (keccak256 q) o' -> p = q;
  spread_slots p o s :
    p ∈ lm_preimages lm -> o ∈ lm_offsets lm -> s ∈ lm_slots lm -> wrapping_add (keccak256 p) o <> s
}.

(** Words are equal when their bytes are. *)
Lemma words_ext a b : (forall i, (i < 32)%nat -> be_byte a (Z.of_nat i) = be_byte b (Z.of_nat i)) -> a = b.
Proof.
  intros H. rewrite <- (be_value_bytes a), <- (be_value_bytes b). f_equal. f_equal. apply map_ext_in. intros i Hi%in_seq.
  apply H. lia.
Qed.

Section KeySound.
Context `{SA : SignedArith, HF : HashFns} {SL : SignedArithLaws}.
Variable model : SymbolicModel.
Abbreviation den := (denote_word model).
Abbreviation denb := (denote_bool model).

Lemma u_eqb_bool a b : u_eqb a b = bool_decide (a = b).
Proof. destruct (u_eqb_spec a b); [by rewrite bool_decide_eq_true_2|by rewrite bool_decide_eq_false_2]. Qed.

Lemma eq_exprs_sound l r a b :
  no_hash_leaf l || no_hash_leaf r = true -> den l = Some a -> den r = Some b -> denb (eq_exprs l r) = Some (u_eqb a b).
Proof. intros Hn Ha Hb. apply (cmp_refines model Eq l r Hn). simpl. by rewrite Ha, Hb. Qed.

(** Expressions that are bytes. *)
Definition byte_vals (bs : list SymExpr) (ns : list Z) : Prop :=
  Forall2 (fun b n => den b = Some (U n) /\ 0 <= n < 256) bs ns.

Lemma byte_vals_low bs ns : byte_vals bs ns -> Forall2 (fun b v => den b = Some v) bs (map U ns).
Proof. intros H. apply Forall2_fmap_r. eapply Forall2_impl; [exact H|]. by intros b n [Hb _]. Qed.

Lemma denote_byte_vals bs ns n :
  byte_vals bs ns -> (n <= length bs)%nat -> denote_bytes model n bs = Some (take n ns).
Proof.
  intros H. revert n. induction H as [|b k bs ns [Hb Hk] _ IH]; intros n Hn.
  - simpl in Hn. by replace n with O by lia.
  - destruct n as [|n]; [done|]. simpl. rewrite Hb, IH by (simpl in Hn; lia). simpl.
    assert (E : low_byte_of (U k) = k) by (rewrite low_byte_of_small; rewrite uval_byte; lia). by rewrite E.
Qed.

Lemma byte_vals_length bs ns : byte_vals bs ns -> length bs = length ns.
Proof. apply Forall2_length. Qed.

(** The comparison of byte lists, byte by byte. *)
Lemma hash_bytes_eq_sound ls rs p q :
  byte_vals ls p -> byte_vals rs q -> length p = length q ->
  Forall (fun b => no_hash_leaf b = true) ls ->
  denote_all model (map (fun '(a, b) => sym_eq a b) (combine ls rs)) = Some (bool_decide (p = q)).
Proof.
  intros Hl. revert rs q. induction Hl as [|b n ls p [Hb Hn] _ IH]; intros rs q Hr Hlen Hh.
  - destruct q; [|done]. inversion Hr; subst. done.
  - destruct q as [|m q]; [done|]. inversion Hr as [|c ? rs' ? [Hc Hm] Hr']; subst. inversion Hh as [|? ? Hb1 Hh']; subst.
    simpl in Hlen. simpl. assert (E : denb (sym_eq b c) = Some (u_eqb (U n) (U m))).
    { apply (eq_fuel_sound model); [by rewrite Hb1|]. simpl. by rewrite Hb, Hc. }
    rewrite E, byte_words_eqb by lia. rewrite (IH rs' q) by (try done; lia). destruct (Z.eqb_spec n m) as [->|Hne].
    + f_equal. apply bool_decide_ext. naive_solver.
    + f_equal. symmetry. apply bool_decide_eq_false_2. naive_solver.
Qed.

(** A hash node over all of its bytes. *)
Definition full_hash (e : SymExpr) (p : list Z) : Prop :=
  exists nm len bytes, e = EKeccak nm len bytes /\ len = EConst (U (zlen bytes)) /\ zlen bytes <= usize_max /\
    byte_vals bytes p /\ Forall (fun b => no_hash_leaf b = true) bytes.

Lemma full_hash_den e p : full_hash e p -> den e = Some (keccak256 p).
Proof.
  intros (nm & len & bytes & -> & -> & Hz & Hb & _). rewrite denote_EKeccak. cbn [denote_word].
  rewrite uval_U_small by (change word_modulus with (2 ^ 256); change usize_max with (2 ^ 64 - 1) in Hz; pose proof (zlen_nonneg bytes); lia).
  rewrite (proj2 (Z.leb_le _ _) Hz). unfold zlen. rewrite Z.leb_refl, Nat2Z.id. cbn [andb].
  rewrite (denote_byte_vals _ p) by (try done; lia). simpl. by rewrite firstn_all2 by (by rewrite (byte_vals_length _ _ Hb)).
Qed.

Variable lm : Landmarks.
Hypothesis spread : well_spread lm.

Lemma spread_hash p q :
  p ∈ lm_preimages lm -> q ∈ lm_preimages lm -> u_eqb (keccak256 p) (keccak256 q) = bool_decide (p = q).
Proof.
  intros Hp Hq. rewrite u_eqb_bool. apply bool_decide_ext. split; [|by intros ->]. intros E. pose proof (spread_zero _ spread).
  eapply (spread_regions _ spread p q ZERO ZERO); try done. by rewrite E.
Qed.

Lemma byte_vals_fun bs p q : byte_vals bs p -> byte_vals bs q -> p = q.
Proof.
  intros H. revert q. induction H as [|b n bs p [Hb Hn] _ IH]; intros q Hq; inversion Hq as [|? m ? q' [Hb' Hm] Hq']; subst; [done|].
  f_equal; [|by apply IH]. assert (E : U n = U m) by congruence. apply (f_equal uval) in E. by rewrite !uval_byte in E.
Qed.

(** Equality of hash nodes is decided on their inputs. *)
Lemma full_hash_eq e e' p q :
  full_hash e p -> full_hash e' q -> p ∈ lm_preimages lm -> q ∈ lm_preimages lm ->
  denb (eq_exprs e e') = Some (bool_decide (p = q)).
Proof.
  intros He He' Hp Hq. pose proof (full_hash_den _ _ He) as Hd. pose proof (full_hash_den _ _ He') as Hd'.
  destruct He as (nm & len & bytes & -> & -> & Hz & Hb & Hn). destruct He' as (nm' & len' & bytes' & -> & -> & Hz' & Hb' & Hn').
  unfold eq_exprs, cmp. cbn [cmp_aligned_ite]. rewrite sym_eq_unfold. unfold eq_body. cbn [cmp_aligned_ite ite_eq_arm first_some].
  destruct (expr_eqb_spec (EKeccak nm (EConst (U (zlen bytes))) bytes) (EKeccak nm' (EConst (U (zlen bytes'))) bytes')) as [E|_].
  { injection E as -> _ <-. rewrite (byte_vals_fun _ _ _ Hb Hb'). simpl. by rewrite bool_decide_eq_true_2. }
  destruct (Nat.eqb_spec (length bytes) (length bytes')) as [El|El].
  - apply den_and. cbn [denote_all]. unfold zlen. rewrite El.
    replace (denb (sym_eq (EConst (U (Z.of_nat (length bytes')))) (EConst (U (Z.of_nat (length bytes')))))) with (Some true);
      [apply hash_bytes_eq_sound; try done; by rewrite <- (byte_vals_length _ _ Hb), <- (byte_vals_length _ _ Hb')|].
    symmetry. rewrite sym_eq_unfold. unfold eq_body. cbn [cmp_aligned_ite ite_eq_arm first_some]. by rewrite (proj2 (expr_eqb_eq _ _) eq_refl).
  - rewrite <- (spread_hash p q) by done. apply (ordered_eq_sound model), (den_cmp_intro model Eq); done.
Qed.

(** *** The table of preimages *)
Import SStorage.
Variable pre : Preimages.

(** What [keccak_word] records: 64 constant bytes and their hash. *)
Definition table_ok : Prop := forall h bytes,
  pre !! uval h = Some bytes ->
  exists p, length p = 64%nat /\ Forall (fun n => 0 <= n < 256) p /\ bytes = map (fun n => EConst (U n)) p /\ keccak256 p = h.
Hypothesis table : table_ok.

(** A hash: a node, or a constant of the table. *)
Definition hash_base (e : SymExpr) (p : list Z) : Prop :=
  full_hash e p \/
  exists h bytes, e = EConst h /\ pre !! uval h = Some bytes /\ byte_vals bytes p /\ length p = 64%nat /\ keccak256 p = h.

Lemma hash_base_den e p : hash_base e p -> den e = Some (keccak256 p).
Proof. intros [H|(h & bytes & -> & _ & _ & _ & <-)]; [by apply full_hash_den|done]. Qed.

Lemma hash_base_eq e e' p q :
  hash_base e p -> hash_base e' q -> p ∈ lm_preimages lm -> q ∈ lm_preimages lm ->
  denb (eq_exprs e e') = Some (bool_decide (p = q)).
Proof.
  intros He He' Hp Hq. pose proof (hash_base_den _ _ He) as Hd. pose proof (hash_base_den _ _ He') as Hd'.
  destruct He as [He|(h & b & -> & _)]; [destruct He' as [He'|(h & b & -> & _)]; [by apply full_hash_eq|]|];
    rewrite <- (spread_hash p q) by done; apply eq_exprs_sound; try done. by rewrite orb_comm.
Qed.

Lemma mapping_bytes_vals e p bytes :
  hash_base e p -> storage_mapping_key_bytes pre e = Some bytes -> byte_vals bytes p /\ length p = 64%nat.
Proof.
  intros [(nm & len & bs & -> & -> & Hz & Hb & _)|(h & bs & -> & Hl & Hb & Hn & _)] H; unfold storage_mapping_key_bytes, concrete_keccak_preimage in H; [|by simplify_eq].
  change (as_const (EConst (U (zlen bs)))) with (Some (U (zlen bs))) in H. cbv beta iota in H.
  destruct (u_eqb_spec (U (zlen bs)) (U 64)) as [E|_]; [|done]. destruct (64 <=? zlen bs); [|done]. cbn [andb] in H. injection H as <-.
  split; [exact Hb|]. rewrite <- (byte_vals_length _ _ Hb). apply (f_equal uval) in E.
  rewrite !uval_U_small in E by (change word_modulus with (2 ^ 256); change usize_max with (2 ^ 64 - 1) in Hz; pose proof (zlen_nonneg bs); lia).
  unfold zlen in E. lia.
Qed.

(** *** The two halves of a mapping key *)
Definition word_bytes (w : U256) (ns : list Z) : Prop :=
  forall i, (i < 32)%nat -> be_byte w (Z.of_nat i) = default 0 (ns !! i).

Lemma word_bytes_eqb w w' ns ns' :
  word_bytes w ns -> word_bytes w' ns' -> length ns = 32%nat -> length ns' = 32%nat -> u_eqb w w' = bool_decide (ns = ns').
Proof.
  intros H H' Hn Hn'. rewrite u_eqb_bool. apply bool_decide_ext. split.
  - intros <-. apply list_eq. intros i. destruct (decide (i < 32)%nat) as [Hi|Hi].
    + specialize (H i Hi). specialize (H' i Hi). destruct (lookup_lt_is_Some_2 ns i) as [x Hx]; [lia|].
      destruct (lookup_lt_is_Some_2 ns' i) as [y Hy]; [lia|]. rewrite Hx, Hy in *. simpl in *. congruence.
    + rewrite !lookup_ge_None_2 by lia. done.
  - intros <-. apply words_ext. intros i Hi. by rewrite H, H'.
Qed.

Lemma byte_vals_constants bs ns : byte_vals bs ns -> byte_constants bs = true.
Proof.
  intros H. unfold byte_constants. apply forallb_forall. intros b Hb%list_elem_of_In.
  apply list_elem_of_lookup in Hb as [i Hi]. destruct (Forall2_lookup_l _ _ _ _ _ H Hi) as (n & _ & Hd & Hn).
  destruct (as_const b) as [c|] eqn:E; [|done]. apply (as_const_den _ _ _ _ E) in Hd as <-. rewrite uval_byte by done. lia.
Qed.

Lemma from_bytes_vals bs ns :
  byte_vals bs ns -> exists e w, from_bytes bs = Ret e /\ den e = Some w /\ word_bytes w ns.
Proof.
  intros H. destruct (from_bytes_total bs (byte_vals_constants _ _ H)) as [e He].
  destruct (from_bytes_sound model bs (map U ns) e He (byte_vals_low _ _ H)) as (w & Hw & Hi). exists e, w. split_and!; [done|done|].
  intros i Hlt. rewrite (Hi i Hlt). unfold nth_byte. rewrite list_lookup_fmap. destruct (ns !! i) as [n|] eqn:E; [|done]. simpl.
  destruct (Forall2_lookup_r _ _ _ _ _ H E) as (b & _ & _ & Hn). rewrite low_byte_of_small; by rewrite uval_byte by lia; lia.
Qed.

Lemma low_byte_byte n : 0 <= n < 256 -> low_byte_of (U n) = n.
Proof. intros H. rewrite low_byte_of_small; rewrite uval_byte; lia. Qed.

(** A byte whose comparison term is built and is not a hash. *)
Definition byte_ok (b : SymExpr) : Prop :=
  no_complement b = true /\ exists t, key_byte b = Ret t /\ no_hash_leaf t = true.

Lemma key_byte_sound b n t : key_byte b = Ret t -> no_complement b = true -> den b = Some (U n) -> 0 <= n < 256 -> den t = Some (U n).
Proof.
  intros Ht Hn Hd Hr. unfold key_byte in Ht. apply obind_Ret in Ht as (o & Ho & Ht). destruct o as [t'|].
  - injection Ht as <-. rewrite (byte_term_ok model b 31 (U n) Hn ltac:(lia) Hd t' Ho). f_equal. f_equal.
    rewrite be_byte_31. by apply low_byte_byte.
  - rewrite (low_byte_sound model b t (U n) Ht Hd). by rewrite low_byte_byte.
Qed.

Lemma key_bytes_eq_sound bs bs' p q :
  byte_vals bs p -> byte_vals bs' q -> length p = length q -> Forall byte_ok bs -> Forall byte_ok bs' ->
  exists cs, key_bytes_eq bs bs' = Ret cs /\ denote_all model cs = Some (bool_decide (p = q)).
Proof.
  intros Hl. revert bs' q. induction Hl as [|b n bs p [Hb Hn] _ IH]; intros bs' q Hr Hlen Hk Hk'.
  - destruct q; [|done]. exists []. split; [done|]. done.
  - destruct q as [|m q]; [done|]. inversion Hr as [|c ? rs' ? [Hc Hm] Hr']; subst. inversion Hk as [|? ? (Hnb & t & Ht & Hh) Hk1]; subst.
    inversion Hk' as [|? ? (Hnc & t' & Ht' & Hh') Hk1']; subst. simpl in Hlen.
    destruct (IH rs' q) as (cs & Hcs & Hd); [done|lia|done|done|]. exists (eq_exprs t t' :: cs). split; [simpl; by rewrite Ht, Ht'; simpl; rewrite Hcs|].
    cbn [denote_all]. rewrite (eq_exprs_sound t t' (U n) (U m)) by (try (by rewrite Hh); by eapply key_byte_sound).
    rewrite byte_words_eqb by lia. rewrite Hd. destruct (Z.eqb_spec n m) as [->|Hne].
    + f_equal. apply bool_decide_ext. naive_solver.
    + f_equal. symmetry. apply bool_decide_eq_false_2. naive_solver.
Qed.

(** The first half of a mapping key can be compared. *)
Definition key_part_ok (bytes : list SymExpr) (key : SymExpr) : Prop :=
  no_hash_leaf key = true /\ Forall byte_ok (take 32 bytes) /\ Forall byte_ok (SBytes.into_byte_exprs key).

Lemma into_byte_exprs_vals e w ns :
  den e = Some w -> word_bytes w ns -> length ns = 32%nat -> byte_vals (SBytes.into_byte_exprs e) ns.
Proof.
  intros He Hw Hn. destruct (materialize_sound model (SBytes.word e)) as [Hm _].
  { apply (word_represents model e w He). }
  destruct (word_represents model e w He) as (_ & Hl & Hat).
  assert (E : seq_values model (SBytes.word e) = ns).
  { unfold seq_values. rewrite Hl. apply list_eq. intros i. rewrite list_lookup_fmap. destruct (decide (i < 32)%nat) as [Hi|Hi].
    - assert (Er : range 32 !! i = Some (Z.of_nat i)) by (unfold range; rewrite list_lookup_fmap, lookup_seq_lt by lia; done).
      rewrite Er. simpl. rewrite Hat by lia. specialize (Hw i Hi).
      destruct (lookup_lt_is_Some_2 ns i) as [x Hx]; [lia|]. rewrite Hx in *. simpl in Hw. by rewrite Hw.
    - rewrite !lookup_ge_None_2; [done|lia|]. pose proof (zlen_range 32 ltac:(lia)). unfold zlen in *. lia. }
  unfold SBytes.into_byte_exprs, byte_vals. rewrite E in Hm. apply Forall2_same_length_lookup. apply Forall2_same_length_lookup in Hm as [Hlen Hm].
  split; [done|]. intros i b n Hb Hi. split; [by eapply Hm|].
  assert (i < 32)%nat by (apply lookup_lt_Some in Hi; lia). specialize (Hw i ltac:(done)). rewrite Hi in Hw. simpl in Hw. subst n.
  apply be_byte_range.
Qed.

Lemma extracted_total bytes : byte_constants bytes = true -> exists r, word_from_extracted_bytes bytes = Ret r.
Proof.
  intros H. unfold word_from_extracted_bytes. destruct (length bytes <? 32)%nat; [eauto|].
  destruct (find_byte_source 0 (take 32 bytes)); [|eauto]. by apply check_bytes_total, byte_constants_take.
Qed.

(** The parts of a mapping key, with their values. *)
Record key_parts (bytes : list SymExpr) (p : list Z) (k : StorageMappingKey) (slot_value : U256) : Prop := {
  parts_key : from_bytes (take 32 bytes) = Ret (map_key k);
  parts_slot : slot_of_bytes bytes = Ret (map_slot k);
  parts_bytes : map_key_bytes k = None \/ map_key_bytes k = Some (take 32 bytes);
  parts_vals : byte_vals (take 32 bytes) (take 32 p);
  parts_key_value : exists kw, denote_word model (map_key k) = Some kw /\ word_bytes kw (take 32 p);
  parts_slot_den : denote_word model (map_slot k) = Some slot_value;
  parts_slot_value : word_bytes slot_value (drop 32 p);
  parts_length : length p = 64%nat
}.

Lemma storage_mapping_key_parts e p bytes :
  hash_base e p -> storage_mapping_key_bytes pre e = Some bytes ->
  exists k sw, storage_mapping_key pre e = Ret (Some k) /\ key_parts bytes p k sw.
Proof.
  intros He Hb. destruct (mapping_bytes_vals _ _ _ He Hb) as [Hv Hn]. pose proof (byte_vals_length _ _ Hv) as Hl.
  assert (H1 : byte_vals (take 32 bytes) (take 32 p)) by (by apply Forall2_take).
  assert (H2 : byte_vals (take 32 (drop 32 bytes)) (drop 32 p)).
  { rewrite <- (firstn_all2 (n:=32) (drop 32 p)) by (rewrite length_drop; lia). by apply Forall2_take, Forall2_drop. }
  destruct (from_bytes_vals _ _ H1) as (key & kw & Ek & Hk & Hkw). destruct (from_bytes_vals _ _ H2) as (slot & sw & Es & Hs & Hsw).
  assert (Eslot : slot_of_bytes bytes = Ret slot).
  { unfold slot_of_bytes, slot_half. rewrite (proj2 (Z.ltb_ge _ _)) by (unfold zlen; lia). exact Es. }
  assert (Hp : exists pres, (if forallb (fun b => bool_decide (is_Some (as_const b))) (take 32 bytes) then Ret None
      else let* w := word_from_extracted_bytes (take 32 bytes) in
           Ret (match w with None => Some (take 32 bytes) | Some _ => None end)) = Ret pres /\ (pres = None \/ pres = Some (take 32 bytes))).
  { destruct (forallb _ _); [by eexists; split; [|left]|].
    destruct (word_from_extracted_bytes (take 32 bytes)) as [[w|]|] eqn:E; simpl; [by eexists; split; [|left]|by eexists; split; [|right]|].
    exfalso. destruct (extracted_total (take 32 bytes)) as [r Hr]; [by eapply byte_vals_constants|]. congruence. }
  destruct Hp as (pres & Hp & Hc). exists (mkMappingKey key pres slot), sw. split; [|split; simpl; eauto].
  unfold storage_mapping_key. rewrite Hb. unfold key_half. rewrite (proj2 (Z.ltb_ge _ _)) by (unfold zlen; lia). cbn [obind].
  rewrite Hp. cbn [obind]. rewrite Ek. cbn [obind]. rewrite Eslot. done.
Qed.

(** *** Slots

    A slot is a plain constant, an expression that is not a hash, or a hash
    whose nested slot is one in turn; [n] bounds the nesting. *)
Definition plain_slot (s : SymExpr) : Prop :=
  exists v, s = EConst v /\ concrete_keccak_preimage pre v = None /\ v ∈ lm_slots lm.

Definition opaque_slot (s : SymExpr) : Prop := no_hash_leaf s = true /\ as_const s = None.

Fixpoint slot_ok (n : nat) (s : SymExpr) : Prop :=
  plain_slot s \/ opaque_slot s \/
  match n with
  | O => False
  | S n => exists p, hash_base s p /\ p ∈ lm_preimages lm /\
      forall bytes key slot, storage_mapping_key_bytes pre s = Some bytes -> from_bytes (take 32 bytes) = Ret key ->
        slot_of_bytes bytes = Ret slot -> key_part_ok bytes key /\ slot_ok n slot
  end.

Definition hashed (n : nat) (s : SymExpr) (p : list Z) : Prop :=
  hash_base s p /\ p ∈ lm_preimages lm /\
  forall bytes key slot, storage_mapping_key_bytes pre s = Some bytes -> from_bytes (take 32 bytes) = Ret key ->
    slot_of_bytes bytes = Ret slot -> key_part_ok bytes key /\ slot_ok n slot.

Lemma slot_cases n s : slot_ok n s -> plain_slot s \/ opaque_slot s \/ exists m p, n = S m /\ hashed m s p.
Proof. destruct n as [|n]; simpl; [naive_solver|]. intros [H|[H|(p & H)]]; [auto|auto|]. right; right. exists n, p. done. Qed.

Lemma plain_no_bytes s : plain_slot s -> storage_mapping_key_bytes pre s = None /\ no_hash_leaf s = true.
Proof. intros (v & -> & Hv & _). done. Qed.

Lemma opaque_no_bytes s : opaque_slot s -> storage_mapping_key_bytes pre s = None /\ no_hash_leaf s = true.
Proof. intros [Hn Hc]. split; [|done]. by destruct s. Qed.

Lemma no_bytes_no_key s : storage_mapping_key_bytes pre s = None -> storage_mapping_key pre s = Ret None.
Proof. intros H. unfold storage_mapping_key. by rewrite H. Qed.

(** Equality of two slots, decided without their nesting. *)
Lemma slot_eq_sound n m s s' v v' :
  slot_ok n s -> slot_ok m s' -> den s = Some v -> den s' = Some v' -> denb (eq_exprs s s') = Some (u_eqb v v').
Proof.
  intros H H' Hv Hv'.
  assert (Hd : no_hash_leaf s = true \/ exists k p, hashed k s p).
  { destruct (slot_cases _ _ H) as [Hp|[Ho|(k & p & _ & Hh)]]; [left; by apply plain_no_bytes|left; by apply opaque_no_bytes|eauto]. }
  assert (Hd' : no_hash_leaf s' = true \/ exists k p, hashed k s' p).
  { destruct (slot_cases _ _ H') as [Hp|[Ho|(k & p & _ & Hh)]]; [left; by apply plain_no_bytes|left; by apply opaque_no_bytes|eauto]. }
  destruct Hd as [Hn|(k & p & Hb & Hp & _)]; [apply eq_exprs_sound; by try rewrite Hn|].
  destruct Hd' as [Hn|(k' & q & Hb' & Hq & _)]; [apply eq_exprs_sound; by try rewrite Hn, orb_true_r|].
  rewrite (hash_base_eq _ _ _ _ Hb Hb' Hp Hq). rewrite (hash_base_den _ _ Hb) in Hv. rewrite (hash_base_den _ _ Hb') in Hv'.
  simplify_eq. by rewrite spread_hash.
Qed.

Lemma storage_mapping_key_eq_sound bytes bytes' p q k k' sw sw' :
  key_parts bytes p k sw -> key_parts bytes' q k' sw' -> key_part_ok bytes (map_key k) -> key_part_ok bytes' (map_key k') ->
  exists c, storage_mapping_key_eq k k' = Ret c /\ denb c = Some (bool_decide (take 32 p = take 32 q)).
Proof.
  intros [_ _ Hb Hv (kw & Hk & Hw) _ _ Hn] [_ _ Hb' Hv' (kw' & Hk' & Hw') _ _ Hn'] (H1 & H2 & H3) (H1' & H2' & H3').
  assert (L : length (take 32 p) = 32%nat) by (rewrite length_take; lia). assert (L' : length (take 32 q) = 32%nat) by (rewrite length_take; lia).
  pose proof (into_byte_exprs_vals _ _ _ Hk Hw L) as Hi. pose proof (into_byte_exprs_vals _ _ _ Hk' Hw' L') as Hi'.
  assert (Hgo : forall bs bs', byte_vals bs (take 32 p) -> byte_vals bs' (take 32 q) -> Forall byte_ok bs -> Forall byte_ok bs' ->
    exists c, (let* cs := key_bytes_eq bs bs' in Ret (SBool.and cs)) = Ret c /\ denb c = Some (bool_decide (take 32 p = take 32 q))).
  { intros bs bs' A A' B B'. destruct (key_bytes_eq_sound bs bs' _ _ A A') as (cs & -> & Hc); [lia|done|done|].
    eexists; split; [done|]. by apply den_and. }
  unfold storage_mapping_key_eq. destruct Hb as [->| ->], Hb' as [->| ->]; simpl; [|by apply Hgo..].
  eexists; split; [done|]. rewrite <- (word_bytes_eqb kw kw') by done. apply eq_exprs_sound; by try rewrite H1.
Qed.

Lemma halves_eq (p q : list Z) :
  length p = 64%nat -> length q = 64%nat ->
  bool_decide (take 32 p = take 32 q) && bool_decide (drop 32 p = drop 32 q) = bool_decide (p = q).
Proof.
  intros Hp Hq. destruct (decide (p = q)) as [->|Hne]; [by rewrite !bool_decide_eq_true_2|]. rewrite (bool_decide_eq_false_2 (p = q)) by done.
  apply andb_false_iff. destruct (decide (take 32 p = take 32 q)); [|left; by apply bool_decide_eq_false_2]. right. apply bool_decide_eq_false_2.
  intros E. apply Hne. rewrite <- (take_drop 32 p), <- (take_drop 32 q). congruence.
Qed.

Lemma denote_pair c c' a b : denb c = Some a -> denb c' = Some b -> denb (SBool.and [c; c']) = Some (a && b).
Proof. intros H H'. apply den_and. cbn [denote_all]. rewrite H, H'. by destruct a, b. Qed.

Lemma storage_base_eq_sound fuel n m s s' v v' :
  slot_ok n s -> slot_ok m s' -> den s = Some v -> den s' = Some v' -> (n < fuel)%nat ->
  exists r, storage_base_eq pre fuel s s' = Ret r /\ denb (default (eq_exprs s s') r) = Some (u_eqb v v').
Proof.
  revert n m s s' v v'. induction fuel as [|fuel IH]; intros n m s s' v v' H H' Hv Hv' Hf; [lia|]. cbn [storage_base_eq].
  pose proof (slot_eq_sound _ _ _ _ _ _ H H' Hv Hv') as Hplain.
  destruct (storage_mapping_key_bytes pre s) as [bytes|] eqn:Eb; [|rewrite no_bytes_no_key by done; eexists; split; [done|exact Hplain]].
  destruct (slot_cases _ _ H) as [Hp|[Ho|(k & p & -> & Hb & Hp & Hk)]];
    [apply plain_no_bytes in Hp as [? _]; congruence|apply opaque_no_bytes in Ho as [? _]; congruence|].
  destruct (storage_mapping_key_parts _ _ _ Hb Eb) as (key & sw & -> & Hkey). cbn [obind].
  destruct (storage_mapping_key_bytes pre s') as [bytes'|] eqn:Eb'; [|rewrite no_bytes_no_key by done; eexists; split; [done|exact Hplain]].
  destruct (slot_cases _ _ H') as [Hq|[Ho|(k' & q & -> & Hb' & Hq & Hk')]];
    [apply plain_no_bytes in Hq as [? _]; congruence|apply opaque_no_bytes in Ho as [? _]; congruence|].
  destruct (storage_mapping_key_parts _ _ _ Hb' Eb') as (key' & sw' & -> & Hkey'). cbn [obind].
  destruct (Hk _ _ _ Eb (parts_key _ _ _ _ Hkey) (parts_slot _ _ _ _ Hkey)) as [Hpart Hslot].
  destruct (Hk' _ _ _ Eb' (parts_key _ _ _ _ Hkey') (parts_slot _ _ _ _ Hkey')) as [Hpart' Hslot'].
  destruct (storage_mapping_key_eq_sound _ _ _ _ _ _ _ _ Hkey Hkey' Hpart Hpart') as (c & -> & Hc). cbn [obind].
  destruct Hkey as [_ _ _ _ _ Hd Hw Hn], Hkey' as [_ _ _ _ _ Hd' Hw' Hn'].
  destruct (IH k k' _ _ _ _ Hslot Hslot' Hd Hd') as (r & -> & Hr); [lia|]. cbn [obind]. eexists; split; [done|].
  etransitivity; [exact (denote_pair _ _ _ _ Hc Hr)|]. f_equal. rewrite (word_bytes_eqb _ _ _ _ Hw Hw') by (rewrite length_drop; lia).
  rewrite halves_eq by done. rewrite (hash_base_den _ _ Hb) in Hv. rewrite (hash_base_den _ _ Hb') in Hv'. simplify_eq. by rewrite spread_hash.
Qed.

(** *** Roots *)
Lemma root_slot_total fuel n s :
  slot_ok n s -> (n < fuel)%nat -> exists r, storage_mapping_root_slot pre fuel s = Ret r.
Proof.
  revert n s. induction fuel as [|fuel IH]; intros n s H Hf; [lia|]. cbn [storage_mapping_root_slot].
  destruct (storage_mapping_key_bytes pre s) as [bytes|] eqn:Eb; [|eauto].
  destruct (slot_cases _ _ H) as [Hp|[Ho|(k & p & -> & Hb & Hp & Hk)]];
    [apply plain_no_bytes in Hp as [? _]; congruence|apply opaque_no_bytes in Ho as [? _]; congruence|].
  destruct (storage_mapping_key_parts _ _ _ Hb Eb) as (key & sw & _ & Hkey).
  rewrite (parts_slot _ _ _ _ Hkey). cbn [obind].
  destruct (Hk _ _ _ Eb (parts_key _ _ _ _ Hkey) (parts_slot _ _ _ _ Hkey)) as [_ Hslot].
  destruct (map_slot key); eauto; [destruct (concrete_keccak_preimage pre value); [|eauto]|]; eapply (IH k); (done || lia).
Qed.

(** The slot that a root was found through. *)
Lemma root_slot_inv fuel n s r :
  slot_ok n s -> storage_mapping_root_slot pre (S fuel) s = Ret (Some r) ->
  exists k p bytes key sw, hashed k s p /\ storage_mapping_key_bytes pre s = Some bytes /\ key_parts bytes p key sw /\
    slot_ok k (map_slot key) /\
    ((map_slot key = EConst r /\ sw = r /\ r ∈ lm_slots lm) \/ storage_mapping_root_slot pre fuel (map_slot key) = Ret (Some r)).
Proof.
  intros H Hr. cbn [storage_mapping_root_slot] in Hr. destruct (storage_mapping_key_bytes pre s) as [bytes|] eqn:Eb; [|done].
  destruct (slot_cases _ _ H) as [Hp|[Ho|(k & p & -> & Hb & Hp & Hk)]];
    [apply plain_no_bytes in Hp as [? _]; congruence|apply opaque_no_bytes in Ho as [? _]; congruence|].
  destruct (storage_mapping_key_parts _ _ _ Hb Eb) as (key & sw & _ & Hkey).
  rewrite (parts_slot _ _ _ _ Hkey) in Hr. cbn [obind] in Hr.
  destruct (Hk _ _ _ Eb (parts_key _ _ _ _ Hkey) (parts_slot _ _ _ _ Hkey)) as [Hpart Hslot].
  exists k, p, bytes, key, sw. split_and!; [by split_and!|done|done|done|]. pose proof (parts_slot_den _ _ _ _ Hkey) as Hd.
  destruct (map_slot key) as [c| | | | | | | |] eqn:Es; try done; [|by right].
  destruct (concrete_keccak_preimage pre c) eqn:Ec; [by right|]. left. simplify_eq. simpl in Hd. simplify_eq. split_and!; [done|done|].
  destruct (slot_cases _ _ Hslot) as [(x & [= <-] & _ & Hin)|[[_ Hc]|(j & y & -> & [(nm & l & bs & ? & _)|(h & bs & [= <-] & Hh & _)] & _)]];
    [done|done|done|]. unfold concrete_keccak_preimage in Ec. congruence.
Qed.

Lemma uval_wrapping_add a b : uval (wrapping_add a b) = (uval a + uval b) mod word_modulus.
Proof. apply uval_U. Qed.

(** Mappings of different root slots have different keys. *)
Lemma roots_differ fuel fuel' n m s s' v v' r r' :
  slot_ok n s -> slot_ok m s' -> den s = Some v -> den s' = Some v' ->
  storage_mapping_root_slot pre fuel s = Ret (Some r) -> storage_mapping_root_slot pre fuel' s' = Ret (Some r') ->
  r <> r' -> v <> v'.
Proof.
  revert fuel' n m s s' v v'. induction fuel as [|fuel IH]; intros fuel' n m s s' v v' H H' Hv Hv' Hr Hr' Hne E; [done|].
  destruct fuel' as [|fuel']; [done|]. subst v'.
  destruct (root_slot_inv _ _ _ _ H Hr) as (k & p & bytes & key & sw & (Hb & Hp & _) & Eb & Hkey & Hs & Hroot).
  destruct (root_slot_inv _ _ _ _ H' Hr') as (k' & q & bytes' & key' & sw' & (Hb' & Hq & _) & Eb' & Hkey' & Hs' & Hroot').
  assert (Epq : p = q).
  { apply (bool_decide_eq_true_1 (p = q)). rewrite <- (spread_hash p q) by done. rewrite (hash_base_den _ _ Hb) in Hv.
    rewrite (hash_base_den _ _ Hb') in Hv'. apply u_eqb_eq. congruence. }
  subst q. destruct Hkey as [_ _ _ _ _ Hd Hw Hn], Hkey' as [_ _ _ _ _ Hd' Hw' _].
  assert (Esw : sw = sw').
  { apply u_eqb_eq. rewrite (word_bytes_eqb _ _ _ _ Hw Hw') by (rewrite length_drop; lia). by rewrite bool_decide_eq_true_2. }
  subst sw'.
  assert (Hplain : forall x e j fu y, x ∈ lm_slots lm -> slot_ok j e -> den e = Some x ->
    storage_mapping_root_slot pre fu e = Ret (Some y) -> False).
  { intros x e j fu y Hx He Hde Hfu. destruct fu as [|fu]; [done|]. destruct (root_slot_inv _ _ _ _ He Hfu) as (? & z & _ & _ & _ & (Hz & Hin & _) & _).
    rewrite (hash_base_den _ _ Hz) in Hde. simplify_eq. apply (spread_slots _ spread z ZERO (keccak256 z)); try done; [apply spread|].
    apply uval_inj. rewrite uval_wrapping_add, uval_ZERO, Z.add_0_r. apply Z.mod_small, uval_range. }
  destruct Hroot as [(Es & Ex & Hx)|Hroot], Hroot' as [(Es' & Ex' & Hx')|Hroot'].
  - congruence.
  - subst. by eapply Hplain; [..|exact Hroot'].
  - subst. by eapply Hplain; [..|exact Hroot].
  - by eapply (IH fuel' k k' _ _ sw sw Hs Hs').
Qed.

(** *** Layouts *)
Lemma layout_sound e base offset v :
  storage_layout_key pre e = Some (base, offset) -> den e = Some v ->
  exists vb vo, den base = Some vb /\ den offset = Some vo /\ v = wrapping_add vb vo /\
    storage_layout_key pre base = Some (base, zero).
Proof.
  assert (Hself : forall e v, storage_layout_key pre e = Some (e, zero) -> den e = Some v ->
    exists vb vo, den e = Some vb /\ den zero = Some vo /\ v = wrapping_add vb vo /\ storage_layout_key pre e = Some (e, zero)).
  { intros e0 v0 He Hv. exists v0, ZERO. split_and!; [done|apply den_constant| |done].
    apply uval_inj. rewrite uval_wrapping_add, uval_ZERO, Z.add_0_r. symmetry. apply Z.mod_small, uval_range. }
  revert v base offset. induction e as [e IH] using (induction_ltof1 _ esize). unfold ltof in IH. intros v base offset H Hv.
  destruct e as [c| | |nm l bs| | |[] l r| |]; try done; cbn [storage_layout_key] in H.
  - destruct (concrete_keccak_preimage pre c) eqn:Ec; [|done]. simplify_eq. apply Hself; [|done]. cbn [storage_layout_key]. by rewrite Ec.
  - simplify_eq. by apply Hself.
  - simpl in Hv. destruct (den l) as [a|] eqn:Ea; [|done]. destruct (den r) as [b|] eqn:Eb; [|done]. simplify_eq.
    assert (Hadd : forall o x vo w, den o = Some vo -> den x = Some w -> den (binop Add o x) = Some (wrapping_add vo w)).
    { intros o x vo w Ho Hx. apply (binop_refines model Add). simpl. by rewrite Ho, Hx. }
    assert (Hwl : forall bs' off, storage_layout_key pre l = Some (bs', off) -> Some (bs', binop Add off r) = Some (base, offset) ->
      exists vb vo, den base = Some vb /\ den offset = Some vo /\ wrapping_add a b = wrapping_add vb vo /\ storage_layout_key pre base = Some (base, zero)).
    { intros bs' off Hl [= <- <-]. destruct (IH l ltac:(simpl; lia) a _ _ Hl Ea) as (vb & vo & H1 & H2 & -> & H3).
      exists vb, (wrapping_add vo b). split_and!; [done|by apply Hadd| |done]. apply uval_inj. rewrite !uval_wrapping_add.
      rewrite Zplus_mod_idemp_l, Zplus_mod_idemp_r. f_equal. lia. }
    assert (Hwr : forall bs' off, storage_layout_key pre r = Some (bs', off) -> Some (bs', binop Add off l) = Some (base, offset) ->
      exists vb vo, den base = Some vb /\ den offset = Some vo /\ wrapping_add a b = wrapping_add vb vo /\ storage_layout_key pre base = Some (base, zero)).
    { intros bs' off Hl [= <- <-]. destruct (IH r ltac:(simpl; lia) b _ _ Hl Eb) as (vb & vo & H1 & H2 & -> & H3).
      exists vb, (wrapping_add vo a). split_and!; [done|by apply Hadd| |done]. apply uval_inj. rewrite !uval_wrapping_add.
      rewrite !Zplus_mod_idemp_r. f_equal. lia. }
    simpl. destruct (storage_layout_key pre l) as [[b1 o1]|] eqn:El; destruct (contains_keccak r);
      try (by eapply Hwl); destruct (storage_layout_key pre r) as [[b2 o2]|] eqn:Er; destruct (contains_keccak l); try done; by eapply Hwr.
Qed.

(** *** Keys

    A storage key with the value [v]: a hash plus an offset, a plain slot, or
    an expression that is not a hash. *)
Definition key_ok (e : SymExpr) (v : U256) : Prop :=
  den e = Some v /\
  match storage_layout_key pre e with
  | Some (base, offset) =>
      (exists n p, hashed n base p /\ (S n < key_fuel pre base)%nat) /\ no_hash_leaf offset = true /\
      exists o, den offset = Some o /\ o ∈ lm_offsets lm
  | None => match as_const e with Some c => c ∈ lm_slots lm | None => no_hash_leaf e = true end
  end.

Lemma hashed_slot n s p : hashed n s p -> slot_ok (S n) s.
Proof. intros (H1 & H2 & H3). right; right. exists p. done. Qed.

Lemma no_layout_no_bytes e : storage_layout_key pre e = None -> storage_mapping_key_bytes pre e = None.
Proof. destruct e; try done. simpl. by destruct (concrete_keccak_preimage pre value). Qed.

Lemma bytes_layout e bytes : storage_mapping_key_bytes pre e = Some bytes -> storage_layout_key pre e = Some (e, zero).
Proof. destruct e; try done. simpl. by destruct (concrete_keccak_preimage pre value). Qed.

Lemma root_none e fuel : storage_mapping_key_bytes pre e = None -> storage_mapping_root_slot pre (S fuel) e = Ret None.
Proof. intros H. cbn [storage_mapping_root_slot]. by rewrite H. Qed.

(** The root of a key is found, and it is one of a hash. *)
Lemma key_root e v :
  key_ok e v -> exists r, storage_mapping_root_slot pre (key_fuel pre e) e = Ret r /\
    (r = None \/ exists n, slot_ok n e).
Proof.
  intros [Hd Hk]. destruct (storage_mapping_key_bytes pre e) as [bytes|] eqn:Eb.
  - rewrite (bytes_layout _ _ Eb) in Hk. destruct Hk as ((n & p & Hh & Hf) & _). apply hashed_slot in Hh.
    destruct (root_slot_total _ _ _ Hh Hf) as [r Hr]. eauto.
  - exists None. split; [by apply root_none|by left].
Qed.

Lemma wrapping_add_cancel a b c : wrapping_add a b = wrapping_add a c -> b = c.
Proof.
  intros E. apply (f_equal uval) in E. rewrite !uval_wrapping_add in E. apply uval_inj. pose proof (uval_range b). pose proof (uval_range c).
  rewrite <- (Z.mod_small (uval b) word_modulus), <- (Z.mod_small (uval c) word_modulus) by done.
  replace (uval b) with (uval a + uval b - uval a) by lia. replace (uval c) with (uval a + uval c - uval a) by lia.
  by rewrite (Zminus_mod (uval a + uval b)), (Zminus_mod (uval a + uval c)), E.
Qed.

Lemma storage_key_eq_sound k w vk vw :
  key_ok k vk -> key_ok w vw -> exists c, storage_key_eq pre k w = Ret c /\ denb c = Some (u_eqb vk vw).
Proof.
  intros Hk Hw. destruct (key_root _ _ Hk) as (r & Er & Hr). destruct (key_root _ _ Hw) as (r' & Er' & Hr').
  unfold storage_key_eq. rewrite Er, Er'. cbn [obind]. destruct (differing_roots r r') eqn:Ed.
  { destruct r as [r|], r' as [r'|]; try done. destruct Hr as [?|[n Hr]]; [done|]. destruct Hr' as [?|[m Hr']]; [done|].
    eexists; split; [done|]. cbn [denote_bool SBool.constant]. f_equal. symmetry. apply not_true_iff_false. rewrite u_eqb_eq.
    eapply (roots_differ _ _ _ _ _ _ _ _ _ _ Hr Hr'); [apply Hk|apply Hw|exact Er|exact Er'|]. intros ->. unfold differing_roots in Ed. by rewrite u_eqb_refl in Ed. }
  clear Er Er' Hr Hr' Ed. destruct Hk as [Hdk Hk], Hw as [Hdw Hw].
  assert (Hregion : forall e base offset v, storage_layout_key pre e = Some (base, offset) -> den e = Some v ->
    (exists n p, hashed n base p /\ (S n < key_fuel pre base)%nat) -> (exists o, den offset = Some o /\ o ∈ lm_offsets lm) ->
    exists p o, p ∈ lm_preimages lm /\ o ∈ lm_offsets lm /\ den base = Some (keccak256 p) /\ den offset = Some o /\ v = wrapping_add (keccak256 p) o).
  { intros e base offset v Hl Hd (n & p & (Hb & Hp & _) & _) (o & Ho & Hin). destruct (layout_sound _ _ _ _ Hl Hd) as (vb & vo & H1 & H2 & -> & _).
    rewrite (hash_base_den _ _ Hb) in H1. exists p, o. split_and!; [done|done|by apply hash_base_den|done|congruence]. }
  destruct (storage_layout_key pre k) as [[rb ro]|] eqn:Elk, (storage_layout_key pre w) as [[wb wo]|] eqn:Elw.
  - destruct Hk as (Hh & Hno & Ho), Hw as (Hh' & Hno' & Ho'). destruct (Hregion _ _ _ _ Elk Hdk Hh Ho) as (p & o & Hp & Hin & Hrb & Hro & ->).
    destruct (Hregion _ _ _ _ Elw Hdw Hh' Ho') as (q & o' & Hq & Hin' & Hwb & Hwo & ->). clear Hregion.
    destruct Hh as (n & ? & Hh & Hf), Hh' as (m & ? & Hh' & Hf'). apply hashed_slot in Hh, Hh'.
    destruct (storage_base_eq_sound (key_fuel pre rb + key_fuel pre wb) _ _ _ _ _ _ Hh Hh' Hrb Hwb) as (c & -> & Hc); [lia|]. cbn [obind].
    eexists; split; [done|]. etransitivity; [eapply denote_pair; [exact Hc|by apply eq_exprs_sound; [rewrite Hno|..]]|]. f_equal.
    rewrite spread_hash by done. destruct (decide (p = q)) as [->|Hne].
    + rewrite bool_decide_eq_true_2 by done. simpl. rewrite !u_eqb_bool. apply bool_decide_ext. split; [by intros ->|apply wrapping_add_cancel].
    + rewrite bool_decide_eq_false_2 by done. simpl. rewrite u_eqb_bool. symmetry. apply bool_decide_eq_false_2. intros E. apply Hne.
      exact (spread_regions _ spread p q o o' Hp Hq Hin Hin' E).
  - destruct Hk as (Hh & Hno & Ho). destruct (as_const w) as [c|] eqn:Ec.
    + eexists; split; [done|]. destruct (Hregion _ _ _ _ Elk Hdk Hh Ho) as (p & o & Hp & Hin & _ & _ & ->).
      pose proof (as_const_den _ _ _ _ Ec Hdw) as <-. simpl. f_equal. rewrite u_eqb_bool. symmetry. apply bool_decide_eq_false_2.
      by apply (spread_slots _ spread).
    + eexists; split; [done|]. by apply eq_exprs_sound; [rewrite Hw, orb_true_r|..].
  - destruct Hw as (Hh & Hno & Ho). destruct (as_const k) as [c|] eqn:Ec.
    + eexists; split; [done|]. destruct (Hregion _ _ _ _ Elw Hdw Hh Ho) as (p & o & Hp & Hin & _ & _ & ->).
      pose proof (as_const_den _ _ _ _ Ec Hdk) as <-. simpl. f_equal. rewrite u_eqb_bool. symmetry. apply bool_decide_eq_false_2.
      intros E. by apply (spread_slots _ spread p o vk).
    + eexists; split; [done|]. by apply eq_exprs_sound; [rewrite Hk|..].
  - eexists; split; [done|]. apply eq_exprs_sound; [|done|done]. destruct (as_const k) as [c|] eqn:Ec; [|by rewrite Hk].
    by destruct k.
Qed.

Lemma select_storage_write_sound k w wv base vk vw x y :
  key_ok k vk -> key_ok w vw -> den wv = Some x -> den base = Some y ->
  exists e, select_storage_write pre k w wv base = Ret e /\ den e = Some (if u_eqb vk vw then x else y).
Proof.
  intros Hk Hw Hx Hy. unfold select_storage_write. destruct (expr_eqb_spec wv base) as [->|_].
  { eexists; split; [done|]. by destruct (u_eqb vk vw); congruence. }
  destruct (storage_key_eq_sound _ _ _ _ Hk Hw) as (c & -> & Hc). cbn [obind]. destruct (SBool.as_const c) as [[]|] eqn:Ec.
  - destruct c as [b| | |]; try done. injection Ec as ->. injection Hc as <-. eauto.
  - destruct c as [b| | |]; try done. injection Ec as ->. injection Hc as <-. eauto.
  - eexists; split; [done|]. apply (ite_sound model). simpl. rewrite Hc. by destruct (u_eqb vk vw).
Qed.
End KeySound.
