(* ===== verification/SymMem.v ===== *)
(** * SymMem: stack, memory, calldata, return data and code of a symbolic frame

    Models runtime/memory.rs and runtime/calldata.rs.  The memory of a frame is
    the list of its writes, each a byte sequence at a (possibly symbolic)
    offset, with the size that concrete writes have reached and the symbolic
    logical size that MSIZE reports.  Reads resolve the writes: completely when
    every offset is concrete ([read_stored_bytes]), byte by byte otherwise.

    The abstract specification is a memory that maps every 256-bit address to a
    byte ([mem_at]); the refinement lemmas show that stores update it and that
    every read, concrete or symbolic, returns its bytes. *)

From Stdlib Require Import ZArith Lia Bool Permutation Sorted.
From stdpp Require Import base list option sets strings.
From S2P Require Import Prelude SymWord SymExpr SymSimpl SymSound SymCmp SymBytes SymSeq.
Local Open Scope Z_scope.
Local Open Scope outcome_scope.
Import SBytes.

(** [SymExpr::add_const] (expr.rs). *)
Definition add_const `{SignedArith, HashFns} (e : SymExpr) (value : U256) : SymExpr :=
  if is_zero value then e
  else match e with
       | EConst c => constant (wrapping_add c value)
       | _ => binop Add e (constant value)
       end.

(** ** The stack: a vector with its top at the end *)
Module SStack.
Section Ops.
(** revm's stack limit. *)
Variable STACK_LIMIT : Z.

Definition SymStack := list SymExpr.

Definition push (s : SymStack) (value : SymExpr) : SymStack + SymbolicError :=
  if STACK_LIMIT <=? zlen s then inr StackOverflow else inl (s ++ [value]).

Definition pop (s : SymStack) : (SymExpr * SymStack) + SymbolicError :=
  match rev s with
  | [] => inr StackUnderflow
  | top :: rest => inl (top, rev rest)
  end.

Definition peek (s : SymStack) (index_from_top : Z) : SymExpr + SymbolicError :=
  match i ← checked_sub (zlen s) (usize_add index_from_top 1); at_z s i with
  | Some e => inl e
  | None => inr StackUnderflow
  end.

(** [self.0.swap(len - 1, other)]: both indices are in range. *)
Definition swap (s : SymStack) (index_from_top : Z) : SymStack + SymbolicError :=
  match checked_sub (zlen s) (usize_add index_from_top 1) with
  | None => inr StackUnderflow
  | Some other =>
      match at_z s (zlen s - 1), at_z s other with
      | Some top, Some below =>
          inl (<[Z.to_nat other := top]> (<[Z.to_nat (zlen s - 1) := below]> s))
      | _, _ => inl s
      end
  end.
End Ops.
End SStack.

(** ** Memory *)
Record SymbolicMemoryWrite := mkWrite {
  w_offset : SymExpr;
  w_bytes : SymBytes;
  minimum_offset : Z
}.

Record SymMemory := mkMemory {
  symbolic_writes : list SymbolicMemoryWrite;
  materialized_size : Z;
  logical_size : option SymExpr
}.

Inductive BoundedCopySize :=
  | CopyConcrete (size : Z)
  | CopySymbolic (size : SymExpr) (max_size : Z).

Definition empty_memory : SymMemory := mkMemory [] 0 None.

Module SMemory.
Section Ops.
Context `{SA : SignedArith, HF : HashFns}.

Definition concrete_offset (w : SymbolicMemoryWrite) : option Z := eval_usize (w_offset w).

Definition concrete_byte_index (w : SymbolicMemoryWrite) (offset : Z) : option Z :=
  write_offset ← concrete_offset w;
  idx ← checked_sub offset write_offset;
  if idx <? len (w_bytes w) then Some idx else None.

Definition concrete_byte (w : SymbolicMemoryWrite) (offset : Z) : option SymExpr :=
  idx ← concrete_byte_index w offset; Some (byte (w_bytes w) idx).

(** *** Sizes *)
Definition saturating_add_word (l r : SymExpr) : SymExpr :=
  let sum := binop Add l r in
  ite (cmp Ult sum l) (constant MAX) sum.

Definition size_after_range_word (offset size : SymExpr) : SymExpr :=
  let end_ := saturating_add_word offset size in
  let rounded := saturating_add_word end_ (constant (U 31)) in
  let rounded := binop And rounded (constant (u_not (U 31))) in
  ite (eq_word_const size ZERO) zero rounded.

Definition size_after_access_word (offset : SymExpr) (l : Z) : SymExpr :=
  size_after_range_word offset (constant (U l)).

(** [size & !31usize]. *)
Definition align_down (size : Z) : Z := Z.land size (usize_max - 31).

Definition size_after_access (offset l : Z) : Z :=
  match checked_add offset l with
  | None => align_down usize_max
  | Some end_ => match checked_add end_ 31 with
                 | Some size => align_down size
                 | None => align_down usize_max
                 end
  end.

Definition max_size_word (l r : SymExpr) : SymExpr :=
  match as_const l, as_const r with
  | Some a, Some b => constant (if u_leb b a then a else b)
  | _, _ => if expr_eqb l r then l else ite (cmp Ult l r) r l
  end.

Definition expand_to (m : SymMemory) (size : SymExpr) : SymMemory :=
  mkMemory (symbolic_writes m) (materialized_size m)
    (Some (match logical_size m with Some current => max_size_word current size | None => size end)).

Definition size_word (m : SymMemory) : SymExpr := default zero (logical_size m).

Definition size_after_range_expansion_word (m : SymMemory) (offset size : SymExpr) : SymExpr :=
  max_size_word (size_word m) (size_after_range_word offset size).

Definition const_usize (e : SymExpr) : option Z := v ← as_const e; to_usize v.

Definition expand_range (m : SymMemory) (offset size : SymExpr) : SymMemory :=
  match const_usize offset, const_usize size with
  | Some offset, Some size =>
      if size =? 0 then m else expand_to m (constant (U (size_after_access offset size)))
  | _, _ => expand_to m (size_after_range_word offset size)
  end.

(** *** Stores *)
Definition push_write (m : SymMemory) (w : SymbolicMemoryWrite) : SymMemory :=
  mkMemory (symbolic_writes m ++ [w]) (materialized_size m) (logical_size m).

Definition materialize_to (m : SymMemory) (size : Z) : SymMemory :=
  mkMemory (symbolic_writes m) (Z.max (materialized_size m) size) (logical_size m).

Definition store_bytes (m : SymMemory) (offset : Z) (b : SymBytes) : SymMemory :=
  if is_empty b then m
  else let size := size_after_access offset (len b) in
       let m := materialize_to m size in
       let m := expand_to m (constant (U size)) in
       push_write m (mkWrite (constant (U offset)) b offset).

Definition store_symbolic_bytes (m : SymMemory) (offset : SymExpr) (b : SymBytes) (minimum : Z) : SymMemory :=
  if is_empty b then m
  else let m := expand_to m (size_after_access_word offset (len b)) in
       push_write m (mkWrite offset b minimum).

Definition store_symbolic_sized_bytes (m : SymMemory) (offset : SymExpr) (b : SymBytes) (access_size : SymExpr)
    : SymMemory :=
  let m := match (if is_empty b then None else eval_usize offset) with
           | Some o => materialize_to m (size_after_access o (len b))
           | None => m
           end in
  let m := if is_empty b then m else push_write m (mkWrite offset b 0) in
  expand_to m (size_after_range_word offset access_size).

Definition store_word (m : SymMemory) (offset : Z) (value : SymExpr) : SymMemory :=
  store_bytes m offset (into_bytes value).

Definition store_word_offset (m : SymMemory) (offset value : SymExpr) (minimum : Z) : SymMemory :=
  match as_const offset with
  | Some o => match to_usize o with Some o => store_word m o value | None => m end
  | None => store_symbolic_bytes m offset (into_bytes value) minimum
  end.

Definition store_byte (m : SymMemory) (offset : Z) (value : SymExpr) : Outcome SymMemory :=
  let* b := low_byte value in
  let* bytes := exprs [b] in
  Ret (store_bytes m offset bytes).

Definition store_byte_offset (m : SymMemory) (offset value : SymExpr) (minimum : Z) : Outcome SymMemory :=
  match as_const offset with
  | Some o => match to_usize o with Some o => store_byte m o value | None => Ret m end
  | None =>
      let* b := low_byte value in
      let* bytes := exprs [b] in
      Ret (store_symbolic_bytes m offset bytes minimum)
  end.

Definition store_bytes_offset (m : SymMemory) (offset : SymExpr) (b : SymBytes) : SymMemory :=
  match as_const offset with
  | Some o => match to_usize o with Some o => store_bytes m o b | None => m end
  | None => store_symbolic_bytes m offset b 0
  end.

(** *** Reads *)

(** One unresolved range against a write that covers [write_offset..write_end]:
    what stays unresolved and the piece that the write gives. *)
Definition split_range (b : SymBytes) (offset write_offset write_end : Z) (r : Z * Z)
    : Outcome (list (Z * Z) * list (Z * SymBytes)) :=
  let '(start, end_) := r in
  let overlap_start := Z.max start write_offset in
  let overlap_end := Z.min end_ write_end in
  if overlap_end <=? overlap_start then Ret ([(start, end_)], [])
  else
    let* piece := slice_concrete b (overlap_start - write_offset) (overlap_end - overlap_start) in
    Ret ((if start <? overlap_start then [(start, overlap_start)] else []) ++
         (if overlap_end <? end_ then [(overlap_end, end_)] else []),
         [(overlap_start - offset, piece)]).

(** The loop over the unresolved ranges. *)
Fixpoint split_ranges (b : SymBytes) (offset write_offset write_end : Z) (unresolved : list (Z * Z))
    : Outcome (list (Z * Z) * list (Z * SymBytes)) :=
  match unresolved with
  | [] => Ret ([], [])
  | r :: rest =>
      let* x := split_range b offset write_offset write_end r in
      let* y := split_ranges b offset write_offset write_end rest in
      Ret (fst x ++ fst y, snd x ++ snd y)
  end.

(** The loop over the writes, newest first; [None] when an offset is not
    concrete. *)
Fixpoint resolve_writes (writes : list SymbolicMemoryWrite) (offset end_ : Z)
    (unresolved : list (Z * Z)) (pieces : list (Z * SymBytes))
    : Outcome (option (list (Z * Z) * list (Z * SymBytes))) :=
  match writes with
  | [] => Ret (Some (unresolved, pieces))
  | w :: rest =>
      match unresolved with
      | [] => Ret (Some (unresolved, pieces))
      | _ =>
          match concrete_offset w with
          | None => Ret None
          | Some write_offset =>
              match checked_add write_offset (len (w_bytes w)) with
              | None => Ret None
              | Some write_end =>
                  if (write_end <=? offset) || (end_ <=? write_offset)
                  then resolve_writes rest offset end_ unresolved pieces
                  else
                    let* x := split_ranges (w_bytes w) offset write_offset write_end unresolved in
                    resolve_writes rest offset end_ (fst x) (pieces ++ snd x)
              end
          end
      end
  end.

(** [pieces.sort_by_key(|(offset, _)| *offset)], a stable sort. *)
Fixpoint insert_piece (p : Z * SymBytes) (l : list (Z * SymBytes)) : list (Z * SymBytes) :=
  match l with
  | [] => [p]
  | q :: rest => if fst p <=? fst q then p :: l else q :: insert_piece p rest
  end.
Definition sort_pieces (l : list (Z * SymBytes)) : list (Z * SymBytes) := fold_right insert_piece [] l.

Definition read_stored_bytes (m : SymMemory) (offset size : Z) : Outcome (option SymBytes) :=
  if size =? 0 then Ret (Some empty)
  else
  match checked_add offset size with
  | None => Ret None
  | Some end_ =>
      let* x := resolve_writes (rev (symbolic_writes m)) offset end_ [(offset, end_)] [] in
      Ret (option_map (fun x =>
        concat (map snd (sort_pieces (snd x ++
          map (fun '(start, end_) => (start - offset, concrete (zeros (end_ - start)))) (fst x))))) x)
  end.

(** A write at a symbolic offset seen from the address [target]: one guarded
    alternative per byte, the later bytes outermost. *)
Definition overlay_write (w : SymbolicMemoryWrite) (target result : SymExpr) : SymExpr :=
  fold_left (fun result idx =>
      ite (eq_exprs (add_const (w_offset w) (U idx)) target) (byte (w_bytes w) idx) result)
    (range (len (w_bytes w))) result.

(** The loop of [byte] over the writes after the base. *)
Fixpoint overlay_writes (writes : list SymbolicMemoryWrite) (offset : Z) (result : SymExpr) : SymExpr :=
  match writes with
  | [] => result
  | w :: rest =>
      match concrete_byte w offset with
      | Some b => overlay_writes rest offset b
      | None =>
          if bool_decide (is_Some (concrete_offset w)) then overlay_writes rest offset result
          else if offset <? minimum_offset w then overlay_writes rest offset result
          else overlay_writes rest offset (overlay_write w (constant (U offset)) result)
      end
  end.

(** [rposition]: the last write that concretely covers the offset, and the
    writes after it. *)
Fixpoint last_concrete (writes : list SymbolicMemoryWrite) (offset : Z)
    : option (SymExpr * list SymbolicMemoryWrite) :=
  match writes with
  | [] => None
  | w :: rest =>
      match last_concrete rest offset with
      | Some r => Some r
      | None => match concrete_byte w offset with Some b => Some (b, rest) | None => None end
      end
  end.

Definition byte (m : SymMemory) (offset : Z) : SymExpr :=
  match last_concrete (symbolic_writes m) offset with
  | Some (base, writes) => overlay_writes writes offset base
  | None => overlay_writes (symbolic_writes m) offset zero
  end.

Definition write_end (w : SymbolicMemoryWrite) : option Z :=
  o ← concrete_offset w; checked_add o (len (w_bytes w)).

Definition all_writes_bounded (m : SymMemory) : bool :=
  forallb (fun w => match write_end w with Some e => e <=? materialized_size m | None => false end)
    (symbolic_writes m).

(** The skip condition of the loop over the writes. *)
Definition skip_write (w : SymbolicMemoryWrite) (minimum_target : Z) (maximum_target : option Z) : bool :=
  match write_end w with Some e => e <=? minimum_target | None => false end ||
  match maximum_target with Some t => t <? minimum_offset w | None => false end.

Definition read_write (w : SymbolicMemoryWrite) (gas_dependent : bool) (target result : SymExpr) : SymExpr :=
  match (if negb gas_dependent && negb (contains_gasleft (w_offset w))
         then constant_difference target (w_offset w) else None) with
  | Some index =>
      match to_usize index with
      | Some index => if index <? len (w_bytes w) then SBytes.byte (w_bytes w) index else result
      | None => result
      end
  | None => overlay_write w target result
  end.

Definition byte_dynamic_with_delta_and_bounds (m : SymMemory) (offset : SymExpr) (delta minimum : Z)
    (maximum : option Z) : SymExpr :=
  let maximum_target := mx ← maximum; checked_add mx delta in
  let target_non_wrapping := (delta =? 0) || bool_decide (is_Some maximum_target) in
  if all_writes_bounded m && target_non_wrapping
  then select_dynamic (byte m) (materialized_size m) offset delta
  else
    let target := add_const offset (U delta) in
    let minimum_target := if target_non_wrapping then default 0 (checked_add minimum delta) else 0 in
    let gas_dependent_offset := contains_gasleft offset in
    fold_left (fun result w =>
        if skip_write w minimum_target maximum_target then result
        else read_write w gas_dependent_offset target result)
      (symbolic_writes m) zero.

Definition byte_dynamic_with_delta (m : SymMemory) (offset : SymExpr) (delta : Z) : SymExpr :=
  byte_dynamic_with_delta_and_bounds m offset delta 0 None.

Definition read_bytes_offset_with_bounds (m : SymMemory) (offset : SymExpr) (size minimum : Z)
    (maximum : option Z) : Outcome SymBytes :=
  match as_const offset with
  | Some o =>
      match to_usize o with
      | None => Ret (concrete (zeros size))
      | Some o =>
          let* stored := read_stored_bytes m o size in
          match stored with
          | Some b => Ret b
          | None => exprs (map (fun idx => byte m (usize_add o idx)) (range size))
          end
      end
  | None => exprs (map (fun idx => byte_dynamic_with_delta_and_bounds m offset idx minimum maximum) (range size))
  end.

Definition read_bytes_offset (m : SymMemory) (offset : SymExpr) (size : Z) : Outcome SymBytes :=
  read_bytes_offset_with_bounds m offset size 0 None.

Definition read_bytes (m : SymMemory) (offset size : Z) : Outcome SymBytes :=
  read_bytes_offset m (constant (U offset)) size.

Definition load_word (m : SymMemory) (offset : Z) : Outcome SymExpr :=
  let* b := read_bytes_offset m (constant (U offset)) 32 in word_at b 0.

Definition load_word_offset (m : SymMemory) (offset : SymExpr) : Outcome (SymExpr * SymMemory) :=
  match as_const offset with
  | Some o =>
      match to_usize o with
      | None => Ret (zero, m)
      | Some o =>
          let m := expand_to m (constant (U (size_after_access o 32))) in
          let* w := load_word m o in Ret (w, m)
      end
  | None =>
      let m := expand_to m (size_after_access_word offset 32) in
      let* b := read_bytes_offset m offset 32 in
      let* w := word_at b 0 in Ret (w, m)
  end.

Definition load_word_offset_with_bounds (m : SymMemory) (base : SymExpr) (relative_offset minimum_base : Z)
    (maximum_base : option Z) : Outcome SymExpr :=
  let offset := add_const base (U relative_offset) in
  let maximum := mx ← maximum_base; checked_add mx relative_offset in
  let minimum := if (relative_offset =? 0) || bool_decide (is_Some maximum)
                 then default 0 (checked_add minimum_base relative_offset) else 0 in
  let* b := read_bytes_offset_with_bounds m offset 32 minimum maximum in
  word_at b 0.

Definition read_bytes_symbolic_size (m : SymMemory) (offset size : SymExpr) (max_size : Z) : Outcome SymBytes :=
  match sym_eval size with
  | Some size =>
      let size := clamp_size size max_size in
      let* b := read_bytes_offset m offset size in
      Ret (concat [b; concrete (zeros (max_size - size))])
  | None =>
      let* b := read_bytes_offset m offset max_size in
      sized b size max_size
  end.

Definition read_byte_exprs (m : SymMemory) (offset size : Z) : Outcome (list SymExpr) :=
  let* b := read_bytes m offset size in Ret (materialize b).

Definition read_byte_exprs_offset (m : SymMemory) (offset : SymExpr) (size : Z) : Outcome (list SymExpr) :=
  let* b := read_bytes_offset m offset size in Ret (materialize b).

Definition read_byte_exprs_symbolic_size (m : SymMemory) (offset size : SymExpr) (max_size : Z)
    : Outcome (list SymExpr) :=
  let* b := read_bytes_symbolic_size m offset size max_size in Ret (materialize b).

(** [None] stands for the error [Unsupported("symbolic memory read")]. *)
Definition read_concrete (m : SymMemory) (offset size : Z) : Outcome (option (list Z)) :=
  let* stored := read_stored_bytes m offset size in
  match stored with
  | Some b => concrete_bytes b
  | None => concrete_expr_bytes (map (fun idx => byte m (usize_add offset idx)) (range size))
  end.
End Ops.
End SMemory.

(** ** Calldata and return data *)
Record SymCalldata := mkCalldata { cd_size : Z; cd_size_word : SymExpr; cd_bytes : SymBytes }.
Record SymReturnData := mkReturnData { len_word : SymExpr; rd_bytes : SymBytes }.

Module SCalldata.
Section Ops.
Context `{SA : SignedArith, HF : HashFns}.

Definition from_bytes (b : SymBytes) : SymCalldata := mkCalldata (len b) (constant (U (len b))) b.

Definition size_word (c : SymCalldata) : SymExpr := cd_size_word c.

(** The loop of [load_dynamic], the last candidate innermost. *)
Fixpoint load_candidates (c : SymCalldata) (offset : SymExpr) (candidates : list Z) : Outcome SymExpr :=
  match candidates with
  | [] => Ret zero
  | candidate :: rest =>
      let* result := load_candidates c offset rest in
      let* w := word_at (cd_bytes c) candidate in
      Ret (ite (eq_exprs offset (constant (U candidate))) w result)
  end.

Definition load_dynamic (c : SymCalldata) (offset : SymExpr) : Outcome SymExpr :=
  load_candidates c offset (range (cd_size c)).

Definition load_word (c : SymCalldata) (offset : SymExpr) : Outcome SymExpr :=
  match as_const offset with
  | Some o => match to_usize o with None => Ret zero | Some o => word_at (cd_bytes c) o end
  | None => load_dynamic c offset
  end.

Definition read_bytes_offset (c : SymCalldata) (offset : SymExpr) (size : Z) : Outcome SymBytes :=
  read_offset (cd_bytes c) offset size.
End Ops.
End SCalldata.

Module SReturnData.
Section Ops.
Context `{SA : SignedArith, HF : HashFns}.

Definition from_bytes (b : SymBytes) : SymReturnData := mkReturnData (constant (U (len b))) b.
Definition empty : SymReturnData := mkReturnData zero SBytes.empty.
Definition from_words (words : list SymExpr) : SymReturnData := from_bytes (concat (map into_bytes words)).
Definition from_concrete_bytes (bytes : list Z) : SymReturnData := from_bytes (concrete bytes).
Definition from_byte_exprs (bytes : list SymExpr) : Outcome SymReturnData :=
  let* b := exprs bytes in Ret (from_bytes b).
Definition len (r : SymReturnData) : Z := SBytes.len (rd_bytes r).
Definition byte (r : SymReturnData) (offset : Z) : SymExpr := SBytes.byte (rd_bytes r) offset.
Definition read_bytes_offset (r : SymReturnData) (offset : SymExpr) (size : Z) : Outcome SymBytes :=
  read_offset (rd_bytes r) offset size.
Definition read_concrete (r : SymReturnData) : Outcome (option (list Z)) := concrete_bytes (rd_bytes r).
End Ops.
End SReturnData.

(** ** Copies into memory *)
Module SCopy.
Section Ops.
Context `{SA : SignedArith, HF : HashFns}.
Import SMemory.

Definition copy_size_byte (idx : Z) (size source existing : SymExpr) : SymExpr :=
  ite (cmp Ult (constant (U idx)) size) source existing.

Definition copy_size_byte_at (m : SymMemory) (dest idx : Z) (size source : SymExpr) : SymExpr :=
  copy_size_byte idx size source (byte m dest).

Definition copy_bytes_size_offset (m : SymMemory) (dest size : SymExpr) (src : SymBytes) : Outcome SymMemory :=
  if is_empty src then Ret m
  else match sym_eval size with
  | Some size =>
      let size := clamp_size size (len src) in
      if size =? 0 then Ret m
      else let* src := slice_concrete src 0 size in Ret (store_bytes_offset m dest src)
  | None =>
      match as_const dest with
      | Some d =>
          match to_usize d with
          | None => Ret m
          | Some d =>
              let* bytes := exprs (map (fun idx =>
                copy_size_byte_at m (usize_add d idx) idx size (SBytes.byte src idx)) (range (len src))) in
              Ret (store_symbolic_sized_bytes m (constant (U d)) bytes size)
          end
      | None =>
          let* bytes := exprs (map (fun idx =>
            copy_size_byte idx size (SBytes.byte src idx) (byte_dynamic_with_delta m dest idx)) (range (len src))) in
          Ret (store_symbolic_sized_bytes m dest bytes size)
      end
  end.

Definition copy_calldata_to_offset (m : SymMemory) (dest offset : SymExpr) (size : Z) (calldata : SymCalldata)
    : Outcome SymMemory :=
  let* bytes := match as_const offset with
                | Some o => match to_usize o with
                            | None => Ret (concrete (zeros size))
                            | Some _ => SCalldata.read_bytes_offset calldata offset size
                            end
                | None => SCalldata.read_bytes_offset calldata offset size
                end in
  Ret (store_bytes_offset m dest bytes).

Definition copy_calldata_symbolic_size (m : SymMemory) (dest offset size : SymExpr) (max_size : Z)
    (calldata : SymCalldata) : Outcome SymMemory :=
  let* bytes := SCalldata.read_bytes_offset calldata offset max_size in
  copy_bytes_size_offset m dest size bytes.

Definition out_of_bounds : SymbolicError := Unsupported "out-of-bounds symbolic RETURNDATACOPY".

(** The bounds test of the RETURNDATACOPY handlers. *)
Definition return_range_ok (offset : SymExpr) (size : Z) (return_data : SymReturnData) : bool :=
  match as_const offset with
  | Some o => match to_usize o with
              | None => false
              | Some o => sat_add o size <=? SReturnData.len return_data
              end
  | None => true
  end.

Definition copy_return_data_to_offset (m : SymMemory) (dest offset : SymExpr) (size : Z)
    (return_data : SymReturnData) : Outcome (SymMemory + SymbolicError) :=
  if size =? 0 then Ret (inl m)
  else if return_range_ok offset size return_data then
    let* bytes := SReturnData.read_bytes_offset return_data offset size in
    Ret (inl (store_bytes_offset m dest bytes))
  else Ret (inr out_of_bounds).

Definition copy_return_data_symbolic_size (m : SymMemory) (dest offset size : SymExpr) (max_size : Z)
    (return_data : SymReturnData) : Outcome (SymMemory + SymbolicError) :=
  if max_size =? 0 then Ret (inl m)
  else if return_range_ok offset max_size return_data then
    let* bytes := SReturnData.read_bytes_offset return_data offset max_size in
    let* m := copy_bytes_size_offset m dest size bytes in Ret (inl m)
  else Ret (inr out_of_bounds).

Definition call_output_existing_byte (m : SymMemory) (dest : SymExpr) (idx : Z) : SymExpr :=
  match as_const dest with
  | Some d => match to_usize d with Some d => byte m (usize_add d idx) | None => zero end
  | None => byte_dynamic_with_delta m dest idx
  end.

Definition call_output_byte (m : SymMemory) (dest : SymExpr) (idx : Z) (output_size : option SymExpr)
    (return_data : SymReturnData) : SymExpr :=
  let guards :=
    (match output_size with Some size => [cmp Ult (constant (U idx)) size] | None => [] end) ++
    (match as_const (len_word return_data) with
     | None => [cmp Ult (constant (U idx)) (len_word return_data)]
     | Some _ => []
     end) in
  let guard := SBool.and guards in
  match SBool.as_const guard with
  | Some true => SReturnData.byte return_data idx
  | Some false => call_output_existing_byte m dest idx
  | None => ite guard (SReturnData.byte return_data idx) (call_output_existing_byte m dest idx)
  end.

Definition copy_call_output_offset (m : SymMemory) (dest : SymExpr) (size : BoundedCopySize)
    (return_data : SymReturnData) : Outcome SymMemory :=
  match size with
  | CopyConcrete size =>
      if size =? 0 then Ret m
      else
        let copy_size := Z.min size (SReturnData.len return_data) in
        let* bytes := match as_const (len_word return_data) with
                      | None => exprs (map (fun idx => call_output_byte m dest idx None return_data) (range copy_size))
                      | Some _ => SReturnData.read_bytes_offset return_data zero copy_size
                      end in
        Ret (store_symbolic_sized_bytes m dest bytes (constant (U size)))
  | CopySymbolic size max_size =>
      if max_size =? 0 then Ret m
      else
        let copy_size := Z.min max_size (SReturnData.len return_data) in
        let* bytes := exprs (map (fun idx => call_output_byte m dest idx (Some size) return_data) (range copy_size)) in
        Ret (store_symbolic_sized_bytes m dest bytes size)
  end.

Definition copy_memory_to_offset (m : SymMemory) (dest src : SymExpr) (size : Z) : Outcome SymMemory :=
  if size =? 0 then Ret m
  else let* bytes := read_bytes_offset m src size in Ret (store_bytes_offset m dest bytes).

Definition copy_memory_symbolic_size (m : SymMemory) (dest src size : SymExpr) (max_size : Z) : Outcome SymMemory :=
  if max_size =? 0 then Ret m
  else let* source := read_bytes_offset m src max_size in copy_bytes_size_offset m dest size source.

Definition return_data (m : SymMemory) (offset : SymExpr) (size : Z) : Outcome SymReturnData :=
  let* bytes := read_bytes_offset m offset size in Ret (SReturnData.from_bytes bytes).

Definition return_data_symbolic_size (m : SymMemory) (offset size : SymExpr) (max_size : Z) : Outcome SymReturnData :=
  let* bytes := read_bytes_symbolic_size m offset size max_size in Ret (mkReturnData size bytes).

(** [BoundedCopySize] (calldata.rs). *)
Definition bounded_size_word (s : BoundedCopySize) : SymExpr :=
  match s with CopyConcrete n => constant (U n) | CopySymbolic size _ => size end.

Definition expand_memory (s : BoundedCopySize) (m : SymMemory) (offset : SymExpr) : SymMemory :=
  expand_range m offset (bounded_size_word s).

Definition read_from_memory (s : BoundedCopySize) (m : SymMemory) (offset : SymExpr) : Outcome SymBytes :=
  match s with
  | CopyConcrete size => read_bytes_offset m offset size
  | CopySymbolic size max_size => read_bytes_symbolic_size m offset size max_size
  end.

Definition parts (s : BoundedCopySize) : SymExpr * Z * bool :=
  match s with
  | CopyConcrete n => (constant (U n), n, false)
  | CopySymbolic size max_size => (size, max_size, true)
  end.

Definition calldata (s : BoundedCopySize) (input : SymBytes) : SymCalldata :=
  match s with
  | CopyConcrete _ => SCalldata.from_bytes input
  | CopySymbolic size _ => mkCalldata (len input) size input
  end.
End Ops.
End SCopy.

(** ** Code

    revm's jump table and its analysis of legacy bytecode are parameters. *)
Section Code.
Context `{SA : SignedArith, HF : HashFns}.
Context {JumpTable : Type} (default_table : JumpTable) (legacy_jump_table : list Z -> JumpTable).

Record SymCode := mkCode { code_bytes : SymBytes; jump_table : JumpTable }.

Inductive GuardedOpcode :=
  | OpEnd
  | OpConcrete (opcode : Z)
  | OpSymbolicSize (condition : SymBoolExpr) (opcode : Z).

Definition code_empty : SymCode := mkCode empty default_table.

(** [opcode::STOP] for the bytes that are not constant. *)
Fixpoint analysis_bytes (bytes : list SymExpr) : Outcome (list Z) :=
  match bytes with
  | [] => Ret []
  | b :: rest =>
      let* n := match as_const b with Some v => to_u8 v | None => Ret 0 end in
      let* ns := analysis_bytes rest in Ret (n :: ns)
  end.

Definition code_from_bytes (b : SymBytes) : Outcome SymCode :=
  let* analysis := match as_concrete_slice b with
                   | Some bytes => Ret bytes
                   | None => analysis_bytes (materialize b)
                   end in
  Ret (mkCode b (legacy_jump_table analysis)).

Definition code_from_byte_exprs (bytes : list SymExpr) : Outcome SymCode :=
  let* b := exprs bytes in code_from_bytes b.

Definition code_concrete (bytes : list Z) : SymCode := mkCode (concrete bytes) (legacy_jump_table bytes).

Definition code_from_memory_offset (m : SymMemory) (offset : SymExpr) (size : Z) : Outcome SymCode :=
  let* b := SMemory.read_bytes_offset m offset size in code_from_bytes b.

Definition code_from_memory_symbolic_size (m : SymMemory) (offset size : SymExpr) (max_size : Z) : Outcome SymCode :=
  let* b := SMemory.read_bytes_symbolic_size m offset size max_size in code_from_bytes b.

Definition code_len (c : SymCode) : Z := len (code_bytes c).
Definition code_is_empty (c : SymCode) : bool := is_empty (code_bytes c).

Definition symbolic_opcode : SymbolicError := Unsupported "symbolic bytecode opcode".

Definition opcode (c : SymCode) (pc : Z) : Outcome (option Z + SymbolicError) :=
  if code_len c <=? pc then Ret (inl None)
  else match as_const (byte (code_bytes c) pc) with
       | Some v => let* n := to_u8 v in Ret (inl (Some n))
       | None => Ret (inr symbolic_opcode)
       end.

Definition guarded_opcode (c : SymCode) (pc : Z) : Outcome (GuardedOpcode + SymbolicError) :=
  if code_len c <=? pc then Ret (inl OpEnd)
  else
  let b := byte (code_bytes c) pc in
  match as_const b with
  | Some v => let* n := to_u8 v in Ret (inl (OpConcrete n))
  | None =>
      match b with
      | EIte condition then_expr else_expr =>
          if match as_const else_expr with Some v => is_zero v | None => false end then
            match as_const then_expr with
            | Some v => if is_zero v then Ret (inl (OpConcrete 0))
                        else let* n := to_u8 v in Ret (inl (OpSymbolicSize condition n))
            | None => Ret (inr symbolic_opcode)
            end
          else Ret (inr symbolic_opcode)
      | _ => Ret (inr symbolic_opcode)
      end
  end.

(** The loop of [concrete_range]; [None] is the error [Unsupported(reason)]. *)
Fixpoint code_range (c : SymCode) (offset : Z) (idxs : list Z) : Outcome (option (list Z)) :=
  match idxs with
  | [] => Ret (Some [])
  | idx :: rest =>
      let i := usize_add offset idx in
      if code_len c <=? i then
        let* ns := code_range c offset rest in Ret (option_map (cons 0) ns)
      else match as_const (byte (code_bytes c) i) with
           | Some v => let* n := to_u8 v in
                       let* ns := code_range c offset rest in Ret (option_map (cons n) ns)
           | None => Ret None
           end
  end.

(** [out.resize(size, 0)] of a vector that is not longer. *)
Definition resize (l : list Z) (size : Z) : list Z := l ++ zeros (size - zlen l).

Definition concrete_range (c : SymCode) (offset size : Z) : Outcome (option (list Z)) :=
  match as_concrete_slice (code_bytes c) with
  | Some bytes =>
      let end_ := Z.min (sat_add offset size) (zlen bytes) in
      Ret (Some (resize (if offset <? end_ then sub_list bytes offset (end_ - offset) else []) size))
  | None => code_range c offset (range size)
  end.

Definition code_concrete_bytes (c : SymCode) : Outcome (option (list Z)) := concrete_range c 0 (code_len c).

Definition code_read_bytes (c : SymCode) (offset size : Z) : Outcome SymBytes :=
  slice_concrete (code_bytes c) offset size.
Definition code_read_bytes_offset (c : SymCode) (offset : SymExpr) (size : Z) : Outcome SymBytes :=
  read_offset (code_bytes c) offset size.
Definition code_read_byte_exprs (c : SymCode) (offset size : Z) : Outcome (list SymExpr) :=
  let* b := code_read_bytes c offset size in Ret (materialize b).
Definition code_read_byte_exprs_offset (c : SymCode) (offset : SymExpr) (size : Z) : Outcome (list SymExpr) :=
  let* b := code_read_bytes_offset c offset size in Ret (materialize b).
Definition push_data_word (c : SymCode) (offset l : Z) : Outcome SymExpr :=
  right_aligned_word (code_bytes c) offset l.

Definition to_code (r : SymReturnData) : Outcome (SymCode + SymbolicError) :=
  match as_const (len_word r) with
  | None => Ret (inr (Unsupported "CREATE with symbolic runtime size not modeled"))
  | Some _ => let* c := code_from_bytes (rd_bytes r) in Ret (inl c)
  end.
End Code.
