(* ===== verification/SymMemSpec.v ===== *)
(** * SymMemSpec: the abstract memory and the refinement of the write list

    [mem_at] maps every address below 2^256 to a byte: the value of the last
    write that covers it, where a write at offset [o] covers the addresses
    [o, o + 1, ...] modulo 2^256.  [mem_ok] is the invariant of the write list.
    The lemmas show that every store keeps the invariant and updates the
    abstract memory, and that every read returns the abstract bytes. *)

From Stdlib Require Import ZArith Lia Bool Permutation.
From stdpp Require Import base list option sets.
From S2P Require Import Prelude SymWord SymExpr SymSimpl SymSound SymCmp SymBytes SymSeq SymMem.
Local Open Scope Z_scope.
Local Open Scope outcome_scope.
Import SBytes SMemory.

Section MemSpec.
Context `{SA : SignedArith, HF : HashFns}.
Variable model : SymbolicModel.
Abbreviation den := (denote_word model).
Abbreviation denb := (denote_bool model).
Abbreviation val := (den_val model).

(** ** The abstract memory *)
Definition write_index (w : SymbolicMemoryWrite) (a : Z) : Z := (a - val (w_offset w)) mod word_modulus.
Definition covers (w : SymbolicMemoryWrite) (a : Z) : bool := write_index w a <? len (w_bytes w).

(** The byte at [a] that the writes leave, newest first. *)
Fixpoint read_newest (writes : list SymbolicMemoryWrite) (a : Z) : Z :=
  match writes with
  | [] => 0
  | w :: rest => if covers w a then seq_at model (w_bytes w) (write_index w a) else read_newest rest a
  end.

Definition mem_at (m : SymMemory) (a : Z) : Z := read_newest (rev (symbolic_writes m)) a.

(** ** The invariant *)
Definition write_ok (w : SymbolicMemoryWrite) : Prop :=
  seq_ok model (w_bytes w) /\ defined model (w_offset w) /\
  (forall a, 0 <= a < minimum_offset w -> covers w a = false).

Definition mem_ok (m : SymMemory) : Prop :=
  Forall write_ok (symbolic_writes m) /\ usize_ok (materialized_size m) /\
  match logical_size m with Some e => defined model e | None => True end.

Context {SL : SignedArithLaws}.

Lemma read_newest_range ws a : Forall write_ok ws -> 0 <= read_newest ws a < 256.
Proof. induction 1 as [|w ws Hw _ IH]; simpl; [lia|]. case_match; [|done]. by apply seq_at_range, Hw. Qed.

Lemma mem_at_range m a : mem_ok m -> 0 <= mem_at m a < 256.
Proof. intros [Hw _]. by apply read_newest_range, Forall_rev. Qed.

(** A write at a concrete offset covers a contiguous range. *)
Lemma write_index_concrete w o a :
  concrete_offset w = Some o -> seq_ok model (w_bytes w) -> 0 <= a <= usize_max ->
  covers w a = (o <=? a) && (a <? o + len (w_bytes w)) /\ (o <= a -> write_index w a = a - o).
Proof.
  intros Ho Hw Ha. apply eval_usize_sound with (model := model) in Ho as (Hv & _ & Ho).
  destruct (len_usize model _ Hw) as [Hl0 Hl]. unfold covers, write_index. rewrite Hv. unfold usize_ok, usize_max in *.
  destruct (Z.leb_spec o a) as [Hle|Hlt].
  - rewrite Z.mod_small by (change word_modulus with (2 ^ 256); lia). split; [|done]. simpl.
    destruct (Z.ltb_spec (a - o) (len (w_bytes w))), (Z.ltb_spec a (o + len (w_bytes w))); lia.
  - split; [|lia]. simpl. rewrite <- (Z_mod_plus_full _ 1), Z.mod_small by (change word_modulus with (2 ^ 256); lia).
    change word_modulus with (2 ^ 256). apply Z.ltb_ge. lia.
Qed.

(** ** The writes at one concrete address *)
Lemma den_add_const e v k : den e = Some v -> 0 <= k -> den (add_const e (U k)) = Some (U (uval v + k)).
Proof.
  intros Hv Hk. unfold add_const. destruct (is_zero (U k)) eqn:E.
  - apply is_zero_true in E. rewrite Hv. f_equal. apply uval_inj. rewrite uval_U.
    assert (k mod word_modulus = 0) by (rewrite <- (uval_U k), E; done).
    rewrite <- (Zplus_mod_idemp_r k), H, Z.add_0_r. symmetry. apply Z.mod_small, uval_range.
  - assert (Hadd : wrapping_add v (U k) = U (uval v + k)).
    { unfold wrapping_add. apply uval_inj. rewrite !uval_U. apply Zplus_mod_idemp_r. }
    rewrite <- Hadd. destruct e; try by apply (den_binop model Add); [|apply (den_constant model)].
    simpl in Hv. simplify_eq. apply (den_constant model).
Qed.

(** The offset of byte [idx] of a write equals the target exactly at the
    target's index. *)
Lemma offset_hits w t idx o :
  den (w_offset w) = Some o -> 0 <= idx < word_modulus ->
  u_eqb (U (uval o + idx)) t = (idx =? write_index w (uval t)).
Proof.
  intros Ho Hidx. unfold write_index, u_eqb. rewrite (den_val_Some _ _ _ Ho), uval_U.
  pose proof (uval_range o). pose proof (uval_range t).
  destruct (Z.eqb_spec idx ((uval t - uval o) mod word_modulus)) as [->|Hne].
  - rewrite Zplus_mod_idemp_r. replace (uval o + (uval t - uval o)) with (uval t) by lia.
    rewrite Z.mod_small by done. apply Z.eqb_refl.
  - apply Z.eqb_neq. intros Heq. apply Hne. rewrite <- Heq, Zminus_mod_idemp_l.
    replace (uval o + idx - uval o) with idx by lia. by rewrite Z.mod_small.
Qed.

Lemma overlay_write_sound w target result t r :
  write_ok w -> den target = Some t -> den result = Some (U r) ->
  (forall idx, 0 <= idx < len (w_bytes w) -> comparable (add_const (w_offset w) (U idx)) target = true) ->
  den (overlay_write w target result) =
    Some (U (if covers w (uval t) then seq_at model (w_bytes w) (write_index w (uval t)) else r)).
Proof.
  intros (Hb & [o Ho] & _) Ht Hr Hc. unfold overlay_write, covers. set (ix := write_index w (uval t)).
  destruct (len_usize model _ Hb) as [Hl0 Hl].
  assert (Hgen : forall l r result, Forall (fun i => 0 <= i < len (w_bytes w)) l -> den result = Some (U r) ->
    den (fold_left (fun result idx => ite (eq_exprs (add_const (w_offset w) (U idx)) target)
           (SBytes.byte (w_bytes w) idx) result) l result) =
      Some (U (if bool_decide (ix ∈ l) then seq_at model (w_bytes w) ix else r))).
  { clear r result Hr. induction l as [|i l IH]; intros r result Hl' Hr; simpl; [done|]. inversion_clear Hl' as [|? ? Hi Hrest].
    assert (Hstep : den (ite (eq_exprs (add_const (w_offset w) (U i)) target) (SBytes.byte (w_bytes w) i) result) =
      Some (U (if i =? ix then seq_at model (w_bytes w) ix else r))).
    { eapply den_ite.
      - apply (cmp_refines model Eq _ _ (Hc i Hi)). apply (den_cmp_intro model Eq _ _ (U (uval o + i)) t); [|done].
        apply den_add_const; [done|lia].
      - cbn [cmpop_eval]. rewrite (offset_hits w) by (done || change word_modulus with (2 ^ 256); unfold usize_max in *; lia).
        fold ix. destruct (Z.eqb_spec i ix) as [->|]; [|done]. apply (byte_sound model); [done|]. unfold usize_ok. lia. }
    rewrite (IH _ _ Hrest Hstep). do 2 f_equal.
    destruct (Z.eqb_spec i ix) as [->|]; repeat case_bool_decide; set_solver. }
  rewrite (Hgen _ r result); [|apply Forall_forall; intros i; apply elem_of_range|done].
  do 2 f_equal. assert (0 <= ix) by (apply Z.mod_pos_bound; done).
  case_bool_decide as Hin; rewrite elem_of_range in Hin; destruct (Z.ltb_spec ix (len (w_bytes w))); done || lia.
Qed.

(** One write in the reading order of [byte]. *)
Definition write_over (w : SymbolicMemoryWrite) (a r : Z) : Z :=
  if covers w a then seq_at model (w_bytes w) (write_index w a) else r.

Lemma read_newest_app ws w a : read_newest (rev (ws ++ [w])) a = write_over w a (read_newest (rev ws) a).
Proof. by rewrite rev_app_distr. Qed.

Lemma concrete_byte_sound w a :
  write_ok w -> usize_ok a ->
  match concrete_byte w a with
  | Some b => covers w a = true /\ den b = Some (U (seq_at model (w_bytes w) (write_index w a)))
  | None => is_Some (concrete_offset w) -> covers w a = false
  end.
Proof.
  intros (Hb & _) Ha. unfold concrete_byte, concrete_byte_index.
  destruct (concrete_offset w) as [o|] eqn:Eo; simpl; [|by intros []].
  destruct (write_index_concrete w o a Eo Hb Ha) as [-> Hidx]. unfold checked_sub.
  destruct (len_usize model _ Hb). unfold usize_ok in *.
  destruct (Z.leb_spec o a); simpl; [|done]. rewrite Hidx by done.
  destruct (Z.ltb_spec (a - o) (len (w_bytes w))), (Z.ltb_spec a (o + len (w_bytes w))); simpl; try lia; try done.
  split; [done|]. apply (byte_sound model); [done|]. unfold usize_ok. apply eval_usize_sound with (model := model) in Eo as (_ & _ & Eo).
  unfold usize_ok in Eo. lia.
Qed.

Lemma overlay_writes_sound ws a result r :
  Forall write_ok ws -> usize_ok a -> den result = Some (U r) ->
  den (overlay_writes ws a result) = Some (U (fold_left (fun r w => write_over w a r) ws r)).
Proof.
  intros Hws Ha. revert result r. induction Hws as [|w ws Hw _ IH]; intros result r Hr; cbn [overlay_writes fold_left]; [done|].
  pose proof (concrete_byte_sound w a Hw Ha) as Hc. unfold write_over at 2. destruct (concrete_byte w a) as [b|].
  { destruct Hc as [-> Hb]. by apply IH. }
  case_bool_decide as Hs; [rewrite Hc by done; by apply IH|].
  destruct (Z.ltb_spec a (minimum_offset w)).
  { destruct Hw as (_ & _ & Hmin). rewrite Hmin by (destruct Ha; lia). by apply IH. }
  apply IH. assert (Hu : uval (U a) = a).
  { apply uval_U_small. change word_modulus with (2 ^ 256). unfold usize_ok, usize_max in *. lia. }
  rewrite (overlay_write_sound w (constant (U a)) result (U a) r); [by rewrite Hu|done|apply (den_constant model)|done|].
  intros. unfold comparable. by rewrite const_no_hash, orb_true_r.
Qed.

Lemma fold_write_over ws a : fold_left (fun r w => write_over w a r) ws 0 = read_newest (rev ws) a.
Proof.
  induction ws as [|w ws IH] using rev_ind; [done|]. by rewrite fold_left_app, read_newest_app, <- IH.
Qed.

Lemma last_concrete_spec ws a b rest :
  last_concrete ws a = Some (b, rest) ->
  exists pre w, ws = pre ++ w :: rest /\ concrete_byte w a = Some b.
Proof.
  revert b rest. induction ws as [|w ws IH]; intros b rest; cbn [last_concrete]; [done|].
  destruct (last_concrete ws a) as [[b' r']|].
  - intros. simplify_eq. destruct (IH b rest eq_refl) as (pre & w' & -> & Hw). by exists (w :: pre), w'.
  - destruct (concrete_byte w a) eqn:E; intros; simplify_eq. by exists [], w.
Qed.

(** The byte at a concrete address. *)
Lemma mem_byte_sound m a : mem_ok m -> usize_ok a -> den (byte m a) = Some (U (mem_at m a)).
Proof.
  intros [Hws _] Ha. unfold byte, mem_at. rewrite <- fold_write_over.
  destruct (last_concrete (symbolic_writes m) a) as [[b rest]|] eqn:E.
  2:{ apply overlay_writes_sound; [done..|apply (den_zero model)]. }
  apply last_concrete_spec in E as (pre & w & Heq & Hb). rewrite Heq in *. apply Forall_app in Hws as [_ Hws].
  inversion_clear Hws as [|? ? Hw Hrest]. pose proof (concrete_byte_sound w a Hw Ha) as Hc. rewrite Hb in Hc.
  destruct Hc as [Hcov Hden]. rewrite fold_left_app. cbn [fold_left]. unfold write_over at 2. rewrite Hcov.
  by apply overlay_writes_sound.
Qed.

(** ** A byte at a symbolic address *)

(** What a caller knows about the start of a read: it is at least [minimum]
    and, if there is one, at most [maximum]. *)
Definition read_bounds (o minimum : Z) (maximum : option Z) : Prop :=
  0 <= minimum <= o /\ match maximum with Some mx => o <= mx <= usize_max | None => True end.

(** Every address that a read of [size] bytes forms can be compared exactly
    with the offset of a write. *)
Definition readable (m : SymMemory) (offset : SymExpr) (size : Z) : Prop :=
  forall w delta idx, w ∈ symbolic_writes m -> 0 <= delta < size -> 0 <= idx < len (w_bytes w) ->
    comparable (add_const (w_offset w) (U idx)) (add_const offset (U delta)) = true.

Lemma write_end_Some w e :
  write_end w = Some e -> exists o, concrete_offset w = Some o /\ e = o + len (w_bytes w) /\ e <= usize_max.
Proof.
  unfold write_end. destruct (concrete_offset w) as [o|]; simpl; [|done]. unfold checked_add. case_match; [|done].
  intros. simplify_eq. exists o. split_and!; [done..|lia].
Qed.

Lemma beyond_bounded m a :
  mem_ok m -> all_writes_bounded m = true -> materialized_size m <= a < word_modulus -> mem_at m a = 0.
Proof.
  intros (Hws & Hms & _) Hall Ha. unfold mem_at, all_writes_bounded in *. rewrite forallb_forall in Hall.
  assert (Hno : Forall (fun w => covers w a = false) (rev (symbolic_writes m))).
  { apply Forall_rev, Forall_forall. intros w Hw. rewrite Forall_forall in Hws. destruct (Hws w Hw) as (Hb & _).
    specialize (Hall w (proj1 (list_elem_of_In _ _) Hw)). destruct (write_end w) as [e|] eqn:E; [|done].
    apply write_end_Some in E as (o & Ho & -> & He). apply eval_usize_sound with (model := model) in Ho as (Hv & _ & Ho).
    destruct (len_usize model _ Hb). unfold covers, write_index. rewrite Hv. unfold usize_ok in *.
    rewrite Z.mod_small by lia. lia. }
  induction Hno as [|w ws Hw _ IH]; simpl; [done|]. by rewrite Hw.
Qed.

Lemma skip_write_sound w minimum_target maximum_target a :
  write_ok w -> skip_write w minimum_target maximum_target = true ->
  0 <= minimum_target <= a -> a < word_modulus ->
  match maximum_target with Some t => a <= t | None => True end -> covers w a = false.
Proof.
  intros (Hb & _ & Hmin) Hs Ha Hw Hmax. unfold skip_write in Hs. apply orb_prop in Hs as [Hs|Hs].
  - destruct (write_end w) as [e|] eqn:E; [|done]. apply write_end_Some in E as (o & Ho & -> & He).
    apply eval_usize_sound with (model := model) in Ho as (Hv & _ & Ho).
    destruct (len_usize model _ Hb). unfold covers, write_index. rewrite Hv. unfold usize_ok in *.
    rewrite Z.mod_small by lia. lia.
  - destruct maximum_target as [t|]; [|done]. apply Hmin. lia.
Qed.

Lemma read_write_sound w gas target result t r :
  write_ok w -> den target = Some t -> den result = Some (U r) ->
  (forall idx, 0 <= idx < len (w_bytes w) -> comparable (add_const (w_offset w) (U idx)) target = true) ->
  den (read_write w gas target result) = Some (U (write_over w (uval t) r)).
Proof.
  intros Hw Ht Hr Hc. unfold read_write.
  destruct (if negb gas && negb (contains_gasleft (w_offset w)) then constant_difference target (w_offset w) else None)
    as [index|] eqn:E; [|by apply overlay_write_sound].
  assert (Hd : constant_difference target (w_offset w) = Some index) by (by destruct (_ && _)).
  destruct Hw as (Hb & [o Ho] & _).
  assert (Hidx : write_index w (uval t) = uval index).
  { unfold write_index. rewrite (den_val_Some _ _ _ Ho).
    rewrite <- (difference_sound model _ _ _ Hd _ _ Ht Ho). unfold wrapping_sub. by rewrite uval_U. }
  unfold write_over, covers. rewrite Hidx. destruct (len_usize model _ Hb). unfold to_usize.
  destruct (Z.leb_spec (uval index) usize_max).
  - destruct (Z.ltb_spec (uval index) (len (w_bytes w))); [|done]. apply (byte_sound model); [done|].
    pose proof (uval_range index). unfold usize_ok. lia.
  - destruct (Z.ltb_spec (uval index) (len (w_bytes w))); [lia|done].
Qed.

Lemma fold_read_sound ws gas target t minimum_target maximum_target :
  Forall write_ok ws -> den target = Some t -> 0 <= minimum_target <= uval t ->
  match maximum_target with Some mx => uval t <= mx | None => True end ->
  (forall w idx, w ∈ ws -> 0 <= idx < len (w_bytes w) -> comparable (add_const (w_offset w) (U idx)) target = true) ->
  forall result r, den result = Some (U r) ->
  den (fold_left (fun result w => if skip_write w minimum_target maximum_target then result
                                  else read_write w gas target result) ws result) =
    Some (U (fold_left (fun r w => write_over w (uval t) r) ws r)).
Proof.
  intros Hws Ht Hmin Hmax Hc. induction Hws as [|w ws Hw _ IH]; intros result r Hr; cbn [fold_left]; [done|].
  apply IH; [intros; apply Hc; [by right|done]|]. destruct (skip_write w minimum_target maximum_target) eqn:E.
  - unfold write_over. by rewrite (skip_write_sound w _ _ (uval t) Hw E Hmin (proj2 (uval_range t)) Hmax).
  - apply read_write_sound; [done..|]. intros idx Hi. apply Hc; [left|done].
Qed.

(** The byte at [offset + delta]. *)
Lemma dynamic_byte_sound m offset o delta minimum maximum :
  mem_ok m -> den offset = Some o -> 0 <= delta <= usize_max -> read_bounds (uval o) minimum maximum ->
  readable m offset (delta + 1) ->
  den (byte_dynamic_with_delta_and_bounds m offset delta minimum maximum) =
    Some (U (mem_at m ((uval o + delta) mod word_modulus))).
Proof.
  intros Hm Ho Hd [Hmin Hmax] Hc. pose proof Hm as (Hws & Hms & _). unfold byte_dynamic_with_delta_and_bounds.
  pose proof (uval_range o) as Hor. set (mt := mx ← maximum; checked_add mx delta).
  assert (Hmt : match mt with Some t => uval o + delta <= t <= usize_max | None => True end).
  { unfold mt. destruct maximum as [mx|]; simpl; [|done]. unfold checked_add. destruct (Z.leb_spec (mx + delta) usize_max); [lia|done]. }
  set (nonwrap := (delta =? 0) || bool_decide (is_Some mt)).
  assert (Hnw : nonwrap = true -> uval o + delta < word_modulus).
  { unfold nonwrap. intros [->%Z.eqb_eq|Hs%bool_decide_eq_true_1]%orb_prop; [lia|]. destruct Hs as [x Hx]. rewrite Hx in Hmt.
    change word_modulus with (2 ^ 256). unfold usize_max in *. lia. }
  destruct (all_writes_bounded m && nonwrap) eqn:E.
  - apply andb_prop in E as [Hall Hn]. apply Hnw in Hn. rewrite Z.mod_small by lia.
    rewrite (select_dynamic_sound model _ (mem_at m) _ _ _ o); [|done|lia|apply Hms|].
    + destruct (Z.ltb_spec (uval o + delta) (materialized_size m)); [done|]. by rewrite beyond_bounded by (done || lia).
    + intros c Hc'. apply mem_byte_sound; [done|]. destruct Hms. unfold usize_ok. lia.
  - set (target := add_const offset (U delta)). set (t := U (uval o + delta)).
    assert (Ht : den target = Some t) by (apply den_add_const; [done|lia]).
    assert (Hut : uval t = (uval o + delta) mod word_modulus) by apply uval_U. rewrite <- Hut.
    unfold mem_at. rewrite <- fold_write_over. apply fold_read_sound; try done.
    + destruct nonwrap eqn:En; [|pose proof (uval_range t); lia]. rewrite Hut, Z.mod_small by (specialize (Hnw eq_refl); lia).
      unfold checked_add. destruct (Z.leb_spec (minimum + delta) usize_max); simpl; lia.
    + destruct mt; [|done]. rewrite Hut, Z.mod_small; [lia|]. change word_modulus with (2 ^ 256). unfold usize_max in *. lia.
    + intros w idx Hw Hi. apply Hc; [done|lia|done].
Qed.

(** ** Reads whose writes all have concrete offsets

    The pieces found so far and the unresolved ranges tile the requested range;
    sorting the pieces by their start yields the tiling in order. *)
Fixpoint tiles (lo hi : Z) (l : list (Z * Z)) : Prop :=
  match l with
  | [] => lo = hi
  | (s, e) :: rest => s = lo /\ s < e /\ tiles e hi rest
  end.

Lemma tiles_app lo hi l k : tiles lo hi (l ++ k) <-> exists mid, tiles lo mid l /\ tiles mid hi k.
Proof.
  revert lo. induction l as [|[s e] l IH]; intros lo; simpl; [naive_solver|]. rewrite IH. naive_solver.
Qed.

Lemma tiles_le lo hi l : tiles lo hi l -> lo <= hi.
Proof. revert lo. induction l as [|[s e] l IH]; intros lo; simpl; [lia|]. intros (-> & Hlt & Ht%IH). lia. Qed.

Lemma tiles_start lo hi l s e : tiles lo hi l -> (s, e) ∈ l -> lo <= s /\ s < e <= hi.
Proof.
  revert lo. induction l as [|[s' e'] l IH]; intros lo; simpl; [by intros _ ?%not_elem_of_nil|].
  intros (-> & Hlt & Ht) [Heq|Hin]%elem_of_cons; [simplify_eq; apply tiles_le in Ht; lia|]. apply (IH e' Ht) in Hin. lia.
Qed.

(** Replacing one tile by tiles of the same range. *)
Lemma tiles_refine lo hi l s e sub rest :
  tiles lo hi l -> l ≡ₚ (s, e) :: rest -> tiles s e sub -> exists l', tiles lo hi l' /\ l' ≡ₚ sub ++ rest.
Proof.
  intros Hl Hp Hsub. assert (Hin : (s, e) ∈ l) by (rewrite Hp; left).
  apply list_elem_of_split in Hin as (l1 & l2 & ->). apply tiles_app in Hl as (mid & H1 & H2). simpl in H2.
  destruct H2 as (<- & Hlt & H2). exists (l1 ++ sub ++ l2). split.
  - apply tiles_app. exists s. split; [done|]. apply tiles_app. by exists e.
  - rewrite <- Permutation_middle in Hp. apply Permutation_cons_inv in Hp. rewrite <- Hp.
    rewrite !app_assoc. apply Permutation_app_tail, Permutation_app_comm.
Qed.

Definition piece_range (p : Z * SymBytes) : Z * Z := (fst p, fst p + len (snd p)).
Definition rel_range (offset : Z) (r : Z * Z) : Z * Z := (fst r - offset, snd r - offset).

(** A sorted list of pieces that is a permutation of a tiling is the tiling. *)
Lemma insert_piece_perm p l : insert_piece p l ≡ₚ p :: l.
Proof.
  induction l as [|q l IH]; simpl; [done|]. case_match; [done|]. rewrite IH. apply Permutation_swap.
Qed.

Lemma sort_pieces_perm l : sort_pieces l ≡ₚ l.
Proof. induction l as [|p l IH]; simpl; [done|]. by rewrite insert_piece_perm, IH. Qed.

Fixpoint sorted_keys (l : list (Z * SymBytes)) : Prop :=
  match l with [] => True | p :: rest => Forall (fun q => fst p <= fst q) rest /\ sorted_keys rest end.

Lemma insert_piece_sorted p l : sorted_keys l -> sorted_keys (insert_piece p l).
Proof.
  induction l as [|q l IH]; simpl; [done|]. intros [Hq Hl]. destruct (Z.leb_spec (fst p) (fst q)).
  - simpl. split_and!; [|done..]. constructor; [lia|]. eapply Forall_impl; [exact Hq|]. simpl. lia.
  - simpl. split; [|by apply IH]. rewrite insert_piece_perm. constructor; [lia|done].
Qed.

Lemma sort_pieces_sorted l : sorted_keys (sort_pieces l).
Proof. induction l as [|p l IH]; simpl; [done|]. by apply insert_piece_sorted. Qed.

Lemma sorted_tiling lo hi t l :
  tiles lo hi t -> sorted_keys l -> map piece_range l ≡ₚ t -> map piece_range l = t.
Proof.
  revert lo l. induction t as [|[s e] t IH]; intros lo l Ht Hs Hp.
  { by apply Permutation_nil_r in Hp. }
  destruct l as [|p l]; [by apply Permutation_nil_cons in Hp|]. simpl in *. destruct Ht as (-> & Hlt & Ht), Hs as [Hmin Hs].
  assert (Hhead : piece_range p = (lo, e)).
  { assert (Hin : piece_range p ∈ (lo, e) :: t) by (rewrite <- Hp; left).
    apply elem_of_cons in Hin as [->|Hin]; [done|]. exfalso.
    assert (Hlo : (lo, e) ∈ piece_range p :: map piece_range l) by (rewrite Hp; left).
    destruct (piece_range p) as [ps pe] eqn:Ep. apply (tiles_start _ _ _ _ _ Ht) in Hin.
    unfold piece_range in Ep. simplify_eq. apply elem_of_cons in Hlo as [Heq|Hlo]; [simplify_eq; lia|].
    apply list_elem_of_fmap in Hlo as (q & Hq & Hin'). unfold piece_range in Hq. simplify_eq.
    rewrite Forall_forall in Hmin. specialize (Hmin q Hin'). lia. }
  rewrite Hhead in *. f_equal. apply Permutation_cons_inv in Hp. by apply (IH e).
Qed.

(** The concatenation of tiling pieces. *)
Lemma tiled_parts l lo hi f :
  tiles lo hi (map piece_range l) ->
  Forall (fun p => represents model (snd p) (len (snd p)) (fun i => f (fst p + i))) l ->
  total_len (map snd l) = hi - lo /\ Forall (seq_ok model) (map snd l) /\
  forall i, 0 <= i < hi - lo -> parts_at (seq_at model) (map snd l) i = f (lo + i).
Proof.
  intros Ht Hl. revert lo Ht. induction Hl as [|p l (Hok & _ & Hat) Hl IH]; intros lo Ht; simpl in *; [split_and!; [lia|done|lia]|].
  destruct Ht as (Hlo & Hlt & Ht). subst lo. destruct (IH _ Ht) as (Htot & Hoks & Hrest). split_and!.
  - lia.
  - by constructor.
  - intros i Hi. destruct (Z.ltb_spec i (len (snd p))); [apply Hat; lia|]. rewrite Hrest by lia. f_equal. lia.
Qed.

Section Stored.
Variables (F : Z -> Z) (offset end_ : Z).
Hypothesis (Hoff : 0 <= offset) (Hend : end_ <= usize_max).

Definition piece_ok (p : Z * SymBytes) : Prop :=
  represents model (snd p) (len (snd p)) (fun i => F (offset + fst p + i)).

(** What is known of an unresolved range: it lies in the request and the
    writes that are left decide its bytes. *)
Definition open_range (ws : list SymbolicMemoryWrite) (r : Z * Z) : Prop :=
  offset <= fst r /\ fst r < snd r <= end_ /\ forall a, fst r <= a < snd r -> F a = read_newest ws a.

Lemma split_range_spec w ws wo r :
  write_ok w -> concrete_offset w = Some wo -> wo + len (w_bytes w) <= usize_max -> open_range (w :: ws) r ->
  exists nu ps sub, split_range (w_bytes w) offset wo (wo + len (w_bytes w)) r = Ret (nu, ps) /\
    tiles (fst r - offset) (snd r - offset) sub /\ sub ≡ₚ map piece_range ps ++ map (rel_range offset) nu /\
    Forall piece_ok ps /\ Forall (open_range ws) nu.
Proof.
  intros (Hb & _) Hwo Hwe (Hlo & Hr & HFa). destruct r as [s e]. cbn [fst snd] in *. unfold split_range.
  destruct (len_usize model _ Hb) as [Hl0 Hl]. pose proof Hwo as Hwo'.
  apply eval_usize_sound with (model := model) in Hwo' as (_ & _ & Hwb). unfold usize_ok in *.
  assert (Hcov : forall a, s <= a < e -> F a =
    if (wo <=? a) && (a <? wo + len (w_bytes w)) then seq_at model (w_bytes w) (a - wo) else read_newest ws a).
  { intros a Ha. rewrite HFa by done. cbn [read_newest].
    destruct (write_index_concrete w wo a Hwo Hb ltac:(lia)) as [-> Hi]. destruct (Z.leb_spec wo a); [by rewrite Hi|done]. }
  set (os := Z.max s wo). set (oe := Z.min e (wo + len (w_bytes w))). destruct (Z.leb_spec oe os) as [Hno|Hyes].
  - exists [(s, e)], [], [(s - offset, e - offset)]. split_and!; [done|simpl; lia|done|done|].
    constructor; [|done]. unfold open_range. cbn [fst snd]. split_and!; try lia. intros a Ha. rewrite Hcov by done.
    destruct (Z.leb_spec wo a), (Z.ltb_spec a (wo + len (w_bytes w))); simpl; done || lia.
  - destruct (slice_concrete_spec model (w_bytes w) (os - wo) (oe - os)) as (p & -> & Hp & Hplen & Hpat);
      [done|unfold usize_ok; lia..|right; lia|]. simpl obind.
    set (lft := if s <? os then [(s, os)] else []). set (rgt := if oe <? e then [(oe, e)] else []).
    exists (lft ++ rgt), [(os - offset, p)],
      (map (rel_range offset) lft ++ piece_range (os - offset, p) :: map (rel_range offset) rgt).
    split_and!; [done| | |constructor; [|done]|].
    + apply tiles_app. exists (os - offset). unfold lft, rgt, piece_range, rel_range. simpl. rewrite Hplen. split.
      * destruct (Z.ltb_spec s os); simpl; lia.
      * split_and!; [done|lia|]. destruct (Z.ltb_spec oe e); simpl; lia.
    + rewrite map_app. simpl. by rewrite Permutation_middle.
    + unfold piece_ok. cbn [fst snd]. rewrite Hplen. split_and!; [done..|]. intros i Hi. rewrite Hpat by done.
      rewrite Hcov by lia. destruct (Z.leb_spec wo (offset + (os - offset) + i)); [|lia].
      destruct (Z.ltb_spec (offset + (os - offset) + i) (wo + len (w_bytes w))); [|lia]. simpl. f_equal. lia.
    + unfold lft, rgt. apply Forall_app; split.
      * destruct (Z.ltb_spec s os); [|done]. constructor; [|done]. unfold open_range. cbn [fst snd]. split_and!; try lia.
        intros a Ha. rewrite Hcov by lia. destruct (Z.leb_spec wo a); [lia|done].
      * destruct (Z.ltb_spec oe e); [|done]. constructor; [|done]. unfold open_range. cbn [fst snd]. split_and!; try lia.
        intros a Ha. rewrite Hcov by lia. destruct (Z.ltb_spec a (wo + len (w_bytes w))); [lia|]. by rewrite andb_false_r.
Qed.

Lemma split_ranges_spec w ws wo unresolved lo hi t settled :
  write_ok w -> concrete_offset w = Some wo -> wo + len (w_bytes w) <= usize_max ->
  Forall (open_range (w :: ws)) unresolved ->
  tiles lo hi t -> t ≡ₚ settled ++ map (rel_range offset) unresolved ->
  exists nu ps t', split_ranges (w_bytes w) offset wo (wo + len (w_bytes w)) unresolved = Ret (nu, ps) /\
    tiles lo hi t' /\ t' ≡ₚ settled ++ map piece_range ps ++ map (rel_range offset) nu /\
    Forall piece_ok ps /\ Forall (open_range ws) nu.
Proof.
  intros Hw Hwo Hwe Hun. revert t settled. induction Hun as [|r unresolved Hr Hun IH]; intros t settled Ht Hp.
  { exists [], [], t. by split_and!. }
  cbn [split_ranges]. destruct (split_range_spec w ws wo r Hw Hwo Hwe Hr) as (nu1 & ps1 & sub & -> & Hsub & Hps & Hok1 & Hop1).
  destruct (tiles_refine lo hi t (fst r - offset) (snd r - offset) sub (settled ++ map (rel_range offset) unresolved))
    as (t1 & Ht1 & Hp1); [done| |done|].
  { rewrite Hp. simpl. by rewrite <- Permutation_middle. }
  destruct (IH t1 (settled ++ map piece_range ps1 ++ map (rel_range offset) nu1)) as (nu2 & ps2 & t2 & -> & Ht2 & Hp2 & Hok2 & Hop2);
    [done|rewrite Hp1, Hps; solve_Permutation|].
  simpl. exists (nu1 ++ nu2), (ps1 ++ ps2), t2. split_and!; [done..| |by apply Forall_app|by apply Forall_app].
  rewrite Hp2, !map_app. solve_Permutation.
Qed.

(** The loop over the writes keeps the tiling; at the end the ranges that are
    still unresolved hold zeros. *)
Lemma resolve_writes_spec ws unresolved pieces t hi :
  Forall write_ok ws -> Forall (open_range ws) unresolved -> Forall piece_ok pieces ->
  tiles 0 hi t -> t ≡ₚ map piece_range pieces ++ map (rel_range offset) unresolved ->
  exists r, resolve_writes ws offset end_ unresolved pieces = Ret r /\
    match r with
    | Some (un, ps) => Forall (open_range []) un /\ Forall piece_ok ps /\
        exists t', tiles 0 hi t' /\ t' ≡ₚ map piece_range ps ++ map (rel_range offset) un
    | None => True
    end.
Proof.
  intros Hws. revert unresolved pieces t. induction Hws as [|w ws Hw Hws IH]; intros unresolved pieces t Hun Hps Ht Hp;
    cbn [resolve_writes].
  { exists (Some (unresolved, pieces)). eauto 10. }
  destruct unresolved as [|u us] eqn:Eu.
  { exists (Some ([], pieces)). eauto 10. }
  rewrite <- Eu in *. clear u us Eu. destruct (concrete_offset w) as [wo|] eqn:Ewo; [|by exists None].
  unfold checked_add. destruct (Z.leb_spec (wo + len (w_bytes w)) usize_max) as [Hfit|]; [|by exists None].
  destruct ((wo + len (w_bytes w) <=? offset) || (end_ <=? wo)) eqn:Emiss.
  - apply (IH _ _ t); try done. eapply Forall_impl; [exact Hun|]. intros [s e] (H1 & H2 & H3). cbn [fst snd] in *.
    unfold open_range. cbn [fst snd]. split_and!; try lia. intros a Ha. rewrite H3 by done. cbn [read_newest].
    destruct (write_index_concrete w wo a Ewo (proj1 Hw) ltac:(lia)) as [-> _].
    apply orb_prop in Emiss as [Hm%Z.leb_le|Hm%Z.leb_le].
    + destruct (Z.ltb_spec a (wo + len (w_bytes w))); [lia|]. by rewrite andb_false_r.
    + destruct (Z.leb_spec wo a); [lia|done].
  - destruct (split_ranges_spec w ws wo unresolved 0 hi t (map piece_range pieces)) as (nu & ps & t' & -> & Ht' & Hp' & Hok & Hop);
      [done..|]. simpl obind. apply (IH _ _ t'); [done|by apply Forall_app|done|].
    rewrite Hp', map_app, app_assoc. done.
Qed.
End Stored.

(** A resolved read is the range of the abstract memory. *)
Lemma read_stored_spec m offset size :
  mem_ok m -> usize_ok offset -> usize_ok size ->
  exists r, read_stored_bytes m offset size = Ret r /\
    match r with
    | Some b => represents model b size (fun i => mem_at m (offset + i))
    | None => True
    end.
Proof.
  intros (Hws & _) [Ho _] [Hs0 Hs]. unfold read_stored_bytes.
  destruct (Z.eqb_spec size 0) as [->|]; [eexists; split; [done|apply empty_represents]|].
  unfold checked_add. destruct (Z.leb_spec (offset + size) usize_max) as [Hend|]; [|by exists None].
  destruct (resolve_writes_spec (mem_at m) offset (offset + size) Ho Hend (rev (symbolic_writes m))
    [(offset, offset + size)] [] [(0, size)] size) as (r & -> & Hr).
  { by apply Forall_rev. }
  { constructor; [|done]. unfold open_range. cbn [fst snd]. split_and!; try lia. done. }
  { done. }
  { simpl. lia. }
  { unfold rel_range. simpl. by replace (offset - offset) with 0 by lia; replace (offset + size - offset) with size by lia. }
  simpl obind. eexists; split; [done|]. destruct r as [[un ps]|]; [|done]. simpl option_map.
  destruct Hr as (Hun & Hps & t & Ht & Hp).
  set (fill := fun '(start, e) => (start - offset, concrete (zeros (e - start)))).
  set (l := sort_pieces (ps ++ map fill un)).
  assert (Hfill : Forall (fun r => piece_range (fill r) = rel_range offset r /\ piece_ok (mem_at m) offset (fill r)) un).
  { eapply Forall_impl; [exact Hun|]. intros [s e] (H1 & H2 & H3). cbn [fst snd] in *.
    destruct (zeros_represent model (e - s)) as (Hz & Hzl & Hzat); [unfold usize_ok; lia|].
    unfold piece_range, rel_range, piece_ok. simpl fst. simpl snd. rewrite Hzl. split; [f_equal; lia|].
    split_and!; [done..|]. intros i Hi. rewrite Hzat, H3 by lia. done. }
  assert (Hl : map piece_range l = t).
  { apply (sorted_tiling 0 size); [done|apply sort_pieces_sorted|]. unfold l. rewrite sort_pieces_perm, map_app, map_map, Hp.
    f_equiv. rewrite (map_ext_in _ (rel_range offset)); [done|]. intros r Hr%list_elem_of_In.
    rewrite Forall_forall in Hfill. by apply Hfill. }
  destruct (tiled_parts l 0 size (fun i => mem_at m (offset + i))) as (Htot & Hok & Hat).
  { by rewrite Hl. }
  { unfold l. rewrite sort_pieces_perm. apply Forall_app; split.
    - eapply Forall_impl; [exact Hps|]. intros p Hpk. eapply represents_ext, Hpk. intros i Hi. simpl. f_equal. lia.
    - apply Forall_map. eapply Forall_impl; [exact Hfill|]. intros r' [_ Hpk]. eapply represents_ext, Hpk.
      intros i Hi. simpl. f_equal. lia. }
  rewrite Z.sub_0_r in *. rewrite <- Htot. eapply represents_ext, concat_represents; [|done|lia].
  rewrite Htot. intros i Hi. rewrite Hat by done. f_equal.
Qed.

(** ** Sizes *)
Definition align32 (z : Z) : Z := z / 32 * 32.

(** The size that an access of [n] bytes at [o] expands the memory to. *)
Definition range_size (o n : Z) : Z := if n =? 0 then 0 else align32 (Z.min (word_modulus - 1) (o + n + 31)).

Lemma land_aligned z k : 5 <= k -> 0 <= z < 2 ^ k -> Z.land z (2 ^ k - 32) = align32 z.
Proof.
  intros Hk Hz. unfold align32. change 32 with (2 ^ 5). apply Z.bits_inj'. intros i Hi. rewrite Z.land_spec.
  rewrite <- Z.shiftr_div_pow2, <- Z.shiftl_mul_pow2, Z.shiftl_spec by lia.
  replace (2 ^ k - 2 ^ 5) with (Z.shiftl (Z.ones (k - 5)) 5).
  2:{ rewrite Z.shiftl_mul_pow2, Z.ones_equiv by lia. replace k with (k - 5 + 5) at 2 by lia. rewrite Z.pow_add_r by lia. lia. }
  rewrite Z.shiftl_spec by done. destruct (Z.ltb_spec i 5) as [H5|H5].
  - rewrite (Z.testbit_neg_r _ (i - 5)) by lia. rewrite (Z.testbit_neg_r _ (i - 5)) by lia. by rewrite andb_false_r.
  - rewrite Z.shiftr_spec by lia. replace (i - 5 + 5) with i by lia. destruct (Z.ltb_spec i k) as [Hik|Hik].
    + rewrite Z.ones_spec_low by lia. by rewrite andb_true_r.
    + rewrite Z.ones_spec_high by lia. rewrite andb_false_r. destruct (Z.eq_dec z 0) as [->|Hz0]; [by rewrite Z.bits_0|].
      symmetry. apply Z.bits_above_log2; [lia|]. assert (Z.log2 z < k); [|lia]. apply Z.log2_lt_pow2; lia.
Qed.

Lemma den_saturating_add l r a b :
  den l = Some a -> den r = Some b ->
  den (saturating_add_word l r) = Some (U (Z.min (word_modulus - 1) (uval a + uval b))).
Proof.
  intros Ha Hb. pose proof (uval_range a). pose proof (uval_range b).
  assert (Hsum : den (binop Add l r) = Some (wrapping_add a b)) by (by apply (den_binop model Add)).
  unfold saturating_add_word. eapply den_ite.
  { apply (cmp_refines_order model Ult); [done|]. by apply (den_cmp_intro model Ult _ _ (wrapping_add a b) a). }
  cbn [cmpop_eval]. unfold u_ltb, wrapping_add. rewrite uval_U. destruct (Z.ltb_spec (uval a + uval b) word_modulus).
  - rewrite Z.mod_small by lia. destruct (Z.ltb_spec (uval a + uval b) (uval a)); [lia|].
    rewrite Z.min_r by lia. exact Hsum.
  - rewrite <- (Z_mod_plus_full _ (-1)), Z.mod_small by lia.
    destruct (Z.ltb_spec (uval a + uval b + -1 * word_modulus) (uval a)); [|lia].
    rewrite Z.min_l by lia. apply (den_constant model).
Qed.

Lemma den_eq_word_const e v k : den e = Some v -> denb (eq_word_const e k) = Some (u_eqb v k).
Proof.
  intros Hv. unfold eq_word_const. destruct (as_const e) as [c|] eqn:E; [|by apply cmp_const_den].
  by rewrite (as_const_den _ _ _ _ E Hv).
Qed.

Lemma align32_bounds z : 0 <= z -> 0 <= align32 z <= z.
Proof. intros. unfold align32. pose proof (Z.mul_div_le z 32). pose proof (Z.div_pos z 32). lia. Qed.

Lemma range_size_word o n : 0 <= o -> 0 <= n -> 0 <= range_size o n < word_modulus.
Proof.
  intros Ho Hn. unfold range_size. destruct (Z.eqb_spec n 0); [done|].
  destruct (align32_bounds (Z.min (word_modulus - 1) (o + n + 31))); [|lia]. change word_modulus with (2 ^ 256). lia.
Qed.

(** The symbolic size is the size rounded up to words, saturating. *)
Lemma den_size_after_range offset size o n :
  den offset = Some o -> den size = Some n ->
  den (size_after_range_word offset size) = Some (U (range_size (uval o) (uval n))).
Proof.
  intros Ho Hn. pose proof (uval_range o). pose proof (uval_range n). unfold size_after_range_word.
  eapply den_ite; [by apply den_eq_word_const|]. unfold u_eqb, range_size. rewrite uval_ZERO.
  destruct (Z.eqb_spec (uval n) 0); [apply (den_zero model)|].
  set (x := Z.min (word_modulus - 1) (uval o + uval n)). assert (Hx : 0 <= x < word_modulus) by lia.
  set (y := Z.min (word_modulus - 1) (x + 31)). assert (Hy : 0 <= y < word_modulus) by lia.
  replace (Z.min (word_modulus - 1) (uval o + uval n + 31)) with y by lia.
  assert (Hu : uval (u_not (U 31)) = 2 ^ 256 - 32) by reflexivity.
  rewrite <- (land_aligned y 256) by (done || lia). rewrite <- Hu, <- (uval_U_small y) at 1 by done.
  apply (den_binop model And); [|apply (den_constant model)].
  unfold y. rewrite <- (uval_U_small x) by done. change 31 with (uval (U 31)).
  apply den_saturating_add; [by apply den_saturating_add|apply (den_constant model)].
Qed.

(** The machine-width variant saturates at the largest multiple of 32. *)
Lemma size_after_access_spec o n :
  0 <= o -> 0 <= n -> size_after_access o n = align32 (Z.min usize_max (o + n + 31)).
Proof.
  intros Ho Hn. unfold size_after_access, checked_add.
  assert (Hal : forall z, 0 <= z <= usize_max -> align_down z = align32 z).
  { intros z Hz. unfold align_down. change (usize_max - 31) with (2 ^ 64 - 32). apply land_aligned; [lia|]. unfold usize_max in Hz. lia. }
  assert (Hm : 0 <= usize_max) by done.
  destruct (Z.leb_spec (o + n) usize_max); [|rewrite Hal by lia; f_equal; lia].
  destruct (Z.leb_spec (o + n + 31) usize_max); rewrite Hal by lia; f_equal; lia.
Qed.

Lemma size_after_access_range o n :
  0 <= o -> 0 < n -> o + n + 31 <= usize_max -> size_after_access o n = range_size o n.
Proof.
  intros Ho Hn Hs. rewrite size_after_access_spec by lia. unfold range_size. destruct (Z.eqb_spec n 0); [lia|].
  f_equal. change word_modulus with (2 ^ 256). unfold usize_max in *. lia.
Qed.

Lemma size_after_access_usize o n : 0 <= o -> 0 <= n -> usize_ok (size_after_access o n).
Proof.
  intros Ho Hn. rewrite size_after_access_spec by done.
  destruct (align32_bounds (Z.min usize_max (o + n + 31))); unfold usize_ok; [assert (0 <= usize_max) by done; lia|lia].
Qed.

Lemma den_max_size l r a b :
  den l = Some a -> den r = Some b -> den (max_size_word l r) = Some (U (Z.max (uval a) (uval b))).
Proof.
  intros Ha Hb.
  assert (Hgen : den (if expr_eqb l r then l else ite (cmp Ult l r) r l) = Some (U (Z.max (uval a) (uval b)))).
  { destruct (expr_eqb_spec l r) as [->|].
    { assert (a = b) as -> by congruence. by rewrite Z.max_id, U_uval. }
    eapply den_ite.
    { apply (cmp_refines_order model Ult); [done|]. by apply (den_cmp_intro model Ult _ _ a b). }
    cbn [cmpop_eval]. unfold u_ltb. destruct (Z.ltb_spec (uval a) (uval b)).
    - by rewrite Z.max_r, U_uval by lia.
    - by rewrite Z.max_l, U_uval by lia. }
  unfold max_size_word. destruct (as_const l) as [x|] eqn:El; [|done]. destruct (as_const r) as [y|] eqn:Er; [|done].
  rewrite (as_const_den _ _ _ _ El Ha), (as_const_den _ _ _ _ Er Hb). unfold u_leb.
  destruct (Z.leb_spec (uval y) (uval x)).
  - rewrite Z.max_l, U_uval by lia. apply (den_constant model).
  - rewrite Z.max_r, U_uval by lia. apply (den_constant model).
Qed.

(** The value that MSIZE reports. *)
Definition mem_size (m : SymMemory) : Z := val (size_word m).

Lemma expand_to_spec m size n :
  mem_ok m -> den size = Some n ->
  mem_ok (expand_to m size) /\ mem_size (expand_to m size) = Z.max (mem_size m) (uval n) /\
  symbolic_writes (expand_to m size) = symbolic_writes m.
Proof.
  intros (Hws & Hms & Hls) Hn. unfold mem_ok, mem_size, size_word, expand_to. simpl.
  pose proof (uval_range n). destruct (logical_size m) as [e|]; simpl.
  - destruct Hls as [v Hv]. pose proof (den_max_size _ _ _ _ Hv Hn) as Hmax. split_and!; [done..|by eexists| |done].
    rewrite (den_val_Some _ _ _ Hmax), (den_val_Some _ _ _ Hv). pose proof (uval_range v). apply uval_U_small. lia.
  - split_and!; [done..|by eexists| |done]. rewrite (den_val_Some _ _ _ Hn), (den_val_Some _ _ _ (den_zero model)).
    rewrite uval_ZERO. lia.
Qed.

Lemma size_word_spec m : mem_ok m -> den (size_word m) = Some (U (mem_size m)).
Proof.
  intros (_ & _ & Hls). unfold mem_size, size_word. destruct (logical_size m) as [e|]; simpl.
  - destruct Hls as [v Hv]. by rewrite (den_val_Some _ _ _ Hv), U_uval.
  - rewrite (den_val_Some _ _ _ (den_zero model)). apply (den_zero model).
Qed.

(** ** Stores *)

(** The abstract memory [f] with [b] written at [o]. *)
Definition updated (f : Z -> Z) (o : Z) (b : SymBytes) (a : Z) : Z :=
  let i := (a - o) mod word_modulus in if i <? len b then seq_at model b i else f a.

(** [m'] is [m] with [b] written at [o], its size at least [size]. *)
Definition stored (m m' : SymMemory) (o : Z) (b : SymBytes) (size : Z) : Prop :=
  mem_ok m' /\ (forall a, mem_at m' a = updated (mem_at m) o b a) /\ mem_size m' = Z.max (mem_size m) size.

(** The lower bound that a caller passes with a store. *)
Definition store_floor (o n minimum : Z) : Prop := minimum <= 0 \/ minimum <= o /\ o + n <= word_modulus.

Lemma mem_ok_parts m m' :
  symbolic_writes m' = symbolic_writes m -> logical_size m' = logical_size m ->
  usize_ok (materialized_size m') -> mem_ok m -> mem_ok m' /\ mem_size m' = mem_size m /\ forall a, mem_at m' a = mem_at m a.
Proof. intros Hw Hl Hms (H1 & _ & H3). unfold mem_ok, mem_size, size_word, mem_at. rewrite Hw, Hl. done. Qed.

Lemma materialize_to_spec m size :
  mem_ok m -> usize_ok size ->
  mem_ok (materialize_to m size) /\ mem_size (materialize_to m size) = mem_size m /\
  forall a, mem_at (materialize_to m size) a = mem_at m a.
Proof.
  intros Hm Hs. apply mem_ok_parts; [done..| |done]. destruct Hm as (_ & Hms & _). unfold usize_ok in *. simpl. lia.
Qed.

Lemma push_write_spec m w o :
  mem_ok m -> write_ok w -> val (w_offset w) = o ->
  mem_ok (push_write m w) /\ mem_size (push_write m w) = mem_size m /\
  forall a, mem_at (push_write m w) a = updated (mem_at m) o (w_bytes w) a.
Proof.
  intros (Hws & Hms & Hls) Hw Ho. split_and!; [|done|].
  - unfold mem_ok. simpl. split_and!; [|done..]. apply Forall_app. split; [done|by constructor].
  - intros a. unfold mem_at. simpl. rewrite read_newest_app. unfold write_over, updated, covers, write_index. by rewrite Ho.
Qed.

Lemma updated_empty f o b a : len b = 0 -> updated f o b a = f a.
Proof.
  intros Hb. unfold updated. rewrite Hb. destruct (Z.ltb_spec ((a - o) mod word_modulus) 0); [|done].
  pose proof (Z.mod_pos_bound (a - o) word_modulus ltac:(done)). lia.
Qed.

Lemma write_ok_intro offset b minimum o :
  seq_ok model b -> den offset = Some o -> store_floor (uval o) (len b) minimum -> write_ok (mkWrite offset b minimum).
Proof.
  intros Hb Ho Hf. unfold write_ok. simpl. split_and!; [done|by eexists|]. intros a Ha. unfold covers, write_index. simpl.
  rewrite (den_val_Some _ _ _ Ho). pose proof (uval_range o). destruct Hf as [Hf|[Hf Hend]]; [lia|].
  rewrite <- (Z_mod_plus_full _ 1), Z.mod_small by lia. lia.
Qed.

Lemma den_usize o : usize_ok o -> den (constant (U o)) = Some (U o) /\ uval (U o) = o.
Proof.
  intros Ho. split; [apply (den_constant model)|]. apply uval_U_small. change word_modulus with (2 ^ 256).
  unfold usize_ok, usize_max in *. lia.
Qed.

Lemma mem_size_nonneg m : 0 <= mem_size m.
Proof. apply den_val_nonneg. Qed.

(** A store at a concrete offset. *)
Lemma store_bytes_spec m o b :
  mem_ok m -> seq_ok model b -> usize_ok o ->
  stored m (store_bytes m o b) o b (if len b =? 0 then 0 else size_after_access o (len b)).
Proof.
  intros Hm Hb Ho. unfold store_bytes, is_empty. destruct (len_usize model b Hb) as [Hl0 Hl].
  pose proof (mem_size_nonneg m). destruct (Z.eqb_spec (len b) 0) as [E|E].
  { unfold stored. split_and!; [done|intros a; by rewrite updated_empty|lia]. }
  destruct (den_usize o Ho) as [Hd Hu]. destruct (size_after_access_usize o (len b)) as [Hs0 Hs1]; [apply Ho|done|].
  set (size := size_after_access o (len b)) in *.
  destruct (materialize_to_spec m size Hm ltac:(done)) as (Hm1 & Hz1 & Hat1).
  destruct (den_usize size ltac:(done)) as [Hd2 Hu2].
  destruct (expand_to_spec _ _ _ Hm1 Hd2) as (Hm2 & Hz2 & Hw2).
  assert (Hwok : write_ok (mkWrite (constant (U o)) b o)).
  { eapply write_ok_intro; [done|exact Hd|]. rewrite Hu. right. split; [lia|]. change word_modulus with (2 ^ 256).
    unfold usize_ok, usize_max in *. lia. }
  destruct (push_write_spec _ _ o Hm2 Hwok) as (Hm3 & Hz3 & Hat3); [simpl; by rewrite (den_val_Some _ _ _ Hd)|].
  unfold stored. split_and!; [done| |by rewrite Hz3, Hz2, Hz1, Hu2].
  intros a. rewrite Hat3. unfold updated. simpl. case_match; [done|].
  rewrite <- Hat1. unfold mem_at. by rewrite Hw2.
Qed.

(** A store at a symbolic offset, with a lower bound that the caller knows. *)
Lemma store_symbolic_bytes_spec m offset o b minimum :
  mem_ok m -> seq_ok model b -> den offset = Some o -> store_floor (uval o) (len b) minimum ->
  stored m (store_symbolic_bytes m offset b minimum) (uval o) b (range_size (uval o) (len b)).
Proof.
  intros Hm Hb Ho Hf. unfold store_symbolic_bytes, is_empty, size_after_access_word. destruct (len_usize model b Hb) as [Hl0 Hl].
  pose proof (mem_size_nonneg m). pose proof (uval_range o). destruct (Z.eqb_spec (len b) 0) as [E|E].
  { unfold stored. split_and!; [done|intros a; by rewrite updated_empty|]. rewrite E. unfold range_size. simpl. lia. }
  destruct (den_usize (len b)) as [Hd Hu]; [done|].
  pose proof (den_size_after_range _ _ _ _ Ho Hd) as Hsz. rewrite Hu in Hsz.
  destruct (expand_to_spec _ _ _ Hm Hsz) as (Hm2 & Hz2 & Hw2). rewrite uval_U_small in Hz2 by (apply range_size_word; lia).
  destruct (push_write_spec _ (mkWrite offset b minimum) (uval o) Hm2) as (Hm3 & Hz3 & Hat3);
    [by eapply write_ok_intro|simpl; by rewrite (den_val_Some _ _ _ Ho)|].
  unfold stored. split_and!; [done| |by rewrite Hz3, Hz2].
  intros a. rewrite Hat3. unfold updated. simpl. case_match; [done|]. unfold mem_at. by rewrite Hw2.
Qed.

Lemma store_symbolic_sized_spec m offset o b access n :
  mem_ok m -> seq_ok model b -> den offset = Some o -> den access = Some n ->
  stored m (store_symbolic_sized_bytes m offset b access) (uval o) b (range_size (uval o) (uval n)).
Proof.
  intros Hm Hb Ho Hn. unfold store_symbolic_sized_bytes, is_empty. destruct (len_usize model b Hb) as [Hl0 Hl].
  pose proof (uval_range o). pose proof (uval_range n).
  pose proof (den_size_after_range _ _ _ _ Ho Hn) as Hsz.
  assert (Hfin : forall m1, mem_ok m1 -> mem_size m1 = mem_size m -> (forall a, mem_at m1 a = updated (mem_at m) (uval o) b a) ->
    stored m (expand_to m1 (size_after_range_word offset access)) (uval o) b (range_size (uval o) (uval n))).
  { intros m1 H1 H2 H3. destruct (expand_to_spec _ _ _ H1 Hsz) as (Hm2 & Hz2 & Hw2).
    rewrite uval_U_small in Hz2 by (apply range_size_word; lia). unfold stored. split_and!; [done| |by rewrite Hz2, H2].
    intros a. rewrite <- H3. unfold mem_at. by rewrite Hw2. }
  destruct (Z.eqb_spec (len b) 0) as [E|E].
  { apply Hfin; [done..|]. intros a. by rewrite updated_empty. }
  assert (Hpush : forall m1, mem_ok m1 -> mem_size m1 = mem_size m -> (forall a, mem_at m1 a = mem_at m a) ->
    stored m (expand_to (push_write m1 (mkWrite offset b 0)) (size_after_range_word offset access)) (uval o) b
      (range_size (uval o) (uval n))).
  { intros m1 H1 H2 H3. destruct (push_write_spec _ (mkWrite offset b 0) (uval o) H1) as (Hm3 & Hz3 & Hat3);
      [eapply write_ok_intro; [done..|by left]|simpl; by rewrite (den_val_Some _ _ _ Ho)|].
    apply Hfin; [done|by rewrite Hz3, H2|]. intros a. rewrite Hat3. unfold updated. simpl. case_match; [done|apply H3]. }
  destruct (eval_usize offset) as [k|] eqn:Ek; [|by apply Hpush].
  apply eval_usize_sound with (model := model) in Ek as (_ & _ & Hk).
  destruct (materialize_to_spec m (size_after_access k (len b)) Hm) as (Hm1 & Hz1 & Hat1);
    [apply size_after_access_usize; [apply Hk|done]|]. by apply Hpush.
Qed.

(** Constant offsets must lie in the address space of the host. *)
Definition addressable (offset : SymExpr) (n : Z) : Prop :=
  forall v, as_const offset = Some v -> uval v + n <= usize_max.

Lemma to_usize_addressable offset v n :
  addressable offset n -> 0 <= n -> as_const offset = Some v -> to_usize v = Some (uval v) /\ usize_ok (uval v).
Proof.
  intros Ha Hn Hv. specialize (Ha v Hv). pose proof (uval_range v). unfold to_usize, usize_ok.
  destruct (Z.leb_spec (uval v) usize_max); [split; [done|lia]|lia].
Qed.

(** ** Reads *)

(** The abstract bytes from [o] on. *)
Definition mem_from (m : SymMemory) (o : Z) (i : Z) : Z := mem_at m ((o + i) mod word_modulus).

Lemma mem_from_usize m o i : 0 <= o + i <= usize_max -> mem_from m o i = mem_at m (o + i).
Proof. intros. unfold mem_from. rewrite Z.mod_small; [done|]. change word_modulus with (2 ^ 256). unfold usize_max in *. lia. Qed.

Lemma readable_le m offset n k : k <= n -> readable m offset n -> readable m offset k.
Proof. intros Hk Hr w delta idx Hw Hd. apply Hr; [done|lia]. Qed.

(** Every read returns the bytes of the abstract memory. *)
Lemma read_bytes_spec m offset o size minimum maximum :
  mem_ok m -> den offset = Some o -> usize_ok size -> addressable offset size ->
  read_bounds (uval o) minimum maximum -> readable m offset size ->
  exists b, read_bytes_offset_with_bounds m offset size minimum maximum = Ret b /\
    represents model b size (mem_from m (uval o)).
Proof.
  intros Hm Ho Hsz Hadr Hb Hr. unfold read_bytes_offset_with_bounds. destruct (as_const offset) as [v|] eqn:Ev.
  - destruct (to_usize_addressable _ _ _ Hadr ltac:(apply Hsz) Ev) as [-> Hv]. specialize (Hadr v Ev).
    assert (o = v) as -> by (by eapply as_const_den). unfold usize_ok in *.
    assert (Hin : forall i, 0 <= i < size -> mem_at m (uval v + i) = mem_from m (uval v) i).
    { intros i Hi. rewrite mem_from_usize; [done|lia]. }
    destruct (read_stored_spec m (uval v) size Hm Hv Hsz) as ([b|] & -> & Hrep); simpl obind.
    { exists b. split; [done|]. eapply represents_ext, Hrep. exact Hin. }
    apply exprs_range_represent; [done|]. intros i Hi. rewrite <- Hin by done. unfold usize_add.
    rewrite Z.mod_small by (unfold usize_max in *; lia). split; [by apply mem_at_range|].
    apply mem_byte_sound; [done|]. unfold usize_ok. lia.
  - apply exprs_range_represent; [done|]. intros i Hi. split; [by apply mem_at_range|].
    apply dynamic_byte_sound; try done; [unfold usize_ok in *; lia|]. eapply readable_le, Hr. lia.
Qed.

Lemma no_bounds o : 0 <= o -> read_bounds o 0 None.
Proof. unfold read_bounds. lia. Qed.

Lemma read_bytes_offset_spec m offset o size :
  mem_ok m -> den offset = Some o -> usize_ok size -> addressable offset size -> readable m offset size ->
  exists b, read_bytes_offset m offset size = Ret b /\ represents model b size (mem_from m (uval o)).
Proof. intros. apply read_bytes_spec; try done. apply no_bounds, uval_range. Qed.

(** A read of nothing needs no address. *)
Lemma read_bytes_any_spec m offset o size :
  mem_ok m -> den offset = Some o -> usize_ok size -> (0 < size -> addressable offset size) -> readable m offset size ->
  exists b, read_bytes_offset m offset size = Ret b /\ represents model b size (mem_from m (uval o)).
Proof.
  intros Hm Ho Hsz Hadr Hr. destruct (Z.lt_ge_cases 0 size); [by apply read_bytes_offset_spec; auto|].
  destruct Hsz as [Hs0 Hs]. assert (size = 0) as -> by lia. unfold read_bytes_offset.
  destruct (as_const offset) as [v|] eqn:Ev; [|apply read_bytes_spec; try done; [intros w; congruence|apply no_bounds, uval_range]].
  destruct (Z.leb_spec (uval v) usize_max).
  { apply read_bytes_spec; try done; [intros w; rewrite Ev; intros [= <-]; lia|apply no_bounds, uval_range]. }
  unfold read_bytes_offset_with_bounds. rewrite Ev. unfold to_usize. destruct (Z.leb_spec (uval v) usize_max); [lia|].
  eexists; split; [done|]. eapply represents_ext; [|by apply zeros_represent]. lia.
Qed.

(** A read of a symbolic size: zeros from the size on. *)
Lemma read_symbolic_size_spec m offset o size n bound :
  mem_ok m -> den offset = Some o -> den size = Some n -> usize_ok bound -> (0 < bound -> addressable offset bound) ->
  readable m offset bound ->
  exists b, read_bytes_symbolic_size m offset size bound = Ret b /\
    represents model b bound (fun i => if i <? uval n then mem_from m (uval o) i else 0).
Proof.
  intros Hm Ho Hn Hb Hadr Hr. pose proof (uval_range n). unfold read_bytes_symbolic_size, usize_ok in *.
  destruct (sym_eval size) as [s|] eqn:E.
  - apply sym_eval_sound with (model := model) in E. assert (s = n) as -> by congruence.
    rewrite clamp_size_spec by lia. set (k := Z.min (uval n) bound).
    destruct (read_bytes_any_spec m offset o k) as (b & -> & Hrep); [done..|unfold usize_ok; lia| |eapply readable_le, Hr; lia|].
    { intros Hk v Hv. specialize (Hadr ltac:(lia) v Hv). lia. }
    simpl obind. eexists; split; [done|]. eapply represents_ext, padded_represents; [|exact Hrep|lia..].
    intros i Hi. cbv beta. destruct (Z.ltb_spec i k), (Z.ltb_spec i (uval n)); lia || done.
  - destruct (read_bytes_any_spec m offset o bound) as (b & -> & Hok & Hl & Hat); [done..|]. simpl obind.
    destruct (sized_spec model b size bound n) as (r & Hr' & Hrep); [done..|by rewrite E|]. exists r. split; [done|].
    eapply represents_ext, Hrep. intros i Hi. cbv beta. by destruct (i <? uval n); [apply Hat|].
Qed.

(** A read that must be concrete returns the bytes or nothing. *)
Lemma read_concrete_spec m o size :
  mem_ok m -> usize_ok o -> usize_ok size -> o + size <= usize_max ->
  reads (read_concrete m o size) size (fun i => mem_at m (o + i)).
Proof.
  intros Hm Ho Hs Hos. unfold read_concrete. destruct (read_stored_spec m o size Hm Ho Hs) as ([b|] & -> & Hrep); simpl obind.
  - destruct Hrep as (Hb & Hl & Hat). unfold concrete_bytes. rewrite Hl.
    eapply reads_ext, (append_concrete_sound model b 0 size); [|done..|unfold usize_ok in *; lia]. intros i Hi. cbv beta. rewrite Z.add_0_l. apply Hat. lia.
  - set (es := map _ _).
    assert (Hval : forall i, i ∈ range size -> den (byte m (usize_add o i)) = Some (U (mem_at m (o + i)))).
    { intros i Hi%elem_of_range. unfold usize_ok in *. unfold usize_add. rewrite Z.mod_small by (unfold usize_max in *; lia).
      apply mem_byte_sound; [done|]. unfold usize_ok. lia. }
    assert (Hes : Forall (is_byte_expr model) es).
    { apply Forall_map, Forall_forall. intros i Hi. exists (mem_at m (o + i)). split; [by apply mem_at_range|by apply Hval]. }
    destruct (concrete_bytes_total es (byte_expr_constants model es Hes)) as [[ns|] Hc]; rewrite Hc; [right|by left].
    apply (concrete_exprs_vals model _ _ Hes) in Hc as ->. unfold es. rewrite map_map. do 2 f_equal. apply map_ext_in.
    intros i Hi%list_elem_of_In. rewrite (den_val_Some _ _ _ (Hval i Hi)). apply uval_byte. by apply mem_at_range.
Qed.

(** A word that holds the 32 bytes from [o] on. *)
Definition word_from (m : SymMemory) (o : Z) (w : U256) : Prop := placed w (mem_from m o) 0 32.

Lemma word_of_represented b f :
  represents model b 32 f -> exists e w, word_at b 0 = Ret e /\ den e = Some w /\ placed w f 0 32.
Proof.
  intros (Hok & _ & Hat). destruct (word_at_sound model b 0 Hok) as (e & w & He & Hw & Hp); [done..|].
  exists e, w. split_and!; [done..|]. eapply placed_ext, Hp. intros k Hk. simpl. by rewrite Hat.
Qed.

Lemma load_with_bounds_spec m base b rel minimum maximum :
  mem_ok m -> den base = Some b -> usize_ok rel -> read_bounds (uval b) minimum maximum ->
  addressable (add_const base (U rel)) 32 -> readable m (add_const base (U rel)) 32 ->
  exists e w, load_word_offset_with_bounds m base rel minimum maximum = Ret e /\ den e = Some w /\
    word_from m ((uval b + rel) mod word_modulus) w.
Proof.
  intros Hm Hb [Hr0 Hr] [Hmin Hmax] Hadr Hrd. unfold load_word_offset_with_bounds.
  pose proof (den_add_const _ _ rel Hb Hr0) as Ho. pose proof (uval_range b).
  set (mx := x ← maximum; checked_add x rel). set (nonwrap := (rel =? 0) || bool_decide (is_Some mx)).
  assert (Hmx : match mx with Some t => uval b + rel <= t <= usize_max | None => True end).
  { unfold mx. destruct maximum as [x|]; simpl; [|done]. unfold checked_add. destruct (Z.leb_spec (x + rel) usize_max); [lia|done]. }
  assert (Hnw : nonwrap = true -> (uval b + rel) mod word_modulus = uval b + rel).
  { unfold nonwrap. intros [->%Z.eqb_eq|Hs%bool_decide_eq_true_1]%orb_prop; apply Z.mod_small; [lia|].
    destruct Hs as [x Hx]. rewrite Hx in Hmx. change word_modulus with (2 ^ 256). unfold usize_max in *. lia. }
  destruct (read_bytes_spec m (add_const base (U rel)) (U (uval b + rel)) 32
    (if nonwrap then default 0 (checked_add minimum rel) else 0) mx) as (bs & -> & Hrep); try done.
  { rewrite uval_U. pose proof (Z.mod_pos_bound (uval b + rel) word_modulus ltac:(done)). split.
    - destruct nonwrap; [|lia]. rewrite Hnw by done. unfold checked_add.
      destruct (Z.leb_spec (minimum + rel) usize_max); simpl; lia.
    - destruct mx as [x|] eqn:Emx; [|done]. rewrite Hnw; [lia|]. unfold nonwrap. apply orb_true_r. }
  simpl obind. rewrite uval_U in Hrep. by apply word_of_represented.
Qed.

Lemma load_word_offset_spec m offset o :
  mem_ok m -> den offset = Some o -> addressable offset 63 -> readable m offset 32 ->
  exists e w m', load_word_offset m offset = Ret (e, m') /\ den e = Some w /\ word_from m (uval o) w /\
    mem_ok m' /\ (forall a, mem_at m' a = mem_at m a) /\ mem_size m' = Z.max (mem_size m) (range_size (uval o) 32).
Proof.
  intros Hm Ho Hadr Hrd. pose proof (uval_range o). assert (Hadr' : addressable offset 32) by (intros v Hv; specialize (Hadr v Hv); lia).
  assert (Hgen : forall m' e, den e = Some (U (range_size (uval o) 32)) -> m' = expand_to m e ->
    mem_ok m' /\ (forall a, mem_at m' a = mem_at m a) /\ mem_size m' = Z.max (mem_size m) (range_size (uval o) 32) /\
    exists b, read_bytes_offset m' offset 32 = Ret b /\ represents model b 32 (mem_from m (uval o))).
  { intros m' e He ->. destruct (expand_to_spec _ _ _ Hm He) as (Hm2 & Hz2 & Hw2).
    rewrite uval_U_small in Hz2 by (apply range_size_word; lia).
    assert (Hat : forall a, mem_at (expand_to m e) a = mem_at m a) by (intros a; unfold mem_at; by rewrite Hw2).
    split_and!; [done..|]. destruct (read_bytes_offset_spec (expand_to m e) offset o 32) as (b & Hb & Hrep); try done.
    exists b. split; [done|]. eapply represents_ext, Hrep. intros i Hi. apply Hat. }
  unfold load_word_offset. destruct (as_const offset) as [v|] eqn:Ev.
  - destruct (to_usize_addressable _ _ _ Hadr ltac:(lia) Ev) as [-> Hv]. specialize (Hadr v Ev).
    assert (o = v) as -> by (by eapply as_const_den). unfold usize_ok in *.
    rewrite size_after_access_range by lia.
    destruct (Hgen _ _ (den_constant model _) eq_refl) as (Hm' & Hat & Hsz & b & Hb & Hrep).
    assert (Hoff : offset = constant (U (uval v))) by (rewrite U_uval, constant_EConst; by apply as_const_shape).
    unfold load_word. rewrite <- Hoff, Hb. simpl obind. destruct (word_of_represented _ _ Hrep) as (e & w & -> & Hw & Hp).
    exists e, w, (expand_to m (constant (U (range_size (uval v) 32)))). done.
  - assert (Hsz : den (size_after_access_word offset 32) = Some (U (range_size (uval o) 32))).
    { apply (den_size_after_range offset (constant (U 32)) o (U 32)); [done|apply (den_constant model)]. }
    destruct (Hgen _ _ Hsz eq_refl) as (Hm' & Hat & Hsz' & b & Hb & Hrep).
    rewrite Hb. simpl obind. destruct (word_of_represented _ _ Hrep) as (e & w & -> & Hw & Hp).
    exists e, w, (expand_to m (size_after_access_word offset 32)). done.
Qed.

(** ** Stores through an offset expression *)
Lemma stored_ext m m' o b n k : n = k -> stored m m' o b n -> stored m m' o b k.
Proof. by intros ->. Qed.

(** A concrete store, with the size as the symbolic variant computes it. *)
Lemma store_bytes_range m o b :
  mem_ok m -> seq_ok model b -> usize_ok o -> o + len b + 31 <= usize_max ->
  stored m (store_bytes m o b) o b (range_size o (len b)).
Proof.
  intros Hm Hb Ho Hs. destruct (len_usize model b Hb). eapply stored_ext; [|by apply store_bytes_spec].
  unfold usize_ok in *. destruct (Z.eqb_spec (len b) 0) as [E|]; [by rewrite E|]. apply size_after_access_range; lia.
Qed.

Lemma store_bytes_offset_spec m offset o b :
  mem_ok m -> seq_ok model b -> den offset = Some o -> addressable offset (len b + 31) ->
  stored m (store_bytes_offset m offset b) (uval o) b (range_size (uval o) (len b)).
Proof.
  intros Hm Hb Ho Hadr. destruct (len_usize model b Hb). unfold store_bytes_offset. destruct (as_const offset) as [v|] eqn:Ev.
  - destruct (to_usize_addressable _ _ _ Hadr ltac:(lia) Ev) as [-> Hv]. specialize (Hadr v Ev).
    assert (o = v) as -> by (by eapply as_const_den). apply store_bytes_range; try done. lia.
  - apply store_symbolic_bytes_spec; try done. by left.
Qed.

Lemma store_word_offset_spec m offset o value v minimum :
  mem_ok m -> den offset = Some o -> den value = Some v -> addressable offset 63 -> store_floor (uval o) 32 minimum ->
  stored m (store_word_offset m offset value minimum) (uval o) (into_bytes value) (range_size (uval o) 32).
Proof.
  intros Hm Ho Hv Hadr Hf. destruct (word_represents model value v Hv) as (Hok & Hlen & _). fold (into_bytes value) in *.
  unfold store_word_offset. rewrite <- Hlen in *. destruct (as_const offset) as [c|] eqn:Ec.
  - destruct (to_usize_addressable _ _ _ Hadr ltac:(lia) Ec) as [-> Hc]. specialize (Hadr c Ec).
    assert (o = c) as -> by (by eapply as_const_den). apply store_bytes_range; try done. lia.
  - by apply store_symbolic_bytes_spec.
Qed.

(** The byte sequence that an MSTORE8 writes. *)
Lemma low_byte_sequence value v :
  den value = Some v -> match as_const value with Some c => uval c < 256 | None => True end ->
  exists e b, low_byte value = Ret e /\ exprs [e] = Ret b /\ represents model b 1 (fun _ => low_byte_of v).
Proof.
  intros Hv Hc. destruct (low_byte value) as [e|] eqn:E.
  2:{ apply low_byte_Panic in E as (c & -> & H). simpl in Hc. lia. }
  pose proof (low_byte_sound model _ _ _ E Hv) as He. exists e.
  destruct (exprs_represent model [e]) as (b & Hb & Hrep).
  { constructor; [|done]. exists (low_byte_of v). split; [apply low_byte_of_range|done]. }
  { done. }
  exists b. split_and!; [done..|]. eapply represents_ext, Hrep. intros i Hi. change (zlen [e]) with 1 in Hi.
  assert (i = 0) as -> by lia. simpl. rewrite (den_val_Some _ _ _ He). apply uval_byte, low_byte_of_range.
Qed.

Lemma store_byte_offset_spec m offset o value v minimum :
  mem_ok m -> den offset = Some o -> den value = Some v ->
  match as_const value with Some c => uval c < 256 | None => True end ->
  addressable offset 32 -> store_floor (uval o) 1 minimum ->
  exists m' b, store_byte_offset m offset value minimum = Ret m' /\ represents model b 1 (fun _ => low_byte_of v) /\
    stored m m' (uval o) b (range_size (uval o) 1).
Proof.
  intros Hm Ho Hv Hc Hadr Hf. destruct (low_byte_sequence value v Hv Hc) as (e & b & He & Hb & Hrep).
  pose proof Hrep as (Hok & Hlen & _). unfold store_byte_offset, store_byte. rewrite He. cbn [obind]. rewrite Hb. cbn [obind].
  destruct (as_const offset) as [c|] eqn:Ec.
  - destruct (to_usize_addressable _ _ _ Hadr ltac:(lia) Ec) as [-> Hcu]. specialize (Hadr c Ec).
    assert (o = c) as -> by (by eapply as_const_den). eexists _, b. split_and!; [done..|].
    rewrite <- Hlen. apply store_bytes_range; try done. lia.
  - eexists _, b. split_and!; [done..|]. rewrite <- Hlen in *. by apply store_symbolic_bytes_spec.
Qed.

(** What a store leaves at the addresses it wrote. *)
Lemma stored_at m m' o b n i :
  stored m m' o b n -> 0 <= i < len b -> len b <= usize_max -> mem_from m' o i = seq_at model b i.
Proof.
  intros (_ & Hat & _) Hi Hl. unfold mem_from. rewrite Hat. unfold updated. rewrite Zminus_mod_idemp_l.
  replace (o + i - o) with i by lia. rewrite Z.mod_small by (change word_modulus with (2 ^ 256); unfold usize_max in *; lia).
  destruct (Z.ltb_spec i (len b)); [done|lia].
Qed.

(** A word that was stored is loaded back. *)
Lemma load_stored_word m m' o value v n :
  stored m m' o (into_bytes value) n -> den value = Some v -> word_from m' o v.
Proof.
  intros Hst Hv. destruct (word_represents model value v Hv) as (Hok & Hlen & Hat). fold (into_bytes value) in *.
  intros j Hj. destruct (Z.leb_spec 0 j), (Z.ltb_spec j (0 + 32)); try lia. simpl. rewrite Z.sub_0_r.
  rewrite (stored_at _ _ _ _ _ _ Hst) by (rewrite Hlen; done). by rewrite Hat.
Qed.

(** ** Copies *)

(** [m'] is [m] with the [k] bytes that [f] gives written at [d]. *)
Definition copied (m m' : SymMemory) (d k : Z) (f : Z -> Z) : Prop :=
  mem_ok m' /\ forall a, 0 <= a < word_modulus ->
    mem_at m' a = let i := (a - d) mod word_modulus in if i <? k then f i else mem_at m a.

Lemma stored_copied m m' d b n k f : stored m m' d b n -> represents model b k f -> copied m m' d k f.
Proof.
  intros (Hm & Hat & _) (_ & Hl & Hf). split; [done|]. intros a Ha. rewrite Hat. unfold updated. rewrite Hl. simpl.
  destruct (Z.ltb_spec ((a - d) mod word_modulus) k); [|done]. apply Hf.
  pose proof (Z.mod_pos_bound (a - d) word_modulus ltac:(done)). lia.
Qed.

Lemma copied_ext m m' d k f g : (forall i, 0 <= i < k -> f i = g i) -> copied m m' d k f -> copied m m' d k g.
Proof.
  intros Hfg [Hm Hat]. split; [done|]. intros a Ha. rewrite Hat by done. simpl.
  destruct (Z.ltb_spec ((a - d) mod word_modulus) k); [|done]. apply Hfg.
  pose proof (Z.mod_pos_bound (a - d) word_modulus ltac:(done)). lia.
Qed.

Lemma copied_nothing m d f : mem_ok m -> copied m m d 0 f.
Proof.
  intros Hm. split; [done|]. intros a Ha. simpl. destruct (Z.ltb_spec ((a - d) mod word_modulus) 0); [|done].
  pose proof (Z.mod_pos_bound (a - d) word_modulus ltac:(done)). lia.
Qed.

(** A copy that keeps the existing bytes from index [n] on is a shorter copy. *)
Lemma copied_guarded m m' d k n f :
  copied m m' d k (fun i => if i <? n then f i else mem_from m d i) -> 0 <= n -> copied m m' d (Z.min n k) f.
Proof.
  intros [Hm Hat] Hn. split; [done|]. intros a Ha. rewrite Hat by done. simpl. set (i := (a - d) mod word_modulus).
  assert (Hback : mem_from m d i = mem_at m a).
  { unfold mem_from, i. rewrite Zplus_mod_idemp_r. replace (d + (a - d)) with a by lia. by rewrite Z.mod_small. }
  destruct (Z.ltb_spec i k), (Z.ltb_spec i n), (Z.ltb_spec i (Z.min n k)); try lia; done.
Qed.

Lemma guarded_byte_sound idx size n source existing a b :
  den size = Some n -> usize_ok idx -> den source = Some (U a) -> den existing = Some (U b) ->
  den (SCopy.copy_size_byte idx size source existing) = Some (U (if idx <? uval n then a else b)).
Proof.
  intros Hn Hi Ha Hb. destruct (den_usize idx Hi) as [Hd Hu]. eapply den_ite.
  { apply (cmp_refines_order model Ult); [done|]. by apply (den_cmp_intro model Ult _ _ (U idx) n). }
  cbn [cmpop_eval]. unfold u_ltb. rewrite Hu. by destruct (idx <? uval n).
Qed.

(** The store of a guarded copy: source bytes below the size, existing bytes
    from it on. *)
Lemma guarded_store_spec m dest d size n src ex :
  mem_ok m -> den dest = Some d -> den size = Some n -> seq_ok model src ->
  (forall i, 0 <= i < len src -> den (ex i) = Some (U (mem_from m (uval d) i))) ->
  exists m', (let* b := exprs (map (fun idx => SCopy.copy_size_byte idx size (SBytes.byte src idx) (ex idx)) (range (len src))) in
              Ret (store_symbolic_sized_bytes m dest b size)) = Ret m' /\
    copied m m' (uval d) (Z.min (uval n) (len src)) (seq_at model src) /\
    mem_size m' = Z.max (mem_size m) (range_size (uval d) (uval n)).
Proof.
  intros Hm Hd Hn Hs Hex. destruct (len_usize model src Hs) as [Hl0 Hl]. pose proof (uval_range n).
  destruct (exprs_range_represent model (fun idx => SCopy.copy_size_byte idx size (SBytes.byte src idx) (ex idx))
    (fun i => if i <? uval n then seq_at model src i else mem_from m (uval d) i) (len src)) as (b & -> & Hrep); [done| |].
  - intros i Hi. split; [case_match; [by apply seq_at_range|by apply mem_at_range]|].
    apply guarded_byte_sound; auto; [unfold usize_ok; lia|]. apply (byte_sound model); [done|]. unfold usize_ok. lia.
  - simpl obind. eexists; split; [done|].
    assert (Hst : stored m (store_symbolic_sized_bytes m dest b size) (uval d) b (range_size (uval d) (uval n)))
      by (apply store_symbolic_sized_spec; try done; apply Hrep).
    split; [|apply Hst]. apply copied_guarded; [|lia]. by eapply stored_copied.
Qed.

Lemma range_size_nothing m o : Z.max (mem_size m) (range_size o 0) = mem_size m.
Proof. unfold range_size. simpl. pose proof (mem_size_nonneg m). lia. Qed.

Lemma copy_bytes_size_spec m dest d size n src :
  mem_ok m -> den dest = Some d -> den size = Some n -> seq_ok model src -> len src + 31 <= usize_max ->
  addressable dest (len src + 31) -> readable m dest (len src) ->
  exists m', SCopy.copy_bytes_size_offset m dest size src = Ret m' /\
    copied m m' (uval d) (Z.min (uval n) (len src)) (seq_at model src) /\
    (uval n <= len src -> mem_size m' = Z.max (mem_size m) (range_size (uval d) (uval n))).
Proof.
  intros Hm Hd Hn Hs Hlen Hadr Hrd. pose proof (uval_range n). pose proof (uval_range d).
  destruct (len_usize model src Hs) as [Hl0 Hl]. unfold SCopy.copy_bytes_size_offset, is_empty.
  destruct (Z.eqb_spec (len src) 0) as [->|Hne].
  { exists m. split; [done|]. split; [rewrite Z.min_r by lia; by apply copied_nothing|]. intros Hle.
    assert (uval n = 0) as -> by lia. by rewrite range_size_nothing. }
  destruct (sym_eval size) as [s|] eqn:Es.
  - apply sym_eval_sound with (model := model) in Es. assert (s = n) as -> by congruence.
    rewrite clamp_size_spec by done. set (k := Z.min (uval n) (len src)) in *.
    destruct (Z.eqb_spec k 0) as [Ek|].
    { exists m. split; [done|]. split; [rewrite Ek; by apply copied_nothing|]. intros Hle.
      assert (uval n = 0) as -> by lia. by rewrite range_size_nothing. }
    destruct (slice_concrete_spec model src 0 k) as (p & -> & Hrep); [done|unfold usize_ok; lia..|right; lia|].
    simpl obind. eexists; split; [done|]. pose proof Hrep as (Hp & Hpl & _).
    assert (Hst : stored m (store_bytes_offset m dest p) (uval d) p (range_size (uval d) (len p))).
    { apply store_bytes_offset_spec; try done. intros v Hv. specialize (Hadr v Hv). lia. }
    split; [by eapply stored_copied|]. intros Hle. destruct Hst as (_ & _ & ->). rewrite Hpl. unfold k. by rewrite Z.min_l by lia.
  - destruct (as_const dest) as [v|] eqn:Ev.
    + destruct (to_usize_addressable _ _ _ Hadr ltac:(lia) Ev) as [-> Hv]. specialize (Hadr v Ev).
      assert (d = v) as -> by (by eapply as_const_den). destruct (den_usize _ Hv) as [Hdv _]. unfold usize_ok in *.
      destruct (guarded_store_spec m (constant (U (uval v))) v size n src (fun idx => byte m (usize_add (uval v) idx)))
        as (m' & Hm' & Hc & Hsz); [done| |done..| |by exists m'].
      * by rewrite Hdv, U_uval.
      * intros i Hi. unfold usize_add. rewrite Z.mod_small by (unfold usize_max in *; lia).
        rewrite mem_from_usize by lia. apply mem_byte_sound; [done|]. unfold usize_ok. lia.
    + destruct (guarded_store_spec m dest d size n src (byte_dynamic_with_delta m dest)) as (m' & Hm' & Hc & Hsz);
        [done..| |by exists m']. intros i Hi.
      apply dynamic_byte_sound; try done; [lia|apply no_bounds; lia|]. eapply readable_le, Hrd. lia.
Qed.

(** A store of the bytes that [f] gives. *)
Lemma store_represented_spec m dest d b size f :
  mem_ok m -> den dest = Some d -> represents model b size f ->
  (0 < size -> addressable dest (size + 31)) ->
  copied m (store_bytes_offset m dest b) (uval d) size f /\
  mem_size (store_bytes_offset m dest b) = Z.max (mem_size m) (range_size (uval d) size).
Proof.
  intros Hm Hd Hrep Hadr. pose proof Hrep as (Hb & Hl & _). destruct (len_usize model b Hb).
  destruct (Z.lt_ge_cases 0 size) as [Hs|Hs]; [specialize (Hadr Hs)|].
  2:{ assert (size = 0) as -> by lia. assert (store_bytes_offset m dest b = m) as ->.
      { unfold store_bytes_offset, store_bytes, store_symbolic_bytes, is_empty. rewrite Hl. by repeat case_match. }
      split; [by apply copied_nothing|by rewrite range_size_nothing]. }
  assert (Hst : stored m (store_bytes_offset m dest b) (uval d) b (range_size (uval d) (len b)))
    by (apply store_bytes_offset_spec; try done; by rewrite Hl).
  split; [by eapply stored_copied|]. rewrite <- Hl. apply Hst.
Qed.

(** A read of a sequence that stays inside it when it slices another one. *)
Definition slice_fits (b : SymBytes) (offset : SymExpr) (l : Z) : Prop :=
  match eval_usize offset with
  | Some base => base + l <= usize_max /\ (resolves b base = false \/ base + l <= len b)
  | None => True
  end.

(** CALLDATACOPY of a concrete size. *)
Lemma copy_calldata_spec m dest d offset o size calldata :
  mem_ok m -> den dest = Some d -> den offset = Some o -> usize_ok size -> seq_ok model (cd_bytes calldata) ->
  addressable dest (size + 31) -> slice_fits (cd_bytes calldata) offset size ->
  exists m', SCopy.copy_calldata_to_offset m dest offset size calldata = Ret m' /\
    copied m m' (uval d) size (fun i => seq_at model (cd_bytes calldata) (uval o + i)) /\
    mem_size m' = Z.max (mem_size m) (range_size (uval d) size).
Proof.
  intros Hm Hd Ho Hsz Hc Hadr Hfit. unfold SCopy.copy_calldata_to_offset, SCalldata.read_bytes_offset, read_offset.
  assert (Hread : exists b, slice (cd_bytes calldata) offset size = Ret b /\
    represents model b size (fun i => seq_at model (cd_bytes calldata) (uval o + i))) by (by apply slice_spec).
  assert (Hbytes : exists b, match as_const offset with
      | Some v => match to_usize v with None => Ret (concrete (zeros size)) | Some _ => slice (cd_bytes calldata) offset size end
      | None => slice (cd_bytes calldata) offset size
      end = Ret b /\ represents model b size (fun i => seq_at model (cd_bytes calldata) (uval o + i))).
  { destruct (as_const offset) as [v|] eqn:Ev; [|done]. destruct (to_usize v) eqn:Eu; [done|].
    eexists; split; [done|]. eapply represents_ext; [|by apply zeros_represent]. intros i Hi. cbv beta.
    assert (o = v) as -> by (by eapply as_const_den). destruct (len_usize model _ Hc).
    unfold to_usize in Eu. destruct (Z.leb_spec (uval v) usize_max); [done|]. symmetry. apply seq_at_past; [done|lia]. }
  destruct Hbytes as (b & -> & Hrep). simpl obind. eexists; split; [done|]. by apply store_represented_spec.
Qed.

(** MCOPY of a concrete size reads all its bytes before it writes. *)
Lemma copy_memory_spec m dest d src s size :
  mem_ok m -> den dest = Some d -> den src = Some s -> usize_ok size -> addressable dest (size + 31) ->
  addressable src size -> readable m src size ->
  exists m', SCopy.copy_memory_to_offset m dest src size = Ret m' /\
    copied m m' (uval d) size (mem_from m (uval s)) /\ mem_size m' = Z.max (mem_size m) (range_size (uval d) size).
Proof.
  intros Hm Hd Hs Hsz Hadr Hadr' Hrd. unfold SCopy.copy_memory_to_offset.
  destruct (Z.eqb_spec size 0) as [->|]; [exists m; split_and!; [done|by apply copied_nothing|by rewrite range_size_nothing]|].
  destruct (read_bytes_offset_spec m src s size) as (b & -> & Hrep); try done. simpl obind. eexists; split; [done|].
  by apply store_represented_spec.
Qed.

(** MCOPY of a symbolic size. *)
Lemma copy_memory_symbolic_spec m dest d src s size n max_size :
  mem_ok m -> den dest = Some d -> den src = Some s -> den size = Some n -> 0 <= max_size -> max_size + 31 <= usize_max ->
  addressable dest (max_size + 31) -> addressable src max_size -> readable m src max_size -> readable m dest max_size ->
  exists m', SCopy.copy_memory_symbolic_size m dest src size max_size = Ret m' /\
    copied m m' (uval d) (Z.min (uval n) max_size) (mem_from m (uval s)) /\
    (uval n <= max_size -> mem_size m' = Z.max (mem_size m) (range_size (uval d) (uval n))).
Proof.
  intros Hm Hd Hs Hn Hm0 Hmx Hadr Hadr' Hrd Hrd'. unfold SCopy.copy_memory_symbolic_size. pose proof (uval_range n).
  destruct (Z.eqb_spec max_size 0) as [->|].
  { exists m. split; [done|]. split; [rewrite Z.min_r by lia; by apply copied_nothing|]. intros Hle.
    assert (uval n = 0) as -> by lia. by rewrite range_size_nothing. }
  destruct (read_bytes_offset_spec m src s max_size) as (b & -> & Hb & Hl & Hat); try done; [unfold usize_ok; lia|].
  simpl obind. rewrite <- Hl in *. destruct (copy_bytes_size_spec m dest d size n b) as (m' & -> & Hc & Hsz); try done.
  exists m'. split; [done|]. split; [|done]. eapply copied_ext, Hc. intros i Hi. apply Hat. lia.
Qed.

(** ** Calldata *)

(** The word at [o], zero past the end. *)
Definition calldata_word (c : SymCalldata) (o : Z) (w : U256) : Prop :=
  placed w (fun k => seq_at model (cd_bytes c) (o + k)) 0 32.

Lemma past_word b o : seq_ok model b -> len b <= o -> placed ZERO (fun k => seq_at model b (o + k)) 0 32.
Proof. intros Hb Ho. apply placed_zero. intros k Hk. apply seq_at_past; [done|lia]. Qed.

Lemma load_candidates_spec c offset o candidates :
  seq_ok model (cd_bytes c) -> den offset = Some o -> Forall (fun k => 0 <= k /\ k + 32 <= usize_max) candidates ->
  exists e w, SCalldata.load_candidates c offset candidates = Ret e /\ den e = Some w /\
    (uval o ∈ candidates -> calldata_word c (uval o) w) /\ (uval o ∉ candidates -> w = ZERO).
Proof.
  intros Hc Ho. induction 1 as [|k ks [Hk0 Hk] _ (e & w & He & Hw & Hin & Hout)]; cbn [SCalldata.load_candidates].
  { exists zero, ZERO. split_and!; [done|apply (den_zero model)|by intros ?%not_elem_of_nil|done]. }
  destruct (word_at_sound model (cd_bytes c) k Hc) as (x & wx & Ex & Hx & Hp); [unfold usize_ok; lia..|].
  rewrite He. cbn [obind]. rewrite Ex. cbn [obind]. destruct (den_usize k) as [_ Hu]; [unfold usize_ok; lia|].
  exists (ite (eq_exprs offset (constant (U k))) x e), (if uval o =? k then wx else w). split_and!; [done|..].
  - eapply den_ite; [by apply cmp_const_den|]. unfold u_eqb. rewrite Hu. by destruct (uval o =? k).
  - intros Hin'. destruct (Z.eqb_spec (uval o) k) as [->|]; [done|]. apply Hin. set_solver.
  - intros Hout'. destruct (Z.eqb_spec (uval o) k) as [Heq|]; [set_solver|]. apply Hout. set_solver.
Qed.

(** CALLDATALOAD. *)
Lemma calldata_load_spec c offset o :
  seq_ok model (cd_bytes c) -> cd_size c = len (cd_bytes c) -> len (cd_bytes c) + 32 <= usize_max ->
  den offset = Some o -> addressable offset 32 ->
  exists e w, SCalldata.load_word c offset = Ret e /\ den e = Some w /\ calldata_word c (uval o) w.
Proof.
  intros Hc Hsz Hl Ho Hadr. unfold SCalldata.load_word. destruct (as_const offset) as [v|] eqn:Ev.
  - destruct (to_usize_addressable _ _ _ Hadr ltac:(lia) Ev) as [-> Hv]. specialize (Hadr v Ev).
    assert (o = v) as -> by (by eapply as_const_den). by apply word_at_sound.
  - unfold SCalldata.load_dynamic. rewrite Hsz.
    destruct (load_candidates_spec c offset o (range (len (cd_bytes c)))) as (e & w & He & Hw & Hin & Hout); [done..| |].
    { apply Forall_forall. intros k Hk%elem_of_range. lia. }
    exists e, w. split_and!; [done..|]. pose proof (uval_range o).
    destruct (decide (uval o < len (cd_bytes c))); [apply Hin, elem_of_range; lia|].
    rewrite Hout by (rewrite elem_of_range; lia). apply past_word; [done|lia].
Qed.

(** ** Call output *)
Definition len_limit (r : SymReturnData) (k : Z) : Z :=
  match as_const (len_word r) with None => Z.min k (val (len_word r)) | Some _ => k end.

Lemma den_index_lt idx e v : den e = Some v -> usize_ok idx -> denb (cmp Ult (constant (U idx)) e) = Some (idx <? uval v).
Proof.
  intros He Hi. destruct (den_usize idx Hi) as [Hd Hu].
  apply (cmp_refines_order model Ult); [done|]. rewrite <- Hu at 2. by apply (den_cmp_intro model Ult _ _ (U idx) v).
Qed.

Lemma existing_byte_sound m dest d idx k :
  mem_ok m -> den dest = Some d -> 0 <= idx < k -> addressable dest k -> readable m dest k -> k <= usize_max ->
  den (SCopy.call_output_existing_byte m dest idx) = Some (U (mem_from m (uval d) idx)).
Proof.
  intros Hm Hd Hi Hadr Hrd Hk. unfold SCopy.call_output_existing_byte. pose proof (uval_range d).
  destruct (as_const dest) as [v|] eqn:Ev.
  - destruct (to_usize_addressable _ _ _ Hadr ltac:(lia) Ev) as [-> Hv]. specialize (Hadr v Ev).
    assert (d = v) as -> by (by eapply as_const_den). unfold usize_add. destruct Hv.
    rewrite Z.mod_small by (unfold usize_max in *; lia). rewrite mem_from_usize by lia.
    apply mem_byte_sound; [done|]. unfold usize_ok. lia.
  - apply dynamic_byte_sound; try done; [lia|apply no_bounds; lia|]. eapply readable_le, Hrd. lia.
Qed.

(** A byte of the output area: the returned byte where both the output size
    and the length of the return data reach, the existing byte elsewhere. *)
Lemma output_byte_sound m dest d idx k output_size r :
  mem_ok m -> den dest = Some d -> 0 <= idx < k -> addressable dest k -> readable m dest k -> k <= usize_max ->
  seq_ok model (rd_bytes r) -> defined model (len_word r) ->
  match output_size with Some e => defined model e | None => True end ->
  den (SCopy.call_output_byte m dest idx output_size r) =
    Some (U (if idx <? len_limit r (match output_size with Some e => val e | None => k end)
             then seq_at model (rd_bytes r) idx else mem_from m (uval d) idx)).
Proof.
  intros Hm Hd Hi Hadr Hrd Hk Hr [lw Hlw] Hos. assert (Hu : usize_ok idx) by (unfold usize_ok; lia).
  set (limit := len_limit r (match output_size with Some e => val e | None => k end)).
  pose proof (existing_byte_sound m dest d idx k Hm Hd Hi Hadr Hrd Hk) as Hex.
  pose proof (byte_sound model (rd_bytes r) idx Hr Hu) as Hby.
  unfold SCopy.call_output_byte. set (guards := _ ++ _).
  assert (Hg : denote_all model guards = Some (idx <? limit)).
  { unfold guards, limit, len_limit. destruct output_size as [e|]; [destruct Hos as [v Hv]|];
      destruct (as_const (len_word r)) as [c|]; simpl.
    - rewrite (den_index_lt _ _ _ Hv Hu), (den_val_Some _ _ _ Hv). by destruct (idx <? uval v).
    - rewrite (den_index_lt _ _ _ Hv Hu), (den_index_lt _ _ _ Hlw Hu), (den_val_Some _ _ _ Hv), (den_val_Some _ _ _ Hlw).
      destruct (Z.ltb_spec idx (uval v)), (Z.ltb_spec idx (uval lw)), (Z.ltb_spec idx (Z.min (uval v) (uval lw))); done || lia.
    - f_equal. symmetry. apply Z.ltb_lt. lia.
    - rewrite (den_index_lt _ _ _ Hlw Hu), (den_val_Some _ _ _ Hlw).
      destruct (Z.ltb_spec idx (uval lw)), (Z.ltb_spec idx (Z.min k (uval lw))); done || lia. }
  apply (den_and model) in Hg. destruct (SBool.as_const (SBool.and guards)) as [[|]|] eqn:Ec.
  - assert (SBool.and guards = BConst true) as E by (destruct (SBool.and guards); simpl in Ec; by simplify_eq).
    rewrite E in Hg. simpl in Hg. simplify_eq. by rewrite <- Hg.
  - assert (SBool.and guards = BConst false) as E by (destruct (SBool.and guards); simpl in Ec; by simplify_eq).
    rewrite E in Hg. simpl in Hg. simplify_eq. by rewrite <- Hg.
  - eapply den_ite; [exact Hg|]. by destruct (idx <? limit).
Qed.

(** The number of bytes a call writes to its output area. *)
Definition output_len (size : BoundedCopySize) (r : SymReturnData) : Z :=
  match size with
  | CopyConcrete n => len_limit r (Z.min n (SReturnData.len r))
  | CopySymbolic e max_size => Z.min (len_limit r (val e)) (Z.min max_size (SReturnData.len r))
  end.

Definition bound_of (size : BoundedCopySize) : Z :=
  match size with CopyConcrete n => n | CopySymbolic _ max_size => max_size end.

Lemma guarded_output_spec m dest d output_size access n r k :
  mem_ok m -> den dest = Some d -> den access = Some n -> 0 <= k <= usize_max -> addressable dest k -> readable m dest k ->
  seq_ok model (rd_bytes r) -> defined model (len_word r) ->
  match output_size with Some e => defined model e | None => True end ->
  exists m', (let* b := exprs (map (fun idx => SCopy.call_output_byte m dest idx output_size r) (range k)) in
              Ret (store_symbolic_sized_bytes m dest b access)) = Ret m' /\
    copied m m' (uval d) (Z.min (len_limit r (match output_size with Some e => val e | None => k end)) k)
      (seq_at model (rd_bytes r)).
Proof.
  intros Hm Hd Hn Hk Hadr Hrd Hr Hlw Hos. set (limit := len_limit r _).
  assert (Hlim : 0 <= limit).
  { unfold limit, len_limit. pose proof (den_val_nonneg model (len_word r)).
    destruct output_size as [e|]; [pose proof (den_val_nonneg model e)|]; case_match; lia. }
  destruct (exprs_range_represent model (fun idx => SCopy.call_output_byte m dest idx output_size r)
    (fun i => if i <? limit then seq_at model (rd_bytes r) i else mem_from m (uval d) i) k) as (b & -> & Hrep); [done| |].
  - intros i Hi. split; [destruct (i <? limit); [by apply seq_at_range|by apply mem_at_range]|].
    apply output_byte_sound; done || lia.
  - simpl obind. eexists; split; [done|]. apply copied_guarded; [|done]. eapply stored_copied; [|exact Hrep].
    apply store_symbolic_sized_spec; try done. apply Hrep.
Qed.

(** Copying the output of a call: the returned bytes up to the requested size
    and the length of the return data; everything else is kept. *)
Lemma copy_call_output_spec m dest d size r :
  mem_ok m -> den dest = Some d -> 0 <= bound_of size <= usize_max -> addressable dest (bound_of size) ->
  readable m dest (bound_of size) -> seq_ok model (rd_bytes r) -> defined model (len_word r) ->
  defined model (SCopy.bounded_size_word size) ->
  exists m', SCopy.copy_call_output_offset m dest size r = Ret m' /\
    copied m m' (uval d) (output_len size r) (seq_at model (rd_bytes r)).
Proof.
  intros Hm Hd Hb Hadr Hrd Hr Hlw Hsw. destruct (len_usize model _ Hr) as [Hl0 Hl].
  assert (Hnone : forall m d, mem_ok m -> copied m m d (output_len (match size with CopyConcrete _ => CopyConcrete 0
    | CopySymbolic e _ => CopySymbolic e 0 end) r) (seq_at model (rd_bytes r))).
  { intros m1 d1 Hm1. replace (output_len _ r) with 0; [by apply copied_nothing|]. unfold output_len, len_limit, SReturnData.len.
    pose proof (den_val_nonneg model (len_word r)). destruct size as [n|e mx]; [|pose proof (den_val_nonneg model e)]; case_match; lia. }
  destruct size as [n|e mx]; cbn [SCopy.copy_call_output_offset bound_of SCopy.bounded_size_word] in *.
  - destruct (Z.eqb_spec n 0) as [->|]; [exists m; split; [done|by apply Hnone]|].
    set (k := Z.min n (SReturnData.len r)). assert (Hk : 0 <= k <= usize_max) by (unfold k, SReturnData.len in *; lia).
    destruct Hsw as [nv Hnv]. cbn [output_len]. fold k. unfold len_limit. destruct (as_const (len_word r)) as [c|] eqn:Ec.
    + destruct (slice_spec model (rd_bytes r) zero k ZERO) as (b & Hbr & Hrep); [done|done|apply (den_zero model)| |].
      { assert (Hz : eval_usize zero = Some 0) by (by apply eval_usize_constant). rewrite Hz.
        split; [lia|]. right. unfold k, SReturnData.len. lia. }
      unfold SReturnData.read_bytes_offset, read_offset. rewrite Hbr. simpl obind. eexists; split; [done|].
      eapply stored_copied; [apply store_symbolic_sized_spec; try done; apply Hrep|].
      eapply represents_ext, Hrep. intros i Hi. by rewrite uval_ZERO.
    + destruct (guarded_output_spec m dest d None (constant (U n)) nv r k) as (m' & -> & Hc); try done.
      { intros v Hv. specialize (Hadr v Hv). unfold k. lia. }
      { eapply readable_le, Hrd. unfold k. lia. }
      exists m'. split; [done|]. unfold len_limit in Hc. rewrite Ec in Hc.
      replace (Z.min (Z.min k (val (len_word r))) k) with (Z.min k (val (len_word r))) in Hc by lia. done.
  - destruct (Z.eqb_spec mx 0) as [->|]; [exists m; split; [done|by apply Hnone]|].
    set (k := Z.min mx (SReturnData.len r)). assert (Hk : 0 <= k <= usize_max) by (unfold k, SReturnData.len in *; lia).
    pose proof Hsw as [nv Hnv]. cbn [output_len]. fold k.
    apply (guarded_output_spec m dest d (Some e) e nv r k); try done.
    { intros v Hv. specialize (Hadr v Hv). unfold k. lia. }
    { eapply readable_le, Hrd. unfold k. lia. }
Qed.

(** RETURNDATACOPY of a concrete size: an error exactly when a constant range
    leaves the return data, the bytes otherwise. *)
Lemma copy_return_data_spec m dest d offset o size r :
  mem_ok m -> den dest = Some d -> den offset = Some o -> usize_ok size -> seq_ok model (rd_bytes r) ->
  addressable dest (size + 31) -> slice_fits (rd_bytes r) offset size ->
  exists x, SCopy.copy_return_data_to_offset m dest offset size r = Ret x /\
    match x with
    | inl m' => copied m m' (uval d) size (fun i => seq_at model (rd_bytes r) (uval o + i)) /\
                mem_size m' = Z.max (mem_size m) (range_size (uval d) size)
    | inr e => e = SCopy.out_of_bounds /\ SReturnData.len r < uval o + size
    end.
Proof.
  intros Hm Hd Ho Hsz Hr Hadr Hfit. unfold SCopy.copy_return_data_to_offset. destruct (len_usize model _ Hr) as [Hl0 Hl].
  destruct (Z.eqb_spec size 0) as [->|]; [exists (inl m); split_and!; [done|by apply copied_nothing|by rewrite range_size_nothing]|].
  destruct (SCopy.return_range_ok offset size r) eqn:Eok.
  - destruct (slice_spec model (rd_bytes r) offset size o) as (b & Hb & Hrep); [done..|].
    unfold SReturnData.read_bytes_offset, read_offset. rewrite Hb. simpl obind. eexists; split; [done|].
    by apply store_represented_spec.
  - eexists; split; [done|]. split; [done|]. unfold SCopy.return_range_ok, SReturnData.len in *. unfold usize_ok in *.
    destruct (as_const offset) as [v|] eqn:Ev; [|done]. assert (o = v) as -> by (by eapply as_const_den). pose proof (uval_range v).
    unfold to_usize, sat_add in Eok. destruct (Z.leb_spec (uval v) usize_max); [|lia].
    apply Z.leb_gt in Eok. lia.
Qed.
End MemSpec.
