(* ===== verification/SymPath.v ===== *)
(** * SymPath: values and bounds that follow from a path condition, and the word opcodes

    Models runtime/evm.rs (EXP, SIGNEXTEND, BYTE and shifts of words) and the
    part of runtime/state.rs that reads the path condition: constrained words,
    upper and lower bounds of expressions with their memo tables and visit
    budget, and the stack handlers of the arithmetic opcodes.  A path is its
    list of constraints; the theorems hold under every model that satisfies
    them. *)

From Stdlib Require Import ZArith Lia Bool.
From stdpp Require Import base list option sets strings.
From S2P Require Import Prelude SymWord SymExpr SymSimpl SymSound SymCmp SymBytes SymSeq SymMem SymMemSpec.
Local Open Scope Z_scope.
Local Open Scope outcome_scope.

(** ** Word operations (evm.rs) *)
(** [base.wrapping_pow(exponent)]. *)
Definition wrapping_pow (base exponent : U256) : U256 := U (uval base ^ uval exponent).

Definition signextend (byte_index value : U256) : U256 :=
  if u_leb (U 32) byte_index then value
  else
    let bit_index := uval byte_index * 8 + 7 in
    let sign_bit := u_shl ONE bit_index in
    let mask := wrapping_sub sign_bit ONE in
    if is_zero (u_and value sign_bit) then u_and value mask else u_or value (u_not mask).

Section Evm.
Context `{SA : SignedArith, HF : HashFns}.

Definition exp_expr_for_concrete_exponent (base : SymExpr) (exponent : Z) : SymExpr :=
  if exponent =? 0 then one
  else match as_const base with
       | Some b => constant (wrapping_pow b (U exponent))
       | None => Nat.iter (Z.to_nat (exponent - 1)) (fun e => binop Mul e base) base
       end.

Definition signextend_word (byte_index : U256) (value : SymExpr) : SymExpr :=
  if u_leb (U 32) byte_index then value
  else match as_const value with
  | Some v => constant (signextend byte_index v)
  | None =>
      let bit_index := uval byte_index * 8 + 7 in
      let sign_bit := u_shl ONE bit_index in
      let mask_value := wrapping_sub sign_bit ONE in
      let masked_sign := binop And value (constant sign_bit) in
      let condition := eq_exprs masked_sign zero in
      ite condition (binop And value (constant mask_value)) (binop Or value (constant (u_not mask_value)))
  end.

(** The loops over candidate indices, the last candidate innermost. *)
Definition select_index (index : SymExpr) (n : Z) (branch : Z -> SymExpr) (otherwise : SymExpr) : SymExpr :=
  fold_right (fun idx result => ite (eq_exprs index (constant (U idx))) (branch idx) result) otherwise (range n).

Definition signextend_word_dynamic (byte_index value : SymExpr) : SymExpr :=
  match as_const byte_index with
  | Some i => signextend_word i value
  | None => select_index byte_index 31 (fun idx => signextend_word (U idx) value) value
  end.

Definition byte_expr (index : Z) (e : SymExpr) : SymExpr :=
  match known_byte e index with
  | Some b => constant (U b)
  | None => extracted_byte e index
  end.

Definition byte_word (index : U256) (word : SymExpr) : SymExpr :=
  if u_leb (U 32) index then zero
  else match as_const word with
       | Some w => constant (U (be_byte w (uval index)))
       | None => byte_expr (uval index) word
       end.

Definition byte_word_dynamic (index word : SymExpr) : SymExpr :=
  match as_const index with
  | Some i => byte_word i word
  | None =>
      match as_const word with
      | Some w => select_index index 32 (fun idx => constant (U (be_byte w idx))) zero
      | None => select_index index 32 (fun idx => byte_expr idx word) zero
      end
  end.

(** [value << bits], zero from 256 bits on. *)
Definition shift_left (value : SymExpr) (bits : Z) : SymExpr :=
  match as_const value with
  | Some v => constant (u_shl v bits)
  | None => binop Shl value (constant (U bits))
  end.
End Evm.

(** ** The path condition *)
Definition MAX_BOUND_ANALYSIS_VISITS : Z := 256.
Definition SYMBOLIC_EXP_CONCRETE_EXPONENT_LIMIT : Z := 32.
Definition CONCRETE_BASE_SYMBOLIC_EXPONENT_LIMIT : Z := 256.

(** [collect_eval_vars]: the symbols that evaluation looks up, in visiting order. *)
Fixpoint eval_vars (e : SymExpr) : list Symbol :=
  match e with
  | EConst _ => []
  | EVar s | EGasLeft s => [s]
  | EHash s _ bs => s :: flat_map eval_vars bs
  | EKeccak _ l bs => eval_vars l ++ flat_map eval_vars bs
  | ENot e => eval_vars e
  | EBinOp _ l r => eval_vars l ++ eval_vars r
  | ETernOp _ l r m => eval_vars l ++ eval_vars r ++ eval_vars m
  | EIte c t f => beval_vars c ++ eval_vars t ++ eval_vars f
  end
with beval_vars (b : SymBoolExpr) : list Symbol :=
  match b with
  | BConst _ => []
  | BNot b => beval_vars b
  | BAnd bs => flat_map beval_vars bs
  | BCmp _ l r => eval_vars l ++ eval_vars r
  end.

(** The memo tables of the bound analysis and its visit budget. *)
Record BoundState := mkBounds {
  upper_bounds : list (SymExpr * option Z);
  lower_bounds : list (SymExpr * Z);
  ordering : list ((SymExpr * SymExpr) * bool);
  remaining : Z
}.

Definition new_bounds : BoundState := mkBounds [] [] [] MAX_BOUND_ANALYSIS_VISITS.

(** Computations that thread the tables. *)
Definition BoundM (A : Type) := BoundState -> A * BoundState.
Definition bret {A} (a : A) : BoundM A := fun st => (a, st).
Definition bbind {A B} (c : BoundM A) (k : A -> BoundM B) : BoundM B := fun st => let '(a, st) := c st in k a st.

Declare Scope bound_scope.
Delimit Scope bound_scope with bound.
Notation "'let^' x := c 'in' k" := (bbind c (fun x => k))
  (at level 200, x name, c at level 100, k at level 200) : bound_scope.
Local Open Scope bound_scope.

Definition set_remaining (n : Z) (st : BoundState) : BoundState :=
  mkBounds (upper_bounds st) (lower_bounds st) (ordering st) n.
Definition insert_upper (e : SymExpr) (b : option Z) : BoundM (option Z) := fun st =>
  (b, mkBounds ((e, b) :: upper_bounds st) (lower_bounds st) (ordering st) (remaining st)).
Definition insert_lower (e : SymExpr) (b : Z) : BoundM Z := fun st =>
  (b, mkBounds (upper_bounds st) ((e, b) :: lower_bounds st) (ordering st) (remaining st)).
Definition insert_ordering (k : SymExpr * SymExpr) (b : bool) : BoundM bool := fun st =>
  (b, mkBounds (upper_bounds st) (lower_bounds st) ((k, b) :: ordering st) (remaining st)).

(** [remaining.checked_sub(1)]: one visit, or the answer when the budget is used up. *)
Definition spend {A} (exhausted : A) (visit : BoundM A) : BoundM A := fun st =>
  if remaining st =? 0 then (exhausted, st) else visit (set_remaining (remaining st - 1) st).

Definition implies_ule (c : SymBoolExpr) (expected : bool) (l r : SymExpr) : BoundM bool := fun st =>
  let '(b, n) := implies_unsigned_less_or_equal c expected l r (remaining st) in (b, set_remaining n st).

(** [a || b] with the second computation only when needed. *)
Definition bor (a b : BoundM bool) : BoundM bool := let^ x := a in if x then bret true else b.

Definition checked_mul (a b : Z) : option Z := if a * b <=? usize_max then Some (a * b) else None.

(** Monadic [?] on options. *)
Definition bopt {A B} (c : BoundM (option A)) (k : A -> BoundM (option B)) : BoundM (option B) :=
  let^ x := c in match x with Some a => k a | None => bret None end.

Module SPath.
Section Analysis.
Context `{SA : SignedArith, HF : HashFns}.
Variable constraints : list SymBoolExpr.

(** [constraints.iter().find_map(..)]. *)
Fixpoint forced_by (cs : list SymBoolExpr) (e : SymExpr) : option U256 :=
  match cs with
  | [] => None
  | c :: rest => match forces_expr_const_with_context c e constraints with
                 | Some v => Some v
                 | None => forced_by rest e
                 end
  end.

(** The loop that builds the model of the forced variables. *)
Fixpoint forced_model (vars : list Symbol) (model : SymbolicModel) : option SymbolicModel :=
  match vars with
  | [] => Some model
  | s :: rest => v ← forced_by constraints (EVar s);
                 forced_model rest (fun s' => if Pos.eqb s' s then Some v else model s')
  end.

Definition constrained_expr_value (e : SymExpr) : option U256 :=
  match sym_eval e with
  | Some v => Some v
  | None =>
      match known_word e with
      | Some v => Some v
      | None =>
          model ← forced_model (eval_vars e) (fun _ => None);
          match eval_model_word model e with inl v => Some v | inr _ => None end
      end
  end.

Definition constrained_word (e : SymExpr) : option U256 :=
  match as_const e with
  | Some v => Some v
  | None => match forced_by constraints e with
            | Some v => Some v
            | None => constrained_expr_value e
            end
  end.

Definition constrained_usize_checked (e : SymExpr) : option (Z + U256) :=
  v ← constrained_word e; Some (match to_usize v with Some n => inl n | None => inr v end).

Definition constrained_usize (e : SymExpr) : option Z :=
  r ← constrained_usize_checked e; match r with inl n => Some n | inr _ => None end.

Definition expect_constrained_usize (e : SymExpr) (reason : string) : Z + SymbolicError :=
  match constrained_usize e with Some n => inl n | None => inr (Unsupported reason) end.

Definition expect_constrained_word (e : SymExpr) (reason : string) : U256 + SymbolicError :=
  match constrained_word e with Some v => inl v | None => inr (Unsupported reason) end.

Definition can_materialize_seed : bool := negb (existsb bcontains_gasleft constraints).

(** *** Bounds *)
Definition constraint_upper_bound_usize (e : SymExpr) : option Z :=
  fold_left (fun bound c => min_bound bound (upper_bound_usize c e)) constraints None.

(** The comparison of two expressions that are not in the table. *)
Definition order_cases (ordered : SymExpr -> SymExpr -> BoundM bool) (l r : SymExpr) : BoundM bool :=
  match as_const l, as_const r with
  | Some a, Some b => bret (u_leb a b)
  | _, _ =>
      match l, r with
      | EIte c t f, _ =>
          let^ then_ordered := bor (implies_ule c true t r) (ordered t r) in
          let^ else_ordered := bor (implies_ule c false f r) (ordered f r) in
          bret (then_ordered && else_ordered)
      | _, EIte c t f =>
          let^ then_ordered := bor (implies_ule c true l t) (ordered l t) in
          let^ else_ordered := bor (implies_ule c false l f) (ordered l f) in
          bret (then_ordered && else_ordered)
      | _, _ => bret false
      end
  end.

Definition ordered_body (ordered : SymExpr -> SymExpr -> BoundM bool) (l r : SymExpr) : BoundM bool := fun st =>
  if expr_eqb l r then (true, st)
  else match assoc pair_eqb (l, r) (ordering st) with
  | Some b => (b, st)
  | None => spend false (let^ b := order_cases ordered l r in insert_ordering (l, r) b) st
  end.

Fixpoint ordered_fuel (fuel : nat) (l r : SymExpr) : BoundM bool :=
  match fuel with
  | O => bret false
  | S f => ordered_body (ordered_fuel f) l r
  end.

Definition expressions_are_unsigned_ordered (l r : SymExpr) : BoundM bool := ordered_fuel (esize l + esize r) l r.

Definition const_usize_of (e : SymExpr) : option Z := v ← as_const e; to_usize v.
(** [usize::try_from(value - U256::ONE).ok()]. *)
Definition usize_pred (v : U256) : option Z := to_usize (wrapping_sub v ONE).
(** [bound / divisor], [bound >> shift] and [1usize.checked_shl(shift)]. *)
Definition shr_usize (bound shift : Z) : Z := if 64 <=? shift then 0 else Z.shiftr bound shift.
Definition shl_factor (shift : Z) : option Z := if 64 <=? shift then None else Some (Z.shiftl 1 shift).

Definition merge_bounds (a b : option Z) : option Z :=
  match a, b with
  | Some x, Some y => Some (Z.min x y)
  | Some x, None | None, Some x => Some x
  | None, None => None
  end.

(** The bound of a binary operation from its operands; [ub] is the recursive
    analysis. *)
Definition upper_binop (ub : SymExpr -> BoundM (option Z)) (op : SymBinOp) (l r : SymExpr) : BoundM (option Z) :=
  match op with
  | Add => bopt (ub l) (fun x => bopt (ub r) (fun y => bret (checked_add x y)))
  | Mul => bopt (ub l) (fun x => bopt (ub r) (fun y => bret (checked_mul x y)))
  | UDiv => bopt (ub l) (fun x => bret
      (d ← as_const r; if is_zero d then Some 0 else d ← to_usize d; Some (x / d)))
  | URem => match as_const r with
            | Some d => bret (if is_zero d then Some 0 else usize_pred d)
            | None => ub l
            end
  | And =>
      match (match const_usize_of r with Some m => Some m | None => const_usize_of l end) with
      | None => bret None
      | Some mask =>
          let^ x := ub l in
          let^ y := match x with Some _ => bret x | None => ub r end in
          bret (Some (match y with Some b => Z.min b mask | None => mask end))
      end
  | Shr => bopt (ub l) (fun x => bret (s ← const_usize_of r; Some (shr_usize x s)))
  | Sub =>
      match d ← constant_difference l r; to_usize d with
      | Some d => bret (Some d)
      | None => bopt (ub l) (fun x =>
          let^ b := expressions_are_unsigned_ordered r l in bret (if b then Some x else None))
      end
  | Shl =>
      match as_const r with
      | None => bret None
      | Some s =>
          if u_leb (U 256) s then bret (Some 0)
          else match to_usize s with
               | None => bret None
               | Some s => bopt (ub l) (fun x =>
                   bret (if x =? 0 then Some 0 else f ← shl_factor s; checked_mul x f))
               end
      end
  | SDiv | SRem | Or | Xor | Sar => bret None
  end.

(** The bound that the structure of an expression gives. *)
Definition structural_upper (ub : SymExpr -> BoundM (option Z)) (e : SymExpr) : BoundM (option Z) :=
  match e with
  | EConst v => bret (to_usize v)
  | EVar _ | EGasLeft _ | EKeccak _ _ _ | EHash _ _ _ | ENot _ => bret None
  | ETernOp _ _ _ modulus =>
      match as_const modulus with
      | Some m => bret (if is_zero m then Some 0 else usize_pred m)
      | None => bopt (ub modulus) (fun b => bret (checked_sub b 1))
      end
  | EIte c l r =>
      let^ x := ub l in
      let^ y := ub r in
      match x, y with
      | Some x, Some y => bret (Some (Z.max x y))
      | None, Some y => let^ b := implies_ule c true l r in bret (if b then Some y else None)
      | Some x, None => let^ b := implies_ule c false r l in bret (if b then Some x else None)
      | None, None => bret None
      end
  | EBinOp op l r => upper_binop ub op l r
  end.

Fixpoint expr_upper_bound_usize_cached (e : SymExpr) : BoundM (option Z) := fun st =>
  match assoc expr_eqb e (upper_bounds st) with
  | Some b => (b, st)
  | None =>
      match as_const e with
      | Some v => (to_usize v, st)
      | None =>
          (let^ structural := spend None (structural_upper expr_upper_bound_usize_cached e) in
           insert_upper e (merge_bounds (constraint_upper_bound_usize e) structural)) st
      end
  end.

Definition upper_bound_usize (e : SymExpr) : option Z := fst (expr_upper_bound_usize_cached e new_bounds).

(** Whether the sum of the upper bounds fits, so that the addition cannot wrap. *)
Definition sum_bound (l r : SymExpr) : BoundM (option Z) :=
  bopt (expr_upper_bound_usize_cached l) (fun x =>
    bopt (expr_upper_bound_usize_cached r) (fun y => bret (checked_add x y))).

(** The lower bound that the structure of an expression gives. *)
Definition structural_lower (lb : SymExpr -> BoundM Z) (e : SymExpr) : BoundM Z :=
  match e with
  | EConst v => bret (default 0 (to_usize v))
  | EIte _ l r =>
      let^ x := lb l in
      let^ y := lb r in
      bret (Z.min x y)
  | EBinOp Add l r =>
      let^ no_wrap := sum_bound l r in
      match no_wrap with
      | Some _ =>
          let^ x := lb l in
          let^ y := lb r in
          bret (default 0 (checked_add x y))
      | None => bret 0
      end
  | EBinOp Sub l r => bret (default 0 (d ← constant_difference l r; to_usize d))
  | EBinOp Or l r =>
      let^ x := lb l in
      let^ y := lb r in
      bret (Z.max x y)
  | _ => bret 0
  end.

Fixpoint expr_lower_bound_usize (e : SymExpr) : BoundM Z := fun st =>
  match assoc expr_eqb e (lower_bounds st) with
  | Some b => (b, st)
  | None =>
      match const_usize_of e with
      | Some v => (v, st)
      | None => spend 0 (let^ bound := structural_lower expr_lower_bound_usize e in insert_lower e bound) st
      end
  end.

Definition lower_bound_usize (e : SymExpr) : Z := fst (expr_lower_bound_usize e new_bounds).

(** *** Stack handlers of the arithmetic opcodes *)
Variable STACK_LIMIT : Z.
Import SStack.

(** The result of an operation on the two topmost words. *)
Definition pop2 {A} (s : SymStack) (k : SymExpr -> SymExpr -> SymStack -> A + SymbolicError) : A + SymbolicError :=
  match pop s with
  | inr e => inr e
  | inl (a, s) => match pop s with
                  | inr e => inr e
                  | inl (b, s) => k a b s
                  end
  end.

Definition bin_word (op : SymBinOp) (s : SymStack) : SymStack + SymbolicError :=
  pop2 s (fun a b s => push STACK_LIMIT s (binop op a b)).

Definition bin_word_div_zero_guard (op : SymBinOp) (s : SymStack) : SymStack + SymbolicError :=
  pop2 s (fun a b s => push STACK_LIMIT s (ite (eq_exprs b zero) zero (binop op a b))).

Definition cmp_word_condition (op : SymCmpOp) (s : SymStack) : (SymBoolExpr * SymStack) + SymbolicError :=
  pop2 s (fun a b s => inl (cmp op a b, s)).

Definition shift_word (op : SymBinOp) (s : SymStack) : SymStack + SymbolicError :=
  pop2 s (fun shift value s =>
    let expr := binop op value shift in
    push STACK_LIMIT s (match known_word expr with Some w => constant w | None => expr end)).

Definition exp_result (base exponent : SymExpr) : SymExpr + SymbolicError :=
  match constrained_word exponent with
  | Some k =>
      match as_const base with
      | Some b => inl (constant (wrapping_pow b k))
      | None =>
          if uval k <=? SYMBOLIC_EXP_CONCRETE_EXPONENT_LIMIT
          then inl (exp_expr_for_concrete_exponent base (uval k))
          else inr (Unsupported "symbolic EXP base")
      end
  | None =>
      let exponent_limit := match as_const base with
                            | Some _ => CONCRETE_BASE_SYMBOLIC_EXPONENT_LIMIT
                            | None => SYMBOLIC_EXP_CONCRETE_EXPONENT_LIMIT
                            end in
      match upper_bound_usize exponent with
      | Some max_exponent =>
          if max_exponent <=? exponent_limit
          then inl (select_index exponent (max_exponent + 1) (exp_expr_for_concrete_exponent base) zero)
          else inr (Unsupported "symbolic EXP exponent")
      | None => inr (Unsupported "symbolic EXP exponent")
      end
  end.

Definition exp_word (s : SymStack) : SymStack + SymbolicError :=
  pop2 s (fun base exponent s =>
    match exp_result base exponent with
    | inl result => push STACK_LIMIT s result
    | inr e => inr e
    end).
End Analysis.
End SPath.

(** ** Soundness of the word operations *)
Section EvmSound.
Context `{SA : SignedArith, HF : HashFns} {SL : SignedArithLaws}.
Variable model : SymbolicModel.
Abbreviation den := (denote_word model).
Abbreviation denb := (denote_bool model).

Lemma select_index_sound index v n branch otherwise (f : Z -> U256) d :
  den index = Some v -> 0 <= n <= usize_max -> den otherwise = Some d ->
  (forall i, 0 <= i < n -> den (branch i) = Some (f i)) ->
  den (select_index index n branch otherwise) = Some (if uval v <? n then f (uval v) else d).
Proof.
  intros Hv Hn Hd Hb. unfold select_index.
  assert (Hgen : forall l, Forall (fun i => 0 <= i < n) l ->
    den (fold_right (fun i r => ite (eq_exprs index (constant (U i))) (branch i) r) otherwise l) =
      Some (if bool_decide (uval v ∈ l) then f (uval v) else d)).
  { induction 1 as [|i l Hi Hl IH]; simpl; [done|]. eapply den_ite; [by apply cmp_const_den|]. unfold u_eqb.
    rewrite uval_U_small by (change word_modulus with (2 ^ 256); unfold usize_max in *; lia).
    destruct (Z.eqb_spec (uval v) i) as [E|E].
    - rewrite bool_decide_true by set_solver. rewrite E. auto.
    - rewrite IH. do 2 f_equal. case_bool_decide as H1; case_bool_decide as H2; set_solver. }
  rewrite Hgen by (apply Forall_forall; intros i; apply elem_of_range). do 2 f_equal. pose proof (uval_range v).
  case_bool_decide as Hin; rewrite elem_of_range in Hin; destruct (Z.ltb_spec (uval v) n); done || lia.
Qed.

Lemma exp_sound base b k :
  den base = Some b -> 0 <= k < word_modulus ->
  den (exp_expr_for_concrete_exponent base k) = Some (wrapping_pow b (U k)).
Proof.
  intros Hb Hk. unfold exp_expr_for_concrete_exponent, wrapping_pow. rewrite uval_U_small by done.
  destruct (Z.eqb_spec k 0) as [->|Hne]; [by rewrite (den_one model)|].
  destruct (as_const base) as [c|] eqn:E.
  { rewrite (as_const_den _ _ _ _ E Hb), (den_constant model). done. }
  assert (Hgen : forall n, den (Nat.iter n (fun e => binop Mul e base) base) = Some (U (uval b ^ (Z.of_nat n + 1)))).
  { induction n as [|n IH]; [by rewrite Z.pow_1_r, U_uval|]. cbn [Nat.iter].
    change (Nat.iter (S n) (fun e => binop Mul e base) base) with (binop Mul (Nat.iter n (fun e => binop Mul e base) base) base).
    rewrite (den_binop model Mul _ _ _ _ IH Hb). simpl. f_equal. unfold wrapping_mul. apply uval_inj. rewrite !uval_U, Zmult_mod_idemp_l.
    f_equal. rewrite Nat2Z.inj_succ. replace (Z.succ (Z.of_nat n) + 1) with (Z.succ (Z.of_nat n + 1)) by lia.
    rewrite Z.pow_succ_r by lia. lia. }
  rewrite Hgen. do 3 f_equal. lia.
Qed.

Lemma signextend_word_sound i value v :
  den value = Some v -> den (signextend_word i value) = Some (signextend i v).
Proof.
  intros Hv. unfold signextend_word, signextend. destruct (u_leb (U 32) i); [done|].
  destruct (as_const value) as [c|] eqn:E.
  { rewrite (as_const_den _ _ _ _ E Hv). apply (den_constant model). }
  set (sb := u_shl ONE _). eapply den_ite.
  { apply (cmp_const_den model _ ZERO). apply (den_binop model And); [exact Hv|apply (den_constant model)]. }
  cbn [binop_eval]. rewrite <- is_zero_eqb. destruct (is_zero (u_and v sb)).
  - apply (den_binop model And); [done|apply (den_constant model)].
  - apply (den_binop model Or); [done|apply (den_constant model)].
Qed.

(** From index 31 on a word is its own sign extension. *)
Lemma signextend_high i v : 31 <= uval i -> signextend i v = v.
Proof.
  intros Hi. unfold signextend, u_leb. change (uval (U 32)) with 32. destruct (Z.leb_spec 32 (uval i)); [done|].
  assert (E : uval i = 31) by lia. rewrite E. change (31 * 8 + 7) with 255.
  set (sb := u_shl ONE 255). set (mask := wrapping_sub sb ONE).
  assert (Hsb : uval sb = 2 ^ 255) by reflexivity. assert (Hm : uval mask = Z.ones 255) by reflexivity.
  assert (Hbit : forall j, 0 <= j < 256 -> Z.testbit (uval mask) j = (j <? 255)).
  { intros j Hj. rewrite Hm. destruct (Z.ltb_spec j 255); [by rewrite Z.ones_spec_low by lia|by rewrite Z.ones_spec_high by lia]. }
  destruct (is_zero (u_and v sb)) eqn:Ez.
  - apply is_zero_true in Ez. apply u_bits_eq. intros j Hj. rewrite testbit_u_and, Hbit by lia.
    destruct (Z.ltb_spec j 255); [by rewrite andb_true_r|]. assert (j = 255) as -> by lia.
    assert (Ht : Z.testbit (uval (u_and v sb)) 255 = false) by (rewrite Ez; apply testbit_ZERO).
    rewrite testbit_u_and, Hsb, Z.pow2_bits_true, andb_true_r in Ht by lia. by rewrite Ht.
  - apply u_bits_eq. intros j Hj. rewrite testbit_u_or, testbit_u_not, Hbit by lia.
    destruct (Z.ltb_spec j 255); simpl; [by rewrite orb_false_r|]. rewrite orb_true_r. assert (j = 255) as -> by lia.
    destruct (Z.testbit (uval v) 255) eqn:Et; [done|]. exfalso.
    assert (Hz : u_and v sb = ZERO); [|by rewrite Hz in Ez].
    apply u_bits_eq. intros j Hj'. rewrite testbit_u_and, Hsb, testbit_ZERO by lia.
    destruct (Z.eq_dec j 255) as [->|]; [by rewrite Et|]. rewrite Z.pow2_bits_false by lia. apply andb_false_r.
Qed.

Lemma signextend_dynamic_sound index value i v :
  den index = Some i -> den value = Some v -> den (signextend_word_dynamic index value) = Some (signextend i v).
Proof.
  intros Hi Hv. unfold signextend_word_dynamic. destruct (as_const index) as [c|] eqn:E.
  { rewrite (as_const_den _ _ _ _ E Hi). by apply signextend_word_sound. }
  rewrite (select_index_sound index i 31 _ _ (fun k => signextend (U k) v) v); [|done|done|done|].
  - destruct (Z.ltb_spec (uval i) 31); [by rewrite U_uval|]. by rewrite signextend_high.
  - intros k Hk. by apply signextend_word_sound.
Qed.

(** BYTE: the byte at [index], zero from 32 on. *)
Definition word_byte (index word : U256) : U256 := if uval index <? 32 then U (be_byte word (uval index)) else ZERO.

Lemma byte_word_sound i word w : den word = Some w -> den (byte_word i word) = Some (word_byte i w).
Proof.
  intros Hw. unfold byte_word, word_byte, u_leb. change (uval (U 32)) with 32. pose proof (uval_range i).
  destruct (Z.leb_spec 32 (uval i)), (Z.ltb_spec (uval i) 32); try lia; [apply (den_zero model)|].
  destruct (as_const word) as [c|] eqn:E.
  - rewrite (as_const_den _ _ _ _ E Hw). apply (den_constant model).
  - apply (word_byte_sound model); [done|lia].
Qed.

Lemma byte_dynamic_sound index word i w :
  den index = Some i -> den word = Some w -> den (byte_word_dynamic index word) = Some (word_byte i w).
Proof.
  intros Hi Hw. unfold byte_word_dynamic. destruct (as_const index) as [c|] eqn:E.
  { rewrite (as_const_den _ _ _ _ E Hi). by apply byte_word_sound. }
  unfold word_byte. destruct (as_const word) as [c|] eqn:Ew.
  - rewrite (as_const_den _ _ _ _ Ew Hw) in *. apply (select_index_sound index i 32 _ _ (fun k => U (be_byte c k))); [done|done|apply (den_zero model)|].
    intros k Hk. apply (den_constant model).
  - apply (select_index_sound index i 32 _ _ (fun k => U (be_byte w k))); [done|done|apply (den_zero model)|].
    intros k Hk. by apply (word_byte_sound model).
Qed.

Lemma shift_left_sound value v bits :
  den value = Some v -> 0 <= bits <= usize_max -> den (shift_left value bits) = Some (u_shl v bits).
Proof.
  intros Hv Hb. unfold shift_left. destruct (as_const value) as [c|] eqn:E.
  { rewrite (as_const_den _ _ _ _ E Hv). apply (den_constant model). }
  rewrite (den_binop model Shl _ _ _ _ Hv (den_constant model (U bits))). f_equal. cbn [binop_eval].
  assert (Hu : uval (U bits) = bits) by (apply uval_U_small; change word_modulus with (2 ^ 256); unfold usize_max in *; lia).
  unfold u_leb. rewrite Hu. change (uval (U 256)) with 256. destruct (Z.leb_spec 256 bits); [|done].
  apply u_bits_eq. intros j Hj. rewrite testbit_ZERO, testbit_u_shl by lia. symmetry. apply Z.testbit_neg_r. lia.
Qed.
End EvmSound.

(** ** Soundness of the analysis *)
Section PathSound.
Context `{SA : SignedArith, HF : HashFns} {SL : SignedArithLaws}.
Variable model : SymbolicModel.
Variable constraints : list SymBoolExpr.
Abbreviation den := (denote_word model).
Abbreviation denb := (denote_bool model).
(** The model satisfies the path condition. *)
Hypothesis satisfied : Forall (fun c => denb c = Some true) constraints.
Import SPath.

(** *** Constrained words *)
Lemma forced_by_sound cs e k x :
  Forall (fun c => denb c = Some true) cs -> forced_by constraints cs e = Some k -> den e = Some x -> x = k.
Proof.
  intros Hcs Hk Hx. induction Hcs as [|c cs Hc _ IH]; simpl in Hk; [done|].
  destruct (forces_expr_const_with_context c e constraints) as [k'|] eqn:E; [|auto]. simplify_eq.
  by apply (proj1 (proj2 (forces_sound model e constraints x satisfied Hx) c k)).
Qed.

(** Evaluation depends only on the symbols it looks up. *)
Lemma eval_vars_bytes m n bs :
  Forall (fun e => (forall s, s ∈ eval_vars e -> model_value m s = model_value model s) -> denote_word m e = den e) bs ->
  (forall s, s ∈ flat_map eval_vars bs -> model_value m s = model_value model s) ->
  denote_bytes m n bs = denote_bytes model n bs.
Proof.
  intros Hbs. revert n. induction Hbs as [|b bs Hb _ IH]; intros [|n] Hs; simpl in *; try done.
  rewrite Hb, IH; [done|..]; intros s Hin; apply Hs; set_solver.
Qed.

Lemma eval_vars_determine m :
  (forall e, (forall s, s ∈ eval_vars e -> model_value m s = model_value model s) -> denote_word m e = den e) /\
  (forall b, (forall s, s ∈ beval_vars b -> model_value m s = model_value model s) -> denote_bool m b = denb b).
Proof.
  apply expr_bexpr_ind; try done.
  - intros s Hs. simpl in *. f_equal. apply Hs. set_solver.
  - intros s Hs. simpl in *. f_equal. apply Hs. set_solver.
  - intros n l bs Hl Hbs Hs. simpl in Hs. rewrite !denote_EKeccak, Hl by set_solver.
    destruct (den l); [|done]. case_match; [|done]. f_equal. apply eval_vars_bytes; [done|set_solver].
  - intros n a bs _ Hs. simpl in *. f_equal. apply Hs. set_solver.
  - intros e He Hs. simpl in *. by rewrite He.
  - intros op l r Hl Hr Hs. simpl in *. by rewrite Hl, Hr by set_solver.
  - intros op l r k Hl Hr Hk Hs. simpl in *. by rewrite Hl, Hr, Hk by set_solver.
  - intros c t f Hc Ht Hf Hs. simpl in *. by rewrite Hc, Ht, Hf by set_solver.
  - intros b Hb Hs. simpl in *. by rewrite Hb.
  - intros bs Hbs. rewrite !denote_BAnd. simpl. induction Hbs as [|b bs Hb _ IH]; intros Hs; [done|]. simpl in *.
    rewrite Hb by set_solver. destruct (denb b) as [[]|]; [apply IH; set_solver|done|done].
  - intros op l r Hl Hr Hs. simpl in *. by rewrite Hl, Hr by set_solver.
Qed.

Lemma forced_model_sound vars m m' :
  forced_model constraints vars m = Some m' ->
  forall s, s ∈ vars \/ model_value m s = model_value model s -> model_value m' s = model_value model s.
Proof.
  revert m. induction vars as [|s vars IH]; intros m Hm t Ht; simpl in Hm; [simplify_eq; set_solver|].
  destruct (forced_by constraints constraints (EVar s)) as [v|] eqn:Ev; simpl in Hm; [|done].
  apply (IH _ Hm). pose proof (forced_by_sound _ _ _ _ satisfied Ev eq_refl) as Hv.
  destruct (decide (t ∈ vars)); [by left|right]. unfold model_value at 1. destruct (Pos.eqb_spec t s) as [->|Hne]; [done|].
  destruct Ht as [Ht|Ht]; [set_solver|done].
Qed.

Lemma constrained_value_sound e k x : constrained_expr_value constraints e = Some k -> den e = Some x -> x = k.
Proof.
  unfold constrained_expr_value. intros Hk Hx. destruct (sym_eval e) as [v|] eqn:Ee.
  { apply sym_eval_sound with (model := model) in Ee. congruence. }
  destruct (known_word e) as [v|] eqn:Ew; [simplify_eq; by eapply known_word_sound|].
  destruct (forced_model constraints (eval_vars e) (fun _ => None)) as [m|] eqn:Em; simpl in Hk; [|done].
  assert (Hd : denote_word m e = den e).
  { apply (proj1 (eval_vars_determine m)). intros s Hs. eapply forced_model_sound; [exact Em|by left]. }
  rewrite (eval_word_den m e x) in Hk by congruence. by simplify_eq.
Qed.

(** A word that the path condition pins down has that value. *)
Lemma constrained_word_sound e k x : constrained_word constraints e = Some k -> den e = Some x -> x = k.
Proof.
  unfold constrained_word. intros Hk Hx. destruct (as_const e) as [c|] eqn:Ec.
  { simplify_eq. by eapply as_const_den. }
  destruct (forced_by constraints constraints e) as [v|] eqn:Ef.
  - simplify_eq. by eapply forced_by_sound.
  - by eapply constrained_value_sound.
Qed.

Lemma constraint_bound_sound e n v : constraint_upper_bound_usize constraints e = Some n -> den e = Some v -> uval v <= n.
Proof.
  unfold constraint_upper_bound_usize. intros Hn Hv.
  assert (Hgen : forall cs b, Forall (fun c => denb c = Some true) cs -> (forall k, b = Some k -> uval v <= k) ->
    fold_left (fun bound c => min_bound bound (SymCmp.upper_bound_usize c e)) cs b = Some n -> uval v <= n).
  { clear Hn. intros cs b Hcs. revert b. induction Hcs as [|c cs Hc _ IH]; intros b Hb Hn; simpl in Hn; [by apply Hb|].
    eapply IH; [|exact Hn]. intros k Hk. unfold min_bound in Hk.
    destruct (SymCmp.upper_bound_usize c e) as [u|] eqn:Eu; [|by apply Hb].
    pose proof (upper_bound_sound model c e u v Eu Hc Hv). simplify_eq. destruct b as [b|]; [|done].
    specialize (Hb b eq_refl). lia. }
  by eapply (Hgen constraints None).
Qed.

Lemma to_usize_Some v n : to_usize v = Some n -> n = uval v /\ usize_ok n.
Proof. unfold to_usize, usize_ok. pose proof (uval_range v). case_match; [|done]. intros. simplify_eq. lia. Qed.

Lemma min_bound_fits b c n :
  (forall k, b = Some k -> usize_ok k) -> (forall k, c = Some k -> usize_ok k) -> min_bound b c = Some n -> usize_ok n.
Proof.
  intros Hb Hc. unfold min_bound, usize_ok in *. destruct c as [c|]; [|auto]. specialize (Hc c eq_refl).
  destruct b as [b|]; intros [= <-]; [specialize (Hb b eq_refl)|]; lia.
Qed.

Lemma bound_fits c e n : SymCmp.upper_bound_usize c e = Some n -> usize_ok n.
Proof.
  assert (Hof : forall x n, usize_of x = Some n -> usize_ok n).
  { intros x k. unfold usize_of. case_match; [|done]. intros H'. by apply to_usize_Some in H' as [_ ?]. }
  assert (Hbelow : forall x n, usize_below x = Some n -> usize_ok n).
  { intros x k. unfold usize_below. repeat case_match; try done. intros Hk. by apply to_usize_Some in Hk as [_ ?]. }
  revert n. apply (bexpr_ind' (fun _ => True) (fun c => forall n, SymCmp.upper_bound_usize c e = Some n -> usize_ok n)); try done; clear c.
  - intros vs Hvs n Hn. simpl in Hn.
    assert (Hgo : forall bound, (forall k, bound = Some k -> usize_ok k) ->
      (fix go (bound : option Z) (vs : list SymBoolExpr) : option Z :=
       match vs with
       | [] => bound
       | v :: r => go (min_bound bound (SymCmp.upper_bound_usize v e)) r
       end) bound vs = Some n -> usize_ok n).
    { clear Hn. induction Hvs as [|b vs Hb _ IH]; intros bound Hbound Hgo; [eauto|]. eapply IH; [|exact Hgo].
      intros k. by apply min_bound_fits. }
    eapply Hgo; [|exact Hn]. done.
  - intros op l r _ _ n. simpl. destruct op; simpl; repeat case_match; naive_solver.
Qed.

Lemma constraint_bound_fits e n : constraint_upper_bound_usize constraints e = Some n -> usize_ok n.
Proof.
  unfold constraint_upper_bound_usize.
  assert (Hgen : forall cs b, (forall k, b = Some k -> usize_ok k) ->
    fold_left (fun bound c => min_bound bound (SymCmp.upper_bound_usize c e)) cs b = Some n -> usize_ok n).
  { induction cs as [|c cs IH]; intros b Hb Hn; simpl in Hn; [by apply Hb|]. eapply IH; [|exact Hn].
    intros k. apply min_bound_fits; [done|]. intros j. apply bound_fits. }
  by apply Hgen.
Qed.

(** *** Bounds *)
Definition upper_ok (e : SymExpr) (b : option Z) : Prop :=
  forall n, b = Some n -> usize_ok n /\ forall v, den e = Some v -> uval v <= n.
Definition lower_ok (e : SymExpr) (n : Z) : Prop := forall v, den e = Some v -> n <= uval v.
Definition order_ok (l r : SymExpr) (b : bool) : Prop :=
  forall x y, b = true -> den l = Some x -> den r = Some y -> uval x <= uval y.

(** Every entry of the tables holds. *)
Definition tables_ok (st : BoundState) : Prop :=
  (forall e b, (e, b) ∈ upper_bounds st -> upper_ok e b) /\
  (forall e n, (e, n) ∈ lower_bounds st -> lower_ok e n) /\
  (forall l r b, ((l, r), b) ∈ ordering st -> order_ok l r b).

(** A computation keeps the tables and its result satisfies [P]. *)
Definition bsound {A} (c : BoundM A) (P : A -> Prop) : Prop :=
  forall st, tables_ok st -> P (fst (c st)) /\ tables_ok (snd (c st)).

Lemma bsound_ret {A} (a : A) (P : A -> Prop) : P a -> bsound (bret a) P.
Proof. by intros Ha st Hst. Qed.

Lemma bsound_bind {A B} (c : BoundM A) (k : A -> BoundM B) P Q :
  bsound c P -> (forall a, P a -> bsound (k a) Q) -> bsound (bbind c k) Q.
Proof.
  intros Hc Hk st Hst. unfold bbind. destruct (Hc st Hst) as [Ha Hst']. destruct (c st) as [a st']. by apply Hk.
Qed.

Lemma bsound_opt {A B} (c : BoundM (option A)) (k : A -> BoundM (option B)) P (Q : option B -> Prop) :
  bsound c P -> Q None -> (forall a, P (Some a) -> bsound (k a) Q) -> bsound (bopt c k) Q.
Proof. intros Hc Hn Hk. eapply bsound_bind; [exact Hc|]. intros [a|] Ha; [auto|by apply bsound_ret]. Qed.

Lemma bsound_impl {A} (c : BoundM A) (P Q : A -> Prop) : bsound c P -> (forall a, P a -> Q a) -> bsound c Q.
Proof. intros Hc HPQ st Hst. destruct (Hc st Hst). auto. Qed.

Lemma bsound_spend {A} (x : A) (c : BoundM A) P : P x -> bsound c P -> bsound (spend x c) P.
Proof. intros Hx Hc st Hst. unfold spend. case_match; [done|]. by apply Hc. Qed.

Lemma implies_ule_bsound c expected l r x y :
  denb c = Some expected -> den l = Some x -> den r = Some y ->
  bsound (implies_ule c expected l r) (fun b => b = true -> uval x <= uval y).
Proof.
  intros Hc Hl Hr st Hst. unfold implies_ule.
  pose proof (implies_ule_sound model c expected l r (remaining st) x y) as Hi.
  destruct (implies_unsigned_less_or_equal c expected l r (remaining st)) as [b n]. simpl in *. split; [auto|done].
Qed.

(** The same without knowing which way the condition goes. *)
Lemma implies_ule_any c expected l r :
  bsound (implies_ule c expected l r) (fun b => forall x y, b = true -> denb c = Some expected ->
    den l = Some x -> den r = Some y -> uval x <= uval y).
Proof.
  intros st Hst. unfold implies_ule.
  pose proof (fun x y => implies_ule_sound model c expected l r (remaining st) x y) as Hi.
  destruct (implies_unsigned_less_or_equal c expected l r (remaining st)) as [b n]. simpl in *. split; [|done].
  intros x y ->. by apply Hi.
Qed.

Lemma bsound_or (a b : BoundM bool) (P : bool -> Prop) : bsound a P -> bsound b P -> bsound (bor a b) P.
Proof. intros Ha Hb. eapply bsound_bind; [exact Ha|]. intros [] Hx; [by apply bsound_ret|done]. Qed.

(** One arm of a conditional: ordered under the condition, or anyway. *)
Definition arm_ok (c : SymBoolExpr) (expected : bool) (l r : SymExpr) (b : bool) : Prop :=
  forall x y, b = true -> denb c = Some expected -> den l = Some x -> den r = Some y -> uval x <= uval y.

Lemma arms_sound ordered c l1 r1 l2 r2 (P : bool -> Prop) :
  (forall l r, bsound (ordered l r) (order_ok l r)) ->
  (forall b1 b2, arm_ok c true l1 r1 b1 -> arm_ok c false l2 r2 b2 -> P (b1 && b2)) ->
  bsound (let^ then_ordered := bor (implies_ule c true l1 r1) (ordered l1 r1) in
          let^ else_ordered := bor (implies_ule c false l2 r2) (ordered l2 r2) in
          bret (then_ordered && else_ordered)) P.
Proof.
  intros Hrec HP.
  assert (Harm : forall expected l r, bsound (bor (implies_ule c expected l r) (ordered l r)) (arm_ok c expected l r)).
  { intros expected l r. apply bsound_or; [apply implies_ule_any|]. eapply bsound_impl; [apply Hrec|].
    intros b Hb x y. naive_solver. }
  eapply bsound_bind; [apply Harm|]. intros b1 H1. eapply bsound_bind; [apply Harm|]. intros b2 H2.
  by apply bsound_ret, HP.
Qed.

Lemma order_cases_sound ordered l r :
  (forall l r, bsound (ordered l r) (order_ok l r)) -> bsound (order_cases ordered l r) (order_ok l r).
Proof.
  intros Hrec. unfold order_cases.
  assert (Hno : bsound (bret false) (order_ok l r)) by (by apply bsound_ret).
  destruct (as_const l) as [a|] eqn:El, (as_const r) as [c|] eqn:Er.
  { apply bsound_ret. intros x y Hle Hx Hy.
    rewrite (as_const_den _ _ _ _ El Hx), (as_const_den _ _ _ _ Er Hy). unfold u_leb in Hle. lia. }
  all: destruct l as [| | | | | | | |c1 t1 f1]; try (apply arms_sound; [done|]; intros b1 b2 H1 H2 x y [-> ->]%andb_prop
    (cb & Hcb & Hx)%den_ite_inv Hy; destruct cb; eauto).
  all: destruct r as [| | | | | | | |c2 t2 f2]; try exact Hno.
  all: apply arms_sound; [done|]; intros b1 b2 H1 H2 x y [-> ->]%andb_prop Hx (cb & Hcb & Hy)%den_ite_inv; destruct cb; eauto.
Qed.

Lemma ordered_body_sound ordered l r :
  (forall l r, bsound (ordered l r) (order_ok l r)) -> bsound (ordered_body ordered l r) (order_ok l r).
Proof.
  intros Hrec st Hst. unfold ordered_body. destruct (expr_eqb_spec l r) as [->|Hne].
  { split; [|done]. intros x y _ Hx Hy. simplify_eq. lia. }
  destruct (assoc pair_eqb (l, r) (ordering st)) as [b|] eqn:Ea.
  { split; [|done]. apply assoc_Some_in in Ea; [by apply Hst, list_elem_of_In|].
    intros [a b'] [c d] [H1%expr_eqb_eq H2%expr_eqb_eq]%andb_prop. simpl in *. by subst. }
  revert st Hst Ea. intros st Hst _. revert st Hst. apply bsound_spend; [done|].
  eapply bsound_bind; [by apply order_cases_sound|]. intros b Hb st (H1 & H2 & H3). split; [done|].
  split_and!; [done..|]. intros l' r' b' [Heq|Hin]%elem_of_cons; [by simplify_eq|by eapply H3].
Qed.

Lemma ordered_sound l r : bsound (expressions_are_unsigned_ordered l r) (order_ok l r).
Proof.
  unfold expressions_are_unsigned_ordered. generalize (esize l + esize r)%nat as fuel. intros fuel. revert l r.
  induction fuel as [|fuel IH]; intros l r; simpl; [by apply bsound_ret|]. by apply ordered_body_sound.
Qed.

(** The arms of a conditional that the analysis compares both have a value. *)
Fixpoint analysable (e : SymExpr) : Prop :=
  match e with
  | EIte _ l r => defined model l /\ defined model r /\ analysable l /\ analysable r
  | EBinOp _ l r => analysable l /\ analysable r
  | ETernOp _ _ _ m => analysable m
  | _ => True
  end.

Lemma upper_ok_None e : upper_ok e None.
Proof. by intros n. Qed.

Lemma upper_use e n v : upper_ok e (Some n) -> den e = Some v -> usize_ok n /\ 0 <= uval v <= n.
Proof. intros He Hv. destruct (He n eq_refl) as [Hn Hb]. specialize (Hb v Hv). pose proof (uval_range v). split; [done|lia]. Qed.

Lemma usize_pred_bound m n : usize_pred m = Some n -> is_zero m = false -> n = uval m - 1 /\ usize_ok n.
Proof.
  intros [-> Hn]%to_usize_Some Hz. split; [|done]. unfold wrapping_sub. rewrite uval_ONE. pose proof (uval_range m).
  apply uval_U_small. unfold is_zero in Hz. lia.
Qed.

Lemma const_usize_den e n v : const_usize_of e = Some n -> den e = Some v -> uval v = n.
Proof.
  unfold const_usize_of. destruct (as_const e) as [c|] eqn:E; simpl; [|done]. intros [-> _]%to_usize_Some Hv.
  by rewrite (as_const_den _ _ _ _ E Hv).
Qed.

Lemma land_le a b : 0 <= a -> 0 <= b -> Z.land a b <= a /\ Z.land a b <= b.
Proof.
  intros Ha Hb.
  assert (H : forall a b, 0 <= a -> 0 <= b -> Z.land a b <= b).
  { intros x y Hx Hy. pose proof (Z.sub_nocarry_ldiff y (Z.land x y)) as Hs.
    assert (Hl : Z.ldiff (Z.land x y) y = 0).
    { apply Z.bits_inj'. intros i Hi. rewrite Z.ldiff_spec, Z.land_spec, Z.bits_0. by destruct (Z.testbit x i), (Z.testbit y i). }
    specialize (Hs Hl). assert (0 <= Z.ldiff y (Z.land x y)) by (apply Z.ldiff_nonneg; lia). lia. }
  split; [rewrite Z.land_comm|]; by apply H.
Qed.

Lemma uval_u_and a b : uval (u_and a b) = Z.land (uval a) (uval b).
Proof.
  unfold u_and. pose proof (uval_range a). pose proof (uval_range b). apply uval_U_small.
  split; [apply Z.land_nonneg; lia|]. destruct (land_le (uval a) (uval b)); lia.
Qed.

(** Each case of a binary operation, given the analysis of the operands. *)
Section UpperBinop.
Variables (ub : SymExpr -> BoundM (option Z)) (l r : SymExpr).
Hypothesis (Hl : bsound (ub l) (upper_ok l)) (Hr : bsound (ub r) (upper_ok r)).
Abbreviation case_sound op := (bsound (upper_binop ub op l r) (upper_ok (EBinOp op l r))).

(** A bound of the left operand turned into a bound of the operation. *)
Lemma upper_from_left op (k : Z -> BoundM (option Z)) :
  (forall x, upper_ok l (Some x) -> bsound (k x) (upper_ok (EBinOp op l r))) ->
  bsound (bopt (ub l) k) (upper_ok (EBinOp op l r)).
Proof. intros Hk. eapply bsound_opt; [exact Hl|apply upper_ok_None|done]. Qed.

Lemma upper_left_value op x (b : option Z) :
  upper_ok l (Some x) ->
  (forall n, b = Some n -> usize_ok x -> usize_ok n /\
    forall a c, den r = Some c -> 0 <= uval a <= x -> uval (binop_eval op a c) <= n) ->
  bsound (bret b) (upper_ok (EBinOp op l r)).
Proof.
  intros Hx Hb. apply bsound_ret. intros n Hn. destruct (Hx x eq_refl) as [Hu _]. destruct (Hb n Hn Hu) as [Hnu Hv].
  split; [done|]. intros v (a & c & Ha & Hc & ->)%den_binop_inv. apply Hv; [done|]. by destruct (upper_use _ _ _ Hx Ha).
Qed.

Lemma upper_from_both op (f : Z -> Z -> option Z) :
  (forall x y n, f x y = Some n -> usize_ok x -> usize_ok y -> usize_ok n /\
    forall a b, 0 <= uval a <= x -> 0 <= uval b <= y -> uval (binop_eval op a b) <= n) ->
  bsound (bopt (ub l) (fun x => bopt (ub r) (fun y => bret (f x y)))) (upper_ok (EBinOp op l r)).
Proof.
  intros Hf. apply upper_from_left. intros x Hx. eapply bsound_opt; [exact Hr|apply upper_ok_None|].
  intros y Hy. eapply upper_left_value; [exact Hx|]. intros n Hn Hxu. destruct (Hy y eq_refl) as [Hyu _].
  destruct (Hf x y n Hn Hxu Hyu) as [Hnu Hv]. split; [done|]. intros a c Hc Ha. apply Hv; [done|]. by destruct (upper_use _ _ _ Hy Hc).
Qed.

Lemma upper_add : case_sound Add.
Proof.
  apply upper_from_both. intros x y n Hn Hx Hy. unfold checked_add, usize_ok in *. case_match; simplify_eq. split; [lia|].
  intros a b Ha Hb. cbn [binop_eval]. unfold wrapping_add. rewrite uval_U. pose proof (Z.mod_le (uval a + uval b) word_modulus ltac:(lia) eq_refl). lia.
Qed.

Lemma upper_mul : case_sound Mul.
Proof.
  apply upper_from_both. intros x y n Hn Hx Hy. unfold checked_mul, usize_ok in *. case_match; simplify_eq. split; [nia|].
  intros a b Ha Hb. cbn [binop_eval]. unfold wrapping_mul. rewrite uval_U. pose proof (Z.mod_le (uval a * uval b) word_modulus ltac:(nia) eq_refl). nia.
Qed.

Lemma upper_sub : case_sound Sub.
Proof.
  cbn [upper_binop]. destruct (d ← constant_difference l r; to_usize d) as [d|] eqn:Ed.
  - apply bsound_ret. intros n Hn. simplify_eq.
    destruct (constant_difference l r) as [k|] eqn:Ek; simpl in Ed; [|done]. apply to_usize_Some in Ed as [-> Hk].
    split; [done|]. intros v (a & b & Ha & Hb & ->)%den_binop_inv. by rewrite <- (difference_sound model _ _ _ Ek _ _ Ha Hb).
  - apply upper_from_left. intros x Hx. eapply bsound_bind; [apply ordered_sound|].
    intros [] Hb; [|apply bsound_ret, upper_ok_None]. apply bsound_ret. intros n Hn. simplify_eq. destruct (Hx n eq_refl) as [Hu _].
    split; [done|]. intros v (a & c & Ha & Hc & ->)%den_binop_inv. destruct (upper_use _ _ _ Hx Ha) as [_ Han].
    specialize (Hb c a eq_refl Hc Ha). pose proof (uval_range a). pose proof (uval_range c).
    cbn [binop_eval]. unfold wrapping_sub. rewrite uval_U_small by lia. lia.
Qed.

Lemma nonzero_pos d : is_zero d = false -> 0 < uval d.
Proof. unfold is_zero. pose proof (uval_range d). lia. Qed.

Lemma upper_udiv : case_sound UDiv.
Proof.
  apply upper_from_left. intros x Hx. eapply upper_left_value; [exact Hx|]. intros n Hn Hu. unfold usize_ok in *.
  destruct (as_const r) as [d|] eqn:Ed; simpl in Hn; [|done].
  destruct (is_zero d) eqn:Ez.
  { simplify_eq. split; [done|]. intros a c Hc Ha. rewrite (as_const_den _ _ _ _ Ed Hc). cbn [binop_eval]. by rewrite Ez. }
  destruct (to_usize d) as [k|] eqn:Ek; simpl in Hn; [|done]. apply to_usize_Some in Ek as [-> _]. simplify_eq.
  apply nonzero_pos in Ez as Hpos. pose proof (Z.div_pos x (uval d)).
  assert (x / uval d <= x) by (apply Z.div_le_upper_bound; nia). split; [lia|].
  intros a c Hc Ha. rewrite (as_const_den _ _ _ _ Ed Hc). cbn [binop_eval]. rewrite Ez. unfold u_div.
  pose proof (uval_range a). pose proof (Z.div_pos (uval a) (uval d)).
  assert (uval a / uval d <= uval a) by (apply Z.div_le_upper_bound; nia).
  rewrite uval_U_small by lia. apply Z.div_le_mono; lia.
Qed.

Lemma upper_urem : case_sound URem.
Proof.
  cbn [upper_binop]. destruct (as_const r) as [d|] eqn:Ed.
  - apply bsound_ret. destruct (is_zero d) eqn:Ez; intros n Hn.
    { simplify_eq. split; [done|]. intros v (a & b & Ha & Hb & ->)%den_binop_inv. rewrite (as_const_den _ _ _ _ Ed Hb).
      cbn [binop_eval]. by rewrite Ez. }
    apply usize_pred_bound in Hn as [-> Hu]; [|done]. split; [done|]. intros v (a & b & Ha & Hb & ->)%den_binop_inv.
    rewrite (as_const_den _ _ _ _ Ed Hb). cbn [binop_eval]. rewrite Ez. unfold u_rem. apply nonzero_pos in Ez.
    pose proof (uval_range d). pose proof (Z.mod_pos_bound (uval a) (uval d)). rewrite uval_U_small by lia. lia.
  - eapply bsound_impl; [exact Hl|]. intros x Hx n Hn. destruct (Hx n Hn) as [Hu Hv]. split; [done|].
    intros v (a & b & Ha & Hb & ->)%den_binop_inv. specialize (Hv a Ha).
    pose proof (uval_range a). pose proof (uval_range b). cbn [binop_eval].
    destruct (is_zero b) eqn:Ez; [rewrite uval_ZERO; lia|]. unfold u_rem. apply nonzero_pos in Ez.
    pose proof (Z.mod_pos_bound (uval a) (uval b)). pose proof (Z.mod_le (uval a) (uval b)). rewrite uval_U_small by lia. lia.
Qed.

(** A conjunction is bounded by both operands. *)
Lemma and_bounded e x : e = l \/ e = r -> upper_ok e x -> upper_ok (EBinOp And l r) x.
Proof.
  intros He Hx n Hn. destruct (Hx n Hn) as [Hu Hv]. split; [done|].
  intros v (a & b & Ha & Hb & ->)%den_binop_inv. cbn [binop_eval]. rewrite uval_u_and.
  pose proof (uval_range a). pose proof (uval_range b). destruct (land_le (uval a) (uval b)); [lia..|].
  destruct He as [-> | ->]; [specialize (Hv a Ha)|specialize (Hv b Hb)]; lia.
Qed.

Lemma const_upper e k : const_usize_of e = Some k -> upper_ok e (Some k).
Proof.
  intros Hk n Hn. simplify_eq. split; [|intros v Hv; by rewrite (const_usize_den _ _ _ Hk Hv)].
  unfold const_usize_of in Hk. destruct (as_const e); simpl in Hk; [|done]. by apply to_usize_Some in Hk as [_ ?].
Qed.

Lemma upper_and : case_sound And.
Proof.
  cbn [upper_binop]. set (mask := match const_usize_of r with Some m => Some m | None => const_usize_of l end).
  assert (Hmask : upper_ok (EBinOp And l r) mask).
  { unfold mask. destruct (const_usize_of r) as [k|] eqn:Er; [apply (and_bounded r); [by right|by apply const_upper]|].
    destruct (const_usize_of l) as [k|] eqn:El; [|apply upper_ok_None]. apply (and_bounded l); [by left|by apply const_upper]. }
  destruct mask as [k|]; [|apply bsound_ret, upper_ok_None].
  eapply bsound_bind; [exact Hl|]. intros x Hx. apply (bsound_bind _ _ (upper_ok (EBinOp And l r))).
  { destruct x as [x|]; [apply bsound_ret, (and_bounded l); [by left|done]|].
    eapply bsound_impl; [exact Hr|]. intros y Hy. apply (and_bounded r); [by right|done]. }
  intros y Hy. apply bsound_ret. intros n Hn. destruct (Hmask k eq_refl) as [Hku Hkv]. unfold usize_ok in *.
  destruct y as [y|]; simplify_eq; [|done]. destruct (Hy y eq_refl) as [Hyu Hyv]. unfold usize_ok in *. split; [lia|].
  intros v Hv. specialize (Hkv v Hv). specialize (Hyv v Hv). lia.
Qed.

Lemma upper_shl : case_sound Shl.
Proof.
  cbn [upper_binop]. destruct (as_const r) as [s|] eqn:Es; [|apply bsound_ret, upper_ok_None].
  destruct (u_leb (U 256) s) eqn:E256.
  { apply bsound_ret. intros n Hn. simplify_eq. split; [done|]. intros v (a & b & Ha & Hb & ->)%den_binop_inv.
    rewrite (as_const_den _ _ _ _ Es Hb). cbn [binop_eval]. by rewrite E256. }
  destruct (to_usize s) as [k|] eqn:Ek; [|apply bsound_ret, upper_ok_None]. apply to_usize_Some in Ek as [-> _].
  apply upper_from_left. intros x Hx. eapply upper_left_value; [exact Hx|]. intros n Hn Hu. unfold usize_ok in *.
  pose proof (uval_range s). assert (Hp : 0 < 2 ^ uval s) by (apply Z.pow_pos_nonneg; lia).
  assert (Hxn : usize_ok n /\ x * 2 ^ uval s <= n).
  { unfold usize_ok. destruct (Z.eqb_spec x 0) as [->|]; [by simplify_eq|]. unfold shl_factor in Hn.
    destruct (64 <=? uval s); simpl in Hn; [done|]. unfold checked_mul in Hn. rewrite Z.shiftl_1_l in Hn. case_match; simplify_eq. nia. }
  destruct Hxn as [Hnu Hxn]. split; [done|]. intros a c Hc Ha. rewrite (as_const_den _ _ _ _ Es Hc). cbn [binop_eval].
  rewrite E256. unfold u_shl. rewrite uval_U, Z.shiftl_mul_pow2 by lia.
  pose proof (Z.mod_le (uval a * 2 ^ uval s) word_modulus ltac:(nia) eq_refl). nia.
Qed.

Lemma upper_shr : case_sound Shr.
Proof.
  apply upper_from_left. intros x Hx. eapply upper_left_value; [exact Hx|]. intros n Hn Hu. unfold usize_ok in *.
  destruct (const_usize_of r) as [s|] eqn:Es; simpl in Hn; [|done]. simplify_eq.
  assert (Hs0 : forall c, den r = Some c -> uval c = s) by (intros c; by apply const_usize_den).
  assert (Hs : 0 <= s) by (destruct (const_upper r s Es s eq_refl); unfold usize_ok in *; lia).
  assert (Hp : 0 < 2 ^ s) by (apply Z.pow_pos_nonneg; lia).
  assert (Hsh : shr_usize x s = x / 2 ^ s).
  { unfold shr_usize. destruct (Z.leb_spec 64 s); [|by rewrite Z.shiftr_div_pow2].
    symmetry. apply Z.div_small. split; [lia|]. unfold usize_max in Hu.
    apply Z.lt_le_trans with (2 ^ 64); [lia|]. apply Z.pow_le_mono_r; lia. }
  rewrite Hsh. pose proof (Z.div_pos x (2 ^ s)). assert (x / 2 ^ s <= x) by (apply Z.div_le_upper_bound; nia).
  split; [lia|]. intros a c Hc Ha. cbn [binop_eval]. unfold u_leb. change (uval (U 256)) with 256. rewrite (Hs0 c Hc).
  destruct (Z.leb_spec 256 s); [rewrite uval_ZERO; lia|]. unfold u_shr. rewrite Z.shiftr_div_pow2 by lia. pose proof (uval_range a).
  pose proof (Z.div_pos (uval a) (2 ^ s)). assert (uval a / 2 ^ s <= uval a) by (apply Z.div_le_upper_bound; nia).
  rewrite uval_U_small by lia. apply Z.div_le_mono; lia.
Qed.

Lemma upper_binop_sound op : case_sound op.
Proof.
  destruct op; [apply upper_add|apply upper_sub|apply upper_mul|apply upper_udiv|apply upper_urem|..];
    try (apply bsound_ret, upper_ok_None); [apply upper_and|apply upper_shl|apply upper_shr].
Qed.
End UpperBinop.

Lemma insert_upper_sound e b : upper_ok e b -> bsound (insert_upper e b) (upper_ok e).
Proof.
  intros Hb st (H1 & H2 & H3). split; [done|]. split_and!; [|done..].
  intros e' b' [Heq|Hin]%elem_of_cons; [by simplify_eq|by eapply H1].
Qed.

Lemma insert_lower_sound e n : lower_ok e n -> bsound (insert_lower e n) (lower_ok e).
Proof.
  intros Hn st (H1 & H2 & H3). split; [done|]. split_and!; [done| |done].
  intros e' n' [Heq|Hin]%elem_of_cons; [by simplify_eq|by eapply H2].
Qed.

Lemma merge_bounds_sound e s : upper_ok e s -> upper_ok e (merge_bounds (constraint_upper_bound_usize constraints e) s).
Proof.
  intros Hs n Hn. pose proof (constraint_bound_fits e) as Hf. pose proof (constraint_bound_sound e) as Hc.
  destruct (constraint_upper_bound_usize constraints e) as [c|], s as [x|]; simpl in Hn; simplify_eq.
  - specialize (Hf c eq_refl). destruct (Hs x eq_refl) as [Hx Hv]. unfold usize_ok in *. split; [lia|].
    intros v Hev. specialize (Hv v Hev). specialize (Hc c v eq_refl Hev). lia.
  - split; [by apply Hf|]. intros v. by apply Hc.
  - by apply Hs.
Qed.

Lemma upper_ternop op l r m ub :
  bsound (ub m) (upper_ok m) ->
  bsound (match as_const m with
          | Some k => bret (if is_zero k then Some 0 else usize_pred k)
          | None => bopt (ub m) (fun b => bret (checked_sub b 1))
          end) (upper_ok (ETernOp op l r m)).
Proof.
  intros Hm.
  assert (Hval : forall v k, den (ETernOp op l r m) = Some v -> den m = Some k -> uval v = 0 \/ uval v < uval k).
  { intros v k Hv Hk. simpl in Hv. rewrite Hk in Hv. destruct (den l) as [a|]; [|done]. destruct (den r) as [b|]; [|done].
    simplify_eq. unfold ternop_eval. destruct (is_zero k) eqn:Ez; [by left|right]. apply nonzero_pos in Ez. pose proof (uval_range k).
    destruct op; [unfold add_mod; pose proof (Z.mod_pos_bound (uval a + uval b) (uval k))
      |unfold mul_mod; pose proof (Z.mod_pos_bound (uval a * uval b) (uval k))]; rewrite uval_U_small by lia; lia. }
  assert (Hdef : forall v, den (ETernOp op l r m) = Some v -> exists k, den m = Some k).
  { intros v Hv. simpl in Hv. destruct (den l), (den r), (den m) as [k|]; try done. by exists k. }
  destruct (as_const m) as [k|] eqn:Ek.
  - apply bsound_ret. intros n Hn. assert (Hk : den m = Some k) by (by apply as_const_den').
    destruct (is_zero k) eqn:Ez.
    + simplify_eq. split; [done|]. intros v Hv. apply is_zero_true in Ez as ->. destruct (Hval v ZERO Hv Hk); [lia|].
      rewrite uval_ZERO in *. pose proof (uval_range v). lia.
    + apply usize_pred_bound in Hn as [-> Hu]; [|done]. split; [done|]. intros v Hv. apply nonzero_pos in Ez.
      destruct (Hval v k Hv Hk); lia.
  - eapply bsound_opt; [exact Hm|apply upper_ok_None|]. intros x Hx. apply bsound_ret. intros n Hn.
    unfold checked_sub in Hn. destruct (Z.leb_spec 1 x); simplify_eq. destruct (Hx x eq_refl) as [Hu Hb]. unfold usize_ok in *.
    split; [lia|]. intros v Hv. destruct (Hdef v Hv) as [k Hk]. specialize (Hb k Hk). destruct (Hval v k Hv Hk); lia.
Qed.

Lemma upper_ite c l r ub :
  defined model l -> defined model r -> bsound (ub l) (upper_ok l) -> bsound (ub r) (upper_ok r) ->
  bsound (let^ x := ub l in let^ y := ub r in
          match x, y with
          | Some x, Some y => bret (Some (Z.max x y))
          | None, Some y => let^ b := implies_ule c true l r in bret (if b then Some y else None)
          | Some x, None => let^ b := implies_ule c false r l in bret (if b then Some x else None)
          | None, None => bret None
          end) (upper_ok (EIte c l r)).
Proof.
  intros [lv Hlv] [rv Hrv] Hl Hr. eapply bsound_bind; [exact Hl|]. intros x Hx. eapply bsound_bind; [exact Hr|]. intros y Hy.
  destruct x as [x|], y as [y|]; [| | |apply bsound_ret, upper_ok_None].
  - apply bsound_ret. intros n Hn. simplify_eq. destruct (Hx x eq_refl) as [Hxu Hxv], (Hy y eq_refl) as [Hyu Hyv].
    unfold usize_ok in *. split; [lia|]. intros v ([] & Hc & Hv)%den_ite_inv; [specialize (Hxv v Hv)|specialize (Hyv v Hv)]; lia.
  - eapply bsound_bind; [apply implies_ule_any|]. intros [] Hb; [|apply bsound_ret, upper_ok_None]. apply bsound_ret.
    intros n Hn. simplify_eq. destruct (Hx n eq_refl) as [Hxu Hxv]. split; [done|].
    intros v ([] & Hc & Hv)%den_ite_inv; [auto|]. specialize (Hb v lv eq_refl Hc Hv Hlv). specialize (Hxv lv Hlv). lia.
  - eapply bsound_bind; [apply implies_ule_any|]. intros [] Hb; [|apply bsound_ret, upper_ok_None]. apply bsound_ret.
    intros n Hn. simplify_eq. destruct (Hy n eq_refl) as [Hyu Hyv]. split; [done|].
    intros v ([] & Hc & Hv)%den_ite_inv; [|auto]. specialize (Hb v rv eq_refl Hc Hv Hrv). specialize (Hyv rv Hrv). lia.
Qed.

(** The upper bound holds under every model of the path condition, whatever is
    already in the tables and however much of the budget is left. *)
Lemma upper_bound_cached_sound e : analysable e -> bsound (expr_upper_bound_usize_cached constraints e) (upper_ok e).
Proof.
  induction e as [e IH] using (induction_ltof1 _ esize). unfold ltof in IH. intros Ha st Hst.
  assert (Hstruct : bsound (structural_upper (expr_upper_bound_usize_cached constraints) e) (upper_ok e)).
  { destruct e as [v| | | | |e|op l r|op l r m|c l r]; simpl in Ha; try (apply bsound_ret, upper_ok_None).
    - apply bsound_ret. intros n [-> Hn]%to_usize_Some. split; [done|]. intros w Hw. simpl in Hw. by simplify_eq.
    - destruct Ha. apply upper_binop_sound; apply IH; simpl; done || lia.
    - apply upper_ternop, IH; simpl; done || lia.
    - destruct Ha as (? & ? & ? & ?). apply upper_ite; try done; apply IH; simpl; done || lia. }
  assert (Hdef : expr_upper_bound_usize_cached constraints e st =
    match assoc expr_eqb e (upper_bounds st) with
    | Some b => (b, st)
    | None => match as_const e with
              | Some v => (to_usize v, st)
              | None => (let^ s := spend None (structural_upper (expr_upper_bound_usize_cached constraints) e) in
                         insert_upper e (merge_bounds (constraint_upper_bound_usize constraints e) s)) st
              end
    end) by (by destruct e).
  rewrite Hdef. destruct (assoc expr_eqb e (upper_bounds st)) as [b|] eqn:Ea.
  { split; [|done]. apply assoc_Some_in in Ea; [by apply Hst, list_elem_of_In|]. intros a b'. apply expr_eqb_eq. }
  destruct (as_const e) as [v|] eqn:Ev.
  2:{ revert st Hst Hdef Ea. intros st Hst _ _. revert st Hst. eapply bsound_bind; [|intros s Hs; by apply insert_upper_sound, merge_bounds_sound].
      by apply bsound_spend; [apply upper_ok_None|]. }
  split; [|done]. intros n [-> Hn]%to_usize_Some. split; [done|]. intros v' Hv'. by rewrite (as_const_den _ _ _ _ Ev Hv').
Qed.

(** *** Lower bounds *)
Lemma lower_ok_zero e : lower_ok e 0.
Proof. intros v _. apply uval_range. Qed.

Lemma lor_ge a b : 0 <= a -> 0 <= b -> a <= Z.lor a b /\ b <= Z.lor a b.
Proof.
  intros Ha Hb.
  assert (H : forall x y, 0 <= x -> 0 <= y -> x <= Z.lor x y).
  { intros x y Hx Hy. pose proof (Z.sub_nocarry_ldiff (Z.lor x y) x) as Hs.
    assert (Hl : Z.ldiff x (Z.lor x y) = 0).
    { apply Z.bits_inj'. intros i Hi. rewrite Z.ldiff_spec, Z.lor_spec, Z.bits_0. by destruct (Z.testbit x i), (Z.testbit y i). }
    specialize (Hs Hl). assert (0 <= Z.lor x y) by (apply Z.lor_nonneg; lia).
    assert (0 <= Z.ldiff (Z.lor x y) x) by (apply Z.ldiff_nonneg; lia). lia. }
  split; [|rewrite Z.lor_comm]; by apply H.
Qed.

Lemma uval_u_or a b : uval (u_or a b) = Z.lor (uval a) (uval b).
Proof.
  unfold u_or. rewrite uval_U. apply Z.bits_inj'. intros i Hi. change word_modulus with (2 ^ 256).
  destruct (Z.ltb_spec i 256); [by rewrite Z.mod_pow2_bits_low|].
  rewrite Z.mod_pow2_bits_high, Z.lor_spec by lia. by rewrite !testbit_high by lia.
Qed.

Lemma lower_add l r x y n :
  usize_ok n -> (forall v w, den l = Some v -> den r = Some w -> uval v + uval w <= n) ->
  lower_ok l x -> lower_ok r y -> lower_ok (EBinOp Add l r) (default 0 (checked_add x y)).
Proof.
  intros Hn Hno Hx Hy v Hv. pose proof (uval_range v).
  unfold checked_add. destruct (Z.leb_spec (x + y) usize_max); simpl; [|lia].
  apply den_binop_inv in Hv as (a & b & Ha & Hb & ->). specialize (Hno a b Ha Hb). specialize (Hx a Ha). specialize (Hy b Hb).
  cbn [binop_eval]. unfold wrapping_add. pose proof (uval_range a). pose proof (uval_range b).
  rewrite uval_U_small; [lia|]. change word_modulus with (2 ^ 256). unfold usize_ok, usize_max in *. lia.
Qed.

Lemma sum_bound_sound l r :
  analysable l -> analysable r ->
  bsound (sum_bound constraints l r) (fun o => forall n, o = Some n -> usize_ok n /\
    forall v w, den l = Some v -> den r = Some w -> uval v + uval w <= n).
Proof.
  intros Hl Hr. eapply bsound_opt; [by apply upper_bound_cached_sound|done|]. intros x Hx.
  eapply bsound_opt; [by apply upper_bound_cached_sound|done|]. intros y Hy. apply bsound_ret. intros n Hn.
  destruct (Hx x eq_refl) as [Hxu Hxv], (Hy y eq_refl) as [Hyu Hyv]. unfold checked_add, usize_ok in *. case_match; simplify_eq.
  split; [lia|]. intros v w Hv Hw. specialize (Hxv v Hv). specialize (Hyv w Hw). lia.
Qed.

(** The structural cases, given the analysis of the operands. *)
Lemma structural_lower_sound lb e :
  analysable e -> (forall e', (esize e' < esize e)%nat -> analysable e' -> bsound (lb e') (lower_ok e')) ->
  bsound (structural_lower constraints lb e) (lower_ok e).
Proof.
  intros Ha IH. assert (Hzero : bsound (bret 0) (lower_ok e)) by (apply bsound_ret, lower_ok_zero).
  destruct e as [v| | | | | |op l r|op l r m|c l r]; try exact Hzero; cbn [structural_lower].
  - apply bsound_ret. destruct (to_usize v) as [n|] eqn:En; [|apply lower_ok_zero].
    apply to_usize_Some in En as [-> _]. intros w Hw. simpl in *. by simplify_eq.
  - destruct Ha as [Hal Har]. pose proof (IH l ltac:(simpl; lia) Hal) as Hl. pose proof (IH r ltac:(simpl; lia) Har) as Hr.
    destruct op; try exact Hzero.
    + eapply bsound_bind; [by apply sum_bound_sound|]. intros [n|] Hn; [|exact Hzero]. destruct (Hn n eq_refl) as [Hnu Hnv].
      eapply bsound_bind; [exact Hl|]. intros x Hx. eapply bsound_bind; [exact Hr|]. intros y Hy.
      by apply bsound_ret, (lower_add l r x y n).
    + apply bsound_ret. destruct (constant_difference l r) as [d|] eqn:Ed; simpl; [|apply lower_ok_zero].
      destruct (to_usize d) as [n|] eqn:En; simpl; [|apply lower_ok_zero]. apply to_usize_Some in En as [-> _].
      intros v (a & b & Hav & Hbv & ->)%den_binop_inv. by rewrite <- (difference_sound model _ _ _ Ed _ _ Hav Hbv).
    + eapply bsound_bind; [exact Hl|]. intros x Hx. eapply bsound_bind; [exact Hr|]. intros y Hy. apply bsound_ret.
      intros v (a & b & Hav & Hbv & ->)%den_binop_inv. specialize (Hx a Hav). specialize (Hy b Hbv). cbn [binop_eval].
      rewrite uval_u_or. pose proof (uval_range a). pose proof (uval_range b). destruct (lor_ge (uval a) (uval b)); lia.
  - destruct Ha as (_ & _ & Hal & Har). pose proof (IH l ltac:(simpl; lia) Hal) as Hl. pose proof (IH r ltac:(simpl; lia) Har) as Hr.
    eapply bsound_bind; [exact Hl|]. intros x Hx. eapply bsound_bind; [exact Hr|]. intros y Hy. apply bsound_ret.
    intros v ([] & Hc & Hv)%den_ite_inv; [specialize (Hx v Hv)|specialize (Hy v Hv)]; lia.
Qed.

Lemma lower_bound_cached_sound e : analysable e -> bsound (expr_lower_bound_usize constraints e) (lower_ok e).
Proof.
  induction e as [e IH] using (induction_ltof1 _ esize). unfold ltof in IH. intros Ha st Hst.
  assert (Hdef : expr_lower_bound_usize constraints e st =
    match assoc expr_eqb e (lower_bounds st) with
    | Some b => (b, st)
    | None => match const_usize_of e with
              | Some v => (v, st)
              | None => spend 0 (let^ b := structural_lower constraints (expr_lower_bound_usize constraints) e in insert_lower e b) st
              end
    end) by (by destruct e).
  rewrite Hdef. destruct (assoc expr_eqb e (lower_bounds st)) as [b|] eqn:Ea.
  { split; [|done]. apply assoc_Some_in in Ea; [by apply Hst, list_elem_of_In|]. intros a b'. apply expr_eqb_eq. }
  destruct (const_usize_of e) as [n|] eqn:En.
  { split; [|done]. intros v Hv. by rewrite (const_usize_den _ _ _ En Hv). }
  clear Hdef Ea. revert st Hst. apply bsound_spend; [apply lower_ok_zero|].
  eapply bsound_bind; [by apply structural_lower_sound|]. intros b. apply insert_lower_sound.
Qed.

Lemma new_bounds_ok : tables_ok new_bounds.
Proof. unfold tables_ok. simpl. split_and!; intros *; by intros ?%not_elem_of_nil. Qed.

Lemma upper_bound_usize_sound e n v :
  upper_bound_usize constraints e = Some n -> analysable e -> den e = Some v -> uval v <= n.
Proof.
  intros Hn Ha Hv. destruct (upper_bound_cached_sound e Ha new_bounds new_bounds_ok) as [Hb _]. by apply (Hb n).
Qed.

Lemma lower_bound_usize_sound e v : analysable e -> den e = Some v -> lower_bound_usize constraints e <= uval v.
Proof.
  intros Ha Hv. destruct (lower_bound_cached_sound e Ha new_bounds new_bounds_ok) as [Hb _]. by apply Hb.
Qed.

(** *** EXP *)
Lemma exp_result_sound base exponent b k e :
  den base = Some b -> den exponent = Some k -> analysable exponent ->
  exp_result constraints base exponent = inl e -> den e = Some (wrapping_pow b k).
Proof.
  intros Hb Hk Ha. unfold exp_result. destruct (constrained_word constraints exponent) as [c|] eqn:Ec.
  - rewrite (constrained_word_sound _ _ _ Ec Hk). pose proof (uval_range c). destruct (as_const base) as [bv|] eqn:Eb.
    + intros. simplify_eq. rewrite (as_const_den _ _ _ _ Eb Hb). apply (den_constant model).
    + case_match; [|done]. intros. simplify_eq. rewrite (exp_sound model base b (uval c)) by done. by rewrite U_uval.
  - destruct (upper_bound_usize constraints exponent) as [mx|] eqn:Em; [|done].
    pose proof (upper_bound_usize_sound _ _ _ Em Ha Hk) as Hle. set (limit := match as_const base with Some _ => _ | None => _ end).
    assert (Hlim : limit <= 256) by (unfold limit; case_match; done).
    destruct (Z.leb_spec mx limit); [|done]. intros [= <-]. pose proof (uval_range k).
    rewrite (select_index_sound model exponent k (mx + 1) _ _ (fun i => wrapping_pow b (U i)) ZERO).
    + destruct (Z.ltb_spec (uval k) (mx + 1)); [by rewrite U_uval|lia].
    + done.
    + unfold usize_max. lia.
    + apply (den_zero model).
    + intros i Hi. apply exp_sound; [done|]. change word_modulus with (2 ^ 256). lia.
Qed.
End PathSound.
