(* ===== verification/SymWorld.v ===== *)
(** * SymWorld: the accounts that a path sees

    Models runtime/address.rs (symbolic addresses), [StorageWrite],
    [SymbolicWorldState], [SymbolicWorld] and the block hashes of
    [SymbolicBlock] in runtime/state.rs: storage and transient storage as lists
    of writes over the concrete backend, balances, nonces, code, the accounts
    that were created or destroyed, snapshots, and the record of the storage
    symbols that a replay has to set.

    An address is its number, below 2^160.  [HashMap]s with address or symbol
    keys are [gmap]s; the order in which one is iterated is a parameter.  The
    aliases of symbolic addresses, whose keys are expressions, are a list of
    pairs in insertion order.  A copy-on-write state is its value.  The concrete
    executor's database is the class [ChainBackend]; [None] is its error. *)

From Stdlib Require Import ZArith Lia Bool.
From stdpp Require Import base list option gmap sets strings sorting.
From S2P Require Import Prelude SymWord SymExpr SymSimpl SymSound SymCmp SymBytes SymSeq SymStorage SymMem SymPath.
Local Open Scope Z_scope.
Local Open Scope outcome_scope.

Definition Address := Z.

(** What names a symbolic address: the address of a constant, or the
    expressions whose digest is taken. *)
Inductive AddressKey :=
  | ConcreteKey (address : Address)
  | SymbolicKey (terms : list SymExpr).

(** What only cheatcodes keep in a path; revm's jump tables and stack limit; the
    symbols and addresses that are named by digests; the order of hash maps. *)
Class Parts := {
  Rest : Type;
  JumpTable : Type;
  is_valid : JumpTable -> Z -> bool;
  default_jump_table : JumpTable;
  legacy_jump_table : list Z -> JumpTable;
  STACK_LIMIT : Z;
  stable_symbol : list SymExpr -> Symbol;
  gas_symbol : Z -> Symbol;
  storage_symbol : Address -> SymExpr -> Symbol;
  address_digest : AddressKey -> Z;
  iter_map : forall A, gmap Z A -> list (Z * A);
  iter_symbols : forall A, gmap Symbol A -> list (Symbol * A);
  is_assertion_revert : list Z -> bool
}.

(** The concrete database below a run; revm's bytecode has a jump table when it
    is legacy code. *)
Record Bytecode `{Parts} := mkBytecode { original_bytes : list Z; bytecode_jump_table : option JumpTable }.
Record Account `{Parts} := mkAccount { acc_balance : U256; acc_nonce : Z; acc_code : option Bytecode }.

Class ChainBackend `{Parts} := {
  storage_ref : Address -> U256 -> option U256;
  basic_ref : Address -> option (option Account);
  block_hash_ref : Z -> option U256;
  cached_accounts : list Address
}.

(** ** Addresses (address.rs) *)
Definition address_word (a : Address) : U256 := U a.
Definition word_to_address (v : U256) : Address := uval v mod 2 ^ 160.

Definition CHEATCODE_ADDRESS : Address := 0x7109709ECfa91a80626fF3989D68f67F5b1DD12D.
Definition SYMBOLIC_VM_COMPAT_ADDRESS : Address := 0xF3993A62377BCd56AE39D773740A5390411E8BC9.

(** The number of a precompile: 19 zero bytes and one of 1 to 10. *)
Definition precompile_number (a : Address) : option Z :=
  if (1 <=? a) && (a <=? 10) then Some a else None.

(** The hard forks in revm's order, as far as the executor asks for them. *)
Definition FRONTIER : Z := 0.
Definition HOMESTEAD : Z := 2.
Definition BYZANTIUM : Z := 6.
Definition PETERSBURG : Z := 8.
Definition ISTANBUL : Z := 9.
Definition LONDON : Z := 12.
Definition SHANGHAI : Z := 16.
Definition CANCUN : Z := 17.

Definition precompile_number_for_spec (a : Address) (spec_id : Z) : option Z :=
  match precompile_number a with
  | None => None
  | Some n =>
      if (5 <=? n) && (n <=? 8) && (spec_id <? BYZANTIUM) then None
      else if (n =? 9) && (spec_id <? ISTANBUL) then None
      else if (n =? 10) && (spec_id <? CANCUN) then None
      else Some n
  end.

Definition is_address_mask (e : SymExpr) : bool :=
  match as_const e with Some v => u_eqb v (U (2 ^ 160 - 1)) | None => false end.
Definition is_shift_96 (e : SymExpr) : bool :=
  match as_const e with Some v => u_eqb v (U 96) | None => false end.

Fixpoint symbolic_address_canonical (e : SymExpr) : SymExpr :=
  match e with
  | EBinOp And l r => if is_address_mask r then symbolic_address_canonical l else e
  | EBinOp Shr value shift =>
      if is_shift_96 shift then
        match value with
        | EBinOp Shl inner inner_shift =>
            if is_shift_96 inner_shift then symbolic_address_canonical inner else e
        | _ => e
        end
      else e
  | _ => e
  end.

Fixpoint collect_sources (e : SymExpr) (indices : list Z) : option (list SymExpr) :=
  match indices with
  | [] => Some []
  | i :: rest => s ← extracted_byte_source e i; ss ← collect_sources e rest; Some (s :: ss)
  end.

Definition address_byte_terms_for_equivalence (e : SymExpr) : option (list SymExpr) :=
  collect_sources e address_indices.

(** The recursion is on the canonical form of the first operand, which is no
    larger; the fuel is its size. *)
Fixpoint equivalent_fuel (fuel : nat) (e alias : SymExpr) : bool :=
  match fuel with
  | O => false
  | S fuel =>
      let this := symbolic_address_canonical e in
      let alias := symbolic_address_canonical alias in
      if expr_eqb this alias then true
      else
        match address_byte_terms_for_equivalence this, address_byte_terms_for_equivalence alias with
        | Some candidate, Some alias => bool_decide (candidate = alias)
        | _, _ =>
            match this with
            | EBinOp And l r => if is_address_mask r then equivalent_fuel fuel l alias else false
            | EBinOp Shr value shift =>
                if is_shift_96 shift then
                  match value with
                  | EBinOp Shl inner inner_shift =>
                      if is_shift_96 inner_shift then equivalent_fuel fuel inner alias else false
                  | _ => false
                  end
                else false
            | _ => false
            end
        end
  end.

Definition address_expr_equivalent (e alias : SymExpr) : bool := equivalent_fuel (esize e) e alias.

Definition symbolic_address_equivalent (e alias : SymExpr) : bool :=
  match as_const e, as_const alias with
  | Some l, Some r => word_to_address l =? word_to_address r
  | None, None => address_expr_equivalent e alias
  | _, _ => false
  end.

Definition symbolic_address_key (e : SymExpr) : AddressKey :=
  match as_const e with
  | Some v => ConcreteKey (word_to_address v)
  | None =>
      let e := symbolic_address_canonical e in
      SymbolicKey (default [e] (address_byte_terms_for_equivalence e))
  end.

(** The byte 0xfe and 19 bytes of the digest. *)
Definition representative_symbolic_address `{Parts} (e : SymExpr) : Address :=
  0xfe * 2 ^ 152 + address_digest (symbolic_address_key e) mod 2 ^ 152.

(** ** Data *)
Record StorageWrite := mkStorageWrite { sw_address : Address; sw_key : SymExpr; sw_value : SymExpr }.

Record SymbolicReplayStorageSlot := mkReplaySlot { rs_address : Address; rs_slot : U256 }.

Inductive SymbolicStorageLayout := LayoutSolidity | LayoutGeneric | LayoutZeroInit.

Record SymbolicWorldState `{Parts} := mkWorldState {
  storage : list StorageWrite;
  transient_storage : list StorageWrite;
  created_accounts : gset Address;
  current_transaction_created_accounts : gset Address;
  balances : gmap Address SymExpr;
  code_cache : gmap Address (@SymCode JumpTable);
  nonces : gmap Address Z;
  existing_accounts : gset Address;
  destroyed_accounts : gset Address;
  arbitrary_storage_accounts : gmap Address bool;
  arbitrary_storage_copies : gmap Address Address;
  arbitrary_storage_all : bool;
  zero_init_symbolic_storage : bool;
  symbolic_address_aliases : list (SymExpr * Address);
  replay_storage_slots : gmap Symbol (list SymbolicReplayStorageSlot);
  replay_symbolic_storage_keys : gmap Symbol (list (Address * SymExpr))
}.

Record SymbolicWorld `{Parts} := mkWorld {
  state : SymbolicWorldState;
  snapshots : gmap Z SymbolicWorldState;
  next_snapshot_id : Z
}.

Module SWorld.
Section Ops.
Context `{SA : SignedArith, HF : HashFns, P : Parts}.

(** *** The default world, and one setter per field *)
Definition default_state : SymbolicWorldState :=
  mkWorldState _ [] [] ∅ ∅ ∅ ∅ ∅ ∅ ∅ ∅ ∅ false false [] ∅ ∅.
Definition default_world : SymbolicWorld := mkWorld _ default_state ∅ 0.

Definition with_state (f : SymbolicWorldState -> SymbolicWorldState) (w : SymbolicWorld) : SymbolicWorld :=
  mkWorld _ (f (state w)) (snapshots w) (next_snapshot_id w).

Definition set_storage (x : list StorageWrite) (s : SymbolicWorldState) : SymbolicWorldState :=
  mkWorldState _ x (transient_storage s) (created_accounts s) (current_transaction_created_accounts s) (balances s)
    (code_cache s) (nonces s) (existing_accounts s) (destroyed_accounts s) (arbitrary_storage_accounts s)
    (arbitrary_storage_copies s) (arbitrary_storage_all s) (zero_init_symbolic_storage s) (symbolic_address_aliases s)
    (replay_storage_slots s) (replay_symbolic_storage_keys s).
Definition set_transient (x : list StorageWrite) (s : SymbolicWorldState) : SymbolicWorldState :=
  mkWorldState _ (storage s) x (created_accounts s) (current_transaction_created_accounts s) (balances s)
    (code_cache s) (nonces s) (existing_accounts s) (destroyed_accounts s) (arbitrary_storage_accounts s)
    (arbitrary_storage_copies s) (arbitrary_storage_all s) (zero_init_symbolic_storage s) (symbolic_address_aliases s)
    (replay_storage_slots s) (replay_symbolic_storage_keys s).
Definition set_created (x y : gset Address) (s : SymbolicWorldState) : SymbolicWorldState :=
  mkWorldState _ (storage s) (transient_storage s) x y (balances s)
    (code_cache s) (nonces s) (existing_accounts s) (destroyed_accounts s) (arbitrary_storage_accounts s)
    (arbitrary_storage_copies s) (arbitrary_storage_all s) (zero_init_symbolic_storage s) (symbolic_address_aliases s)
    (replay_storage_slots s) (replay_symbolic_storage_keys s).
Definition set_balances (x : gmap Address SymExpr) (s : SymbolicWorldState) : SymbolicWorldState :=
  mkWorldState _ (storage s) (transient_storage s) (created_accounts s) (current_transaction_created_accounts s) x
    (code_cache s) (nonces s) (existing_accounts s) (destroyed_accounts s) (arbitrary_storage_accounts s)
    (arbitrary_storage_copies s) (arbitrary_storage_all s) (zero_init_symbolic_storage s) (symbolic_address_aliases s)
    (replay_storage_slots s) (replay_symbolic_storage_keys s).
Definition set_code_cache (x : gmap Address (@SymCode JumpTable)) (s : SymbolicWorldState) : SymbolicWorldState :=
  mkWorldState _ (storage s) (transient_storage s) (created_accounts s) (current_transaction_created_accounts s) (balances s)
    x (nonces s) (existing_accounts s) (destroyed_accounts s) (arbitrary_storage_accounts s)
    (arbitrary_storage_copies s) (arbitrary_storage_all s) (zero_init_symbolic_storage s) (symbolic_address_aliases s)
    (replay_storage_slots s) (replay_symbolic_storage_keys s).
Definition set_nonces (x : gmap Address Z) (s : SymbolicWorldState) : SymbolicWorldState :=
  mkWorldState _ (storage s) (transient_storage s) (created_accounts s) (current_transaction_created_accounts s) (balances s)
    (code_cache s) x (existing_accounts s) (destroyed_accounts s) (arbitrary_storage_accounts s)
    (arbitrary_storage_copies s) (arbitrary_storage_all s) (zero_init_symbolic_storage s) (symbolic_address_aliases s)
    (replay_storage_slots s) (replay_symbolic_storage_keys s).
Definition set_existing (x y : gset Address) (s : SymbolicWorldState) : SymbolicWorldState :=
  mkWorldState _ (storage s) (transient_storage s) (created_accounts s) (current_transaction_created_accounts s) (balances s)
    (code_cache s) (nonces s) x y (arbitrary_storage_accounts s)
    (arbitrary_storage_copies s) (arbitrary_storage_all s) (zero_init_symbolic_storage s) (symbolic_address_aliases s)
    (replay_storage_slots s) (replay_symbolic_storage_keys s).
Definition set_arbitrary (x : gmap Address bool) (all zero_init : bool) (s : SymbolicWorldState) : SymbolicWorldState :=
  mkWorldState _ (storage s) (transient_storage s) (created_accounts s) (current_transaction_created_accounts s) (balances s)
    (code_cache s) (nonces s) (existing_accounts s) (destroyed_accounts s) x
    (arbitrary_storage_copies s) all zero_init (symbolic_address_aliases s)
    (replay_storage_slots s) (replay_symbolic_storage_keys s).
Definition set_aliases (x : list (SymExpr * Address)) (s : SymbolicWorldState) : SymbolicWorldState :=
  mkWorldState _ (storage s) (transient_storage s) (created_accounts s) (current_transaction_created_accounts s) (balances s)
    (code_cache s) (nonces s) (existing_accounts s) (destroyed_accounts s) (arbitrary_storage_accounts s)
    (arbitrary_storage_copies s) (arbitrary_storage_all s) (zero_init_symbolic_storage s) x
    (replay_storage_slots s) (replay_symbolic_storage_keys s).
Definition set_replay (x : gmap Symbol (list SymbolicReplayStorageSlot)) (y : gmap Symbol (list (Address * SymExpr)))
    (s : SymbolicWorldState) : SymbolicWorldState :=
  mkWorldState _ (storage s) (transient_storage s) (created_accounts s) (current_transaction_created_accounts s) (balances s)
    (code_cache s) (nonces s) (existing_accounts s) (destroyed_accounts s) (arbitrary_storage_accounts s)
    (arbitrary_storage_copies s) (arbitrary_storage_all s) (zero_init_symbolic_storage s) (symbolic_address_aliases s) x y.

(** *** Storage *)
Definition is_destroyed (w : SymbolicWorld) (a : Address) : bool := bool_decide (a ∈ destroyed_accounts (state w)).

Definition set_storage_layout (layout : SymbolicStorageLayout) : SymbolicWorld -> SymbolicWorld := with_state (fun s =>
  set_arbitrary (arbitrary_storage_accounts s)
    (match layout with LayoutGeneric => true | _ => false end) (match layout with LayoutZeroInit => true | _ => false end) s).

(** [StorageWrite::select_from]. *)
Fixpoint select_from (pre : Preimages) (writes : list StorageWrite) (a : Address) (key value : SymExpr) : Outcome SymExpr :=
  match writes with
  | [] => Ret value
  | w :: rest =>
      if sw_address w =? a then
        let* value := SStorage.select_storage_write pre key (sw_key w) (sw_value w) value in select_from pre rest a key value
      else select_from pre rest a key value
  end.

Definition sstore (a : Address) (key value : SymExpr) : SymbolicWorld -> SymbolicWorld := with_state (fun s =>
  set_storage (storage s ++ [mkStorageWrite a key value]) s).

Definition tload (pre : Preimages) (w : SymbolicWorld) (a : Address) (key : SymExpr) : Outcome SymExpr :=
  select_from pre (transient_storage (state w)) a key zero.

Definition tstore (a : Address) (key value : SymExpr) : SymbolicWorld -> SymbolicWorld := with_state (fun s =>
  set_transient (transient_storage s ++ [mkStorageWrite a key value]) s).

Definition clear_transaction_scoped_state : SymbolicWorld -> SymbolicWorld := with_state (fun s =>
  set_created (created_accounts s) ∅ (set_transient [] s)).

Definition mark_current_transaction_created (a : Address) : SymbolicWorld -> SymbolicWorld := with_state (fun s =>
  set_created ({[a]} ∪ created_accounts s) ({[a]} ∪ current_transaction_created_accounts s) s).

Definition was_created_in_current_transaction (w : SymbolicWorld) (a : Address) : bool :=
  bool_decide (a ∈ current_transaction_created_accounts (state w)).

Definition enable_arbitrary_storage (a : Address) (overwrite : bool) : SymbolicWorld -> SymbolicWorld := with_state (fun s =>
  set_arbitrary (<[a := overwrite]> (arbitrary_storage_accounts s)) (arbitrary_storage_all s) (zero_init_symbolic_storage s) s).

(** *** Replay metadata *)
Definition replay_storage_symbols (w : SymbolicWorld) : list Symbol :=
  map fst (iter_symbols _ (replay_storage_slots (state w))) ++ map fst (iter_symbols _ (replay_symbolic_storage_keys (state w))).

Definition record_replay_storage_slot (symbol : Symbol) (a : Address) (slot : U256) (w : SymbolicWorld) : SymbolicWorld :=
  let slots := default [] (replay_storage_slots (state w) !! symbol) in
  if existsb (fun r => (rs_address r =? a) && u_eqb (rs_slot r) slot) slots then w
  else with_state (fun s => set_replay (<[symbol := slots ++ [mkReplaySlot a slot]]> (replay_storage_slots s))
                              (replay_symbolic_storage_keys s) s) w.

Definition record_replay_symbolic_storage_key (symbol : Symbol) (a : Address) (key : SymExpr) (w : SymbolicWorld)
    : SymbolicWorld :=
  let reads := default [] (replay_symbolic_storage_keys (state w) !! symbol) in
  if existsb (fun r => (fst r =? a) && expr_eqb (snd r) key) reads then w
  else with_state (fun s => set_replay (replay_storage_slots s)
                              (<[symbol := reads ++ [(a, key)]]> (replay_symbolic_storage_keys s)) s) w.

Definition add_alias (aliases : list (SymExpr * Address)) (entry : SymExpr * Address) : list (SymExpr * Address) :=
  if existsb (fun e => expr_eqb (fst e) (fst entry)) aliases then aliases else aliases ++ [entry].

Definition merge_replay_metadata_from (other w : SymbolicWorld) : SymbolicWorld :=
  let w := foldl (fun w '(symbol, slots) =>
             foldl (fun w slot => record_replay_storage_slot symbol (rs_address slot) (rs_slot slot) w) w slots)
           w (iter_symbols _ (replay_storage_slots (state other))) in
  let w := foldl (fun w '(symbol, reads) =>
             foldl (fun w '(a, key) => record_replay_symbolic_storage_key symbol a key w) w reads)
           w (iter_symbols _ (replay_symbolic_storage_keys (state other))) in
  with_state (fun s => set_aliases (foldl add_alias (symbolic_address_aliases s) (symbolic_address_aliases (state other))) s) w.

(** *** Symbolic addresses *)
Definition find_alias (p : SymExpr -> bool) (aliases : list (SymExpr * Address)) : option Address :=
  snd <$> (snd <$> list_find (fun e => p (fst e) = true) aliases).

Definition resolve_address (w : SymbolicWorld) (e : SymExpr) : option Address :=
  match as_const e with
  | Some v => Some (word_to_address v)
  | None =>
      match find_alias (expr_eqb e) (symbolic_address_aliases (state w)) with
      | Some a => Some a
      | None => find_alias (symbolic_address_equivalent e) (symbolic_address_aliases (state w))
      end
  end.

Definition symbolic_address_slot (e : SymExpr) (w : SymbolicWorld) : Address * SymbolicWorld :=
  match resolve_address w e with
  | Some a => (a, w)
  | None =>
      let a := representative_symbolic_address e in
      (a, with_state (fun s => set_aliases (symbolic_address_aliases s ++ [(e, a)]) s) w)
  end.

Definition symbolic_word_for_address (w : SymbolicWorld) (a : Address) : option SymExpr :=
  fst <$> (snd <$> list_find (fun e => snd e = a) (symbolic_address_aliases (state w))).

(** *** Snapshots *)
Definition snapshot_state (w : SymbolicWorld) : Z * SymbolicWorld :=
  let id := next_snapshot_id w in
  (id, mkWorld _ (state w) (<[id := state w]> (snapshots w)) (Z.min (2 ^ 64 - 1) (id + 1))).

Definition restore_snapshot (id : Z) (w : SymbolicWorld) : bool * SymbolicWorld :=
  match snapshots w !! id with
  | None => (false, w)
  | Some s => (true, mkWorld _ s (snapshots w) (next_snapshot_id w))
  end.

Definition delete_snapshot (id : Z) (w : SymbolicWorld) : bool * SymbolicWorld :=
  (bool_decide (is_Some (snapshots w !! id)), mkWorld _ (state w) (delete id (snapshots w)) (next_snapshot_id w)).

Definition delete_snapshots (w : SymbolicWorld) : SymbolicWorld := mkWorld _ (state w) ∅ (next_snapshot_id w).

(** *** The backend *)
Context {BE : ChainBackend}.
Import SBytes.

(** A failure of the backend is an error. *)
Definition WResult (A : Type) := (A + SymbolicError)%type.
Definition backend {A B} (o : option A) (k : A -> WResult B) : WResult B :=
  match o with Some a => k a | None => inr Backend end.

Definition code_from_bytecode (b : Bytecode) : @SymCode JumpTable :=
  mkCode (concrete (original_bytes b)) (default default_jump_table (bytecode_jump_table b)).

(** *** Storage reads *)
Definition slot_of_key (key : SymExpr) (concrete_key : option U256) : option U256 :=
  match concrete_key with Some k => Some k | None => as_const key end.

Definition unchecked_arbitrary_storage_base (a : Address) (key : SymExpr) (concrete_key : option U256) (w : SymbolicWorld)
    : option SymExpr * SymbolicWorld :=
  let has_arbitrary := bool_decide (is_Some (arbitrary_storage_accounts (state w) !! a)) in
  let all := arbitrary_storage_all (state w) in
  let copied_source := if has_arbitrary then None else arbitrary_storage_copies (state w) !! a in
  match (if all || has_arbitrary then Some a else copied_source) with
  | None => (None, w)
  | Some symbol_address =>
      let symbol := storage_symbol symbol_address key in
      let w :=
        match slot_of_key key concrete_key, copied_source with
        | Some slot, _ =>
            let w := if all || has_arbitrary then record_replay_storage_slot symbol a slot w else w in
            match copied_source with
            | Some source => record_replay_storage_slot symbol a slot (record_replay_storage_slot symbol source slot w)
            | None => w
            end
        | None, None => if all then record_replay_symbolic_storage_key symbol a key w else w
        | None, Some _ => w
        end in
      let value := EVar symbol in
      (Some value, match copied_source with Some source => sstore source key value w | None => w end)
  end.

Definition arbitrary_storage_base (a : Address) (key : SymExpr) (concrete_key : option U256) (w : SymbolicWorld)
    : WResult (option SymExpr * SymbolicWorld) :=
  let unchecked := inl (unchecked_arbitrary_storage_base a key concrete_key w) in
  match slot_of_key key concrete_key with
  | Some slot =>
      if arbitrary_storage_all (state w) then unchecked
      else
        let overwrite := arbitrary_storage_accounts (state w) !! a in
        let is_copied := bool_decide (overwrite = None) && bool_decide (is_Some (arbitrary_storage_copies (state w) !! a)) in
        if bool_decide (overwrite = Some false) || is_copied then
          backend (storage_ref a slot) (fun concrete =>
            if negb (is_zero concrete) then inl (Some (constant concrete), w) else unchecked)
        else unchecked
  | None => unchecked
  end.

Definition storage_base (a : Address) (key : SymExpr) (concrete_key : option U256) (w : SymbolicWorld)
    : WResult (SymExpr * SymbolicWorld) :=
  match arbitrary_storage_base a key concrete_key w with
  | inr e => inr e
  | inl (Some base, w) => inl (base, w)
  | inl (None, w) =>
      if bool_decide (a ∈ created_accounts (state w)) then inl (zero, w)
      else
        match slot_of_key key concrete_key with
        | Some k => backend (storage_ref a k) (fun v => inl (constant v, w))
        | None => if zero_init_symbolic_storage (state w) then inl (zero, w) else inl (EVar (storage_symbol a key), w)
        end
  end.

Definition sload (pre : Preimages) (a : Address) (key : SymExpr) (concrete_key : option U256) (w : SymbolicWorld)
    : Outcome (WResult (SymExpr * SymbolicWorld)) :=
  match storage_base a key concrete_key w with
  | inr e => Ret (inr e)
  | inl (base, w) =>
      let read_key := match concrete_key with Some k => constant k | None => key end in
      let* value := select_from pre (storage (state w)) a read_key base in
      Ret (inl (value, w))
  end.

(** *** Replayed storage *)
Record SymbolicStorageAssignment := mkAssignment { as_address : Address; as_slot : U256; as_value : U256 }.

Definition word_eval_if_complete (e : SymExpr) (model : SymbolicModel) : option U256 + SymbolicError :=
  if forallb (fun s => match model s with Some _ => true | None => false end) (eval_vars e)
  then match eval_model_word model e with inl v => inl (Some v) | inr e => inr e end
  else inl None.

(** The assignments so far, in the order of their keys when they are listed. *)
Definition Assignments := gmap (Z * Z) U256.

Fixpoint assign_slots (value : U256) (slots : list SymbolicReplayStorageSlot) (m : Assignments) : WResult Assignments :=
  match slots with
  | [] => inl m
  | slot :: rest =>
      let key := (rs_address slot, uval (rs_slot slot)) in
      match m !! key with
      | None => assign_slots value rest (<[key := value]> m)
      | Some v => if u_eqb v value then assign_slots value rest m else inr Solver
      end
  end.

Fixpoint assign_symbols (model : SymbolicModel) (entries : list (Symbol * list SymbolicReplayStorageSlot)) (m : Assignments)
    : WResult Assignments :=
  match entries with
  | [] => inl m
  | (symbol, slots) :: rest =>
      match model symbol with
      | None => assign_symbols model rest m
      | Some value =>
          match assign_slots value slots m with inr e => inr e | inl m => assign_symbols model rest m end
      end
  end.

Fixpoint assign_reads (model : SymbolicModel) (value : U256) (reads : list (Address * SymExpr)) (m : Assignments)
    : WResult Assignments :=
  match reads with
  | [] => inl m
  | (a, key) :: rest =>
      match word_eval_if_complete key model with
      | inr e => inr e
      | inl None => assign_reads model value rest m
      | inl (Some slot) =>
          assign_reads model value rest
            (match m !! (a, uval slot) with Some _ => m | None => <[(a, uval slot) := value]> m end)
      end
  end.

Fixpoint assign_symbolic (model : SymbolicModel) (entries : list (Symbol * list (Address * SymExpr))) (m : Assignments)
    : WResult Assignments :=
  match entries with
  | [] => inl m
  | (symbol, reads) :: rest =>
      match model symbol with
      | None => assign_symbolic model rest m
      | Some value =>
          match assign_reads model value reads m with inr e => inr e | inl m => assign_symbolic model rest m end
      end
  end.

Definition key_le (x y : (Z * Z) * U256) : Prop :=
  fst (fst x) < fst (fst y) \/ (fst (fst x) = fst (fst y) /\ snd (fst x) <= snd (fst y)).
#[local] Instance key_le_dec x y : Decision (key_le x y).
Proof. unfold key_le. apply _. Defined.

Definition replay_storage_assignments (w : SymbolicWorld) (model : SymbolicModel) : WResult (list SymbolicStorageAssignment) :=
  match assign_symbols model (iter_symbols _ (replay_storage_slots (state w))) ∅ with
  | inr e => inr e
  | inl m =>
      match assign_symbolic model (iter_symbols _ (replay_symbolic_storage_keys (state w))) m with
      | inr e => inr e
      | inl m => inl (map (fun '((a, slot), v) => mkAssignment a (U slot) v) (merge_sort key_le (map_to_list m)))
      end
  end.

(** *** Balances and nonces *)
Definition backend_balance (a : Address) : U256 :=
  match basic_ref a with Some (Some account) => acc_balance account | _ => ZERO end.

Definition balance_word_for_address (w : SymbolicWorld) (a : Address) : SymExpr :=
  if is_destroyed w a then zero
  else match balances (state w) !! a with Some e => e | None => constant (backend_balance a) end.

(** One more case of a chain of conditionals over known addresses. *)
Definition address_case (e : SymExpr) (a : Address) (value result : SymExpr) : SymExpr :=
  ite (eq_exprs e (constant (address_word a))) value result.

Definition balance_word (w : SymbolicWorld) (e : SymExpr) : SymExpr :=
  match resolve_address w e with
  | Some a => balance_word_for_address w a
  | None =>
      foldl (fun result '(a, balance) => if is_destroyed w a then result else address_case e a balance result)
        (balance_word_for_address w (representative_symbolic_address e)) (iter_map _ (balances (state w)))
  end.

Definition is_const_zero (e : SymExpr) : bool :=
  match as_const e with Some v => is_zero v | None => false end.

(** Marks an account as existing. *)
Definition revive (a : Address) (s : SymbolicWorldState) : SymbolicWorldState :=
  set_existing ({[a]} ∪ existing_accounts s) (destroyed_accounts s ∖ {[a]}) s.

Definition set_balance_word (a : Address) (value : SymExpr) : SymbolicWorld -> SymbolicWorld := with_state (fun s =>
  let s := set_balances (<[a := value]> (balances s)) s in
  if negb (is_const_zero value) then revive a s else s).

Definition transfer (from to : Address) (value : SymExpr) (w : SymbolicWorld) : SymbolicWorld :=
  if (from =? to) || is_const_zero value then w
  else
    let from_balance := binop Sub (balance_word_for_address w from) value in
    let to_balance := binop Add (balance_word_for_address w to) value in
    set_balance_word to to_balance (set_balance_word from from_balance w).

Definition nonce (w : SymbolicWorld) (a : Address) : WResult Z :=
  if is_destroyed w a then inl (default 0 (nonces (state w) !! a))
  else
    match nonces (state w) !! a with
    | Some n => inl n
    | None => backend (basic_ref a) (fun account => inl (match account with Some account => acc_nonce account | None => 0 end))
    end.

Definition set_nonce (a : Address) (n : Z) : SymbolicWorld -> SymbolicWorld := with_state (fun s =>
  let s := set_nonces (<[a := n]> (nonces s)) s in if n =? 0 then s else revive a s).

Definition increment_nonce (a : Address) (w : SymbolicWorld) : WResult SymbolicWorld :=
  match nonce w a with inr e => inr e | inl n => inl (set_nonce a (Z.min (2 ^ 64 - 1) (n + 1)) w) end.

(** *** Code *)
Definition install_code (a : Address) (code : @SymCode JumpTable) : SymbolicWorld -> SymbolicWorld := with_state (fun s =>
  revive a (set_code_cache (<[a := code]> (code_cache s)) s)).

Definition mark_existing (a : Address) : SymbolicWorld -> SymbolicWorld := with_state (fun s =>
  set_existing ({[a]} ∪ existing_accounts s) (destroyed_accounts s) s).
Definition cache_code (a : Address) (code : @SymCode JumpTable) : SymbolicWorld -> SymbolicWorld := with_state (fun s =>
  set_code_cache (<[a := code]> (code_cache s)) s).

Definition no_code : @SymCode JumpTable := code_empty default_jump_table.
Definition is_vm_address (a : Address) : bool := (a =? CHEATCODE_ADDRESS) || (a =? SYMBOLIC_VM_COMPAT_ADDRESS).
Definition has_code (account : Account) : bool :=
  match acc_code account with Some code => negb (zlen (original_bytes code) =? 0) | None => false end.

Definition extcode (spec_id : Z) (a : Address) (w : SymbolicWorld) : WResult (@SymCode JumpTable * SymbolicWorld) :=
  if is_vm_address a then inl (code_concrete legacy_jump_table [0], w)
  else if bool_decide (is_Some (precompile_number_for_spec a spec_id)) then inl (no_code, w)
  else if is_destroyed w a then inl (no_code, w)
  else
    match code_cache (state w) !! a with
    | Some code => inl (code, w)
    | None =>
        backend (basic_ref a) (fun account =>
          let w := match account with
                   | Some acc => if negb (acc_nonce acc =? 0) || negb (is_zero (acc_balance acc)) || has_code acc
                                 then mark_existing a w else w
                   | None => w
                   end in
          let code := match (acc ← account; acc_code acc) with
                      | Some bytecode => code_from_bytecode bytecode
                      | None => no_code
                      end in
          inl (code, cache_code a code w))
    end.

Definition has_code_or_nonce (spec_id : Z) (a : Address) (w : SymbolicWorld) : WResult (bool * SymbolicWorld) :=
  if is_destroyed w a then inl (false, w)
  else
    match extcode spec_id a w with
    | inr e => inr e
    | inl (code, w) =>
        if negb (code_is_empty code) then inl (true, w)
        else match nonce w a with inr e => inr e | inl n => inl (negb (n =? 0), w) end
    end.

Definition account_exists (a : Address) (w : SymbolicWorld) : WResult (bool * SymbolicWorld) :=
  if is_vm_address a then inl (true, w)
  else if is_destroyed w a then inl (false, w)
  else if bool_decide (a ∈ existing_accounts (state w)) then inl (true, w)
  else if match balances (state w) !! a with Some b => negb (is_const_zero b) | None => false end
       || match nonces (state w) !! a with Some n => negb (n =? 0) | None => false end
       || match code_cache (state w) !! a with Some c => negb (code_is_empty c) | None => false end
  then inl (true, mark_existing a w)
  else
    backend (basic_ref a) (fun account =>
      match account with
      | None => inl (false, w)
      | Some account =>
          if negb (acc_nonce account =? 0) || negb (is_zero (acc_balance account)) then inl (true, mark_existing a w)
          else
            match acc_code account with
            | Some code => if negb (zlen (original_bytes code) =? 0)
                           then inl (true, mark_existing a (cache_code a (code_from_bytecode code) w))
                           else inl (false, w)
            | None => inl (false, w)
            end
      end).

(** *** Code of other accounts *)
(** [keccak_word_with_len] records 64-byte inputs that are constant. *)
Definition record_concrete_preimage (hash : U256) (bytes : list SymExpr) (pre : Preimages) : Preimages :=
  match pre !! uval hash with Some _ => pre | None => <[uval hash := bytes]> pre end.

Definition keccak_word_with_len (pre : Preimages) (bytes : list SymExpr) (len : SymExpr) : Outcome (SymExpr * Preimages) :=
  let hashed := EKeccak (stable_symbol (len :: bytes)) len bytes in
  match (v ← as_const len; to_usize v) with
  | Some n =>
      if n <=? zlen bytes then
        let bytes := take (Z.to_nat n) bytes in
        let* c := concrete_expr_bytes bytes in
        match c with
        | Some concrete =>
            let hash := keccak256 concrete in
            Ret (constant hash, if n =? 64 then record_concrete_preimage hash bytes pre else pre)
        | None => Ret (hashed, pre)
        end
      else Ret (hashed, pre)
  | None => Ret (hashed, pre)
  end.

Definition keccak_word (pre : Preimages) (bytes : list SymExpr) : Outcome (SymExpr * Preimages) :=
  keccak_word_with_len pre bytes (constant (U (zlen bytes))).

Definition code_hash (pre : Preimages) (code : @SymCode JumpTable) : Outcome (SymExpr * Preimages) :=
  let* bytes := code_read_byte_exprs code 0 (code_len code) in keccak_word pre bytes.

Definition extcode_hash_for_address (spec_id : Z) (pre : Preimages) (a : Address) (w : SymbolicWorld)
    : Outcome (WResult (SymExpr * SymbolicWorld * Preimages)) :=
  match account_exists a w with
  | inr e => Ret (inr e)
  | inl (false, w) => Ret (inl (zero, w, pre))
  | inl (true, w) =>
      match extcode spec_id a w with
      | inr e => Ret (inr e)
      | inl (code, w) => let* (hash, pre) := code_hash pre code in Ret (inl (hash, w, pre))
      end
  end.

Definition extcode_size_word (spec_id : Z) (e : SymExpr) (w : SymbolicWorld) : WResult (SymExpr * SymbolicWorld) :=
  match resolve_address w e with
  | Some a => match extcode spec_id a w with inr e => inr e | inl (code, w) => inl (constant (U (code_len code)), w) end
  | None =>
      match extcode spec_id (representative_symbolic_address e) w with
      | inr e => inr e
      | inl (code, w) =>
          inl (foldl (fun result '(a, code) =>
                        if is_destroyed w a then result else address_case e a (constant (U (code_len code))) result)
                 (constant (U (code_len code))) (iter_map _ (code_cache (state w))), w)
      end
  end.

Fixpoint hash_cases (w : SymbolicWorld) (e : SymExpr) (codes : list (Address * @SymCode JumpTable)) (result : SymExpr)
    (pre : Preimages) : Outcome (SymExpr * Preimages) :=
  match codes with
  | [] => Ret (result, pre)
  | (a, code) :: rest =>
      let* (hash, pre) := (if is_destroyed w a then Ret (zero, pre) else code_hash pre code) in
      hash_cases w e rest (address_case e a hash result) pre
  end.

Definition extcode_hash_word (spec_id : Z) (pre : Preimages) (e : SymExpr) (w : SymbolicWorld)
    : Outcome (WResult (SymExpr * SymbolicWorld * Preimages)) :=
  match resolve_address w e with
  | Some a => extcode_hash_for_address spec_id pre a w
  | None =>
      let* r := extcode_hash_for_address spec_id pre (representative_symbolic_address e) w in
      match r with
      | inr e => Ret (inr e)
      | inl (result, w, pre) =>
          let* (result, pre) := hash_cases w e (rev (iter_map _ (code_cache (state w)))) result pre in
          Ret (inl (result, w, pre))
      end
  end.

Fixpoint byte_cases (w : SymbolicWorld) (e offset : SymExpr) (size : Z) (codes : list (Address * @SymCode JumpTable))
    (result : list SymExpr) : Outcome (list SymExpr) :=
  match codes with
  | [] => Ret result
  | (a, code) :: rest =>
      let* bytes := (if is_destroyed w a then Ret (repeat zero (Z.to_nat size))
                     else code_read_byte_exprs_offset code offset size) in
      byte_cases w e offset size rest (zip_with (fun byte old => address_case e a byte old) bytes result)
  end.

Definition extcode_bytes_word (spec_id : Z) (e offset : SymExpr) (size : Z) (w : SymbolicWorld)
    : Outcome (WResult (SymBytes * SymbolicWorld)) :=
  match resolve_address w e with
  | Some a =>
      match extcode spec_id a w with
      | inr e => Ret (inr e)
      | inl (code, w) => let* bytes := code_read_bytes_offset code offset size in Ret (inl (bytes, w))
      end
  | None =>
      match extcode spec_id (representative_symbolic_address e) w with
      | inr e => Ret (inr e)
      | inl (code, w) =>
          let* result := code_read_byte_exprs_offset code offset size in
          let* result := byte_cases w e offset size (rev (iter_map _ (code_cache (state w)))) result in
          let* bytes := exprs result in
          Ret (inl (bytes, w))
      end
  end.

(** *** Self-destruction *)
(** Whether there is something to pay, and the payment. *)
Definition pays (a beneficiary : Address) (w : SymbolicWorld) : bool :=
  negb (beneficiary =? a) && negb (is_const_zero (balance_word_for_address w a)).
Definition pay_beneficiary (a beneficiary : Address) (w : SymbolicWorld) : SymbolicWorld :=
  set_balance_word beneficiary (binop Add (balance_word_for_address w beneficiary) (balance_word_for_address w a)) w.

(** Empties an account and marks it as destroyed. *)
Definition destroy (a : Address) (kept_nonce : option Z) : SymbolicWorld -> SymbolicWorld := with_state (fun s =>
  let s := set_balances (<[a := zero]> (balances s)) s in
  let s := set_code_cache (<[a := no_code]> (code_cache s)) s in
  let s := match kept_nonce with Some n => set_nonces (<[a := n]> (nonces s)) s | None => s end in
  let s := set_storage (filter (fun x => sw_address x <> a) (storage s)) s in
  let s := set_transient (filter (fun x => sw_address x <> a) (transient_storage s)) s in
  let s := set_created (created_accounts s ∖ {[a]}) (current_transaction_created_accounts s ∖ {[a]}) s in
  set_existing (existing_accounts s ∖ {[a]}) ({[a]} ∪ destroyed_accounts s) s).

Definition selfdestruct_legacy (a beneficiary : Address) (w : SymbolicWorld) : WResult SymbolicWorld :=
  let w := if pays a beneficiary w then pay_beneficiary a beneficiary w else w in
  match nonces (state w) !! a with
  | Some _ => inl (destroy a None w)
  | None => match nonce w a with inr e => inr e | inl n => inl (destroy a (Some n) w) end
  end.

Definition selfdestruct_cancun_existing (a beneficiary : Address) (w : SymbolicWorld) : SymbolicWorld :=
  if pays a beneficiary w
  then with_state (fun s => set_balances (<[a := zero]> (balances s)) s) (pay_beneficiary a beneficiary w)
  else w.

(** *** Call targets *)
Fixpoint code_targets (spec_id : Z) (addresses : list Address) (w : SymbolicWorld) : WResult (list Address * SymbolicWorld) :=
  match addresses with
  | [] => inl ([], w)
  | a :: rest =>
      if is_vm_address a || bool_decide (is_Some (precompile_number_for_spec a spec_id)) then code_targets spec_id rest w
      else
        match extcode spec_id a w with
        | inr e => inr e
        | inl (code, w) =>
            match code_targets spec_id rest w with
            | inr e => inr e
            | inl (targets, w) => inl (if code_is_empty code then (targets, w) else (a :: targets, w))
            end
        end
  end.

Definition symbolic_call_targets (spec_id : Z) (w : SymbolicWorld) : WResult (list Address * SymbolicWorld) :=
  let addresses := dom (code_cache (state w)) ∪ existing_accounts (state w) ∪ list_to_set cached_accounts : gset Address in
  code_targets spec_id (merge_sort Z.le (elements addresses)) w.
End Ops.
End SWorld.

(** ** Blocks *)
Record SymbolicBlock := mkBlock {
  chain_id : SymExpr;
  coinbase : Address;
  timestamp : SymExpr;
  number : SymExpr;
  difficulty : SymExpr;
  gaslimit : SymExpr;
  basefee : SymExpr;
  blob_basefee : SymExpr;
  block_hashes : gmap Z SymExpr;
  blob_hashes : list U256
}.

Module SBlock.
Section Ops.
Context `{SA : SignedArith, HF : HashFns, P : Parts} {BE : ChainBackend}.
Import SWorld.

Definition new_block : SymbolicBlock := mkBlock one 0 zero zero zero zero zero zero ∅ [].

Definition current_number (b : SymbolicBlock) (reason : String.string) : WResult U256 :=
  match as_const (number b) with Some n => inl n | None => inr (Unsupported reason) end.

Definition set_block_hash (block_number : U256) (hash : SymExpr) (b : SymbolicBlock) : WResult SymbolicBlock :=
  match current_number b "symbolic vm.setBlockhash current number" with
  | inr e => inr e
  | inl current =>
      inl (if (uval block_number <? uval current) && (uval current - uval block_number <=? 256)
           then mkBlock (chain_id b) (coinbase b) (timestamp b) (number b) (difficulty b) (gaslimit b) (basefee b)
                  (blob_basefee b) (<[uval block_number := hash]> (block_hashes b)) (blob_hashes b)
           else b)
  end.

Definition block_hash (b : SymbolicBlock) (block_number : U256) : WResult SymExpr :=
  match current_number b "symbolic BLOCKHASH current number" with
  | inr e => inr e
  | inl current =>
      if (uval current <=? uval block_number) || (256 <? uval current - uval block_number) then inl zero
      else
        match block_hashes b !! uval block_number with
        | Some hash => inl hash
        | None =>
            if 2 ^ 64 <=? uval block_number then inl zero
            else backend (block_hash_ref (uval block_number)) (fun hash => inl (constant hash))
        end
  end.

(** The loop over the distances from [max_distance] down to 1. *)
Fixpoint hash_loop (b : SymbolicBlock) (current : U256) (e : SymExpr) (distance : nat) (result : SymExpr) : WResult SymExpr :=
  match distance with
  | O => inl result
  | S rest =>
      let candidate := U (uval current - Z.of_nat distance) in
      match block_hash b candidate with
      | inr err => inr err
      | inl hash =>
          hash_loop b current e rest
            (if is_const_zero hash then result else ite (eq_exprs e (constant candidate)) hash result)
      end
  end.

Definition block_hash_word (b : SymbolicBlock) (e : SymExpr) : WResult SymExpr :=
  match as_const e with
  | Some n => block_hash b n
  | None =>
      match current_number b "symbolic BLOCKHASH current number" with
      | inr err => inr err
      | inl current => if is_zero current then inl zero
                       else hash_loop b current e (Z.to_nat (Z.min (uval current) 256)) zero
      end
  end.
End Ops.
End SBlock.
