(* ===== verification/SymWorldSpec.v ===== *)
(** * SymWorldSpec: what the world's operations mean

    The table of hash inputs stays truthful; reads of storage return the last
    write to an equal key, or the initial value; transfers and
    self-destruction move balances; symbolic addresses that are identified have
    the same value. *)

From Stdlib Require Import ZArith Lia Bool.
From stdpp Require Import base list option gmap sets strings.
From S2P Require Import Prelude SymWord SymExpr SymSimpl SymSound SymCmp SymBytes SymSeq SymStorage SymMem SymPath SymWorld.
Local Open Scope Z_scope.
Local Open Scope outcome_scope.

(** ** The table of hash inputs *)
Section Table.
Context `{SA : SignedArith, HF : HashFns, P : Parts}.
Import SWorld.

Lemma concrete_expr_bytes_const bytes ns :
  concrete_expr_bytes bytes = Ret (Some ns) -> bytes = map (fun n => EConst (U n)) ns /\ Forall (fun n => 0 <= n < 256) ns.
Proof.
  revert ns. induction bytes as [|b bytes IH]; intros ns H; simpl in H; [by simplify_eq|].
  destruct (as_const b) as [v|] eqn:Ev; [|done]. apply obind_Ret in H as (n & Hn & H). apply obind_Ret in H as (o & Ho & H).
  destruct o as [ns'|]; [|done]. simpl in H. simplify_eq. destruct (IH _ Ho) as [-> Hns].
  apply as_const_shape in Ev as ->. apply to_u8_Ret in Hn as [<- Hn].
  pose proof (uval_range v). split; [simpl; by rewrite U_uval|]. constructor; [lia|done].
Qed.

Lemma empty_table_ok : table_ok ∅.
Proof. intros h bytes H. by rewrite lookup_empty in H. Qed.

Lemma record_table_ok pre p :
  table_ok pre -> length p = 64%nat -> Forall (fun n => 0 <= n < 256) p ->
  table_ok (record_concrete_preimage (keccak256 p) (map (fun n => EConst (U n)) p) pre).
Proof.
  intros Ht Hl Hp h bytes. unfold record_concrete_preimage. destruct (pre !! uval (keccak256 p)) eqn:E; [apply Ht|].
  destruct (decide (uval (keccak256 p) = uval h)) as [Eh|]; [|rewrite lookup_insert_ne by done; apply Ht].
  rewrite Eh, lookup_insert_eq. intros [= <-]. apply uval_inj in Eh. eauto 6.
Qed.

Lemma keccak_keeps_table pre bytes len e pre' :
  keccak_word_with_len pre bytes len = Ret (e, pre') -> table_ok pre -> table_ok pre'.
Proof.
  intros H Ht. unfold keccak_word_with_len in H. destruct (as_const len ≫= to_usize) as [n|]; [|by simplify_eq].
  destruct (Z.leb_spec n (zlen bytes)); [|by simplify_eq]. apply obind_Ret in H as (c & Hc & H). destruct c as [p|]; [|by simplify_eq].
  destruct (Z.eqb_spec n 64) as [->|]; simplify_eq; [|done]. apply concrete_expr_bytes_const in Hc as [E Hp]. rewrite E.
  apply record_table_ok; [done| |done]. apply (f_equal length) in E. rewrite length_take, length_map in E. unfold zlen in *. lia.
Qed.
Lemma keccak_word_table pre bytes e pre' : keccak_word pre bytes = Ret (e, pre') -> table_ok pre -> table_ok pre'.
Proof. apply keccak_keeps_table. Qed.

Context {BE : ChainBackend}.

Lemma code_hash_table pre code e pre' : code_hash pre code = Ret (e, pre') -> table_ok pre -> table_ok pre'.
Proof. intros H. apply obind_Ret in H as (bytes & _ & H). by eapply keccak_word_table. Qed.

Lemma extcode_hash_address_table spec pre a w h w' pre' :
  extcode_hash_for_address spec pre a w = Ret (inl (h, w', pre')) -> table_ok pre -> table_ok pre'.
Proof.
  unfold extcode_hash_for_address. intros H Ht. destruct (account_exists a w) as [[[] w1]|]; [|by simplify_eq|done].
  destruct (extcode spec a w1) as [[code w2]|]; [|done]. apply obind_Ret in H as ([h1 pre1] & Hc & H). simplify_eq.
  by eapply code_hash_table.
Qed.

Lemma hash_cases_table w e codes result pre h pre' :
  hash_cases w e codes result pre = Ret (h, pre') -> table_ok pre -> table_ok pre'.
Proof.
  revert result pre. induction codes as [|[a code] codes IH]; intros result pre H Ht; cbn [hash_cases] in H; [by simplify_eq|].
  apply obind_Ret in H as ([h1 pre1] & Hc & H). eapply IH; [exact H|]. destruct (is_destroyed w a); [by simplify_eq|by eapply code_hash_table].
Qed.

Lemma extcode_hash_table spec pre e w h w' pre' :
  extcode_hash_word spec pre e w = Ret (inl (h, w', pre')) -> table_ok pre -> table_ok pre'.
Proof.
  unfold extcode_hash_word. intros H Ht. destruct (resolve_address w e); [by eapply extcode_hash_address_table|].
  apply obind_Ret in H as (r & Hr & H). destruct r as [[[r w1] pre1]|]; [|done]. apply obind_Ret in H as ([h1 pre2] & Hc & H).
  simplify_eq. eapply hash_cases_table; [exact Hc|]. by eapply extcode_hash_address_table.
Qed.
End Table.

(** ** Storage as a map

    What the storage of all accounts holds: a map from addresses and slots to
    words. *)
Definition Storage := Address -> U256 -> U256.
Definition store (s : Storage) (a : Address) (k v : U256) : Storage := fun b j =>
  if (a =? b) && u_eqb j k then v else s b j.
Definition no_storage : Storage := fun _ _ => ZERO.

Section StorageSpec.
Context `{SA : SignedArith, HF : HashFns, P : Parts} {SL : SignedArithLaws}.
Variable model : SymbolicModel.
Variable lm : Landmarks.
Hypothesis spread : well_spread lm.
Abbreviation den := (denote_word model).
Abbreviation key_ok := (key_ok model lm).
Import SWorld.

(** The writes turn one storage into another. *)
Inductive writes_rep (pre : Preimages) : list StorageWrite -> Storage -> Storage -> Prop :=
  | writes_nil s : writes_rep pre [] s s
  | writes_cons a key value ws s s' k v :
      key_ok pre key k -> den value = Some v -> writes_rep pre ws (store s a k v) s' ->
      writes_rep pre (mkStorageWrite a key value :: ws) s s'.

Lemma writes_app pre ws ws' s s' s'' :
  writes_rep pre ws s s' -> writes_rep pre ws' s' s'' -> writes_rep pre (ws ++ ws') s s''.
Proof. induction 1; intros H'; [done|]. simpl. econstructor; eauto. Qed.

Lemma writes_snoc pre ws s s' a key value k v :
  writes_rep pre ws s s' -> key_ok pre key k -> den value = Some v ->
  writes_rep pre (ws ++ [mkStorageWrite a key value]) s (store s' a k v).
Proof. intros H Hk Hv. eapply writes_app; [exact H|]. econstructor; [exact Hk|exact Hv|constructor]. Qed.

(** A read sees the last write to an equal key. *)
Lemma select_from_sound pre ws s s' a key base k :
  writes_rep pre ws s s' -> key_ok pre key k -> den base = Some (s a k) ->
  exists e, select_from pre ws a key base = Ret e /\ den e = Some (s' a k).
Proof.
  intros H. revert base. induction H as [s|b wkey value ws s s' wk v Hwk Hv _ IH]; intros base Hk Hb; cbn [select_from]; [eauto|].
  cbn [sw_address sw_key sw_value]. destruct (Z.eqb_spec b a) as [->|Hne].
  - destruct (select_storage_write_sound model lm spread pre _ _ _ _ _ _ _ _ Hk Hwk Hv Hb) as (e & -> & He). cbn [obind].
    apply IH; [done|]. rewrite He. unfold store. rewrite Z.eqb_refl. simpl. by destruct (u_eqb k wk).
  - apply IH; [done|]. rewrite Hb. unfold store. by rewrite (proj2 (Z.eqb_neq b a) Hne).
Qed.

(** *** Transient storage starts empty *)
Definition transient_rep (pre : Preimages) (w : SymbolicWorld) (t : Storage) : Prop :=
  writes_rep pre (transient_storage (state w)) no_storage t.

Lemma tload_sound pre w t a key k :
  transient_rep pre w t -> key_ok pre key k -> exists e, tload pre w a key = Ret e /\ den e = Some (t a k).
Proof. intros H Hk. eapply select_from_sound; [exact H|done|]. apply (den_constant model). Qed.

Lemma tstore_sound pre w t a key value k v :
  transient_rep pre w t -> key_ok pre key k -> den value = Some v -> transient_rep pre (tstore a key value w) (store t a k v).
Proof. apply writes_snoc. Qed.

Lemma clear_transient pre w : transient_rep pre (clear_transaction_scoped_state w) no_storage.
Proof. constructor. Qed.

(** *** The initial storage

    The values that the backend, the symbols of the model and the modes of
    arbitrary storage give to the slots of an account. *)
Context {BE : ChainBackend}.

Definition is_arbitrary (s : SymbolicWorldState) (a : Address) : bool :=
  arbitrary_storage_all s || bool_decide (is_Some (arbitrary_storage_accounts s !! a)).

(** The initial value [v] of the slot [k] of an account, read with the key
    expression [key]. *)
Record initial (s : SymbolicWorldState) (a : Address) (key : SymExpr) (k v : U256) : Prop := {
  initial_no_copy : arbitrary_storage_copies s !! a = None;
  initial_arbitrary : is_arbitrary s a = true ->
    model_value model (storage_symbol a key) = v /\
    (arbitrary_storage_all s = false -> arbitrary_storage_accounts s !! a = Some false ->
     forall x, storage_ref a k = Some x -> x = ZERO \/ x = v);
  initial_created : is_arbitrary s a = false -> a ∈ created_accounts s -> v = ZERO;
  initial_backend : is_arbitrary s a = false -> a ∉ created_accounts s -> forall x, storage_ref a k = Some x -> x = v;
  initial_symbol : is_arbitrary s a = false -> a ∉ created_accounts s -> as_const key = None ->
    (if zero_init_symbolic_storage s then ZERO else model_value model (storage_symbol a key)) = v
}.

(** What a read leaves alone: it may note the symbols of a replay. *)
Definition same_storage (w w' : SymbolicWorld) : Prop :=
  storage (state w') = storage (state w) /\ transient_storage (state w') = transient_storage (state w) /\
  balances (state w') = balances (state w) /\ nonces (state w') = nonces (state w) /\ code_cache (state w') = code_cache (state w) /\
  created_accounts (state w') = created_accounts (state w) /\ destroyed_accounts (state w') = destroyed_accounts (state w).

Lemma same_storage_refl w : same_storage w w.
Proof. done. Qed.

Lemma record_slot_same symbol a slot w : same_storage w (record_replay_storage_slot symbol a slot w).
Proof. unfold record_replay_storage_slot. by destruct (existsb _ _). Qed.
Lemma record_key_same symbol a key w : same_storage w (record_replay_symbolic_storage_key symbol a key w).
Proof. unfold record_replay_symbolic_storage_key. by destruct (existsb _ _). Qed.

(** The base of an account without arbitrary storage is not replayed. *)
Lemma unchecked_base_sound a key ck k v w base w' :
  initial (state w) a key k v -> unchecked_arbitrary_storage_base a key ck w = (base, w') ->
  same_storage w w' /\
  if is_arbitrary (state w) a then exists e, base = Some e /\ den e = Some v else base = None /\ w' = w.
Proof.
  intros Hi. unfold unchecked_arbitrary_storage_base. rewrite (initial_no_copy _ _ _ _ _ Hi). fold (is_arbitrary (state w) a).
  replace (if bool_decide _ then None else None) with (@None Address) by (by case_match).
  destruct (is_arbitrary (state w) a) eqn:Ea; [|by intros [= <- <-]]. intros [= <- <-].
  split; [|eexists; split; [done|]; cbn [denote_word]; f_equal; by apply (initial_arbitrary _ _ _ _ _ Hi Ea)].
  destruct (slot_of_key key ck); [apply record_slot_same|]. destruct (arbitrary_storage_all (state w)); [apply record_key_same|done].
Qed.

Lemma storage_base_sound a key ck k v w :
  initial (state w) a key k v -> den key = Some k -> (ck = None \/ ck = Some k) ->
  match storage_base a key ck w with
  | inl (base, w') => den base = Some v /\ same_storage w w'
  | inr e => e = Backend /\ storage_ref a k = None
  end.
Proof.
  intros Hi Hk Hck.
  assert (Hslot : forall x, slot_of_key key ck = Some x -> x = k).
  { unfold slot_of_key. destruct Hck as [->| ->]; [|naive_solver]. intros x Hx. symmetry. by eapply as_const_den. }
  assert (Hsym : slot_of_key key ck = None -> as_const key = None) by (unfold slot_of_key; by destruct Hck as [->| ->]).
  destruct (unchecked_arbitrary_storage_base a key ck w) as [ub uw] eqn:Eu. pose proof (unchecked_base_sound _ _ _ _ _ _ _ _ Hi Eu) as [Hsame Hu].
  assert (Hrest : match (match ub with
      | Some base => inl (base, uw)
      | None => if bool_decide (a ∈ created_accounts (state uw)) then inl (zero, uw)
                else match slot_of_key key ck with
                     | Some k => backend (storage_ref a k) (fun v => inl (constant v, uw))
                     | None => if zero_init_symbolic_storage (state uw) then inl (zero, uw) else inl (EVar (storage_symbol a key), uw)
                     end
      end : WResult (SymExpr * SymbolicWorld)) with
    | inl (base, w') => den base = Some v /\ same_storage w w'
    | inr e => e = Backend /\ storage_ref a k = None
    end).
  { destruct (is_arbitrary (state w) a) eqn:Ea; [by destruct Hu as (e & -> & He)|]. destruct Hu as [-> ->].
    case_bool_decide as Hc; [rewrite (initial_created _ _ _ _ _ Hi Ea Hc); split; [apply (den_constant model)|done]|].
    destruct (slot_of_key key ck) as [x|] eqn:Es.
    - rewrite (Hslot x) by done. destruct (storage_ref a k) as [y|] eqn:Er; simpl; [|done].
      rewrite (initial_backend _ _ _ _ _ Hi Ea Hc y Er). split; [apply (den_constant model)|done].
    - pose proof (initial_symbol _ _ _ _ _ Hi Ea Hc (Hsym eq_refl)) as <-.
      destruct (zero_init_symbolic_storage (state w)); (split; [|done]); [apply (den_constant model)|done]. }
  unfold storage_base, arbitrary_storage_base. rewrite Eu. destruct (slot_of_key key ck) as [x|] eqn:Es; [|exact Hrest].
  destruct (arbitrary_storage_all (state w)) eqn:Eall; [exact Hrest|].
  rewrite (initial_no_copy _ _ _ _ _ Hi). rewrite (bool_decide_eq_false_2 (is_Some None)) by (by intros [? ?]).
  rewrite andb_false_r, orb_false_r.
  destruct (bool_decide_reflect (arbitrary_storage_accounts (state w) !! a = Some false)) as [Ho|Ho]; [|exact Hrest]. rewrite (Hslot x) by done.
  destruct (storage_ref a k) as [y|] eqn:Er; simpl; [|done]. destruct (is_zero y) eqn:Ez; simpl; [rewrite (Hslot x) in Hrest by done; by rewrite Er in Hrest|].
  assert (Ea : is_arbitrary (state w) a = true) by (unfold is_arbitrary; rewrite Eall, Ho; done).
  destruct (initial_arbitrary _ _ _ _ _ Hi Ea) as [_ Hp]. destruct (Hp Eall Ho y Er) as [->| ->]; [done|].
  split; [apply (den_constant model)|apply same_storage_refl].
Qed.

(** *** Storage of a world *)
Definition storage_rep (pre : Preimages) (w : SymbolicWorld) (s0 s : Storage) : Prop :=
  writes_rep pre (storage (state w)) s0 s.

Definition read_key (key : SymExpr) (ck : option U256) : SymExpr := match ck with Some k => constant k | None => key end.

(** A read returns the value of the slot, and fails only with the backend. *)
Lemma sload_sound pre w s0 s a key ck k :
  storage_rep pre w s0 s -> initial (state w) a key k (s0 a k) -> den key = Some k -> (ck = None \/ ck = Some k) ->
  key_ok pre (read_key key ck) k ->
  exists r, sload pre a key ck w = Ret r /\
    match r with
    | inl (e, w') => den e = Some (s a k) /\ same_storage w w'
    | inr err => err = Backend /\ storage_ref a k = None
    end.
Proof.
  intros Hw Hi Hk Hck Hkey. pose proof (storage_base_sound _ _ _ _ _ _ Hi Hk Hck) as Hb. unfold sload.
  destruct (storage_base a key ck w) as [[base w']|err]; [|by eexists]. destruct Hb as [Hb Hs]. fold (read_key key ck).
  unfold storage_rep in Hw. rewrite <- (proj1 Hs) in Hw.
  destruct (select_from_sound _ _ _ _ _ _ _ _ Hw Hkey Hb) as (e & -> & He). cbn [obind]. eexists; split; [done|]. done.
Qed.

Lemma sstore_sound pre w s0 s a key value k v :
  storage_rep pre w s0 s -> key_ok pre key k -> den value = Some v -> storage_rep pre (sstore a key value w) s0 (store s a k v).
Proof. apply writes_snoc. Qed.

Lemma same_storage_rep pre w w' s0 s : same_storage w w' -> storage_rep pre w s0 s -> storage_rep pre w' s0 s.
Proof. intros (E & _) H. unfold storage_rep. by rewrite E. Qed.
End StorageSpec.

(** ** Balances *)
Section BalanceSpec.
Context `{SA : SignedArith, HF : HashFns, P : Parts} {SL : SignedArithLaws} {BE : ChainBackend}.
Variable model : SymbolicModel.
Abbreviation den := (denote_word model).
Import SWorld.

Definition balance_of (w : SymbolicWorld) (a : Address) : option U256 := den (balance_word_for_address w a).

Lemma is_const_zero_den e v : is_const_zero e = true -> den e = Some v -> v = ZERO.
Proof.
  unfold is_const_zero. destruct (as_const e) as [c|] eqn:E; [|done]. intros Hz Hv. rewrite (as_const_den _ _ _ _ E Hv).
  unfold is_zero in Hz. apply Z.eqb_eq in Hz. by apply uval_inj.
Qed.

Lemma is_destroyed_spec w a : is_destroyed w a = bool_decide (a ∈ destroyed_accounts (state w)).
Proof. done. Qed.

(** The balance that is set is the balance that is read, also on an account
    that was destroyed. *)
Lemma balance_set_eq w a e v : den e = Some v -> balance_of (set_balance_word a e w) a = Some v.
Proof.
  intros He. unfold balance_of, balance_word_for_address, set_balance_word, is_destroyed. simpl. destruct (is_const_zero e) eqn:Ez; simpl.
  - case_bool_decide; [rewrite (is_const_zero_den _ _ Ez He); apply (den_constant model)|]. by rewrite lookup_insert_eq.
  - rewrite bool_decide_eq_false_2 by set_solver. by rewrite lookup_insert_eq.
Qed.

Lemma balance_set_ne w a b e : a <> b -> balance_word_for_address (set_balance_word a e w) b = balance_word_for_address w b.
Proof.
  intros Hne. unfold balance_word_for_address, set_balance_word, is_destroyed. simpl. destruct (is_const_zero e); simpl.
  - by rewrite lookup_insert_ne.
  - rewrite lookup_insert_ne by done. by rewrite (bool_decide_ext _ (b ∈ destroyed_accounts (state w))) by set_solver.
Qed.

Lemma den_add l r x y : den l = Some x -> den r = Some y -> den (binop Add l r) = Some (wrapping_add x y).
Proof. intros Hl Hr. apply (binop_refines model Add). simpl. by rewrite Hl, Hr. Qed.
Lemma den_sub l r x y : den l = Some x -> den r = Some y -> den (binop Sub l r) = Some (wrapping_sub x y).
Proof. intros Hl Hr. apply (binop_refines model Sub). simpl. by rewrite Hl, Hr. Qed.

Lemma wrapping_add_zero x : wrapping_add x ZERO = x.
Proof. apply uval_inj. rewrite uval_wrapping_add, uval_ZERO, Z.add_0_r. apply Z.mod_small, uval_range. Qed.
Lemma wrapping_sub_zero x : wrapping_sub x ZERO = x.
Proof. apply uval_inj. unfold wrapping_sub. rewrite uval_U, uval_ZERO, Z.sub_0_r. apply Z.mod_small, uval_range. Qed.

(** A transfer between two accounts. *)
Lemma transfer_spec w from to e v x y :
  from <> to -> den e = Some v -> balance_of w from = Some x -> balance_of w to = Some y ->
  balance_of (transfer from to e w) from = Some (wrapping_sub x v) /\
  balance_of (transfer from to e w) to = Some (wrapping_add y v) /\
  (forall a, a <> from -> a <> to -> balance_of (transfer from to e w) a = balance_of w a).
Proof.
  intros Hne He Hx Hy. unfold transfer. rewrite (proj2 (Z.eqb_neq from to) Hne). simpl. destruct (is_const_zero e) eqn:Ez.
  { rewrite (is_const_zero_den _ _ Ez He), wrapping_add_zero, wrapping_sub_zero. done. }
  unfold balance_of. split_and!.
  - rewrite balance_set_ne by done. apply balance_set_eq. by apply den_sub.
  - apply balance_set_eq. by apply den_add.
  - intros a Hf Ht. by rewrite !balance_set_ne by done.
Qed.

(** *** Self-destruction *)
Definition paid (a b : Address) (w : SymbolicWorld) : SymbolicWorld := if pays a b w then pay_beneficiary a b w else w.

Lemma paid_balances w a b x y :
  balance_of w a = Some x -> balance_of w b = Some y ->
  balance_of (paid a b w) a = Some x /\
  balance_of (paid a b w) b = Some (if a =? b then y else wrapping_add y x) /\
  (forall c, c <> b -> balance_of (paid a b w) c = balance_of w c).
Proof.
  intros Hx Hy. unfold paid, pays. rewrite (Z.eqb_sym b a). destruct (Z.eqb_spec a b) as [->|Hne]; [done|]. simpl.
  destruct (is_const_zero (balance_word_for_address w a)) eqn:Ez; simpl.
  - pose proof (is_const_zero_den _ _ Ez Hx) as ->. by rewrite wrapping_add_zero.
  - unfold pay_beneficiary, balance_of. rewrite balance_set_ne by done. split; [done|]. split; [by apply balance_set_eq, den_add|].
    intros c Hc. by rewrite balance_set_ne.
Qed.

Lemma paid_world w a b :
  code_cache (state (paid a b w)) = code_cache (state w) /\ nonces (state (paid a b w)) = nonces (state w) /\
  storage (state (paid a b w)) = storage (state w) /\ transient_storage (state (paid a b w)) = transient_storage (state w).
Proof. unfold paid, pay_beneficiary, set_balance_word. destruct (pays a b w); simpl; [|done]. by destruct (negb _). Qed.

Lemma destroy_spec w a n :
  is_destroyed (destroy a n w) a = true /\ code_cache (state (destroy a n w)) !! a = Some no_code /\
  Forall (fun s => sw_address s <> a) (storage (state (destroy a n w))) /\
  Forall (fun s => sw_address s <> a) (transient_storage (state (destroy a n w))) /\
  forall c, c <> a ->
    balance_word_for_address (destroy a n w) c = balance_word_for_address w c /\
    code_cache (state (destroy a n w)) !! c = code_cache (state w) !! c /\
    filter (fun s => sw_address s = c) (storage (state (destroy a n w))) = filter (fun s => sw_address s = c) (storage (state w)).
Proof.
  assert (Hf : forall l : list StorageWrite, Forall (fun s => sw_address s <> a) (filter (fun s => sw_address s <> a) l)).
  { intros l. apply Forall_forall. intros s [Hs _]%list_elem_of_filter. exact Hs. }
  unfold is_destroyed, balance_word_for_address. destruct n; simpl.
  all: split; [apply bool_decide_eq_true_2; set_solver|]; split; [by rewrite lookup_insert_eq|]; split; [apply Hf|]; split; [apply Hf|].
  all: intros c Hc; rewrite !lookup_insert_ne by done; split;
    [unfold is_destroyed; simpl; by rewrite (bool_decide_ext (c ∈ {[a]} ∪ _) (c ∈ destroyed_accounts (state w))) by set_solver|].
  all: split; [done|]; rewrite list_filter_filter; apply list_filter_iff; naive_solver.
Qed.

(** The nonce of a destroyed account can still be read. *)
Lemma legacy_nonce w a b w' : selfdestruct_legacy a b w = inl w' -> is_Some (nonces (state w') !! a).
Proof.
  unfold selfdestruct_legacy. fold (paid a b w). destruct (nonces (state (paid a b w)) !! a) eqn:E.
  - intros [= <-]. simpl. by rewrite E.
  - destruct (nonce (paid a b w) a); [|done]. intros [= <-]. simpl. by rewrite lookup_insert_eq.
Qed.

Lemma legacy_is_destroy w a b w' : selfdestruct_legacy a b w = inl w' -> exists n, w' = destroy a n (paid a b w).
Proof.
  unfold selfdestruct_legacy. fold (paid a b w). destruct (nonces (state (paid a b w)) !! a); [intros [= <-]; eauto|].
  destruct (nonce (paid a b w) a); [|done]. intros [= <-]. eauto.
Qed.
End BalanceSpec.

(** ** Symbolic addresses *)

(** No expression is the byte 12 and the byte 13 of a word: the terms that
    [address_byte_terms_for_equivalence] asks for never exist. *)
Lemma no_address_byte_terms e : address_byte_terms_for_equivalence e = None.
Proof.
  unfold address_byte_terms_for_equivalence. change address_indices with (12 :: 13 :: drop 2 address_indices). cbn [collect_sources].
  unfold extracted_byte_source. cbn [Z.eqb Pos.eqb]. destruct (strip_low_byte_mask e) as [| | | | | |[] l r| |]; try done.
  destruct (as_const r) as [s|]; [|done]. destruct (u_eqb_spec s (U ((31 - 12) * 8))) as [->|]; [|done]. simpl.
  destruct (u_eqb_spec (U ((31 - 12) * 8)) (U ((31 - 13) * 8))) as [E|]; [|done]. by apply (f_equal uval) in E.
Qed.

Lemma canonical_size e : (esize (symbolic_address_canonical e) <= esize e)%nat.
Proof.
  induction e as [e IH] using (induction_ltof1 _ esize). unfold ltof in IH.
  destruct e as [| | | | | |[] l r| |]; try done; cbn [symbolic_address_canonical].
  - destruct (is_address_mask r); [|done]. etransitivity; [apply IH|]; simpl; lia.
  - destruct (is_shift_96 r); [|done]. destruct l as [| | | | | |[] l' r'| |]; try done. destruct (is_shift_96 r'); [|done].
    etransitivity; [apply IH|]; simpl; lia.
Qed.

Lemma canonical_idem e : symbolic_address_canonical (symbolic_address_canonical e) = symbolic_address_canonical e.
Proof.
  induction e as [e IH] using (induction_ltof1 _ esize). unfold ltof in IH.
  destruct e as [| | | | | |[] l r| |]; try done; cbn [symbolic_address_canonical].
  - destruct (is_address_mask r) eqn:E; [apply IH; simpl; lia|]. cbn [symbolic_address_canonical]. by rewrite E.
  - destruct (is_shift_96 r) eqn:E; [|cbn [symbolic_address_canonical]; by rewrite E].
    destruct l as [| | | | | |[] l' r'| |]; try (cbn [symbolic_address_canonical]; by rewrite E).
    destruct (is_shift_96 r') eqn:E'; [apply IH; simpl; lia|]. cbn [symbolic_address_canonical]. by rewrite E, E'.
Qed.

(** So two expressions are identified exactly when their canonical forms are
    the same. *)
Lemma address_equivalent_iff e alias :
  address_expr_equivalent e alias = expr_eqb (symbolic_address_canonical e) (symbolic_address_canonical alias).
Proof.
  unfold address_expr_equivalent. assert (Hs : exists n, esize e = S n) by (destruct e; simpl; eauto). destruct Hs as [n ->].
  cbn [equivalent_fuel]. destruct (expr_eqb _ _); [done|]. rewrite !no_address_byte_terms.
  pose proof (canonical_idem e) as Hi. destruct (symbolic_address_canonical e) as [| | | | | |[] l r| |]; try done; cbn [symbolic_address_canonical] in Hi.
  - destruct (is_address_mask r); [|done]. pose proof (canonical_size l) as Hz. rewrite Hi in Hz. simpl in Hz. lia.
  - destruct (is_shift_96 r); [|done]. destruct l as [| | | | | |[] l' r'| |]; try done. destruct (is_shift_96 r'); [|done].
    pose proof (canonical_size l') as Hz. rewrite Hi in Hz. simpl in Hz. lia.
Qed.

Section AddressSpec.
Context `{SA : SignedArith, HF : HashFns}.
Variable model : SymbolicModel.
Abbreviation den := (denote_word model).

Lemma mask_address l : word_to_address (u_and l (U (2 ^ 160 - 1))) = word_to_address l.
Proof.
  unfold word_to_address, u_and. change (uval (U (2 ^ 160 - 1))) with (Z.ones 160). rewrite Z.land_ones by lia.
  rewrite uval_U_small; [by rewrite Z.mod_mod|]. pose proof (Z.mod_pos_bound (uval l) (2 ^ 160)). change word_modulus with (2 ^ 256). lia.
Qed.

Lemma shift_address l : word_to_address (binop_eval Shr (binop_eval Shl l (U 96)) (U 96)) = word_to_address l.
Proof.
  change (word_to_address (u_shr (u_shl l 96) 96) = word_to_address l). unfold word_to_address, u_shr, u_shl.
  rewrite Z.shiftl_mul_pow2 by lia. rewrite Z.shiftr_div_pow2 by lia. rewrite (uval_U (uval l * 2 ^ 96)).
  change word_modulus with (2 ^ 160 * 2 ^ 96). rewrite Z.mul_mod_distr_r by lia. rewrite Z.div_mul by lia.
  rewrite uval_U_small; [by rewrite Z.mod_mod|]. pose proof (Z.mod_pos_bound (uval l) (2 ^ 160)). change word_modulus with (2 ^ 256). lia.
Qed.

Lemma canonical_sound e v :
  den e = Some v -> exists v', den (symbolic_address_canonical e) = Some v' /\ word_to_address v' = word_to_address v.
Proof.
  revert v. induction e as [e IH] using (induction_ltof1 _ esize). unfold ltof in IH. intros v Hv.
  destruct e as [| | | | | |[] l r| |]; try (by exists v); cbn [symbolic_address_canonical].
  - destruct (is_address_mask r) eqn:E; [|by exists v]. unfold is_address_mask in E. destruct (as_const r) as [c|] eqn:Ec; [|done].
    apply u_eqb_eq in E as ->. apply as_const_shape in Ec as ->. simpl in Hv. destruct (den l) as [x|] eqn:El; [|done]. simplify_eq.
    destruct (IH l ltac:(simpl; lia) x El) as (v' & Hd & Hw). exists v'. split; [done|]. rewrite Hw. symmetry. apply mask_address.
  - destruct (is_shift_96 r) eqn:E; [|by exists v]. destruct l as [| | | | | |[] l' r'| |]; try (by exists v).
    destruct (is_shift_96 r') eqn:E'; [|by exists v]. unfold is_shift_96 in E, E'.
    destruct (as_const r) as [c|] eqn:Ec; [|done]. destruct (as_const r') as [c'|] eqn:Ec'; [|done].
    apply u_eqb_eq in E as ->. apply u_eqb_eq in E' as ->. apply as_const_shape in Ec as ->. apply as_const_shape in Ec' as ->.
    cbn [denote_word] in Hv. destruct (den l') as [x|] eqn:El; [|done]. simplify_eq.
    destruct (IH l' ltac:(simpl; lia) x El) as (v' & Hd & Hw). exists v'. split; [done|]. rewrite Hw. symmetry. apply shift_address.
Qed.

Lemma equivalent_sound e alias v v' :
  symbolic_address_equivalent e alias = true -> den e = Some v -> den alias = Some v' -> word_to_address v = word_to_address v'.
Proof.
  unfold symbolic_address_equivalent. intros H Hv Hv'. destruct (as_const e) as [c|] eqn:Ec, (as_const alias) as [c'|] eqn:Ec'; try done.
  - apply Z.eqb_eq in H. by rewrite (as_const_den _ _ _ _ Ec Hv), (as_const_den _ _ _ _ Ec' Hv').
  - rewrite address_equivalent_iff in H. apply expr_eqb_eq in H. destruct (canonical_sound _ _ Hv) as (x & Hx & <-).
    destruct (canonical_sound _ _ Hv') as (y & Hy & <-). rewrite H in Hx. congruence.
Qed.
End AddressSpec.

(** ** Chains of cases over known addresses *)
Class IterLaws `{Parts} : Prop := {
  iter_map_perm A (m : gmap Z A) : iter_map A m ≡ₚ map_to_list m
}.

Section CaseSpec.
Context `{SA : SignedArith, HF : HashFns, P : Parts} {SL : SignedArithLaws} {BE : ChainBackend}.
Variable model : SymbolicModel.
Abbreviation den := (denote_word model).
Import SWorld.

Definition address_ok (a : Address) : Prop := 0 <= a < 2 ^ 160.

Lemma address_word_eqb a v : address_ok a -> u_eqb v (address_word a) = (uval v =? a).
Proof.
  intros Ha. unfold address_word. destruct (u_eqb_spec v (U a)) as [->|Hne].
  - rewrite uval_U_small by (unfold address_ok in Ha; change word_modulus with (2 ^ 256); lia). symmetry. apply Z.eqb_refl.
  - symmetry. apply Z.eqb_neq. intros <-. apply Hne. by rewrite U_uval.
Qed.

Lemma address_case_den e v a value result x r :
  no_hash_leaf e = true -> den e = Some v -> address_ok a -> den value = Some x -> den result = Some r ->
  den (address_case e a value result) = Some (if uval v =? a then x else r).
Proof.
  intros Hn Hv Ha Hx Hr. unfold address_case. apply (ite_sound model). simpl.
  rewrite (eq_exprs_sound model e _ v (address_word a)) by (done || apply (den_constant model) || by rewrite Hn).
  rewrite (address_word_eqb a v Ha). by destruct (uval v =? a).
Qed.

Section Chain.
Context {A : Type} (f : A -> SymExpr) (skip : Address -> bool).
Variable e : SymExpr.
Variable v : U256.
Hypothesis no_leaf : no_hash_leaf e = true.
Hypothesis value : den e = Some v.

Definition chain (result : SymExpr) (l : list (Address * A)) : SymExpr :=
  foldl (fun result '(a, x) => if skip a then result else address_case e a (f x) result) result l.

Definition entry_ok (p : Address * A) : Prop := address_ok (fst p) /\ exists y, den (f (snd p)) = Some y.

Lemma chain_miss l result r :
  Forall entry_ok l -> den result = Some r -> (forall x, (uval v, x) ∈ l -> skip (uval v) = true) ->
  den (chain result l) = Some r.
Proof.
  intros Hl. revert result. induction Hl as [|[a x] l [Ha [y Hy]] _ IH]; intros result Hr Hmiss; [done|]. cbn [chain foldl].
  apply IH; [|intros z Hz; apply (Hmiss z); set_solver]. destruct (skip a) eqn:Es; [done|].
  rewrite (address_case_den e v a (f x) result y r) by done. destruct (Z.eqb_spec (uval v) a) as [<-|]; [|done].
  rewrite (Hmiss x) in Es; [done|set_solver].
Qed.

Lemma chain_defined l result r : Forall entry_ok l -> den result = Some r -> exists r', den (chain result l) = Some r'.
Proof.
  intros Hl. revert result r. induction Hl as [|[a x] l [Ha [y Hy]] _ IH]; intros result r Hr; [by exists r|]. cbn [chain foldl].
  destruct (skip a); [by eapply IH|]. eapply IH. by apply (address_case_den e v a (f x) result y r).
Qed.

Lemma chain_hit l result r x :
  Forall entry_ok l -> NoDup l.*1 -> den result = Some r -> (uval v, x) ∈ l -> skip (uval v) = false -> den (chain result l) = den (f x).
Proof.
  intros Hl Hd Hr Hin Hs. apply list_elem_of_split in Hin as (l1 & l2 & ->). rewrite fmap_app in Hd. apply NoDup_app in Hd as (_ & _ & Hd).
  apply NoDup_cons in Hd as [Hnot _]. apply Forall_app in Hl as [H1 H2]. apply Forall_cons in H2 as [[Ha [y Hy]] H2].
  unfold chain. rewrite foldl_app. destruct (chain_defined l1 result r H1 Hr) as [r1 Hr1]. fold (chain result l1). cbn [foldl]. rewrite Hs.
  rewrite (chain_miss l2 _ y H2); [by rewrite <- Hy| |].
  - rewrite (address_case_den e v (uval v) (f x) _ y r1) by done. by rewrite Z.eqb_refl.
  - intros z Hz. exfalso. apply Hnot. apply list_elem_of_fmap. by exists (uval v, z).
Qed.
End Chain.

Context {IL : IterLaws}.

(** The chain over a hash map does not depend on the order of the map. *)
Lemma chain_map {A} (f : A -> SymExpr) skip e v (m : gmap Z A) result r :
  no_hash_leaf e = true -> den e = Some v -> den result = Some r -> map_Forall (fun a x => address_ok a /\ exists y, den (f x) = Some y) m ->
  den (chain f skip e result (iter_map A m)) =
    match m !! uval v with Some x => if skip (uval v) then Some r else den (f x) | None => Some r end.
Proof.
  intros Hn Hv Hr Hm. assert (Hl : Forall (entry_ok f) (iter_map A m)).
  { rewrite iter_map_perm. apply Forall_forall. intros [a x] Hin%elem_of_map_to_list. exact (Hm a x Hin). }
  assert (Hd : NoDup (iter_map A m).*1) by (rewrite iter_map_perm; apply NoDup_fst_map_to_list).
  destruct (m !! uval v) as [x|] eqn:E; [destruct (skip (uval v)) eqn:Es|].
  - eapply chain_miss; eauto.
  - eapply chain_hit; eauto. rewrite iter_map_perm. by apply elem_of_map_to_list.
  - eapply chain_miss; eauto. intros x Hin. rewrite iter_map_perm in Hin. apply elem_of_map_to_list in Hin. congruence.
Qed.

(** The balance of an address that is not resolved: that of the known account
    with this address, or of the representative. *)
Lemma balance_word_spec w e v r :
  resolve_address w e = None -> no_hash_leaf e = true -> den e = Some v ->
  map_Forall (fun a b => address_ok a /\ exists y, den b = Some y) (balances (state w)) ->
  balance_of model w (representative_symbolic_address e) = Some r ->
  den (balance_word w e) =
    match balances (state w) !! uval v with
    | Some b => if is_destroyed w (uval v) then Some r else den b
    | None => Some r
    end.
Proof.
  intros Hres Hn Hv Hb Hr. unfold balance_word. rewrite Hres. exact (chain_map id (is_destroyed w) e v _ _ r Hn Hv Hr Hb).
Qed.
End CaseSpec.

(** ** Block hashes *)
Section BlockSpec.
Context `{SA : SignedArith, HF : HashFns, P : Parts} {SL : SignedArithLaws} {BE : ChainBackend}.
Variable model : SymbolicModel.
Abbreviation den := (denote_word model).
Import SWorld SBlock.

Definition hashes_ok (b : SymbolicBlock) : Prop := map_Forall (fun _ h => exists y, den h = Some y) (block_hashes b).

Lemma block_hash_defined b n h : hashes_ok b -> block_hash b n = inl h -> exists y, den h = Some y.
Proof.
  intros Hb. unfold block_hash. destruct (current_number _ _) as [current|]; [|done].
  destruct (_ || _); [intros [= <-]; eexists; apply (den_constant model)|]. destruct (block_hashes b !! uval n) as [h'|] eqn:E.
  - intros [= <-]. exact (Hb _ _ E).
  - destruct (2 ^ 64 <=? uval n); [intros [= <-]; eexists; apply (den_constant model)|].
    destruct (block_hash_ref (uval n)); [|done]. intros [= <-]. eexists; apply (den_constant model).
Qed.

Lemma hash_loop_spec b current e n d result r y :
  hash_loop b current e d result = inl r -> no_hash_leaf e = true -> den e = Some n -> hashes_ok b -> Z.of_nat d <= uval current ->
  den result = Some y ->
  if (1 <=? uval current - uval n) && (uval current - uval n <=? Z.of_nat d)
  then y = ZERO -> exists h, block_hash b n = inl h /\ den r = den h
  else den r = Some y.
Proof.
  intros H Hn Hv Hb. revert result y H. induction d as [|d IH]; intros result y H Hd Hy; cbn [hash_loop] in H.
  { simplify_eq. destruct (Z.leb_spec 1 (uval current - uval n)), (Z.leb_spec (uval current - uval n) (Z.of_nat 0)); simpl; lia || done. }
  set (candidate := U (uval current - Z.of_nat (S d))) in *. destruct (block_hash b candidate) as [hash|] eqn:Eh; [|done].
  pose proof (uval_range current). pose proof (uval_range n).
  assert (Hc : uval candidate = uval current - Z.of_nat (S d)) by (unfold candidate; rewrite uval_U_small; lia).
  destruct (block_hash_defined _ _ _ Hb Eh) as [x Hx].
  assert (Hres : den (if is_const_zero hash then result else ite (eq_exprs e (constant candidate)) hash result) =
    Some (if is_const_zero hash then y else if u_eqb n candidate then x else y)).
  { destruct (is_const_zero hash); [done|]. apply (ite_sound model). simpl.
    rewrite (eq_exprs_sound model e _ n candidate) by (done || apply (den_constant model) || by rewrite Hn). by destruct (u_eqb n candidate). }
  specialize (IH _ _ H ltac:(lia) Hres). destruct (decide (uval current - uval n = Z.of_nat (S d))) as [Ed|Ed].
  - assert (n = candidate) as -> by (apply uval_inj; lia). rewrite u_eqb_refl in IH.
    rewrite (proj2 (Z.leb_gt (uval current - uval candidate) (Z.of_nat d))) in IH by lia. rewrite andb_false_r in IH.
    rewrite (proj2 (Z.leb_le 1 _)), (proj2 (Z.leb_le _ (Z.of_nat (S d)))) by lia. simpl. intros ->. exists hash. split; [done|]. rewrite IH.
    destruct (is_const_zero hash) eqn:Ez; [|done]. by rewrite (is_const_zero_den model _ _ Ez Hx) in Hx.
  - assert (Hne : u_eqb n candidate = false) by (destruct (u_eqb_spec n candidate) as [->|]; [lia|done]). rewrite Hne in IH.
    replace (if is_const_zero hash then y else y) with y in IH by (by destruct (is_const_zero hash)).
    replace (uval current - uval n <=? Z.of_nat (S d)) with (uval current - uval n <=? Z.of_nat d); [exact IH|].
    destruct (Z.leb_spec (uval current - uval n) (Z.of_nat d)), (Z.leb_spec (uval current - uval n) (Z.of_nat (S d))); lia || done.
Qed.

(** A symbolic block number gives the hash of the block it denotes: of one of
    the last 256 blocks, zero otherwise. *)
Lemma block_hash_word_spec b e r n :
  block_hash_word b e = inl r -> no_hash_leaf e = true -> den e = Some n -> hashes_ok b ->
  exists h, block_hash b n = inl h /\ den r = den h.
Proof.
  intros H Hn Hv Hb. unfold block_hash_word in H. destruct (as_const e) as [c|] eqn:Ec.
  { rewrite (as_const_den _ _ _ _ Ec Hv). eauto. }
  destruct (current_number b _) as [current|] eqn:Ecur; [|done]. pose proof (uval_range current). pose proof (uval_range n).
  assert (Hout : (uval current <=? uval n) || (256 <? uval current - uval n) = true -> block_hash b n = inl zero).
  { intros Ho. unfold block_hash. by rewrite Ecur, Ho. }
  destruct (is_zero current) eqn:Ez.
  { apply Z.eqb_eq in Ez. injection H as <-. exists zero. split; [|done]. apply Hout. rewrite (proj2 (Z.leb_le _ _)) by lia. done. }
  pose proof (hash_loop_spec _ _ _ _ _ _ _ ZERO H Hn Hv Hb ltac:(lia) (den_constant model _)) as Hl.
  destruct (_ && _) eqn:Ein; [by apply Hl|]. exists zero. split; [|rewrite Hl; symmetry; apply (den_constant model)]. apply Hout.
  destruct (Z.leb_spec (uval current) (uval n)); [done|]. destruct (Z.ltb_spec 256 (uval current - uval n)); [done|].
  rewrite (proj2 (Z.leb_le 1 _)), (proj2 (Z.leb_le _ (Z.of_nat _))) in Ein by lia. done.
Qed.
End BlockSpec.

(** ** Snapshots *)
Section SnapshotSpec.
Context `{P : Parts}.
Import SWorld.

(** What a path does between a snapshot and the return to it. *)
Inductive WorldOp :=
  | ChangeState (f : SymbolicWorldState -> SymbolicWorldState)
  | TakeSnapshot
  | RestoreSnapshot (id : Z)
  | DeleteSnapshot (id : Z).

Definition world_op (o : WorldOp) (w : SymbolicWorld) : SymbolicWorld :=
  match o with
  | ChangeState f => with_state f w
  | TakeSnapshot => snd (snapshot_state w)
  | RestoreSnapshot id => snd (restore_snapshot id w)
  | DeleteSnapshot id => snd (delete_snapshot id w)
  end.

Definition world_ops (l : list WorldOp) (w : SymbolicWorld) : SymbolicWorld := foldl (fun w o => world_op o w) w l.

(** A snapshot is kept as long as its number is not given to another one. *)
Lemma world_op_keeps o w id s :
  snapshots w !! id = Some s -> id < next_snapshot_id w -> next_snapshot_id w < 2 ^ 64 - 1 -> o <> DeleteSnapshot id ->
  snapshots (world_op o w) !! id = Some s /\ id < next_snapshot_id (world_op o w) /\
  next_snapshot_id (world_op o w) <= next_snapshot_id w + 1.
Proof.
  intros Hs Hid Hn Ho. destruct o as [f| |i|i]; simpl.
  - split_and!; [done|lia..].
  - rewrite lookup_insert_ne by lia. split_and!; [done|lia..].
  - unfold restore_snapshot. destruct (snapshots w !! i); simpl; split_and!; done || lia.
  - rewrite lookup_delete_ne by congruence. split_and!; [done|lia..].
Qed.

Lemma world_ops_keep l w id s :
  snapshots w !! id = Some s -> id < next_snapshot_id w -> next_snapshot_id w + Z.of_nat (length l) < 2 ^ 64 ->
  DeleteSnapshot id ∉ l -> snapshots (world_ops l w) !! id = Some s.
Proof.
  revert w. induction l as [|o l IH]; intros w Hs Hid Hn Hl; [done|]. cbn [length] in Hn. apply not_elem_of_cons in Hl as [Ho Hl].
  destruct (world_op_keeps o w id s Hs Hid ltac:(lia) ltac:(congruence)) as (H1 & H2 & H3). apply IH; [done|done|lia|done].
Qed.
End SnapshotSpec.
