(* ===== verification/SymStatic.v ===== *)
(** * SymStatic: what reading the world leaves alone

    The opcodes that only read accounts still change the world of a path: code
    is fetched into the cache, symbolic addresses get a representative, replayed
    slots are noted, balances move.  [read_only] relates a world to what reads
    make of it: the storage, the transient storage, the nonces, the created
    accounts and the code of every known contract are the same.  A read of storage
    that is copied from another account is the exception: it writes to the
    source of the copy. *)

From Stdlib Require Import ZArith Lia Bool.
From stdpp Require Import base list option gmap sets strings.
From S2P Require Import Prelude SymWord SymExpr SymSimpl SymCmp SymBytes SymSeq SymStorage SymMem SymPath SymWorld.
Local Open Scope Z_scope.

Record read_only `{Parts} (w w' : SymbolicWorld) : Prop := {
  ro_storage : storage (state w') = storage (state w);
  ro_transient : transient_storage (state w') = transient_storage (state w);
  ro_nonces : nonces (state w') = nonces (state w);
  ro_created : created_accounts (state w') = created_accounts (state w);
  ro_code a code : code_cache (state w) !! a = Some code -> code_is_empty code = false -> code_cache (state w') !! a = Some code;
  ro_copies : arbitrary_storage_copies (state w') = arbitrary_storage_copies (state w)
}.

#[export] Instance read_only_preorder `{Parts} : PreOrder read_only.
Proof.
  split; [by split|]. intros a b c [] []. split; try congruence; eauto.
Qed.

Section Reads.
Context `{SA : SignedArith, HF : HashFns, P : Parts, BE : ChainBackend}.
Import SWorld.

(** No read leaves a write behind. *)
Definition no_copies (w : SymbolicWorld) : Prop := arbitrary_storage_copies (state w) = ∅.

Lemma ro_balance a v w : read_only w (set_balance_word a v w).
Proof. split; unfold set_balance_word, with_state, revive; simpl; by case_match. Qed.

Lemma ro_transfer from to v w : read_only w (transfer from to v w).
Proof. unfold transfer. case_match; [done|]. etrans; apply ro_balance. Qed.

Lemma ro_alias e w : read_only w (symbolic_address_slot e w).2.
Proof. unfold symbolic_address_slot. case_match; [done|]. by split. Qed.

Lemma ro_existing a w : read_only w (mark_existing a w).
Proof. by split. Qed.

(** Code is only fetched for accounts that have none in the cache. *)
Lemma ro_cache a code w :
  (forall old, code_cache (state w) !! a = Some old -> code_is_empty old = true) -> read_only w (cache_code a code w).
Proof.
  intros Hold. split; try done. intros b c Hb Hc. simpl. rewrite lookup_insert_ne; [done|]. intros <-. specialize (Hold _ Hb). congruence.
Qed.

Lemma ro_extcode spec a w code w' : extcode spec a w = inl (code, w') -> read_only w w'.
Proof.
  unfold extcode, backend. intros Hx. destruct (is_vm_address a); [by simplify_eq|]. case_bool_decide; [by simplify_eq|].
  destruct (is_destroyed w a); [by simplify_eq|]. destruct (code_cache (state w) !! a) eqn:E; [by simplify_eq|].
  destruct (basic_ref a) as [acc|]; [|done]. simplify_eq. trans (match acc with Some acc =>
    if negb (acc_nonce acc =? 0) || negb (is_zero (acc_balance acc)) || has_code acc then mark_existing a w else w | None => w end).
  - repeat case_match; done || apply ro_existing.
  - apply ro_cache. intros old. repeat case_match; simpl; congruence.
Qed.

Lemma ro_exists a w b w' : account_exists a w = inl (b, w') -> read_only w w'.
Proof.
  unfold account_exists, backend. intros Hx. destruct (is_vm_address a); [by simplify_eq|]. destruct (is_destroyed w a); [by simplify_eq|].
  case_bool_decide; [by simplify_eq|]. destruct (_ || _ || _) eqn:E; [simplify_eq; apply ro_existing|].
  apply orb_false_elim in E as [_ E]. destruct (basic_ref a) as [[acc|]|]; [|by simplify_eq|done].
  destruct (_ || _); [simplify_eq; apply ro_existing|]. destruct (acc_code acc) as [bc|]; [|by simplify_eq].
  destruct (negb _); simplify_eq; [|done]. etrans; [apply ro_cache|apply ro_existing].
  intros old Ho. rewrite Ho in E. by apply negb_false_iff in E.
Qed.

Lemma ro_code_targets spec l w ts w' : code_targets spec l w = inl (ts, w') -> read_only w w'.
Proof.
  revert w ts w'. induction l as [|a l IH]; intros w ts w' Hx; simpl in Hx; [by simplify_eq|].
  destruct (_ || _); [by eapply IH|]. destruct (extcode spec a w) as [[code w1]|] eqn:E; [|done].
  destruct (code_targets spec l w1) as [[ts' w2]|] eqn:E2; [|done]. apply ro_extcode in E. apply IH in E2.
  etrans; [exact E|]. by destruct (code_is_empty code); simplify_eq.
Qed.

Lemma ro_call_targets spec w ts w' : symbolic_call_targets spec w = inl (ts, w') -> read_only w w'.
Proof. apply ro_code_targets. Qed.

Lemma ro_code_size spec e w s w' : extcode_size_word spec e w = inl (s, w') -> read_only w w'.
Proof.
  unfold extcode_size_word. intros Hx. case_match; (case_match eqn:E; [|done]); case_match; simplify_eq; by eapply ro_extcode.
Qed.

Lemma ro_code_bytes spec e o n w b w' : extcode_bytes_word spec e o n w = Ret (inl (b, w')) -> read_only w w'.
Proof.
  unfold extcode_bytes_word. intros Hx. case_match; (case_match eqn:E; [|done]); case_match; subst.
  - apply obind_Ret in Hx as (? & _ & Hx). simplify_eq. by eapply ro_extcode.
  - apply obind_Ret in Hx as (? & _ & Hx). apply obind_Ret in Hx as (? & _ & Hx). apply obind_Ret in Hx as (? & _ & Hx).
    simplify_eq. by eapply ro_extcode.
Qed.

Lemma ro_hash_for spec pre a w h w' pre' : extcode_hash_for_address spec pre a w = Ret (inl (h, w', pre')) -> read_only w w'.
Proof.
  unfold extcode_hash_for_address. intros Hx. destruct (account_exists a w) as [[[] w1]|] eqn:E; [| |done]; apply ro_exists in E.
  - destruct (extcode spec a w1) as [[code w2]|] eqn:E2; [|done]. apply ro_extcode in E2. apply obind_Ret in Hx as ([? ?] & _ & Hx).
    simplify_eq. by etrans.
  - by simplify_eq.
Qed.

Lemma ro_code_hash spec pre e w h w' pre' : extcode_hash_word spec pre e w = Ret (inl (h, w', pre')) -> read_only w w'.
Proof.
  unfold extcode_hash_word. intros Hx. case_match; [by eapply ro_hash_for|]. apply obind_Ret in Hx as (r & Hr & Hx).
  destruct r as [[[h1 w1] pre1]|]; [|done]. apply ro_hash_for in Hr. apply obind_Ret in Hx as ([? ?] & _ & Hx). by simplify_eq.
Qed.

Lemma ro_replay_slot s a k w : read_only w (record_replay_storage_slot s a k w).
Proof. unfold record_replay_storage_slot. by repeat case_match. Qed.
Lemma ro_replay_key s a k w : read_only w (record_replay_symbolic_storage_key s a k w).
Proof. unfold record_replay_symbolic_storage_key. by repeat case_match. Qed.

Lemma ro_unchecked a key ck w : no_copies w -> read_only w (unchecked_arbitrary_storage_base a key ck w).2.
Proof.
  intros Hn. unfold unchecked_arbitrary_storage_base. rewrite Hn, lookup_empty.
  repeat case_match; simplify_eq; simpl; try done; try apply ro_replay_slot; try apply ro_replay_key.
Qed.

Lemma ro_arbitrary a key ck w o w' : no_copies w -> arbitrary_storage_base a key ck w = inl (o, w') -> read_only w w'.
Proof.
  intros Hn Hb. pose proof (ro_unchecked a key ck w Hn) as Hu. unfold arbitrary_storage_base, backend in Hb.
  destruct (unchecked_arbitrary_storage_base a key ck w) as [o' w2]. by repeat (case_match; simplify_eq).
Qed.

Lemma ro_sload pre a key ck w v w' : no_copies w -> sload pre a key ck w = Ret (inl (v, w')) -> read_only w w'.
Proof.
  intros Hn Hx. unfold sload in Hx. destruct (storage_base a key ck w) as [[base w1]|] eqn:E; [|done].
  apply obind_Ret in Hx as (? & _ & Hx). simplify_eq. unfold storage_base, backend in E.
  destruct (arbitrary_storage_base a key ck w) as [[[b|] w1]|] eqn:Eb; [| |done];
    (apply ro_arbitrary in Eb; [|done]); repeat (case_match; simplify_eq); simplify_eq; done.
Qed.
End Reads.
