(* ===== verification/SymPrecompile.v ===== *)
(** * SymPrecompile: precompiled contracts on symbolic input

    Models runtime/precompiles.rs and the point evaluation of executor/calls.rs
    ([kzg_constrained_outcome] and its conditions).  Input that is constant runs
    revm's precompile, the parameter [precompile_run]; otherwise the result is an
    opaque word per input, the input itself for the identity, or an error where
    validity would depend on the symbolic bytes. *)

From Stdlib Require Import ZArith Lia Bool.
From stdpp Require Import base list option gmap sets strings.
From S2P Require Import Prelude SymWord SymExpr SymSimpl SymSound SymCmp SymBytes SymSeq SymStorage SymMem SymPath SymWorld.
Local Open Scope Z_scope.
Local Open Scope outcome_scope.

(** revm's precompiles by number ([None] is an error of the precompile), the
    names of opaque words, and the constants of the point evaluation. *)
Class Precompiles := {
  precompile_run : Z -> list Z -> option (list Z);
  hash_name : Algorithm -> list SymExpr -> Symbol;
  kzg_to_versioned_hash : list Z -> list Z;
  kzg_return_value : list Z;
  VERSIONED_HASH_VERSION_KZG : Z
}.

(** The names of the algorithms. *)
Definition alg_ecrecover : Algorithm := 0%nat.
Definition alg_sha256 : Algorithm := 1%nat.
Definition alg_ripemd160 : Algorithm := 2%nat.
Definition alg_modexp : Algorithm := 3%nat.
Definition alg_bn254_add : Algorithm := 4%nat.
Definition alg_bn254_mul : Algorithm := 5%nat.
Definition alg_bn254_pairing : Algorithm := 6%nat.
Definition alg_blake2f : Algorithm := 7%nat.

Module SPrecompile.
Section Ops.
Context `{SA : SignedArith, HF : HashFns, PC : Precompiles}.
Import SBytes.

Definition Res (A : Type) := Outcome (A + SymbolicError).
Definition ok {A} (a : A) : Res A := Ret (inl a).
Definition err {A} (reason : string) : Res A := Ret (inr (Unsupported reason)).
Definition rbind {A B} (r : Res A) (k : A -> Res B) : Res B :=
  let* x := r in match x with inl a => k a | inr e => Ret (inr e) end.

Definition symbolic_hash_word_with_len (algorithm : Algorithm) (bytes : list SymExpr) (l : SymExpr) : SymExpr :=
  EHash (hash_name algorithm (l :: bytes)) algorithm (l :: bytes).

Definition execute_precompile (a : Address) (input : list Z) (spec_id : Z) : Res (option SymReturnData) :=
  match precompile_number_for_spec a spec_id with
  | Some n => ok (SReturnData.from_concrete_bytes <$> precompile_run n input)
  | None => err "unsupported precompile"
  end.

Definition as_usize_or (e : SymExpr) (reason : string) : Res Z :=
  match SMemory.const_usize e with Some n => ok n | None => err reason end.

Fixpoint concrete_word_bytes (input : SymBytes) (offset : Z) (idxs : list Z) : Res (list Z) :=
  match idxs with
  | [] => ok []
  | idx :: rest =>
      match as_const (byte input (offset + idx)) with
      | None => err "symbolic precompile length header"
      | Some v => let* n := to_u8 v in rbind (concrete_word_bytes input offset rest) (fun ns => ok (n :: ns))
      end
  end.

Definition concrete_precompile_word_at (input : SymBytes) (offset : Z) : Res U256 :=
  rbind (concrete_word_bytes input offset (range 32)) (fun bytes => ok (U (be_value 0 bytes))).

Definition div_ceil_32 (n : Z) : Z := (n + 31) / 32.

Definition symbolic_fixed_len_precompile_output (algorithm : Algorithm) (input : SymBytes) (input_len output_len : Z)
    : Outcome SymReturnData :=
  let bytes := materialize input in
  let chunk c := into_byte_exprs (symbolic_hash_word_with_len algorithm (constant (U c) :: bytes) (constant (U input_len))) in
  SReturnData.from_byte_exprs (take (Z.to_nat output_len) (List.concat (map chunk (range (div_ceil_32 output_len))))).

Definition fixed_output (algorithm : Algorithm) (input : SymBytes) (input_len output_len : Z) : Res (option SymReturnData) :=
  let* r := symbolic_fixed_len_precompile_output algorithm input input_len output_len in ok (Some r).

Definition in_bounds (input : SymBytes) (input_len : Z) (k : Res (option SymReturnData)) : Res (option SymReturnData) :=
  if len input <? input_len then err "out-of-bounds symbolic precompile input" else k.

Definition symbolic_modexp_precompile (input : SymBytes) (input_len : SymExpr) : Res (option SymReturnData) :=
  rbind (as_usize_or input_len "symbolic precompile input") (fun input_len =>
  in_bounds input input_len (
  rbind (concrete_precompile_word_at input 64) (fun modulus_len =>
    match to_usize modulus_len with
    | None => err "symbolic modexp output length"
    | Some modulus_len =>
        if 4096 <? modulus_len then err "symbolic modexp output length"
        else fixed_output alg_modexp input input_len modulus_len
    end))).

(** Curve points are only modelled when every byte is constant. *)
Definition symbolic_bn254 (algorithm : Algorithm) (input : SymBytes) (input_len output_len : Z) : Res (option SymReturnData) :=
  in_bounds input input_len (
    if existsb (fun idx => bool_decide (as_const (byte input idx) = None)) (range input_len)
    then err "symbolic bn254 precompile validity not modeled"
    else fixed_output algorithm input input_len output_len).

Definition symbolic_ecrecover (a : Address) (input : SymBytes) (input_len : SymExpr) (spec_id : Z) : Res (option SymReturnData) :=
  let* input := sized input input_len 128 in
  let* bytes := concrete_bytes input in
  match bytes with
  | Some bytes => execute_precompile a bytes spec_id
  | None =>
      let* v := word_at input 32 in
      let valid_v := SBool.or [eq_word_const v (U 27); eq_word_const v (U 28)] in
      match SBool.as_const valid_v with
      | Some false => ok (Some SReturnData.empty)
      | _ =>
          let word := symbolic_hash_word_with_len alg_ecrecover (materialize input) (constant (U 128)) in
          let recovered := SBool.and [valid_v; nonzero_bool (byte_word ZERO word)] in
          let* bytes := exprs (map (fun _ => zero) (range 12) ++ map (fun idx => byte_word (U (12 + idx)) word) (range 20)) in
          ok (Some (mkReturnData (ite recovered (constant (U 32)) zero) bytes))
      end
  end.

(** Constant input of a constant length, [None] otherwise. *)
Definition constant_input (input : SymBytes) (input_len : SymExpr) : Outcome (option (list Z)) :=
  match SMemory.const_usize input_len with
  | Some n => if n <=? len input then let* part := slice_concrete input 0 n in concrete_bytes part else Ret None
  | None => Ret None
  end.

Definition symbolic_output (a : Address) (input : SymBytes) (input_len : SymExpr) (spec_id : Z) : Res (option SymReturnData) :=
  let reason := "symbolic precompile input" in
  match precompile_number_for_spec a spec_id with
  | Some 1 => symbolic_ecrecover a input input_len spec_id
  | Some 2 =>
      let* r := SReturnData.from_byte_exprs (into_byte_exprs (symbolic_hash_word_with_len alg_sha256 (materialize input) input_len)) in
      ok (Some r)
  | Some 3 =>
      let word := symbolic_hash_word_with_len alg_ripemd160 (materialize input) input_len in
      let* r := SReturnData.from_byte_exprs
                  (map (fun _ => zero) (range 12) ++ map (fun idx => byte_word (U (12 + idx)) word) (range 20)) in
      ok (Some r)
  | Some 4 => ok (Some (mkReturnData input_len input))
  | Some 5 => symbolic_modexp_precompile input input_len
  | Some 6 => rbind (as_usize_or input_len reason) (fun n => symbolic_bn254 alg_bn254_add input n 64)
  | Some 7 => rbind (as_usize_or input_len reason) (fun n => symbolic_bn254 alg_bn254_mul input n 64)
  | Some 8 =>
      rbind (as_usize_or input_len reason) (fun n =>
        if negb (n mod 192 =? 0) then ok None else symbolic_bn254 alg_bn254_pairing input n 32)
  | Some 9 =>
      rbind (as_usize_or input_len reason) (fun n =>
        if negb (n =? 213) then ok None
        else in_bounds input n (
          match as_const (byte input 212) with
          | None => err "symbolic blake2f precompile final flag not modeled"
          | Some flag => if (uval flag =? 0) || (uval flag =? 1) then fixed_output alg_blake2f input n 64 else ok None
          end))
  | Some 10 => err "KZG handled by execute_kzg_precompile_call"
  | _ =>
      rbind (as_usize_or input_len reason) (fun n => in_bounds input n (
        let* part := slice_concrete input 0 n in
        let* bytes := concrete_bytes part in
        match bytes with Some bytes => execute_precompile a bytes spec_id | None => err reason end))
  end.

Definition execute_symbolic_precompile (a : Address) (input : SymBytes) (input_len : SymExpr) (spec_id : Z)
    : Res (option SymReturnData) :=
  let* constant := constant_input input input_len in
  match constant with
  | Some bytes => execute_precompile a bytes spec_id
  | None => symbolic_output a input input_len spec_id
  end.
End Ops.
End SPrecompile.

(** ** Point evaluation (KZG) *)
Definition KZG_INPUT_LEN : Z := 192.
Definition KZG_Z_OFFSET : Z := 32.
Definition KZG_Y_OFFSET : Z := 64.
Definition KZG_COMMITMENT_OFFSET : Z := 96.
Definition KZG_PROOF_OFFSET : Z := 144.

(** Big-endian bytes of a number. *)
Definition hex_bytes (n : nat) (v : Z) : list Z := map (fun i => (v / 256 ^ (Z.of_nat n - 1 - i)) mod 256) (range (Z.of_nat n)).

Definition KZG_BLS_MODULUS : list Z := hex_bytes 32 0x73eda753299d7d483339d80809a1d80553bda402fffe5bfeffffffff00000001.

Definition KZG_SUCCESS_INPUT : list Z :=
  hex_bytes 32 0x01e798154708fe7789429634053cbf9f99b619f9f084048927333fce637f549b ++
  hex_bytes 32 0x73eda753299d7d483339d80809a1d80553bda402fffe5bfeffffffff00000000 ++
  hex_bytes 32 0x1522a4a7f34e1ea350ae07c29c96c7e79655aa926122e95fe69fcbd932ca49e9 ++
  hex_bytes 48 0x8f59a8d2a1a625a17f3fea0fe5eb8c896db3764f3185481bc22f91b4aaffcca25f26936857bc3a7c2539ea8ec3a952b7 ++
  hex_bytes 48 0xa62ad71d14c5719385c0686f1871430475bf3a00f0aa3f7b8dd99a9abc2160744faf0070725e00b60ad9a026a15b1a8c.

Definition KZG_INVALID_PROOF : list Z := repeat 255 48.
Definition KZG_ZERO_COMMITMENT : list Z := repeat 0 48.
Definition KZG_ONE_COMMITMENT : list Z := repeat 1 48.
Definition KZG_RESIDUAL_REASON : string := "symbolic KZG point-evaluation precompile residual not modeled".

Module SKzg.
Section Ops.
Context `{SA : SignedArith, HF : HashFns, PC : Precompiles}.
Variable constraints : list SymBoolExpr.
Import SPrecompile.

Definition kzg_success_return_data : SymReturnData := SReturnData.from_concrete_bytes kzg_return_value.

Definition expr_eq_condition (e : SymExpr) (value : Z) : SymBoolExpr := eq_word_const e (U value).
Definition expr_ne_condition (e : SymExpr) (value : Z) : SymBoolExpr := SBool.not_bool (expr_eq_condition e value).

Definition byte_eq_condition (input : list SymExpr) (offset value : Z) : SymBoolExpr :=
  match at_z input offset with Some e => expr_eq_condition e value | None => SBool.constant false end.
Definition byte_ne_condition (input : list SymExpr) (offset value : Z) : SymBoolExpr :=
  match at_z input offset with Some e => expr_ne_condition e value | None => SBool.constant false end.

(** [input[offset..offset + len]], when it is in range. *)
Definition input_range (input : list SymExpr) (offset l : Z) : option (list SymExpr) :=
  if offset + l <=? zlen input then Some (take (Z.to_nat l) (drop (Z.to_nat offset) input)) else None.

Definition bytes_eq_condition (input : list SymExpr) (offset : Z) (bytes : list Z) : SymBoolExpr :=
  match input_range input offset (zlen bytes) with
  | None => SBool.constant false
  | Some part => SBool.and (zip_with expr_eq_condition part bytes)
  end.
Definition bytes_ne_condition (input : list SymExpr) (offset : Z) (bytes : list Z) : SymBoolExpr :=
  match input_range input offset (zlen bytes) with
  | None => SBool.constant false
  | Some part => SBool.or (zip_with expr_ne_condition part bytes)
  end.

Definition kzg_versioned_hash_mismatch_condition (input : list SymExpr) (expected_hash : list Z) : SymBoolExpr :=
  bytes_ne_condition input 0 expected_hash.

Definition constrained_byte (e : SymExpr) : option Z :=
  v ← SPath.constrained_word constraints e; if uval v <? 256 then Some (uval v) else None.

Definition constrained_bytes_at (input : list SymExpr) (offset l : Z) : option (list Z) :=
  part ← input_range input offset l; mapM constrained_byte part.

Definition constrained_are (input : list SymExpr) (offset : Z) (bytes : list Z) : bool :=
  bool_decide (constrained_bytes_at input offset (zlen bytes) = Some bytes).

(** Whether a byte of the versioned hash is known to differ. *)
Definition hash_differs (input : list SymExpr) (expected_hash : list Z) : bool :=
  existsb (fun '(e, expected) => match constrained_byte e with Some actual => negb (actual =? expected) | None => false end)
    (zip input expected_hash).

Definition kzg_constrained_outcome (input : list SymExpr) (input_len : SymExpr) : Res (option (option SymReturnData)) :=
  match SPath.constrained_usize constraints input_len with
  | None => ok None
  | Some input_len =>
      if negb (input_len =? KZG_INPUT_LEN) then ok (Some None)
      else if zlen input <? input_len then err "out-of-bounds symbolic precompile input"
      else
        match constrained_bytes_at input 0 input_len with
        | Some bytes => rbind (execute_precompile 10 bytes CANCUN) (fun r => ok (Some r))
        | None =>
            match input with
            | [] => Panic
            | first :: _ =>
                if match constrained_byte first with Some v => negb (v =? VERSIONED_HASH_VERSION_KZG) | None => false end
                then ok (Some None)
                else if constrained_are input KZG_Z_OFFSET KZG_BLS_MODULUS || constrained_are input KZG_Y_OFFSET KZG_BLS_MODULUS
                        || constrained_are input KZG_PROOF_OFFSET KZG_INVALID_PROOF
                then ok (Some None)
                else
                  match constrained_bytes_at input KZG_COMMITMENT_OFFSET 48 with
                  | Some commitment => if hash_differs input (kzg_to_versioned_hash commitment) then ok (Some None) else ok None
                  | None => ok None
                  end
            end
        end
  end.

Definition kzg_success_witness_condition (input : list SymExpr) (input_len : SymExpr) : SymBoolExpr :=
  SBool.and [expr_eq_condition input_len KZG_INPUT_LEN; bytes_eq_condition input 0 KZG_SUCCESS_INPUT].

Definition kzg_failure_witness_condition (input : list SymExpr) (input_len : SymExpr) : SymBoolExpr :=
  let len_192 := expr_eq_condition input_len KZG_INPUT_LEN in
  let success_hash := take 32 KZG_SUCCESS_INPUT in
  let success_commitment := take 48 (drop 96 KZG_SUCCESS_INPUT) in
  SBool.or (
    [expr_ne_condition input_len KZG_INPUT_LEN;
     SBool.and [len_192; byte_ne_condition input 0 VERSIONED_HASH_VERSION_KZG];
     SBool.and [len_192; bytes_eq_condition input KZG_Z_OFFSET KZG_BLS_MODULUS];
     SBool.and [len_192; bytes_eq_condition input KZG_Y_OFFSET KZG_BLS_MODULUS];
     SBool.and [len_192; bytes_eq_condition input KZG_PROOF_OFFSET KZG_INVALID_PROOF]] ++
    match constrained_bytes_at input KZG_COMMITMENT_OFFSET 48 with
    | Some commitment => [SBool.and [len_192; kzg_versioned_hash_mismatch_condition input (kzg_to_versioned_hash commitment)]]
    | None => []
    end ++
    [SBool.and [len_192; bytes_eq_condition input KZG_COMMITMENT_OFFSET success_commitment;
                byte_eq_condition input 1 (Z.lxor (default 0 (at_z success_hash 1)) 1)]] ++
    map (fun commitment =>
      SBool.and [len_192; bytes_eq_condition input KZG_COMMITMENT_OFFSET commitment;
                 kzg_versioned_hash_mismatch_condition input (kzg_to_versioned_hash commitment)])
      [KZG_ZERO_COMMITMENT; KZG_ONE_COMMITMENT]).
End Ops.
End SKzg.
