(* ===== verification/SymLog.v ===== *)
(** * SymLog: logs, expected events and storage accesses of a path

    Models [SymbolicLog], [AccessRecord], [ExpectedEmit] and
    [SymbolicStorageHook] of runtime/state.rs: the events that a path records,
    the storage slots that it reads and writes while [vm.record] is on, the
    event that [vm.expectEmit] waits for, and the callbacks of storage hooks. *)

From Stdlib Require Import ZArith Lia Bool.
From stdpp Require Import base list option gmap sets sorting.
From S2P Require Import Prelude SymWord SymExpr SymSimpl SymSound SymCmp SymBytes SymSeq SymStorage SymMem SymPath SymWorld.
Local Open Scope Z_scope.
Local Open Scope outcome_scope.

Record SymbolicStorageHook := mkHook { callback_target : Address; callback_selector : list Z }.

Record SymbolicLog := mkLog {
  log_topics : list SymExpr;
  log_data_len : SymExpr;
  log_data : SymBytes;
  log_emitter : Address
}.

(** ** Storage accesses *)
Record AccessRecord := mkAccessRecord {
  record_reads : gmap Address (list SymExpr);
  record_writes : gmap Address (list SymExpr)
}.

Module SRecord.
Definition push_unique_slot (slots : list SymExpr) (slot : SymExpr) : list SymExpr :=
  if existsb (fun existing => expr_eqb existing slot) slots then slots else slots ++ [slot].

Definition read_slots (r : AccessRecord) (a : Address) : list SymExpr := default [] (record_reads r !! a).
Definition write_slots (r : AccessRecord) (a : Address) : list SymExpr := default [] (record_writes r !! a).

Definition read (a : Address) (slot : SymExpr) (r : AccessRecord) : AccessRecord :=
  mkAccessRecord (<[a := push_unique_slot (read_slots r a) slot]> (record_reads r)) (record_writes r).

Definition write (a : Address) (slot : SymExpr) (r : AccessRecord) : AccessRecord :=
  let r := read a slot r in
  mkAccessRecord (record_reads r) (<[a := push_unique_slot (write_slots r a) slot]> (record_writes r)).

Definition addresses (r : AccessRecord) : list Address :=
  merge_sort Z.le (elements (dom (record_reads r) ∪ dom (record_writes r) : gset Address)).

(** Every slot is listed once, and every written slot as read. *)
Definition consistent (r : AccessRecord) : Prop :=
  forall a, NoDup (read_slots r a) /\ NoDup (write_slots r a) /\ write_slots r a ⊆ read_slots r a.

Lemma push_unique_elem slots slot x : x ∈ push_unique_slot slots slot <-> x ∈ slots \/ x = slot.
Proof.
  unfold push_unique_slot. destruct (existsb _ _) eqn:E; [|set_solver].
  apply existsb_exists in E as (y & Hy%list_elem_of_In & ->%expr_eqb_eq). naive_solver.
Qed.

Lemma push_unique_nodup slots slot : NoDup slots -> NoDup (push_unique_slot slots slot).
Proof.
  intros H. unfold push_unique_slot. destruct (existsb _ _) eqn:E; [done|]. apply NoDup_app. split_and!; [done| |apply NoDup_singleton].
  intros x Hx ->%list_elem_of_singleton. apply not_true_iff_false in E. apply E, existsb_exists. exists slot.
  split; [by apply list_elem_of_In|by apply expr_eqb_eq].
Qed.

Lemma read_slots_read a b slot r :
  read_slots (read a slot r) b = if decide (a = b) then push_unique_slot (read_slots r a) slot else read_slots r b.
Proof. unfold read_slots at 1, read. simpl. destruct (decide (a = b)) as [->|]; [by rewrite lookup_insert_eq|by rewrite lookup_insert_ne]. Qed.

Lemma write_slots_read a b slot r : write_slots (read a slot r) b = write_slots r b.
Proof. done. Qed.

Lemma read_consistent a slot r : consistent r -> consistent (read a slot r).
Proof.
  intros H b. rewrite read_slots_read, write_slots_read. destruct (H b) as (H1 & H2 & H3). destruct (decide (a = b)) as [->|]; [|done].
  split_and!; [by apply push_unique_nodup|done|]. intros x Hx. apply push_unique_elem. left. by apply H3.
Qed.

Lemma write_slots_write a b slot r :
  write_slots (write a slot r) b = if decide (a = b) then push_unique_slot (write_slots r a) slot else write_slots r b.
Proof.
  unfold write_slots at 1, write. simpl. destruct (decide (a = b)) as [->|]; [by rewrite lookup_insert_eq|by rewrite lookup_insert_ne].
Qed.

Lemma write_consistent a slot r : consistent r -> consistent (write a slot r).
Proof.
  intros H b. rewrite write_slots_write. change (read_slots (write a slot r) b) with (read_slots (read a slot r) b).
  destruct (read_consistent a slot r H b) as (H1 & H2 & H3). rewrite write_slots_read in H2, H3. split; [done|].
  destruct (decide (a = b)) as [->|]; [|done]. split; [by apply push_unique_nodup|]. intros x [Hx| ->]%push_unique_elem; [by apply H3|].
  rewrite read_slots_read, decide_True by done. apply push_unique_elem. by right.
Qed.
End SRecord.

(** ** Expected events *)
Record ExpectedEmitChecks := mkChecks { check_topics : list bool; check_data : bool }.

Record ExpectedEmit := mkExpectedEmit {
  emit_checks : ExpectedEmitChecks;
  emit_emitter : option SymExpr;
  emit_remaining : Z;
  emit_template : option SymbolicLog
}.

Module SEmit.
Section Ops.
Context `{SA : SignedArith, HF : HashFns}.
Import SBytes.

Definition default_checks : ExpectedEmitChecks := mkChecks [true; true; true; true] true.

Definition new_emit (checks : ExpectedEmitChecks) (emitter : option SymExpr) (remaining : Z) : ExpectedEmit :=
  mkExpectedEmit checks emitter (Z.max remaining 1) None.

Definition is_satisfied (e : ExpectedEmit) : bool :=
  match emit_template e with None => emit_remaining e =? 0 | Some _ => false end.

Definition set_template (log : SymbolicLog) (e : ExpectedEmit) : ExpectedEmit :=
  mkExpectedEmit (emit_checks e) (emit_emitter e) (emit_remaining e) (Some log).

Definition consume_one (e : ExpectedEmit) : ExpectedEmit :=
  let remaining := Z.max 0 (emit_remaining e - 1) in
  mkExpectedEmit (emit_checks e) (emit_emitter e) remaining (if remaining =? 0 then None else emit_template e).

(** The conditions of the checked topics; [None] when one log has more. *)
Fixpoint topic_conditions (checks : list bool) (template actual : list SymExpr) : option (list SymBoolExpr) :=
  match checks with
  | [] => Some []
  | check :: checks =>
      let rest := topic_conditions checks (tail template) (tail actual) in
      if check then
        match head template, head actual with
        | Some l, Some r => cs ← rest; Some (eq_exprs l r :: cs)
        | None, None => rest
        | _, _ => None
        end
      else rest
  end.

Definition data_conditions (template actual : SymbolicLog) : option (list SymBoolExpr) :=
  if len (log_data template) =? len (log_data actual) then
    Some (eq_exprs (log_data_len template) (log_data_len actual) ::
          map (fun i => eq_exprs (byte (log_data template) i) (byte (log_data actual) i)) (range (len (log_data template))))
  else None.

Definition match_condition (e : ExpectedEmit) (template actual : SymbolicLog) : Outcome (option SymBoolExpr) :=
  let* emitter := match emit_emitter e with
                  | Some expected => let* c := address_match_condition expected (address_word (log_emitter actual)) in Ret [c]
                  | None => Ret []
                  end in
  Ret (topics ← topic_conditions (check_topics (emit_checks e)) (log_topics template) (log_topics actual);
       data ← (if check_data (emit_checks e) then data_conditions template actual else Some []);
       Some (SBool.and (emitter ++ topics ++ data))).
End Ops.
End SEmit.
