(* ===== verification/SymExpect.v ===== *)
(** * SymExpect: pranks, mocks and expectations of calls

    Models what a path keeps for the calls that it will make (runtime/state.rs):
    the caller that [vm.prank] puts in place ([SymbolicPrank]), the revert, calls
    and creates that the test expects ([ExpectedRevert], [AssumeNoRevert],
    [ExpectedCall], [ExpectedCreate]) and the calls that it mocks ([CallMock],
    [FunctionMock]).  [CallState] groups these fields of [PathState]; what only
    cheatcodes use is the type [Rest] of [Parts]. *)

From Stdlib Require Import ZArith Lia Bool.
From stdpp Require Import base list option gmap sets strings.
From S2P Require Import Prelude SymWord SymExpr SymSimpl SymSound SymCmp SymBytes SymSeq SymStorage SymMem SymPath SymWorld SymLog.
Local Open Scope Z_scope.
Local Open Scope outcome_scope.

Definition u64_max : Z := 2 ^ 64 - 1.
(** The gas that a call with value adds (EVM). *)
Definition CALL_STIPEND : Z := 2300.

Inductive CallKind := KCall | KCallCode | KDelegateCall | KStaticCall.
Inductive CreateKind := KCreate | KCreate2.

#[export] Instance CallKind_eq_dec : EqDecision CallKind.
Proof. solve_decision. Defined.
#[export] Instance CreateKind_eq_dec : EqDecision CreateKind.
Proof. solve_decision. Defined.

(** ** Data *)
Inductive ExpectedRevertData :=
  | RevertAny
  | RevertPrefix (prefix : SymBytes)
  | RevertExact (data : SymBytes).

Record ExpectedRevert := mkExpectedRevert {
  revert_data : ExpectedRevertData;
  revert_reverter : option SymExpr;
  revert_remaining : Z
}.

Inductive AssumeNoRevert :=
  | AssumeAny
  | AssumeFiltered (filters : list ExpectedRevert).

Record ExpectedCall := mkExpectedCall {
  ec_callee : SymExpr;
  ec_value : option U256;
  ec_gas : option Z;
  ec_min_gas : option Z;
  ec_data : SymBytes;
  ec_expected : Z;
  ec_observed : Z;
  ec_exact : bool
}.

Record ExpectedCreate := mkExpectedCreate {
  create_bytecode : list Z;
  create_deployer : SymExpr;
  create_kind : CreateKind
}.

Record CallMock := mkCallMock {
  cm_callee : SymExpr;
  cm_value : option U256;
  cm_data : SymBytes;
  cm_returns : list SymReturnData;
  cm_reverts : bool;
  cm_calls : Z
}.

Record FunctionMock := mkFunctionMock { fm_callee : SymExpr; fm_target : Address; fm_data : SymBytes }.

Record SymbolicPrank := mkPrank {
  next_caller : option (Address * SymExpr);
  next_origin : option (Address * SymExpr);
  persistent_caller : option (Address * SymExpr);
  persistent_origin : option (Address * SymExpr)
}.

(** The fields of [PathState] that calls use. *)
Record CallState `{Parts} := mkCallState {
  origin : Address;
  prank : SymbolicPrank;
  invariant_predicate : bool;
  expected_revert : option ExpectedRevert;
  assume_no_revert_next_call : option AssumeNoRevert;
  expected_calls : list ExpectedCall;
  expected_creates : list ExpectedCreate;
  call_mocks : list CallMock;
  function_mocks : list FunctionMock;
  cheats : Rest
}.

Module SExpect.
Section Ops.
Context `{SA : SignedArith, HF : HashFns}.
Import SBytes.

(** The condition that an optional address word is an address. *)
Definition optional_address (expected : option SymExpr) (a : Address) : Outcome (list SymBoolExpr) :=
  match expected with
  | Some e => let* c := address_match_condition e (address_word a) in Ret [c]
  | None => Ret []
  end.

Definition byte_matches (return_data : SymReturnData) (expected : SymBytes) : list SymBoolExpr :=
  map (fun offset => eq_exprs (SReturnData.byte return_data offset) (byte expected offset)) (range (len expected)).

(** ** Expected reverts *)
Definition new_revert (data : ExpectedRevertData) (reverter : option SymExpr) (remaining : Z) : ExpectedRevert :=
  mkExpectedRevert data reverter (Z.max remaining 1).

(** Whether the last expected revert was consumed, with the rest. *)
Definition consume_revert (e : ExpectedRevert) : bool * ExpectedRevert :=
  let remaining := Z.max 0 (revert_remaining e - 1) in
  (remaining =? 0, mkExpectedRevert (revert_data e) (revert_reverter e) remaining).

Definition data_condition (data : ExpectedRevertData) (return_data : SymReturnData) : option (list SymBoolExpr) :=
  match data with
  | RevertAny => Some []
  | RevertPrefix prefix =>
      if SReturnData.len return_data <? len prefix then None
      else Some (cmp Uge (len_word return_data) (constant (U (len prefix))) :: byte_matches return_data prefix)
  | RevertExact bytes =>
      if SReturnData.len return_data <? len bytes then None
      else Some (eq_exprs (len_word return_data) (constant (U (len bytes))) :: byte_matches return_data bytes)
  end.

Definition revert_condition (e : ExpectedRevert) (reverter : Address) (return_data : SymReturnData) : Outcome (option SymBoolExpr) :=
  let* address := optional_address (revert_reverter e) reverter in
  Ret (data ← data_condition (revert_data e) return_data; Some (SBool.and (address ++ data))).

(** ** Expected creates *)
Definition create_condition (e : ExpectedCreate) (deployer : Address) (kind : CreateKind) (bytecode : list Z)
    : Outcome (option SymBoolExpr) :=
  if bool_decide (create_kind e = kind /\ create_bytecode e = bytecode)
  then let* c := address_match_condition (create_deployer e) (address_word deployer) in Ret (Some c)
  else Ret None.

(** ** Expected calls *)
Definition nonzero_value (value : option U256) : bool := match value with Some v => negb (is_zero v) | None => false end.

Definition new_call (callee : SymExpr) (value : option U256) (gas min_gas : option Z) (data : SymBytes) (count : option Z)
    : ExpectedCall :=
  let stipend g := Z.min u64_max (g + CALL_STIPEND) in
  mkExpectedCall callee value
    (if nonzero_value value then stipend <$> gas else gas) (if nonzero_value value then stipend <$> min_gas else min_gas)
    data (default 1 count) 0 (bool_decide (is_Some count)).

(** A value that is asked for must be the known value of the call. *)
Definition value_matches (expected value : option U256) : bool :=
  match expected with
  | None => true
  | Some e => match value with Some v => u_eqb e v | None => false end
  end.

Definition gas_matches (e : ExpectedCall) (gas : SymExpr) (value : option U256) : bool + SymbolicError :=
  match ec_gas e, ec_min_gas e with
  | None, None => inl true
  | exact, minimum =>
      match as_const gas with
      | None => inr (Unsupported "symbolic expected call gas")
      | Some g =>
          let g := if nonzero_value value then Z.min (word_modulus - 1) (uval g + CALL_STIPEND) else uval g in
          inl (match exact with Some x => g =? x | None => true end && match minimum with Some x => x <=? g | None => true end)
      end
  end.

Definition callee_and_data (callee : SymExpr) (data : SymBytes) (to : Address) (calldata : SymBytes) : Outcome (option SymBoolExpr) :=
  let* condition := prefix_condition calldata data in
  match condition with
  | None => Ret None
  | Some data_condition =>
      let* callee_condition := address_match_condition callee (address_word to) in
      Ret (Some (SBool.and [callee_condition; data_condition]))
  end.

Definition call_condition (e : ExpectedCall) (callee : Address) (value : option U256) (gas : SymExpr) (calldata : SymBytes)
    : Outcome (option SymBoolExpr + SymbolicError) :=
  if negb (value_matches (ec_value e) value) then Ret (inl None)
  else
    match gas_matches e gas value with
    | inr err => Ret (inr err)
    | inl false => Ret (inl None)
    | inl true => let* c := callee_and_data (ec_callee e) (ec_data e) callee calldata in Ret (inl c)
    end.

(** Whether the call is still allowed, with the count. *)
Definition observe (e : ExpectedCall) : bool * ExpectedCall :=
  if ec_exact e && (ec_expected e <=? ec_observed e) then (false, e)
  else (true, mkExpectedCall (ec_callee e) (ec_value e) (ec_gas e) (ec_min_gas e) (ec_data e) (ec_expected e)
                (Z.min u64_max (ec_observed e + 1)) (ec_exact e)).

Definition call_satisfied (e : ExpectedCall) : bool :=
  if ec_exact e then ec_observed e =? ec_expected e else ec_expected e <=? ec_observed e.

(** [expected += 1] overflows with a panic. *)
Fixpoint register_expected_call (calls : list ExpectedCall) (expected : ExpectedCall) : Outcome (list ExpectedCall + string) :=
  match calls with
  | [] => Ret (inl [expected])
  | call :: calls =>
      if expr_eqb (ec_callee call) (ec_callee expected) && same_bytes (ec_data call) (ec_data expected) then
        if ec_exact expected then Ret (inr "counted expected calls can only bet set once"%string)
        else if ec_exact call then Ret (inr "cannot overwrite a counted expectCall with a non-counted expectCall"%string)
        else if u64_max <=? ec_expected call then Panic
        else Ret (inl (mkExpectedCall (ec_callee call) (ec_value call) (ec_gas call) (ec_min_gas call) (ec_data call)
                         (ec_expected call + 1) (ec_observed call) (ec_exact call) :: calls))
      else
        let* r := register_expected_call calls expected in
        Ret (match r with inl calls => inl (call :: calls) | inr e => inr e end)
  end.

(** ** Mocks *)
Definition new_mock (callee : SymExpr) (value : option U256) (data : SymBytes) (returns : list SymReturnData) (reverts : bool)
    : CallMock := mkCallMock callee value data returns reverts 0.

Definition specificity (m : CallMock) : Z * bool := (len (cm_data m), bool_decide (is_Some (cm_value m))).

Definition mock_condition (m : CallMock) (callee : Address) (value : option U256) (calldata : SymBytes)
    : Outcome (option SymBoolExpr) :=
  if negb (value_matches (cm_value m) value) then Ret None
  else callee_and_data (cm_callee m) (cm_data m) callee calldata.

(** The answer of the next call, and the mock behind it. *)
Definition next_outcome (m : CallMock) : (SymReturnData * bool) * CallMock :=
  let idx := Z.min (cm_calls m) (Z.max 0 (zlen (cm_returns m) - 1)) in
  ((default SReturnData.empty (at_z (cm_returns m) idx), cm_reverts m),
   mkCallMock (cm_callee m) (cm_value m) (cm_data m) (cm_returns m) (cm_reverts m) (Z.min usize_max (cm_calls m + 1))).

Definition function_condition (m : FunctionMock) (callee : Address) (calldata : SymBytes) : Outcome (option SymBoolExpr) :=
  callee_and_data (fm_callee m) (fm_data m) callee calldata.

Definition calldata_len (m : FunctionMock) : Z := len (fm_data m).

Definition matches_definition (m : FunctionMock) (callee : SymExpr) (data : SymBytes) : bool :=
  expr_eqb (fm_callee m) callee && same_bytes (fm_data m) data.

Definition set_target (target : Address) (m : FunctionMock) : FunctionMock := mkFunctionMock (fm_callee m) target (fm_data m).

(** ** Pranks *)
Definition default_prank : SymbolicPrank := mkPrank None None None None.

Definition set_next (caller : Address * SymExpr) (origin : option (Address * SymExpr)) (p : SymbolicPrank) : SymbolicPrank :=
  mkPrank (Some caller) origin (persistent_caller p) (persistent_origin p).

Definition set_persistent (caller : Address * SymExpr) (origin : option (Address * SymExpr)) (p : SymbolicPrank) : SymbolicPrank :=
  mkPrank (next_caller p) (next_origin p) (Some caller) origin.

Definition has_active (p : SymbolicPrank) : bool :=
  bool_decide (is_Some (next_caller p)) || bool_decide (is_Some (next_origin p)) ||
  bool_decide (is_Some (persistent_caller p)) || bool_decide (is_Some (persistent_origin p)).
End Ops.

(** ** The fields of a path *)
Section State.
Context `{P : Parts}.

Definition set_prank (p : SymbolicPrank) (c : CallState) : CallState :=
  mkCallState _ (origin c) p (invariant_predicate c) (expected_revert c) (assume_no_revert_next_call c) (expected_calls c)
    (expected_creates c) (call_mocks c) (function_mocks c) (cheats c).
Definition set_origin (a : Address) (c : CallState) : CallState :=
  mkCallState _ a (prank c) (invariant_predicate c) (expected_revert c) (assume_no_revert_next_call c) (expected_calls c)
    (expected_creates c) (call_mocks c) (function_mocks c) (cheats c).
Definition set_expected_revert (e : option ExpectedRevert) (c : CallState) : CallState :=
  mkCallState _ (origin c) (prank c) (invariant_predicate c) e (assume_no_revert_next_call c) (expected_calls c)
    (expected_creates c) (call_mocks c) (function_mocks c) (cheats c).
Definition set_assume_no_revert (a : option AssumeNoRevert) (c : CallState) : CallState :=
  mkCallState _ (origin c) (prank c) (invariant_predicate c) (expected_revert c) a (expected_calls c)
    (expected_creates c) (call_mocks c) (function_mocks c) (cheats c).
Definition set_expected_calls (l : list ExpectedCall) (c : CallState) : CallState :=
  mkCallState _ (origin c) (prank c) (invariant_predicate c) (expected_revert c) (assume_no_revert_next_call c) l
    (expected_creates c) (call_mocks c) (function_mocks c) (cheats c).
Definition set_expected_creates (l : list ExpectedCreate) (c : CallState) : CallState :=
  mkCallState _ (origin c) (prank c) (invariant_predicate c) (expected_revert c) (assume_no_revert_next_call c)
    (expected_calls c) l (call_mocks c) (function_mocks c) (cheats c).
Definition set_call_mocks (l : list CallMock) (c : CallState) : CallState :=
  mkCallState _ (origin c) (prank c) (invariant_predicate c) (expected_revert c) (assume_no_revert_next_call c)
    (expected_calls c) (expected_creates c) l (function_mocks c) (cheats c).
Definition set_function_mocks (l : list FunctionMock) (c : CallState) : CallState :=
  mkCallState _ (origin c) (prank c) (invariant_predicate c) (expected_revert c) (assume_no_revert_next_call c)
    (expected_calls c) (expected_creates c) (call_mocks c) l (cheats c).

(** What a call starts with: no prank, no expected revert. *)
Definition child_calls (c : CallState) : CallState :=
  set_assume_no_revert None (set_expected_revert None (set_prank default_prank c)).

(** A hook starts without any expectation or mock. *)
Definition hook_calls (c : CallState) : CallState :=
  set_function_mocks [] (set_call_mocks [] (set_expected_creates [] (set_expected_calls [] (child_calls c)))).

(** The part of [expectations_satisfied] about calls. *)
Definition calls_satisfied (c : CallState) : bool :=
  bool_decide (expected_revert c = None) && forallb call_satisfied (expected_calls c) && bool_decide (expected_creates c = []).
End State.
End SExpect.
