(* ===== verification/SymExec.v ===== *)
(** * SymExec: the step function of the symbolic executor

    Models the execution of one opcode on a path (executor/opcodes.rs), with the
    memory guards, the resolution of jumps and the branches it puts on the
    worklist, the solver queries that prune them (executor/constraints.rs,
    calls.rs, run.rs) and the path state (runtime/state.rs, control.rs).

    The solver process, the clock and revm's jump tables are parameters:
    [SolverEnv] is what the executor asks the solver, [Parts] what the
    unmodelled components keep in a path.  The opcodes that need accounts
    (calls, creates, storage, logs, balances, code of other accounts) are behind
    the interface [Handlers], which SymAccount implements. *)

From Stdlib Require Import ZArith Lia Bool.
From stdpp Require Import base list option gmap sets strings.
From S2P Require Import Prelude SymWord SymExpr SymSimpl SymSound SymCmp SymBytes SymSeq SymStorage SymMem SymPath SymWorld SymLog SymExpect.
Local Open Scope Z_scope.

(** ** Parameters and data *)
Inductive StepOutcome := Continue | Forked | Halt | Revert | ExceptionalHalt | Failure | AssumeRejected.

Inductive SymbolicExplorationOrder := Bfs | Dfs.
Inductive BranchFeasibility := FeasibleSat | FeasibleUnsat | NeedsSolver.
Inductive DeferredPathMode := Skip | Yield | Drain.
Inductive DeferredIncomplete :=
  | DeferredUnsupported (reason : string)
  | DeferredSolverUnknown
  | DeferredHardArithmetic.

(** The part of [SymbolicConfig] that execution reads. *)
Record SymbolicConfig := mkConfig {
  timeout : option Z;
  loop_bound : option Z;
  depth_alias : option Z;
  width_alias : option Z;
  max_depth : Z;
  max_paths : Z;
  exploration_order : SymbolicExplorationOrder;
  max_calldata_bytes : Z;
  allow_symbolic_targets : bool        (* symbolic_call_targets *)
}.

Definition execution_depth (c : SymbolicConfig) : Z := default (max_depth c) (depth_alias c).
Definition path_width (c : SymbolicConfig) : Z := default (max_paths c) (width_alias c).

Record SymbolicBranchTarget := mkTarget {
  target_address : Address;
  target_pc : Z;
  target_opcode : Z;
  target_result : bool
}.

Definition target_matches (t : SymbolicBranchTarget) (address : Address) (pc op : Z) : bool :=
  (target_address t =? address) && (target_pc t =? pc) && (target_opcode t =? op).

#[export] Instance branch_target_eq_dec : EqDecision SymbolicBranchTarget.
Proof. solve_decision. Defined.

(** What the executor asks the solver process and the clock. *)
Class SolverEnv := {
  Env : Type;
  is_sat_with_replayable_storage : list SymBoolExpr -> list Symbol -> Env -> (bool + SymbolicError) * Env;
  branch_feasibility : list SymBoolExpr -> list Symbol -> Env -> (BranchFeasibility + SymbolicError) * Env;
  now : Env -> Z * Env
}.

Record CallFrame := mkFrame {
  pc : Z;
  address : Address;
  address_word : SymExpr;
  storage_address : Address;
  caller : Address;
  caller_word : SymExpr;
  callvalue : SymExpr;
  is_static : bool;
  calldata : SymCalldata;
  stack : SStack.SymStack;
  memory : SymMemory;
  return_data : SymReturnData
}.

Section State.
Context `{P : Parts}.

Record PathState := mkPath {
  depth : Z;
  call_depth : Z;
  origin_word : SymExpr;
  gas_price : SymExpr;
  block : SymbolicBlock;
  frame : CallFrame;
  world : SymbolicWorld;
  calls : CallState;
  constraints : list SymBoolExpr;
  next_symbol : Z;
  recorded_logs : option (list SymbolicLog);
  access_record : option AccessRecord;
  corpus_seed_models : list SymbolicModel;
  branch_target : option SymbolicBranchTarget;
  branch_target_reached : bool;
  needs_feasibility_check : bool;
  loop_jumps : gmap Z Z;
  expected_emit : option ExpectedEmit;
  storage_load_hooks : gmap Address SymbolicStorageHook;
  storage_store_hooks : gmap Address SymbolicStorageHook;
  mapping_storage_store_hooks : list ((Address * U256) * SymbolicStorageHook);
  mapping_hook_keccak_preimages : list ((Address * SymExpr) * list SymExpr);
  storage_hook_active : bool;
  pending_storage_hook_revert : bool
}.

Definition with_frame (f : CallFrame -> CallFrame) (st : PathState) : PathState :=
  mkPath (depth st) (call_depth st) (origin_word st) (gas_price st) (block st) (f (frame st)) (world st)
    (calls st) (constraints st) (next_symbol st) (recorded_logs st) (access_record st) (corpus_seed_models st)
    (branch_target st) (branch_target_reached st) (needs_feasibility_check st) (loop_jumps st) (expected_emit st)
    (storage_load_hooks st) (storage_store_hooks st) (mapping_storage_store_hooks st)
    (mapping_hook_keccak_preimages st) (storage_hook_active st) (pending_storage_hook_revert st).

Definition set_pc (n : Z) : PathState -> PathState := with_frame (fun f =>
  mkFrame n (address f) (address_word f) (storage_address f) (caller f) (caller_word f) (callvalue f) (is_static f) (calldata f)
    (stack f) (memory f) (return_data f)).
Definition set_stack (s : SStack.SymStack) : PathState -> PathState := with_frame (fun f =>
  mkFrame (pc f) (address f) (address_word f) (storage_address f) (caller f) (caller_word f) (callvalue f) (is_static f) (calldata f)
    s (memory f) (return_data f)).
Definition set_memory (m : SymMemory) : PathState -> PathState := with_frame (fun f =>
  mkFrame (pc f) (address f) (address_word f) (storage_address f) (caller f) (caller_word f) (callvalue f) (is_static f) (calldata f)
    (stack f) m (return_data f)).
Definition set_return_data (r : SymReturnData) : PathState -> PathState := with_frame (fun f =>
  mkFrame (pc f) (address f) (address_word f) (storage_address f) (caller f) (caller_word f) (callvalue f) (is_static f) (calldata f)
    (stack f) (memory f) r).

Definition set_depth (n : Z) (st : PathState) : PathState :=
  mkPath n (call_depth st) (origin_word st) (gas_price st) (block st) (frame st) (world st) (calls st)
    (constraints st) (next_symbol st) (recorded_logs st) (access_record st) (corpus_seed_models st)
    (branch_target st) (branch_target_reached st) (needs_feasibility_check st) (loop_jumps st) (expected_emit st)
    (storage_load_hooks st) (storage_store_hooks st) (mapping_storage_store_hooks st)
    (mapping_hook_keccak_preimages st) (storage_hook_active st) (pending_storage_hook_revert st).
Definition set_block (n : SymbolicBlock) (st : PathState) : PathState :=
  mkPath (depth st) (call_depth st) (origin_word st) (gas_price st) n (frame st) (world st) (calls st)
    (constraints st) (next_symbol st) (recorded_logs st) (access_record st) (corpus_seed_models st)
    (branch_target st) (branch_target_reached st) (needs_feasibility_check st) (loop_jumps st) (expected_emit st)
    (storage_load_hooks st) (storage_store_hooks st) (mapping_storage_store_hooks st)
    (mapping_hook_keccak_preimages st) (storage_hook_active st) (pending_storage_hook_revert st).
Definition set_world (n : SymbolicWorld) (st : PathState) : PathState :=
  mkPath (depth st) (call_depth st) (origin_word st) (gas_price st) (block st) (frame st) n (calls st)
    (constraints st) (next_symbol st) (recorded_logs st) (access_record st) (corpus_seed_models st)
    (branch_target st) (branch_target_reached st) (needs_feasibility_check st) (loop_jumps st) (expected_emit st)
    (storage_load_hooks st) (storage_store_hooks st) (mapping_storage_store_hooks st)
    (mapping_hook_keccak_preimages st) (storage_hook_active st) (pending_storage_hook_revert st).
Definition set_constraints (cs : list SymBoolExpr) (st : PathState) : PathState :=
  mkPath (depth st) (call_depth st) (origin_word st) (gas_price st) (block st) (frame st) (world st) (calls st) cs
    (next_symbol st) (recorded_logs st) (access_record st) (corpus_seed_models st) (branch_target st)
    (branch_target_reached st) (needs_feasibility_check st) (loop_jumps st) (expected_emit st)
    (storage_load_hooks st) (storage_store_hooks st) (mapping_storage_store_hooks st)
    (mapping_hook_keccak_preimages st) (storage_hook_active st) (pending_storage_hook_revert st).
Definition set_next_symbol (n : Z) (st : PathState) : PathState :=
  mkPath (depth st) (call_depth st) (origin_word st) (gas_price st) (block st) (frame st) (world st) (calls st)
    (constraints st) n (recorded_logs st) (access_record st) (corpus_seed_models st) (branch_target st)
    (branch_target_reached st) (needs_feasibility_check st) (loop_jumps st) (expected_emit st)
    (storage_load_hooks st) (storage_store_hooks st) (mapping_storage_store_hooks st)
    (mapping_hook_keccak_preimages st) (storage_hook_active st) (pending_storage_hook_revert st).
Definition set_recorded_logs (l : option (list SymbolicLog)) (st : PathState) : PathState :=
  mkPath (depth st) (call_depth st) (origin_word st) (gas_price st) (block st) (frame st) (world st) (calls st)
    (constraints st) (next_symbol st) l (access_record st) (corpus_seed_models st) (branch_target st)
    (branch_target_reached st) (needs_feasibility_check st) (loop_jumps st) (expected_emit st)
    (storage_load_hooks st) (storage_store_hooks st) (mapping_storage_store_hooks st)
    (mapping_hook_keccak_preimages st) (storage_hook_active st) (pending_storage_hook_revert st).
Definition set_access_record (r : option AccessRecord) (st : PathState) : PathState :=
  mkPath (depth st) (call_depth st) (origin_word st) (gas_price st) (block st) (frame st) (world st) (calls st)
    (constraints st) (next_symbol st) (recorded_logs st) r (corpus_seed_models st) (branch_target st)
    (branch_target_reached st) (needs_feasibility_check st) (loop_jumps st) (expected_emit st)
    (storage_load_hooks st) (storage_store_hooks st) (mapping_storage_store_hooks st)
    (mapping_hook_keccak_preimages st) (storage_hook_active st) (pending_storage_hook_revert st).
Definition set_corpus_seed_models (ms : list SymbolicModel) (st : PathState) : PathState :=
  mkPath (depth st) (call_depth st) (origin_word st) (gas_price st) (block st) (frame st) (world st) (calls st)
    (constraints st) (next_symbol st) (recorded_logs st) (access_record st) ms (branch_target st)
    (branch_target_reached st) (needs_feasibility_check st) (loop_jumps st) (expected_emit st)
    (storage_load_hooks st) (storage_store_hooks st) (mapping_storage_store_hooks st)
    (mapping_hook_keccak_preimages st) (storage_hook_active st) (pending_storage_hook_revert st).
Definition set_feasibility_check (b : bool) (st : PathState) : PathState :=
  mkPath (depth st) (call_depth st) (origin_word st) (gas_price st) (block st) (frame st) (world st) (calls st)
    (constraints st) (next_symbol st) (recorded_logs st) (access_record st) (corpus_seed_models st)
    (branch_target st) (branch_target_reached st) b (loop_jumps st) (expected_emit st) (storage_load_hooks st)
    (storage_store_hooks st) (mapping_storage_store_hooks st) (mapping_hook_keccak_preimages st)
    (storage_hook_active st) (pending_storage_hook_revert st).
Definition set_loop_jumps (l : gmap Z Z) (st : PathState) : PathState :=
  mkPath (depth st) (call_depth st) (origin_word st) (gas_price st) (block st) (frame st) (world st) (calls st)
    (constraints st) (next_symbol st) (recorded_logs st) (access_record st) (corpus_seed_models st)
    (branch_target st) (branch_target_reached st) (needs_feasibility_check st) l (expected_emit st)
    (storage_load_hooks st) (storage_store_hooks st) (mapping_storage_store_hooks st)
    (mapping_hook_keccak_preimages st) (storage_hook_active st) (pending_storage_hook_revert st).
Definition set_expected_emit (e : option ExpectedEmit) (st : PathState) : PathState :=
  mkPath (depth st) (call_depth st) (origin_word st) (gas_price st) (block st) (frame st) (world st) (calls st)
    (constraints st) (next_symbol st) (recorded_logs st) (access_record st) (corpus_seed_models st)
    (branch_target st) (branch_target_reached st) (needs_feasibility_check st) (loop_jumps st) e
    (storage_load_hooks st) (storage_store_hooks st) (mapping_storage_store_hooks st)
    (mapping_hook_keccak_preimages st) (storage_hook_active st) (pending_storage_hook_revert st).
Definition set_preimages (l : list ((Address * SymExpr) * list SymExpr)) (st : PathState) : PathState :=
  mkPath (depth st) (call_depth st) (origin_word st) (gas_price st) (block st) (frame st) (world st) (calls st)
    (constraints st) (next_symbol st) (recorded_logs st) (access_record st) (corpus_seed_models st)
    (branch_target st) (branch_target_reached st) (needs_feasibility_check st) (loop_jumps st) (expected_emit st)
    (storage_load_hooks st) (storage_store_hooks st) (mapping_storage_store_hooks st) l (storage_hook_active st)
    (pending_storage_hook_revert st).
Definition set_hook_active (b : bool) (st : PathState) : PathState :=
  mkPath (depth st) (call_depth st) (origin_word st) (gas_price st) (block st) (frame st) (world st) (calls st)
    (constraints st) (next_symbol st) (recorded_logs st) (access_record st) (corpus_seed_models st)
    (branch_target st) (branch_target_reached st) (needs_feasibility_check st) (loop_jumps st) (expected_emit st)
    (storage_load_hooks st) (storage_store_hooks st) (mapping_storage_store_hooks st)
    (mapping_hook_keccak_preimages st) b (pending_storage_hook_revert st).
Definition set_pending_revert (b : bool) (st : PathState) : PathState :=
  mkPath (depth st) (call_depth st) (origin_word st) (gas_price st) (block st) (frame st) (world st) (calls st)
    (constraints st) (next_symbol st) (recorded_logs st) (access_record st) (corpus_seed_models st)
    (branch_target st) (branch_target_reached st) (needs_feasibility_check st) (loop_jumps st) (expected_emit st)
    (storage_load_hooks st) (storage_store_hooks st) (mapping_storage_store_hooks st)
    (mapping_hook_keccak_preimages st) (storage_hook_active st) b.
Definition mark_branch_target_reached (st : PathState) : PathState :=
  mkPath (depth st) (call_depth st) (origin_word st) (gas_price st) (block st) (frame st) (world st) (calls st)
    (constraints st) (next_symbol st) (recorded_logs st) (access_record st) (corpus_seed_models st)
    (branch_target st) true (needs_feasibility_check st) (loop_jumps st) (expected_emit st)
    (storage_load_hooks st) (storage_store_hooks st) (mapping_storage_store_hooks st)
    (mapping_hook_keccak_preimages st) (storage_hook_active st) (pending_storage_hook_revert st).
Definition set_call_depth (n : Z) (st : PathState) : PathState :=
  mkPath (depth st) n (origin_word st) (gas_price st) (block st) (frame st) (world st) (calls st) (constraints st)
    (next_symbol st) (recorded_logs st) (access_record st) (corpus_seed_models st) (branch_target st)
    (branch_target_reached st) (needs_feasibility_check st) (loop_jumps st) (expected_emit st)
    (storage_load_hooks st) (storage_store_hooks st) (mapping_storage_store_hooks st)
    (mapping_hook_keccak_preimages st) (storage_hook_active st) (pending_storage_hook_revert st).
Definition set_calls (r : CallState) (st : PathState) : PathState :=
  mkPath (depth st) (call_depth st) (origin_word st) (gas_price st) (block st) (frame st) (world st) r
    (constraints st) (next_symbol st) (recorded_logs st) (access_record st) (corpus_seed_models st)
    (branch_target st) (branch_target_reached st) (needs_feasibility_check st) (loop_jumps st) (expected_emit st)
    (storage_load_hooks st) (storage_store_hooks st) (mapping_storage_store_hooks st)
    (mapping_hook_keccak_preimages st) (storage_hook_active st) (pending_storage_hook_revert st).
Definition set_origin_word (e : SymExpr) (st : PathState) : PathState :=
  mkPath (depth st) (call_depth st) e (gas_price st) (block st) (frame st) (world st) (calls st)
    (constraints st) (next_symbol st) (recorded_logs st) (access_record st) (corpus_seed_models st)
    (branch_target st) (branch_target_reached st) (needs_feasibility_check st) (loop_jumps st) (expected_emit st)
    (storage_load_hooks st) (storage_store_hooks st) (mapping_storage_store_hooks st)
    (mapping_hook_keccak_preimages st) (storage_hook_active st) (pending_storage_hook_revert st).
Definition set_branch_target (t : option SymbolicBranchTarget) (st : PathState) : PathState :=
  mkPath (depth st) (call_depth st) (origin_word st) (gas_price st) (block st) (frame st) (world st) (calls st)
    (constraints st) (next_symbol st) (recorded_logs st) (access_record st) (corpus_seed_models st) t false
    (needs_feasibility_check st) (loop_jumps st) (expected_emit st) (storage_load_hooks st)
    (storage_store_hooks st) (mapping_storage_store_hooks st) (mapping_hook_keccak_preimages st)
    (storage_hook_active st) (pending_storage_hook_revert st).
Definition set_hooks (load store : gmap Address SymbolicStorageHook) (mapping : list ((Address * U256) * SymbolicStorageHook))
    (st : PathState) : PathState :=
  mkPath (depth st) (call_depth st) (origin_word st) (gas_price st) (block st) (frame st) (world st) (calls st)
    (constraints st) (next_symbol st) (recorded_logs st) (access_record st) (corpus_seed_models st)
    (branch_target st) (branch_target_reached st) (needs_feasibility_check st) (loop_jumps st) (expected_emit st)
    load store mapping (mapping_hook_keccak_preimages st) (storage_hook_active st)
    (pending_storage_hook_revert st).

Definition expectations_satisfied (st : PathState) : bool :=
  match expected_emit st with None => true | Some e => SEmit.is_satisfied e end && SExpect.calls_satisfied (calls st).

Definition defer_feasibility_check (st : PathState) : PathState := set_feasibility_check true st.

Definition satisfies_branch_target (st : PathState) : bool :=
  match branch_target st with None => true | Some _ => branch_target_reached st end.
End State.

(** ** The executor *)

(** The mutable state of the executor and the counter of completed paths. *)
Record Exec `{SolverEnv} := mkExec {
  ex_env : Env;
  deferred_incomplete : option DeferredIncomplete;
  deadline : option Z;
  completed_paths : Z;
  nested_deferred_mode : DeferredPathMode;
  stateless_retry_safe : bool;
  cx_preimages : Preimages
}.

(** A computation of the executor: it may panic, fail, and it keeps the changes
    of the executor when it fails. *)
Definition ExecM `{SolverEnv} (A : Type) := Exec -> Outcome ((A + SymbolicError) * Exec).

Section Monad.
Context `{S : SolverEnv}.

Definition xret {A} (a : A) : ExecM A := fun ex => Ret (inl a, ex).
Definition xerr {A} (e : SymbolicError) : ExecM A := fun ex => Ret (inr e, ex).
Definition xbind {A B} (c : ExecM A) (k : A -> ExecM B) : ExecM B := fun ex =>
  match c ex with
  | Panic => Panic
  | Ret (inr e, ex) => Ret (inr e, ex)
  | Ret (inl a, ex) => k a ex
  end.
Definition lift {A} (o : Outcome A) : ExecM A := fun ex => obind o (fun a => Ret (inl a, ex)).
Definition of_result {A} (r : A + SymbolicError) : ExecM A := fun ex => Ret (r, ex).
Definition with_env (env : Env) (ex : Exec) : Exec :=
  mkExec _ env (deferred_incomplete ex) (deadline ex) (completed_paths ex) (nested_deferred_mode ex) (stateless_retry_safe ex)
    (cx_preimages ex).
Definition on_env {A} (f : Env -> (A + SymbolicError) * Env) : ExecM A := fun ex =>
  let '(r, env) := f (ex_env ex) in Ret (r, with_env env ex).
Definition set_deferred (d : option DeferredIncomplete) : ExecM unit := fun ex =>
  Ret (inl tt, mkExec _ (ex_env ex) d (deadline ex) (completed_paths ex) (nested_deferred_mode ex) (stateless_retry_safe ex)
    (cx_preimages ex)).
Definition set_deadline (d : option Z) : ExecM unit := fun ex =>
  Ret (inl tt, mkExec _ (ex_env ex) (deferred_incomplete ex) d (completed_paths ex) (nested_deferred_mode ex)
    (stateless_retry_safe ex) (cx_preimages ex)).
Definition set_completed (n : Z) : ExecM unit := fun ex =>
  Ret (inl tt, mkExec _ (ex_env ex) (deferred_incomplete ex) (deadline ex) n (nested_deferred_mode ex)
    (stateless_retry_safe ex) (cx_preimages ex)).
Definition set_nested_mode (m : DeferredPathMode) : ExecM unit := fun ex =>
  Ret (inl tt, mkExec _ (ex_env ex) (deferred_incomplete ex) (deadline ex) (completed_paths ex) m (stateless_retry_safe ex)
    (cx_preimages ex)).
Definition set_retry_safe (b : bool) : ExecM unit := fun ex =>
  Ret (inl tt, mkExec _ (ex_env ex) (deferred_incomplete ex) (deadline ex) (completed_paths ex) (nested_deferred_mode ex) b
    (cx_preimages ex)).
(** A computation that records hashes in the context. *)
Definition with_cx (pre : Preimages) (ex : Exec) : Exec :=
  mkExec _ (ex_env ex) (deferred_incomplete ex) (deadline ex) (completed_paths ex) (nested_deferred_mode ex)
    (stateless_retry_safe ex) pre.
Definition with_preimages {A} (f : Preimages -> Outcome (A * Preimages)) : ExecM A := fun ex =>
  obind (f (cx_preimages ex)) (fun '(a, pre) => Ret (inl a, with_cx pre ex)).
(** The error as a value, for a caller that handles some of them. *)
Definition xtry {A} (c : ExecM A) : ExecM (A + SymbolicError) := fun ex =>
  match c ex with Panic => Panic | Ret (r, ex) => Ret (inl r, ex) end.
Definition get {A} (f : Exec -> A) : ExecM A := fun ex => Ret (inl (f ex), ex).
End Monad.

Declare Scope exec_scope.
Delimit Scope exec_scope with exec.
Notation "'let+' x := c 'in' k" := (xbind c (fun x => k))
  (at level 200, x pattern, c at level 100, k at level 200) : exec_scope.
Local Open Scope exec_scope.

(** ** Opcodes

    The opcodes by the way [step] treats them; the byte values are the EVM's. *)
Inductive Opcode :=
  | OpStop
  | OpBin (op : SymBinOp)             (* ADD SUB MUL AND OR XOR *)
  | OpExp
  | OpDiv (op : SymBinOp)             (* DIV SDIV MOD SMOD *)
  | OpTern (op : SymTernOp)           (* ADDMOD MULMOD *)
  | OpCmp (op : SymCmpOp)             (* LT GT SLT SGT *)
  | OpEq
  | OpIsZero
  | OpNot
  | OpSignExtend
  | OpByte
  | OpShift (op : SymBinOp)           (* SHL SHR SAR *)
  | OpKeccak
  | OpAddress | OpCaller | OpOrigin | OpCallValue
  | OpCallDataLoad | OpCallDataSize | OpCallDataCopy
  | OpCodeSize | OpCodeCopy
  | OpReturnDataSize | OpReturnDataCopy
  | OpPop | OpMLoad | OpMStore | OpMStore8
  | OpJump | OpJumpI | OpPc | OpMSize | OpGas | OpJumpDest | OpMCopy
  | OpReturn (is_revert : bool)
  | OpInvalid
  | OpPush (n : Z)                    (* PUSH0 .. PUSH32 *)
  | OpDup (n : Z)
  | OpSwap (n : Z)
  | OpChainId | OpBaseFee | OpGasPrice | OpBlobHash | OpCoinbase | OpTimestamp | OpNumber
  | OpDifficulty | OpGasLimit | OpBlobBaseFee
  | OpAccount                         (* opcodes that need accounts, storage or logs *)
  | OpUnknown.

Definition decode (op : Z) : Opcode :=
  if (95 <=? op) && (op <=? 127) then OpPush (op - 95)
  else if (128 <=? op) && (op <=? 143) then OpDup (op - 127)
  else if (144 <=? op) && (op <=? 159) then OpSwap (op - 143)
  else if (160 <=? op) && (op <=? 164) then OpAccount (* LOG0 .. LOG4 *)
  else match op with
  | 0 => OpStop
  | 1 => OpBin Add | 2 => OpBin Mul | 3 => OpBin Sub
  | 4 => OpDiv UDiv | 5 => OpDiv SDiv | 6 => OpDiv URem | 7 => OpDiv SRem
  | 8 => OpTern AddMod | 9 => OpTern MulMod | 10 => OpExp | 11 => OpSignExtend
  | 16 => OpCmp Ult | 17 => OpCmp Ugt | 18 => OpCmp Slt | 19 => OpCmp Sgt
  | 20 => OpEq | 21 => OpIsZero | 22 => OpBin And | 23 => OpBin Or | 24 => OpBin Xor
  | 25 => OpNot | 26 => OpByte | 27 => OpShift Shl | 28 => OpShift Shr | 29 => OpShift Sar
  | 32 => OpKeccak
  | 48 => OpAddress | 49 => OpAccount (* BALANCE *) | 50 => OpOrigin | 51 => OpCaller | 52 => OpCallValue
  | 53 => OpCallDataLoad | 54 => OpCallDataSize | 55 => OpCallDataCopy | 56 => OpCodeSize | 57 => OpCodeCopy
  | 58 => OpGasPrice | 59 => OpAccount (* EXTCODESIZE *) | 60 => OpAccount (* EXTCODECOPY *)
  | 61 => OpReturnDataSize | 62 => OpReturnDataCopy | 63 => OpAccount (* EXTCODEHASH *)
  | 64 => OpAccount (* BLOCKHASH *) | 65 => OpCoinbase | 66 => OpTimestamp | 67 => OpNumber | 68 => OpDifficulty
  | 69 => OpGasLimit | 70 => OpChainId | 71 => OpAccount (* SELFBALANCE *) | 72 => OpBaseFee | 73 => OpBlobHash
  | 74 => OpBlobBaseFee
  | 80 => OpPop | 81 => OpMLoad | 82 => OpMStore | 83 => OpMStore8
  | 84 => OpAccount (* SLOAD *) | 85 => OpAccount (* SSTORE *) | 86 => OpJump | 87 => OpJumpI | 88 => OpPc
  | 89 => OpMSize | 90 => OpGas | 91 => OpJumpDest | 92 => OpAccount (* TLOAD *) | 93 => OpAccount (* TSTORE *)
  | 94 => OpMCopy
  | 240 => OpAccount (* CREATE *) | 241 => OpAccount (* CALL *) | 242 => OpAccount (* CALLCODE *)
  | 243 => OpReturn false | 244 => OpAccount (* DELEGATECALL *) | 245 => OpAccount (* CREATE2 *)
  | 250 => OpAccount (* STATICCALL *) | 253 => OpReturn true | 254 => OpInvalid | 255 => OpAccount (* SELFDESTRUCT *)
  | _ => OpUnknown
  end.

Definition opcode_activation (op : Z) : Z :=
  match op with
  | 244 => HOMESTEAD
  | 61 | 62 | 250 | 253 => BYZANTIUM
  | 27 | 28 | 29 | 63 | 245 => PETERSBURG
  | 70 | 71 => ISTANBUL
  | 72 => LONDON
  | 95 => SHANGHAI
  | 92 | 93 | 94 | 73 | 74 => CANCUN
  | _ => FRONTIER
  end.

(** What the concrete executor fixes for a run. *)
Record ExecutorEnv := mkExecutorEnv { memory_limit : Z; spec_id : Z }.

Module SExec.
Section Ops.
Context `{SA : SignedArith, HF : HashFns, P : Parts, SE : SolverEnv}.
Variable config : SymbolicConfig.
Variable executor : ExecutorEnv.
Import SStack SMemory SPath.

(** *** Incomplete results and solver queries (run.rs) *)
Definition may_replace (d : option DeferredIncomplete) : bool :=
  match d with None | Some DeferredHardArithmetic => true | _ => false end.

Definition defer_incomplete (reason : string) : ExecM unit :=
  let+ d := get deferred_incomplete in
  if may_replace d then set_deferred (Some (DeferredUnsupported reason)) else xret tt.

Definition defer_solver_unknown : ExecM unit :=
  let+ d := get deferred_incomplete in
  if may_replace d then set_deferred (Some DeferredSolverUnknown) else xret tt.

Definition defer_hard_arithmetic : ExecM unit :=
  let+ d := get deferred_incomplete in
  match d with None => set_deferred (Some DeferredHardArithmetic) | Some _ => xret tt end.

Definition check_timeout : ExecM unit :=
  let+ d := get deadline in
  match d with
  | None => xret tt
  | Some deadline =>
      let+ t := on_env (fun env => let '(t, env) := now env in (inl t, env)) in
      if deadline <=? t then xerr (Timeout (default 0 (timeout config))) else xret tt
  end.

Definition is_sat_with_state (st : PathState) (cs : list SymBoolExpr) : ExecM bool :=
  on_env (is_sat_with_replayable_storage cs (SWorld.replay_storage_symbols (world st))).

Definition branch_is_sat_or_defer (st : PathState) (cs : list SymBoolExpr) : ExecM bool := fun ex =>
  match is_sat_with_state st cs ex with
  | Ret (inr SolverUnknown, ex) => xbind defer_solver_unknown (fun _ => xret false) ex
  | r => r
  end.

(** calls.rs *)
Definition constraints_with_condition (st : PathState) (condition : SymBoolExpr) : ExecM (list SymBoolExpr * bool) :=
  match SBool.as_const condition with
  | Some b => xret (constraints st, b)
  | None =>
      let cs := constraints st ++ [condition] in
      let+ sat := is_sat_with_state st cs in xret (cs, sat)
  end.

Definition take_loop_jump (st : PathState) (source_pc dest : Z) : bool * PathState :=
  match loop_bound config with
  | None => (true, st)
  | Some bound =>
      if source_pc <=? dest then (true, st)
      else
        let count := default 0 (loop_jumps st !! dest) in
        if bound <=? count then (false, set_loop_jumps (<[dest := count]> (loop_jumps st)) st)
        else (true, set_loop_jumps (<[dest := count + 1]> (loop_jumps st)) st)
  end.

(** The binary search of [solver_upper_bound_usize] (constraints.rs). *)
Fixpoint bound_search (fuel : nat) (st : PathState) (e : SymExpr) (low high : Z) : ExecM Z :=
  match fuel with
  | O => xret low
  | S fuel =>
      if low <? high then
        let mid := low + (high - low) / 2 in
        let+ sat := is_sat_with_state st (constraints st ++ [cmp_word_const Ugt e (U mid)]) in
        if (sat : bool) then bound_search fuel st e (mid + 1) high else bound_search fuel st e low mid
      else xret low
  end.

Definition solver_upper_bound_usize (st : PathState) (e : SymExpr) (max : Z) (reason : string) : ExecM Z :=
  match (b ← SPath.upper_bound_usize (constraints st) e; if b <=? max then Some b else None) with
  | Some bound => xret bound
  | None =>
      let+ above := is_sat_with_state st (constraints st ++ [cmp_word_const Ugt e (U max)]) in
      if (above : bool) then xerr (Unsupported reason)
      else bound_search (Z.to_nat max) st e 0 max
  end.

(** *** Corpus seeds (state.rs, bool.rs) *)
Definition eval_model_if_complete (c : SymBoolExpr) (model : SymbolicModel) : option bool + SymbolicError :=
  if forallb (fun s => match model s with Some _ => true | None => false end) (beval_vars c)
  then match eval_model_bool model c with inl b => inl (Some b) | inr e => inr e end
  else inl None.

Definition split_corpus_seed_models (st : PathState) (condition : SymBoolExpr) : list SymbolicModel * list SymbolicModel :=
  fold_left (fun '(t, f) model =>
    match eval_model_if_complete condition model with
    | inl (Some true) => (t ++ [model], f)
    | inl (Some false) => (t, f ++ [model])
    | _ => (t ++ [model], f ++ [model])
    end) (corpus_seed_models st) ([], []).

(** *** Memory guards (opcodes.rs)

    A guard either lets the opcode go on (no outcome) on the state it returns,
    or ends the step with an outcome and the states it queued. *)
Definition Guard := (option StepOutcome * PathState * list PathState)%type.
Definition StepResult := (StepOutcome * PathState * list PathState)%type.

Definition clear_return (st : PathState) : PathState := set_return_data SReturnData.empty st.

Definition apply_memory_access_guard (st : PathState) (valid_access : SymBoolExpr) : ExecM Guard :=
  let+ (valid_constraints, valid_sat) := constraints_with_condition st valid_access in
  let+ (invalid_constraints, invalid_sat) := constraints_with_condition st (SBool.not_bool valid_access) in
  xret (match valid_sat, invalid_sat with
        | true, true =>
            let '(valid_seeds, invalid_seeds) := split_corpus_seed_models st valid_access in
            let valid := set_corpus_seed_models valid_seeds (set_constraints valid_constraints
              (set_depth (Z.max 0 (depth st - 1)) (set_pc (Z.max 0 (pc (frame st) - 1)) st))) in
            (Some Revert, clear_return (set_corpus_seed_models invalid_seeds (set_constraints invalid_constraints st)), [valid])
        | true, false => (None, set_constraints valid_constraints st, [])
        | false, true => (Some Revert, clear_return (set_constraints invalid_constraints st), [])
        | false, false => (Some AssumeRejected, st, [])
        end).

(** The expanded size [offset + size + 31 & !31] as the host computes it. *)
Definition expanded_size (offset size : Z) : option Z :=
  end_ ← checked_add offset size; end_ ← checked_add end_ 31; Some (align_down end_).

Definition size_allowed (o : option Z) : bool :=
  match o with Some size => size <=? memory_limit executor | None => false end.

Definition guard_fixed_memory_access (st : PathState) (offset : SymExpr) (size : Z) : ExecM Guard :=
  let host_max_offset := checked_sub (align_down usize_max) size in
  let too_large := match constrained_usize_checked (constraints st) offset with
                   | Some (inl o) => match host_max_offset with Some m => m <? o | None => true end
                   | Some (inr _) => true
                   | None => false
                   end in
  if too_large then xret (Some Revert, clear_return st, [])
  else if size_allowed (o ← SPath.upper_bound_usize (constraints st) offset; expanded_size o size)
  then xret (None, st, [])
  else
    let representable := match host_max_offset with
                         | Some m => cmp Ule offset (constant (U m))
                         | None => SBool.constant false
                         end in
    let local_size := size_after_range_expansion_word (memory (frame st)) offset (constant (U size)) in
    match as_const local_size with
    | Some v => if uval v <=? memory_limit executor then xret (None, st, [])
                else xret (Some Revert, clear_return st, [])
    | None =>
        let within_limit := cmp Ule local_size (constant (U (memory_limit executor))) in
        apply_memory_access_guard st (SBool.and [representable; within_limit])
    end.

Definition expand_guarded (offset size : SymExpr) (st : PathState) : PathState :=
  set_memory (expand_range (memory (frame st)) offset size) st.

(** The condition that a symbolic range is empty or lies in the host's address
    space and within the limit. *)
Definition valid_range (m : SymMemory) (offset size : SymExpr) : SymBoolExpr :=
  let zero_size := eq_word_const size ZERO in
  let host_max := constant (U (align_down usize_max)) in
  let size_fits := cmp Ule size host_max in
  let max_offset := binop Sub host_max size in
  let offset_fits := cmp Ule offset max_offset in
  let local_size := size_after_range_expansion_word m offset size in
  let local_fits := cmp Ule local_size (constant (U (memory_limit executor))) in
  let nonzero_valid := SBool.and [size_fits; offset_fits; local_fits] in
  SBool.or [zero_size; nonzero_valid].

Definition guard_symbolic_range (st : PathState) (offset size : SymExpr) : ExecM Guard :=
  if size_allowed (o ← SPath.upper_bound_usize (constraints st) offset;
                   n ← SPath.upper_bound_usize (constraints st) size; expanded_size o n)
  then xret (None, expand_guarded offset size st, [])
  else
    let+ (outcome, st, pushed) := apply_memory_access_guard st (valid_range (memory (frame st)) offset size) in
    match outcome with
    | None => xret (None, expand_guarded offset size st, pushed)
    | Some _ => xret (outcome, st, pushed)
    end.

Definition guard_memory_range (st : PathState) (offset size : SymExpr) : ExecM Guard :=
  match as_const offset, as_const size with
  | Some o, Some n =>
      if is_zero n || size_allowed (o ← to_usize o; n ← to_usize n; expanded_size o n)
      then xret (None, expand_guarded offset size st, [])
      else xret (Some Revert, clear_return st, [])
  | _, _ => guard_symbolic_range st offset size
  end.

Definition gas_not_modeled : SymbolicError := Unsupported "GAS/gasleft() not modeled".

Definition guard_returndata_copy_range (st : PathState) (offset size : SymExpr) : ExecM Guard :=
  if contains_gasleft offset || contains_gasleft size then xerr gas_not_modeled
  else
    let return_data_len := len_word (return_data (frame st)) in
    let offset_in_bounds := cmp Ule offset return_data_len in
    let remaining := binop Sub return_data_len offset in
    let size_in_bounds := cmp Ule size remaining in
    apply_memory_access_guard st (SBool.and [offset_in_bounds; size_in_bounds]).

(** The opcode goes on behind a guard. *)
Definition guarded (g : ExecM Guard) (k : PathState -> ExecM StepResult) : ExecM StepResult :=
  let+ (outcome, st, pushed) := g in
  match outcome with Some o => xret (o, st, pushed) | None => k st end.

(** *** Comparisons *)
Definition bool_word (c : SymBoolExpr) : SymExpr := ite c one zero.

Definition apply_branch_target_constraint (st : PathState) (op_pc op : Z) (condition : SymBoolExpr)
    : ExecM (bool * PathState) :=
  match branch_target st with
  | None => xret (true, st)
  | Some target =>
      if satisfies_branch_target st then xret (true, st)
      else if negb (target_matches target (address (frame st)) op_pc op) then xret (true, st)
      else
        let desired := if target_result target then SBool.not_bool condition else condition in
        let cs := constraints st ++ [desired] in
        let+ sat := branch_is_sat_or_defer st cs in
        if (sat : bool) then xret (true, mark_branch_target_reached (set_constraints cs st)) else xret (false, st)
  end.

(** Pushing a value and going on. *)
Definition push_value (st : PathState) (value : SymExpr) : ExecM StepResult :=
  let+ s := of_result (push STACK_LIMIT (stack (frame st)) value) in xret (Continue, set_stack s st, []).

Definition push_comparison_result (st : PathState) (op_pc op : Z) (condition : SymBoolExpr) : ExecM StepResult :=
  let+ (reached, st) := apply_branch_target_constraint st op_pc op condition in
  if (reached : bool) then push_value st (bool_word condition) else xret (AssumeRejected, st, []).

Definition pop_value (st : PathState) : ExecM (SymExpr * PathState) :=
  let+ (v, s) := of_result (pop (stack (frame st))) in xret (v, set_stack s st).

Definition peek_value (st : PathState) (n : Z) : ExecM SymExpr := of_result (peek (stack (frame st)) n).

(** *** Hashes *)
Definition has_mapping_hook (st : PathState) : bool :=
  existsb (fun '((a, _), _) => a =? storage_address (frame st)) (mapping_storage_store_hooks st).

Definition preimage_key_eqb (a b : Address * SymExpr) : bool := (fst a =? fst b) && expr_eqb (snd a) (snd b).

(** [entry(key).or_insert_with(bytes)]. *)
Definition record_preimage (st : PathState) (hash : SymExpr) (bytes : list SymExpr) : PathState :=
  let key := (storage_address (frame st), hash) in
  match assoc preimage_key_eqb key (mapping_hook_keccak_preimages st) with
  | Some _ => st
  | None => set_preimages ((key, bytes) :: mapping_hook_keccak_preimages st) st
  end.

(** The size operand of a memory opcode on this path. *)
Definition sized_operand {A} (st : PathState) (size : SymExpr) (max_limit : Z) (reason : string)
    (exact : Z -> ExecM A) (too_large : ExecM A) (bounded : Z -> ExecM A) : ExecM A :=
  match constrained_usize_checked (constraints st) size with
  | Some (inl n) => exact n
  | Some (inr _) => too_large
  | None => let+ max_size := solver_upper_bound_usize st size max_limit reason in bounded max_size
  end.

Definition revert_here (st : PathState) : ExecM StepResult := xret (Revert, st, []).
Definition store_memory (st : PathState) (m : Outcome SymMemory) : ExecM StepResult :=
  let+ m := lift m in xret (Continue, set_memory m st, []).
Definition store_memory_result (st : PathState) (m : Outcome (SymMemory + SymbolicError)) : ExecM StepResult :=
  let+ r := lift m in let+ m := of_result r in xret (Continue, set_memory m st, []).

Definition keccak_op (st : PathState) : ExecM StepResult :=
  let+ offset := peek_value st 0 in
  let+ size := peek_value st 1 in
  guarded (guard_memory_range st offset size) (fun st =>
    let+ (offset, st) := pop_value st in
    let+ (size, st) := pop_value st in
    match constrained_usize_checked (constraints st) size with
    | Some (inl n) =>
        let+ bytes := lift (read_byte_exprs_offset (memory (frame st)) offset n) in
        let+ hash := with_preimages (fun pre => SWorld.keccak_word pre bytes) in
        let st := if has_mapping_hook st && negb (storage_hook_active st) && (n =? 64)
                  then record_preimage st hash bytes else st in
        push_value st hash
    | Some (inr _) => revert_here st
    | None =>
        let+ _ := (if has_mapping_hook st && negb (storage_hook_active st) then
                     let+ (_, feasible) := constraints_with_condition st (eq_exprs size (constant (U 64))) in
                     if (feasible : bool) then defer_incomplete "symbolic KECCAK256 size may conceal mapping provenance"
                     else xret tt
                   else xret tt) in
        let+ max_size := solver_upper_bound_usize st size (max_calldata_bytes config) "symbolic SHA3 size" in
        let+ bytes := lift (read_byte_exprs_symbolic_size (memory (frame st)) offset size max_size) in
        let+ hash := with_preimages (fun pre => SWorld.keccak_word_with_len pre bytes size) in
        push_value st hash
    end).

(** *** Copies *)
Definition calldatacopy_op (st : PathState) : ExecM StepResult :=
  let+ dest := peek_value st 0 in
  let+ size := peek_value st 2 in
  guarded (guard_memory_range st dest size) (fun st =>
    let+ (dest, st) := pop_value st in
    let+ (offset, st) := pop_value st in
    let+ (size, st) := pop_value st in
    sized_operand st size (max_calldata_bytes config) "symbolic CALLDATACOPY size"
      (fun n => if n =? 0 then xret (Continue, st, [])
                else store_memory st (SCopy.copy_calldata_to_offset (memory (frame st)) dest offset n (calldata (frame st))))
      (revert_here st)
      (fun m => if m =? 0 then xret (Continue, st, [])
                else store_memory st
                  (SCopy.copy_calldata_symbolic_size (memory (frame st)) dest offset size m (calldata (frame st))))).

Definition codecopy_op (code : @SymCode JumpTable) (st : PathState) : ExecM StepResult :=
  let+ dest := peek_value st 0 in
  let+ size := peek_value st 2 in
  guarded (guard_memory_range st dest size) (fun st =>
    let+ (dest, st) := pop_value st in
    let+ (offset, st) := pop_value st in
    let+ (size, st) := pop_value st in
    sized_operand st size (max_calldata_bytes config) "symbolic CODECOPY size"
      (fun n => let+ bytes := lift (code_read_bytes_offset code offset n) in
                xret (Continue, set_memory (store_bytes_offset (memory (frame st)) dest bytes) st, []))
      (revert_here st)
      (fun m => if m =? 0 then xret (Continue, st, [])
                else let+ bytes := lift (code_read_bytes_offset code offset m) in
                     store_memory st (SCopy.copy_bytes_size_offset (memory (frame st)) dest size bytes))).

Definition returndatacopy_op (st : PathState) : ExecM StepResult :=
  let+ dest := peek_value st 0 in
  let+ offset := peek_value st 1 in
  let+ size := peek_value st 2 in
  guarded (guard_memory_range st dest size) (fun st =>
  guarded (guard_returndata_copy_range st offset size) (fun st =>
    let+ (dest, st) := pop_value st in
    let+ (offset, st) := pop_value st in
    let+ (size, st) := pop_value st in
    let available := match constrained_usize (constraints st) offset with
                     | Some o => Z.max 0 (SReturnData.len (return_data (frame st)) - o)
                     | None => SReturnData.len (return_data (frame st))
                     end in
    sized_operand st size (Z.min available (max_calldata_bytes config)) "symbolic RETURNDATACOPY size"
      (fun n => store_memory_result st
         (SCopy.copy_return_data_to_offset (memory (frame st)) dest offset n (return_data (frame st))))
      (revert_here st)
      (fun m => store_memory_result st
         (SCopy.copy_return_data_symbolic_size (memory (frame st)) dest offset size m (return_data (frame st)))))).

Definition mcopy_op (st : PathState) : ExecM StepResult :=
  let+ dest := peek_value st 0 in
  let+ src := peek_value st 1 in
  let+ size := peek_value st 2 in
  guarded (guard_memory_range st dest size) (fun st =>
  guarded (guard_memory_range st src size) (fun st =>
    let+ (dest, st) := pop_value st in
    let+ (src, st) := pop_value st in
    let+ (size, st) := pop_value st in
    sized_operand st size (max_calldata_bytes config) "symbolic MCOPY size"
      (fun n => store_memory st (SCopy.copy_memory_to_offset (memory (frame st)) dest src n))
      (revert_here st)
      (fun m => if m =? 0 then xret (Continue, st, [])
                else store_memory st (SCopy.copy_memory_symbolic_size (memory (frame st)) dest src size m)))).

(** *** Words in memory *)
Definition mload_op (st : PathState) : ExecM StepResult :=
  let+ offset := peek_value st 0 in
  guarded (guard_fixed_memory_access st offset 32) (fun st =>
    let+ (offset, st) := pop_value st in
    let+ (value, m) := lift (load_word_offset (memory (frame st)) offset) in
    push_value (set_memory m st) value).

Definition mstore_op (st : PathState) : ExecM StepResult :=
  let+ offset := peek_value st 0 in
  guarded (guard_fixed_memory_access st offset 32) (fun st =>
    let+ (offset, st) := pop_value st in
    let+ (value, st) := pop_value st in
    let minimum := lower_bound_usize (constraints st) offset in
    xret (Continue, set_memory (store_word_offset (memory (frame st)) offset value minimum) st, [])).

Definition mstore8_op (st : PathState) : ExecM StepResult :=
  let+ offset := peek_value st 0 in
  guarded (guard_fixed_memory_access st offset 1) (fun st =>
    let+ (offset, st) := pop_value st in
    let+ (value, st) := pop_value st in
    let minimum := lower_bound_usize (constraints st) offset in
    store_memory st (store_byte_offset (memory (frame st)) offset value minimum)).

(** *** Jumps *)
Definition resolve_jump_destination (st : PathState) (table : JumpTable) (dest : SymExpr) (unsupported : string)
    : option Z + SymbolicError :=
  match expect_constrained_word (constraints st) dest unsupported with
  | inr e => inr e
  | inl d => inl (d ← to_usize d; if is_valid table d then Some d else None)
  end.

Definition exceptional_halt (st : PathState) : ExecM StepResult := xret (ExceptionalHalt, clear_return st, []).

Definition jump_op (table : JumpTable) (st : PathState) : ExecM StepResult :=
  let+ (dest, st) := pop_value st in
  let+ dest := of_result (resolve_jump_destination st table dest "symbolic JUMP destination") in
  match dest with
  | None => exceptional_halt st
  | Some dest =>
      let '(taken, st) := take_loop_jump st (pc (frame st)) dest in
      if (taken : bool) then xret (Continue, set_pc dest st, []) else xret (AssumeRejected, st, [])
  end.

Definition branch_invalid_jumpi (st : PathState) (taken : SymBoolExpr) : ExecM StepResult :=
  let+ (taken_constraints, taken_sat) := constraints_with_condition st taken in
  let not_taken := SBool.not_bool taken in
  let '(taken_seeds, not_taken_seeds) := split_corpus_seed_models st taken in
  if negb taken_sat then
    xret (Continue, set_corpus_seed_models not_taken_seeds (set_constraints (constraints st ++ [not_taken]) st), [])
  else
    let+ (not_taken_constraints, not_taken_sat) := constraints_with_condition st not_taken in
    let pushed := if (not_taken_sat : bool)
                  then [set_corpus_seed_models not_taken_seeds (set_constraints not_taken_constraints st)] else [] in
    xret (ExceptionalHalt,
          clear_return (set_corpus_seed_models taken_seeds (set_constraints taken_constraints st)), pushed).

(** The order in which the two sides of a branch are queued. *)
Definition branch_order (true_state false_state : PathState) : list PathState :=
  let t := zlen (corpus_seed_models true_state) in
  let f := zlen (corpus_seed_models false_state) in
  match Z.compare f t, exploration_order config with
  | Gt, Bfs | Lt, Dfs => [false_state; true_state]
  | Gt, Dfs | Lt, Bfs | Datatypes.Eq, _ => [true_state; false_state]
  end.

Definition jumpi_op (table : JumpTable) (st : PathState) : ExecM StepResult :=
  let+ (dest, st) := pop_value st in
  let+ (cond, st) := pop_value st in
  match option_map (fun v => negb (is_zero v)) (as_const cond) with
  | Some true =>
      let+ dest := of_result (resolve_jump_destination st table dest "symbolic JUMPI destination") in
      match dest with
      | None => exceptional_halt st
      | Some dest =>
          let '(taken, st) := take_loop_jump st (pc (frame st)) dest in
          if (taken : bool) then xret (Continue, set_pc dest st, []) else xret (AssumeRejected, st, [])
      end
  | Some false => xret (Continue, st, [])
  | None =>
      let true_cond := nonzero_bool cond in
      match resolve_jump_destination st table dest "symbolic JUMPI destination" with
      | inl None => branch_invalid_jumpi st true_cond
      | inr err =>
          let+ (_, taken_sat) := constraints_with_condition st true_cond in
          if (taken_sat : bool) then xerr err
          else
            let '(_, not_taken_seeds) := split_corpus_seed_models st true_cond in
            xret (Continue, set_corpus_seed_models not_taken_seeds
                    (set_constraints (constraints st ++ [SBool.not_bool true_cond]) st), [])
      | inl (Some dest) =>
          let false_cond := SBool.not_bool true_cond in
          let fallthrough := pc (frame st) in
          let '(true_seeds, false_seeds) := split_corpus_seed_models st true_cond in
          let true_state := set_pc dest (set_corpus_seed_models true_seeds
                              (set_constraints (constraints st ++ [true_cond]) st)) in
          let false_state := set_pc fallthrough (set_corpus_seed_models false_seeds
                               (set_constraints (constraints st ++ [false_cond]) st)) in
          let '(true_pending, true_state) := take_loop_jump true_state fallthrough dest in
          let false_state := defer_feasibility_check false_state in
          xret (Forked, st,
            if (true_pending : bool) then branch_order (defer_feasibility_check true_state) false_state
            else [false_state])
      end
  end.

(** *** Return *)
Definition classify_revert (st : PathState) (offset : SymExpr) (size : Z) : Outcome StepOutcome :=
  if call_depth st =? 0 then
    match (o ← as_const offset; to_usize o) with
    | Some o => obind (read_concrete (memory (frame st)) o size) (fun data =>
        match data with
        | Some data => Ret (if is_assertion_revert data then Failure else Revert)
        | None => Ret Revert
        end)
    | None => Ret Revert
    end
  else Ret Revert.

Definition return_or_revert (st : PathState) (is_revert : bool) : ExecM StepResult :=
  let+ (offset, st) := pop_value st in
  let+ (size, st) := pop_value st in
  sized_operand st size (max_calldata_bytes config) (if is_revert then "symbolic REVERT size" else "symbolic RETURN size")
    (fun n =>
       let+ r := lift (SCopy.return_data (memory (frame st)) offset n) in
       let st := set_return_data r st in
       if is_revert then let+ o := lift (classify_revert st offset n) in xret (o, st, [])
       else xret (Halt, st, []))
    (revert_here st)
    (fun m =>
       let+ r := lift (SCopy.return_data_symbolic_size (memory (frame st)) offset size m) in
       xret (if is_revert then Revert else Halt, set_return_data r st, [])).

Definition return_op (st : PathState) (is_revert : bool) : ExecM StepResult :=
  let+ offset := peek_value st 0 in
  let+ size := peek_value st 1 in
  guarded (guard_memory_range st offset size) (fun st => return_or_revert st is_revert).

Definition fresh_gasleft (st : PathState) : SymExpr * PathState :=
  (EGasLeft (gas_symbol (next_symbol st)), set_next_symbol (next_symbol st + 1) st).
End Ops.
End SExec.

(** The handlers of the opcodes that need accounts, on a path, with the byte
    of the opcode. *)
Class Handlers `{SA : SignedArith, HF : HashFns, P : Parts, SE : SolverEnv} := {
  account_op : PathState -> Z -> ExecM SExec.StepResult
}.

Module SStep.
Section Step.
Context `{SA : SignedArith, HF : HashFns, P : Parts, SE : SolverEnv, HD : !Handlers}.
Variable config : SymbolicConfig.
Variable executor : ExecutorEnv.
Import SStack SMemory SPath SExec.

(** The handlers that only transform the stack. *)
Definition stack_op (st : PathState) (r : SymStack + SymbolicError) : ExecM StepResult :=
  let+ s := of_result r in xret (Continue, set_stack s st, []).

Definition block_value (st : PathState) (op : Opcode) : SymExpr :=
  match op with
  | OpAddress => address_word (frame st)
  | OpCaller => caller_word (frame st)
  | OpOrigin => origin_word st
  | OpCallValue => callvalue (frame st)
  | OpCallDataSize => SCalldata.size_word (calldata (frame st))
  | OpReturnDataSize => len_word (return_data (frame st))
  | OpMSize => SMemory.size_word (memory (frame st))
  | OpChainId => chain_id (block st)
  | OpBaseFee => basefee (block st)
  | OpGasPrice => gas_price st
  | OpCoinbase => constant (U (coinbase (block st)))
  | OpTimestamp => timestamp (block st)
  | OpNumber => number (block st)
  | OpDifficulty => difficulty (block st)
  | OpGasLimit => gaslimit (block st)
  | OpBlobBaseFee => blob_basefee (block st)
  | _ => zero
  end.

Definition push_op (code : @SymCode JumpTable) (st : PathState) (n : Z) : ExecM StepResult :=
  if n =? 0 then push_value st zero
  else
    let end_ := sat_add (pc (frame st)) n in
    if code_len code <? end_ then xerr (InvalidBytecode "truncated PUSH data")
    else
      let+ value := lift (push_data_word code (pc (frame st)) n) in
      push_value (set_pc end_ st) value.

Definition blobhash_op (st : PathState) : ExecM StepResult :=
  let+ (index, st) := pop_value st in
  let+ index := of_result (expect_constrained_usize (constraints st) index "symbolic BLOBHASH index") in
  push_value st (constant (default ZERO (at_z (blob_hashes (block st)) index))).

(** The body of [step] behind the check of the hard fork. *)
Definition dispatch (code : @SymCode JumpTable) (st : PathState) (op : Z) : ExecM StepResult :=
  let s := stack (frame st) in
  match decode op with
  | OpPush n => push_op code st n
  | OpDup n => let+ value := peek_value st (n - 1) in push_value st value
  | OpSwap n => stack_op st (swap s n)
  | OpStop => xret (Halt, st, [])
  | OpBin b => stack_op st (bin_word STACK_LIMIT b s)
  | OpExp => stack_op st (exp_word (constraints st) STACK_LIMIT s)
  | OpDiv b => stack_op st (bin_word_div_zero_guard STACK_LIMIT b s)
  | OpTern t =>
      let+ (a, st) := pop_value st in
      let+ (b, st) := pop_value st in
      let+ (n, st) := pop_value st in
      push_value st (ternop t a b n)
  | OpCmp c =>
      let+ (condition, s) := of_result (cmp_word_condition c s) in
      push_comparison_result (set_stack s st) (pc (frame st) - 1) op condition
  | OpEq =>
      let+ (a, st) := pop_value st in
      let+ (b, st) := pop_value st in
      push_comparison_result st (pc (frame st) - 1) op (eq_exprs b a)
  | OpIsZero =>
      let+ (value, st) := pop_value st in
      push_comparison_result st (pc (frame st) - 1) op (into_zero_bool value)
  | OpNot => let+ (value, st) := pop_value st in push_value st (sym_not value)
  | OpSignExtend =>
      let+ (byte_index, st) := pop_value st in
      let+ (value, st) := pop_value st in
      push_value st (signextend_word_dynamic byte_index value)
  | OpByte =>
      let+ (index, st) := pop_value st in
      let+ (word, st) := pop_value st in
      push_value st (byte_word_dynamic index word)
  | OpShift b => stack_op st (shift_word STACK_LIMIT b s)
  | OpKeccak => keccak_op config executor st
  | OpCallDataLoad =>
      let+ (offset, st) := pop_value st in
      let+ value := lift (SCalldata.load_word (calldata (frame st)) offset) in
      push_value st value
  | OpCallDataCopy => calldatacopy_op config executor st
  | OpCodeSize => push_value st (constant (U (code_len code)))
  | OpCodeCopy => codecopy_op config executor code st
  | OpReturnDataCopy => returndatacopy_op config executor st
  | OpPop => let+ (_, st) := pop_value st in xret (Continue, st, [])
  | OpMLoad => mload_op executor st
  | OpMStore => mstore_op executor st
  | OpMStore8 => mstore8_op executor st
  | OpJump => jump_op config (jump_table code) st
  | OpJumpI => jumpi_op config (jump_table code) st
  | OpPc => push_value st (constant (U (pc (frame st) - 1)))
  | OpGas => let '(gas, st) := fresh_gasleft st in push_value st gas
  | OpJumpDest => xret (Continue, st, [])
  | OpMCopy => mcopy_op config executor st
  | OpReturn is_revert => return_op config executor st is_revert
  | OpInvalid => xret (ExceptionalHalt, st, [])
  | OpBlobHash => blobhash_op st
  | OpAccount => account_op st op
  | OpUnknown => xerr (UnsupportedOpcode op)
  | (OpAddress | OpCaller | OpOrigin | OpCallValue | OpCallDataSize | OpReturnDataSize | OpMSize | OpChainId | OpBaseFee
    | OpGasPrice | OpCoinbase | OpTimestamp | OpNumber | OpDifficulty | OpGasLimit | OpBlobBaseFee) as o =>
      push_value st (block_value st o)
  end.

Definition step (code : @SymCode JumpTable) (st : PathState) (op : Z) : ExecM StepResult :=
  let st := set_pc (pc (frame st) + 1) st in
  if spec_id executor <? opcode_activation op then exceptional_halt st
  else dispatch code st op.
End Step.
End SStep.
