(* ===== verification/SymEvm.v ===== *)
(** * SymEvm: the concrete machine that symbolic execution stands for

    The reference semantics of one call frame: a machine with concrete words, a
    memory that maps addresses to bytes and a memory limit instead of gas, as
    the EVM specifies it for the opcodes that do not touch accounts.  GAS reads
    the next value of an oracle.  A memory access beyond the limit reverts with
    empty return data (the executor's view of running out of gas).

    [rep] relates a path of the symbolic executor under a model to a concrete
    frame; the simulation theorem is stated with it. *)

From Stdlib Require Import ZArith Lia Bool.
From stdpp Require Import base list option gmap sets strings.
From S2P Require Import Prelude SymWord SymExpr SymSimpl SymSound SymCmp SymBytes SymSeq SymMem SymMemSpec SymPath SymWorld SymLog SymExpect SymExec.
Local Open Scope Z_scope.

(** ** The machine *)

(** Bytes of a given length; [data_at] is zero past the end. *)
Record Data := mkData { data_len : Z; data_at : Z -> Z }.
Definition no_data : Data := mkData 0 (fun _ => 0).

(** What does not change in a frame. *)
Record EvmEnv := mkEvmEnv {
  env_code : Data;
  env_valid_jump : Z -> bool;
  env_calldata : Data;
  env_value : Opcode -> U256;       (* ADDRESS, CALLER, TIMESTAMP, ... *)
  env_blob_hash : Z -> U256;
  env_gas : Z -> U256;              (* the value that the n-th GAS sees *)
  env_memory_limit : Z;
  env_spec : Z
}.

Record EvmState := mkEvm {
  e_pc : Z;
  e_stack : list U256;              (* the top is the last element *)
  e_mem : Z -> Z;
  e_size : Z;
  e_gas : Z;                        (* how many GAS opcodes ran *)
  e_ret : Data
}.

Inductive EvmResult :=
  | ENext (s : EvmState)
  | EHalt (output : Data)
  | ERevert (output : Data)
  | EExceptional
  | EStuck.                         (* stack errors and opcodes outside the machine *)

(** *** Memory *)
Definition access_ok (limit o n : Z) : bool := (n =? 0) || (align32 (o + n + 31) <=? limit).
Definition grow (size o n : Z) : Z := if n =? 0 then size else Z.max size (align32 (o + n + 31)).
Definition mem_write (f : Z -> Z) (o n : Z) (g : Z -> Z) : Z -> Z := fun a =>
  let i := (a - o) mod word_modulus in if i <? n then g i else f a.
Definition mem_read (f : Z -> Z) (o n : Z) : Data :=
  mkData n (fun i => if (0 <=? i) && (i <? n) then f ((o + i) mod word_modulus) else 0).
(** The word whose bytes [g] gives, most significant first. *)
Definition be_word (g : Z -> Z) : U256 := U (be_value 0 (map g (range 32))).
Definition data_list (d : Data) : list Z := map (data_at d) (range (data_len d)).

Section Machine.
Context `{SA : SignedArith, HF : HashFns}.
Variable env : EvmEnv.
Variable STACK_LIMIT : Z.

Definition next_pc (s : EvmState) (n : Z) : EvmState := mkEvm n (e_stack s) (e_mem s) (e_size s) (e_gas s) (e_ret s).
Definition with_stack (s : EvmState) (l : list U256) : EvmState :=
  mkEvm (e_pc s) l (e_mem s) (e_size s) (e_gas s) (e_ret s).
Definition with_mem (s : EvmState) (f : Z -> Z) : EvmState :=
  mkEvm (e_pc s) (e_stack s) f (e_size s) (e_gas s) (e_ret s).

(** The state that pops the [n] topmost words, given top first, and pushes one. *)
Definition epush (s : EvmState) (rest : list U256) (v : U256) : EvmResult :=
  if STACK_LIMIT <=? zlen rest then EStuck else ENext (with_stack s (rest ++ [v])).

Definition b2w (b : bool) : U256 := if b then ONE else ZERO.

(** Run [k] if the access is within the limit, with the size grown. *)
Definition touching (s : EvmState) (o n : Z) (k : EvmState -> EvmResult) : EvmResult :=
  if access_ok (env_memory_limit env) o n
  then k (mkEvm (e_pc s) (e_stack s) (e_mem s) (grow (e_size s) o n) (e_gas s) (e_ret s))
  else ERevert no_data.

Definition evm_jump (s : EvmState) (dest : U256) : EvmResult :=
  if env_valid_jump env (uval dest) then ENext (next_pc s (uval dest)) else EExceptional.

Definition evm_copy (s : EvmState) (rest : list U256) (d : U256) (n : Z) (g : Z -> Z) : EvmResult :=
  touching s (uval d) n (fun s => ENext (with_stack (with_mem s (mem_write (e_mem s) (uval d) n g)) rest)).

Definition div_zero (op : SymBinOp) (a b : U256) : U256 := if is_zero b then ZERO else binop_eval op a b.

(** The opcode [op] behind the program counter that has been advanced. *)
Definition evm_op (s : EvmState) (op : Opcode) : EvmResult :=
  match op, rev (e_stack s) with
  | OpStop, _ => EHalt no_data
  | OpBin b, x :: y :: r => epush s (rev r) (binop_eval b x y)
  | OpExp, x :: y :: r => epush s (rev r) (U (uval x ^ uval y))
  | OpDiv b, x :: y :: r => epush s (rev r) (div_zero b x y)
  | OpTern t, x :: y :: m :: r => epush s (rev r) (ternop_eval t x y m)
  | OpCmp c, x :: y :: r => epush s (rev r) (b2w (cmpop_eval c x y))
  | OpEq, x :: y :: r => epush s (rev r) (b2w (u_eqb x y))
  | OpIsZero, x :: r => epush s (rev r) (b2w (is_zero x))
  | OpNot, x :: r => epush s (rev r) (u_not x)
  | OpSignExtend, x :: y :: r => epush s (rev r) (signextend x y)
  | OpByte, x :: y :: r => epush s (rev r) (word_byte x y)
  | OpShift b, x :: y :: r => epush s (rev r) (binop_eval b y x)
  | OpKeccak, o :: n :: r =>
      touching s (uval o) (uval n) (fun s =>
        epush s (rev r) (keccak256 (data_list (mem_read (e_mem s) (uval o) (uval n)))))
  | OpCallDataLoad, o :: r =>
      epush s (rev r) (be_word (fun i => data_at (env_calldata env) (uval o + i)))
  | OpCallDataCopy, d :: o :: n :: r =>
      evm_copy s (rev r) d (uval n) (fun i => data_at (env_calldata env) (uval o + i))
  | OpCodeSize, _ => epush s (e_stack s) (U (data_len (env_code env)))
  | OpCodeCopy, d :: o :: n :: r =>
      evm_copy s (rev r) d (uval n) (fun i => data_at (env_code env) (uval o + i))
  | OpReturnDataSize, _ => epush s (e_stack s) (U (data_len (e_ret s)))
  | OpReturnDataCopy, d :: o :: n :: r =>
      touching s (uval d) (uval n) (fun s =>
        if uval o + uval n <=? data_len (e_ret s)
        then evm_copy s (rev r) d (uval n) (fun i => data_at (e_ret s) (uval o + i))
        else ERevert no_data)
  | OpPop, _ :: r => ENext (with_stack s (rev r))
  | OpMLoad, o :: r =>
      touching s (uval o) 32 (fun s =>
        epush s (rev r) (be_word (fun i => e_mem s ((uval o + i) mod word_modulus))))
  | OpMStore, o :: v :: r => evm_copy s (rev r) o 32 (be_byte v)
  | OpMStore8, o :: v :: r => evm_copy s (rev r) o 1 (fun _ => low_byte_of v)
  | OpJump, d :: r => evm_jump (with_stack s (rev r)) d
  | OpJumpI, d :: c :: r =>
      if is_zero c then ENext (with_stack s (rev r)) else evm_jump (with_stack s (rev r)) d
  | OpPc, _ => epush s (e_stack s) (U (e_pc s - 1))
  | OpMSize, _ => epush s (e_stack s) (U (e_size s))
  | OpGas, _ =>
      epush (mkEvm (e_pc s) (e_stack s) (e_mem s) (e_size s) (e_gas s + 1) (e_ret s)) (e_stack s) (env_gas env (e_gas s))
  | OpJumpDest, _ => ENext s
  | OpMCopy, d :: o :: n :: r =>
      touching s (uval d) (uval n) (fun s => touching s (uval o) (uval n) (fun s =>
        ENext (with_stack (with_mem s (mem_write (e_mem s) (uval d) (uval n)
          (fun i => e_mem s ((uval o + i) mod word_modulus)))) (rev r))))
  | OpReturn is_revert, o :: n :: r =>
      touching s (uval o) (uval n) (fun s =>
        let d := mem_read (e_mem s) (uval o) (uval n) in if is_revert then ERevert d else EHalt d)
  | OpInvalid, _ => EExceptional
  | OpDup n, _ =>
      match at_z (e_stack s) (zlen (e_stack s) - n) with
      | Some v => epush s (e_stack s) v
      | None => EStuck
      end
  | OpSwap n, top :: _ =>
      let other := zlen (e_stack s) - 1 - n in
      match at_z (e_stack s) other with
      | Some v => ENext (with_stack s (<[Z.to_nat other := top]> (<[Z.to_nat (zlen (e_stack s) - 1) := v]> (e_stack s))))
      | None => EStuck
      end
  | OpPush n, _ =>
      if n =? 0 then epush s (e_stack s) ZERO
      else
        let v := be_word (fun i => if i <? 32 - n then 0 else data_at (env_code env) (e_pc s + (i - (32 - n)))) in
        epush (next_pc s (e_pc s + n)) (e_stack s) v
  | OpBlobHash, i :: r => epush s (rev r) (env_blob_hash env (uval i))
  | (OpAddress | OpCaller | OpOrigin | OpCallValue | OpCallDataSize | OpChainId | OpBaseFee | OpGasPrice | OpCoinbase
    | OpTimestamp | OpNumber | OpDifficulty | OpGasLimit | OpBlobBaseFee) as o, _ => epush s (e_stack s) (env_value env o)
  | _, _ => EStuck
  end.

Definition evm_step (s : EvmState) (op : Z) : EvmResult :=
  let s := next_pc s (e_pc s + 1) in
  if env_spec env <? opcode_activation op then EExceptional else evm_op s (decode op).

(** One instruction of the code; past its end the machine stops. *)
Definition evm_exec (s : EvmState) : EvmResult :=
  if data_len (env_code env) <=? e_pc s then EHalt no_data
  else evm_step s (data_at (env_code env) (e_pc s)).

(** The states that a run passes, and the result it ends with. *)
Inductive evm_reaches : EvmState -> EvmState -> Prop :=
  | reaches_refl s : evm_reaches s s
  | reaches_step s t u : evm_reaches s t -> evm_exec t = ENext u -> evm_reaches s u.

Definition evm_ends (s : EvmState) (r : EvmResult) : Prop :=
  exists t, evm_reaches s t /\ evm_exec t = r /\ (forall u, r <> ENext u).
End Machine.
