(* ===== verification/SymSim.v ===== *)
(** * SymSim: paths represent concrete frames; the guards are exact

    The relation between a path and a concrete frame under a model, the laws of
    the solver, and the lemmas about the parts of a step that several opcodes
    share: stack accesses, solver queries, memory guards, bounded sizes. *)

From Stdlib Require Import ZArith Lia Bool.
From stdpp Require Import base list option gmap sets strings.
From S2P Require Import Prelude SymWord SymExpr SymSimpl SymSound SymCmp SymBytes SymSeq SymStorage SymMem SymMemSpec SymPath SymWorld SymLog SymExpect SymExec SymEvm.
Local Open Scope Z_scope.
Local Open Scope exec_scope.

(** The solver may be unable to answer, but when it says that constraints are
    unsatisfiable, no model satisfies them. *)
Class SolverLaws `{SA : SignedArith, HF : HashFns, SE : SolverEnv} : Prop := {
  unsat_sound cs vars env env' model :
    is_sat_with_replayable_storage cs vars env = (inl false, env') ->
    ~ Forall (fun c => denote_bool model c = Some true) cs;
  infeasible_sound cs vars env env' model :
    branch_feasibility cs vars env = (inl FeasibleUnsat, env') ->
    ~ Forall (fun c => denote_bool model c = Some true) cs
}.

(** ** Inversion of executor computations *)
Section Inversion.
Context `{SE : SolverEnv}.

Lemma xbind_inv {A B} (c : ExecM A) (k : A -> ExecM B) ex b ex' :
  xbind c k ex = Ret (inl b, ex') -> exists a ex1, c ex = Ret (inl a, ex1) /\ k a ex1 = Ret (inl b, ex').
Proof. unfold xbind. destruct (c ex) as [[[a|e] ex1]|]; naive_solver. Qed.

Lemma lift_inv {A} (o : Outcome A) ex a ex' : lift o ex = Ret (inl a, ex') -> o = Ret a /\ ex' = ex.
Proof. unfold lift. destruct o; naive_solver. Qed.

Lemma of_result_inv {A} (r : A + SymbolicError) ex a ex' : of_result r ex = Ret (inl a, ex') -> r = inl a /\ ex' = ex.
Proof. unfold of_result. naive_solver. Qed.

Lemma xret_inv {A} (x : A) ex a ex' : xret x ex = Ret (inl a, ex') -> a = x /\ ex' = ex.
Proof. unfold xret. naive_solver. Qed.

Lemma with_preimages_inv {A} (f : Preimages -> Outcome (A * Preimages)) ex a ex' :
  with_preimages f ex = Ret (inl a, ex') -> exists pre, f (cx_preimages ex) = Ret (a, pre) /\ ex' = with_cx pre ex.
Proof. unfold with_preimages. destruct (f (cx_preimages ex)) as [[]|]; naive_solver. Qed.

Lemma xerr_inv {A} e ex (a : A) ex' : xerr e ex = Ret (inl a, ex') -> False.
Proof. done. Qed.
End Inversion.

(** Takes a successful computation apart, one bind after the other. *)
Ltac xstep H :=
  match type of H with
  | xbind _ _ _ = Ret (inl _, _) =>
      let a := fresh "r" in let ex1 := fresh "ex" in let H1 := fresh "H" in
      apply xbind_inv in H as (a & ex1 & H1 & H)
  | xret _ _ = Ret (inl _, _) => apply xret_inv in H as [-> ->] || (apply xret_inv in H as [? ->])
  | xerr _ _ = Ret (inl _, _) => by apply xerr_inv in H
  | lift _ _ = Ret (inl _, _) => apply lift_inv in H as [H ->]
  | of_result _ _ = Ret (inl _, _) => apply of_result_inv in H as [H ->]
  | with_preimages _ _ = Ret (inl _, _) => let pre := fresh "pre" in apply with_preimages_inv in H as (pre & H & ->)
  end.

(** ** The relation *)
Section Rep.
Context `{SA : SignedArith, HF : HashFns, P : Parts}.
Variable model : SymbolicModel.
Abbreviation den := (denote_word model).
Abbreviation denb := (denote_bool model).
Import SBytes.

(** Bytes with a length word. *)
Definition data_rep (b : SymBytes) (size : SymExpr) (d : Data) : Prop :=
  seq_ok model b /\ (forall i, 0 <= i -> seq_at model b i = data_at d i) /\
  den size = Some (U (data_len d)) /\ 0 <= data_len d <= len b.

Definition mem_rep (limit : Z) (m : SymMemory) (f : Z -> Z) (size : Z) : Prop :=
  mem_ok model m /\ (forall a, 0 <= a < word_modulus -> mem_at model m a = f a) /\
  mem_size model m = size /\ size <= limit.

Definition is_env_op (o : Opcode) : bool :=
  match o with
  | OpAddress | OpCaller | OpOrigin | OpCallValue | OpCallDataSize | OpChainId | OpBaseFee | OpGasPrice | OpCoinbase
  | OpTimestamp | OpNumber | OpDifficulty | OpGasLimit | OpBlobBaseFee => true
  | _ => false
  end.

(** The parts of a path that no opcode of the frame changes; the path does not
    look for a branch and no hook has marked it as reverted. *)
Definition static_rep (env : EvmEnv) (st : PathState) : Prop :=
  data_rep (cd_bytes (calldata (frame st))) (cd_size_word (calldata (frame st))) (env_calldata env) /\
  cd_size (calldata (frame st)) = len (cd_bytes (calldata (frame st))) /\
  len (cd_bytes (calldata (frame st))) + 32 <= usize_max /\
  (forall o, is_env_op o = true -> den (SStep.block_value st o) = Some (env_value env o)) /\
  (forall i, 0 <= i -> default ZERO (at_z (blob_hashes (block st)) i) = env_blob_hash env i) /\
  branch_target st = None /\ pending_storage_hook_revert st = false.

(** The code, the jump table, the limits and the gas oracle. *)
Definition env_rep (executor : ExecutorEnv) (code : @SymCode JumpTable) (env : EvmEnv) : Prop :=
  seq_ok model (code_bytes code) /\ (forall i, 0 <= i -> seq_at model (code_bytes code) i = data_at (env_code env) i) /\
  code_len code = data_len (env_code env) /\ code_len code + 32 <= usize_max /\
  (forall d, usize_ok d -> is_valid (jump_table code) d = env_valid_jump env d) /\
  (forall d, usize_max < d -> env_valid_jump env d = false) /\
  memory_limit executor = env_memory_limit env /\ usize_ok (env_memory_limit env) /\ spec_id executor = env_spec env /\
  (forall n, env_gas env n = model_value model (gas_symbol n)).

Definition sat (st : PathState) : Prop := Forall (fun c => denb c = Some true) (constraints st).

Definition frame_rep (env : EvmEnv) (st : PathState) (c : EvmState) : Prop :=
  0 <= e_pc c /\ pc (frame st) = e_pc c /\
  Forall2 (fun e v => den e = Some v) (stack (frame st)) (e_stack c) /\
  mem_rep (env_memory_limit env) (memory (frame st)) (e_mem c) (e_size c) /\
  next_symbol st = e_gas c /\
  data_rep (rd_bytes (return_data (frame st))) (len_word (return_data (frame st))) (e_ret c).

Definition rep (env : EvmEnv) (st : PathState) (c : EvmState) : Prop :=
  sat st /\ static_rep env st /\ frame_rep env st c.
End Rep.

(** ** Shared parts of a step *)
Section Shared.
Context `{SA : SignedArith, HF : HashFns, P : Parts, SE : SolverEnv} {SL : SignedArithLaws} {SO : SolverLaws}.
Variable model : SymbolicModel.
Variable config : SymbolicConfig.
Variable executor : ExecutorEnv.
Variable env : EvmEnv.
Hypothesis same_limit : memory_limit executor = env_memory_limit env.
Hypothesis limit_usize : usize_ok (env_memory_limit env).
Abbreviation den := (denote_word model).
Abbreviation denb := (denote_bool model).
Abbreviation rep := (rep model env).
Abbreviation sat := (sat model).
Abbreviation limit := (env_memory_limit env).
Import SBytes SMemory SExec.

(** *** Solver queries *)
Lemma sat_extend st c : sat st -> denb c = Some true -> Forall (fun c => denb c = Some true) (constraints st ++ [c]).
Proof. intros Hs Hc. apply Forall_app. split; [done|by constructor]. Qed.

Lemma is_sat_complete st cs ex b ex' :
  is_sat_with_state st cs ex = Ret (inl b, ex') -> Forall (fun c => denb c = Some true) cs -> b = true.
Proof.
  unfold is_sat_with_state, on_env. destruct (is_sat_with_replayable_storage _ _ _) as [r e] eqn:E.
  intros [= -> <-] Hcs. destruct b; [done|]. by destruct (unsat_sound _ _ _ _ model E).
Qed.

Lemma with_condition_spec st cond ex cs b ex' :
  constraints_with_condition st cond ex = Ret (inl (cs, b), ex') -> sat st -> denb cond = Some true ->
  b = true /\ Forall (fun c => denb c = Some true) cs.
Proof.
  unfold constraints_with_condition. intros H Hs Hc. destruct (SBool.as_const cond) as [v|] eqn:Ev.
  - xstep H. simplify_eq. destruct cond; simplify_eq/=. done.
  - xstep H. xstep H. simplify_eq. pose proof (sat_extend _ _ Hs Hc). split; [|done]. by eapply is_sat_complete.
Qed.

(** Order comparisons never need the hash condition. *)
Lemma den_cmp op l r a b :
  op <> Eq -> den l = Some a -> den r = Some b -> denb (cmp op l r) = Some (cmpop_eval op a b).
Proof. intros Hop Ha Hb. apply (cmp_refines_order model op); [done|]. by apply (den_cmp_intro model). Qed.

Lemma den_cmp_const op e v k : op <> Eq -> den e = Some v -> denb (cmp_word_const op e k) = Some (cmpop_eval op v k).
Proof.
  intros Hop Hv. unfold cmp_word_const. destruct (as_const e) as [c|] eqn:Ec.
  - by rewrite (as_const_den _ _ _ _ Ec Hv).
  - apply den_cmp; [done..|apply (den_constant model)].
Qed.

(** A refuted query bounds the value. *)
Lemma refuted_bound st e v k ex ex' :
  is_sat_with_state st (constraints st ++ [cmp_word_const Ugt e (U k)]) ex = Ret (inl false, ex') ->
  sat st -> den e = Some v -> usize_ok k -> uval v <= k.
Proof.
  intros H Hs Hv Hk. destruct (Z.leb_spec (uval v) k); [done|]. assert (false = true); [|done].
  eapply is_sat_complete; [exact H|]. apply sat_extend; [done|]. rewrite (den_cmp_const Ugt _ _ _ ltac:(done) Hv).
  cbn [cmpop_eval]. unfold u_ltb. rewrite uval_U_small by (change word_modulus with (2 ^ 256); unfold usize_ok, usize_max in *; lia).
  f_equal. by apply Z.ltb_lt.
Qed.

(** The bisection keeps an upper bound; its fuel covers the interval. *)
Lemma bound_search_spec fuel st e v low high ex n ex' :
  bound_search fuel st e low high ex = Ret (inl n, ex') -> sat st -> den e = Some v ->
  0 <= low <= high -> high <= usize_max -> uval v <= high -> high - low <= Z.of_nat fuel -> uval v <= n <= high.
Proof.
  revert low high ex. induction fuel as [|fuel IH]; intros low high ex H Hs Hv Hl Hu Hb Hf; simpl in H.
  { xstep H. lia. }
  destruct (Z.ltb_spec low high); [|xstep H; lia]. set (mid := low + (high - low) / 2) in *.
  assert (low <= mid < high) by (unfold mid; pose proof (Z.div_lt (high - low) 2); pose proof (Z.div_pos (high - low) 2); lia).
  xstep H. destruct r.
  - eapply IH in H; lia || done.
  - assert (uval v <= mid) by (eapply refuted_bound; [eassumption..|]; unfold usize_ok; lia).
    eapply IH in H; lia || done.
Qed.

(** A bound from the path or from the solver. *)
Lemma solver_bound_spec st e max reason ex n ex' v :
  solver_upper_bound_usize st e max reason ex = Ret (inl n, ex') -> sat st -> den e = Some v -> analysable model e ->
  0 <= max <= usize_max -> uval v <= n <= max.
Proof.
  intros H Hs Hv Ha Hm. unfold solver_upper_bound_usize in H.
  destruct (SPath.upper_bound_usize (constraints st) e) as [b|] eqn:Eb; simpl in H.
  1: destruct (Z.leb_spec b max); [xstep H; split; [by eapply upper_bound_usize_sound|done]|].
  all: xstep H; destruct r; [by xstep H|]; assert (Hle : uval v <= max) by (by eapply refuted_bound).
  all: eapply bound_search_spec in H; lia || done.
Qed.

(** *** Memory guards *)

(** The state that runs the opcode again, knowing that the access is valid. *)
Definition retry_of (st s : PathState) : Prop :=
  exists cs n ms, s = set_corpus_seed_models ms (set_constraints cs (set_depth n (set_pc (Z.max 0 (pc (frame st) - 1)) st))).

(** What a guard does with an access that is valid or not: it lets the opcode
    go on in a state that [expand] gives, or queues a retry, or reverts. *)
Definition guard_spec (st : PathState) (ok : bool) (expand : PathState -> PathState)
    (g : option StepOutcome) (st' : PathState) (pushed : list PathState) : Prop :=
  if ok then (g = None /\ exists cs, st' = expand (set_constraints cs st) /\ sat (set_constraints cs st)) \/
             (exists o s, g = Some o /\ s ∈ pushed /\ sat s /\ retry_of st s)
  else g = Some Revert /\ return_data (frame st') = SReturnData.empty.

Lemma set_constraints_id st : set_constraints (constraints st) st = st.
Proof. by destruct st. Qed.

Lemma align_down_spec z : 0 <= z <= usize_max -> align_down z = align32 z.
Proof. intros Hz. unfold align_down. change (usize_max - 31) with (2 ^ 64 - 32). apply land_aligned; [lia|]. unfold usize_max in Hz. lia. Qed.

Lemma align32_le_iff z k : 0 <= z -> k <= usize_max -> align32 z <= k -> z <= usize_max.
Proof. intros Hz Hk. unfold align32, usize_max in *. intros H. Z.div_mod_to_equations. lia. Qed.

Lemma access_ok_host o n : 0 <= o -> 0 < n -> access_ok limit o n = true -> o + n + 31 <= usize_max.
Proof.
  intros Ho Hn. unfold access_ok. destruct (Z.eqb_spec n 0); [lia|]. intros H%Z.leb_le.
  eapply align32_le_iff; [lia| |exact H]. apply limit_usize.
Qed.

Lemma access_ok_mono o n o' n' : 0 <= o <= o' -> 0 <= n <= n' -> access_ok limit o' n' = true -> access_ok limit o n = true.
Proof.
  unfold access_ok. intros Ho Hn H. destruct (Z.eqb_spec n 0); [done|]. destruct (Z.eqb_spec n' 0); [lia|].
  apply Z.leb_le in H. apply Z.leb_le. etransitivity; [|exact H]. unfold align32.
  apply Z.mul_le_mono_nonneg_r; [lia|]. apply Z.div_le_mono; lia.
Qed.

Lemma expanded_size_ok o n : 0 <= o -> 0 < n -> size_allowed executor (expanded_size o n) = access_ok limit o n.
Proof.
  intros Ho Hn. unfold expanded_size, checked_add, access_ok. rewrite (proj2 (Z.eqb_neq n 0)) by lia. simpl.
  assert (Hfalse : usize_max < o + n + 31 -> (align32 (o + n + 31) <=? limit) = false).
  { intros H. apply Z.leb_gt. destruct (Z.le_gt_cases (align32 (o + n + 31)) limit) as [Hle|]; [|done].
    apply align32_le_iff in Hle; [lia..|apply limit_usize]. }
  destruct (Z.leb_spec (o + n) usize_max); simpl; [|rewrite Hfalse; [done|lia]].
  destruct (Z.leb_spec (o + n + 31) usize_max); simpl; [|by rewrite Hfalse].
  rewrite align_down_spec by lia. by rewrite same_limit.
Qed.

Lemma size_within_limit size o n :
  0 <= o -> 0 <= n -> size <= limit -> (Z.max size (range_size o n) <=? limit) = access_ok limit o n.
Proof.
  intros Ho Hn Hs. unfold range_size, access_ok. destruct limit_usize as [Hl0 Hl]. destruct (Z.eqb_spec n 0); simpl; [apply Z.leb_le; lia|].
  destruct (Z.leb_spec (align32 (o + n + 31)) limit) as [Hle|Hgt].
  - pose proof (align32_le_iff (o + n + 31) limit ltac:(lia) Hl Hle). rewrite Z.min_r; [apply Z.leb_le; lia|].
    change word_modulus with (2 ^ 256). unfold usize_max in *. lia.
  - apply Z.leb_gt. destruct (Z.le_gt_cases (word_modulus - 1) (o + n + 31)).
    + rewrite Z.min_l by done. change (align32 (word_modulus - 1)) with (2 ^ 256 - 32). unfold usize_max in *. lia.
    + rewrite Z.min_r by lia. lia.
Qed.

Lemma local_size_den m f size offset sz o n :
  mem_rep model limit m f size -> den offset = Some o -> den sz = Some n ->
  den (size_after_range_expansion_word m offset sz) = Some (U (Z.max size (range_size (uval o) (uval n)))) /\
  0 <= Z.max size (range_size (uval o) (uval n)) < word_modulus.
Proof.
  intros (Hm & _ & Hsz & Hle) Ho Hn. unfold size_after_range_expansion_word. pose proof (uval_range o). pose proof (uval_range n).
  pose proof (range_size_word (uval o) (uval n) ltac:(lia) ltac:(lia)) as Hr. pose proof (mem_size_nonneg model m).
  destruct limit_usize as [_ Hl]. assert (size < word_modulus) by (change word_modulus with (2 ^ 256); unfold usize_max in *; lia).
  split; [|lia]. pose proof (den_max_size model _ _ _ _ (size_word_spec model m Hm) (den_size_after_range model _ _ _ _ Ho Hn)) as Hd.
  rewrite !uval_U_small in Hd by lia. by rewrite Hsz in Hd.
Qed.

(** The guard of a condition that says exactly whether the access is valid. *)
Lemma condition_guard_spec st valid ok ex g st' pushed ex' :
  apply_memory_access_guard st valid ex = Ret (inl (g, st', pushed), ex') -> sat st -> denb valid = Some ok ->
  guard_spec st ok (fun st => st) g st' pushed.
Proof.
  unfold apply_memory_access_guard. intros H Hs Hv. xstep H. destruct r as [vcs vs]. xstep H. destruct r as [ics is_].
  xstep H. unfold guard_spec. destruct ok.
  - destruct (with_condition_spec _ _ _ _ _ _ H0 Hs Hv) as [-> Hcs]. destruct is_.
    + destruct (split_corpus_seed_models st valid) as [ts fs]. simplify_eq. right. eexists _, _. split; [done|].
      split; [by left|]. split; [exact Hcs|]. by do 3 eexists.
    + simplify_eq. left. split; [done|]. by exists vcs.
  - destruct (with_condition_spec _ _ _ _ _ _ H1 Hs) as [-> _]; [by rewrite den_not_bool, Hv|].
    destruct vs; [destruct (split_corpus_seed_models st valid)|]; by simplify_eq.
Qed.

(** A guard that lets the opcode go on without a condition. *)
Lemma guard_spec_pass st expand : sat st -> guard_spec st true expand None (expand st) [].
Proof. intros Hs. left. split; [done|]. exists (constraints st). by rewrite set_constraints_id. Qed.

Lemma guard_spec_revert st expand : guard_spec st false expand (Some Revert) (clear_return st) [].
Proof. done. Qed.

Lemma guard_fixed_spec st c offset o n ex g st' pushed ex' :
  guard_fixed_memory_access executor st offset n ex = Ret (inl (g, st', pushed), ex') ->
  rep st c -> den offset = Some o -> analysable model offset -> 0 < n <= 32 ->
  guard_spec st (access_ok limit (uval o) n) (fun st => st) g st' pushed /\
  (access_ok limit (uval o) n = true -> addressable offset (n + 31)).
Proof.
  intros H (Hs & _ & _ & _ & _ & Hmem & _) Ho Ha Hn. pose proof (uval_range o).
  assert (Hadr : access_ok limit (uval o) n = true -> addressable offset (n + 31)).
  { intros Hok v Hv. rewrite <- (as_const_den _ _ _ _ Hv Ho). apply access_ok_host in Hok; lia. }
  split; [|done]. unfold guard_fixed_memory_access in H.
  assert (Hhm : checked_sub (align_down usize_max) n = Some (2 ^ 64 - 32 - n)).
  { unfold checked_sub. change (align_down usize_max) with (2 ^ 64 - 32). destruct (Z.leb_spec n (2 ^ 64 - 32)); [done|lia]. }
  rewrite Hhm in H. set (large := match SPath.constrained_usize_checked _ _ with Some _ => _ | None => _ end) in H.
  assert (Hlarge : large = true -> access_ok limit (uval o) n = false).
  { unfold large, SPath.constrained_usize_checked. destruct (SPath.constrained_word (constraints st) offset) as [k|] eqn:Ek; [|done].
    assert (o = k) as -> by (by eapply (constrained_word_sound model (constraints st))). simpl. intros Hk.
    destruct (access_ok limit (uval k) n) eqn:Eok; [|done]. apply access_ok_host in Eok; [|lia..].
    unfold to_usize in Hk. destruct (Z.leb_spec (uval k) usize_max); [|unfold usize_max in *; lia].
    apply Z.ltb_lt in Hk. unfold usize_max in *. lia. }
  destruct large; [xstep H; simplify_eq; rewrite Hlarge by done; apply guard_spec_revert|]. clear Hlarge.
  destruct (SPath.upper_bound_usize (constraints st) offset) as [b|] eqn:Eb; simpl in H.
  1: destruct (size_allowed executor (expanded_size b n)) eqn:Eal.
  1: { xstep H. simplify_eq. pose proof (upper_bound_usize_sound model (constraints st) Hs offset _ _ Eb Ha Ho).
       rewrite expanded_size_ok in Eal by lia. rewrite (access_ok_mono (uval o) n b n) by (done || lia). by apply guard_spec_pass. }
  all: destruct (local_size_den _ _ _ offset (constant (U n)) o (U n) Hmem Ho (den_constant model _)) as [Hd Hr].
  all: rewrite (uval_U_small n) in Hd, Hr by (change word_modulus with (2 ^ 256); lia).
  all: pose proof (size_within_limit (e_size c) (uval o) n ltac:(lia) ltac:(lia) (proj2 (proj2 (proj2 Hmem)))) as Hw.
  all: destruct (as_const (size_after_range_expansion_word _ _ _)) as [v|] eqn:Ev;
    [pose proof (as_const_den _ _ _ _ Ev Hd) as <-; rewrite uval_U_small, same_limit, Hw in H by done;
     destruct (access_ok limit (uval o) n); xstep H; simplify_eq; [by apply guard_spec_pass|apply guard_spec_revert]|].
  all: eapply condition_guard_spec; [exact H|done|]; apply den_and; simpl.
  all: rewrite (den_cmp Ule _ _ _ _ ltac:(done) Ho (den_constant model (U (2 ^ 64 - 32 - n)))).
  all: rewrite (den_cmp Ule _ _ _ _ ltac:(done) Hd (den_constant model (U (memory_limit executor)))).
  all: cbn [cmpop_eval]; unfold u_leb; rewrite (uval_U_small (2 ^ 64 - 32 - n)) by (change word_modulus with (2 ^ 256); lia).
  all: destruct limit_usize; rewrite same_limit, (uval_U_small limit), uval_U_small, Hw by (done || change word_modulus with (2 ^ 256); unfold usize_max in *; lia).
  all: destruct (access_ok limit (uval o) n) eqn:Eok; [|by destruct (uval o <=? _)].
  all: apply access_ok_host in Eok; [|lia..]; unfold usize_max in *; destruct (Z.leb_spec (uval o) (2 ^ 64 - 32 - n)); [done|lia].
Qed.

(** The condition of a symbolic range says whether the access is valid. *)
Lemma valid_range_den m f msize offset size o n :
  mem_rep model limit m f msize -> den offset = Some o -> den size = Some n ->
  denb (valid_range executor m offset size) = Some (access_ok limit (uval o) (uval n)).
Proof.
  intros Hmem Ho Hn. pose proof (uval_range o). pose proof (uval_range n).
  destruct (local_size_den _ _ _ offset size o n Hmem Ho Hn) as [Hd Hr]. destruct limit_usize as [Hl0 Hlu].
  unfold valid_range. change (align_down usize_max) with (2 ^ 64 - 32). apply den_or. cbn [denote_any].
  rewrite (den_eq_word_const model _ _ ZERO Hn). unfold u_eqb. rewrite uval_ZERO.
  destruct (Z.eqb_spec (uval n) 0) as [E|E]; [by rewrite E|].
  rewrite (den_and model _ (access_ok limit (uval o) (uval n))); [by destruct (access_ok _ _ _)|].
  cbn [denote_all]. rewrite (den_cmp Ule _ _ _ _ ltac:(done) Hn (den_constant model (U (2 ^ 64 - 32)))).
  cbn [cmpop_eval]. unfold u_leb at 1. rewrite (uval_U_small (2 ^ 64 - 32)) by done.
  assert (Hfit : access_ok limit (uval o) (uval n) = true -> uval o + uval n <= 2 ^ 64 - 32).
  { intros Hok. apply access_ok_host in Hok; [unfold usize_max in *; lia|lia..]. }
  destruct (Z.leb_spec (uval n) (2 ^ 64 - 32)); [|destruct (access_ok _ _ _); [specialize (Hfit eq_refl); lia|done]].
  rewrite (den_cmp Ule _ _ _ (wrapping_sub (U (2 ^ 64 - 32)) n) ltac:(done) Ho (den_binop model Sub _ _ _ _ (den_constant model _) Hn)).
  cbn [cmpop_eval]. unfold u_leb at 1. unfold wrapping_sub. rewrite (uval_U_small (2 ^ 64 - 32)) by done.
  rewrite uval_U_small by (change word_modulus with (2 ^ 256); lia).
  destruct (Z.leb_spec (uval o) (2 ^ 64 - 32 - uval n)); [|destruct (access_ok _ _ _); [specialize (Hfit eq_refl); lia|done]].
  rewrite (den_cmp Ule _ _ _ _ ltac:(done) Hd (den_constant model (U (memory_limit executor)))). cbn [cmpop_eval]. unfold u_leb.
  rewrite same_limit, (uval_U_small limit), uval_U_small by (done || change word_modulus with (2 ^ 256); unfold usize_max in *; lia).
  rewrite (size_within_limit msize (uval o) (uval n)) by (lia || apply Hmem). by destruct (access_ok _ _ _).
Qed.

Lemma guard_symbolic_spec st c offset o size n ex g st' pushed ex' :
  guard_symbolic_range executor st offset size ex = Ret (inl (g, st', pushed), ex') ->
  rep st c -> den offset = Some o -> den size = Some n -> analysable model offset -> analysable model size ->
  guard_spec st (access_ok limit (uval o) (uval n)) (expand_guarded offset size) g st' pushed.
Proof.
  intros H (Hs & _ & _ & _ & _ & Hmem & _) Ho Hn Ha Hb. pose proof (uval_range o). pose proof (uval_range n).
  unfold guard_symbolic_range in H. destruct (size_allowed executor _) eqn:Eal.
  { xstep H. simplify_eq. destruct (SPath.upper_bound_usize (constraints st) offset) as [x|] eqn:Ex; [|done].
    destruct (SPath.upper_bound_usize (constraints st) size) as [y|] eqn:Ey; [|done]. simpl in Eal.
    pose proof (upper_bound_usize_sound model (constraints st) Hs _ _ _ Ex Ha Ho).
    pose proof (upper_bound_usize_sound model (constraints st) Hs _ _ _ Ey Hb Hn).
    assert (access_ok limit (uval o) (uval n) = true) as ->; [|by apply guard_spec_pass].
    destruct (Z.eq_dec (uval n) 0) as [E|]; [by rewrite E|]. rewrite expanded_size_ok in Eal by lia.
    eapply access_ok_mono; [| |exact Eal]; lia. }
  xstep H. destruct r as [[g' st1] pushed1]. eapply condition_guard_spec in H2; [|done|by eapply valid_range_den].
  revert H2. unfold guard_spec. destruct (access_ok limit (uval o) (uval n)).
  - intros [[-> (cs & -> & Hcs)]|(o' & s & -> & Hin & Hss & Hret)]; xstep H; simplify_eq; [left; eauto|right; eauto 8].
  - intros [-> Hr]. xstep H. by simplify_eq.
Qed.

Lemma guard_range_spec st c offset o size n ex g st' pushed ex' :
  guard_memory_range executor st offset size ex = Ret (inl (g, st', pushed), ex') ->
  rep st c -> den offset = Some o -> den size = Some n -> analysable model offset -> analysable model size ->
  guard_spec st (access_ok limit (uval o) (uval n)) (expand_guarded offset size) g st' pushed.
Proof.
  intros H Hrep Ho Hn Ha Hb. pose proof Hrep as (Hs & _). pose proof (uval_range o). pose proof (uval_range n).
  unfold guard_memory_range in H. destruct (as_const offset) as [vo|] eqn:Eo; [|by eapply guard_symbolic_spec].
  destruct (as_const size) as [vn|] eqn:En; [|by eapply guard_symbolic_spec].
  pose proof (as_const_den _ _ _ _ Eo Ho) as <-. pose proof (as_const_den _ _ _ _ En Hn) as <-.
  assert (Hok : is_zero n || size_allowed executor (o ← to_usize o; n ← to_usize n; expanded_size o n) =
    access_ok limit (uval o) (uval n)).
  { unfold is_zero. destruct (Z.eqb_spec (uval n) 0) as [E|]; [by rewrite E|]. simpl.
    destruct (access_ok limit (uval o) (uval n)) eqn:Eok.
    - pose proof (access_ok_host (uval o) (uval n) ltac:(lia) ltac:(lia) Eok). unfold to_usize.
      destruct (Z.leb_spec (uval o) usize_max), (Z.leb_spec (uval n) usize_max); try lia. simpl. rewrite expanded_size_ok by lia. done.
    - unfold to_usize. destruct (Z.leb_spec (uval o) usize_max), (Z.leb_spec (uval n) usize_max); simpl; try done.
      by rewrite expanded_size_ok by lia. }
  rewrite Hok in H. destruct (access_ok limit (uval o) (uval n)); xstep H; simplify_eq;
    [by apply guard_spec_pass|apply guard_spec_revert].
Qed.

(** The range of RETURNDATACOPY against the length of the return data. *)
Lemma guard_returndata_spec st c offset o size n ex g st' pushed ex' :
  guard_returndata_copy_range st offset size ex = Ret (inl (g, st', pushed), ex') ->
  rep st c -> den offset = Some o -> den size = Some n ->
  guard_spec st (uval o + uval n <=? data_len (e_ret c)) (fun st => st) g st' pushed.
Proof.
  intros H Hrep Ho Hn. pose proof Hrep as (Hs & _ & _ & _ & _ & _ & _ & Hret). destruct Hret as (Hok & _ & Hlen & Hl).
  pose proof (uval_range o). pose proof (uval_range n). destruct (len_usize model _ Hok) as [_ Hlu].
  unfold guard_returndata_copy_range in H. destruct (contains_gasleft offset || contains_gasleft size); [done|].
  eapply condition_guard_spec; [exact H|done|]. apply den_and. cbn [denote_all]. set (r := return_data (frame st)) in *.
  assert (Hu : uval (U (data_len (e_ret c))) = data_len (e_ret c))
    by (apply uval_U_small; change word_modulus with (2 ^ 256); unfold usize_max in *; lia).
  rewrite (den_cmp Ule _ _ _ _ ltac:(done) Ho Hlen). cbn [cmpop_eval]. unfold u_leb at 1. rewrite Hu.
  destruct (Z.leb_spec (uval o) (data_len (e_ret c))); [|by rewrite (proj2 (Z.leb_gt _ _)) by lia].
  rewrite (den_cmp Ule _ _ _ (wrapping_sub (U (data_len (e_ret c))) o) ltac:(done) Hn (den_binop model Sub _ _ _ _ Hlen Ho)).
  cbn [cmpop_eval]. unfold u_leb, wrapping_sub. rewrite Hu.
  rewrite uval_U_small by (change word_modulus with (2 ^ 256); unfold usize_max in *; lia).
  destruct (Z.leb_spec (uval n) (data_len (e_ret c) - uval o)); [rewrite (proj2 (Z.leb_le _ _)) by lia|rewrite (proj2 (Z.leb_gt _ _)) by lia]; done.
Qed.

(** *** Updates of related states *)
Lemma rep_constraints st c cs : rep st c -> sat (set_constraints cs st) -> rep (set_constraints cs st) c.
Proof. intros (_ & H) Hs. exact (conj Hs H). Qed.

Lemma rep_stack st c s l :
  rep st c -> Forall2 (fun e v => den e = Some v) s l -> rep (set_stack s st) (with_stack c l).
Proof. intros (Hs & H1 & H2 & H3 & _ & H4) Hl. exact (conj Hs (conj H1 (conj H2 (conj H3 (conj Hl H4))))). Qed.

Lemma static_memory st m : static_rep model env st -> static_rep model env (set_memory m st).
Proof.
  intros (H1 & H2 & H3 & H4 & H5). refine (conj H1 (conj H2 (conj H3 (conj _ H5)))).
  intros o Ho. specialize (H4 o Ho). by destruct o.
Qed.

Lemma rep_memory st c m f size :
  rep st c -> mem_rep model limit m f size ->
  rep (set_memory m st) (mkEvm (e_pc c) (e_stack c) f size (e_gas c) (e_ret c)).
Proof. intros (Hs & H1 & H2 & H3 & H4 & _ & H5) Hm. exact (conj Hs (conj (static_memory _ m H1) (conj H2 (conj H3 (conj H4 (conj Hm H5)))))). Qed.

Lemma rep_pc st c n : rep st c -> 0 <= n -> rep (set_pc n st) (next_pc c n).
Proof. intros (Hs & H1 & _ & _ & H2) Hn. exact (conj Hs (conj H1 (conj Hn (conj eq_refl H2)))). Qed.

Lemma rep_symbol st c n :
  rep st c -> rep (set_next_symbol n st) (mkEvm (e_pc c) (e_stack c) (e_mem c) (e_size c) n (e_ret c)).
Proof. intros (Hs & H1 & H2 & H3 & H4 & H5 & _ & H6). exact (conj Hs (conj H1 (conj H2 (conj H3 (conj H4 (conj H5 (conj eq_refl H6))))))). Qed.

(** A retry is the frame before the opcode. *)
Lemma retry_rep st c s : rep st (next_pc c (e_pc c + 1)) -> 0 <= e_pc c -> sat s -> retry_of st s -> rep s c.
Proof.
  intros (_ & H1 & _ & Hpc & H2) H0 Hs (cs & n & ms & ->). split; [exact Hs|]. split; [exact H1|]. split; [done|].
  split; [|exact H2]. simpl in *. rewrite Hpc. simpl. lia.
Qed.

(** *** The stack *)
Lemma pop_inv s e s' : SStack.pop s = inl (e, s') -> s = s' ++ [e].
Proof.
  unfold SStack.pop. destruct (rev s) as [|top rest] eqn:E; [done|]. intros. simplify_eq.
  by rewrite <- (rev_involutive s), E.
Qed.

Lemma pop_value_rep st c e st' ex ex' :
  pop_value st ex = Ret (inl (e, st'), ex') -> rep st c ->
  exists l v s, e_stack c = l ++ [v] /\ stack (frame st) = s ++ [e] /\ den e = Some v /\ st' = set_stack s st /\
    rep st' (with_stack c l).
Proof.
  intros H Hrep. unfold pop_value in H. xstep H. destruct r as [e' s]. xstep H. simplify_eq. xstep H0. simplify_eq.
  apply pop_inv in H0. pose proof Hrep as (_ & _ & _ & _ & Hst & _). rewrite H0 in Hst.
  apply Forall2_app_inv_l in Hst as (l & lv & Hl & Hv & El). apply Forall2_cons_inv_l in Hv as (v & l0 & Hv & Hnil & ->).
  apply Forall2_nil_inv_l in Hnil as ->. exists l, v, s. split_and!; try done. by apply rep_stack.
Qed.

Lemma push_value_rep st c e v ex out st' pushed ex' :
  push_value st e ex = Ret (inl (out, st', pushed), ex') -> rep st c -> den e = Some v ->
  out = Continue /\ exists c', epush STACK_LIMIT c (e_stack c) v = ENext c' /\ rep st' c'.
Proof.
  intros H Hrep He. unfold push_value in H. xstep H. xstep H. simplify_eq. xstep H0. simplify_eq.
  split; [done|]. unfold SStack.push in H0. pose proof Hrep as (_ & _ & _ & _ & Hst & _).
  unfold epush. assert (Hz : zlen (e_stack c) = zlen (stack (frame st))) by (unfold zlen; f_equal; symmetry; by eapply Forall2_length).
  rewrite Hz. destruct (Z.leb_spec STACK_LIMIT (zlen (stack (frame st)))); [done|]. simplify_eq.
  eexists; split; [done|]. apply rep_stack; [done|]. apply Forall2_app; [done|]. by constructor.
Qed.

Lemma peek_inv s n e : SStack.peek s n = inl e -> 0 <= n < 1024 -> at_z s (zlen s - 1 - n) = Some e.
Proof.
  unfold SStack.peek, usize_add, checked_sub. intros H Hn. rewrite Z.mod_small in H by lia.
  destruct (Z.leb_spec (n + 1) (zlen s)); simpl in H; [|done]. case_match; [|done]. simplify_eq.
  by replace (zlen s - 1 - n) with (zlen s - (n + 1)) by lia.
Qed.


Lemma peek_app s a n : 0 <= n < 1024 -> SStack.peek (s ++ [a]) (n + 1) = SStack.peek s n.
Proof.
  intros Hn. unfold SStack.peek, usize_add, checked_sub. rewrite !Z.mod_small by lia. rewrite zlen_app. change (zlen [a]) with 1.
  destruct (Z.leb_spec (n + 1 + 1) (zlen s + 1)), (Z.leb_spec (n + 1) (zlen s)); try lia; simpl; [|done].
  replace (zlen s + 1 - (n + 1 + 1)) with (zlen s - (n + 1)) by lia. rewrite at_z_app by lia.
  destruct (Z.ltb_spec (zlen s - (n + 1)) (zlen s)); [done|lia].
Qed.

Lemma peek_top s e : SStack.peek s 0 = inl e -> exists s', s = s' ++ [e].
Proof.
  intros H. destruct s as [|x s] using rev_ind; [done|]. clear IHs. exists s. do 2 f_equal.
  apply peek_inv in H; [|lia]. rewrite zlen_app in H. change (zlen [x]) with 1 in H.
  replace (zlen s + 1 - 1 - 0) with (zlen s) in H by lia. pose proof (zlen_nonneg s). rewrite at_z_app, Z.ltb_irrefl, Z.sub_diag in H by lia.
  unfold at_z in H. simpl in H. congruence.
Qed.

Lemma peek_value_inv st n e ex ex' :
  peek_value st n ex = Ret (inl e, ex') -> SStack.peek (stack (frame st)) n = inl e /\ ex' = ex.
Proof. intros H. by apply of_result_inv in H. Qed.

(** *** Simulation of a step *)

(** How a path that stops agrees with the result of the frame.  A path that
    halts without data may hold the return data of an earlier call. *)
Definition ends (out : StepOutcome) (st : PathState) (r : EvmResult) : Prop :=
  match out, r with
  | Halt, EHalt d =>
      data_len d = 0 \/ data_rep model (rd_bytes (return_data (frame st))) (len_word (return_data (frame st))) d
  | Revert, ERevert d =>
      data_rep model (rd_bytes (return_data (frame st))) (len_word (return_data (frame st))) d
  | Failure, ERevert d => is_assertion_revert (data_list d) = true /\ branch_target st = None
  | ExceptionalHalt, EExceptional => branch_target st = None
  | _, _ => False
  end.

(** The result of a step covers the result [r] of a frame: the path goes on as
    the frame does, or one of the queued paths does, or one of them runs the
    opcode again from a state of [retry], or both stop. *)
Definition sim (retry : EvmState -> Prop) (r : EvmResult) (res : StepResult) : Prop :=
  let '(out, st', pushed) := res in
  (out = Continue /\ exists c', r = ENext c' /\ rep st' c') \/
  (exists s c', s ∈ pushed /\ r = ENext c' /\ rep s c') \/
  (exists s c0, s ∈ pushed /\ rep s c0 /\ retry c0) \/
  ends out st' r.

Lemma sim_mono (R R' : EvmState -> Prop) r res : (forall c, R c -> R' c) -> sim R r res -> sim R' r res.
Proof. destruct res as [[out st'] pushed]. unfold sim. naive_solver. Qed.

Lemma rep_target st c : rep st c -> branch_target st = None.
Proof. intros (_ & (_ & _ & _ & _ & _ & H & _) & _). exact H. Qed.

(** Both halt exceptionally. *)
Lemma exceptional_sim R st c : rep st c -> sim R EExceptional (ExceptionalHalt, clear_return st, []).
Proof. intros Hrep. right; right; right. exact (rep_target _ _ Hrep). Qed.

Lemma sim_next R st' c' pushed : rep st' c' -> sim R (ENext c') (Continue, st', pushed).
Proof. intros. left. eauto. Qed.

Lemma push_sim R st c e v ex res ex' :
  push_value st e ex = Ret (inl res, ex') -> rep st c -> den e = Some v ->
  sim R (epush STACK_LIMIT c (e_stack c) v) res.
Proof.
  destruct res as [[out st'] pushed]. intros H Hrep He. destruct (push_value_rep _ _ _ _ _ _ _ _ _ H Hrep He) as (-> & c' & -> & Hc).
  by apply sim_next.
Qed.

Lemma empty_return_rep : data_rep model (rd_bytes SReturnData.empty) (len_word SReturnData.empty) no_data.
Proof.
  split; [apply (empty_represents model (fun _ => 0))|]. split; [intros i Hi; simpl; by destruct (at_z [] i) eqn:E; [apply at_z_elem, not_elem_of_nil in E|]|].
  split; [apply (den_zero model)|]. simpl. unfold zlen. simpl. lia.
Qed.

Lemma guarded_inv g k ex res ex' :
  guarded g k ex = Ret (inl res, ex') ->
  exists o st1 pushed ex1, g ex = Ret (inl (o, st1, pushed), ex1) /\
    match o with Some o => res = (o, st1, pushed) | None => k st1 ex1 = Ret (inl res, ex') end.
Proof.
  intros H. unfold guarded in H. xstep H. destruct r as [[o st1] pushed]. exists o, st1, pushed, ex0. split; [done|].
  destruct o; [|done]. xstep H. by simplify_eq.
Qed.

(** What follows from a guard's specification, for any continuation. *)
Lemma guard_sim (R : EvmState -> Prop) st c0 ok expand o st1 pushed (k : PathState -> ExecM StepResult) ex1 res ex' r kr :
  guard_spec st ok expand o st1 pushed ->
  match o with Some o => res = (o, st1, pushed) | None => k st1 ex1 = Ret (inl res, ex') end ->
  rep st (next_pc c0 (e_pc c0 + 1)) -> 0 <= e_pc c0 -> R c0 ->
  r = (if ok then kr else ERevert no_data) ->
  (forall cs st1, ok = true -> st1 = expand (set_constraints cs st) -> rep (set_constraints cs st) (next_pc c0 (e_pc c0 + 1)) ->
     k st1 ex1 = Ret (inl res, ex') -> sim R kr res) ->
  sim R r res.
Proof.
  intros Hg Hres Hrep Hpc HR -> Hk. unfold guard_spec in Hg. destruct ok.
  - destruct Hg as [[-> (cs & -> & Hs)]|(o' & s & -> & Hin & Hs & Hret)].
    + eapply Hk; [done..| |exact Hres]. by apply rep_constraints.
    + subst res. right; right; left. exists s, c0. split; [done|]. split; [|done]. by eapply retry_rep.
  - destruct Hg as [-> Hr]. subst res. right; right; right. simpl. rewrite Hr. apply empty_return_rep.
Qed.

(** *** Growing memory *)
Lemma grow_range size o n :
  0 <= o -> 0 <= n -> 0 <= size <= limit -> access_ok limit o n = true ->
  Z.max size (range_size o n) = grow size o n /\ 0 <= grow size o n <= limit.
Proof.
  intros Ho Hn Hs Hok. unfold range_size, grow, access_ok in *. destruct (Z.eqb_spec n 0); simpl in Hok; [lia|].
  apply Z.leb_le in Hok. destruct limit_usize as [_ Hl]. pose proof (align32_le_iff (o + n + 31) limit ltac:(lia) Hl Hok).
  rewrite Z.min_r by (change word_modulus with (2 ^ 256); unfold usize_max in *; lia). lia.
Qed.

Lemma mem_rep_size m f size : mem_rep model limit m f size -> 0 <= size <= limit.
Proof. intros (_ & _ & <- & H). split; [apply mem_size_nonneg|done]. Qed.

Lemma expand_range_rep m f size offset o sz n :
  mem_rep model limit m f size -> den offset = Some o -> den sz = Some n -> access_ok limit (uval o) (uval n) = true ->
  mem_rep model limit (expand_range m offset sz) f (grow size (uval o) (uval n)).
Proof.
  intros Hrep Ho Hn Hok. pose proof (mem_rep_size _ _ _ Hrep) as Hsz. pose proof (uval_range o). pose proof (uval_range n).
  destruct (grow_range size (uval o) (uval n)) as [Hg Hgl]; [lia..|done|]. destruct Hrep as (Hm & Hat & Hms & Hle).
  assert (Hexp : forall e v, den e = Some v -> uval v = range_size (uval o) (uval n) ->
    mem_rep model limit (expand_to m e) f (grow size (uval o) (uval n))).
  { intros e v He Hv. destruct (expand_to_spec model m e v Hm He) as (H1 & H2 & H3). split; [done|]. split.
    - intros a Ha. rewrite <- Hat by done. unfold mem_at. by rewrite H3.
    - rewrite H2, Hms, Hv. lia. }
  assert (Hsym : mem_rep model limit (expand_to m (size_after_range_word offset sz)) f (grow size (uval o) (uval n))).
  { eapply Hexp; [by apply den_size_after_range|]. apply uval_U_small, range_size_word; lia. }
  unfold expand_range, const_usize. destruct (as_const offset) as [vo|] eqn:Eo; simpl; [|done].
  destruct (to_usize vo) as [uo|] eqn:Euo; [|done]. destruct (as_const sz) as [vn|] eqn:En; simpl; [|done].
  destruct (to_usize vn) as [un|] eqn:Eun; [|done]. clear Hsym.
  apply to_usize_Some in Euo as [-> Huo]. apply to_usize_Some in Eun as [-> Hun].
  rewrite <- (as_const_den _ _ _ _ Eo Ho), <- (as_const_den _ _ _ _ En Hn) in *.
  destruct (Z.eqb_spec (uval n) 0) as [E|].
  { rewrite E. unfold grow. simpl. split_and!; try done. }
  pose proof (access_ok_host (uval o) (uval n) ltac:(lia) ltac:(lia) Hok).
  eapply Hexp; [apply (den_constant model)|]. rewrite size_after_access_range by lia.
  apply uval_U_small, range_size_word; lia.
Qed.

(** The frame with its size grown for an access. *)
Definition grown (c : EvmState) (o n : Z) : EvmState :=
  mkEvm (e_pc c) (e_stack c) (e_mem c) (grow (e_size c) o n) (e_gas c) (e_ret c).

(** An opcode behind the guard of a memory range. *)
Lemma guarded_range_sim (R : EvmState -> Prop) st c0 offset o size n (k : PathState -> ExecM StepResult) kc ex res ex' :
  let c := next_pc c0 (e_pc c0 + 1) in
  guarded (guard_memory_range executor st offset size) k ex = Ret (inl res, ex') ->
  rep st c -> 0 <= e_pc c0 -> R c0 -> den offset = Some o -> den size = Some n -> analysable model offset -> analysable model size ->
  (forall st1 ex1, access_ok limit (uval o) (uval n) = true -> rep st1 (grown c (uval o) (uval n)) ->
     stack (frame st1) = stack (frame st) -> return_data (frame st1) = return_data (frame st) ->
     symbolic_writes (memory (frame st1)) = symbolic_writes (memory (frame st)) ->
     calldata (frame st1) = calldata (frame st) -> call_depth st1 = call_depth st ->
     k st1 ex1 = Ret (inl res, ex') -> sim R (kc (grown c (uval o) (uval n))) res) ->
  sim R (touching env c (uval o) (uval n) kc) res.
Proof.
  intros c H Hrep Hpc HR Ho Hn Ha Hb Hk. apply guarded_inv in H as (g & st1 & pushed & ex1 & Hg & Hres).
  eapply guard_sim; [by eapply guard_range_spec|exact Hres|exact Hrep|done|done| |].
  { unfold touching. by instantiate (1 := kc (grown c (uval o) (uval n))). }
  intros cs st2 Hok -> Hrep2 Hk2. refine (Hk (expand_guarded offset size (set_constraints cs st)) ex1 Hok _ eq_refl eq_refl _ eq_refl eq_refl Hk2).
  - pose proof Hrep2 as (_ & _ & _ & _ & _ & Hmem & _). apply rep_memory; [done|]. by apply expand_range_rep.
  - simpl. unfold expand_range, expand_to. repeat case_match; done.
Qed.

Lemma guarded_fixed_sim (R : EvmState -> Prop) st c0 offset o n (k : PathState -> ExecM StepResult) kr kc ex res ex' :
  let c := next_pc c0 (e_pc c0 + 1) in
  guarded (guard_fixed_memory_access executor st offset n) k ex = Ret (inl res, ex') ->
  rep st c -> 0 <= e_pc c0 -> R c0 -> den offset = Some o -> analysable model offset -> 0 < n <= 32 ->
  kr = touching env c (uval o) n kc ->
  (forall st1 ex1, access_ok limit (uval o) n = true -> addressable offset (n + 31) -> rep st1 c ->
     stack (frame st1) = stack (frame st) -> memory (frame st1) = memory (frame st) ->
     k st1 ex1 = Ret (inl res, ex') -> sim R (kc (grown c (uval o) n)) res) ->
  sim R kr res.
Proof.
  intros c H Hrep Hpc HR Ho Ha Hn -> Hk. apply guarded_inv in H as (g & st1 & pushed & ex1 & Hg & Hres).
  destruct (guard_fixed_spec _ _ _ _ _ _ _ _ _ _ Hg Hrep Ho Ha Hn) as [Hspec Hadr].
  eapply guard_sim; [exact Hspec|exact Hres|exact Hrep|done|done| |].
  { unfold touching. by instantiate (1 := kc (grown c (uval o) n)). }
  intros cs st2 Hok -> Hrep2 Hk2. eapply Hk; [done|by apply Hadr|exact Hrep2|done|done|exact Hk2].
Qed.

(** RETURNDATACOPY behind the guard of the return data. *)
Lemma guarded_returndata_sim (R : EvmState -> Prop) st c0 offset o size n (k : PathState -> ExecM StepResult) kr ex res ex' :
  let c := next_pc c0 (e_pc c0 + 1) in
  guarded (guard_returndata_copy_range st offset size) k ex = Ret (inl res, ex') ->
  rep st c -> 0 <= e_pc c0 -> R c0 -> den offset = Some o -> den size = Some n ->
  (forall cs ex1, rep (set_constraints cs st) c -> k (set_constraints cs st) ex1 = Ret (inl res, ex') -> sim R kr res) ->
  sim R (if uval o + uval n <=? data_len (e_ret c0) then kr else ERevert no_data) res.
Proof.
  intros c H Hrep Hpc HR Ho Hn Hk. apply guarded_inv in H as (g & st1 & pushed & ex1 & Hg & Hres).
  eapply guard_sim; [by eapply guard_returndata_spec|exact Hres|exact Hrep|done|done|reflexivity|].
  intros cs st2 _ -> Hrep2 Hk2. by eapply Hk.
Qed.
End Shared.
