(* ===== verification/SymStep.v ===== *)
(** * SymStep: every opcode of the symbolic executor simulates the machine

    For each opcode that [SStep.dispatch] handles itself, the result of the
    symbolic step covers the result of the concrete one.  [side_ok] lists what
    the proofs need to know about the operands: that hashes are not compared
    with hashes, that the arms of conditionals have values, that offsets compare
    exactly with those of earlier writes, and that copies do not read past the
    end of a slice. *)

From Stdlib Require Import ZArith Lia Bool.
From stdpp Require Import base list option gmap sets strings.
From S2P Require Import Prelude SymWord SymExpr SymSimpl SymSound SymCmp SymBytes SymSeq SymStorage SymMem SymMemSpec SymPath SymWorld SymLog SymExpect SymExec SymEvm SymSim.
Local Open Scope Z_scope.
Local Open Scope exec_scope.

(** ** Words from bytes *)

(** The word of a function from indices to bytes is the word with those bytes. *)
Lemma be_word_placed w g : placed w g 0 32 -> be_word g = w.
Proof.
  intros Hp. rewrite <- (be_value_bytes w). unfold be_word, range. rewrite map_map. do 2 f_equal.
  apply map_ext_in. intros i Hi%in_seq. rewrite (Hp (Z.of_nat i)) by lia.
  destruct (Z.leb_spec 0 (Z.of_nat i)), (Z.ltb_spec (Z.of_nat i) (0 + 32)); try lia. simpl. by rewrite Z.sub_0_r.
Qed.

Section Opcodes.
Context `{SA : SignedArith, HF : HashFns, P : Parts, SE : SolverEnv, HD : !Handlers} {SL : SignedArithLaws} {SO : SolverLaws}.
Variable model : SymbolicModel.
Variable config : SymbolicConfig.
Variable executor : ExecutorEnv.
Variable code : @SymCode JumpTable.
Variable env : EvmEnv.
Hypothesis Henv : env_rep model executor code env.
Abbreviation den := (denote_word model).
Abbreviation denb := (denote_bool model).
Abbreviation rep := (rep model env).
Abbreviation limit := (env_memory_limit env).
Abbreviation sim := (sim model env).
Import SBytes SMemory SExec SStep.

Lemma same_limit : memory_limit executor = limit. Proof. apply Henv. Qed.
Lemma limit_usize : usize_ok limit. Proof. apply Henv. Qed.

(** ** Words *)

(** The two topmost words of a path and of its frame. *)
Lemma pop2_rep {A} st c (k : SymExpr -> SymExpr -> SStack.SymStack -> A + SymbolicError) r :
  SPath.pop2 (stack (frame st)) k = inl r -> rep st c ->
  exists x y s vx vy l, k x y s = inl r /\ den x = Some vx /\ den y = Some vy /\ e_stack c = (l ++ [vy]) ++ [vx] /\
    stack (frame st) = (s ++ [y]) ++ [x] /\ rep (set_stack s st) (with_stack c l).
Proof.
  intros H Hrep. unfold SPath.pop2 in H. destruct (SStack.pop (stack (frame st))) as [[x s1]|] eqn:E1; [|done].
  destruct (SStack.pop s1) as [[y s]|] eqn:E2; [|done]. apply pop_inv in E1, E2. subst s1.
  pose proof Hrep as (_ & _ & _ & _ & Hst & _). rewrite E1 in Hst.
  apply Forall2_app_inv_l in Hst as (l1 & lx & Hst & Hx & El). apply Forall2_cons_inv_l in Hx as (vx & l0 & Hx & Hnil & ->).
  apply Forall2_nil_inv_l in Hnil as ->. apply Forall2_app_inv_l in Hst as (l & ly & Hst & Hy & ->).
  apply Forall2_cons_inv_l in Hy as (vy & l0 & Hy & Hnil & ->). apply Forall2_nil_inv_l in Hnil as ->.
  exists x, y, s, vx, vy, l. split_and!; try done. by apply rep_stack.
Qed.

Lemma stack_push_sim R st c s e v l ex res ex' :
  stack_op st (SStack.push STACK_LIMIT s e) ex = Ret (inl res, ex') ->
  rep (set_stack s st) (with_stack c l) -> den e = Some v -> sim R (epush STACK_LIMIT c l v) res.
Proof. intros H Hrep He. exact (push_sim model env R (set_stack s st) (with_stack c l) e v ex res ex' H Hrep He). Qed.

(** The frame's stack, top first. *)
Ltac estack E := unfold evm_op; rewrite E, ?rev_app_distr; cbn [rev app]; rewrite ?rev_involutive.

Lemma bin_sim R st c b ex res ex' :
  stack_op st (SPath.bin_word STACK_LIMIT b (stack (frame st))) ex = Ret (inl res, ex') -> rep st c ->
  sim R (evm_op env STACK_LIMIT c (OpBin b)) res.
Proof.
  intros H Hrep. unfold stack_op in H. xstep H. xstep H0.
  destruct (pop2_rep _ _ _ _ H0 Hrep) as (x & y & s & vx & vy & l & Hk & Hx & Hy & E & _ & Hr). estack E.
  eapply (stack_push_sim R st c s (binop b x y)); [|exact Hr|by apply (den_binop model)].
  unfold stack_op. rewrite Hk. exact H.
Qed.

Lemma den_div_zero b x y vx vy :
  den x = Some vx -> den y = Some vy -> den (ite (eq_exprs y zero) zero (binop b x y)) = Some (div_zero b vx vy).
Proof.
  intros Hx Hy. eapply (den_ite model); [by apply (cmp_const_den model)|]. unfold div_zero, u_eqb, is_zero. rewrite uval_ZERO.
  destruct (uval vy =? 0); [apply (den_zero model)|by apply (den_binop model)].
Qed.

Lemma div_sim R st c b ex res ex' :
  stack_op st (SPath.bin_word_div_zero_guard STACK_LIMIT b (stack (frame st))) ex = Ret (inl res, ex') -> rep st c ->
  sim R (evm_op env STACK_LIMIT c (OpDiv b)) res.
Proof.
  intros H Hrep. unfold stack_op in H. xstep H. xstep H0.
  destruct (pop2_rep _ _ _ _ H0 Hrep) as (x & y & s & vx & vy & l & Hk & Hx & Hy & E & _ & Hr). estack E.
  eapply (stack_push_sim R st c s); [|exact Hr|by apply den_div_zero]. unfold stack_op. rewrite Hk. exact H.
Qed.

Lemma den_known_word e v : den e = Some v -> den (match known_word e with Some w => constant w | None => e end) = Some v.
Proof.
  intros Hv. destruct (known_word e) as [w|] eqn:E; [|done].
  rewrite (known_word_sound model _ _ _ E Hv). apply (den_constant model).
Qed.

Lemma shift_sim R st c b ex res ex' :
  stack_op st (SPath.shift_word STACK_LIMIT b (stack (frame st))) ex = Ret (inl res, ex') -> rep st c ->
  sim R (evm_op env STACK_LIMIT c (OpShift b)) res.
Proof.
  intros H Hrep. unfold stack_op in H. xstep H. xstep H0.
  destruct (pop2_rep _ _ _ _ H0 Hrep) as (x & y & s & vx & vy & l & Hk & Hx & Hy & E & _ & Hr). estack E.
  eapply (stack_push_sim R st c s); [|exact Hr|by apply den_known_word, (den_binop model)]. unfold stack_op. cbn zeta in Hk. rewrite Hk. exact H.
Qed.

Lemma exp_sim R st c ex res ex' :
  stack_op st (SPath.exp_word (constraints st) STACK_LIMIT (stack (frame st))) ex = Ret (inl res, ex') -> rep st c ->
  match rev (stack (frame st)) with _ :: e :: _ => analysable model e | _ => True end ->
  sim R (evm_op env STACK_LIMIT c OpExp) res.
Proof.
  intros H Hrep Ha. unfold stack_op in H. xstep H. xstep H0.
  destruct (pop2_rep _ _ _ _ H0 Hrep) as (x & y & s & vx & vy & l & Hk & Hx & Hy & E & Es & Hr). estack E.
  rewrite Es, !rev_app_distr in Ha. cbn [rev app] in Ha.
  destruct (SPath.exp_result (constraints st) x y) as [e|] eqn:Ee; [|done].
  eapply (stack_push_sim R st c s); [unfold stack_op; rewrite Hk; exact H|exact Hr|].
  apply (exp_result_sound model (constraints st) ltac:(apply Hrep) x y vx vy e Hx Hy Ha Ee).
Qed.

(** One operand after the other. *)
Lemma push_popped_sim R st c l e v ex res ex' :
  push_value st e ex = Ret (inl res, ex') -> rep st (with_stack c l) -> den e = Some v ->
  sim R (epush STACK_LIMIT c l v) res.
Proof. intros H Hrep He. exact (push_sim model env R st (with_stack c l) e v ex res ex' H Hrep He). Qed.

(** Pops one operand [e] with the value [v] off both stacks. *)
Ltac xpop H Hrep e v :=
  let Hp := fresh "Hp" in let st1 := fresh "st" in let l := fresh "l" in let s := fresh "s" in
  let E := fresh "E" in let Es := fresh "Es" in let He := fresh "H" e in let Hr := fresh "Hr" in let ex1 := fresh "ex" in
  apply xbind_inv in H as ([e st1] & ex1 & Hp & H);
  destruct (pop_value_rep model env _ _ _ _ _ _ Hp Hrep) as (l & v & s & E & Es & He & -> & Hr);
  clear Hp Hrep; rename Hr into Hrep; simpl in E; simpl in Es.

Lemma tern_sim R st c t ex res ex' :
  (let+ (a, st) := pop_value st in let+ (b, st) := pop_value st in let+ (n, st) := pop_value st in
   push_value st (ternop t a b n)) ex = Ret (inl res, ex') -> rep st c ->
  sim R (evm_op env STACK_LIMIT c (OpTern t)) res.
Proof.
  intros H Hrep. xpop H Hrep a x. xpop H Hrep b y. xpop H Hrep m z. subst l l0. estack E.
  eapply push_popped_sim; [exact H|exact Hrep|]. apply (ternop_refines model t a b m). simpl. by rewrite Ha, Hb, Hm.
Qed.

(** A word computed from the topmost one, or from the two topmost ones. *)
Lemma unary_sim R st c (f : SymExpr -> SymExpr) (g : U256 -> U256) o ex res ex' :
  (let+ (a, st) := pop_value st in push_value st (f a)) ex = Ret (inl res, ex') -> rep st c ->
  (forall a x, den a = Some x -> den (f a) = Some (g x)) ->
  (forall x r, rev (e_stack c) = x :: r -> evm_op env STACK_LIMIT c o = epush STACK_LIMIT c (rev r) (g x)) ->
  sim R (evm_op env STACK_LIMIT c o) res.
Proof.
  intros H Hrep Hf Ho. xpop H Hrep a x. rewrite (Ho x (rev l)) by (by rewrite E, rev_app_distr). rewrite rev_involutive.
  eapply push_popped_sim; [exact H|exact Hrep|]. auto.
Qed.

Lemma binary_sim R st c (f : SymExpr -> SymExpr -> SymExpr) (g : U256 -> U256 -> U256) o ex res ex' :
  (let+ (a, st) := pop_value st in let+ (b, st) := pop_value st in push_value st (f a b)) ex = Ret (inl res, ex') ->
  rep st c -> (forall a b x y, den a = Some x -> den b = Some y -> den (f a b) = Some (g x y)) ->
  (forall x y r, rev (e_stack c) = x :: y :: r -> evm_op env STACK_LIMIT c o = epush STACK_LIMIT c (rev r) (g x y)) ->
  sim R (evm_op env STACK_LIMIT c o) res.
Proof.
  intros H Hrep Hf Ho. xpop H Hrep a x. xpop H Hrep b y. subst l.
  rewrite (Ho x y (rev l0)) by (by rewrite E, !rev_app_distr). rewrite rev_involutive.
  eapply push_popped_sim; [exact H|exact Hrep|]. auto.
Qed.

(** Without a branch target a comparison just pushes its result. *)
Lemma comparison_sim R st c l op_pc op cond b ex res ex' :
  push_comparison_result st op_pc op cond ex = Ret (inl res, ex') -> branch_target st = None ->
  rep st (with_stack c l) -> denb cond = Some b -> sim R (epush STACK_LIMIT c l (b2w b)) res.
Proof.
  intros H Hbt Hrep Hb. unfold push_comparison_result, apply_branch_target_constraint in H. rewrite Hbt in H. xstep H. xstep H0.
  simplify_eq. eapply push_popped_sim; [exact H|exact Hrep|]. unfold bool_word. eapply (den_ite model); [exact Hb|].
  destruct b; [apply (den_one model)|apply (den_zero model)].
Qed.

Lemma cmp_sim R st c cop op ex res ex' :
  (let+ (condition, s) := of_result (SPath.cmp_word_condition cop (stack (frame st))) in
   push_comparison_result (set_stack s st) (pc (frame st) - 1) op condition) ex = Ret (inl res, ex') ->
  branch_target st = None -> cop <> Eq -> rep st c -> sim R (evm_op env STACK_LIMIT c (OpCmp cop)) res.
Proof.
  intros H Hbt Hop Hrep. xstep H. destruct r as [cond s']. xstep H0.
  destruct (pop2_rep _ _ _ _ H0 Hrep) as (x & y & s & vx & vy & l & Hk & Hx & Hy & E & _ & Hr). simplify_eq. estack E.
  eapply comparison_sim; [exact H|done|exact Hr|]. by apply den_cmp.
Qed.

Lemma eq_sim R st c op ex res ex' :
  (let+ (a, st) := pop_value st in let+ (b, st) := pop_value st in
   push_comparison_result st (pc (frame st) - 1) op (eq_exprs b a)) ex = Ret (inl res, ex') ->
  branch_target st = None -> rep st c ->
  match rev (stack (frame st)) with a :: b :: _ => comparable b a = true | _ => True end ->
  sim R (evm_op env STACK_LIMIT c OpEq) res.
Proof.
  intros H Hbt Hrep Hc. xpop H Hrep a x. xpop H Hrep b y. subst l s. rewrite Es, !rev_app_distr in Hc. cbn [rev app] in Hc.
  estack E. eapply comparison_sim; [exact H|done|exact Hrep|]. unfold eq_exprs.
  apply (cmp_refines model Eq b a); [exact Hc|]. simpl. rewrite Hb, Ha. f_equal. unfold u_eqb. apply Z.eqb_sym.
Qed.

Lemma iszero_sim R st c op ex res ex' :
  (let+ (value, st) := pop_value st in push_comparison_result st (pc (frame st) - 1) op (into_zero_bool value)) ex =
    Ret (inl res, ex') ->
  branch_target st = None -> rep st c -> sim R (evm_op env STACK_LIMIT c OpIsZero) res.
Proof.
  intros H Hbt Hrep. xpop H Hrep a x. estack E. eapply comparison_sim; [exact H|done|exact Hrep|].
  by apply (into_zero_bool_sound model).
Qed.

(** ** The stack *)
Lemma Forall2_at {A B} (R : A -> B -> Prop) s l i a :
  Forall2 R s l -> at_z s i = Some a -> exists b, at_z l i = Some b /\ R a b.
Proof.
  intros Hf. unfold at_z. destruct (i <? 0); [done|]. intros Ha. destruct (Forall2_lookup_l _ _ _ _ _ Hf Ha) as (b & ? & ?). eauto.
Qed.

Lemma dup_sim R st c n ex res ex' :
  (let+ value := peek_value st (n - 1) in push_value st value) ex = Ret (inl res, ex') -> 1 <= n <= 16 -> rep st c ->
  sim R (evm_op env STACK_LIMIT c (OpDup n)) res.
Proof.
  intros H Hn Hrep. xstep H. apply peek_value_inv in H0 as [Hp ->]. apply peek_inv in Hp; [|lia].
  pose proof Hrep as (_ & _ & _ & _ & Hst & _). destruct (Forall2_at _ _ _ _ _ Hst Hp) as (v & Hv & Hd).
  assert (Hz : zlen (e_stack c) = zlen (stack (frame st))) by (unfold zlen; f_equal; symmetry; by eapply Forall2_length).
  unfold evm_op. replace (zlen (e_stack c) - n) with (zlen (stack (frame st)) - 1 - (n - 1)) by lia. rewrite Hv.
  by eapply push_sim.
Qed.

Lemma swap_sim R st c n ex res ex' :
  stack_op st (SStack.swap (stack (frame st)) n) ex = Ret (inl res, ex') -> 1 <= n <= 16 -> rep st c ->
  sim R (evm_op env STACK_LIMIT c (OpSwap n)) res.
Proof.
  intros H Hn Hrep. unfold stack_op in H. xstep H. xstep H. xstep H0. unfold SStack.swap, usize_add, checked_sub in H0.
  rewrite Z.mod_small in H0 by lia. destruct (Z.leb_spec (n + 1) (zlen (stack (frame st)))); [|done].
  pose proof Hrep as (_ & _ & _ & _ & Hst & _). set (s := stack (frame st)) in *.
  assert (Hz : zlen (e_stack c) = zlen s) by (unfold zlen; f_equal; symmetry; by eapply Forall2_length).
  destruct (at_z_Some s (zlen s - 1)) as (top & Et & _); [lia|]. destruct (at_z_Some s (zlen s - (n + 1))) as (below & Eb & _); [lia|].
  rewrite Et, Eb in H0. simplify_eq.
  destruct (Forall2_at _ _ _ _ _ Hst Et) as (vt & Hvt & Hdt). destruct (Forall2_at _ _ _ _ _ Hst Eb) as (vb & Hvb & Hdb).
  assert (Hrev : exists r, rev (e_stack c) = vt :: r).
  { destruct (e_stack c) as [|x l _] using rev_ind; [change (zlen []) with 0 in Hz; lia|]. rewrite rev_app_distr. exists (rev l).
    simpl. f_equal. rewrite <- Hz, zlen_app in Hvt. change (zlen [x]) with 1 in Hvt. pose proof (zlen_nonneg l).
    replace (zlen l + 1 - 1) with (zlen l) in Hvt by lia. rewrite at_z_app, Z.ltb_irrefl, Z.sub_diag in Hvt by lia.
    unfold at_z in Hvt. simpl in Hvt. congruence. }
  destruct Hrev as [r Hrev]. unfold evm_op. rewrite Hrev, Hz. replace (zlen s - 1 - n) with (zlen s - (n + 1)) by lia. rewrite Hvb.
  apply sim_next, rep_stack; [done|]. by repeat apply Forall2_insert.
Qed.

Lemma pop_sim R st c ex res ex' :
  (let+ (_, st) := pop_value st in xret (Continue, st, [])) ex = Ret (inl res, ex') -> rep st c ->
  sim R (evm_op env STACK_LIMIT c OpPop) res.
Proof. intros H Hrep. xpop H Hrep a x. xstep H. estack E. by apply sim_next. Qed.

(** ** Constants, the environment and the code *)
Lemma push_word_placed w n :
  0 < n <= 32 -> forall off g,
  placed w (fun k => g (off + k)) (32 - n) n ->
  placed w (fun i => if i <? 32 - n then 0 else g (off + (i - (32 - n)))) 0 32.
Proof.
  intros Hn off g Hp j Hj. rewrite (Hp j Hj).
  destruct (Z.leb_spec (32 - n) j), (Z.ltb_spec j (32 - n + n)), (Z.leb_spec 0 j), (Z.ltb_spec j (0 + 32)); try lia; simpl;
    rewrite Z.sub_0_r; destruct (Z.ltb_spec j (32 - n)); done || lia.
Qed.

Lemma push_op_sim R st c n ex res ex' :
  push_op code st n ex = Ret (inl res, ex') -> 0 <= n <= 32 -> rep st c -> e_pc c <= data_len (env_code env) ->
  sim R (evm_op env STACK_LIMIT c (OpPush n)) res.
Proof.
  intros H Hn Hrep Hle. unfold push_op in H. unfold evm_op. destruct (Z.eqb_spec n 0) as [->|].
  { eapply push_sim; [exact H|exact Hrep|apply (den_zero model)]. }
  destruct Henv as (Hok & Hat & Hlen & Hmax & _). pose proof Hrep as (_ & _ & Hpc0 & Hpc & _).
  assert (Hsat : sat_add (pc (frame st)) n = e_pc c + n) by (unfold sat_add; rewrite Hpc; lia). rewrite Hsat in H.
  destruct (Z.ltb_spec (code_len code) (e_pc c + n)); [done|]. xstep H. xstep H1. unfold push_data_word in H1. rewrite Hpc in H1.
  destruct (right_aligned_sound model (code_bytes code) (e_pc c) n Hok) as (e & w & He & Hw & Hp); [unfold usize_ok; lia..|].
  rewrite H1 in He. simplify_eq. set (v := be_word _).
  assert (v = w) as ->.
  { unfold v. apply be_word_placed, push_word_placed; [lia|]. eapply placed_ext, Hp. intros k Hk. apply Hat. lia. }
  assert (Hrep' : rep (set_pc (e_pc c + n) st) (next_pc c (e_pc c + n))) by (apply rep_pc; [done|lia]).
  exact (push_sim model env R _ (next_pc c (e_pc c + n)) e w ex res ex' H Hrep' Hw).
Qed.

(** The words that the environment, the calldata, the return data and the
    memory give. *)
Lemma den_value_op st c o :
  rep st c -> is_env_op o = true ->
  forall ex res ex' R, push_value st (block_value st o) ex = Ret (inl res, ex') ->
  sim R (evm_op env STACK_LIMIT c o) res.
Proof.
  intros Hrep Ho ex res ex' R H. pose proof Hrep as (_ & (_ & _ & _ & Hv & _) & _). specialize (Hv o Ho).
  pose proof (push_sim model env R st c _ _ ex res ex' H Hrep Hv) as Hs. by destruct o.
Qed.

Lemma returndatasize_sim R st c ex res ex' :
  push_value st (len_word (return_data (frame st))) ex = Ret (inl res, ex') -> rep st c ->
  sim R (evm_op env STACK_LIMIT c OpReturnDataSize) res.
Proof. intros H Hrep. pose proof Hrep as (_ & _ & _ & _ & _ & _ & _ & _ & _ & Hl & _). by eapply push_sim. Qed.

Lemma msize_sim R st c ex res ex' :
  push_value st (SMemory.size_word (memory (frame st))) ex = Ret (inl res, ex') -> rep st c ->
  sim R (evm_op env STACK_LIMIT c OpMSize) res.
Proof.
  intros H Hrep. pose proof Hrep as (_ & _ & _ & _ & _ & (Hm & _ & Hsz & _) & _). eapply push_sim; [exact H|exact Hrep|].
  rewrite <- Hsz. by apply size_word_spec.
Qed.

Lemma gas_sim R st c ex res ex' :
  (let '(gas, st) := fresh_gasleft st in push_value st gas) ex = Ret (inl res, ex') -> rep st c ->
  sim R (evm_op env STACK_LIMIT c OpGas) res.
Proof.
  intros H Hrep. cbn [fresh_gasleft] in H. unfold evm_op. pose proof Hrep as (_ & _ & _ & _ & _ & _ & Hn & _).
  destruct Henv as (_ & _ & _ & _ & _ & _ & _ & _ & _ & Hg).
  assert (Hrep' := rep_symbol model env st c (next_symbol st + 1) Hrep). rewrite Hn in Hrep'.
  unfold fresh_gasleft in H. rewrite Hn in H.
  refine (push_sim model env R _ _ _ _ ex res ex' H Hrep' _). simpl. by rewrite Hg.
Qed.

Lemma blobhash_sim R st c ex res ex' :
  blobhash_op st ex = Ret (inl res, ex') -> rep st c ->
  sim R (evm_op env STACK_LIMIT c OpBlobHash) res.
Proof.
  intros H Hrep. unfold blobhash_op in H. pose proof Hrep as (Hs & (_ & _ & _ & _ & Hb) & _). xpop H Hrep i x. xstep H. xstep H0. estack E.
  eapply push_popped_sim; [exact H|exact Hrep|]. rewrite (den_constant model). f_equal.
  unfold SPath.expect_constrained_usize, SPath.constrained_usize, SPath.constrained_usize_checked in H0.
  destruct (SPath.constrained_word _ i) as [k|] eqn:Ek; [|done].
  assert (x = k) as -> by (by eapply (constrained_word_sound model (constraints st))). simpl in H0.
  destruct (to_usize k) as [n|] eqn:En; [|done]. apply to_usize_Some in En as [-> Hn]. simplify_eq/=. apply Hb. apply Hn.
Qed.

(** CALLDATALOAD; a constant offset must not be among the last 32 host
    addresses. *)
Definition load_offset_ok (offset : SymExpr) : Prop :=
  match as_const offset with Some v => uval v <= usize_max -> uval v + 32 <= usize_max | None => True end.

Lemma calldataload_sim R st c ex res ex' :
  (let+ (offset, st) := pop_value st in
   let+ value := lift (SCalldata.load_word (calldata (frame st)) offset) in push_value st value) ex = Ret (inl res, ex') ->
  rep st c -> match rev (stack (frame st)) with o :: _ => load_offset_ok o | _ => True end ->
  sim R (evm_op env STACK_LIMIT c OpCallDataLoad) res.
Proof.
  intros H Hrep Hl. pose proof Hrep as (_ & ((Hok & Hat & _) & Hsz & Hmax & _) & _). xpop H Hrep o x.
  rewrite Es, rev_app_distr in Hl. cbn [rev app] in Hl. xstep H. xstep H0. estack E. cbn [calldata frame set_stack with_frame] in H0.
  set (cd := calldata (frame st)) in *. pose proof (uval_range x).
  assert (Hw : exists w, den r = Some w /\ calldata_word model cd (uval x) w).
  { unfold load_offset_ok in Hl. destruct (as_const o) as [v|] eqn:Ev.
    - pose proof (as_const_den _ _ _ _ Ev Ho) as <-. destruct (Z.leb_spec (uval x) usize_max) as [Hle|Hgt].
      + destruct (calldata_load_spec model cd o x) as (e & w & He & Hw & Hc); try done; [by intros v' Hv'; simplify_eq; auto|].
        rewrite H0 in He. simplify_eq. eauto.
      + unfold SCalldata.load_word in H0. rewrite Ev in H0. unfold to_usize in H0. destruct (Z.leb_spec (uval x) usize_max); [lia|].
        simplify_eq. exists ZERO. split; [apply (den_zero model)|]. apply past_word; [done|]. destruct (len_usize model _ Hok). lia.
    - destruct (calldata_load_spec model cd o x) as (e & w & He & Hw & Hc); try done; [by intros v' Hv'; simplify_eq|].
      rewrite H0 in He. simplify_eq. eauto. }
  destruct Hw as (w & Hw & Hc). set (v := be_word _). assert (v = w) as ->; [|by eapply push_popped_sim].
  unfold v. apply be_word_placed. eapply placed_ext, Hc. intros k Hk. apply Hat. lia.
Qed.

(** ** Jumps *)
Section Jumps.
Hypothesis no_loop_bound : loop_bound config = None.

Lemma take_loop_jump_all st a b : take_loop_jump config st a b = (true, st).
Proof. unfold take_loop_jump. by rewrite no_loop_bound. Qed.

(** The destination that the path forces is the frame's. *)
Lemma resolve_jump_spec st dest d reason r :
  resolve_jump_destination st (jump_table code) dest reason = inl r -> sat model st -> den dest = Some d ->
  match r with
  | Some n => n = uval d /\ env_valid_jump env (uval d) = true
  | None => env_valid_jump env (uval d) = false
  end.
Proof.
  intros H Hs Hd. destruct Henv as (_ & _ & _ & _ & Hv & Hbig & _). pose proof (uval_range d).
  unfold resolve_jump_destination, SPath.expect_constrained_word in H.
  destruct (SPath.constrained_word (constraints st) dest) as [k|] eqn:Ek; [|done].
  assert (d = k) as -> by (by eapply (constrained_word_sound model (constraints st))). simplify_eq.
  destruct (to_usize k) as [n|] eqn:En; simpl.
  - apply to_usize_Some in En as [-> Hn]. rewrite Hv by done. by destruct (env_valid_jump env (uval k)).
  - unfold to_usize in En. destruct (Z.leb_spec (uval k) usize_max); [done|]. by apply Hbig.
Qed.

Lemma taken_sim R st c dest d n pushed :
  rep st c -> den dest = Some d -> n = uval d -> env_valid_jump env (uval d) = true ->
  sim R (evm_jump env c d) (Continue, set_pc n st, pushed).
Proof.
  intros Hrep Hd -> Hv. unfold evm_jump. rewrite Hv. apply sim_next, rep_pc; [done|]. apply uval_range.
Qed.

Lemma jump_sim R st c ex res ex' :
  jump_op config (jump_table code) st ex = Ret (inl res, ex') -> rep st c ->
  sim R (evm_op env STACK_LIMIT c OpJump) res.
Proof.
  intros H Hrep. unfold jump_op in H. xpop H Hrep d x. xstep H. xstep H0. estack E.
  pose proof (resolve_jump_spec _ _ _ _ _ H0 ltac:(apply Hrep) Hd) as Hr. destruct r as [n|].
  - rewrite take_loop_jump_all in H. xstep H. destruct Hr. by eapply taken_sim.
  - unfold exceptional_halt in H. xstep H. unfold evm_jump. rewrite Hr. by eapply exceptional_sim.
Qed.

Lemma nonzero_den cond v : den cond = Some v -> denb (nonzero_bool cond) = Some (negb (is_zero v)).
Proof. intros Hv. unfold nonzero_bool. rewrite den_not_bool, (into_zero_bool_sound model _ _ Hv). done. Qed.

(** The invalid destination: the taken side halts exceptionally, the other goes on. *)
Lemma invalid_jumpi_sim R st c cond v d ex res ex' :
  branch_invalid_jumpi st (nonzero_bool cond) ex = Ret (inl res, ex') -> rep st c -> den cond = Some v ->
  env_valid_jump env (uval d) = false ->
  sim R (if is_zero v then ENext c else evm_jump env c d) res.
Proof.
  intros H Hrep Hv Hd. pose proof (nonzero_den _ _ Hv) as Hc. pose proof Hrep as (Hs & Hrest). unfold evm_jump. rewrite Hd.
  unfold branch_invalid_jumpi in H. xstep H. destruct r as [tcs tsat].
  destruct (split_corpus_seed_models st (nonzero_bool cond)) as [ts fs].
  assert (Hnot : denb (SBool.not_bool (nonzero_bool cond)) = Some (is_zero v)) by (rewrite den_not_bool, Hc; simpl; by rewrite negb_involutive).
  destruct (is_zero v) eqn:Ez; simpl in Hc.
  - destruct tsat; simpl in H.
    + xstep H. destruct r as [ncs nsat]. destruct (with_condition_spec model _ _ _ _ _ _ H1 Hs Hnot) as [-> Hncs]. xstep H.
      right; left. eexists _, c. split; [by left|]. split; [done|]. exact (conj Hncs Hrest).
    + xstep H. apply sim_next. refine (conj _ Hrest). by apply sat_extend.
  - destruct (with_condition_spec model _ _ _ _ _ _ H0 Hs Hc) as [-> Htcs]. simpl in H. xstep H. destruct r as [ncs nsat]. xstep H.
    right; right; right. exact (rep_target _ _ _ _ Hrep).
Qed.

Lemma branch_order_in t f s : s ∈ branch_order config t f <-> s = t \/ s = f.
Proof. unfold branch_order. repeat case_match; set_solver. Qed.

Lemma jumpi_sim R st c ex res ex' :
  jumpi_op config (jump_table code) st ex = Ret (inl res, ex') -> rep st c ->
  sim R (evm_op env STACK_LIMIT c OpJumpI) res.
Proof.
  intros H Hrep. unfold jumpi_op in H. xpop H Hrep d x. xpop H Hrep b y. subst l. estack E.
  set (st1 := set_stack s0 (set_stack s st)) in *. set (c1 := with_stack (with_stack c (l0 ++ [y])) l0) in *.
  change (with_stack c l0) with c1. pose proof Hrep as (Hs & Hrest).
  destruct (as_const b) as [k|] eqn:Ek; simpl in H.
  { pose proof (as_const_den _ _ _ _ Ek Hb) as <-. destruct (is_zero y); simpl in H; [xstep H; by apply sim_next|].
    xstep H. xstep H0. pose proof (resolve_jump_spec _ _ _ _ _ H0 Hs Hd) as Hr. destruct r as [n|].
    - rewrite take_loop_jump_all in H. xstep H. destruct Hr. by eapply taken_sim.
    - unfold exceptional_halt in H. xstep H. unfold evm_jump. rewrite Hr. by eapply exceptional_sim. }
  pose proof (nonzero_den _ _ Hb) as Hc.
  assert (Hnot : denb (SBool.not_bool (nonzero_bool b)) = Some (is_zero y)) by (rewrite den_not_bool, Hc; simpl; by rewrite negb_involutive).
  destruct (resolve_jump_destination st1 (jump_table code) d _) as [[n|]|err] eqn:Er.
  - pose proof (resolve_jump_spec _ _ _ _ _ Er Hs Hd) as [-> Hv].
    destruct (split_corpus_seed_models st1 (nonzero_bool b)) as [ts fs]. rewrite take_loop_jump_all in H. xstep H.
    right; left. destruct (is_zero y); simpl in Hc, Hnot.
    + eexists _, c1. split; [apply branch_order_in; by right|]. split; [done|]. split; [by apply sat_extend|].
      destruct Hrest as (Hst & Hp0 & Hp & Hf). refine (conj Hst (conj Hp0 (conj _ Hf))). exact Hp.
    + eexists _, (next_pc c1 (uval x)). split; [apply branch_order_in; by left|]. unfold evm_jump. rewrite Hv. split; [done|].
      split; [by apply sat_extend|]. destruct Hrest as (Hst & Hp0 & Hp & Hf).
      refine (conj Hst (conj _ (conj eq_refl Hf))). apply uval_range.
  - pose proof (resolve_jump_spec _ _ _ _ _ Er Hs Hd) as Hv. by eapply invalid_jumpi_sim.
  - xstep H. destruct r as [cs taken]. destruct taken; [done|]. destruct (split_corpus_seed_models st1 (nonzero_bool b)) as [ts fs].
    xstep H. destruct (is_zero y) eqn:Ez; simpl in Hc.
    + apply sim_next. refine (conj _ Hrest). by apply sat_extend.
    + by destruct (with_condition_spec model _ _ _ _ _ _ H0 Hs Hc).
Qed.
End Jumps.

(** ** Memory *)
Lemma peek_rev s n e : SStack.peek s n = inl e -> 0 <= n < 1024 -> rev s !! Z.to_nat n = Some e.
Proof.
  intros H Hn. apply peek_inv in H; [|done]. unfold at_z in H. destruct (Z.ltb_spec (zlen s - 1 - n) 0); [done|].
  unfold zlen in *. replace (rev s) with (reverse s) by (by rewrite rev_alt).
  rewrite reverse_lookup by lia. rewrite <- H. f_equal. lia.
Qed.

Lemma rep_rev st c : rep st c -> Forall2 (fun e v => den e = Some v) (rev (stack (frame st))) (rev (e_stack c)).
Proof. intros (_ & _ & _ & _ & Hst & _). replace (rev (stack (frame st))) with (reverse (stack (frame st))) by (by rewrite rev_alt).
  replace (rev (e_stack c)) with (reverse (e_stack c)) by (by rewrite rev_alt). by apply Forall2_reverse. Qed.

(** Peeked operands, from the top. *)
Ltac xpeek H :=
  let Hp := fresh "Hp" in let ex1 := fresh "ex" in let e := fresh "e" in
  apply xbind_inv in H as (e & ex1 & Hp & H); apply peek_value_inv in Hp as [Hp ->]; apply peek_rev in Hp; [|lia].

(** Pops an operand that is known from the shape of the stack. *)
Lemma pop_known st c e st' ex ex' a r x l :
  pop_value st ex = Ret (inl (e, st'), ex') -> rep st c -> rev (stack (frame st)) = a :: r -> rev (e_stack c) = x :: l ->
  e = a /\ st' = set_stack (rev r) st /\ rev (stack (frame st')) = r /\ rep st' (with_stack c (rev l)) /\
  rev (e_stack (with_stack c (rev l))) = l.
Proof.
  intros H Hrep Hr Hl. destruct (pop_value_rep model env _ _ _ _ _ _ H Hrep) as (l0 & v & s & E & Es & He & -> & Hrep').
  rewrite Es, rev_app_distr in Hr. cbn [rev app] in Hr. simplify_eq. rewrite E, rev_app_distr in Hl. cbn [rev app] in Hl. simplify_eq.
  simpl. rewrite !rev_involutive. split_and!; try done.
Qed.

(** The operands of an opcode that looks at them before it pops them. *)
Lemma rep_operand st c a r :
  rep st c -> rev (stack (frame st)) = a :: r -> exists x l, rev (e_stack c) = x :: l /\ den a = Some x /\
    Forall2 (fun e v => den e = Some v) r l.
Proof.
  intros Hrep Hst. pose proof (rep_rev _ _ Hrep) as Hf. rewrite Hst in Hf.
  apply Forall2_cons_inv_l in Hf as (x & l & Ho & Hf & El). eauto.
Qed.

Ltac xpop_known H Hrep Hst Hl :=
  let Hp := fresh "Hp" in let ex1 := fresh "ex" in let Hst' := fresh "Hst" in let Hl' := fresh "Hl" in let Hrep' := fresh "Hrep" in
  apply xbind_inv in H as ([? ?] & ex1 & Hp & H);
  destruct (pop_known _ _ _ _ _ _ _ _ _ _ Hp Hrep Hst Hl) as (-> & -> & Hst' & Hrep' & Hl'); clear Hp Hrep Hst Hl;
  rename Hrep' into Hrep; rename Hst' into Hst; rename Hl' into Hl.

Lemma store_floor_bound cs e v n :
  Forall (fun c => denb c = Some true) cs -> den e = Some v -> analysable model e -> 0 < n -> access_ok limit (uval v) n = true ->
  store_floor (uval v) n (SPath.lower_bound_usize cs e).
Proof.
  intros Hcs Hv Ha Hn Hok. pose proof (uval_range v). right. split; [by apply (lower_bound_usize_sound model cs Hcs)|].
  apply (access_ok_host env limit_usize) in Hok; [|lia..]. change word_modulus with (2 ^ 256). unfold usize_max in *. lia.
Qed.

(** A store as the frame sees it. *)
Lemma stored_rep m m' f size o b n k g :
  mem_rep model limit m f size -> stored model m m' o b (range_size o n) -> represents model b k g -> 0 <= o -> 0 <= n ->
  access_ok limit o n = true -> mem_rep model limit m' (mem_write f o k g) (grow size o n).
Proof.
  intros Hm (Hok & Hat & Hsz) (Hb & Hl & Hg) Ho Hn Hacc. pose proof (mem_rep_size model env _ _ _ Hm).
  destruct (grow_range env limit_usize size o n) as [Hgr Hle]; [done..|]. destruct Hm as (Hm & Hf & Hms & _).
  split; [done|]. split; [|rewrite Hsz, Hms, Hgr; lia]. intros a Ha. rewrite Hat. unfold updated, mem_write. rewrite Hl.
  destruct (Z.ltb_spec ((a - o) mod word_modulus) k); [|by apply Hf]. apply Hg.
  split; [|done]. by apply Z.mod_pos_bound.
Qed.

Lemma mstore_sim (R : EvmState -> Prop) c0 st ex res ex' o v r :
  let c := next_pc c0 (e_pc c0 + 1) in
  mstore_op executor st ex = Ret (inl res, ex') -> rep st c -> 0 <= e_pc c0 -> R c0 ->
  rev (stack (frame st)) = o :: v :: r -> analysable model o ->
  sim R (evm_op env STACK_LIMIT c OpMStore) res.
Proof.
  intros c H Hrep Hpc HR Hst Ha. unfold mstore_op in H. xpeek H. rewrite Hst in Hp. simpl in Hp. simplify_eq.
  destruct (rep_operand _ _ _ _ Hrep Hst) as (x & l & El & Ho & Hf). apply Forall2_cons_inv_l in Hf as (y & l' & Hv & _ & ->).
  unfold evm_op. rewrite El. unfold evm_copy.
  eapply (guarded_fixed_sim model executor env same_limit limit_usize); [exact H|exact Hrep|done|done|exact Ho|done|lia|reflexivity|].
  intros st1 ex1 Hok Hadr Hrep1 Es Em Hk. cbv beta in Hk. rewrite <- Es in Hst.
  xpop_known Hk Hrep1 Hst El. xpop_known Hk Hrep1 Hst El. xstep Hk. apply sim_next.
  pose proof Hrep1 as (Hs & _ & _ & _ & _ & Hmem & _). pose proof (uval_range x).
  refine (rep_memory model env _ _ _ _ _ Hrep1 _). eapply stored_rep; [exact Hmem| |by apply word_represents|lia..|done].
  eapply store_word_offset_spec; try done; [apply Hmem|by apply store_floor_bound].
Qed.

(** A store that did not panic was given a byte or a symbolic word. *)
Lemma store_byte_value m offset value minimum m' v :
  store_byte_offset m offset value minimum = Ret m' -> den value = Some v -> addressable offset 32 ->
  match as_const value with Some c => uval c < 256 | None => True end.
Proof.
  intros H Hv Hadr. destruct (as_const value) as [k|] eqn:Ek; [|done]. destruct (Z.lt_ge_cases (uval k) 256) as [|Hge]; [done|].
  assert (Hp : low_byte value = Panic) by (apply low_byte_Panic; exists k; split; [by eapply as_const_shape|done]).
  unfold store_byte_offset, store_byte in H. rewrite Hp in H. destruct (as_const offset) as [o|] eqn:Eo; [|done].
  specialize (Hadr o Eo). unfold to_usize in H. destruct (Z.leb_spec (uval o) usize_max); [done|lia].
Qed.

Lemma mstore8_sim (R : EvmState -> Prop) c0 st ex res ex' o v r :
  let c := next_pc c0 (e_pc c0 + 1) in
  mstore8_op executor st ex = Ret (inl res, ex') -> rep st c -> 0 <= e_pc c0 -> R c0 ->
  rev (stack (frame st)) = o :: v :: r -> analysable model o ->
  sim R (evm_op env STACK_LIMIT c OpMStore8) res.
Proof.
  intros c H Hrep Hpc HR Hst Ha. unfold mstore8_op in H. xpeek H. rewrite Hst in Hp. simpl in Hp. simplify_eq.
  destruct (rep_operand _ _ _ _ Hrep Hst) as (x & l & El & Ho & Hf). apply Forall2_cons_inv_l in Hf as (y & l' & Hv & _ & ->).
  unfold evm_op. rewrite El. unfold evm_copy.
  eapply (guarded_fixed_sim model executor env same_limit limit_usize); [exact H|exact Hrep|done|done|exact Ho|done|lia|reflexivity|].
  intros st1 ex1 Hok Hadr Hrep1 Es Em Hk. cbv beta in Hk. rewrite <- Es in Hst.
  xpop_known Hk Hrep1 Hst El. xpop_known Hk Hrep1 Hst El. unfold store_memory in Hk. xstep Hk. xstep Hk. xstep H0. apply sim_next.
  pose proof Hrep1 as (Hs & _ & _ & _ & _ & Hmem & _). pose proof (uval_range x).
  refine (rep_memory model env _ _ _ _ _ Hrep1 _).
  pose proof (store_byte_value _ _ _ _ _ _ H0 Hv Hadr) as Hb.
  destruct (store_byte_offset_spec model _ _ x v y _ (proj1 Hmem) Ho Hv Hb Hadr ltac:(by apply store_floor_bound)) as (m' & b & Hm' & Hrb & Hstd).
  rewrite H0 in Hm'. simplify_eq. eapply stored_rep; [exact Hmem|exact Hstd|exact Hrb|lia..|done].
Qed.

Lemma mload_sim (R : EvmState -> Prop) c0 st ex res ex' o r :
  let c := next_pc c0 (e_pc c0 + 1) in
  mload_op executor st ex = Ret (inl res, ex') -> rep st c -> 0 <= e_pc c0 -> R c0 ->
  rev (stack (frame st)) = o :: r -> analysable model o -> readable (memory (frame st)) o 32 ->
  sim R (evm_op env STACK_LIMIT c OpMLoad) res.
Proof.
  intros c H Hrep Hpc HR Hst Ha Hrd. unfold mload_op in H. xpeek H. rewrite Hst in Hp. simpl in Hp. simplify_eq.
  destruct (rep_operand _ _ _ _ Hrep Hst) as (x & l & El & Ho & Hf). unfold evm_op. rewrite El.
  eapply (guarded_fixed_sim model executor env same_limit limit_usize); [exact H|exact Hrep|done|done|exact Ho|done|lia|reflexivity|].
  intros st1 ex1 Hok Hadr Hrep1 Es Em Hk. cbv beta in Hk. rewrite <- Es in Hst. rewrite <- Em in Hrd.
  xpop_known Hk Hrep1 Hst El. xstep Hk. destruct r0 as [value m]. xstep H0. pose proof (uval_range x).
  pose proof Hrep1 as (_ & _ & _ & _ & _ & Hmem & _).
  destruct (load_word_offset_spec model _ e x (proj1 Hmem) Ho Hadr Hrd) as (e' & w & m' & Hl & Hw & Hp & Hok' & Hat' & Hsz').
  rewrite H0 in Hl. simplify_eq.
  assert (Hm' : mem_rep model limit m' (e_mem c) (grow (e_size c) (uval x) 32)).
  { destruct (grow_range env limit_usize (e_size c) (uval x) 32) as [Hg Hgl]; [lia..|by eapply (mem_rep_size model env)|done|].
    destruct Hmem as (_ & Hat & Hms & _). split; [done|]. split; [intros a Haa; rewrite Hat'; by apply Hat|]. rewrite Hsz', Hms. split; [exact Hg|apply Hgl]. }
  assert (Hrep2 := rep_memory model env _ _ _ _ _ Hrep1 Hm').
  set (v := be_word _). assert (v = w) as ->; [|exact (push_sim model env R _ _ _ _ _ _ _ Hk Hrep2 Hw)].
  unfold v. apply be_word_placed. eapply placed_ext, Hp. intros k Hk'. unfold mem_from. apply Hmem. by apply Z.mod_pos_bound.
Qed.

(** ** Sized operands *)
Section Sized.
Hypothesis calldata_limit : 0 <= max_calldata_bytes config /\ max_calldata_bytes config + 31 <= usize_max.
Abbreviation bound := (max_calldata_bytes config).

(** The size is known exactly, or too large for the host, or bounded. *)
Lemma sized_operand_cases {A} st size n top reason (exact : Z -> ExecM A) too_large bounded ex a ex' :
  sized_operand st size top reason exact too_large bounded ex = Ret (inl a, ex') ->
  sat model st -> den size = Some n -> analysable model size -> 0 <= top <= usize_max ->
  (usize_ok (uval n) /\ exact (uval n) ex = Ret (inl a, ex')) \/
  (usize_max < uval n /\ too_large ex = Ret (inl a, ex')) \/
  (exists m ex1, as_const size = None /\ uval n <= m <= top /\ bounded m ex1 = Ret (inl a, ex')).
Proof.
  intros H Hs Hn Ha Ht. unfold sized_operand, SPath.constrained_usize_checked in H. pose proof (uval_range n).
  destruct (SPath.constrained_word (constraints st) size) as [k|] eqn:Ek; simpl in H.
  - assert (n = k) as -> by (by eapply (constrained_word_sound model (constraints st))). unfold to_usize in H.
    destruct (Z.leb_spec (uval k) usize_max); [left|right; left]; split; (done || unfold usize_ok; lia).
  - right; right. xstep H. exists r, ex0. split; [|split; [by eapply (solver_bound_spec model)|done]].
    unfold SPath.constrained_word in Ek. by destruct (as_const size).
Qed.

(** How far an opcode with this size operand may read. *)
Definition operand_limit (size : SymExpr) : Z :=
  match as_const size with Some v => uval v | None => Z.max (den_val model size) bound end.

Lemma operand_limit_value size n : den size = Some n -> uval n <= operand_limit size.
Proof.
  intros Hn. unfold operand_limit. destruct (as_const size) as [v|] eqn:Ev; [by rewrite (as_const_den _ _ _ _ Ev Hn)|].
  rewrite (den_val_Some _ _ _ Hn). lia.
Qed.

Lemma operand_limit_bound size : as_const size = None -> bound <= operand_limit size.
Proof. intros E. unfold operand_limit. rewrite E. lia. Qed.

(** A range of symbolic size stays in the address space up to the bound. *)
Definition range_ok (offset size : SymExpr) : Prop := as_const size = None -> addressable offset (bound + 31).

Lemma addressable_le offset n k : k <= n -> addressable offset n -> addressable offset k.
Proof. intros Hk Ha v Hv. specialize (Ha v Hv). lia. Qed.

Lemma accessed_addressable offset o n : den offset = Some o -> 0 < n -> access_ok limit (uval o) n = true -> addressable offset (n + 31).
Proof.
  intros Ho Hn Hok v Hv. rewrite <- (as_const_den _ _ _ _ Hv Ho). pose proof (uval_range o).
  apply (access_ok_host env limit_usize) in Hok; lia.
Qed.

(** What the host can address does not exceed its words. *)
Lemma accessed_usize o n : 0 <= o -> 0 <= n -> access_ok limit o n = true -> n <= usize_max.
Proof.
  intros Ho Hn Hok. destruct (Z.eq_dec n 0) as [->|]; [unfold usize_max; lia|].
  apply (access_ok_host env limit_usize) in Hok; lia.
Qed.

Lemma readable_writes m m' offset n : symbolic_writes m' = symbolic_writes m -> readable m offset n -> readable m' offset n.
Proof. intros E H w. rewrite E. apply H. Qed.

Lemma slice_fits_le b offset k l : k <= l -> slice_fits b offset l -> slice_fits b offset k.
Proof. unfold slice_fits. intros Hk. destruct (eval_usize offset); [|done]. intros [H1 H2]. split; [lia|]. destruct H2; [by left|right; lia]. Qed.

Lemma grow_twice size o n : grow (grow size o n) o n = grow size o n.
Proof. unfold grow. destruct (n =? 0); lia. Qed.

(** A copy into memory that has been grown for it. *)
Lemma copied_rep m m' f size o n g h :
  mem_rep model limit m f size -> grow size o n = size -> copied model m m' o n g -> (forall i, 0 <= i < n -> g i = h i) ->
  mem_size model m' = Z.max (mem_size model m) (range_size o n) -> 0 <= o -> 0 <= n -> access_ok limit o n = true ->
  mem_rep model limit m' (mem_write f o n h) size.
Proof.
  intros Hm Hidem [Hok Hat] Hgh Hsz Ho Hn Hacc. pose proof (mem_rep_size model env _ _ _ Hm) as Hg.
  destruct (grow_range env limit_usize size o n) as [Hgr _]; [done..|]. destruct Hm as (_ & Hf & Hms & Hle).
  split; [done|]. split; [|rewrite Hsz, Hms, Hgr, Hidem; done]. intros a Ha. rewrite Hat by done. unfold mem_write. simpl.
  destruct (Z.ltb_spec ((a - o) mod word_modulus) n); [|by apply Hf]. apply Hgh. split; [|done]. by apply Z.mod_pos_bound.
Qed.

Lemma set_memory_id st : set_memory (memory (frame st)) st = st.
Proof. destruct st. unfold set_memory. simpl. match goal with |- context [memory ?f] => by destruct f end. Qed.

Lemma set_memory_same st m : m = memory (frame st) -> set_memory m st = st.
Proof. intros ->. apply set_memory_id. Qed.

(** A copy of nothing. *)
Lemma copied_empty_rep m f size o g : mem_rep model limit m f size -> mem_rep model limit m (mem_write f o 0 g) size.
Proof.
  intros (Hok & Hat & Hsz). split; [done|]. split; [|done]. intros a Ha. rewrite Hat by done. unfold mem_write.
  pose proof (Z.mod_pos_bound (a - o) word_modulus ltac:(done)). destruct (Z.ltb_spec ((a - o) mod word_modulus) 0); [lia|done].
Qed.

(** The three operands of a copy. *)
Lemma operands3 st c a b d r :
  rep st c -> rev (stack (frame st)) = a :: b :: d :: r ->
  exists x y z l, rev (e_stack c) = x :: y :: z :: l /\ den a = Some x /\ den b = Some y /\ den d = Some z.
Proof.
  intros Hrep Hst. destruct (rep_operand _ _ _ _ Hrep Hst) as (x & l & El & Ha & Hf).
  apply Forall2_cons_inv_l in Hf as (y & l' & Hb & Hf & ->). apply Forall2_cons_inv_l in Hf as (z & l'' & Hd & _ & ->). eauto 10.
Qed.

(** The end of a copy: the memory holds the bytes that the frame writes. *)
Lemma copy_done_sim R st c m' o n g h rest :
  rep st (with_stack c rest) -> grow (e_size c) o n = e_size c ->
  copied model (memory (frame st)) m' o n g -> (forall i, 0 <= i < n -> g i = h i) ->
  mem_size model m' = Z.max (mem_size model (memory (frame st))) (range_size o n) -> 0 <= o -> 0 <= n ->
  access_ok limit o n = true ->
  sim R (ENext (with_stack (with_mem c (mem_write (e_mem c) o n h)) rest)) (Continue, set_memory m' st, []).
Proof.
  intros Hrep Hidem Hc Hgh Hsz Ho Hn Hok. apply sim_next. pose proof Hrep as (_ & _ & _ & _ & _ & Hmem & _).
  refine (rep_memory model env _ _ _ _ _ Hrep _). by eapply copied_rep.
Qed.

Lemma copy_nothing_sim R st c o g rest :
  rep st (with_stack c rest) -> sim R (ENext (with_stack (with_mem c (mem_write (e_mem c) o 0 g)) rest)) (Continue, st, []).
Proof.
  intros Hrep. apply sim_next. pose proof Hrep as (_ & _ & _ & _ & _ & Hmem & _).
  rewrite <- (set_memory_id st). refine (rep_memory model env _ _ _ _ _ Hrep _). by apply copied_empty_rep.
Qed.

(** ** Copies *)

(** A destination of symbolic size: addressable and comparable with the writes. *)
Definition copy_ok (m : SymMemory) (dest size : SymExpr) : Prop :=
  as_const size = None -> addressable dest (bound + 31) /\ readable m dest bound.

(** A copy of the bytes that a bounded read returned. *)
Lemma bounded_copy m dest d size n b k m' h :
  SCopy.copy_bytes_size_offset m dest size b = Ret m' -> mem_ok model m -> den dest = Some d -> den size = Some n ->
  represents model b k h -> uval n <= k <= bound -> as_const size = None -> copy_ok m dest size ->
  copied model m m' (uval d) (uval n) h /\ mem_size model m' = Z.max (mem_size model m) (range_size (uval d) (uval n)).
Proof.
  intros H Hm Hd Hn (Hb & Hl & Hat) Hk Hnone Hok. destruct (Hok Hnone) as [Hadr Hrd]. pose proof (uval_range n).
  destruct (copy_bytes_size_spec model m dest d size n b) as (m1 & Hm1 & Hc & Hsz); try done; [lia|eapply addressable_le, Hadr; lia|eapply readable_le, Hrd; lia|].
  rewrite H in Hm1. simplify_eq. rewrite Z.min_l in Hc by lia. split; [|apply Hsz; lia].
  eapply copied_ext, Hc. intros i Hi. apply Hat. lia.
Qed.

Lemma copy_ok_writes m m' dest size : symbolic_writes m' = symbolic_writes m -> copy_ok m dest size -> copy_ok m' dest size.
Proof. intros E H Hn. destruct (H Hn). split; [done|]. by eapply readable_writes. Qed.

(** A copy from a sequence of bytes, for any way to read and to store it. *)
Lemma sequence_copy_sim R c st l b f g dest d offset o size n top reason exact too_large bounded ex res ex' :
  sized_operand st size top reason exact too_large bounded ex = Ret (inl res, ex') ->
  rep st (with_stack (grown c (uval d) (uval n)) l) -> e_mem c = f ->
  den dest = Some d -> den offset = Some o -> den size = Some n -> analysable model size -> 0 <= top <= bound ->
  access_ok limit (uval d) (uval n) = true -> copy_ok (memory (frame st)) dest size ->
  seq_ok model b -> (forall i, 0 <= i -> seq_at model b i = g i) -> slice_fits b offset (operand_limit size) ->
  (exact (uval n) ex = Ret (inl res, ex') -> usize_ok (uval n) ->
     (uval n = 0 /\ res = (Continue, st, [])) \/
     (exists m', res = (Continue, set_memory m' st, []) /\
        copied model (memory (frame st)) m' (uval d) (uval n) (fun i => seq_at model b (uval o + i)) /\
        mem_size model m' = Z.max (mem_size model (memory (frame st))) (range_size (uval d) (uval n)))) ->
  (forall m ex1, bounded m ex1 = Ret (inl res, ex') -> uval n <= m ->
     (m = 0 /\ res = (Continue, st, [])) \/
     (exists s m', slice b offset m = Ret s /\ SCopy.copy_bytes_size_offset (memory (frame st)) dest size s = Ret m' /\
        res = (Continue, set_memory m' st, []))) ->
  sim R (ENext (with_stack (with_mem (grown c (uval d) (uval n)) (mem_write f (uval d) (uval n) (fun i => g (uval o + i)))) l)) res.
Proof.
  intros H Hrep Hf Hd Ho Hn Ha Ht Hok Hcopy Hb Hg Hfit Hexact Hbounded. subst f. pose proof Hrep as (Hs & _ & _ & _ & _ & Hmem & _).
  pose proof (uval_range d). pose proof (uval_range n). pose proof (uval_range o).
  assert (Hext : forall i, 0 <= i < uval n -> seq_at model b (uval o + i) = g (uval o + i)) by (intros; apply Hg; lia).
  assert (Hnone : uval n = 0 -> res = (Continue, st, []) -> sim R (ENext (with_stack (with_mem (grown c (uval d) (uval n))
    (mem_write (e_mem c) (uval d) (uval n) (fun i => g (uval o + i)))) l)) res).
  { intros E ->. rewrite E in *. exact (copy_nothing_sim R st _ _ _ _ Hrep). }
  destruct (sized_operand_cases _ _ _ _ _ _ _ _ _ _ _ H Hs Hn Ha ltac:(lia)) as [[Hu Hex]|[[Hbig _]|(m & ex1 & Hnc & Hle & Hbd)]].
  - destruct (Hexact Hex Hu) as [[E ->]|(m' & -> & Hc & Hsz)]; [by apply Hnone|].
    refine (copy_done_sim R st _ m' _ _ _ _ _ Hrep (grow_twice _ _ _) Hc Hext Hsz _ _ Hok); lia.
  - apply accessed_usize in Hok; lia.
  - destruct (Hbounded m ex1 Hbd ltac:(lia)) as [[E ->]|(s & m' & Hsl & Hst & ->)]; [apply Hnone; [lia|done]|].
    destruct (slice_spec model b offset m o) as (s' & Hs' & Hrs); [done|unfold usize_ok; lia|done| |].
    { eapply slice_fits_le, Hfit. pose proof (operand_limit_bound _ Hnc). lia. }
    rewrite Hsl in Hs'. simplify_eq.
    destruct (bounded_copy _ _ _ _ _ _ _ _ _ Hst ltac:(apply Hmem) Hd Hn Hrs ltac:(lia) Hnc Hcopy) as [Hc Hsz].
    refine (copy_done_sim R st _ m' _ _ _ _ _ Hrep (grow_twice _ _ _) Hc Hext Hsz _ _ Hok); lia.
Qed.

Lemma calldatacopy_sim (R : EvmState -> Prop) c0 st ex res ex' d o n r :
  let c := next_pc c0 (e_pc c0 + 1) in
  calldatacopy_op config executor st ex = Ret (inl res, ex') -> rep st c -> 0 <= e_pc c0 -> R c0 ->
  rev (stack (frame st)) = d :: o :: n :: r -> analysable model d -> analysable model n ->
  copy_ok (memory (frame st)) d n -> slice_fits (cd_bytes (calldata (frame st))) o (operand_limit n) ->
  sim R (evm_op env STACK_LIMIT c OpCallDataCopy) res.
Proof.
  intros c H Hrep Hpc HR Hst Had Han Hcopy Hfit. unfold calldatacopy_op in H. xpeek H. xpeek H. rewrite Hst in Hp, Hp0. simpl in Hp, Hp0. simplify_eq.
  destruct (operands3 _ _ _ _ _ _ Hrep Hst) as (x & y & z & l & El & Hd & Ho & Hn). unfold evm_op. rewrite El. unfold evm_copy.
  eapply (guarded_range_sim model executor env same_limit limit_usize); [exact H|exact Hrep|done|done|exact Hd|exact Hn|done..|].
  intros st1 ex1 Hok Hrep1 Es _ Ew Ec _ Hk. cbv beta in Hk. rewrite <- Es in Hst. rewrite <- Ec in Hfit.
  apply (copy_ok_writes _ _ _ _ Ew) in Hcopy. clear Ew Es.
  change (e_stack c) with (e_stack (grown c (uval x) (uval z))) in El.
  xpop_known Hk Hrep1 Hst El. xpop_known Hk Hrep1 Hst El. xpop_known Hk Hrep1 Hst El.
  pose proof Hrep1 as (_ & Hstat & _ & _ & _ & Hmem & _). destruct Hstat as ((Hcok & Hcat & _) & _).
  pose proof (uval_range z).
  refine (sequence_copy_sim R c _ _ _ _ _ _ _ _ _ _ _ _ _ _ _ _ _ _ _ Hk Hrep1 eq_refl Hd Ho Hn Han _ Hok Hcopy Hcok Hcat Hfit _ _); [lia|..].
  - cbv beta. intros Hex Hu. destruct (Z.eqb_spec (uval z) 0) as [E|E]; [xstep Hex; by left|right].
    unfold store_memory in Hex. xstep Hex. xstep Hex. xstep H1. exists r0. split; [done|].
    destruct (copy_calldata_spec model _ e x o y (uval z) _ (proj1 Hmem) Hd Ho Hu Hcok) as (m' & Hm' & Hc & Hsz).
    + apply (accessed_addressable _ _ _ Hd); [lia|done].
    + eapply slice_fits_le, Hfit. by apply operand_limit_value.
    + rewrite H1 in Hm'. by simplify_eq.
  - cbv beta. intros m exb Hb Hle. destruct (Z.eqb_spec m 0) as [E|E]; [xstep Hb; by left|right].
    unfold store_memory in Hb. xstep Hb. xstep Hb. xstep H1. unfold SCopy.copy_calldata_symbolic_size in H1.
    apply obind_Ret in H1 as (s & Hs & Hm). by exists s, r0.
Qed.

Lemma codecopy_sim (R : EvmState -> Prop) c0 st ex res ex' d o n r :
  let c := next_pc c0 (e_pc c0 + 1) in
  codecopy_op config executor code st ex = Ret (inl res, ex') -> rep st c -> 0 <= e_pc c0 -> R c0 ->
  rev (stack (frame st)) = d :: o :: n :: r -> analysable model d -> analysable model n ->
  copy_ok (memory (frame st)) d n -> slice_fits (code_bytes code) o (operand_limit n) ->
  sim R (evm_op env STACK_LIMIT c OpCodeCopy) res.
Proof.
  intros c H Hrep Hpc HR Hst Had Han Hcopy Hfit. unfold codecopy_op in H. xpeek H. xpeek H. rewrite Hst in Hp, Hp0. simpl in Hp, Hp0. simplify_eq.
  destruct (operands3 _ _ _ _ _ _ Hrep Hst) as (x & y & z & l & El & Hd & Ho & Hn). unfold evm_op. rewrite El. unfold evm_copy.
  eapply (guarded_range_sim model executor env same_limit limit_usize); [exact H|exact Hrep|done|done|exact Hd|exact Hn|done..|].
  intros st1 ex1 Hok Hrep1 Es _ Ew _ _ Hk. cbv beta in Hk. rewrite <- Es in Hst.
  apply (copy_ok_writes _ _ _ _ Ew) in Hcopy. clear Ew Es.
  change (e_stack c) with (e_stack (grown c (uval x) (uval z))) in El.
  xpop_known Hk Hrep1 Hst El. xpop_known Hk Hrep1 Hst El. xpop_known Hk Hrep1 Hst El.
  pose proof Hrep1 as (_ & _ & _ & _ & _ & Hmem & _). destruct Henv as (Hcok & Hcat & _). pose proof (uval_range z).
  refine (sequence_copy_sim R c _ _ _ _ _ _ _ _ _ _ _ _ _ _ _ _ _ _ _ Hk Hrep1 eq_refl Hd Ho Hn Han _ Hok Hcopy Hcok Hcat Hfit _ _); [lia|..].
  - cbv beta. intros Hex Hu. right. xstep Hex. xstep H1. xstep Hex. eexists. split; [done|].
    destruct (slice_spec model (code_bytes code) o (uval z) y Hcok Hu Ho) as (b & Hb & Hrb);
      [eapply slice_fits_le, Hfit; by apply operand_limit_value|].
    unfold code_read_bytes_offset, read_offset in H1. rewrite H1 in Hb. simplify_eq.
    refine (store_represented_spec model _ e x _ (uval z) _ (proj1 Hmem) Hd Hrb _). intros Hz. by apply (accessed_addressable _ _ _ Hd).
  - cbv beta. intros m exb Hb Hle. destruct (Z.eqb_spec m 0) as [E|E]; [xstep Hb; by left|right].
    xstep Hb. xstep H1. unfold store_memory in Hb. xstep Hb. xstep H2. xstep Hb. by exists r0, r1.
Qed.

(** ** Opcodes behind two guards *)

(** The frames whose next opcode has the same result. *)
Definition same_step (op : Opcode) (c0 c1 : EvmState) : Prop :=
  e_pc c1 = e_pc c0 /\ evm_op env STACK_LIMIT (next_pc c1 (e_pc c1 + 1)) op = evm_op env STACK_LIMIT (next_pc c0 (e_pc c0 + 1)) op.

Lemma touching_grown c o n k :
  access_ok limit o n = true -> touching env (grown c o n) o n k = touching env c o n k.
Proof. intros Hok. unfold touching, grown. simpl. by rewrite Hok, grow_twice. Qed.

(** The first guard may leave the memory grown; the opcode then runs again. *)
Lemma same_step_grown op c0 d o n l :
  (op = OpReturnDataCopy \/ op = OpMCopy) -> rev (e_stack c0) = d :: o :: n :: l -> access_ok limit (uval d) (uval n) = true ->
  same_step op c0 (grown c0 (uval d) (uval n)).
Proof.
  intros Hop El Hok. split; [done|]. change (next_pc (grown c0 ?a ?b) ?p) with (grown (next_pc c0 p) a b).
  unfold evm_op. change (e_stack (next_pc c0 _)) with (e_stack c0). cbn [e_stack grown next_pc]. rewrite El.
  destruct Hop as [-> | ->]; by apply touching_grown.
Qed.

Lemma returndatacopy_sim c0 st ex res ex' d o n r :
  let c := next_pc c0 (e_pc c0 + 1) in
  returndatacopy_op config executor st ex = Ret (inl res, ex') -> rep st c -> 0 <= e_pc c0 ->
  rev (stack (frame st)) = d :: o :: n :: r -> analysable model d -> analysable model n ->
  copy_ok (memory (frame st)) d n -> slice_fits (rd_bytes (return_data (frame st))) o (operand_limit n) ->
  sim (same_step OpReturnDataCopy c0) (evm_op env STACK_LIMIT c OpReturnDataCopy) res.
Proof.
  intros c H Hrep Hpc Hst Had Han Hcopy Hfit. unfold returndatacopy_op in H. xpeek H. xpeek H. xpeek H.
  rewrite Hst in Hp, Hp0, Hp1. simpl in Hp, Hp0, Hp1. simplify_eq.
  destruct (operands3 _ _ _ _ _ _ Hrep Hst) as (x & y & z & l & El & Hd & Ho & Hn). unfold evm_op. rewrite El.
  eapply (guarded_range_sim model executor env same_limit limit_usize); [exact H|exact Hrep|done|done|exact Hd|exact Hn|done..|].
  intros st1 ex1 Hok Hrep1 Es Er Ew _ _ Hk. cbv beta in Hk. rewrite <- Es in Hst. rewrite <- Er in Hfit.
  apply (copy_ok_writes _ _ _ _ Ew) in Hcopy. clear Ew Es Er.
  assert (HR : same_step OpReturnDataCopy c0 (grown c0 (uval x) (uval z))) by (eapply same_step_grown; [by left|exact El|done]).
  eapply (guarded_returndata_sim model env (same_step OpReturnDataCopy c0) st1 (grown c0 (uval x) (uval z)));
    [exact Hk|exact Hrep1|done|exact HR|exact Ho|exact Hn|]. clear Hk ex1.
  intros cs ex1 Hrep3 Hk. cbv beta in Hk.
  change (next_pc (grown c0 (uval x) (uval z)) _) with (grown c (uval x) (uval z)) in Hrep3.
  change (rev (stack (frame (set_constraints cs st1))) = e :: e0 :: e1 :: r) in Hst.
  change (slice_fits (rd_bytes (return_data (frame (set_constraints cs st1)))) e0 (operand_limit e1)) in Hfit.
  change (copy_ok (memory (frame (set_constraints cs st1))) e e1) in Hcopy.
  unfold evm_copy. rewrite touching_grown by done. unfold touching. rewrite Hok. fold (grown c (uval x) (uval z)).
  change (e_stack c) with (e_stack (grown c (uval x) (uval z))) in El.
  xpop_known Hk Hrep3 Hst El. xpop_known Hk Hrep3 Hst El. xpop_known Hk Hrep3 Hst El.
  pose proof Hrep3 as (_ & _ & _ & _ & _ & Hmem & _ & Hret). destruct Hret as (Hrok & Hrat & _). pose proof (uval_range z).
  destruct (len_usize model _ Hrok).
  refine (sequence_copy_sim _ c _ _ _ _ _ _ _ _ _ _ _ _ _ _ _ _ _ _ _ Hk Hrep3 eq_refl Hd Ho Hn Han _ Hok Hcopy Hrok Hrat Hfit _ _).
  - case_match; unfold SReturnData.len in *; simpl in *; lia.
  - cbv beta. intros Hex Hu. unfold store_memory_result in Hex. xstep Hex. xstep H3. xstep Hex. xstep H4. xstep Hex.
    destruct (Z.eq_dec (uval z) 0) as [E|E].
    { left. split; [done|]. unfold SCopy.copy_return_data_to_offset in H3. rewrite E in H3. simpl in H3. by simplify_eq. }
    right. exists r1. split; [done|].
    destruct (copy_return_data_spec model _ e x e0 y (uval z) _ (proj1 Hmem) Hd Ho Hu Hrok) as (m' & Hm' & Hc).
    + apply (accessed_addressable _ _ _ Hd); [lia|done].
    + eapply slice_fits_le, Hfit. by apply operand_limit_value.
    + rewrite H3 in Hm'. simplify_eq. exact Hc.
  - cbv beta. intros m exb Hb Hle. unfold store_memory_result in Hb. xstep Hb. xstep H3. xstep Hb. xstep H4. xstep Hb. subst r0.
    unfold SCopy.copy_return_data_symbolic_size in H3. destruct (Z.eqb_spec m 0) as [E|E].
    { left. split; [done|]. by simplify_eq. }
    right. case_match; [|done]. apply obind_Ret in H3 as (s & Hs & H3). apply obind_Ret in H3 as (m' & Hm' & H3). simplify_eq. by exists s, r1.
Qed.

Lemma grow_between size d o n : grow (grow (grow size d n) o n) d n = grow (grow size d n) o n.
Proof. unfold grow. destruct (n =? 0); lia. Qed.

(** A memory read as the frame sees it. *)
Lemma mem_from_rep m f size o i : mem_rep model limit m f size -> mem_from model m o i = f ((o + i) mod word_modulus).
Proof. intros (_ & Hat & _). unfold mem_from. apply Hat. by apply Z.mod_pos_bound. Qed.

Lemma mcopy_sim c0 st ex res ex' d o n r :
  let c := next_pc c0 (e_pc c0 + 1) in
  mcopy_op config executor st ex = Ret (inl res, ex') -> rep st c -> 0 <= e_pc c0 ->
  rev (stack (frame st)) = d :: o :: n :: r -> analysable model d -> analysable model o -> analysable model n ->
  copy_ok (memory (frame st)) d n -> range_ok o n -> readable (memory (frame st)) o (operand_limit n) ->
  sim (same_step OpMCopy c0) (evm_op env STACK_LIMIT c OpMCopy) res.
Proof.
  intros c H Hrep Hpc Hst Had Hao Han Hcopy Hro Hrd. unfold mcopy_op in H. xpeek H. xpeek H. xpeek H.
  rewrite Hst in Hp, Hp0, Hp1. simpl in Hp, Hp0, Hp1. simplify_eq.
  destruct (operands3 _ _ _ _ _ _ Hrep Hst) as (x & y & z & l & El & Hd & Ho & Hn). unfold evm_op. rewrite El.
  eapply (guarded_range_sim model executor env same_limit limit_usize); [exact H|exact Hrep|done|done|exact Hd|exact Hn|done..|].
  intros st1 ex1 Hok Hrep1 Es _ Ew _ _ Hk. cbv beta in Hk. rewrite <- Es in Hst.
  apply (copy_ok_writes _ _ _ _ Ew) in Hcopy. apply (readable_writes _ _ _ _ Ew) in Hrd. clear Ew Es.
  assert (HR : same_step OpMCopy c0 (grown c0 (uval x) (uval z))) by (eapply same_step_grown; [by right|exact El|done]).
  eapply (guarded_range_sim model executor env same_limit limit_usize (same_step OpMCopy c0) st1 (grown c0 (uval x) (uval z)));
    [exact Hk|exact Hrep1|done|exact HR|exact Ho|exact Hn|done..|]. clear Hk ex1.
  intros st2 ex1 Hok2 Hrep2 Es _ Ew _ _ Hk. cbv beta in Hk. rewrite <- Es in Hst.
  apply (copy_ok_writes _ _ _ _ Ew) in Hcopy. apply (readable_writes _ _ _ _ Ew) in Hrd. clear Ew Es.
  change (next_pc (grown c0 (uval x) (uval z)) _) with (grown c (uval x) (uval z)) in *.
  set (c2 := grown (grown c (uval x) (uval z)) (uval y) (uval z)) in *. change (e_stack c) with (e_stack c2) in El.
  xpop_known Hk Hrep2 Hst El. xpop_known Hk Hrep2 Hst El. xpop_known Hk Hrep2 Hst El.
  pose proof Hrep2 as (Hs & _ & _ & _ & _ & Hmem & _). pose proof (uval_range x). pose proof (uval_range y). pose proof (uval_range z).
  pose proof (operand_limit_value _ _ Hn).
  assert (Hidem : grow (e_size c2) (uval x) (uval z) = e_size c2) by apply grow_between.
  assert (Hext : forall i, 0 <= i < uval z -> mem_from model (memory (frame st2)) (uval y) i = e_mem c2 ((uval y + i) mod word_modulus)).
  { intros i _. by eapply mem_from_rep. }
  destruct (sized_operand_cases _ _ _ _ _ _ _ _ _ _ _ Hk Hs Hn Han ltac:(lia)) as [[Hu Hex]|[[Hbig _]|(m & exb & Hnc & Hle & Hbd)]].
  - unfold store_memory in Hex. xstep Hex. xstep H4. xstep Hex. destruct (Z.eq_dec (uval z) 0) as [E|E].
    { unfold SCopy.copy_memory_to_offset in H4. rewrite E in *. injection H4 as <-. rewrite set_memory_same by done. exact (copy_nothing_sim _ _ c2 _ _ _ Hrep2). }
    destruct (copy_memory_spec model _ e x e0 y (uval z) (proj1 Hmem) Hd Ho Hu) as (m' & Hm' & Hc & Hsz).
    + apply (accessed_addressable _ _ _ Hd); [lia|done].
    + eapply addressable_le; [|apply (accessed_addressable _ _ (uval z) Ho); [lia|done]]. lia.
    + eapply readable_le, Hrd. lia.
    + rewrite H4 in Hm'. simplify_eq. refine (copy_done_sim _ _ c2 m' _ _ _ _ _ Hrep2 Hidem Hc Hext Hsz _ _ Hok); lia.
  - apply accessed_usize in Hok; lia.
  - destruct (Z.eqb_spec m 0) as [E|E].
    { xstep Hbd. assert (Ez : uval z = 0) by lia. rewrite Ez in *. exact (copy_nothing_sim _ _ c2 _ _ _ Hrep2). }
    unfold store_memory in Hbd. xstep Hbd. xstep H4. xstep Hbd. destruct (Hcopy Hnc) as [Hadr Hrdd]. pose proof (operand_limit_bound _ Hnc).
    destruct (copy_memory_symbolic_spec model _ e x e0 y e1 z m (proj1 Hmem) Hd Ho Hn) as (m' & Hm' & Hc & Hsz);
      [lia..|eapply addressable_le, Hadr; lia|eapply addressable_le, (Hro Hnc); lia|eapply readable_le, Hrd; lia|eapply readable_le, Hrdd; lia|].
    rewrite H4 in Hm'. simplify_eq. rewrite Z.min_l in Hc by lia.
    refine (copy_done_sim _ _ c2 m' _ _ _ _ _ Hrep2 Hidem Hc Hext (Hsz _) _ _ Hok); lia.
Qed.

(** ** Hashes *)
Lemma denote_bytes_values es ns k :
  Forall2 (fun e n => den e = Some (U n)) es ns -> Forall (fun n => 0 <= n < 256) ns ->
  denote_bytes model k es = Some (take k ns).
Proof.
  intros Hf. revert k. induction Hf as [|e n es ns He _ IH]; intros k Hns; [by destruct k|]. apply Forall_cons in Hns as [Hn Hns].
  destruct k as [|k]; [done|]. simpl. rewrite He, IH by done. simpl.
  rewrite low_byte_of_small; rewrite uval_byte by done; [done|lia].
Qed.

Lemma take_range {A} (f : Z -> A) n l : 0 <= n <= l -> take (Z.to_nat n) (map f (range l)) = map f (range n).
Proof.
  intros Hn. unfold range. rewrite !List.firstn_map, take_seq. by rewrite Nat.min_l by lia.
Qed.

(** The hash of a prefix of a byte sequence. *)
Lemma keccak_word_spec pre pre' b len n e :
  SWorld.keccak_word_with_len pre (materialize b) len = Ret (e, pre') -> seq_ok model b -> den len = Some n -> uval n <= SBytes.len b ->
  den e = Some (keccak256 (map (seq_at model b) (range (uval n)))).
Proof.
  intros H Hb Hn Hle. destruct (len_usize model b Hb) as [Hl0 Hl]. pose proof (uval_range n).
  destruct (materialize_sound model b Hb) as [Hvals Hbytes].
  assert (Hrange : Forall (fun n => 0 <= n < 256) (seq_values model b)).
  { apply Forall_map, Forall_forall. intros i _. by apply seq_at_range. }
  assert (Hlen : zlen (materialize b) = SBytes.len b) by (unfold materialize; by rewrite zlen_map, zlen_range).
  assert (Hsym : den (EKeccak (stable_symbol (len :: materialize b)) len (materialize b)) =
    Some (keccak256 (map (seq_at model b) (range (uval n))))).
  { rewrite denote_EKeccak, Hn. fold (zlen (materialize b)). rewrite Hlen.
    rewrite !(proj2 (Z.leb_le _ _)) by lia. simpl. erewrite denote_bytes_values by done. simpl. unfold seq_values. by rewrite take_range by lia. }
  unfold SWorld.keccak_word_with_len in H. destruct (as_const len) as [v|] eqn:Ev; simpl in H; [|by simplify_eq].
  pose proof (as_const_den _ _ _ _ Ev Hn) as <-. destruct (to_usize n) as [k|] eqn:Ek; [|by simplify_eq].
  apply to_usize_Some in Ek as [-> Hk]. rewrite Hlen, (proj2 (Z.leb_le _ _)) in H by lia.
  apply obind_Ret in H as (r & Hr & H). destruct r as [ns|]; [|by simplify_eq]. simplify_eq.
  rewrite (den_constant model). do 2 f_equal.
  assert (Hpre : Forall (is_byte_expr model) (take (Z.to_nat (uval n)) (materialize b))) by (by apply Forall_take).
  rewrite (concrete_exprs_vals model _ _ Hpre Hr). change (map (den_val model)) with (fmap (M := list) (den_val model)).
  rewrite fmap_take. change (fmap (M := list) (den_val model)) with (map (den_val model)).
  rewrite (materialize_vals model) by done. unfold seq_values. by rewrite take_range by lia.
Qed.

(** The bytes of a read as the frame lists them. *)
Lemma read_values m f size b o n k :
  mem_rep model limit m f size -> represents model b k (fun i => if i <? n then mem_from model m o i else 0) -> 0 <= n <= k ->
  map (seq_at model b) (range n) = data_list (mem_read f o n).
Proof.
  intros Hm (_ & _ & Hat) Hn. unfold data_list. simpl. apply map_ext_in. intros i Hi%list_elem_of_In%elem_of_range.
  rewrite Hat by lia. destruct (Z.ltb_spec i n), (Z.leb_spec 0 i); try lia. by eapply mem_from_rep.
Qed.

Lemma exact_represents b n f : represents model b n f -> represents model b n (fun i => if i <? n then f i else 0).
Proof. intros H. eapply represents_ext, H. intros i Hi. destruct (Z.ltb_spec i n); [done|lia]. Qed.

Lemma rep_preimage st c hash bytes : rep st c -> rep (record_preimage st hash bytes) c.
Proof. intros Hrep. unfold record_preimage. case_match; exact Hrep. Qed.

(** The two operands of a range. *)
Lemma operands2 st c a b r :
  rep st c -> rev (stack (frame st)) = a :: b :: r ->
  exists x y l, rev (e_stack c) = x :: y :: l /\ den a = Some x /\ den b = Some y.
Proof.
  intros Hrep Hst. destruct (rep_operand _ _ _ _ Hrep Hst) as (x & l & El & Ha & Hf).
  apply Forall2_cons_inv_l in Hf as (y & l' & Hb & _ & ->). eauto 8.
Qed.

(** What a range of memory needs so that it can be read. *)
Definition range_readable (m : SymMemory) (offset size : SymExpr) : Prop :=
  range_ok offset size /\ readable m offset (operand_limit size).

Lemma exact_read m f sz offset o n b size :
  read_bytes_offset m offset (uval n) = Ret b -> mem_rep model limit m f sz -> den offset = Some o -> den size = Some n ->
  usize_ok (uval n) -> access_ok limit (uval o) (uval n) = true -> range_readable m offset size ->
  represents model b (uval n) (fun i => if i <? uval n then mem_from model m (uval o) i else 0).
Proof.
  intros H Hm Ho Hn Hu Hok [_ Hrd]. apply exact_represents.
  destruct (read_bytes_any_spec model m offset o (uval n)) as (b' & Hb & Hrep); [apply Hm|done..| | |].
  - intros Hz. eapply addressable_le; [|by eapply accessed_addressable]. lia.
  - eapply readable_le, Hrd. by apply operand_limit_value.
  - rewrite H in Hb. by simplify_eq.
Qed.

Lemma bounded_read m f sz offset o n b size k :
  read_bytes_symbolic_size m offset size k = Ret b -> mem_rep model limit m f sz -> den offset = Some o -> den size = Some n ->
  as_const size = None -> uval n <= k <= bound -> range_readable m offset size ->
  represents model b k (fun i => if i <? uval n then mem_from model m (uval o) i else 0).
Proof.
  intros H Hm Ho Hn Hnc Hk [Hro Hrd]. pose proof (uval_range n). pose proof (operand_limit_bound _ Hnc).
  destruct (read_symbolic_size_spec model m offset o size n k) as (b' & Hb & Hrep);
    [apply Hm|done..|unfold usize_ok; lia|intros _; eapply addressable_le, (Hro Hnc); lia|eapply readable_le, Hrd; lia|].
  rewrite H in Hb. by simplify_eq.
Qed.

Lemma keccak_sim (R : EvmState -> Prop) c0 st ex res ex' o n r :
  let c := next_pc c0 (e_pc c0 + 1) in
  keccak_op config executor st ex = Ret (inl res, ex') -> rep st c -> 0 <= e_pc c0 -> R c0 ->
  rev (stack (frame st)) = o :: n :: r -> analysable model o -> analysable model n ->
  range_readable (memory (frame st)) o n ->
  sim R (evm_op env STACK_LIMIT c OpKeccak) res.
Proof.
  intros c H Hrep Hpc HR Hst Hao Han Hrr. unfold keccak_op in H. xpeek H. xpeek H. rewrite Hst in Hp, Hp0. simpl in Hp, Hp0. simplify_eq.
  destruct (operands2 _ _ _ _ _ Hrep Hst) as (x & z & l & El & Ho & Hn). unfold evm_op. rewrite El.
  eapply (guarded_range_sim model executor env same_limit limit_usize); [exact H|exact Hrep|done|done|exact Ho|exact Hn|done..|].
  intros st1 ex1 Hok Hrep1 Es _ Ew _ _ Hk. cbv beta in Hk. rewrite <- Es in Hst.
  destruct Hrr as [Hro Hrd]. apply (readable_writes _ _ _ _ Ew) in Hrd. clear Ew Es.
  set (c1 := grown c (uval x) (uval z)) in *. change (e_stack c) with (e_stack c1) in El.
  xpop_known Hk Hrep1 Hst El. xpop_known Hk Hrep1 Hst El.
  pose proof Hrep1 as (Hs & _ & _ & _ & _ & Hmem & _). pose proof (uval_range z). pose proof (uval_range x).
  assert (Hrr : range_readable (memory (frame st1)) e e0) by done.
  change (mem_rep model limit (memory (frame st1)) (e_mem c1) (e_size c1)) in Hmem.
  destruct (SPath.constrained_usize_checked _ e0) as [[k|v]|] eqn:Ek.
  - unfold SPath.constrained_usize_checked in Ek. destruct (SPath.constrained_word _ e0) as [w|] eqn:Ew; [|done]. simpl in Ek.
    assert (z = w) as -> by (by eapply (constrained_word_sound model _ Hs)). destruct (to_usize w) as [k'|] eqn:Eu; simplify_eq.
    apply to_usize_Some in Eu as [-> Hu]. xstep Hk. xstep H2. xstep Hk. xstep H3.
    unfold read_byte_exprs_offset in H2. apply obind_Ret in H2 as (b & Hb & H2). simplify_eq.
    pose proof (exact_read _ _ _ _ _ _ _ _ Hb Hmem Ho Hn Hu Hok Hrr) as Hrb. pose proof Hrb as (Hbok & Hlen & _).
    assert (Hh : den r1 = Some (keccak256 (data_list (mem_read (e_mem c1) (uval x) (uval w))))).
    { rewrite <- (read_values _ _ _ _ _ _ _ Hmem Hrb) by lia. unfold SWorld.keccak_word in H3.
      replace (zlen (materialize b)) with (uval w) in H3 by (unfold materialize; rewrite zlen_map, zlen_range; lia).
      rewrite U_uval in H3. eapply keccak_word_spec; [exact H3|done|apply (den_constant model)|lia]. }
    case_match; [exact (push_sim model env R _ _ _ _ _ _ _ Hk (rep_preimage _ _ _ _ Hrep1) Hh)|exact (push_sim model env R _ _ _ _ _ _ _ Hk Hrep1 Hh)].
  - unfold SPath.constrained_usize_checked in Ek. destruct (SPath.constrained_word _ e0) as [w|] eqn:Ew; [|done]. simpl in Ek.
    assert (z = w) as -> by (by eapply (constrained_word_sound model _ Hs)). unfold to_usize in Ek.
    destruct (Z.leb_spec (uval w) usize_max); [done|]. apply accessed_usize in Hok; lia.
  - xstep Hk. clear H2. xstep Hk. xstep Hk. xstep H3. xstep Hk. xstep H4.
    unfold read_byte_exprs_symbolic_size in H3. apply obind_Ret in H3 as (b & Hb & H3). simplify_eq.
    assert (Hnc : as_const e0 = None).
    { unfold SPath.constrained_usize_checked, SPath.constrained_word in Ek. by destruct (as_const e0). }
    pose proof (solver_bound_spec model _ _ _ _ _ _ _ _ H2 Hs Hn Han ltac:(lia)) as Hle.
    pose proof (bounded_read _ _ _ _ _ _ _ _ _ Hb Hmem Ho Hn Hnc Hle Hrr) as Hrb. pose proof Hrb as (Hbok & Hlen & _).
    assert (Hh : den r3 = Some (keccak256 (data_list (mem_read (e_mem c1) (uval x) (uval z))))).
    { rewrite <- (read_values _ _ _ _ _ _ _ Hmem Hrb) by lia. eapply keccak_word_spec; [exact H4|done..|lia]. }
    exact (push_sim model env R _ _ _ _ _ _ _ Hk Hrep1 Hh).
Qed.

(** ** Return and revert *)
Lemma returned_rep m f sz b o n k size :
  mem_rep model limit m f sz -> represents model b k (fun i => if i <? n then mem_from model m o i else 0) -> 0 <= n <= k ->
  den size = Some (U n) -> data_rep model b size (mem_read f o n).
Proof.
  intros Hm (Hb & Hl & Hat) Hn Hd. split; [done|]. split; [|split; [done|simpl; lia]]. intros i Hi. simpl.
  destruct (Z.leb_spec 0 i); [|lia]. simpl. destruct (Z.lt_ge_cases i k).
  - rewrite Hat by done. destruct (i <? n); [by eapply mem_from_rep|done].
  - rewrite seq_at_past by (done || lia). destruct (Z.ltb_spec i n); [lia|done].
Qed.

(** A revert is reported as a failure only if its data says so. *)
Lemma classify_revert_spec st f sz offset o n out :
  classify_revert st offset n = Ret out -> mem_rep model limit (memory (frame st)) f sz -> den offset = Some o ->
  usize_ok n -> access_ok limit (uval o) n = true ->
  out = Revert \/ (out = Failure /\ is_assertion_revert (data_list (mem_read f (uval o) n)) = true).
Proof.
  intros H Hm Ho Hn Hok. unfold classify_revert in H. destruct (call_depth st =? 0); [|simplify_eq; by left].
  destruct (as_const offset) as [v|] eqn:Ev; simpl in H; [|simplify_eq; by left]. pose proof (as_const_den _ _ _ _ Ev Ho) as <-.
  destruct (to_usize o) as [k|] eqn:Ek; [|simplify_eq; by left]. apply to_usize_Some in Ek as [-> Hk].
  apply obind_Ret in H as (r & Hr & H). destruct r as [data|]; [|simplify_eq; by left].
  destruct (is_assertion_revert data) eqn:Ea; simplify_eq; [right|by left]. split; [done|]. rewrite <- Ea. f_equal.
  assert (Hfit : uval o + n <= usize_max).
  { unfold usize_ok in *. destruct (Z.eq_dec n 0) as [->|]; [lia|]. apply (access_ok_host env limit_usize) in Hok; lia. }
  destruct (read_concrete_spec model _ _ _ (proj1 Hm) Hk Hn Hfit) as [E|E]; rewrite E in Hr; simplify_eq.
  unfold data_list. simpl. apply map_ext_in. intros i Hi%list_elem_of_In%elem_of_range. unfold usize_ok in *.
  destruct (Z.leb_spec 0 i), (Z.ltb_spec i n); try lia. simpl. rewrite <- (mem_from_rep _ _ _ _ _ Hm). by rewrite mem_from_usize by lia.
Qed.

Lemma return_sim (R : EvmState -> Prop) c0 st ex res ex' o n r is_revert :
  let c := next_pc c0 (e_pc c0 + 1) in
  return_op config executor st is_revert ex = Ret (inl res, ex') -> rep st c -> 0 <= e_pc c0 -> R c0 ->
  rev (stack (frame st)) = o :: n :: r -> analysable model o -> analysable model n ->
  range_readable (memory (frame st)) o n ->
  sim R (evm_op env STACK_LIMIT c (OpReturn is_revert)) res.
Proof.
  intros c H Hrep Hpc HR Hst Hao Han Hrr. unfold return_op in H. xpeek H. xpeek H. rewrite Hst in Hp, Hp0. simpl in Hp, Hp0. simplify_eq.
  destruct (operands2 _ _ _ _ _ Hrep Hst) as (x & z & l & El & Ho & Hn). unfold evm_op. rewrite El.
  eapply (guarded_range_sim model executor env same_limit limit_usize); [exact H|exact Hrep|done|done|exact Ho|exact Hn|done..|].
  intros st1 ex1 Hok Hrep1 Es _ Ew _ _ Hk. cbv beta in Hk. unfold return_or_revert in Hk. rewrite <- Es in Hst.
  destruct Hrr as [Hro Hrd]. apply (readable_writes _ _ _ _ Ew) in Hrd. clear Ew Es.
  set (c1 := grown c (uval x) (uval z)) in *. change (e_stack c) with (e_stack c1) in El.
  xpop_known Hk Hrep1 Hst El. xpop_known Hk Hrep1 Hst El.
  pose proof Hrep1 as (Hs & _ & _ & _ & _ & Hmem & _). pose proof (uval_range z). pose proof (uval_range x).
  assert (Hrr : range_readable (memory (frame st1)) e e0) by done.
  change (mem_rep model limit (memory (frame st1)) (e_mem c1) (e_size c1)) in Hmem.
  destruct (sized_operand_cases _ _ _ _ _ _ _ _ _ _ _ Hk Hs Hn Han ltac:(lia)) as [[Hu Hex]|[[Hbig _]|(m & exb & Hnc & Hle & Hbd)]].
  - xstep Hex. xstep H2. unfold SCopy.return_data in H2. apply obind_Ret in H2 as (b & Hb & H2). simplify_eq.
    pose proof (exact_read _ _ _ _ _ _ _ _ Hb Hmem Ho Hn Hu Hok Hrr) as Hrb. pose proof Hrb as (_ & Hlen & _).
    assert (Hd : data_rep model b (constant (U (SBytes.len b))) (mem_read (e_mem c1) (uval x) (uval z))).
    { eapply returned_rep; [done..|lia|]. rewrite Hlen. apply (den_constant model). }
    destruct is_revert; [|xstep Hex; right; right; right; by right].
    xstep Hex. xstep H2. xstep Hex. right; right; right.
    destruct (classify_revert_spec _ _ _ _ _ _ _ H2 Hmem Ho Hu Hok) as [-> |[-> Ha]]; [exact Hd|]. split; [exact Ha|].
    exact (rep_target _ _ _ _ Hrep1).
  - apply accessed_usize in Hok; lia.
  - xstep Hbd. xstep H2. unfold SCopy.return_data_symbolic_size in H2. apply obind_Ret in H2 as (b & Hb & H2). simplify_eq. xstep Hbd.
    pose proof (bounded_read _ _ _ _ _ _ _ _ _ Hb Hmem Ho Hn Hnc Hle Hrr) as Hrb.
    assert (Hd : data_rep model b e0 (mem_read (e_mem c1) (uval x) (uval z))).
    { eapply returned_rep; [done..|lia|]. by rewrite U_uval. }
    right; right; right. destruct is_revert; [exact Hd|right; exact Hd].
Qed.
End Sized.

(** ** The step *)

(** What the proofs need to know of the operands of an opcode. *)
Definition side_ok (st : PathState) (op : Opcode) : Prop :=
  let m := memory (frame st) in
  match op, rev (stack (frame st)) with
  | OpExp, _ :: e :: _ => analysable model e
  | OpEq, a :: b :: _ => comparable b a = true
  | OpCallDataLoad, o :: _ => load_offset_ok o
  | OpMLoad, o :: _ => analysable model o /\ readable m o 32
  | (OpMStore | OpMStore8), o :: _ :: _ => analysable model o
  | OpCallDataCopy, d :: o :: n :: _ =>
      (analysable model d /\ analysable model n) /\ copy_ok m d n /\ slice_fits (cd_bytes (calldata (frame st))) o (operand_limit n)
  | OpCodeCopy, d :: o :: n :: _ =>
      (analysable model d /\ analysable model n) /\ copy_ok m d n /\ slice_fits (code_bytes code) o (operand_limit n)
  | OpReturnDataCopy, d :: o :: n :: _ =>
      (analysable model d /\ analysable model n) /\ copy_ok m d n /\
      slice_fits (rd_bytes (return_data (frame st))) o (operand_limit n)
  | OpMCopy, d :: o :: n :: _ =>
      (analysable model d /\ analysable model o /\ analysable model n) /\ copy_ok m d n /\ range_readable m o n
  | (OpKeccak | OpReturn _), o :: n :: _ => (analysable model o /\ analysable model n) /\ range_readable m o n
  | (OpMLoad | OpMStore | OpMStore8 | OpCallDataCopy | OpCodeCopy | OpReturnDataCopy | OpMCopy | OpKeccak | OpReturn _), _ => False
  | _, _ => True
  end.

(** The operands that a byte can encode. *)
Lemma decode_operands op :
  match decode op with
  | OpPush n => 0 <= n <= 32
  | OpDup n | OpSwap n => 1 <= n <= 16
  | OpCmp c => c <> Eq
  | _ => True
  end.
Proof.
  unfold decode. destruct ((95 <=? op) && (op <=? 127)) eqn:E1; [lia|]. destruct ((128 <=? op) && (op <=? 143)) eqn:E2; [lia|].
  destruct ((144 <=? op) && (op <=? 159)) eqn:E3; [lia|]. destruct ((160 <=? op) && (op <=? 164)); [exact I|].
  clear. destruct op as [|p|p]; [exact I| |exact I]. do 8 (destruct p as [p|p|]; try exact I; try (intros [=])).
Qed.

Section Dispatch.
Hypothesis calldata_limit : 0 <= max_calldata_bytes config /\ max_calldata_bytes config + 31 <= usize_max.
Hypothesis no_loop_bound : loop_bound config = None.

(** The opcodes that read or write memory. *)
Lemma dispatch_memory_sim c0 st op ex res ex' :
  let c := next_pc c0 (e_pc c0 + 1) in
  dispatch config executor code st op ex = Ret (inl res, ex') -> rep st c -> 0 <= e_pc c0 ->
  side_ok st (decode op) ->
  match decode op with
  | OpMLoad | OpMStore | OpMStore8 | OpCallDataCopy | OpCodeCopy | OpReturnDataCopy | OpMCopy | OpKeccak | OpReturn _ =>
      sim (same_step (decode op) c0) (evm_op env STACK_LIMIT c (decode op)) res
  | _ => True
  end.
Proof.
  intros c H Hrep Hpc Hside. unfold dispatch in H. unfold side_ok in Hside.
  assert (HR : forall o, same_step o c0 c0) by (intros; split; reflexivity).
  destruct (decode op) eqn:Eop; try exact I; destruct (rev (stack (frame st))) as [|o1 [|o2 [|o3 r]]] eqn:Hst; try contradiction.
  all: try (destruct Hside as [[Ha1 Ha2] Hrr]; eapply keccak_sim; done).
  all: try (destruct Hside as [[Ha1 Ha2] Hrr]; eapply return_sim; done).
  all: try (eapply mstore_sim; done). all: try (eapply mstore8_sim; done).
  all: try (destruct Hside as [Ha Hrd]; eapply mload_sim; done).
  all: destruct Hside as (Ha & Hcopy & Hfit).
  - destruct Ha. by eapply calldatacopy_sim.
  - destruct Ha. by eapply codecopy_sim.
  - destruct Ha. by eapply returndatacopy_sim.
  - destruct Ha as (H1 & H2 & H3), Hfit. by eapply mcopy_sim.
Qed.

Lemma dispatch_sim c0 st op ex res ex' :
  let c := next_pc c0 (e_pc c0 + 1) in
  dispatch config executor code st op ex = Ret (inl res, ex') -> rep st c -> 0 <= e_pc c0 < data_len (env_code env) ->
  decode op <> OpAccount -> side_ok st (decode op) ->
  sim (same_step (decode op) c0) (evm_op env STACK_LIMIT c (decode op)) res.
Proof.
  intros c H Hrep Hpc Hop Hside. pose proof Hrep as (_ & (_ & _ & _ & _ & _ & Ht & _) & _). pose proof (decode_operands op) as Hdec. unfold dispatch in H. unfold side_ok in Hside.
  pose proof (dispatch_memory_sim c0 st op ex res ex' H Hrep (proj1 Hpc) Hside) as Hmemory.
  unfold dispatch in H. unfold side_ok in Hside. destruct (decode op) eqn:Eop; try exact Hmemory; clear Hmemory.
  all: try (match goal with |- SymSim.sim _ _ _ (evm_op _ _ _ ?o) _ => exact (den_value_op st c o Hrep eq_refl ex res ex' _ H) end).
  - xstep H. right; right; right. by left.
  - by eapply bin_sim.
  - eapply exp_sim; [exact H|exact Hrep|]. by destruct (rev (stack (frame st))) as [|? [|? ?]].
  - by eapply div_sim.
  - by eapply tern_sim.
  - by eapply cmp_sim.
  - eapply eq_sim; [exact H|done|exact Hrep|]. by destruct (rev (stack (frame st))) as [|? [|? ?]].
  - by eapply iszero_sim.
  - eapply (unary_sim _ st c sym_not u_not); [exact H|exact Hrep|apply (den_not model)|]. intros x r E. unfold evm_op. by rewrite E.
  - eapply (binary_sim _ st c signextend_word_dynamic signextend); [exact H|exact Hrep|apply (signextend_dynamic_sound model)|].
    intros x y r E. unfold evm_op. by rewrite E.
  - eapply (binary_sim _ st c byte_word_dynamic word_byte); [exact H|exact Hrep|apply (byte_dynamic_sound model)|].
    intros x y r E. unfold evm_op. by rewrite E.
  - by eapply shift_sim.
  - eapply calldataload_sim; [exact H|exact Hrep|]. by destruct (rev (stack (frame st))).
  - eapply push_sim; [exact H|exact Hrep|]. destruct Henv as (_ & _ & -> & _). apply (den_constant model).
  - by eapply returndatasize_sim.
  - by eapply pop_sim.
  - by eapply jump_sim.
  - by eapply jumpi_sim.
  - eapply push_sim; [exact H|exact Hrep|]. destruct Hrep as (_ & _ & _ & -> & _). apply (den_constant model).
  - by eapply msize_sim.
  - by eapply gas_sim.
  - xstep H. by apply sim_next.
  - xstep H. right; right; right. exact Ht.
  - eapply push_op_sim; [exact H|done|exact Hrep|simpl; lia].
  - by eapply dup_sim.
  - by eapply swap_sim.
  - by eapply blobhash_sim.
  - done.
  - by xstep H.
Qed.

(** Every step of a path covers the step of the frame that it represents. *)
Lemma step_sim c0 st op ex res ex' :
  step config executor code st op ex = Ret (inl res, ex') -> rep st c0 -> e_pc c0 < data_len (env_code env) ->
  decode op <> OpAccount -> side_ok st (decode op) ->
  sim (fun c1 => e_pc c1 = e_pc c0 /\ evm_step env STACK_LIMIT c1 op = evm_step env STACK_LIMIT c0 op)
    (evm_step env STACK_LIMIT c0 op) res.
Proof.
  intros H Hrep Hlt Hop Hside. unfold step in H. pose proof Hrep as (_ & _ & Hpc0 & Hpc & _).
  assert (Hspec : spec_id executor = env_spec env) by apply Henv. rewrite Hspec in H. unfold evm_step.
  destruct (env_spec env <? opcode_activation op).
  { unfold exceptional_halt in H. xstep H. refine (exceptional_sim model env _ _ _ (rep_pc model env _ _ _ Hrep _)). lia. }
  rewrite Hpc in H. eapply sim_mono; [|eapply (dispatch_sim c0 _ op)]; [|exact H|apply rep_pc; [exact Hrep|lia]|done..].
  done.
Qed.
End Dispatch.
End Opcodes.
