(* ===== verification/SymExplore.v ===== *)
(** * SymExplore: the exploration of the paths of a run

    Models the scheduling of paths ([pop_next_path], [pop_next_feasible_path] of
    executor/mod.rs) and the loop of a run over the root paths with its verdict
    ([run_inner], [execute_run] of executor/run.rs).

    The roots and the code are arguments: building the symbolic calldata from
    the ABI of the function is not modelled.  The class [RunParts] has what a
    run takes from that component and from the solver.  A run may not end (a
    guard can queue a path again as often as the solver calls both sides
    feasible), so the loop has fuel; [None] means that the fuel is used up. *)

From Stdlib Require Import ZArith Lia Bool.
From stdpp Require Import base list option gmap sets strings pretty.
From S2P Require Import Prelude SymWord SymExpr SymSimpl SymSound SymCmp SymBytes SymSeq SymMem SymPath SymWorld SymLog SymExpect SymExec.
Local Open Scope Z_scope.
Local Open Scope exec_scope.

Inductive SymbolicStopReason := Stuck | RevertAll | StopTimeout | StopError.

(** [SymbolicError::stop_reason]. *)
Definition stop_reason (e : SymbolicError) : SymbolicStopReason :=
  match e with
  | Unsupported _ | CalldataVariantLimit _ | UnsupportedOpcode _ | SolverQueryLimit _ => Stuck
  | SolverUnknown | Timeout _ => StopTimeout
  | Solver | MissingAccount _ | MissingCode _ | Backend | UnsupportedAbi | InvalidBytecode _ | InvalidJump _
  | StackUnderflow | StackOverflow | Abi => StopError
  end.

(** The ABI values and the symbolic calldata that a root path keeps, the
    encoder, the models, the counters and the start of the solver, the texts of
    errors. *)
Class RunParts `{P : Parts, SE : SolverEnv} := {
  DynSolValue : Type;
  RootCalldata : Type;
  root_calldata : Rest -> option RootCalldata;
  model_to_args : RootCalldata -> SymbolicModel -> list DynSolValue + SymbolicError;
  abi_encode_input : list DynSolValue -> list Z + SymbolicError;
  model_with_replayable_storage : list SymBoolExpr -> list Symbol -> Env -> (SymbolicModel + SymbolicError) * Env;
  check_available : Env -> (unit + SymbolicError) * Env;
  clear_context : Env -> Env;
  SolverCounters : Type;
  solver_counters : Env -> SolverCounters;
  no_counters : SolverCounters;
  error_text : SymbolicError -> string
}.

Module SRun.
Section Run.
Context `{SA : SignedArith, HF : HashFns, P : Parts, SE : SolverEnv, HD : !Handlers, RP : !RunParts}.
Variable config : SymbolicConfig.
Variable executor : ExecutorEnv.
Variable code : @SymCode JumpTable.
Import SExec SStep.

(** ** Data *)
Record SymbolicConcreteInput := mkInput { args : list DynSolValue; calldata_bytes : list Z }.
Record SymbolicStats := mkStats { paths : Z; counters : SolverCounters }.

Inductive SymbolicRunResult :=
  | Safe (stats : SymbolicStats) (success_input : option SymbolicConcreteInput)
  | Counterexample (input : SymbolicConcreteInput) (stats : SymbolicStats)
  | Incomplete (kind : SymbolicStopReason) (reason : string) (stats : SymbolicStats).

(** The counters of a run and the inputs it has collected. *)
Record Tally := mkTally {
  reverted_paths : Z;
  normal_paths : Z;
  success_input : option (Z * SymbolicConcreteInput);
  branch_candidates : option (list SymbolicConcreteInput)
}.

Definition stats_with_paths (n : Z) : ExecM SymbolicStats :=
  let+ env := get ex_env in xret (mkStats n (solver_counters env)).

Definition incomplete (kind : SymbolicStopReason) (reason : string) : ExecM SymbolicRunResult :=
  let+ n := get completed_paths in
  let+ stats := stats_with_paths n in xret (Incomplete kind reason stats).

(** ** Scheduling (executor/mod.rs) *)
Definition pop_next_path (paths : list PathState) : option (PathState * list PathState) :=
  match exploration_order config with
  | Bfs => match paths with [] => None | st :: rest => Some (st, rest) end
  | Dfs => match rev paths with [] => None | st :: rest => Some (st, rev rest) end
  end.

(** The first loop of [pop_next_feasible_path]; the fuel is the length of the
    worklist. *)
Fixpoint pop_feasible (fuel : nat) (paths deferred : list PathState) (mode : DeferredPathMode)
    : ExecM (option PathState * list PathState * list PathState) :=
  match fuel, pop_next_path paths with
  | S fuel, Some (st, paths) =>
      let needs_check := needs_feasibility_check st in
      let st := set_feasibility_check false st in
      if needs_check then
        let+ feasible := xtry (on_env (branch_feasibility (constraints st) (SWorld.replay_storage_symbols (world st)))) in
        match feasible with
        | inl FeasibleSat => xret (Some st, paths, deferred)
        | inl FeasibleUnsat => pop_feasible fuel paths deferred mode
        | inl NeedsSolver =>
            match mode with
            | Skip => let+ _ := defer_hard_arithmetic in pop_feasible fuel paths deferred mode
            | _ => pop_feasible fuel paths (deferred ++ [st]) mode
            end
        | inr SolverUnknown => let+ _ := defer_solver_unknown in pop_feasible fuel paths deferred mode
        | inr err => xerr err
        end
      else xret (Some st, paths, deferred)
  | _, _ => xret (None, paths, deferred)
  end.

Definition start_deadline : ExecM unit :=
  let+ d := get deadline in
  match d with
  | Some _ => xret tt
  | None =>
      match timeout config with
      | Some seconds =>
          if 0 <? seconds then
            let+ t := on_env (fun env => let '(t, env) := now env in (inl t, env)) in
            set_deadline (Some (t + seconds))
          else xret tt
      | None => xret tt
      end
  end.

(** The rest of its loop, when the worklist is empty. *)
Fixpoint pop_deferred (fuel : nat) (deferred : list PathState) : ExecM (option PathState * list PathState) :=
  match fuel, pop_next_path deferred with
  | S fuel, Some (st, deferred) =>
      let+ _ := start_deadline in
      let+ _ := check_timeout config in
      let+ sat := xtry (is_sat_with_state st (constraints st)) in
      match sat with
      | inl true => xret (Some st, deferred)
      | inl false => pop_deferred fuel deferred
      | inr SolverUnknown => let+ _ := defer_solver_unknown in pop_deferred fuel deferred
      | inr err => xerr err
      end
  | _, _ => xret (None, deferred)
  end.

(** A feasible path, with whether it was deferred. *)
Definition pop_next_feasible_path (paths deferred : list PathState) (mode : DeferredPathMode)
    : ExecM (option (PathState * bool) * list PathState * list PathState) :=
  let+ (found, paths, deferred) := pop_feasible (length paths) paths deferred mode in
  match found with
  | Some st => xret (Some (st, false), paths, deferred)
  | None =>
      let+ (found, deferred) := pop_deferred (length deferred) deferred in
      xret (option_map (fun st => (st, true)) found, paths, deferred)
  end.

(** ** Inputs (run.rs) *)
Definition materialize_root_input (st : PathState) : ExecM SymbolicConcreteInput :=
  match root_calldata (cheats (calls st)) with
  | None => xerr (Unsupported "missing root symbolic calldata")
  | Some calldata =>
      let+ model := on_env (model_with_replayable_storage (constraints st) (SWorld.replay_storage_symbols (world st))) in
      let+ args := of_result (model_to_args calldata model) in
      let+ bytes := of_result (abi_encode_input args) in
      xret (mkInput args bytes)
  end.

Definition collect_branch_candidate (t : Tally) (st : PathState) : ExecM (option SymbolicConcreteInput * Tally) :=
  match branch_candidates t with
  | None => xret (None, t)
  | Some candidates =>
      if negb (satisfies_branch_target st) || negb (SPath.can_materialize_seed (constraints st)) then xret (None, t)
      else
        let+ input := materialize_root_input st in
        xret (Some input, mkTally (reverted_paths t) (normal_paths t) (success_input t) (Some (candidates ++ [input])))
  end.

(** ** The loop of one path *)

(** A path ends the run, or leaves the worklist and the tally. *)
Inductive PathEnd :=
  | EndRun (result : SymbolicRunResult)
  | EndPath (worklist : list PathState) (t : Tally).

Definition path_completed (worklist : list PathState) (t : Tally) : ExecM (option PathEnd) :=
  let+ n := get completed_paths in
  let+ _ := set_completed (n + 1) in xret (Some (EndPath worklist t)).

Definition count_reverted (t : Tally) : Tally :=
  mkTally (reverted_paths t + 1) (normal_paths t) (success_input t) (branch_candidates t).

Definition revert_path (st : PathState) (worklist : list PathState) (t : Tally) : ExecM (option PathEnd) :=
  let+ (_, t) := collect_branch_candidate t st in path_completed worklist (count_reverted t).

Definition deeper (st : PathState) (t : Tally) : bool :=
  match success_input t with None => true | Some (d, _) => d <? depth st end.

(** A path that halts with its expectations met. *)
Definition halt_path (collect_success_input : bool) (st : PathState) (worklist : list PathState) (t : Tally)
    : ExecM (option PathEnd) :=
  let+ (candidate, t) := collect_branch_candidate t st in
  let+ success :=
    (if collect_success_input && satisfies_branch_target st && SPath.can_materialize_seed (constraints st) && deeper st t
     then match candidate with
          | Some input => xret (Some (depth st, input))
          | None => let+ input := materialize_root_input st in xret (Some (depth st, input))
          end
     else xret (success_input t)) in
  path_completed worklist (mkTally (reverted_paths t) (normal_paths t + 1) success (branch_candidates t)).

(** A path that halts with an expectation missed, or fails. *)
Definition fail_path (st : PathState) (worklist : list PathState) (t : Tally) : ExecM (option PathEnd) :=
  if negb (satisfies_branch_target st) then path_completed worklist t
  else
    let+ input := materialize_root_input st in
    let+ n := get completed_paths in
    let+ stats := stats_with_paths (n + 1) in
    xret (Some (EndRun (Counterexample input stats))).

Definition fetch (st : PathState) : ExecM StepResult :=
  let+ op := lift (opcode code (pc (frame st))) in
  let+ op := of_result op in
  match op with
  | Some op => step config executor code st op
  | None => xret (Halt, st, [])
  end.

Fixpoint run_path (fuel : nat) (collect_success_input : bool) (st : PathState) (worklist : list PathState) (t : Tally)
    : ExecM (option PathEnd) :=
  match fuel with
  | O => xret None
  | S fuel =>
      let+ _ := check_timeout config in
      let depth_limit := execution_depth config in
      if depth_limit <=? depth st then
        let+ r := incomplete Stuck ("symbolic depth limit exceeded (" +:+ pretty depth_limit +:+ ")") in
        xret (Some (EndRun r))
      else
        let+ (outcome, st, pushed) := fetch (set_depth (depth st + 1) st) in
        let worklist := worklist ++ pushed in
        match outcome with
        | Continue => run_path fuel collect_success_input st worklist t
        | AssumeRejected | Forked => xret (Some (EndPath worklist t))
        | Revert => revert_path st worklist t
        | Halt => if expectations_satisfied st then halt_path collect_success_input st worklist t
                  else fail_path st worklist t
        | ExceptionalHalt | Failure => fail_path st worklist t
        end
  end.

(** ** The run *)
Definition deferred_reason (d : DeferredIncomplete) : SymbolicStopReason * string :=
  match d with
  | DeferredUnsupported reason => (Stuck, "unsupported symbolic execution feature: " +:+ reason)
  | DeferredSolverUnknown => (StopTimeout, "solver returned unknown")
  | DeferredHardArithmetic => (StopTimeout, "nested hard arithmetic branch requires deferred SMT solving")
  end.

(** The verdict when no path is left. *)
Definition verdict (t : Tally) : ExecM SymbolicRunResult :=
  if (normal_paths t =? 0) && (0 <? reverted_paths t) then incomplete RevertAll "all symbolic paths reverted"
  else
    let+ d := get deferred_incomplete in
    match d with
    | Some d => let '(kind, reason) := deferred_reason d in incomplete kind reason
    | None =>
        if normal_paths t =? 0 then incomplete Stuck "no successful symbolic paths"
        else
          let+ n := get completed_paths in
          let+ stats := stats_with_paths n in xret (Safe stats (snd <$> success_input t))
    end.

(** The tally outlives an error: the caller keeps the candidates. *)
Fixpoint run_paths (fuel : nat) (collect_success_input : bool) (worklist deferred : list PathState) (t : Tally)
    : ExecM (option ((SymbolicRunResult + SymbolicError) * Tally)) :=
  match fuel with
  | O => xret None
  | S fuel =>
      let+ next := xtry (pop_next_feasible_path worklist deferred Drain) in
      match next with
      | inr err => xret (Some (inr err, t))
      | inl (None, _, _) => let+ r := verdict t in xret (Some (inl r, t))
      | inl (Some (st, _), worklist, deferred) =>
          let path_limit := path_width config in
          let+ n := get completed_paths in
          if path_limit <=? n then
            let+ r := incomplete Stuck ("symbolic path limit exceeded (" +:+ pretty path_limit +:+ ")") in
            xret (Some (inl r, t))
          else
            let pending := pending_storage_hook_revert st in
            let st := set_pending_revert false st in
            let+ e := xtry (if pending then revert_path st worklist t
                            else run_path fuel collect_success_input st worklist t) in
            match e with
            | inr err => xret (Some (inr err, t))
            | inl None => xret None
            | inl (Some (EndRun r)) => xret (Some (inl r, t))
            | inl (Some (EndPath worklist t)) => run_paths fuel collect_success_input worklist deferred t
            end
      end
  end.

Fixpoint insert_by_key {A} (key : A -> Z) (a : A) (l : list A) : list A :=
  match l with
  | [] => [a]
  | b :: rest => if key a <=? key b then a :: l else b :: insert_by_key key a rest
  end.

(** The stable [sort_by_key]. *)
Definition sort_by_key {A} (key : A -> Z) (l : list A) : list A := fold_right (insert_by_key key) [] l.

Definition seed_count (st : PathState) : Z := zlen (corpus_seed_models st).

Definition order_roots_by_corpus_seed_count (roots : list PathState) : list PathState :=
  match roots with
  | [] => []
  | first :: rest =>
      if forallb (fun root => seed_count root =? seed_count first) rest then roots
      else match exploration_order config with
           | Bfs => sort_by_key (fun root => - seed_count root) roots
           | Dfs => sort_by_key seed_count roots
           end
  end.

Definition run_inner (fuel : nat) (collect_success_input : bool) (roots : list PathState)
    (candidates : option (list SymbolicConcreteInput)) : ExecM (option ((SymbolicRunResult + SymbolicError) * Tally)) :=
  run_paths fuel collect_success_input (order_roots_by_corpus_seed_count roots) [] (mkTally 0 0 None candidates).

Definition reset_run_state (use_wall_clock_deadline : bool) : ExecM unit :=
  let+ _ := set_deferred None in
  let+ _ := set_nested_mode Skip in
  let+ _ := set_retry_safe true in
  let+ _ := set_deadline None in
  if use_wall_clock_deadline then start_deadline else xret tt.

Definition error_result (err : SymbolicError) : ExecM SymbolicRunResult := incomplete (stop_reason err) (error_text err).

(** One pass of a run; an error is an incomplete result. *)
Definition run_pass (fuel : nat) (collect_success_input : bool) (roots : list PathState)
    (candidates : option (list SymbolicConcreteInput))
    : ExecM (option ((SymbolicRunResult + SymbolicRunResult) * option (list SymbolicConcreteInput))) :=
  let+ r := run_inner fuel collect_success_input roots candidates in
  match r with
  | None => xret None
  | Some (inl r, t) => xret (Some (inl r, branch_candidates t))
  | Some (inr err, t) => let+ r := error_result err in xret (Some (inr r, branch_candidates t))
  end.

(** Whether only hard arithmetic in a nested call kept a pass from an answer. *)
Definition retries (r : SymbolicRunResult) : ExecM bool :=
  let+ safe := get stateless_retry_safe in
  let+ d := get deferred_incomplete in
  xret (safe && match d with Some DeferredHardArithmetic => true | _ => false end &&
        match r with Incomplete (RevertAll | StopTimeout) _ _ => true | _ => false end).

(** The retries with deferred paths of nested calls yielded, then drained. *)
Fixpoint retry_passes (fuel : nat) (collect_success_input : bool) (roots : list PathState) (modes : list DeferredPathMode)
    (r : SymbolicRunResult) : ExecM (option SymbolicRunResult) :=
  match modes with
  | [] => xret (Some r)
  | mode :: modes =>
      let+ again := retries r in
      if negb again then xret (Some r)
      else
        let+ late := xtry (check_timeout config) in
        match late with
        | inr err => let+ r := error_result err in xret (Some r)
        | inl _ =>
            let+ _ := set_deferred None in
            let+ _ := set_nested_mode mode in
            let+ next := run_pass fuel collect_success_input roots None in
            match next with
            | None => xret None
            | Some (inr r, _) => xret (Some r)
            | Some (inl r, _) => retry_passes fuel collect_success_input roots modes r
            end
        end
  end.

Definition execute_run (fuel : nat) (collect_success_input : bool) (roots : list PathState)
    (candidates : option (list SymbolicConcreteInput))
    : ExecM (option (SymbolicRunResult * option (list SymbolicConcreteInput))) :=
  let+ _ := reset_run_state false in
  let+ _ := on_env (fun env => (inl tt, clear_context env)) in
  let+ _ := with_preimages (fun _ => Ret (tt, ∅)) in
  let+ available := xtry (on_env check_available) in
  match available with
  | inr err => xret (Some (Incomplete (stop_reason err) (error_text err) (mkStats 0 no_counters), candidates))
  | inl _ =>
      let+ _ := set_completed 0 in
      let+ first := run_pass fuel collect_success_input roots candidates in
      match first with
      | None => xret None
      | Some (inr r, candidates) => xret (Some (r, candidates))
      | Some (inl r, candidates) =>
          match candidates with
          | Some _ => xret (Some (r, candidates))
          | None => let+ r := retry_passes fuel collect_success_input roots [Yield; Drain] r in
                    xret (option_map (fun r => (r, None)) r)
          end
      end
  end.

Definition run (fuel : nat) (collect_success_input : bool) (roots : list PathState) : ExecM (option SymbolicRunResult) :=
  let+ r := execute_run fuel collect_success_input roots None in xret (fst <$> r).

(** [has_target] says whether the input names a branch. *)
Definition search_branch_target (fuel : nat) (collect_success_input has_target : bool) (roots : list PathState)
    : ExecM (option (list SymbolicConcreteInput * SymbolicRunResult)) :=
  if negb has_target then
    xret (Some ([], Incomplete StopError "branch target search requires a branch target" (mkStats 0 no_counters)))
  else
    let+ r := execute_run fuel collect_success_input roots (Some []) in
    xret (option_map (fun '(execution, candidates) =>
      let candidates := default [] candidates in
      (match execution with Counterexample input _ => input :: candidates | _ => candidates end, execution)) r).
End Run.
End SRun.
