(* ===== verification/SymAccount.v ===== *)
(** * SymAccount: the opcodes that need accounts

    Models the arms of [step] in executor/opcodes.rs that read or change the
    world: storage and transient storage, balances, code of other accounts,
    block hashes, logs and self-destruction, with the storage hooks that the
    test may have installed ([mapping_storage_provenance],
    [invoke_storage_hook]) and the expected events ([handle_log], calls.rs).
    [account_handlers] implements the interface [Handlers] of the step function.

    Calls and creates, and the execution of the code that a hook calls, are the
    interface [CallHandlers], which SymCall implements. *)

From Stdlib Require Import ZArith Lia Bool.
From stdpp Require Import base list option gmap sets strings.
From S2P Require Import Prelude SymWord SymExpr SymSimpl SymSound SymCmp SymBytes SymSeq SymStorage SymMem SymPath SymWorld SymLog SymExpect SymExec SymExplore.
Local Open Scope Z_scope.
Local Open Scope exec_scope.

Inductive CallStatus := CallSuccess | CallRevert | CallExceptionalHalt | CallFailure.
Record CallOutcome `{Parts} := mkCallOutcome { call_status : CallStatus; call_state : PathState }.

Class CallHandlers `{SA : SignedArith, HF : HashFns, P : Parts, SE : SolverEnv} := {
  call_or_create : PathState -> Z -> ExecM SExec.StepResult;
  execute_external_call : PathState -> @SymCode JumpTable -> ExecM (list CallOutcome)
}.

(** Whether a word occurs in an expression, [visit_bool(|e| e == word)]. *)
Fixpoint occurs_in (x e : SymExpr) : bool :=
  expr_eqb e x ||
  match e with
  | EConst _ | EVar _ | EGasLeft _ => false
  | EKeccak _ l bs => occurs_in x l || existsb (occurs_in x) bs
  | EHash _ _ bs => existsb (occurs_in x) bs
  | ENot e => occurs_in x e
  | EBinOp _ l r => occurs_in x l || occurs_in x r
  | ETernOp _ l r m => occurs_in x l || occurs_in x r || occurs_in x m
  | EIte c t f => boccurs_in x c || occurs_in x t || occurs_in x f
  end
with boccurs_in (x : SymExpr) (b : SymBoolExpr) : bool :=
  match b with
  | BConst _ => false
  | BNot b => boccurs_in x b
  | BAnd bs => existsb (boccurs_in x) bs
  | BCmp _ l r => occurs_in x l || occurs_in x r
  end.

Record SymbolicMappingProvenance := mkProvenance { root_slot : U256; provenance_keys : list SymExpr }.

Inductive MappingStorageProvenance :=
  | ProvenanceNone
  | ProvenanceExact (p : SymbolicMappingProvenance)
  | ProvenanceFork (equality inequality : list SymBoolExpr).

Module SAccount.
Section Ops.
Context `{SA : SignedArith, HF : HashFns, P : Parts, SE : SolverEnv} {BE : ChainBackend} {CH : CallHandlers}.
Variable config : SymbolicConfig.
Variable executor : ExecutorEnv.
Import SStack SMemory SPath SExec.

(** *** Records of a path (state.rs) *)
Definition record_log (log : SymbolicLog) (st : PathState) : PathState :=
  set_recorded_logs ((fun logs => logs ++ [log]) <$> recorded_logs st) st.
Definition record_sload (a : Address) (slot : SymExpr) (st : PathState) : PathState :=
  set_access_record (SRecord.read a slot <$> access_record st) st.
Definition record_sstore (a : Address) (slot : SymExpr) (st : PathState) : PathState :=
  set_access_record (SRecord.write a slot <$> access_record st) st.

Definition address_or_symbolic_slot (st : PathState) (e : SymExpr) : Address * PathState :=
  match constrained_word (constraints st) e with
  | Some v => (word_to_address v, st)
  | None => let '(a, w) := SWorld.symbolic_address_slot e (world st) in (a, set_world w st)
  end.

(** *** Provenance of mapping slots *)

(** The hashes of this account that the path has seen, with their inputs. *)
Definition observed (st : PathState) (hash : SymExpr) : option (list SymExpr) :=
  assoc preimage_key_eqb (storage_address (frame st), hash) (mapping_hook_keccak_preimages st).

(** Neither loop visits an expression twice, so the number of recorded hashes
    bounds their rounds. *)
Definition chain_fuel (st : PathState) : nat := S (length (mapping_hook_keccak_preimages st)).

Fixpoint provenance_loop (fuel : nat) (st : PathState) (current : SymExpr) (keys visited : list SymExpr)
    : Outcome (option SymbolicMappingProvenance) :=
  match fuel with
  | O => Ret None
  | S fuel =>
      if existsb (expr_eqb current) visited then Ret None
      else
        match observed st current with
        | None => Ret None
        | Some bytes =>
            if negb (zlen bytes =? 64) then Ret None
            else
              obind (from_bytes (take 32 bytes)) (fun key =>
              obind (from_bytes (drop 32 bytes)) (fun next =>
                let continue := provenance_loop fuel st next (keys ++ [key]) (visited ++ [current]) in
                match next with
                | EConst slot => match observed st next with
                                 | None => Ret (Some (mkProvenance slot (rev (keys ++ [key]))))
                                 | Some _ => continue
                                 end
                | EKeccak _ _ _ => continue
                | _ => Ret None
                end))
        end
  end.

Definition storage_mapping_provenance_observed_with (st : PathState) (key : SymExpr) : Outcome (option SymbolicMappingProvenance) :=
  provenance_loop (chain_fuel st) st key [] [].

Fixpoint chain_loop (fuel : nat) (st : PathState) (current : SymExpr) (keys visited : list SymExpr)
    : Outcome (option (SymExpr * list SymExpr)) :=
  match fuel with
  | O => Ret None
  | S fuel =>
      if existsb (expr_eqb current) visited then Ret None
      else
        match observed st current with
        | None => Ret (Some (current, rev keys))
        | Some bytes =>
            if negb (zlen bytes =? 64) then Ret None
            else
              obind (from_bytes (take 32 bytes)) (fun key =>
              obind (from_bytes (drop 32 bytes)) (fun next =>
                chain_loop fuel st next (keys ++ [key]) (visited ++ [current])))
        end
  end.

Definition observed_mapping_chain (st : PathState) (hash : SymExpr) : Outcome (option (SymExpr * list SymExpr)) :=
  chain_loop (S (chain_fuel st)) st hash [] [].

Definition classify_mapping_match (st : PathState) (matches : SymBoolExpr) (provenance : SymbolicMappingProvenance)
    : ExecM (option MappingStorageProvenance) :=
  let+ (inequality, inequality_sat) := constraints_with_condition st (SBool.not_bool matches) in
  if negb inequality_sat then xret (Some (ProvenanceExact provenance))
  else
    let+ (equality, equality_sat) := constraints_with_condition st matches in
    xret (if (equality_sat : bool) then Some (ProvenanceFork equality inequality) else None).

Definition mapping_hook (st : PathState) (root : U256) : option SymbolicStorageHook :=
  assoc (fun a b : Address * U256 => (fst a =? fst b) && u_eqb (snd a) (snd b)) (storage_address (frame st), root)
    (mapping_storage_store_hooks st).

(** Runs the tries in order until one gives an answer. *)
Fixpoint first_answer {A B} (try : A -> ExecM (option B)) (l : list A) : ExecM (option B) :=
  match l with
  | [] => xret None
  | a :: rest => let+ r := try a in match r with Some b => xret (Some b) | None => first_answer try rest end
  end.

(** One hash of the loop of [mapping_storage_provenance]. *)
Definition try_hash (st : PathState) (key : SymExpr) (roots : list U256) (contains_observed key_is_mapping : bool) (hash : SymExpr)
    : ExecM (option MappingStorageProvenance) :=
  let key_is_const := bool_decide (is_Some (as_const key)) in
  let key_contains_keccak := contains_keccak key in
  if contains_observed && negb (occurs_in hash key) then xret None
  else
    let+ legacy := lift (if contains_observed || negb key_contains_keccak
                         then storage_mapping_provenance_observed_with st hash else Ret None) in
    match legacy with
    | Some provenance =>
        match mapping_hook st (root_slot provenance) with
        | None => xret None
        | Some _ =>
            let equality := eq_exprs key hash in
            if key_is_const then
              let+ (_, inequality_sat) := constraints_with_condition st (SBool.not_bool equality) in
              xret (if (inequality_sat : bool) then None else Some (ProvenanceExact provenance))
            else classify_mapping_match st equality provenance
        end
    | None =>
        if (key_is_const || key_contains_keccak) && negb key_is_mapping then xret None
        else
          let+ chain := lift (observed_mapping_chain st hash) in
          match chain with
          | None => xret None
          | Some (root, keys) =>
              first_answer (fun slot =>
                let+ pre := get cx_preimages in
                let+ slot_matches := (if key_is_const || occurs_in hash key then xret (eq_exprs key hash)
                                      else lift (SStorage.storage_key_eq pre key hash)) in
                let provenance := mkProvenance slot keys in
                match constrained_word (constraints st) root with
                | Some r => if u_eqb r slot then classify_mapping_match st slot_matches provenance else xret None
                | None => classify_mapping_match st (SBool.and [slot_matches; eq_exprs root (constant slot)]) provenance
                end) roots
          end
    end.

(** [sort_by_key(|hash| hash != key)]: the key itself first. *)
Definition key_first (key : SymExpr) (hashes : list SymExpr) : list SymExpr :=
  filter (fun h => h = key) hashes ++ filter (fun h => h <> key) hashes.

Definition mapping_storage_provenance (st : PathState) (key : SymExpr) : ExecM MappingStorageProvenance :=
  let account := storage_address (frame st) in
  let+ direct := lift (storage_mapping_provenance_observed_with st key) in
  match direct with
  | Some provenance => xret (ProvenanceExact provenance)
  | None =>
      let hashes := map (fun '((_, hash), _) => hash)
                      (List.filter (fun '((a, _), _) => a =? account) (mapping_hook_keccak_preimages st)) in
      let contains_observed := existsb (fun hash => occurs_in hash key) hashes in
      let+ pre := get cx_preimages in
      let+ mapping_key := lift (SStorage.storage_mapping_key pre key) in
      let roots := map (fun '((_, root), _) => root)
                     (List.filter (fun '((a, _), _) => a =? account) (mapping_storage_store_hooks st)) in
      let+ r := first_answer (try_hash st key roots contains_observed (bool_decide (is_Some mapping_key))) (key_first key hashes) in
      xret (default ProvenanceNone r)
  end.

(** *** Storage hooks *)
Definition storage_hook_calldata (selector : list Z) (words : list SymExpr) : SymCalldata :=
  SCalldata.from_bytes (SBytes.concat (SBytes.concrete selector :: map SBytes.into_bytes words)).

Definition mapping_storage_hook_calldata (selector : list Z) (account computed_slot root old_value new_value : SymExpr)
    (keys : list SymExpr) : SymCalldata :=
  storage_hook_calldata selector
    ([account; computed_slot; root; constant (U (6 * 32)); old_value; new_value] ++ constant (U (zlen keys)) :: keys).

Definition new_frame (address storage_address caller : Address) (callvalue : SymExpr) (is_static : bool) (calldata : SymCalldata)
    : CallFrame :=
  mkFrame 0 address (constant (SymWorld.address_word address)) storage_address caller (constant (SymWorld.address_word caller)) callvalue
    is_static calldata [] empty_memory SReturnData.empty.

Definition storage_hook_child (st : PathState) (f : CallFrame) : PathState :=
  set_branch_target None (set_expected_emit None (set_access_record None (set_recorded_logs None (set_hook_active true
    (set_calls (SExpect.hook_calls (calls st)) (set_loop_jumps ∅ (with_frame (fun _ => f) (set_call_depth (call_depth st + 1) st)))))))).

(** The caller's path after one outcome of the callback. *)
Definition hook_parent (st : PathState) (o : CallOutcome) : PathState :=
  let child := call_state o in
  let parent := set_hook_active false (set_preimages (mapping_hook_keccak_preimages child)
    (set_hooks (storage_load_hooks child) (storage_store_hooks child) (mapping_storage_store_hooks child)
      (set_next_symbol (next_symbol child) (set_constraints (constraints child) st)))) in
  match call_status o with
  | CallSuccess => set_block (block child) (set_world (world child) parent)
  | _ => set_pending_revert true (set_return_data (return_data (frame child)) parent)
  end.

Definition invoke_storage_hook (st : PathState) (hook : SymbolicStorageHook) (calldata : SymCalldata) : ExecM StepResult :=
  let+ (code, w) := of_result (SWorld.extcode (spec_id executor) (callback_target hook) (world st)) in
  let st := set_world w st in
  if code_is_empty code then xret (Continue, st, [])
  else
    let f := new_frame (callback_target hook) (callback_target hook) CHEATCODE_ADDRESS zero false calldata in
    let+ outcomes := execute_external_call (storage_hook_child st f) code in
    match SRun.pop_next_path config (map (hook_parent st) outcomes) with
    | None => xret (AssumeRejected, st, [])
    | Some (first, parents) =>
        xret (if pending_storage_hook_revert first then Revert else Continue, set_pending_revert false first, parents)
    end.

(** *** Storage *)
Definition account_word (st : PathState) : SymExpr := constant (SymWorld.address_word (storage_address (frame st))).

Definition load_slot (st : PathState) (key : SymExpr) : ExecM (SymExpr * PathState) :=
  let+ pre := get cx_preimages in
  let+ r := lift (SWorld.sload pre (storage_address (frame st)) key (constrained_word (constraints st) key) (world st)) in
  let+ (value, w) := of_result r in
  xret (value, set_world w st).

Definition sload_op (st : PathState) : ExecM StepResult :=
  let+ (key, st) := pop_value st in
  let st := record_sload (storage_address (frame st)) key st in
  let+ (value, st) := load_slot st key in
  let+ s := of_result (push STACK_LIMIT (stack (frame st)) value) in
  let st := set_stack s st in
  match (if storage_hook_active st then None else storage_load_hooks st !! storage_address (frame st)) with
  | Some hook => invoke_storage_hook st hook (storage_hook_calldata (callback_selector hook) [account_word st; key; value])
  | None => xret (Continue, st, [])
  end.

(** The path that runs the store again under one side of the comparison. *)
Definition store_again (st : PathState) (cs : list SymBoolExpr) : PathState :=
  set_constraints cs (set_depth (Z.max 0 (depth st - 1)) (set_pc (pc (frame st) - 1) st)).

(** The store behind the search for hooks. *)
Definition store_slot (st : PathState) (hook : option SymbolicStorageHook)
    (mapping : option (SymbolicStorageHook * SymbolicMappingProvenance)) : ExecM StepResult :=
  let+ (key, st) := pop_value st in
  let+ (value, st) := pop_value st in
  let account := storage_address (frame st) in
  let st := record_sstore account key st in
  let+ (old_value, st) :=
    (match hook, mapping with
     | None, None => xret (None, st)
     | _, _ => let+ (old, st) := load_slot st key in xret (Some old, st)
     end) in
  let st := set_world (SWorld.sstore account key value (world st)) st in
  match hook, mapping, old_value with
  | Some hook, _, Some old =>
      invoke_storage_hook st hook (storage_hook_calldata (callback_selector hook) [account_word st; key; old; value])
  | None, Some (hook, provenance), Some old =>
      invoke_storage_hook st hook
        (mapping_storage_hook_calldata (callback_selector hook) (account_word st) key (constant (root_slot provenance)) old value
           (provenance_keys provenance))
  | _, _, _ => xret (Continue, st, [])
  end.

Definition sstore_op (st : PathState) : ExecM StepResult :=
  if is_static (frame st) then exceptional_halt st
  else
    let+ key := peek_value st 0 in
    let+ _ := peek_value st 1 in
    let hook := if storage_hook_active st then None else storage_store_hooks st !! storage_address (frame st) in
    let+ mapping := (if storage_hook_active st then xret ProvenanceNone else mapping_storage_provenance st key) in
    match mapping with
    | ProvenanceFork equality inequality => xret (Forked, st, [store_again st equality; store_again st inequality])
    | ProvenanceNone => store_slot st hook None
    | ProvenanceExact provenance =>
        store_slot st hook ((fun h => (h, provenance)) <$> mapping_hook st (root_slot provenance))
    end.

Definition tload_op (st : PathState) : ExecM StepResult :=
  let+ (key, st) := pop_value st in
  let+ pre := get cx_preimages in
  let+ value := lift (SWorld.tload pre (world st) (storage_address (frame st)) key) in
  push_value st value.

Definition tstore_op (st : PathState) : ExecM StepResult :=
  if is_static (frame st) then exceptional_halt st
  else
    let+ (key, st) := pop_value st in
    let+ (value, st) := pop_value st in
    xret (Continue, set_world (SWorld.tstore (storage_address (frame st)) key value (world st)) st, []).

(** *** Balances, code and block hashes *)
Definition balance_op (st : PathState) : ExecM StepResult :=
  let+ (target, st) := pop_value st in
  push_value st (SWorld.balance_word (world st) target).

Definition selfbalance_op (st : PathState) : ExecM StepResult :=
  push_value st (SWorld.balance_word_for_address (world st) (address (frame st))).

Definition blockhash_op (st : PathState) : ExecM StepResult :=
  let+ (number, st) := pop_value st in
  let+ hash := of_result (SBlock.block_hash_word (block st) number) in
  push_value st hash.

Definition extcodesize_op (st : PathState) : ExecM StepResult :=
  let+ (target, st) := pop_value st in
  let+ (size, w) := of_result (SWorld.extcode_size_word (spec_id executor) target (world st)) in
  push_value (set_world w st) size.

(** The hash with the table of the context. *)
Definition extcodehash (target : SymExpr) (w : SymbolicWorld) : ExecM (SymExpr * SymbolicWorld) :=
  let+ r := with_preimages (fun pre =>
    obind (SWorld.extcode_hash_word (spec_id executor) pre target w) (fun r =>
    Ret (match r with inl (hash, w, pre) => (inl (hash, w), pre) | inr e => (inr e, pre) end))) in
  of_result r.

Definition extcodehash_op (st : PathState) : ExecM StepResult :=
  let+ (target, st) := pop_value st in
  let+ (hash, w) := extcodehash target (world st) in
  push_value (set_world w st) hash.

Definition extcode_bytes (st : PathState) (target offset : SymExpr) (size : Z) : ExecM (SymBytes * PathState) :=
  let+ r := lift (SWorld.extcode_bytes_word (spec_id executor) target offset size (world st)) in
  let+ (bytes, w) := of_result r in
  xret (bytes, set_world w st).

Definition extcodecopy_op (st : PathState) : ExecM StepResult :=
  let+ dest := peek_value st 1 in
  let+ size := peek_value st 3 in
  guarded (guard_memory_range executor st dest size) (fun st =>
    let+ (target, st) := pop_value st in
    let+ (dest, st) := pop_value st in
    let+ (offset, st) := pop_value st in
    let+ (size, st) := pop_value st in
    sized_operand st size (max_calldata_bytes config) "symbolic EXTCODECOPY size"
      (fun n => let+ (bytes, st) := extcode_bytes st target offset n in
                xret (Continue, set_memory (store_bytes_offset (memory (frame st)) dest bytes) st, []))
      (revert_here st)
      (fun m => if m =? 0 then xret (Continue, st, [])
                else let+ (bytes, st) := extcode_bytes st target offset m in
                     store_memory st (SCopy.copy_bytes_size_offset (memory (frame st)) dest size bytes))).

(** *** Self-destruction *)
Definition selfdestruct_op (st : PathState) : ExecM StepResult :=
  if is_static (frame st) then exceptional_halt st
  else
    let+ (word, st) := pop_value st in
    let '(beneficiary, st) := address_or_symbolic_slot st word in
    let a := address (frame st) in
    let+ w :=
      (if (spec_id executor <? CANCUN) || SWorld.was_created_in_current_transaction (world st) a
       then of_result (SWorld.selfdestruct_legacy a beneficiary (world st))
       else
         match constrained_word (constraints st) word with
         | None => xerr (Unsupported "symbolic SELFDESTRUCT beneficiary")
         | Some _ => xret (SWorld.selfdestruct_cancun_existing a beneficiary (world st))
         end) in
    xret (Halt, clear_return (set_world w st), []).

(** *** Logs (calls.rs) *)
Definition expected_emit_matches (st : PathState) (expected : ExpectedEmit) (template actual : SymbolicLog)
    : ExecM (bool * PathState) :=
  let+ condition := lift (SEmit.match_condition expected template actual) in
  match condition with
  | None => xret (false, st)
  | Some condition =>
      let+ (match_constraints, match_sat) := constraints_with_condition st condition in
      if negb match_sat then xret (false, st)
      else
        let+ (mismatch_constraints, mismatch_sat) := constraints_with_condition st (SBool.not_bool condition) in
        if (mismatch_sat : bool) then xret (false, set_constraints mismatch_constraints st)
        else xret (true, set_constraints match_constraints st)
  end.

Definition handle_log (st : PathState) (log : SymbolicLog) : ExecM StepResult :=
  match expected_emit st with
  | None => xret (Continue, record_log log st, [])
  | Some expected =>
      let st := set_expected_emit None st in
      match emit_template expected with
      | None => xret (Continue, record_log log (set_expected_emit (Some (SEmit.set_template log expected)) st), [])
      | Some template =>
          let+ (matches, st) := expected_emit_matches st expected template log in
          if negb matches then xret (Failure, record_log log (set_expected_emit (Some expected) st), [])
          else
            let expected := SEmit.consume_one expected in
            let st := if SEmit.is_satisfied expected then st else set_expected_emit (Some expected) st in
            xret (Continue, record_log log st, [])
      end
  end.

(** Pops the topics; none may depend on gas. *)
Fixpoint pop_topics (n : nat) (st : PathState) : ExecM (list SymExpr * PathState) :=
  match n with
  | O => xret ([], st)
  | S n =>
      let+ (topic, st) := pop_value st in
      if contains_gasleft topic then xerr gas_not_modeled
      else let+ (topics, st) := pop_topics n st in xret (topic :: topics, st)
  end.

Definition log_with_data (st : PathState) (topics : nat) (data_len : SymExpr) (data : Outcome SymBytes) : ExecM StepResult :=
  let+ data := lift data in
  let+ (log_topics, st) := pop_topics topics st in
  handle_log st (mkLog log_topics data_len data (address (frame st))).

Definition log_op (st : PathState) (topics : Z) : ExecM StepResult :=
  if is_static (frame st) then exceptional_halt st
  else
    let+ offset := peek_value st 0 in
    let+ size := peek_value st 1 in
    guarded (guard_memory_range executor st offset size) (fun st =>
      let+ (offset, st) := pop_value st in
      if contains_gasleft offset then xerr gas_not_modeled
      else
        let+ (size, st) := pop_value st in
        if contains_gasleft size then xerr gas_not_modeled
        else
          sized_operand st size (max_calldata_bytes config) "symbolic LOG size"
            (fun n => log_with_data st (Z.to_nat topics) (constant (U n)) (read_bytes_offset (memory (frame st)) offset n))
            (revert_here st)
            (fun m => log_with_data st (Z.to_nat topics) size (read_bytes_symbolic_size (memory (frame st)) offset size m))).

(** *** The handlers *)
Definition account_op (st : PathState) (op : Z) : ExecM StepResult :=
  if (160 <=? op) && (op <=? 164) then log_op st (op - 160)
  else match op with
  | 49 => balance_op st
  | 59 => extcodesize_op st
  | 60 => extcodecopy_op st
  | 63 => extcodehash_op st
  | 64 => blockhash_op st
  | 71 => selfbalance_op st
  | 84 => sload_op st
  | 85 => sstore_op st
  | 92 => tload_op st
  | 93 => tstore_op st
  | 255 => selfdestruct_op st
  | _ => call_or_create st op
  end.

Definition account_handlers : Handlers := {| SymExec.account_op := account_op |}.
End Ops.
End SAccount.
