(* ===== verification/SymCall.v ===== *)
(** * SymCall: calls and creates

    Models executor/calls.rs, create.rs and the call part of mod.rs: CALL,
    CALLCODE, DELEGATECALL and STATICCALL with mocks, expected calls, pranks,
    value transfers, precompiles and symbolic targets; CREATE and CREATE2; the
    exploration of the paths of a nested call ([execute_call_path_batch]) and how
    the caller's path goes on behind each of its outcomes
    ([join_call_outcome]).

    [call_op] and [create_op] are parametric in the execution of the callee;
    [external_call] ties the knot with [account_handlers], with fuel for the
    depth of calls and for the paths of one call.  The cheatcode contracts, the
    addresses of new contracts and revm's precompiles are parameters. *)

From Stdlib Require Import ZArith Lia Bool.
From stdpp Require Import base list option gmap sets strings sorting.
From S2P Require Import Prelude SymWord SymExpr SymSimpl SymSound SymCmp SymBytes SymSeq SymStorage SymMem SymPath SymWorld SymPrecompile SymLog SymExpect SymExec SymExplore SymAccount.
Local Open Scope Z_scope.
Local Open Scope exec_scope.

Definition HARDHAT_CONSOLE_ADDRESS : Address := 0x000000000000000000636F6e736F6c652e6c6f67.
Definition SPURIOUS_DRAGON : Z := 5.

(** A call to a cheatcode contract with its input and output ranges; the
    addresses of CREATE and CREATE2, and the symbol of a CREATE2 address whose
    salt or init code is symbolic; the code size limit of the chain. *)
Class CallParts `{SA : SignedArith, HF : HashFns, P : Parts, SE : SolverEnv} := {
  cheatcode_call : PathState -> Address -> SymExpr -> BoundedCopySize -> SymExpr -> BoundedCopySize -> ExecM SExec.StepResult;
  create_address : Address -> Z -> Address;
  create2_from_code : Address -> U256 -> list Z -> Address;
  create2_symbol : Address -> SymExpr -> list Z + list SymExpr -> Symbol;
  max_code_size : Z
}.

(** How the outcome of a call meets the expectations of the caller. *)
Inductive JoinedCallOutcome `{Parts} :=
  | JoinRejected
  | JoinExpectedRevert (parent child : PathState)
  | JoinSuccess (parent child : PathState)
  | JoinRevert (parent child : PathState)
  | JoinExceptionalHalt (parent : PathState)
  | JoinFailure (parent : PathState).

Inductive CallPathKind := PathExternal | PathSequence.

Module SCall.
(** ** Paths of calls (state.rs) *)
Section State.
Context `{P : Parts}.

Definition on_calls (f : CallState -> CallState) (st : PathState) : PathState := set_calls (f (calls st)) st.

Definition child (st : PathState) (f : CallFrame) : PathState :=
  set_loop_jumps ∅ (on_calls SExpect.child_calls (with_frame (fun _ => f) (set_call_depth (call_depth st + 1) st))).

Definition inherit_branch_target_progress (st child : PathState) : PathState :=
  if bool_decide (branch_target st = branch_target child) && branch_target_reached child
  then mark_branch_target_reached st else st.

Definition take_call_outcome_state (st child : PathState) : PathState :=
  let st := inherit_branch_target_progress (set_next_symbol (next_symbol child) (set_constraints (constraints child) st)) child in
  let st := set_preimages (mapping_hook_keccak_preimages child)
              (set_hooks (storage_load_hooks child) (storage_store_hooks child) (mapping_storage_store_hooks child) st) in
  let st := set_block (block child) (set_access_record (access_record child) (set_recorded_logs (recorded_logs child) st)) in
  on_calls (fun c => SExpect.set_function_mocks (function_mocks (calls child))
    (SExpect.set_call_mocks (call_mocks (calls child)) (SExpect.set_expected_calls (expected_calls (calls child)) c))) st.

(** The caller and its word, and the origin, of the next call. *)
Definition prank_for_next_call (st : PathState) : (Address * SymExpr * option (Address * SymExpr)) * PathState :=
  let p := prank (calls st) in
  match next_caller p with
  | Some (caller, caller_word) =>
      ((caller, caller_word, next_origin p),
       on_calls (SExpect.set_prank (mkPrank None None (persistent_caller p) (persistent_origin p))) st)
  | None =>
      match persistent_caller p with
      | Some (caller, caller_word) => ((caller, caller_word, persistent_origin p), st)
      | None => ((address (frame st), address_word (frame st), persistent_origin p), st)
      end
  end.
End State.

Section Ops.
Context `{SA : SignedArith, HF : HashFns, P : Parts, SE : SolverEnv} {BE : ChainBackend} {PC : Precompiles} {CP : CallParts}.
Variable config : SymbolicConfig.
Variable executor : ExecutorEnv.
(** The execution of the callee. *)
Variable external : PathState -> @SymCode JumpTable -> ExecM (list CallOutcome).
Import SStack SMemory SPath SExec.

Definition unsupported {A} (reason : string) : ExecM A := xerr (Unsupported reason).
Definition gas_not_modeled {A} : ExecM A := unsupported "GAS/gasleft() not modeled".

Definition ensure_expr_not_gasleft (e : SymExpr) : ExecM unit := if contains_gasleft e then gas_not_modeled else xret tt.

(** A popped operand that must not depend on the remaining gas. *)
Definition pop_gas_free (st : PathState) : ExecM (SymExpr * PathState) :=
  let+ (v, st) := pop_value st in
  let+ _ := ensure_expr_not_gasleft v in xret (v, st).

Definition is_raw_gasleft (e : SymExpr) : bool := match e with EGasLeft _ => true | _ => false end.

(** The path behind a call: its output is copied and its success pushed. *)
Definition complete (st : PathState) (out_offset : SymExpr) (out_size : BoundedCopySize) (success : SymExpr) : ExecM PathState :=
  let+ m := lift (SCopy.copy_call_output_offset (memory (frame st)) out_offset out_size (return_data (frame st))) in
  let st := set_memory m st in
  let+ s := of_result (push STACK_LIMIT (stack (frame st)) success) in xret (set_stack s st).

Definition completed (st : PathState) (out_offset : SymExpr) (out_size : BoundedCopySize) (success : SymExpr) : ExecM StepResult :=
  let+ st := complete st out_offset out_size success in xret (Continue, st, []).

(** More queued paths before those of a computation. *)
Definition queued (pushed : list PathState) (c : ExecM StepResult) : ExecM StepResult :=
  let+ (o, st, more) := c in xret (o, st, pushed ++ more).

Definition constraints_for_condition (st : PathState) (condition : SymBoolExpr) : ExecM (option (list SymBoolExpr)) :=
  let+ (cs, sat) := constraints_with_condition st condition in xret (if (sat : bool) then Some cs else None).

(** ** Expectations *)

(** Whether a condition holds on the whole path; otherwise the path is narrowed
    to a mismatch, if there is one. *)
Definition must_match (st : PathState) (condition : SymBoolExpr) : ExecM (bool * PathState) :=
  let+ (match_constraints, match_sat) := constraints_with_condition st condition in
  if negb match_sat then xret (false, st)
  else
    let+ (mismatch_constraints, mismatch_sat) := constraints_with_condition st (SBool.not_bool condition) in
    xret (if (mismatch_sat : bool) then (false, set_constraints mismatch_constraints st)
          else (true, set_constraints match_constraints st)).

Definition expected_revert_matches (st : PathState) (expected : ExpectedRevert) (reverter : Address) (data : SymReturnData)
    : ExecM (bool * PathState) :=
  let+ condition := lift (SExpect.revert_condition expected reverter data) in
  match condition with
  | None => xret (false, st)
  | Some condition => must_match st condition
  end.

Fixpoint filter_conditions (filters : list ExpectedRevert) (reverter : Address) (data : SymReturnData) : ExecM (list SymBoolExpr) :=
  match filters with
  | [] => xret []
  | filter :: rest =>
      let+ c := lift (SExpect.revert_condition filter reverter data) in
      let+ cs := filter_conditions rest reverter data in
      xret (match c with Some c => c :: cs | None => cs end)
  end.

Definition assume_no_revert_rejects (st : PathState) (assumption : AssumeNoRevert) (reverter : Address) (data : SymReturnData)
    : ExecM (bool * PathState) :=
  match assumption with
  | AssumeAny => xret (true, st)
  | AssumeFiltered filters =>
      let+ conditions := filter_conditions filters reverter data in
      match conditions with
      | [] => xret (false, st)
      | _ =>
          let condition := SBool.or conditions in
          let+ (_, match_sat) := constraints_with_condition st condition in
          if negb match_sat then xret (false, st)
          else
            let+ (mismatch_constraints, mismatch_sat) := constraints_with_condition st (SBool.not_bool condition) in
            xret (if (mismatch_sat : bool) then (false, set_constraints mismatch_constraints st) else (true, st))
      end
  end.

(** The expected revert is met once more. *)
Definition consume_expected_revert (expected : ExpectedRevert) (st : PathState) : PathState :=
  let '(last, expected) := SExpect.consume_revert expected in
  on_calls (SExpect.set_expected_revert (if last then None else Some expected)) st.

Definition join_expected (parent : PathState) (o : CallOutcome) (reverter : Address) : ExecM JoinedCallOutcome :=
  let status := call_status o in
  let child := call_state o in
  match expected_revert (calls parent) with
  | Some expected =>
      match status with
      | CallSuccess => xret (JoinFailure parent)
      | _ =>
          let+ (matches, parent) := expected_revert_matches parent expected reverter (return_data (frame child)) in
          xret (if (matches : bool) then JoinExpectedRevert (consume_expected_revert expected parent) child
                else JoinFailure parent)
      end
  | None =>
      xret (match status with
            | CallSuccess => JoinSuccess parent child
            | CallRevert => JoinRevert parent child
            | CallExceptionalHalt => JoinExceptionalHalt parent
            | CallFailure => JoinFailure parent
            end)
  end.

Definition join_call_outcome (st : PathState) (o : CallOutcome) (reverter : Address) : ExecM JoinedCallOutcome :=
  let parent := take_call_outcome_state st (call_state o) in
  let assumption := assume_no_revert_next_call (calls parent) in
  let parent := on_calls (SExpect.set_assume_no_revert None) parent in
  let+ (rejects, parent) :=
    (match assumption, call_status o with
     | Some assumption, CallRevert => assume_no_revert_rejects parent assumption reverter (return_data (frame (call_state o)))
     | _, _ => xret (false, parent)
     end) in
  if (rejects : bool) then xret JoinRejected else join_expected parent o reverter.

Definition resume_parent_paths (st : PathState) (parents : list PathState) : StepResult :=
  match SRun.pop_next_path config parents with
  | None => (AssumeRejected, st, [])
  | Some (first, parents) => (Continue, first, parents)
  end.

(** ** Mocks and expected calls *)
Definition expected_call_match_constraints (st : PathState) (expected : ExpectedCall) (callee : Address) (value : option U256)
    (gas : SymExpr) (input : SymBytes) : ExecM (option (list SymBoolExpr)) :=
  let+ r := lift (SExpect.call_condition expected callee value gas input) in
  let+ condition := of_result r in
  match condition with None => xret None | Some condition => constraints_for_condition st condition end.

Definition call_mock_match_constraints (st : PathState) (mock : CallMock) (callee : Address) (value : option U256)
    (input : SymBytes) : ExecM (option (list SymBoolExpr)) :=
  let+ condition := lift (SExpect.mock_condition mock callee value input) in
  match condition with None => xret None | Some condition => constraints_for_condition st condition end.

(** The loop of [observe_expected_call] over the indices of the expected calls. *)
Fixpoint observe_from (st : PathState) (idx : nat) (expected : list ExpectedCall) (callee : Address) (value : option U256)
    (gas : SymExpr) (input : SymBytes) : ExecM (bool * PathState) :=
  match expected with
  | [] => xret (true, st)
  | e :: rest =>
      let+ found := expected_call_match_constraints st e callee value gas input in
      match found with
      | Some cs =>
          let '(allowed, e) := SExpect.observe e in
          let st := on_calls (fun c => SExpect.set_expected_calls (<[idx := e]> (expected_calls c)) c) (set_constraints cs st) in
          xret (allowed, st)
      | None => observe_from st (S idx) rest callee value gas input
      end
  end.

Definition observe_expected_call (st : PathState) (callee : Address) (value : option U256) (gas : SymExpr) (input : SymBytes)
    : ExecM (bool * PathState) :=
  observe_from st 0 (expected_calls (calls st)) callee value gas input.

Definition more_specific (s best : Z * bool) : bool :=
  (fst best <? fst s) || ((fst best =? fst s) && negb (snd best) && snd s).

(** The loop of [take_call_mock]: the first of the most specific mocks. *)
Fixpoint best_mock (st : PathState) (idx : nat) (mocks : list CallMock) (callee : Address) (value : option U256)
    (input : SymBytes) (best : option (nat * (Z * bool) * list SymBoolExpr)) : ExecM (option (nat * (Z * bool) * list SymBoolExpr)) :=
  match mocks with
  | [] => xret best
  | mock :: rest =>
      let+ found := call_mock_match_constraints st mock callee value input in
      let best :=
        match found with
        | None => best
        | Some cs =>
            let specificity := SExpect.specificity mock in
            match best with
            | Some (_, other, _) => if more_specific specificity other then Some (idx, specificity, cs) else best
            | None => Some (idx, specificity, cs)
            end
        end in
      best_mock st (S idx) rest callee value input best
  end.

Definition take_call_mock (st : PathState) (callee : Address) (value : option U256) (input : SymBytes)
    : ExecM (option (SymReturnData * bool) * PathState) :=
  let+ best := best_mock st 0 (call_mocks (calls st)) callee value input None in
  match best with
  | None => xret (None, st)
  | Some (idx, _, cs) =>
      let st := set_constraints cs st in
      match call_mocks (calls st) !! idx with
      | None => lift Panic
      | Some mock =>
          let '(outcome, mock) := SExpect.next_outcome mock in
          xret (Some outcome, on_calls (fun c => SExpect.set_call_mocks (<[idx := mock]> (call_mocks c)) c) st)
      end
  end.

(** The function mocks of one length of calldata, the last first. *)
Definition mocks_of_length (st : PathState) (l : Z) : list FunctionMock :=
  List.filter (fun m => SExpect.calldata_len m =? l) (rev (function_mocks (calls st))).

Definition function_mock_order (st : PathState) (input : SymBytes) : list FunctionMock :=
  mocks_of_length st (SBytes.len input) ++ mocks_of_length st 4.

Definition function_mock_target (st : PathState) (callee : Address) (input : SymBytes) : ExecM (option Address * PathState) :=
  let+ found := SAccount.first_answer (fun mock =>
    let+ condition := lift (SExpect.function_condition mock callee input) in
    match condition with
    | None => xret None
    | Some condition =>
        let+ cs := constraints_for_condition st condition in
        xret (match cs with Some cs => Some (fm_target mock, cs) | None => None end)
    end) (function_mock_order st input) in
  xret (match found with Some (target, cs) => (Some target, set_constraints cs st) | None => (None, st) end).

(** Collects the conditions that there are. *)
Fixpoint collect {A} (condition : A -> ExecM (option SymBoolExpr)) (l : list A) : ExecM (list SymBoolExpr) :=
  match l with
  | [] => xret []
  | a :: rest =>
      let+ c := condition a in
      let+ cs := collect condition rest in
      xret (match c with Some c => c :: cs | None => cs end)
  end.

Definition function_mock_conditions (st : PathState) (callee : Address) (input : SymBytes) : ExecM (list SymBoolExpr) :=
  collect (fun mock => lift (SExpect.function_condition mock callee input)) (function_mock_order st input).

(** A set of values in ascending order. *)
Fixpoint insert_value (v : U256) (l : list U256) : list U256 :=
  match l with
  | [] => [v]
  | w :: rest => if uval v <? uval w then v :: l else if uval v =? uval w then l else w :: insert_value v rest
  end.

(** The asked value, when the call may match with it. *)
Fixpoint values_of {A} (value : A -> option U256) (constraints : A -> option U256 -> ExecM (option (list SymBoolExpr)))
    (l : list A) (values : list U256) : ExecM (list U256) :=
  match l with
  | [] => xret values
  | a :: rest =>
      match value a with
      | None => values_of value constraints rest values
      | Some v =>
          let+ found := constraints a (Some v) in
          values_of value constraints rest (match found with Some _ => insert_value v values | None => values end)
      end
  end.

Definition call_value_candidates (st : PathState) (code_address : Address) (gas : SymExpr) (input : SymBytes) : ExecM (list U256) :=
  let+ values := values_of ec_value (fun e v => expected_call_match_constraints st e code_address v gas input)
                   (expected_calls (calls st)) [] in
  values_of cm_value (fun m v => call_mock_match_constraints st m code_address v input) (call_mocks (calls st)) values.

(** Mocks from the most specific on, in their order otherwise. *)
Definition mock_order (mocks : list CallMock) : list CallMock :=
  SRun.sort_by_key (fun m => let '(l, has_value) := SExpect.specificity m in - (2 * l + (if has_value then 1 else 0))) mocks.

Definition call_match_conditions (st : PathState) (code_address : Address) (value : option U256) (gas : SymExpr)
    (input : SymBytes) : ExecM (list SymBoolExpr) :=
  let+ expected := collect (fun e => let+ r := lift (SExpect.call_condition e code_address value gas input) in of_result r)
                     (expected_calls (calls st)) in
  let+ mocks := collect (fun m => lift (SExpect.mock_condition m code_address value input)) (mock_order (call_mocks (calls st))) in
  xret (expected ++ mocks).

(** The call again on a narrowed path. *)
Definition call_again (pre : PathState) (call_pc : Z) (cs : list SymBoolExpr) : PathState :=
  set_constraints cs (set_pc call_pc pre).

(** Decides one condition: both sides are queued, or the path is narrowed. *)
Definition branch_symbolic_match_condition_if_needed (st pre : PathState) (call_pc : Z) (condition : SymBoolExpr)
    : ExecM (bool * PathState * list PathState) :=
  let+ (match_constraints, match_sat) := constraints_with_condition st condition in
  let+ (mismatch_constraints, mismatch_sat) := constraints_with_condition st (SBool.not_bool condition) in
  xret (match match_sat, mismatch_sat with
        | true, true => (true, st, [call_again pre call_pc match_constraints; call_again pre call_pc mismatch_constraints])
        | true, false => (false, set_constraints match_constraints st, [])
        | false, true => (false, set_constraints mismatch_constraints st, [])
        | false, false => (false, st, [])
        end).

Fixpoint branch_on (st pre : PathState) (call_pc : Z) (conditions : list SymBoolExpr) : ExecM (bool * PathState * list PathState) :=
  match conditions with
  | [] => xret (false, st, [])
  | condition :: rest =>
      let+ (forked, st, pushed) := branch_symbolic_match_condition_if_needed st pre call_pc condition in
      if (forked : bool) then xret (true, st, pushed) else branch_on st pre call_pc rest
  end.

Definition branch_symbolic_function_mock_if_needed (st pre : PathState) (call_pc : Z) (callee : Address) (input : SymBytes)
    : ExecM (bool * PathState * list PathState) :=
  let+ conditions := function_mock_conditions st callee input in branch_on st pre call_pc conditions.

Definition branch_symbolic_call_match_if_needed (st pre : PathState) (call_pc : Z) (code_address : Address) (value : option U256)
    (gas : SymExpr) (input : SymBytes) : ExecM (bool * PathState * list PathState) :=
  let+ conditions := call_match_conditions st code_address value gas input in branch_on st pre call_pc conditions.

(** The loop over the values: a value that the path allows ends it. *)
Fixpoint branch_values (st pre : PathState) (call_pc : Z) (value : SymExpr) (candidates : list U256)
    : ExecM (bool * PathState * list PathState) :=
  match candidates with
  | [] => xret (false, st, [])
  | candidate :: rest =>
      let eq := eq_word_const value candidate in
      let+ (eq_constraints, eq_sat) := constraints_with_condition st eq in
      let+ (neq_constraints, neq_sat) := constraints_with_condition st (SBool.not_bool eq) in
      match eq_sat, neq_sat with
      | true, true => xret (true, st, [call_again pre call_pc eq_constraints; call_again pre call_pc neq_constraints])
      | true, false => xret (false, set_constraints eq_constraints st, [])
      | false, true => branch_values (set_constraints neq_constraints st) pre call_pc value rest
      | false, false => xret (false, st, [])
      end
  end.

Definition branch_symbolic_call_value_if_needed (st pre : PathState) (call_pc : Z) (code_address : Address) (value gas : SymExpr)
    (input : SymBytes) : ExecM (bool * PathState * list PathState) :=
  match constrained_word (constraints st) value with
  | Some _ => xret (false, st, [])
  | None => let+ candidates := call_value_candidates st code_address gas input in branch_values st pre call_pc value candidates
  end.

(** ** Value transfers *)
Definition balance (st : PathState) (a : Address) : SymExpr := SWorld.balance_word_for_address (world st) a.

Definition can_transfer (st : PathState) (from to : Address) (value : SymExpr) : SymBoolExpr :=
  let can_pay := cmp Uge (balance st from) value in
  if from =? to then can_pay
  else SBool.and [can_pay; cmp Uge (binop Add (balance st to) value) (balance st to)].

(** Decides whether the value can be paid: the failing side is completed by
    [fail], and queued when both sides are possible. *)
Definition decide_payment (st : PathState) (condition : SymBoolExpr) (fail : PathState -> ExecM PathState)
    : ExecM (bool * PathState * list PathState) :=
  match SBool.as_const condition with
  | Some true => xret (true, st, [])
  | Some false => let+ st := fail st in xret (false, st, [])
  | None =>
      let success_constraints := constraints st ++ [condition] in
      let+ success_sat := is_sat_with_state st success_constraints in
      let failure_constraints := constraints st ++ [SBool.not_bool condition] in
      let+ failure_sat := is_sat_with_state st failure_constraints in
      match success_sat, failure_sat with
      | true, true =>
          let+ failure := fail (set_constraints failure_constraints st) in
          xret (true, set_constraints success_constraints st, [failure])
      | true, false => xret (true, set_constraints success_constraints st, [])
      | false, true => let+ st := fail (set_constraints failure_constraints st) in xret (false, st, [])
      | false, false => xret (false, st, [])
      end
  end.

Definition known_zero (st : PathState) (value : SymExpr) : bool :=
  match constrained_word (constraints st) value with Some v => is_zero v | None => false end.

Definition prepare_value_transfer (st : PathState) (from to : Address) (value out_offset : SymExpr) (out_size : BoundedCopySize)
    : ExecM (bool * PathState * list PathState) :=
  if known_zero st value then xret (true, st, [])
  else decide_payment st (can_transfer st from to value) (fun st => complete (clear_return st) out_offset out_size zero).

Definition prepare_create_value_transfer (st : PathState) (value : SymExpr) : ExecM (bool * PathState * list PathState) :=
  if known_zero st value then xret (true, st, [])
  else decide_payment st (cmp Uge (balance st (address (frame st))) value) (fun st =>
         let+ s := of_result (push STACK_LIMIT (stack (frame st)) zero) in xret (set_stack s (clear_return st))).

Definition apply_call_value_transfer (kind : CallKind) (to from : Address) (value : SymExpr) (st : PathState) : PathState :=
  match kind with
  | KCall => set_world (SWorld.transfer from to value (world st)) st
  | KCallCode => set_world (SWorld.transfer from (address (frame st)) value (world st)) st
  | KDelegateCall | KStaticCall => st
  end.

(** ** Precompiles *)
Definition apply_precompile_outcome (st : PathState) (kind : CallKind) (to from : Address) (value out_offset : SymExpr)
    (out_size : BoundedCopySize) (outcome : option SymReturnData) : ExecM PathState :=
  match outcome with
  | Some data => complete (apply_call_value_transfer kind to from value (set_return_data data st)) out_offset out_size one
  | None => complete (clear_return st) out_offset out_size zero
  end.

Definition execute_kzg_precompile_call (st : PathState) (kind : CallKind) (to from : Address) (value out_offset : SymExpr)
    (out_size : BoundedCopySize) (input : list SymExpr) (input_len : SymExpr) : ExecM StepResult :=
  let apply st outcome := apply_precompile_outcome st kind to from value out_offset out_size outcome in
  let+ r := lift (SKzg.kzg_constrained_outcome (constraints st) input input_len) in
  let+ known := of_result r in
  match known with
  | Some outcome => let+ st := apply st outcome in xret (Continue, st, [])
  | None =>
      let success_condition := SKzg.kzg_success_witness_condition input input_len in
      let failure_condition := SKzg.kzg_failure_witness_condition (constraints st) input input_len in
      let modeled := SBool.or [success_condition; failure_condition] in
      let+ (_, residual_sat) := constraints_with_condition st (SBool.not_bool modeled) in
      let+ _ := (if (residual_sat : bool) then defer_incomplete KZG_RESIDUAL_REASON else xret tt) in
      let+ (success_constraints, success_sat) := constraints_with_condition st success_condition in
      let+ (failure_constraints, failure_sat) := constraints_with_condition st failure_condition in
      match success_sat, failure_sat with
      | true, true =>
          let+ failure := apply (set_constraints failure_constraints st) None in
          let+ st := apply (set_constraints success_constraints st) (Some SKzg.kzg_success_return_data) in
          xret (Continue, st, [failure])
      | true, false =>
          let+ st := apply (set_constraints success_constraints st) (Some SKzg.kzg_success_return_data) in xret (Continue, st, [])
      | false, true => let+ st := apply (set_constraints failure_constraints st) None in xret (Continue, st, [])
      | false, false => unsupported KZG_RESIDUAL_REASON
      end
  end.

Definition call_precompile (number : Z) (code_address : Address) (st : PathState) (kind : CallKind) (to from : Address)
    (value in_offset : SymExpr) (in_size : BoundedCopySize) (out_offset : SymExpr) (out_size : BoundedCopySize) : ExecM StepResult :=
  let input_len := SCopy.bounded_size_word in_size in
  let+ input := lift (SCopy.read_from_memory in_size (memory (frame st)) in_offset) in
  if number =? 10 then
    execute_kzg_precompile_call st kind to from value out_offset out_size (SBytes.materialize input) input_len
  else
    let+ r := lift (SPrecompile.execute_symbolic_precompile code_address input input_len (spec_id executor)) in
    let+ outcome := of_result r in
    let+ st := apply_precompile_outcome st kind to from value out_offset out_size outcome in xret (Continue, st, []).

(** ** Calls *)

(** The frame of the callee. *)
Definition call_frame (st : PathState) (kind : CallKind) (to from : Address) (callee_word from_word value : SymExpr)
    (data : SymCalldata) : CallFrame :=
  let f := frame st in
  let base :=
    match kind with
    | KCall => SAccount.new_frame to to from value (is_static f) data
    | KStaticCall => SAccount.new_frame to to from zero true data
    | KDelegateCall => SAccount.new_frame (address f) (storage_address f) (caller f) (callvalue f) (is_static f) data
    | KCallCode => SAccount.new_frame (address f) (storage_address f) from value (is_static f) data
    end in
  let '(this_word, that_word) :=
    match kind with
    | KCall | KStaticCall => (callee_word, from_word)
    | KDelegateCall => (address_word f, caller_word f)
    | KCallCode => (address_word f, from_word)
    end in
  mkFrame (pc base) (address base) this_word (storage_address base) (caller base) that_word (callvalue base) (is_static base)
    (calldata base) (stack base) (memory base) (return_data base).

(** The word by which the callee knows itself. *)
Definition callee_address_word (st : PathState) (to : Address) (target_word : option SymExpr) : SymExpr :=
  match SWorld.symbolic_word_for_address (world st) to with
  | Some w => w
  | None =>
      match target_word with
      | Some e => if bool_decide (SWorld.resolve_address (world st) e = Some to) then e else constant (SymWorld.address_word to)
      | None => constant (SymWorld.address_word to)
      end
  end.

(** The callers' paths behind the outcomes of a call, or the path that fails. *)
Fixpoint join_call (st : PathState) (original : SymbolicWorld) (to : Address) (out_offset : SymExpr) (out_size : BoundedCopySize)
    (outcomes : list CallOutcome) (parents : list PathState) : ExecM (list PathState + PathState) :=
  match outcomes with
  | [] => xret (inl parents)
  | o :: rest =>
      let keep parent success :=
        let+ parent := complete parent out_offset out_size success in
        join_call st original to out_offset out_size rest (parents ++ [parent]) in
      let creates child := on_calls (SExpect.set_expected_creates (expected_creates (calls child))) in
      let+ joined := join_call_outcome st o to in
      match joined with
      | JoinRejected => join_call st original to out_offset out_size rest parents
      | JoinFailure parent => xret (inr parent)
      | JoinExceptionalHalt parent => keep (clear_return (set_world original parent)) zero
      | JoinExpectedRevert parent child => keep (clear_return (set_world original (creates child parent))) one
      | JoinSuccess parent child =>
          keep (set_return_data (return_data (frame child))
            (creates child (set_expected_emit (expected_emit child) (set_world (world child) parent)))) one
      | JoinRevert parent child => keep (set_return_data (return_data (frame child)) (set_world original (creates child parent))) zero
      end
  end.

(** The path of the callee. *)
Definition callee_path (st : PathState) (kind : CallKind) (to from : Address) (from_word : SymExpr)
    (pranked_origin : option (Address * SymExpr)) (target_word : option SymExpr) (value : SymExpr) (data : SymCalldata) : PathState :=
  let f := call_frame st kind to from (callee_address_word st to target_word) from_word value data in
  let callee := child st f in
  let callee := match pranked_origin with
                | Some (a, w) => set_origin_word w (on_calls (SExpect.set_origin a) callee)
                | None => callee
                end in
  apply_call_value_transfer kind to from value callee.

(** The call of code that is not empty. *)
Definition call_code (st : PathState) (kind : CallKind) (to from : Address) (from_word : SymExpr)
    (pranked_origin : option (Address * SymExpr)) (target_word : option SymExpr) (value : SymExpr) (data : SymCalldata)
    (code : @SymCode JumpTable) (out_offset : SymExpr) (out_size : BoundedCopySize) : ExecM StepResult :=
  let+ outcomes := external (callee_path st kind to from from_word pranked_origin target_word value data) code in
  match outcomes with
  | [] => xret (AssumeRejected, st, [])
  | _ =>
      let+ joined := join_call st (world st) to out_offset out_size outcomes [] in
      xret (match joined with
            | inr parent => (Failure, parent, [])
            | inl parents => resume_parent_paths st parents
            end)
  end.

(** The call of an account: a precompile, an account without code, or code. *)
Definition call_account (st : PathState) (kind : CallKind) (to from : Address) (from_word : SymExpr)
    (pranked_origin : option (Address * SymExpr)) (target_word : option SymExpr) (value : SymExpr) (code_address : Address)
    (in_offset : SymExpr) (in_size : BoundedCopySize) (out_offset : SymExpr) (out_size : BoundedCopySize) (input : SymBytes)
    : ExecM StepResult :=
  match precompile_number_for_spec code_address (spec_id executor) with
  | Some number => call_precompile number code_address st kind to from value in_offset in_size out_offset out_size
  | None =>
      let+ (code, w) := of_result (SWorld.extcode (spec_id executor) code_address (world st)) in
      let st := set_world w st in
      if code_is_empty code then
        completed (clear_return (apply_call_value_transfer kind to from value st)) out_offset out_size one
      else
        call_code st kind to from from_word pranked_origin target_word value (SCopy.calldata in_size input) code out_offset out_size
  end.

(** The call behind the payment: a mock, or the account.  [context] is the caller
    that was looked up before. *)
Definition call_paid (st : PathState) (kind : CallKind) (to : Address) (context : option (Address * SymExpr * option (Address * SymExpr)))
    (target_word : option SymExpr) (value : SymExpr) (code_address : Address) (in_offset : SymExpr) (in_size : BoundedCopySize)
    (out_offset : SymExpr) (out_size : BoundedCopySize) (input : SymBytes) : ExecM StepResult :=
  let+ (mock, st) := take_call_mock st code_address (constrained_word (constraints st) value) input in
  match mock with
  | Some (data, reverts) =>
      let st := set_return_data data st in
      let st := match reverts, context with
                | false, Some (from, _, _) => apply_call_value_transfer kind to from value st
                | _, _ => st
                end in
      completed st out_offset out_size (constant (U (if reverts then 0 else 1)))
  | None =>
      if bool_decide (kind = KDelegateCall) && SExpect.has_active (prank (calls st)) then unsupported "symbolic prank delegatecall"
      else
        let '((from, from_word, pranked_origin), st) := match context with Some c => (c, st) | None => prank_for_next_call st end in
        call_account st kind to from from_word pranked_origin target_word value code_address in_offset in_size out_offset out_size input
  end.

Definition call_concrete_target (st : PathState) (kind : CallKind) (to : Address) (target_word : option SymExpr)
    (value gas in_offset : SymExpr) (in_size : BoundedCopySize) (out_offset : SymExpr) (out_size : BoundedCopySize)
    : ExecM StepResult :=
  if SWorld.is_vm_address to then
    if negb (known_zero st value) then unsupported "value-bearing cheatcode CALL"
    else cheatcode_call st to in_offset in_size out_offset out_size
  else if to =? HARDHAT_CONSOLE_ADDRESS then completed (clear_return st) out_offset out_size one
  else
    let+ input := lift (SCopy.read_from_memory in_size (memory (frame st)) in_offset) in
    let+ (mocked, st) := function_mock_target st to input in
    let code_address := default to mocked in
    let+ (allowed, st) := observe_expected_call st code_address (constrained_word (constraints st) value) gas input in
    if negb allowed then xret (Failure, st, [])
    else
      let '(context, st) := match kind with
                            | KDelegateCall => (None, st)
                            | _ => let '(c, st) := prank_for_next_call st in (Some c, st)
                            end in
      let transfer_to := match kind with KCall => to | _ => address (frame st) end in
      let+ (can_pay, st, pushed) :=
        (match kind, context with
         | KCall, Some (from, _, _) | KCallCode, Some (from, _, _) =>
             prepare_value_transfer st from transfer_to value out_offset out_size
         | _, _ => xret (true, st, [])
         end) in
      if negb can_pay then xret (Continue, st, pushed)
      else queued pushed (call_paid st kind to context target_word value code_address in_offset in_size out_offset out_size input).

(** ** Symbolic targets *)
Definition path_limit_exceeded {A} : ExecM A := unsupported "symbolic path limit exceeded".

(** Splits branches on a condition, keeping the feasible sides. *)
Fixpoint split_branches_on (branches : list PathState) (condition : SymBoolExpr) (next : list PathState) : ExecM (list PathState) :=
  match branches with
  | [] => xret next
  | branch :: rest =>
      let+ (match_constraints, match_sat) := constraints_with_condition branch condition in
      let+ (mismatch_constraints, mismatch_sat) := constraints_with_condition branch (SBool.not_bool condition) in
      let next := next ++ (if (match_sat : bool) then [set_constraints match_constraints branch] else []) ++
                  (if (mismatch_sat : bool) then [set_constraints mismatch_constraints branch] else []) in
      if path_width config <? zlen next then path_limit_exceeded else split_branches_on rest condition next
  end.

Fixpoint split_on_all (branches : list PathState) (conditions : list SymBoolExpr) : ExecM (list PathState) :=
  match conditions with
  | [] => xret branches
  | condition :: rest => let+ branches := split_branches_on branches condition [] in split_on_all branches rest
  end.

(** The branches behind the values of one branch. *)
Fixpoint split_matches (branches : list PathState) (code_address : Address) (value gas : SymExpr) (input : SymBytes)
    (out : list PathState) : ExecM (list PathState) :=
  match branches with
  | [] => xret out
  | branch :: rest =>
      let+ conditions := call_match_conditions branch code_address (constrained_word (constraints branch) value) gas input in
      let+ matches := split_on_all [branch] conditions in
      if path_width config <? zlen out + zlen matches then path_limit_exceeded
      else split_matches rest code_address value gas input (out ++ matches)
  end.

Fixpoint split_candidates (branches : list PathState) (to : Address) (value gas : SymExpr) (input : SymBytes)
    (out : list PathState) : ExecM (list PathState) :=
  match branches with
  | [] => xret out
  | branch :: rest =>
      let+ (mocked, branch) := function_mock_target branch to input in
      let code_address := default to mocked in
      let+ values :=
        (match constrained_word (constraints branch) value with
         | Some _ => xret [branch]
         | None =>
             let+ candidates := call_value_candidates branch code_address gas input in
             split_on_all [branch] (map (eq_word_const value) candidates)
         end) in
      let+ out := split_matches values code_address value gas input out in
      split_candidates rest to value gas input out
  end.

Definition split_symbolic_target_candidate (branch : PathState) (to : Address) (value gas : SymExpr) (input : SymBytes)
    : ExecM (list PathState) :=
  let+ conditions := function_mock_conditions branch to input in
  let+ branches := split_on_all [branch] conditions in
  split_candidates branches to value gas input [].

(** The addresses that a symbolic target may be: known contracts and the
    precompiles, in ascending order and once each. *)
Definition target_candidates (targets : list Address) : list Address :=
  merge_sort Z.le (elements (list_to_set (targets ++ map (Z.add 1) (range 10)) : gset Address)).

Definition target_is (target : SymExpr) (a : Address) : SymBoolExpr := eq_exprs target (constant (SymWorld.address_word a)).

(** The target is none of the candidates: an account without code. *)
Definition call_outside (st : PathState) (cs : list SymBoolExpr) (kind : CallKind) (target value out_offset : SymExpr)
    (out_size : BoundedCopySize) : ExecM (list PathState) :=
  let branch := set_constraints cs st in
  if bool_decide (kind = KDelegateCall) && SExpect.has_active (prank (calls branch)) then unsupported "symbolic prank delegatecall"
  else
    let '((from, _, _), branch) := prank_for_next_call branch in
    match kind with
    | KCall | KCallCode =>
        let '(transfer_to, branch) :=
          match kind with
          | KCall => let '(a, w) := SWorld.symbolic_address_slot target (world branch) in (a, set_world w branch)
          | _ => (address (frame branch), branch)
          end in
        let+ (can_pay, branch, parents) := prepare_value_transfer branch from transfer_to value out_offset out_size in
        if negb can_pay then xret (parents ++ [branch])
        else
          let branch := set_world (SWorld.transfer from transfer_to value (world branch)) branch in
          let+ branch := complete (clear_return branch) out_offset out_size one in
          xret (parents ++ [branch])
    | _ => let+ branch := complete (clear_return branch) out_offset out_size one in xret [branch]
    end.

(** The calls of one candidate, or the outcome that ends the step. *)
Fixpoint call_branches (call : PathState -> ExecM StepResult) (branches parents : list PathState)
    : ExecM (list PathState + StepOutcome) :=
  match branches with
  | [] => xret (inl parents)
  | branch :: rest =>
      let+ (outcome, branch, pushed) := call branch in
      match outcome with
      | Continue => call_branches call rest (parents ++ branch :: pushed)
      | AssumeRejected => call_branches call rest parents
      | outcome => xret (inr outcome)
      end
  end.

Fixpoint call_candidates (st : PathState) (candidates : list Address) (kind : CallKind) (target value gas in_offset : SymExpr)
    (in_size : BoundedCopySize) (out_offset : SymExpr) (out_size : BoundedCopySize) (input : SymBytes) (parents : list PathState)
    : ExecM (list PathState + StepOutcome) :=
  match candidates with
  | [] => xret (inl parents)
  | to :: rest =>
      let go parents := call_candidates st rest kind target value gas in_offset in_size out_offset out_size input parents in
      let branch := set_constraints (constraints st ++ [target_is target to]) st in
      let+ sat := is_sat_with_state branch (constraints branch) in
      if negb sat then go parents
      else
        let+ branches := split_symbolic_target_candidate branch to value gas input in
        let+ r := call_branches (fun b => call_concrete_target b kind to None value gas in_offset in_size out_offset out_size)
                    branches parents in
        match r with
        | inl parents => go parents
        | inr outcome => xret (inr outcome)
        end
  end.

(** An outcome of a candidate other than going on ends the step on the path of
    the caller. *)
Definition call_symbolic_target (st : PathState) (kind : CallKind) (target value gas in_offset : SymExpr)
    (in_size : BoundedCopySize) (out_offset : SymExpr) (out_size : BoundedCopySize) : ExecM StepResult :=
  let+ (targets, w) := of_result (SWorld.symbolic_call_targets (spec_id executor) (world st)) in
  let st := set_world w st in
  let candidates := target_candidates targets in
  match candidates with
  | [] => unsupported "symbolic CALL target has no known contract candidates"
  | _ =>
      let outside := constraints st ++ map (fun a => SBool.not_bool (target_is target a)) candidates in
      let+ outside_sat := is_sat_with_state st outside in
      if negb (allow_symbolic_targets config) && outside_sat then unsupported "symbolic CALL target"
      else
        let+ parents := (if (outside_sat : bool) then call_outside st outside kind target value out_offset out_size else xret []) in
        let+ input := lift (SCopy.read_from_memory in_size (memory (frame st)) in_offset) in
        let+ r := call_candidates st candidates kind target value gas in_offset in_size out_offset out_size input parents in
        xret (match r with
              | inr outcome => (outcome, st, [])
              | inl parents => resume_parent_paths st parents
              end)
  end.

(** ** CALL, CALLCODE, DELEGATECALL and STATICCALL *)
Definition sized_range (st : PathState) (size : SymExpr) (reason : string) (k : option BoundedCopySize -> ExecM StepResult)
    : ExecM StepResult :=
  sized_operand st size (max_calldata_bytes config) reason (fun n => k (Some (CopyConcrete n))) (k None)
    (fun m => k (Some (CopySymbolic size m))).

(** A call with value is an exceptional halt in a static frame: the path with
    a value ends, and the path without goes on or is queued. *)
Definition static_value_guard (pre st : PathState) (call_pc : Z) (value : SymExpr) (k : PathState -> ExecM StepResult)
    : ExecM StepResult :=
  let halt st pushed := xret (ExceptionalHalt, clear_return st, pushed) in
  match constrained_word (constraints st) value with
  | Some v => if is_zero v then k st else halt st []
  | None =>
      let zero_value := eq_word_const value ZERO in
      let+ (zero_constraints, zero_sat) := constraints_with_condition st zero_value in
      let+ (nonzero_constraints, nonzero_sat) := constraints_with_condition st (SBool.not_bool zero_value) in
      match zero_sat, nonzero_sat with
      | true, true => halt (set_constraints nonzero_constraints st) [call_again pre call_pc zero_constraints]
      | true, false => k (set_constraints zero_constraints st)
      | false, true => halt (set_constraints nonzero_constraints st) []
      | false, false => xret (AssumeRejected, st, [])
      end
  end.

(** Mock and expectation matches are decided before the call. *)
Definition call_known_target (pre st : PathState) (call_pc : Z) (kind : CallKind) (to : Address) (target value gas in_offset : SymExpr)
    (in_size : BoundedCopySize) (out_offset : SymExpr) (out_size : BoundedCopySize) (input : SymBytes) : ExecM StepResult :=
  let+ (forked, st, pushed) := branch_symbolic_function_mock_if_needed st pre call_pc to input in
  if (forked : bool) then xret (Forked, st, pushed)
  else
    let+ (mocked, st) := function_mock_target st to input in
    let code_address := default to mocked in
    let watched := negb (bool_decide (expected_calls (calls st) = [])) || negb (bool_decide (length (call_mocks (calls st)) = 0%nat)) in
    let+ (forked, st, pushed) :=
      (if watched then branch_symbolic_call_value_if_needed st pre call_pc code_address value gas input else xret (false, st, [])) in
    if (forked : bool) then xret (Forked, st, pushed)
    else
      let+ (forked, st, pushed) :=
        (if watched then branch_symbolic_call_match_if_needed st pre call_pc code_address
                           (constrained_word (constraints st) value) gas input
         else xret (false, st, [])) in
      if (forked : bool) then xret (Forked, st, pushed)
      else call_concrete_target st kind to (Some target) value gas in_offset in_size out_offset out_size.

Definition pop_call_value (st : PathState) (kind : CallKind) (target_address : option Address) : ExecM (SymExpr * PathState) :=
  match kind with
  | KStaticCall | KDelegateCall => xret (zero, st)
  | KCallCode => pop_gas_free st
  | KCall =>
      let+ (value, st) := pop_value st in
      let+ value :=
        (match target_address with
         | Some to => if SWorld.is_vm_address to
                      then let+ v := of_result (expect_constrained_word (constraints st) value "symbolic CALL value") in xret (constant v)
                      else xret value
         | None => xret value
         end) in
      let+ _ := ensure_expr_not_gasleft value in xret (value, st)
  end.

(** The call behind its operands. *)
Definition call_with (pre st : PathState) (call_pc : Z) (kind : CallKind) (target : SymExpr) (target_address : option Address)
    (value gas in_offset : SymExpr) (in_size : BoundedCopySize) (out_offset : SymExpr) (out_size : BoundedCopySize)
    : ExecM StepResult :=
  let st := set_memory (SCopy.expand_memory out_size (SCopy.expand_memory in_size (memory (frame st)) in_offset) out_offset) st in
  let go st :=
    let+ input := lift (SCopy.read_from_memory in_size (memory (frame st)) in_offset) in
    if SBytes.bytes_contain_gasleft input then gas_not_modeled
    else
      match target_address with
      | Some to => call_known_target pre st call_pc kind to target value gas in_offset in_size out_offset out_size input
      | None => call_symbolic_target st kind target value gas in_offset in_size out_offset out_size
      end in
  if is_static (frame st) && bool_decide (kind = KCall) then static_value_guard pre st call_pc value go else go st.

Definition call_op (st : PathState) (kind : CallKind) : ExecM StepResult :=
  let pre := st in
  let call_pc := Z.max 0 (pc (frame st) - 1) in
  let idx := match kind with KCall | KCallCode => 3 | _ => 2 end in
  let+ in_offset := peek_value st idx in
  let+ in_size := peek_value st (idx + 1) in
  let+ out_offset := peek_value st (idx + 2) in
  let+ out_size := peek_value st (idx + 3) in
  guarded (guard_memory_range executor st in_offset in_size) (fun st =>
  guarded (guard_memory_range executor st out_offset out_size) (fun st =>
    let+ (gas, st) := pop_value st in
    if negb (is_raw_gasleft gas) then unsupported "explicit CALL gas limit not modeled"
    else
      let+ (target, st) := pop_gas_free st in
      let target_address := SWorld.resolve_address (world st) target in
      let+ (value, st) := pop_call_value st kind target_address in
      let+ (in_offset, st) := pop_gas_free st in
      let+ (in_size, st) := pop_gas_free st in
      sized_range st in_size "symbolic CALL input size" (fun in_size =>
        match in_size with
        | None => revert_here st
        | Some in_size =>
            let+ (out_offset, st) := pop_gas_free st in
            let+ (out_size, st) := pop_gas_free st in
            sized_range st out_size "symbolic CALL output size" (fun out_size =>
              match out_size with
              | None => revert_here st
              | Some out_size =>
                  call_with pre st call_pc kind target target_address value gas in_offset in_size out_offset out_size
              end)
        end))).

(** ** CREATE and CREATE2 *)
Definition symbolic_create2_address_word (creator : Address) (salt : SymExpr) (initcode : list Z + list SymExpr) (st : PathState)
    : SymExpr * PathState :=
  let word := EVar (create2_symbol creator salt initcode) in
  (word, set_constraints (constraints st ++ [cmp_word_const Ult word (U (2 ^ 160))]) st).

Definition create2_address_word (st : PathState) (creator : Address) (salt : SymExpr) (initcode : @SymCode JumpTable)
    : Outcome (SymExpr * Address * PathState) :=
  let symbolic identity :=
    let '(word, st) := symbolic_create2_address_word creator salt identity st in
    let '(a, w) := SWorld.symbolic_address_slot word (world st) in
    (word, a, set_world w st) in
  obind (code_concrete_bytes initcode) (fun bytes =>
    match bytes, as_const salt with
    | Some bytes, Some salt =>
        let a := create2_from_code creator salt bytes in Ret (constant (SymWorld.address_word a), a, st)
    | Some bytes, None => Ret (symbolic (inl bytes))
    | None, _ => obind (code_read_byte_exprs initcode 0 (code_len initcode)) (fun exprs => Ret (symbolic (inr exprs)))
    end).

Definition read_initcode (st : PathState) (offset : SymExpr) (size : BoundedCopySize) : Outcome (@SymCode JumpTable) :=
  match size with
  | CopyConcrete n =>
      match constrained_usize (constraints st) offset with
      | Some offset => obind (read_bytes (memory (frame st)) offset n) (code_from_bytes legacy_jump_table)
      | None => code_from_memory_offset legacy_jump_table (memory (frame st)) offset n
      end
  | CopySymbolic size max_size => code_from_memory_symbolic_size legacy_jump_table (memory (frame st)) offset size max_size
  end.

Definition runtime_exceeds_code_size_limit (runtime : SymReturnData) : bool :=
  (SPURIOUS_DRAGON <=? spec_id executor) && bool_decide (is_Some (as_const (len_word runtime))) &&
  (max_code_size <? SReturnData.len runtime).

Definition runtime_has_rejected_prefix (runtime : SymReturnData) : bool + SymbolicError :=
  if (spec_id executor <? LONDON) || (SReturnData.len runtime =? 0) then inl false
  else match as_const (SReturnData.byte runtime 0) with
       | None => inr (Unsupported "CREATE with symbolic runtime prefix not modeled")
       | Some v => inl (uval v =? 0xef)
       end.

(** [Vec::swap_remove]: the last element takes the place. *)
Definition vec_swap_remove {A} (idx : nat) (l : list A) : list A :=
  match last l with
  | Some x => if bool_decide (S idx = length l) then removelast l else <[idx := x]> (removelast l)
  | None => l
  end.

(** The loop of [observe_expected_create]; it remembers the first mismatch. *)
Fixpoint observe_create_from (st : PathState) (idx : nat) (expected : list ExpectedCreate) (deployer : Address) (kind : CreateKind)
    (bytecode : list Z) (mismatch : option (list SymBoolExpr)) : ExecM PathState :=
  match expected with
  | [] => xret (match mismatch with Some cs => set_constraints cs st | None => st end)
  | e :: rest =>
      let+ condition := lift (SExpect.create_condition e deployer kind bytecode) in
      match condition with
      | None => observe_create_from st (S idx) rest deployer kind bytecode mismatch
      | Some condition =>
          let+ (match_constraints, match_sat) := constraints_with_condition st condition in
          let+ (mismatch_constraints, mismatch_sat) := constraints_with_condition st (SBool.not_bool condition) in
          if match_sat && negb mismatch_sat then
            xret (on_calls (fun c => SExpect.set_expected_creates (vec_swap_remove idx (expected_creates c)) c)
                    (set_constraints match_constraints st))
          else
            observe_create_from st (S idx) rest deployer kind bytecode
              (if (mismatch_sat : bool) then match mismatch with Some cs => Some cs | None => Some mismatch_constraints end else mismatch)
      end
  end.

Definition observe_expected_create (st : PathState) (deployer : Address) (kind : CreateKind) (runtime : SymReturnData) : ExecM PathState :=
  match expected_creates (calls st) with
  | [] => xret st
  | expected =>
      let+ bytes := lift (SReturnData.read_concrete runtime) in
      match bytes with
      | None => unsupported "symbolic expected create bytecode"
      | Some bytecode => observe_create_from st 0 expected deployer kind bytecode None
      end
  end.

(** Code that is too long, or starts with 0xef, makes the create revert; the
    second keeps no return data. *)
Definition check_runtime (o : CallOutcome) : (CallOutcome * bool) + SymbolicError :=
  let runtime := return_data (frame (call_state o)) in
  match call_status o with
  | CallSuccess =>
      if runtime_exceeds_code_size_limit runtime then inl (mkCallOutcome _ CallRevert (clear_return (call_state o)), false)
      else match runtime_has_rejected_prefix runtime with
           | inr e => inr e
           | inl true => inl (mkCallOutcome _ CallRevert (call_state o), true)
           | inl false => inl (o, false)
           end
  | _ => inl (o, false)
  end.

Definition push_on (st : PathState) (value : SymExpr) : ExecM PathState :=
  let+ s := of_result (push STACK_LIMIT (stack (frame st)) value) in xret (set_stack s st).

(** The new contract is installed unless its code destroyed it. *)
Definition install_created (created : Address) (runtime : SymReturnData) (st : PathState) : ExecM PathState :=
  if SWorld.is_destroyed (world st) created then xret st
  else
    let+ r := lift (to_code legacy_jump_table runtime) in
    let+ code := of_result r in
    xret (set_world (SWorld.set_nonce created 1 (SWorld.install_code created code (world st))) st).

Fixpoint join_create (st : PathState) (failure_world : SymbolicWorld) (created : Address) (created_word : SymExpr)
    (pending : list ExpectedCreate) (kind : CreateKind) (outcomes : list CallOutcome) (parents : list PathState)
    : ExecM (list PathState + PathState) :=
  match outcomes with
  | [] => xret (inl parents)
  | o :: rest =>
      let go parents := join_create st failure_world created created_word pending kind rest parents in
      let keep parent value := let+ parent := push_on parent value in go (parents ++ [parent]) in
      let creates := on_calls (SExpect.set_expected_creates pending) in
      let+ (o, rejected) := of_result (check_runtime o) in
      let+ joined := join_call_outcome st o created in
      match joined with
      | JoinRejected => go parents
      | JoinFailure parent => xret (inr (clear_return parent))
      | JoinExceptionalHalt parent => keep (set_world failure_world (clear_return parent)) zero
      | JoinExpectedRevert parent _ => keep (set_world failure_world (creates (clear_return parent))) created_word
      | JoinSuccess parent child =>
          let runtime := return_data (frame child) in
          let parent := creates (set_expected_emit (expected_emit child) (set_world (world child) (clear_return parent))) in
          let+ parent := observe_expected_create parent (address (frame st)) kind runtime in
          let+ parent := install_created created runtime parent in
          keep parent created_word
      | JoinRevert parent child =>
          let parent := set_world failure_world (clear_return parent) in
          keep (if (rejected : bool) then parent else set_return_data (return_data (frame child)) parent) zero
      end
  end.

(** The frame of the init code. *)
Definition create_frame (st : PathState) (created : Address) (created_word value : SymExpr) : CallFrame :=
  let f := SAccount.new_frame created created (address (frame st)) value false (SCalldata.from_bytes SBytes.empty) in
  mkFrame (pc f) (address f) created_word (storage_address f) (caller f) (address_word (frame st)) (callvalue f) (is_static f)
    (calldata f) (stack f) (memory f) (return_data f).

Definition new_address (st : PathState) (kind : CreateKind) (salt : option SymExpr) (initcode : @SymCode JumpTable)
    : ExecM (SymExpr * Address * PathState) :=
  let creator := address (frame st) in
  match kind, salt with
  | KCreate, _ =>
      let+ n := of_result (SWorld.nonce (world st) creator) in
      let a := create_address creator n in xret (constant (SymWorld.address_word a), a, st)
  | KCreate2, Some salt => lift (create2_address_word st creator salt initcode)
  | KCreate2, None => lift Panic
  end.

(** The create behind its operands. *)
Definition create_with (st : PathState) (kind : CreateKind) (value offset : SymExpr) (size : BoundedCopySize) (salt : option SymExpr)
    : ExecM StepResult :=
  let creator := address (frame st) in
  let st := set_memory (SCopy.expand_memory size (memory (frame st)) offset) st in
  let+ initcode := lift (read_initcode st offset size) in
  let+ (created_word, created, st) := new_address st kind salt initcode in
  let+ (can_pay, st, pushed) := prepare_create_value_transfer st value in
  if negb can_pay then xret (Continue, st, pushed)
  else queued pushed (
    let+ failure_world := of_result (SWorld.increment_nonce creator (world st)) in
    let+ (collision, failure_world) := of_result (SWorld.has_code_or_nonce (spec_id executor) created failure_world) in
    if (collision : bool) then
      let+ st := push_on (clear_return (set_world failure_world st)) zero in xret (Continue, st, [])
    else
      let callee := child st (create_frame st created created_word value) in
      let pending := expected_creates (calls callee) in
      let w := SWorld.set_nonce created 1 (SWorld.mark_current_transaction_created created failure_world) in
      let w := SWorld.transfer creator created value w in
      let callee := set_world w (on_calls (SExpect.set_expected_creates []) callee) in
      let+ outcomes := external callee initcode in
      match outcomes with
      | [] => xret (AssumeRejected, st, [])
      | _ =>
          let+ joined := join_create st failure_world created created_word pending kind outcomes [] in
          xret (match joined with
                | inr parent => (Failure, parent, [])
                | inl parents => resume_parent_paths st parents
                end)
      end).

Definition create_op (st : PathState) (kind : CreateKind) : ExecM StepResult :=
  if is_static (frame st) then xret (ExceptionalHalt, clear_return st, [])
  else
    let+ offset := peek_value st 1 in
    let+ size := peek_value st 2 in
    guarded (guard_memory_range executor st offset size) (fun st =>
      let+ (value, st) := pop_value st in
      let+ (offset, st) := pop_value st in
      let+ (size, st) := pop_value st in
      sized_range st size "symbolic CREATE initcode size" (fun size =>
        match size with
        | None => xret (Revert, clear_return st, [])
        | Some size =>
            match kind with
            | KCreate => create_with st kind value offset size None
            | KCreate2 => let+ (salt, st) := pop_value st in create_with st kind value offset size (Some salt)
            end
        end)).

(** The opcodes of calls and creates (opcodes.rs). *)
Definition call_or_create_op (st : PathState) (op : Z) : ExecM StepResult :=
  match op with
  | 240 => create_op st KCreate
  | 241 => call_op st KCall
  | 242 => call_op st KCallCode
  | 244 => call_op st KDelegateCall
  | 245 => create_op st KCreate2
  | 250 => call_op st KStaticCall
  | _ => xerr (UnsupportedOpcode op)
  end.

Definition call_handlers : CallHandlers := {| call_or_create := call_or_create_op; execute_external_call := external |}.
End Ops.

(** ** The paths of a nested call (mod.rs) *)
Inductive CallPathOpcode := PathExecute (op : Z) | PathHalt | PathDiscard.

Section Batch.
Context `{SA : SignedArith, HF : HashFns, P : Parts, SE : SolverEnv} {HD : Handlers}.
Variable config : SymbolicConfig.
Variable executor : ExecutorEnv.
Variable code : @SymCode JumpTable.
Import SExec.

(** No fuel is left: the exploration of a call goes on, or calls nest deeper. *)
Definition out_of_fuel {A} : ExecM A := fun _ => Panic.

Definition successful_call_status (kind : CallPathKind) (st : PathState) : CallStatus :=
  match kind with
  | PathExternal => CallSuccess
  | PathSequence => if expectations_satisfied st then CallSuccess else CallFailure
  end.

(** A path that has ended counts against the limit. *)
Definition finish_path (status : CallStatus) (st : PathState) (outcomes : list CallOutcome) : ExecM (list CallOutcome) :=
  let+ n := get completed_paths in
  if path_width config <=? n then xerr (Unsupported "symbolic path limit exceeded")
  else let+ _ := set_completed (n + 1) in xret (outcomes ++ [mkCallOutcome _ status st]).

(** The opcode at the program counter.  Where the code has a symbolic size, the
    path that runs past its end halts. *)
Definition fetch_call_opcode (kind : CallPathKind) (st : PathState) (outcomes : list CallOutcome)
    : ExecM (CallPathOpcode * PathState * list CallOutcome) :=
  match kind with
  | PathSequence =>
      let+ r := lift (opcode code (pc (frame st))) in
      let+ op := of_result r in
      xret (match op with Some op => PathExecute op | None => PathHalt end, st, outcomes)
  | PathExternal =>
      let+ r := lift (guarded_opcode code (pc (frame st))) in
      let+ op := of_result r in
      match op with
      | OpEnd => xret (PathHalt, st, outcomes)
      | OpConcrete op => xret (PathExecute op, st, outcomes)
      | OpSymbolicSize condition op =>
          let in_bounds := constraints st ++ [condition] in
          let+ in_bounds_sat := is_sat_with_state st in_bounds in
          let out_of_bounds := constraints st ++ [SBool.not_bool condition] in
          let+ out_of_bounds_sat := is_sat_with_state st out_of_bounds in
          let+ outcomes :=
            (if (out_of_bounds_sat : bool)
             then let halted := set_constraints out_of_bounds st in finish_path (successful_call_status kind halted) halted outcomes
             else xret outcomes) in
          xret (if (in_bounds_sat : bool) then (PathExecute op, set_constraints in_bounds st, outcomes) else (PathDiscard, st, outcomes))
      end
  end.

Fixpoint run_call_path (fuel : nat) (kind : CallPathKind) (st : PathState) (worklist : list PathState) (outcomes : list CallOutcome)
    : ExecM (list PathState * list CallOutcome) :=
  match fuel with
  | O => out_of_fuel
  | S fuel =>
      let+ _ := check_timeout config in
      if execution_depth config <=? depth st then xerr (Unsupported "symbolic depth limit exceeded")
      else
        let ended status st worklist outcomes := let+ outcomes := finish_path status st outcomes in xret (worklist, outcomes) in
        let+ (op, st, outcomes) := fetch_call_opcode kind (set_depth (depth st + 1) st) outcomes in
        match op with
        | PathHalt => ended (successful_call_status kind st) st worklist outcomes
        | PathDiscard => xret (worklist, outcomes)
        | PathExecute op =>
            let+ (outcome, st, pushed) := SStep.step config executor code st op in
            let worklist := worklist ++ pushed in
            match outcome with
            | Continue => run_call_path fuel kind st worklist outcomes
            | Halt => ended (successful_call_status kind st) st worklist outcomes
            | Revert => ended CallRevert st worklist outcomes
            | ExceptionalHalt => ended CallExceptionalHalt st worklist outcomes
            | Failure => ended CallFailure st worklist outcomes
            | AssumeRejected | Forked => xret (worklist, outcomes)
            end
        end
  end.

(** A path takes at most the depth limit of rounds. *)
Definition path_rounds : nat := S (Z.to_nat (execution_depth config)).

Definition is_yield (m : DeferredPathMode) : bool := match m with Yield => true | _ => false end.
Definition is_external (kind : CallPathKind) : bool := match kind with PathExternal => true | PathSequence => false end.

(** The outcomes, with what is left of both worklists.  [before] is the number
    of outcomes before the last deferred path. *)
Fixpoint execute_call_path_batch (fuel : nat) (kind : CallPathKind) (worklist deferred : list PathState)
    (outcomes : list CallOutcome) (before : option Z) : ExecM (list CallOutcome * list PathState * list PathState) :=
  match fuel with
  | O => out_of_fuel
  | S fuel =>
      let+ nested := get nested_deferred_mode in
      if negb (is_external kind) && (0 <? zlen outcomes) then xret (outcomes, worklist, deferred)
      else if is_external kind && is_yield nested && match before with Some count => count <? zlen outcomes | None => false end then
        let+ _ := (if (0 <? zlen worklist) || (0 <? zlen deferred) then defer_hard_arithmetic else xret tt) in
        xret (outcomes, worklist, deferred)
      else
        let mode := if is_external kind then nested else Drain in
        let+ (found, worklist, deferred) := SRun.pop_next_feasible_path config worklist deferred mode in
        match found with
        | None => xret (outcomes, worklist, deferred)
        | Some (st, from_deferred) =>
            let before := if from_deferred && is_external kind && is_yield mode then Some (zlen outcomes) else before in
            let+ n := get completed_paths in
            if path_width config <=? n then xerr (Unsupported "symbolic path limit exceeded")
            else if pending_storage_hook_revert st then
              let+ _ := set_completed (n + 1) in
              execute_call_path_batch fuel kind worklist deferred
                (outcomes ++ [mkCallOutcome _ CallRevert (set_pending_revert false st)]) before
            else
              let+ (worklist, outcomes) := run_call_path path_rounds kind (set_pending_revert false st) worklist outcomes in
              execute_call_path_batch fuel kind worklist deferred outcomes before
        end
  end.
End Batch.

(** ** The knot *)
Section Knot.
Context `{SA : SignedArith, HF : HashFns, P : Parts, SE : SolverEnv} {BE : ChainBackend} {PC : Precompiles} {CP : CallParts}.
Variable config : SymbolicConfig.
Variable executor : ExecutorEnv.

(** The execution of a callee; fuel bounds the depth of calls and the paths of
    each call. *)
Fixpoint external_call (fuel : nat) (st : PathState) (code : @SymCode JumpTable) : ExecM (list CallOutcome) :=
  match fuel with
  | O => out_of_fuel
  | S fuel =>
      let handlers := SAccount.account_handlers (CH := call_handlers config executor (external_call fuel)) config executor in
      let+ (outcomes, _, _) := execute_call_path_batch (HD := handlers) config executor code fuel PathExternal [st] [] [] None in
      xret outcomes
  end.

(** The step function with its calls. *)
Definition full_handlers (fuel : nat) : Handlers :=
  SAccount.account_handlers (CH := call_handlers config executor (external_call fuel)) config executor.
Definition full_step (fuel : nat) (code : @SymCode JumpTable) (st : PathState) (op : Z) : ExecM SExec.StepResult :=
  SStep.step (HD := full_handlers fuel) config executor code st op.
End Knot.
End SCall.
