(* ===== verification/SymVerdict.v ===== *)
(** * SymVerdict: a run that reports Safe has covered every concrete run

    A concrete run that a root path represents is accounted for at every point
    of the exploration: it has been resolved (it halts or reverts), or a queued
    path represents one of its frames, or the result is marked as incomplete.
    When no path is left and nothing is marked, it has been resolved. *)

From Stdlib Require Import ZArith Lia Bool.
From stdpp Require Import base list option gmap sets strings pretty.
From S2P Require Import Prelude SymWord SymExpr SymSimpl SymSound SymCmp SymBytes SymSeq SymStorage SymMem SymMemSpec SymPath SymWorld SymWorldSpec SymLog SymExpect SymExec SymEvm SymSim SymStep SymExplore.
Local Open Scope Z_scope.
Local Open Scope exec_scope.

(** ** Invariants of the executor *)

(** What the executor's own updates keep: answers of the solver, marks of an
    incomplete result, counters, deadlines, and tables of hashes that are as
    truthful as the one before. *)
Class ExecInv `{HF : HashFns, SE : SolverEnv} := {
  exec_inv : Exec -> Prop;
  inv_env env ex : exec_inv ex -> exec_inv (with_env env ex);
  inv_deferred d ex r ex' : set_deferred (Some d) ex = Ret (r, ex') -> exec_inv ex -> exec_inv ex';
  inv_completed n ex r ex' : set_completed n ex = Ret (r, ex') -> exec_inv ex -> exec_inv ex';
  inv_deadline d ex r ex' : set_deadline d ex = Ret (r, ex') -> exec_inv ex -> exec_inv ex';
  inv_cx pre ex : (table_ok (cx_preimages ex) -> table_ok pre) -> exec_inv ex -> exec_inv (with_cx pre ex)
}.

(** Unfolds an update of the executor. *)
Ltac exec_update := intros; unfold set_deferred, set_completed, set_deadline, with_env, with_cx in *; simplify_eq/=; naive_solver.

(** A result once marked as incomplete stays marked. *)
Definition marked `{HF : HashFns, SE : SolverEnv} : ExecInv.
Proof. refine {| exec_inv := fun ex => deferred_incomplete ex <> None |}; exec_update. Defined.

(** The table holds hashes only. *)
Definition truthful `{HF : HashFns, SE : SolverEnv} : ExecInv.
Proof. refine {| exec_inv := fun ex => table_ok (cx_preimages ex) |}; exec_update. Defined.

Create HintDb keeps.

Section Keeps.
Context `{HF : HashFns, SE : SolverEnv} {EI : ExecInv}.

Definition keeps {A} (c : ExecM A) : Prop :=
  forall ex r ex', c ex = Ret (r, ex') -> exec_inv ex -> exec_inv ex'.

Lemma keeps_ret {A} (a : A) : keeps (xret a).
Proof. intros ex r ex'. unfold xret. naive_solver. Qed.
Lemma keeps_err {A} e : keeps (xerr e : ExecM A).
Proof. intros ex r ex'. unfold xerr. naive_solver. Qed.
Lemma keeps_lift {A} (o : Outcome A) : keeps (lift o).
Proof. intros ex r ex'. unfold lift. destruct o; naive_solver. Qed.
Lemma keeps_of_result {A} (o : A + SymbolicError) : keeps (of_result o).
Proof. intros ex r ex'. unfold of_result. naive_solver. Qed.
Lemma keeps_on_env {A} (f : Env -> (A + SymbolicError) * Env) : keeps (on_env f).
Proof. intros ex r ex'. unfold on_env. destruct (f (ex_env ex)). intros [= <- <-]. apply inv_env. Qed.
Lemma keeps_preimages {A} (f : Preimages -> Outcome (A * Preimages)) :
  (forall pre a pre', f pre = Ret (a, pre') -> table_ok pre -> table_ok pre') -> keeps (with_preimages f).
Proof.
  intros Hf ex r ex'. unfold with_preimages. destruct (f (cx_preimages ex)) as [[a pre]|] eqn:E; [|done]. intros [= <- <-].
  apply inv_cx. by eapply Hf.
Qed.
Lemma keeps_get {A} (f : Exec -> A) : keeps (get f).
Proof. intros ex r ex'. unfold get. naive_solver. Qed.
Lemma keeps_set_completed n : keeps (set_completed n).
Proof. intros ex r ex'. apply inv_completed. Qed.
Lemma keeps_set_deadline d : keeps (set_deadline d).
Proof. intros ex r ex'. apply inv_deadline. Qed.
Lemma keeps_set_deferred d : keeps (set_deferred (Some d)).
Proof. intros ex r ex'. apply inv_deferred. Qed.
Lemma keeps_bind {A B} (c : ExecM A) (k : A -> ExecM B) : keeps c -> (forall a, keeps (k a)) -> keeps (xbind c k).
Proof.
  intros Hc Hk ex r ex' H Hd. unfold xbind in H. destruct (c ex) as [[[a|e] ex1]|] eqn:E; [| |done].
  - eapply Hk; [exact H|]. by eapply Hc.
  - simplify_eq. by eapply Hc.
Qed.
Lemma keeps_try {A} (c : ExecM A) : keeps c -> keeps (xtry c).
Proof. intros Hc ex r ex' H Hd. unfold xtry in H. destruct (c ex) as [[r1 ex1]|] eqn:E; [|done]. simplify_eq. by eapply Hc. Qed.
End Keeps.

#[export] Hint Resolve keeps_ret keeps_err keeps_lift keeps_of_result keeps_on_env keeps_get keeps_set_completed
  keeps_set_deadline keeps_set_deferred keeps_bind keeps_try : keeps.

(** The handlers of the account opcodes keep the invariant. *)
Class HandlerLaws `{HD : Handlers} {EI : ExecInv} : Prop := {
  account_keeps st op : keeps (account_op st op)
}.

(** Walks through a computation. *)
Ltac keeps_tac :=
  repeat first
    [ progress cbv beta iota zeta
    | solve [eauto 2 with keeps nocore]
    | apply keeps_bind
    | apply keeps_try
    | match goal with |- forall _, keeps _ => intros ? | |- keeps (match ?x with _ => _ end) => destruct x end ].

Section StepKeeps.
Context `{SA : SignedArith, HF : HashFns, P : Parts, SE : SolverEnv, HD : !Handlers} {EI : ExecInv} {HL : HandlerLaws}.
Variable config : SymbolicConfig.
Variable executor : ExecutorEnv.
Variable code : @SymCode JumpTable.
Import SExec SStep.

Lemma keeps_defer_incomplete reason : keeps (defer_incomplete reason). Proof. unfold defer_incomplete. keeps_tac. Qed.
Lemma keeps_defer_unknown : keeps defer_solver_unknown. Proof. unfold defer_solver_unknown. keeps_tac. Qed.
Lemma keeps_defer_hard : keeps defer_hard_arithmetic. Proof. unfold defer_hard_arithmetic. keeps_tac. Qed.
Lemma keeps_timeout : keeps (check_timeout config). Proof. unfold check_timeout. keeps_tac. Qed.
Lemma keeps_is_sat st cs : keeps (is_sat_with_state st cs). Proof. apply keeps_on_env. Qed.
Hint Resolve keeps_defer_incomplete keeps_defer_unknown keeps_is_sat : keeps.

Lemma keeps_condition st c : keeps (constraints_with_condition st c). Proof. unfold constraints_with_condition. keeps_tac. Qed.
Lemma keeps_search fuel st e low high : keeps (bound_search fuel st e low high).
Proof. revert low high. induction fuel as [|fuel IH]; intros; cbn [bound_search]; keeps_tac; apply IH. Qed.
Hint Resolve keeps_condition keeps_search : keeps.
Lemma keeps_bound st e max reason : keeps (solver_upper_bound_usize st e max reason).
Proof. unfold solver_upper_bound_usize. keeps_tac. Qed.
Lemma keeps_guard st v : keeps (apply_memory_access_guard st v). Proof. unfold apply_memory_access_guard. keeps_tac. Qed.
Hint Resolve keeps_bound keeps_guard : keeps.
Lemma keeps_fixed st o n : keeps (guard_fixed_memory_access executor st o n). Proof. unfold guard_fixed_memory_access. keeps_tac. Qed.
Lemma keeps_symbolic st o n : keeps (guard_symbolic_range executor st o n). Proof. unfold guard_symbolic_range. keeps_tac. Qed.
Hint Resolve keeps_fixed keeps_symbolic : keeps.
Lemma keeps_range st o n : keeps (guard_memory_range executor st o n). Proof. unfold guard_memory_range. keeps_tac. Qed.
Lemma keeps_returndata st o n : keeps (guard_returndata_copy_range st o n). Proof. unfold guard_returndata_copy_range. keeps_tac. Qed.
Lemma keeps_guarded g k : keeps g -> (forall st, keeps (k st)) -> keeps (guarded g k).
Proof. intros Hg Hk. unfold guarded. apply keeps_bind; [done|]. intros [[o st] pushed]. destruct o; [apply keeps_ret|apply Hk]. Qed.
Hint Resolve keeps_range keeps_returndata : keeps.

Lemma keeps_sat_or_defer st cs : keeps (branch_is_sat_or_defer st cs).
Proof.
  intros ex r ex' H Hd. unfold branch_is_sat_or_defer in H. destruct (is_sat_with_state st cs ex) as [[[b|e] ex1]|] eqn:E; [| |done].
  - simplify_eq. by eapply keeps_is_sat.
  - assert (Hd1 : exec_inv ex1) by (by eapply keeps_is_sat). destruct e; try (simplify_eq; done).
    refine (keeps_bind defer_solver_unknown (fun _ => xret false) keeps_defer_unknown (fun _ => keeps_ret _) ex1 r ex' H Hd1).
Qed.

Lemma keeps_sized {A} st size top reason (f : Z -> ExecM A) g h :
  (forall n, keeps (f n)) -> keeps g -> (forall n, keeps (h n)) -> keeps (sized_operand st size top reason f g h).
Proof. intros. unfold sized_operand. keeps_tac; done. Qed.
Hint Resolve keeps_sat_or_defer : keeps.

Lemma keeps_push st v : keeps (push_value st v). Proof. unfold push_value. keeps_tac. Qed.
Lemma keeps_pop st : keeps (pop_value st). Proof. unfold pop_value. keeps_tac. Qed.
Hint Resolve keeps_push keeps_pop : keeps.
Lemma keeps_comparison st a b c : keeps (push_comparison_result st a b c).
Proof. unfold push_comparison_result, apply_branch_target_constraint. keeps_tac. Qed.
Hint Resolve keeps_comparison : keeps.

Lemma keeps_keccak bytes len : keeps (with_preimages (fun pre => SWorld.keccak_word_with_len pre bytes len)).
Proof. apply keeps_preimages. intros pre e pre'. apply keccak_keeps_table. Qed.
Lemma keeps_keccak_word bytes : keeps (with_preimages (fun pre => SWorld.keccak_word pre bytes)).
Proof. apply keeps_keccak. Qed.
Hint Resolve keeps_keccak keeps_keccak_word : keeps.

(** No step of the executor breaks the invariant. *)
Lemma keeps_dispatch st op : keeps (dispatch config executor code st op).
Proof.
  unfold dispatch, stack_op, push_op, blobhash_op, peek_value, keccak_op, calldatacopy_op, codecopy_op, returndatacopy_op, mcopy_op,
    mload_op, mstore_op, mstore8_op, jump_op, jumpi_op, branch_invalid_jumpi, exceptional_halt, return_op, return_or_revert,
    store_memory, store_memory_result, revert_here, peek_value.
  destruct (decode op); try (by keeps_tac).
  all: keeps_tac; try (apply keeps_guarded; keeps_tac); try (apply keeps_guarded; keeps_tac).
  all: try (apply keeps_sized; keeps_tac).
  apply account_keeps.
Qed.

Lemma keeps_step st op : keeps (step config executor code st op).
Proof. unfold step, exceptional_halt. keeps_tac. apply keeps_dispatch. Qed.
End StepKeeps.
#[export] Hint Resolve keeps_defer_unknown keeps_defer_hard keeps_timeout keeps_is_sat keeps_step : keeps.

(** ** The runs of the machine *)
Section Runs.
Context `{SA : SignedArith, HF : HashFns}.
Variable env : EvmEnv.
Variable limit : Z.
Abbreviation exec := (evm_exec env limit).
Abbreviation reaches := (evm_reaches env limit).
Abbreviation ends_with := (evm_ends env limit).

Lemma reaches_first s t u : exec s = ENext t -> reaches t u -> reaches s u.
Proof.
  intros Hs. induction 1 as [t|t x u _ IH Hx]; [by eapply reaches_step; [apply reaches_refl|]|].
  eapply reaches_step; [by apply IH|done].
Qed.

Lemma reaches_cases s u : reaches s u -> s = u \/ exists t, exec s = ENext t /\ reaches t u.
Proof.
  induction 1 as [s|s t u _ [->|(v & Hv & Hr)] Hu]; [by left| |]; right.
  - exists u. split; [done|apply reaches_refl].
  - exists v. split; [done|]. by eapply reaches_step.
Qed.

Lemma ends_next s t r : exec s = ENext t -> ends_with t r -> ends_with s r.
Proof. intros Hs (u & Hr & Hu & Hn). exists u. split; [by eapply reaches_first|done]. Qed.

(** A run is decided by what the next instruction does. *)
Lemma ends_same s t r : exec s = exec t -> ends_with s r -> ends_with t r.
Proof.
  intros Hst (u & Hr & Hu & Hn). apply reaches_cases in Hr as [->|(v & Hv & Hr)].
  - exists t. split; [apply reaches_refl|]. by rewrite <- Hst.
  - eapply ends_next; [by rewrite <- Hst|]. by exists u.
Qed.

Lemma ends_now s r : exec s = r -> (forall u, r <> ENext u) -> ends_with s r.
Proof. intros Hs Hn. exists s. split; [apply reaches_refl|done]. Qed.

(** Running the machine. *)
Fixpoint evm_run (fuel : nat) (s : EvmState) : EvmResult :=
  match fuel with
  | O => ENext s
  | S fuel => match exec s with ENext t => evm_run fuel t | r => r end
  end.

Lemma evm_run_ends fuel s r : evm_run fuel s = r -> (forall u, r <> ENext u) -> ends_with s r.
Proof.
  revert s. induction fuel as [|fuel IH]; intros s H Hn; simpl in H; [by destruct (Hn s)|].
  destruct (exec s) as [t| | | |] eqn:E; [eapply ends_next; [exact E|by apply IH]|..]; by apply ends_now; congruence.
Qed.

(** The machine is deterministic: a run has one end. *)
Lemma ends_unique s r r' : ends_with s r -> ends_with s r' -> r = r'.
Proof.
  intros (u & Hr & Hu & Hn) H'. revert H'. revert r' .
  assert (Hgen : forall r', ends_with s r' -> ends_with u r'); [|intros r' H'; apply Hgen in H' as (v & Hv & Hv' & _)].
  - clear -Hr. induction Hr as [s|s t u _ IH Hx]; [done|]. intros r' H'. apply IH in H' as (v & Hv & Hv' & Hn').
    apply reaches_cases in Hv as [->|(w & Hw & Hv)]; [congruence|]. assert (w = u) as -> by congruence. by exists v.
  - apply reaches_cases in Hv as [->|(w & Hw & _)]; [congruence|]. by destruct (Hn w); congruence.
Qed.
End Runs.

(** ** Coverage *)
Section Coverage.
Context `{SA : SignedArith, HF : HashFns, P : Parts, SE : SolverEnv, HD : !Handlers, RP : !RunParts}
  {SL : SignedArithLaws} {SO : SolverLaws} {HL : HandlerLaws (EI := marked)}.
#[local] Existing Instance marked.
Variable model : SymbolicModel.
Variable config : SymbolicConfig.
Variable executor : ExecutorEnv.
Variable code : @SymCode JumpTable.
Variable env : EvmEnv.
Hypothesis Henv : env_rep model executor code env.
Hypothesis calldata_limit : 0 <= max_calldata_bytes config /\ max_calldata_bytes config + 31 <= usize_max.
Hypothesis no_loop_bound : loop_bound config = None.
Abbreviation rep := (rep model env).
Abbreviation exec := (evm_exec env STACK_LIMIT).
Abbreviation ends_with := (evm_ends env STACK_LIMIT).
Import SExec SStep SRun.

(** An invariant of frames that gives the side conditions of every opcode. *)
Variable Inv : CallFrame -> Prop.
Hypothesis Inv_step : forall st op ex out st' pushed ex',
  Inv (frame st) -> opcode code (pc (frame st)) = Ret (inl (Some op)) ->
  step config executor code st op ex = Ret (inl (out, st', pushed), ex') ->
  (out = Continue -> Inv (frame st')) /\ Forall (fun s => Inv (frame s)) pushed.
Hypothesis Inv_ok : forall st c op,
  Inv (frame st) -> rep st c -> opcode code (pc (frame st)) = Ret (inl (Some op)) ->
  decode op <> OpAccount /\ side_ok model config code st (decode op).

Definition resolved (c0 : EvmState) : Prop := exists d, ends_with c0 (EHalt d) \/ ends_with c0 (ERevert d).
Definition leads (c0 c : EvmState) : Prop := forall r, ends_with c r -> ends_with c0 r.
Definition alive (c0 : EvmState) (l : list PathState) : Prop :=
  exists st c, st ∈ l /\ rep st c /\ Inv (frame st) /\ leads c0 c.
Definition accounted (c0 : EvmState) (ex : Exec) (l : list PathState) : Prop :=
  deferred_incomplete ex <> None \/ resolved c0 \/ alive c0 l.

(** Keeping the mark and moving the queued paths. *)
Lemma accounted_move c0 ex ex' l l' :
  accounted c0 ex l -> (deferred_incomplete ex <> None -> deferred_incomplete ex' <> None) ->
  (forall st c, st ∈ l -> rep st c -> Inv (frame st) -> leads c0 c -> accounted c0 ex' l') -> accounted c0 ex' l'.
Proof.
  intros [Hd|[Hr|(st & c & Hin & Hrep & HI & Hl)]] Hk Hm; [left; auto|right; by left|by eapply Hm].
Qed.

Lemma alive_in c0 ex l st c : st ∈ l -> rep st c -> Inv (frame st) -> leads c0 c -> accounted c0 ex l.
Proof. intros. right; right. by exists st, c. Qed.

(** The next instruction is the byte of the code. *)
Lemma opcode_fetch pc r :
  opcode code pc = Ret (inl r) -> 0 <= pc ->
  match r with
  | Some op => op = data_at (env_code env) pc /\ pc < data_len (env_code env)
  | None => data_len (env_code env) <= pc
  end.
Proof.
  intros H Hpc. destruct Henv as (Hok & Hat & Hlen & Hmax & _). unfold opcode in H. rewrite Hlen in *.
  destruct (Z.leb_spec (data_len (env_code env)) pc); [by simplify_eq|].
  destruct (as_const (SBytes.byte (code_bytes code) pc)) as [v|] eqn:Ev; [|done].
  apply obind_Ret in H as (n & [<- Hn]%to_u8_Ret & H). simplify_eq. split; [|done].
  assert (Hb := byte_sound model _ pc Hok ltac:(unfold usize_ok; lia)).
  rewrite <- (as_const_den _ _ _ _ Ev Hb), <- Hat by done. apply uval_byte. by apply seq_at_range.
Qed.

(** One iteration on a path covers the next instruction of its frame. *)
Lemma fetch_sim st c ex out st' pushed ex' :
  fetch config executor code st ex = Ret (inl (out, st', pushed), ex') -> rep st c -> Inv (frame st) ->
  (out = Continue /\ Inv (frame st') /\ exists c', exec c = ENext c' /\ rep st' c') \/
  (exists s c', s ∈ pushed /\ Inv (frame s) /\ exec c = ENext c' /\ rep s c') \/
  (exists s c1, s ∈ pushed /\ Inv (frame s) /\ rep s c1 /\ exec c1 = exec c) \/
  ends model out st' (exec c).
Proof.
  intros H Hrep HI. unfold fetch in H. xstep H. xstep H0. xstep H. xstep H1. rewrite H1 in H0.
  pose proof Hrep as (_ & _ & Hpc0 & Hpc & _). pose proof (opcode_fetch _ _ H0 ltac:(lia)) as Hf. destruct r0 as [op|].
  - destruct Hf as [-> Hlt]. rewrite Hpc in *.
    destruct (Inv_ok st c _ HI Hrep ltac:(by rewrite Hpc)) as [Hacc Hside].
    destruct (Inv_step _ _ _ _ _ _ _ HI ltac:(by rewrite Hpc) H) as [HIc HIp]. rewrite Forall_forall in HIp.
    assert (Hexec : forall c1, e_pc c1 = e_pc c -> exec c1 = evm_step env STACK_LIMIT c1 (data_at (env_code env) (e_pc c))).
    { intros c1 E. unfold evm_exec. rewrite E. destruct (Z.leb_spec (data_len (env_code env)) (e_pc c)); [lia|done]. }
    pose proof (step_sim model config executor code env Henv calldata_limit no_loop_bound c _ _ _ _ _ H Hrep Hlt Hacc Hside) as Hsim.
    rewrite (Hexec c eq_refl). destruct Hsim as [(-> & c' & E & Hr)|[(s & c' & Hin & E & Hr)|[(s & c1 & Hin & Hr & E1 & E2)|He]]].
    + left. eauto 8.
    + right; left. eauto 10.
    + right; right; left. exists s, c1. split_and!; eauto. by rewrite Hexec.
    + by right; right; right.
  - xstep H. simplify_eq. right; right; right. unfold evm_exec. rewrite Hpc in Hf.
    destruct (Z.leb_spec (data_len (env_code env)) (e_pc c)); [by left|lia].
Qed.

(** ** Scheduling *)
Lemma pop_next_path_Some paths st rest :
  pop_next_path config paths = Some (st, rest) ->
  length paths = S (length rest) /\ forall s, s ∈ paths <-> s = st \/ s ∈ rest.
Proof.
  unfold pop_next_path. destruct (exploration_order config).
  - destruct paths; [done|]. intros. simplify_eq. split; [done|]. set_solver.
  - destruct (rev paths) as [|x l] eqn:E; [done|]. intros. simplify_eq.
    assert (paths = rev l ++ [st]) as -> by (by rewrite <- (rev_involutive paths), E). rewrite length_app. simpl. split; [lia|].
    set_solver.
Qed.

Lemma pop_next_path_None paths : pop_next_path config paths = None -> paths = [].
Proof.
  unfold pop_next_path. destruct (exploration_order config); [by destruct paths|].
  destruct (rev paths) eqn:E; [|done]. intros _. by rewrite <- (rev_involutive paths), E.
Qed.

Lemma accounted_elem c0 ex l l' : accounted c0 ex l -> (forall s, s ∈ l -> s ∈ l') -> accounted c0 ex l'.
Proof. intros H Hin. eapply accounted_move; [exact H|done|]. intros st c Hst. eapply alive_in. auto. Qed.

Lemma mark_kept {A} (c : ExecM A) ex r ex' :
  keeps c -> c ex = Ret (r, ex') -> deferred_incomplete ex <> None -> deferred_incomplete ex' <> None.
Proof. intros Hk H. exact (Hk _ _ _ H). Qed.

(** A computation that keeps the mark keeps the account. *)
Lemma accounted_keeps {A} c0 (c : ExecM A) ex r ex' l :
  keeps c -> c ex = Ret (r, ex') -> accounted c0 ex l -> accounted c0 ex' l.
Proof. intros Hk H Ha. eapply accounted_move; [exact Ha|by eapply mark_kept|]. intros st0 c1 ????. by eapply alive_in. Qed.

Lemma defer_marks (c : ExecM unit) ex r ex' :
  c = defer_solver_unknown \/ c = defer_hard_arithmetic -> c ex = Ret (r, ex') -> deferred_incomplete ex' <> None.
Proof.
  unfold defer_solver_unknown, defer_hard_arithmetic, xbind, get, set_deferred, xret, may_replace.
  intros [-> | ->]; destruct (deferred_incomplete ex) as [[| |]|] eqn:E; simpl; intros [= <- <-]; simpl; congruence.
Qed.

(** A path that the solver refutes represents no frame. *)
Lemma infeasible_rep st c ex r ex' :
  on_env (branch_feasibility (constraints st) (SWorld.replay_storage_symbols (world st))) ex = Ret (r, ex') ->
  r = inl FeasibleUnsat -> rep st c -> False.
Proof.
  unfold on_env. destruct (branch_feasibility _ _ _) as [a e] eqn:E. intros [= <- <-] -> Hrep.
  exact (infeasible_sound _ _ _ _ model E (proj1 Hrep)).
Qed.

Lemma xtry_inv {A} (c : ExecM A) ex r ex' : xtry c ex = Ret (inl r, ex') -> c ex = Ret (r, ex').
Proof. unfold xtry. destruct (c ex) as [[]|]; naive_solver. Qed.

Lemma pop_feasible_spec c0 fuel paths deferred ex found paths' deferred' ex' :
  pop_feasible config fuel paths deferred Drain ex = Ret (inl (found, paths', deferred'), ex') -> (length paths <= fuel)%nat ->
  accounted c0 ex (paths ++ deferred) ->
  match found with
  | Some st => accounted c0 ex' (st :: paths' ++ deferred')
  | None => paths' = [] /\ accounted c0 ex' deferred'
  end.
Proof.
  revert paths deferred ex. induction fuel as [|fuel IH]; intros paths deferred ex H Hf Ha; cbn [pop_feasible] in H.
  { destruct paths; [|simpl in Hf; lia]. xstep H. by simplify_eq. }
  destruct (pop_next_path config paths) as [[st rest]|] eqn:E.
  2:{ apply pop_next_path_None in E as ->. xstep H. by simplify_eq. }
  apply pop_next_path_Some in E as [Hlen Hin]. set (st1 := set_feasibility_check false st) in *.
  assert (Hmove : forall l, (forall s, s ∈ rest ++ deferred -> s ∈ l) -> st1 ∈ l -> accounted c0 ex l).
  { intros l Hl Hst1. eapply accounted_move; [exact Ha|done|]. intros s c [Hs|Hs]%elem_of_app Hrep HI Hlead.
    - apply Hin in Hs as [->|Hs]; [by eapply (alive_in c0 ex l st1)|eapply alive_in; [apply Hl|..]; try done; set_solver].
    - eapply alive_in; [apply Hl|..]; try done. set_solver. }
  destruct (needs_feasibility_check st); [|xstep H; simplify_eq; apply Hmove; set_solver].
  xstep H. apply xtry_inv in H0.
  assert (Hrest : deferred_incomplete ex0 <> None \/ r = inl FeasibleUnsat -> accounted c0 ex0 (rest ++ deferred)).
  { intros [Hd|Hu]; [by left|]. eapply accounted_move; [exact Ha|eapply mark_kept; [apply keeps_on_env|exact H0]|]. intros s c [Hs|Hs]%elem_of_app Hrep HI Hlead.
    - apply Hin in Hs as [->|Hs]; [|eapply alive_in; try done; set_solver].
      exfalso. exact (infeasible_rep st1 c _ _ _ H0 Hu Hrep).
    - eapply alive_in; try done. set_solver. }
  destruct r as [[| |]|e].
  - xstep H. simplify_eq. eapply accounted_keeps; [apply keeps_on_env|exact H0|]. apply Hmove; set_solver.
  - eapply IH; [exact H|lia|]. apply Hrest. by right.
  - eapply IH; [exact H|lia|]. eapply accounted_keeps; [apply keeps_on_env|exact H0|]. apply Hmove; set_solver.
  - destruct e; try (by xstep H). xstep H. eapply IH; [exact H|lia|]. left. eapply defer_marks; [by left|exact H1].
Qed.

Lemma pop_deferred_spec c0 fuel deferred ex found deferred' ex' :
  pop_deferred config fuel deferred ex = Ret (inl (found, deferred'), ex') -> (length deferred <= fuel)%nat ->
  accounted c0 ex deferred ->
  match found with Some st => accounted c0 ex' (st :: deferred') | None => accounted c0 ex' [] end.
Proof.
  revert deferred ex. induction fuel as [|fuel IH]; intros deferred ex H Hf Ha; cbn [pop_deferred] in H.
  { destruct deferred; [|simpl in Hf; lia]. xstep H. by simplify_eq. }
  destruct (pop_next_path config deferred) as [[st rest]|] eqn:E.
  2:{ apply pop_next_path_None in E as ->. xstep H. by simplify_eq. }
  apply pop_next_path_Some in E as [Hlen Hin]. xstep H. xstep H. xstep H. apply xtry_inv in H2.
  assert (Ha2 : accounted c0 ex2 (st :: rest)).
  { apply (accounted_elem _ _ deferred); [|set_solver]. eapply accounted_keeps; [apply keeps_is_sat|exact H2|].
    eapply accounted_keeps; [apply keeps_timeout|exact H1|]. eapply accounted_keeps; [|exact H0|exact Ha]. unfold start_deadline. keeps_tac. }
  destruct r1 as [[]|e].
  - xstep H. by simplify_eq.
  - eapply IH; [exact H|lia|]. eapply accounted_move; [exact Ha2|done|]. intros s c [->|Hs]%elem_of_cons Hrep HI Hlead; [|by eapply alive_in].
    assert (false = true); [|done]. by eapply (is_sat_complete model); [exact H2|apply Hrep].
  - destruct e; try (by xstep H). xstep H. eapply IH; [exact H|lia|]. left. eapply defer_marks; [by left|exact H3].
Qed.

Lemma pop_path_spec c0 paths deferred ex found paths' deferred' ex' :
  pop_next_feasible_path config paths deferred Drain ex = Ret (inl (found, paths', deferred'), ex') ->
  accounted c0 ex (paths ++ deferred) ->
  match found with Some (st, _) => accounted c0 ex' (st :: paths' ++ deferred') | None => accounted c0 ex' [] end.
Proof.
  intros H Ha. unfold pop_next_feasible_path in H. xstep H. destruct r as [[f p] d].
  pose proof (pop_feasible_spec _ _ _ _ _ _ _ _ _ H0 (Nat.le_refl _) Ha) as Hs. destruct f as [st|]; [xstep H; by simplify_eq|].
  destruct Hs as [-> Hs]. xstep H. destruct r as [f d']. pose proof (pop_deferred_spec _ _ _ _ _ _ _ H1 (Nat.le_refl _) Hs) as Hs'.
  xstep H. simplify_eq. by destruct f.
Qed.

(** ** Paths *)
Lemma keeps_fetch st : keeps (fetch config executor code st).
Proof. unfold fetch. keeps_tac. Qed.
Lemma keeps_materialize st : keeps (materialize_root_input st). Proof. unfold materialize_root_input. keeps_tac. Qed.
Hint Resolve keeps_materialize : keeps.
Lemma keeps_candidate t st : keeps (collect_branch_candidate t st). Proof. unfold collect_branch_candidate. keeps_tac. Qed.
Hint Resolve keeps_candidate : keeps.

Definition not_safe (e : PathEnd) : Prop := match e with EndRun (Safe _ _) => False | _ => True end.

(** What a path leaves when it stops: the worklist, with the mark kept. *)
Definition leaves (worklist : list PathState) (c : ExecM (option PathEnd)) : Prop :=
  keeps c /\ forall ex e ex', c ex = Ret (inl (Some e), ex') ->
    match e with EndRun r => not_safe (EndRun r) | EndPath w _ => w = worklist end.

Lemma leaves_completed w t : leaves w (path_completed w t).
Proof.
  split; [unfold path_completed; keeps_tac|]. intros ex e ex' H. unfold path_completed in H. xstep H. xstep H. xstep H. by simplify_eq.
Qed.

Lemma leaves_revert st w t : leaves w (revert_path st w t).
Proof.
  split; [unfold revert_path, path_completed; keeps_tac|]. intros ex e ex' H. unfold revert_path in H. xstep H. destruct r as [x t'].
  by eapply leaves_completed.
Qed.

Lemma leaves_halt b st w t : leaves w (halt_path b st w t).
Proof.
  split; [unfold halt_path, path_completed; keeps_tac|]. intros ex e ex' H. unfold halt_path in H. xstep H. destruct r as [x t'].
  xstep H. by eapply leaves_completed.
Qed.

Lemma leaves_fail st w t : leaves w (fail_path st w t).
Proof.
  split; [unfold fail_path, path_completed, stats_with_paths; keeps_tac|]. intros ex e ex' H. unfold fail_path in H.
  destruct (negb (satisfies_branch_target st)); [by eapply leaves_completed|].
  do 3 xstep H. xstep H. by simplify_eq.
Qed.

Lemma leaves_accounted c0 w c ex e ex' l :
  leaves w c -> c ex = Ret (inl (Some e), ex') -> accounted c0 ex (w ++ l) ->
  match e with EndRun r => not_safe (EndRun r) | EndPath w' _ => accounted c0 ex' (w' ++ l) end.
Proof.
  intros [Hk Hw] H Ha. specialize (Hw _ _ _ H). destruct e; [done|]. subst. by eapply accounted_keeps.
Qed.

(** A path that fails ends the run, unless it looks for a branch. *)
Lemma fail_ends_run st w t ex e ex' :
  fail_path st w t ex = Ret (inl (Some e), ex') -> branch_target st = None -> exists r, e = EndRun r /\ not_safe e.
Proof.
  intros H Hb. unfold fail_path, satisfies_branch_target in H. rewrite Hb in H. simpl in H. do 3 xstep H. xstep H. simplify_eq. by eexists.
Qed.

(** What a step of a covered path leaves to do. *)
Definition path_next (c0 : EvmState) (ex : Exec) (out : StepOutcome) (st : PathState) (w l : list PathState) : Prop :=
  accounted c0 ex (w ++ l) \/
  (out = Continue /\ accounted c0 ex (st :: w ++ l)) \/
  ((out = ExceptionalHalt \/ out = Failure) /\ branch_target st = None).

Lemma fetch_accounted c0 st w l ex out st' pushed ex' :
  fetch config executor code st ex = Ret (inl (out, st', pushed), ex') -> accounted c0 ex (st :: w ++ l) ->
  path_next c0 ex' out st' (w ++ pushed) l.
Proof.
  intros H Ha. pose proof (mark_kept _ _ _ _ (keeps_fetch st) H) as Hk. destruct Ha as [Hd|[Hr|(s & c & Hin & Hrep & HI & Hlead)]].
  - left. left. auto.
  - left. by right; left.
  - apply elem_of_cons in Hin as [->|Hin].
    2:{ left. eapply alive_in; [|done..]. set_solver. }
    destruct (fetch_sim _ _ _ _ _ _ _ H Hrep HI) as [(-> & HI' & c' & E & Hr)|[(s & c' & Hs & HI' & E & Hr)|[(s & c1 & Hs & HI' & Hr & E)|He]]].
    + right; left. split; [done|]. eapply alive_in; [by left|done..|]. intros r Hend. apply Hlead. by eapply ends_next.
    + left. eapply alive_in; [|done..|]; [set_solver|]. intros r Hend. apply Hlead. by eapply ends_next.
    + left. eapply alive_in; [|done..|]; [set_solver|]. intros r Hend. apply Hlead. by eapply ends_same.
    + unfold ends in He. destruct out, (exec c) eqn:Ex; try done.
      * left. right; left. exists output. left. apply Hlead, ends_now; done.
      * left. right; left. exists output. right. apply Hlead, ends_now; done.
      * right; right. auto.
      * right; right. destruct He. auto.
Qed.

Lemma keeps_incomplete kind reason : keeps (incomplete kind reason).
Proof. unfold incomplete, stats_with_paths. keeps_tac. Qed.
Hint Resolve keeps_incomplete : keeps.

Lemma incomplete_not_safe kind reason ex r ex' : incomplete kind reason ex = Ret (inl r, ex') -> not_safe (EndRun r).
Proof. intros H. unfold incomplete in H. do 2 xstep H. xstep H. by simplify_eq. Qed.

Lemma run_path_spec c0 fuel b st w t l ex e ex' :
  run_path config executor code fuel b st w t ex = Ret (inl (Some e), ex') -> accounted c0 ex (st :: w ++ l) ->
  match e with EndRun r => not_safe (EndRun r) | EndPath w' _ => accounted c0 ex' (w' ++ l) end.
Proof.
  revert st w ex. induction fuel as [|fuel IH]; intros st w ex H Ha; cbn [run_path] in H; [xstep H; by simplify_eq|].
  xstep H. destruct (execution_depth config <=? depth st).
  { xstep H. xstep H. simplify_eq. by eapply incomplete_not_safe. }
  xstep H. destruct r0 as [[out st'] pushed].
  assert (Ha0 : accounted c0 ex0 (set_depth (depth st + 1) st :: w ++ l)).
  { eapply accounted_move; [exact Ha|eapply mark_kept; [apply keeps_timeout|exact H0]|]. intros s c [->|Hs]%elem_of_cons Hrep HI Hl.
    - eapply (alive_in c0 ex0 _ (set_depth (depth st + 1) st)); [by left|exact Hrep|exact HI|exact Hl].
    - eapply alive_in; [by right|done..]. }
  destruct (fetch_accounted _ _ _ _ _ _ _ _ _ H1 Ha0) as [Hacc|[[-> Hacc]|[Hout Hbt]]].
  - destruct out.
    + eapply IH; [exact H|]. eapply accounted_elem; [exact Hacc|set_solver].
    + xstep H. by simplify_eq.
    + destruct (expectations_satisfied st'); (eapply leaves_accounted; [|exact H|exact Hacc]); [apply leaves_halt|apply leaves_fail].
    + eapply leaves_accounted; [apply leaves_revert|exact H|exact Hacc].
    + eapply leaves_accounted; [apply leaves_fail|exact H|exact Hacc].
    + eapply leaves_accounted; [apply leaves_fail|exact H|exact Hacc].
    + xstep H. by simplify_eq.
  - by eapply IH.
  - assert (Hfail : fail_path st' (w ++ pushed) t ex1 = Ret (inl (Some e), ex')) by (by destruct Hout as [-> | ->]).
    destruct (fail_ends_run _ _ _ _ _ _ Hfail Hbt) as (res & -> & Hr). exact Hr.
Qed.

(** Safe is reported only when nothing is queued and nothing is marked. *)
Lemma verdict_spec t ex stats i ex' :
  verdict t ex = Ret (inl (Safe stats i), ex') -> deferred_incomplete ex = None /\ 0 <> normal_paths t.
Proof.
  intros H. unfold verdict in H. destruct ((normal_paths t =? 0) && (0 <? reverted_paths t)).
  { by apply incomplete_not_safe in H. }
  xstep H. unfold get in H0. simplify_eq. destruct (deferred_incomplete ex0) as [d|] eqn:Ed.
  { destruct (deferred_reason d). by apply incomplete_not_safe in H. }
  destruct (Z.eqb_spec (normal_paths t) 0); [by apply incomplete_not_safe in H|]. done.
Qed.

(** A pending revert is taken off the path; a covered path has none. *)
Lemma pending_cleared c0 ex st l : accounted c0 ex (st :: l) -> accounted c0 ex (set_pending_revert false st :: l).
Proof.
  intros Ha. eapply accounted_move; [exact Ha|done|]. intros s c [->|Hin]%elem_of_cons Hrep HI Hl; [|by eapply alive_in; [right|..]].
  eapply (alive_in c0 _ _ (set_pending_revert false st)); [by left| |done..].
  destruct Hrep as (h1 & (h2 & h3 & h4 & h5 & h6 & h7 & h8) & h9).
  exact (conj h1 (conj (conj h2 (conj h3 (conj h4 (conj h5 (conj h6 (conj h7 eq_refl)))))) h9)).
Qed.

Lemma pending_uncovered c0 ex st l :
  pending_storage_hook_revert st = true -> accounted c0 ex (st :: l) -> accounted c0 ex l.
Proof.
  intros Hp Ha. eapply accounted_move; [exact Ha|done|]. intros s c [->|Hin]%elem_of_cons Hrep HI Hl; [|by eapply alive_in].
  destruct Hrep as (_ & (_ & _ & _ & _ & _ & _ & E) & _). congruence.
Qed.

Lemma run_paths_spec c0 fuel b w d t ex stats i t' ex' :
  run_paths config executor code fuel b w d t ex = Ret (inl (Some (inl (Safe stats i), t')), ex') ->
  accounted c0 ex (w ++ d) -> resolved c0.
Proof.
  revert w d t ex. induction fuel as [|fuel IH]; intros w d t ex H Ha; cbn [run_paths] in H; [by xstep H|].
  xstep H. apply xtry_inv in H0. destruct r as [[[[[st fd]|] w1] d1]|err]; [| |by xstep H].
  2:{ pose proof (pop_path_spec _ _ _ _ _ _ _ _ H0 Ha) as Hs. simpl in Hs. xstep H. xstep H. simplify_eq.
      apply verdict_spec in H1 as [Hd _]. destruct Hs as [Hm|[Hr|(s & c & Hin & _)]]; [done|done|by apply elem_of_nil in Hin]. }
  pose proof (pop_path_spec _ _ _ _ _ _ _ _ H0 Ha) as Hs. simpl in Hs. xstep H. unfold get in H1. simplify_eq.
  destruct (path_width config <=? completed_paths ex1).
  { xstep H. by apply incomplete_not_safe in H1; xstep H; simplify_eq. }
  set (st1 := set_pending_revert false st) in *. xstep H. apply xtry_inv in H1.
  assert (Hend : match r with
    | inl (Some (EndRun r)) => not_safe (EndRun r)
    | inl (Some (EndPath w2 _)) => accounted c0 ex0 (w2 ++ d1)
    | _ => True
    end).
  { destruct r as [[e|]|err]; try done. destruct (pending_storage_hook_revert st) eqn:Ep.
    - eapply (leaves_accounted c0 w1 _ _ _ _ _ (leaves_revert st1 w1 t)) in H1; [exact H1|]. by eapply pending_uncovered.
    - eapply run_path_spec in H1; [exact H1|]. by apply pending_cleared. }
  destruct r as [[[r|w2 t2]|]|err].
  - xstep H. simplify_eq. done.
  - by eapply IH.
  - by xstep H.
  - by xstep H.
Qed.

(** ** Roots *)
Lemma insert_by_key_elem {A} (key : A -> Z) a l x : x ∈ insert_by_key key a l <-> x = a \/ x ∈ l.
Proof. induction l as [|b l IH]; simpl; [set_solver|]. case_match; set_solver. Qed.

Lemma sort_by_key_elem {A} (key : A -> Z) l x : x ∈ sort_by_key key l <-> x ∈ l.
Proof. induction l as [|b l IH]; simpl; [done|]. rewrite insert_by_key_elem. set_solver. Qed.

Lemma order_roots_elem roots x : x ∈ order_roots_by_corpus_seed_count config roots <-> x ∈ roots.
Proof. unfold order_roots_by_corpus_seed_count. repeat case_match; try done; apply sort_by_key_elem. Qed.

Section Root.
Variable root : PathState.
Variable c0 : EvmState.
Variable roots : list PathState.
Hypothesis root_in : root ∈ roots.
Hypothesis root_rep : rep root c0.
Hypothesis root_inv : Inv (frame root).

Lemma pass_resolves fuel b cands ex stats i cs ex' :
  run_pass config executor code fuel b roots cands ex = Ret (inl (Some (inl (Safe stats i), cs)), ex') -> resolved c0.
Proof.
  intros H. unfold run_pass in H. xstep H. destruct r as [[[r|err] t]|]; [| |by xstep H].
  - xstep H. simplify_eq. unfold run_inner in H0. eapply run_paths_spec; [exact H0|]. rewrite app_nil_r.
    eapply alive_in; [by apply order_roots_elem|done..|]. by intros r.
  - xstep H. by xstep H.
Qed.

Lemma error_not_safe err ex r ex' : error_result err ex = Ret (inl r, ex') -> not_safe (EndRun r).
Proof. apply incomplete_not_safe. Qed.

Lemma pass_error fuel b cands ex r cs ex' :
  run_pass config executor code fuel b roots cands ex = Ret (inl (Some (inr r, cs)), ex') -> not_safe (EndRun r).
Proof.
  intros H. unfold run_pass in H. xstep H. destruct r0 as [[[r'|err] t]|]; [by xstep H| |by xstep H].
  xstep H. xstep H. simplify_eq. by eapply error_not_safe.
Qed.

Definition claims (r : SymbolicRunResult) : Prop := match r with Safe _ _ => resolved c0 | _ => True end.

Lemma not_safe_claims r : not_safe (EndRun r) -> claims r.
Proof. by destruct r. Qed.

Lemma retry_resolves fuel b modes ex r0 r ex' :
  retry_passes config executor code fuel b roots modes r0 ex = Ret (inl (Some r), ex') -> claims r0 -> claims r.
Proof.
  revert ex r0. induction modes as [|mode modes IH]; intros ex r0 H Hc; cbn [retry_passes] in H; [xstep H; by simplify_eq|].
  xstep H. destruct (negb r1); [xstep H; by simplify_eq|]. xstep H. destruct r2 as [u|err].
  2:{ xstep H. xstep H. simplify_eq. apply not_safe_claims. by eapply error_not_safe. }
  do 3 xstep H. destruct r4 as [[[r4|r4] cs]|].
  - eapply IH; [exact H|]. destruct r4; try done. by eapply pass_resolves.
  - xstep H. simplify_eq. apply not_safe_claims. by eapply pass_error.
  - by xstep H.
Qed.

(** A run that reports Safe has resolved the concrete run of every root. *)
Lemma run_resolves fuel b ex stats i ex' :
  run config executor code fuel b roots ex = Ret (inl (Some (Safe stats i)), ex') -> resolved c0.
Proof.
  intros H. change (claims (Safe stats i)). unfold run in H. xstep H. xstep H. destruct r as [[r cs]|]; [|done]. simpl in H. simplify_eq.
  unfold execute_run in H0. do 4 xstep H0. destruct r2 as [u'|err]; [|by xstep H0]. do 2 xstep H0. destruct r3 as [[[r5|r5] cs']|].
  - destruct cs' as [l|]; [xstep H0; simplify_eq; by eapply pass_resolves|].
    xstep H0. xstep H0. destruct r3 as [r3|]; [|done]. cbn [option_map] in H0. injection H0 as <- _.
    eapply retry_resolves; [eassumption|]. destruct r5; try done. by eapply pass_resolves.
  - xstep H0. simplify_eq. apply not_safe_claims. by eapply pass_error.
  - by xstep H0.
Qed.
End Root.
End Coverage.
