(* ===== verification/SymBounds.v ===== *)
(** * SymBounds: what every step keeps, and the end of the path loop

    A step never lets the stack grow beyond the limit and does not change the
    depth of the path it goes on with; so the loop over the steps of a path ends
    at the depth limit.  The proofs walk through the computations of the
    executor with the postconditions of [ensures]. *)

From Stdlib Require Import ZArith Lia Bool.
From stdpp Require Import base list option gmap sets strings pretty.
From S2P Require Import Prelude SymWord SymExpr SymSimpl SymSound SymCmp SymBytes SymSeq SymMem SymPath SymWorld SymStatic SymLog SymExpect SymExec SymEvm SymSim SymExplore.
Local Open Scope Z_scope.
Local Open Scope exec_scope.

(** ** Postconditions *)
Section Ensures.
Context `{SE : SolverEnv}.

(** Every result of [c] satisfies [Q]. *)
Definition ensures {A} (c : ExecM A) (Q : A -> Prop) : Prop := forall ex a ex', c ex = Ret (inl a, ex') -> Q a.

Lemma ensures_any {A} (c : ExecM A) : ensures c (fun _ => True).
Proof. done. Qed.
Lemma ensures_ret {A} (a : A) (Q : A -> Prop) : Q a -> ensures (xret a) Q.
Proof. intros HQ ex b ex' H. xstep H. done. Qed.
Lemma ensures_err {A} e (Q : A -> Prop) : ensures (xerr e) Q.
Proof. intros ex b ex' H. by xstep H. Qed.
Lemma ensures_bind {A B} (c : ExecM A) (k : A -> ExecM B) Q R :
  ensures c Q -> (forall a, Q a -> ensures (k a) R) -> ensures (xbind c k) R.
Proof. intros Hc Hk ex b ex' H. apply xbind_inv in H as (a & ex1 & H1 & H2). eapply Hk; [by eapply Hc|exact H2]. Qed.
Lemma ensures_then {A B} (c : ExecM A) (k : A -> ExecM B) R : (forall a, ensures (k a) R) -> ensures (xbind c k) R.
Proof. intros Hk. eapply ensures_bind; [apply ensures_any|]. auto. Qed.
Lemma ensures_impl {A} (c : ExecM A) (Q R : A -> Prop) : ensures c Q -> (forall a, Q a -> R a) -> ensures c R.
Proof. intros Hc HQR ex a ex' H. by eapply HQR, Hc. Qed.
Lemma ensures_result {A} (r : A + SymbolicError) (Q : A -> Prop) : (forall a, r = inl a -> Q a) -> ensures (of_result r) Q.
Proof. intros HQ ex a ex' H. xstep H. auto. Qed.
End Ensures.

(** ** What a path is executed in

    The parts of a path that only account opcodes and calls change. *)
Record PathContext `{Parts} := mkContext {
  ctx_world : SymbolicWorld;
  ctx_calls : CallState;
  ctx_block : SymbolicBlock;
  ctx_address : Address;
  ctx_storage_address : Address;
  ctx_caller_word : SymExpr;
  ctx_callvalue : SymExpr;
  ctx_static : bool;
  ctx_hooks : gmap Address SymbolicStorageHook * gmap Address SymbolicStorageHook * list ((Address * U256) * SymbolicStorageHook);
  ctx_hook_active : bool
}.

Definition context `{Parts} (st : PathState) : PathContext :=
  mkContext _ (world st) (calls st) (block st) (address (frame st)) (storage_address (frame st)) (caller_word (frame st))
    (callvalue (frame st)) (is_static (frame st))
    (storage_load_hooks st, storage_store_hooks st, mapping_storage_store_hooks st) (storage_hook_active st).

Definition no_hooks : gmap Address SymbolicStorageHook * gmap Address SymbolicStorageHook * list ((Address * U256) * SymbolicStorageHook) :=
  (∅, ∅, []).

(** Nothing is asked of the context. *)
Definition anywhere `{Parts} : PathContext -> Prop := fun _ => True.

(** The context of a static frame without hooks that has only read the world
    since it was [w]. *)
Definition reading `{Parts} (w : SymbolicWorld) (c : PathContext) : Prop :=
  ctx_static c = true /\ read_only w (ctx_world c) /\ ctx_hooks c = no_hooks /\ no_copies w.

(** A property that survives reads: the frame, the world and the hooks may come
    from different contexts that have it.  Where a write or the callback of a
    hook is possible, it asks nothing. *)
Class Stable `{Parts} (K : PathContext -> Prop) : Prop := {
  stable_reads c1 c2 c3 c :
    K c1 -> K c2 -> K c3 -> (ctx_static c1 = true -> ctx_static c = true) -> read_only (ctx_world c2) (ctx_world c) ->
    ctx_hooks c = ctx_hooks c3 -> K c;
  stable_writes c c' : K c -> ctx_static c = false \/ ctx_hooks c <> no_hooks \/ ~ no_copies (ctx_world c) -> K c'
}.

#[export] Instance anywhere_stable `{Parts} : Stable anywhere.
Proof. done. Qed.

#[export] Instance reading_stable `{Parts} w : Stable (reading w).
Proof.
  split.
  - intros c1 c2 c3 c (H1 & _ & _ & Hn) (_ & H2 & _) (_ & _ & H3 & _) Hs Hr Hh. split; [auto|]. split; [by etrans|]. by rewrite Hh.
  - intros c c' (H1 & H2 & H3 & Hn) [Hc|[Hc|Hc]]; [congruence|done|]. destruct Hc. unfold no_copies. by rewrite (ro_copies _ _ H2).
Qed.

Section Bounds.
Context `{SA : SignedArith, HF : HashFns, P : Parts, SE : SolverEnv}.
Variable config : SymbolicConfig.
Variable executor : ExecutorEnv.
Import SStack SExec SStep.

Definition bounded (st : PathState) : Prop := zlen (stack (frame st)) <= STACK_LIMIT.

(** ** The stack *)
Lemma push_bounded s e s' : push STACK_LIMIT s e = inl s' -> zlen s' <= STACK_LIMIT.
Proof. unfold push. destruct (Z.leb_spec STACK_LIMIT (zlen s)); [done|]. intros [= <-]. rewrite zlen_app. change (zlen [e]) with 1. lia. Qed.

Lemma pop_shorter s e s' : pop s = inl (e, s') -> zlen s' = zlen s - 1.
Proof. intros H%pop_inv. subst. rewrite zlen_app. change (zlen [e]) with 1. lia. Qed.

Lemma pop2_bounded {A} s (k : SymExpr -> SymExpr -> SymStack -> A + SymbolicError) (Q : A -> Prop) :
  (forall a b s' r, zlen s' = zlen s - 2 -> k a b s' = inl r -> Q r) -> forall r, SPath.pop2 s k = inl r -> Q r.
Proof.
  intros Hk r H. unfold SPath.pop2 in H. destruct (pop s) as [[a s1]|] eqn:E1; [|done]. destruct (pop s1) as [[b s2]|] eqn:E2; [|done].
  apply pop_shorter in E1, E2. eapply Hk; [|exact H]. lia.
Qed.

Lemma swap_bounded s n s' : swap s n = inl s' -> zlen s' = zlen s.
Proof.
  unfold swap. destruct (checked_sub _ _) as [i|]; [|done].
  destruct (at_z s (zlen s - 1)), (at_z s i); intros [= <-]; try done. unfold zlen. f_equal. exact (eq_trans (length_insert _ _ _) (length_insert _ _ _)).
Qed.

(** ** The steps: [d] is the depth of the path, [K] a property of its context *)
Section Depth.
Variable d : Z.
Variable K : PathContext -> Prop.

Definition settled (st : PathState) : Prop := bounded st /\ K (context st).
Definition good (st : PathState) : Prop := depth st = d /\ settled st.
Definition good_step (r : StepResult) : Prop := let '(_, st, pushed) := r in good st /\ Forall settled pushed.
Definition good_guard (r : Guard) : Prop := let '(_, st, pushed) := r in good st /\ Forall settled pushed.

(** Reads keep a path good. *)
Lemma good_reads `{!Stable K} st st' :
  good st -> depth st' = depth st -> zlen (stack (frame st')) <= STACK_LIMIT -> is_static (frame st') = is_static (frame st) ->
  read_only (world st) (world st') -> ctx_hooks (context st') = ctx_hooks (context st) -> good st'.
Proof.
  intros (Hd & Hb & HK) Hd' Hb' Hs Hr Hh. split; [congruence|]. split; [done|].
  eapply (stable_reads _ _ _ _ HK HK HK); [simpl; congruence|done|done].
Qed.
Lemma good_world `{!Stable K} st w : good st -> read_only (world st) w -> good (set_world w st).
Proof. intros Hg Hr. apply (good_reads st); try done. apply Hg. Qed.
Lemma good_free `{!Stable K} st st' :
  good st -> is_static (frame st) = false \/ ctx_hooks (context st) <> no_hooks \/ ~ no_copies (world st) ->
  depth st' = depth st -> zlen (stack (frame st')) <= STACK_LIMIT -> good st'.
Proof. intros (Hd & Hb & HK) Hf Hd' Hb'. split; [congruence|]. split; [done|]. by eapply (stable_writes _ _ HK). Qed.

Lemma good_end st out : good st -> ensures (xret (out, st, [])) good_step.
Proof. intros. by apply ensures_ret. Qed.

Lemma good_pop st : good st -> ensures (pop_value st) (fun '(_, st') => good st').
Proof.
  intros [Hd [Hb HK]]. unfold pop_value. eapply ensures_bind; [apply ensures_result; intros a H; exact H|].
  intros [v s] H. apply ensures_ret. split; [done|]. split; [|exact HK]. apply pop_shorter in H. unfold bounded in *. simpl. lia.
Qed.

Lemma good_push st v : good st -> ensures (push_value st v) good_step.
Proof.
  intros [Hd [Hb HK]]. unfold push_value. eapply ensures_bind; [apply ensures_result; intros a H; exact H|].
  intros s H. apply ensures_ret. split; [|done]. split; [done|]. split; [exact (push_bounded _ _ _ H)|exact HK].
Qed.

Lemma good_stack st (r : SymStack + SymbolicError) :
  good st -> (forall s, r = inl s -> zlen s <= STACK_LIMIT) -> ensures (stack_op st r) good_step.
Proof.
  intros [Hd [Hb HK]] Hr. unfold stack_op. eapply ensures_bind; [apply ensures_result; intros a H; exact H|].
  intros s H. apply ensures_ret. split; [|done]. split; [done|]. split; [exact (Hr s H)|exact HK].
Qed.

Lemma good_access_guard st v : good st -> ensures (apply_memory_access_guard st v) good_guard.
Proof.
  intros Hg. unfold apply_memory_access_guard. apply ensures_then. intros [vcs vs]. apply ensures_then. intros [ics is_].
  apply ensures_ret. destruct vs, is_; try (destruct (split_corpus_seed_models st v)); split; try done.
  constructor; [|constructor]. apply Hg.
Qed.

Lemma good_fixed st o n : good st -> ensures (guard_fixed_memory_access executor st o n) good_guard.
Proof.
  intros Hg. unfold guard_fixed_memory_access. repeat case_match; try (by apply ensures_ret); by apply good_access_guard.
Qed.

Lemma good_range st o n : good st -> ensures (guard_memory_range executor st o n) good_guard.
Proof.
  intros Hg. assert (Hs : ensures (guard_symbolic_range executor st o n) good_guard).
  { unfold guard_symbolic_range. case_match; [by apply ensures_ret|]. eapply ensures_bind; [by apply good_access_guard|].
    intros [[out st1] pushed] H1. destruct out; by apply ensures_ret. }
  unfold guard_memory_range. repeat case_match; try done; by apply ensures_ret.
Qed.

Lemma good_returndata st o n : good st -> ensures (guard_returndata_copy_range st o n) good_guard.
Proof. intros Hg. unfold guard_returndata_copy_range. case_match; [apply ensures_err|by apply good_access_guard]. Qed.

Lemma good_guarded g k :
  ensures g good_guard -> (forall st, good st -> ensures (k st) good_step) -> ensures (guarded g k) good_step.
Proof.
  intros Hg Hk. unfold guarded. eapply ensures_bind; [exact Hg|]. intros [[out st] pushed] [H1 H2].
  destruct out; [by apply ensures_ret|by apply Hk].
Qed.

Lemma good_sized st size top reason exact too_large bounded_ :
  (forall n, ensures (exact n) good_step) -> ensures too_large good_step -> (forall n, ensures (bounded_ n) good_step) ->
  ensures (sized_operand st size top reason exact too_large bounded_) good_step.
Proof. intros He Ht Hb. unfold sized_operand. repeat case_match; [done|done|]. apply ensures_then. done. Qed.

Lemma good_store st m : good st -> ensures (store_memory st m) good_step.
Proof. intros Hg. unfold store_memory. apply ensures_then. intros a. by apply ensures_ret. Qed.
Lemma good_store_result st m : good st -> ensures (store_memory_result st m) good_step.
Proof. intros Hg. unfold store_memory_result. apply ensures_then. intros a. apply ensures_then. intros b. by apply ensures_ret. Qed.
End Depth.
End Bounds.

(** The handlers of the opcodes that need accounts keep the depth, the bound of
    the stack and a property of the context. *)
Class HandlerBounds `{HD : Handlers} (K : PathContext -> Prop) : Prop :=
  account_bounds d st op : good d K st -> ensures (account_op st op) (good_step d K).

Create HintDb good.
#[export] Hint Resolve good_end good_push good_store good_store_result good_fixed good_range good_returndata : good.
#[export] Hint Extern 1 (good _ (_ _)) => assumption : good.

(** Walks through a handler: operands are popped, anything else is ignored. *)
Ltac good_tac :=
  repeat first
    [ progress cbv beta iota zeta
    | solve [eauto 2 with good nocore]
    | apply ensures_err
    | apply good_sized
    | apply good_guarded
    | match goal with
      | |- ensures (xbind (SExec.pop_value ?st) _) _ =>
          let Hp := fresh "Hg" in
          eapply ensures_bind; [eapply good_pop; eassumption|]; intros [? ?] Hp; cbv beta iota in Hp
      | |- ensures (xbind _ _) _ => apply ensures_then; intros ?
      | |- forall _, _ => intros ?
      | |- ensures (match ?x with _ => _ end) _ => destruct x eqn:?
      end ].

(** ** Steps *)
Section Steps.
Context `{SA : SignedArith, HF : HashFns, P : Parts, SE : SolverEnv, HD : !Handlers} {K : PathContext -> Prop} {HB : HandlerBounds K}.
Variable config : SymbolicConfig.
Variable executor : ExecutorEnv.
Variable code : @SymCode JumpTable.
Import SStack SExec SStep.

Lemma good_comparison d st a b c : good d K st -> ensures (push_comparison_result st a b c) (good_step d K).
Proof.
  intros Hg. unfold push_comparison_result.
  assert (Ht : ensures (apply_branch_target_constraint st a b c) (fun '(_, st') => good d K st')).
  { unfold apply_branch_target_constraint. repeat case_match; try (by apply ensures_ret).
    all: apply ensures_then; intros []; by apply ensures_ret. }
  eapply ensures_bind; [exact Ht|]. intros [[] st'] Hg'; [by apply good_push|by apply good_end].
Qed.

Lemma good_jump d st (dest : Z) :
  good d K st -> forall b, ensures (let '(taken, st) := take_loop_jump config st (pc (frame st)) b in
    if (taken : bool) then xret (Continue, set_pc dest st, []) else xret (AssumeRejected, st, [])) (good_step d K).
Proof. intros Hg b. unfold take_loop_jump. repeat case_match; simplify_eq; by apply ensures_ret. Qed.

Lemma order_bounded d t f : good d K t -> good d K f -> Forall (settled K) (branch_order config t f).
Proof. intros [_ Ht] [_ Hf]. unfold branch_order. repeat case_match; by repeat apply Forall_cons_2. Qed.

Lemma good_jumpi d table st : good d K st -> ensures (jumpi_op config table st) (good_step d K).
Proof.
  intros Hg. unfold jumpi_op. eapply ensures_bind; [by apply good_pop|]. intros [dest st1] H1.
  eapply ensures_bind; [by apply good_pop|]. intros [cond st2] H2. destruct (option_map _ (as_const cond)) as [[]|].
  - apply ensures_then. intros [n|]; [by apply good_jump|by apply ensures_ret].
  - by apply ensures_ret.
  - destruct (resolve_jump_destination st2 table dest _) as [[n|]|err].
    + unfold take_loop_jump. destruct (split_corpus_seed_models st2 _) as [ts fs].
      repeat case_match; simplify_eq; apply ensures_ret; (split; [done|]); try (by constructor; [apply H2|]).
      all: by eapply order_bounded.
    + unfold branch_invalid_jumpi. apply ensures_then. intros [cs sat]. destruct (split_corpus_seed_models st2 _) as [ts fs].
      destruct (negb sat); [by apply ensures_ret|]. apply ensures_then. intros [ncs nsat]. apply ensures_ret. split; [done|].
      destruct nsat; constructor; [apply H2|constructor].
    + apply ensures_then. intros [cs sat]. destruct sat; [apply ensures_err|].
      destruct (split_corpus_seed_models st2 _) as [ts fs]. by apply ensures_ret.
Qed.

Lemma good_return d st b : good d K st -> ensures (return_or_revert config st b) (good_step d K).
Proof.
  intros Hg. unfold return_or_revert. eapply ensures_bind; [by apply good_pop|]. intros [o st1] H1.
  eapply ensures_bind; [by apply good_pop|]. intros [n st2] H2. apply good_sized.
  - intros k. apply ensures_then. intros r. destruct b; [apply ensures_then; intros out|]; by apply ensures_ret.
  - by apply ensures_ret.
  - intros k. apply ensures_then. intros r. by apply ensures_ret.
Qed.

Lemma good_stack_words d st op :
  good d K st ->
  ensures (stack_op st (SPath.bin_word STACK_LIMIT op (stack (frame st)))) (good_step d K) /\
  ensures (stack_op st (SPath.bin_word_div_zero_guard STACK_LIMIT op (stack (frame st)))) (good_step d K) /\
  ensures (stack_op st (SPath.shift_word STACK_LIMIT op (stack (frame st)))) (good_step d K) /\
  ensures (stack_op st (SPath.exp_word (constraints st) STACK_LIMIT (stack (frame st)))) (good_step d K).
Proof.
  intros Hg. split_and!; (apply good_stack; [done|]); apply pop2_bounded; intros a b s r _ H; try (by eapply push_bounded).
  destruct (SPath.exp_result _ a b); [by eapply push_bounded|done].
Qed.

Lemma good_preimage d st h bytes : good d K st -> good d K (record_preimage st h bytes).
Proof. intros Hg. unfold record_preimage. case_match; exact Hg. Qed.

Lemma good_cmp d st c op :
  good d K st -> ensures (let+ (condition, s) := of_result (SPath.cmp_word_condition c (stack (frame st))) in
    push_comparison_result (set_stack s st) (pc (frame st) - 1) op condition) (good_step d K).
Proof.
  intros (Hd & Hb & HK). eapply ensures_bind.
  - apply ensures_result. apply (pop2_bounded _ _ (fun '(_, s) => zlen s <= STACK_LIMIT)). intros a b s r Hs [= <-].
    unfold bounded in Hb. lia.
  - intros [cond s] Hs. by apply good_comparison.
Qed.

#[local] Hint Resolve good_comparison good_jumpi good_return good_cmp good_preimage : good.

(** Every step keeps the depth and the bound of the stack. *)
Lemma good_dispatch d st op : good d K st -> ensures (dispatch config executor code st op) (good_step d K).
Proof.
  intros Hg. unfold dispatch. destruct (decode op) eqn:Eop; try (by good_tac).
  all: try (destruct (good_stack_words d st op0 Hg) as (H1 & H2 & H3 & H4); done).
  all: try (destruct (good_stack_words d st Add Hg) as (H1 & H2 & H3 & H4); done).
  - unfold keccak_op, peek_value, revert_here. good_tac.
    all: try (apply good_push; repeat case_match; auto using good_preimage).
  - unfold calldatacopy_op, peek_value, revert_here. good_tac.
  - unfold codecopy_op, peek_value, revert_here. good_tac.
  - unfold returndatacopy_op, peek_value, revert_here. good_tac.
  - unfold mload_op, peek_value. good_tac.
  - unfold mstore_op, peek_value. good_tac.
  - unfold mstore8_op, peek_value. good_tac.
  - unfold jump_op. eapply ensures_bind; [by apply good_pop|]. intros [dest st1] H1. apply ensures_then.
    intros [n|]; [by apply good_jump|by apply ensures_ret].
  - by apply good_push.
  - unfold mcopy_op, peek_value, revert_here. good_tac.
  - unfold return_op, peek_value. good_tac.
  - unfold push_op. good_tac.
  - apply good_stack; [done|]. intros s H. apply swap_bounded in H. destruct Hg as (_ & Hb & _). unfold bounded in Hb. lia.
  - unfold blobhash_op. good_tac.
Qed.

Lemma good_step_step d st op : good d K st -> ensures (step config executor code st op) (good_step d K).
Proof. intros Hg. unfold step, exceptional_halt. case_match; [by apply ensures_ret|]. by apply good_dispatch. Qed.

(** ** The loop of a path *)
Context {RP : RunParts}.
Import SRun.

Lemma good_fetch d st : good d K st -> ensures (fetch config executor code st) (good_step d K).
Proof.
  intros Hg. unfold fetch. apply ensures_then. intros r. apply ensures_then. intros [op|]; [by apply good_step_step|by apply ensures_ret].
Qed.

Lemma completed_some w t : ensures (path_completed w t) (fun o => o <> None).
Proof. unfold path_completed. do 2 (apply ensures_then; intros ?). by apply ensures_ret. Qed.

Lemma stops_some st w t b :
  ensures (revert_path st w t) (fun o => o <> None) /\ ensures (halt_path b st w t) (fun o => o <> None) /\
  ensures (fail_path st w t) (fun o => o <> None).
Proof.
  unfold revert_path, halt_path, fail_path. split_and!.
  - apply ensures_then. intros [x t']. apply completed_some.
  - apply ensures_then. intros [x t']. apply ensures_then. intros y. apply completed_some.
  - case_match; [apply completed_some|]. do 3 (apply ensures_then; intros ?). by apply ensures_ret.
Qed.

(** As many iterations as are left to the depth limit are enough. *)
Lemma run_path_ends fuel b st w t :
  settled K st -> (Z.to_nat (execution_depth config - depth st) < fuel)%nat ->
  ensures (run_path config executor code fuel b st w t) (fun o => o <> None).
Proof.
  revert st w. induction fuel as [|fuel IH]; intros st w Hb Hf; [lia|]. cbn [run_path]. apply ensures_then. intros _.
  destruct (Z.leb_spec (execution_depth config) (depth st)); [apply ensures_then; intros r; by apply ensures_ret|].
  eapply ensures_bind; [apply (good_fetch (depth st + 1)); by split|]. intros [[out st'] pushed] [[Hd Hb'] _].
  destruct (stops_some st' (w ++ pushed) t b) as (H1 & H2 & H3).
  destruct out; try (by apply ensures_ret); try done; [|by case_match].
  apply IH; [done|]. rewrite Hd. lia.
Qed.
End Steps.
