(* ===== verification/SymAccountSpec.v ===== *)
(** * SymAccountSpec: the account opcodes keep the executor's promises

    [account_handlers] fulfils the two interfaces that the step function and
    the exploration rely on: [HandlerLaws] (no invariant of the executor is
    broken: marks of an incomplete result stay, the table of hashes stays
    truthful) and [HandlerBounds] (the stack limit and the depth of the path are
    kept), when calls and creates do. *)

From Stdlib Require Import ZArith Lia Bool.
From stdpp Require Import base list option gmap sets strings.
From S2P Require Import Prelude SymWord SymExpr SymSimpl SymSound SymCmp SymBytes SymSeq SymStorage SymMem SymPath SymWorld SymWorldSpec SymStatic SymLog SymExpect SymExec SymEvm SymSim SymExplore SymAccount SymVerdict SymBounds.
Local Open Scope Z_scope.
Local Open Scope exec_scope.

(** ** Invariants of the executor *)
Class CallLaws `{CH : CallHandlers} {EI : ExecInv} : Prop := {
  call_keeps st op : keeps (call_or_create st op);
  external_keeps st code : keeps (execute_external_call st code)
}.

Section Keeps.
Context `{SA : SignedArith, HF : HashFns, P : Parts, SE : SolverEnv} {BE : ChainBackend} {CH : CallHandlers} {EI : ExecInv} {CL : CallLaws}.
Variable config : SymbolicConfig.
Variable executor : ExecutorEnv.
Import SExec SAccount.
Hint Resolve keeps_defer_incomplete keeps_is_sat keeps_condition keeps_bound keeps_range keeps_push keeps_pop keeps_preimages
  call_keeps external_keeps : keeps.

Lemma keeps_first_answer {A B} (try : A -> ExecM (option B)) l : (forall a, keeps (try a)) -> keeps (first_answer try l).
Proof. intros Ht. induction l as [|a l IH]; simpl; keeps_tac; done. Qed.

Lemma keeps_classify st m p : keeps (classify_mapping_match st m p).
Proof. unfold classify_mapping_match. keeps_tac. Qed.
Hint Resolve keeps_classify : keeps.

Lemma keeps_provenance st key : keeps (mapping_storage_provenance st key).
Proof.
  unfold mapping_storage_provenance. keeps_tac. apply keeps_first_answer. intros hash. unfold try_hash. keeps_tac.
  apply keeps_first_answer. intros slot. keeps_tac.
Qed.
Hint Resolve keeps_provenance : keeps.

Lemma keeps_hook st hook cd : keeps (invoke_storage_hook config executor st hook cd).
Proof. unfold invoke_storage_hook. keeps_tac. Qed.
Lemma keeps_load st key : keeps (load_slot st key).
Proof. unfold load_slot. keeps_tac. Qed.
Hint Resolve keeps_hook keeps_load : keeps.

Lemma keeps_extcodehash target w : keeps (extcodehash executor target w).
Proof.
  unfold extcodehash. apply keeps_bind; [|intros; keeps_tac]. apply keeps_preimages. intros pre a pre' H Ht.
  apply obind_Ret in H as (r & Hr & H). destruct r as [[[h w'] pre1]|e]; simplify_eq; [|done].
  by eapply extcode_hash_table.
Qed.
Hint Resolve keeps_extcodehash : keeps.

Lemma keeps_topics n st : keeps (pop_topics n st).
Proof. revert st. induction n as [|n IH]; intros st; simpl; keeps_tac; apply IH. Qed.
Lemma keeps_handle_log st log : keeps (handle_log st log).
Proof. unfold handle_log, expected_emit_matches. keeps_tac. Qed.
Hint Resolve keeps_topics keeps_handle_log : keeps.

#[export] Instance account_laws : HandlerLaws (HD := account_handlers config executor).
Proof.
  split. intros st op. change (keeps (account_op config executor st op)).
  unfold account_op, balance_op, extcodesize_op, extcodecopy_op, extcodehash_op, blockhash_op, selfbalance_op, sload_op, sstore_op,
    store_slot, tload_op, tstore_op, selfdestruct_op, log_op, log_with_data, exceptional_halt, extcode_bytes, peek_value, revert_here, store_memory.
  keeps_tac.
  all: try (apply keeps_guarded; keeps_tac).
  all: apply keeps_sized; keeps_tac.
Qed.
End Keeps.

(** ** The stack limit, the depth and the context *)

(** Calls keep them: an opcode on a good path, and a callee, whose paths all end
    in a context of the same kind. *)
Class CallBounds `{CH : CallHandlers} (K : PathContext -> Prop) : Prop :=
  call_bounds d st op : good d K st -> ensures (call_or_create st op) (good_step d K).

Lemma next_path_elem `{P : Parts} config paths (st : PathState) l : SRun.pop_next_path config paths = Some (st, l) -> st ∈ paths /\ l ⊆ paths.
Proof.
  unfold SRun.pop_next_path. destruct (exploration_order config).
  - destruct paths; [done|]. intros [= -> ->]. set_solver.
  - destruct (rev paths) as [|x r] eqn:E; [done|]. intros [= -> <-]. apply (f_equal (@rev _)) in E. rewrite rev_involutive in E. subst.
    cbn [rev]. set_solver.
Qed.

Section Bounds.
Context `{SA : SignedArith, HF : HashFns, P : Parts, SE : SolverEnv} {BE : ChainBackend} {CH : CallHandlers}
  {K : PathContext -> Prop} {KS : Stable K} {CB : CallBounds K}.
Variable config : SymbolicConfig.
Variable executor : ExecutorEnv.
Import SStack SExec SAccount.

(** Nothing is asked where a write or the callback of a hook is possible. *)
Lemma free_write d st : good d K st -> is_static (frame st) = false -> forall c, K c.
Proof. intros (_ & _ & HK) Hf c. eapply (stable_writes _ _ HK). by left. Qed.
Lemma free_hook d st : good d K st -> ctx_hooks (context st) <> no_hooks -> forall c, K c.
Proof. intros (_ & _ & HK) Hf c. eapply (stable_writes _ _ HK). by right; left. Qed.
Lemma free_good d st : (forall c, K c) -> depth st = d -> bounded st -> good d K st.
Proof. intros HK Hd Hb. split; [done|]. by split. Qed.

(** A hook keeps the frame of its caller. *)
Lemma good_hook d st hook cd :
  good d K st -> (forall c, K c) -> ensures (invoke_storage_hook config executor st hook cd) (good_step d K).
Proof.
  intros (Hd & Hb & _) HK. assert (Hall : forall st', depth st' = d -> stack (frame st') = stack (frame st) -> good d K st').
  { intros st' Hd' Hs. apply free_good; [done|done|]. unfold bounded. by rewrite Hs. }
  unfold invoke_storage_hook. apply ensures_then. intros [code w].
  destruct (code_is_empty code); [apply ensures_ret; split; [by apply Hall|done]|].
  apply ensures_then. intros outcomes. destruct (SRun.pop_next_path _ _) as [[first parents]|] eqn:E;
    [|apply ensures_ret; split; [by apply Hall|done]].
  apply ensures_ret. destruct (next_path_elem _ _ _ _ E) as [Hin Hsub].
  assert (Hp : forall s, s ∈ map (hook_parent (set_world w st)) outcomes -> depth s = d /\ stack (frame s) = stack (frame st)).
  { intros s (o & -> & _)%list_elem_of_fmap. unfold hook_parent. by destruct (call_status o). }
  destruct (Hp _ Hin) as [H1 H2]. split; [by apply Hall|]. apply Forall_forall. intros s Hs. destruct (Hp s (Hsub _ Hs)). by apply Hall.
Qed.

Lemma good_load d st key :
  good d K st -> ensures (load_slot st key) (fun '(_, st') => good d K st' /\ ctx_hooks (context st') = ctx_hooks (context st)).
Proof.
  intros Hg ex [v st'] ex' H. unfold load_slot in H. do 2 xstep H. xstep H. destruct r1 as [v' w']. xstep H. xstep H2.
  simplify_eq. xstep H1. split; [|done]. destruct (decide (no_copies (world st))) as [Hn|Hn]; [by eapply good_world, ro_sload|].
  apply (good_free d K st); [done|by right; right|done|apply Hg].
Qed.

Lemma good_store_slot d st hook mapping :
  good d K st -> (forall c, K c) -> ensures (store_slot config executor st hook mapping) (good_step d K).
Proof.
  intros Hg HK. unfold store_slot. eapply ensures_bind; [by apply good_pop|]. intros [key st1] H1. eapply ensures_bind; [by apply good_pop|].
  intros [value st2] H2. cbv zeta. set (st3 := record_sstore _ _ st2). assert (H3 : good d K st3) by exact H2.
  eapply (ensures_bind _ _ (fun '(_, st') => good d K st')).
  - destruct hook, mapping; try (by apply ensures_ret); (eapply ensures_bind; [by apply good_load|]; intros [old st4] [H4 _]; by apply ensures_ret).
  - intros [old st4] (Hd & Hb & _). set (st5 := set_world _ st4). assert (H5 : good d K st5) by (by apply free_good).
    repeat case_match; try (by apply good_hook); by apply ensures_ret.
Qed.

Lemma good_topics d n st : good d K st -> ensures (pop_topics n st) (fun '(_, st') => good d K st').
Proof.
  revert st. induction n as [|n IH]; intros st Hg; cbn [pop_topics]; [by apply ensures_ret|].
  eapply ensures_bind; [by apply good_pop|]. intros [topic st1] H1. case_match; [apply ensures_err|].
  eapply ensures_bind; [by apply IH|]. intros [topics st2] H2. by apply ensures_ret.
Qed.

Lemma good_emit_matches d st expected template log :
  good d K st -> ensures (expected_emit_matches st expected template log) (fun '(_, st') => good d K st').
Proof.
  intros Hg. unfold expected_emit_matches. apply ensures_then. intros [c|]; [|by apply ensures_ret]. apply ensures_then. intros [mc ms].
  destruct ms; [|by apply ensures_ret]. apply ensures_then. intros [nc ns]. destruct ns; by apply ensures_ret.
Qed.

Lemma good_handle_log d st log : good d K st -> ensures (handle_log st log) (good_step d K).
Proof.
  intros Hg. unfold handle_log. destruct (expected_emit st) as [e|]; [|by apply ensures_ret]. cbv zeta.
  destruct (emit_template e) as [t|]; [|by apply ensures_ret]. eapply ensures_bind; [apply (good_emit_matches d); exact Hg|].
  intros [[] st1] H1; [|by apply ensures_ret]. cbn [negb]. destruct (SEmit.is_satisfied _); by apply ensures_ret.
Qed.

Lemma good_log_data d st n l data : good d K st -> ensures (log_with_data st n l data) (good_step d K).
Proof.
  intros Hg. unfold log_with_data. apply ensures_then. intros b. eapply ensures_bind; [by apply good_topics|].
  intros [topics st1] H1. by apply good_handle_log.
Qed.

Lemma good_extcode d st t o n : good d K st -> ensures (extcode_bytes executor st t o n) (fun '(_, st') => good d K st').
Proof.
  intros Hg ex [b st'] ex' H. unfold extcode_bytes in H. do 2 xstep H. destruct r0 as [b' w']. xstep H. xstep H1. simplify_eq. xstep H0.
  by eapply good_world, ro_code_bytes.
Qed.
#[local] Hint Resolve good_handle_log good_log_data : good.

Lemma good_extcodesize d st : good d K st -> ensures (extcodesize_op executor st) (good_step d K).
Proof.
  intros Hg. unfold extcodesize_op. eapply ensures_bind; [by apply good_pop|]. intros [t st1] H1.
  eapply ensures_bind; [apply ensures_result; intros a H; exact H|]. intros [size w] H. eapply good_push, good_world, ro_code_size; done.
Qed.

Lemma good_extcodehash d st : good d K st -> ensures (extcodehash_op executor st) (good_step d K).
Proof.
  intros Hg. unfold extcodehash_op. eapply ensures_bind; [by apply good_pop|]. intros [t st1] H1.
  eapply (ensures_bind _ _ (fun '(_, w) => read_only (world st1) w)); [|intros [h w] Hr; by apply good_push, good_world].
  intros ex [h w] ex' H. unfold extcodehash in H. do 2 xstep H. xstep H0. apply obind_Ret in H0 as (q & Hr & H0).
  destruct q as [[[h' w'] pre']|]; simplify_eq. by eapply ro_code_hash.
Qed.

Lemma good_sload d st : good d K st -> ensures (sload_op config executor st) (good_step d K).
Proof.
  intros Hg. unfold sload_op. eapply ensures_bind; [by apply good_pop|]. intros [key st1] H1. cbv zeta.
  eapply ensures_bind; [apply (good_load d); exact H1|]. intros [value st2] [(Hd & _ & HK) _].
  eapply ensures_bind; [apply ensures_result; intros a H; exact H|]. intros s Hs.
  assert (H3 : good d K (set_stack s st2)) by (split; [done|split; [exact (push_bounded _ _ _ Hs)|done]]).
  destruct (if storage_hook_active (set_stack s st2) then _ else _) as [hook|] eqn:Eh; [|by apply ensures_ret].
  apply good_hook; [done|]. apply (free_hook d _ H3). intros E. destruct (storage_hook_active _); [done|].
  apply (f_equal (fun h => h.1.1)) in E. simpl in E, Eh. by rewrite E, lookup_empty in Eh.
Qed.

Lemma good_selfdestruct d st : good d K st -> ensures (selfdestruct_op executor st) (good_step d K).
Proof.
  intros Hg. unfold selfdestruct_op, exceptional_halt. case_match eqn:Es; [by apply ensures_ret|]. pose proof (free_write d st Hg Es) as HK.
  eapply ensures_bind; [by apply good_pop|]. intros [word st1] (Hd & Hb & _). unfold address_or_symbolic_slot.
  repeat case_match; simplify_eq; apply ensures_then; intros w'; apply ensures_ret; (split; [|done]); by apply free_good.
Qed.

Lemma good_extcodecopy d st : good d K st -> ensures (extcodecopy_op config executor st) (good_step d K).
Proof.
  intros Hg. unfold extcodecopy_op, peek_value, revert_here. do 2 (apply ensures_then; intros ?). apply good_guarded; [by apply good_range|].
  intros st0 Hst0. do 4 (eapply ensures_bind; [eapply good_pop; eassumption|]; intros [? ?] ?; cbv beta iota in * ). apply good_sized.
  - intros n. eapply ensures_bind; [by apply (good_extcode d)|]. intros [b st1] Hst1. by apply ensures_ret.
  - by apply ensures_ret.
  - intros n. destruct (n =? 0); [by apply ensures_ret|]. eapply ensures_bind; [by apply (good_extcode d)|].
    intros [b st1] Hst1. by apply good_store.
Qed.

Lemma good_sstore d st : good d K st -> ensures (sstore_op config executor st) (good_step d K).
Proof.
  intros Hg. unfold sstore_op, exceptional_halt. destruct (is_static _) eqn:Es; [by apply ensures_ret|]. pose proof (free_write d st Hg Es).
  do 3 (apply ensures_then; intros ?). case_match; try (by apply good_store_slot). apply ensures_ret. split; [done|].
  by repeat (constructor; [apply Hg|]).
Qed.

Lemma good_tstore d st : good d K st -> ensures (tstore_op st) (good_step d K).
Proof.
  intros Hg. unfold tstore_op, exceptional_halt. destruct (is_static _) eqn:Es; [by apply ensures_ret|]. pose proof (free_write d st Hg Es).
  do 2 (eapply ensures_bind; [eapply good_pop; eassumption|]; intros [? ?] ?). apply ensures_ret. split; [|done].
  apply free_good; [done|apply H1|apply H1].
Qed.

#[export] Instance account_bounds_instance : HandlerBounds (HD := account_handlers config executor) K.
Proof.
  intros d st op Hg. change (ensures (account_op config executor st op) (good_step d K)).
  pose proof (call_bounds d st op Hg) as Hc.
  unfold account_op. repeat case_match; try exact Hc; try (by apply good_sload); try (by apply good_selfdestruct);
    try (by apply good_extcodecopy); try (by apply good_sstore); try (by apply good_tstore); try (by apply good_extcodesize);
    try (by apply good_extcodehash).
  all: unfold log_op, balance_op, blockhash_op, selfbalance_op, tload_op, exceptional_halt, peek_value, revert_here; good_tac.
Qed.
End Bounds.

(** ** Storage opcodes refine the EVM's storage

    The reference: what the four storage opcodes of the account [a] do to a
    stack (the top is the last element), the storage and the transient
    storage. *)
Definition storage_spec (a : Address) (op : Z) (stk : list U256) (s t : Storage) : option (list U256 * Storage * Storage) :=
  match op, rev stk with
  | 84, k :: r => Some (rev r ++ [s a k], s, t)
  | 85, k :: v :: r => Some (rev r, store s a k v, t)
  | 92, k :: r => Some (rev r ++ [t a k], s, t)
  | 93, k :: v :: r => Some (rev r, s, store t a k v)
  | _, _ => None
  end.

Section Refine.
Context `{SA : SignedArith, HF : HashFns, P : Parts, SE : SolverEnv} {SL : SignedArithLaws} {BE : ChainBackend} {CH : CallHandlers}.
Variable model : SymbolicModel.
Variable lm : Landmarks.
Hypothesis spread : well_spread lm.
Variable config : SymbolicConfig.
Variable executor : ExecutorEnv.
Abbreviation den := (denote_word model).
Abbreviation key_ok := (key_ok model lm).
Import SExec SAccount.

(** No hook watches the account of the frame. *)
Definition quiet (st : PathState) : Prop :=
  storage_load_hooks st !! storage_address (frame st) = None /\ storage_store_hooks st !! storage_address (frame st) = None /\
  mapping_hook_keccak_preimages st = [].

(** The path stands for a stack, a storage and a transient storage. *)
Record account_rep (pre : Preimages) (s0 : Storage) (st : PathState) (stk : list U256) (s t : Storage) : Prop := {
  ar_sat : sat model st;
  ar_stack : Forall2 (fun e v => den e = Some v) (stack (frame st)) stk;
  ar_limit : zlen (stack (frame st)) <= STACK_LIMIT;
  ar_storage : storage_rep model lm pre (world st) s0 s;
  ar_transient : transient_rep model lm pre (world st) t
}.

(** The keys on the stack can be compared with those in the world: the slot
    that is read has an initial value. *)
Definition slot_known (pre : Preimages) (s0 : Storage) (st : PathState) (op : Z) : Prop :=
  match rev (stack (frame st)) with
  | [] => True
  | key :: _ =>
      exists k, key_ok pre key k /\
        (op = 84 -> key_ok pre (read_key key (SPath.constrained_word (constraints st) key)) k /\
                    initial model (state (world st)) (storage_address (frame st)) key k (s0 (storage_address (frame st)) k))
  end.

Lemma pop_app st l e ex : stack (frame st) = l ++ [e] -> pop_value st ex = Ret (inl (e, set_stack l st), ex).
Proof.
  intros E. unfold pop_value, of_result, xbind, SStack.pop. rewrite E, rev_app_distr. simpl. by rewrite rev_involutive.
Qed.

Lemma push_fits l e : zlen l < STACK_LIMIT -> SStack.push STACK_LIMIT l e = inl (l ++ [e]).
Proof. intros H. unfold SStack.push. destruct (Z.leb_spec STACK_LIMIT (zlen l)); [lia|]. done. Qed.

Lemma push_value_fits st e ex :
  zlen (stack (frame st)) < STACK_LIMIT -> push_value st e ex = Ret (inl (Continue, set_stack (stack (frame st) ++ [e]) st, []), ex).
Proof. intros H. unfold push_value. by rewrite (push_fits _ _ H). Qed.

Lemma zlen_snoc {A} (l : list A) a : zlen (l ++ [a]) = zlen l + 1.
Proof. by rewrite zlen_app. Qed.

Lemma constrained_key st key k :
  sat model st -> den key = Some k ->
  SPath.constrained_word (constraints st) key = None \/ SPath.constrained_word (constraints st) key = Some k.
Proof.
  intros Hs Hk. destruct (SPath.constrained_word (constraints st) key) as [c|] eqn:E; [|by left]. right. f_equal. symmetry.
  by eapply (constrained_word_sound model (constraints st) Hs).
Qed.

(** The result of a storage opcode. *)
Definition storage_result (pre : Preimages) (s0 : Storage) (st : PathState) (op : Z) (stk : list U256) (s t : Storage)
    (r : StepResult + SymbolicError) : Prop :=
  match r with
  | inl (out, st', pushed) =>
      out = Continue /\ pushed = [] /\
      exists stk' s' t', storage_spec (storage_address (frame st)) op stk s t = Some (stk', s', t') /\ account_rep pre s0 st' stk' s' t'
  | inr e => e = Backend
  end.

Lemma stack_split st stk key r :
  Forall2 (fun e v => den e = Some v) (stack (frame st)) stk -> rev (stack (frame st)) = key :: r ->
  exists stk' v, stack (frame st) = rev r ++ [key] /\ stk = stk' ++ [v] /\ den key = Some v /\
    Forall2 (fun e v => den e = Some v) (rev r) stk'.
Proof.
  intros H E. assert (Es : stack (frame st) = rev r ++ [key]) by (by rewrite <- (rev_involutive (stack (frame st))), E).
  rewrite Es in H. apply Forall2_app_inv_l in H as (stk' & l & H1 & H2 & ->). apply Forall2_cons_inv_l in H2 as (v & l' & Hv & Hn & ->).
  apply Forall2_nil_inv_l in Hn as ->. eauto 8.
Qed.

Lemma sload_refines st ex pre s0 stk s t key r :
  cx_preimages ex = pre -> account_rep pre s0 st stk s t -> quiet st -> slot_known pre s0 st 84 -> rev (stack (frame st)) = key :: r ->
  exists res, sload_op config executor st ex = Ret (res, ex) /\ storage_result pre s0 st 84 stk s t res.
Proof.
  intros Epre [Hs Hst Hl Hw Ht] (Hload & _ & _) Hk Er. unfold slot_known in Hk. rewrite Er in Hk. destruct Hk as (k & _ & Hk).
  destruct (Hk eq_refl) as [Hkey Hi]. destruct (stack_split _ _ _ _ Hst Er) as (stk' & v & Es & -> & Hv & Hf). clear Hk.
  assert (Hlen : zlen (rev r) < STACK_LIMIT) by (rewrite Es, zlen_snoc in Hl; lia).
  assert (k = v) as ->.
  { destruct Hkey as [Hd _]. destruct (constrained_key st key v Hs Hv) as [E|E]; rewrite E in Hd; cbn [read_key] in Hd; [|rewrite (den_constant model) in Hd]; congruence. }
  destruct (sload_sound model lm spread pre (world st) s0 s (storage_address (frame st)) key _ v Hw Hi Hv (constrained_key _ _ _ Hs Hv) Hkey)
    as (res & Hres & Hspec).
  unfold sload_op. unfold xbind at 1. rewrite (pop_app st (rev r) key) by done. cbv beta iota zeta.
  unfold load_slot, get. unfold xbind at 1 2 3. unfold lift, of_result. cbv beta.
  change (constraints (record_sload _ _ _)) with (constraints st). rewrite Epre.
  change (world (record_sload _ _ _)) with (world st). change (storage_address (frame (record_sload _ _ _))) with (storage_address (frame st)).
  rewrite Hres. cbn [obind]. destruct res as [[e w']|err].
  - destruct Hspec as [He Hsame]. unfold xbind, xret. cbv beta iota zeta.
    change (stack (frame (set_world w' _))) with (rev r). rewrite (push_fits (rev r) e Hlen). cbv beta iota zeta.
    change (storage_load_hooks (set_stack _ _)) with (storage_load_hooks st).
    change (storage_address (frame (set_stack _ _))) with (storage_address (frame st)). rewrite Hload.
    replace (if storage_hook_active _ then None else None) with (@None SymbolicStorageHook) by (by case_match).
    eexists; split; [done|]. split; [done|]. split; [done|]. unfold storage_spec. rewrite rev_app_distr. cbn [rev app]. rewrite rev_involutive.
    do 3 eexists. split; [done|]. split.
    + exact Hs.
    + apply Forall2_app; [exact Hf|]. by constructor.
    + change (zlen (rev r ++ [e]) <= STACK_LIMIT). rewrite zlen_snoc. lia.
    + by eapply same_storage_rep.
    + destruct Hsame as (_ & E & _). change (transient_rep model lm pre w' t). unfold transient_rep. by rewrite E.
  - eexists; split; [done|]. apply Hspec.
Qed.

Lemma tload_refines st ex pre s0 stk s t key r :
  cx_preimages ex = pre -> account_rep pre s0 st stk s t -> slot_known pre s0 st 92 -> rev (stack (frame st)) = key :: r ->
  exists res, tload_op st ex = Ret (res, ex) /\ storage_result pre s0 st 92 stk s t res.
Proof.
  intros Epre [Hs Hst Hl Hw Ht] Hk Er. unfold slot_known in Hk. rewrite Er in Hk. destruct Hk as (k & Hk & _).
  destruct (stack_split _ _ _ _ Hst Er) as (stk' & v & Es & -> & Hv & Hf).
  assert (Hlen : zlen (rev r) < STACK_LIMIT) by (rewrite Es, zlen_snoc in Hl; lia). assert (k = v) as -> by (destruct Hk; congruence).
  destruct (tload_sound model lm spread pre (world st) t (storage_address (frame st)) key v Ht Hk) as (e & He & Hd).
  unfold tload_op. unfold xbind at 1. rewrite (pop_app st (rev r) key) by done. cbv beta iota zeta.
  unfold get. unfold xbind at 1 2. unfold lift. rewrite Epre. change (world (set_stack _ _)) with (world st).
  change (storage_address (frame (set_stack _ _))) with (storage_address (frame st)). rewrite He. cbn [obind].
  rewrite push_value_fits by exact Hlen. eexists; split; [done|]. split; [done|]. split; [done|]. unfold storage_spec.
  rewrite rev_app_distr. cbn [rev app]. rewrite rev_involutive. do 3 eexists. split; [done|].
  split; [exact Hs| |change (zlen (rev r ++ [e]) <= STACK_LIMIT); rewrite zlen_snoc; lia|exact Hw|exact Ht].
  apply Forall2_app; [exact Hf|]. by constructor.
Qed.

(** The two operands of a store. *)
Lemma stack_split2 st stk key value r :
  Forall2 (fun e v => den e = Some v) (stack (frame st)) stk -> rev (stack (frame st)) = key :: value :: r ->
  exists stk' v k, stack (frame st) = rev r ++ [value] ++ [key] /\ stk = stk' ++ [v] ++ [k] /\ den key = Some k /\ den value = Some v /\
    Forall2 (fun e v => den e = Some v) (rev r) stk'.
Proof.
  intros H E. destruct (stack_split _ _ _ _ H E) as (l & k & Es & -> & Hk & Hf). cbn [rev] in Es, Hf.
  apply Forall2_app_inv_l in Hf as (stk' & l' & H1 & H2 & ->). apply Forall2_cons_inv_l in H2 as (v & l2 & Hv & Hn & ->).
  apply Forall2_nil_inv_l in Hn as ->. exists stk', v, k. by rewrite <- !app_assoc in *.
Qed.

Lemma tstore_refines st ex pre s0 stk s t key value r :
  cx_preimages ex = pre -> account_rep pre s0 st stk s t -> slot_known pre s0 st 93 -> is_static (frame st) = false ->
  rev (stack (frame st)) = key :: value :: r ->
  exists res, tstore_op st ex = Ret (res, ex) /\ storage_result pre s0 st 93 stk s t res.
Proof.
  intros Epre [Hs Hst Hl Hw Ht] Hk Hstatic Er. unfold slot_known in Hk. rewrite Er in Hk. destruct Hk as (k & Hk & _).
  destruct (stack_split2 _ _ _ _ _ Hst Er) as (stk' & v & k' & Es & -> & Hk' & Hv & Hf). assert (k' = k) as -> by (destruct Hk; congruence).
  unfold tstore_op. rewrite Hstatic. unfold xbind at 1. rewrite (pop_app st (rev r ++ [value]) key) by (by rewrite Es, app_assoc).
  unfold xbind at 1. rewrite (pop_app _ (rev r) value) by done. eexists; split; [done|]. split; [done|]. split; [done|].
  unfold storage_spec. rewrite !rev_app_distr. cbn [rev app]. rewrite rev_involutive. do 3 eexists. split; [done|].
  split; [exact Hs|exact Hf| |exact Hw|by apply tstore_sound].
  change (zlen (rev r) <= STACK_LIMIT). rewrite Es, app_assoc, !zlen_snoc in Hl. lia.
Qed.

Lemma key_mapping_total pre key k : key_ok pre key k -> exists m, SStorage.storage_mapping_key pre key = Ret m.
Proof.
  intros [_ Hk]. destruct (SStorage.storage_mapping_key_bytes pre key) as [bytes|] eqn:Eb.
  - rewrite (bytes_layout _ _ _ Eb) in Hk. destruct Hk as ((n & p & Hh & _) & _). destruct Hh as [Hb _].
    destruct (storage_mapping_key_parts model pre _ _ _ Hb Eb) as (m & sw & -> & _). eauto.
  - exists None. by apply no_bytes_no_key.
Qed.

(** Without recorded hashes there is no mapping to find. *)
Lemma provenance_quiet st ex pre key k :
  cx_preimages ex = pre -> quiet st -> key_ok pre key k -> mapping_storage_provenance st key ex = Ret (inl ProvenanceNone, ex).
Proof.
  intros Epre (_ & _ & Hpre) Hk. destruct (key_mapping_total _ _ _ Hk) as [m Hm].
  unfold mapping_storage_provenance, storage_mapping_provenance_observed_with, chain_fuel, observed. rewrite Hpre. cbn [provenance_loop].
  unfold observed. rewrite Hpre. unfold xbind, lift, get. simpl. by rewrite Epre, Hm.
Qed.

Lemma peek_snoc l e : SStack.peek (l ++ [e]) 0 = inl e.
Proof.
  unfold SStack.peek, usize_add, checked_sub. change ((0 + 1) mod 2 ^ 64) with 1. rewrite zlen_snoc. pose proof (zlen_nonneg l).
  destruct (Z.leb_spec 1 (zlen l + 1)); [|lia]. simpl. unfold at_z. destruct (Z.ltb_spec (zlen l + 1 - 1) 0); [lia|].
  replace (Z.to_nat (zlen l + 1 - 1)) with (length l) by (unfold zlen; lia). by rewrite list_lookup_middle.
Qed.

(** A store that no hook watches. *)
Lemma store_slot_quiet st ex l key value :
  stack (frame st) = l ++ [value] ++ [key] ->
  store_slot config executor st None None ex =
  Ret (inl (Continue, set_world (SWorld.sstore (storage_address (frame st)) key value (world st))
              (record_sstore (storage_address (frame st)) key (set_stack l (set_stack (l ++ [value]) st))), []), ex).
Proof.
  intros E. unfold store_slot. unfold xbind at 1. rewrite (pop_app st (l ++ [value]) key) by (by rewrite E, app_assoc).
  unfold xbind at 1. by rewrite (pop_app _ l value).
Qed.

Lemma sstore_refines st ex pre s0 stk s t key value r :
  cx_preimages ex = pre -> account_rep pre s0 st stk s t -> quiet st -> slot_known pre s0 st 85 -> is_static (frame st) = false ->
  rev (stack (frame st)) = key :: value :: r ->
  exists res, sstore_op config executor st ex = Ret (res, ex) /\ storage_result pre s0 st 85 stk s t res.
Proof.
  intros Epre [Hs Hst Hl Hw Ht] Hq Hk Hstatic Er. unfold slot_known in Hk. rewrite Er in Hk. destruct Hk as (k & Hk & _).
  destruct (stack_split2 _ _ _ _ _ Hst Er) as (stk' & v & k' & Es & -> & Hk' & Hv & Hf). assert (k' = k) as -> by (destruct Hk; congruence).
  assert (Hp0 : peek_value st 0 ex = Ret (inl key, ex)).
  { unfold peek_value, of_result. by rewrite Es, app_assoc, peek_snoc. }
  assert (Hp1 : peek_value st 1 ex = Ret (inl value, ex)).
  { unfold peek_value, of_result. rewrite Es, app_assoc. change 1 with (0 + 1). by rewrite peek_app, peek_snoc. }
  assert (Hm : (if storage_hook_active st then xret ProvenanceNone else mapping_storage_provenance st key) ex = Ret (inl ProvenanceNone, ex)).
  { destruct (storage_hook_active st); [done|]. by eapply provenance_quiet. }
  unfold sstore_op. rewrite Hstatic. unfold xbind at 1. rewrite Hp0. unfold xbind at 1. rewrite Hp1. cbv zeta. unfold xbind at 1. rewrite Hm.
  rewrite (proj1 (proj2 Hq)). replace (if storage_hook_active st then None else None) with (@None SymbolicStorageHook) by (by case_match).
  rewrite (store_slot_quiet _ _ _ _ _ Es). eexists; split; [done|]. split; [done|]. split; [done|].
  unfold storage_spec. rewrite !rev_app_distr. cbn [rev app]. rewrite rev_involutive. do 3 eexists. split; [done|].
  split; [exact Hs|exact Hf| |by apply sstore_sound|exact Ht].
  change (zlen (rev r) <= STACK_LIMIT). rewrite Es, app_assoc, !zlen_snoc in Hl. lia.
Qed.

(** *** The step *)
Definition is_storage_op (op : Z) : bool := (op =? 84) || (op =? 85) || (op =? 92) || (op =? 93).
Definition is_store (op : Z) : bool := (op =? 85) || (op =? 93).

(** Enough operands. *)
Definition operands_ok (op : Z) (st : PathState) : Prop := (if is_store op then 2 else 1) <= zlen (stack (frame st)).

Lemma storage_step code st op ex pre s0 stk s t :
  is_storage_op op = true -> opcode_activation op <= spec_id executor ->
  cx_preimages ex = pre -> account_rep pre s0 st stk s t -> quiet st -> slot_known pre s0 st op ->
  (is_store op = true -> is_static (frame st) = false) -> operands_ok op st ->
  exists res, SStep.step (HD := account_handlers config executor) config executor code st op ex = Ret (res, ex) /\
    storage_result pre s0 st op stk s t res.
Proof.
  intros Hop Hspec Epre Hrep Hq Hk Hstatic Hops. unfold SStep.step. rewrite (proj2 (Z.ltb_ge _ _) Hspec).
  set (st1 := set_pc (pc (frame st) + 1) st).
  assert (Hrep1 : account_rep pre s0 st1 stk s t) by (by destruct Hrep).
  assert (Hops1 : exists key r, rev (stack (frame st1)) = key :: r /\ (is_store op = true -> exists value r', r = value :: r')).
  { unfold operands_ok in Hops. change (stack (frame st1)) with (stack (frame st)). unfold zlen in Hops. rewrite <- length_rev in Hops.
    destruct (rev (stack (frame st))) as [|key [|value r]]; [simpl in Hops; destruct (is_store op); lia| |eauto 8].
    exists key, []. split; [done|]. intros E. rewrite E in Hops. simpl in Hops. lia. }
  destruct Hops1 as (key & r & Er & Hst). unfold is_storage_op in Hop. repeat (apply orb_prop in Hop as [Hop|Hop]); apply Z.eqb_eq in Hop; subst op.
  - exact (sload_refines st1 ex pre s0 stk s t key r Epre Hrep1 Hq Hk Er).
  - destruct (Hst eq_refl) as (value & r' & ->). exact (sstore_refines st1 ex pre s0 stk s t key value r' Epre Hrep1 Hq Hk (Hstatic eq_refl) Er).
  - exact (tload_refines st1 ex pre s0 stk s t key r Epre Hrep1 Hk Er).
  - destruct (Hst eq_refl) as (value & r' & ->). exact (tstore_refines st1 ex pre s0 stk s t key value r' Epre Hrep1 Hk (Hstatic eq_refl) Er).
Qed.
End Refine.
