(* ===== verification/SymCallSpec.v ===== *)
(** * SymCallSpec: calls keep the executor's promises

    [call_handlers] fulfils what the account opcodes ask of calls: [CallLaws] (no
    invariant of the executor is broken) and [CallBounds] (the stack limit and
    the depth of the caller's path are kept), for every fuel, when the cheatcode
    contracts do.  With [account_laws] and [account_bounds_instance] the whole
    step function is closed over calls. *)

From Stdlib Require Import ZArith Lia Bool.
From stdpp Require Import base list option gmap sets strings.
From S2P Require Import Prelude SymWord SymExpr SymSimpl SymSound SymCmp SymBytes SymSeq SymStorage SymMem SymPath SymWorld SymWorldSpec SymStatic SymPrecompile SymLog SymExpect SymExec SymEvm SymSim SymExplore SymAccount SymCall SymVerdict SymBounds SymAccountSpec.
Local Open Scope Z_scope.
Local Open Scope exec_scope.

(** ** Invariants of the executor *)
Class CheatLaws `{CP : CallParts} {EI : ExecInv} : Prop :=
  cheat_keeps st to in_offset in_size out_offset out_size : keeps (cheatcode_call st to in_offset in_size out_offset out_size).

Section Keeps.
Context `{SA : SignedArith, HF : HashFns, P : Parts, SE : SolverEnv} {BE : ChainBackend} {PC : Precompiles} {CP : CallParts}
  {EI : ExecInv} {CL : CheatLaws}.
Variable config : SymbolicConfig.
Variable executor : ExecutorEnv.
Import SExec SCall.
Hint Resolve keeps_defer_incomplete keeps_is_sat keeps_condition keeps_bound keeps_range keeps_push keeps_pop keeps_preimages
  cheat_keeps : keeps.

Section Callee.
Variable external : PathState -> @SymCode JumpTable -> ExecM (list CallOutcome).
Hypothesis external_ok : forall st code, keeps (external st code).

Lemma keeps_gas_free st : keeps (pop_gas_free st).
Proof. unfold pop_gas_free, ensure_expr_not_gasleft, gas_not_modeled, unsupported. keeps_tac. Qed.
Lemma keeps_complete st o n s : keeps (complete st o n s).
Proof. unfold complete. keeps_tac. Qed.
Lemma keeps_for_condition st c : keeps (constraints_for_condition st c).
Proof. unfold constraints_for_condition. keeps_tac. Qed.
Lemma keeps_must_match st c : keeps (must_match st c).
Proof. unfold must_match. keeps_tac. Qed.
Hint Resolve keeps_gas_free keeps_complete keeps_for_condition keeps_must_match : keeps.

Lemma keeps_filters l a d : keeps (filter_conditions l a d).
Proof. induction l; simpl; keeps_tac. Qed.
Hint Resolve keeps_filters : keeps.
Lemma keeps_revert_matches st e a d : keeps (expected_revert_matches st e a d).
Proof. unfold expected_revert_matches. keeps_tac. Qed.
Lemma keeps_rejects st n a d : keeps (assume_no_revert_rejects st n a d).
Proof.
  unfold assume_no_revert_rejects. destruct n; [keeps_tac|]. apply keeps_bind; [keeps_tac|]. intros cs. destruct cs; keeps_tac.
Qed.
Hint Resolve keeps_revert_matches keeps_rejects : keeps.
Lemma keeps_join_expected st o a : keeps (join_expected st o a).
Proof. unfold join_expected. destruct (expected_revert _); [|keeps_tac]. destruct (call_status o); keeps_tac. Qed.
Hint Resolve keeps_join_expected : keeps.
Lemma keeps_join st o a : keeps (join_call_outcome st o a).
Proof. unfold join_call_outcome. apply keeps_bind; [destruct (assume_no_revert_next_call _), (call_status o); keeps_tac|]. keeps_tac. Qed.
Hint Resolve keeps_join : keeps.

Lemma keeps_call_match st e a v g i : keeps (expected_call_match_constraints st e a v g i).
Proof. unfold expected_call_match_constraints. keeps_tac. Qed.
Lemma keeps_mock_match st m a v i : keeps (call_mock_match_constraints st m a v i).
Proof. unfold call_mock_match_constraints. keeps_tac. Qed.
Hint Resolve keeps_call_match keeps_mock_match : keeps.
Lemma keeps_observe st a v g i : keeps (observe_expected_call st a v g i).
Proof. unfold observe_expected_call. generalize 0%nat. induction (expected_calls (calls st)); intros n; simpl; keeps_tac. Qed.
Lemma keeps_take_mock st a v i : keeps (take_call_mock st a v i).
Proof.
  unfold take_call_mock. apply keeps_bind; [|intros; keeps_tac]. generalize 0%nat (@None (nat * (Z * bool) * list SymBoolExpr)).
  induction (call_mocks (calls st)); intros n best; simpl; keeps_tac; try (by apply IHl).
Qed.
Lemma keeps_mock_target st a i : keeps (function_mock_target st a i).
Proof. unfold function_mock_target. keeps_tac; apply keeps_first_answer; intros; keeps_tac. Qed.
Lemma keeps_collect {A} (f : A -> ExecM (option SymBoolExpr)) l : (forall a, keeps (f a)) -> keeps (collect f l).
Proof. intros Hf. induction l; simpl; keeps_tac; try done. Qed.
Lemma keeps_values {A} (v : A -> option U256) f l vs : (forall a b, keeps (f a b)) -> keeps (values_of v f l vs).
Proof. intros Hf. revert vs. induction l; intros vs; simpl; keeps_tac; try done; try (by apply IHl). Qed.
Hint Resolve keeps_observe keeps_take_mock keeps_mock_target keeps_collect keeps_values : keeps.
Lemma keeps_candidates st a g i : keeps (call_value_candidates st a g i).
Proof. unfold call_value_candidates. keeps_tac; apply keeps_values; keeps_tac. Qed.
Lemma keeps_match_conditions st a v g i : keeps (call_match_conditions st a v g i).
Proof. unfold call_match_conditions. keeps_tac; apply keeps_collect; keeps_tac. Qed.
Lemma keeps_mock_conditions st a i : keeps (function_mock_conditions st a i).
Proof. unfold function_mock_conditions. apply keeps_collect. keeps_tac. Qed.
Hint Resolve keeps_candidates keeps_match_conditions keeps_mock_conditions : keeps.
Lemma keeps_branch_on st pre n cs : keeps (branch_on st pre n cs).
Proof. revert st. induction cs; intros st; simpl; unfold branch_symbolic_match_condition_if_needed; keeps_tac; try (by apply IHcs). Qed.
Lemma keeps_branch_values st pre n v vs : keeps (branch_values st pre n v vs).
Proof. revert st. induction vs; intros st; simpl; keeps_tac; try (by apply IHvs). Qed.
Hint Resolve keeps_branch_on keeps_branch_values : keeps.

Lemma keeps_payment st c f : (forall st, keeps (f st)) -> keeps (decide_payment st c f).
Proof. intros Hf. unfold decide_payment. keeps_tac; try done. Qed.
Hint Resolve keeps_payment : keeps.
Lemma keeps_prepare st f t v o n : keeps (prepare_value_transfer st f t v o n).
Proof. unfold prepare_value_transfer. keeps_tac; apply keeps_payment; keeps_tac. Qed.
Lemma keeps_queued p c : keeps c -> keeps (queued p c).
Proof. intros. unfold queued. keeps_tac. Qed.
Hint Resolve keeps_prepare keeps_queued : keeps.

Lemma keeps_precompile n a st k t f v io ins oo os : keeps (call_precompile executor n a st k t f v io ins oo os).
Proof. unfold call_precompile, execute_kzg_precompile_call, apply_precompile_outcome, unsupported. keeps_tac. Qed.
Lemma keeps_join_call st w t oo os outs ps : keeps (join_call st w t oo os outs ps).
Proof. revert ps. induction outs; intros ps; simpl; keeps_tac; try (by apply IHouts). Qed.
Hint Resolve keeps_precompile keeps_join_call : keeps.

Lemma keeps_paid st k t c tw v a io ins oo os i : keeps (call_paid config executor external st k t c tw v a io ins oo os i).
Proof. unfold call_paid, call_account, call_code, completed, unsupported. keeps_tac. Qed.
Hint Resolve keeps_paid : keeps.
Lemma keeps_concrete st k t tw v g io ins oo os :
  keeps (call_concrete_target config executor external st k t tw v g io ins oo os).
Proof.
  unfold call_concrete_target, completed, unsupported. keeps_tac.
  all: try (apply keeps_queued; keeps_tac).
Qed.
Hint Resolve keeps_concrete : keeps.

Lemma keeps_split st c n : keeps (split_branches_on config st c n).
Proof. revert n. induction st; intros n; simpl; unfold path_limit_exceeded, unsupported; keeps_tac; try (by apply IHst). Qed.
Hint Resolve keeps_split : keeps.
Lemma keeps_split_all st cs : keeps (split_on_all config st cs).
Proof. revert st. induction cs; intros st; simpl; keeps_tac. Qed.
Hint Resolve keeps_split_all : keeps.
Lemma keeps_split_matches bs a v g i out : keeps (split_matches config bs a v g i out).
Proof. revert out. induction bs; intros out; simpl; unfold path_limit_exceeded, unsupported; keeps_tac. Qed.
Hint Resolve keeps_split_matches : keeps.
Lemma keeps_split_candidates bs a v g i out : keeps (split_candidates config bs a v g i out).
Proof. revert out. induction bs; intros out; simpl; keeps_tac. Qed.
Hint Resolve keeps_split_candidates : keeps.
Lemma keeps_outside st cs k t v oo os : keeps (call_outside st cs k t v oo os).
Proof. unfold call_outside, unsupported. keeps_tac. Qed.
Lemma keeps_branches call bs ps : (forall b, keeps (call b)) -> keeps (call_branches call bs ps).
Proof. intros Hc. revert ps. induction bs; intros ps; simpl; keeps_tac; try done. Qed.
Hint Resolve keeps_outside : keeps.
Lemma keeps_call_candidates st cs k t v g io ins oo os i ps :
  keeps (call_candidates config executor external st cs k t v g io ins oo os i ps).
Proof.
  revert ps. induction cs; intros ps; simpl; unfold split_symbolic_target_candidate; keeps_tac.
  all: apply keeps_branches; keeps_tac.
Qed.
Hint Resolve keeps_call_candidates : keeps.
Lemma keeps_symbolic_target st k t v g io ins oo os : keeps (call_symbolic_target config executor external st k t v g io ins oo os).
Proof. unfold call_symbolic_target, unsupported. keeps_tac. Qed.
Hint Resolve keeps_symbolic_target : keeps.

Lemma keeps_known_target pre st n k to t v g io ins oo os i :
  keeps (call_known_target config executor external pre st n k to t v g io ins oo os i).
Proof.
  unfold call_known_target, branch_symbolic_function_mock_if_needed, branch_symbolic_call_value_if_needed,
    branch_symbolic_call_match_if_needed. keeps_tac.
Qed.
Hint Resolve keeps_known_target : keeps.
Lemma keeps_call_with pre st n k t ta v g io ins oo os : keeps (call_with config executor external pre st n k t ta v g io ins oo os).
Proof. unfold call_with, static_value_guard, gas_not_modeled, unsupported. keeps_tac. Qed.
Hint Resolve keeps_call_with : keeps.
Lemma keeps_sized_range st size reason k : (forall n, keeps (k n)) -> keeps (sized_range config st size reason k).
Proof. intros Hk. unfold sized_range. apply keeps_sized; keeps_tac; done. Qed.
Lemma keeps_call_value st k t : keeps (pop_call_value st k t).
Proof. unfold pop_call_value, ensure_expr_not_gasleft, gas_not_modeled, unsupported. keeps_tac. Qed.
Hint Resolve keeps_call_value : keeps.
Lemma keeps_call st k : keeps (call_op config executor external st k).
Proof.
  unfold call_op, peek_value, unsupported, revert_here. keeps_tac.
  apply keeps_sized_range. keeps_tac. apply keeps_sized_range. keeps_tac.
Qed.

Lemma keeps_push_on st v : keeps (push_on st v).
Proof. unfold push_on. keeps_tac. Qed.
Lemma keeps_observe_create st a k r : keeps (observe_expected_create st a k r).
Proof.
  unfold observe_expected_create, unsupported. destruct (expected_creates (calls st)) as [|e l]; [keeps_tac|]. apply keeps_bind; [keeps_tac|].
  intros [bytes|]; [|keeps_tac]. generalize 0%nat (@None (list SymBoolExpr)). generalize (e :: l).
  induction l0; intros n mis; cbn [observe_create_from]; keeps_tac; try (by apply IHl0).
Qed.
Hint Resolve keeps_push_on keeps_observe_create : keeps.
Lemma keeps_join_create st w a aw p k outs ps : keeps (join_create executor st w a aw p k outs ps).
Proof. revert ps. induction outs; intros ps; simpl; unfold install_created; keeps_tac; try (by apply IHouts). Qed.
Hint Resolve keeps_join_create : keeps.
Lemma keeps_prepare_create st v : keeps (prepare_create_value_transfer st v).
Proof. unfold prepare_create_value_transfer. keeps_tac; apply keeps_payment; keeps_tac. Qed.
Hint Resolve keeps_prepare_create : keeps.
Lemma keeps_create_with st k v o n salt : keeps (create_with config executor external st k v o n salt).
Proof. unfold create_with, new_address. keeps_tac; try (apply keeps_queued; keeps_tac). Qed.
Hint Resolve keeps_create_with : keeps.
Lemma keeps_create st k : keeps (create_op config executor external st k).
Proof.
  unfold create_op, peek_value. keeps_tac. apply keeps_sized_range. keeps_tac.
Qed.
Hint Resolve keeps_call keeps_create : keeps.

Lemma call_handlers_laws : CallLaws (CH := call_handlers config executor external).
Proof. split; [|done]. intros st op. change (keeps (call_or_create_op config executor external st op)). unfold call_or_create_op. keeps_tac. Qed.
End Callee.

(** The exploration of a call keeps the invariant when the handlers do. *)
Lemma keeps_next_path paths deferred mode : keeps (SRun.pop_next_feasible_path config paths deferred mode).
Proof.
  unfold SRun.pop_next_feasible_path. apply keeps_bind.
  - generalize (length paths). intros n. revert paths deferred. induction n; intros paths deferred; cbn [SRun.pop_feasible]; [keeps_tac|].
    destruct (SRun.pop_next_path config paths) as [[st l]|]; keeps_tac; try (by apply IHn).
  - intros [[found l] d]. destruct found; [keeps_tac|]. apply keeps_bind; [|intros; keeps_tac].
    generalize (length d). intros n. revert d. induction n; intros d; cbn [SRun.pop_deferred]; [keeps_tac|].
    destruct (SRun.pop_next_path config d) as [[st l']|]; [|keeps_tac]. unfold SRun.start_deadline. keeps_tac; try (by apply IHn).
Qed.
Hint Resolve keeps_next_path : keeps.

Lemma keeps_batch {HD : Handlers} {HL : HandlerLaws} code fuel kind w d o b :
  keeps (execute_call_path_batch config executor code fuel kind w d o b).
Proof.
  assert (Hf : forall s st os, keeps (finish_path config s st os)) by (intros; unfold finish_path; keeps_tac).
  assert (Hp : forall fuel st w o, keeps (run_call_path config executor code fuel kind st w o)).
  { induction fuel0 as [|n IH]; intros; cbn [run_call_path]; [by intros ex r ex' H|]. unfold fetch_call_opcode. keeps_tac; try done; apply IH. }
  revert w d o b. induction fuel as [|n IH]; intros; cbn [execute_call_path_batch]; [by intros ex r ex' H|].
  keeps_tac; try (by apply IH); try done.
Qed.

(** ** The knot *)
Lemma external_call_keeps fuel st code : keeps (external_call config executor fuel st code).
Proof.
  revert st code. induction fuel as [|n IH]; intros; cbn [external_call]; [by intros ex r ex' H|].
  pose proof (call_handlers_laws _ IH) as Hc. apply keeps_bind; [|intros [[? ?] ?]; apply keeps_ret].
  eapply keeps_batch. 
Qed.

#[export] Instance full_laws fuel : HandlerLaws (HD := full_handlers config executor fuel).
Proof. pose proof (call_handlers_laws _ (external_call_keeps fuel)). apply account_laws. Qed.
End Keeps.

(** ** The stack limit, the depth and the context *)

(** A step whose queued paths stay at the depth of the path, as cheatcodes and
    calls have them. *)
Definition level_step `{P : Parts} (d : Z) (K : PathContext -> Prop) (r : SExec.StepResult) : Prop :=
  let '(_, st, pushed) := r in good d K st /\ Forall (good d K) pushed.
Definition level_branch `{P : Parts} (d : Z) (K : PathContext -> Prop) (r : bool * PathState * list PathState) : Prop :=
  let '(_, st, pushed) := r in good d K st /\ Forall (good d K) pushed.

Class CheatBounds `{CP : CallParts} (K : PathContext -> Prop) : Prop :=
  cheat_bounds d st to in_offset in_size out_offset out_size :
    good d K st -> ensures (cheatcode_call st to in_offset in_size out_offset out_size) (level_step d K).

Section Level.
Context `{SA : SignedArith, HF : HashFns, P : Parts, SE : SolverEnv} {BE : ChainBackend} {PC : Precompiles} {CP : CallParts}
  {K : PathContext -> Prop} {KS : Stable K} {CB : CheatBounds K}.
Variable config : SymbolicConfig.
Variable executor : ExecutorEnv.
Import SStack SExec SCall.

Lemma level_good d r : level_step d K r -> good_step d K r.
Proof. destruct r as [[out st] pushed]. intros [H1 H2]. split; [done|]. eapply Forall_impl; [exact H2|]. by intros s []. Qed.

Lemma good_settled d st : good d K st -> settled K st.
Proof. by intros []. Qed.

Section Callee.
Variable d : Z.
Variable external : PathState -> @SymCode JumpTable -> ExecM (list CallOutcome).
Hypothesis external_ok : forall st code, settled K st -> ensures (external st code) (Forall (fun o => settled K (call_state o))).
Abbreviation good := (good d K).
Abbreviation level_step := (level_step d K).
Abbreviation level_branch := (level_branch d K).

Lemma good_calls st f : good st -> good (on_calls f st).
Proof. intros Hg. apply (good_reads d K st); try done. apply Hg. Qed.

(** The world of a path of the same kind. *)
Lemma good_world_of st st' : good st -> K (context st') -> good (set_world (world st') st).
Proof. intros (Hd & Hb & HK) HK'. split; [done|]. split; [done|]. by apply (stable_reads _ _ _ _ HK HK' HK). Qed.

Lemma good_taken st child : good st -> settled K child -> good (take_call_outcome_state st child).
Proof.
  intros (Hd & Hb & HK) [_ HK']. unfold take_call_outcome_state, inherit_branch_target_progress.
  destruct (_ && _); (split; [done|]; split; [done|]; by apply (stable_reads _ _ _ _ HK HK HK')).
Qed.

Lemma good_complete st o n s : good st -> ensures (complete st o n s) good.
Proof.
  intros (Hd & Hb & HK). unfold complete. apply ensures_then. intros m. cbv zeta. eapply ensures_bind; [apply ensures_result; intros a H; exact H|].
  intros s' Hs. apply ensures_ret. split; [done|]. split; [by apply push_bounded in Hs|done].
Qed.
Lemma good_push_on st v : good st -> ensures (push_on st v) good.
Proof.
  intros (Hd & Hb & HK). unfold push_on. eapply ensures_bind; [apply ensures_result; intros a H; exact H|].
  intros s' Hs. apply ensures_ret. split; [done|]. split; [by apply push_bounded in Hs|done].
Qed.
Lemma level_completed st o n s : good st -> ensures (completed st o n s) level_step.
Proof. intros Hg. unfold completed. eapply ensures_bind; [by apply good_complete|]. intros st' H. by apply ensures_ret. Qed.
Lemma level_queued pushed c : Forall good pushed -> ensures c level_step -> ensures (queued pushed c) level_step.
Proof.
  intros Hp Hc. unfold queued. eapply ensures_bind; [exact Hc|]. intros [[o st] more] [H1 H2]. apply ensures_ret. split; [done|].
  by apply Forall_app.
Qed.

(** *** Expectations *)
Lemma good_must_match st c : good st -> ensures (must_match st c) (fun '(_, st') => good st').
Proof.
  intros Hg. unfold must_match. apply ensures_then. intros [mc ms]. destruct ms; [|by apply ensures_ret].
  apply ensures_then. intros [nc ns]. apply ensures_ret. by destruct ns.
Qed.
Lemma good_rejects st n a data : good st -> ensures (assume_no_revert_rejects st n a data) (fun '(_, st') => good st').
Proof.
  intros Hg. unfold assume_no_revert_rejects. destruct n; [by apply ensures_ret|]. apply ensures_then. intros [|c cs]; [by apply ensures_ret|].
  apply ensures_then. intros [mc ms]. destruct ms; [|by apply ensures_ret]. apply ensures_then. intros [nc ns]. apply ensures_ret. by destruct ns.
Qed.

Definition good_joined (j : JoinedCallOutcome) : Prop :=
  match j with
  | JoinRejected => True
  | JoinExpectedRevert p c | JoinSuccess p c | JoinRevert p c => good p /\ settled K c
  | JoinExceptionalHalt p | JoinFailure p => good p
  end.

Lemma good_join_expected st o a : good st -> settled K (call_state o) -> ensures (join_expected st o a) good_joined.
Proof.
  intros Hg Hc. unfold join_expected. destruct (expected_revert _) as [e|]; [|apply ensures_ret; by destruct (call_status o)].
  assert (Hm : ensures (let+ (matches, parent) := expected_revert_matches st e a (return_data (frame (call_state o))) in
      xret (if (matches : bool) then JoinExpectedRevert (consume_expected_revert e parent) (call_state o) else JoinFailure parent)) good_joined).
  { eapply (ensures_bind _ _ (fun '(_, st') => good st')).
    - unfold expected_revert_matches. apply ensures_then. intros [c|]; [by apply good_must_match|by apply ensures_ret].
    - intros [b p] Hp. apply ensures_ret. destruct b; [|done]. split; [|done]. unfold consume_expected_revert.
      destruct (SExpect.consume_revert e). by apply good_calls. }
  destruct (call_status o); try exact Hm. by apply ensures_ret.
Qed.

Lemma good_join st o a : good st -> settled K (call_state o) -> ensures (join_call_outcome st o a) good_joined.
Proof.
  intros Hg Hc. unfold join_call_outcome. pose proof (good_taken _ _ Hg Hc) as Ht.
  eapply (ensures_bind _ _ (fun '(_, st') => good st')).
  - destruct (assume_no_revert_next_call _), (call_status o); try (by apply ensures_ret, good_calls). by apply good_rejects, good_calls.
  - intros [b p] Hp. destruct b; [by apply ensures_ret|]. by apply good_join_expected.
Qed.

Lemma level_resume st ps : good st -> Forall good ps -> level_step (resume_parent_paths config st ps).
Proof.
  intros Hg Hp. unfold resume_parent_paths. destruct (SRun.pop_next_path _ _) as [[first l]|] eqn:E; [|done].
  apply next_path_elem in E as [Hin Hsub]. rewrite Forall_forall in Hp. split; [by apply Hp|]. apply Forall_forall. auto.
Qed.

(** Lists of good paths. *)
Ltac paths_tac := repeat first [assumption | apply Forall_nil_2 | apply Forall_cons_2].

(** *** Mocks and expected calls *)
Lemma good_observe st a v g i : good st -> ensures (observe_expected_call st a v g i) (fun '(_, st') => good st').
Proof.
  intros Hg. unfold observe_expected_call. generalize 0%nat. induction (expected_calls (calls st)) as [|e l IH]; intros n; cbn [observe_from]; [by apply ensures_ret|].
  apply ensures_then. intros [cs|]; [|apply IH]. destruct (SExpect.observe e). by apply ensures_ret, (good_calls (set_constraints cs st)).
Qed.
Lemma good_take_mock st a v i : good st -> ensures (take_call_mock st a v i) (fun '(_, st') => good st').
Proof.
  intros Hg. unfold take_call_mock. apply ensures_then. intros [[[idx q] cs]|]; [|by apply ensures_ret]. cbv zeta.
  destruct (_ !! idx); [|intros ex r ex' H; xstep H; done]. destruct (SExpect.next_outcome _). by apply ensures_ret, (good_calls (set_constraints cs st)).
Qed.
Lemma good_mock_target st a i : good st -> ensures (function_mock_target st a i) (fun '(_, st') => good st').
Proof. intros Hg. unfold function_mock_target. apply ensures_then. intros [[t cs]|]; by apply ensures_ret. Qed.

Lemma level_branch_on st pre n cs : good st -> good pre -> ensures (branch_on st pre n cs) level_branch.
Proof.
  revert st. induction cs as [|c cs IH]; intros st Hg Hp; cbn [branch_on]; [by apply ensures_ret|].
  eapply (ensures_bind _ _ level_branch).
  - unfold branch_symbolic_match_condition_if_needed. apply ensures_then. intros [mc ms]. apply ensures_then. intros [nc ns].
    apply ensures_ret. destruct ms, ns; split; paths_tac.
  - intros [[[] st'] pushed] [H1 H2]; [by apply ensures_ret|by apply IH].
Qed.
Lemma level_branch_values st pre n v vs : good st -> good pre -> ensures (branch_values st pre n v vs) level_branch.
Proof.
  revert st. induction vs as [|c cs IH]; intros st Hg Hp; cbn [branch_values]; [by apply ensures_ret|]. cbv zeta.
  apply ensures_then. intros [mc ms]. apply ensures_then. intros [nc ns]. destruct ms, ns; try (apply ensures_ret; split; paths_tac).
  by apply IH.
Qed.

(** *** Value transfers and precompiles *)
Lemma level_payment st c f : good st -> (forall st, good st -> ensures (f st) good) -> ensures (decide_payment st c f) level_branch.
Proof.
  intros Hg Hf. unfold decide_payment. destruct (SBool.as_const c) as [[]|]; [by apply ensures_ret| |].
  - eapply ensures_bind; [by apply Hf|]. intros st' H. by apply ensures_ret.
  - cbv zeta. do 2 (apply ensures_then; intros []); try (by apply ensures_ret).
    all: eapply ensures_bind; [apply Hf; exact Hg|]; intros st' H; apply ensures_ret; split; paths_tac.
Qed.
Lemma level_prepare st f t v o n : good st -> ensures (prepare_value_transfer st f t v o n) level_branch.
Proof.
  intros Hg. unfold prepare_value_transfer. case_match; [by apply ensures_ret|]. apply level_payment; [done|].
  intros st' Hst. by apply good_complete.
Qed.

Lemma good_transfer kind to from v st : good st -> good (apply_call_value_transfer kind to from v st).
Proof. intros Hg. destruct kind; try done; apply good_world; try done; apply ro_transfer. Qed.

Lemma good_precompile_outcome st k t f v oo os out : good st -> ensures (apply_precompile_outcome st k t f v oo os out) good.
Proof. intros Hg. destruct out; apply good_complete; [by apply good_transfer|done]. Qed.

Lemma level_precompile n a st k t f v io ins oo os : good st -> ensures (call_precompile executor n a st k t f v io ins oo os) level_step.
Proof.
  intros Hg. unfold call_precompile. cbv zeta. apply ensures_then. intros input.
  assert (Ha : forall cs out, ensures (apply_precompile_outcome (set_constraints cs st) k t f v oo os out) good)
    by (intros; by apply good_precompile_outcome).
  case_match.
  - unfold execute_kzg_precompile_call. cbv zeta. do 2 (apply ensures_then; intros ?). case_match.
    + eapply ensures_bind; [by apply good_precompile_outcome|]. intros st' H'. by apply ensures_ret.
    + apply ensures_then. intros [rc rs]. apply ensures_then. intros _. apply ensures_then. intros [sc ss]. apply ensures_then. intros [fc fs].
      destruct ss, fs; try apply ensures_err; repeat (eapply ensures_bind; [apply Ha|]; intros ? ?); apply ensures_ret; split; paths_tac.
  - do 2 (apply ensures_then; intros ?). eapply ensures_bind; [by apply good_precompile_outcome|]. intros st' H'. by apply ensures_ret.
Qed.

(** *** Calls *)
Definition good_joins (r : list PathState + PathState) : Prop := match r with inl ps => Forall good ps | inr p => good p end.

Lemma good_join_call st st0 to oo os outs ps :
  good st -> K (context st0) -> Forall (fun o => settled K (call_state o)) outs -> Forall good ps ->
  ensures (join_call st (world st0) to oo os outs ps) good_joins.
Proof.
  intros Hg H0 Ho. revert ps. induction Ho as [|o outs Ho Hos IH]; intros ps Hp; cbn [join_call]; [by apply ensures_ret|]. cbv zeta.
  assert (Hk : forall p s, good p -> ensures (let+ p := complete p oo os s in join_call st (world st0) to oo os outs (ps ++ [p])) good_joins).
  { intros p s Hgp. eapply ensures_bind; [by apply good_complete|]. intros p' Hp'. apply IH, Forall_app. by split; [|constructor]. }
  eapply ensures_bind; [by apply good_join|]. intros [|p c|p c|p c|p|p] Hj.
  - by apply IH.
  - apply Hk. apply (good_world_of (on_calls _ p)); [by apply good_calls, Hj|done].
  - apply Hk. apply (good_calls (set_expected_emit _ (set_world _ p))). apply (good_world_of p); apply Hj.
  - apply Hk. apply (good_world_of (on_calls _ p)); [by apply good_calls, Hj|done].
  - apply Hk. by apply (good_world_of p).
  - by apply ensures_ret.
Qed.

Lemma static_frame st kind to from cw fw v data :
  is_static (frame st) = true -> is_static (call_frame st kind to from cw fw v data) = true.
Proof. intros H. by destruct kind. Qed.

(** A child of a good path that has only moved value. *)
Lemma settled_child st callee :
  good st -> stack (frame callee) = [] -> (is_static (frame st) = true -> is_static (frame callee) = true) ->
  read_only (world st) (world callee) -> ctx_hooks (context callee) = ctx_hooks (context st) -> settled K callee.
Proof.
  intros (Hd & Hb & HK) Hs Hst Hr Hh. split; [|by apply (stable_reads _ _ _ _ HK HK HK)].
  unfold bounded in *. rewrite Hs. pose proof (zlen_nonneg (stack (frame st))). unfold zlen in *. simpl. lia.
Qed.

Lemma level_call_code st k to f fw po tw v data code oo os :
  good st -> ensures (call_code config external st k to f fw po tw v data code oo os) level_step.
Proof.
  intros Hg. unfold call_code, callee_path. cbv zeta. set (fr := call_frame _ _ _ _ _ _ _ _).
  match goal with |- ensures (xbind (external ?c _) _) _ => assert (Hc : settled K c) end.
  { apply (settled_child st); [done| | | |]; destruct po as [[]|], k; simpl; try done; try apply ro_transfer; apply static_frame. }
  eapply ensures_bind; [by apply external_ok|]. intros outs Ho. destruct outs as [|o outs]; [by apply ensures_ret|].
  eapply ensures_bind; [apply (good_join_call st st); [done|apply Hg|exact Ho|done]|]. intros [ps|p] Hj; apply ensures_ret; [by apply level_resume|done].
Qed.

Lemma good_prank st c st' : prank_for_next_call st = (c, st') -> good st -> good st'.
Proof.
  unfold prank_for_next_call. intros E Hg. destruct (next_caller _) as [[]|]; [simplify_eq; by apply good_calls|].
  destruct (persistent_caller _) as [[]|]; by simplify_eq.
Qed.

Lemma level_account st k to from fw po tw v a io ins oo os input :
  good st -> ensures (call_account config executor external st k to from fw po tw v a io ins oo os input) level_step.
Proof.
  intros Hg. unfold call_account. destruct (precompile_number_for_spec _ _); [by apply level_precompile|].
  eapply ensures_bind; [apply ensures_result; intros r H; exact H|]. intros [code w] Hw. cbv zeta.
  pose proof (good_world d K st w Hg (ro_extcode _ _ _ _ _ Hw)) as Hg'.
  destruct (code_is_empty code); [by apply level_completed, (good_transfer k to from v (set_world w st))|by apply level_call_code].
Qed.

Lemma level_paid st k to context tw v a io ins oo os input :
  good st -> ensures (call_paid config executor external st k to context tw v a io ins oo os input) level_step.
Proof.
  intros Hg. unfold call_paid. eapply ensures_bind; [by apply good_take_mock|]. intros [[[data reverts]|] st1] H1; cbv zeta.
  - apply level_completed. destruct reverts; [done|]. destruct context as [[[from fw] po]|]; [|done].
    by apply (good_transfer k to from v (set_return_data data st1)).
  - destruct (_ && _); [apply ensures_err|].
    destruct context as [[[from fw] po]|]; [by apply level_account|].
    destruct (prank_for_next_call st1) as [[[from fw] po] st2] eqn:E. apply good_prank in E; [|done]. by apply level_account.
Qed.

Lemma level_concrete st k to tw v g io ins oo os :
  good st -> ensures (call_concrete_target config executor external st k to tw v g io ins oo os) level_step.
Proof.
  intros Hg. unfold call_concrete_target. destruct (SWorld.is_vm_address to); [case_match; [apply ensures_err|by apply cheat_bounds]|].
  case_match; [by apply level_completed|]. apply ensures_then. intros input.
  eapply ensures_bind; [by apply good_mock_target|]. intros [mocked st1] H1. cbv zeta.
  eapply ensures_bind; [by apply good_observe|]. intros [allowed st2] H2. destruct allowed; [|by apply ensures_ret]. cbn [negb].
  assert (Hc : forall c st3, match k with KDelegateCall => (None, st2)
      | _ => let '(c, st) := prank_for_next_call st2 in (Some c, st) end = (c, st3) -> good st3).
  { intros c st3 E. destruct (prank_for_next_call st2) as [q st4] eqn:Ep. apply good_prank in Ep; [|done]. by destruct k; simplify_eq. }
  destruct (match k with KDelegateCall => _ | _ => _ end) as [context st3] eqn:Ec. specialize (Hc _ _ eq_refl).
  eapply (ensures_bind _ _ level_branch).
  - destruct k, context as [[[from fw] po]|]; try (by apply ensures_ret); by apply level_prepare.
  - intros [[can_pay st4] pushed] [H4 Hp]. destruct can_pay; [|by apply ensures_ret]. cbn [negb]. apply level_queued; [done|].
    by apply level_paid.
Qed.

(** *** Symbolic targets *)
Lemma good_split bs c next : Forall good bs -> Forall good next -> ensures (split_branches_on config bs c next) (Forall good).
Proof.
  intros Hb. revert next. induction Hb as [|b bs Hb Hbs IH]; intros next Hn; cbn [split_branches_on]; [by apply ensures_ret|].
  apply ensures_then. intros [mc ms]. apply ensures_then. intros [nc ns]. cbv zeta. case_match; [apply ensures_err|]. apply IH.
  apply Forall_app. split; [done|]. by destruct ms, ns; apply Forall_app; split; paths_tac.
Qed.
Lemma good_split_all bs cs : Forall good bs -> ensures (split_on_all config bs cs) (Forall good).
Proof.
  revert bs. induction cs as [|c cs IH]; intros bs Hb; cbn [split_on_all]; [by apply ensures_ret|].
  eapply ensures_bind; [by apply good_split|]. apply IH.
Qed.
Lemma good_split_matches bs a v g i out :
  Forall good bs -> Forall good out -> ensures (split_matches config bs a v g i out) (Forall good).
Proof.
  intros Hb. revert out. induction Hb as [|b bs Hb Hbs IH]; intros out Ho; cbn [split_matches]; [by apply ensures_ret|].
  apply ensures_then. intros cs. eapply ensures_bind; [apply good_split_all; paths_tac|]. intros ms Hm. case_match; [apply ensures_err|].
  by apply IH, Forall_app.
Qed.
Lemma good_split_candidates bs to v g i out :
  Forall good bs -> Forall good out -> ensures (split_candidates config bs to v g i out) (Forall good).
Proof.
  intros Hb. revert out. induction Hb as [|b bs Hb Hbs IH]; intros out Ho; cbn [split_candidates]; [by apply ensures_ret|].
  eapply ensures_bind; [by apply good_mock_target|]. intros [mocked b'] Hb'. cbv zeta. eapply (ensures_bind _ _ (Forall good)).
  - case_match; [apply ensures_ret; paths_tac|]. apply ensures_then. intros cs. apply good_split_all. paths_tac.
  - intros vs Hv. eapply ensures_bind; [by apply good_split_matches|]. apply IH.
Qed.

Lemma good_outside st cs k t v oo os : good st -> ensures (call_outside st cs k t v oo os) (Forall good).
Proof.
  intros Hg. unfold call_outside. cbv zeta. destruct (_ && _); [apply ensures_err|].
  destruct (prank_for_next_call _) as [[[from fw] po] b] eqn:E. apply good_prank in E; [|exact Hg].
  assert (Hpay : forall to b, good b -> ensures (let+ (can_pay, branch, parents) := prepare_value_transfer b from to v oo os in
      if negb can_pay then xret (parents ++ [branch])
      else let branch := set_world (SWorld.transfer from to v (world branch)) branch in
           let+ branch := complete (clear_return branch) oo os one in xret (parents ++ [branch])) (Forall good)).
  { intros to b' Hb'. eapply ensures_bind; [by apply level_prepare|]. intros [[can_pay b2] ps] [H2 Hp]. destruct can_pay; cbn [negb].
    - eapply ensures_bind; [apply good_complete, (good_world d K b2); [done|apply ro_transfer]|]. intros b3 H3. apply ensures_ret, Forall_app.
      by split; paths_tac.
    - apply ensures_ret, Forall_app. by split; paths_tac. }
  destruct k; try (by apply Hpay); try (eapply ensures_bind; [by apply good_complete|]; intros b3 H3; apply ensures_ret; paths_tac).
  destruct (SWorld.symbolic_address_slot t (world b)) as [a w] eqn:Ea. apply Hpay, (good_world d K b); [done|].
  pose proof (ro_alias t (world b)) as Hr. by rewrite Ea in Hr.
Qed.

Lemma good_branches call bs ps :
  (forall b, good b -> ensures (call b) level_step) -> Forall good bs -> Forall good ps ->
  ensures (call_branches call bs ps) (fun r => match r with inl ps => Forall good ps | inr _ => True end).
Proof.
  intros Hc Hb. revert ps. induction Hb as [|b bs Hb Hbs IH]; intros ps Hp; cbn [call_branches]; [by apply ensures_ret|].
  eapply ensures_bind; [by apply Hc|]. intros [[out b'] pushed] [H1 H2]. destruct out; try (by apply ensures_ret); apply IH; [|done].
  by apply Forall_app; split; [|apply Forall_cons_2].
Qed.

Lemma good_call_candidates st cs k t v g io ins oo os i ps :
  good st -> Forall good ps ->
  ensures (call_candidates config executor external st cs k t v g io ins oo os i ps)
    (fun r => match r with inl ps => Forall good ps | inr _ => True end).
Proof.
  intros Hg. revert ps. induction cs as [|to cs IH]; intros ps Hp; cbn [call_candidates]; [by apply ensures_ret|]. cbv zeta.
  apply ensures_then. intros []; cbn [negb]; [|by apply IH]. eapply (ensures_bind _ _ (Forall good)).
  - unfold split_symbolic_target_candidate. apply ensures_then. intros conds.
    eapply ensures_bind; [apply good_split_all; apply Forall_cons_2; [exact Hg|apply Forall_nil_2]|]. intros bs Hb. by apply good_split_candidates.
  - intros bs Hb. eapply ensures_bind; [apply good_branches; [|done|done]; intros b Hgb; by apply level_concrete|].
    intros [ps'|out] Hr; [by apply IH|by apply ensures_ret].
Qed.

Lemma level_symbolic_target st k t v g io ins oo os :
  good st -> ensures (call_symbolic_target config executor external st k t v g io ins oo os) level_step.
Proof.
  intros Hg. unfold call_symbolic_target. eapply ensures_bind; [apply ensures_result; intros r H; exact H|]. intros [ts w] Hw. cbv zeta.
  pose proof (good_world d K st w Hg (ro_call_targets _ _ _ _ Hw)) as Hg'. destruct (target_candidates ts) as [|a cs] eqn:Et; [apply ensures_err|].
  apply ensures_then. intros sat. destruct (_ && _); [apply ensures_err|]. eapply (ensures_bind _ _ (Forall good)).
  - destruct sat; [by apply good_outside|by apply ensures_ret].
  - intros ps Hp. apply ensures_then. intros input. eapply ensures_bind; [by apply good_call_candidates|].
    intros [ps'|out] Hr; apply ensures_ret; [by apply level_resume|done].
Qed.

(** *** The opcodes *)
Lemma level_known_target pre st n k to t v g io ins oo os i :
  good pre -> good st -> ensures (call_known_target config executor external pre st n k to t v g io ins oo os i) level_step.
Proof.
  intros Hpre Hg. unfold call_known_target. eapply ensures_bind.
  { unfold branch_symbolic_function_mock_if_needed. apply ensures_then. intros cs. by apply level_branch_on. }
  intros [[[] st1] pushed] [H1 Hp]; [by apply ensures_ret|]. eapply ensures_bind; [by apply good_mock_target|]. intros [mocked st2] H2. cbv zeta.
  eapply (ensures_bind _ _ level_branch).
  { case_match; [|by apply ensures_ret]. unfold branch_symbolic_call_value_if_needed. case_match; [by apply ensures_ret|].
    apply ensures_then. intros vs. by apply level_branch_values. }
  intros [[[] st3] pushed3] [H3 Hp3]; [by apply ensures_ret|]. eapply (ensures_bind _ _ level_branch).
  { case_match; [|by apply ensures_ret]. unfold branch_symbolic_call_match_if_needed. apply ensures_then. intros cs. by apply level_branch_on. }
  intros [[[] st4] pushed4] [H4 Hp4]; [by apply ensures_ret|by apply level_concrete].
Qed.

Lemma level_static_guard pre st n v k :
  good pre -> good st -> (forall st, good st -> ensures (k st) level_step) -> ensures (static_value_guard pre st n v k) level_step.
Proof.
  intros Hpre Hg Hk. unfold static_value_guard. cbv zeta. case_match; [case_match; [by apply Hk|by apply ensures_ret]|].
  apply ensures_then. intros [zc zs]. apply ensures_then. intros [nc ns]. destruct zs, ns; try (by apply ensures_ret).
  - apply ensures_ret. split; paths_tac.
  - by apply Hk.
Qed.

Lemma level_call_with pre st n k t ta v g io ins oo os :
  good pre -> good st -> ensures (call_with config executor external pre st n k t ta v g io ins oo os) level_step.
Proof.
  intros Hpre Hg. unfold call_with. cbv zeta. match goal with |- context [static_value_guard _ _ _ _ ?f] => set (go := f) end.
  assert (Hgo : forall st, good st -> ensures (go st) level_step).
  { intros st' Hg'. unfold go. apply ensures_then. intros input. case_match; [apply ensures_err|]. destruct ta; [by apply level_known_target|by apply level_symbolic_target]. }
  case_match; [by apply level_static_guard|by apply Hgo].
Qed.

Lemma good_gas_free st : good st -> ensures (pop_gas_free st) (fun '(_, st') => good st').
Proof.
  intros Hg. unfold pop_gas_free. eapply ensures_bind; [by apply good_pop|]. intros [v st'] H. apply ensures_then. intros _. by apply ensures_ret.
Qed.
Lemma good_call_value st k t : good st -> ensures (pop_call_value st k t) (fun '(_, st') => good st').
Proof.
  intros Hg. unfold pop_call_value. destruct k; try (by apply ensures_ret); [|by apply good_gas_free].
  eapply ensures_bind; [by apply good_pop|]. intros [v st'] H. do 2 (apply ensures_then; intros ?). by apply ensures_ret.
Qed.

(** The operands are behind the guards, whose queued paths may lie elsewhere. *)
Lemma good_sized_range st size reason k :
  (forall n, ensures (k n) (good_step d K)) -> ensures (sized_range config st size reason k) (good_step d K).
Proof. intros Hk. unfold sized_range. apply good_sized; intros; apply Hk. Qed.

Lemma good_call st k : good st -> ensures (call_op config executor external st k) (good_step d K).
Proof.
  intros Hg. unfold call_op. cbv zeta. do 4 (apply ensures_then; intros ?). apply good_guarded; [by apply good_range|]. intros st1 H1.
  apply good_guarded; [by apply good_range|]. intros st2 H2. eapply ensures_bind; [by apply good_pop|]. intros [gas st3] H3.
  case_match; [apply ensures_err|]. eapply ensures_bind; [by apply good_gas_free|]. intros [target st4] H4.
  eapply ensures_bind; [by apply good_call_value|]. intros [value st5] H5.
  do 2 (eapply ensures_bind; [eapply good_gas_free; eassumption|]; intros [? ?] ?). apply good_sized_range. intros [ins|]; [|by apply ensures_ret].
  do 2 (eapply ensures_bind; [eapply good_gas_free; eassumption|]; intros [? ?] ?). apply good_sized_range. intros [outs|]; [|by apply ensures_ret].
  eapply ensures_impl; [|apply level_good]. by apply level_call_with.
Qed.

(** *** Creates: a frame that may create may write *)
Section Create.
Hypothesis unrestricted : forall c, K c.

Lemma good_any st : depth st = d -> bounded st -> good st.
Proof. by apply free_good. Qed.

Lemma good_observe_create st a k r : good st -> ensures (observe_expected_create st a k r) good.
Proof.
  intros Hg. unfold observe_expected_create. destruct (expected_creates (calls st)) as [|e l]; [by apply ensures_ret|]. apply ensures_then.
  intros [bytes|]; [|apply ensures_err]. generalize 0%nat (@None (list SymBoolExpr)). generalize (e :: l).
  intros es. induction es as [|x es IH]; intros n mis; cbn [observe_create_from]; [apply ensures_ret; by destruct mis|].
  apply ensures_then. intros [c|]; [|apply IH]. apply ensures_then. intros [mc ms]. apply ensures_then. intros [nc ns].
  case_match; [|apply IH]. by apply ensures_ret, (good_calls (set_constraints mc st)).
Qed.

Lemma good_join_create st w a aw p k outs ps :
  good st -> Forall (fun o => settled K (call_state o)) outs -> Forall good ps ->
  ensures (join_create executor st w a aw p k outs ps) good_joins.
Proof.
  intros Hg Ho. revert ps. induction Ho as [|o outs Ho Hos IH]; intros ps Hp; cbn [join_create]; [by apply ensures_ret|]. cbv zeta.
  assert (Hk : forall q s, good q -> ensures (let+ q := push_on q s in join_create executor st w a aw p k outs (ps ++ [q])) good_joins).
  { intros q s Hq. eapply ensures_bind; [by apply good_push_on|]. intros q' Hq'. apply IH, Forall_app. split; paths_tac. }
  eapply ensures_bind; [apply ensures_result; intros r H; exact H|]. intros [o' rejected] Hr.
  assert (Ho' : settled K (call_state o')).
  { unfold check_runtime in Hr. by repeat case_match; simplify_eq. }
  eapply ensures_bind; [by apply good_join|]. intros [|q c|q c|q c|q|q] Hj; cbn [good_joined] in Hj.
  - by apply IH.
  - apply Hk, good_any; apply Hj.
  - eapply ensures_bind; [apply good_observe_create, good_any; apply Hj|]. intros q1 Hq1.
    eapply (ensures_bind _ _ good); [|intros q2 Hq2; by apply Hk]. unfold install_created. case_match; [by apply ensures_ret|].
    do 2 (apply ensures_then; intros ?). apply ensures_ret, good_any; apply Hq1.
  - apply Hk. destruct rejected; apply good_any; apply Hj.
  - apply Hk, good_any; apply Hj.
  - by apply ensures_ret.
Qed.

Lemma good_new_address st k salt code : good st -> ensures (new_address st k salt code) (fun '(_, _, st') => good st').
Proof.
  intros Hg. unfold new_address. destruct k, salt; try (apply ensures_then; intros ?; by apply ensures_ret); [|intros ex r ex' H; xstep H; done].
  intros ex [[word a] st'] ex' H. xstep H. unfold create2_address_word in H. apply obind_Ret in H as (bytes & _ & H).
  assert (Hs : forall id q, (let '(word, st) := symbolic_create2_address_word (address (frame st)) s id st in
      let '(a, w) := SWorld.symbolic_address_slot word (world st) in (word, a, set_world w st)) = q -> good q.2).
  { intros id q <-. unfold symbolic_create2_address_word. cbv beta iota zeta. match goal with |- context [SWorld.symbolic_address_slot ?a ?b] => destruct (SWorld.symbolic_address_slot a b) end. apply good_any; apply Hg. }
  destruct bytes as [bytes|]; [destruct (as_const s)|].
  - by simplify_eq.
  - injection H as H. by apply Hs in H.
  - apply obind_Ret in H as (exprs & _ & H). injection H as H. by apply Hs in H.
Qed.

Lemma level_create_with st k v o n salt : good st -> ensures (create_with config executor external st k v o n salt) level_step.
Proof.
  intros Hg. unfold create_with. cbv zeta. apply ensures_then. intros code. eapply ensures_bind; [by apply good_new_address|].
  intros [[word a] st1] H1. eapply (ensures_bind _ _ level_branch).
  { unfold prepare_create_value_transfer. case_match; [by apply ensures_ret|]. apply level_payment; [done|]. intros st' Hst.
    exact (good_push_on (clear_return st') zero Hst). }
  intros [[can_pay st2] pushed] [H2 Hp]. destruct can_pay; [|by apply ensures_ret]. cbn [negb]. apply level_queued; [done|].
  apply ensures_then. intros w1. apply ensures_then. intros [collision w2]. destruct collision.
  - eapply ensures_bind; [apply good_push_on, good_any; apply H2|]. intros st' Hst. by apply ensures_ret.
  - eapply ensures_bind; [apply external_ok; split; [|done]|].
    { unfold bounded. simpl. destruct Hg as (_ & Hb & _). unfold bounded in Hb. pose proof (zlen_nonneg (stack (frame st))). unfold zlen in *. simpl. lia. }
    intros outs Ho. destruct outs as [|x outs]; [by apply ensures_ret|].
    eapply ensures_bind; [by apply good_join_create|]. intros [ps|p] Hj; apply ensures_ret; [by apply level_resume|done].
Qed.
End Create.

Lemma good_create st k : good st -> ensures (create_op config executor external st k) (good_step d K).
Proof.
  intros Hg. unfold create_op. destruct (is_static (frame st)) eqn:Es; [by apply ensures_ret|]. pose proof (free_write d st Hg Es) as HK.
  do 2 (apply ensures_then; intros ?). apply good_guarded; [by apply good_range|]. intros st1 H1.
  do 3 (eapply ensures_bind; [eapply good_pop; eassumption|]; intros [? ?] ?). apply good_sized_range. intros [n|]; [|by apply ensures_ret].
  eapply (ensures_impl _ level_step); [|apply level_good]. destruct k; [by apply level_create_with|].
  eapply ensures_bind; [eapply good_pop; eassumption|]; intros [? ?] ?. by apply level_create_with.
Qed.
End Callee.

Lemma call_handlers_bounds external :
  (forall st code, settled K st -> ensures (external st code) (Forall (fun o => settled K (call_state o)))) ->
  CallBounds (CH := call_handlers config executor external) K.
Proof.
  intros He d st op Hg. change (ensures (call_or_create_op config executor external st op) (good_step d K)).
  unfold call_or_create_op. repeat case_match; try apply ensures_err; by (apply good_call || apply good_create).
Qed.

(** *** The paths of a nested call *)
Lemma settled_next paths st l :
  SRun.pop_next_path config paths = Some (st, l) -> Forall (settled K) paths -> settled K st /\ Forall (settled K) l.
Proof. intros [H1 H2]%next_path_elem Hp. rewrite Forall_forall in Hp. split; [by apply Hp|]. apply Forall_forall. auto. Qed.

Lemma settled_feasible n paths deferred mode :
  Forall (settled K) paths -> Forall (settled K) deferred ->
  ensures (SRun.pop_feasible config n paths deferred mode)
    (fun '(o, ps, ds) => (forall st, o = Some st -> settled K st) /\ Forall (settled K) ps /\ Forall (settled K) ds).
Proof.
  revert paths deferred. induction n as [|n IH]; intros paths deferred Hp Hd; cbn [SRun.pop_feasible]; [by apply ensures_ret|].
  destruct (SRun.pop_next_path config paths) as [[st l]|] eqn:E; [|by apply ensures_ret]. apply settled_next in E as [Hs Hl]; [|done]. cbv zeta.
  assert (Hf : ensures (xret (Some (set_feasibility_check false st), l, deferred)) (fun '(o, ps, ds) =>
      (forall st, o = Some st -> settled K st) /\ Forall (settled K) ps /\ Forall (settled K) ds)).
  { apply ensures_ret. split; [|done]. intros st' [= <-]. exact Hs. }
  destruct (needs_feasibility_check st); [|exact Hf]. apply ensures_then. intros [[]|e]; [exact Hf|by apply IH| |].
  - destruct mode; try (by apply IH, Forall_app; [|split; [|apply Forall_cons_2]]). apply ensures_then. intros _. by apply IH.
  - destruct e; try apply ensures_err. apply ensures_then. intros _. by apply IH.
Qed.

Lemma settled_deferred n paths :
  Forall (settled K) paths ->
  ensures (SRun.pop_deferred config n paths) (fun '(o, ps) => (forall st, o = Some st -> settled K st) /\ Forall (settled K) ps).
Proof.
  revert paths. induction n as [|n IH]; intros paths Hp; cbn [SRun.pop_deferred]; [by apply ensures_ret|].
  destruct (SRun.pop_next_path config paths) as [[st l]|] eqn:E; [|by apply ensures_ret]. apply settled_next in E as [Hs Hl]; [|done].
  do 2 (apply ensures_then; intros ?). apply ensures_then. intros [[]|e]; [|by apply IH|].
  - apply ensures_ret. split; [|done]. by intros st' [= <-].
  - destruct e; try apply ensures_err. apply ensures_then. intros _. by apply IH.
Qed.

Lemma settled_pop paths deferred mode :
  Forall (settled K) paths -> Forall (settled K) deferred ->
  ensures (SRun.pop_next_feasible_path config paths deferred mode)
    (fun '(o, ps, ds) => (forall st b, o = Some (st, b) -> settled K st) /\ Forall (settled K) ps /\ Forall (settled K) ds).
Proof.
  intros Hp Hd. unfold SRun.pop_next_feasible_path. eapply ensures_bind; [by apply settled_feasible|]. intros [[o ps] ds] (H1 & H2 & H3).
  destruct o as [st|]; [apply ensures_ret; split; [intros ? ? [= <- <-]; by apply H1|done]|].
  eapply ensures_bind; [by apply settled_deferred|]. intros [o ds'] [H4 H5]. apply ensures_ret. split; [|done].
  intros st b Ho. destruct o as [st'|]; [|done]. simpl in Ho. simplify_eq. by apply H4.
Qed.

Section Batch.
Context {HD : Handlers} {HB : HandlerBounds K}.
Variable code : @SymCode JumpTable.
Abbreviation ends := (Forall (fun o : CallOutcome => settled K (call_state o))).

Lemma settled_finish s st os : settled K st -> ends os -> ensures (finish_path config s st os) ends.
Proof.
  intros Hs Ho. unfold finish_path. apply ensures_then. intros n. case_match; [apply ensures_err|]. apply ensures_then. intros _.
  apply ensures_ret, Forall_app. split; [done|]. by apply Forall_cons_2.
Qed.

Lemma settled_fetch d kind st os :
  good d K st -> ends os -> ensures (fetch_call_opcode config code kind st os) (fun '(_, st', os') => good d K st' /\ ends os').
Proof.
  intros Hg Ho. unfold fetch_call_opcode. destruct kind; do 2 (apply ensures_then; intros ?); [|by apply ensures_ret].
  case_match; try (by apply ensures_ret). cbv zeta. do 2 (apply ensures_then; intros ?).
  eapply (ensures_bind _ _ ends); [case_match; [apply settled_finish; [apply Hg|done]|by apply ensures_ret]|].
  intros os' Hos. apply ensures_ret. destruct a1; by split.
Qed.

Lemma settled_path fuel kind st w os :
  settled K st -> Forall (settled K) w -> ends os ->
  ensures (run_call_path config executor code fuel kind st w os) (fun '(w', os') => Forall (settled K) w' /\ ends os').
Proof.
  revert st w os. induction fuel as [|fuel IH]; intros st w os Hs Hw Ho; cbn [run_call_path]; [by intros ex r ex' H|]. apply ensures_then. intros _.
  case_match; [apply ensures_err|]. cbv zeta. eapply ensures_bind; [by apply (settled_fetch (depth st + 1))|].
  assert (He : forall s st w os, settled K st -> Forall (settled K) w -> ends os ->
    ensures (let+ os := finish_path config s st os in xret (w, os)) (fun '(w', os') => Forall (settled K) w' /\ ends os')).
  { intros. eapply ensures_bind; [by apply settled_finish|]. intros. by apply ensures_ret. }
  intros [[[] st1] os1] [Hg1 Ho1]; [|apply He; [apply Hg1|done|done]|by apply ensures_ret].
  eapply ensures_bind; [apply (good_step_step _ _ _ _ _ _ Hg1)|]. intros [[out st2] pushed] [[_ Hs2] Hp].
  assert (Hw' : Forall (settled K) (w ++ pushed)) by (by apply Forall_app). destruct out; try (by apply He); try (by apply ensures_ret). by apply IH.
Qed.

Lemma settled_batch fuel kind w ds os b :
  Forall (settled K) w -> Forall (settled K) ds -> ends os ->
  ensures (execute_call_path_batch config executor code fuel kind w ds os b) (fun '(os', _, _) => ends os').
Proof.
  revert w ds os b. induction fuel as [|fuel IH]; intros w ds os b Hw Hd Ho; cbn [execute_call_path_batch]; [by intros ex r ex' H|].
  apply ensures_then. intros nested. destruct (negb _ && _); [by apply ensures_ret|]. destruct (is_external kind && _ && _); [apply ensures_then; intros _; by apply ensures_ret|].
  cbv zeta. eapply ensures_bind; [by apply settled_pop|]. intros [[found w'] ds'] (Hf & Hw' & Hd'). destruct found as [[st fd]|]; [|by apply ensures_ret].
  specialize (Hf _ _ eq_refl). apply ensures_then. intros n. destruct (path_width config <=? n); [apply ensures_err|]. destruct (pending_storage_hook_revert st).
  - apply ensures_then. intros _. apply IH; [done|done|]. apply Forall_app. split; [done|]. by apply Forall_cons_2.
  - eapply ensures_bind; [by apply settled_path|]. intros [w2 os2] [H1 H2]. by apply IH.
Qed.
End Batch.

(** *** The knot *)
Lemma external_call_settled fuel st code :
  settled K st -> ensures (external_call config executor fuel st code) (Forall (fun o => settled K (call_state o))).
Proof.
  revert st code. induction fuel as [|fuel IH]; intros st code Hs; cbn [external_call]; [by intros ex r ex' H|].
  pose proof (call_handlers_bounds (external_call config executor fuel) IH). cbv zeta.
  eapply ensures_bind; [apply (settled_batch (HB := account_bounds_instance config executor) code fuel PathExternal [st] [] []); by repeat apply Forall_cons_2|].
  intros [[os w] ds] Ho. by apply ensures_ret.
Qed.

#[export] Instance full_bounds fuel : HandlerBounds (HD := full_handlers config executor fuel) K.
Proof.
  pose proof (call_handlers_bounds (external_call config executor fuel) (external_call_settled fuel)).
  exact (account_bounds_instance config executor).
Qed.
End Level.
