(* ===== verification/SymCallFuel.v ===== *)
(** * SymCallFuel: the fuel of calls

    [external_call] has fuel for the depth of calls and for the paths of one
    call.  More fuel never changes a result ([external_extends]), so the fuel
    only bounds what is computed; and the loop over the steps of one path ends
    at the depth limit ([run_call_path_enough]). *)

From Stdlib Require Import ZArith Lia Bool.
From stdpp Require Import base list option gmap sets strings.
From S2P Require Import Prelude SymWord SymExpr SymSimpl SymSound SymCmp SymBytes SymSeq SymStorage SymMem SymPath SymWorld SymPrecompile SymLog SymExpect SymExec SymEvm SymSim SymExplore SymAccount SymCall SymBounds.
Local Open Scope Z_scope.
Local Open Scope exec_scope.

(** ** Computations that return more often *)
Section Extends.
Context `{SE : SolverEnv}.

(** [c'] returns what [c] returns, and may return where [c] does not. *)
Definition extends {A} (c c' : ExecM A) : Prop := forall ex r, c ex = Ret r -> c' ex = Ret r.

Lemma extends_refl {A} (c : ExecM A) : extends c c.
Proof. by intros ex r. Qed.
Lemma extends_bind {A B} (c c' : ExecM A) (k k' : A -> ExecM B) :
  extends c c' -> (forall a, extends (k a) (k' a)) -> extends (xbind c k) (xbind c' k').
Proof.
  intros Hc Hk ex r H. unfold xbind in *. destruct (c ex) as [[[a|e] ex1]|] eqn:E; [| |done].
  - rewrite (Hc _ _ E). by apply Hk.
  - by rewrite (Hc _ _ E).
Qed.
Lemma extends_then {A B} (c : ExecM A) (k k' : A -> ExecM B) : (forall a, extends (k a) (k' a)) -> extends (xbind c k) (xbind c k').
Proof. apply extends_bind, extends_refl. Qed.
End Extends.

Create HintDb extends.

(** Walks through two computations with the same shape. *)
Ltac extends_tac :=
  repeat first
    [ progress cbv beta iota zeta
    | match goal with |- extends ?c ?c => exact (extends_refl c) end
    | solve [eauto 2 with extends nocore]
    | match goal with
      | |- extends (xbind ?c _) (xbind ?c _) => apply extends_then; intros ?
      | |- extends (xbind _ _) (xbind _ _) => apply extends_bind; [|intros ?]
      | |- extends (match ?x with _ => _ end) (match ?x with _ => _ end) => destruct x eqn:?
      | |- forall _, _ => intros ?
      end ].

(** ** Calls *)
Section Calls.
Context `{SA : SignedArith, HF : HashFns, P : Parts, SE : SolverEnv} {BE : ChainBackend} {PC : Precompiles} {CP : CallParts}.
Variable config : SymbolicConfig.
Variable executor : ExecutorEnv.
Import SExec SCall.

Lemma extends_guarded g k k' : (forall st, extends (k st) (k' st)) -> extends (guarded g k) (guarded g k').
Proof. intros Hk. unfold guarded. extends_tac; try done. Qed.
Lemma extends_sized {A} st size top reason (e e' : Z -> ExecM A) t t' b b' :
  (forall n, extends (e n) (e' n)) -> extends t t' -> (forall n, extends (b n) (b' n)) ->
  extends (sized_operand st size top reason e t b) (sized_operand st size top reason e' t' b').
Proof. intros He Ht Hb. unfold sized_operand. extends_tac; done. Qed.

Section Callee.
Variables external external' : PathState -> @SymCode JumpTable -> ExecM (list CallOutcome).
Hypothesis callee_extends : forall st code, extends (external st code) (external' st code).
Hint Resolve callee_extends : extends.

Lemma extends_call_code st k t f fw po tw v data code oo os :
  extends (call_code config external st k t f fw po tw v data code oo os) (call_code config external' st k t f fw po tw v data code oo os).
Proof. unfold call_code. extends_tac. Qed.
Hint Resolve extends_call_code : extends.
Lemma extends_paid st k t c tw v a io ins oo os i :
  extends (call_paid config executor external st k t c tw v a io ins oo os i)
    (call_paid config executor external' st k t c tw v a io ins oo os i).
Proof. unfold call_paid, call_account. extends_tac. Qed.
Hint Resolve extends_paid : extends.
Lemma extends_queued p c c' : extends c c' -> extends (queued p c) (queued p c').
Proof. intros Hc. unfold queued. extends_tac. Qed.
Lemma extends_concrete st k t tw v g io ins oo os :
  extends (call_concrete_target config executor external st k t tw v g io ins oo os)
    (call_concrete_target config executor external' st k t tw v g io ins oo os).
Proof. unfold call_concrete_target. extends_tac; apply extends_queued; extends_tac. Qed.
Hint Resolve extends_concrete : extends.

Lemma extends_branches call call' bs ps :
  (forall b, extends (call b) (call' b)) -> extends (call_branches call bs ps) (call_branches call' bs ps).
Proof. intros Hc. revert ps. induction bs as [|b bs IH]; intros ps; cbn [call_branches]; extends_tac; try done; try apply IH. Qed.
Lemma extends_candidates st cs k t v g io ins oo os i ps :
  extends (call_candidates config executor external st cs k t v g io ins oo os i ps)
    (call_candidates config executor external' st cs k t v g io ins oo os i ps).
Proof.
  revert ps. induction cs as [|c cs IH]; intros ps; cbn [call_candidates]; extends_tac; try apply IH.
  apply extends_branches. extends_tac.
Qed.
Hint Resolve extends_candidates : extends.
Lemma extends_symbolic st k t v g io ins oo os :
  extends (call_symbolic_target config executor external st k t v g io ins oo os)
    (call_symbolic_target config executor external' st k t v g io ins oo os).
Proof. unfold call_symbolic_target. extends_tac. Qed.
Lemma extends_known pre st n k to t v g io ins oo os i :
  extends (call_known_target config executor external pre st n k to t v g io ins oo os i)
    (call_known_target config executor external' pre st n k to t v g io ins oo os i).
Proof. unfold call_known_target. extends_tac. Qed.
Hint Resolve extends_symbolic extends_known : extends.
Lemma extends_static pre st n v k k' :
  (forall st, extends (k st) (k' st)) -> extends (static_value_guard pre st n v k) (static_value_guard pre st n v k').
Proof. intros Hk. unfold static_value_guard. extends_tac; done. Qed.
Lemma extends_call_with pre st n k t ta v g io ins oo os :
  extends (call_with config executor external pre st n k t ta v g io ins oo os)
    (call_with config executor external' pre st n k t ta v g io ins oo os).
Proof. unfold call_with. extends_tac. apply extends_static. extends_tac. Qed.
Hint Resolve extends_call_with : extends.
Lemma extends_range st size reason k k' :
  (forall n, extends (k n) (k' n)) -> extends (sized_range config st size reason k) (sized_range config st size reason k').
Proof. intros Hk. unfold sized_range. by apply extends_sized. Qed.
Lemma extends_call st k : extends (call_op config executor external st k) (call_op config executor external' st k).
Proof.
  unfold call_op. extends_tac. apply extends_guarded. extends_tac. apply extends_guarded. extends_tac.
  apply extends_range. extends_tac. apply extends_range. extends_tac.
Qed.
Lemma extends_create_with st k v o n salt :
  extends (create_with config executor external st k v o n salt) (create_with config executor external' st k v o n salt).
Proof. unfold create_with. extends_tac. apply extends_queued. extends_tac. Qed.
Hint Resolve extends_create_with : extends.
Lemma extends_create st k : extends (create_op config executor external st k) (create_op config executor external' st k).
Proof. unfold create_op. extends_tac. apply extends_guarded. extends_tac. apply extends_range. extends_tac. Qed.
Hint Resolve extends_call extends_create : extends.

(** The account opcodes run callees for hooks as well. *)
Abbreviation account_op CH := (SAccount.account_op (CH := CH) config executor).
Lemma extends_hook st hook cd :
  extends (SAccount.invoke_storage_hook (CH := call_handlers config executor external) config executor st hook cd)
    (SAccount.invoke_storage_hook (CH := call_handlers config executor external') config executor st hook cd).
Proof. unfold SAccount.invoke_storage_hook. extends_tac. Qed.
Hint Resolve extends_hook : extends.
Lemma extends_store st h m :
  extends (SAccount.store_slot (CH := call_handlers config executor external) config executor st h m)
    (SAccount.store_slot (CH := call_handlers config executor external') config executor st h m).
Proof. unfold SAccount.store_slot. extends_tac. Qed.
Hint Resolve extends_store : extends.
Lemma extends_account st op :
  extends (account_op (call_handlers config executor external) st op) (account_op (call_handlers config executor external') st op).
Proof.
  unfold SAccount.account_op. destruct (_ && _); [apply extends_refl|].
  assert (Hc : extends (call_or_create_op config executor external st op) (call_or_create_op config executor external' st op))
    by (unfold call_or_create_op; extends_tac).
  assert (Hl : extends (SAccount.sload_op (CH := call_handlers config executor external) config executor st)
                 (SAccount.sload_op (CH := call_handlers config executor external') config executor st))
    by (unfold SAccount.sload_op; extends_tac).
  assert (Hs : extends (SAccount.sstore_op (CH := call_handlers config executor external) config executor st)
                 (SAccount.sstore_op (CH := call_handlers config executor external') config executor st))
    by (unfold SAccount.sstore_op; extends_tac).
  repeat match goal with
    | |- extends ?c ?c => exact (extends_refl c)
    | |- extends (call_or_create _ _) _ => exact Hc
    | |- extends (SAccount.sload_op _ _ _) _ => exact Hl
    | |- extends (SAccount.sstore_op _ _ _) _ => exact Hs
    | |- extends (match ?x with _ => _ end) _ => destruct x
    end.
Qed.
End Callee.

(** The step function only meets the handlers at the opcodes of accounts. *)
Section Steps.
Variables HD HD' : Handlers.
Hypothesis handlers_extend : forall st op, extends (account_op (Handlers := HD) st op) (account_op (Handlers := HD') st op).
Variable code : @SymCode JumpTable.

Lemma extends_step st op :
  extends (SStep.step (HD := HD) config executor code st op) (SStep.step (HD := HD') config executor code st op).
Proof.
  unfold SStep.step. cbv zeta. case_match; [apply extends_refl|]. unfold SStep.dispatch. destruct (decode op); try apply extends_refl.
  apply handlers_extend.
Qed.
Hint Resolve extends_step : extends.

Lemma extends_path n m kind st w os :
  (n <= m)%nat ->
  extends (run_call_path (HD := HD) config executor code n kind st w os) (run_call_path (HD := HD') config executor code m kind st w os).
Proof.
  revert m st w os. induction n as [|n IH]; intros m st w os Hnm; [by intros ex r H|]. destruct m as [|m]; [lia|]. cbn [run_call_path].
  extends_tac. apply IH. lia.
Qed.

Lemma extends_batch n m kind w ds os b :
  (n <= m)%nat ->
  extends (execute_call_path_batch (HD := HD) config executor code n kind w ds os b)
    (execute_call_path_batch (HD := HD') config executor code m kind w ds os b).
Proof.
  revert m w ds os b. induction n as [|n IH]; intros m w ds os b Hnm; [by intros ex r H|]. destruct m as [|m]; [lia|].
  cbn [execute_call_path_batch]. extends_tac; try (apply IH; lia). by apply extends_path.
Qed.
End Steps.

(** ** The knot: more fuel, the same results *)
Lemma external_extends n m st code : (n <= m)%nat -> extends (external_call config executor n st code) (external_call config executor m st code).
Proof.
  revert m st code. induction n as [|n IH]; intros m st code Hnm; [by intros ex r H|]. destruct m as [|m]; [lia|]. cbn [external_call]. cbv zeta.
  apply extends_bind; [|intros [[os w] ds]; apply extends_refl]. apply extends_batch; [|lia]. intros st' op.
  apply extends_account. intros. apply IH. lia.
Qed.

Lemma full_step_extends n m code st op : (n <= m)%nat -> extends (full_step config executor n code st op) (full_step config executor m code st op).
Proof. intros Hnm. apply extends_step. intros st' op'. apply extends_account. intros. by apply external_extends. Qed.

(** ** The loop of one path ends at the depth limit *)
Section Depth.
Context {HD : Handlers} {HB : HandlerBounds anywhere}.
Variable code : @SymCode JumpTable.

Lemma xbind_eq {A B} (c : ExecM A) (k k' : A -> ExecM B) ex Q :
  ensures c Q -> (forall a ex', Q a -> k a ex' = k' a ex') -> xbind c k ex = xbind c k' ex.
Proof. intros Hc Hk. unfold xbind. destruct (c ex) as [[[a|e] ex']|] eqn:E; [|done|done]. by eapply Hk, Hc. Qed.

(** As many rounds as are left to the depth limit are enough: another fuel
    gives the same result. *)
Lemma path_fuel_irrelevant n m kind st w os ex :
  settled anywhere st -> (Z.to_nat (execution_depth config - depth st) < n)%nat -> (Z.to_nat (execution_depth config - depth st) < m)%nat ->
  run_call_path config executor code n kind st w os ex = run_call_path config executor code m kind st w os ex.
Proof.
  revert m st w os ex. induction n as [|n IH]; intros m st w os ex Hs Hn Hm; [lia|]. destruct m as [|m]; [lia|]. cbn [run_call_path].
  apply (xbind_eq _ _ _ _ (fun _ => True)); [done|]. intros _ ex1 _. destruct (Z.leb_spec (execution_depth config) (depth st)); [done|]. cbv zeta.
  apply (xbind_eq _ _ _ _ (fun '(_, st', _) => good (depth st + 1) anywhere st')).
  - unfold fetch_call_opcode. assert (Hg : good (depth st + 1) anywhere (set_depth (depth st + 1) st)) by (by split).
    destruct kind; do 2 (apply ensures_then; intros ?); [|by apply ensures_ret]. case_match; try (by apply ensures_ret). cbv zeta.
    do 3 (apply ensures_then; intros ?). apply ensures_ret. destruct a1; exact Hg.
  - intros [[[op| |] st1] os1] ex2 H1; [|done|done]. eapply xbind_eq; [apply (good_step_step _ _ _ _ _ _ H1)|].
    intros [[out st2] pushed] ex3 [[Hd Hs2] _]. destruct out; try done. apply IH; [done|lia|lia].
Qed.
End Depth.
End Calls.
