(* ===== verification/SymProps.v ===== *)
(** * SymProps: what the symbolic expression library guarantees

    The claims about the simplifying constructors, the queries on path
    conditions and the byte operations, each stated against the reference
    semantics, with witnesses.  The witnesses instantiate the external parts:
    [evm_signed] is two's complement arithmetic as the EVM specifies it and
    [toy_hash] some hash. *)

From Stdlib Require Import ZArith Lia Bool.
From stdpp Require Import base list option sets.
From S2P Require Import Prelude SymWord SymExpr SymSimpl SymSound SymCmp SymBytes.
Local Open Scope Z_scope.

(** ** The external parts, for the witnesses *)
Definition evm_signed : SignedArith := {|
  i256_div := fun a b => if is_zero b then ZERO else U (Z.quot (signed a) (signed b));
  i256_mod := fun a b => if is_zero b then ZERO else U (Z.rem (signed a) (signed b));
  i256_cmp := fun a b => Z.compare (signed a) (signed b) |}.

Lemma U_signed a : U (signed a) = a.
Proof.
  unfold signed. destruct (uval a <? 2 ^ 255); [apply U_uval|]. rewrite <- (U_uval a) at 2. apply uval_inj.
  rewrite !uval_U. rewrite <- (Z_mod_plus_full (uval a - word_modulus) 1). f_equal. lia.
Qed.

Lemma evm_signed_laws : @SignedArithLaws evm_signed.
Proof.
  split; intros a; try reflexivity.
  - change (U (Z.quot (signed a) 1) = a). rewrite Z.quot_1_r. apply U_signed.
  - change (U (Z.rem (signed a) 1) = ZERO). by rewrite Z.rem_1_r.
  - apply Z.compare_refl.
Qed.

Definition toy_hash : HashFns := {|
  keccak256 := fun bs => U (Z.of_nat (length bs));
  stable_hash := fun e => Z.of_nat (esize e) |}.

(** A model of two variables. *)
Definition x_sym : Symbol := 1%positive.
Definition y_sym : Symbol := 2%positive.
Definition sample_model : SymbolicModel := fun s => if Pos.eqb s x_sym then Some (U 300) else Some (U 7).
Definition vx : SymExpr := EVar x_sym.
Definition vy : SymExpr := EVar y_sym.

Section Claims.
Context `{SA : SignedArith, HF : HashFns}.
Variable model : SymbolicModel.

(** ** Constructors *)
(** C9: the simplifying constructor of binary operators is sound: whenever
    the plain node has a value under a model, the simplified expression has
    the same value, for all thirteen operators and every rewrite. *)
Theorem binop_sound {SL : SignedArithLaws} op l r v :
  denote_word model (EBinOp op l r) = Some v -> denote_word model (binop op l r) = Some v.
Proof. exact (binop_refines model op l r v). Qed.

(** C11: comparisons: every rewrite of [cmp] keeps the truth value, unless it is
    an equality with a hash on both sides (which is decided by the preimages). *)
Theorem cmp_sound {SL : SignedArithLaws} op l r b :
  (op = Eq -> no_hash_leaf l || no_hash_leaf r = true) ->
  denote_bool model (BCmp op l r) = Some b -> denote_bool model (cmp op l r) = Some b.
Proof. intros Hn. by apply cmp_refines_order. Qed.

(** C35: so are the other constructors: [ADDMOD] and [MULMOD], if-then-else
    (dropped and merged arms), complement, and conjunction and disjunction with
    flattening, complementary pairs and de Morgan's form. *)
Theorem constructors_sound {SL : SignedArithLaws} op l r m c t e v vs b :
  (denote_word model (ETernOp op l r m) = Some v -> denote_word model (ternop op l r m) = Some v) /\
  (denote_word model (EIte c t e) = Some v -> denote_word model (ite c t e) = Some v) /\
  (denote_word model e = Some v -> denote_word model (sym_not e) = Some (u_not v)) /\
  (denote_all model vs = Some b -> denote_bool model (SBool.and vs) = Some b) /\
  (denote_any model vs = Some b -> denote_bool model (SBool.or vs) = Some b).
Proof. split_and!; [exact (ternop_refines model op l r m v)|apply ite_sound|apply den_not|apply den_and|apply den_or]. Qed.

(** ** Analyses *)
(** The width and byte analyses are sound: the value of an expression
    fits into the number of bits that [unsigned_bits] computes, which is at most
    256, and a byte that [known_byte] reports is the byte of the value. *)
Theorem unsigned_bits_sound e v :
  0 <= unsigned_bits e <= 256 /\ (denote_word model e = Some v -> uval v < 2 ^ unsigned_bits e) /\
  (forall index b, 0 <= index <= 31 -> known_byte e index = Some b -> denote_word model e = Some v -> b = be_byte v index).
Proof.
  destruct (unsigned_bits_ok model e) as [H1 H2]. split_and!; [apply H1|apply H1|auto|].
  intros index b. apply known_byte_sound.
Qed.

(** The difference that [constant_difference] finds is the difference of
    the values, whatever the depth and the sharing of the two expressions. *)
Theorem constant_difference_sound x y d a b :
  constant_difference x y = Some d -> denote_word model x = Some a -> denote_word model y = Some b ->
  wrapping_sub a b = d.
Proof. intros H. by apply (difference_sound model). Qed.

(** ** Bytes *)
(** A list of byte expressions whose constants are bytes assembles
    without a panic, and the word has the low bytes of the first 32 of them,
    in big-endian order, and zeros after them. *)
Theorem from_bytes_roundtrip {SL : SignedArithLaws} bytes vs :
  byte_constants bytes = true -> Forall2 (fun b v => denote_word model b = Some v) bytes vs ->
  exists e w, from_bytes bytes = Ret e /\ denote_word model e = Some w /\
    forall i, (i < 32)%nat -> be_byte w (Z.of_nat i) = nth_byte vs i.
Proof.
  intros Hb Hd. destruct (from_bytes_total bytes Hb) as [e He].
  destruct (from_bytes_sound model bytes vs e He Hd) as (w & Hw & Hi). eauto 6.
Qed.

(** The condition that an expression is a given address: for expressions
    without complements, whose leaves have values, it is built without a
    panic; when every byte has a term it says that the low 20 bytes are those
    of the address, otherwise that the words are equal. *)
Theorem address_match_correct {SL : SignedArithLaws} e address v :
  no_complement e = true -> leaves_defined model e = true -> denote_word model e = Some v ->
  exists c, address_match_condition e address = Ret c /\
    denote_bool model c = Some (if matches_bytes e then low_bytes_match v address else u_eqb v address).
Proof. exact (address_match_sound model e address v). Qed.

(** [byte_term] of a complement is the complement of a whole word, not of
    a byte; a condition built from such terms is false for every address, also
    for the one that the expression is equal to. *)
Theorem address_match_of_complement {SL : SignedArithLaws} x address c v :
  no_complement x = true -> denote_word model x = Some v ->
  address_match_condition (ENot x) address = Ret c ->
  (exists ts, collect_byte_terms (ENot x) address_indices = Ret (Some ts)) ->
  denote_bool model c = Some false.
Proof. exact (complement_address_match model x address c v). Qed.

(** [low_byte] is the low byte of the value, and it panics exactly on a
    constant above 255. *)
Theorem low_byte_behaviour {SL : SignedArithLaws} e :
  (forall t v, low_byte e = Ret t -> denote_word model e = Some v -> denote_word model t = Some (U (low_byte_of v))) /\
  (low_byte e = Panic <-> exists c, e = EConst c /\ 256 <= uval c).
Proof. split; [intros t v; exact (low_byte_sound model e t v)|apply low_byte_Panic]. Qed.

(** ** Termination *)
(** The recursive constructors satisfy the recursion of the source: the
    fuel of equality, xor and differences does not cut anything off; and the
    worklist loops (widths, bitwise leaves, condition nodes) end, on every
    expression and from every memo table. *)
Theorem recursion_is_complete l r st n e c w remaining :
  sym_eq l r = eq_body sym_eq l r /\
  binop_add_fuel (S (S n)) l r = binop_add l r /\
  ((esize l + esize r <= n)%nat -> binop_xor_fuel n l r = binop_xor l r /\
     difference_fuel n l r st = difference_fuel (esize l + esize r) l r st) /\
  is_Some (unsigned_bits_cached e w remaining) /\
  is_Some (iterate bitwise_step bitwise_fuel
    {| bs_pending := [e]; bs_seen := []; bs_leaves := []; bs_widths := [];
       bs_remaining := MAX_BITWISE_BOOL_WORD_VISITS |}) /\
  is_Some (iterate condition_step condition_fuel ([c], 0)).
Proof.
  split_and!; [apply sym_eq_unfold|apply add_fuel_stable| |apply unsigned_bits_cached_total|apply bitwise_terminates
    |apply condition_nodes_total]. intros Hn. split; [by apply xor_fuel_stable|by apply difference_fuel_stable].
Qed.
End Claims.

(** ** Witnesses *)
#[local] Existing Instance evm_signed.
#[local] Existing Instance evm_signed_laws.
#[local] Existing Instance toy_hash.
(** Two words are equal when their values are. *)
Ltac by_word := f_equal; try (apply uval_inj; vm_compute; reflexivity).

Abbreviation dw := (denote_word sample_model).
Abbreviation db := (denote_bool sample_model).

Lemma binop_sound_witness :
  dw (binop Add (EBinOp Add vx (EConst (U 5))) (EConst (U 6))) = Some (U 311).
Proof.
  apply (binop_sound sample_model Add (EBinOp Add vx (EConst (U 5))) (EConst (U 6)) (U 311)).
  cbn [denote_word vx]. by_word.
Defined.

Lemma constructors_sound_witness : dw (ternop AddMod vx vy (EConst (U 8))) = Some (U 3).
Proof.
  apply (constructors_sound sample_model AddMod vx vy (EConst (U 8)) (BConst true) vx vx (U 3) [] true).
  cbn [denote_word vx vy]. by_word.
Defined.

Lemma cmp_sound_witness : db (cmp Eq (EBinOp Xor vx vy) zero) = Some false.
Proof.
  apply (cmp_sound sample_model Eq (EBinOp Xor vx vy) zero false); [reflexivity|].
  cbn [denote_bool denote_word vx vy]. vm_compute. reflexivity.
Defined.

Lemma constant_difference_sound_witness : wrapping_sub (U 305) (U 302) = U 3.
Proof.
  apply (constant_difference_sound sample_model (EBinOp Add vx (EConst (U 5))) (EBinOp Add vx (EConst (U 2))) (U 3)).
  - assert (E : option_map uval (constant_difference (EBinOp Add vx (EConst (U 5))) (EBinOp Add vx (EConst (U 2)))) = Some 3)
      by (vm_compute; reflexivity).
    destruct (constant_difference _ _) as [d|]; [|discriminate E]. injection E as E. f_equal. apply uval_inj. exact E.
  - cbn [denote_word vx]. by_word.
  - cbn [denote_word vx]. by_word.
Defined.

Lemma from_bytes_roundtrip_witness :
  exists e w, from_bytes [vx; vy] = Ret e /\ dw e = Some w /\ be_byte w 0 = 44 /\ be_byte w 1 = 7.
Proof.
  destruct (from_bytes_roundtrip sample_model [vx; vy] [U 300; U 7]) as (e & w & E & Hw & Hb);
    [reflexivity|repeat constructor|].
  exists e, w. split; [exact E|]. split; [exact Hw|]. split; [apply (Hb 0%nat); lia|apply (Hb 1%nat); lia].
Defined.

Lemma address_match_correct_witness :
  exists c, address_match_condition (EBinOp And vx (EConst (U 255))) (U 44) = Ret c /\ db c = Some true.
Proof.
  destruct (address_match_correct sample_model (EBinOp And vx (EConst (U 255))) (U 44) (U 44)) as (c & E & Hc);
    [reflexivity|reflexivity|cbn [denote_word vx]; by_word|].
  exists c. split; [exact E|]. etransitivity; [exact Hc|vm_compute; reflexivity].
Defined.

(** The complement of [~44] is [44], but the condition says it is not. *)
Definition not_44 : SymbolicModel := fun _ => Some (U (word_modulus - 1 - 44)).

Lemma address_match_of_complement_witness :
  exists c, address_match_condition (ENot vx) (U 44) = Ret c /\
    option_map uval (denote_word not_44 (ENot vx)) = Some 44 /\ denote_bool not_44 c = Some false.
Proof.
  assert (E : exists c, address_match_condition (ENot vx) (U 44) = Ret c) by (eexists; vm_compute; reflexivity).
  destruct E as [c E]. exists c. split; [exact E|]. split; [vm_compute; reflexivity|].
  apply (address_match_of_complement not_44 vx (U 44) c (U (word_modulus - 1 - 44)));
    [reflexivity|reflexivity|exact E|eexists; vm_compute; reflexivity].
Defined.

Lemma low_byte_behaviour_witness : low_byte (EConst (U 300)) = Panic.
Proof.
  apply (low_byte_behaviour sample_model (EConst (U 300))). exists (U 300). split; [reflexivity|]. vm_compute. discriminate.
Defined.
