(* ===== verification/SymRunProps.v ===== *)
(** * SymRunProps: what sequences, memory and path analysis guarantee

    The claims about the byte sequences of a symbolic frame, its memory, the
    copies between memory, calldata and return data, and the analysis of a path
    condition, with witnesses. *)

From Stdlib Require Import ZArith Lia Bool.
From stdpp Require Import base list option sets.
From S2P Require Import Prelude SymWord SymExpr SymSimpl SymSound SymCmp SymBytes SymSeq SymMem SymMemSpec SymPath SymProps.
Local Open Scope Z_scope.
Local Open Scope outcome_scope.

Section RunClaims.
Context `{SA : SignedArith, HF : HashFns} {SL : SignedArithLaws}.
Variable model : SymbolicModel.
Import SBytes.

(** ** Byte sequences *)
(** Every way of reading a sequence reads the same bytes: single bytes,
    words, the list of byte expressions, the values under the model and, when
    all bytes are constants, the concrete bytes. *)
Theorem sequence_reads_agree b :
  seq_ok model b -> len b + 32 <= usize_max ->
  (forall i, usize_ok i -> denote_word model (SBytes.byte b i) = Some (U (seq_at model b i))) /\
  (forall i, 0 <= i < len b -> exists e w, word_at b i = Ret e /\ denote_word model e = Some w /\
     forall k, 0 <= k < 32 -> be_byte w k = seq_at model b (i + k)) /\
  map (den_val model) (materialize b) = seq_values model b /\
  SBytes.eval_model model b = Ret (inl (seq_values model b)) /\
  (concrete_bytes b = Ret None \/ concrete_bytes b = Ret (Some (seq_values model b))).
Proof.
  intros Hb Hl. destruct (len_usize model b Hb) as [Hl0 _]. split_and!.
  - intros i Hi. by apply (byte_sound model).
  - intros i Hi. destruct (word_at_sound model b i Hb) as (e & w & He & Hw & Hp); [unfold usize_ok; lia..|].
    exists e, w. split_and!; [done..|]. intros k Hk. specialize (Hp k Hk).
    destruct (Z.leb_spec 0 k), (Z.ltb_spec k (0 + 32)); try lia. simpl in Hp. by rewrite Z.sub_0_r in Hp.
  - by apply materialize_vals.
  - by apply eval_model_sound.
  - unfold concrete_bytes. assert (H : reads (append_concrete_range b 0 (len b)) (len b) (fun i => seq_at model b (0 + i)))
      by (apply append_concrete_sound; unfold usize_ok; done || lia). destruct H as [H|H]; [by left|right].
    rewrite H. unfold seq_values. do 2 f_equal.
Qed.


(** A sequence that is not classified as depending on the remaining gas
    has the same bytes under any two models that agree on everything else. *)
Theorem gas_free_sequence m1 m2 b :
  bytes_contain_gasleft b = false -> seq_ok m1 b -> seq_ok m2 b -> seq_vars_agree m1 m2 b ->
  (forall i, 0 <= i < len b -> vars_agree m1 m2 (SBytes.byte b i)) -> seq_values m1 b = seq_values m2 b.
Proof. exact (gas_free_values m1 m2 b). Qed.

(** ** Memory *)
Import SMemory.


(** C13: reads return the bytes of that memory, whether the offset and the
    writes are constant (the pieces of the writes are put together) or symbolic
    (each byte is a chain of conditionals), and MLOAD grows the memory. *)
Theorem memory_reads_refine m offset o size :
  mem_ok model m -> denote_word model offset = Some o -> usize_ok size -> addressable offset (Z.max 32 size + 31) ->
  readable m offset (Z.max 32 size) ->
  (exists b, read_bytes_offset m offset size = Ret b /\ represents model b size (mem_from model m (uval o))) /\
  (exists e w m', load_word_offset m offset = Ret (e, m') /\ denote_word model e = Some w /\ word_from model m (uval o) w /\
     mem_ok model m' /\ (forall a, mem_at model m' a = mem_at model m a) /\
     mem_size model m' = Z.max (mem_size model m) (range_size (uval o) 32)).
Proof.
  intros Hm Ho Hs Hadr Hr. assert (Hle : forall n, n <= Z.max 32 size + 31 -> addressable offset n).
  { intros n Hn c Hc. specialize (Hadr c Hc). lia. } split.
  - apply read_bytes_offset_spec; try done; [apply Hle; lia|]. eapply readable_le, Hr. lia.
  - apply load_word_offset_spec; try done; [apply Hle; lia|]. eapply readable_le, Hr. lia.
Qed.

(** A word that MSTORE wrote is what MLOAD at the same offset returns. *)
Theorem mstore_mload_roundtrip m offset o value v minimum :
  mem_ok model m -> denote_word model offset = Some o -> denote_word model value = Some v ->
  addressable offset 63 -> store_floor (uval o) 32 minimum ->
  readable (store_word_offset m offset value minimum) offset 32 ->
  exists e m', load_word_offset (store_word_offset m offset value minimum) offset = Ret (e, m') /\
    denote_word model e = Some v.
Proof.
  intros Hm Ho Hv Hadr Hf Hr. pose proof (store_word_offset_spec model m offset o value v minimum Hm Ho Hv Hadr Hf) as Hst.
  destruct (load_word_offset_spec model _ offset o (proj1 Hst) Ho Hadr Hr) as (e & w & m' & He & Hw & Hp & _).
  exists e, m'. split; [done|]. rewrite Hw. f_equal. eapply placed_unique; [exact Hp|]. by eapply load_stored_word.
Qed.

(** The copy operations: MCOPY reads all its bytes before it writes and
    with a symbolic size writes only that many; the output of a call is cut to
    the requested size and to the length of the return data; RETURNDATACOPY
    fails only if it leaves the return data. *)
Theorem copies_refine m dest d src s size n r bound :
  mem_ok model m -> denote_word model dest = Some d -> denote_word model src = Some s -> denote_word model size = Some n ->
  0 <= bound -> bound + 31 <= usize_max -> addressable dest (bound + 31) -> addressable src bound ->
  readable m src bound -> readable m dest bound -> seq_ok model (rd_bytes r) -> defined model (len_word r) ->
  slice_fits (rd_bytes r) src bound ->
  (exists m', SCopy.copy_memory_to_offset m dest src bound = Ret m' /\
     copied model m m' (uval d) bound (mem_from model m (uval s))) /\
  (exists m', SCopy.copy_memory_symbolic_size m dest src size bound = Ret m' /\
     copied model m m' (uval d) (Z.min (uval n) bound) (mem_from model m (uval s))) /\
  (exists m', SCopy.copy_call_output_offset m dest (CopySymbolic size bound) r = Ret m' /\
     copied model m m' (uval d) (output_len model (CopySymbolic size bound) r) (seq_at model (rd_bytes r))) /\
  (exists x, SCopy.copy_return_data_to_offset m dest src bound r = Ret x /\
     match x with
     | inl m' => copied model m m' (uval d) bound (fun i => seq_at model (rd_bytes r) (uval s + i))
     | inr e => e = SCopy.out_of_bounds /\ SReturnData.len r < uval s + bound
     end).
Proof.
  intros Hm Hd Hs Hn Hb0 Hb Had Has Hrs Hrd Hr Hlw Hfit. assert (Hu : usize_ok bound) by (unfold usize_ok; lia). split_and!.
  - destruct (copy_memory_spec model m dest d src s bound) as (m' & Hm' & Hc & _); [done..|eauto].
  - destruct (copy_memory_symbolic_spec model m dest d src s size n bound) as (m' & Hm' & Hc & _); [done..|eauto].
  - eapply copy_call_output_spec; try done; [intros v Hv; specialize (Had v Hv); simpl; lia|by exists n].
  - destruct (copy_return_data_spec model m dest d src s bound r) as (x & Hx & Hc); [done..|].
    exists x. split; [done|]. destruct x; [apply Hc|done].
Qed.

(** CALLDATALOAD at a constant or symbolic offset is the word at the
    offset, with zeros past the end of the calldata; CALLDATACOPY writes those
    bytes, if the read stays inside a sliced calldata. *)
Theorem calldata_reads_refine c m dest d offset o size :
  seq_ok model (cd_bytes c) -> cd_size c = len (cd_bytes c) -> len (cd_bytes c) + 32 <= usize_max ->
  denote_word model offset = Some o -> addressable offset 32 ->
  mem_ok model m -> denote_word model dest = Some d -> usize_ok size -> addressable dest (size + 31) ->
  slice_fits (cd_bytes c) offset size ->
  (exists e w, SCalldata.load_word c offset = Ret e /\ denote_word model e = Some w /\ calldata_word model c (uval o) w) /\
  (exists m', SCopy.copy_calldata_to_offset m dest offset size c = Ret m' /\
     copied model m m' (uval d) size (fun i => seq_at model (cd_bytes c) (uval o + i))).
Proof.
  intros. split; [by apply calldata_load_spec|].
  destruct (copy_calldata_spec model m dest d offset o size c) as (m' & Hm' & Hc & _); [done..|eauto].
Qed.

(** [readable] can be decided by evaluation. *)
Definition readable_check (m : SymMemory) (offset : SymExpr) (size : Z) : bool :=
  forallb (fun w => forallb (fun idx => forallb (fun delta =>
    comparable (add_const (w_offset w) (U idx)) (add_const offset (U delta))) (range size)) (range (len (w_bytes w))))
    (symbolic_writes m).

Lemma readable_checked m offset size : readable_check m offset size = true -> readable m offset size.
Proof.
  intros H w delta idx Hw Hd Hi. unfold readable_check in H. rewrite forallb_forall in H.
  specialize (H w ltac:(by apply list_elem_of_In)). rewrite forallb_forall in H.
  specialize (H idx ltac:(by apply list_elem_of_In, elem_of_range)). rewrite forallb_forall in H.
  apply H. by apply list_elem_of_In, elem_of_range.
Qed.

(** Constant offsets compare exactly. *)
Lemma comparable_constants o t i j : comparable (add_const (EConst o) i) (add_const t j) = true.
Proof. unfold comparable, add_const. destruct (is_zero i); [done|]. by rewrite constant_EConst. Qed.

Lemma readable_constant_writes m offset n :
  Forall (fun w => exists o, w_offset w = EConst o) (symbolic_writes m) -> readable m offset n.
Proof. intros Hw w delta idx Hin _ _. rewrite Forall_forall in Hw. destruct (Hw w Hin) as [o ->]. apply comparable_constants. Qed.

(** The first bytes of a stored word, and all bytes of the copy. *)
Lemma leaked_slice x :
  as_const x = None ->
  let b := SSlice (SWord x) (EConst (U 0)) 4 in
  read_bytes_offset (store_word_offset empty_memory zero x 0) zero 4 = Ret b /\
  SCopy.copy_calldata_to_offset empty_memory zero zero 32 (SCalldata.from_bytes b) =
    Ret (store_word_offset empty_memory zero x 0).
Proof.
  intros Hx b. assert (Hw : into_bytes x = SWord x) by (unfold into_bytes, word; by rewrite Hx).
  assert (Hs : store_word_offset empty_memory zero x 0 = store_bytes empty_memory 0 (SWord x)).
  { unfold store_word_offset, store_word. by rewrite Hw. }
  rewrite Hs. split; [vm_compute; reflexivity|].
  assert (Hr : SCalldata.read_bytes_offset (SCalldata.from_bytes b) zero 32 = Ret (SWord x)) by reflexivity.
  unfold SCopy.copy_calldata_to_offset. change (as_const zero) with (Some (U 0)). 
  change (to_usize (U 0)) with (Some 0). cbv iota beta. rewrite Hr. reflexivity.
Qed.

(** Slicing the slice of a word past its end reads the bytes of the word
    that the first slice cut off, not zeros: a call whose calldata is the first
    four bytes of a stored word copies all 32 bytes of the word with
    CALLDATACOPY, although CALLDATALOAD reads four bytes and zeros. *)
Theorem slice_of_slice_leaks x v :
  denote_word model x = Some v -> as_const x = None ->
  exists b e w m e' m',
    read_bytes_offset (store_word_offset empty_memory zero x 0) zero 4 = Ret b /\ len b = 4 /\
    SCalldata.load_word (SCalldata.from_bytes b) zero = Ret e /\ denote_word model e = Some w /\
    (forall k, 0 <= k < 32 -> be_byte w k = if k <? 4 then be_byte v k else 0) /\
    SCopy.copy_calldata_to_offset empty_memory zero zero 32 (SCalldata.from_bytes b) = Ret m /\
    load_word_offset m zero = Ret (e', m') /\ denote_word model e' = Some v.
Proof.
  intros Hv Hx. destruct (leaked_slice x Hx) as [Hb Hm]. set (b := SSlice (SWord x) (EConst (U 0)) 4) in *.
  assert (Hadr : forall n, n <= usize_max -> addressable zero n).
  { intros n Hn c Hc. change (as_const zero) with (Some (U 0)) in Hc. simplify_eq. change (uval (U 0)) with 0. lia. }
  assert (Hz : denote_word model zero = Some ZERO) by apply (den_zero model).
  assert (Hok : seq_ok model b).
  { simpl. unfold usize_ok, defined. split; [by exists v|]. split; [done|]. split; [by exists (U 0)|]. done. }
  destruct (calldata_load_spec model (SCalldata.from_bytes b) zero ZERO) as (e & w & He & Hw & Hp); try done; [by apply Hadr|].
  assert (He0 : mem_ok model empty_memory) by (split; [constructor|done]).
  pose proof (store_word_offset_spec model empty_memory zero ZERO x v 0 He0 Hz Hv (Hadr 63 ltac:(done)) ltac:(by left)) as Hst.
  destruct (load_word_offset_spec model (store_word_offset empty_memory zero x 0) zero ZERO (proj1 Hst) Hz (Hadr 63 ltac:(done)))
    as (e' & w' & m' & He' & Hw' & Hp' & _).
  { apply readable_constant_writes. unfold store_word_offset, store_word. change (as_const zero) with (Some (U 0)).
    change (to_usize (U 0)) with (Some 0). unfold store_bytes.
    destruct (is_empty _); [constructor|]. constructor; [by exists (U 0)|constructor]. }
  exists b, e, w, (store_word_offset empty_memory zero x 0), e', m'. split_and!; [done..| | |done|].
  - intros k Hk. rewrite (Hp k Hk). destruct (Z.leb_spec 0 k), (Z.ltb_spec k (0 + 32)); try lia. simpl.
    rewrite Z.sub_0_r. change (uval ZERO) with 0. rewrite Z.add_0_l. destruct (Z.ltb_spec k 4); [|done].
    change (den_val model (EConst (U 0))) with 0. rewrite Z.add_0_l, Hv. 
    destruct (Z.leb_spec 0 k), (Z.ltb_spec k 32); try lia. done.
  - exact Hm.
  - rewrite Hw'. f_equal. eapply placed_unique; [exact Hp'|]. by eapply load_stored_word.
Qed.

(** ** Path conditions *)
Import SPath.

(** C33: what the analysis derives from a true path condition holds: upper and
    lower bounds, and a constant that the conditions force on an expression. *)
Theorem path_analysis_sound constraints e v :
  Forall (fun c => denote_bool model c = Some true) constraints -> denote_word model e = Some v ->
  analysable model e ->
  (forall n, upper_bound_usize constraints e = Some n -> uval v <= n) /\
  lower_bound_usize constraints e <= uval v /\
  (forall k, constrained_word constraints e = Some k -> v = k).
Proof.
  intros Hc Hv Ha. split_and!.
  - intros n Hn. by apply (upper_bound_usize_sound model constraints Hc e).
  - by apply (lower_bound_usize_sound model constraints Hc).
  - intros k Hk. by apply (constrained_word_sound model constraints Hc e).
Qed.

(** The words that SIGNEXTEND, BYTE and EXP compute are the EVM's, for
    constant and symbolic operands; EXP either refuses or is exact. *)
Theorem word_opcodes_sound constraints a b x y :
  Forall (fun c => denote_bool model c = Some true) constraints ->
  denote_word model a = Some x -> denote_word model b = Some y -> analysable model b ->
  denote_word model (signextend_word_dynamic a b) = Some (signextend x y) /\
  denote_word model (byte_word_dynamic a b) = Some (word_byte x y) /\
  (forall e, exp_result constraints a b = inl e -> denote_word model e = Some (U (uval x ^ uval y))).
Proof.
  intros Hc Hx Hy Ha. split_and!; [by apply signextend_dynamic_sound|by apply byte_dynamic_sound|].
  intros e He. by apply (exp_result_sound model constraints Hc a b).
Qed.
End RunClaims.

(** ** Witnesses *)
#[local] Existing Instance evm_signed.
#[local] Existing Instance evm_signed_laws.
#[local] Existing Instance toy_hash.
Abbreviation dw := (denote_word sample_model).

(** The calldata that a call with four bytes of a stored word gets. *)
Definition sample_seq : SymBytes := SConcat [SConcrete [1; 2; 3]; SWord vx; SSlice (SWord vy) vy 10].

Lemma sample_seq_ok : seq_ok sample_model sample_seq.
Proof.
  apply seq_ok_SConcat. split; [|done]. repeat constructor; try done; try (by eexists).
Qed.

Lemma sequence_reads_agree_witness :
  SBytes.eval_model sample_model sample_seq = Ret (inl (seq_values sample_model sample_seq)).
Proof.
  apply (sequence_reads_agree sample_model sample_seq); [exact sample_seq_ok|vm_compute; discriminate].
Defined.


(** Models that differ in the gas that is left. *)
Definition other_gas : SymbolicModel := fun s => if Pos.eqb s 9 then Some (U 1) else sample_model s.

Lemma gas_free_sequence_witness : seq_values sample_model sample_seq = seq_values other_gas sample_seq.
Proof.
  apply (gas_free_sequence sample_model other_gas sample_seq); [vm_compute; reflexivity|exact sample_seq_ok| |done|].
  - apply seq_ok_SConcat. split; [|done]. repeat constructor; try done; try (by eexists).
  - intros i Hi. change (SBytes.len sample_seq) with 45 in Hi. apply (elem_of_range 45) in Hi.
    revert i Hi. rewrite <- Forall_forall. repeat (constructor; [vm_compute; tauto|]). constructor.
Defined.

(** A memory with a word at the symbolic offset [vy]. *)
Definition sample_memory : SymMemory := SMemory.store_word_offset empty_memory vy vx 0.

Lemma symbolic_addressable e n : as_const e = None -> addressable e n.
Proof. intros He v Hv. congruence. Qed.

Lemma sample_memory_ok : mem_ok sample_model sample_memory.
Proof.
  apply (store_word_offset_spec sample_model empty_memory vy (U 7) vx (U 300) 0);
    [split; [constructor|done]|reflexivity|reflexivity|by apply symbolic_addressable|by left].
Qed.


Lemma memory_reads_refine_witness :
  exists b, SMemory.read_bytes_offset sample_memory vx 4 = Ret b /\
    represents sample_model b 4 (mem_from sample_model sample_memory (uval (U 300))).
Proof.
  refine (proj1 (memory_reads_refine sample_model sample_memory vx (U 300) 4 _ _ _ _ _));
    [exact sample_memory_ok|reflexivity|done|by apply symbolic_addressable|].
  apply readable_checked. vm_compute. reflexivity.
Defined.

Lemma mstore_mload_roundtrip_witness :
  exists e m', SMemory.load_word_offset (SMemory.store_word_offset sample_memory vx vy 0) vx = Ret (e, m') /\
    dw e = Some (U 7).
Proof.
  apply (mstore_mload_roundtrip sample_model sample_memory vx (U 300) vy (U 7) 0);
    [exact sample_memory_ok|reflexivity|reflexivity|by apply symbolic_addressable|by left|].
  apply readable_checked. vm_compute. reflexivity.
Defined.

Lemma copies_refine_witness :
  exists m', SCopy.copy_memory_symbolic_size sample_memory vx vy vy 16 = Ret m' /\
    copied sample_model sample_memory m' (uval (U 300)) (Z.min (uval (U 7)) 16) (mem_from sample_model sample_memory (uval (U 7))).
Proof.
  refine (proj1 (proj2 (copies_refine sample_model sample_memory vx (U 300) vy (U 7) vy (U 7)
    (SReturnData.from_bytes sample_seq) 16 _ _ _ _ _ _ _ _ _ _ _ _ _)));
    [exact sample_memory_ok|reflexivity|reflexivity|reflexivity|lia|vm_compute; discriminate|by apply symbolic_addressable
    |by apply symbolic_addressable| | |exact sample_seq_ok|by eexists|done].
  all: apply readable_checked; vm_compute; reflexivity.
Defined.

Lemma calldata_reads_refine_witness :
  exists e w, SCalldata.load_word (SCalldata.from_bytes sample_seq) vy = Ret e /\ dw e = Some w /\
    calldata_word sample_model (SCalldata.from_bytes sample_seq) (uval (U 7)) w.
Proof.
  refine (proj1 (calldata_reads_refine sample_model (SCalldata.from_bytes sample_seq) sample_memory vx (U 300) vy (U 7) 8
    _ _ _ _ _ _ _ _ _ _));
    [exact sample_seq_ok|reflexivity|vm_compute; discriminate|reflexivity|by apply symbolic_addressable
    |exact sample_memory_ok|reflexivity|done|by apply symbolic_addressable|done].
Defined.

Lemma slice_of_slice_leaks_witness :
  exists b e w m e' m',
    SMemory.read_bytes_offset (SMemory.store_word_offset empty_memory zero vx 0) zero 4 = Ret b /\ SBytes.len b = 4 /\
    SCalldata.load_word (SCalldata.from_bytes b) zero = Ret e /\ dw e = Some w /\
    (forall k, 0 <= k < 32 -> be_byte w k = if k <? 4 then be_byte (U 300) k else 0) /\
    SCopy.copy_calldata_to_offset empty_memory zero zero 32 (SCalldata.from_bytes b) = Ret m /\
    SMemory.load_word_offset m zero = Ret (e', m') /\ dw e' = Some (U 300).
Proof. apply (slice_of_slice_leaks sample_model vx (U 300)); reflexivity. Defined.

(** A path on which [vx] is below 400 and [vy] is 7. *)
Definition sample_path : list SymBoolExpr := [BCmp Ule vx (EConst (U 400)); BCmp Eq vy (EConst (U 7))].

Lemma sample_path_true : Forall (fun c => denote_bool sample_model c = Some true) sample_path.
Proof. repeat constructor. Qed.

Lemma path_analysis_sound_witness : uval (U 307) <= 407.
Proof.
  refine (proj1 (path_analysis_sound sample_model sample_path (EBinOp Add vx vy) (U 307) _ _ _) 407 _);
    [exact sample_path_true|cbn [denote_word vx vy]; f_equal; apply uval_inj; vm_compute; reflexivity|done|vm_compute; reflexivity].
Defined.

Lemma word_opcodes_sound_witness :
  exists e, SPath.exp_result sample_path vx vy = inl e /\ dw e = Some (U (uval (U 300) ^ uval (U 7))).
Proof.
  destruct (SPath.exp_result sample_path vx vy) as [e|] eqn:E; [|exfalso; revert E; vm_compute; discriminate].
  exists e. split; [reflexivity|].
  refine (proj2 (proj2 (word_opcodes_sound sample_model sample_path vx vy (U 300) (U 7) _ _ _ _)) e _); [exact sample_path_true|reflexivity|reflexivity|done|exact E].
Defined.
