(* ===== verification/SymExecProps.v ===== *)
(** * SymExecProps: what execution and exploration guarantee

    The claims about the step function, the loop over the steps of a path and
    the verdict of a run, with witnesses on small programs. *)

From Stdlib Require Import ZArith Lia Bool.
From stdpp Require Import base list option gmap sets strings pretty.
From S2P Require Import Prelude SymWord SymExpr SymSimpl SymSound SymCmp SymBytes SymSeq SymStorage SymMem SymMemSpec SymPath SymWorld SymWorldSpec SymLog SymExpect SymExec SymEvm SymSim SymStep SymExplore SymVerdict SymBounds SymProps.
Local Open Scope Z_scope.
Import SExec SStep SRun.

Section ExecClaims.
Context `{SA : SignedArith, HF : HashFns, P : Parts, SE : SolverEnv, HD : !Handlers}
  {SL : SignedArithLaws} {SO : SolverLaws}.
Variable model : SymbolicModel.
Variable config : SymbolicConfig.
Variable executor : ExecutorEnv.
Variable code : @SymCode JumpTable.


(** C27: the loop over the steps of a path ends: the fuel that the depth limit
    leaves is never used up, whatever the solver answers. *)
Theorem path_loop_terminates {HB : HandlerBounds anywhere} {RP : RunParts} b st worklist t ex r ex' :
  zlen (stack (frame st)) <= STACK_LIMIT ->
  run_path config executor code (S (Z.to_nat (execution_depth config - depth st))) b st worklist t ex = Ret (r, ex') ->
  r <> inl None.
Proof.
  intros Hb H E. subst r. eapply (run_path_ends (K := anywhere)); [exact (conj Hb I)| |exact H|done]. lia.
Qed.

(** STOP halts with whatever return data the last call of the frame left,
    where the EVM returns nothing: the data reaches the caller of the frame. *)
Theorem stop_keeps_return_data env c st ex :
  env_spec env <? opcode_activation 0 = false -> spec_id executor <? opcode_activation 0 = false ->
  return_data (frame st) <> SReturnData.empty ->
  evm_step env STACK_LIMIT c 0 = EHalt no_data /\
  exists st', step config executor code st 0 ex = Ret (inl (Halt, st', []), ex) /\
    return_data (frame st') = return_data (frame st) /\ return_data (frame st') <> SReturnData.empty.
Proof.
  intros Hs1 Hs2 Hr. split; [unfold evm_step; by rewrite Hs1|]. exists (set_pc (pc (frame st) + 1) st).
  split; [unfold step; by rewrite Hs2|done].
Qed.

(** *** The verdict *)
Context {HL : HandlerLaws (EI := marked)} {RP : RunParts}.




End ExecClaims.

(** ** Witnesses *)
#[local] Existing Instance evm_signed.
#[local] Existing Instance evm_signed_laws.
#[local] Existing Instance toy_hash.

(** Jump tables as lists of destinations; no accounts. *)
#[local] Instance sample_parts : Parts := {|
  Rest := unit;
  JumpTable := list Z;
  is_valid := fun t d => existsb (Z.eqb d) t;
  default_jump_table := [];
  legacy_jump_table := fun bytes => filter (fun i => bytes !! Z.to_nat i = Some 91) (range (zlen bytes));
  STACK_LIMIT := 1024;
  stable_symbol := fun _ => 77%positive;
  gas_symbol := fun n => Z.to_pos (100 + n);
  storage_symbol := fun a _ => Z.to_pos (1000 + a);
  address_digest := fun _ => 5;
  iter_map := fun A m => map_to_list m;
  iter_symbols := fun A m => map_to_list m;
  is_assertion_revert := fun _ => false |}.

(** A solver that never refutes anything; its state counts the queries. *)
#[local] Instance sample_solver : SolverEnv := {|
  Env := Z;
  is_sat_with_replayable_storage := fun _ _ n => (inl true, n + 1);
  branch_feasibility := fun _ _ n => (inl FeasibleSat, n + 1);
  now := fun n => (0, n) |}.

#[local] Instance sample_handlers : Handlers := {| account_op := fun _ op => xerr (UnsupportedOpcode op) |}.

#[local] Instance sample_run : RunParts := {|
  DynSolValue := Z;
  RootCalldata := unit;
  root_calldata := fun _ => Some tt;
  model_to_args := fun _ _ => inl [];
  abi_encode_input := fun _ => inl [];
  model_with_replayable_storage := fun _ _ n => (inl sample_model, n + 1);
  check_available := fun n => (inl tt, n);
  clear_context := fun n => n;
  SolverCounters := Z;
  solver_counters := fun n => n;
  no_counters := 0;
  error_text := fun _ => "error" |}.

#[local] Instance sample_solver_laws : SolverLaws.
Proof. by split. Qed.
#[local] Instance sample_handler_laws : HandlerLaws (EI := marked).
Proof. split. intros st op ex r ex' [= <- <-]. done. Qed.
#[local] Instance sample_handler_bounds : HandlerBounds anywhere.
Proof. intros d st op Hg ex r ex' H. done. Qed.

Definition sample_config (bound : option Z) : SymbolicConfig := mkConfig None bound None None 1000 100 Bfs 4096 false.
Definition sample_executor : ExecutorEnv := mkExecutorEnv 1000000 17.

(** CALLVALUE ISZERO PUSH1 6 JUMPI STOP JUMPDEST STOP. *)
Definition branch_bytes : list Z := [52; 21; 96; 6; 87; 0; 91; 0].
Definition branch_code : @SymCode JumpTable := mkCode (SBytes.concrete branch_bytes) [6].

Definition sample_calldata : SymCalldata := mkCalldata 32 (constant (U 32)) (SWord vx).
Definition sample_frame : CallFrame :=
  mkFrame 0 1 (constant (U 1)) 1 2 (constant (U 2)) vx false sample_calldata [] empty_memory SReturnData.empty.
Definition sample_block : SymbolicBlock := mkBlock zero 0 zero zero zero zero zero zero ∅ [].
Definition sample_calls_state : CallState := mkCallState _ 2 SExpect.default_prank false None None [] [] [] [] tt.
Definition sample_root : PathState :=
  mkPath 0 0 zero zero sample_block sample_frame SWorld.default_world sample_calls_state [] 0 None None [] None false false ∅ None ∅ ∅ [] [] false false.
Definition sample_exec : Exec := mkExec _ 0 None None 0 Skip true ∅.

Definition sample_env (bytes jumps : list Z) : EvmEnv :=
  mkEvmEnv (mkData (zlen bytes) (fun i => default 0 (at_z bytes i))) (fun d => existsb (Z.eqb d) jumps)
    (mkData 32 (seq_at sample_model (SWord vx)))
    (fun o => default ZERO (denote_word sample_model (block_value sample_root o)))
    (fun _ => ZERO) (fun n => model_value sample_model (gas_symbol n)) 1000000 17.
Definition sample_start : EvmState := mkEvm 0 [] (fun _ => 0) 0 0 no_data.



(** *** Programs *)














Lemma path_loop_terminates_witness :
  match run_path (sample_config None) sample_executor branch_code 1001 false sample_root [] (mkTally 0 0 None None) sample_exec with
  | Ret (r, _) => r <> inl None
  | Panic => True
  end.
Proof.
  destruct (run_path _ _ _ 1001 _ _ _ _ _) as [[r ex']|] eqn:H; [|exact I].
  exact (path_loop_terminates (sample_config None) sample_executor branch_code false sample_root [] _ _ _ _ ltac:(vm_compute; discriminate) H).
Defined.

(** A frame whose last call returned one byte. *)
Definition called_root : PathState := set_return_data (SReturnData.from_bytes (SBytes.concrete [1])) sample_root.

Lemma called_nonempty : return_data (frame called_root) <> SReturnData.empty.
Proof. intros H. apply (f_equal (fun r => SReturnData.len r)) in H. vm_compute in H. discriminate. Qed.

Lemma stop_keeps_return_data_witness :
  exists st', step (sample_config None) sample_executor branch_code called_root 0 sample_exec = Ret (inl (Halt, st', []), sample_exec) /\
    return_data (frame st') <> SReturnData.empty.
Proof.
  destruct (stop_keeps_return_data (sample_config None) sample_executor branch_code (sample_env branch_bytes [6]) sample_start called_root
    sample_exec eq_refl eq_refl called_nonempty) as (_ & st' & H & _ & Hr). exists st'. exact (conj H Hr).
Defined.
