(* ===== verification/SymWorldProps.v ===== *)
(** * SymWorldProps: claims about storage, balances and addresses

    The properties of the symbolic world and of the opcodes that use it, with
    their witnesses. *)

From Stdlib Require Import ZArith Lia Bool.
From stdpp Require Import base list option gmap sets strings.
From S2P Require Import Prelude SymWord SymExpr SymSimpl SymSound SymCmp SymBytes SymSeq SymStorage SymMem SymMemSpec SymPath SymWorld SymWorldSpec SymLog SymExpect SymExec SymEvm SymSim SymStep SymExplore SymAccount SymVerdict SymBounds SymAccountSpec SymProps SymExecProps.
Local Open Scope Z_scope.
Local Open Scope outcome_scope.
Import SWorld.

(** ** Claims *)
Section WorldClaims.
Context `{SA : SignedArith, HF : HashFns, P : Parts, SE : SolverEnv} {SL : SignedArithLaws} {BE : ChainBackend} {CH : CallHandlers}.


(** C30: a transfer between two accounts takes the value from the
    sender and gives it to the receiver modulo 2^256. The sum of both balances
    is kept, exactly when the sender has the value and the receiver does not
    overflow, and every other balance stays. *)
Theorem transfer_conserves model w from to e v x y :
  from <> to -> denote_word model e = Some v -> balance_of model w from = Some x -> balance_of model w to = Some y ->
  exists x' y', balance_of model (transfer from to e w) from = Some x' /\ balance_of model (transfer from to e w) to = Some y' /\
    (uval x' + uval y') mod word_modulus = (uval x + uval y) mod word_modulus /\
    (uval v <= uval x -> uval x + uval y < word_modulus -> uval x' = uval x - uval v /\ uval y' = uval y + uval v) /\
    forall a, a <> from -> a <> to -> balance_of model (transfer from to e w) a = balance_of model w a.
Proof.
  intros Hne He Hx Hy. destruct (transfer_spec model w from to e v x y Hne He Hx Hy) as (H1 & H2 & H3).
  exists (wrapping_sub x v), (wrapping_add y v). split; [exact H1|]. split; [exact H2|].
  pose proof (uval_range x). pose proof (uval_range y). pose proof (uval_range v). split; [|split; [|exact H3]].
  - rewrite uval_wrapping_add. unfold wrapping_sub. rewrite uval_U. rewrite <- Zplus_mod. f_equal. lia.
  - intros Hle Hlt. rewrite uval_wrapping_add. unfold wrapping_sub. rewrite uval_U. split; apply Z.mod_small; lia.
Qed.

(** C31: SELFDESTRUCT before Cancun, or in the transaction of
    the creation, marks the account destroyed: it has no code, no storage, no
    transient storage and no balance left. The beneficiary receives the
    balance unless it is the account itself, and every other account keeps
    its balance, code and storage. *)
Theorem selfdestruct_destroys model w a b w' x y :
  selfdestruct_legacy a b w = inl w' -> balance_of model w a = Some x -> balance_of model w b = Some y ->
  is_destroyed w' a = true /\ balance_of model w' a = Some ZERO /\ (a <> b -> balance_of model w' b = Some (wrapping_add y x)) /\
  (forall spec code w2, extcode spec a w' = inl (code, w2) -> is_vm_address a = false -> code_is_empty code = true) /\
  is_Some (nonces (state w') !! a) /\
  Forall (fun s => sw_address s <> a) (storage (state w')) /\ Forall (fun s => sw_address s <> a) (transient_storage (state w')) /\
  forall c, c <> a ->
    (c <> b -> balance_of model w' c = balance_of model w c) /\ code_cache (state w') !! c = code_cache (state w) !! c /\
    filter (fun s => sw_address s = c) (storage (state w')) = filter (fun s => sw_address s = c) (storage (state w)).
Proof.
  intros H Hx Hy. pose proof (legacy_nonce w a b w' H) as Hn. destruct (legacy_is_destroy w a b w' H) as [n ->].
  destruct (paid_balances model w a b x y Hx Hy) as (P1 & P2 & P3). destruct (paid_world w a b) as (C1 & C2 & C3 & C4).
  destruct (destroy_spec (paid a b w) a n) as (D1 & D2 & D3 & D4 & D5).
  split_and!; try done.
  - unfold balance_of, balance_word_for_address. rewrite D1. apply (den_constant model).
  - intros Hne. unfold balance_of in *. destruct (D5 b) as [-> _]; [done|]. rewrite P2. by rewrite (proj2 (Z.eqb_neq a b) Hne).
  - intros spec code w2 He Hvm. unfold extcode in He. rewrite Hvm in He. destruct (bool_decide _); [by simplify_eq|]. rewrite D1 in He. by simplify_eq.
  - intros c Hc. destruct (D5 c Hc) as (E1 & E2 & E3). split_and!.
    + intros Hb. unfold balance_of in *. rewrite E1. by apply P3.
    + by rewrite E2, C1.
    + by rewrite E3, C3.
Qed.

(** C36: restoring a snapshot brings back the state at which it was
    taken, whatever was done since (changes of the state, other snapshots,
    their restores and deletions), as long as it was not deleted and the
    identifiers do not wrap around. *)
Theorem snapshot_restores w ops :
  next_snapshot_id w + Z.of_nat (length ops) + 1 < 2 ^ 64 -> DeleteSnapshot (fst (snapshot_state w)) ∉ ops ->
  let r := restore_snapshot (fst (snapshot_state w)) (world_ops ops (snd (snapshot_state w))) in
  fst r = true /\ state (snd r) = state w.
Proof.
  intros Hn Hops. unfold restore_snapshot.
  rewrite (world_ops_keep ops _ (fst (snapshot_state w)) (state w)); [done| | | |done]; simpl; [by rewrite lookup_insert_eq|lia..].
Qed.

(** C37: two symbolic words are taken for the same address
    exactly when their forms without address masks and 96-bit shifts are
    equal (the comparison byte by byte never adds anything), and two words
    that are taken for the same address denote the same address under every
    model. *)
Theorem address_identification model e alias :
  (as_const e = None -> as_const alias = None ->
   symbolic_address_equivalent e alias = expr_eqb (symbolic_address_canonical e) (symbolic_address_canonical alias)) /\
  (forall v v', symbolic_address_equivalent e alias = true -> denote_word model e = Some v -> denote_word model alias = Some v' ->
     word_to_address v = word_to_address v').
Proof.
  split; [|intros v v'; by apply equivalent_sound]. intros He Ha. unfold symbolic_address_equivalent. rewrite He, Ha.
  apply address_equivalent_iff.
Qed.

(** BLOCKHASH of a symbolic number. The chain of
    conditionals over the last 256 blocks denotes, under every model, what
    BLOCKHASH of the number of that model is, zero outside the window
    included. *)
Theorem block_hash_of_symbolic_number model b e r n :
  SBlock.block_hash_word b e = inl r -> no_hash_leaf e = true -> denote_word model e = Some n -> hashes_ok model b ->
  exists h, SBlock.block_hash b n = inl h /\ denote_word model r = denote_word model h.
Proof. intros H1 H2 H3 H4. exact (block_hash_word_spec model b e r n H1 H2 H3 H4). Qed.

(** BALANCE of a symbolic address that is not an alias
    denotes, under every model, the recorded balance of the address that the
    model gives to the word, and the balance of the representative address
    when that account is not recorded or destroyed. *)
Theorem symbolic_balance_cases {IL : IterLaws} model w e v r :
  resolve_address w e = None -> no_hash_leaf e = true -> denote_word model e = Some v ->
  map_Forall (fun a b => address_ok a /\ exists y, denote_word model b = Some y) (balances (state w)) ->
  balance_of model w (representative_symbolic_address e) = Some r ->
  denote_word model (balance_word w e) =
    match balances (state w) !! uval v with
    | Some b => if is_destroyed w (uval v) then Some r else denote_word model b
    | None => Some r
    end.
Proof. intros H1 H2 H3 H4 H5. exact (balance_word_spec model w e v r H1 H2 H3 H4 H5). Qed.

End WorldClaims.

(** ** Witnesses *)
#[local] Existing Instance evm_signed.
#[local] Existing Instance evm_signed_laws.
#[local] Existing Instance sample_parts.
#[local] Existing Instance sample_solver.

(** A hash that mixes all bytes, and a chain with one funded account. *)
#[local] Instance poly_hash : HashFns := {|
  keccak256 := fun bs => U (fold_left (fun acc b => acc * 131 + b + 1) bs 7);
  stable_hash := fun e => Z.of_nat (esize e) |}.

#[local] Instance sample_chain : ChainBackend := {|
  storage_ref := fun a k => Some (if (a =? 9) && (uval k =? 5) then U 77 else ZERO);
  basic_ref := fun a => Some (if a =? 300 then Some (mkAccount _ (U 100) 1 None) else None);
  block_hash_ref := fun n => Some (U (n + 1000));
  cached_accounts := [300] |}.

#[local] Instance sample_calls : CallHandlers := {|
  call_or_create := fun _ op => xerr (UnsupportedOpcode op);
  execute_external_call := fun _ _ => xret [] |}.

#[local] Instance sample_iter : IterLaws.
Proof. by split. Qed.

(** *** Findings *)


(** A world in which the account 9 is new. *)
Definition new_account : SymbolicWorld := mark_current_transaction_created 9 default_world.




(** The balance of a funded account of the chain,
    read through a symbolic address. The address denotes the account with
    balance 100, and the balance read denotes 0. *)
Theorem symbolic_balance_misses_backend :
  resolve_address default_world vx = None /\ uval <$> denote_word sample_model vx = Some 300 /\
  uval <$> denote_word sample_model (balance_word default_world (constant (U 300))) = Some 100 /\
  uval <$> denote_word sample_model (balance_word default_world vx) = Some 0.
Proof. repeat split; vm_compute; reflexivity. Qed.

(** *** Witnesses of the claims *)


Definition written_world : SymbolicWorld := sstore 9 (constant (U 300)) (constant (U 9)) new_account.






Definition funded : SymbolicWorld := set_balance_word 8 (constant (U 50)) default_world.

Lemma transfer_conserves_witness :
  exists x' y', balance_of sample_model (transfer 300 8 (constant (U 30)) funded) 300 = Some x' /\
    balance_of sample_model (transfer 300 8 (constant (U 30)) funded) 8 = Some y' /\ uval x' = 70 /\ uval y' = 80.
Proof.
  destruct (transfer_conserves sample_model funded 300 8 (constant (U 30)) (U 30) (U 100) (U 50)) as (x' & y' & H1 & H2 & _ & H3 & _);
    [discriminate|apply (den_constant sample_model)..|].
  exists x', y'. destruct H3 as [E1 E2]; [vm_compute; discriminate|vm_compute; reflexivity|]. split; [exact H1|]. split; [exact H2|].
  rewrite E1, E2. split; vm_compute; reflexivity.
Defined.

Lemma selfdestruct_returns : exists w', selfdestruct_legacy 300 8 funded = inl w'.
Proof.
  assert (H : match selfdestruct_legacy 300 8 funded with inl _ => true | inr _ => false end = true) by (vm_compute; reflexivity).
  destruct (selfdestruct_legacy 300 8 funded); [eauto|done].
Qed.

Lemma selfdestruct_destroys_witness :
  exists w', selfdestruct_legacy 300 8 funded = inl w' /\ is_destroyed w' 300 = true /\
    balance_of sample_model w' 8 = Some (wrapping_add (U 50) (U 100)).
Proof.
  destruct selfdestruct_returns as [w' H]. exists w'. split; [exact H|].
  destruct (selfdestruct_destroys sample_model funded 300 8 w' (U 100) (U 50) H) as (H1 & _ & H2 & _);
    [apply (den_constant sample_model)..|]. exact (conj H1 (H2 ltac:(discriminate))).
Defined.

Definition detour : list WorldOp := [ChangeState (fun s => set_storage [] s); TakeSnapshot; RestoreSnapshot 1].

Lemma snapshot_restores_witness :
  let r := restore_snapshot (fst (snapshot_state written_world)) (world_ops detour (snd (snapshot_state written_world))) in
  fst r = true /\ state (snd r) = state written_world.
Proof.
  apply (snapshot_restores written_world detour); [vm_compute; reflexivity|]. unfold detour. intros H.
  repeat (apply elem_of_cons in H as [H|H]; [discriminate|]). by apply not_elem_of_nil in H.
Defined.

Lemma address_identification_witness :
  symbolic_address_equivalent (EBinOp And vx (EConst (U (2 ^ 160 - 1)))) vx = true /\
  word_to_address (u_and (U 300) (U (2 ^ 160 - 1))) = word_to_address (U 300).
Proof.
  split; [vm_compute; reflexivity|].
  apply (proj2 (address_identification sample_model (EBinOp And vx (EConst (U (2 ^ 160 - 1)))) vx)); [vm_compute; reflexivity|reflexivity..].
Defined.

Definition block_400 : SymbolicBlock := mkBlock one 0 zero (constant (U 400)) zero zero zero zero ∅ [].

Lemma hash_word_returns : exists r, SBlock.block_hash_word block_400 vx = inl r.
Proof.
  assert (H : match SBlock.block_hash_word block_400 vx with inl _ => true | inr _ => false end = true) by (vm_compute; reflexivity).
  destruct (SBlock.block_hash_word block_400 vx); [eauto|done].
Qed.

Lemma block_hash_of_symbolic_number_witness :
  exists r h, SBlock.block_hash_word block_400 vx = inl r /\ SBlock.block_hash block_400 (U 300) = inl h /\
    denote_word sample_model r = denote_word sample_model h.
Proof.
  destruct hash_word_returns as [r H]. exists r.
  assert (Hb : hashes_ok sample_model block_400) by apply map_Forall_empty.
  pose proof (block_hash_of_symbolic_number sample_model block_400 vx r (U 300) H eq_refl eq_refl Hb) as (h & H1 & H2).
  exists h. exact (conj H (conj H1 H2)).
Defined.

Definition two_balances : SymbolicWorld := set_balance_word 300 (constant (U 60)) funded.

Lemma two_balances_known :
  map_Forall (fun a b => address_ok a /\ exists y, denote_word sample_model b = Some y) (balances (state two_balances)).
Proof.
  apply map_Forall_insert_2; [|apply map_Forall_insert_2; [|apply map_Forall_empty]];
    (split; [split; [lia|reflexivity]|eexists; apply (den_constant sample_model)]).
Qed.

Lemma representative_unfunded : balance_of sample_model two_balances (representative_symbolic_address vx) = Some ZERO.
Proof.
  assert (H : (uval <$> balance_of sample_model two_balances (representative_symbolic_address vx)) = Some 0) by (vm_compute; reflexivity).
  destruct (balance_of _ _ _) as [r|]; [|done]. f_equal. apply uval_inj. by injection H.
Qed.

Lemma vx_no_alias : resolve_address two_balances vx = None.
Proof. vm_compute. reflexivity. Qed.

Lemma symbolic_balance_cases_witness :
  (uval <$> denote_word sample_model (balance_word two_balances vx)) = Some 60.
Proof.
  rewrite (symbolic_balance_cases sample_model two_balances vx (U 300) ZERO vx_no_alias eq_refl eq_refl two_balances_known
    representative_unfunded).
  vm_compute. reflexivity.
Defined.
