(* ===== verification/SymCallProps.v ===== *)
(** * SymCallProps: claims about calls and creates *)

From Stdlib Require Import ZArith Lia Bool.
From stdpp Require Import base list option gmap sets strings.
From S2P Require Import Prelude SymWord SymExpr SymSimpl SymSound SymCmp SymBytes SymSeq SymStorage SymMem SymPath SymWorld SymWorldSpec SymStatic SymPrecompile SymLog SymExpect SymExec SymEvm SymSim SymExplore SymAccount SymCall SymVerdict SymBounds SymAccountSpec SymCallSpec SymCallFuel SymProps SymExecProps SymWorldProps.
Local Open Scope Z_scope.
Local Open Scope exec_scope.

(** ** Value transfers *)
Section Payments.
Context `{SA : SignedArith, HF : HashFns, P : Parts, SE : SolverEnv} {SL : SignedArithLaws} {SO : SolverLaws} {BE : ChainBackend}
  {CP : CallParts}.
Variable model : SymbolicModel.
Abbreviation den := (denote_word model).
Abbreviation denb := (denote_bool model).
Abbreviation sat := (sat model).
Import SExec SCall.

(** The transfer of [v] between accounts with the balances [b] and [c]: the
    payer has it, and the receiver's balance does not overflow. *)
Definition affordable (from to : Address) (b c v : Z) : bool := (v <=? b) && ((from =? to) || (c + v <? 2 ^ 256)).

Lemma den_can_transfer st from to value b c v :
  den (balance st from) = Some b -> den (balance st to) = Some c -> den value = Some v ->
  denb (can_transfer st from to value) = Some (affordable from to (uval b) (uval c) (uval v)).
Proof.
  intros Hb Hc Hv. unfold can_transfer, affordable.
  assert (Hp : denb (cmp Uge (balance st from) value) = Some (uval v <=? uval b)).
  { rewrite (den_cmp model Uge _ _ _ _ ltac:(done) Hb Hv). done. }
  destruct (Z.eqb_spec from to) as [->|Hne]; [by rewrite Hp, orb_true_l, andb_true_r|]. rewrite orb_false_l.
  apply (denote_pair model); [exact Hp|]. pose proof (uval_range c) as Rc. pose proof (uval_range v) as Rv. change word_modulus with (2 ^ 256) in *.
  rewrite (den_cmp model Uge _ _ _ _ ltac:(done) (den_binop model Add _ _ _ _ Hc Hv) Hc). cbn [cmpop_eval binop_eval]. unfold u_leb, wrapping_add. f_equal.
  rewrite uval_U. change word_modulus with (2 ^ 256). destruct (Z.ltb_spec (uval c + uval v) (2 ^ 256)).
  - rewrite Z.mod_small by lia. apply Z.leb_le. lia.
  - replace (uval c + uval v) with (uval c + uval v - 2 ^ 256 + 1 * 2 ^ 256) by lia. rewrite Z_mod_plus_full, Z.mod_small by lia. apply Z.leb_gt. lia.
Qed.

Lemma complete_inv st oo os s ex p ex' :
  complete st oo os s ex = Ret (inl p, ex') ->
  ex' = ex /\ constraints p = constraints st /\ world p = world st /\ stack (frame p) = stack (frame st) ++ [s] /\
  return_data (frame p) = return_data (frame st) /\
  SCopy.copy_call_output_offset (memory (frame st)) oo os (return_data (frame st)) = Ret (memory (frame p)).
Proof.
  intros H. unfold complete in H. xstep H. xstep H0. xstep H. xstep H1. xstep H. simpl in *. unfold SStack.push in H1.
  case_match; simplify_eq. done.
Qed.

(** Both sides of the decision are covered. *)
Lemma decide_payment_spec st cond r fail ex can_pay st' pushed ex' :
  sat st -> denb cond = Some r -> decide_payment st cond fail ex = Ret (inl (can_pay, st', pushed), ex') ->
  if (r : bool)
  then can_pay = true /\ sat st' /\ st' = set_constraints (constraints st') st
  else exists cs p ex1 ex2, sat (set_constraints cs st) /\ fail (set_constraints cs st) ex1 = Ret (inl p, ex2) /\
       p ∈ pushed ++ (if (can_pay : bool) then [] else [st']).
Proof.
  intros Hs Hc H. unfold decide_payment in H. destruct (SBool.as_const cond) as [k|] eqn:Ek.
  - destruct cond; simplify_eq/=. destruct r; [xstep H; simplify_eq; by destruct st|]. xstep H. xstep H. simplify_eq.
    exists (constraints st), r, ex, ex0. split; [exact Hs|]. split; [by destruct st|set_solver].
  - xstep H. xstep H.
    assert (Hyes : r = true -> r0 = true /\ sat (set_constraints (constraints st ++ [cond]) st)).
    { intros ->. pose proof (sat_extend model _ _ Hs Hc) as Hx. split; [|exact Hx]. by eapply is_sat_complete. }
    assert (Hno : r = false -> r1 = true /\ sat (set_constraints (constraints st ++ [SBool.not_bool cond]) st)).
    { intros ->. assert (Hn : denb (SBool.not_bool cond) = Some true) by (by rewrite den_not_bool, Hc).
      pose proof (sat_extend model _ _ Hs Hn) as Hx. split; [|exact Hx]. by eapply is_sat_complete. }
    destruct r0, r1.
    + xstep H. xstep H. simplify_eq. destruct r; [by destruct Hyes|]. destruct Hno as [_ Hno]; [done|]. 
      eexists _, r0, _, _. split; [exact Hno|]. split; [eassumption|set_solver].
    + xstep H. simplify_eq. destruct r; [by destruct Hyes|]. by destruct Hno.
    + xstep H. xstep H. simplify_eq. destruct r; [by destruct Hyes|]. destruct Hno as [_ Hno]; [done|].
      eexists _, r0, _, _. split; [exact Hno|]. split; [eassumption|set_solver].
    + xstep H. simplify_eq. destruct r; [by destruct Hyes|by destruct Hno].
Qed.

(** The call does not happen: 0 is pushed and nothing is returned. *)
Definition refused (st p : PathState) : Prop :=
  sat p /\ world p = world st /\ stack (frame p) = stack (frame st) ++ [zero] /\ return_data (frame p) = SReturnData.empty.

(** C7: the payment of a call follows the balances.  An execution of the path
    that can pay goes on with the call; one that cannot, because the payer has
    too little or the receiver's balance would overflow, is on a path on which
    the call has failed, and nothing has moved. *)
Theorem payment_follows_balances st from to value oo os ex can_pay st' pushed ex' b c v :
  sat st -> den (balance st from) = Some b -> den (balance st to) = Some c -> den value = Some v ->
  prepare_value_transfer st from to value oo os ex = Ret (inl (can_pay, st', pushed), ex') ->
  if affordable from to (uval b) (uval c) (uval v)
  then can_pay = true /\ sat st' /\ world st' = world st /\ stack (frame st') = stack (frame st)
  else Exists (refused st) (pushed ++ (if (can_pay : bool) then [] else [st'])).
Proof.
  intros Hs Hb Hc Hv H. unfold prepare_value_transfer in H. pose proof (den_can_transfer st from to value b c v Hb Hc Hv) as Ht.
  destruct (known_zero st value) eqn:Ez.
  - xstep H. simplify_eq. unfold known_zero in Ez. destruct (SPath.constrained_word _ _) as [k|] eqn:Ek; [|done].
    pose proof (constrained_word_sound model _ Hs _ _ _ Ek Hv) as ->. apply Z.eqb_eq in Ez. unfold affordable. rewrite Ez.
    pose proof (uval_range b). pose proof (uval_range c). change word_modulus with (2 ^ 256) in *.
    destruct (Z.leb_spec 0 (uval b)); [|lia]. destruct (Z.ltb_spec (uval c + 0) (2 ^ 256)); [|lia]. by rewrite orb_true_r.
  - pose proof (decide_payment_spec _ _ _ _ _ _ _ _ _ Hs Ht H) as Hd. destruct (affordable _ _ _ _ _).
    + destruct Hd as (-> & Hsat & ->). done.
    + destruct Hd as (cs & p & ex1 & ex2 & Hsat & Hf & Hin). apply Exists_exists. exists p. split; [exact Hin|].
      apply complete_inv in Hf as (_ & Hcs & Hw & Hst & Hr & _). split; [by unfold SymSim.sat; rewrite Hcs|done].
Qed.
End Payments.

(** ** Outcomes of calls *)
Section Outcomes.
Context `{SA : SignedArith, HF : HashFns, P : Parts, SE : SolverEnv} {BE : ChainBackend} {CP : CallParts}.
Variable config : SymbolicConfig.
Variable external : PathState -> @SymCode JumpTable -> ExecM (list CallOutcome).
Import SExec SCall.













End Outcomes.

(** ** Symbolic targets *)
Section Targets.
Context `{SA : SignedArith, HF : HashFns, P : Parts, SE : SolverEnv} {BE : ChainBackend} {PC : Precompiles} {CP : CallParts}.
Variable config : SymbolicConfig.
Variable executor : ExecutorEnv.
Variable external : PathState -> @SymCode JumpTable -> ExecM (list CallOutcome).
Import SExec SCall.

(** C40: when the call of a symbolic target fails in one of its candidates, the
    step fails on the caller's path as it was before the call: neither the
    constraint that the target is this candidate nor what the callee added
    is kept, and the paths of the other candidates are dropped. *)
Theorem symbolic_target_failure_forgets st kind target value gas io ins oo os ex st' pushed ex' :
  call_symbolic_target config executor external st kind target value gas io ins oo os ex = Ret (inl (Failure, st', pushed), ex') ->
  constraints st' = constraints st /\ frame st' = frame st /\ pushed = [].
Proof.
  intros H. unfold call_symbolic_target, unsupported in H. xstep H. destruct r as [ts w]. cbv zeta in H. destruct (target_candidates ts); [by xstep H|].
  xstep H. destruct (negb (allow_symbolic_targets config) && r); [by xstep H|]. xstep H. xstep H. xstep H. xstep H. destruct r2 as [ps|out].
  - unfold resume_parent_paths in *. by destruct (SRun.pop_next_path config ps) as [[]|]; simplify_eq.
  - by simplify_eq.
Qed.
End Targets.

(** ** Static frames *)
Section Static.
Context `{SA : SignedArith, HF : HashFns, P : Parts, SE : SolverEnv} {BE : ChainBackend} {PC : Precompiles} {CP : CallParts}
  {CB : forall w, CheatBounds (reading w)}.
Variable config : SymbolicConfig.
Variable executor : ExecutorEnv.
Import SExec SCall.

End Static.

(** ** The whole step function *)
Section Whole.
Context `{SA : SignedArith, HF : HashFns, P : Parts, SE : SolverEnv} {BE : ChainBackend} {PC : Precompiles} {CP : CallParts}.
Variable config : SymbolicConfig.
Variable executor : ExecutorEnv.
Import SExec SCall.

(** C28: every step, calls and creates with all that they execute included, keeps
    the stack within its limit, on the path it goes on with and on the paths it
    queues, and does not change the depth of the path. *)
Theorem full_step_keeps_bounds {CB : CheatBounds anywhere} fuel code st op ex out st' pushed ex' :
  zlen (stack (frame st)) <= STACK_LIMIT -> full_step config executor fuel code st op ex = Ret (inl (out, st', pushed), ex') ->
  zlen (stack (frame st')) <= STACK_LIMIT /\ depth st' = depth st /\
  Forall (fun s => zlen (stack (frame s)) <= STACK_LIMIT) pushed.
Proof.
  intros Hb H. destruct (good_step_step (HB := full_bounds config executor fuel) config executor code (depth st) st op
    (conj eq_refl (conj Hb I)) _ _ _ H) as [(Hd & Hs & _) Hp].
  split; [done|]. split; [done|]. eapply Forall_impl; [exact Hp|]. by intros s [].
Qed.

(** C32: every step, calls and creates included, keeps the table of hash inputs
    true: a recorded input has the recorded hash under every model.  The
    comparison of storage keys relies on it. *)
Theorem full_step_keeps_table {CL : CheatLaws (EI := truthful)} fuel code st op ex r ex' :
  full_step config executor fuel code st op ex = Ret (r, ex') -> table_ok (cx_preimages ex) -> table_ok (cx_preimages ex').
Proof.
  intros H. refine (keeps_step (EI := truthful) (HD := full_handlers config executor fuel) (HL := full_laws config executor fuel)
    config executor code st op ex r ex' H).
Qed.


(** The loop over the steps of a path of a callee ends at the depth limit:
    [path_rounds] rounds are enough, and more give the same result. *)
Theorem call_path_rounds_suffice {CB : CheatBounds anywhere} fuel n code kind st worklist outcomes ex :
  zlen (stack (frame st)) <= STACK_LIMIT -> 0 <= depth st -> (path_rounds config <= n)%nat ->
  run_call_path (HD := full_handlers config executor fuel) config executor code n kind st worklist outcomes ex =
  run_call_path (HD := full_handlers config executor fuel) config executor code (path_rounds config) kind st worklist outcomes ex.
Proof.
  intros Hb Hd Hn. apply (path_fuel_irrelevant config executor (HB := full_bounds config executor fuel)); [by split|unfold path_rounds in *; lia..].
Qed.
End Whole.

(** ** Witnesses *)
#[local] Existing Instance evm_signed.
#[local] Existing Instance evm_signed_laws.
#[local] Existing Instance sample_parts.
#[local] Existing Instance sample_solver.
#[local] Existing Instance poly_hash.
#[local] Existing Instance sample_chain.
#[local] Instance willing_solver_laws : SolverLaws.
Proof. by split. Qed.

#[local] Instance sample_precompiles : Precompiles := {|
  precompile_run := fun _ _ => None;
  hash_name := fun _ _ => 88%positive;
  kzg_to_versioned_hash := fun _ => [];
  kzg_return_value := [];
  VERSIONED_HASH_VERSION_KZG := 1 |}.

(** No cheatcodes. *)
#[local] Instance sample_call_parts : CallParts := {|
  cheatcode_call := fun _ _ _ _ _ _ => xerr (Unsupported "cheatcode");
  create_address := fun a n => (a * 1000 + n) mod 2 ^ 160;
  create2_from_code := fun a salt code => (a * 1000 + uval salt + zlen code) mod 2 ^ 160;
  create2_symbol := fun _ _ _ => 99%positive;
  max_code_size := 24576 |}.

#[local] Instance sample_cheats_bound K : CheatBounds K.
Proof. intros d st to io ins oo os Hg. apply ensures_err. Qed.
#[local] Instance sample_cheats_truthful : CheatLaws (EI := truthful).
Proof. intros st to io ins oo os. apply keeps_err. Qed.

(** SLOAD 0, then CALL of the contract 21 without value; the contract 21 stores
    1 in its slot 0. *)
Definition caller_bytes : list Z := [96; 0; 84; 80; 96; 0; 96; 0; 96; 0; 96; 0; 96; 0; 96; 21; 90; 241; 0].
Definition storing_bytes : list Z := [96; 1; 96; 0; 85; 0].
Definition caller_code : @SymCode JumpTable := mkCode (SBytes.concrete caller_bytes) [].
Definition two_contracts : SymbolicWorld :=
  SWorld.install_code 21 (mkCode (SBytes.concrete storing_bytes) []) (SWorld.install_code 20 caller_code SWorld.default_world).

Definition caller_path (static : bool) : PathState :=
  set_world two_contracts (with_frame (fun _ =>
    mkFrame 0 20 (constant (U 20)) 20 2 (constant (U 2)) zero static sample_calldata [] empty_memory SReturnData.empty) sample_root).

Abbreviation run_caller := (SCall.external_call (sample_config None) sample_executor 10 (caller_path true) caller_code sample_exec).




(** The value of the call is 300 in the model, and the caller 300 has 100. *)
Lemma payment_follows_balances_witness :
  exists can_pay st' pushed ex',
    SCall.prepare_value_transfer sample_root 300 21 vx zero (CopyConcrete 0) sample_exec = Ret (inl (can_pay, st', pushed), ex') /\
    Exists (refused sample_model sample_root) (pushed ++ (if (can_pay : bool) then [] else [st'])).
Proof.
  assert (E : match SCall.prepare_value_transfer sample_root 300 21 vx zero (CopyConcrete 0) sample_exec with
              | Ret (inl _, _) => True | _ => False end) by (vm_compute; exact I).
  destruct (SCall.prepare_value_transfer _ _ _ _ _ _ _) as [[[[[can_pay st'] pushed]|e] ex']|] eqn:H; [|destruct E|destruct E].
  exists can_pay, st', pushed, ex'. split; [reflexivity|].
  exact (payment_follows_balances sample_model sample_root 300 21 vx zero (CopyConcrete 0) sample_exec can_pay st' pushed ex' (U 100) (U 0) (U 300)
    (Forall_nil_2 _) eq_refl eq_refl eq_refl H).
Defined.

Definition open_config : SymbolicConfig := mkConfig None None None None 1000 100 Bfs 4096 true.
Abbreviation failing_call := (SCall.call_symbolic_target open_config sample_executor (fun st _ => xret [mkCallOutcome _ CallFailure st])
  (caller_path false) KCall vx zero (EGasLeft 1%positive) zero (CopyConcrete 0) zero (CopyConcrete 0) sample_exec).

Lemma symbolic_target_failure_forgets_witness :
  exists st' pushed ex', failing_call = Ret (inl (Failure, st', pushed), ex') /\ constraints st' = constraints (caller_path false).
Proof.
  assert (E : match failing_call with Ret (inl (Failure, _, _), _) => True | _ => False end) by (vm_compute; exact I).
  destruct failing_call as [[[[[out st'] pushed]|e] ex']|] eqn:H; [destruct out; destruct E|destruct E|destruct E].
  exists st', pushed, ex'. split; [reflexivity|].
  exact (proj1 (symbolic_target_failure_forgets open_config sample_executor _ _ _ _ _ _ _ _ _ _ _ _ _ _ H)).
Defined.

(** The CALL of the contract 21 from a frame that may write; its operands are on
    the stack. *)
Definition calling_path : PathState :=
  set_stack [zero; zero; zero; zero; zero; constant (U 21); EGasLeft 1%positive] (set_pc 17 (caller_path false)).
Abbreviation call_step := (SCall.full_step (sample_config None) sample_executor 10 caller_code calling_path 241 sample_exec).

Lemma full_step_keeps_bounds_witness :
  exists st' ex', call_step = Ret (inl (Continue, st', []), ex') /\ zlen (stack (frame st')) <= 1024 /\ depth st' = 0.
Proof.
  assert (E : match call_step with Ret (inl (Continue, _, []), _) => True | _ => False end) by (vm_compute; exact I).
  destruct call_step as [[[[[out st'] pushed]|e] ex']|] eqn:H; [|destruct E|destruct E]. destruct out; try destruct E.
  destruct pushed; [|destruct E]. exists st', ex'. split; [reflexivity|].
  destruct (full_step_keeps_bounds (sample_config None) sample_executor 10 caller_code calling_path 241 sample_exec _ _ _ _
    ltac:(vm_compute; discriminate) H) as (H1 & H2 & _). exact (conj H1 H2).
Defined.

(** KECCAK256 of 64 bytes of memory: the table gets an entry. *)
Definition hash_frame : CallFrame :=
  mkFrame 0 9 (constant (U 9)) 9 2 (constant (U 2)) vx false sample_calldata [constant (U 64); zero] empty_memory SReturnData.empty.
Definition hash_path : PathState := with_frame (fun _ => hash_frame) sample_root.

Abbreviation hash_step := (SCall.full_step (sample_config None) sample_executor 10 branch_code hash_path 32 sample_exec).

Lemma full_step_keeps_table_witness :
  exists r ex', hash_step = Ret (r, ex') /\ size (cx_preimages ex') = 1%nat /\ table_ok (cx_preimages ex').
Proof.
  assert (E : match hash_step with Ret (_, ex') => size (cx_preimages ex') = 1%nat | _ => False end) by (vm_compute; reflexivity).
  destruct hash_step as [[r ex']|] eqn:H; [|destruct E]. exists r, ex'. split; [reflexivity|]. split; [exact E|].
  exact (full_step_keeps_table (sample_config None) sample_executor 10 branch_code hash_path 32 sample_exec r ex' H empty_table_ok).
Defined.


Lemma call_path_rounds_suffice_witness :
  SCall.run_call_path (HD := SCall.full_handlers (sample_config None) sample_executor 10) (sample_config None) sample_executor caller_code
    2000 PathExternal (caller_path false) [] [] sample_exec =
  SCall.run_call_path (HD := SCall.full_handlers (sample_config None) sample_executor 10) (sample_config None) sample_executor caller_code
    1001 PathExternal (caller_path false) [] [] sample_exec.
Proof.
  exact (call_path_rounds_suffice (sample_config None) sample_executor 10 2000 caller_code PathExternal (caller_path false) [] [] sample_exec
    ltac:(vm_compute; discriminate) ltac:(vm_compute; discriminate) ltac:(vm_compute; lia)).
Defined.
