(* ===== verification/SymContext.v ===== *)
(** * SymContext: what a conjunction says about the words in it

    Models [ConstraintContext] of runtime/solver/normalize/mod.rs and
    rounding.rs: the facts that the normaliser and the monotonicity check read
    off the constraints of a query (bounds, exact values, products that do not
    wrap), the interval and width analyses over them, and the rounding
    relations.  [ctx_ok] says that the facts hold under a model; every
    operation that records facts keeps it, and the analyses are sound. *)

From Stdlib Require Import ZArith Lia Bool.
From stdpp Require Import base list option.
From S2P Require Import Prelude SymWord SymExpr SymSimpl SymSound SymCmp.
Local Open Scope Z_scope.

(** ** Words *)
Definition u_max (a b : U256) : U256 := if u_leb a b then b else a.
Definition u_min (a b : U256) : U256 := if u_leb a b then a else b.
(** [checked_add], [checked_sub] and [checked_mul] of [U256]. *)
Definition u_checked_add (a b : U256) : option U256 :=
  if uval a + uval b <? word_modulus then Some (U (uval a + uval b)) else None.
Definition u_checked_sub (a b : U256) : option U256 :=
  if uval b <=? uval a then Some (U (uval a - uval b)) else None.
Definition u_checked_mul (a b : U256) : option U256 :=
  if uval a * uval b <? word_modulus then Some (U (uval a * uval b)) else None.

Record WordInterval := mkInterval { wi_min : U256; wi_max : U256 }.

Module SInterval.
Definition new (min max : U256) : option WordInterval :=
  if u_leb min max then Some (mkInterval min max) else None.
Definition exact (value : U256) : WordInterval := mkInterval value value.
Definition with_bounds (i : WordInterval) (lower upper : option U256) : option WordInterval :=
  new (u_max (wi_min i) (default ZERO lower)) (u_min (wi_max i) (default MAX upper)).
End SInterval.

(** ** The context

    A [HashMap] is an association list with the newest entry first, a
    [HashSet] the list of its elements. *)
Record ConstraintContext := mkCtx {
  upper_bounds : list (SymExpr * U256);
  lower_bounds : list (SymExpr * U256);
  unsigned_lower_bounds : list (SymExpr * U256);
  exact_values : list (SymExpr * U256);
  conflicting_exact_values : list SymExpr;
  non_wrapping_products : list (SymExpr * SymExpr)
}.

Definition MAX_LOCAL_ANALYSIS_NODES : Z := 256.
Definition MAX_CONTEXTUAL_PASSES : nat := 4.

Definition const_side_bound (l r : SymExpr) : option (SymExpr * U256) :=
  match as_const r with
  | Some value => Some (l, value)
  | None => option_map (fun value => (r, value)) (as_const l)
  end.

Module SCtx.
Definition empty : ConstraintContext := mkCtx [] [] [] [] [] [].
Definition get (e : SymExpr) (m : list (SymExpr * U256)) : option U256 := assoc expr_eqb e m.
(** [map.remove(key)]: no entry of the key is l. *)
Definition remove (e : SymExpr) (m : list (SymExpr * U256)) : list (SymExpr * U256) :=
  List.filter (fun '(k, _) => negb (expr_eqb e k)) m.

Definition set_upper m c := mkCtx m (lower_bounds c) (unsigned_lower_bounds c) (exact_values c) (conflicting_exact_values c) (non_wrapping_products c).
Definition set_lower m c := mkCtx (upper_bounds c) m (unsigned_lower_bounds c) (exact_values c) (conflicting_exact_values c) (non_wrapping_products c).
Definition set_unsigned_lower m c := mkCtx (upper_bounds c) (lower_bounds c) m (exact_values c) (conflicting_exact_values c) (non_wrapping_products c).
Definition set_exact m s c := mkCtx (upper_bounds c) (lower_bounds c) (unsigned_lower_bounds c) m s (non_wrapping_products c).
Definition set_products s c := mkCtx (upper_bounds c) (lower_bounds c) (unsigned_lower_bounds c) (exact_values c) (conflicting_exact_values c) s.

(** *** What single constraints say *)
Definition record_exact_value_constraint (constraint : SymBoolExpr) (c : ConstraintContext) : ConstraintContext :=
  match constraint with
  | BCmp Eq l r =>
      match const_side_bound l r with
      | Some (EVar s as expr, value) =>
          if existsb (expr_eqb expr) (conflicting_exact_values c) then c
          else match get expr (exact_values c) with
               | Some current =>
                   if negb (u_eqb current value)
                   then set_exact (remove expr (exact_values c)) (expr :: conflicting_exact_values c) c
                   else set_exact ((expr, value) :: exact_values c) (conflicting_exact_values c) c
               | None => set_exact ((expr, value) :: exact_values c) (conflicting_exact_values c) c
               end
      | _ => c
      end
  | _ => c
  end.

Definition minus_one (bound : U256) : option U256 :=
  if is_zero bound then None else Some (wrapping_sub bound ONE).
Definition with_word (e : SymExpr) : option U256 -> option (SymExpr * U256) := option_map (fun b => (e, b)).

Definition upper_bound_constraint (constraint : SymBoolExpr) : option (SymExpr * U256) :=
  match constraint with
  | BCmp op l r =>
      match op with
      | Eq => const_side_bound l r
      | Ult => match as_const r with Some bound => with_word l (minus_one bound) | None => None end
      | Ule => with_word l (as_const r)
      | Ugt => match as_const l with Some bound => with_word r (minus_one bound) | None => None end
      | Uge => with_word r (as_const l)
      | Slt | Sgt => None
      end
  | BNot (BCmp op l r) =>
      match op with
      | Ugt => with_word l (as_const r)
      | Uge => match as_const r with Some bound => with_word l (minus_one bound) | None => None end
      | Ult => with_word r (as_const l)
      | Ule => match as_const l with Some bound => with_word r (minus_one bound) | None => None end
      | Eq | Slt | Sgt => None
      end
  | _ => None
  end.

Definition lower_bound_constraint (constraint : SymBoolExpr) : option (SymExpr * U256) :=
  match constraint with
  | BCmp Eq l r => const_side_bound l r
  | BNot (BCmp Eq l r) =>
      if const_is r is_zero then Some (l, ONE)
      else if const_is l is_zero then Some (r, ONE) else None
  | _ => None
  end.

Definition plus_one (bound : U256) : option U256 := u_checked_add bound ONE.

Definition unsigned_lower_bound_constraint (constraint : SymBoolExpr) : option (SymExpr * U256) :=
  match constraint with
  | BCmp op l r =>
      match op with
      | Eq => const_side_bound l r
      | Ult => match as_const l with Some bound => with_word r (plus_one bound) | None => None end
      | Ule => with_word r (as_const l)
      | Ugt => match as_const r with Some bound => with_word l (plus_one bound) | None => None end
      | Uge => with_word l (as_const r)
      | Slt | Sgt => None
      end
  | BNot (BCmp op l r) =>
      match op with
      | Ult => with_word l (as_const r)
      | Ule => match as_const r with Some bound => with_word l (plus_one bound) | None => None end
      | Ugt => with_word r (as_const l)
      | Uge => match as_const l with Some bound => with_word r (plus_one bound) | None => None end
      | Eq | Slt | Sgt => None
      end
  | _ => None
  end.

(** *** Recording bounds: the flag says that the context changed. *)
Definition record_upper_bound (expr : SymExpr) (bound : U256) (c : ConstraintContext) : bool * ConstraintContext :=
  match get expr (upper_bounds c) with
  | Some current => if u_ltb bound current then (true, set_upper ((expr, bound) :: upper_bounds c) c) else (false, c)
  | None => (true, set_upper ((expr, bound) :: upper_bounds c) c)
  end.

Definition record_lower_bound (expr : SymExpr) (bound : U256) (c : ConstraintContext) : bool * ConstraintContext :=
  match get expr (lower_bounds c) with
  | Some current => if u_ltb current bound then (true, set_lower ((expr, bound) :: lower_bounds c) c) else (false, c)
  | None => (true, set_lower ((expr, bound) :: lower_bounds c) c)
  end.

Definition record_upper_bound_constraint (constraint : SymBoolExpr) (c : ConstraintContext) : ConstraintContext :=
  match upper_bound_constraint constraint with
  | Some (expr, bound) => snd (record_upper_bound expr bound c)
  | None => c
  end.

Definition record_lower_bound_constraint (constraint : SymBoolExpr) (c : ConstraintContext) : ConstraintContext :=
  match lower_bound_constraint constraint with
  | Some (expr, bound) => snd (record_lower_bound expr bound c)
  | None => c
  end.

Definition record_unsigned_lower_bound_constraint (constraint : SymBoolExpr) (promote_to_interval : bool)
    (c : ConstraintContext) : ConstraintContext :=
  match unsigned_lower_bound_constraint constraint with
  | Some (expr, bound) =>
      let entry := default ZERO (get expr (unsigned_lower_bounds c)) in
      let c := set_unsigned_lower ((expr, u_max entry bound) :: unsigned_lower_bounds c) c in
      if promote_to_interval then snd (record_lower_bound expr bound c) else c
  | None => c
  end.

(** *** Propagation along the order [l <= r] *)
Definition propagate_less_or_equal_bounds (l r : SymExpr) (c : ConstraintContext) : bool * ConstraintContext :=
  let upper := get r (upper_bounds c) in
  let lower := get l (lower_bounds c) in
  let '(upper_changed, c) := match upper with Some bound => record_upper_bound l bound c | None => (false, c) end in
  let '(lower_changed, c) := match lower with Some bound => record_lower_bound r bound c | None => (false, c) end in
  (upper_changed || lower_changed, c).

Definition propagate_order_bounds (constraint : SymBoolExpr) (c : ConstraintContext) : bool * ConstraintContext :=
  match constraint with
  | BCmp op l r =>
      match op with
      | Ult | Ule => propagate_less_or_equal_bounds l r c
      | Ugt | Uge => propagate_less_or_equal_bounds r l c
      | Eq =>
          let '(changed, c) := propagate_less_or_equal_bounds l r c in
          let '(changed', c) := propagate_less_or_equal_bounds r l c in
          (changed' || changed, c)
      | Slt | Sgt => (false, c)
      end
  | BNot (BCmp op l r) =>
      match op with
      | Ult | Ule => propagate_less_or_equal_bounds r l c
      | Ugt | Uge => propagate_less_or_equal_bounds l r c
      | Eq | Slt | Sgt => (false, c)
      end
  | _ => (false, c)
  end.

(** One round over the constraints, and the rounds until nothing changes. *)
Definition round {A} (f : A -> ConstraintContext -> bool * ConstraintContext) (l : list A) (c : ConstraintContext)
  : bool * ConstraintContext :=
  fold_left (fun '(changed, c) a => let '(changed', c) := f a c in (changed || changed', c)) l (false, c).

Fixpoint rounds {A} (f : A -> ConstraintContext -> bool * ConstraintContext) (l : list A) (n : nat)
    (c : ConstraintContext) : ConstraintContext :=
  match n with
  | O => c
  | S n => let '(changed, c) := round f l c in if changed then rounds f l n c else c
  end.

Definition record_constraint (promote_unsigned_bounds : bool) (c : ConstraintContext) (constraint : SymBoolExpr)
  : ConstraintContext :=
  record_unsigned_lower_bound_constraint constraint promote_unsigned_bounds
    (record_lower_bound_constraint constraint
      (record_upper_bound_constraint constraint (record_exact_value_constraint constraint c))).

Definition from_constraints_with_lower_bounds (constraints : list SymBoolExpr) (constraint_count : nat)
    (promote_unsigned_bounds : bool) : ConstraintContext :=
  rounds propagate_order_bounds constraints constraint_count
    (fold_left (record_constraint promote_unsigned_bounds) constraints empty).

Definition from_constraints (constraints : list SymBoolExpr) (constraint_count : nat) : ConstraintContext :=
  from_constraints_with_lower_bounds constraints constraint_count true.

Definition new (constraints : list SymBoolExpr) : ConstraintContext :=
  from_constraints constraints (length constraints).
End SCtx.

(** ** The interval analysis

    A computation threads the memo table and the visit budget; [None] is the
    [?] return. *)
Record IvState := mkIv { iv_cache : list (SymExpr * option WordInterval); iv_remaining : Z }.
Definition IvM (A : Type) := IvState -> option A * IvState.

Definition iv_ret {A} (a : A) : IvM A := fun st => (Some a, st).
Definition iv_none {A} : IvM A := fun st => (None, st).
Definition iv_of {A} (o : option A) : IvM A := fun st => (o, st).
Definition iv_bind {A B} (m : IvM A) (k : A -> IvM B) : IvM B := fun st =>
  match m st with
  | (Some a, st) => k a st
  | (None, st) => (None, st)
  end.
(** [m.or_else(k)], and [m.unwrap_or(a)]. *)
Definition iv_or {A} (m k : IvM A) : IvM A := fun st =>
  match m st with
  | (Some a, st) => (Some a, st)
  | (None, st) => k st
  end.

Declare Scope iv_scope.
Notation "'let?' x := c 'in' k" := (iv_bind c (fun x => k))
  (at level 200, x name, c at level 100, k at level 200) : iv_scope.

Record RoundingBounds := mkRounding { rb_anchor : SymExpr; rb_below : U256; rb_above : U256 }.

Module SBoundsOf.
Definition constant_mul_operands (expr : SymExpr) : option (SymExpr * U256) :=
  match expr with
  | EBinOp Mul l r => const_side_bound l r
  | _ => None
  end.

(** Matches [(dividend / d) * d] for a positive constant [d]. *)
Definition rounded_product_operands (expr : SymExpr) : option (SymExpr * U256) :=
  match constant_mul_operands expr with
  | Some (quotient, factor) =>
      match udiv_operands quotient with
      | Some (dividend, divisor) =>
          if const_is divisor (u_eqb factor) && negb (is_zero factor) then Some (dividend, factor) else None
      | None => None
      end
  | None => None
  end.

(** The offset of a dividend: the anchor, the bias and the largest addition. *)
Definition rounding_offset (dividend : SymExpr) (divisor width : U256) : option (SymExpr * U256 * U256) :=
  match dividend with
  | EBinOp Add anchor bias =>
      match as_const bias with
      | Some bias => if u_leb bias width then Some (anchor, bias, bias) else None
      | None => None
      end
  | EBinOp Sub sum one =>
      if const_is one (u_eqb ONE) then
        match sum with
        | EBinOp Add anchor bias => if const_is bias (u_eqb divisor) then Some (anchor, width, divisor) else None
        | _ => None
        end
      else None
  | _ => None
  end.

Section Analysis.
Variable c : ConstraintContext.
Local Open Scope iv_scope.

Definition has_non_wrapping_product (l r : SymExpr) : bool :=
  existsb (pair_eqb (l, r)) (non_wrapping_products c) || existsb (pair_eqb (r, l)) (non_wrapping_products c).

Section Body.
(** The recursive call [interval_cached]. *)
Variable rec : SymExpr -> IvM WordInterval.

Definition rounding_bounds_cached (expr : SymExpr) (anchor : option SymExpr) : IvM RoundingBounds :=
  match rounded_product_operands expr with
  | None => iv_none
  | Some (dividend, divisor) =>
      let width := wrapping_sub divisor ONE in
      let raw := mkRounding dividend width ZERO in
      if match anchor with Some a => expr_eqb a dividend | None => false end then iv_ret raw
      else match rounding_offset dividend divisor width with
           | Some (anchor, bias, addition) =>
               iv_or (let? range := rec anchor in
                      match u_checked_add (wi_max range) addition with
                      | Some _ => iv_ret (mkRounding anchor (wrapping_sub width bias) bias)
                      | None => iv_none
                      end) (iv_ret raw)
           | None => iv_ret raw
           end
  end.

Definition rounding_error_interval (l r : SymExpr) : IvM WordInterval :=
  iv_or
    (let? bounds := rounding_bounds_cached l (Some r) in
     if expr_eqb (rb_anchor bounds) r && is_zero (rb_below bounds)
     then iv_ret (mkInterval ZERO (rb_above bounds)) else iv_none)
    (let? bounds := rounding_bounds_cached r (Some l) in
     if expr_eqb (rb_anchor bounds) l && is_zero (rb_above bounds)
     then iv_ret (mkInterval ZERO (rb_below bounds)) else iv_none).

Definition structural_interval (expr : SymExpr) : IvM WordInterval :=
  match expr with
  | EConst value => iv_ret (SInterval.exact value)
  | EBinOp And l r =>
      let? mask := iv_of (match as_const l with Some v => Some v | None => as_const r end) in
      iv_ret (mkInterval ZERO mask)
  | EBinOp Add l r =>
      let? l := rec l in
      let? r := rec r in
      let? min := iv_of (u_checked_add (wi_min l) (wi_min r)) in
      let? max := iv_of (u_checked_add (wi_max l) (wi_max r)) in
      iv_ret (mkInterval min max)
  | EBinOp Sub l r =>
      iv_or (rounding_error_interval l r)
        (let? l := rec l in
         let? r := rec r in
         if u_ltb (wi_max l) (wi_min r)
         then iv_ret (mkInterval (wrapping_sub (wi_min l) (wi_max r)) (wrapping_sub (wi_max l) (wi_min r)))
         else if u_ltb (wi_min l) (wi_max r) then iv_none
         else
           let? min := iv_of (u_checked_sub (wi_min l) (wi_max r)) in
           let? max := iv_of (u_checked_sub (wi_max l) (wi_min r)) in
           iv_ret (mkInterval min max))
  | EBinOp Mul l r =>
      let guarded := has_non_wrapping_product l r in
      let? l := rec l in
      let? r := rec r in
      let? min := iv_of (u_checked_mul (wi_min l) (wi_min r)) in
      let? max := iv_of (match u_checked_mul (wi_max l) (wi_max r) with
                         | Some max => Some max
                         | None => if guarded then Some MAX else None
                         end) in
      iv_ret (mkInterval min max)
  | EBinOp UDiv numerator denominator =>
      let? numerator := iv_or (rec numerator) (iv_ret (mkInterval ZERO MAX)) in
      let? denominator := rec denominator in
      if is_zero (wi_min denominator) then iv_none
      else iv_ret (mkInterval (u_div (wi_min numerator) (wi_max denominator))
                              (u_div (wi_max numerator) (wi_min denominator)))
  | EBinOp Shr value shift =>
      let? shift := iv_of (as_const shift) in
      if u_leb (U 256) shift then iv_ret (SInterval.exact ZERO)
      else
        let? value := rec value in
        iv_ret (mkInterval (u_shr (wi_min value) (uval shift)) (u_shr (wi_max value) (uval shift)))
  | EIte _ l r =>
      let? l := rec l in
      let? r := rec r in
      iv_ret (mkInterval (u_min (wi_min l) (wi_min r)) (u_max (wi_max l) (wi_max r)))
  | _ => iv_none
  end.

Definition iv_insert (expr : SymExpr) (i : option WordInterval) (st : IvState) : IvState :=
  mkIv ((expr, i) :: iv_cache st) (iv_remaining st).

Definition interval_body (expr : SymExpr) : IvM WordInterval := fun st =>
  match assoc expr_eqb expr (iv_cache st) with
  | Some interval => (interval, st)
  | None =>
      let lower := SCtx.get expr (lower_bounds c) in
      let upper := SCtx.get expr (upper_bounds c) in
      let explicit_bounds :=
        match lower, upper with
        | None, None => None
        | _, _ => SInterval.new (default ZERO lower) (default MAX upper)
        end in
      if iv_remaining st =? 0 then (explicit_bounds, iv_insert expr explicit_bounds st)
      else
        let st := mkIv (iv_cache st) (iv_remaining st - 1) in
        let '(interval, st) := iv_or (structural_interval expr) (iv_of explicit_bounds) st in
        let interval := match interval with Some i => SInterval.with_bounds i lower upper | None => None end in
        (interval, iv_insert expr interval st)
  end.
End Body.

(** The recursive calls are on parts of the expression. *)
Fixpoint interval_fuel (fuel : nat) (expr : SymExpr) : IvM WordInterval :=
  match fuel with
  | O => iv_none
  | S fuel => interval_body (interval_fuel fuel) expr
  end.

Definition interval_cached (expr : SymExpr) : IvM WordInterval := interval_fuel (esize expr) expr.

Definition new_iv : IvState := mkIv [] MAX_LOCAL_ANALYSIS_NODES.
Definition interval (expr : SymExpr) : option WordInterval := fst (interval_cached expr new_iv).
Definition rounding_bounds (expr : SymExpr) (anchor : option SymExpr) : option RoundingBounds :=
  fst (rounding_bounds_cached interval_cached expr anchor new_iv).

(** ** The width analysis *)
Record BwState := mkBw { bw_widths : list (SymExpr * Z); bw_remaining : Z }.

(** The recorded upper bound caps the width, and the result is memoised. *)
Definition finish_bits (expr : SymExpr) (computed : option Z * BwState) : option Z * BwState :=
  let '(bits, st) := computed in
  match bits with
  | None => (None, st)
  | Some bits =>
      let bits := match SCtx.get expr (upper_bounds c) with
                  | Some bound => Z.min bits (Z.max (bit_len bound) 1)
                  | None => bits
                  end in
      (Some bits, mkBw ((expr, bits) :: bw_widths st) (bw_remaining st))
  end.

Fixpoint unsigned_bits_cached (expr : SymExpr) (st : BwState) : option Z * BwState :=
  match assoc expr_eqb expr (bw_widths st) with
  | Some bits => (Some bits, st)
  | None =>
      if bw_remaining st =? 0 then (None, st)
      else
        let st := mkBw (bw_widths st) (bw_remaining st - 1) in
        let two f x y :=
          match unsigned_bits_cached x st with
          | (None, st) => (None, st)
          | (Some a, st) => match unsigned_bits_cached y st with
                            | (None, st) => (None, st)
                            | (Some b, st) => (Some (f a b), st)
                            end
          end in
        finish_bits expr
          match expr with
          | EConst value => (Some (Z.max (bit_len value) 1), st)
          | EBinOp And l r =>
              match as_const r with
              | Some mask => match unsigned_bits_cached l st with
                             | (None, st) => (None, st)
                             | (Some b, st) => (Some (Z.min b (bit_len mask)), st)
                             end
              | None => (Some 256, st)
              end
          | EBinOp Add l r => two (fun a b => Z.min (sat_add (Z.max a b) 1) 256) l r
          | EBinOp Mul l r => two (fun a b => Z.min (sat_add a b) 256) l r
          | EBinOp UDiv l _ => unsigned_bits_cached l st
          | EIte _ l r => two Z.max l r
          | _ => (Some 256, st)
          end
  end.

Definition new_bw : BwState := mkBw [] MAX_LOCAL_ANALYSIS_NODES.
Definition unsigned_bits (expr : SymExpr) : Z := default 256 (fst (unsigned_bits_cached expr new_bw)).

(** [zip] evaluates both sides. *)
Definition mul_cannot_overflow_256 (l r : SymExpr) : bool :=
  if has_non_wrapping_product l r then true
  else
    let '(li, st) := interval_cached l new_iv in
    let '(ri, _) := interval_cached r st in
    if match li, ri with
       | Some li, Some ri => match u_checked_mul (wi_max li) (wi_max ri) with Some _ => true | None => false end
       | _, _ => false
       end then true
    else
      let '(lb, st) := unsigned_bits_cached l new_bw in
      let '(rb, _) := unsigned_bits_cached r st in
      match lb, rb with
      | Some lb, Some rb => sat_add lb rb <=? 256
      | _, _ => false
      end.
End Analysis.
End SBoundsOf.

(** ** Soundness *)
Lemma u_leb_le a b : u_leb a b = true <-> uval a <= uval b.
Proof. apply Z.leb_le. Qed.
Lemma u_ltb_lt a b : u_ltb a b = true <-> uval a < uval b.
Proof. apply Z.ltb_lt. Qed.
Lemma uval_u_max a b : uval (u_max a b) = Z.max (uval a) (uval b).
Proof. unfold u_max, u_leb. destruct (Z.leb_spec (uval a) (uval b)); lia. Qed.
Lemma uval_u_min a b : uval (u_min a b) = Z.min (uval a) (uval b).
Proof. unfold u_min, u_leb. destruct (Z.leb_spec (uval a) (uval b)); lia. Qed.

Lemma u_checked_add_spec a b r : u_checked_add a b = Some r -> uval r = uval a + uval b.
Proof.
  unfold u_checked_add. destruct (Z.ltb_spec (uval a + uval b) word_modulus); [|done]. intros [= <-].
  pose proof (uval_range a). pose proof (uval_range b). apply uval_U_small. lia.
Qed.
Lemma u_checked_sub_spec a b r : u_checked_sub a b = Some r -> uval r = uval a - uval b.
Proof.
  unfold u_checked_sub. destruct (Z.leb_spec (uval b) (uval a)); [|done]. intros [= <-].
  pose proof (uval_range a). pose proof (uval_range b). apply uval_U_small. lia.
Qed.
Lemma u_checked_mul_spec a b r : u_checked_mul a b = Some r -> uval r = uval a * uval b.
Proof.
  unfold u_checked_mul. destruct (Z.ltb_spec (uval a * uval b) word_modulus); [|done]. intros [= <-].
  pose proof (uval_range a). pose proof (uval_range b). apply uval_U_small. nia.
Qed.
Lemma uval_sub_le a b : uval b <= uval a -> uval (wrapping_sub a b) = uval a - uval b.
Proof. intros. pose proof (uval_range a). pose proof (uval_range b). apply uval_U_small. lia. Qed.
Lemma uval_sub_lt a b : uval a < uval b -> uval (wrapping_sub a b) = uval a - uval b + word_modulus.
Proof.
  intros. pose proof (uval_range a). pose proof (uval_range b). unfold wrapping_sub. rewrite uval_U.
  rewrite <- (Z.mod_add _ 1) by (by vm_compute). rewrite Z.mod_small; lia.
Qed.
Lemma uval_div a b : uval (u_div a b) = uval a / uval b.
Proof.
  pose proof (uval_range a). pose proof (uval_range b). apply uval_U_small.
  destruct (Z.eq_dec (uval b) 0) as [->|]; [rewrite Zdiv_0_r; by vm_compute|].
  split; [apply Z.div_pos; lia|]. apply Z.div_lt_upper_bound; nia.
Qed.
Lemma uval_shr a s : 0 <= s -> uval (u_shr a s) = uval a / 2 ^ s.
Proof.
  intros. pose proof (uval_range a). unfold u_shr. rewrite Z.shiftr_div_pow2 by done.
  assert (0 < 2 ^ s) by (apply Z.pow_pos_nonneg; lia). apply uval_U_small. split; [apply Z.div_pos; lia|].
  apply Z.div_lt_upper_bound; nia.
Qed.

Section ContextSound.
Context `{SA : SignedArith, HF : HashFns}.
Variable model : SymbolicModel.
Abbreviation den := (denote_word model).
Abbreviation denb := (denote_bool model).
Import SCtx SBoundsOf.

(** A recorded fact of a word. *)
Definition fact (R : U256 -> U256 -> Prop) (m : list (SymExpr * U256)) : Prop :=
  forall e b, get e m = Some b -> forall v, den e = Some v -> R v b.
Definition above (v b : U256) : Prop := uval b <= uval v.
Definition below (v b : U256) : Prop := uval v <= uval b.

(** The product of two words does not wrap. *)
Definition fits (l r : SymExpr) : Prop :=
  forall a b, den l = Some a -> den r = Some b -> uval a * uval b < word_modulus.

Record ctx_ok (c : ConstraintContext) : Prop := {
  ok_upper : fact below (upper_bounds c);
  ok_lower : fact above (lower_bounds c);
  ok_unsigned : fact above (unsigned_lower_bounds c);
  ok_exact : fact eq (exact_values c);
  ok_products : Forall (fun '(l, r) => fits l r) (non_wrapping_products c)
}.

Definition in_interval (v : U256) (i : WordInterval) : Prop := uval (wi_min i) <= uval v <= uval (wi_max i).
Definition interval_ok (e : SymExpr) (i : WordInterval) : Prop := forall v, den e = Some v -> in_interval v i.
Definition iv_ok (st : IvState) : Prop := forall e i, assoc expr_eqb e (iv_cache st) = Some (Some i) -> interval_ok e i.

(** A computation keeps the table sound and its result, if any, has [P]. *)
Definition iv_sound {A} (m : IvM A) (P : A -> Prop) : Prop :=
  forall st, iv_ok st -> iv_ok (snd (m st)) /\ (forall a, fst (m st) = Some a -> P a).

Lemma iv_sound_ret {A} (a : A) (P : A -> Prop) : P a -> iv_sound (iv_ret a) P.
Proof. intros Ha st Hst. split; [done|]. by intros ? [= <-]. Qed.
Lemma iv_sound_none {A} (P : A -> Prop) : iv_sound iv_none P.
Proof. intros st Hst. by split. Qed.
Lemma iv_sound_of {A} (o : option A) (P : A -> Prop) : (forall a, o = Some a -> P a) -> iv_sound (iv_of o) P.
Proof. intros Ho st Hst. by split. Qed.
Lemma iv_sound_bind {A B} (m : IvM A) (k : A -> IvM B) P Q :
  iv_sound m P -> (forall a, P a -> iv_sound (k a) Q) -> iv_sound (iv_bind m k) Q.
Proof.
  intros Hm Hk st Hst. unfold iv_bind. specialize (Hm st Hst) as [H1 H2].
  destruct (m st) as [[a|] st']; [|done]. apply Hk; [by apply H2|done].
Qed.
Lemma iv_bind_of {A B} (o : option A) (k : A -> IvM B) Q :
  (forall a, o = Some a -> iv_sound (k a) Q) -> iv_sound (iv_bind (iv_of o) k) Q.
Proof. intros Hk. eapply iv_sound_bind; [by apply (iv_sound_of _ (fun a => o = Some a))|done]. Qed.
Lemma iv_sound_or {A} (m k : IvM A) P : iv_sound m P -> iv_sound k P -> iv_sound (iv_or m k) P.
Proof.
  intros Hm Hk st Hst. unfold iv_or. specialize (Hm st Hst) as [H1 H2].
  destruct (m st) as [[a|] st']; [by split|by apply Hk].
Qed.
Lemma iv_sound_weaken {A} (m : IvM A) (P Q : A -> Prop) : iv_sound m P -> (forall a, P a -> Q a) -> iv_sound m Q.
Proof. intros Hm HPQ st Hst. specialize (Hm st Hst) as [? ?]. split; [done|]. eauto. Qed.

Lemma get_remove e k m : get k (remove e m) = if expr_eqb e k then None else get k m.
Proof.
  unfold get. induction m as [|[k' v] m IH]; simpl; [by destruct (expr_eqb e k)|].
  destruct (expr_eqb e k') eqn:E1; simpl; rewrite IH; destruct (expr_eqb e k) eqn:E2, (expr_eqb k k') eqn:E3; try done.
  all: rewrite ?expr_eqb_eq in *; subst; by rewrite (proj2 (expr_eqb_eq _ _) eq_refl) in *.
Qed.

Lemma fact_cons (R : U256 -> U256 -> Prop) m e b :
  fact R m -> (forall v, den e = Some v -> R v b) -> fact R ((e, b) :: m).
Proof.
  intros Hm Hb k b'. unfold get. simpl. destruct (expr_eqb_spec k e) as [->|]; [|by apply Hm].
  intros [= <-]. apply Hb.
Qed.
Lemma fact_remove R m e : fact R m -> fact R (remove e m).
Proof. intros Hm k b. rewrite get_remove. case_match; [done|apply Hm]. Qed.

Section Analyses.
Variable c : ConstraintContext.
Hypothesis c_ok : ctx_ok c.

Lemma in_interval_full v : in_interval v (mkInterval ZERO MAX).
Proof. split; cbn [wi_min wi_max]; rewrite ?uval_ZERO, ?uval_MAX; pose proof (uval_range v); lia. Qed.

Lemma new_interval_ok lo hi i v : SInterval.new lo hi = Some i -> uval lo <= uval v -> uval v <= uval hi -> in_interval v i.
Proof. unfold SInterval.new. case_match; [|done]. by intros [= <-]. Qed.

Lemma default_lower v (o : option U256) : (forall b, o = Some b -> uval b <= uval v) -> uval (default ZERO o) <= uval v.
Proof. destruct o; cbn [default from_option id]; [auto|]. intros _. rewrite uval_ZERO. apply uval_range. Qed.
Lemma default_upper v (o : option U256) : (forall b, o = Some b -> uval v <= uval b) -> uval v <= uval (default MAX o).
Proof. destruct o; cbn [default from_option id]; [auto|]. intros _. rewrite uval_MAX. pose proof (uval_range v). lia. Qed.

Lemma fits_product l r : has_non_wrapping_product c l r = true -> fits l r.
Proof.
  unfold has_non_wrapping_product. pose proof (ok_products c c_ok) as Hp. rewrite List.Forall_forall in Hp.
  rewrite orb_true_iff, !existsb_exists. intros [([x y] & Hin & Hx%pair_eqb_eq)|([x y] & Hin & Hx%pair_eqb_eq)]; simplify_eq.
  - by apply Hp in Hin.
  - apply Hp in Hin. intros a b Ha Hb. rewrite Z.mul_comm. by apply Hin.
Qed.

(** *** Operations on intervals *)
Lemma add_interval a b l r mn mx :
  in_interval a l -> in_interval b r -> u_checked_add (wi_min l) (wi_min r) = Some mn ->
  u_checked_add (wi_max l) (wi_max r) = Some mx -> in_interval (wrapping_add a b) (mkInterval mn mx).
Proof.
  intros [? ?] [? ?] Hn%u_checked_add_spec Hx%u_checked_add_spec. unfold in_interval; cbn [wi_min wi_max].
  pose proof (uval_range mx). pose proof (uval_range a). pose proof (uval_range b).
  unfold wrapping_add. rewrite uval_U_small; lia.
Qed.

Lemma sub_interval_wrap a b l r :
  in_interval a l -> in_interval b r -> uval (wi_max l) < uval (wi_min r) ->
  in_interval (wrapping_sub a b) (mkInterval (wrapping_sub (wi_min l) (wi_max r)) (wrapping_sub (wi_max l) (wi_min r))).
Proof. intros [? ?] [? ?] Hlt. unfold in_interval; cbn [wi_min wi_max]. rewrite !uval_sub_lt by lia. lia. Qed.

Lemma sub_interval a b l r mn mx :
  in_interval a l -> in_interval b r -> u_checked_sub (wi_min l) (wi_max r) = Some mn ->
  u_checked_sub (wi_max l) (wi_min r) = Some mx -> in_interval (wrapping_sub a b) (mkInterval mn mx).
Proof.
  intros [? ?] [? ?] Hn%u_checked_sub_spec Hx%u_checked_sub_spec. unfold in_interval; cbn [wi_min wi_max].
  pose proof (uval_range mn). rewrite uval_sub_le; lia.
Qed.

(** The upper end of a guarded product is the largest word. *)
Lemma mul_interval a b l r mn mx (guarded : bool) :
  in_interval a l -> in_interval b r -> (guarded = true -> uval a * uval b < word_modulus) ->
  u_checked_mul (wi_min l) (wi_min r) = Some mn ->
  match u_checked_mul (wi_max l) (wi_max r) with
  | Some max => Some max
  | None => if guarded then Some MAX else None
  end = Some mx -> in_interval (wrapping_mul a b) (mkInterval mn mx).
Proof.
  intros [? ?] [? ?] Hg Hn%u_checked_mul_spec Hx. unfold in_interval; cbn [wi_min wi_max].
  pose proof (uval_range a). pose proof (uval_range b). pose proof (uval_range (wi_min l)). pose proof (uval_range (wi_min r)).
  assert (Hp : uval a * uval b <= uval mx).
  { destruct (u_checked_mul (wi_max l) (wi_max r)) as [m|] eqn:E.
    - apply u_checked_mul_spec in E. simplify_eq. nia.
    - destruct guarded; simplify_eq. rewrite uval_MAX. specialize (Hg eq_refl). lia. }
  pose proof (uval_range mx). unfold wrapping_mul. rewrite uval_U_small; nia.
Qed.

Lemma div_interval a b l r :
  in_interval a l -> in_interval b r -> is_zero (wi_min r) = false ->
  in_interval (binop_eval UDiv a b) (mkInterval (u_div (wi_min l) (wi_max r)) (u_div (wi_max l) (wi_min r))).
Proof.
  intros [? ?] [? ?] Hz. unfold in_interval; cbn [wi_min wi_max binop_eval]. unfold is_zero in *.
  apply Z.eqb_neq in Hz. pose proof (uval_range (wi_min r)). pose proof (uval_range (wi_min l)).
  rewrite (proj2 (Z.eqb_neq (uval b) 0)) by lia. rewrite !uval_div. split.
  - apply Z.div_le_lower_bound; [lia|]. pose proof (Z.mul_div_le (uval (wi_min l)) (uval (wi_max r)) ltac:(lia)).
    assert (0 <= uval (wi_min l) / uval (wi_max r)) by (apply Z.div_pos; lia). nia.
  - apply Z.div_le_lower_bound; [lia|]. pose proof (Z.mul_div_le (uval a) (uval b) ltac:(lia)).
    assert (0 <= uval a / uval b) by (apply Z.div_pos; lia). nia.
Qed.

Lemma shr_interval a s i :
  in_interval a i -> u_leb (U 256) s = false ->
  in_interval (binop_eval Shr a s) (mkInterval (u_shr (wi_min i) (uval s)) (u_shr (wi_max i) (uval s))).
Proof.
  intros [? ?] Hs. unfold in_interval; cbn [wi_min wi_max binop_eval]. rewrite Hs. pose proof (uval_range s).
  rewrite !uval_shr by lia. assert (0 < 2 ^ uval s) by (apply Z.pow_pos_nonneg; lia).
  split; apply Z.div_le_mono; lia.
Qed.

Lemma and_mask_le a b : uval (u_and a b) <= uval b.
Proof.
  pose proof (uval_range a). pose proof (uval_range b). unfold u_and.
  assert (Hl : 0 <= Z.land (uval a) (uval b)) by (apply Z.land_nonneg; lia).
  etransitivity; [by apply uval_U_le|]. rewrite <- (Z2N.id (uval a)), <- (Z2N.id (uval b)), <- N2Z.inj_land by lia.
  apply N2Z.inj_le, N.land_le_r.
Qed.

(** *** Rounded products *)
Definition rounding_ok (e : SymExpr) (b : RoundingBounds) : Prop := forall v, den e = Some v ->
  exists a, den (rb_anchor b) = Some a /\ uval a - uval (rb_below b) <= uval v <= uval a + uval (rb_above b).

Lemma const_side_den l r e k : const_side_bound l r = Some (e, k) ->
  (e = l /\ as_const r = Some k) \/ (e = r /\ as_const l = Some k).
Proof. unfold const_side_bound. destruct (as_const r); [naive_solver|]. destruct (as_const l); naive_solver. Qed.

Lemma constant_mul_den e x k v : constant_mul_operands e = Some (x, k) -> den e = Some v ->
  exists a, den x = Some a /\ v = wrapping_mul a k.
Proof.
  destruct e as [| | | | | |[] l r| |]; try done. simpl constant_mul_operands.
  intros Hc (a & b & Ha & Hb & ->)%den_binop_inv. apply const_side_den in Hc as [[-> Hk]|[-> Hk]].
  - exists a. by rewrite (as_const_den _ _ _ _ Hk Hb).
  - exists b. rewrite (as_const_den _ _ _ _ Hk Ha). split; [done|]. apply (commutes_Mul).
Qed.

Lemma rounded_product_den e x k v : rounded_product_operands e = Some (x, k) -> den e = Some v ->
  exists a, den x = Some a /\ 0 < uval k /\ uval v = uval a / uval k * uval k.
Proof.
  unfold rounded_product_operands. destruct (constant_mul_operands e) as [[q f]|] eqn:Ec; [|done].
  destruct (udiv_operands q) as [[dividend divisor]|] eqn:Eq; [|done].
  destruct (const_is divisor (u_eqb f) && negb (is_zero f)) eqn:Ek; [|done]. intros [= -> ->] Hv.
  apply andb_prop in Ek as [Hd Hz%negb_true_iff]. destruct (constant_mul_den _ _ _ _ Ec Hv) as (qv & Hq & ->).
  destruct q as [| | | | | |[] l r| |]; try done. cbn [udiv_operands] in Eq. simplify_eq. apply den_binop_inv in Hq as (a & b & Ha & Hb & ->).
  rewrite (const_eq_val _ _ _ _ Hd Hb) in *. exists a. split; [done|]. cbn [binop_eval]. rewrite Hz.
  unfold is_zero in Hz. apply Z.eqb_neq in Hz. pose proof (uval_range k). pose proof (uval_range a). split; [lia|].
  unfold wrapping_mul. rewrite uval_div. apply uval_U_small.
  pose proof (Z.mul_div_le (uval a) (uval k) ltac:(lia)). assert (0 <= uval a / uval k) by (apply Z.div_pos; lia). nia.
Qed.

(** The rounding error of a multiple below its dividend. *)
Lemma rounding_error a k : 0 < k -> a - (k - 1) <= a / k * k <= a.
Proof. intros. pose proof (Z.mod_pos_bound a k ltac:(lia)). pose proof (Z.div_mod a k ltac:(lia)). lia. Qed.

Lemma rounding_offset_den dividend k width x bias addition av :
  rounding_offset dividend k width = Some (x, bias, addition) -> uval width = uval k - 1 -> den dividend = Some av ->
  exists a, den x = Some a /\ uval bias <= uval width /\
    (uval a + uval addition < word_modulus -> uval av = uval a + uval bias).
Proof.
  intros Ho Hw Hd. pose proof (uval_range width). destruct dividend as [| | | | | |[] l b| |]; try done; cbn [rounding_offset] in Ho.
  - destruct (as_const b) as [bv|] eqn:Eb; [|done]. destruct (u_leb bv width) eqn:El; [|done]. injection Ho as <- <- <-.
    apply den_binop_inv in Hd as (a & b' & Ha & Hb & ->). rewrite (as_const_den _ _ _ _ Eb Hb). exists a.
    split; [done|]. split; [by apply u_leb_le|]. intros Hlt. pose proof (uval_range a). pose proof (uval_range bv).
    apply uval_U_small. lia.
  - destruct (const_is b (u_eqb ONE)) eqn:Eb; [|done]. destruct l as [| | | | | |[] l' b'| |]; try done.
    destruct (const_is b' (u_eqb k)) eqn:Eb'; [|done]. injection Ho as <- <- <-.
    apply den_binop_inv in Hd as (s & o & Hs & Hone & ->). apply den_binop_inv in Hs as (a & kv & Ha & Hk & ->).
    rewrite (const_eq_val _ _ _ _ Eb Hone), (const_eq_val _ _ _ _ Eb' Hk). exists a. split; [done|]. split; [done|].
    intros Hlt. pose proof (uval_range a). pose proof (uval_range k). cbn [binop_eval].
    assert (uval (wrapping_add a k) = uval a + uval k) as Hadd by (apply uval_U_small; lia).
    rewrite uval_sub_le; rewrite Hadd, uval_ONE; lia.
Qed.

Section Body.
Variable rec : SymExpr -> IvM WordInterval.
Hypothesis rec_ok : forall e, iv_sound (rec e) (interval_ok e).

Lemma rounding_bounds_sound e anchor : iv_sound (rounding_bounds_cached rec e anchor) (rounding_ok e).
Proof.
  unfold rounding_bounds_cached. destruct (rounded_product_operands e) as [[x k]|] eqn:Er; [|apply iv_sound_none].
  assert (Hk : 0 < uval k -> uval (wrapping_sub k ONE) = uval k - 1) by (intros; rewrite uval_sub_le; rewrite uval_ONE; lia).
  assert (Hraw : rounding_ok e (mkRounding x (wrapping_sub k ONE) ZERO)).
  { intros v Hv. destruct (rounded_product_den _ _ _ _ Er Hv) as (a & Ha & Hpos & ->). exists a. split; [done|].
    cbn [rb_below rb_above]. rewrite Hk, uval_ZERO by done. pose proof (rounding_error (uval a) (uval k) Hpos). lia. }
  destruct (match anchor with Some a => expr_eqb a x | None => false end); [by apply iv_sound_ret|].
  destruct (rounding_offset x k (wrapping_sub k ONE)) as [[[y bias] addition]|] eqn:Eo; [|by apply iv_sound_ret].
  apply iv_sound_or; [|by apply iv_sound_ret]. eapply iv_sound_bind; [apply rec_ok|]. intros range Hrange.
  destruct (u_checked_add (wi_max range) addition) as [m|] eqn:Em; [|apply iv_sound_none]. apply iv_sound_ret.
  intros v Hv. destruct (rounded_product_den _ _ _ _ Er Hv) as (a & Ha & Hpos & ->). specialize (Hk Hpos).
  destruct (rounding_offset_den _ _ _ _ _ _ _ Eo Hk Ha) as (b & Hb & Hbw & Hadd). exists b. split; [done|].
  cbn [rb_below rb_above rb_anchor]. rewrite uval_sub_le, Hk by done. destruct (Hrange _ Hb) as [_ Hle].
  apply u_checked_add_spec in Em. pose proof (uval_range m). rewrite Hadd by lia.
  pose proof (rounding_error (uval b + uval bias) (uval k) Hpos). lia.
Qed.

(** A difference that a rounding relation shows not to be negative. *)
Lemma rounding_diff l r b lv rv :
  rounding_ok l b -> rb_anchor b = r -> is_zero (rb_below b) = true -> den l = Some lv -> den r = Some rv ->
  in_interval (wrapping_sub lv rv) (mkInterval ZERO (rb_above b)).
Proof.
  intros Hb <- Hz%is_zero_true Hl Hr. destruct (Hb _ Hl) as (a & Ha & Hle). simplify_eq. rewrite Hz, uval_ZERO in Hle.
  unfold in_interval; cbn [wi_min wi_max]. rewrite uval_sub_le, uval_ZERO by lia. lia.
Qed.
Lemma rounding_diff' l r b lv rv :
  rounding_ok r b -> rb_anchor b = l -> is_zero (rb_above b) = true -> den l = Some lv -> den r = Some rv ->
  in_interval (wrapping_sub lv rv) (mkInterval ZERO (rb_below b)).
Proof.
  intros Hb <- Hz%is_zero_true Hl Hr. destruct (Hb _ Hr) as (a & Ha & Hle). simplify_eq. rewrite Hz, uval_ZERO in Hle.
  unfold in_interval; cbn [wi_min wi_max]. rewrite uval_sub_le, uval_ZERO by lia. lia.
Qed.

Lemma rounding_error_sound l r : iv_sound (rounding_error_interval rec l r) (interval_ok (EBinOp Sub l r)).
Proof.
  unfold rounding_error_interval. apply iv_sound_or; (eapply iv_sound_bind; [apply rounding_bounds_sound|]); intros b Hb.
  all: case_match eqn:E; [|apply iv_sound_none]; apply andb_prop in E as [E%expr_eqb_eq Hz]; apply iv_sound_ret.
  all: intros v (lv & rv & Hl & Hr & ->)%den_binop_inv; cbn [binop_eval].
  - by eapply rounding_diff.
  - by eapply rounding_diff'.
Qed.

Lemma structural_sound e : iv_sound (structural_interval c rec e) (interval_ok e).
Proof.
  destruct e as [k| | | | | |op l r| |b l r]; try apply iv_sound_none.
  - apply iv_sound_ret. intros v [= <-]. split; cbn; lia.
  - destruct op; try apply iv_sound_none; unfold structural_interval.
    + do 2 (eapply iv_sound_bind; [apply rec_ok|]; intros ? ?).
      apply iv_bind_of. intros mn Hmn.
      apply iv_bind_of. intros mx Hmx.
      apply iv_sound_ret. intros v (x & y & Hx & Hy & ->)%den_binop_inv. by eapply add_interval; eauto.
    + apply iv_sound_or; [apply rounding_error_sound|].
      do 2 (eapply iv_sound_bind; [apply rec_ok|]; intros ? ?).
      case_match eqn:E1; [apply iv_sound_ret; intros v (x & y & Hx & Hy & ->)%den_binop_inv; apply u_ltb_lt in E1;
        apply sub_interval_wrap; eauto|]. case_match eqn:E2; [apply iv_sound_none|].
      apply iv_bind_of. intros mn Hmn.
      apply iv_bind_of. intros mx Hmx.
      apply iv_sound_ret. intros v (x & y & Hx & Hy & ->)%den_binop_inv. by eapply sub_interval; eauto.
    + do 2 (eapply iv_sound_bind; [apply rec_ok|]; intros ? ?).
      apply iv_bind_of. intros mn Hmn.
      apply iv_bind_of. intros mx Hmx.
      apply iv_sound_ret. intros v (x & y & Hx & Hy & ->)%den_binop_inv. eapply mul_interval; eauto.
      intros Hg. by eapply fits_product.
    + eapply iv_sound_bind; [apply (iv_sound_or _ _ (interval_ok l)); [apply rec_ok|apply iv_sound_ret; intros ? _; apply in_interval_full]|].
      intros n Hn. eapply iv_sound_bind; [apply rec_ok|]. intros d Hd. case_match eqn:Ez; [apply iv_sound_none|].
      apply iv_sound_ret. intros v (x & y & Hx & Hy & ->)%den_binop_inv. apply div_interval; eauto.
    + apply iv_bind_of. intros mask Hm.
      apply iv_sound_ret. intros v (x & y & Hx & Hy & ->)%den_binop_inv. cbn [binop_eval]. split; cbn [wi_min wi_max].
      { rewrite uval_ZERO. apply uval_range. }
      destruct (as_const l) as [lk|] eqn:El; simplify_eq.
      * rewrite (as_const_den _ _ _ _ El Hx). pose proof (commutes_And y mask) as Hc. cbn [binop_eval] in Hc.
        rewrite <- Hc. apply and_mask_le.
      * rewrite (as_const_den _ _ _ _ Hm Hy). apply and_mask_le.
    + apply iv_bind_of. intros s Hs.
      case_match eqn:Eb.
      * apply iv_sound_ret. intros v (x & y & Hx & Hy & ->)%den_binop_inv. rewrite (as_const_den _ _ _ _ Hs Hy), shr_big by done.
        split; cbn; lia.
      * eapply iv_sound_bind; [apply rec_ok|]. intros i Hi. apply iv_sound_ret.
        intros v (x & y & Hx & Hy & ->)%den_binop_inv. rewrite (as_const_den _ _ _ _ Hs Hy). apply shr_interval; eauto.
  - unfold structural_interval. eapply iv_sound_bind; [apply rec_ok|]. intros i Hi. eapply iv_sound_bind; [apply rec_ok|]. intros j Hj.
    apply iv_sound_ret. intros v ([] & _ & Hv)%den_ite_inv; [destruct (Hi _ Hv)|destruct (Hj _ Hv)]; split; cbn [wi_min wi_max];
      rewrite ?uval_u_min, ?uval_u_max; lia.
Qed.

Lemma interval_body_sound e : iv_sound (interval_body c rec e) (interval_ok e).
Proof.
  intros st Hst. unfold interval_body. destruct (assoc expr_eqb e (iv_cache st)) as [o|] eqn:Ea.
  { split; [done|]. intros i Hi. simpl in Hi. subst. by apply Hst. }
  set (lower := get e (lower_bounds c)). set (upper := get e (upper_bounds c)).
  assert (Hlo : forall v, den e = Some v -> uval (default ZERO lower) <= uval v).
  { intros v Hv. apply default_lower. intros b Hb. by apply (ok_lower c c_ok e b Hb). }
  assert (Hup : forall v, den e = Some v -> uval v <= uval (default MAX upper)).
  { intros v Hv. apply default_upper. intros b Hb. by apply (ok_upper c c_ok e b Hb). }
  set (explicit := match lower, upper with None, None => None | _, _ => SInterval.new (default ZERO lower) (default MAX upper) end).
  assert (Hex : forall i, explicit = Some i -> interval_ok e i).
  { intros i Hi v Hv. assert (SInterval.new (default ZERO lower) (default MAX upper) = Some i) by (unfold explicit in Hi; by destruct lower, upper).
    eapply new_interval_ok; eauto. }
  assert (Hins : forall st' o, iv_ok st' -> (forall i, o = Some i -> interval_ok e i) -> iv_ok (iv_insert e o st')).
  { intros st' o H1 H2 k i. simpl. destruct (expr_eqb_spec k e) as [->|]; [|apply H1]. intros [= ->]. by apply H2. }
  case_match; [split; [by apply Hins|done]|].
  destruct (iv_sound_or (structural_interval c rec e) (iv_of explicit) _ (structural_sound e) (iv_sound_of _ _ Hex) (mkIv (iv_cache st) (iv_remaining st - 1)) Hst) as [H1 H2].
  destruct (iv_or _ _ _) as [o st']; simpl in H1, H2.
  assert (Hres : forall i, match o with Some i => SInterval.with_bounds i lower upper | None => None end = Some i -> interval_ok e i).
  { intros i Hi v Hv. destruct o as [j|]; [|done]. destruct (H2 j eq_refl v Hv). eapply new_interval_ok; [exact Hi|..].
    - rewrite uval_u_max. specialize (Hlo v Hv). lia.
    - rewrite uval_u_min. specialize (Hup v Hv). lia. }
  split; [by apply Hins|done].
Qed.
End Body.

Lemma interval_cached_sound e : iv_sound (interval_cached c e) (interval_ok e).
Proof.
  unfold interval_cached. generalize (esize e). intros fuel. revert e.
  induction fuel as [|fuel IH]; intros e; [apply iv_sound_none|]. by apply interval_body_sound.
Qed.

Lemma new_iv_ok : iv_ok new_iv.
Proof. by intros e i. Qed.

Lemma interval_sound e i v : interval c e = Some i -> den e = Some v -> in_interval v i.
Proof. intros Hi. by apply (interval_cached_sound e new_iv new_iv_ok). Qed.

Lemma rounding_sound e anchor b : rounding_bounds c e anchor = Some b -> rounding_ok e b.
Proof. by apply (rounding_bounds_sound _ interval_cached_sound e anchor new_iv new_iv_ok). Qed.

(** *** Widths *)
Definition bw_ok (st : BwState) : Prop := widths_ok model (bw_widths st).

Lemma bound_width e bits bound :
  width_ok model e bits -> (forall v, den e = Some v -> uval v <= uval bound) ->
  width_ok model e (Z.min bits (Z.max (bit_len bound) 1)).
Proof.
  intros [Hb Hw] Hle. pose proof (bit_len_nonneg bound). split; [lia|]. intros v Hv. apply Z.min_case; [by apply Hw|].
  eapply Z.le_lt_trans; [by apply Hle|]. eapply Z.lt_le_trans; [apply bit_len_bound|]. apply Z.pow_le_mono_r; lia.
Qed.

Definition bw_sound (m : BwState -> option Z * BwState) (e : SymExpr) : Prop :=
  forall st, bw_ok st -> bw_ok (snd (m st)) /\ (forall b, fst (m st) = Some b -> width_ok model e b).

Lemma bw_const k : width_ok model (EConst k) (Z.max (bit_len k) 1).
Proof.
  pose proof (bit_len_nonneg k). pose proof (bit_len_le_256 k). split; [lia|]. intros v [= <-].
  eapply Z.lt_le_trans; [apply bit_len_bound|]. apply Z.pow_le_mono_r; lia.
Qed.

Lemma bw_two (f : Z -> Z -> Z) l r e st :
  bw_sound (unsigned_bits_cached c l) l -> bw_sound (unsigned_bits_cached c r) r ->
  (forall a b, width_ok model l a -> width_ok model r b -> width_ok model e (f a b)) -> bw_ok st ->
  let res := match unsigned_bits_cached c l st with
             | (None, st) => (None, st)
             | (Some a, st) => match unsigned_bits_cached c r st with
                               | (None, st) => (None, st)
                               | (Some b, st) => (Some (f a b), st)
                               end
             end in
  bw_ok (snd res) /\ (forall b, fst res = Some b -> width_ok model e b).
Proof.
  intros Hl Hr Hf Hst. specialize (Hl st Hst) as [Hl1 Hl2]. destruct (unsigned_bits_cached c l st) as [[a|] st1]; [|done].
  specialize (Hr st1 Hl1) as [Hr1 Hr2]. destruct (unsigned_bits_cached c r st1) as [[b|] st2]; [|done].
  split; [done|]. intros ? [= <-]. apply Hf; auto.
Qed.

Lemma finish_bits_ok e res :
  bw_ok (snd res) /\ (forall b, fst res = Some b -> width_ok model e b) ->
  bw_ok (snd (finish_bits c e res)) /\ (forall b, fst (finish_bits c e res) = Some b -> width_ok model e b).
Proof.
  destruct res as [[b|] st]; simpl; intros [H1 H2]; [|done].
  assert (Hb : width_ok model e (match get e (upper_bounds c) with Some bound => Z.min b (Z.max (bit_len bound) 1) | None => b end)).
  { destruct (get e (upper_bounds c)) as [k|] eqn:Ek; [|by apply H2]. apply bound_width; [by apply H2|].
    by apply (ok_upper c c_ok). }
  split; [by constructor|]. by intros ? [= <-].
Qed.

Lemma unsigned_bits_cached_ok e : bw_sound (unsigned_bits_cached c e) e.
Proof.
  revert e. refine (expr_ind' _ (fun _ => True) _ _ _ _ _ _ _ _ _ _ _ _ _); try done.
  all: intros; intros st Hst; cbn [unsigned_bits_cached]; fold (unsigned_bits_cached c).
  all: match goal with |- context [assoc expr_eqb ?e ?w] => destruct (assoc expr_eqb e w) as [b|] eqn:Ea end;
    [split; [done|]; intros ? [= <-]; by eapply widths_lookup|].
  all: case_match; [by split|].
  all: apply finish_bits_ok.
  all: try (split; [exact Hst|]; intros ? [= <-]; first [apply width_ok_256|apply bw_const]).
  - destruct op; try (split; [exact Hst|]; intros ? [= <-]; apply width_ok_256).
    + apply (bw_two _ l r (EBinOp Add l r)); auto using width_add.
    + apply (bw_two _ l r (EBinOp Mul l r)); auto using width_mul.
    + destruct (H (mkBw (bw_widths st) (bw_remaining st - 1)) Hst) as [H3 H4]. split; [done|]. intros b Hb. by apply width_udiv, H4.
    + destruct (as_const r) as [mask|] eqn:Er; [|split; [exact Hst|]; intros ? [= <-]; apply width_ok_256].
      destruct (H (mkBw (bw_widths st) (bw_remaining st - 1)) Hst) as [H3 H4]. destruct (unsigned_bits_cached c l _) as [[b|] st']; [|done].
      split; [done|]. intros ? [= <-]. apply (width_and model _ _ _ _ Er). by apply H4.
  - apply (bw_two _ t e (EIte c0 t e)); auto using width_ite.
Qed.

Lemma new_bw_ok : bw_ok new_bw.
Proof. constructor. Qed.

Lemma ctx_bits_ok e : width_ok model e (unsigned_bits c e).
Proof.
  unfold unsigned_bits. destruct (unsigned_bits_cached_ok e _ new_bw_ok) as [_ H].
  destruct (fst _) as [b|]; [by apply H|apply width_ok_256].
Qed.

Lemma width_product l r a b : width_ok model l a -> width_ok model r b -> sat_add a b <= 256 -> fits l r.
Proof.
  intros [Ha Hl] [Hb Hr] Hs x y Hx%Hl Hy%Hr. pose proof (uval_range x). pose proof (uval_range y).
  unfold sat_add in Hs. assert (a + b <= 256) by (unfold usize_max in Hs; lia).
  apply Z.lt_le_trans with (2 ^ a * 2 ^ b); [apply Z.mul_lt_mono_nonneg; lia|]. rewrite <- Z.pow_add_r by lia.
  change word_modulus with (2 ^ 256). apply Z.pow_le_mono_r; lia.
Qed.

Lemma mul_cannot_overflow_sound l r : mul_cannot_overflow_256 c l r = true -> fits l r.
Proof.
  unfold mul_cannot_overflow_256. destruct (has_non_wrapping_product c l r) eqn:Ep; [intros _; by apply fits_product|].
  destruct (interval_cached_sound l _ new_iv_ok) as [Hst Hl]. destruct (interval_cached c l new_iv) as [li st].
  destruct (interval_cached_sound r st Hst) as [_ Hr]. destruct (interval_cached c r st) as [ri st']. simpl in *.
  case_match eqn:Em.
  - intros _ a b Ha Hb. destruct li as [li|]; [|done]. destruct ri as [ri|]; [|done].
    destruct (u_checked_mul (wi_max li) (wi_max ri)) as [m|] eqn:E; [|done]. apply u_checked_mul_spec in E.
    destruct (Hl _ eq_refl _ Ha), (Hr _ eq_refl _ Hb). pose proof (uval_range m). pose proof (uval_range a). pose proof (uval_range b). nia.
  - clear Em Hl Hr Hst. destruct (unsigned_bits_cached_ok l _ new_bw_ok) as [Hst Hl]. destruct (unsigned_bits_cached c l new_bw) as [lb st1].
    destruct (unsigned_bits_cached_ok r st1 Hst) as [_ Hr]. destruct (unsigned_bits_cached c r st1) as [rb st2]. simpl in *.
    destruct lb as [lb|]; [|done]. destruct rb as [rb|]; [|done]. intros Hle%Z.leb_le. eapply width_product; eauto.
Qed.
End Analyses.

(** *** Recording facts *)
Lemma empty_ok : ctx_ok SCtx.empty.
Proof. by split. Qed.

(** A bound that a constraint implies. *)
Definition implies_fact (R : U256 -> U256 -> Prop) (o : option (SymExpr * U256)) : Prop :=
  match o with Some (e, b) => forall v, den e = Some v -> R v b | None => True end.

Lemma den_cmp_true op l r a b :
  denb (BCmp op l r) = Some true -> den l = Some a -> den r = Some b -> cmpop_eval op a b = true.
Proof. simpl. intros H Ha Hb. rewrite Ha, Hb in H. by simplify_eq. Qed.
Lemma den_cmp_false op l r a b :
  denb (BNot (BCmp op l r)) = Some true -> den l = Some a -> den r = Some b -> cmpop_eval op a b = false.
Proof. simpl. intros H Ha Hb. rewrite Ha, Hb in H. simpl in H. simplify_eq. by apply negb_true_iff. Qed.

Lemma minus_one_spec a b : minus_one a = Some b -> uval b = uval a - 1.
Proof.
  unfold minus_one, is_zero. destruct (Z.eqb_spec (uval a) 0); [done|]. intros [= <-]. pose proof (uval_range a).
  rewrite uval_sub_le; rewrite uval_ONE; lia.
Qed.
Lemma plus_one_spec a b : plus_one a = Some b -> uval b = uval a + 1.
Proof. intros ->%u_checked_add_spec. by rewrite uval_ONE. Qed.

(** Reduces a constraint on words to one on integers. *)
Ltac cmp_facts :=
  repeat match goal with
  | H : denb (BCmp ?op ?l ?r) = Some true, Hl : den ?l = Some ?a, Hr : den ?r = Some ?b |- _ =>
      pose proof (den_cmp_true op l r a b H Hl Hr); clear H
  | H : denb (BNot (BCmp ?op ?l ?r)) = Some true, Hl : den ?l = Some ?a, Hr : den ?r = Some ?b |- _ =>
      pose proof (den_cmp_false op l r a b H Hl Hr); clear H
  end; cbn [cmpop_eval] in *; unfold u_leb, u_ltb, u_eqb in *;
  rewrite ?Z.leb_le, ?Z.leb_gt, ?Z.ltb_lt, ?Z.ltb_ge, ?Z.eqb_eq, ?Z.eqb_neq in *.

Lemma const_side_fact (R : U256 -> U256 -> Prop) l r :
  (forall v, R v v) -> denb (BCmp Eq l r) = Some true -> implies_fact R (const_side_bound l r).
Proof.
  intros HR H. destruct (const_side_bound l r) as [[e k]|] eqn:E; [|done]. intros v Hv.
  apply const_side_den in E as [[-> Hk]|[-> Hk]]; apply (as_const_den' model) in Hk; cmp_facts; apply uval_inj in H0; subst; apply HR.
Qed.

Lemma with_word_fact (R : U256 -> U256 -> Prop) e o :
  (forall b v, o = Some b -> den e = Some v -> R v b) -> implies_fact R (with_word e o).
Proof. destruct o; simpl; [|done]. eauto. Qed.

Lemma as_const_word_fact (R : U256 -> U256 -> Prop) e x (f : U256 -> option U256) :
  (forall k b v, den x = Some k -> f k = Some b -> den e = Some v -> R v b) ->
  implies_fact R (match as_const x with Some bound => with_word e (f bound) | None => None end).
Proof.
  intros H. destruct (as_const x) as [k|] eqn:Ex; [|done]. apply with_word_fact. intros. eapply H; eauto. by apply as_const_den'.
Qed.

Lemma upper_constraint_fact b : denb b = Some true -> implies_fact below (upper_bound_constraint b).
Proof.
  intros H. destruct b as [|[| | |op l r]| |op l r]; try done; destruct op; try done; cbn [upper_bound_constraint];
    try (by apply const_side_fact; [intros; unfold below; lia|]);
    first [apply as_const_word_fact; intros k b v Hk Hb%minus_one_spec Hv
          |apply with_word_fact; intros b v Hk%(as_const_den' model) Hv]; unfold below; cmp_facts; lia.
Qed.

Lemma unsigned_lower_constraint_fact b : denb b = Some true -> implies_fact above (unsigned_lower_bound_constraint b).
Proof.
  intros H. destruct b as [|[| | |op l r]| |op l r]; try done; destruct op; try done; cbn [unsigned_lower_bound_constraint];
    try (by apply const_side_fact; [intros; unfold above; lia|]);
    first [apply as_const_word_fact; intros k b v Hk Hb%plus_one_spec Hv
          |apply with_word_fact; intros b v Hk%(as_const_den' model) Hv]; unfold above; cmp_facts; lia.
Qed.

Lemma lower_constraint_fact b : denb b = Some true -> implies_fact above (lower_bound_constraint b).
Proof.
  intros H. destruct b as [|[| | |op l r]| |op l r]; try done; destruct op; try done; cbn [lower_bound_constraint].
  - assert (Hone : forall v : U256, uval v <> 0 -> above v ONE) by (intros v ?; unfold above; rewrite uval_ONE; pose proof (uval_range v); lia).
    case_match eqn:Er; [|case_match eqn:El; [|done]]; intros v Hv; apply Hone.
    + apply (const_zero_den model) in Er. cmp_facts. by rewrite uval_ZERO in *.
    + apply (const_zero_den model) in El. cmp_facts. rewrite uval_ZERO in *. congruence.
  - apply const_side_fact; [intros; unfold above; lia|done].
Qed.

(** Setting one part of the context. *)
Lemma set_upper_ok c m : ctx_ok c -> fact below m -> ctx_ok (set_upper m c).
Proof. by intros [] ?; split. Qed.
Lemma set_lower_ok c m : ctx_ok c -> fact above m -> ctx_ok (set_lower m c).
Proof. by intros [] ?; split. Qed.
Lemma set_unsigned_ok c m : ctx_ok c -> fact above m -> ctx_ok (set_unsigned_lower m c).
Proof. by intros [] ?; split. Qed.
Lemma set_exact_ok c m s : ctx_ok c -> fact eq m -> ctx_ok (set_exact m s c).
Proof. by intros [] ?; split. Qed.
Lemma set_products_ok c s : ctx_ok c -> Forall (fun '(l, r) => fits l r) s -> ctx_ok (set_products s c).
Proof. by intros [] ?; split. Qed.

Lemma record_upper_ok c e b : ctx_ok c -> (forall v, den e = Some v -> below v b) -> ctx_ok (snd (record_upper_bound e b c)).
Proof.
  intros Hc Hb. unfold record_upper_bound. repeat case_match; simpl; try done.
  all: apply set_upper_ok; [done|]; apply fact_cons; [apply ok_upper, Hc|done].
Qed.
Lemma record_lower_ok c e b : ctx_ok c -> (forall v, den e = Some v -> above v b) -> ctx_ok (snd (record_lower_bound e b c)).
Proof.
  intros Hc Hb. unfold record_lower_bound. repeat case_match; simpl; try done.
  all: apply set_lower_ok; [done|]; apply fact_cons; [apply ok_lower, Hc|done].
Qed.

Lemma record_exact_ok c b : ctx_ok c -> denb b = Some true -> ctx_ok (record_exact_value_constraint b c).
Proof.
  intros Hc Hb. destruct b as [| | |[] l r]; try done. cbn [record_exact_value_constraint].
  pose proof (const_side_fact eq l r ltac:(done) Hb) as Hf. destruct (const_side_bound l r) as [[e k]|]; [|done].
  destruct e; try done. pose proof (ok_exact c Hc) as He.
  repeat case_match; try done; apply set_exact_ok; try done; auto using fact_cons, fact_remove.
Qed.

Lemma record_constraint_ok promote c b : ctx_ok c -> denb b = Some true -> ctx_ok (record_constraint promote c b).
Proof.
  intros Hc Hb. unfold record_constraint. pose proof (record_exact_ok c b Hc Hb) as H1. revert H1.
  generalize (record_exact_value_constraint b c). clear c Hc. intros c Hc.
  assert (H2 : ctx_ok (record_upper_bound_constraint b c)).
  { unfold record_upper_bound_constraint. pose proof (upper_constraint_fact b Hb) as Hf.
    destruct (upper_bound_constraint b) as [[e k]|]; [|done]. by apply record_upper_ok. }
  revert H2. generalize (record_upper_bound_constraint b c). clear c Hc. intros c Hc.
  assert (H3 : ctx_ok (record_lower_bound_constraint b c)).
  { unfold record_lower_bound_constraint. pose proof (lower_constraint_fact b Hb) as Hf.
    destruct (lower_bound_constraint b) as [[e k]|]; [|done]. by apply record_lower_ok. }
  revert H3. generalize (record_lower_bound_constraint b c). clear c Hc. intros c Hc.
  unfold record_unsigned_lower_bound_constraint. pose proof (unsigned_lower_constraint_fact b Hb) as Hf.
  destruct (unsigned_lower_bound_constraint b) as [[e k]|]; [|done].
  assert (H4 : ctx_ok (set_unsigned_lower ((e, u_max (default ZERO (get e (unsigned_lower_bounds c))) k) :: unsigned_lower_bounds c) c)).
  { apply set_unsigned_ok; [done|]. apply fact_cons; [apply ok_unsigned, Hc|]. intros v Hv. unfold above. rewrite uval_u_max.
    pose proof (default_lower v (get e (unsigned_lower_bounds c)) (fun b' H => ok_unsigned c Hc e b' H v Hv)).
    specialize (Hf v Hv). unfold above in Hf. lia. }
  destruct promote; [|done]. by apply record_lower_ok.
Qed.

(** Rounds that keep the context true. *)
Lemma rounds_ok {A} (f : A -> ConstraintContext -> bool * ConstraintContext) l n c :
  (forall a c, a ∈ l -> ctx_ok c -> ctx_ok (snd (f a c))) -> ctx_ok c -> ctx_ok (rounds f l n c).
Proof.
  intros Hf. assert (Hr : forall c, ctx_ok c -> ctx_ok (snd (round f l c))).
  { unfold round. generalize false. induction l as [|a l IH]; intros ch c' Hc'; [done|]. cbn [fold_left].
    pose proof (Hf a c' ltac:(left) Hc') as Ha. destruct (f a c') as [ch' c'']. apply IH; [|done].
    intros a' c1 Hin. apply Hf. by right. }
  revert c. induction n as [|n IH]; intros c Hc; simpl; [done|]. specialize (Hr c Hc). destruct (round f l c) as [[] c']; [|done].
  by apply IH.
Qed.

Lemma propagate_ok c l r :
  ctx_ok c -> (forall a b, den l = Some a -> den r = Some b -> uval a <= uval b) ->
  is_Some (den l) -> is_Some (den r) -> ctx_ok (snd (propagate_less_or_equal_bounds l r c)).
Proof.
  intros Hc Hle [a Ha] [b Hb]. specialize (Hle a b Ha Hb). unfold propagate_less_or_equal_bounds.
  destruct (get l (lower_bounds c)) as [lo|] eqn:El; destruct (get r (upper_bounds c)) as [up|] eqn:Eu.
  all: try (assert (H1 : ctx_ok (snd (record_upper_bound l up c)))
    by (apply record_upper_ok; [done|]; intros v Hv; pose proof (ok_upper c Hc _ _ Eu _ Hb) as Hu; unfold below in *; simplify_eq; lia)).
  all: try destruct (record_upper_bound l up c) as [ch c']; try done.
  all: assert (H2 : forall v, den r = Some v -> above v lo)
    by (intros v Hv; pose proof (ok_lower c Hc _ _ El _ Ha) as Hu; unfold above in *; simplify_eq; lia).
  - pose proof (record_lower_ok c' r lo H1 H2). by destruct (record_lower_bound r lo c').
  - pose proof (record_lower_ok c r lo Hc H2). by destruct (record_lower_bound r lo c).
Qed.

Lemma den_cmp_some op l r b : denb (BCmp op l r) = Some b -> is_Some (den l) /\ is_Some (den r).
Proof. intros (x & y & -> & -> & _)%den_cmp_inv. by split. Qed.
Lemma den_not_cmp_some op l r b : denb (BNot (BCmp op l r)) = Some b -> is_Some (den l) /\ is_Some (den r).
Proof. simpl. by destruct (den l), (den r). Qed.

Lemma propagate_order_ok c b : denb b = Some true -> ctx_ok c -> ctx_ok (snd (propagate_order_bounds b c)).
Proof.
  intros Hb Hc. destruct b as [|[| | |op l r]| |op l r]; try done; cbn [propagate_order_bounds].
  - destruct (den_not_cmp_some _ _ _ _ Hb) as [Hl Hr].
    destruct op; try done; apply propagate_ok; try done; intros a b' Ha Hb'; cmp_facts; lia.
  - destruct (den_cmp_some _ _ _ _ Hb) as [Hl Hr].
    destruct op; try done; try (apply propagate_ok; try done; intros a b' Ha Hb'; cmp_facts; lia).
    assert (H1 : ctx_ok (snd (propagate_less_or_equal_bounds l r c))) by (apply propagate_ok; try done; intros a b' Ha Hb'; cmp_facts; lia).
    destruct (propagate_less_or_equal_bounds l r c) as [ch c']. simpl in H1.
    assert (H2 : ctx_ok (snd (propagate_less_or_equal_bounds r l c'))) by (apply propagate_ok; try done; intros a b' Ha Hb'; cmp_facts; lia).
    by destruct (propagate_less_or_equal_bounds r l c').
Qed.

Lemma from_constraints_ok cs n promote :
  Forall (fun b => denb b = Some true) cs -> ctx_ok (from_constraints_with_lower_bounds cs n promote).
Proof.
  intros Hcs. unfold from_constraints_with_lower_bounds. apply rounds_ok.
  - intros b c Hin. apply propagate_order_ok. by apply (proj1 (list.Forall_forall _ _) Hcs).
  - generalize empty_ok. generalize SCtx.empty. induction Hcs as [|b cs Hb _ IH]; intros c Hc; [done|]. simpl.
    apply IH. by apply record_constraint_ok.
Qed.

Lemma new_ctx_ok cs : Forall (fun b => denb b = Some true) cs -> ctx_ok (SCtx.new cs).
Proof. apply from_constraints_ok. Qed.
End ContextSound.

(** ** The fuel of the interval analysis is enough *)
Section IntervalFuel.
Variable c : ConstraintContext.
Import SBoundsOf.

Lemma iv_bind_ext {A B} (m m' : IvM A) (k k' : A -> IvM B) :
  (forall st, m st = m' st) -> (forall a st, k a st = k' a st) -> forall st, iv_bind m k st = iv_bind m' k' st.
Proof. intros Hm Hk st. unfold iv_bind. rewrite Hm. by destruct (m' st) as [[a|] st']. Qed.
Lemma iv_or_ext {A} (m m' k k' : IvM A) :
  (forall st, m st = m' st) -> (forall st, k st = k' st) -> forall st, iv_or m k st = iv_or m' k' st.
Proof. intros Hm Hk st. unfold iv_or. rewrite Hm. by destruct (m' st) as [[a|] st']. Qed.

Lemma const_side_size l r e k : const_side_bound l r = Some (e, k) -> (esize e < S (esize l + esize r))%nat.
Proof. intros [[-> _]|[-> _]]%const_side_den; lia. Qed.

Lemma rounded_product_size e x k : rounded_product_operands e = Some (x, k) -> (esize x < esize e)%nat.
Proof.
  unfold rounded_product_operands. destruct (constant_mul_operands e) as [[q f]|] eqn:Ec; [|done].
  destruct (udiv_operands q) as [[y d]|] eqn:Eq; [|done]. case_match; [|done]. intros [= -> ->].
  destruct e as [| | | | | |[] l r| |]; try done. apply const_side_size in Ec.
  destruct q as [| | | | | |[] l' r'| |]; simplify_eq/=. lia.
Qed.
Lemma rounding_offset_size e k w x b a : rounding_offset e k w = Some (x, b, a) -> (esize x < esize e)%nat.
Proof.
  destruct e as [| | | | | |[] l r| |]; try done; simpl; repeat case_match; intros; simplify_eq/=; lia.
Qed.

Section Ext.
Variables rec rec' : SymExpr -> IvM WordInterval.

Lemma rounding_bounds_ext e anchor :
  (forall x, (esize x < esize e)%nat -> forall st, rec x st = rec' x st) ->
  forall st, rounding_bounds_cached rec e anchor st = rounding_bounds_cached rec' e anchor st.
Proof.
  intros H st. unfold rounding_bounds_cached. destruct (rounded_product_operands e) as [[x k]|] eqn:Er; [|done].
  apply rounded_product_size in Er. destruct (match anchor with Some a => expr_eqb a x | None => false end); [done|].
  destruct (rounding_offset x k (wrapping_sub k ONE)) as [[[y bias] addition]|] eqn:Eo; [|done].
  apply rounding_offset_size in Eo. apply iv_or_ext; [|done]. apply iv_bind_ext; [|done]. apply H. lia.
Qed.

Lemma structural_ext e :
  (forall x, (esize x < esize e)%nat -> forall st, rec x st = rec' x st) ->
  forall st, structural_interval c rec e st = structural_interval c rec' e st.
Proof.
  intros H st. destruct e as [| | | | | |[] l r| |b l r]; try done; unfold structural_interval.
  all: repeat first [progress intros
    |apply iv_bind_ext
    |apply iv_or_ext
    |apply rounding_bounds_ext
    |done
    |apply H; simpl; lia
    |match goal with |- (if ?b then _ else _) _ = _ => destruct b end
    |progress simpl in *; apply H; lia].
Qed.

Lemma interval_body_ext e :
  (forall x, (esize x < esize e)%nat -> forall st, rec x st = rec' x st) ->
  forall st, interval_body c rec e st = interval_body c rec' e st.
Proof.
  intros H st. unfold interval_body. repeat case_match; try done; unfold iv_or in *; rewrite (structural_ext e H) in *; congruence.
Qed.
End Ext.

Lemma interval_fuel_stable n e : (esize e <= n)%nat -> forall st, interval_fuel c n e st = interval_cached c e st.
Proof.
  unfold interval_cached. remember (esize e) as m eqn:Hm. revert e n Hm.
  induction m as [m IH] using lt_wf_ind. intros e n -> Hn st. pose proof (esize_pos e).
  destruct n as [|n]; [lia|]. destruct (esize e) as [|k] eqn:Ek; [lia|]. cbn [interval_fuel].
  apply interval_body_ext. intros x Hx st'. rewrite Ek in Hx.
  rewrite (IH (esize x) ltac:(lia) x n) by (done || lia). by rewrite (IH (esize x) ltac:(lia) x k) by (done || lia).
Qed.
End IntervalFuel.
