(* ===== verification/SymVisit.v ===== *)
(** * SymVisit: walks over expressions

    Models [visit_unique] of runtime/expr/bool.rs, the walk that visits every
    distinct node of a shared expression once, and the queries built on it
    ([contains_udiv], [contains_ite], [contains_hard_arith], ...), with the
    proof that skipping the visited nodes misses nothing; and the rebuilding
    walks [fold] and [fold_exprs] of expr.rs and bool.rs. *)

From Stdlib Require Import ZArith Lia Bool.
From stdpp Require Import base list option.
From S2P Require Import Prelude SymWord SymExpr SymSimpl SymSound SymCmp.

(** ** Nodes and their parts *)
Inductive Node := NWord (e : SymExpr) | NBool (b : SymBoolExpr).

(** The parts of a node, in the order in which they are popped. *)
Definition node_parts (n : Node) : list Node :=
  match n with
  | NBool (BConst _) => []
  | NBool (BNot v) => [NBool v]
  | NBool (BAnd vs) => map NBool vs
  | NBool (BCmp _ l r) => [NWord l; NWord r]
  | NWord (EConst _) | NWord (EVar _) | NWord (EGasLeft _) => []
  | NWord (EKeccak _ len bytes) => NWord len :: map NWord bytes
  | NWord (EHash _ _ bytes) => map NWord bytes
  | NWord (ENot v) => [NWord v]
  | NWord (EBinOp _ l r) => [NWord l; NWord r]
  | NWord (ETernOp _ l r m) => [NWord l; NWord r; NWord m]
  | NWord (EIte c l r) => [NBool c; NWord l; NWord r]
  end.

Definition node_size (n : Node) : nat := match n with NWord e => esize e | NBool b => bsize b end.
Definition nodes_size (ns : list Node) : nat := list_sum (map node_size ns).

Section Visit.
(** The visitor breaks the walk when it holds. *)
Variable visitor : SymExpr -> bool.

Record VisitState := mkVisit {
  pending : list Node;               (* top of the stack first *)
  visited_bools : list SymBoolExpr;
  visited_words : list SymExpr
}.

(** The result is whether the visitor broke the walk. *)
Definition visit_step (st : VisitState) : VisitState + bool :=
  match pending st with
  | [] => inr false
  | NBool b :: rest =>
      if existsb (bexpr_eqb b) (visited_bools st)
      then inl (mkVisit rest (visited_bools st) (visited_words st))
      else inl (mkVisit (node_parts (NBool b) ++ rest) (b :: visited_bools st) (visited_words st))
  | NWord e :: rest =>
      if existsb (expr_eqb e) (visited_words st)
      then inl (mkVisit rest (visited_bools st) (visited_words st))
      else if visitor e then inr true
      else inl (mkVisit (node_parts (NWord e) ++ rest) (visited_bools st) (e :: visited_words st))
  end.

(** Every round pops a node and pushes at most its parts. *)
Definition visit_unique (n : Node) : bool :=
  default false (iterate visit_step (S (node_size n)) (mkVisit [n] [] [])).

(** What the walk decides: some word of the expression satisfies the visitor. *)
Inductive occurs : Node -> Prop :=
  | occurs_here e : visitor e = true -> occurs (NWord e)
  | occurs_part n m : m ∈ node_parts n -> occurs m -> occurs n.

Lemma nodes_size_app ns ms : nodes_size (ns ++ ms) = (nodes_size ns + nodes_size ms)%nat.
Proof. unfold nodes_size. rewrite map_app. apply list_sum_app. Qed.

Lemma parts_size n : (nodes_size (node_parts n) < node_size n)%nat.
Proof.
  assert (Hw : forall bs, nodes_size (map NWord bs) = (fix go bs := match bs with [] => O | b :: r => (esize b + go r)%nat end) bs).
  { induction bs as [|b bs IH]; [done|]. simpl. by rewrite <- IH. }
  assert (Hb : forall bs, nodes_size (map NBool bs) = (fix go vs := match vs with [] => O | v :: r => (bsize v + go r)%nat end) bs).
  { induction bs as [|b bs IH]; [done|]. simpl. by rewrite <- IH. }
  destruct n as [[]|[]]; simpl; rewrite ?Hb; unfold nodes_size in *; simpl; rewrite ?Hw; lia.
Qed.

(** *** The walk ends *)
Lemma visit_unique_total n : is_Some (iterate visit_step (S (node_size n)) (mkVisit [n] [] [])).
Proof.
  apply (iterate_total visit_step (fun _ => True) (fun st => nodes_size (pending st))); [|done|unfold nodes_size; simpl; lia].
  intros [[|[e|b] rest] vb vw] s' _; unfold visit_step; cbn [pending visited_bools visited_words]; [done|..].
  - pose proof (parts_size (NWord e)). repeat case_match; intros; simplify_eq; split; try done; cbn [pending];
      rewrite ?nodes_size_app; change (nodes_size (NWord e :: rest)) with (node_size (NWord e) + nodes_size rest)%nat; simpl in *; lia.
  - pose proof (parts_size (NBool b)). repeat case_match; intros; simplify_eq; split; try done; cbn [pending];
      rewrite ?nodes_size_app; change (nodes_size (NBool b :: rest)) with (node_size (NBool b) + nodes_size rest)%nat; lia.
Qed.

(** *** The walk finds what occurs *)
Definition visited (st : VisitState) (n : Node) : Prop :=
  match n with NWord e => e ∈ visited_words st | NBool b => b ∈ visited_bools st end.

Record visit_inv (root : Node) (st : VisitState) : Prop := {
  inv_quiet : forall e, e ∈ visited_words st -> visitor e = false;
  inv_closed : forall n m, visited st n -> m ∈ node_parts n -> visited st m \/ m ∈ pending st;
  inv_root : visited st root \/ root ∈ pending st;
  inv_reached : forall m, m ∈ pending st -> occurs m -> occurs root
}.

Lemma visit_pop root n rest vb vw :
  visit_inv root (mkVisit (n :: rest) vb vw) -> visited (mkVisit rest vb vw) n -> visit_inv root (mkVisit rest vb vw).
Proof.
  intros [Hq Hc Hr Hp] Hn.
  assert (Hor : forall m, visited (mkVisit rest vb vw) m \/ m ∈ n :: rest -> visited (mkVisit rest vb vw) m \/ m ∈ rest).
  { intros m [?|[-> | ?]%elem_of_cons]; auto. }
  split; [done|..]; simpl in *.
  - intros x m Hx Hm. apply Hor. by apply (Hc x).
  - by apply Hor.
  - intros m Hm. apply Hp. by right.
Qed.

Lemma visit_push root n rest vb vw vb' vw' :
  visit_inv root (mkVisit (n :: rest) vb vw) ->
  (forall m, visited (mkVisit rest vb' vw') m <-> m = n \/ visited (mkVisit rest vb vw) m) ->
  (forall e, n = NWord e -> visitor e = false) ->
  visit_inv root (mkVisit (node_parts n ++ rest) vb' vw').
Proof.
  intros [Hq Hc Hr Hp] Hv Hn.
  assert (Hor : forall m, visited (mkVisit rest vb vw) m \/ m ∈ n :: rest -> visited (mkVisit rest vb' vw') m \/ m ∈ node_parts n ++ rest).
  { intros m. rewrite Hv, elem_of_cons, elem_of_app. tauto. }
  split; cbn [pending visited_words].
  - intros e He. destruct (proj1 (Hv (NWord e)) He) as [He'|He']; [by apply Hn|by apply Hq].
  - intros x m Hx Hm. apply Hv in Hx as [-> |Hx]; [right; apply elem_of_app; by left|]. apply Hor. by apply (Hc x).
  - by apply Hor.
  - intros m [Hm|Hm]%elem_of_app; [|apply Hp; by right]. intros Ho. apply (Hp n); [by left|]. by eapply occurs_part.
Qed.

Lemma visited_closed st :
  (forall e, e ∈ visited_words st -> visitor e = false) -> (forall n m, visited st n -> m ∈ node_parts n -> visited st m) ->
  forall n, occurs n -> visited st n -> False.
Proof. intros Hq Hc n. induction 1 as [e He|n m Hm _ IH]; intros Hv; [apply Hq in Hv; congruence|]. by apply IH, (Hc n). Qed.

Lemma existsb_elem {A} (eqb : A -> A -> bool) (x : A) l :
  (forall a b, eqb a b = true <-> a = b) -> existsb (eqb x) l = true <-> x ∈ l.
Proof.
  intros He. rewrite existsb_exists, list_elem_of_In. split; [|intros; exists x; by rewrite He].
  intros (y & Hy & ->%He). done.
Qed.

Lemma visit_unique_spec n : visit_unique n = true <-> occurs n.
Proof.
  unfold visit_unique. destruct (visit_unique_total n) as [r Hr]. rewrite Hr. simpl.
  assert (Hpost : if r then occurs n else ~ occurs n); [|by destruct r].
  eapply (iterate_ind visit_step (visit_inv n) (fun r : bool => if r then occurs n else ~ occurs n)); [| | |exact Hr]; clear r Hr.
  - intros [[|m rest] vb vw] st' Hi; unfold visit_step; cbn [pending visited_bools visited_words]; [done|].
    destruct m as [e|b].
    + destruct (existsb (expr_eqb e) vw) eqn:Ev; [|destruct (visitor e) eqn:Ee; [done|]]; intros [= <-].
      * eapply visit_pop; [exact Hi|]. by apply (existsb_elem _ _ _ expr_eqb_eq).
      * apply (visit_push n (NWord e) rest vb vw vb (e :: vw) Hi); [|by intros ? [= <-]]. intros [x|x]; simpl; rewrite ?elem_of_cons; naive_solver.
    + destruct (existsb (bexpr_eqb b) vb) eqn:Ev; intros [= <-].
      * eapply visit_pop; [exact Hi|]. by apply (existsb_elem _ _ _ bexpr_eqb_eq).
      * apply (visit_push n (NBool b) rest vb vw (b :: vb) vw Hi); [|by intros ? [=]]. intros [x|x]; simpl; rewrite ?elem_of_cons; naive_solver.
  - intros [[|m rest] vb vw] r Hi; unfold visit_step; cbn [pending visited_bools visited_words].
    + intros [= <-] Ho. destruct Hi as [Hq Hc Hr _]. cbn [pending] in *.
      eapply (visited_closed (mkVisit [] vb vw)); [exact Hq| |exact Ho|].
      * intros x y Hx Hy. by destruct (Hc x y Hx Hy) as [?|?%elem_of_nil].
      * by destruct Hr as [?|?%elem_of_nil].
    + destruct m as [e|b]; [|by destruct (existsb _ _)].
      destruct (existsb (expr_eqb e) vw); [done|]. destruct (visitor e) eqn:Ee; [|done]. intros [= <-].
      eapply (inv_reached _ _ Hi); [by left|by apply occurs_here].
  - split; simpl; try done; try (intros ? []%elem_of_nil).
    + by intros [] ? []%elem_of_nil.
    + right. by left.
    + by intros m ->%list_elem_of_singleton.
Qed.

Definition visit_word (e : SymExpr) : bool := visit_unique (NWord e).
Definition visit_bool (b : SymBoolExpr) : bool := visit_unique (NBool b).
End Visit.

(** ** Queries *)
Definition contains_gasleft_bool (b : SymBoolExpr) : bool :=
  visit_bool (fun e => match e with EGasLeft _ => true | _ => false end) b.
Definition is_udiv (e : SymExpr) : bool := match e with EBinOp UDiv _ _ => true | _ => false end.
Definition contains_udiv (e : SymExpr) : bool := visit_word is_udiv e.
Definition contains_udiv_bool (b : SymBoolExpr) : bool := visit_bool contains_udiv b.

(** [contains_ite] looks for a conditional outside of conditions; the visited
    set only saves repeated walks. *)
Fixpoint contains_ite (e : SymExpr) : bool :=
  match e with
  | EConst _ | EVar _ | EGasLeft _ => false
  | EIte _ _ _ => true
  | EKeccak _ len bytes => contains_ite len || existsb contains_ite bytes
  | EHash _ _ bytes => existsb contains_ite bytes
  | ENot v => contains_ite v
  | EBinOp _ l r => contains_ite l || contains_ite r
  | ETernOp _ l r m => contains_ite l || contains_ite r || contains_ite m
  end.

Definition contains_var (e : SymExpr) : bool :=
  visit_word (fun e => match e with EVar _ | EKeccak _ _ _ | EHash _ _ _ => true | _ => false end) e.

Definition is_hard_arith_node (e : SymExpr) : bool :=
  match e with
  | EBinOp Mul l r => contains_var l && contains_var r
  | EBinOp (UDiv | URem | SDiv | SRem) l r => contains_var l || contains_var r
  | ETernOp _ l r m => contains_var l || contains_var r || contains_var m
  | _ => false
  end.
Definition contains_hard_arith (b : SymBoolExpr) : bool := visit_bool is_hard_arith_node b.
Definition contains_symbolic_hash (b : SymBoolExpr) : bool :=
  visit_bool (fun e => match e with EHash _ _ _ => true | _ => false end) b.
Definition contains_hash (b : SymBoolExpr) : bool :=
  visit_bool (fun e => match e with EKeccak _ _ _ | EHash _ _ _ => true | _ => false end) b.

(** ** Rebuilding walks *)
Section Fold.
Context `{SA : SignedArith, HF : HashFns}.

(** *** What they compute, without the caches *)
Section Words.
Variable folder : SymExpr -> SymExpr.
Fixpoint fold_word (e : SymExpr) : SymExpr :=
  folder match e with
  | EConst _ | EVar _ | EGasLeft _ => e
  | EKeccak n len bytes => EKeccak n (fold_word len) (map fold_word bytes)
  | EHash n a bytes => EHash n a (map fold_word bytes)
  | ENot v => sym_not (fold_word v)
  | EBinOp op l r => binop op (fold_word l) (fold_word r)
  | ETernOp op l r m => ternop op (fold_word l) (fold_word r) (fold_word m)
  | EIte c t f => ite (fold_exprs c) (fold_word t) (fold_word f)
  end
with fold_exprs (b : SymBoolExpr) : SymBoolExpr :=
  match b with
  | BConst _ => b
  | BNot v => SBool.not_bool (fold_exprs v)
  | BAnd vs => SBool.and (map fold_exprs vs)
  | BCmp op l r => cmp op (fold_word l) (fold_word r)
  end.

(** *** [fold_cached] and [fold_exprs_cached]: each distinct node once *)
Record ExpressionFoldCache := mkFoldCache { fc_words : list (SymExpr * SymExpr); fc_bools : list (SymBoolExpr * SymBoolExpr) }.

Definition FoldM (A : Type) := ExpressionFoldCache -> A * ExpressionFoldCache.
Definition fold_ret {A} (a : A) : FoldM A := fun st => (a, st).
Definition fold_bind {A B} (m : FoldM A) (k : A -> FoldM B) : FoldM B := fun st => let '(a, st) := m st in k a st.
Definition fold_memo_word (e : SymExpr) (m : FoldM SymExpr) : FoldM SymExpr := fun st =>
  match assoc expr_eqb e (fc_words st) with
  | Some r => (r, st)
  | None => let '(x, st) := m st in (folder x, mkFoldCache ((e, folder x) :: fc_words st) (fc_bools st))
  end.
Definition fold_memo_bool (b : SymBoolExpr) (m : FoldM SymBoolExpr) : FoldM SymBoolExpr := fun st =>
  match assoc bexpr_eqb b (fc_bools st) with
  | Some r => (r, st)
  | None => let '(x, st) := m st in (x, mkFoldCache (fc_words st) ((b, x) :: fc_bools st))
  end.
Definition fold_list {A B} (f : A -> FoldM B) : list A -> FoldM (list B) :=
  fix go l := match l with
  | [] => fold_ret []
  | a :: r => fold_bind (f a) (fun x => fold_bind (go r) (fun xs => fold_ret (x :: xs)))
  end.

Fixpoint fold_cached (e : SymExpr) : FoldM SymExpr :=
  fold_memo_word e
    match e with
    | EConst _ | EVar _ | EGasLeft _ => fold_ret e
    | EKeccak n len bytes => fold_bind (fold_cached len) (fun len => fold_bind (fold_list fold_cached bytes) (fun bytes => fold_ret (EKeccak n len bytes)))
    | EHash n a bytes => fold_bind (fold_list fold_cached bytes) (fun bytes => fold_ret (EHash n a bytes))
    | ENot v => fold_bind (fold_cached v) (fun v => fold_ret (sym_not v))
    | EBinOp op l r => fold_bind (fold_cached l) (fun l => fold_bind (fold_cached r) (fun r => fold_ret (binop op l r)))
    | ETernOp op l r m =>
        fold_bind (fold_cached l) (fun l => fold_bind (fold_cached r) (fun r => fold_bind (fold_cached m) (fun m => fold_ret (ternop op l r m))))
    | EIte c t f =>
        fold_bind (fold_exprs_cached c) (fun c => fold_bind (fold_cached t) (fun t => fold_bind (fold_cached f) (fun f => fold_ret (ite c t f))))
    end
with fold_exprs_cached (b : SymBoolExpr) : FoldM SymBoolExpr :=
  fold_memo_bool b
    match b with
    | BConst _ => fold_ret b
    | BNot v => fold_bind (fold_exprs_cached v) (fun v => fold_ret (SBool.not_bool v))
    | BAnd vs => fold_bind (fold_list fold_exprs_cached vs) (fun vs => fold_ret (SBool.and vs))
    | BCmp op l r => fold_bind (fold_cached l) (fun l => fold_bind (fold_cached r) (fun r => fold_ret (cmp op l r)))
    end.

Definition empty_folds : ExpressionFoldCache := mkFoldCache [] [].
Definition fold_shared (e : SymExpr) : SymExpr := fst (fold_cached e empty_folds).
Definition fold_exprs_shared (b : SymBoolExpr) : SymBoolExpr := fst (fold_exprs_cached b empty_folds).

(** The caches hold folded nodes, so that they change no result. *)
Definition folds_ok (st : ExpressionFoldCache) : Prop :=
  (forall e r, assoc expr_eqb e (fc_words st) = Some r -> r = fold_word e) /\
  (forall b r, assoc bexpr_eqb b (fc_bools st) = Some r -> r = fold_exprs b).
Definition folds_to {A} (m : FoldM A) (a : A) : Prop := forall st, folds_ok st -> fst (m st) = a /\ folds_ok (snd (m st)).

Lemma folds_ret {A} (a : A) : folds_to (fold_ret a) a.
Proof. by intros st. Qed.
Lemma folds_bind {A B} (m : FoldM A) (k : A -> FoldM B) a b : folds_to m a -> folds_to (k a) b -> folds_to (fold_bind m k) b.
Proof. intros Hm Hk st Hst. unfold fold_bind. destruct (Hm st Hst) as [Ha Hok]. destruct (m st) as [a' st']. simpl in *. subst. by apply Hk. Qed.
Lemma folds_list {A B} (f : A -> FoldM B) g l : Forall (fun a => folds_to (f a) (g a)) l -> folds_to (fold_list f l) (map g l).
Proof. induction 1 as [|a l Ha _ IH]; [apply folds_ret|]. simpl. eapply folds_bind; [done|]. eapply folds_bind; [done|]. apply folds_ret. Qed.
Lemma folds_memo_word e m x : folds_to m x -> fold_word e = folder x -> folds_to (fold_memo_word e m) (fold_word e).
Proof.
  intros Hm Hx st Hst. unfold fold_memo_word. destruct (assoc expr_eqb e (fc_words st)) as [r|] eqn:E.
  { simpl. by apply Hst in E. }
  destruct (Hm st Hst) as [Ha [Hw Hb]]. destruct (m st) as [y st']. simpl in *. subst y. split; [done|]. split; [|done].
  intros e' r. simpl. destruct (expr_eqb_spec e' e) as [->|]; [by intros [= <-]|]. apply Hw.
Qed.
Lemma folds_memo_bool b m : folds_to m (fold_exprs b) -> folds_to (fold_memo_bool b m) (fold_exprs b).
Proof.
  intros Hm st Hst. unfold fold_memo_bool. destruct (assoc bexpr_eqb b (fc_bools st)) as [r|] eqn:E.
  { simpl. by apply Hst in E. }
  destruct (Hm st Hst) as [Ha [Hw Hb]]. destruct (m st) as [y st']. simpl in *. subst y. split; [done|]. split; [done|].
  intros b' r. simpl. destruct (bexpr_eqb_spec b' b) as [->|]; [by intros [= <-]|]. apply Hb.
Qed.

Lemma fold_cached_ok : (forall e, folds_to (fold_cached e) (fold_word e)) /\ (forall b, folds_to (fold_exprs_cached b) (fold_exprs b)).
Proof.
  apply expr_bexpr_ind; intros; simpl fold_cached; simpl fold_exprs_cached;
    first [eapply folds_memo_word; [|reflexivity] | apply folds_memo_bool];
    repeat (eapply folds_bind; [solve [eauto using @folds_list]|]); apply folds_ret.
Qed.
Lemma fold_shared_eq e : fold_shared e = fold_word e.
Proof. by apply fold_cached_ok. Qed.
Lemma fold_exprs_shared_eq b : fold_exprs_shared b = fold_exprs b.
Proof. by apply fold_cached_ok. Qed.
End Words.

(** *** [SymBoolExpr::fold]: Boolean nodes only *)
Section Bools.
Variable folder : SymBoolExpr -> SymBoolExpr.
Fixpoint fold_bool (b : SymBoolExpr) : SymBoolExpr :=
  folder match b with
  | BConst _ => b
  | BNot v => SBool.not_bool (fold_bool v)
  | BAnd vs => SBool.and (map fold_bool vs)
  | BCmp op l r => cmp op l r
  end.

Definition BoolFolds := list (SymBoolExpr * SymBoolExpr).
Fixpoint fold_bool_cached (b : SymBoolExpr) (folded : BoolFolds) : SymBoolExpr * BoolFolds :=
  match assoc bexpr_eqb b folded with
  | Some r => (r, folded)
  | None =>
      let '(x, folded) :=
        match b with
        | BConst _ => (b, folded)
        | BNot v => let '(v, folded) := fold_bool_cached v folded in (SBool.not_bool v, folded)
        | BAnd vs =>
            let '(vs, folded) :=
              (fix go vs folded := match vs with
               | [] => ([], folded)
               | v :: r => let '(v, folded) := fold_bool_cached v folded in
                           let '(r, folded) := go r folded in (v :: r, folded)
               end) vs folded in
            (SBool.and vs, folded)
        | BCmp op l r => (cmp op l r, folded)
        end in
      (folder x, (b, folder x) :: folded)
  end.
Definition fold_bool_shared (b : SymBoolExpr) : SymBoolExpr := fst (fold_bool_cached b []).

Definition bool_folds_ok (folded : BoolFolds) : Prop := forall b r, assoc bexpr_eqb b folded = Some r -> r = fold_bool b.

Lemma bool_folds_insert b x folded : bool_folds_ok folded -> fold_bool b = folder x -> bool_folds_ok ((b, folder x) :: folded).
Proof. intros Hok Hx b' r. simpl. destruct (bexpr_eqb_spec b' b) as [->|]; [by intros [= <-]|]. apply Hok. Qed.

Lemma fold_bool_cached_ok b folded : bool_folds_ok folded ->
  fst (fold_bool_cached b folded) = fold_bool b /\ bool_folds_ok (snd (fold_bool_cached b folded)).
Proof.
  revert b folded. refine (bexpr_ind' (fun _ => True) (fun b => forall folded, bool_folds_ok folded ->
    fst (fold_bool_cached b folded) = fold_bool b /\ bool_folds_ok (snd (fold_bool_cached b folded))) _ _ _ _ _ _ _ _ _ _ _ _ _); try done.
  - intros v folded Hok. simpl. case_match eqn:E; [by apply Hok in E as ->|]. split; [done|by apply bool_folds_insert].
  - intros v IH folded Hok. simpl. case_match eqn:E; [by apply Hok in E as ->|]. destruct (IH folded Hok) as [H1 H2].
    destruct (fold_bool_cached v folded) as [v' folded']. simpl in *. subst v'. split; [done|by apply bool_folds_insert].
  - intros vs IH folded Hok. simpl. case_match eqn:E; [by apply Hok in E as ->|].
    assert (Hgo : exists folded', (fix go vs folded := match vs with
               | [] => ([], folded)
               | v :: r => let '(v, folded) := fold_bool_cached v folded in
                           let '(r, folded) := go r folded in (v :: r, folded)
               end) vs folded = (map fold_bool vs, folded') /\ bool_folds_ok folded').
    { clear E. revert folded Hok. induction IH as [|v vs Hv _ IH]; intros folded Hok; [by exists folded|].
      destruct (Hv folded Hok) as [H1 H2]. destruct (fold_bool_cached v folded) as [v' folded1]. simpl in *. subst v'.
      destruct (IH folded1 H2) as (folded' & -> & H3). by exists folded'. }
    destruct Hgo as (folded' & -> & Hok'). split; [done|by apply bool_folds_insert].
  - intros op l r _ _ folded Hok. simpl. case_match eqn:E; [by apply Hok in E as ->|]. split; [done|by apply bool_folds_insert].
Qed.
Lemma fold_bool_shared_eq b : fold_bool_shared b = fold_bool b.
Proof. by apply fold_bool_cached_ok. Qed.
End Bools.
End Fold.
