(* ===== verification/SymMonotone.v ===== *)
(** * SymMonotone: order reasoning about products

    Models runtime/solver/reasoning/monotonic_product.rs: the order facts of a
    conjunction, the order of products and quotients that they imply, the
    contradictions found without the solver and the constraints removed because
    the others imply them.  Both are sound: a contradiction means that no model
    satisfies the constraints, and a removed constraint is true under every
    model of the others in which its words have a value. *)

From Stdlib Require Import ZArith Lia Bool.
From stdpp Require Import base list option sets.
From S2P Require Import Prelude SymWord SymExpr SymSimpl SymSound SymCmp SymContext SymVisit.
Local Open Scope Z_scope.

(** ** Order facts: a [HashSet] is the list of its elements. *)
Record OrderFacts := mkFacts {
  less_than : list (SymExpr * SymExpr);
  less_or_equal : list (SymExpr * SymExpr);
  positive : list SymExpr
}.

Module SOrder.
Definition empty : OrderFacts := mkFacts [] [] [].
Definition add_less_than p f := mkFacts (p :: less_than f) (less_or_equal f) (positive f).
Definition add_less_or_equal p f := mkFacts (less_than f) (p :: less_or_equal f) (positive f).
Definition add_positive e f := mkFacts (less_than f) (less_or_equal f) (e :: positive f).
(** [left < right] gives both relations. *)
Definition add_strict p f := add_less_or_equal p (add_less_than p f).

Definition nonzero_expr (b : SymBoolExpr) : option SymExpr :=
  match b with
  | BCmp Eq l r => if const_is l is_zero then Some r else if const_is r is_zero then Some l else None
  | _ => None
  end.

Fixpoint collect_order_facts (b : SymBoolExpr) (f : OrderFacts) : OrderFacts :=
  match b with
  | BAnd values => fold_left (fun f v => collect_order_facts v f) values f
  | BCmp Ult l r =>
      let f := add_strict (l, r) f in
      if const_is l is_zero then add_positive r f else f
  | BCmp Ugt l r =>
      let f := add_strict (r, l) f in
      if const_is r is_zero then add_positive l f else f
  | BCmp Ule l r => add_less_or_equal (l, r) f
  | BCmp Uge l r => add_less_or_equal (r, l) f
  | BCmp Eq l r => add_less_or_equal (r, l) (add_less_or_equal (l, r) f)
  | BNot value =>
      let f := match nonzero_expr value with Some e => add_positive e f | None => f end in
      match value with
      | BCmp Ult l r => add_less_or_equal (r, l) f
      | BCmp Ugt l r => add_less_or_equal (l, r) f
      | BCmp Ule l r => add_strict (r, l) f
      | BCmp Uge l r => add_strict (l, r) f
      | _ => f
      end
  | BConst _ | BCmp (Slt | Sgt) _ _ => f
  end.

Definition order_facts (constraints : list SymBoolExpr) : OrderFacts :=
  fold_left (fun f b => collect_order_facts b f) constraints empty.

Definition contains_pair (l r : SymExpr) (ps : list (SymExpr * SymExpr)) : bool := existsb (pair_eqb (l, r)) ps.

(** ** The implied order *)
Section Implied.
Variable facts : OrderFacts.
Variable bounds : ConstraintContext.
Abbreviation mul_fits := (SBoundsOf.mul_cannot_overflow_256 bounds).

(** The four orders of factors of [product_less_or_equal_known] are inlined. *)
Fixpoint expr_less_or_equal (l r : SymExpr) : bool :=
  expr_eqb l r || contains_pair l r (less_or_equal facts) ||
  match l, r with
  | EBinOp UDiv left_num left_den, EBinOp UDiv right_num right_den =>
      expr_eqb left_den right_den && expr_less_or_equal left_num right_num
  | EBinOp Mul la lb, EBinOp Mul ra rb =>
      mul_fits la lb && mul_fits ra rb &&
      ((expr_less_or_equal la ra && expr_less_or_equal lb rb) ||
       (expr_less_or_equal lb ra && expr_less_or_equal la rb) ||
       (expr_less_or_equal la rb && expr_less_or_equal lb ra) ||
       (expr_less_or_equal lb rb && expr_less_or_equal la ra))
  | _, _ => false
  end.

Definition product_less_than_known_ordered (la lb ra rb : SymExpr) : bool :=
  existsb (expr_eqb la) (positive facts) && existsb (expr_eqb lb) (positive facts) &&
  contains_pair la ra (less_than facts) && contains_pair lb rb (less_than facts) &&
  mul_fits la lb && mul_fits ra rb.

Definition product_less_than_known (la lb ra rb : SymExpr) : bool :=
  product_less_than_known_ordered la lb ra rb || product_less_than_known_ordered lb la ra rb ||
  product_less_than_known_ordered la lb rb ra || product_less_than_known_ordered lb la rb ra.
End Implied.

(** ** Contradictions *)
Definition reversed_strict_comparison (b : SymBoolExpr) : option (SymExpr * SymExpr) :=
  match b with
  | BCmp Ult l r => Some (l, r)
  | BCmp Ugt l r => Some (r, l)
  | BNot (BCmp Ule l r) => Some (r, l)
  | BNot (BCmp Uge l r) => Some (l, r)
  | _ => None
  end.

Definition less_or_equal_comparison (b : SymBoolExpr) : option (SymExpr * SymExpr) :=
  match b with
  | BCmp Ule l r => Some (l, r)
  | BCmp Uge l r => Some (r, l)
  | BNot (BCmp Ult l r) => Some (r, l)
  | BNot (BCmp Ugt l r) => Some (l, r)
  | _ => None
  end.

Definition mul_operands (e : SymExpr) : option (SymExpr * SymExpr) :=
  match e with EBinOp Mul l r => Some (l, r) | _ => None end.

Definition product_less_than_negation (b : SymBoolExpr) : option (SymExpr * SymExpr * (SymExpr * SymExpr)) :=
  match b with
  | BNot (BCmp Ult l r) =>
      match mul_operands l, mul_operands r with
      | Some (la, lb), Some (ra, rb) => Some (la, lb, (ra, rb))
      | _, _ => None
      end
  | _ => None
  end.

Definition product_monotonic_unsat_normalized (constraints : list SymBoolExpr) : bool :=
  let facts := order_facts constraints in
  let bounds := SCtx.new constraints in
  existsb (fun b =>
    match reversed_strict_comparison b with
    | Some (l, r) => expr_less_or_equal facts bounds r l
    | None => false
    end ||
    match product_less_than_negation b with
    | Some (la, lb, (ra, rb)) => product_less_than_known facts bounds la lb ra rb
    | None => false
    end) constraints.

(** ** Removal of implied constraints

    The loop over the index: [kept] are the constraints before it. *)
Definition implied_by (base : list SymBoolExpr) (b : SymBoolExpr) : bool :=
  contains_hard_arith b &&
  match less_or_equal_comparison b with
  | Some (l, r) => expr_less_or_equal (order_facts base) (SCtx.new base) l r
  | None => false
  end.

Fixpoint remove_implied_from (kept rest : list SymBoolExpr) : list SymBoolExpr :=
  match rest with
  | [] => kept
  | b :: rest => if implied_by (kept ++ rest) b then remove_implied_from kept rest
                 else remove_implied_from (kept ++ [b]) rest
  end.

Definition remove_implied_monotonic_constraints (constraints : list SymBoolExpr) : list SymBoolExpr :=
  remove_implied_from [] constraints.
End SOrder.

(** ** Soundness *)
Section MonotoneSound.
Context `{SA : SignedArith, HF : HashFns}.
Variable model : SymbolicModel.
Abbreviation den := (denote_word model).
Abbreviation denb := (denote_bool model).
Import SOrder.

(** A relation that holds between the values of two words. *)
Definition related (R : Z -> Z -> Prop) (p : SymExpr * SymExpr) : Prop :=
  forall a b, den (fst p) = Some a -> den (snd p) = Some b -> R (uval a) (uval b).
Definition nonzero (e : SymExpr) : Prop := forall v, den e = Some v -> 0 < uval v.

Record facts_ok (f : OrderFacts) : Prop := {
  ok_less_than : Forall (related Z.lt) (less_than f);
  ok_less_or_equal : Forall (related Z.le) (less_or_equal f);
  ok_positive : Forall nonzero (positive f)
}.

Lemma add_le_ok p f : related Z.le p -> facts_ok f -> facts_ok (add_less_or_equal p f).
Proof. intros Hp []. split; [done|by constructor|done]. Qed.
Lemma add_strict_ok p f : related Z.lt p -> facts_ok f -> facts_ok (add_strict p f).
Proof.
  intros Hp []. assert (related Z.le p) by (intros a b Ha Hb; pose proof (Hp a b Ha Hb); lia). split; simpl; [by constructor|by constructor|done].
Qed.
Lemma add_positive_ok e f : nonzero e -> facts_ok f -> facts_ok (add_positive e f).
Proof. intros Hp []. split; [done|done|by constructor]. Qed.

Lemma positive_of_lt l r : const_is l is_zero = true -> related Z.lt (l, r) -> is_Some (den l) -> nonzero r.
Proof. intros Hz Hlt [a Ha] v Hv. pose proof (Hlt a v Ha Hv) as H. by rewrite (const_zero_val _ _ _ Hz Ha), uval_ZERO in H. Qed.

Lemma nonzero_expr_ok b e : nonzero_expr b = Some e -> denb (BNot b) = Some true -> nonzero e.
Proof.
  destruct b as [| | |[] l r]; try done. simpl nonzero_expr.
  intros He Hb v Hv. pose proof (uval_range v). destruct (decide (uval v = 0)) as [Hz|]; [|lia]. exfalso.
  assert (v = ZERO) as -> by (by apply uval_inj).
  destruct (const_is l is_zero) eqn:El; [|destruct (const_is r is_zero) eqn:Er; [|done]]; simplify_eq.
  all: match goal with E : const_is _ is_zero = true |- _ => apply (const_zero_den model) in E end.
  all: simpl in Hb; repeat match goal with H : den _ = Some _ |- _ => rewrite H in Hb end; done.
Qed.

Lemma facts_collect_ok b f : denb b = Some true -> facts_ok f -> facts_ok (collect_order_facts b f).
Proof.
  revert b f. refine (bexpr_ind' (fun _ => True) (fun b => forall f, denb b = Some true -> facts_ok f -> facts_ok (collect_order_facts b f)) _ _ _ _ _ _ _ _ _ _ _ _ _); try done.
  - intros b _ f Hb Hf. cbn [collect_order_facts].
    assert (H1 : facts_ok (match nonzero_expr b with Some e => add_positive e f | None => f end)).
    { destruct (nonzero_expr b) eqn:E; [|done]. apply add_positive_ok; [by eapply nonzero_expr_ok|done]. }
    revert H1. generalize (match nonzero_expr b with Some e => add_positive e f | None => f end). clear f Hf. intros f Hf.
    destruct b as [| | |[] l r]; try done.
    all: (apply add_strict_ok || apply add_le_ok); [|done]; intros x y Hx Hy; cbn [fst snd] in *.
    all: pose proof (den_cmp_false model _ _ _ _ _ Hb Hx Hy) as H || pose proof (den_cmp_false model _ _ _ _ _ Hb Hy Hx) as H.
    all: cbn [cmpop_eval] in H; unfold u_ltb, u_leb in H; rewrite ?Z.ltb_ge, ?Z.leb_gt in H; lia.
  - intros bs IH f Hb Hf. rewrite denote_BAnd in Hb. cbn [collect_order_facts]. revert f Hf.
    induction IH as [|b bs IHb _ IHbs]; intros f Hf; [done|]. simpl in *. destruct (denb b) as [[]|] eqn:Eb; try done.
    apply IHbs; [done|]. by apply IHb.
  - intros op l r _ _ f Hb Hf. destruct (den_cmp_some model _ _ _ _ Hb) as [Hl Hr].
    assert (Hrel : forall a b, den l = Some a -> den r = Some b -> cmpop_eval op a b = true) by (intros a b Ha Hb'; by eapply den_cmp_true).
    destruct op; try done; cbn [collect_order_facts].
    + apply add_le_ok; [|apply add_le_ok; [|done]]; intros a b Ha Hb'; simpl in *.
      * pose proof (Hrel _ _ Hb' Ha) as H%Z.eqb_eq. lia.
      * pose proof (Hrel _ _ Ha Hb') as H%Z.eqb_eq. lia.
    + assert (Hlt : related Z.lt (l, r)) by (intros a b Ha Hb'; apply Z.ltb_lt, (Hrel _ _ Ha Hb')).
      case_match; [apply add_positive_ok; [by eapply positive_of_lt|]|]; by apply add_strict_ok.
    + assert (Hlt : related Z.lt (r, l)) by (intros a b Ha Hb'; apply Z.ltb_lt, (Hrel _ _ Hb' Ha)).
      case_match; [apply add_positive_ok; [by eapply positive_of_lt|]|]; by apply add_strict_ok.
    + apply add_le_ok; [|done]. intros a b Ha Hb'. apply Z.leb_le, (Hrel _ _ Ha Hb').
    + apply add_le_ok; [|done]. intros a b Ha Hb'. apply Z.leb_le, (Hrel _ _ Hb' Ha).
Qed.

Lemma order_facts_ok cs : Forall (fun b => denb b = Some true) cs -> facts_ok (order_facts cs).
Proof.
  intros Hcs. unfold order_facts. assert (He : facts_ok SOrder.empty) by (by split). revert He.
  generalize SOrder.empty. induction Hcs as [|b cs Hb _ IH]; intros f Hf; [done|]. simpl. apply IH. by apply facts_collect_ok.
Qed.

Section Facts.
Variables (facts : OrderFacts) (bounds : ConstraintContext).
Hypothesis facts_true : facts_ok facts.
Hypothesis bounds_true : ctx_ok model bounds.

Lemma contains_pair_related R l r ps : contains_pair l r ps = true -> Forall (related R) ps -> related R (l, r).
Proof.
  unfold contains_pair. rewrite existsb_exists. intros (x & Hin & <-%pair_eqb_eq) Hps. by apply (proj1 (List.Forall_forall _ _) Hps).
Qed.

Lemma div_order a b d : uval a <= uval b -> uval (binop_eval UDiv a d) <= uval (binop_eval UDiv b d).
Proof.
  intros. cbn [binop_eval]. destruct (is_zero d) eqn:Ez; [lia|]. apply Z.eqb_neq in Ez. pose proof (uval_range d).
  rewrite !uval_div. apply Z.div_le_mono; lia.
Qed.

Lemma product_exact l r a b :
  SBoundsOf.mul_cannot_overflow_256 bounds l r = true -> den l = Some a -> den r = Some b ->
  uval (wrapping_mul a b) = uval a * uval b.
Proof.
  intros Hf Ha Hb. pose proof (mul_cannot_overflow_sound model bounds bounds_true l r Hf a b Ha Hb).
  pose proof (uval_range a). pose proof (uval_range b). apply uval_U_small. split; [apply Z.mul_nonneg_nonneg; lia|done].
Qed.

Lemma expr_less_or_equal_sound l r : expr_less_or_equal facts bounds l r = true -> related Z.le (l, r).
Proof.
  revert l r. refine (expr_ind' (fun l => forall r, expr_less_or_equal facts bounds l r = true -> related Z.le (l, r)) (fun _ => True) _ _ _ _ _ _ _ _ _ _ _ _ _); try done.
  all: intros; match goal with H : expr_less_or_equal _ _ _ _ = true |- _ => rename H into Hle end; cbn [expr_less_or_equal] in Hle.
  all: apply orb_prop in Hle as [Hle|Hle];
    [apply orb_prop in Hle as [<-%expr_eqb_eq|Hle]; [intros x y ? ?; simplify_eq/=; lia|];
     by eapply contains_pair_related, ok_less_or_equal|]; try done.
  destruct op; try done; match goal with Hle : match ?r with _ => _ end = true |- _ => destruct r as [| | | | | |[] ra rb| |]; try done end.
  - apply andb_prop in Hle as [Hle Hp]. apply andb_prop in Hle as [Hl Hr].
    intros x y (a & b & Ha & Hb & ->)%den_binop_inv (a' & b' & Ha' & Hb' & ->)%den_binop_inv. cbn [binop_eval].
    rewrite (product_exact _ _ _ _ Hl Ha Hb), (product_exact _ _ _ _ Hr Ha' Hb').
    pose proof (uval_range a). pose proof (uval_range b).
    rewrite !orb_true_iff, !andb_true_iff in Hp.
    destruct Hp as [[[[K1%H K2%H0]|[K1%H0 K2%H]]|[K1%H K2%H0]]|[K1%H0 K2%H]]; cbn [fst snd] in *.
    all: first [specialize (K1 _ _ Ha Ha')|specialize (K1 _ _ Hb Ha')|specialize (K1 _ _ Ha Hb')|specialize (K1 _ _ Hb Hb')];
         first [specialize (K2 _ _ Ha Ha')|specialize (K2 _ _ Hb Ha')|specialize (K2 _ _ Ha Hb')|specialize (K2 _ _ Hb Hb')]; nia.
  - apply andb_prop in Hle as [<-%expr_eqb_eq Hn%H].
    intros x y (a & b & Ha & Hb & ->)%den_binop_inv (a' & b' & Ha' & Hb' & ->)%den_binop_inv. simplify_eq.
    apply div_order. by apply (Hn a a').
Qed.

Lemma positive_elem e v : existsb (expr_eqb e) (positive facts) = true -> den e = Some v -> 0 < uval v.
Proof.
  rewrite existsb_exists. intros (x & Hin & <-%expr_eqb_eq). by apply (proj1 (List.Forall_forall _ _) (ok_positive _ facts_true)).
Qed.

Lemma product_less_than_ordered_sound la lb ra rb :
  product_less_than_known_ordered facts bounds la lb ra rb = true ->
  forall a b a' b', den la = Some a -> den lb = Some b -> den ra = Some a' -> den rb = Some b' ->
  uval (wrapping_mul a b) < uval (wrapping_mul a' b').
Proof.
  unfold product_less_than_known_ordered. rewrite !andb_true_iff. intros [[[[[Hp1 Hp2] H1] H2] Hl] Hr] a b a' b' Ha Hb Ha' Hb'.
  rewrite (product_exact _ _ _ _ Hl Ha Hb), (product_exact _ _ _ _ Hr Ha' Hb').
  pose proof (positive_elem _ _ Hp1 Ha). pose proof (positive_elem _ _ Hp2 Hb).
  pose proof (contains_pair_related _ _ _ _ H1 (ok_less_than _ facts_true) a a' Ha Ha').
  pose proof (contains_pair_related _ _ _ _ H2 (ok_less_than _ facts_true) b b' Hb Hb'). nia.
Qed.

Lemma mul_comm_word a b : wrapping_mul a b = wrapping_mul b a.
Proof. unfold wrapping_mul. by rewrite Z.mul_comm. Qed.

Lemma product_less_than_sound la lb ra rb :
  product_less_than_known facts bounds la lb ra rb = true -> related Z.lt (EBinOp Mul la lb, EBinOp Mul ra rb).
Proof.
  unfold product_less_than_known. rewrite !orb_true_iff. intros Hk x y.
  intros (a & b & Ha & Hb & ->)%den_binop_inv (a' & b' & Ha' & Hb' & ->)%den_binop_inv. cbn [binop_eval].
  destruct Hk as [[[H|H]|H]|H].
  - by eapply product_less_than_ordered_sound.
  - rewrite (mul_comm_word a b). by eapply product_less_than_ordered_sound.
  - rewrite (mul_comm_word a' b'). by eapply product_less_than_ordered_sound.
  - rewrite (mul_comm_word a b), (mul_comm_word a' b'). by eapply product_less_than_ordered_sound.
Qed.
End Facts.

(** What the comparisons say of the values. *)
Lemma reversed_strict_spec b l r : reversed_strict_comparison b = Some (l, r) -> denb b = Some true ->
  exists x y, den l = Some x /\ den r = Some y /\ uval x < uval y.
Proof.
  intros Hr Hb. destruct b as [|[| | |[] l' r']| |[] l' r']; try done; simpl in Hr; simplify_eq.
  all: first [destruct (den_cmp_some model _ _ _ _ Hb) as [[x Hx] [y Hy]]|destruct (den_not_cmp_some model _ _ _ _ Hb) as [[x Hx] [y Hy]]].
  all: first [pose proof (den_cmp_true model _ _ _ _ _ Hb Hx Hy) as H|pose proof (den_cmp_false model _ _ _ _ _ Hb Hx Hy) as H].
  all: cbn [cmpop_eval] in H; unfold u_ltb, u_leb in H; rewrite ?Z.ltb_lt, ?Z.leb_gt in H; eauto 10.
Qed.

Lemma negated_product_spec b la lb ra rb : product_less_than_negation b = Some (la, lb, (ra, rb)) -> denb b = Some true ->
  exists x y, den (EBinOp Mul la lb) = Some x /\ den (EBinOp Mul ra rb) = Some y /\ uval y <= uval x.
Proof.
  intros Hp Hb. destruct b as [|[| | |[] l r]| |]; try done. simpl in Hp.
  destruct l as [| | | | | |[] l1 l2| |]; try done. destruct r as [| | | | | |[] r1 r2| |]; try done. simpl in Hp. simplify_eq.
  destruct (den_not_cmp_some model _ _ _ _ Hb) as [[x Hx] [y Hy]]. pose proof (den_cmp_false model _ _ _ _ _ Hb Hx Hy) as H%Z.ltb_ge.
  eauto.
Qed.

(** A contradiction means that no model satisfies the constraints. *)
Lemma monotonic_unsat_sound cs :
  product_monotonic_unsat_normalized cs = true -> ~ Forall (fun b => denb b = Some true) cs.
Proof.
  unfold product_monotonic_unsat_normalized. rewrite existsb_exists. intros (b & Hin & Hb) Hcs.
  pose proof (order_facts_ok cs Hcs) as Hf. pose proof (new_ctx_ok model cs Hcs) as Hc.
  pose proof (proj1 (List.Forall_forall _ _) Hcs b Hin) as Htrue. simpl in Htrue. apply orb_prop in Hb as [Hb|Hb].
  - destruct (reversed_strict_comparison b) as [[l r]|] eqn:E; [|done].
    destruct (reversed_strict_spec _ _ _ E Htrue) as (x & y & Hx & Hy & Hlt).
    pose proof (expr_less_or_equal_sound _ _ Hf Hc r l Hb y x Hy Hx). lia.
  - destruct (product_less_than_negation b) as [[[la lb] [ra rb]]|] eqn:E; [|done].
    destruct (negated_product_spec _ _ _ _ _ E Htrue) as (x & y & Hx & Hy & Hlt).
    pose proof (product_less_than_sound _ _ Hf Hc _ _ _ _ Hb x y Hx Hy). lia.
Qed.

(** *** Removal *)
Lemma less_or_equal_not_false b l r : less_or_equal_comparison b = Some (l, r) -> related Z.le (l, r) -> denb b <> Some false.
Proof.
  intros Hc Hle. destruct b as [|[| | |[] l' r']| |[] l' r']; try done; injection Hc as <- <-; simpl;
    destruct (den l') as [x|] eqn:Hx, (den r') as [y|] eqn:Hy; try done; unfold related in Hle; cbn [fst snd] in Hle.
  all: first [pose proof (Hle _ _ Hx Hy)|pose proof (Hle _ _ Hy Hx)]; unfold u_leb, u_ltb; simpl; intros [= Hf];
    rewrite ?negb_false_iff, ?Z.leb_gt, ?Z.ltb_lt in Hf; lia.
Qed.

Lemma implied_not_false base b :
  implied_by base b = true -> Forall (fun b => denb b = Some true) base -> denb b <> Some false.
Proof.
  unfold implied_by. intros [_ H]%andb_prop Hbase. destruct (less_or_equal_comparison b) as [[l r]|] eqn:E; [|done].
  eapply less_or_equal_not_false; [exact E|].
  eapply expr_less_or_equal_sound; [by apply order_facts_ok|by apply new_ctx_ok|exact H].
Qed.

(** The result is part of the constraints, and its models are models of all
    the removed constraints that have a value. *)
Lemma remove_implied_from_incl kept rest b : b ∈ remove_implied_from kept rest -> b ∈ kept ++ rest.
Proof.
  revert kept. induction rest as [|x rest IH]; intros kept; simpl; [by rewrite app_nil_r|].
  case_match; intros Hb%IH; set_solver.
Qed.

Lemma remove_implied_from_models kept rest :
  Forall (fun b => is_Some (denb b)) (kept ++ rest) ->
  Forall (fun b => denb b = Some true) (remove_implied_from kept rest) -> Forall (fun b => denb b = Some true) (kept ++ rest).
Proof.
  revert kept. induction rest as [|x rest IH]; intros kept; simpl; [by rewrite app_nil_r|]. intros Hd. case_match eqn:E; intros Hr.
  - apply IH in Hr; [|rewrite Forall_app, Forall_cons in *; naive_solver]. pose proof (implied_not_false _ _ E Hr) as Hx.
    rewrite Forall_app in *. destruct Hr. split; [done|]. constructor; [|done]. destruct Hd as [_ Hd]. inversion_clear Hd as [|? ? [[] Hv]]; congruence.
  - apply IH in Hr; [by rewrite <- app_assoc in Hr|by rewrite <- app_assoc].
Qed.
End MonotoneSound.
