(* ===== verification/SymPoly.v ===== *)
(** * SymPoly: polynomial identities over words

    Models runtime/solver/normalize/polynomial.rs: sparse polynomials over the
    ring of words, their bounded construction from expressions and the test
    that two expressions are the same polynomial.  The test is sound: words that
    it identifies have the same value under every model. *)

From Stdlib Require Import ZArith Lia Bool.
From stdpp Require Import base list option sets.
From S2P Require Import Prelude SymWord SymExpr SymSimpl SymSound SymCmp SymContext.
Local Open Scope Z_scope.

Definition MAX_POLYNOMIAL_TERMS : Z := 32.
Definition MAX_MONOMIAL_FACTORS : Z := 8.
Definition MAX_POLYNOMIAL_PRODUCTS : Z := 256.

Definition Monomial := list SymExpr.
(** A [HashMap] with the newest entry first and one entry per key. *)
Definition Terms := list (Monomial * U256).

(** The order in which a hash map yields its entries, and the address of the
    node of an expression, which breaks ties of [identity_cmp]. *)
Class PolyParts := {
  iter_terms : Terms -> Terms;
  node_address : SymExpr -> Z
}.
Class PolyLaws `{PolyParts} : Prop := {
  iter_terms_perm t : iter_terms t ≡ₚ t
}.

Definition mono_eqb (x y : Monomial) : bool := bool_decide (x = y).

Module SPoly.
Definition shift_below_256 (shift : SymExpr) : bool := const_is shift (fun s => u_ltb s (U 256)).

Definition is_sum (e : SymExpr) : bool := match e with EBinOp (Add | Sub) _ _ => true | _ => false end.
Definition is_product (e : SymExpr) : bool := match e with EBinOp Mul _ _ => true | _ => false end.
Definition is_scaled (e : SymExpr) : bool := match e with EBinOp Shl _ shift => shift_below_256 shift | _ => false end.

Definition crosses_sum_product_boundary (e : SymExpr) : bool :=
  match e with
  | EBinOp Mul l r => is_sum l || is_sum r
  | EBinOp (Add | Sub) l r => is_product l || is_product r || is_scaled l || is_scaled r
  | _ => false
  end.

(** *** Shape: the numbers of operations and multiplications *)
Record ShapeState := mkShape { shapes : list (SymExpr * option (Z * Z)); shape_remaining : Z }.

Fixpoint ring_shape (e : SymExpr) (st : ShapeState) : option (Z * Z) * ShapeState :=
  match assoc expr_eqb e (shapes st) with
  | Some shape => (shape, st)
  | None =>
      if shape_remaining st =? 0 then (None, st)
      else
        let st := mkShape (shapes st) (shape_remaining st - 1) in
        let two (multiplication : Z) l r :=
          match ring_shape l st with
          | (None, st) => (None, st)
          | (Some (lo, lm), st) =>
              match ring_shape r st with
              | (None, st) => (None, st)
              | (Some (ro, rm), st) => (Some (sat_add (sat_add lo ro) 1, sat_add (sat_add lm rm) multiplication), st)
              end
          end in
        let '(shape, st) :=
          match e with
          | EConst _ | EVar _ => (Some (0, 0), st)
          | EBinOp Add l r | EBinOp Sub l r => two 0 l r
          | EBinOp Mul l r => two 1 l r
          | EBinOp Shl value shift =>
              if shift_below_256 shift then
                match ring_shape value st with
                | (None, st) => (None, st)
                | (Some (o, m), st) => (Some (sat_add o 1, sat_add m 1), st)
                end
              else (None, st)
          | _ => (None, st)
          end in
        (shape, mkShape ((e, shape) :: shapes st) (shape_remaining st))
  end.

Definition polynomial_normalization_can_help (e : SymExpr) : bool :=
  crosses_sum_product_boundary e &&
  match fst (ring_shape e (mkShape [] MAX_LOCAL_ANALYSIS_NODES)) with
  | Some (operations, multiplications) => (1 <? operations) && (0 <? multiplications)
  | None => false
  end.

Section Poly.
Context `{HF : HashFns, PP : PolyParts}.

(** [identity_cmp]: the cached hash, then the address. *)
Definition identity_leb (x y : SymExpr) : bool :=
  (stable_hash x <? stable_hash y) || ((stable_hash x =? stable_hash y) && (node_address x <=? node_address y)).

Fixpoint insert_factor (e : SymExpr) (l : Monomial) : Monomial :=
  match l with
  | [] => [e]
  | x :: r => if identity_leb e x then e :: l else x :: insert_factor e r
  end.
Definition sort_interned_factors (l : Monomial) : Monomial := foldr insert_factor [] l.

Definition constant (value : U256) : Terms := if is_zero value then [] else [([], value)].

Definition remove_term (m : Monomial) (t : Terms) : Terms := List.filter (fun '(k, _) => negb (mono_eqb m k)) t.

Definition add_term (m : Monomial) (coefficient : U256) (t : Terms) : Terms :=
  if is_zero coefficient then t
  else
    let coefficient := wrapping_add (default ZERO (assoc mono_eqb m t)) coefficient in
    if is_zero coefficient then remove_term m t else (m, coefficient) :: remove_term m t.

Definition too_long (t : Terms) : bool := MAX_POLYNOMIAL_TERMS <? Z.of_nat (length t).

(** The loop of [add] and [sub], with the coefficient that an entry adds. *)
Fixpoint add_loop (f : U256 -> U256) (entries : Terms) (t : Terms) : option Terms :=
  match entries with
  | [] => Some t
  | (m, k) :: rest => let t := add_term m (f k) t in if too_long t then None else add_loop f rest t
  end.
Definition add (l r : Terms) : option Terms := add_loop (fun k => k) (iter_terms r) l.
Definition sub (l r : Terms) : option Terms := add_loop (wrapping_sub ZERO) (iter_terms r) l.

Fixpoint mul_row (lm : Monomial) (lk : U256) (entries : Terms) (out : Terms) : option Terms :=
  match entries with
  | [] => Some out
  | (rm, rk) :: rest =>
      if MAX_MONOMIAL_FACTORS <? Z.of_nat (length lm + length rm) then None
      else
        let out := add_term (sort_interned_factors (lm ++ rm)) (wrapping_mul lk rk) out in
        if too_long out then None else mul_row lm lk rest out
  end.
Fixpoint mul_rows (rows entries : Terms) (out : Terms) : option Terms :=
  match rows with
  | [] => Some out
  | (lm, lk) :: rest =>
      match mul_row lm lk entries out with Some out => mul_rows rest entries out | None => None end
  end.
Definition mul (l r : Terms) : option Terms :=
  if MAX_POLYNOMIAL_PRODUCTS <? Z.of_nat (length l * length r) then None
  else mul_rows (iter_terms l) (iter_terms r) [].

Record PolyState := mkPoly { polynomials : list (SymExpr * option Terms); poly_remaining : Z }.

Definition remember_poly (e : SymExpr) (computed : option Terms * PolyState) : option Terms * PolyState :=
  let '(p, st) := computed in (p, mkPoly ((e, p) :: polynomials st) (poly_remaining st)).

Fixpoint from_expr_cached (e : SymExpr) (st : PolyState) : option Terms * PolyState :=
  match assoc expr_eqb e (polynomials st) with
  | Some p => (p, st)
  | None =>
      if poly_remaining st =? 0 then (None, mkPoly ((e, None) :: polynomials st) (poly_remaining st))
      else
        let st := mkPoly (polynomials st) (poly_remaining st - 1) in
        let two (op : Terms -> Terms -> option Terms) l r :=
          match from_expr_cached l st with
          | (None, st) => (None, st)
          | (Some lp, st) =>
              match from_expr_cached r st with
              | (None, st) => (None, st)
              | (Some rp, st) => (op lp rp, st)
              end
          end in
        remember_poly e
          match e with
          | EConst value => (Some (constant value), st)
          | EBinOp Add l r => two add l r
          | EBinOp Sub l r => two sub l r
          | EBinOp Mul l r => two mul l r
          | EBinOp Shl value shift =>
              match as_const shift with
              | Some s =>
                  if u_ltb s (U 256) then
                    match from_expr_cached value st with
                    | (None, st) => (None, st)
                    | (Some vp, st) => (mul vp (constant (u_shl ONE (uval s))), st)
                    end
                  else (Some [([e], ONE)], st)
              | None => (Some [([e], ONE)], st)
              end
          | _ => (Some [([e], ONE)], st)
          end
  end.

Definition from_expr (e : SymExpr) : option Terms :=
  fst (from_expr_cached e (mkPoly [] MAX_LOCAL_ANALYSIS_NODES)).

(** Equality of hash maps. *)
Definition terms_eqb (l r : Terms) : bool :=
  (length l =? length r)%nat &&
  forallb (fun '(m, k) => match assoc mono_eqb m r with Some k' => u_eqb k k' | None => false end) l.

Definition polynomial_identity (l r : SymExpr) : bool :=
  if negb (polynomial_normalization_can_help l) && negb (polynomial_normalization_can_help r) then false
  else match from_expr l, from_expr r with
       | Some lp, Some rp => terms_eqb lp rp
       | _, _ => false
       end.
End Poly.
End SPoly.

(** ** Congruence of integers modulo the size of a word *)
Definition cong (a b : Z) : Prop := exists k, a = b + k * word_modulus.

#[global] Instance cong_equiv : Equivalence cong.
Proof.
  split.
  - intros a. exists 0. lia.
  - intros a b [k ->]. exists (- k). lia.
  - intros a b c [k ->] [j ->]. exists (k + j). lia.
Qed.
#[global] Instance cong_add : Proper (cong ==> cong ==> cong) Z.add.
Proof. intros a b [k ->] c d [j ->]. exists (k + j). lia. Qed.
#[global] Instance cong_sub : Proper (cong ==> cong ==> cong) Z.sub.
Proof. intros a b [k ->] c d [j ->]. exists (k - j). lia. Qed.
#[global] Instance cong_mul : Proper (cong ==> cong ==> cong) Z.mul.
Proof. intros a b [k ->] c d [j ->]. exists (b * j + k * d + k * j * word_modulus). ring. Qed.

Lemma cong_U z : cong (uval (U z)) z.
Proof. rewrite uval_U. exists (- (z / word_modulus)). pose proof (Z.div_mod z word_modulus ltac:(by vm_compute)). lia. Qed.

Lemma cong_word a b : cong (uval a) (uval b) -> a = b.
Proof.
  intros [k Hk]. apply uval_inj. pose proof (uval_range a). pose proof (uval_range b).
  assert (k = 0) as -> by nia. lia.
Qed.

Section PolySound.
Context `{SA : SignedArith, HF : HashFns, PP : PolyParts} {PL : PolyLaws}.
Variable model : SymbolicModel.
Abbreviation den := (denote_word model).
Abbreviation denb := (denote_bool model).
Import SPoly.

(** The value of a factor, of a monomial and of a polynomial. *)
Definition factor_val (e : SymExpr) : Z := match den e with Some v => uval v | None => 0 end.
Definition mono_val (m : Monomial) : Z := foldr (fun e acc => factor_val e * acc) 1 m.
Definition poly_val (t : Terms) : Z := foldr (fun '(m, k) acc => uval k * mono_val m + acc) 0 t.

Lemma mono_val_app m n : mono_val (m ++ n) = mono_val m * mono_val n.
Proof. induction m as [|e m IH]; simpl; [lia|]. rewrite IH. ring. Qed.

#[local] Instance mono_val_perm : Proper ((≡ₚ) ==> eq) mono_val.
Proof. intros m n. induction 1; simpl; lia. Qed.
#[local] Instance poly_val_perm : Proper ((≡ₚ) ==> eq) poly_val.
Proof. intros t u. induction 1 as [|[? ?]|[? ?] [? ?]|]; simpl; lia. Qed.

Lemma insert_factor_perm e l : insert_factor e l ≡ₚ e :: l.
Proof.
  induction l as [|x l IH]; simpl; [done|]. case_match; [done|]. rewrite IH. by constructor.
Qed.
Lemma sort_perm l : sort_interned_factors l ≡ₚ l.
Proof. induction l as [|e l IH]; simpl; [done|]. rewrite insert_factor_perm. by rewrite IH. Qed.

(** *** Keys are distinct *)
Definition keys (t : Terms) : list Monomial := map fst t.
Definition distinct (t : Terms) : Prop := NoDup (keys t).

Lemma mono_eqb_eq m n : mono_eqb m n = true <-> m = n.
Proof. unfold mono_eqb. by rewrite bool_decide_eq_true. Qed.

Lemma keys_remove m t x : x ∈ keys (remove_term m t) <-> x <> m /\ x ∈ keys t.
Proof.
  induction t as [|[k v] t IH]; simpl; [set_solver|]. destruct (mono_eqb m k) eqn:E; simpl.
  - apply mono_eqb_eq in E as ->. rewrite IH. set_solver.
  - assert (k <> m) by (intros ->; by rewrite (proj2 (mono_eqb_eq m m) eq_refl) in E). rewrite elem_of_cons, IH. set_solver.
Qed.
Lemma distinct_remove m t : distinct t -> distinct (remove_term m t).
Proof.
  unfold distinct. induction t as [|[k v] t IH]; simpl; [done|]. rewrite NoDup_cons. intros [Hk Ht].
  destruct (mono_eqb m k); simpl; [by apply IH|]. rewrite NoDup_cons, keys_remove. naive_solver.
Qed.
Lemma distinct_add m k t : distinct t -> distinct (add_term m k t).
Proof.
  intros Ht. unfold add_term. repeat case_match; try done; [by apply distinct_remove|].
  unfold distinct. simpl. rewrite NoDup_cons, keys_remove. split; [naive_solver|by apply distinct_remove].
Qed.

Lemma assoc_keys m t : assoc mono_eqb m t = None <-> m ∉ keys t.
Proof.
  induction t as [|[k v] t IH]; simpl; [set_solver|]. destruct (mono_eqb m k) eqn:E.
  - apply mono_eqb_eq in E as ->. set_solver.
  - assert (k <> m) by (intros ->; by rewrite (proj2 (mono_eqb_eq m m) eq_refl) in E). rewrite IH. set_solver.
Qed.

Lemma remove_absent m t : m ∉ keys t -> remove_term m t = t.
Proof.
  induction t as [|[k v] t IH]; simpl; [done|]. intros Hm. destruct (mono_eqb m k) eqn:E.
  - apply mono_eqb_eq in E as ->. set_solver.
  - simpl. rewrite IH; set_solver.
Qed.

(** Taking out a key takes out its term. *)
Lemma remove_val m t : distinct t ->
  poly_val t = uval (default ZERO (assoc mono_eqb m t)) * mono_val m + poly_val (remove_term m t).
Proof.
  unfold distinct. induction t as [|[k v] t IH]; simpl; [intros _; change (0 = uval ZERO * mono_val m + 0); rewrite uval_ZERO; lia|]. rewrite NoDup_cons. intros [Hk Ht].
  destruct (mono_eqb m k) eqn:E; simpl.
  - apply mono_eqb_eq in E as ->. by rewrite remove_absent.
  - rewrite (IH Ht). lia.
Qed.

Lemma add_term_val m k t : distinct t -> cong (poly_val (add_term m k t)) (uval k * mono_val m + poly_val t).
Proof.
  intros Ht. unfold add_term. destruct (is_zero k) eqn:Ek; [apply is_zero_true in Ek as ->; rewrite uval_ZERO; reflexivity|].
  rewrite (remove_val m t Ht). set (old := default ZERO (assoc mono_eqb m t)).
  assert (Hsum : cong (uval (wrapping_add old k)) (uval old + uval k)) by apply cong_U.
  destruct (is_zero (wrapping_add old k)) eqn:Es.
  - apply is_zero_true in Es. rewrite Es, uval_ZERO in Hsum.
    replace (uval k * mono_val m + (uval old * mono_val m + poly_val (remove_term m t)))
      with ((uval old + uval k) * mono_val m + poly_val (remove_term m t)) by ring. rewrite <- Hsum. reflexivity.
  - simpl. rewrite Hsum. apply eq_subrelation; [apply _|ring].
Qed.

Lemma add_loop_val f (s : Z) entries t r :
  (forall k, cong (uval (f k)) (s * uval k)) -> distinct t -> add_loop f entries t = Some r ->
  distinct r /\ cong (poly_val r) (poly_val t + s * poly_val entries).
Proof.
  intros Hf. revert t. induction entries as [|[m k] es IH]; intros t Ht; simpl.
  { intros [= <-]. split; [done|]. apply eq_subrelation; [apply _|ring]. }
  case_match; [done|]. intros Hr. apply IH in Hr as [Hd Hr]; [|by apply distinct_add]. split; [done|].
  rewrite Hr, add_term_val, Hf by done. apply eq_subrelation; [apply _|ring].
Qed.

Lemma add_val l r t : distinct l -> add l r = Some t -> distinct t /\ cong (poly_val t) (poly_val l + poly_val r).
Proof.
  intros Hl Ht. destruct (add_loop_val (fun k => k) 1 _ _ _ ltac:(intros k; apply eq_subrelation; [apply _|ring]) Hl Ht) as [Hd Hv]. split; [done|].
  rewrite Hv, (iter_terms_perm r). apply eq_subrelation; [apply _|ring].
Qed.
Lemma sub_val l r t : distinct l -> sub l r = Some t -> distinct t /\ cong (poly_val t) (poly_val l - poly_val r).
Proof.
  intros Hl Ht. destruct (add_loop_val (wrapping_sub ZERO) (-1) _ _ _ ltac:(intros k; unfold wrapping_sub; rewrite cong_U, uval_ZERO; apply eq_subrelation; [apply _|ring]) Hl Ht) as [Hd Hv].
  split; [done|]. rewrite Hv, (iter_terms_perm r). apply eq_subrelation; [apply _|ring].
Qed.

Lemma mul_row_val lm lk entries out r : distinct out -> mul_row lm lk entries out = Some r ->
  distinct r /\ cong (poly_val r) (poly_val out + uval lk * mono_val lm * poly_val entries).
Proof.
  revert out. induction entries as [|[rm rk] es IH]; intros out Ho; simpl.
  { intros [= <-]. split; [done|]. apply eq_subrelation; [apply _|ring]. }
  repeat (case_match; [done|]). intros Hr. apply IH in Hr as [Hd Hr]; [|by apply distinct_add]. split; [done|].
  rewrite Hr, add_term_val, sort_perm, mono_val_app by done. unfold wrapping_mul. rewrite cong_U.
  apply eq_subrelation; [apply _|ring].
Qed.
Lemma mul_rows_val rows entries out r : distinct out -> mul_rows rows entries out = Some r ->
  distinct r /\ cong (poly_val r) (poly_val out + poly_val rows * poly_val entries).
Proof.
  revert out. induction rows as [|[lm lk] rows IH]; intros out Ho; simpl.
  { intros [= <-]. split; [done|]. apply eq_subrelation; [apply _|ring]. }
  destruct (mul_row lm lk entries out) as [out'|] eqn:E; [|done]. apply mul_row_val in E as [Hd Hv]; [|done].
  intros Hr. apply IH in Hr as [Hd' Hr]; [|done]. split; [done|]. rewrite Hr, Hv. apply eq_subrelation; [apply _|ring].
Qed.
Lemma mul_val l r t : mul l r = Some t -> distinct t /\ cong (poly_val t) (poly_val l * poly_val r).
Proof.
  unfold mul. case_match; [done|]. intros Ht. apply mul_rows_val in Ht as [Hd Hv]; [|by constructor]. split; [done|].
  rewrite Hv, (iter_terms_perm l), (iter_terms_perm r). apply eq_subrelation; [apply _|simpl; ring].
Qed.

Lemma constant_val k : distinct (constant k) /\ poly_val (constant k) = uval k.
Proof.
  unfold constant. destruct (is_zero k) eqn:E; [apply is_zero_true in E as ->; split; [constructor|done]|].
  split; [apply NoDup_singleton|simpl; ring].
Qed.

(** *** Expressions *)
Definition poly_ok (e : SymExpr) (t : Terms) : Prop :=
  distinct t /\ forall v, den e = Some v -> cong (uval v) (poly_val t).
Definition poly_state_ok (st : PolyState) : Prop :=
  forall e t, assoc expr_eqb e (polynomials st) = Some (Some t) -> poly_ok e t.
Definition poly_sound (m : PolyState -> option Terms * PolyState) (e : SymExpr) : Prop :=
  forall st, poly_state_ok st -> poly_state_ok (snd (m st)) /\ (forall t, fst (m st) = Some t -> poly_ok e t).

Lemma atom_ok e : poly_ok e [([e], ONE)].
Proof.
  split; [apply NoDup_singleton|]. intros v Hv. simpl. unfold factor_val. rewrite Hv.
  change (cong (uval v) (uval ONE * (uval v * 1) + 0)). rewrite uval_ONE. apply eq_subrelation; [apply _|ring].
Qed.

Lemma binop_poly_ok op f l r lt rt t :
  (forall a b, cong (uval (binop_eval op a b)) (f (uval a) (uval b))) ->
  Proper (cong ==> cong ==> cong) f -> distinct t /\ cong (poly_val t) (f (poly_val lt) (poly_val rt)) ->
  poly_ok l lt -> poly_ok r rt -> poly_ok (EBinOp op l r) t.
Proof.
  intros Hop Hf [Hd Hv] [_ Hl] [_ Hr]. split; [done|]. intros v (a & b & Ha & Hb & ->)%den_binop_inv.
  rewrite Hop, (Hl a Ha), (Hr b Hb). by symmetry.
Qed.

Lemma poly_two (op : Terms -> Terms -> option Terms) l r e st :
  poly_sound (from_expr_cached l) l -> poly_sound (from_expr_cached r) r ->
  (forall lt rt t, poly_ok l lt -> poly_ok r rt -> op lt rt = Some t -> poly_ok e t) -> poly_state_ok st ->
  let res := match from_expr_cached l st with
             | (None, st) => (None, st)
             | (Some lp, st) => match from_expr_cached r st with
                                | (None, st) => (None, st)
                                | (Some rp, st) => (op lp rp, st)
                                end
             end in
  poly_state_ok (snd res) /\ (forall t, fst res = Some t -> poly_ok e t).
Proof.
  intros Hl Hr Hop Hst. specialize (Hl st Hst) as [Hl1 Hl2]. destruct (from_expr_cached l st) as [[lp|] st1]; [|done].
  specialize (Hr st1 Hl1) as [Hr1 Hr2]. destruct (from_expr_cached r st1) as [[rp|] st2]; [|done].
  split; [done|]. simpl in *. eauto.
Qed.

Lemma shl_mul value s k t vp :
  as_const s = Some k -> u_ltb k (U 256) = true -> poly_ok value vp ->
  mul vp (constant (u_shl ONE (uval k))) = Some t -> poly_ok (EBinOp Shl value s) t.
Proof.
  intros Hs Hk [_ Hv] Ht. destruct (mul_val _ _ _ Ht) as [Hd Hval]. split; [done|].
  intros v (a & b & Ha & Hb & ->)%den_binop_inv. rewrite (as_const_den _ _ _ _ Hs Hb). cbn [binop_eval].
  destruct (u_leb (U 256) k) eqn:E; [unfold u_leb, u_ltb in *; apply Z.leb_le in E; apply Z.ltb_lt in Hk; lia|].
  rewrite Hval, (proj2 (constant_val _)). rewrite <- (Hv a Ha). pose proof (uval_range k). unfold u_shl.
  rewrite !cong_U, uval_ONE, !Z.shiftl_mul_pow2 by lia. apply eq_subrelation; [apply _|ring].
Qed.

Lemma remember_ok e res : poly_state_ok (snd res) /\ (forall t, fst res = Some t -> poly_ok e t) ->
  poly_state_ok (snd (remember_poly e res)) /\ (forall t, fst (remember_poly e res) = Some t -> poly_ok e t).
Proof.
  destruct res as [p st]. simpl. intros [H1 H2]. split; [|done]. intros x t. simpl.
  destruct (expr_eqb_spec x e) as [->|]; [intros [= ->]; by apply H2|apply H1].
Qed.

Lemma atom_state_ok e st : poly_state_ok st ->
  poly_state_ok (snd (Some [([e], ONE)], st)) /\ (forall t, fst (Some [([e], ONE)], st) = Some t -> poly_ok e t).
Proof. intros Hst. split; [done|]. intros t [= <-]. apply atom_ok. Qed.

Lemma from_expr_sound e : poly_sound (from_expr_cached e) e.
Proof.
  revert e. refine (expr_ind' (fun e => poly_sound (from_expr_cached e) e) (fun _ => True) _ _ _ _ _ _ _ _ _ _ _ _ _); try done.
  all: intros; intros st Hst; cbn [from_expr_cached]; fold from_expr_cached.
  all: match goal with |- context [assoc expr_eqb ?e ?w] => destruct (assoc expr_eqb e w) as [o|] eqn:Ea end;
    [split; [done|]; cbn [fst]; intros ? ->; by apply Hst|].
  all: case_match; [split; [|done]; intros x p; simpl; match goal with |- context [expr_eqb x ?y] => destruct (expr_eqb_spec x y) end; [done|apply Hst]|].
  all: apply remember_ok; try (by apply atom_state_ok).
  - split; [exact Hst|]. intros ? [= <-]. destruct (constant_val v) as [Hd Hv]. split; [done|]. intros ? [= <-]. by rewrite Hv.
  - destruct op; try (by apply atom_state_ok).
    + apply (poly_two add l r (EBinOp Add l r)); try done. intros lt rt t Hl Hr Ht.
      apply (binop_poly_ok Add Z.add l r lt rt); [intros; apply cong_U|apply _|by apply add_val, Ht; apply Hl|done..].
    + apply (poly_two sub l r (EBinOp Sub l r)); try done. intros lt rt t Hl Hr Ht.
      apply (binop_poly_ok Sub Z.sub l r lt rt); [intros; apply cong_U|apply _|by apply sub_val, Ht; apply Hl|done..].
    + apply (poly_two mul l r (EBinOp Mul l r)); try done. intros lt rt t Hl Hr Ht.
      apply (binop_poly_ok Mul Z.mul l r lt rt); [intros; apply cong_U|apply _|by apply mul_val|done..].
    + destruct (as_const r) as [k|] eqn:Er; [|by apply atom_state_ok]. destruct (u_ltb k (U 256)) eqn:Ek; [|by apply atom_state_ok].
      destruct (H (mkPoly (polynomials st) (poly_remaining st - 1)) Hst) as [H2 H3].
      destruct (from_expr_cached l _) as [[lp|] st']; [|done]. split; [done|]. intros t Ht. eapply shl_mul; eauto.
Qed.

(** *** Equal polynomials have the same value *)
Lemma assoc_in (t : Terms) m k : assoc mono_eqb m t = Some k -> (m, k) ∈ t.
Proof. intros H. apply list_elem_of_In. apply assoc_Some_in in H; [done|]. intros a b. apply mono_eqb_eq. Qed.

Lemma terms_eqb_val l r : distinct l -> distinct r -> terms_eqb l r = true -> poly_val l = poly_val r.
Proof.
  unfold terms_eqb. intros Hl Hr [Hlen%Nat.eqb_eq Hall]%andb_prop. rewrite forallb_forall in Hall.
  assert (Hsub : l ⊆ r).
  { intros [m k] Hin%list_elem_of_In. specialize (Hall _ Hin). simpl in Hall. destruct (assoc mono_eqb m r) as [k'|] eqn:E; [|done].
    apply u_eqb_eq in Hall as ->. by apply assoc_in. }
  assert (Hnd : forall t, distinct t -> NoDup t) by (intros t Ht; by eapply NoDup_fmap_1).
  apply poly_val_perm. apply submseteq_length_Permutation; [|lia]. apply NoDup_submseteq; auto.
Qed.

Lemma polynomial_identity_sound l r a b :
  polynomial_identity l r = true -> den l = Some a -> den r = Some b -> a = b.
Proof.
  unfold polynomial_identity. case_match; [done|]. unfold from_expr.
  assert (Hnew : poly_state_ok (mkPoly [] MAX_LOCAL_ANALYSIS_NODES)) by (by intros ? ?).
  destruct (from_expr_sound l _ Hnew) as [_ Hl]. destruct (from_expr_sound r _ Hnew) as [_ Hr].
  destruct (fst (from_expr_cached l _)) as [lp|]; [|done]. destruct (fst (from_expr_cached r _)) as [rp|]; [|done].
  intros Heq Ha Hb. destruct (Hl _ eq_refl) as [Hld Hlv]. destruct (Hr _ eq_refl) as [Hrd Hrv].
  apply cong_word. rewrite (Hlv a Ha), (Hrv b Hb). by rewrite (terms_eqb_val lp rp).
Qed.
End PolySound.
