(* ===== verification/SymHashes.v ===== *)
(** * SymHashes: the hashes of an expression, and equality of hashes

    [SymBoolExpr::eq] compares two hashes by their inputs.  That is right for
    the hashes of a conjunction when they are told apart by their inputs
    ([hashes_faithful]).  [word_hashes]/[bool_hashes] say that every hash of an
    expression has a property; the simplifying constructors bring in no other
    hash, and under [HashLaw] comparisons keep their meaning without the
    exception of [cmp_refines]. *)

From Stdlib Require Import ZArith Lia Bool.
From stdpp Require Import base list option sets.
From S2P Require Import Prelude SymWord SymExpr SymSimpl SymSound SymCmp.
Local Open Scope Z_scope.

Section Hashes.
(** A property of hash nodes. *)
Variable h : SymExpr -> Prop.

Fixpoint word_hashes (e : SymExpr) : Prop :=
  match e with
  | EConst _ | EVar _ | EGasLeft _ => True
  | EKeccak _ len bytes =>
      h e /\ word_hashes len /\ (fix go bs := match bs with [] => True | b :: r => word_hashes b /\ go r end) bytes
  | EHash _ _ bytes => h e /\ (fix go bs := match bs with [] => True | b :: r => word_hashes b /\ go r end) bytes
  | ENot v => word_hashes v
  | EBinOp _ l r => word_hashes l /\ word_hashes r
  | ETernOp _ l r m => word_hashes l /\ word_hashes r /\ word_hashes m
  | EIte c t f => bool_hashes c /\ word_hashes t /\ word_hashes f
  end
with bool_hashes (b : SymBoolExpr) : Prop :=
  match b with
  | BConst _ => True
  | BNot v => bool_hashes v
  | BAnd vs => (fix go vs := match vs with [] => True | v :: r => bool_hashes v /\ go r end) vs
  | BCmp _ l r => word_hashes l /\ word_hashes r
  end.

Lemma words_hashes_Forall bs :
  (fix go bs := match bs with [] => True | b :: r => word_hashes b /\ go r end) bs <-> Forall word_hashes bs.
Proof. induction bs as [|b bs IH]; [done|]. rewrite Forall_cons, <- IH. done. Qed.

Lemma and_hashes vs : bool_hashes (BAnd vs) <-> Forall bool_hashes vs.
Proof. induction vs as [|v vs IH]; [done|]. rewrite Forall_cons, <- IH. done. Qed.
Lemma keccak_hashes n l bs : word_hashes (EKeccak n l bs) <-> h (EKeccak n l bs) /\ word_hashes l /\ Forall word_hashes bs.
Proof. simpl. by rewrite words_hashes_Forall. Qed.
Lemma hash_hashes n a bs : word_hashes (EHash n a bs) <-> h (EHash n a bs) /\ Forall word_hashes bs.
Proof. simpl. by rewrite words_hashes_Forall. Qed.

(** ** Constructors bring in no other hash *)
Abbreviation P := word_hashes.
Abbreviation Q := bool_hashes.

Lemma P_constant v : P (constant v).
Proof. unfold constant. by repeat case_match. Qed.
Lemma P_zero : P zero. Proof. apply P_constant. Qed.
Lemma P_one : P one. Proof. apply P_constant. Qed.
Lemma P_sym_not e : P e -> P (sym_not e).
Proof. destruct e; simpl; auto using P_constant. Qed.
Lemma Q_not b : Q b -> Q (SBool.not_bool b).
Proof. by destruct b. Qed.
Lemma Q_const v : Q (SBool.constant v).
Proof. done. Qed.

Lemma and_loop_hashes out vs r : Forall Q out -> Forall Q vs -> SBool.and_loop out vs = Some r -> Forall Q r.
Proof.
  revert out. induction vs as [|v vs IH]; intros out Ho; [intros _ [= <-]; done|]. intros [Hv Hvs]%Forall_cons.
  destruct v as [[]| |ws|]; simpl; intros; try done; (eapply IH; [|exact Hvs|eassumption]); try done; apply Forall_app; split; try done.
  - by constructor.
  - by apply and_hashes.
  - by constructor.
Qed.
Lemma Q_and vs : Forall Q vs -> Q (SBool.and vs).
Proof.
  intros Hvs. unfold SBool.and. destruct (SBool.and_loop [] vs) as [r|] eqn:E; [|done].
  apply and_loop_hashes in E; [|constructor|done]. destruct r as [|x [|y r]]; [done|by inversion E|by apply and_hashes].
Qed.
Lemma or_loop_hashes out vs r : Forall Q out -> Forall Q vs -> SBool.or_loop out vs = Some r -> Forall Q r.
Proof.
  revert out. induction vs as [|v vs IH]; intros out Ho; [intros _ [= <-]; done|]. intros [Hv Hvs]%Forall_cons.
  destruct v as [[]| |ws|]; simpl; intros; try done; (eapply IH; [|exact Hvs|eassumption]); try done; apply Forall_app; split; try done; by constructor.
Qed.
Lemma Q_or vs : Forall Q vs -> Q (SBool.or vs).
Proof.
  intros Hvs. unfold SBool.or. destruct (SBool.or_loop [] vs) as [r|] eqn:E; [|done].
  apply or_loop_hashes in E; [|constructor|done]. destruct r as [|x [|y r]]; [done|by inversion E|].
  apply Q_not, Q_and, Forall_map. eapply Forall_impl; [exact E|]. intros; by apply Q_not.
Qed.

Lemma P_EBinOp op l r : P l -> P r -> P (EBinOp op l r).
Proof. done. Qed.
Lemma P_ETernOp op l r m : P l -> P r -> P m -> P (ETernOp op l r m).
Proof. done. Qed.
Lemma P_EIte c t f : Q c -> P t -> P f -> P (EIte c t f).
Proof. done. Qed.
Lemma Q_BCmp op l r : P l -> P r -> Q (BCmp op l r).
Proof. done. Qed.

Create HintDb hashes.
#[local] Hint Resolve P_constant P_zero P_one P_sym_not Q_not Q_const Q_and Q_or P_EBinOp P_ETernOp P_EIte Q_BCmp : hashes.

(** Splits what is known of compound expressions, and closes goals on parts. *)
Ltac split_hashes :=
  repeat match goal with
  | H : word_hashes (EBinOp _ _ _) |- _ => destruct H
  | H : word_hashes (EIte _ _ _) |- _ => destruct H as (? & ? & ?)
  | H : word_hashes (ETernOp _ _ _ _) |- _ => destruct H as (? & ? & ?)
  | H : bool_hashes (BCmp _ _ _) |- _ => destruct H
  | H : bool_hashes (BNot _) |- _ => simpl in H
  end.
Ltac hashes := repeat case_match; simplify_eq; split_hashes; destruct_and?; try done; auto with hashes.

Lemma P_ite_with bw c t f : (forall b, Q b -> P (bw b)) -> Q c -> P t -> P f -> P (ite_with bw c t f).
Proof. intros Hbw Hc Ht Hf. unfold ite_with. repeat case_match; auto with hashes; by split_and!. Qed.
Lemma P_bool_word c : Q c -> P (bool_word c).
Proof. intros Hc. apply P_ite_with; auto with hashes. intros b Hb. split_and!; auto with hashes. Qed.
Lemma P_ite c t f : Q c -> P t -> P f -> P (ite c t f).
Proof. apply P_ite_with, P_bool_word. Qed.
#[local] Hint Resolve P_bool_word P_ite : hashes.

Lemma direct_condition_hashes e c : direct_bool_word_condition e = Some c -> P e -> Q c.
Proof. destruct e; try done. simpl. intros ? ?. hashes. Qed.
Lemma bool_word_condition_hashes e c : bool_word_condition e = Some c -> P e -> Q c.
Proof. destruct e; try done. simpl. unfold bool_word_condition_from_parts. intros ? ?. hashes. Qed.

Lemma zero_check_hashes b e : SBool.zero_check_operand b = Some e -> Q b -> P e.
Proof. destruct b as [| | |[] l r]; try done. simpl. intros ? [? ?]. by repeat case_match; simplify_eq. Qed.
Lemma udiv_operands_hashes e n d : udiv_operands e = Some (n, d) -> P e -> P n /\ P d.
Proof. destruct e as [| | | | | |[] l r| |]; try done. simpl. by intros [= -> ->]. Qed.

Section WithHash.
Context `{SA : SignedArith, HF : HashFns}.

Lemma ordered_hashes l r l' r' : ordered_commutative_operands l r = (l', r') -> P l -> P r -> P l' /\ P r'.
Proof. intros H Hl Hr. destruct (ordered_cases l r) as [E|E]; rewrite E in H; by simplify_eq. Qed.
Lemma P_commutative op l r : P l -> P r -> P (commutative_binop op l r).
Proof.
  intros Hl Hr. unfold commutative_binop. destruct (ordered_commutative_operands l r) as [a b] eqn:E.
  by eapply ordered_hashes.
Qed.
#[local] Hint Resolve P_commutative : hashes.

(** *** Sources of bytes and fragments are parts *)
Lemma strip_hashes e : P e -> P (strip_low_byte_mask e).
Proof. induction e as [| | | | | |op l IHl r IHr| |]; try done. destruct op; try done. simpl. intros [? ?]. case_match; [by apply IHl|done]. Qed.
Lemma extracted_source_hashes e i s : extracted_byte_source e i = Some s -> P e -> P s.
Proof.
  unfold extracted_byte_source. intros Hs He%strip_hashes. destruct (strip_low_byte_mask e); repeat case_match; simplify_eq; try done; by destruct He.
Qed.
Lemma extracted_term_hashes e s i : extracted_shifted_byte_term e = Some (s, i) -> P e -> P s.
Proof.
  unfold extracted_shifted_byte_term. intros Hs He. destruct e as [| | | | | |[] l r| |];
    try (destruct (extracted_unshifted_byte_source _ 31) eqn:E; simpl in Hs; simplify_eq; by eapply extracted_source_hashes).
  destruct (shift_amount r); [|done]. case_match; [done|]. cbv zeta in Hs.
  destruct (extracted_unshifted_byte_source l _) eqn:E; simpl in Hs; simplify_eq. destruct He. by eapply extracted_source_hashes.
Qed.
Lemma or_terms_hashes e : P e -> Forall P (or_terms e).
Proof. induction e as [| | | | | |op l IHl r IHr| |]; try (intros; by constructor). destruct op; try (intros; by constructor). simpl. intros [? ?]. apply Forall_app; auto. Qed.
Lemma byte_loop_hashes terms source seen s seen' :
  byte_terms_loop source seen terms = Some (Some s, seen') -> Forall P terms -> (forall x, source = Some x -> P x) -> P s.
Proof.
  revert source seen. induction terms as [|t terms IH]; intros source seen; simpl; [intros [= ? ?] _ Hs; by apply Hs|].
  intros H [Ht Hts]%Forall_cons Hs. repeat case_match; try done; eapply IH; eauto.
  intros ? [= <-]. by eapply extracted_term_hashes.
Qed.
Lemma rebuild_hashes l r e : rebuild_from_or_terms l r = Some e -> P l -> P r -> P e.
Proof.
  unfold rebuild_from_or_terms. intros H Hl Hr. assert (Ht : Forall P (or_terms l ++ or_terms r)) by (apply Forall_app; split; by apply or_terms_hashes).
  revert H Ht. generalize (or_terms l ++ or_terms r). intros terms H Ht.
  destruct (rebuild_from_extracted_byte_terms terms) as [e'|] eqn:E.
  - simplify_eq. unfold rebuild_from_extracted_byte_terms in E. destruct (length terms <=? 1)%nat; [done|].
    destruct (byte_terms_loop None [] terms) as [[[s|] seen]|] eqn:Eb; try done. case_match; simplify_eq. by eapply byte_loop_hashes.
  - clear E. destruct terms as [|t0 [|t1 [|]]]; try done. apply Forall_cons in Ht as [H0 Ht]. apply Forall_cons in Ht as [H1 _].
    assert (Hlow : forall t s b, low_word_fragment t = Some (s, b) -> P t -> P s).
    { intros t s b. destruct t as [| | | | | |[] x y| |]; try done. simpl. destruct (as_const y) as [mask|]; [|done].
      destruct (mask_low_bits mask); [|done]. simpl. by intros [= -> ->] [? ?]. }
    simpl in H. repeat case_match; simplify_eq; eauto.
Qed.

(** *** The arms of [binop] *)
Lemma P_sym_or l r : P l -> P r -> P (sym_or l r).
Proof. intros Hl Hr. unfold sym_or. destruct (rebuild_from_or_terms l r) eqn:E; [by eapply rebuild_hashes|auto with hashes]. Qed.
Lemma absorbing_hashes c o e : or_with_absorbing_ite c o = Some e -> P c -> P o -> P e.
Proof. destruct c; try done. unfold or_with_absorbing_ite. intros ? ? ?. hashes. Qed.
Lemma P_binop_or l r : P l -> P r -> P (binop_or l r).
Proof. intros Hl Hr. unfold binop_or. repeat case_match; auto with hashes; eauto using P_sym_or, absorbing_hashes. Qed.
#[local] Hint Resolve P_sym_or P_binop_or : hashes.
Lemma P_binop_shl l r : P l -> P r -> P (binop_shl l r).
Proof. intros Hl Hr. unfold binop_shl. hashes. Qed.
Lemma P_and_const e m : P e -> P (and_const e m).
Proof.
  induction e as [| | | | | |op l IHl r IHr| |]; intros He; cbn [and_const]; try destruct op; hashes.
Qed.
Lemma P_shr_const e s : P e -> P (shr_const e s).
Proof.
  induction e as [| | | | | |op l IHl r IHr| |]; intros He; cbn [shr_const]; cbv zeta;
    do 3 (case_match; [auto with hashes|]); try (apply P_EBinOp; auto with hashes).
  destruct op; try (apply P_EBinOp; auto with hashes); hashes.
Qed.
#[local] Hint Resolve P_binop_shl P_and_const P_shr_const : hashes.
Lemma P_binop_shr l r : P l -> P r -> P (binop_shr l r).
Proof. intros Hl Hr. unfold binop_shr. hashes. Qed.
Lemma P_binop_sar l r : P l -> P r -> P (binop_sar l r).
Proof. intros Hl Hr. unfold binop_sar. hashes. Qed.
Lemma P_binop_and l r : P l -> P r -> P (binop_and l r).
Proof. intros Hl Hr. unfold binop_and. hashes. Qed.
#[local] Hint Resolve P_binop_shr P_binop_sar P_binop_and : hashes.

Lemma Q_nonzero_leaf w : P w -> Q (nonzero_leaf w).
Proof.
  intros Hw. unfold nonzero_leaf. destruct (ordered_commutative_operands w zero) as [a b] eqn:E.
  apply Q_not. eapply ordered_hashes; [exact E|done|apply P_zero].
Qed.
Lemma index_insert_hashes x l : Q x -> Forall Q l -> Forall Q (index_insert x l).
Proof. intros Hx Hl. unfold index_insert. case_match; [done|]. apply Forall_app. split; [done|by constructor]. Qed.
Lemma bitwise_hashes e c : bitwise_bool_word_condition e = Some c -> P e -> Q c.
Proof.
  unfold bitwise_bool_word_condition. intros H He. destruct (iterate _ _ _) as [[leaves|]|] eqn:E; simplify_eq. apply Q_or.
  eapply (iterate_ind bitwise_step (fun st => Forall P (bs_pending st) /\ Forall Q (bs_leaves st))
    (fun r => match r with Some leaves => Forall Q leaves | None => True end)) in E; [done| | |split; simpl; [by constructor|constructor]].
  - intros [[|w rest] seen leaves' ws rm] st' [Hp Hl]; unfold bitwise_step; cbn [bs_pending bs_seen bs_leaves bs_widths bs_remaining] in *; [done|].
    apply Forall_cons in Hp as [Hw Hrest]. case_match; [intros; by simplify_eq|]. case_match; [done|].
    destruct (direct_bool_word_condition w) as [cond|] eqn:Ed.
    { intros; simplify_eq. split; [done|]. apply index_insert_hashes; [by eapply direct_condition_hashes|done]. }
    destruct w as [| | | | | |[] l r| |]; cbv zeta; try (repeat case_match; intros; simplify_eq; (split; [done|]); apply index_insert_hashes; [by apply Q_nonzero_leaf|done]).
    intros; simplify_eq. destruct Hw. split; [|done]. simpl. by repeat constructor.
  - intros [[|w rest] seen leaves' ws rm] r [Hp Hl]; unfold bitwise_step; cbn [bs_pending bs_seen bs_leaves bs_widths bs_remaining] in *;
      [by intros [= <-]|]. repeat case_match; intros; by simplify_eq.
Qed.

Lemma P_binop_sub l r : P l -> P r -> P (binop_sub l r).
Proof.
  intros Hl Hr. unfold binop_sub. repeat case_match; simplify_eq; auto with hashes; try done;
    try (apply P_ite; auto with hashes; by eapply bitwise_hashes).
Qed.
Lemma P_binop_mul l r : P l -> P r -> P (binop_mul l r).
Proof.
  intros Hl Hr. unfold binop_mul. destruct (ordered_commutative_operands l r) as [a b] eqn:E.
  destruct (ordered_hashes _ _ _ _ E Hl Hr). repeat case_match; simplify_eq; auto with hashes; try done;
    try (apply P_ite; auto with hashes; by eapply direct_condition_hashes).
Qed.
Lemma P_binop_div op l r : P l -> P r -> P (binop_div op l r).
Proof. intros Hl Hr. unfold binop_div. hashes. Qed.
Lemma P_binop_rem op l r : P l -> P r -> P (binop_rem op l r).
Proof. intros Hl Hr. unfold binop_rem. hashes. Qed.

Lemma add_const_ite_hashes add o c e :
  (forall x y, P x -> P y -> P (add x y)) -> add_with_const_ite add o c = Some e -> P o -> P c -> P e.
Proof. intros Ha. unfold add_with_const_ite. destruct (as_const o); [done|]. destruct c; try done. intros ? ? ?. hashes. Qed.
Lemma P_add_default add l r : (forall x y, P x -> P y -> P (add x y)) -> P l -> P r -> P (add_default add l r).
Proof.
  intros Ha Hl Hr. unfold add_default. destruct (ordered_commutative_operands l r) as [a b] eqn:E.
  destruct (ordered_hashes _ _ _ _ E Hl Hr). repeat case_match; try done; by eapply add_const_ite_hashes.
Qed.
Lemma P_add_const_bool d k w : P d -> P w -> P (add_const_bool d k w).
Proof.
  intros Hd Hw. unfold add_const_bool. repeat case_match; simplify_eq; try done; apply P_ite; auto with hashes; by eapply bitwise_hashes.
Qed.
Lemma P_add_fuel n l r : P l -> P r -> P (binop_add_fuel n l r).
Proof.
  revert l r. induction n as [|n IH]; intros l r Hl Hr; [done|]. cbn [binop_add_fuel]. unfold add_body.
  repeat case_match; auto using P_add_const_bool, P_add_default, P_constant.
Qed.

Lemma xor_shared_hashes b n e : xor_with_shared_operand b n = Some e -> P n -> P e.
Proof. destruct n as [| | | | | |[] x y| |]; try done. simpl. intros ? ?. hashes. Qed.
Lemma xor_select_hashes b s e : xor_with_bool_select b s = Some e -> P b -> P s -> P e.
Proof.
  destruct s as [| | | | | |[] x y| |]; try done. unfold xor_with_bool_select. intros H Hb [Hx Hy]. unfold xor_delta in H.
  destruct (xor_with_shared_operand b x) as [z|] eqn:E1; [|destruct (xor_with_shared_operand b y) as [z|] eqn:E2; [|done]].
  all: match goal with H : option_map _ (bitwise_bool_word_condition ?w) = _ |- _ =>
    destruct (bitwise_bool_word_condition w) eqn:Eb; simpl in H; simplify_eq end.
  all: apply P_ite; [by eapply bitwise_hashes|by eapply xor_shared_hashes|done].
Qed.
Lemma xor_zero_hashes xor b c e :
  (forall x y, P x -> P y -> P (xor x y)) -> xor_with_zero_ite xor b c = Some e -> P b -> P c -> P e.
Proof. intros Hx. destruct c; try done. unfold xor_with_zero_ite. intros ? ? ?. hashes. Qed.
Lemma P_xor_fuel n l r : P l -> P r -> P (binop_xor_fuel n l r).
Proof.
  revert l r. induction n as [|n IH]; intros l r Hl Hr; [done|]. cbn [binop_xor_fuel]. unfold xor_body.
  destruct (ordered_commutative_operands l r) as [a b] eqn:E. destruct (ordered_hashes _ _ _ _ E Hl Hr) as [Ha Hb].
  repeat case_match; auto using P_constant, P_zero; try done.
  all: match goal with H : first_some _ _ = Some _ |- _ => apply first_some_cases in H as [H|H] end.
  all: first [by eapply xor_shared_hashes|by eapply xor_select_hashes|by eapply xor_zero_hashes].
Qed.

Lemma P_binop op l r : P l -> P r -> P (binop op l r).
Proof.
  intros Hl Hr. destruct op; cbn [binop]; auto with hashes;
    try (by apply P_add_fuel); try (by apply P_xor_fuel); auto using P_binop_sub, P_binop_mul, P_binop_div, P_binop_rem.
Qed.
Lemma P_ternop op l r m : P l -> P r -> P m -> P (ternop op l r m).
Proof.
  intros Hl Hr Hm. unfold ternop. destruct (ordered_commutative_operands l r) as [a b] eqn:E.
  destruct (ordered_hashes _ _ _ _ E Hl Hr). repeat case_match; auto with hashes; try (by split_and!).
  all: apply P_and_const, P_binop; done.
Qed.
End WithHash.
End Hashes.

(** ** Comparisons bring in no other hash *)
Section CmpHashes.
Context `{SA : SignedArith, HF : HashFns}.
Variable h : SymExpr -> Prop.
Abbreviation P := (word_hashes h).
Abbreviation Q := (bool_hashes h).

Lemma aligned_hashes op l r c : cmp_aligned_ite op l r = Some c -> P l -> P r -> Q c.
Proof.
  destruct l, r; try done. unfold cmp_aligned_ite. intros H (Hc & _) _. repeat case_match; simplify_eq; try done; by apply Q_not.
Qed.
Lemma Q_ordered_eq l r : P l -> P r -> Q (ordered_eq l r).
Proof.
  intros Hl Hr. unfold ordered_eq. destruct (ordered_commutative_operands l r) as [a b] eqn:E. by eapply ordered_hashes.
Qed.
Lemma Q_and_ite_branch c b : Q c -> Q b -> Q (and_ite_branch c b).
Proof. intros Hc Hb. unfold and_ite_branch. by repeat case_match. Qed.

Definition eq_cache_hashes (st : EqState) : Prop := Forall (fun '(e, m) => forall c, m = Some c -> P e -> Q c) (es_cache st).

Lemma constant_ite_eq_hashes k e st : P e -> eq_cache_hashes st ->
  eq_cache_hashes (snd (constant_ite_eq e k st)) /\ (forall c, fst (constant_ite_eq e k st) = Some c -> Q c).
Proof.
  revert st. induction e as [e IH] using (induction_ltof1 _ esize). unfold ltof in IH. intros st He Hst.
  destruct (assoc expr_eqb e (es_cache st)) as [r|] eqn:Ea.
  { assert (Hr : forall c, r = Some c -> Q c).
    { apply assoc_Some_in in Ea; [|intros; by apply expr_eqb_eq]. intros c ->.
      by apply (proj1 (List.Forall_forall _ _) Hst (e, Some c) Ea). }
    destruct e; simpl; rewrite Ea; simpl; split; eauto. }
  destruct (es_remaining st =? 0) eqn:Er.
  { destruct e; simpl; rewrite Ea, Er; simpl; (split; [by constructor|done]). }
  destruct e as [v| | | | | | | |c t f]; simpl; rewrite Ea, Er; simpl; try (split; [by constructor|done]).
  { split; [constructor; [by intros ? [= <-]|done] | by intros ? [= <-]]. }
  destruct He as (Hc & Ht & Hf). set (st0 := {| es_cache := es_cache st; es_remaining := es_remaining st - 1 |}).
  destruct (IH t ltac:(simpl; lia) st0 Ht Hst) as [Hc1 Htm]. destruct (constant_ite_eq t k st0) as [tm st1]. simpl in *.
  destruct (IH f ltac:(lia) st1 Hf Hc1) as [Hc2 Hem]. destruct (constant_ite_eq f k st1) as [em st2]. simpl in *.
  assert (Hnode : forall m, match tm, em with
      | Some tm, Some em => Some (SBool.or [and_ite_branch c tm; and_ite_branch (SBool.not_bool c) em])
      | _, _ => None end = Some m -> Q m).
  { destruct tm, em; try done. intros ? [= <-]. apply Q_or. repeat constructor; apply Q_and_ite_branch; auto using Q_not. }
  split; [constructor; [auto|done]|done].
Qed.

Lemma ite_eq_arm_hashes eq x y c :
  (forall a b, P a -> P b -> Q (eq a b)) -> ite_eq_arm eq x y = Some c -> P x -> P y -> Q c.
Proof.
  intros Heq Hc Hx Hy. destruct x as [| | | | | | | |c0 t f]; try done. unfold ite_eq_arm in Hc. pose proof Hx as (Hc0 & Ht & Hf).
  destruct (expr_eqb t y); [simplify_eq; apply Q_or; repeat constructor; auto|].
  destruct (expr_eqb f y); [simplify_eq; apply Q_or; repeat constructor; auto using Q_not|].
  destruct (as_const y) as [k|]; [|done]. destruct (fst (constant_ite_eq_unfolded_nodes _ _)).
  - eapply constant_ite_eq_hashes; [exact Hx| |exact Hc]. constructor.
  - simplify_eq. by apply Q_ordered_eq.
Qed.

Lemma Q_eq_with_const w k f : P w -> Q f -> Q (eq_with_const w k f).
Proof.
  intros Hw Hf. unfold eq_with_const. destruct (bool_word_eq_const w k) as [c|] eqn:E; [|by case_match].
  destruct w; try done. destruct Hw as [Hc _]. unfold bool_word_eq_const in E. repeat case_match; simplify_eq; try done; by apply Q_not.
Qed.

Lemma Q_eq_fuel n l r : P l -> P r -> Q (eq_fuel n l r).
Proof.
  revert l r. induction n as [|n IH]; intros l r Hl Hr; [done|]. cbn [eq_fuel]. unfold eq_body.
  destruct (cmp_aligned_ite Eq l r) as [c|] eqn:Ea; [by eapply aligned_hashes|].
  destruct (first_some _ _) as [c|] eqn:Ef; [apply first_some_cases in Ef as [Ef|Ef]; by eapply ite_eq_arm_hashes|].
  destruct (expr_eqb l r); [done|].
  assert (Hmap : forall xs ys, Forall P xs -> Forall P ys -> Forall Q (map (fun '(a, b) => eq_fuel n a b) (combine xs ys))).
  { intros xs ys Hxs. revert ys. induction Hxs as [|x xs Hx _ IHx]; intros [|y ys]; simpl; try (intros; by constructor).
    intros [Hy Hys]%Forall_cons. constructor; auto. }
  destruct l as [| | |ln ll lb|ln la lb| | | |], r as [| | |rn rl rb|rn ra rb| | | |];
    try (by apply Q_ordered_eq); try done; try (apply Q_eq_with_const; [done|by apply Q_ordered_eq]).
  - case_match; [|by apply Q_ordered_eq]. apply keccak_hashes in Hl as (_ & Hll & Hlb). apply keccak_hashes in Hr as (_ & Hrl & Hrb).
    apply Q_and. constructor; auto.
  - case_match; [|by apply Q_ordered_eq]. apply hash_hashes in Hl as (_ & Hlb). apply hash_hashes in Hr as (_ & Hrb).
    apply Q_and. auto.
Qed.

Lemma Q_cmp op l r : P l -> P r -> Q (cmp op l r).
Proof.
  intros Hl Hr. unfold cmp. destruct (cmp_aligned_ite op l r) as [c|] eqn:Ea; [by eapply aligned_hashes|].
  destruct op; [by apply Q_eq_fuel|..]; unfold cmp_ult, cmp_ugt, cmp_ule, cmp_uge, cmp_signed; repeat case_match; done.
Qed.
Lemma Q_cmp_word_const op e k : P e -> Q (cmp_word_const op e k).
Proof. intros He. unfold cmp_word_const. case_match; [done|]. apply Q_cmp; [done|apply P_constant]. Qed.
End CmpHashes.

(** ** Equality of hashes by their inputs *)
Definition hash_parts (e : SymExpr) : list SymExpr :=
  match e with EKeccak _ len bytes => len :: bytes | EHash _ _ bytes => bytes | _ => [] end.

(** The hashes whose equality is decided by their inputs. *)
Definition same_hash (x y : SymExpr) : bool :=
  match x, y with
  | EKeccak _ _ xs, EKeccak _ _ ys => (length xs =? length ys)%nat
  | EHash _ a xs, EHash _ b ys => (a =? b)%nat && (length xs =? length ys)%nat
  | _, _ => false
  end.

Section HashEquality.
Context `{SA : SignedArith, HF : HashFns}.
Variable model : SymbolicModel.
Abbreviation den := (denote_word model).
Abbreviation denb := (denote_bool model).
Abbreviation brefines := (brefines model).

Definition same_value (a b : SymExpr) : Prop := den a = den b.
#[global] Instance same_value_equiv : Equivalence same_value.
Proof. unfold same_value. split; congruence. Qed.

(** The inputs of such hashes have values, and the hashes are equal exactly
    when the inputs are. *)
Definition HashLaw (h : SymExpr -> Prop) : Prop := forall x y v w,
  h x -> h y -> same_hash x y = true -> den x = Some v -> den y = Some w ->
  Forall (fun p => is_Some (den p)) (hash_parts x ++ hash_parts y) /\
  (v = w <-> Forall2 same_value (hash_parts x) (hash_parts y)).

Variable h : SymExpr -> Prop.
Hypothesis law : HashLaw h.
Abbreviation P := (word_hashes h).
Abbreviation Q := (bool_hashes h).

Lemma pairwise_eq eq xs ys :
  (forall a b, a ∈ xs -> b ∈ ys -> brefines (BCmp Eq a b) (eq a b)) -> length xs = length ys ->
  Forall (fun p => is_Some (den p)) (xs ++ ys) ->
  exists b : bool, denote_all model (map (fun '(a, b) => eq a b) (combine xs ys)) = Some b /\
    (b = true <-> Forall2 same_value xs ys).
Proof.
  revert ys. induction xs as [|x xs IH]; intros [|y ys] Heq Hlen Hd; try done; [by exists true|].
  assert (Hx : is_Some (den x)) by (by inversion Hd). simpl in Hd. apply Forall_cons in Hd as [_ Hd].
  apply Forall_app in Hd as [Hxs [Hy Hys]%Forall_cons]. destruct Hx as [xv Hx], Hy as [yv Hy].
  destruct (IH ys) as (b & Hb & Hiff); [intros; apply Heq; by right|simpl in Hlen; lia|by apply Forall_app|].
  simpl. rewrite (Heq x y ltac:(left) ltac:(left) _ (den_cmp_intro model Eq x y xv yv Hx Hy)). cbn [cmpop_eval].
  destruct (u_eqb_spec xv yv) as [->|Hne]; rewrite ?Hb; eexists; (split; [done|]); rewrite Forall2_cons; unfold same_value at 1; rewrite Hx, Hy.
  - rewrite Hiff. naive_solver.
  - naive_solver.
Qed.

Lemma hash_eq_sound eq x y v w conj :
  (forall a b, a ∈ hash_parts x -> b ∈ hash_parts y -> brefines (BCmp Eq a b) (eq a b)) ->
  h x -> h y -> same_hash x y = true -> den x = Some v -> den y = Some w ->
  conj = map (fun '(a, b) => eq a b) (combine (hash_parts x) (hash_parts y)) ->
  denb (SBool.and conj) = Some (u_eqb v w).
Proof.
  intros Heq Hx Hy Hs Hv Hw ->. destruct (law x y v w Hx Hy Hs Hv Hw) as [Hd Hiff].
  assert (Hlen : length (hash_parts x) = length (hash_parts y)).
  { destruct x, y; try done; simpl in *; rewrite ?andb_true_iff, ?Nat.eqb_eq in Hs; lia. }
  destruct (pairwise_eq eq _ _ Heq Hlen Hd) as (b & Hb & Hbiff). apply den_and. rewrite Hb. f_equal.
  destruct (u_eqb_spec v w) as [->|Hne]; [by apply Hbiff, Hiff|]. destruct b; [|done]. destruct Hne. by apply Hiff, Hbiff.
Qed.

Lemma hash_parts_size x p : p ∈ hash_parts x -> (esize p < esize x)%nat.
Proof.
  assert (Hb : forall bs, p ∈ bs -> (esize p <= (fix go bs := match bs with [] => O | b :: r => (esize b + go r)%nat end) bs)%nat).
  { induction bs as [|b bs IH]; [by intros ?%elem_of_nil|]. intros [-> |H]%elem_of_cons; [lia|]. specialize (IH H). lia. }
  destruct x; simpl; try (by intros ?%elem_of_nil); [intros [-> |H%Hb]%elem_of_cons; lia|intros H%Hb; lia].
Qed.
Lemma parts_hashes x : P x -> Forall P (hash_parts x).
Proof. destruct x; intros Hx; try by constructor. - apply keccak_hashes in Hx as (_ & ? & ?). by constructor. - by apply hash_hashes in Hx as (_ & ?). Qed.

Lemma eq_body_hashes_sound eq l r :
  (forall l' r', (esize l' + esize r' < esize l + esize r)%nat -> P l' -> P r' -> brefines (BCmp Eq l' r') (eq l' r')) ->
  P l -> P r -> brefines (BCmp Eq l r) (eq_body eq l r).
Proof.
  intros Heq Hl Hr b Hb. pose proof (den_cmp_inv _ _ _ _ _ Hb) as (x & y & Hx & Hy & ->). unfold eq_body.
  destruct (cmp_aligned_ite Eq l r) as [c|] eqn:Ea; [by eapply aligned_ite_sound|].
  destruct (first_some (ite_eq_arm eq l r) (ite_eq_arm eq r l)) as [c|] eqn:Ei.
  { apply first_some_cases in Ei as [Ei|Ei]; [|simpl; rewrite u_eqb_sym].
    all: eapply ite_eq_arm_parts_sound; [|exact Ei|done|done]; intros c0 t f arm v -> Harm Hv.
    all: apply Heq; [destruct Harm as [-> | ->]; simpl; lia| |done|by apply (den_cmp_intro model Eq)].
    - destruct Hl as (_ & ? & ?). by destruct Harm as [-> | ->].
    - destruct Hr as (_ & ? & ?). by destruct Harm as [-> | ->]. }
  clear Ei. destruct (expr_eqb_spec l r) as [->|]; [replace y with x by congruence; simpl; by rewrite u_eqb_refl|].
  assert (Hord : denb (ordered_eq l r) = Some (cmpop_eval Eq x y)) by (by apply ordered_eq_sound).
  assert (Hparts : forall a b, a ∈ hash_parts l -> b ∈ hash_parts r -> brefines (BCmp Eq a b) (eq a b)).
  { intros a b Ha Hb'. pose proof (hash_parts_size _ _ Ha). pose proof (hash_parts_size _ _ Hb'). apply Heq; [lia|..].
    - by apply (proj1 (list.Forall_forall _ _) (parts_hashes l Hl)).
    - by apply (proj1 (list.Forall_forall _ _) (parts_hashes r Hr)). }
  destruct l as [lv| | |ln ll lb|ln la lb| | | |]; destruct r as [rv| | |rn rl rb|rn ra rb| | | |];
    try exact Hord;
    try (simpl in Hx, Hy; simplify_eq; done);
    try (simpl in Hy; simplify_eq; by apply eq_with_const_sound);
    try (simpl in Hx; simplify_eq; simpl in *; rewrite u_eqb_sym in *; by apply eq_with_const_sound).
  - destruct (length lb =? length rb)%nat eqn:El; [|exact Hord].
    eapply (hash_eq_sound eq (EKeccak ln ll lb) (EKeccak rn rl rb)); try done; [apply Hl|apply Hr].
  - destruct ((la =? ra)%nat && (length lb =? length rb)%nat) eqn:El; [|exact Hord].
    eapply (hash_eq_sound eq (EHash ln la lb) (EHash rn ra rb)); try done; [apply Hl|apply Hr].
Qed.

Lemma eq_fuel_hashes_sound n l r : P l -> P r -> brefines (BCmp Eq l r) (eq_fuel n l r).
Proof. revert l r. induction n as [|n IH]; intros l r Hl Hr; [done|]. apply eq_body_hashes_sound; auto. Qed.

Context {SL : SignedArithLaws}.
Lemma cmp_hashes_sound op l r : P l -> P r -> brefines (BCmp op l r) (cmp op l r).
Proof.
  intros Hl Hr. destruct op; try (by apply cmp_refines_order).
  unfold cmp. destruct (cmp_aligned_ite Eq l r) as [c|] eqn:Ea; [by apply aligned_ite_sound|]. by apply eq_fuel_hashes_sound.
Qed.
End HashEquality.

(** ** Hashes of a conjunction, and what rewriting their inputs leaves *)
Section Faithful.
Context `{SA : SignedArith, HF : HashFns}.
Variable model : SymbolicModel.
Abbreviation den := (denote_word model).

(** The symbol that names a hash in a query. *)
Definition hash_name (e : SymExpr) : option Symbol := match e with EKeccak n _ _ | EHash n _ _ => Some n | _ => None end.

(** The model gives the symbols of the hashes [T] their values, their inputs
    have values, and hashes of one kind are told apart by their inputs. *)
Record hashes_faithful (T : SymExpr -> Prop) : Prop := {
  hash_defined x : T x -> den x = option_map (model_value model) (hash_name x) /\ Forall (fun p => is_Some (den p)) (hash_parts x);
  hash_injective x y : T x -> T y -> same_hash x y = true ->
    (den x = den y <-> Forall2 (same_value model) (hash_parts x) (hash_parts y))
}.

Definition same_node (x y : SymExpr) : Prop :=
  match x, y with
  | EKeccak n _ _, EKeccak n' _ _ => n = n'
  | EHash n a _, EHash n' a' _ => n = n' /\ a = a'
  | _, _ => False
  end.

(** A hash of [T] with rewritten inputs. *)
Definition rewritten (T : SymExpr -> Prop) (x : SymExpr) : Prop :=
  exists o, T o /\ same_node o x /\ Forall2 (refines model) (hash_parts o) (hash_parts x).

Lemma same_node_trans x y z : same_node x y -> same_node y z -> same_node x z.
Proof. destruct x, y, z; simpl; try done; naive_solver congruence. Qed.

Lemma rewritten_self T x : T x -> same_node x x -> rewritten T x.
Proof. intros HT Hn. exists x. split; [done|]. split; [done|]. induction (hash_parts x); by constructor. Qed.
Lemma rewritten_step T x y : rewritten T x -> same_node x y -> Forall2 (refines model) (hash_parts x) (hash_parts y) -> rewritten T y.
Proof.
  intros (o & HT & Hn & Hp) Hxy Hpy. exists o. split; [done|]. split; [by eapply same_node_trans|].
  by etransitivity.
Qed.

Section Law.
Variable T : SymExpr -> Prop.
Hypothesis faithful : hashes_faithful T.

(** Rewriting changes neither the values of the inputs nor of the hash. *)
Lemma rewritten_parts o x : T o -> Forall2 (refines model) (hash_parts o) (hash_parts x) ->
  Forall2 (same_value model) (hash_parts o) (hash_parts x) /\ Forall (fun p => is_Some (den p)) (hash_parts x).
Proof.
  intros [_ Hd]%(hash_defined T faithful) Hp. induction Hp as [|a b xs ys Hab _ IH]; [by split|].
  apply Forall_cons in Hd as [[v Ha] Hd]. destruct (IH Hd) as [H1 H2]. pose proof (Hab _ Ha) as Hb.
  split; constructor; try done. unfold same_value. congruence.
Qed.

Lemma denote_bytes_ext n xs ys : Forall2 (same_value model) xs ys -> denote_bytes model n xs = denote_bytes model n ys.
Proof. intros H. revert n. induction H as [|a b xs ys Hab _ IH]; intros [|n]; simpl; try done. rewrite Hab. by rewrite IH. Qed.

Lemma rewritten_value o x : T o -> same_node o x -> Forall2 (refines model) (hash_parts o) (hash_parts x) -> den o = den x.
Proof.
  intros HT Hn Hp. destruct (rewritten_parts o x HT Hp) as [Heq _].
  destruct o as [| | |n l bs|n a bs| | | |], x as [| | |n' l' bs'|n' a' bs'| | | |]; try done.
  - simpl in Heq. apply Forall2_cons in Heq as [Hl Hb]. rewrite !denote_EKeccak, (Hl : den l = den l'), (Forall2_length _ _ _ Hb).
    destruct (den l'); [|done]. by rewrite (denote_bytes_ext _ _ _ Hb).
  - destruct Hn as [-> ->]. done.
Qed.

Lemma same_hash_rewritten o x o' x' : same_node o x -> same_node o' x' ->
  length (hash_parts o) = length (hash_parts x) -> length (hash_parts o') = length (hash_parts x') ->
  same_hash x x' = true -> same_hash o o' = true.
Proof.
  destruct o, x; try done; destruct o', x'; try done; simpl; intros; destruct_and?; simplify_eq;
    rewrite ?andb_true_iff, ?Nat.eqb_eq in *; split_and?; try done; lia.
Qed.

Lemma Forall2_den_trans xs ys zs ws :
  Forall2 (same_value model) xs ys -> Forall2 (same_value model) zs ws ->
  Forall2 (same_value model) xs zs <-> Forall2 (same_value model) ys ws.
Proof.
  intros H1 H2. split; intros H3; [by rewrite <- H1, <- H2|by rewrite H1, H2].
Qed.

Lemma rewritten_law : HashLaw model (rewritten T).
Proof.
  intros x y v w (o & HT & Hn & Hp) (o' & HT' & Hn' & Hp') Hs Hv Hw.
  destruct (rewritten_parts o x HT Hp) as [Heq Hd]. destruct (rewritten_parts o' y HT' Hp') as [Heq' Hd'].
  split; [by apply Forall_app|].
  assert (Hs' : same_hash o o' = true) by (eapply same_hash_rewritten; eauto using Forall2_length).
  rewrite <- (Forall2_den_trans _ _ _ _ Heq Heq'), <- (hash_injective T faithful o o' HT HT' Hs').
  rewrite (rewritten_value o x HT Hn Hp), (rewritten_value o' y HT' Hn' Hp'), Hv, Hw. naive_solver.
Qed.
End Law.
End Faithful.
