(* ===== verification/SymFacts.v ===== *)
(** * SymFacts: what a context proves about words and conditions

    The part of [ConstraintContext] (runtime/solver/normalize/mod.rs and
    rounding.rs) that decides and rewrites conditions from the recorded facts:
    bounded comparisons, multiplication guards and their products, divisions by
    constants, signed additions, rounded products.  Every decision and rewrite
    is sound under the models of the facts. *)

From Stdlib Require Import ZArith Lia Bool.
From stdpp Require Import base list option sets.
From S2P Require Import Prelude SymWord SymExpr SymSimpl SymSound SymCmp SymContext SymVisit SymHashes.
Local Open Scope Z_scope.

(** [i256_cmp] is the order of two's complement numbers. *)
Class SignedCmpLaw `{SignedArith} : Prop := {
  i256_cmp_signed : forall a b, i256_cmp a b = (signed a ?= signed b)
}.

Definition signed_max : U256 := u_shr MAX 1.

(** [add_with_operand]: the other summand. *)
Definition add_with_operand (e operand : SymExpr) : option (SymExpr * SymExpr) :=
  match e with
  | EBinOp Add l r => if expr_eqb l operand then Some (l, r) else if expr_eqb r operand then Some (r, l) else None
  | _ => None
  end.

Module SFacts.
Import SBoundsOf.

(** *** Shapes *)
Definition mul_div_operands (quotient : SymExpr) : option (SymExpr * SymExpr) :=
  match udiv_operands quotient with
  | Some (numerator, denominator) =>
      match numerator with
      | EBinOp Mul l r =>
          if expr_eqb l denominator then Some (denominator, r)
          else if expr_eqb r denominator then Some (denominator, l) else None
      | _ => None
      end
  | None => None
  end.

Definition mul_div_identity_operands (quotient expected : SymExpr) : option (SymExpr * SymExpr) :=
  match mul_div_operands quotient with
  | Some (denominator, other) => if expr_eqb other expected then Some (denominator, other) else None
  | None => None
  end.

Definition const_nonzero (e : SymExpr) : bool := const_is e (fun v => negb (is_zero v)).

(** Numerator, denominator, threshold, and whether the quotient is on the left. *)
Definition udiv_comparison_operands (op : SymCmpOp) (l r : SymExpr) : option (SymExpr * SymExpr * SymExpr * bool) :=
  match op with
  | Ult | Ule =>
      let first :=
        match udiv_operands l with
        | Some (numerator, denominator) =>
            if const_nonzero denominator && negb (contains_udiv r) then Some (numerator, denominator, r, true) else None
        | None => None
        end in
      match first with
      | Some x => Some x
      | None =>
          match udiv_operands r with
          | Some (numerator, denominator) =>
              if const_nonzero denominator && negb (contains_udiv l) then Some (numerator, denominator, l, false) else None
          | None => None
          end
      end
  | _ => None
  end.

Definition masked_word_side_eq_self_shape (masked value : SymExpr) : option Z :=
  match masked with
  | EBinOp And l r =>
      match const_side_bound l r with
      | Some (source, mask) =>
          match mask_low_bits mask with
          | Some bits => if expr_eqb source value then Some bits else None
          | None => None
          end
      | None => None
      end
  | _ => None
  end.

(** [(product + scale - 1) / scale]. *)
Definition ceil_div_product (e : SymExpr) : option (SymExpr * U256) :=
  match udiv_operands e with
  | Some (numerator, denominator) =>
      match as_const denominator with
      | Some scale =>
          if is_zero scale then None
          else match numerator with
               | EBinOp Sub (EBinOp Add product rounding) one =>
                   if const_is one (u_eqb ONE) && const_is rounding (u_eqb scale) &&
                      match product with EBinOp Mul _ _ => true | _ => false end
                   then Some (product, scale) else None
               | _ => None
               end
      | None => None
      end
  | None => None
  end.

Definition is_some {A} (o : option A) : bool := match o with Some _ => true | None => false end.

(** Whether path facts may rewrite a conjunct. *)
Definition requires_independent_context (b : SymBoolExpr) : bool :=
  match b with
  | BCmp op l r =>
      match op with
      | Eq => is_some (mul_div_identity_operands l r) || is_some (mul_div_identity_operands r l) ||
              is_some (masked_word_side_eq_self_shape l r) || is_some (masked_word_side_eq_self_shape r l)
      | Ult | Ule => is_some (udiv_comparison_operands op l r)
      | Slt | Sgt => true
      | Ugt | Uge => false
      end
  | BNot value =>
      match value with
      | BCmp op l r =>
          if is_some (udiv_comparison_operands op l r) then true
          else match op with
               | Slt | Sgt => true
               | _ => match SBool.zero_check_operand value with
                      | Some (EBinOp Or _ _) => true
                      | _ => false
                      end
               end
      | _ => false
      end
  | BConst _ | BAnd _ => false
  end || contains_udiv_bool b || visit_bool (fun e => match e with EIte _ _ _ => true | _ => false end) b.

Section Queries.
Context `{SA : SignedArith, HF : HashFns}.
Variable c : ConstraintContext.
Abbreviation interval := (interval c).
Abbreviation mul_fits := (mul_cannot_overflow_256 c).

(** *** Decided conditions *)
Definition sign_known (i : WordInterval) : bool := Bool.eqb (Z.testbit (uval (wi_min i)) 255) (Z.testbit (uval (wi_max i)) 255).

Definition bounded_cmp_value (op : SymCmpOp) (l r : WordInterval) : option bool :=
  match op with
  | Eq =>
      if u_ltb (wi_max l) (wi_min r) || u_ltb (wi_max r) (wi_min l) then Some false
      else if u_eqb (wi_min l) (wi_max l) && u_eqb (wi_min r) (wi_max r) then Some (u_eqb (wi_min l) (wi_min r))
      else None
  | _ =>
      if match op with Slt | Sgt => negb (sign_known l) || negb (sign_known r) | _ => false end then None
      else
        let '(always, possible) :=
          match op with
          | Ult | Ule | Slt => (cmpop_eval op (wi_max l) (wi_min r), cmpop_eval op (wi_min l) (wi_max r))
          | _ => (cmpop_eval op (wi_min l) (wi_max r), cmpop_eval op (wi_max l) (wi_min r))
          end in
        if always then Some true else if negb possible then Some false else None
  end.

Fixpoint bounded_bool_value (b : SymBoolExpr) : option bool :=
  match b with
  | BConst v => Some v
  | BNot v => option_map negb (bounded_bool_value v)
  | BCmp op l r =>
      match interval l, interval r with
      | Some l, Some r => bounded_cmp_value op l r
      | _, _ => None
      end
  | BAnd _ => None
  end.

Definition mul_div_identity (quotient expected : SymExpr) : bool :=
  match mul_div_identity_operands quotient expected with
  | Some (denominator, other) =>
      match interval denominator with Some i => negb (is_zero (wi_min i)) | None => false end &&
      mul_fits denominator other
  | None => false
  end.

Definition unsigned_cmp_always_true (op : SymCmpOp) (l r : SymExpr) : bool :=
  if match op with Eq => mul_div_identity l r || mul_div_identity r l | _ => false end then true
  else match interval l, interval r with
       | Some l, Some r =>
           match op with
           | Ult => u_ltb (wi_max l) (wi_min r)
           | Ule => u_leb (wi_max l) (wi_min r)
           | Ugt => u_ltb (wi_max r) (wi_min l)
           | Uge => u_leb (wi_max r) (wi_min l)
           | Eq | Slt | Sgt => false
           end
       | _, _ => false
       end.
Definition unsigned_bool_always_true (b : SymBoolExpr) : bool :=
  match b with BCmp op l r => unsigned_cmp_always_true op l r | _ => false end.

Definition masked_word_side_eq_self (masked value : SymExpr) : bool :=
  match masked_word_side_eq_self_shape masked value with
  | Some bits => unsigned_bits c value <=? bits
  | None => false
  end.
Definition masked_word_eq_self (l r : SymExpr) : bool := masked_word_side_eq_self l r || masked_word_side_eq_self r l.
Definition masked_eq_self_condition (b : SymBoolExpr) : bool :=
  match b with BCmp Eq l r => masked_word_eq_self l r | _ => false end.

Definition is_exact_value_constraint (b : SymBoolExpr) : bool :=
  match b with
  | BCmp Eq l r =>
      match const_side_bound l r with
      | Some (e, value) => match SCtx.get e (exact_values c) with Some v => u_eqb v value | None => false end
      | None => false
      end
  | _ => false
  end.

(** *** Exact divisions *)
Definition max_scaled_product (value : SymExpr) (multiplier : U256) : option U256 :=
  match interval value with Some i => u_checked_mul (wi_max i) multiplier | None => None end.

Definition exact_ceil_div_factor (e : SymExpr) : option (SymExpr * U256) :=
  match ceil_div_product e with
  | Some (product, denominator) =>
      match constant_mul_operands product with
      | Some (value, multiplier) =>
          match max_scaled_product value multiplier with
          | Some m =>
              match u_checked_add m denominator with
              | Some _ =>
                  if is_zero denominator then None
                  else if is_zero (u_rem multiplier denominator) then Some (value, u_div multiplier denominator) else None
              | None => None
              end
          | None => None
          end
      | None => None
      end
  | None => None
  end.

Definition exact_scaled_div_factor (e : SymExpr) : option (SymExpr * U256) :=
  match udiv_operands e with
  | Some (numerator, denominator) =>
      match as_const denominator with
      | Some denominator =>
          if is_zero denominator then None
          else match constant_mul_operands numerator with
               | Some (value, multiplier) =>
                   if negb (is_zero (u_rem multiplier denominator)) || negb (is_some (max_scaled_product value multiplier))
                   then None else Some (value, u_div multiplier denominator)
               | None => None
               end
      | None => None
      end
  | None => None
  end.

(** *** Rounded products *)
Definition quotient_of_rounded_product (e : SymExpr) : option SymExpr :=
  match udiv_operands e with
  | Some (numerator, divisor) =>
      match rounding_bounds c numerator None with
      | Some bounds =>
          match (match as_const divisor with Some m => Some m | None => SCtx.get divisor (unsigned_lower_bounds c) end) with
          | Some minimum =>
              if negb (is_zero (rb_below bounds)) || u_leb minimum (rb_above bounds) then None
              else match rb_anchor bounds with
                   | EBinOp Mul l r =>
                       let value := if expr_eqb l divisor then Some r else if expr_eqb r divisor then Some l else None in
                       match value with
                       | Some value => if mul_fits value divisor then Some value else None
                       | None => None
                       end
                   | _ => None
                   end
          | None => None
          end
      | None => None
      end
  | None => None
  end.

Definition flip_op (op : SymCmpOp) : SymCmpOp :=
  match op with Ult => Ugt | Ule => Uge | Ugt => Ult | Uge => Ule | other => other end.

Definition rounding_side_value (rounded anchor : SymExpr) (op : SymCmpOp) : option bool :=
  match rounding_bounds c rounded (Some anchor) with
  | Some bounds =>
      if expr_eqb (rb_anchor bounds) anchor then
        match op with
        | Uge => if is_zero (rb_below bounds) then Some true else None
        | Ult => if is_zero (rb_below bounds) then Some false else None
        | Ule => if is_zero (rb_above bounds) then Some true else None
        | Ugt => if is_zero (rb_above bounds) then Some false else None
        | _ => None
        end
      else None
  | None => None
  end.

Fixpoint rounding_comparison_value (b : SymBoolExpr) : option bool :=
  match b with
  | BNot v => option_map negb (rounding_comparison_value v)
  | BCmp op l r =>
      match rounding_side_value l r op with
      | Some v => Some v
      | None => rounding_side_value r l (flip_op op)
      end
  | _ => None
  end.

(** *** Multiplication guards *)
Definition bounded_zero_check_operand (b : SymBoolExpr) : option SymExpr :=
  match SBool.zero_check_operand b with
  | Some value => Some value
  | None =>
      match b with
      | BCmp Ult product limit =>
          match constant_mul_operands product with
          | Some (value, scale) =>
              if is_zero scale || negb (const_is limit (u_eqb scale)) then None
              else match max_scaled_product value scale with Some _ => Some value | None => None end
          | None => None
          end
      | _ => None
      end
  end.

Definition zero_check_for_operand (condition : SymBoolExpr) (operand : SymExpr) : bool :=
  if match bounded_zero_check_operand condition with Some v => expr_eqb v operand | None => false end then true
  else match udiv_operands operand with
       | Some (numerator, denominator) =>
           const_nonzero denominator &&
           match condition with
           | BCmp Ult l r => expr_eqb l numerator && expr_eqb r denominator
           | _ => false
           end
       | None => false
       end.

Definition checked_quotient_factors (quotient expected : SymExpr) (zero_condition : option SymBoolExpr)
  : option (SymExpr * SymExpr) :=
  let inner :=
    match quotient with
    | EIte condition zero q =>
        if negb (const_is zero (u_eqb ZERO)) || negb (is_some zero_condition) then None else Some (q, Some condition)
    | _ => Some (quotient, None)
    end in
  match inner with
  | None => None
  | Some (quotient, branch_condition) =>
      match mul_div_identity_operands quotient expected with
      | Some (divisor, other) =>
          let holds o := match o with Some b => zero_check_for_operand b divisor | None => true end in
          if holds zero_condition && holds branch_condition then Some (divisor, other) else None
      | None => None
      end
  end.

Definition checked_mul_guard_for_zero_condition (b zero_condition : SymBoolExpr) : bool :=
  match b with
  | BCmp Eq l r =>
      let side quotient expected :=
        match quotient with EIte _ _ _ => true | _ => false end &&
        match checked_quotient_factors quotient expected (Some zero_condition) with
        | Some (l, r) => mul_fits l r
        | None => false
        end in
      side l r || side r l
  | _ => false
  end.

Definition checked_product_factors (predicate : SymBoolExpr) (zero_condition : option SymBoolExpr)
  : option (SymExpr * SymExpr) :=
  match predicate with
  | BCmp Eq l r => first_some (checked_quotient_factors l r zero_condition) (checked_quotient_factors r l zero_condition)
  | _ => None
  end.

(** *** Rewritten comparisons *)
Definition normalize_udiv_comparison (op : SymCmpOp) (l r : SymExpr) : option SymBoolExpr :=
  match udiv_comparison_operands op l r with
  | Some (numerator, denominator, threshold, quotient_on_left) =>
      let increment_threshold :=
        match op, quotient_on_left with Ule, true | Ult, false => true | _, _ => false end in
      let threshold :=
        if increment_threshold then
          match interval threshold with
          | Some i => match u_checked_add (wi_max i) ONE with
                      | Some _ => Some (binop Add threshold one)
                      | None => None
                      end
          | None => None
          end
        else Some threshold in
      match threshold with
      | Some threshold =>
          if negb (mul_fits threshold denominator) then None
          else
            let scaled_threshold := binop Mul threshold denominator in
            Some (if quotient_on_left then cmp Ult numerator scaled_threshold else cmp Ule scaled_threshold numerator)
      | None => None
      end
  | None => None
  end.

Definition range_at_most (e : SymExpr) (bound : U256) : bool :=
  match interval e with Some i => u_leb (wi_max i) bound | None => false end.

(** The unsigned form of a signed addition guard: no overflow, and a negated
    summand. *)
Definition signed_add_decided (sum base : SymExpr) : option (option bool) :=
  match add_with_operand sum base with
  | Some (_, increment) =>
      match interval base, interval increment with
      | Some base_range, Some increment_range =>
          if u_ltb signed_max (wi_min base_range) && u_leb (wi_max increment_range) signed_max then Some (Some false)
          else if u_leb (wi_max base_range) signed_max && u_ltb signed_max (wi_min increment_range) then Some (Some true)
          else Some None
      | _, _ => None
      end
  | None => if const_is base (u_eqb ZERO) then Some None else None
  end.

Definition signed_negated_summand (sum base : SymExpr) : option SymBoolExpr :=
  if const_is base (u_eqb ZERO) then
    match sum with
    | EBinOp Add l r =>
        let side positive negative :=
          match negative with
          | EBinOp Sub zero amount =>
              if const_is zero (u_eqb ZERO) && range_at_most positive signed_max && range_at_most amount signed_max
              then Some (cmp Ult positive amount) else None
          | _ => None
          end in
        first_some (side l r) (side r l)
    | _ => None
    end
  else None.

Definition signed_add_overflow (sum : SymExpr) : option SymBoolExpr :=
  match sum with
  | EBinOp Add increment base =>
      if range_at_most base signed_max && range_at_most increment signed_max
      then Some (cmp Ult (binop Sub (constant signed_max) base) increment) else None
  | _ => None
  end.

Definition normalize_signed_add_comparison (b : SymBoolExpr) : option SymBoolExpr :=
  match b with
  | BCmp op l r =>
      match (match op with Slt => Some (l, r) | Sgt => Some (r, l) | _ => None end) with
      | Some (sum, base) =>
          match signed_add_decided sum base with
          | None => None
          | Some (Some v) => Some (SBool.constant v)
          | Some None => first_some (signed_negated_summand sum base) (signed_add_overflow sum)
          end
      | None => None
      end
  | _ => None
  end.
End Queries.

(** *** Facts from retained guards *)
Section Recording.
Context `{SA : SignedArith, HF : HashFns}.

Definition bitwise_bool_word_fact (b : SymBoolExpr) : option SymBoolExpr :=
  match b with
  | BCmp Eq l r => if const_is r is_zero then option_map SBool.not_bool (bitwise_bool_word_condition l) else None
  | BNot (BCmp Eq l r) => if const_is r is_zero then bitwise_bool_word_condition l else None
  | _ => None
  end.

Definition record_scaled_zero_fact (b : SymBoolExpr) (c : ConstraintContext) : ConstraintContext :=
  let '(condition, nonzero) := match b with BNot inner => (inner, true) | _ => (b, false) end in
  match condition with
  | BCmp Ult _ _ =>
      match bounded_zero_check_operand c condition with
      | Some value =>
          if nonzero then snd (SCtx.record_lower_bound value ONE c)
          else SCtx.record_exact_value_constraint (cmp Eq value zero) (snd (SCtx.record_upper_bound value ZERO c))
      | None => c
      end
  | _ => c
  end.

(** A product that fits bounds one factor by a lower bound of the other. *)
Definition record_factor_bound (value factor : SymExpr) (c : ConstraintContext) : bool * ConstraintContext :=
  match interval c factor with
  | Some range => if is_zero (wi_min range) then (false, c) else SCtx.record_upper_bound value (u_div MAX (wi_min range)) c
  | None => (false, c)
  end.

Definition product_guard_factors (c : ConstraintContext) (fact : SymBoolExpr) : option (SymExpr * SymExpr) :=
  match checked_product_factors c fact None with
  | Some factors => Some factors
  | None =>
      match fact with
      | BNot (BAnd [a; b]) =>
          let first := SBool.not_bool a in
          let second := SBool.not_bool b in
          first_some (checked_product_factors c second (Some first)) (checked_product_factors c first (Some second))
      | _ => None
      end
  end.

Definition record_non_wrapping_product (b : SymBoolExpr) (c : ConstraintContext) : bool * ConstraintContext :=
  let fact := default b (bitwise_bool_word_fact b) in
  match product_guard_factors c fact with
  | Some (l, r) =>
      let '(changed1, c) := record_factor_bound l r c in
      let '(changed2, c) := record_factor_bound r l c in
      let inserted := negb (existsb (pair_eqb (l, r)) (non_wrapping_products c)) in
      (inserted || (changed1 || changed2),
       SCtx.set_products (if inserted then (l, r) :: non_wrapping_products c else non_wrapping_products c) c)
  | None => (false, c)
  end.

(** The context of the other conjuncts, without the one at [index]. *)
Definition others (constraints : list SymBoolExpr) (index : nat) : list SymBoolExpr :=
  take index constraints ++ drop (S index) constraints.

Definition for_rewrite (constraints : list SymBoolExpr) (index : nat) : ConstraintContext :=
  let supporting := others constraints index in
  let c := SCtx.from_constraints supporting (length constraints - 1) in
  let c := SCtx.rounds record_non_wrapping_product supporting MAX_CONTEXTUAL_PASSES c in
  fold_left (fun c b => record_scaled_zero_fact b c) supporting c.
End Recording.
End SFacts.

(** ** Soundness *)
Section FactsSound.
Context `{SA : SignedArith, HF : HashFns} {SL : SignedArithLaws} {SC : SignedCmpLaw}.
Variable model : SymbolicModel.
Abbreviation den := (denote_word model).
Abbreviation denb := (denote_bool model).
Import SBoundsOf SFacts.

Section Ctx.
Variable c : ConstraintContext.
Hypothesis c_ok : ctx_ok model c.
Abbreviation interval := (interval c).

(** *** Decided comparisons *)
Lemma signed_mono i v : sign_known i = true -> in_interval v i -> signed (wi_min i) <= signed v <= signed (wi_max i).
Proof.
  unfold sign_known. intros H%Bool.eqb_prop [Hlo Hhi].
  assert (Hbit : forall x : U256, Z.testbit (uval x) 255 = negb (uval x <? 2 ^ 255)).
  { intros x. pose proof (uval_range x) as Hx. change word_modulus with (2 ^ 256) in Hx. destruct (Z.ltb_spec (uval x) (2 ^ 255)); cbn [negb].
    - apply Z.testbit_false; [lia|]. by rewrite Z.div_small by lia.
    - apply Z.testbit_true; [lia|]. replace (uval x / 2 ^ 255) with 1; [done|]. apply Z.div_unique with (uval x - 2 ^ 255); lia. }
  rewrite !Hbit in H. apply (f_equal negb) in H. rewrite !negb_involutive in H. unfold signed.
  destruct (Z.ltb_spec (uval (wi_min i)) (2 ^ 255)), (Z.ltb_spec (uval (wi_max i)) (2 ^ 255)), (Z.ltb_spec (uval v) (2 ^ 255)); try done; lia.
Qed.

Lemma slt_spec a b : cmpop_eval Slt a b = true <-> signed a < signed b.
Proof. cbn [cmpop_eval]. rewrite i256_cmp_signed. destruct (Z.compare_spec (signed a) (signed b)); split; intros; try done; lia. Qed.
Lemma sgt_spec a b : cmpop_eval Sgt a b = true <-> signed b < signed a.
Proof. cbn [cmpop_eval]. rewrite i256_cmp_signed. destruct (Z.compare_spec (signed a) (signed b)); split; intros; try done; lia. Qed.

(** A monotone test is decided at the ends of the intervals. *)
Lemma decided_by_ends (always possible t : bool) v :
  (always = true -> t = true) -> (t = true -> possible = true) ->
  (if always then Some true else if negb possible then Some false else None) = Some v -> t = v.
Proof. destruct always, possible, t; simpl; naive_solver. Qed.

Lemma bounded_cmp_sound op i j a b v :
  in_interval a i -> in_interval b j -> bounded_cmp_value op i j = Some v -> cmpop_eval op a b = v.
Proof.
  intros Hi Hj. pose proof Hi as [Hi1 Hi2]. pose proof Hj as [Hj1 Hj2]. unfold bounded_cmp_value. destruct op.
  - cbn [cmpop_eval]. destruct (u_ltb (wi_max i) (wi_min j) || u_ltb (wi_max j) (wi_min i)) eqn:E.
    + intros [= <-]. apply orb_prop in E as [E%u_ltb_lt|E%u_ltb_lt]; apply Z.eqb_neq; lia.
    + destruct (u_eqb (wi_min i) (wi_max i) && u_eqb (wi_min j) (wi_max j)) eqn:E2; [|done]. intros [= <-].
      apply andb_prop in E2 as [E2%Z.eqb_eq E3%Z.eqb_eq]. unfold u_eqb. f_equal; lia.
  - apply decided_by_ends; cbn [cmpop_eval]; rewrite !u_ltb_lt; lia.
  - apply decided_by_ends; cbn [cmpop_eval]; rewrite !u_ltb_lt; lia.
  - apply decided_by_ends; cbn [cmpop_eval]; rewrite !u_leb_le; lia.
  - apply decided_by_ends; cbn [cmpop_eval]; rewrite !u_leb_le; lia.
  - destruct (sign_known i) eqn:Es; [|done]. destruct (sign_known j) eqn:Et; [|done]. simpl negb.
    pose proof (signed_mono i a Es Hi). pose proof (signed_mono j b Et Hj). apply decided_by_ends; intros H1%slt_spec; apply slt_spec; lia.
  - destruct (sign_known i) eqn:Es; [|done]. destruct (sign_known j) eqn:Et; [|done]. simpl negb.
    pose proof (signed_mono i a Es Hi). pose proof (signed_mono j b Et Hj). apply decided_by_ends; intros H1%sgt_spec; apply sgt_spec; lia.
Qed.

Lemma bounded_bool_sound b v t : bounded_bool_value c b = Some v -> denb b = Some t -> t = v.
Proof.
  revert b v t. refine (bexpr_ind' (fun _ => True) (fun b => forall v t, bounded_bool_value c b = Some v -> denb b = Some t -> t = v) _ _ _ _ _ _ _ _ _ _ _ _ _); try done.
  - intros b v t [= <-] [= <-]. done.
  - intros b IH v t. simpl. destruct (bounded_bool_value c b) as [w|] eqn:E; [|done]. destruct (denb b) as [u|] eqn:Eb; [|done].
    intros [= <-] [= <-]. f_equal. by apply IH.
  - intros op l r _ _ v t. cbn [bounded_bool_value]. destruct (interval l) as [i|] eqn:Ei; [|done]. destruct (interval r) as [j|] eqn:Ej; [|done].
    intros Hv (x & y & Hx & Hy & ->)%den_cmp_inv.
    apply (bounded_cmp_sound op i j x y v (interval_sound model c c_ok _ _ _ Ei Hx) (interval_sound model c c_ok _ _ _ Ej Hy) Hv).
Qed.

(** *** Quotients of products *)
Lemma mul_div_shape q d o : mul_div_operands q = Some (d, o) ->
  q = EBinOp UDiv (EBinOp Mul d o) d \/ q = EBinOp UDiv (EBinOp Mul o d) d.
Proof.
  unfold mul_div_operands. destruct q as [| | | | | |[] n d'| |]; try done. simpl. destruct n as [| | | | | |[] l r| |]; try done.
  destruct (expr_eqb_spec l d') as [->|]; [intros [= -> ->]; by left|]. destruct (expr_eqb_spec r d') as [->|]; [|done]. intros [= -> ->]. by right.
Qed.

Lemma mul_div_den q d o v : mul_div_operands q = Some (d, o) -> den q = Some v ->
  exists dv ov, den d = Some dv /\ den o = Some ov /\ v = binop_eval UDiv (wrapping_mul dv ov) dv.
Proof.
  intros [-> | ->]%mul_div_shape (n & d' & Hn & Hd & ->)%den_binop_inv.
  all: apply den_binop_inv in Hn as (a & b & Ha & Hb & ->); simplify_eq; eexists _, _; (split; [done|]); (split; [done|]) ; try done.
  f_equal. apply commutes_Mul.
Qed.

(** Dividing a product that fits by a factor gives the other one. *)
Lemma div_product (d o : U256) : 0 < uval d -> uval d * uval o < word_modulus -> binop_eval UDiv (wrapping_mul d o) d = o.
Proof.
  intros Hd Hf. cbn [binop_eval]. unfold is_zero. rewrite (proj2 (Z.eqb_neq (uval d) 0)) by lia. apply uval_inj. rewrite uval_div.
  pose proof (uval_range o). unfold wrapping_mul. rewrite uval_U_small by nia. rewrite Z.mul_comm. apply Z.div_mul. lia.
Qed.
(** Conversely, the quotient tells that the product fits. *)
Lemma div_product_fits (d o : U256) : binop_eval UDiv (wrapping_mul d o) d = o -> uval d * uval o < word_modulus.
Proof.
  cbn [binop_eval]. unfold is_zero. destruct (Z.eqb_spec (uval d) 0) as [->|Hd]; [done|]. intros H%(f_equal uval). rewrite uval_div in H.
  pose proof (uval_range d). pose proof (uval_range o). pose proof (uval_range (wrapping_mul d o)).
  pose proof (Z.mul_div_le (uval (wrapping_mul d o)) (uval d) ltac:(lia)). nia.
Qed.

Lemma positive_interval e i v : interval e = Some i -> is_zero (wi_min i) = false -> den e = Some v -> 0 < uval v.
Proof.
  intros Hi Hz Hv. destruct (interval_sound model c c_ok _ _ _ Hi Hv) as [H _]. unfold is_zero in Hz. apply Z.eqb_neq in Hz.
  pose proof (uval_range (wi_min i)). lia.
Qed.

(** The quotient of a product by a positive factor, when the product fits. *)
Definition mul_div_proved (d o : SymExpr) : bool :=
  match interval d with Some i => negb (is_zero (wi_min i)) | None => false end && mul_cannot_overflow_256 c d o.

Lemma mul_div_proved_sound q d o v :
  mul_div_operands q = Some (d, o) -> mul_div_proved d o = true -> den q = Some v -> den o = Some v.
Proof.
  intros Hq Hp Hv. destruct (mul_div_den _ _ _ _ Hq Hv) as (dv & ov & Hd & Ho & ->). unfold mul_div_proved in Hp.
  apply andb_prop in Hp as [Hz Hf]. destruct (interval d) as [i|] eqn:Ei; [|done]. apply negb_true_iff in Hz. rewrite div_product; [done| |].
  - by eapply positive_interval.
  - by apply (mul_cannot_overflow_sound model c c_ok d o Hf).
Qed.

Lemma mul_div_identity_sound q e v w : mul_div_identity c q e = true -> den q = Some v -> den e = Some w -> v = w.
Proof.
  unfold mul_div_identity, mul_div_identity_operands. destruct (mul_div_operands q) as [[d o]|] eqn:E; [|done].
  destruct (expr_eqb_spec o e) as [->|]; [|done]. intros Hp Hv Hw. pose proof (mul_div_proved_sound _ _ _ _ E Hp Hv). congruence.
Qed.

Lemma always_true_sound b v : unsigned_bool_always_true c b = true -> denb b = Some v -> v = true.
Proof.
  destruct b as [| | |op l r]; try done. simpl unsigned_bool_always_true. intros H (x & y & Hx & Hy & ->)%den_cmp_inv.
  unfold unsigned_cmp_always_true in H. destruct (match op with Eq => _ | _ => false end) eqn:Em.
  { destruct op; try done. cbn [cmpop_eval]. apply u_eqb_eq. apply orb_prop in Em as [Em|Em];
      [by eapply mul_div_identity_sound|symmetry; by eapply mul_div_identity_sound]. }
  destruct (interval l) as [i|] eqn:Ei; [|done]. destruct (interval r) as [j|] eqn:Ej; [|done].
  destruct (interval_sound model c c_ok _ _ _ Ei Hx), (interval_sound model c c_ok _ _ _ Ej Hy).
  destruct op; try done; cbn [cmpop_eval]; rewrite ?u_leb_le, ?u_ltb_lt in *; lia.
Qed.

(** *** Masks *)
Lemma masked_side_sound m x a b : masked_word_side_eq_self c m x = true -> den m = Some a -> den x = Some b -> a = b.
Proof.
  unfold masked_word_side_eq_self, masked_word_side_eq_self_shape. destruct m as [| | | | | |[] l r| |]; try done.
  destruct (const_side_bound l r) as [[s k]|] eqn:Es; [|done]. destruct (mask_low_bits k) as [bits|] eqn:Ek; [|done].
  destruct (expr_eqb_spec s x) as [->|]; [|done]. intros Hb%Z.leb_le (y & z & Hy & Hz & ->)%den_binop_inv Hx.
  apply mask_low_bits_Some in Ek as [Hbits Hk]. destruct (ctx_bits_ok model c c_ok x) as [Hw Hlt]. specialize (Hlt _ Hx).
  assert (Hand : u_and b k = b).
  { apply uval_inj. pose proof (uval_range b). unfold u_and. rewrite Hk, Z.land_ones by lia. rewrite Z.mod_small; [by rewrite uval_U_small|].
    split; [lia|]. eapply Z.lt_le_trans; [exact Hlt|]. apply Z.pow_le_mono_r; lia. }
  cbn [binop_eval]. apply const_side_den in Es as [[-> Hc]|[-> Hc]].
  - rewrite (as_const_den _ _ _ _ Hc Hz). congruence.
  - rewrite (as_const_den _ _ _ _ Hc Hy). pose proof (commutes_And k z) as Hcomm. cbn [binop_eval] in Hcomm. rewrite Hcomm. congruence.
Qed.
Lemma masked_eq_sound l r a b : masked_word_eq_self c l r = true -> den l = Some a -> den r = Some b -> a = b.
Proof. intros [H|H]%orb_prop Ha Hb; [by eapply masked_side_sound|symmetry; by eapply masked_side_sound]. Qed.

(** *** Exact divisions *)
Lemma scaled_product_fits x k m a : max_scaled_product c x k = Some m -> den x = Some a -> uval a * uval k <= uval m.
Proof.
  unfold max_scaled_product. destruct (interval x) as [i|] eqn:Ei; [|done]. intros Hm%u_checked_mul_spec Ha.
  destruct (interval_sound model c c_ok _ _ _ Ei Ha). pose proof (uval_range k). pose proof (uval_range a). nia.
Qed.

Lemma exact_multiple (k d : U256) : is_zero d = false -> is_zero (u_rem k d) = true -> uval k = uval (u_div k d) * uval d.
Proof.
  unfold is_zero, u_rem. intros Hd%Z.eqb_neq Hr%Z.eqb_eq. pose proof (uval_range d). pose proof (uval_range k).
  pose proof (Z.mod_pos_bound (uval k) (uval d) ltac:(lia)). rewrite uval_U_small in Hr by lia.
  rewrite uval_div. pose proof (Z.div_mod (uval k) (uval d) ltac:(lia)). lia.
Qed.

(** [(a * k + rest) / d] is [a * (k / d)] for an exact quotient and a small rest. *)
Lemma scaled_quotient (a k d : U256) rest :
  is_zero d = false -> is_zero (u_rem k d) = true -> uval a * uval k < word_modulus -> 0 <= rest < uval d ->
  (uval a * uval k + rest) / uval d = uval (wrapping_mul a (u_div k d)).
Proof.
  intros Hd Hr Hf Hrest. pose proof (exact_multiple k d Hd Hr) as Hk. apply Z.eqb_neq in Hd. pose proof (uval_range d).
  pose proof (uval_range a). pose proof (uval_range (u_div k d)). rewrite Hk. unfold wrapping_mul. rewrite uval_U_small by nia.
  symmetry. apply Z.div_unique with rest; [lia|]. ring.
Qed.

Lemma exact_scaled_sound e x f v : exact_scaled_div_factor c e = Some (x, f) -> den e = Some v ->
  exists a, den x = Some a /\ v = wrapping_mul a f.
Proof.
  unfold exact_scaled_div_factor. destruct e as [| | | | | |[] n d| |]; try done. cbn [udiv_operands].
  destruct (as_const d) as [k|] eqn:Ed; [|done]. destruct (is_zero k) eqn:Ez; [done|].
  destruct (constant_mul_operands n) as [[y m]|] eqn:Em; [|done]. case_match eqn:Eg; [done|]. intros [= -> <-].
  apply orb_false_iff in Eg as [Hr%negb_false_iff Hf%negb_false_iff]. destruct (max_scaled_product c x m) as [p|] eqn:Ep; [|done].
  intros (nv & dv & Hn & Hd & ->)%den_binop_inv. rewrite (as_const_den _ _ _ _ Ed Hd).
  destruct (constant_mul_den model _ _ _ _ Em Hn) as (a & Ha & ->). exists a. split; [done|].
  pose proof (scaled_product_fits _ _ _ _ Ep Ha). pose proof (uval_range p). pose proof (uval_range a). pose proof (uval_range m).
  cbn [binop_eval]. rewrite Ez. apply uval_inj. rewrite uval_div.
  rewrite <- (scaled_quotient a m k 0); [|done|done|lia|unfold is_zero in Ez; apply Z.eqb_neq in Ez; pose proof (uval_range k); lia].
  unfold wrapping_mul. rewrite uval_U_small by nia. f_equal. lia.
Qed.

Lemma exact_ceil_sound e x f v : exact_ceil_div_factor c e = Some (x, f) -> den e = Some v ->
  exists a, den x = Some a /\ v = wrapping_mul a f.
Proof.
  unfold exact_ceil_div_factor, ceil_div_product. destruct e as [| | | | | |[] n d| |]; try done. cbn [udiv_operands].
  destruct (as_const d) as [k|] eqn:Ed; [|done]. destruct (is_zero k) eqn:Ez; [done|].
  destruct n as [| | | | | |[] n1 one_| |]; try done. destruct n1 as [| | | | | |[] product rounding| |]; try done.
  destruct (const_is one_ (u_eqb ONE) && const_is rounding (u_eqb k) && _) eqn:Eg; [|done].
  destruct (constant_mul_operands product) as [[y m]|] eqn:Em; [|done]. destruct (max_scaled_product c y m) as [p|] eqn:Ep; [|done].
  destruct (u_checked_add p k) as [s|] eqn:Es; [|done]. rewrite Ez. destruct (is_zero (u_rem m k)) eqn:Er; [|done]. intros [= -> <-].
  apply andb_prop in Eg as [Eg _]. apply andb_prop in Eg as [H1 Hk].
  intros (nv & dv & Hn & Hd & ->)%den_binop_inv. rewrite (as_const_den _ _ _ _ Ed Hd).
  apply den_binop_inv in Hn as (sv & ov & Hs & Ho & ->). apply den_binop_inv in Hs as (pv & rv & Hp & Hr & ->).
  rewrite (const_eq_val _ _ _ _ H1 Ho), (const_eq_val _ _ _ _ Hk Hr). destruct (constant_mul_den model _ _ _ _ Em Hp) as (a & Ha & ->).
  exists a. split; [done|]. pose proof (scaled_product_fits _ _ _ _ Ep Ha). apply u_checked_add_spec in Es.
  pose proof (uval_range p). pose proof (uval_range a). pose proof (uval_range m). pose proof (uval_range s). pose proof (uval_range k).
  pose proof Ez as Ez'. unfold is_zero in Ez'. apply Z.eqb_neq in Ez'.
  cbn [binop_eval]. rewrite Ez. apply uval_inj. rewrite uval_div. rewrite <- (scaled_quotient a m k (uval k - 1)); [|done|done|lia|lia].
  assert (Hmul : uval (wrapping_mul a m) = uval a * uval m) by (apply uval_U_small; nia).
  assert (Hadd : uval (wrapping_add (wrapping_mul a m) k) = uval a * uval m + uval k) by (unfold wrapping_add; rewrite Hmul; apply uval_U_small; nia).
  rewrite uval_sub_le; rewrite Hadd, uval_ONE; [f_equal; lia|nia].
Qed.

(** *** Rounded products *)
Lemma rounded_quotient_sound e x v : quotient_of_rounded_product c e = Some x -> den e = Some v -> den x = Some v.
Proof.
  unfold quotient_of_rounded_product. destruct e as [| | | | | |[] n d| |]; try done. cbn [udiv_operands].
  destruct (rounding_bounds c n None) as [rb|] eqn:Erb; [|done].
  destruct (match as_const d with Some m => Some m | None => _ end) as [mn|] eqn:Emn; [|done].
  destruct (negb (is_zero (rb_below rb)) || u_leb mn (rb_above rb)) eqn:Eg; [done|].
  apply orb_false_iff in Eg as [Hb%negb_false_iff%is_zero_true Hab]. destruct (rb_anchor rb) as [| | | | | |[] l r| |] eqn:Eanchor; try done.
  cbv zeta. destruct (if expr_eqb l d then Some r else if expr_eqb r d then Some l else None) as [y|] eqn:Ey; [|done].
  destruct (mul_cannot_overflow_256 c y d) eqn:Ef; [|done]. intros [= ->] (nv & dv & Hn & Hd & ->)%den_binop_inv.
  destruct (rounding_sound model c c_ok _ _ _ Erb _ Hn) as (av & Ha & Hle). rewrite Eanchor in Ha. rewrite Hb, uval_ZERO in Hle.
  assert (Hmin : uval mn <= uval dv).
  { destruct (as_const d) as [k|] eqn:Ek; simplify_eq; [by rewrite (as_const_den _ _ _ _ Ek Hd)|]. by apply (ok_unsigned model c c_ok _ _ Emn). }
  assert (Hanchor : exists yv, den x = Some yv /\ uval av = uval yv * uval dv).
  { apply den_binop_inv in Ha as (lv & rv & Hl & Hr & ->).
    assert (Hy : exists yv, den x = Some yv /\ wrapping_mul lv rv = wrapping_mul yv dv).
    { destruct (expr_eqb_spec l d) as [->|]; [|destruct (expr_eqb_spec r d) as [->|]; [|done]]; simplify_eq; eexists; (split; [done|]); [apply commutes_Mul|done]. }
    destruct Hy as (yv & Hy & Heq). exists yv. split; [done|]. cbn [binop_eval]. rewrite Heq.
    pose proof (mul_cannot_overflow_sound model c c_ok _ _ Ef _ _ Hy Hd). pose proof (uval_range yv). pose proof (uval_range dv). apply uval_U_small. nia. }
  destruct Hanchor as (yv & Hy & Hav). rewrite Hy. f_equal. unfold u_leb in Hab. apply Z.leb_gt in Hab. pose proof (uval_range (rb_above rb)).
  cbn [binop_eval]. unfold is_zero. rewrite (proj2 (Z.eqb_neq (uval dv) 0)) by lia. apply uval_inj. rewrite uval_div.
  apply Z.div_unique with (uval nv - uval av); [lia|]. rewrite Hav. ring.
Qed.

Lemma rounding_side_sound x y op v t a b : rounding_side_value c x y op = Some v -> den x = Some a -> den y = Some b ->
  cmpop_eval op a b = t -> t = v.
Proof.
  unfold rounding_side_value. destruct (rounding_bounds c x (Some y)) as [rb|] eqn:Erb; [|done].
  destruct (expr_eqb_spec (rb_anchor rb) y) as [Hy|]; [|done]. intros Hv Ha Hb <-.
  destruct (rounding_sound model c c_ok _ _ _ Erb _ Ha) as (av & Hav & Hle). rewrite Hy in Hav. simplify_eq.
  destruct op; try done; cbn [cmpop_eval]; destruct (is_zero _) eqn:Ez; simplify_eq; apply is_zero_true in Ez; rewrite Ez, uval_ZERO in Hle;
    first [apply Z.leb_le|apply Z.ltb_ge]; lia.
Qed.
Lemma flip_op_eval op a b : cmpop_eval (flip_op op) b a = cmpop_eval op a b \/ op = Slt \/ op = Sgt.
Proof. destruct op; auto; left; [apply u_eqb_sym|done..]. Qed.

Lemma rounding_comparison_sound b v t : rounding_comparison_value c b = Some v -> denb b = Some t -> t = v.
Proof.
  revert b v t. refine (bexpr_ind' (fun _ => True) (fun b => forall v t, rounding_comparison_value c b = Some v -> denb b = Some t -> t = v) _ _ _ _ _ _ _ _ _ _ _ _ _); try done.
  - intros b IH v t. simpl. destruct (rounding_comparison_value c b) as [w|] eqn:E; [|done]. destruct (denb b) as [u|] eqn:Eb; [|done].
    intros [= <-] [= <-]. f_equal. by apply IH.
  - intros op l r _ _ v t. cbn [rounding_comparison_value]. intros Hv (x & y & Hx & Hy & ->)%den_cmp_inv.
    destruct (rounding_side_value c l r op) as [w|] eqn:E; [simplify_eq; by eapply rounding_side_sound|].
    destruct (flip_op_eval op x y) as [Hf|Hs]; [by eapply rounding_side_sound|].
    unfold rounding_side_value in Hv. by destruct Hs as [-> | ->]; simpl in Hv; repeat case_match.
Qed.

(** *** Multiplication guards *)
Lemma bounded_zero_check_sound b x t :
  bounded_zero_check_operand c b = Some x -> denb b = Some t -> exists v, den x = Some v /\ t = is_zero v.
Proof.
  unfold bounded_zero_check_operand. destruct (SBool.zero_check_operand b) as [y|] eqn:Ez.
  { intros [= ->]. by apply zero_check_sound. }
  destruct b as [| | |[] p k]; try done. destruct (constant_mul_operands p) as [[y s]|] eqn:Em; [|done].
  destruct (is_zero s || negb (const_is k (u_eqb s))) eqn:Eg; [done|]. apply orb_false_iff in Eg as [Hs Hk%negb_false_iff].
  destruct (max_scaled_product c y s) as [m|] eqn:Ep; [|done]. intros [= ->] (pv & kv & Hp & Hkv & ->)%den_cmp_inv.
  destruct (constant_mul_den model _ _ _ _ Em Hp) as (a & Ha & ->). exists a. split; [done|]. rewrite (const_eq_val _ _ _ _ Hk Hkv).
  pose proof (scaled_product_fits _ _ _ _ Ep Ha). pose proof (uval_range a). pose proof (uval_range s). pose proof (uval_range m). clear Ep Ez.
  unfold is_zero in *. apply Z.eqb_neq in Hs. cbn [cmpop_eval]. unfold u_ltb, wrapping_mul. rewrite uval_U_small by nia.
  destruct (Z.ltb_spec (uval a * uval s) (uval s)), (Z.eqb_spec (uval a) 0); try reflexivity; nia.
Qed.

Lemma zero_check_for_sound b x t :
  zero_check_for_operand c b x = true -> denb b = Some t -> exists v, den x = Some v /\ t = is_zero v.
Proof.
  unfold zero_check_for_operand. case_match eqn:Eb.
  { intros _ Ht. destruct (bounded_zero_check_operand c b) as [y|] eqn:E; [|done]. apply expr_eqb_eq in Eb as ->.
    by apply (bounded_zero_check_sound _ _ _ E). }
  destruct x as [| | | | | |[] n d| |]; try done. cbn [udiv_operands]. intros [Hd Hc]%andb_prop. destruct b as [| | |[] l r]; try done.
  apply andb_prop in Hc as [->%expr_eqb_eq ->%expr_eqb_eq]. intros (nv & dv & Hn & Hdv & ->)%den_cmp_inv.
  exists (binop_eval UDiv nv dv). split; [simpl; by rewrite Hn, Hdv|]. destruct (const_is_inv _ _ _ _ Hd Hdv) as [_ Hz%negb_true_iff].
  cbn [cmpop_eval binop_eval]. rewrite Hz. unfold is_zero, u_ltb in *. rewrite uval_div. apply Z.eqb_neq in Hz.
  pose proof (uval_range nv). pose proof (uval_range dv). destruct (Z.ltb_spec (uval nv) (uval dv)).
  - symmetry. apply Z.eqb_eq. apply Z.div_small. lia.
  - symmetry. apply Z.eqb_neq. pose proof (Z.div_str_pos (uval nv) (uval dv) ltac:(lia)). lia.
Qed.

(** The quotient of a guard, and the divisor it guards. *)
Definition guards (o : option SymBoolExpr) (d : SymExpr) : Prop :=
  match o with Some b => forall t, denb b = Some t -> exists v, den d = Some v /\ t = is_zero v | None => True end.

Lemma checked_quotient_shape q e zc d o : checked_quotient_factors c q e zc = Some (d, o) ->
  guards zc d /\ exists q', mul_div_operands q' = Some (d, o) /\ o = e /\
    (q = q' \/ exists b z, q = EIte b z q' /\ guards (Some b) d /\ const_is z (u_eqb ZERO) = true).
Proof.
  unfold checked_quotient_factors.
  assert (Hrest : forall q' br, match mul_div_identity_operands q' e with
      | Some (divisor, other) =>
          if match zc with Some b => zero_check_for_operand c b divisor | None => true end &&
             match br with Some b => zero_check_for_operand c b divisor | None => true end then Some (divisor, other) else None
      | None => None end = Some (d, o) ->
    guards zc d /\ guards br d /\ mul_div_operands q' = Some (d, o) /\ o = e).
  { intros q' br. unfold mul_div_identity_operands. destruct (mul_div_operands q') as [[d' o']|]; [|done].
    destruct (expr_eqb_spec o' e) as [->|]; [|done]. case_match eqn:Eg; [|done]. intros [= -> ->]. apply andb_prop in Eg as [H1 H2].
    split; [destruct zc; [|done]; intros t; by apply zero_check_for_sound|]. split; [|done].
    destruct br; [|done]. intros t. by apply zero_check_for_sound. }
  destruct q as [| | | | | | | |b z q']; try (intros (H1 & _ & H2 & H3)%(Hrest _ None); split; [done|]; eexists; split; [done|]; split; [done|]; by left).
  destruct (negb (const_is z (u_eqb ZERO)) || negb (is_some zc)) eqn:Eg; [done|]. apply orb_false_iff in Eg as [Hz%negb_false_iff _].
  intros (H1 & Hb & H2 & H3)%(Hrest _ (Some b)). split; [done|]. exists q'. split; [done|]. split; [done|]. right. eauto.
Qed.

(** The guarded product fits when the guard holds, and a factor without a
    value stands beside one that is zero. *)
Definition guarded_fits (d o : SymExpr) : Prop :=
  fits model d o /\ is_Some (den d) /\ (is_Some (den o) \/ den d = Some ZERO).

Lemma guarded_zero d o : den d = Some ZERO -> guarded_fits d o.
Proof. intros Hd. split; [|eauto]. intros a b Ha Hb. simplify_eq. by rewrite uval_ZERO. Qed.

Lemma checked_quotient_fits q e zc d o :
  checked_quotient_factors c q e zc = Some (d, o) ->
  (exists v, den q = Some v /\ den e = Some v) \/ (exists b, zc = Some b /\ denb b = Some true) -> guarded_fits d o.
Proof.
  intros (Hzc & q' & Hm & -> & Hq)%checked_quotient_shape Hor.
  assert (Hg : forall b, guards (Some b) d -> denb b = Some true -> guarded_fits d e).
  { intros b Hb Ht. destruct (Hb _ Ht) as (v & Hv & Hz). apply guarded_zero. symmetry in Hz. by apply is_zero_true in Hz as ->. }
  destruct Hor as [(v & Hv & Hw)|(b & -> & Hb)]; [|by eapply Hg].
  assert (Hdir : den q' = Some v -> guarded_fits d e).
  { intros H. destruct (mul_div_den _ _ _ _ Hm H) as (d' & o' & Hd' & Ho' & Hdiv). split; [|eauto]. intros a b Ha Hb. simplify_eq. by apply div_product_fits. }
  destruct Hq as [->|(b & z & -> & Hb & _)]; [by apply Hdir|]. apply den_ite_inv in Hv as (t & Ht & Hv). destruct t; [by eapply Hg|by apply Hdir].
Qed.

(** The guard holds when the product fits and the divisor is not zero. *)
Lemma checked_quotient_holds q e b d o v w :
  checked_quotient_factors c q e (Some b) = Some (d, o) -> denb b = Some false -> mul_cannot_overflow_256 c d o = true ->
  den q = Some v -> den e = Some w -> v = w.
Proof.
  intros (Hzc & q' & Hm & -> & Hq)%checked_quotient_shape Hb Hf Hv Hw. destruct (Hzc _ Hb) as (dv & Hd & Hz).
  assert (Hdir : den q' = Some v -> v = w).
  { intros H. destruct (mul_div_den _ _ _ _ Hm H) as (d' & o' & Hd' & Ho' & ->). simplify_eq. apply div_product.
    - unfold is_zero in Hz. symmetry in Hz. apply Z.eqb_neq in Hz. match goal with H : den d = Some ?x |- _ => pose proof (uval_range x) end. lia.
    - by apply (mul_cannot_overflow_sound model c c_ok _ _ Hf). }
  destruct Hq as [->|(b' & z & -> & Hb' & _)]; [by apply Hdir|]. apply den_ite_inv in Hv as (t & Ht & Hv).
  destruct (Hb' _ Ht) as (? & ? & ->). simplify_eq. rewrite <- Hz in Hv. by apply Hdir.
Qed.

Lemma mul_guard_sound b z t : checked_mul_guard_for_zero_condition c b z = true -> denb z = Some false -> denb b = Some t -> t = true.
Proof.
  destruct b as [| | |[] l r]; try done. cbn [checked_mul_guard_for_zero_condition]. intros H Hz (x & y & Hx & Hy & ->)%den_cmp_inv.
  cbn [cmpop_eval]. apply u_eqb_eq. apply orb_prop in H as [H|H]; apply andb_prop in H as [_ H].
  all: destruct (checked_quotient_factors _ _ _ _) as [[d o]|] eqn:E; [|done].
  - by eapply checked_quotient_holds.
  - symmetry. by eapply checked_quotient_holds.
Qed.

Lemma checked_product_fits p zc d o :
  checked_product_factors c p zc = Some (d, o) ->
  denb p = Some true \/ (exists b, zc = Some b /\ denb b = Some true) -> guarded_fits d o.
Proof.
  destruct p as [| | |[] l r]; try done. cbn [checked_product_factors]. intros Hf Hor.
  assert (Hxy : (exists v, den l = Some v /\ den r = Some v) \/ exists b, zc = Some b /\ denb b = Some true).
  { destruct Hor as [He|?]; [left|by right]. apply den_cmp_inv in He as (x & y & Hx & Hy & Heq). symmetry in Heq.
    apply u_eqb_eq in Heq as ->. eauto. }
  unfold first_some in Hf. destruct (checked_quotient_factors c l r zc) as [[d' o']|] eqn:E; simplify_eq.
  - by eapply checked_quotient_fits.
  - eapply checked_quotient_fits; [done..|]. naive_solver.
Qed.

(** *** Divisions by constants *)
Lemma udiv_comparison_shape op l r n d t lft : udiv_comparison_operands op l r = Some (n, d, t, lft) ->
  (op = Ult \/ op = Ule) /\ const_nonzero d = true /\
  (if lft then l = EBinOp UDiv n d /\ r = t else r = EBinOp UDiv n d /\ l = t).
Proof.
  intros H. assert (Hop : op = Ult \/ op = Ule) by (destruct op; try done; auto). split; [done|].
  assert (Hq : forall q x y, udiv_operands q = Some (x, y) -> q = EBinOp UDiv x y) by (intros [| | | | | |[]| |]; simpl; naive_solver).
  destruct Hop as [-> | ->]; cbn [udiv_comparison_operands] in H; cbv zeta in H.
  all: destruct (match udiv_operands l with Some _ => _ | None => _ end) as [[[[n' d'] t'] s']|] eqn:E1;
    [|clear E1; destruct (udiv_operands r) as [[n1 d1]|] eqn:E2; [|done]; case_match eqn:Eg; [|done]; apply andb_prop in Eg as [? _]; simplify_eq; auto].
  all: destruct (udiv_operands l) as [[n1 d1]|] eqn:E2; [|done]; case_match eqn:Eg; [|done]; apply andb_prop in Eg as [? _]; simplify_eq; auto.
Qed.

(** Quotients against a threshold, without dividing. *)
Lemma quotient_bounds n d t : 0 < d ->
  ((n / d < t <-> n < t * d) /\ (t <= n / d <-> t * d <= n)).
Proof.
  intros Hd. assert (H : t <= n / d <-> t * d <= n).
  { split; intros H; [|apply Z.div_le_lower_bound; lia]. pose proof (Z.mul_div_le n d Hd). nia. }
  split; [|done]. lia.
Qed.

(** Comparisons other than equality keep their value. *)
Lemma den_order op l r a b : op <> Eq -> den l = Some a -> den r = Some b -> denb (cmp op l r) = Some (cmpop_eval op a b).
Proof. intros Hop Hl Hr. exact (cmp_refines_order model op l r (fun H => match Hop H with end) _ (den_cmp_intro model op l r a b Hl Hr)). Qed.

(** The incremented threshold does not wrap. *)
Lemma increment_den t i m v : interval t = Some i -> u_checked_add (wi_max i) ONE = Some m -> den t = Some v ->
  exists w, den (binop Add t one) = Some w /\ uval w = uval v + 1.
Proof.
  intros Hi Hm%u_checked_add_spec Hv. rewrite uval_ONE in Hm. destruct (interval_sound model c c_ok _ _ _ Hi Hv) as [_ Hle].
  exists (wrapping_add v ONE). split; [by apply (den_binop model Add)|]. pose proof (uval_range m). pose proof (uval_range v).
  unfold wrapping_add. rewrite uval_ONE. apply uval_U_small. lia.
Qed.

Lemma udiv_comparison_sound op l r b : normalize_udiv_comparison c op l r = Some b -> brefines model (BCmp op l r) b.
Proof.
  unfold normalize_udiv_comparison. destruct (udiv_comparison_operands op l r) as [[[[n d] t] lft]|] eqn:E; [|done]. cbv zeta.
  destruct (udiv_comparison_shape _ _ _ _ _ _ _ E) as (Hop & Hd & Hsides).
  set (inc := match op, lft with Ule, true | Ult, false => true | _, _ => false end).
  destruct (if inc then _ else Some t) as [t'|] eqn:Et; [|done]. destruct (mul_cannot_overflow_256 c t' d) eqn:Ef; [|done]. simpl negb.
  intros [= <-] v Hv.
  assert (Hvals : exists nv dv tv tv', den n = Some nv /\ den d = Some dv /\ den t = Some tv /\ den t' = Some tv' /\ 0 < uval dv /\
      uval tv' = (if inc then uval tv + 1 else uval tv) /\
      v = if lft then cmpop_eval op (u_div nv dv) tv else cmpop_eval op tv (u_div nv dv)).
  { apply den_cmp_inv in Hv as (x & y & Hx & Hy & ->).
    assert (Hq : forall q, den (EBinOp UDiv n d) = Some q -> exists nv dv, den n = Some nv /\ den d = Some dv /\ 0 < uval dv /\ q = u_div nv dv).
    { intros q (nv & dv & Hn & Hdv & ->)%den_binop_inv. exists nv, dv. destruct (const_is_inv _ _ _ _ Hd Hdv) as [_ Hz%negb_true_iff].
      cbn [binop_eval]. rewrite Hz. unfold is_zero in Hz. apply Z.eqb_neq in Hz. pose proof (uval_range dv). repeat split; try done; lia. }
    assert (Ht : forall tv, den t = Some tv -> exists tv', den t' = Some tv' /\ uval tv' = if inc then uval tv + 1 else uval tv).
    { intros tv Htv. destruct inc; [|simplify_eq; eauto]. destruct (interval t) as [i|] eqn:Ei; [|done].
      destruct (u_checked_add (wi_max i) ONE) as [m|] eqn:Em; [|done]. simplify_eq. by eapply increment_den. }
    destruct lft; destruct Hsides as [-> ->].
    - destruct (Hq _ Hx) as (nv & dv & Hn & Hdv & Hpos & ->), (Ht _ Hy) as (tv' & Htv' & Hu). by exists nv, dv, y, tv'.
    - destruct (Hq _ Hy) as (nv & dv & Hn & Hdv & Hpos & ->), (Ht _ Hx) as (tv' & Htv' & Hu). by exists nv, dv, x, tv'. }
  destruct Hvals as (nv & dv & tv & tv' & Hn & Hdv & Htv & Htv' & Hpos & Hu & ->).
  pose proof (mul_cannot_overflow_sound model c c_ok _ _ Ef _ _ Htv' Hdv) as Hfit.
  assert (Hs : den (binop Mul t' d) = Some (wrapping_mul tv' dv)) by (by apply (den_binop model Mul)).
  assert (Hsv : uval (wrapping_mul tv' dv) = uval tv' * uval dv).
  { pose proof (uval_range tv'). pose proof (uval_range dv). apply uval_U_small. nia. }
  destruct (quotient_bounds (uval nv) (uval dv) (uval tv') Hpos) as [Hlt Hle].
  destruct lft; cbv iota; [refine (eq_trans (den_order Ult _ _ _ _ ltac:(done) Hn Hs) _)|refine (eq_trans (den_order Ule _ _ _ _ ltac:(done) Hs Hn) _)];
    f_equal; apply eq_iff_eq_true; destruct Hop as [-> | ->]; cbn [cmpop_eval]; rewrite ?u_ltb_lt, ?u_leb_le, Hsv, uval_div; subst inc; simpl in Hu; lia.
Qed.

(** *** Signed additions *)
Lemma modulus_signed_max : word_modulus = 2 * uval signed_max + 2.
Proof. reflexivity. Qed.
Lemma range_at_most_sound e b v : range_at_most c e b = true -> den e = Some v -> uval v <= uval b.
Proof.
  unfold range_at_most. destruct (interval e) as [i|] eqn:E; [|done]. intros H%u_leb_le Hv.
  destruct (interval_sound model c c_ok _ _ _ E Hv). lia.
Qed.

Lemma signed_split v : (uval v <= uval signed_max /\ signed v = uval v) \/ (uval signed_max < uval v /\ signed v = uval v - word_modulus).
Proof.
  assert (H : 2 ^ 255 = uval signed_max + 1) by reflexivity. unfold signed. rewrite H. destruct (Z.ltb_spec (uval v) (uval signed_max + 1)); [left|right]; lia.
Qed.
#[local] Opaque signed_max.

(** The sum of two words, by cases on the wrap. *)
Lemma add_split a b : (uval a + uval b < word_modulus /\ uval (wrapping_add a b) = uval a + uval b) \/
  (word_modulus <= uval a + uval b /\ uval (wrapping_add a b) = uval a + uval b - word_modulus).
Proof.
  pose proof (uval_range a). pose proof (uval_range b). unfold wrapping_add. destruct (Z.lt_ge_cases (uval a + uval b) word_modulus); [left|right]; (split; [lia|]).
  - apply uval_U_small. lia.
  - rewrite uval_U. symmetry. apply Z.mod_unique with 1; lia.
Qed.

(** A sum of words of different signs does not wrap in signed order. *)
Lemma signed_mixed_sum a b : uval signed_max < uval a -> uval b <= uval signed_max -> signed (wrapping_add a b) = signed a + signed b.
Proof.
  intros Ha Hb. pose proof modulus_signed_max as Hm. pose proof (uval_range a) as Ra. pose proof (uval_range b) as Rb.
  destruct (signed_split a) as [[? Sa]|[? Sa]]; [lia|]. destruct (signed_split b) as [[? Sb]|[? Sb]]; [|lia]. rewrite Sa, Sb.
  destruct (add_split a b) as [[? E]|[? E]], (signed_split (wrapping_add a b)) as [[? Ss]|[? Ss]]; rewrite Ss, E in *; lia.
Qed.

(** The comparison of a sum with a summand, or with zero, in signed order. *)
Definition sum_below (sum base : SymExpr) (v : bool) : Prop :=
  exists s b, den sum = Some s /\ den base = Some b /\ v = (signed s <? signed b).

Lemma add_operand_den sum base x i s : add_with_operand sum base = Some (x, i) -> den sum = Some s ->
  exists b iv, den base = Some b /\ den i = Some iv /\ s = wrapping_add b iv.
Proof.
  destruct sum as [| | | | | |[] l r| |]; try done. cbn [add_with_operand]. intros Ha (lv & rv & Hl & Hr & ->)%den_binop_inv.
  destruct (expr_eqb_spec l base) as [->|]; [simplify_eq; eauto 6|]. destruct (expr_eqb_spec r base) as [->|]; [|done]. simplify_eq.
  exists rv, lv. split; [done|]. split; [done|]. apply (commutes_Add).
Qed.

Lemma signed_decided_sound sum base v t : signed_add_decided c sum base = Some (Some v) -> sum_below sum base t -> t = v.
Proof.
  unfold signed_add_decided. intros Hd (s & b & Hs & Hb & ->). destruct (add_with_operand sum base) as [[x i]|] eqn:Ea; [|by case_match].
  destruct (add_operand_den _ _ _ _ _ Ea Hs) as (b' & iv & Hb' & Hi & ->). simplify_eq.
  destruct (interval base) as [bi|] eqn:Ebi; [|done]. destruct (interval i) as [ii|] eqn:Eii; [|done].
  destruct (interval_sound model c c_ok _ _ _ Ebi Hb), (interval_sound model c c_ok _ _ _ Eii Hi). clear Ebi Eii Ea.
  case_match eqn:E1; [|case_match eqn:E2; [|done]]; apply (inj Some) in Hd; apply (inj Some) in Hd as <-.
  - apply andb_prop in E1 as [HA%u_ltb_lt HB%u_leb_le]. rewrite signed_mixed_sum by lia. apply Z.ltb_ge.
    destruct (signed_split iv) as [[? ->]|[? ->]]; pose proof (uval_range iv); lia.
  - apply andb_prop in E2 as [HA%u_leb_le HB%u_ltb_lt]. pose proof (commutes_Add b iv) as Hc. cbn [binop_eval] in Hc. rewrite Hc.
    rewrite signed_mixed_sum by lia. apply Z.ltb_lt. destruct (signed_split iv) as [[? ->]|[? ->]]; pose proof (uval_range iv); lia.
Qed.

(** A sum of words below [2^255] is negative exactly when it exceeds it. *)
Lemma signed_small_sum a b : uval a <= uval signed_max -> uval b <= uval signed_max ->
  signed (wrapping_add a b) = (if uval signed_max <? uval a + uval b then uval a + uval b - word_modulus else uval a + uval b).
Proof.
  intros Ha Hb. pose proof modulus_signed_max as Hm. pose proof (uval_range a) as Ra. pose proof (uval_range b) as Rb.
  destruct (add_split a b) as [[? E]|[? E]]; [|lia]. destruct (signed_split (wrapping_add a b)) as [[? Ss]|[? Ss]]; rewrite Ss, E in *;
    destruct (Z.ltb_spec (uval signed_max) (uval a + uval b)); lia.
Qed.

Lemma signed_zero : signed ZERO = 0.
Proof. reflexivity. Qed.

(** In the remaining shapes the base is a summand below [2^255], or zero. *)
Lemma signed_overflow_sound sum base b t : signed_add_overflow c sum = Some b ->
  signed_add_decided c sum base = Some None -> sum_below sum base t -> denb b = Some t.
Proof.
  unfold signed_add_overflow. destruct sum as [| | | | | |[] x y| |]; try done.
  destruct (range_at_most c y signed_max && range_at_most c x signed_max) eqn:Eg; [|done]. apply andb_prop in Eg as [Hy Hx].
  intros <-%(inj Some) Hd (s & bv & Hs & Hb & ->). apply den_binop_inv in Hs as (xv & yv & Hxv & Hyv & ->).
  pose proof (range_at_most_sound _ _ _ Hx Hxv). pose proof (range_at_most_sound _ _ _ Hy Hyv).
  pose proof (uval_range xv). pose proof (uval_range yv).
  assert (Hbase : 0 <= signed bv <= uval xv + uval yv).
  { unfold signed_add_decided in Hd. destruct (add_with_operand (EBinOp Add x y) base) as [[p q]|] eqn:Ea.
    - clear Hd. simpl in Ea. assert (Hin : bv = xv \/ bv = yv)
        by (destruct (expr_eqb_spec x base) as [->|]; [|destruct (expr_eqb_spec y base) as [->|]; [|done]]; naive_solver congruence).
      destruct (signed_split bv) as [[? ->]|[? ->]]; destruct Hin as [-> | ->]; lia.
    - destruct (const_is base (u_eqb ZERO)) eqn:Ez; [|done]. rewrite (const_eq_val _ _ _ _ Ez Hb), signed_zero. lia. }
  pose proof modulus_signed_max. erewrite (den_order Ult); [|done|apply (den_binop model Sub); [apply den_constant|done]|done]. f_equal. cbn [cmpop_eval binop_eval].
  rewrite signed_small_sum by done. unfold u_ltb. rewrite uval_sub_le by lia.
  destruct (Z.ltb_spec (uval signed_max) (uval xv + uval yv)); apply eq_iff_eq_true; rewrite !Z.ltb_lt; lia.
Qed.

Lemma signed_negated_sound sum base b t : signed_negated_summand c sum base = Some b -> sum_below sum base t -> denb b = Some t.
Proof.
  unfold signed_negated_summand. destruct (const_is base (u_eqb ZERO)) eqn:Ez; [|done]. destruct sum as [| | | | | |[] x y| |]; try done.
  intros Hside (s & bv & Hs & Hb & ->). rewrite (const_eq_val _ _ _ _ Ez Hb), signed_zero. clear bv Hb Ez.
  apply den_binop_inv in Hs as (xv & yv & Hx & Hy & ->). cbn [binop_eval].
  assert (Hcase : forall p n pv nv, den p = Some pv -> den n = Some nv ->
      match n with
      | EBinOp Sub z amount =>
          if const_is z (u_eqb ZERO) && range_at_most c p signed_max && range_at_most c amount signed_max then Some (cmp Ult p amount) else None
      | _ => None
      end = Some b -> denb b = Some (signed (wrapping_add pv nv) <? 0)).
  { intros p n pv nv Hp Hn. destruct n as [| | | | | |[] z a| |]; try done.
    destruct (const_is z (u_eqb ZERO) && range_at_most c p signed_max && range_at_most c a signed_max) eqn:Eg; [|done]. intros <-%(inj Some).
    apply andb_prop in Eg as [Eg Ha]. apply andb_prop in Eg as [Hz Hpr]. apply den_binop_inv in Hn as (zv & av & Hzv & Hav & ->).
    rewrite (const_eq_val _ _ _ _ Hz Hzv). rewrite (den_order Ult _ _ _ _ ltac:(done) Hp Hav). f_equal. cbn [cmpop_eval binop_eval].
    pose proof (range_at_most_sound _ _ _ Ha Hav) as Ra. pose proof (range_at_most_sound _ _ _ Hpr Hp) as Rp.
    pose proof (uval_range pv). pose proof (uval_range av). pose proof modulus_signed_max as Hm. unfold u_ltb.
    destruct (Z.eq_dec (uval av) 0) as [Ea|Ea].
    - assert (Hs0 : uval (wrapping_sub ZERO av) = 0) by (rewrite uval_sub_le; rewrite uval_ZERO; lia).
      rewrite signed_small_sum, Hs0, Ea by lia. apply eq_iff_eq_true. rewrite !Z.ltb_lt.
      destruct (Z.ltb_spec (uval signed_max) (uval pv + 0)); lia.
    - assert (Hs0 : uval (wrapping_sub ZERO av) = word_modulus - uval av) by (rewrite uval_sub_lt; rewrite uval_ZERO; lia).
      pose proof (commutes_Add pv (wrapping_sub ZERO av)) as Hc. cbn [binop_eval] in Hc. rewrite Hc. rewrite signed_mixed_sum by lia.
      destruct (signed_split pv) as [[? Sp]|[? Sp]]; [|lia]. destruct (signed_split (wrapping_sub ZERO av)) as [[? Sa]|[? Sa]]; [lia|].
      rewrite Sp, Sa, Hs0. apply eq_iff_eq_true. rewrite !Z.ltb_lt. lia. }
  unfold first_some in Hside. destruct (match y with EBinOp Sub _ _ => _ | _ => _ end) as [b'|] eqn:E1.
  - simplify_eq. by eapply Hcase.
  - pose proof (commutes_Add xv yv) as Hc. cbn [binop_eval] in Hc. rewrite Hc. by eapply Hcase.
Qed.

Lemma signed_comparison_sound b b' : normalize_signed_add_comparison c b = Some b' -> brefines model b b'.
Proof.
  intros H v Hv. destruct b as [| | |op l r]; try done. apply den_cmp_inv in Hv as (x & y & Hx & Hy & ->).
  unfold normalize_signed_add_comparison in H.
  assert (Hsides : exists sum base, match op with Slt => Some (l, r) | Sgt => Some (r, l) | _ => None end = Some (sum, base) /\
     sum_below sum base (cmpop_eval op x y)).
  { destruct op; try done; eexists _, _; (split; [done|]); eexists _, _; (split; [done|]); (split; [done|]); apply eq_iff_eq_true; rewrite Z.ltb_lt.
    - apply slt_spec. - apply sgt_spec. }
  destruct Hsides as (sum & base & Heq & Hb). rewrite Heq in H. destruct (signed_add_decided c sum base) as [[d|]|] eqn:Ed; [| |done].
  - apply (inj Some) in H as <-. rewrite (signed_decided_sound _ _ _ _ Ed Hb). done.
  - unfold first_some in H. destruct (signed_negated_summand c sum base) as [n|] eqn:En.
    + simplify_eq. by eapply signed_negated_sound.
    + by eapply signed_overflow_sound.
Qed.
End Ctx.

(** *** Facts from retained guards *)
Lemma word_fact_sound b f : bitwise_bool_word_fact b = Some f -> denb b = Some true -> denb f = Some true.
Proof.
  assert (Hb2u : forall b : bool, u_eqb (b2u b) ZERO = negb b) by by intros [].
  destruct b as [|[| | |[] l r]| |[] l r]; try done; cbn [bitwise_bool_word_fact]; (destruct (const_is r is_zero) eqn:Ez; [|done]).
  - intros Hf Hb. destruct (den_not_cmp_some _ _ _ _ _ Hb) as [[x Hx] [y Hy]]. pose proof (den_cmp_false _ _ _ _ _ _ Hb Hx Hy) as Hne.
    destruct (bitwise_sound model _ _ _ Hf Hx) as (t & -> & ->). cbn [cmpop_eval] in Hne.
    pose proof (const_zero_den model _ Ez) as Hz. simplify_eq. rewrite Hb2u in Hne. by apply negb_false_iff in Hne as ->.
  - destruct (bitwise_bool_word_condition l) as [cnd|] eqn:Ec; [|done]. intros [= <-] (x & y & Hx & Hy & Heq)%den_cmp_inv.
    destruct (bitwise_sound model _ _ _ Ec Hx) as (t & Ht & ->). rewrite den_not_bool, Ht. simpl. f_equal. cbn [cmpop_eval] in Heq.
    pose proof (const_zero_den model _ Ez) as Hz. simplify_eq. by rewrite Hb2u in Heq.
Qed.

Lemma record_factor_ok c l r :
  ctx_ok model c -> fits model l r -> is_Some (den r) \/ den l = Some ZERO -> ctx_ok model (snd (record_factor_bound l r c)).
Proof.
  intros Hc Hf Hor. unfold record_factor_bound. destruct (interval c r) as [i|] eqn:Ei; [|done]. destruct (is_zero (wi_min i)) eqn:Ez; [done|].
  apply record_upper_ok; [done|]. intros v Hv. unfold below. destruct Hor as [[rv Hr]|Hz].
  2: { simplify_eq. rewrite uval_ZERO. apply uval_range. }
  rewrite uval_div. specialize (Hf _ _ Hv Hr).
  destruct (interval_sound model c Hc _ _ _ Ei Hr) as [Hlo _]. unfold is_zero in Ez. apply Z.eqb_neq in Ez.
  pose proof (uval_range v). pose proof (uval_range (wi_min i)). apply Z.div_le_lower_bound; [lia|].
  change (uval MAX) with (word_modulus - 1). nia.
Qed.

Lemma fits_sym l r : fits model l r -> fits model r l.
Proof. intros H a b Ha Hb. rewrite Z.mul_comm. by apply H. Qed.

Lemma product_guard_fits c b l r : ctx_ok model c -> product_guard_factors c b = Some (l, r) -> denb b = Some true -> guarded_fits l r.
Proof.
  intros Hc H Hb. unfold product_guard_factors in H. destruct (checked_product_factors c b None) as [[l' r']|] eqn:E.
  { simplify_eq. eapply checked_product_fits; eauto. }
  destruct b as [|[| |[|x [|y []]]|]| |]; try done. cbv zeta in H.
  assert (Hor : denb (SBool.not_bool x) = Some true \/ denb (SBool.not_bool y) = Some true).
  { rewrite !den_not_bool. simpl in Hb. destruct (denb x) as [[]|]; [|by left|done]. destruct (denb y) as [[]|]; simpl in Hb; [done|by right|done]. }
  unfold first_some in H. destruct (checked_product_factors c (SBool.not_bool y) _) as [[l' r']|] eqn:E2; simplify_eq.
  all: eapply checked_product_fits; [done..|]; destruct Hor; eauto.
Qed.

Lemma record_product_ok b c : denb b = Some true -> ctx_ok model c -> ctx_ok model (snd (record_non_wrapping_product b c)).
Proof.
  intros Hb Hc. unfold record_non_wrapping_product.
  assert (Hf : denb (default b (bitwise_bool_word_fact b)) = Some true).
  { destruct (bitwise_bool_word_fact b) as [f|] eqn:E; [|done]. by eapply word_fact_sound. }
  destruct (product_guard_factors c _) as [[l r]|] eqn:E; [|done]. destruct (product_guard_fits _ _ _ _ Hc E Hf) as (Hfits & Hl & Hr).
  pose proof (record_factor_ok c l r Hc Hfits Hr) as H1. destruct (record_factor_bound l r c) as [ch1 c1]. simpl in H1.
  pose proof (record_factor_ok c1 r l H1 (fits_sym _ _ Hfits) (or_introl Hl)) as H2. destruct (record_factor_bound r l c1) as [ch2 c2]. simpl in H2.
  apply set_products_ok; [done|]. pose proof (ok_products model c2 H2). case_match; [by constructor|done].
Qed.

Lemma record_scaled_ok b c : denb b = Some true -> ctx_ok model c -> ctx_ok model (record_scaled_zero_fact b c).
Proof.
  intros Hb Hc. unfold record_scaled_zero_fact.
  assert (Hsplit : exists cond nz, match b with BNot inner => (inner, true) | _ => (b, false) end = (cond, nz) /\ denb cond = Some (negb nz)).
  { destruct b as [|b'| |]; eexists _, _; (split; [done|]); try done. simpl in Hb. destruct (denb b') as [[]|]; try done. }
  destruct Hsplit as (cond & nz & -> & Hcond). destruct cond as [| | |[] l r]; try done.
  destruct (bounded_zero_check_operand c (BCmp Ult l r)) as [x|] eqn:E; [|done].
  destruct (bounded_zero_check_sound c Hc _ _ _ E Hcond) as (v & Hv & Hz). destruct nz; simpl in Hz; symmetry in Hz.
  - apply record_lower_ok; [done|]. intros w Hw. rewrite Hv in Hw. injection Hw as <-. unfold above. rewrite uval_ONE. unfold is_zero in Hz. apply Z.eqb_neq in Hz.
    pose proof (uval_range v). lia.
  - apply is_zero_true in Hz as ->. apply record_exact_ok.
    + apply record_upper_ok; [done|]. intros w Hw. simplify_eq. unfold below. lia.
    + apply (cmp_refines_order model Eq x zero); [intros _; apply orb_true_r|]. apply (den_cmp_intro model Eq x zero ZERO ZERO Hv). apply den_constant.
Qed.

Lemma for_rewrite_ok cs i : Forall (fun b => denb b = Some true) (others cs i) -> ctx_ok model (for_rewrite cs i).
Proof.
  intros H. unfold for_rewrite. set (supporting := others cs i) in *.
  assert (H1 : ctx_ok model (SCtx.rounds record_non_wrapping_product supporting MAX_CONTEXTUAL_PASSES
                               (SCtx.from_constraints supporting (length cs - 1)))).
  { apply rounds_ok; [|by apply from_constraints_ok]. intros b c Hin. apply record_product_ok. by apply (proj1 (list.Forall_forall _ _) H). }
  revert H1. generalize (SCtx.rounds record_non_wrapping_product supporting MAX_CONTEXTUAL_PASSES (SCtx.from_constraints supporting (length cs - 1))).
  induction H as [|b bs Hb _ IH]; intros c Hc; [done|]. simpl. apply IH. by apply record_scaled_ok.
Qed.

End FactsSound.

(** ** Rewrites bring in no other hash *)
Section FactsHashes.
Context `{SA : SignedArith, HF : HashFns}.
Variable h : SymExpr -> Prop.
Variable c : ConstraintContext.
Abbreviation P := (word_hashes h).
Abbreviation Q := (bool_hashes h).
Import SBoundsOf SFacts.

Lemma constant_mul_hashes e x k : constant_mul_operands e = Some (x, k) -> P e -> P x.
Proof.
  destruct e as [| | | | | |[] l r| |]; try done. simpl. intros [[-> _]|[-> _]]%const_side_den [Hl Hr]; done.
Qed.
Lemma mul_div_hashes q d o : mul_div_operands q = Some (d, o) -> P q -> P d /\ P o.
Proof. intros [-> | ->]%mul_div_shape ((H1 & H2) & H3); done. Qed.
Lemma udiv_comparison_hashes op l r b : normalize_udiv_comparison c op l r = Some b -> P l -> P r -> Q b.
Proof.
  unfold normalize_udiv_comparison. destruct (udiv_comparison_operands op l r) as [[[[n d] t] lft]|] eqn:E; [|done]. cbv zeta. intros Hb Hl Hr.
  destruct (udiv_comparison_shape _ _ _ _ _ _ _ E) as (_ & _ & Hsides).
  assert (Hp : P n /\ P d /\ P t) by (destruct lft; destruct Hsides as [-> ->]; simpl in *; naive_solver). destruct Hp as (Hn & Hd & Ht).
  destruct (if match op, lft with Ule, true | Ult, false => true | _, _ => false end then _ else Some t) as [t'|] eqn:Et; [|done].
  assert (Ht' : P t').
  { assert (H1 : P (binop Add t one)) by (apply P_binop; [done|apply P_one]).
    destruct (match op, lft with Ule, true | Ult, false => true | _, _ => false end); [|naive_solver].
    destruct (interval c t) as [i|]; [|done]. destruct (u_checked_add _ _); [|done]. by apply (inj Some) in Et as <-. }
  destruct (mul_cannot_overflow_256 c t' d); [|done]. simpl in Hb. apply (inj Some) in Hb as <-. pose proof (P_binop h Mul t' d Ht' Hd). destruct lft; by apply Q_cmp.
Qed.
Lemma signed_comparison_hashes b b' : normalize_signed_add_comparison c b = Some b' -> Q b -> Q b'.
Proof.
  destruct b as [| | |op l r]; try done. intros H [Hl Hr]. unfold normalize_signed_add_comparison in H.
  destruct (match op with Slt => _ | Sgt => _ | _ => None end) as [[sum base]|] eqn:Eo; [|done].
  assert (Hp : P sum /\ P base) by (destruct op; simplify_eq; done). destruct Hp as [Hs Hb]. clear Eo Hl Hr l r op.
  destruct (signed_add_decided c sum base) as [[d|]|]; [by apply (inj Some) in H as <-| |done].
  unfold first_some in H. destruct (signed_negated_summand c sum base) as [n|] eqn:En.
  - apply (inj Some) in H as <-. revert En. unfold signed_negated_summand. destruct (const_is base _); [|done].
    destruct sum as [| | | | | |[] x y| |]; try done. destruct Hs as [Hx Hy]. unfold first_some.
    assert (Hcase : forall p q m, P p -> P q -> match q with
      | EBinOp Sub z amount => if const_is z (u_eqb ZERO) && range_at_most c p signed_max && range_at_most c amount signed_max then Some (cmp Ult p amount) else None
      | _ => None end = Some m -> Q m).
    { intros p q m Hp Hq. destruct q as [| | | | | |[] z a| |]; try done. destruct Hq as [_ Ha].
      destruct (const_is z _ && _ && _); [|done]. intros <-%(inj Some). by apply Q_cmp. }
    destruct (match y with EBinOp Sub _ _ => _ | _ => _ end) as [m|] eqn:E1; [intros <-%(inj Some); by apply (Hcase x y m)|by apply (Hcase y x n)].
  - unfold signed_add_overflow in H. destruct sum as [| | | | | |[] x y| |]; try done. destruct Hs as [Hx Hy].
    destruct (range_at_most c y _ && _); [|done]. apply (inj Some) in H as <-. apply Q_cmp; [|done]. apply P_binop; [apply P_constant|done].
Qed.
End FactsHashes.
