(* ===== verification/SymNorm.v ===== *)
(** * SymNorm: normalisation of constraints for the solver

    Models runtime/solver/normalize/mod.rs: the context-free normalisation of
    one condition ([normalize_bool_for_solver], [normalize_expr_for_solver] and
    the division, overflow and truthiness rewrites they use), the contextual
    rewrites of [ConstraintContext::normalize_bool]/[normalize_word], and the
    normalisation of a conjunction ([normalize_constraints_for_solver_cached],
    [normalize_contextually], [normalize_bounded_comparisons]) with its ordering
    and the direct contradiction check.

    [normalize_bool_for_solver] and [normalize_expr_for_solver] call each other
    through the conditions of conditional words.  Section [Open] takes the
    former as a variable, and [normalize_bool_fuel] ties the knot. *)

From Stdlib Require Import ZArith Lia Bool String.
From stdpp Require Import base list option sets strings pretty.
From S2P Require Import Prelude SymWord SymExpr SymSimpl SymSound SymCmp SymContext SymVisit SymPoly SymHashes SymFacts.
Local Open Scope Z_scope.

(** [U256::root(2)]. *)
Definition u_sqrt (a : U256) : U256 := U (Z.sqrt (uval a)).

Module SNorm.
Import SFacts.

Section Open.
Context `{SA : SignedArith, HF : HashFns, PP : PolyParts}.
Variable normalize_bool_for_solver : SymBoolExpr -> SymBoolExpr.

Definition normalized_bool_word_condition (e : SymExpr) : option SymBoolExpr :=
  option_map normalize_bool_for_solver (bool_word_condition (strip_low_byte_mask e)).

Definition condition_is (o : option SymBoolExpr) (c : SymBoolExpr) : bool :=
  match o with Some c' => bexpr_eqb c' c | None => false end.

(** *** Words *)
Definition normalize_ite_expr_for_solver (cond : SymBoolExpr) (l r : SymExpr) : SymExpr :=
  let cond := normalize_bool_for_solver cond in
  if expr_eqb l r then l
  else if const_is l (u_eqb ONE) && condition_is (normalized_bool_word_condition r) cond then r
  else if const_is r is_zero && condition_is (normalized_bool_word_condition l) cond then l
  else ite cond l r.

Definition normalize_expr_node_for_solver (e : SymExpr) : SymExpr :=
  match e with
  | EIte cond l r => normalize_ite_expr_for_solver cond l r
  | _ => e
  end.

Definition normalize_expr_for_solver (e : SymExpr) : SymExpr :=
  if contains_ite e then fold_shared normalize_expr_node_for_solver e else e.

(** [ConstraintContext::word_bool_always_true]. *)
Definition word_bool_always_true (c : ConstraintContext) (e : SymExpr) : bool :=
  let terms := or_terms e in
  if (length terms <=? 1)%nat then false
  else
    let bool_terms := omap normalized_bool_word_condition terms in
    existsb (fun term => existsb (bexpr_eqb (SBool.not_bool term)) bool_terms) bool_terms ||
    existsb (fun zero_term => existsb (fun term => checked_mul_guard_for_zero_condition c term zero_term) bool_terms) bool_terms.

(** *** Tests against zero *)
Definition eq_zero (e : SymExpr) : SymBoolExpr := sym_eq e zero.

Definition udiv_zero_condition (numerator denominator : SymExpr) : SymBoolExpr :=
  let numerator := normalize_expr_for_solver numerator in
  let denominator := normalize_expr_for_solver denominator in
  SBool.or [sym_eq denominator zero; cmp Ult numerator denominator].
Definition udiv_nonzero_condition (numerator denominator : SymExpr) : SymBoolExpr :=
  let numerator := normalize_expr_for_solver numerator in
  let denominator := normalize_expr_for_solver denominator in
  SBool.and [SBool.not_bool (sym_eq denominator zero); cmp Uge numerator denominator].

(** A conditional word, from the tests of its branches. *)
Definition select_condition (condition then_test else_test : SymBoolExpr) : option SymBoolExpr :=
  if contains_udiv_bool then_test || contains_udiv_bool else_test then None
  else
    let condition := normalize_bool_for_solver condition in
    Some (SBool.or [SBool.and [condition; then_test]; SBool.and [SBool.not_bool condition; else_test]]).

Fixpoint normalize_eq_zero_for_solver (e : SymExpr) : option SymBoolExpr :=
  match udiv_operands e with
  | Some (numerator, denominator) => Some (udiv_zero_condition numerator denominator)
  | None =>
      match e with
      | EIte condition t f =>
          let then_zero := default (sym_eq (normalize_expr_for_solver t) zero) (normalize_eq_zero_for_solver t) in
          let else_zero := default (sym_eq (normalize_expr_for_solver f) zero) (normalize_eq_zero_for_solver f) in
          select_condition condition then_zero else_zero
      | _ => None
      end
  end.

Fixpoint normalize_ne_zero_for_solver (e : SymExpr) : option SymBoolExpr :=
  match udiv_operands e with
  | Some (numerator, denominator) => Some (udiv_nonzero_condition numerator denominator)
  | None =>
      match e with
      | EIte condition t f =>
          let then_nonzero := default (SBool.not_bool (sym_eq (normalize_expr_for_solver t) zero)) (normalize_ne_zero_for_solver t) in
          let else_nonzero := default (SBool.not_bool (sym_eq (normalize_expr_for_solver f) zero)) (normalize_ne_zero_for_solver f) in
          select_condition condition then_nonzero else_nonzero
      | _ => None
      end
  end.

Definition normalize_udiv_eq_zero (l r : SymExpr) : option SymBoolExpr :=
  if const_is r is_zero then normalize_eq_zero_for_solver l else None.

(** *** Overflow checks *)
Definition normalize_sub_underflow_cmp (op : SymCmpOp) (l r : SymExpr) : option SymBoolExpr :=
  match (match op with
         | Ult => Some (l, r, true)
         | Ugt => Some (r, l, true)
         | Ule => Some (r, l, false)
         | Uge => Some (l, r, false)
         | _ => None
         end) with
  | Some (base, EBinOp Sub minuend subtrahend, underflow) =>
      if expr_eqb minuend base
      then Some (if underflow then cmp Ult base subtrahend else cmp Ule subtrahend base)
      else None
  | _ => None
  end.

(** Base, increment, and whether the comparison tests for overflow. *)
Definition add_overflow_parts (op : SymCmpOp) (l r : SymExpr) : option (SymExpr * SymExpr * bool) :=
  match op with
  | Ugt => option_map (fun '(_, increment) => (l, increment, true)) (add_with_operand r l)
  | Ult => option_map (fun '(_, increment) => (r, increment, true)) (add_with_operand l r)
  | Uge => option_map (fun '(_, increment) => (r, increment, false)) (add_with_operand l r)
  | Ule => option_map (fun '(_, increment) => (l, increment, false)) (add_with_operand r l)
  | Eq | Slt | Sgt => None
  end.
Definition complement (base : SymExpr) : SymExpr :=
  match base with
  | EBinOp Sub max value => if const_is max (u_eqb MAX) then value else sym_not base
  | _ => sym_not base
  end.
Definition normalize_add_overflow_cmp (op : SymCmpOp) (l r : SymExpr) : option SymBoolExpr :=
  match normalize_sub_underflow_cmp op l r with
  | Some normalized => Some normalized
  | None =>
      match add_overflow_parts op l r with
      | Some (base, increment, overflow) =>
          if sat_add (Z.max (unsigned_bits base) (unsigned_bits increment)) 1 <=? 256 then Some (SBool.constant (negb overflow))
          else Some (if overflow then cmp Ult (complement base) increment else cmp Ule increment (complement base))
      | None => None
      end
  end.

(** *** Comparisons of a word with 0 or 1 *)
Definition test_ne_zero (e : SymExpr) : option SymBoolExpr :=
  Some (default (SBool.not_bool (eq_zero e)) (normalize_ne_zero_for_solver e)).
Definition test_eq_zero (e : SymExpr) : option SymBoolExpr :=
  Some (default (eq_zero e) (normalize_eq_zero_for_solver e)).
Definition is_one : SymExpr -> bool := fun e => const_is e (u_eqb ONE).
Definition normalize_udiv_cmp (op : SymCmpOp) (l r : SymExpr) : option SymBoolExpr :=
  match op with
  | Ugt => if const_is r is_zero then test_ne_zero l else if is_one l then test_eq_zero r else None
  | Uge => if is_one r then test_ne_zero l else if const_is l is_zero then test_eq_zero r else None
  | Ule => if const_is r is_zero then test_eq_zero l else if is_one l then test_ne_zero r else None
  | Ult => if is_one r then test_eq_zero l else if const_is l is_zero then test_ne_zero r else None
  | Eq | Slt | Sgt => None
  end.

(** [a <= c / a], where the quotient may be guarded against zero. *)
Definition guarded_udiv_operands (quotient : SymExpr) : option (SymExpr * SymExpr) :=
  match quotient with
  | EBinOp UDiv numerator denominator => Some (numerator, denominator)
  | EIte condition z division =>
      if const_is z is_zero then
        match udiv_operands division with
        | Some (numerator, denominator) =>
            match SBool.zero_check_operand condition with
            | Some e => if expr_eqb e denominator then Some (numerator, denominator) else None
            | None => None
            end
        | None => None
        end
      else None
  | _ => None
  end.
Definition normalize_const_over_self_udiv_cmp (op : SymCmpOp) (l r : SymExpr) : option SymBoolExpr :=
  match (match op with Ule => Some (l, r, false) | Ult => Some (r, l, true) | _ => None end) with
  | Some (value, quotient, complement) =>
      match guarded_udiv_operands quotient with
      | Some (numerator, denominator) =>
          if expr_eqb denominator value then
            match as_const numerator with
            | Some k =>
                let threshold := constant (u_sqrt k) in
                Some (if complement then cmp Ult threshold value else cmp Ule value threshold)
            | None => None
            end
          else None
      | None => None
      end
  | None => None
  end.

(** *** Conditions *)
Definition normalize_udiv_for_solver (b : SymBoolExpr) : option SymBoolExpr :=
  let const_over_self :=
    match b with
    | BCmp op l r => normalize_const_over_self_udiv_cmp op l r
    | BNot (BCmp op l r) => option_map SBool.not_bool (normalize_const_over_self_udiv_cmp op l r)
    | _ => None
    end in
  match const_over_self with
  | Some normalized => Some normalized
  | None =>
      match b with
      | BCmp Eq l r =>
          if const_is r is_zero then
            match normalized_bool_word_condition l with
            | Some value => Some (SBool.not_bool value)
            | None =>
                if word_bool_always_true SCtx.empty l then Some (SBool.constant false) else normalize_udiv_eq_zero l zero
            end
          else if is_one r then normalized_bool_word_condition l
          else normalize_udiv_eq_zero l r
      | BNot (BCmp Eq l r) =>
          if const_is r is_zero then
            if word_bool_always_true SCtx.empty l then Some (SBool.constant true)
            else option_map SBool.not_bool (normalize_udiv_eq_zero l zero)
          else option_map SBool.not_bool (normalize_udiv_eq_zero l r)
      | BNot (BCmp op l r) =>
          option_map SBool.not_bool (first_some (normalize_add_overflow_cmp op l r) (normalize_udiv_cmp op l r))
      | BCmp op l r => first_some (normalize_add_overflow_cmp op l r) (normalize_udiv_cmp op l r)
      | _ => None
      end
  end.

(** [(x * k) / k == x] for a constant [k > 0] is [x <= MAX / k]. *)
Definition mul_div_bound (quotient expected : SymExpr) : option SymBoolExpr :=
  match mul_div_identity_operands quotient expected with
  | Some (denominator, value) =>
      match as_const denominator with
      | Some factor => if is_zero factor then None else Some (cmp_word_const Ule value (u_div MAX factor))
      | None => None
      end
  | None => None
  end.
Definition sub_eq_zero (difference z : SymExpr) : option SymBoolExpr :=
  if const_is z is_zero then
    match difference with EBinOp Sub minuend subtrahend => Some (sym_eq minuend subtrahend) | _ => None end
  else None.
(** A complement against a constant moves to the constant. *)
Definition move_complement (op : SymCmpOp) (l r : SymExpr) : SymExpr * SymExpr :=
  match op with
  | Ult | Ule | Ugt | Uge =>
      match l, r with
      | ENot value, EConst limit => (constant (u_not limit), value)
      | EConst limit, ENot value => (value, constant (u_not limit))
      | _, _ => (l, r)
      end
  | _ => (l, r)
  end.
Definition normalize_cmp_for_solver (op : SymCmpOp) (l r : SymExpr) : SymBoolExpr :=
  let rewritten :=
    match op with
    | Eq => first_some (first_some (mul_div_bound l r) (mul_div_bound r l)) (first_some (sub_eq_zero l r) (sub_eq_zero r l))
    | _ => None
    end in
  match rewritten with
  | Some b => b
  | None =>
      let '(l, r) := move_complement op l r in
      match op with
      | Ugt => cmp Ult r l
      | Uge => cmp Ule r l
      | Sgt => cmp Slt r l
      | Eq | Ult | Ule | Slt => cmp op l r
      end
  end.

Definition normalize_bool_node_for_solver (b : SymBoolExpr) : SymBoolExpr :=
  match normalize_udiv_for_solver b with
  | Some normalized => normalized
  | None =>
      match b with
      | BNot (BCmp Ult (ENot value as l) r) => normalize_cmp_for_solver Ule r l
      | BCmp op l r =>
          let l := normalize_expr_for_solver l in
          let r := normalize_expr_for_solver r in
          if match op with Eq => SPoly.polynomial_identity l r | _ => false end then SBool.constant true
          else
            let normalized := normalize_cmp_for_solver op l r in
            default normalized (normalize_udiv_for_solver normalized)
      | _ => b
      end
  end.
End Open.

(** *** The knot *)
Section Closed.
Context `{SA : SignedArith, HF : HashFns, PP : PolyParts}.

(** [fuel] bounds the nesting of conditions inside conditional words. *)
Fixpoint normalize_bool_fuel (fuel : nat) (b : SymBoolExpr) : SymBoolExpr :=
  match fuel with
  | O => b
  | S fuel => fold_bool_shared (normalize_bool_node_for_solver (normalize_bool_fuel fuel)) b
  end.

Variable fuel : nat.
Definition normalize_bool_for_solver : SymBoolExpr -> SymBoolExpr := normalize_bool_fuel fuel.
Abbreviation bool_word_of := (normalized_bool_word_condition normalize_bool_for_solver).

(** *** Rewrites under the facts of a context *)
Section Context.
Variable c : ConstraintContext.

Definition may_normalize_word (e : SymExpr) : bool :=
  if is_some (SCtx.get e (exact_values c)) || is_some (mul_div_operands e) || is_some (ceil_div_product e) then true
  else match e with
  | EIte _ _ _ => true
  | EBinOp Or l r => is_one l || is_one r
  | EBinOp Mul _ _ =>
      match SBoundsOf.constant_mul_operands e with
      | Some (value, _) => is_some (SBoundsOf.constant_mul_operands value)
      | None => false
      end
  | EBinOp UDiv numerator denominator =>
      is_some (SBoundsOf.rounded_product_operands numerator) ||
      (const_nonzero denominator && is_some (SBoundsOf.constant_mul_operands numerator))
  | _ => false
  end.

(** The rewrites of [normalize_word], in their order; each [None] passes on. *)
Definition exact_word (e : SymExpr) : option SymExpr := option_map constant (SCtx.get e (exact_values c)).
Definition select_word (e : SymExpr) : option SymExpr :=
  match e with
  | EIte condition t f =>
      match bounded_bool_value c condition with
      | Some value => Some (if value then t else f)
      | None => option_map (fun condition => ite condition t f) (normalize_signed_add_comparison c condition)
      end
  | _ => None
  end.
Definition masked_bool_word (e : SymExpr) : option SymExpr :=
  match e with
  | EBinOp And value mask => if is_one mask && is_some (bool_word_of value) then Some value else None
  | _ => None
  end.
Definition or_one_word (e : SymExpr) : option SymExpr :=
  match e with
  | EBinOp Or l r =>
      if (is_one l && is_some (bool_word_of r)) || (is_one r && is_some (bool_word_of l)) then Some one else None
  | _ => None
  end.
Definition nested_mul_word (e : SymExpr) : option SymExpr :=
  match SBoundsOf.constant_mul_operands e with
  | Some (value, outer_factor) =>
      match SBoundsOf.constant_mul_operands value with
      | Some (value, inner_factor) => Some (binop Mul value (constant (wrapping_mul inner_factor outer_factor)))
      | None => None
      end
  | None => None
  end.
Definition scaled_div_word (e : SymExpr) : option SymExpr :=
  option_map (fun '(value, factor) => binop Mul value (constant factor))
    (first_some (exact_ceil_div_factor c e) (exact_scaled_div_factor c e)).
Definition mul_div_word (e : SymExpr) : option SymExpr :=
  match mul_div_operands e with
  | Some (denominator, other) =>
      if match SBoundsOf.interval c denominator with Some i => negb (is_zero (wi_min i)) | None => false end &&
         SBoundsOf.mul_cannot_overflow_256 c denominator other then Some other else None
  | None => None
  end.
Definition word_rewrites : list (SymExpr -> option SymExpr) :=
  [exact_word; select_word; quotient_of_rounded_product c; masked_bool_word; or_one_word; nested_mul_word; scaled_div_word; mul_div_word].
Fixpoint try_rewrites (rs : list (SymExpr -> option SymExpr)) (e : SymExpr) : SymExpr :=
  match rs with
  | [] => e
  | r :: rs => match r e with Some e' => e' | None => try_rewrites rs e end
  end.
Definition normalize_word (e : SymExpr) : SymExpr := try_rewrites word_rewrites e.

(** The decisions and rewrites of [normalize_bool], after the words. *)
Definition mul_div_identity_either (l r : SymExpr) : bool := mul_div_identity c l r || mul_div_identity c r l.
Definition zero_test_always_true (b : SymBoolExpr) : bool :=
  match SBool.zero_check_operand b with
  | Some word => word_bool_always_true normalize_bool_for_solver c word
  | None => false
  end.
Definition decide_bool (b : SymBoolExpr) : SymBoolExpr :=
  if match b with BNot value => unsigned_bool_always_true c value | _ => false end then SBool.constant false
  else if match b with BCmp Eq l r => mul_div_identity_either l r | _ => false end then SBool.constant true
  else if match b with BNot (BCmp Eq l r) => mul_div_identity_either l r | _ => false end then SBool.constant false
  else if match b with BCmp Eq l r => masked_word_eq_self c l r | _ => false end then SBool.constant true
  else if match b with BNot value => masked_eq_self_condition c value | _ => false end then SBool.constant false
  else if zero_test_always_true b then SBool.constant false
  else if match b with BNot value => zero_test_always_true value | _ => false end then SBool.constant true
  else b.
Definition rewrite_bool (b : SymBoolExpr) : SymBoolExpr :=
  match normalize_signed_add_comparison c b with
  | Some normalized => normalized
  | None =>
  match rounding_comparison_value c b with
  | Some value => SBool.constant value
  | None =>
  match (match b with BNot value => normalize_signed_add_comparison c value | _ => None end) with
  | Some normalized => SBool.not_bool normalized
  | None =>
  match (match b with BCmp op l r => normalize_udiv_comparison c op l r | _ => None end) with
  | Some normalized => normalized
  | None =>
  match (match b with BNot (BCmp op l r) => normalize_udiv_comparison c op l r | _ => None end) with
  | Some normalized => SBool.not_bool normalized
  | None => decide_bool b
  end end end end end.

Definition normalize_bool (b : SymBoolExpr) (context_free_changed : bool) : SymBoolExpr :=
  let words := negb (is_exact_value_constraint c b) && visit_bool may_normalize_word b in
  let b :=
    if words then normalize_bool_for_solver (fold_exprs_shared normalize_word b)
    else if context_free_changed then normalize_bool_for_solver b
    else b in
  rewrite_bool b.
End Context.
End Closed.

(** *** The order of constraints *)
Section Keys.
(** The name of a hash algorithm, a static string in the source. *)
Variable algorithm_name : Algorithm -> string.
Local Open Scope string_scope.

Definition decimal (n : N) : string := pretty n.
Definition hex_digit (d : Z) : Ascii.ascii := Ascii.ascii_of_N (Z.to_N (if d <? 10 then 48 + d else 87 + d)%Z).
(** The [n] low hexadecimal digits, padded with zeros. *)
Fixpoint hex_digits (n : nat) (v : Z) : string :=
  match n with
  | O => ""
  | S n => hex_digits n (v / 16)%Z +:+ String (hex_digit (v mod 16)%Z) ""
  end.

Definition cmp_op_key (op : SymCmpOp) : N :=
  match op with Eq => 0 | Ult => 1 | Ugt => 2 | Ule => 3 | Uge => 4 | Slt => 5 | Sgt => 6 end.
Definition expr_binop_key (op : SymBinOp) : N :=
  match op with
  | Add => 0 | Sub => 1 | Mul => 2 | UDiv => 3 | URem => 4 | SDiv => 5 | SRem => 6
  | And => 7 | Or => 8 | Xor => 9 | Shl => 10 | Shr => 11 | Sar => 12
  end.
Definition expr_ternop_key (op : SymTernOp) : N := match op with AddMod => 0 | MulMod => 1 end.

Definition symbol_key (s : Symbol) : string := decimal (N.pos s).
Definition count_key {A} (l : list A) : string := decimal (N.of_nat (length l)) +:+ ":".
Definition items_key (items : list string) : string := fold_right (fun item rest => item +:+ ";" +:+ rest) "" items.

Fixpoint expr_structural_key (e : SymExpr) : string :=
  match e with
  | EConst value => "0:" +:+ hex_digits 64 (uval value)
  | EVar name => "1:" +:+ symbol_key name
  | EGasLeft symbol => "2:" +:+ symbol_key symbol
  | EKeccak name len bytes =>
      "3:" +:+ symbol_key name +:+ ":" +:+ expr_structural_key len +:+ count_key bytes +:+ items_key (map expr_structural_key bytes)
  | EHash name algorithm bytes =>
      "4:" +:+ symbol_key name +:+ ":" +:+ algorithm_name algorithm +:+ ":" +:+ count_key bytes +:+ items_key (map expr_structural_key bytes)
  | ENot value => "5:" +:+ expr_structural_key value
  | EBinOp op l r => "6:" +:+ decimal (expr_binop_key op) +:+ ":" +:+ expr_structural_key l +:+ ":" +:+ expr_structural_key r
  | ETernOp op l r m =>
      "7:" +:+ decimal (expr_ternop_key op) +:+ ":" +:+ expr_structural_key l +:+ ":" +:+ expr_structural_key r +:+ ":" +:+ expr_structural_key m
  | EIte condition t f =>
      "9:" +:+ bool_structural_key condition +:+ ":" +:+ expr_structural_key t +:+ ":" +:+ expr_structural_key f
  end
with bool_structural_key (b : SymBoolExpr) : string :=
  match b with
  | BConst value => "0:" +:+ if value then "true" else "false"
  | BNot value => "1:" +:+ bool_structural_key value
  | BAnd values => "2:" +:+ count_key values +:+ items_key (map bool_structural_key values)
  | BCmp op l r => "3:" +:+ decimal (cmp_op_key op) +:+ ":" +:+ expr_structural_key l +:+ ":" +:+ expr_structural_key r
  end.
End Keys.
End SNorm.

(** The cached hash of a node and the names of the hash algorithms. *)
Class BoolOrder := {
  stable_hash : SymBoolExpr -> Z;
  algorithm_name : Algorithm -> string
}.

Definition SYMBOLIC_SOLVER_SAT_CACHE_MAX_ENTRIES : Z := 4096.

Module SOrdered.
Import SNorm SFacts.

Section Order.
Context `{BO : BoolOrder}.
Definition then_with (c d : comparison) : comparison := match c with Datatypes.Eq => d | _ => c end.
Definition bool_expr_cmp (l r : SymBoolExpr) : comparison :=
  if bexpr_eqb l r then Datatypes.Eq
  else then_with (stable_hash l ?= stable_hash r)
         (String.compare (bool_structural_key algorithm_name l) (bool_structural_key algorithm_name r)).

(** [sort_unstable_by] and [dedup]. *)
Fixpoint insert_sorted (b : SymBoolExpr) (l : list SymBoolExpr) : list SymBoolExpr :=
  match l with
  | [] => [b]
  | x :: r => match bool_expr_cmp b x with Gt => x :: insert_sorted b r | _ => b :: l end
  end.
Definition sort_exprs (l : list SymBoolExpr) : list SymBoolExpr := fold_right insert_sorted [] l.
Fixpoint dedup (l : list SymBoolExpr) : list SymBoolExpr :=
  match l with
  | x :: ((y :: _) as r) => if bexpr_eqb x y then dedup r else x :: dedup r
  | _ => l
  end.
Definition sort_dedup_bool_exprs (l : list SymBoolExpr) : list SymBoolExpr := dedup (sort_exprs l).

Fixpoint push_normalized_conjuncts (b : SymBoolExpr) (out : list SymBoolExpr) : list SymBoolExpr :=
  match b with
  | BConst true => out
  | BAnd values => (fix go vs out := match vs with [] => out | v :: r => go r (push_normalized_conjuncts v out) end) values out
  | _ => out ++ [b]
  end.

Definition is_false (b : SymBoolExpr) : bool := match b with BConst false => true | _ => false end.
(** [normalize_constraint_batch] over an iterator whose items [next] computes
    one at a time: the conjuncts in order, or the first [false]. *)
Fixpoint batch_with {S} (next : SymBoolExpr -> S -> SymBoolExpr * S) (constraints out : list SymBoolExpr) (st : S)
  : list SymBoolExpr * S :=
  match constraints with
  | [] => (sort_dedup_bool_exprs out, st)
  | b :: r =>
      let '(b, st) := next b st in
      if is_false b then ([b], st) else batch_with next r (push_normalized_conjuncts b out) st
  end.
Definition normalize_constraint_batch (constraints : list SymBoolExpr) : list SymBoolExpr :=
  fst (batch_with (fun b st => (b, st)) constraints [] tt).

(** [mark_conjuncts]: the stack has its top first. *)
Definition mark_step (st : list SymBoolExpr * list SymBoolExpr) : list SymBoolExpr * list SymBoolExpr + list SymBoolExpr :=
  let '(pending, out) := st in
  match pending with
  | [] => inr out
  | b :: rest =>
      if existsb (bexpr_eqb b) out then inl (rest, out)
      else inl (match b with BAnd values => rev values ++ rest | _ => rest end, b :: out)
  end.
Definition mark_conjuncts (b : SymBoolExpr) (out : list SymBoolExpr) : list SymBoolExpr :=
  default out (iterate mark_step (S (bsize b)) ([b], out)).

(** *** Direct contradictions *)
Context `{SA : SignedArith, HF : HashFns}.
Definition derived_facts (b : SymBoolExpr) : list SymBoolExpr :=
  match bitwise_bool_word_fact b with
  | Some fact => match fact with BAnd values => values | _ => [] end ++ [fact]
  | None => []
  end.
(** [binary_search_by] finds a constraint that compares equal. *)
Definition constraints_are_directly_unsat (constraints : list SymBoolExpr) : bool :=
  let derived := flat_map derived_facts constraints in
  let contains expected :=
    existsb (fun candidate => match bool_expr_cmp candidate expected with Datatypes.Eq => true | _ => false end) constraints ||
    existsb (bexpr_eqb expected) derived in
  existsb (fun b =>
    match b with
    | BConst false => true
    | BNot inner =>
        match inner with
        | BAnd values => if forallb contains values then true else contains inner
        | _ => contains inner
        end
    | _ => contains (SBool.not_bool b)
    end) (constraints ++ derived).

Definition sorted_bool_exprs_are_subset (subset superset : list SymBoolExpr) : bool :=
  if (length superset <? length subset)%nat then false
  else forallb (fun expected => existsb (bexpr_eqb expected) superset) subset.
End Order.

(** *** Conjunctions *)
Section Conjunctions.
Context `{SA : SignedArith, HF : HashFns, PP : PolyParts, BO : BoolOrder}.
(** Bounds for [normalize_bool_for_solver] and for the rounds of one pass. *)
Variables fuel rounds : nat.
Abbreviation normalize_in c := (normalize_bool fuel c).

(** One pass of [normalize_bounded_comparisons]; [None] is a contradiction. *)
Fixpoint bounded_pass (n : nat) (index : nat) (constraints : list SymBoolExpr) : option (list SymBoolExpr) :=
  match n with
  | O => Some constraints
  | S n =>
      match constraints !! index with
      | None => Some constraints
      | Some b =>
          let context := for_rewrite constraints index in
          let b := normalize_in context b false in
          match b with
          | BAnd terms => bounded_pass n index (take index constraints ++ terms ++ drop (S index) constraints)
          | _ =>
              match bounded_bool_value context b with
              | Some false => None
              | Some true => bounded_pass n index (take index constraints ++ drop (S index) constraints)
              | None => bounded_pass n (S index) (<[index := b]> constraints)
              end
          end
      end
  end.

Fixpoint bounded_passes (passes : nat) (constraints : list SymBoolExpr) : list SymBoolExpr :=
  match passes with
  | O => constraints
  | S passes =>
      match bounded_pass rounds 0 constraints with
      | None => [SBool.constant false]
      | Some next =>
          let next := normalize_constraint_batch next in
          if bool_decide (next = constraints) || existsb is_false next then next else bounded_passes passes next
      end
  end.
Definition normalize_bounded_comparisons (constraints : list SymBoolExpr) : list SymBoolExpr :=
  bounded_passes MAX_CONTEXTUAL_PASSES constraints.

(** *** Caches across queries *)
Record NormalizationCache := mkNormCache {
  nc_normalized : list (SymBoolExpr * SymBoolExpr);
  nc_requires : list (SymBoolExpr * bool)
}.
Definition clear (cache : NormalizationCache) : NormalizationCache := mkNormCache [] [].
Definition room {A} (l : list A) : bool := (length l <? Z.to_nat SYMBOLIC_SOLVER_SAT_CACHE_MAX_ENTRIES)%nat.

(** [NormalizationCache::requires_independent_context]. *)
Definition requires_cached (b : SymBoolExpr) (cache : NormalizationCache) : bool * NormalizationCache :=
  match assoc bexpr_eqb b (nc_requires cache) with
  | Some requires => (requires, cache)
  | None =>
      let requires := requires_independent_context b in
      (requires, if room (nc_requires cache) then mkNormCache (nc_normalized cache) ((b, requires) :: nc_requires cache) else cache)
  end.
Fixpoint retained_cached (l : list SymBoolExpr) (cache : NormalizationCache) : list SymBoolExpr * NormalizationCache :=
  match l with
  | [] => ([], cache)
  | b :: r =>
      let '(requires, cache) := requires_cached b cache in
      let '(kept, cache) := retained_cached r cache in
      (if requires then kept else b :: kept, cache)
  end.

Definition normalize_contextually (normalized changed_conjuncts : list SymBoolExpr) (cache : NormalizationCache)
  : list SymBoolExpr * NormalizationCache :=
  if match normalized with [b] => is_false b | _ => false end then (normalized, cache)
  else
    let '(retained, cache) := retained_cached normalized cache in
    let context := SCtx.from_constraints_with_lower_bounds retained (length retained) false in
    (normalize_bounded_comparisons
       (normalize_constraint_batch
          (map (fun b => normalize_in context b (existsb (bexpr_eqb b) changed_conjuncts)) normalized)), cache).

Definition normalize_one_cached (b : SymBoolExpr) (st : NormalizationCache * list SymBoolExpr)
  : SymBoolExpr * (NormalizationCache * list SymBoolExpr) :=
  let '(cache, changed) := st in
  let '(normalized, cache) :=
    match assoc bexpr_eqb b (nc_normalized cache) with
    | Some normalized => (normalized, cache)
    | None =>
        let normalized := normalize_bool_for_solver fuel b in
        (normalized, if room (nc_normalized cache) then mkNormCache ((b, normalized) :: nc_normalized cache) (nc_requires cache) else cache)
    end in
  (normalized, (cache, if bexpr_eqb normalized b then changed else mark_conjuncts normalized changed)).

Definition normalize_constraints_for_solver_cached (constraints : list SymBoolExpr) (cache : NormalizationCache)
  : list SymBoolExpr * NormalizationCache :=
  let '(normalized, (cache, changed)) := batch_with normalize_one_cached constraints [] (cache, []) in
  normalize_contextually normalized changed cache.
End Conjunctions.
End SOrdered.
