(* ===== verification/SymNormSound.v ===== *)
(** * SymNormSound: normalisation keeps the models of a conjunction

    Every rewrite of [SymNorm] refines what it rewrites: where the original has
    a value under a model, the rewritten expression has the same.  Equality of
    hashes is decided by their inputs, so this is for models under which the
    hashes are told apart by their inputs ([hash_stable]). *)

From Stdlib Require Import ZArith Lia Bool.
From stdpp Require Import base list option sets.
From S2P Require Import Prelude SymWord SymExpr SymSimpl SymSound SymCmp SymContext SymVisit SymPoly SymHashes SymFacts SymNorm.
Local Open Scope Z_scope.
Import SFacts SNorm.

(** What rewriting needs of the hashes: equality by inputs, and that rewriting
    an input changes no value. *)
Record hash_stable `{SignedArith, HashFns} (model : SymbolicModel) (h : SymExpr -> Prop) : Prop := {
  hs_law : HashLaw model h;
  hs_named x : h x -> same_node x x -> denote_word model x = option_map (model_value model) (hash_name x);
  hs_step x y : h x -> same_node x y -> Forall2 (refines model) (hash_parts x) (hash_parts y) ->
    h y /\ denote_word model x = denote_word model y
}.

Lemma rewritten_stable `{SignedArith, HashFns} model T : hashes_faithful model T -> hash_stable model (rewritten model T).
Proof.
  intros HT. split; [by apply rewritten_law| |].
  { intros x (o & Ho & Hn & Hp) _. rewrite <- (rewritten_value model T HT o x Ho Hn Hp). destruct (hash_defined model T HT o Ho) as [-> _].
    by destruct o, x; simpl in Hn; try done; destruct_and?; simplify_eq. }
  intros x y Hx Hn Hp. pose proof Hx as (o & Ho & Hno & Hpo). pose proof (rewritten_step _ _ _ _ Hx Hn Hp) as Hy.
  split; [done|]. destruct Hy as (o' & Ho' & _). clear o' Ho'.
  rewrite <- (rewritten_value model T HT o x Ho Hno Hpo). apply (rewritten_value model T HT o y Ho); [by eapply same_node_trans|by etransitivity].
Qed.

Section NormSound.
Context `{SA : SignedArith, HF : HashFns} {SL : SignedArithLaws} {SC : SignedCmpLaw} `{PP : PolyParts} {PL : PolyLaws}.
Variable model : SymbolicModel.
Variable h : SymExpr -> Prop.
Hypothesis stable : hash_stable model h.
Abbreviation den := (denote_word model).
Abbreviation denb := (denote_bool model).
Abbreviation refines := (refines model).
Abbreviation brefines := (brefines model).
Abbreviation P := (word_hashes h).
Abbreviation Q := (bool_hashes h).

(** Words and conditions over such hashes have values. *)
Lemma hashes_total : (forall e, P e -> is_Some (den e)) /\ (forall b, Q b -> is_Some (denb b)).
Proof.
  apply expr_bexpr_ind; try (intros; eauto; fail).
  - intros n l bs _ _ (Hh & _)%keccak_hashes. rewrite (hs_named _ _ stable _ Hh) by done. by eexists.
  - intros e IH Pe. destruct (IH Pe) as [v Hv]. simpl. rewrite Hv. eauto.
  - intros op l r IHl IHr [Pl Pr]. destruct (IHl Pl) as [a Ha], (IHr Pr) as [b Hb]. simpl. rewrite Ha, Hb. eauto.
  - intros op l r m IHl IHr IHm (Pl & Pr & Pm). destruct (IHl Pl) as [a Ha], (IHr Pr) as [b Hb], (IHm Pm) as [c Hc]. simpl. rewrite Ha, Hb, Hc. eauto.
  - intros c t f IHc IHt IHf (Qc & Pt & Pf). destruct (IHc Qc) as [[] Hc]; simpl; rewrite Hc; auto.
  - intros b IH Qb. destruct (IH Qb) as [v Hv]. simpl. rewrite Hv. eauto.
  - intros bs IH Qb%and_hashes. rewrite denote_BAnd. induction IH as [|b bs Hb _ IH]; [by eexists|]. apply Forall_cons in Qb as [Q1 Q2].
    destruct (Hb Q1) as [[] Hv]; simpl; rewrite Hv; eauto.
  - intros op l r IHl IHr [Pl Pr]. destruct (IHl Pl) as [a Ha], (IHr Pr) as [b Hb]. simpl. rewrite Ha, Hb. eauto.
Qed.

(** A rewrite of a word, and of a condition. *)
Definition keeps (e e' : SymExpr) : Prop := P e -> refines e e' /\ P e'.
Definition bkeeps (b b' : SymBoolExpr) : Prop := Q b -> brefines b b' /\ Q b'.

#[local] Instance keeps_preorder : PreOrder keeps.
Proof.
  split; [by intros x Hx|]. intros x y z H1 H2 Hx. destruct (H1 Hx) as [R1 Hy]. destruct (H2 Hy) as [R2 Hz].
  split; [by etransitivity|done].
Qed.
#[local] Instance bkeeps_preorder : PreOrder bkeeps.
Proof.
  split; [by intros x Hx|]. intros x y z H1 H2 Hx. destruct (H1 Hx) as [R1 Hy]. destruct (H2 Hy) as [R2 Hz].
  split; [by etransitivity|done].
Qed.

(** ** Rebuilding a node from rewritten parts *)
Lemma keeps_binop op l r l' r' : keeps l l' -> keeps r r' -> keeps (EBinOp op l r) (binop op l' r').
Proof.
  intros Hl Hr [Pl Pr]. destruct (Hl Pl) as [Rl Pl'], (Hr Pr) as [Rr Pr']. split; [|by apply P_binop].
  intros v (a & b & Ha & Hb & ->)%den_binop_inv. exact (den_binop model op l' r' a b (Rl _ Ha) (Rr _ Hb)).
Qed.
Lemma keeps_ternop op l r m l' r' m' : keeps l l' -> keeps r r' -> keeps m m' -> keeps (ETernOp op l r m) (ternop op l' r' m').
Proof.
  intros Hl Hr Hm (Pl & Pr & Pm). destruct (Hl Pl) as [Rl Pl'], (Hr Pr) as [Rr Pr'], (Hm Pm) as [Rm Pm']. split; [|by apply P_ternop].
  intros v Hv. apply (ternop_refines model op l' r' m'). simpl in *. destruct (den l) as [a|] eqn:Ha, (den r) as [b|] eqn:Hb, (den m) as [c|] eqn:Hc; try done.
  by rewrite (Rl _ Ha), (Rr _ Hb), (Rm _ Hc).
Qed.
Lemma keeps_not e e' : keeps e e' -> keeps (ENot e) (sym_not e').
Proof.
  intros He Pe. destruct (He Pe) as [Re Pe']. split; [|by apply P_sym_not]. intros v. simpl. destruct (den e) as [a|] eqn:Ha; [|done].
  intros [= <-]. apply den_not. by apply Re.
Qed.
Lemma keeps_ite c t f c' t' f' : bkeeps c c' -> keeps t t' -> keeps f f' -> keeps (EIte c t f) (ite c' t' f').
Proof.
  intros Hc Ht Hf (Qc & Pt & Pf). destruct (Hc Qc) as [Rc Qc'], (Ht Pt) as [Rt Pt'], (Hf Pf) as [Rf Pf']. split; [|by apply P_ite].
  intros v (b & Hb & Hv)%den_ite_inv. apply (den_ite model c' t' f' b); [by apply Rc|]. destruct b; [by apply Rt|by apply Rf].
Qed.
Lemma Forall2_keeps es es' : Forall2 keeps es es' -> Forall P es -> Forall2 refines es es' /\ Forall P es'.
Proof.
  induction 1 as [|e e' es es' He _ IH]; [by repeat split|]. intros [Pe Ps]%Forall_cons. destruct (He Pe), (IH Ps). by split; constructor.
Qed.
Lemma keccak_keeps n l l' bs bs' : keeps l l' -> Forall2 keeps bs bs' -> keeps (EKeccak n l bs) (EKeccak n l' bs').
Proof.
  intros Hl Hbs (Hh & Pl & Pb)%keccak_hashes. destruct (Hl Pl) as [Rl Pl'], (Forall2_keeps _ _ Hbs Pb) as [Rb Pb'].
  destruct (hs_step model h stable (EKeccak n l bs) (EKeccak n l' bs') Hh) as [Hh' Hd]; [done|by constructor|].
  split; [|by apply keccak_hashes]. intros v Hv. by rewrite <- Hd.
Qed.
Lemma keeps_hash n a bs bs' : Forall2 keeps bs bs' -> keeps (EHash n a bs) (EHash n a bs').
Proof.
  intros Hbs (Hh & Pb)%hash_hashes. destruct (Forall2_keeps _ _ Hbs Pb) as [Rb Pb'].
  destruct (hs_step model h stable (EHash n a bs) (EHash n a bs') Hh) as [Hh' Hd]; [done|done|].
  split; [|by apply hash_hashes]. intros v Hv. by rewrite <- Hd.
Qed.

Lemma bkeeps_not b b' : bkeeps b b' -> bkeeps (BNot b) (SBool.not_bool b').
Proof.
  intros Hb Qb. destruct (Hb Qb) as [Rb Qb']. split; [|by apply Q_not]. intros v. rewrite den_not_bool. simpl.
  destruct (denb b) as [t|] eqn:E; [|done]. by rewrite (Rb _ E).
Qed.
Lemma bkeeps_cmp op l r l' r' : keeps l l' -> keeps r r' -> bkeeps (BCmp op l r) (cmp op l' r').
Proof.
  intros Hl Hr [Pl Pr]. destruct (Hl Pl) as [Rl Pl'], (Hr Pr) as [Rr Pr']. split; [|by apply Q_cmp].
  intros v (a & b & Ha & Hb & ->)%den_cmp_inv. apply (cmp_hashes_sound model h (hs_law _ _ stable) op l' r' Pl' Pr').
  exact (den_cmp_intro model _ _ _ _ _ (Rl _ Ha) (Rr _ Hb)).
Qed.
Lemma bkeeps_eq l r l' r' : keeps l l' -> keeps r r' -> bkeeps (BCmp Eq l r) (sym_eq l' r').
Proof.
  intros Hl Hr [Pl Pr]. destruct (Hl Pl) as [Rl Pl'], (Hr Pr) as [Rr Pr']. split; [|by apply Q_eq_fuel].
  intros v (a & b & Ha & Hb & ->)%den_cmp_inv. apply (eq_fuel_hashes_sound model h (hs_law _ _ stable) _ l' r' Pl' Pr').
  exact (den_cmp_intro model _ _ _ _ _ (Rl _ Ha) (Rr _ Hb)).
Qed.
Lemma denote_all_refines bs bs' v : Forall2 brefines bs bs' -> denote_all model bs = Some v -> denote_all model bs' = Some v.
Proof.
  intros H. induction H as [|b b' bs bs' Hb _ IH]; [done|]. simpl. destruct (denb b) as [[]|] eqn:E; [| |done]; rewrite (Hb _ E); auto.
Qed.
Lemma denote_any_refines bs bs' v : Forall2 brefines bs bs' -> denote_any model bs = Some v -> denote_any model bs' = Some v.
Proof.
  intros H. induction H as [|b b' bs bs' Hb _ IH]; [done|]. simpl. destruct (denb b) as [[]|] eqn:E; [| |done]; rewrite (Hb _ E); auto.
Qed.
Lemma Forall2_bkeeps bs bs' : Forall2 bkeeps bs bs' -> Forall Q bs -> Forall2 brefines bs bs' /\ Forall Q bs'.
Proof.
  induction 1 as [|b b' bs bs' Hb _ IH]; [by repeat split|]. intros [Qb Qs]%Forall_cons. destruct (Hb Qb), (IH Qs). by split; constructor.
Qed.
Lemma bkeeps_and bs bs' : Forall2 bkeeps bs bs' -> bkeeps (BAnd bs) (SBool.and bs').
Proof.
  intros H Qb%and_hashes. destruct (Forall2_bkeeps _ _ H Qb) as [Rb Qb']. split; [|by apply Q_and].
  intros v. rewrite denote_BAnd. intros Hv. apply den_and. by eapply denote_all_refines.
Qed.

(** ** Folds with sound folders *)
Lemma Forall_map_keeps f es : Forall (fun e => keeps e (f e)) es -> Forall2 keeps es (map f es).
Proof. induction 1; simpl; constructor; auto. Qed.
Lemma Forall_map_bkeeps f bs : Forall (fun b => bkeeps b (f b)) bs -> Forall2 bkeeps bs (map f bs).
Proof. induction 1; simpl; constructor; auto. Qed.

Lemma fold_keeps folder : (forall e, keeps e (folder e)) ->
  (forall e, keeps e (fold_word folder e)) /\ (forall b, bkeeps b (fold_exprs folder b)).
Proof.
  intros Hf. apply expr_bexpr_ind; intros; simpl; try (etransitivity; [|apply Hf]); try done.
  - apply keccak_keeps; [done|by apply Forall_map_keeps].
  - apply keeps_hash. by apply Forall_map_keeps.
  - by apply keeps_not.
  - by apply keeps_binop.
  - by apply keeps_ternop.
  - by apply keeps_ite.
  - by apply bkeeps_not.
  - apply bkeeps_and. by apply Forall_map_bkeeps.
  - by apply bkeeps_cmp.
Qed.
Lemma fold_word_keeps folder e : (forall e, keeps e (folder e)) -> keeps e (fold_shared folder e).
Proof. rewrite fold_shared_eq. intros H. by apply fold_keeps. Qed.
Lemma fold_exprs_keeps folder b : (forall e, keeps e (folder e)) -> bkeeps b (fold_exprs_shared folder b).
Proof. rewrite fold_exprs_shared_eq. intros H. by apply fold_keeps. Qed.
Lemma fold_bool_keeps folder b : (forall b, bkeeps b (folder b)) -> bkeeps b (fold_bool_shared folder b).
Proof.
  rewrite fold_bool_shared_eq. intros Hf. revert b.
  refine (bexpr_ind' (fun _ => True) (fun b => bkeeps b (fold_bool folder b)) _ _ _ _ _ _ _ _ _ _ _ _ _); try done; intros; simpl; (etransitivity; [|apply Hf]).
  - by apply bkeeps_not.
  - apply bkeeps_and. by apply Forall_map_bkeeps.
  - by apply bkeeps_cmp.
Qed.

(** ** Truth of a word *)
Lemma masked_truth v w b : part_of v w -> has_byte v w 31 -> w = b2u b -> v = b2u b.
Proof.
  intros Hp [_ Hb] ->. apply uval_inj. apply Z.bits_inj'. intros i Hi. destruct (Z.lt_ge_cases i 8) as [Hlt|Hge].
  - specialize (Hb i ltac:(lia)). by rewrite Z.add_0_l in Hb.
  - assert (Hw : Z.testbit (uval (b2u b)) i = false).
    { destruct b; [|apply Z.bits_0]. apply Z.bits_above_log2; [done|]. change (Z.log2 (uval (b2u true))) with 0. lia. }
    rewrite Hw. exact (part_of_bit _ _ _ Hp Hi Hw).
Qed.
Lemma stripped_condition_sound e c v : bool_word_condition (strip_low_byte_mask e) = Some c -> den e = Some v ->
  exists b, denb c = Some b /\ v = b2u b.
Proof.
  intros Hc Hv. destruct (strip_sound model _ _ Hv) as (w & Hw & Hp & Hb). destruct (bool_word_condition_sound model _ _ _ Hc Hw) as (b & Hb' & Hwb).
  exists b. split; [done|]. by eapply masked_truth.
Qed.
Lemma is_zero_b2u b : is_zero (b2u b) = negb b.
Proof. by destruct b. Qed.
Lemma b2u_one b : u_eqb (b2u b) ONE = b.
Proof. by destruct b. Qed.
Lemma is_one_den e v : is_one e = true -> den e = Some v -> v = ONE.
Proof. apply const_eq_val. Qed.
Lemma zero_const_val e v : const_is e is_zero = true -> den e = Some v -> v = ZERO.
Proof. intros H Hv. rewrite (const_zero_den model _ H) in Hv. naive_solver. Qed.

Section Open.
Variable nb : SymBoolExpr -> SymBoolExpr.
Hypothesis nb_keeps : forall b, bkeeps b (nb b).

(** A condition that decides a word: the word is its truth value. *)
Definition decides (e : SymExpr) (c : SymBoolExpr) : Prop :=
  P e -> Q c /\ forall v, den e = Some v -> exists b, denb c = Some b /\ v = b2u b.

Lemma nbwc_decides e c : normalized_bool_word_condition nb e = Some c -> decides e c.
Proof.
  unfold normalized_bool_word_condition. destruct (bool_word_condition (strip_low_byte_mask e)) as [c0|] eqn:E; [|done]. intros [= <-] Pe.
  pose proof (bool_word_condition_hashes _ _ _ E (strip_hashes _ _ Pe)) as Qc. destruct (nb_keeps c0 Qc) as [Rc Qc']. split; [done|].
  intros v Hv. destruct (stripped_condition_sound _ _ _ E Hv) as (b & Hb & ->). exists b. split; [by apply Rc|done].
Qed.
Lemma condition_is_eq o c : condition_is o c = true -> o = Some c.
Proof. destruct o as [c'|]; [|done]. by intros ->%bexpr_eqb_eq. Qed.

(** *** Words *)
Lemma normalize_ite_keeps c l r : keeps (EIte c l r) (normalize_ite_expr_for_solver nb c l r).
Proof.
  intros (Qc & Pl & Pr). destruct (nb_keeps c Qc) as [Rc Qc']. unfold normalize_ite_expr_for_solver.
  destruct (expr_eqb_spec l r) as [->|_]; [|destruct (_ && _) eqn:E1; [|destruct (const_is r is_zero && _) eqn:E2]].
  - split; [|done]. intros v ([] & _ & Hv)%den_ite_inv; done.
  - apply andb_prop in E1 as [H1 Hc%condition_is_eq]. destruct (nbwc_decides _ _ Hc Pr) as [_ Hd]. split; [|done].
    intros v (b & Hb & Hv)%den_ite_inv. apply Rc in Hb. destruct (proj1 hashes_total _ Pr) as [w Hw]. destruct (Hd _ Hw) as (b' & Hb' & ->).
    destruct b; [|done]. rewrite (is_one_den _ _ H1 Hv), Hw. naive_solver.
  - apply andb_prop in E2 as [H1 Hc%condition_is_eq]. destruct (nbwc_decides _ _ Hc Pl) as [_ Hd]. split; [|done].
    intros v (b & Hb & Hv)%den_ite_inv. apply Rc in Hb. destruct (proj1 hashes_total _ Pl) as [w Hw]. destruct (Hd _ Hw) as (b' & Hb' & ->).
    destruct b; [done|]. rewrite (zero_const_val _ _ H1 Hv), Hw. naive_solver.
  - apply keeps_ite; [apply nb_keeps|reflexivity|reflexivity|done].
Qed.

Lemma normalize_expr_keeps e : keeps e (normalize_expr_for_solver nb e).
Proof.
  unfold normalize_expr_for_solver. destruct (contains_ite e); [|reflexivity]. apply fold_word_keeps.
  intros x. destruct x; try reflexivity. apply normalize_ite_keeps.
Qed.

(** A test of a word: its value as a Boolean is [f] of the word's. *)
Definition tests (f : U256 -> bool) (e : SymExpr) (c : SymBoolExpr) : Prop :=
  P e -> Q c /\ forall v, den e = Some v -> denb c = Some (f v).
Abbreviation nonzero := (fun v => negb (is_zero v)).

Lemma tests_not f e c : tests f e c -> tests (fun v => negb (f v)) e (SBool.not_bool c).
Proof. intros H Pe. destruct (H Pe) as [Qc Hc]. split; [by apply Q_not|]. intros v Hv. by rewrite den_not_bool, (Hc v Hv). Qed.
Lemma tests_eq_zero e e' : keeps e e' -> tests is_zero e (sym_eq e' zero).
Proof.
  intros He Pe. destruct (bkeeps_eq e zero e' zero He ltac:(reflexivity) (conj Pe (P_zero h))) as [Rc Qc]. split; [done|].
  intros v Hv. apply Rc. apply (den_cmp_intro model Eq e zero v ZERO Hv). apply den_constant.
Qed.

Lemma udiv_zero_value n d : is_zero (binop_eval UDiv n d) = is_zero d || u_ltb n d.
Proof.
  cbn [binop_eval]. destruct (is_zero d) eqn:Ez; [done|]. unfold is_zero, u_ltb in *. rewrite uval_div. apply Z.eqb_neq in Ez.
  pose proof (uval_range n). pose proof (uval_range d). destruct (Z.ltb_spec (uval n) (uval d)).
  - apply Z.eqb_eq. apply Z.div_small. lia.
  - apply Z.eqb_neq. pose proof (Z.div_str_pos (uval n) (uval d) ltac:(lia)). lia.
Qed.
Lemma Q_two a b : Q a -> Q b -> Forall Q [a; b].
Proof. by repeat constructor. Qed.

Lemma udiv_zero_tests n d : tests is_zero (EBinOp UDiv n d) (udiv_zero_condition nb n d).
Proof.
  intros [Pn Pd]. unfold udiv_zero_condition. pose proof (normalize_expr_keeps n) as Kn. pose proof (normalize_expr_keeps d) as Kd.
  destruct (tests_eq_zero d _ Kd Pd) as [Qz Hz]. destruct (bkeeps_cmp Ult n d _ _ Kn Kd (conj Pn Pd)) as [Rc Qc].
  split; [apply Q_or; by apply Q_two|]. intros v (a & b & Ha & Hb & ->)%den_binop_inv. rewrite udiv_zero_value. apply den_or. simpl.
  rewrite (Hz _ Hb). destruct (is_zero b); [done|]. rewrite (Rc _ (den_cmp_intro model Ult n d a b Ha Hb)). cbn [cmpop_eval orb]. by destruct (u_ltb a b).
Qed.
Lemma udiv_nonzero_tests n d : tests nonzero (EBinOp UDiv n d) (udiv_nonzero_condition nb n d).
Proof.
  intros [Pn Pd]. unfold udiv_nonzero_condition. pose proof (normalize_expr_keeps n) as Kn. pose proof (normalize_expr_keeps d) as Kd.
  destruct (tests_not _ _ _ (tests_eq_zero d _ Kd) Pd) as [Qz Hz]. destruct (bkeeps_cmp Uge n d _ _ Kn Kd (conj Pn Pd)) as [Rc Qc].
  split; [apply Q_and; by apply Q_two|]. intros v (a & b & Ha & Hb & ->)%den_binop_inv. rewrite udiv_zero_value, negb_orb. apply den_and. simpl.
  rewrite (Hz _ Hb). destruct (is_zero b); [done|]. rewrite (Rc _ (den_cmp_intro model Uge n d a b Ha Hb)).
  assert (Hge : cmpop_eval Uge a b = negb (u_ltb a b)) by apply Z.leb_antisym. rewrite Hge. by destruct (u_ltb a b).
Qed.

Lemma select_tests f c t e tc ec s :
  select_condition nb c tc ec = Some s -> tests f t tc -> tests f e ec -> tests f (EIte c t e) s.
Proof.
  unfold select_condition. destruct (_ || _); [done|]. intros [= <-] Ht He (Qc & Pt & Pe). destruct (Ht Pt) as [Qt Vt], (He Pe) as [Qe Ve].
  destruct (nb_keeps c Qc) as [Rc Qc']. split.
  { apply Q_or, Q_two; apply Q_and, Q_two; try done. by apply Q_not. }
  intros v (b & Hb & Hv)%den_ite_inv. apply Rc in Hb. apply den_or. destruct (proj1 hashes_total _ Pe) as [x Hx]. specialize (Ve _ Hx).
  assert (H1 : forall w, denote_all model [nb c; tc] = Some w -> denb (SBool.and [nb c; tc]) = Some w) by (intros; by apply den_and).
  assert (H2 : forall w, denote_all model [SBool.not_bool (nb c); ec] = Some w -> denb (SBool.and [SBool.not_bool (nb c); ec]) = Some w) by (intros; by apply den_and).
  simpl in H1, H2 |- *. rewrite den_not_bool, Hb in H2. rewrite Hb in H1. simpl in H2. destruct b.
  - rewrite (Vt _ Hv) in H1. rewrite (H1 (f v)) by by destruct (f v). destruct (f v); [done|]. by rewrite (H2 false).
  - rewrite (H1 false) by done. simplify_eq. rewrite Ve in H2. rewrite (H2 (f v)) by by destruct (f v). by destruct (f v).
Qed.

Lemma udiv_operands_shape e n d : udiv_operands e = Some (n, d) -> e = EBinOp UDiv n d.
Proof. destruct e as [| | | | | |[]| |]; simpl; naive_solver. Qed.

(** The two recursions through conditional words, at once. *)
Lemma zero_tests_by (f : U256 -> bool) (rec : SymExpr -> option SymBoolExpr) (base : SymExpr -> SymBoolExpr) (div : SymExpr -> SymExpr -> SymBoolExpr) :
  (forall e, rec e = match udiv_operands e with
    | Some (n, d) => Some (div n d)
    | None => match e with
              | EIte c t e => select_condition nb c (default (base t) (rec t)) (default (base e) (rec e))
              | _ => None end end) ->
  (forall e, tests f e (base e)) -> (forall n d, tests f (EBinOp UDiv n d) (div n d)) ->
  forall e c, rec e = Some c -> tests f e c.
Proof.
  intros Hrec Hbase Hdiv e. induction e as [e IH] using (induction_ltof1 _ esize). unfold ltof in IH. intros c. rewrite Hrec.
  destruct (udiv_operands e) as [[n d]|] eqn:E; [apply udiv_operands_shape in E as ->; intros [= <-]; apply Hdiv|].
  destruct e as [| | | | | | | |cd t f0]; try done. intros Hs. apply (select_tests f _ _ _ _ _ _ Hs).
  - destruct (rec t) as [ct|] eqn:Et; [apply (IH t); [simpl; lia|done]|apply Hbase].
  - destruct (rec f0) as [cf|] eqn:Ef; [apply (IH f0); [simpl; lia|done]|apply Hbase].
Qed.
Lemma eq_zero_tests e c : normalize_eq_zero_for_solver nb e = Some c -> tests is_zero e c.
Proof.
  apply (zero_tests_by is_zero (normalize_eq_zero_for_solver nb) (fun e => sym_eq (normalize_expr_for_solver nb e) zero) (udiv_zero_condition nb)).
  - by intros [].
  - intros x. apply tests_eq_zero, normalize_expr_keeps.
  - apply udiv_zero_tests.
Qed.
Lemma ne_zero_tests e c : normalize_ne_zero_for_solver nb e = Some c -> tests nonzero e c.
Proof.
  apply (zero_tests_by nonzero (normalize_ne_zero_for_solver nb)
    (fun e => SBool.not_bool (sym_eq (normalize_expr_for_solver nb e) zero)) (udiv_nonzero_condition nb)).
  - by intros [].
  - intros x. apply (tests_not is_zero), tests_eq_zero, normalize_expr_keeps.
  - apply udiv_nonzero_tests.
Qed.

(** *** Words that are always true *)
Lemma or_term_true e t c v : P e -> t ∈ or_terms e -> normalized_bool_word_condition nb t = Some c -> denb c = Some true ->
  den e = Some v -> is_zero v = false.
Proof.
  intros Pe Ht Hc Hb Hv. destruct (or_terms_bits model e v Hv) as (vs & Hvs & Hbits).
  pose proof (or_terms_hashes _ _ Pe) as Pts. rewrite List.Forall_forall in Pts. apply list_elem_of_In in Ht. destruct (nbwc_decides _ _ Hc (Pts _ Ht)) as [_ Hd].
  apply list_elem_of_In, list_elem_of_lookup in Ht as [i Hi].
  destruct (Forall2_lookup_l _ _ _ _ _ Hvs Hi) as (w & Hw & Hden). destruct (Hd _ Hden) as (b & Hb' & ->). simplify_eq.
  apply Z.eqb_neq. intros Hz. assert (Hbit : Z.testbit (uval v) 0 = true).
  { rewrite Hbits by lia. apply existsb_exists. exists (b2u true). split; [|done]. apply list_elem_of_In, list_elem_of_lookup. eauto. }
  by rewrite Hz in Hbit.
Qed.

Lemma always_true_word c e v : ctx_ok model c -> word_bool_always_true nb c e = true -> P e -> den e = Some v -> is_zero v = false.
Proof.
  intros Hctx H Pe Hv. unfold word_bool_always_true in H. destruct (_ <=? 1)%nat; [done|].
  set (bts := omap (normalized_bool_word_condition nb) (or_terms e)) in *.
  assert (Hterm : forall x, In x bts -> exists b, denb x = Some b /\ (b = true -> is_zero v = false)).
  { intros x (t & Ht & Hx)%list_elem_of_In%list_elem_of_omap. destruct (nbwc_decides _ _ Hx) as [Qx _].
    { pose proof (or_terms_hashes _ _ Pe) as Pts. rewrite list.Forall_forall in Pts. by apply Pts. }
    destruct (proj2 hashes_total _ Qx) as [b Hb]. exists b. split; [done|]. intros ->. by eapply or_term_true. }
  apply orb_prop in H as [(x & Hx & (y & Hy & <-%bexpr_eqb_eq)%existsb_exists)%existsb_exists|(z & Hz & (g & Hg & Hguard)%existsb_exists)%existsb_exists].
  - destruct (Hterm _ Hx) as ([] & Hb & Hn); [by apply Hn|]. destruct (Hterm _ Hy) as (b & Hb' & Hn'). apply Hn'.
    rewrite den_not_bool, Hb in Hb'. by simplify_eq/=.
  - destruct (Hterm _ Hz) as ([] & Hb & Hn); [by apply Hn|]. destruct (Hterm _ Hg) as (b & Hb' & Hn'). apply Hn'.
    by eapply mul_guard_sound.
Qed.

(** *** Overflow checks *)
(** A comparison rewritten to another one over the same words. *)
Lemma bkeeps_to_cmp op l r op' l' r' :
  op' <> Eq -> (P l -> P r -> P l' /\ P r') ->
  (forall a b, den l = Some a -> den r = Some b -> exists a' b', den l' = Some a' /\ den r' = Some b' /\ cmpop_eval op' a' b' = cmpop_eval op a b) ->
  bkeeps (BCmp op l r) (cmp op' l' r').
Proof.
  intros Hop HP Hv [Pl Pr]. destruct (HP Pl Pr) as [Pl' Pr']. split; [|by apply Q_cmp].
  intros v (a & b & Ha & Hb & ->)%den_cmp_inv. destruct (Hv a b Ha Hb) as (a' & b' & Ha' & Hb' & <-). by apply den_order.
Qed.

Lemma wraps_sub a b : u_ltb a (wrapping_sub a b) = u_ltb a b.
Proof.
  unfold u_ltb. pose proof (uval_range a). pose proof (uval_range b). apply eq_iff_eq_true. rewrite !Z.ltb_lt.
  destruct (Z.le_gt_cases (uval b) (uval a)); [rewrite uval_sub_le by lia|rewrite uval_sub_lt by lia]; lia.
Qed.
Lemma leb_ltb a b : u_leb a b = negb (u_ltb b a).
Proof. unfold u_leb, u_ltb. apply Z.leb_antisym. Qed.

Lemma sub_underflow_keeps op l r b : normalize_sub_underflow_cmp op l r = Some b -> bkeeps (BCmp op l r) b.
Proof.
  unfold normalize_sub_underflow_cmp. destruct (match op with Ult => _ | _ => _ end) as [[[base diff] underflow]|] eqn:E; [|done].
  destruct diff as [| | | | | |[] m s| |]; try done. destruct (expr_eqb_spec m base) as [->|]; [|done]. intros [= <-].
  destruct op; simplify_eq; apply bkeeps_to_cmp; try done; try (simpl; naive_solver); intros a b Ha Hb.
  all: match goal with H : den (EBinOp Sub _ _) = Some _ |- _ => apply den_binop_inv in H as (x & y & Hx & Hy & ->) end; simplify_eq; eexists _, _.
  all: split; [done|]; split; [done|]; cbn [cmpop_eval binop_eval]; rewrite ?leb_ltb, wraps_sub; done.
Qed.

Lemma add_parts_shape op l r base i ovf a b : add_overflow_parts op l r = Some (base, i, ovf) -> den l = Some a -> den r = Some b ->
  exists bv iv, den base = Some bv /\ den i = Some iv /\
    cmpop_eval op a b = (if ovf then u_ltb (wrapping_add bv iv) bv else negb (u_ltb (wrapping_add bv iv) bv)).
Proof.
  intros H Ha Hb. unfold add_overflow_parts in H.
  destruct op; try done; match type of H with option_map _ ?o = _ => destruct o as [[x y]|] eqn:E; [|done] end; simpl in H; injection H as <- <- <-.
  all: destruct (add_operand_den model _ _ _ _ _ E ltac:(eassumption)) as (bv & iv & Hbv & Hiv & ->); simplify_eq; eexists _, _; (split; [done|]); (split; [done|]).
  all: cbn [cmpop_eval]; rewrite ?leb_ltb; done.
Qed.
Lemma add_parts_hashes op l r base i ovf : add_overflow_parts op l r = Some (base, i, ovf) -> P l -> P r -> P base /\ P i.
Proof.
  assert (Hadd : forall sum x y z, add_with_operand sum x = Some (y, z) -> P sum -> P z).
  { intros sum x y z. destruct sum as [| | | | | |[] p q| |]; try done. simpl. intros H [Pp Pq]. repeat case_match; naive_solver. }
  intros H Pl Pr. unfold add_overflow_parts in H.
  destruct op; try done; match type of H with option_map _ ?o = _ => destruct o as [[x y]|] eqn:E; [|done] end; simpl in H; injection H as <- <- <-; eauto.
Qed.

Lemma uval_u_not a : uval (u_not a) = word_modulus - 1 - uval a.
Proof. pose proof (uval_range a). apply uval_U_small. lia. Qed.

Lemma add_wraps b i : u_ltb (wrapping_add b i) b = u_ltb (u_not b) i.
Proof.
  unfold u_ltb. rewrite uval_u_not. pose proof (uval_range b). pose proof (uval_range i). apply eq_iff_eq_true. rewrite !Z.ltb_lt.
  destruct (add_split b i) as [[? ->]|[? ->]]; lia.
Qed.
Lemma complement_den base b : den base = Some b -> den (complement base) = Some (u_not b).
Proof.
  intros Hb. unfold complement. destruct base as [| | | | | |[] m x| |]; try by apply den_not.
  destruct (const_is m (u_eqb MAX)) eqn:E; [|by apply den_not]. apply den_binop_inv in Hb as (mv & xv & Hm & Hx & ->).
  rewrite (const_eq_val _ _ _ _ E Hm), Hx. f_equal. apply uval_inj. pose proof (uval_range xv). cbn [binop_eval].
  change (uval MAX) with (word_modulus - 1) in *. rewrite uval_u_not, uval_sub_le; change (uval MAX) with (word_modulus - 1); lia.
Qed.
Lemma complement_hashes base : P base -> P (complement base).
Proof.
  intros Pb. unfold complement. destruct base as [| | | | | |[] m x| |]; try by apply P_sym_not. case_match; [|by apply P_sym_not]. by destruct Pb.
Qed.

Lemma narrow_sum b i bb bi : width_ok model b bb -> width_ok model i bi -> sat_add (Z.max bb bi) 1 <= 256 ->
  forall bv iv, den b = Some bv -> den i = Some iv -> u_ltb (wrapping_add bv iv) bv = false.
Proof.
  intros [Hb1 Hb] [Hi1 Hi] Hs bv iv Hbv Hiv. specialize (Hb _ Hbv). specialize (Hi _ Hiv).
  assert (Hm : 0 <= Z.max bb bi <= 255) by (revert Hs; unfold sat_add, usize_max; lia).
  assert (Hpow : forall x, x <= Z.max bb bi -> 2 ^ x <= 2 ^ 255) by (intros; apply Z.pow_le_mono_r; lia).
  pose proof (Hpow bb ltac:(lia)). pose proof (Hpow bi ltac:(lia)). assert (Hmod : word_modulus = 2 * 2 ^ 255) by reflexivity.
  pose proof (uval_range iv). apply Z.ltb_ge. destruct (add_split bv iv) as [[_ ->]|[? _]]; lia.
Qed.

Lemma add_overflow_keeps op l r b : normalize_add_overflow_cmp op l r = Some b -> bkeeps (BCmp op l r) b.
Proof.
  unfold normalize_add_overflow_cmp. destruct (normalize_sub_underflow_cmp op l r) as [b'|] eqn:Es.
  { intros [= ->]. by apply sub_underflow_keeps. }
  destruct (add_overflow_parts op l r) as [[[base i] ovf]|] eqn:E; [|done]. destruct (_ <=? 256) eqn:Ew.
  - intros [= <-] [Pl Pr]. split; [|done]. intros v (x & y & Hx & Hy & ->)%den_cmp_inv.
    destruct (add_parts_shape _ _ _ _ _ _ _ _ E Hx Hy) as (bv & iv & Hbv & Hiv & ->).
    rewrite (narrow_sum base i _ _ (unsigned_bits_ok model base) (unsigned_bits_ok model i) ltac:(by apply Z.leb_le) _ _ Hbv Hiv). by destruct ovf.
  - intros [= <-]. destruct ovf; apply bkeeps_to_cmp; try done.
    1, 3: intros Pl Pr; destruct (add_parts_hashes _ _ _ _ _ _ E Pl Pr); split; auto using complement_hashes.
    all: intros x y Hx Hy; destruct (add_parts_shape _ _ _ _ _ _ _ _ E Hx Hy) as (bv & iv & Hbv & Hiv & ->); eexists _, _.
    1: split; [by apply complement_den|]; split; [done|]. 2: split; [done|]; split; [by apply complement_den|].
    all: cbn [cmpop_eval]; rewrite ?leb_ltb, add_wraps; done.
Qed.

(** *** Comparisons with 0 and 1 *)
Lemma test_eq_zero_tests e b : test_eq_zero nb e = Some b -> tests is_zero e b.
Proof.
  unfold test_eq_zero. intros [= <-]. destruct (normalize_eq_zero_for_solver nb e) as [c|] eqn:E; [by apply eq_zero_tests|].
  apply tests_eq_zero. reflexivity.
Qed.
Lemma test_ne_zero_tests e b : test_ne_zero nb e = Some b -> tests nonzero e b.
Proof.
  unfold test_ne_zero. intros [= <-]. destruct (normalize_ne_zero_for_solver nb e) as [c|] eqn:E; [by apply ne_zero_tests|].
  apply (tests_not is_zero), tests_eq_zero. reflexivity.
Qed.
(** A comparison that a test of its left or right word decides. *)
Lemma tests_left f op l r b : tests f l b -> (forall x y, den l = Some x -> den r = Some y -> cmpop_eval op x y = f x) -> bkeeps (BCmp op l r) b.
Proof. intros Ht Hv [Pl Pr]. destruct (Ht Pl) as [Qb Hb]. split; [|done]. intros v (x & y & Hx & Hy & ->)%den_cmp_inv. rewrite (Hv x y Hx Hy). by apply Hb. Qed.
Lemma tests_right f op l r b : tests f r b -> (forall x y, den l = Some x -> den r = Some y -> cmpop_eval op x y = f y) -> bkeeps (BCmp op l r) b.
Proof. intros Ht Hv [Pl Pr]. destruct (Ht Pr) as [Qb Hb]. split; [|done]. intros v (x & y & Hx & Hy & ->)%den_cmp_inv. rewrite (Hv x y Hx Hy). by apply Hb. Qed.

(** The arithmetic of tests against 0 and 1. *)
Ltac zero_one :=
  intros x y Hx Hy;
  repeat match goal with
  | H : is_one ?e = true, He : den ?e = Some _ |- _ => rewrite (is_one_den _ _ H He); clear He
  | H : const_is ?e is_zero = true, He : den ?e = Some _ |- _ => rewrite (zero_const_val _ _ H He); clear He
  end;
  match goal with |- context [is_zero ?x] => pose proof (uval_range x) end;
  cbn [cmpop_eval]; unfold u_ltb, u_leb, is_zero; rewrite ?uval_ONE, ?uval_ZERO; apply eq_iff_eq_true;
  rewrite ?negb_true_iff, ?Z.eqb_neq, ?Z.eqb_eq, ?Z.ltb_lt, ?Z.leb_le; lia.

Lemma udiv_cmp_keeps op l r b : normalize_udiv_cmp nb op l r = Some b -> bkeeps (BCmp op l r) b.
Proof.
  intros H. destruct op; try done; cbn [normalize_udiv_cmp] in H.
  all: match type of H with (if ?t then _ else _) = _ => destruct t eqn:E1 end;
    [first [eapply tests_left; [by apply test_ne_zero_tests|zero_one] | eapply tests_left; [by apply test_eq_zero_tests|zero_one]]|].
  all: match type of H with (if ?t then _ else _) = _ => destruct t eqn:E2; [|done] end;
    first [eapply tests_right; [by apply test_ne_zero_tests|zero_one] | eapply tests_right; [by apply test_eq_zero_tests|zero_one]].
Qed.

(** *** A constant divided by the other side *)
Lemma guarded_udiv_den q n d v : guarded_udiv_operands q = Some (n, d) -> den q = Some v -> P q ->
  exists nv dv, den n = Some nv /\ den d = Some dv /\ v = binop_eval UDiv nv dv.
Proof.
  intros Hq Hv Pq. destruct q as [| | | | | |[] n' d'| |c z q]; try done; simpl in Hq.
  - simplify_eq. by apply den_binop_inv.
  - destruct (const_is z is_zero) eqn:Ez; [|done]. destruct (udiv_operands q) as [[n' d']|] eqn:Eq; [|done].
    destruct (SBool.zero_check_operand c) as [x|] eqn:Ec; [|done]. destruct (expr_eqb_spec x d') as [->|]; [|done]. simplify_eq.
    apply udiv_operands_shape in Eq as ->. destruct Pq as (_ & _ & Pn & Pd).
    apply den_ite_inv in Hv as (b & Hb & Hv). destruct (zero_check_sound model _ _ _ Ec Hb) as (dv & Hd & ->).
    destruct (proj1 hashes_total _ Pn) as [nv Hn]. exists nv, dv. split; [done|]. split; [done|]. destruct (is_zero dv) eqn:Ezd.
    + rewrite (zero_const_val _ _ Ez Hv). cbn [binop_eval]. by rewrite Ezd.
    + apply den_binop_inv in Hv as (n1 & d1 & Hn1 & Hd1 & ->). by simplify_eq.
Qed.
Lemma guarded_udiv_hashes q n d : guarded_udiv_operands q = Some (n, d) -> P q -> P d.
Proof.
  intros Hq Pq. destruct q as [| | | | | |[] n' d'| |c z q]; try done; simpl in Hq.
  - simplify_eq. by destruct Pq.
  - destruct (const_is z is_zero); [|done]. destruct (udiv_operands q) as [[n' d']|] eqn:Eq; [|done].
    repeat case_match; try done. simplify_eq. apply udiv_operands_shape in Eq as ->. by destruct Pq as (_ & _ & _ & Pd).
Qed.

(** [a <= k / a] is [a <= sqrt k]. *)
Lemma sqrt_threshold k a : u_leb a (binop_eval UDiv k a) = u_leb a (u_sqrt k).
Proof.
  unfold u_sqrt, u_leb. pose proof (uval_range k). pose proof (uval_range a). pose proof (Z.sqrt_spec (uval k) ltac:(lia)) as Hs. cbv zeta in Hs.
  pose proof (Z.sqrt_nonneg (uval k)). rewrite (uval_U_small (Z.sqrt (uval k))) by nia.
  cbn [binop_eval]. unfold is_zero. destruct (Z.eqb_spec (uval a) 0) as [E|E].
  - rewrite E, uval_ZERO. apply eq_iff_eq_true. rewrite !Z.leb_le. lia.
  - rewrite uval_div. apply eq_iff_eq_true. rewrite !Z.leb_le. split; intros Hle.
    + apply Z.sqrt_le_square; [lia..|]. pose proof (Z.mul_div_le (uval k) (uval a) ltac:(lia)). nia.
    + apply Z.div_le_lower_bound; [lia|]. nia.
Qed.

Lemma const_over_self_keeps op l r b : normalize_const_over_self_udiv_cmp op l r = Some b -> bkeeps (BCmp op l r) b.
Proof.
  unfold normalize_const_over_self_udiv_cmp. destruct (match op with Ule => _ | _ => _ end) as [[[x q] cpl]|] eqn:E; [|done].
  destruct (guarded_udiv_operands q) as [[n d]|] eqn:Eq; [|done]. destruct (expr_eqb_spec d x) as [->|]; [|done].
  destruct (as_const n) as [k|] eqn:Ek; [|done]. intros [= <-] [Pl Pr].
  assert (Hsides : (op = Ule /\ l = x /\ r = q /\ cpl = false) \/ (op = Ult /\ r = x /\ l = q /\ cpl = true)) by (destruct op; naive_solver).
  assert (Hval : forall xv qv, den x = Some xv -> den q = Some qv -> P q -> u_leb xv qv = u_leb xv (u_sqrt k)).
  { intros xv qv Hx Hq Pq. destruct (guarded_udiv_den _ _ _ _ Eq Hq Pq) as (nv & dv & Hn & Hd & ->). simplify_eq.
    rewrite (as_const_den _ _ _ _ Ek Hn). apply sqrt_threshold. }
  destruct Hsides as [(-> & -> & -> & ->)|(-> & -> & -> & ->)].
  - split; [|apply Q_cmp; [done|apply P_constant]]. intros v (xv & qv & Hx & Hq & ->)%den_cmp_inv. cbn [cmpop_eval].
    rewrite (Hval _ _ Hx Hq Pr). exact (den_order model Ule _ _ _ _ ltac:(done) Hx (den_constant model (u_sqrt k))).
  - split; [|apply Q_cmp; [apply P_constant|done]]. intros v (qv & xv & Hq & Hx & ->)%den_cmp_inv. cbn [cmpop_eval].
    assert (Hn : forall a b, u_ltb a b = negb (u_leb b a)) by (intros; rewrite leb_ltb; by rewrite negb_involutive).
    rewrite Hn, (Hval _ _ Hx Hq Pl), <- Hn. exact (den_order model Ult _ _ _ _ ltac:(done) (den_constant model (u_sqrt k)) Hx).
Qed.

(** *** Conditions *)
Lemma bkeeps_const b v : (Q b -> forall t, denb b = Some t -> t = v) -> bkeeps b (SBool.constant v).
Proof. intros H Qb. split; [|done]. intros t Ht. by rewrite (H Qb t Ht). Qed.
Lemma bkeeps_map_not o b b' : (forall c, o = Some c -> bkeeps b c) -> option_map SBool.not_bool o = Some b' -> bkeeps (BNot b) b'.
Proof. destruct o as [c|]; [|done]. intros H [= <-]. apply bkeeps_not. by apply H. Qed.
Lemma first_some_or {A} (x y : option A) a : first_some x y = Some a -> x = Some a \/ y = Some a.
Proof. destruct x; naive_solver. Qed.

Lemma eq_zero_side l r b : tests is_zero l b -> const_is r is_zero = true -> bkeeps (BCmp Eq l r) b.
Proof. intros Ht Hr. eapply tests_left; [done|]. intros x y Hx Hy. by rewrite (zero_const_val _ _ Hr Hy). Qed.
Lemma udiv_eq_zero_keeps l r r' b : normalize_udiv_eq_zero nb l r' = Some b -> const_is r is_zero = true \/ r = r' -> bkeeps (BCmp Eq l r) b.
Proof.
  unfold normalize_udiv_eq_zero. destruct (const_is r' is_zero) eqn:E; [|done]. intros H%eq_zero_tests [Hr| ->]; by apply eq_zero_side.
Qed.
Lemma overflow_or_udiv_keeps op l r b :
  first_some (normalize_add_overflow_cmp op l r) (normalize_udiv_cmp nb op l r) = Some b -> bkeeps (BCmp op l r) b.
Proof. intros [H|H]%first_some_or; [by apply add_overflow_keeps|by apply udiv_cmp_keeps]. Qed.
Lemma always_true_eq_zero l r : word_bool_always_true nb SCtx.empty l = true -> const_is r is_zero = true ->
  forall t, P l -> denb (BCmp Eq l r) = Some t -> t = false.
Proof.
  intros H Hr t Pl (x & y & Hx & Hy & ->)%den_cmp_inv. rewrite (zero_const_val _ _ Hr Hy).
  exact (always_true_word _ _ _ (empty_ok model) H Pl Hx).
Qed.

Lemma eq_for_solver_keeps l r b :
  (if const_is r is_zero then
     match normalized_bool_word_condition nb l with
     | Some value => Some (SBool.not_bool value)
     | None => if word_bool_always_true nb SCtx.empty l then Some (SBool.constant false) else normalize_udiv_eq_zero nb l zero
     end
   else if is_one r then normalized_bool_word_condition nb l
   else normalize_udiv_eq_zero nb l r) = Some b -> bkeeps (BCmp Eq l r) b.
Proof.
  destruct (const_is r is_zero) eqn:Ez; [|destruct (is_one r) eqn:E1].
  - destruct (normalized_bool_word_condition nb l) as [c|] eqn:Ec; [|destruct (word_bool_always_true nb SCtx.empty l) eqn:Ew].
    + intros [= <-] [Pl Pr]. destruct (nbwc_decides _ _ Ec Pl) as [Qc Hc]. split; [|by apply Q_not]. intros v (x & y & Hx & Hy & ->)%den_cmp_inv.
      destruct (Hc _ Hx) as (t & Ht & ->). rewrite (zero_const_val _ _ Ez Hy), den_not_bool, Ht. by destruct t.
    + intros [= <-]. apply bkeeps_const. intros [Pl _] t. by apply (always_true_eq_zero l r).
    + intros H. eapply udiv_eq_zero_keeps; [done|]. by left.
  - intros Hc [Pl Pr]. destruct (nbwc_decides _ _ Hc Pl) as [Qc Hd]. split; [|done]. intros v (x & y & Hx & Hy & ->)%den_cmp_inv.
    destruct (Hd _ Hx) as (t & -> & ->). rewrite (is_one_den _ _ E1 Hy). cbn [cmpop_eval]. by rewrite b2u_one.
  - intros H. eapply udiv_eq_zero_keeps; [done|]. by right.
Qed.
Lemma ne_for_solver_keeps l r b :
  (if const_is r is_zero then
     if word_bool_always_true nb SCtx.empty l then Some (SBool.constant true)
     else option_map SBool.not_bool (normalize_udiv_eq_zero nb l zero)
   else option_map SBool.not_bool (normalize_udiv_eq_zero nb l r)) = Some b -> bkeeps (BNot (BCmp Eq l r)) b.
Proof.
  destruct (const_is r is_zero) eqn:Ez; [destruct (word_bool_always_true nb SCtx.empty l) eqn:Ew|].
  - intros [= <-]. apply bkeeps_const. intros [Pl Pr] t Ht. cbn [denote_bool] in Ht. change (option_map negb (denb (BCmp Eq l r)) = Some t) in Ht.
    destruct (denb (BCmp Eq l r)) as [u|] eqn:E; [|done]. injection Ht as <-. by rewrite (always_true_eq_zero l r Ew Ez u Pl E).
  - apply bkeeps_map_not. intros c Hc. eapply udiv_eq_zero_keeps; [done|]. by left.
  - apply bkeeps_map_not. intros c Hc. eapply udiv_eq_zero_keeps; [done|]. by right.
Qed.

Lemma udiv_for_solver_keeps b b' : normalize_udiv_for_solver nb b = Some b' -> bkeeps b b'.
Proof.
  unfold normalize_udiv_for_solver. cbv zeta. destruct (match b with BCmp op l r => _ | _ => _ end) as [c|] eqn:E.
  - intros [= <-]. destruct b as [|[| | |op l r]| |op l r]; try done.
    + eapply bkeeps_map_not; [|done]. intros x. apply const_over_self_keeps.
    + by apply const_over_self_keeps.
  - clear E. destruct b as [|[| | |op l r]| |op l r]; try done.
    + destruct op; [apply ne_for_solver_keeps|..]; apply bkeeps_map_not; intros x; apply overflow_or_udiv_keeps.
    + destruct op; [apply eq_for_solver_keeps|..]; apply overflow_or_udiv_keeps.
Qed.

(** *** Comparisons *)
(** [(d * o) / d = o] for [d > 0] exactly when [o <= MAX / d]. *)
Lemma mul_div_threshold (d o : U256) : is_zero d = false -> u_eqb (binop_eval UDiv (wrapping_mul d o) d) o = u_leb o (u_div MAX d).
Proof.
  intros Hz. apply eq_iff_eq_true. rewrite u_leb_le, uval_div, u_eqb_eq. pose proof Hz as Hd. unfold is_zero in Hd. apply Z.eqb_neq in Hd.
  pose proof (uval_range d). pose proof (uval_range o). change (uval MAX) with (word_modulus - 1). split; intros H1.
  - apply div_product_fits in H1. apply Z.div_le_lower_bound; lia.
  - apply div_product; [lia|]. pose proof (Z.mul_div_le (word_modulus - 1) (uval d) ltac:(lia)). nia.
Qed.
Lemma den_cmp_word_const op e v k : op <> Eq -> den e = Some v -> denb (cmp_word_const op e k) = Some (cmpop_eval op v k).
Proof.
  intros Hop Hv. unfold cmp_word_const. destruct (as_const e) as [w|] eqn:E.
  - by rewrite (as_const_den _ _ _ _ E Hv).
  - exact (den_order model op _ _ _ _ Hop Hv (den_constant model k)).
Qed.
Lemma mul_div_bound_keeps q e b : mul_div_bound q e = Some b -> P q -> P e ->
  Q b /\ forall x y, den q = Some x -> den e = Some y -> denb b = Some (u_eqb x y).
Proof.
  unfold mul_div_bound, mul_div_identity_operands. destruct (mul_div_operands q) as [[d o]|] eqn:Eq; [|done].
  destruct (expr_eqb_spec o e) as [->|]; [|done]. destruct (as_const d) as [k|] eqn:Ek; [|done]. destruct (is_zero k) eqn:Ez; [done|]. intros [= <-] Pq Pe.
  split; [by apply Q_cmp_word_const|]. intros x y Hx Hy. destruct (mul_div_den model _ _ _ _ Eq Hx) as (dv & ov & Hd & Ho & ->). simplify_eq.
  rewrite (as_const_den _ _ _ _ Ek Hd), mul_div_threshold by done. by apply den_cmp_word_const.
Qed.
Lemma u_eqb_comm a b : u_eqb a b = u_eqb b a.
Proof. apply u_eqb_sym. Qed.
Lemma sub_zero_value a b : u_eqb (wrapping_sub a b) ZERO = u_eqb a b.
Proof.
  unfold u_eqb. rewrite uval_ZERO. pose proof (uval_range a). pose proof (uval_range b). apply eq_iff_eq_true. rewrite !Z.eqb_eq.
  destruct (Z.le_gt_cases (uval b) (uval a)); [rewrite uval_sub_le by lia|rewrite uval_sub_lt by lia]; lia.
Qed.
Lemma sub_eq_zero_keeps d z b : sub_eq_zero d z = Some b -> P d -> P z ->
  Q b /\ forall x y, den d = Some x -> den z = Some y -> denb b = Some (u_eqb x y).
Proof.
  unfold sub_eq_zero. destruct (const_is z is_zero) eqn:Ez; [|done]. destruct d as [| | | | | |[] m s| |]; try done. intros [= <-] [Pm Ps] Pz.
  destruct (bkeeps_eq m s m s ltac:(reflexivity) ltac:(reflexivity) (conj Pm Ps)) as [Rc Qc]. split; [done|].
  intros x y (a & b & Ha & Hb & ->)%den_binop_inv Hy. rewrite (zero_const_val _ _ Ez Hy). cbn [binop_eval]. rewrite sub_zero_value.
  exact (Rc _ (den_cmp_intro model Eq m s a b Ha Hb)).
Qed.
Lemma eq_rewritten_keeps l r b :
  first_some (first_some (mul_div_bound l r) (mul_div_bound r l)) (first_some (sub_eq_zero l r) (sub_eq_zero r l)) = Some b -> bkeeps (BCmp Eq l r) b.
Proof.
  intros H [Pl Pr].
  assert (Hb : Q b /\ forall x y, den l = Some x -> den r = Some y -> denb b = Some (u_eqb x y)).
  { apply first_some_or in H as [[H|H]%first_some_or|[H|H]%first_some_or].
    1: by apply (mul_div_bound_keeps l r). 2: by apply (sub_eq_zero_keeps l r).
    1: destruct (mul_div_bound_keeps _ _ _ H Pr Pl) as [Qb Hb]. 2: destruct (sub_eq_zero_keeps _ _ _ H Pr Pl) as [Qb Hb].
    all: split; [done|]; intros x y Hx Hy; rewrite u_eqb_comm; by apply Hb. }
  destruct Hb as [Qb Hb]. split; [|done]. intros v (x & y & Hx & Hy & ->)%den_cmp_inv. by apply Hb.
Qed.

Lemma move_complement_keeps op l r l' r' : move_complement op l r = (l', r') ->
  (P l -> P r -> P l' /\ P r') /\
  forall a b, den l = Some a -> den r = Some b -> exists a' b', den l' = Some a' /\ den r' = Some b' /\ cmpop_eval op a' b' = cmpop_eval op a b.
Proof.
  assert (Hid : (P l -> P r -> P l /\ P r) /\
    forall a b, den l = Some a -> den r = Some b -> exists a' b', den l = Some a' /\ den r = Some b' /\ cmpop_eval op a' b' = cmpop_eval op a b)
    by (split; [done|]; intros a b Ha Hb; by exists a, b).
  assert (Hcmp : op <> Eq -> op <> Slt -> op <> Sgt -> forall x k, cmpop_eval op (u_not k) x = cmpop_eval op (u_not x) k /\ cmpop_eval op x (u_not k) = cmpop_eval op k (u_not x)).
  { intros H1 H2 H3 x k. pose proof (uval_u_not x). pose proof (uval_u_not k). destruct op; try done; cbn [cmpop_eval]; unfold u_ltb, u_leb;
      split; apply eq_iff_eq_true; rewrite ?Z.ltb_lt, ?Z.leb_le; lia. }
  intros H. assert (Hop : move_complement op l r = (l, r) \/ (op <> Eq /\ op <> Slt /\ op <> Sgt)) by (destruct op; auto).
  destruct Hop as [Hop|(H1 & H2 & H3)]; [rewrite Hop in H; by simplify_eq|].
  assert (Hshape : move_complement op l r = (l, r) \/ (exists x k, l = ENot x /\ r = EConst k /\ (l', r') = (constant (u_not k), x)) \/
     (exists x k, l = EConst k /\ r = ENot x /\ (l', r') = (x, constant (u_not k)))).
  { rewrite <- H. destruct op, l, r; try done; try (by left); right; first [left; by eexists _, _|right; by eexists _, _]. }
  destruct Hshape as [Hs|[(x & k & -> & -> & [= -> ->])|(x & k & -> & -> & [= -> ->])]]; [rewrite Hs in H; by simplify_eq|..].
  - split; [intros; split; [apply P_constant|done]|]. intros a b Ha Hb. simpl in Ha, Hb. destruct (den x) as [xv|] eqn:Hx; [|done]. simplify_eq/=.
    exists (u_not b), xv. split; [apply den_constant|]. split; [done|]. by apply Hcmp.
  - split; [intros; split; [done|apply P_constant]|]. intros a b Ha Hb. simpl in Ha, Hb. destruct (den x) as [xv|] eqn:Hx; [|done]. simplify_eq/=.
    exists xv, (u_not a). split; [done|]. split; [apply den_constant|]. by apply Hcmp.
Qed.

Lemma swapped_cmp op op' l r l' r' :
  op' <> Eq -> (forall a b, cmpop_eval op' b a = cmpop_eval op a b) -> move_complement op l r = (l', r') -> bkeeps (BCmp op l r) (cmp op' r' l').
Proof.
  intros Hop' Hswap Hm. destruct (move_complement_keeps _ _ _ _ _ Hm) as [HP Hv]. apply bkeeps_to_cmp; [done|intros; split; by apply HP|].
  intros a b Ha Hb. destruct (Hv a b Ha Hb) as (a' & b' & Ha' & Hb' & <-). exists b', a'. by rewrite Hswap.
Qed.
Lemma straight_cmp op l r l' r' : op <> Eq -> move_complement op l r = (l', r') -> bkeeps (BCmp op l r) (cmp op l' r').
Proof. intros Hop Hm. destruct (move_complement_keeps _ _ _ _ _ Hm) as [HP Hv]. by apply bkeeps_to_cmp. Qed.

Lemma slt_sgt a b : cmpop_eval Slt b a = cmpop_eval Sgt a b.
Proof. apply eq_iff_eq_true. rewrite slt_spec, sgt_spec. done. Qed.

Lemma cmp_for_solver_keeps op l r : bkeeps (BCmp op l r) (normalize_cmp_for_solver op l r).
Proof.
  unfold normalize_cmp_for_solver. destruct (match op with Eq => _ | _ => _ end) as [b|] eqn:E.
  { destruct op; try done. by apply eq_rewritten_keeps. }
  clear E. destruct (move_complement op l r) as [l' r'] eqn:Em. destruct op; try by apply straight_cmp.
  - simpl in Em. simplify_eq. apply bkeeps_cmp; reflexivity.
  - by apply (swapped_cmp Ugt).
  - by apply (swapped_cmp Uge).
  - apply (swapped_cmp Sgt); [done|apply slt_sgt|done].
Qed.

Lemma bool_node_keeps b : bkeeps b (normalize_bool_node_for_solver nb b).
Proof.
  unfold normalize_bool_node_for_solver. destruct (normalize_udiv_for_solver nb b) as [b'|] eqn:E; [by apply udiv_for_solver_keeps|].
  destruct b as [|b| |op l r]; try reflexivity.
  - destruct b as [| | |[] l r]; try reflexivity. destruct l; try reflexivity. intros [Pl Pr].
    destruct (cmp_for_solver_keeps Ule r (ENot l) (conj Pr Pl)) as [Rc Qc]. split; [|done]. intros v Hv. apply Rc.
    change (option_map negb (denb (BCmp Ult (ENot l) r)) = Some v) in Hv. destruct (denb (BCmp Ult (ENot l) r)) as [t|] eqn:Et; [|done].
    injection Hv as <-. apply den_cmp_inv in Et as (x & y & Hx & Hy & ->). rewrite (den_cmp_intro model Ule r (ENot l) y x Hy Hx).
    f_equal. cbn [cmpop_eval]. apply leb_ltb.
  - pose proof (normalize_expr_keeps l) as Kl. pose proof (normalize_expr_keeps r) as Kr.
    intros [Pl Pr]. destruct (Kl Pl) as [Rl Pl'], (Kr Pr) as [Rr Pr'].
    assert (Hrel : brefines (BCmp op l r) (BCmp op (normalize_expr_for_solver nb l) (normalize_expr_for_solver nb r))).
    { intros v (x & y & Hx & Hy & ->)%den_cmp_inv. apply den_cmp_intro; auto. }
    destruct (match op with Eq => _ | _ => _ end) eqn:Ep.
    + destruct op; try done. split; [|done]. intros v Hv. apply Hrel in Hv as (x & y & Hx & Hy & ->)%den_cmp_inv.
      rewrite (polynomial_identity_sound model _ _ _ _ Ep Hx Hy). simpl. unfold u_eqb. by rewrite Z.eqb_refl.
    + destruct (cmp_for_solver_keeps op _ _ (conj Pl' Pr')) as [R1 Q1]. cbv zeta.
      destruct (normalize_udiv_for_solver nb (normalize_cmp_for_solver op _ _)) as [b'|] eqn:En; simpl.
      * destruct (udiv_for_solver_keeps _ _ En Q1) as [R2 Q2]. split; [|done]. etransitivity; [done|]. by etransitivity.
      * split; [|done]. by etransitivity.
Qed.
End Open.

(** ** The knot *)
Lemma normalize_fuel_keeps n b : bkeeps b (normalize_bool_fuel n b).
Proof. revert b. induction n as [|n IH]; intros b; [reflexivity|]. simpl. apply fold_bool_keeps. intros x. by apply bool_node_keeps. Qed.

(** ** Rewrites under the facts of a context *)
Lemma rounded_product_hashes e x k : SBoundsOf.rounded_product_operands e = Some (x, k) -> P e -> P x.
Proof.
  unfold SBoundsOf.rounded_product_operands. destruct (SBoundsOf.constant_mul_operands e) as [[q f]|] eqn:E; [|done].
  destruct (udiv_operands q) as [[n d]|] eqn:Eq; [|done]. case_match; [|done]. intros [= -> ->] Pe.
  pose proof (constant_mul_hashes _ _ _ _ E Pe) as Pq. apply udiv_operands_shape in Eq as ->. by destruct Pq.
Qed.
Lemma rounding_offset_hashes e k w x b a : SBoundsOf.rounding_offset e k w = Some (x, b, a) -> P e -> P x.
Proof.
  destruct e as [| | | | | |[] l r| |]; try done; simpl; intros H Pe.
  - repeat case_match; try done. simplify_eq. by destruct Pe.
  - destruct (const_is r _); [|done]. destruct l as [| | | | | |[] l1 l2| |]; try done. case_match; [|done]. simplify_eq. by destruct Pe as [[? ?] ?].
Qed.
Lemma rounding_anchor_hashes c e anchor b : SBoundsOf.rounding_bounds c e anchor = Some b -> P e -> P (rb_anchor b).
Proof.
  unfold SBoundsOf.rounding_bounds, SBoundsOf.rounding_bounds_cached. destruct (SBoundsOf.rounded_product_operands e) as [[x k]|] eqn:Er; [|done]. cbv zeta.
  intros H Pe. pose proof (rounded_product_hashes _ _ _ Er Pe) as Px. destruct (match anchor with Some a => _ | None => _ end); [by injection H as <-|].
  destruct (SBoundsOf.rounding_offset x k _) as [[[y bias] addition]|] eqn:Eo; [|by injection H as <-].
  pose proof (rounding_offset_hashes _ _ _ _ _ _ Eo Px) as Py. unfold iv_or, iv_bind in H.
  destruct (SBoundsOf.interval_cached c y SBoundsOf.new_iv) as [[i|] st]; [|by injection H as <-].
  destruct (u_checked_add (wi_max i) addition); by injection H as <-.
Qed.

Section Ctx.
Variable fuel : nat.
Variable c : ConstraintContext.
Hypothesis c_ok : ctx_ok model c.
Abbreviation nb := (normalize_bool_for_solver fuel).

Lemma nb_keeps_all b : bkeeps b (nb b).
Proof. apply normalize_fuel_keeps. Qed.

Lemma exact_word_keeps e e' : exact_word c e = Some e' -> keeps e e'.
Proof.
  unfold exact_word. destruct (SCtx.get e (exact_values c)) as [k|] eqn:E; [|done]. intros [= <-] Pe. split; [|apply P_constant].
  intros v Hv. rewrite (ok_exact model c c_ok e k E v Hv). apply den_constant.
Qed.
Lemma select_word_keeps e e' : select_word c e = Some e' -> keeps e e'.
Proof.
  destruct e as [| | | | | | | |b t f]; try done. unfold select_word. destruct (bounded_bool_value c b) as [v|] eqn:E.
  - intros [= <-] (Qb & Pt & Pf). split; [|by destruct v]. intros x (y & Hy & Hx)%den_ite_inv.
    rewrite (bounded_bool_sound model c c_ok _ _ _ E Hy) in Hx. by destruct v.
  - destruct (normalize_signed_add_comparison c b) as [b'|] eqn:Es; [|done]. intros [= <-] (Qb & Pt & Pf).
    apply keeps_ite; [|reflexivity|reflexivity|done]. intros _. split; [by apply (signed_comparison_sound model c c_ok)|by eapply signed_comparison_hashes].
Qed.
Lemma rounded_word_keeps e e' : quotient_of_rounded_product c e = Some e' -> keeps e e'.
Proof.
  intros H Pe. split; [intros v; by apply (rounded_quotient_sound model c c_ok _ _ _ H)|]. revert H. unfold quotient_of_rounded_product.
  destruct (udiv_operands e) as [[n d]|] eqn:Eu; [|done]. apply udiv_operands_shape in Eu as ->. destruct Pe as [Pn Pd].
  destruct (SBoundsOf.rounding_bounds c n None) as [rb|] eqn:Erb; [|done]. pose proof (rounding_anchor_hashes _ _ _ _ Erb Pn) as Pa.
  destruct (match as_const d with Some _ => _ | None => _ end); [|done]. destruct (_ || _); [done|].
  destruct (rb_anchor rb) as [| | | | | |[] l r| |]; try done. destruct Pa as [Pl Pr]. repeat case_match; naive_solver.
Qed.
Lemma bool_word_value e b v : normalized_bool_word_condition nb e = Some b -> P e -> den e = Some v -> exists t : bool, v = b2u t.
Proof. intros Hb Pe Hv. destruct (nbwc_decides nb nb_keeps_all _ _ Hb Pe) as [_ Hd]. destruct (Hd _ Hv) as (t & _ & ->). eauto. Qed.
Lemma masked_word_keeps e e' : masked_bool_word fuel e = Some e' -> keeps e e'.
Proof.
  destruct e as [| | | | | |[] x m| |]; try done. unfold masked_bool_word. destruct (is_one m) eqn:Em; [|done].
  destruct (normalized_bool_word_condition nb x) as [b|] eqn:Eb; [|done]. simpl. intros [= <-] [Px Pm]. split; [|done].
  intros v (a & k & Ha & Hk & ->)%den_binop_inv. rewrite (is_one_den _ _ Em Hk). destruct (bool_word_value _ _ _ Eb Px Ha) as [[] ->]; done.
Qed.
Lemma or_one_word_keeps e e' : or_one_word fuel e = Some e' -> keeps e e'.
Proof.
  destruct e as [| | | | | |[] l r| |]; try done. unfold or_one_word. destruct (_ || _) eqn:E; [|done]. intros [= <-] [Pl Pr]. split; [|apply P_one].
  intros v (a & b & Ha & Hb & ->)%den_binop_inv. apply orb_prop in E as [E|E]; apply andb_prop in E as [E1 E2].
  - rewrite (is_one_den _ _ E1 Ha). destruct (normalized_bool_word_condition nb r) as [x|] eqn:Ex; [|done].
    destruct (bool_word_value _ _ _ Ex Pr Hb) as [[] ->]; done.
  - rewrite (is_one_den _ _ E1 Hb). destruct (normalized_bool_word_condition nb l) as [x|] eqn:Ex; [|done].
    destruct (bool_word_value _ _ _ Ex Pl Ha) as [[] ->]; done.
Qed.
Lemma scaled_keeps e x k : P x -> (forall v, den e = Some v -> exists a, den x = Some a /\ v = wrapping_mul a k) -> keeps e (binop Mul x (constant k)).
Proof.
  intros Px H Pe. split; [|apply P_binop; [done|apply P_constant]]. intros v Hv. destruct (H v Hv) as (a & Ha & ->).
  exact (den_binop model Mul x (constant k) a k Ha (den_constant model k)).
Qed.
Lemma nested_mul_keeps e e' : nested_mul_word e = Some e' -> keeps e e'.
Proof.
  unfold nested_mul_word. destruct (SBoundsOf.constant_mul_operands e) as [[x o]|] eqn:E1; [|done].
  destruct (SBoundsOf.constant_mul_operands x) as [[y i]|] eqn:E2; [|done]. intros [= <-] Pe.
  pose proof (constant_mul_hashes _ _ _ _ E1 Pe) as Px. pose proof (constant_mul_hashes _ _ _ _ E2 Px) as Py. apply (scaled_keeps e y); try done.
  intros v Hv. destruct (constant_mul_den model _ _ _ _ E1 Hv) as (a & Ha & ->). destruct (constant_mul_den model _ _ _ _ E2 Ha) as (b & Hb & ->).
  exists b. split; [done|]. unfold wrapping_mul. apply uval_inj. rewrite !uval_U.
  rewrite Z.mul_mod_idemp_l, Z.mul_mod_idemp_r by done. f_equal. ring.
Qed.
Lemma scaled_factor_hashes e x k : exact_ceil_div_factor c e = Some (x, k) \/ exact_scaled_div_factor c e = Some (x, k) -> P e -> P x.
Proof.
  intros [H|H] Pe.
  - unfold exact_ceil_div_factor, ceil_div_product in H. destruct (udiv_operands e) as [[n d]|] eqn:Eu; [|done]. apply udiv_operands_shape in Eu as ->.
    destruct (as_const d); [|done]. destruct (is_zero _); [done|]. destruct Pe as [Pn _]. destruct n as [| | | | | |[] s o| |]; try done.
    destruct s as [| | | | | |[] p g| |]; try done. destruct Pn as [[Pp _] _]. destruct (_ && _); [|done].
    destruct (SBoundsOf.constant_mul_operands p) as [[y m]|] eqn:Em; [|done]. pose proof (constant_mul_hashes _ _ _ _ Em Pp). repeat case_match; naive_solver.
  - unfold exact_scaled_div_factor in H. destruct (udiv_operands e) as [[n d]|] eqn:Eu; [|done]. apply udiv_operands_shape in Eu as ->.
    destruct (as_const d); [|done]. destruct (is_zero _); [done|]. destruct Pe as [Pn _].
    destruct (SBoundsOf.constant_mul_operands n) as [[y m]|] eqn:Em; [|done]. pose proof (constant_mul_hashes _ _ _ _ Em Pn). case_match; naive_solver.
Qed.
Lemma scaled_div_keeps e e' : scaled_div_word c e = Some e' -> keeps e e'.
Proof.
  unfold scaled_div_word. destruct (first_some _ _) as [[x k]|] eqn:E; [|done]. intros [= <-] Pe. apply first_some_or in E.
  apply (scaled_keeps e x k); [by eapply scaled_factor_hashes| |done]. intros v Hv. destruct E as [E|E].
  - by apply (exact_ceil_sound model c c_ok e). - by apply (exact_scaled_sound model c c_ok e).
Qed.
Lemma mul_div_word_keeps e e' : mul_div_word c e = Some e' -> keeps e e'.
Proof.
  unfold mul_div_word. destruct (mul_div_operands e) as [[d o]|] eqn:E; [|done]. destruct (_ && _) eqn:Eg; [|done]. intros [= <-] Pe.
  split; [|by eapply mul_div_hashes]. intros v. by apply (mul_div_proved_sound model c c_ok e d o).
Qed.
Lemma normalize_word_keeps e : keeps e (normalize_word fuel c e).
Proof.
  assert (Hall : Forall (fun r : SymExpr -> option SymExpr => forall e', r e = Some e' -> keeps e e') (word_rewrites fuel c)).
  { unfold word_rewrites. repeat first [apply List.Forall_nil | apply List.Forall_cons; [intros e'; eauto using exact_word_keeps, select_word_keeps,
      rounded_word_keeps, masked_word_keeps, or_one_word_keeps, nested_mul_keeps, scaled_div_keeps, mul_div_word_keeps|]]. }
  unfold normalize_word. induction Hall as [|r rs Hr _ IH]; [reflexivity|]. simpl. destruct (r e) as [e'|] eqn:E; auto.
Qed.

(** *** Conditions *)
Lemma not_value b t : denb (BNot b) = Some t -> exists u, denb b = Some u /\ t = negb u.
Proof. simpl. destruct (denb b); naive_solver. Qed.
Lemma bkeeps_not_const b v : (Q b -> forall t, denb b = Some t -> t = v) -> bkeeps (BNot b) (SBool.constant (negb v)).
Proof. intros H. apply bkeeps_const. intros Qb t (u & Hu & ->)%not_value. by rewrite (H Qb u Hu). Qed.

Lemma identity_either_sound l r t : mul_div_identity_either c l r = true -> denb (BCmp Eq l r) = Some t -> t = true.
Proof.
  intros H (x & y & Hx & Hy & ->)%den_cmp_inv. cbn [cmpop_eval]. apply u_eqb_eq. apply orb_prop in H as [H|H].
  - by apply (mul_div_identity_sound model c c_ok l r). - symmetry. by apply (mul_div_identity_sound model c c_ok r l).
Qed.
Lemma masked_self_sound l r t : masked_word_eq_self c l r = true -> denb (BCmp Eq l r) = Some t -> t = true.
Proof. intros H (x & y & Hx & Hy & ->)%den_cmp_inv. cbn [cmpop_eval]. apply u_eqb_eq. by apply (masked_eq_sound model c c_ok l r). Qed.
Lemma zero_test_sound b t : zero_test_always_true fuel c b = true -> Q b -> denb b = Some t -> t = false.
Proof.
  unfold zero_test_always_true. destruct (SBool.zero_check_operand b) as [e|] eqn:E; [|done]. intros H Qb Ht.
  destruct (zero_check_sound model _ _ _ E Ht) as (v & Hv & ->). pose proof (zero_check_hashes _ _ _ E Qb) as Pe.
  exact (always_true_word nb nb_keeps_all c e v c_ok H Pe Hv).
Qed.

Lemma decide_bool_keeps b : bkeeps b (decide_bool fuel c b).
Proof.
  unfold decide_bool.
  destruct (match b with BNot value => unsigned_bool_always_true c value | _ => false end) eqn:E1.
  { destruct b as [|b| |]; try done. apply (bkeeps_not_const b true). intros _ t. by apply (always_true_sound model c c_ok). }
  destruct (match b with BCmp Eq l r => mul_div_identity_either c l r | _ => false end) eqn:E2.
  { destruct b as [| | |[] l r]; try done. apply bkeeps_const. intros _ t. by apply identity_either_sound. }
  destruct (match b with BNot (BCmp Eq l r) => mul_div_identity_either c l r | _ => false end) eqn:E3.
  { destruct b as [|[| | |[] l r]| |]; try done. apply (bkeeps_not_const _ true). intros _ t. by apply identity_either_sound. }
  destruct (match b with BCmp Eq l r => masked_word_eq_self c l r | _ => false end) eqn:E4.
  { destruct b as [| | |[] l r]; try done. apply bkeeps_const. intros _ t. by apply masked_self_sound. }
  destruct (match b with BNot value => masked_eq_self_condition c value | _ => false end) eqn:E5.
  { destruct b as [|[| | |[] l r]| |]; try done. apply (bkeeps_not_const _ true). intros _ t. by apply masked_self_sound. }
  destruct (zero_test_always_true fuel c b) eqn:E6.
  { apply bkeeps_const. intros Qb t. by apply zero_test_sound. }
  destruct (match b with BNot value => zero_test_always_true fuel c value | _ => false end) eqn:E7; [|reflexivity].
  destruct b as [|b| |]; try done. apply (bkeeps_not_const b false). intros Qb t. by apply zero_test_sound.
Qed.

Lemma rewrite_bool_keeps b : bkeeps b (rewrite_bool fuel c b).
Proof.
  assert (Hsigned : forall b b', normalize_signed_add_comparison c b = Some b' -> bkeeps b b').
  { intros x y H Qx. split; [by apply (signed_comparison_sound model c c_ok)|by eapply signed_comparison_hashes]. }
  assert (Hudiv : forall op l r b', normalize_udiv_comparison c op l r = Some b' -> bkeeps (BCmp op l r) b').
  { intros op l r b' H [Pl Pr]. split; [by apply (udiv_comparison_sound model c c_ok)|by eapply udiv_comparison_hashes]. }
  unfold rewrite_bool. destruct (normalize_signed_add_comparison c b) as [b'|] eqn:E1; [by apply Hsigned|].
  destruct (rounding_comparison_value c b) as [v|] eqn:E2.
  { apply bkeeps_const. intros _ t. by apply (rounding_comparison_sound model c c_ok). }
  destruct (match b with BNot value => normalize_signed_add_comparison c value | _ => None end) as [b'|] eqn:E3.
  { destruct b as [|b| |]; try done. apply bkeeps_not. by apply Hsigned. }
  destruct (match b with BCmp op l r => normalize_udiv_comparison c op l r | _ => None end) as [b'|] eqn:E4.
  { destruct b as [| | |op l r]; try done. by apply Hudiv. }
  destruct (match b with BNot (BCmp op l r) => normalize_udiv_comparison c op l r | _ => None end) as [b'|] eqn:E5; [|apply decide_bool_keeps].
  destruct b as [|[| | |op l r]| |]; try done. apply bkeeps_not. by apply Hudiv.
Qed.

Lemma normalize_bool_keeps b changed : bkeeps b (normalize_bool fuel c b changed).
Proof.
  unfold normalize_bool. etransitivity; [|apply rewrite_bool_keeps]. destruct (_ && _); [|destruct changed; [apply nb_keeps_all|reflexivity]].
  etransitivity; [|apply nb_keeps_all]. apply fold_exprs_keeps. apply normalize_word_keeps.
Qed.
End Ctx.

(** ** Conjunctions *)
Import SOrdered.
Context `{BO : BoolOrder}.

(** A constraint of the model. *)
Definition good (b : SymBoolExpr) : Prop := Q b /\ denb b = Some true.
Lemma good_keeps b b' : bkeeps b b' -> good b -> good b'.
Proof. intros H [Qb Hb]. destruct (H Qb) as [R Q']. split; [done|by apply R]. Qed.
Lemma good_and vs : good (BAnd vs) <-> Forall good vs.
Proof.
  unfold good. rewrite and_hashes, denote_BAnd. induction vs as [|v vs IH]; [by repeat split|]. rewrite !Forall_cons. simpl.
  destruct (denb v) as [[]|]; naive_solver.
Qed.
Lemma good_not_false b : good b -> is_false b = false.
Proof. intros [_ H]. by destruct b as [[]| | |]. Qed.

Lemma push_good b out : good b -> Forall good out -> Forall good (push_normalized_conjuncts b out).
Proof.
  revert b out. refine (bexpr_ind' (fun _ => True) (fun b => forall out, good b -> Forall good out -> Forall good (push_normalized_conjuncts b out))
    _ _ _ _ _ _ _ _ _ _ _ _ _); try done; intros; simpl; try (case_match; [done|]); try (apply Forall_app; split; [done|by constructor]).
  rename bs into vs. apply good_and in H0. revert out H1. induction H as [|v vs Hv _ IH]; intros out Hout; [done|]. apply Forall_cons in H0 as [H1 H2].
  apply IH; auto.
Qed.

Lemma insert_perm b l : insert_sorted b l ≡ₚ b :: l.
Proof. induction l as [|x l IH]; [done|]. simpl. case_match; try done. rewrite IH. apply perm_swap. Qed.
Lemma sort_exprs_perm l : sort_exprs l ≡ₚ l.
Proof. induction l as [|x l IH]; [done|]. simpl. by rewrite insert_perm, IH. Qed.
Lemma dedup_elem x l : x ∈ dedup l <-> x ∈ l.
Proof.
  induction l as [|a [|b l] IH]; [done|done|]. simpl dedup in *. destruct (bexpr_eqb_spec a b) as [->|]; rewrite ?elem_of_cons, IH, ?elem_of_cons; naive_solver.
Qed.
Lemma sort_dedup_elem x l : x ∈ sort_dedup_bool_exprs l <-> x ∈ l.
Proof. unfold sort_dedup_bool_exprs. by rewrite dedup_elem, sort_exprs_perm. Qed.
Lemma sort_dedup_good l : Forall good l -> Forall good (sort_dedup_bool_exprs l).
Proof. rewrite !list.Forall_forall. intros H x Hx. apply H. by apply sort_dedup_elem. Qed.

Lemma batch_good {S} (next : SymBoolExpr -> S -> SymBoolExpr * S) (inv : S -> Prop) cs out st :
  (forall b st, inv st -> good b -> good (fst (next b st)) /\ inv (snd (next b st))) ->
  inv st -> Forall good cs -> Forall good out -> Forall good (fst (batch_with next cs out st)) /\ inv (snd (batch_with next cs out st)).
Proof.
  intros Hn Hst Hcs. revert out st Hst. induction Hcs as [|b cs Hb _ IH]; intros out st Hst Hout; simpl; [split; [by apply sort_dedup_good|done]|].
  destruct (Hn b st Hst Hb) as [Hg Hs]. destruct (next b st) as [b' st']. simpl in *. rewrite (good_not_false _ Hg). apply IH; [done|]. by apply push_good.
Qed.
Lemma constraint_batch_good cs : Forall good cs -> Forall good (normalize_constraint_batch cs).
Proof. intros H. by apply (batch_good (fun b st => (b, st)) (fun _ : unit => True)). Qed.

Lemma good_model cs : Forall good cs -> Forall (fun b => denb b = Some true) cs.
Proof. intros H. eapply Forall_impl; [exact H|]. by intros b [_ ?]. Qed.
Lemma others_good cs i : Forall good cs -> Forall good (others cs i).
Proof. intros H. unfold others. apply Forall_app. split; [by apply Forall_take|by apply Forall_drop]. Qed.

Section Passes.
Variables fuel rounds : nat.
Lemma bounded_pass_good n i cs : Forall good cs -> exists next, bounded_pass fuel n i cs = Some next /\ Forall good next.
Proof.
  revert i cs. induction n as [|n IH]; intros i cs Hcs; simpl; [eauto|]. destruct (cs !! i) as [b|] eqn:Eb; [|eauto].
  assert (Hctx : ctx_ok model (for_rewrite cs i)) by by apply for_rewrite_ok, good_model, others_good.
  pose proof (Forall_lookup_1 _ _ _ _ Hcs Eb) as Hb. pose proof (good_keeps _ _ (normalize_bool_keeps fuel _ Hctx b false) Hb) as Hb'.
  set (b' := normalize_bool fuel (for_rewrite cs i) b false) in *.
  assert (Hrest : forall terms, Forall good terms -> Forall good (take i cs ++ terms ++ drop (S i) cs)).
  { intros terms Ht. rewrite !Forall_app. split_and!; [by apply Forall_take|done|by apply Forall_drop]. }
  assert (Hdec : exists next, match bounded_bool_value (for_rewrite cs i) b' with
      | Some false => None
      | Some true => bounded_pass fuel n i (take i cs ++ drop (S i) cs)
      | None => bounded_pass fuel n (S i) (<[i:=b']> cs)
      end = Some next /\ Forall good next).
  { destruct (bounded_bool_value (for_rewrite cs i) b') as [v|] eqn:Ev.
    - destruct Hb' as [_ Ht]. rewrite <- (bounded_bool_sound model _ Hctx _ _ _ Ev Ht). apply IH. by apply (Hrest []).
    - apply IH. by apply Forall_insert. }
  destruct b' as [| |terms|] eqn:E; try done. apply IH. apply Hrest. by apply good_and.
Qed.

Lemma bounded_passes_good n cs : Forall good cs -> Forall good (bounded_passes fuel rounds n cs).
Proof.
  revert cs. induction n as [|n IH]; intros cs Hcs; simpl; [done|]. destruct (bounded_pass_good rounds 0 cs Hcs) as (next & -> & Hn).
  pose proof (constraint_batch_good _ Hn). case_match; [done|]. by apply IH.
Qed.

(** What the caches hold. *)
Definition norm_cache_ok (cache : NormalizationCache) : Prop :=
  (forall b r, assoc bexpr_eqb b (nc_normalized cache) = Some r -> r = normalize_bool_for_solver fuel b) /\
  (forall b r, assoc bexpr_eqb b (nc_requires cache) = Some r -> r = requires_independent_context b).

Lemma requires_cached_ok b cache : norm_cache_ok cache ->
  fst (requires_cached b cache) = requires_independent_context b /\ norm_cache_ok (snd (requires_cached b cache)).
Proof.
  intros [Hn Hr]. unfold requires_cached. destruct (assoc bexpr_eqb b (nc_requires cache)) as [r|] eqn:E; [split; [by apply Hr|done]|].
  split; [done|]. simpl. destruct (room _); [|done]. split; [done|]. intros b' r. simpl. destruct (bexpr_eqb_spec b' b) as [->|]; [by intros [= <-]|apply Hr].
Qed.
Lemma retained_cached_ok l cache : norm_cache_ok cache ->
  fst (retained_cached l cache) = filter (fun b => requires_independent_context b = false) l /\ norm_cache_ok (snd (retained_cached l cache)).
Proof.
  revert cache. induction l as [|b l IH]; intros cache Hc; [done|]. cbn [retained_cached]. destruct (requires_cached_ok b cache Hc) as [H1 H2].
  destruct (requires_cached b cache) as [req c1]. simpl in H1, H2. subst req. destruct (IH c1 H2) as [H3 H4]. destruct (retained_cached l c1) as [kept c2].
  simpl in *. subst kept. rewrite filter_cons. destruct (requires_independent_context b); by case_decide.
Qed.
Lemma normalize_one_ok b cache changed : norm_cache_ok cache ->
  fst (normalize_one_cached fuel b (cache, changed)) = normalize_bool_for_solver fuel b /\
  norm_cache_ok (fst (snd (normalize_one_cached fuel b (cache, changed)))).
Proof.
  intros [Hn Hr]. unfold normalize_one_cached. destruct (assoc bexpr_eqb b (nc_normalized cache)) as [r|] eqn:E; [split; [by apply Hn|done]|].
  split; [done|]. simpl. destruct (room _); [|done]. split; [|done]. intros b' r. simpl. destruct (bexpr_eqb_spec b' b) as [->|]; [by intros [= <-]|apply Hn].
Qed.

Lemma normalize_cached_good cs cache : norm_cache_ok cache -> Forall good cs ->
  Forall good (fst (normalize_constraints_for_solver_cached fuel rounds cs cache)) /\
  norm_cache_ok (snd (normalize_constraints_for_solver_cached fuel rounds cs cache)).
Proof.
  intros Hc Hcs. unfold normalize_constraints_for_solver_cached.
  destruct (batch_good (normalize_one_cached fuel) (fun st => norm_cache_ok (fst st)) cs [] (cache, [])) as [H1 H2]; [|done|done|done|].
  { intros b [c' ch] Hst Hb. destruct (normalize_one_ok b c' ch Hst) as [E1 E2]. rewrite E1. split; [|done].
    eapply good_keeps; [apply nb_keeps_all|done]. }
  destruct (batch_with _ _ _ _) as [normalized [c1 changed]]. simpl in H1, H2. unfold normalize_contextually. case_match; [done|].
  destruct (retained_cached_ok normalized c1 H2) as [H3 H4]. destruct (retained_cached normalized c1) as [kept c2]. simpl in *. subst kept. split; [|done].
  apply bounded_passes_good, constraint_batch_good. apply List.Forall_map. apply List.Forall_forall. intros b Hb.
  rewrite List.Forall_forall in H1. eapply good_keeps; [apply normalize_bool_keeps|by apply H1].
  apply from_constraints_ok, good_model. apply list.Forall_forall. intros x [_ Hx]%list_elem_of_filter. apply H1. by apply list_elem_of_In.
Qed.
End Passes.

(** *** Direct contradictions *)
Definition order_law : Prop := forall a b, stable_hash a = stable_hash b ->
  bool_structural_key algorithm_name a = bool_structural_key algorithm_name b -> a = b.
Hypothesis order : order_law.

Lemma bool_expr_cmp_eq a b : bool_expr_cmp a b = Datatypes.Eq -> a = b.
Proof.
  unfold bool_expr_cmp. destruct (bexpr_eqb_spec a b) as [|_]; [done|]. destruct (Z.compare_spec (stable_hash a) (stable_hash b)) as [Hh| |]; try done.
  simpl. intros Hk%String.compare_eq_iff. by apply order.
Qed.

Lemma derived_good b : good b -> Forall good (derived_facts b).
Proof.
  intros [Qb Hb]. unfold derived_facts. destruct (bitwise_bool_word_fact b) as [f|] eqn:E; [|done].
  assert (Hf : good f).
  { split; [|by apply (word_fact_sound model _ _ E)]. destruct b as [|[| | |[] l r]| |[] l r]; try done; simpl in E; (destruct (const_is r is_zero); [|done]).
    - eapply bitwise_hashes; [done|]. by destruct Qb.
    - destruct (bitwise_bool_word_condition l) as [c|] eqn:Ec; [|done]. injection E as <-. apply Q_not. eapply bitwise_hashes; [done|]. by destruct Qb. }
  apply Forall_app. split; [|by constructor]. destruct f as [| |vs|]; try done. by apply good_and.
Qed.

Lemma directly_unsat_sound cs : constraints_are_directly_unsat cs = true -> ~ Forall good cs.
Proof.
  intros H Hcs. unfold constraints_are_directly_unsat in H. set (derived := flat_map derived_facts cs) in *.
  assert (Hder : Forall good derived).
  { apply List.Forall_forall. intros x (b & Hb & Hx)%in_flat_map. rewrite List.Forall_forall in Hcs. pose proof (derived_good b (Hcs _ Hb)) as Hd.
    rewrite List.Forall_forall in Hd. by apply Hd. }
  assert (Hcon : forall x, existsb (fun cand => match bool_expr_cmp cand x with Datatypes.Eq => true | _ => false end) cs || existsb (bexpr_eqb x) derived = true -> good x).
  { rewrite List.Forall_forall in Hcs, Hder. intros x [(y & Hy & Hc)%existsb_exists|(y & Hy & ->%bexpr_eqb_eq)%existsb_exists]%orb_prop; [|by apply Hder].
    destruct (bool_expr_cmp y x) eqn:E; try done. rewrite <- (bool_expr_cmp_eq _ _ E). by apply Hcs. }
  assert (Hnot : forall x, good x -> good (SBool.not_bool x) -> False).
  { intros x [_ H1] [_ H2]. rewrite den_not_bool, H1 in H2. done. }
  apply existsb_exists in H as (b & Hb & Hx). assert (Hg : good b).
  { apply in_app_iff in Hb. rewrite List.Forall_forall in Hcs, Hder. destruct Hb; auto. }
  assert (Hneg : forall x, good x -> good (BNot x) -> False) by (intros x [_ H1] [_ H2]; simpl in H2; by rewrite H1 in H2).
  destruct b as [[]|inner|vs|op l r].
  - apply (Hnot _ Hg). by apply Hcon.
  - by destruct Hg.
  - assert (Hin : good inner -> False) by (intros Hi; by apply (Hneg inner)). destruct inner as [| |vs|]; try (by apply Hin, Hcon).
    match type of Hx with (if ?t then _ else _) = _ => destruct t eqn:Ea end; [|by apply Hin, Hcon]. apply Hin, good_and, List.Forall_forall.
    rewrite forallb_forall in Ea. intros x Hxin. by apply Hcon, Ea.
  - apply (Hnot _ Hg). by apply Hcon.
  - apply (Hnot _ Hg). by apply Hcon.
Qed.

Lemma subset_spec xs ys : sorted_bool_exprs_are_subset xs ys = true -> xs ⊆ ys.
Proof.
  unfold sorted_bool_exprs_are_subset. case_match; [done|]. rewrite forallb_forall. intros Hall x Hx. apply list_elem_of_In in Hx.
  apply Hall in Hx. apply existsb_exists in Hx as (y & Hy & ->%bexpr_eqb_eq). by apply list_elem_of_In.
Qed.
End NormSound.

(** ** The caches change no result *)
Section Caches.
Context `{SA : SignedArith, HF : HashFns, PP : PolyParts, BO : BoolOrder}.
Import SOrdered.
Variables fuel rounds : nat.

(** [normalize_one_cached] without its cache. *)
Definition normalize_one (b : SymBoolExpr) (changed : list SymBoolExpr) : SymBoolExpr * list SymBoolExpr :=
  let normalized := normalize_bool_for_solver fuel b in
  (normalized, if bexpr_eqb normalized b then changed else mark_conjuncts normalized changed).
Definition normalize_constraints_for_solver (constraints : list SymBoolExpr) : list SymBoolExpr :=
  let '(normalized, changed) := batch_with normalize_one constraints [] [] in
  if match normalized with [b] => is_false b | _ => false end then normalized
  else
    let retained := filter (fun b => requires_independent_context b = false) normalized in
    let context := SCtx.from_constraints_with_lower_bounds retained (length retained) false in
    normalize_bounded_comparisons fuel rounds
      (normalize_constraint_batch (map (fun b => normalize_bool fuel context b (existsb (bexpr_eqb b) changed)) normalized)).

Lemma batch_cached cs out cache changed : norm_cache_ok fuel cache ->
  let r := batch_with (normalize_one_cached fuel) cs out (cache, changed) in
  batch_with normalize_one cs out changed = (fst r, snd (snd r)) /\ norm_cache_ok fuel (fst (snd r)).
Proof.
  cbv zeta. revert out cache changed. induction cs as [|b cs IH]; intros out cache changed Hc; cbn [batch_with]; [done|].
  destruct (normalize_one_ok fuel b cache changed Hc) as [H1 H2].
  assert (H3 : snd (snd (normalize_one_cached fuel b (cache, changed))) = snd (normalize_one b changed)).
  { revert H1. unfold normalize_one_cached, normalize_one. destruct (match assoc _ _ _ with Some _ => _ | None => _ end) as [n c']. simpl. by intros ->. }
  destruct (normalize_one_cached fuel b (cache, changed)) as [n [c' ch]]. simpl in H1, H2, H3. subst n ch.
  change (normalize_one b changed) with (normalize_bool_for_solver fuel b, snd (normalize_one b changed)).
  cbv beta iota. destruct (is_false (normalize_bool_for_solver fuel b)); [done|]. by apply IH.
Qed.

Lemma normalize_cached_eq cs cache : norm_cache_ok fuel cache ->
  fst (normalize_constraints_for_solver_cached fuel rounds cs cache) = normalize_constraints_for_solver cs /\
  norm_cache_ok fuel (snd (normalize_constraints_for_solver_cached fuel rounds cs cache)).
Proof.
  intros Hc. unfold normalize_constraints_for_solver_cached, normalize_constraints_for_solver. destruct (batch_cached cs [] cache [] Hc) as [H1 H2]. rewrite H1.
  destruct (batch_with (normalize_one_cached fuel) cs [] (cache, [])) as [normalized [c1 changed]]. simpl in *. unfold normalize_contextually. case_match; [done|].
  destruct (retained_cached_ok fuel normalized c1 H2) as [H3 H4]. destruct (retained_cached normalized c1) as [kept c2]. simpl in *. by subst kept.
Qed.
End Caches.
