(* ===== verification/SymSmt.v ===== *)
(** * SymSmt: the SMT-LIB script of a query

    Models runtime/solver/smt/mod.rs and the writers of runtime/expr/{expr,bool}.rs:
    the assertions of a query with common subexpressions bound by [define-fun].
    A script is kept as its terms instead of their text.  The script is true
    under an assignment of the declared symbols exactly when the constraints
    are, read with the SMT-LIB operators, and that reading agrees with the
    model evaluator wherever no division by zero is evaluated. *)

From Stdlib Require Import ZArith Lia Bool String.
From stdpp Require Import base list option.
From S2P Require Import Prelude SymWord SymExpr SymSimpl SymSound SymCmp SymVisit SymHashes.
Local Open Scope Z_scope.

(** ** Terms of a script *)
Inductive SmtWord :=
  | TConst (value : U256)                          (* (_ bv<value> 256) *)
  | TSymbol (symbol : Symbol)
  | TRef (index : nat)                             (* __sym_expr_<index> *)
  | TNot (value : SmtWord)                         (* (bvnot _) *)
  | TBinOp (op : SymBinOp) (l r : SmtWord)
  (* (ite (= m 0) 0 ((_ extract 255 0) (bvurem (op (zext l) (zext r)) (zext m')))) *)
  | TWide (op : SymTernOp) (m l r m' : SmtWord)
  | TIte (c : SmtBool) (t f : SmtWord)
with SmtBool :=
  | FConst (value : bool)
  | FRef (index : nat)                             (* __sym_bool_<index> *)
  | FNot (value : SmtBool)
  | FAnd (values : list SmtBool)
  | FCmp (op : SymCmpOp) (l r : SmtWord).

Inductive SmtDefinition := DWord (t : SmtWord) | DBool (f : SmtBool).
Record SmtScript := mkScript { definitions : list SmtDefinition; assertions : list SmtBool }.

Definition node_eqb (x y : Node) : bool :=
  match x, y with
  | NWord a, NWord b => expr_eqb a b
  | NBool a, NBool b => bexpr_eqb a b
  | _, _ => false
  end.

Module SSmt.
(** *** Writers without bindings: [write_smt] *)
Fixpoint word_smt (e : SymExpr) : SmtWord :=
  match e with
  | EConst value => TConst value
  | EVar symbol | EGasLeft symbol | EKeccak symbol _ _ | EHash symbol _ _ => TSymbol symbol
  | ENot value => TNot (word_smt value)
  | EBinOp op l r => TBinOp op (word_smt l) (word_smt r)
  | ETernOp op l r m => TWide op (word_smt m) (word_smt l) (word_smt r) (word_smt m)
  | EIte c t f => TIte (bool_smt c) (word_smt t) (word_smt f)
  end
with bool_smt (b : SymBoolExpr) : SmtBool :=
  match b with
  | BConst value => FConst value
  | BNot value => FNot (bool_smt value)
  | BAnd values => FAnd (map bool_smt values)
  | BCmp op l r => FCmp op (word_smt l) (word_smt r)
  end.

(** *** The plan *)
Record SmtCseVisit := mkSmtVisit { count : nat; binding : option nat; collected : bool }.
(** [expr_visits] and [bool_visits] in one table. *)
Record SmtCsePlan := mkPlan { visits : list (Node * SmtCseVisit); bindings : list Node }.

Definition visit_of (p : SmtCsePlan) (n : Node) : option SmtCseVisit := assoc node_eqb n (visits p).
Definition set_visit (n : Node) (v : SmtCseVisit) (p : SmtCsePlan) : SmtCsePlan := mkPlan ((n, v) :: visits p) (bindings p).

(** Hashes are opaque symbols, and a modulus is written twice. *)
Definition count_parts (n : Node) : list Node :=
  match n with
  | NWord (EConst _ | EVar _ | EGasLeft _ | EKeccak _ _ _ | EHash _ _ _) => []
  | NWord (ENot value) => [NWord value]
  | NWord (EBinOp _ l r) => [NWord l; NWord r]
  | NWord (ETernOp _ l r m) => [NWord m; NWord l; NWord r; NWord m]
  | NWord (EIte c t f) => [NBool c; NWord t; NWord f]
  | NBool (BConst _) => []
  | NBool (BNot value) => [NBool value]
  | NBool (BAnd values) => map NBool values
  | NBool (BCmp _ l r) => [NWord l; NWord r]
  end.
Definition collect_parts (n : Node) : list Node :=
  match n with
  | NWord (ETernOp _ l r m) => [NWord m; NWord l; NWord r]
  | _ => count_parts n
  end.

Definition default_visit : SmtCseVisit := mkSmtVisit 0 None false.
Definition bump (n : Node) (p : SmtCsePlan) : nat * SmtCsePlan :=
  let v := default default_visit (visit_of p n) in
  (S (count v), set_visit n (mkSmtVisit (S (count v)) (binding v) (collected v)) p).

(** [count_expr] and [count_bool]. *)
Fixpoint count_fuel (fuel : nat) (n : Node) (p : SmtCsePlan) : SmtCsePlan :=
  match fuel with
  | O => p
  | S fuel =>
      let '(c, p) := bump n p in
      if (c =? 1)%nat then fold_left (fun p m => count_fuel fuel m p) (count_parts n) p else p
  end.
Definition count_node (n : Node) : SmtCsePlan -> SmtCsePlan := count_fuel (node_size n) n.

Definition can_bind (n : Node) : bool :=
  match n with
  | NWord (EConst _ | EVar _ | EGasLeft _ | EKeccak _ _ _ | EHash _ _ _) | NBool (BConst _) => false
  | _ => true
  end.
(** [bind_expr] and [bind_bool]. *)
Definition bind_node (n : Node) (p : SmtCsePlan) : SmtCsePlan :=
  match visit_of p n with
  | None => p
  | Some v =>
      if (count v <=? 1)%nat || match binding v with Some _ => true | None => false end || negb (can_bind n) then p
      else mkPlan ((n, mkSmtVisit (count v) (Some (length (bindings p))) (collected v)) :: visits p) (bindings p ++ [n])
  end.
(** [collect_expr_binding] and [collect_bool_binding]. *)
Fixpoint collect_fuel (fuel : nat) (n : Node) (p : SmtCsePlan) : SmtCsePlan :=
  match fuel with
  | O => p
  | S fuel =>
      match visit_of p n with
      | None => p
      | Some v =>
          if collected v then p
          else
            let p := set_visit n (mkSmtVisit (count v) (binding v) true) p in
            let p := fold_left (fun p m => collect_fuel fuel m p) (collect_parts n) p in
            bind_node n p
      end
  end.
Definition collect_node (n : Node) : SmtCsePlan -> SmtCsePlan := collect_fuel (node_size n) n.

Definition new_plan (constraints : list SymBoolExpr) : SmtCsePlan :=
  let p := fold_left (fun p b => count_node (NBool b) p) constraints (mkPlan [] []) in
  fold_left (fun p b => collect_node (NBool b) p) constraints p.

(** *** [SmtCseWriter] *)
Definition bound (p : SmtCsePlan) (n : Node) : option nat :=
  match visit_of p n with Some v => binding v | None => None end.
Definition reference (p : SmtCsePlan) (n : Node) (skip : option nat) : option nat :=
  match bound p n with
  | Some idx => if bool_decide (Some idx = skip) then None else Some idx
  | None => None
  end.

Fixpoint write_expr (p : SmtCsePlan) (e : SymExpr) (skip_expr skip_bool : option nat) : SmtWord :=
  match reference p (NWord e) skip_expr with
  | Some idx => TRef idx
  | None =>
      match e with
      | EConst value => TConst value
      | EVar symbol | EGasLeft symbol | EKeccak symbol _ _ | EHash symbol _ _ => TSymbol symbol
      | ENot value => TNot (write_expr p value skip_expr skip_bool)
      | EBinOp op l r => TBinOp op (write_expr p l skip_expr skip_bool) (write_expr p r skip_expr skip_bool)
      | ETernOp op l r m => TWide op (write_expr p m None None) (write_expr p l None None) (write_expr p r None None) (write_expr p m None None)
      | EIte c t f => TIte (write_bool p c skip_expr skip_bool) (write_expr p t skip_expr skip_bool) (write_expr p f skip_expr skip_bool)
      end
  end
with write_bool (p : SmtCsePlan) (b : SymBoolExpr) (skip_expr skip_bool : option nat) : SmtBool :=
  match reference p (NBool b) skip_bool with
  | Some idx => FRef idx
  | None =>
      match b with
      | BConst value => FConst value
      | BNot value => FNot (write_bool p value skip_expr skip_bool)
      | BAnd values => FAnd (map (fun v => write_bool p v skip_expr skip_bool) values)
      | BCmp op l r => FCmp op (write_expr p l skip_expr skip_bool) (write_expr p r skip_expr skip_bool)
      end
  end.

Definition write_binding (p : SmtCsePlan) (idx : nat) (n : Node) : SmtDefinition :=
  match n with
  | NWord e => DWord (write_expr p e (Some idx) None)
  | NBool b => DBool (write_bool p b None (Some idx))
  end.

Definition gasleft_error : SymbolicError := Unsupported "GAS/gasleft() not modeled"%string.
Definition write_smt_assertions (constraints : list SymBoolExpr) : SmtScript + SymbolicError :=
  match constraints with
  | [] => inl (mkScript [] [])
  | _ =>
      if existsb contains_gasleft_bool constraints then inr gasleft_error
      else
        let p := new_plan constraints in
        match bindings p with
        | [] => inl (mkScript [] (map bool_smt constraints))
        | _ => inl (mkScript (imap (write_binding p) (bindings p)) (map (fun b => write_bool p b None None) constraints))
        end
  end.
End SSmt.

(** ** SMT-LIB semantics *)
Section Semantics.
Context `{SA : SignedArith}.
(** The values of the declared symbols. *)
Variable sigma : Symbol -> U256.

Definition is_division (op : SymBinOp) : bool := match op with UDiv | URem | SDiv | SRem => true | _ => false end.
(** Division by zero is all ones, and a remainder modulo zero is the dividend;
    the signed operators apply this to the absolute values. *)
Definition smt_by_zero (op : SymBinOp) (a : U256) : U256 :=
  match op with
  | UDiv => MAX
  | SDiv => if Z.testbit (uval a) 255 then ONE else MAX
  | _ => a
  end.
Definition smt_binop (op : SymBinOp) (a b : U256) : U256 :=
  if is_division op && is_zero b then smt_by_zero op a else binop_eval op a b.

(** Over 512 bits, from the zero-extended operands. *)
Definition smt_wide (op : SymTernOp) (m l r m' : U256) : U256 :=
  if is_zero m then ZERO
  else
    let v := (match op with AddMod => uval l + uval r | MulMod => uval l * uval r end) mod (word_modulus * word_modulus) in
    U (if uval m' =? 0 then v else v mod uval m').

(** What the constraints say, symbol by symbol. *)
Fixpoint smt_word (e : SymExpr) : U256 :=
  match e with
  | EConst value => value
  | EVar symbol | EGasLeft symbol | EKeccak symbol _ _ | EHash symbol _ _ => sigma symbol
  | ENot value => u_not (smt_word value)
  | EBinOp op l r => smt_binop op (smt_word l) (smt_word r)
  | ETernOp op l r m => smt_wide op (smt_word m) (smt_word l) (smt_word r) (smt_word m)
  | EIte c t f => if smt_bool c then smt_word t else smt_word f
  end
with smt_bool (b : SymBoolExpr) : bool :=
  match b with
  | BConst value => value
  | BNot value => negb (smt_bool value)
  | BAnd values => forallb smt_bool values
  | BCmp op l r => cmpop_eval op (smt_word l) (smt_word r)
  end.

(** What a script says: [None] is a reference to no definition. *)
Abbreviation Env := (list (U256 + bool)).

Fixpoint word_val (env : Env) (t : SmtWord) : option U256 :=
  match t with
  | TConst value => Some value
  | TSymbol symbol => Some (sigma symbol)
  | TRef idx => match env !! idx with Some (inl v) => Some v | _ => None end
  | TNot value => option_map u_not (word_val env value)
  | TBinOp op l r => match word_val env l, word_val env r with Some a, Some b => Some (smt_binop op a b) | _, _ => None end
  | TWide op m l r m' =>
      match word_val env m, word_val env l, word_val env r, word_val env m' with
      | Some m, Some l, Some r, Some m' => Some (smt_wide op m l r m')
      | _, _, _, _ => None
      end
  | TIte c t f =>
      match bool_val env c, word_val env t, word_val env f with
      | Some c, Some t, Some f => Some (if c : bool then t else f)
      | _, _, _ => None
      end
  end
with bool_val (env : Env) (f : SmtBool) : option bool :=
  match f with
  | FConst value => Some value
  | FRef idx => match env !! idx with Some (inr v) => Some v | _ => None end
  | FNot value => option_map negb (bool_val env value)
  | FAnd values =>
      (fix go vs := match vs with
       | [] => Some true
       | v :: r => match bool_val env v, go r with Some a, Some b => Some (a && b) | _, _ => None end
       end) values
  | FCmp op l r => match word_val env l, word_val env r with Some a, Some b => Some (cmpop_eval op a b) | _, _ => None end
  end.

Definition definition_val (env : Env) (d : SmtDefinition) : option (U256 + bool) :=
  match d with DWord t => option_map inl (word_val env t) | DBool f => option_map inr (bool_val env f) end.
(** Each definition may use the earlier ones. *)
Fixpoint run_definitions (env : Env) (ds : list SmtDefinition) : option Env :=
  match ds with
  | [] => Some env
  | d :: r => match definition_val env d with Some v => run_definitions (env ++ [v]) r | None => None end
  end.
Fixpoint all_val (env : Env) (fs : list SmtBool) : option bool :=
  match fs with
  | [] => Some true
  | f :: r => match bool_val env f, all_val env r with Some a, Some b => Some (a && b) | _, _ => None end
  end.
Definition script_val (s : SmtScript) : option bool :=
  match run_definitions [] (definitions s) with Some env => all_val env (assertions s) | None => None end.

Definition node_val (n : Node) : U256 + bool := match n with NWord e => inl (smt_word e) | NBool b => inr (smt_bool b) end.

(** ** The script says what the constraints say *)
Import SSmt.
Lemma node_eqb_spec x y : reflect (x = y) (node_eqb x y).
Proof.
  destruct x as [a|a], y as [b|b]; simpl; try (constructor; congruence).
  - destruct (expr_eqb_spec a b); constructor; congruence.
  - destruct (bexpr_eqb_spec a b); constructor; congruence.
Qed.

Inductive below : Node -> Node -> Prop :=
  | below_part n m : m ∈ count_parts n -> below n m
  | below_step n k m : k ∈ count_parts n -> below k m -> below n m.

Lemma count_parts_size n m : m ∈ count_parts n -> (node_size m < node_size n)%nat.
Proof.
  intros Hm. assert (Hin : m ∈ node_parts n).
  { destruct n as [[]|[]]; simpl in *; rewrite ?elem_of_cons, ?elem_of_nil in *; tauto. }
  pose proof (parts_size n) as Hs. unfold nodes_size in Hs. apply list_elem_of_In, in_split in Hin as (l1 & l2 & Hp). rewrite Hp, map_app, list_sum_app in Hs. simpl in Hs. lia.
Qed.
Lemma below_size n m : below n m -> (node_size m < node_size n)%nat.
Proof. induction 1 as [n m H%count_parts_size|n k m H%count_parts_size _ IH]; lia. Qed.
Lemma collect_parts_elem n m : m ∈ collect_parts n <-> m ∈ count_parts n.
Proof. destruct n as [[]|[]]; simpl; try done. rewrite !elem_of_cons, elem_of_nil. tauto. Qed.

Lemma visit_set n v p m : visit_of (set_visit n v p) m = if node_eqb m n then Some v else visit_of p m.
Proof. done. Qed.

(** *** Counting reaches every part *)
Definition present (p : SmtCsePlan) (n : Node) : Prop := is_Some (visit_of p n).
(** The parts of a counted node are counted, except while it is in progress. *)
Definition counted (A : list Node) (p : SmtCsePlan) : Prop :=
  forall n, present p n -> n ∉ A -> forall m, m ∈ count_parts n -> present p m.
(** Counting binds nothing. *)
Definition unbound (p : SmtCsePlan) : Prop := bindings p = [] /\ forall n v, visit_of p n = Some v -> binding v = None /\ collected v = false.

Lemma present_set n v p m : present (set_visit n v p) m <-> m = n \/ present p m.
Proof. unfold present. rewrite visit_set. destruct (node_eqb_spec m n) as [->|]; [split; eauto|]. naive_solver. Qed.

Lemma count_ok fuel n p A : (node_size n <= fuel)%nat -> counted A p -> unbound p ->
  let p' := count_fuel fuel n p in
  counted A p' /\ unbound p' /\ present p' n /\ (forall m, present p m -> present p' m).
Proof.
  revert n p A. induction fuel as [|fuel IH]; intros n p A Hsize Hc Hu; [destruct n as [[]|[]]; simpl in Hsize; lia|]. cbv zeta. cbn [count_fuel].
  unfold bump. set (v := default default_visit (visit_of p n)). set (p1 := set_visit n _ p).
  assert (Hv : binding v = None /\ collected v = false).
  { unfold v. destruct (visit_of p n) as [w|] eqn:E; [|done]. by apply Hu in E. }
  assert (Hp1 : forall m, present p1 m <-> m = n \/ present p m) by (intros; apply present_set).
  assert (Hu1 : unbound p1).
  { destruct Hu as [Hb Hu]. split; [done|]. intros m w. unfold p1. rewrite visit_set. destruct (node_eqb_spec m n); [by intros [= <-]|apply Hu]. }
  destruct (S (count v) =? 1)%nat eqn:Ec.
  - assert (Hfold : forall l p2, (forall m, m ∈ l -> (node_size m <= fuel)%nat) -> counted (n :: A) p2 -> unbound p2 ->
      let p3 := fold_left (fun p m => count_fuel fuel m p) l p2 in
      counted (n :: A) p3 /\ unbound p3 /\ (forall m, m ∈ l -> present p3 m) /\ (forall m, present p2 m -> present p3 m)).
    { induction l as [|m l IHl]; intros p2 Hl Hc2 Hu2; cbv zeta; simpl; [split_and!; try done; intros m Hm; inversion Hm|].
      destruct (IH m p2 (n :: A) (Hl m ltac:(left)) Hc2 Hu2) as (H1 & H2 & H3 & H4).
      destruct (IHl (count_fuel fuel m p2) (fun x Hx => Hl x (list_elem_of_further _ _ _ Hx)) H1 H2) as (H5 & H6 & H7 & H8). split_and!; try done; auto.
      intros x [->|Hx]%elem_of_cons; auto. }
    destruct (Hfold (count_parts n) p1) as (H1 & H2 & H3 & H4); [|intros m Hm Hn x Hx|done|].
    + intros m Hm%count_parts_size. lia.
    + apply not_elem_of_cons in Hn as [Hn HA]. apply Hp1 in Hm as [->|Hm]; [done|]. apply Hp1. right. by apply (Hc m).
    + split_and!; [|done|apply H4, Hp1; by left|intros m Hm; apply H4, Hp1; by right].
      intros m Hm HA x Hx. destruct (node_eqb_spec m n) as [->|Hne]; [by apply H3|]. apply (H1 m); [done| |done]. by apply not_elem_of_cons.
  - assert (Hn : present p n).
    { unfold v in Ec. destruct (visit_of p n) as [w|] eqn:E; [by exists w|done]. }
    split_and!; [|done|apply Hp1; by left|intros m Hm; apply Hp1; by right].
    intros m Hm HA x Hx. apply Hp1. right. apply Hp1 in Hm as [->|Hm]; by eapply Hc.
Qed.

Lemma count_all_ok cs p : counted [] p -> unbound p ->
  let p' := fold_left (fun p b => count_node (NBool b) p) cs p in
  counted [] p' /\ unbound p' /\ (forall b, b ∈ cs -> present p' (NBool b)) /\ (forall m, present p m -> present p' m).
Proof.
  revert p. induction cs as [|b cs IH]; intros p Hc Hu; cbv zeta; simpl; [split_and!; try done; intros b Hb; inversion Hb|].
  destruct (count_ok (node_size (NBool b)) (NBool b) p [] ltac:(done) Hc Hu) as (H1 & H2 & H3 & H4).
  destruct (IH _ H1 H2) as (H5 & H6 & H7 & H8). split_and!; try done; [|intros m Hm; by apply H8, H4]. intros x [->|Hx]%elem_of_cons; [by apply H8|by apply H7].
Qed.

(** *** Bindings come after the bindings of their parts *)
Definition col (p : SmtCsePlan) (n : Node) : Prop := exists v, visit_of p n = Some v /\ collected v = true.
Record plan_inv (A : list Node) (p : SmtCsePlan) : Prop := {
  pi_present : forall n m, present p n -> m ∈ count_parts n -> present p m;
  pi_col : forall n, col p n -> n ∉ A -> forall m, m ∈ count_parts n -> col p m;
  pi_bound : forall n i, bound p n = Some i ->
    bindings p !! i = Some n /\ col p n /\ (forall m, below n m -> col p m /\ m ∉ A) /\
    forall m j, below n m -> bound p m = Some j -> (j < i)%nat;
  pi_back : forall n i, bindings p !! i = Some n -> bound p n = Some i
}.
(** What a collection keeps. *)
Record plan_grows (p p' : SmtCsePlan) : Prop := {
  pg_present : forall m, present p' m <-> present p m;
  pg_col : forall m, col p m -> col p' m;
  pg_bound : forall m, col p m -> bound p' m = bound p m
}.
#[local] Instance plan_grows_preorder : PreOrder plan_grows.
Proof.
  split; [by split|]. intros p q r [H1 H2 H3] [H4 H5 H6]. split; [intros; by rewrite H4|auto|]. intros m Hm. rewrite H6 by auto. by apply H3.
Qed.

Lemma start_collect n v p A : plan_inv A p -> visit_of p n = Some v -> collected v = false ->
  let p1 := set_visit n (mkSmtVisit (count v) (binding v) true) p in
  plan_inv (n :: A) p1 /\ plan_grows p p1 /\ col p1 n /\ bound p1 n = None.
Proof.
  intros [H1 H2 H3 H4] Hv Hc. cbv zeta. set (p1 := set_visit n _ p).
  assert (Hcol : forall m, col p1 m <-> m = n \/ col p m).
  { intros m. unfold col, p1. rewrite visit_set. destruct (node_eqb_spec m n) as [->|]; [split; [by left|eauto]|]. naive_solver. }
  assert (Hncol : ~ col p n) by (intros (w & Hw & Hcw); simplify_eq; congruence).
  assert (Hb : forall m, bound p1 m = bound p m).
  { intros m. unfold bound, p1. rewrite visit_set. destruct (node_eqb_spec m n) as [->|]; [by rewrite Hv|done]. }
  assert (Hn : bound p n = None) by (destruct (bound p n) as [i|] eqn:E; [destruct (H3 _ _ E) as (_ & ? & _); done|done]).
  assert (Hpres : forall m, present p1 m <-> present p m).
  { intros m. unfold p1. rewrite present_set. split; [intros [->|]; [by exists v|done]|auto]. }
  split_and!; [split| |apply Hcol; by left|by rewrite Hb].
  - intros x m. rewrite !Hpres. apply H1.
  - intros x Hx [Hne HA]%not_elem_of_cons m Hm. apply Hcol in Hx as [->|Hx]; [done|]. apply Hcol. right. by apply (H2 x).
  - intros x i. rewrite Hb. intros Hx. destruct (H3 x i Hx) as (B1 & B2 & B3 & B4). split_and!; [done|apply Hcol; by right| |].
    + intros m Hm. destruct (B3 m Hm) as [C1 C2]. split; [apply Hcol; by right|]. apply not_elem_of_cons. split; [|done]. by intros ->.
    + intros m j Hm. rewrite Hb. by apply B4.
  - intros x i Hx. rewrite Hb. by apply H4.
  - split; [done| |]; intros m Hm; [apply Hcol; by right|apply Hb].
Qed.

Lemma below_collected A p n : plan_inv A p -> (forall m, m ∈ count_parts n -> col p m) ->
  (forall a, a ∈ A -> (node_size n <= node_size a)%nat) -> forall m, below n m -> col p m /\ m ∉ A.
Proof.
  intros Hi Hparts HA m Hm. revert Hparts HA. induction Hm as [n m Hm|n k m Hk Hb IH]; intros Hparts HA.
  - split; [by apply Hparts|]. intros Hin%HA. apply count_parts_size in Hm. lia.
  - pose proof (count_parts_size _ _ Hk). apply IH.
    + apply (pi_col _ _ Hi); [by apply Hparts|]. intros Hin%HA. lia.
    + intros a Ha. specialize (HA a Ha). lia.
Qed.

Lemma finish_collect n p A : plan_inv (n :: A) p -> col p n -> bound p n = None -> (forall m, m ∈ count_parts n -> col p m) ->
  (forall a, a ∈ A -> (node_size n < node_size a)%nat) ->
  let p' := bind_node n p in
  plan_inv A p' /\ (forall m, present p' m <-> present p m) /\ (forall m, col p' m <-> col p m) /\ (forall m, m <> n -> bound p' m = bound p m).
Proof.
  intros Hi Hc Hb Hparts HA. cbv zeta.
  assert (Hbelow : forall m, below n m -> col p m /\ m ∉ n :: A).
  { apply (below_collected _ _ _ Hi Hparts). intros a [->|Ha%HA]%elem_of_cons; lia. }
  assert (Hweak : plan_inv A p).
  { pose proof Hi as [H1 H2 H3 H4]. split; [done| | |done].
    - intros x Hx Hn m Hm. destruct (node_eqb_spec x n) as [->|Hne]; [by apply Hparts|]. apply (H2 x); [done| |done]. by apply not_elem_of_cons.
    - intros x i Hx. destruct (H3 x i Hx) as (B1 & B2 & B3 & B4). split_and!; try done. intros m Hm. destruct (B3 m Hm) as [? [? ?]%not_elem_of_cons]. done. }
  unfold bind_node. destruct (visit_of p n) as [v|] eqn:Ev; [|done]. destruct (_ || _) eqn:Eg; [done|].
  set (p' := mkPlan _ _).
  assert (Hvis : forall m, visit_of p' m = if node_eqb m n then Some (mkSmtVisit (count v) (Some (length (bindings p))) (collected v)) else visit_of p m) by done.
  assert (Hcol : forall m, col p' m <-> col p m).
  { intros m. unfold col. rewrite Hvis. destruct (node_eqb_spec m n) as [->|]; [|done]. rewrite Ev. split; intros (w & [= <-] & Hw); eauto. }
  assert (Hpres : forall m, present p' m <-> present p m).
  { intros m. unfold present. rewrite Hvis. destruct (node_eqb_spec m n) as [->|]; [|done]. rewrite Ev. split; eauto. }
  assert (Hbn : bound p' n = Some (length (bindings p))) by (unfold bound; rewrite Hvis; by destruct (node_eqb_spec n n)).
  assert (Hbo : forall m, m <> n -> bound p' m = bound p m) by (intros m Hm; unfold bound; rewrite Hvis; by destruct (node_eqb_spec m n)).
  split; [|by split_and!]. pose proof Hi as [H1 H2 H3 H4]. split.
  - intros x m. rewrite !Hpres. apply H1.
  - intros x Hx%Hcol Hn m Hm. apply Hcol. by apply (pi_col _ _ Hweak x).
  - intros x i Hx. destruct (node_eqb_spec x n) as [->|Hne].
    + rewrite Hbn in Hx. injection Hx as <-. split_and!; [apply list_lookup_middle; done|by apply Hcol| |].
      * intros m Hm. destruct (Hbelow m Hm) as [? [? ?]%not_elem_of_cons]. split; [by apply Hcol|done].
      * intros m j Hm Hj. pose proof (below_size _ _ Hm). rewrite Hbo in Hj by (intros ->; lia). destruct (H3 m j Hj) as (B1 & _). by apply lookup_lt_Some in B1.
    + rewrite Hbo in Hx by done. destruct (H3 x i Hx) as (B1 & B2 & B3 & B4). split_and!; [by apply lookup_app_l_Some|by apply Hcol| |].
      * intros m Hm. destruct (B3 m Hm) as [? [? ?]%not_elem_of_cons]. split; [by apply Hcol|done].
      * intros m j Hm Hj. destruct (B3 m Hm) as [_ [Hmn _]%not_elem_of_cons]. rewrite Hbo in Hj by done. by apply (B4 m).
  - intros x i [Hx|[Hlen Hx]]%lookup_app_Some.
    + pose proof (H4 x i Hx) as Hxb. rewrite Hbo; [done|]. intros ->. congruence.
    + apply list_lookup_singleton_Some in Hx as [Hlen2 ->]. rewrite Hbn. f_equal. lia.
Qed.

Lemma collect_ok fuel n p A : (node_size n <= fuel)%nat -> plan_inv A p -> present p n ->
  (forall a, a ∈ A -> (node_size n < node_size a)%nat) ->
  let p' := collect_fuel fuel n p in plan_inv A p' /\ plan_grows p p' /\ col p' n.
Proof.
  revert n p A. induction fuel as [|fuel IH]; intros n p A Hsize Hi Hp HA; [destruct n as [[]|[]]; simpl in Hsize; lia|]. cbv zeta. cbn [collect_fuel].
  destruct Hp as [v Hv]. rewrite Hv. destruct (collected v) eqn:Ec; [split_and!; [done|reflexivity|by exists v]|].
  destruct (start_collect n v p A Hi Hv Ec) as (Hi1 & Hg1 & Hc1 & Hb1). set (p1 := set_visit n _ p) in *.
  assert (Hfold : forall l p2, (forall m, m ∈ l -> m ∈ count_parts n) -> plan_inv (n :: A) p2 -> plan_grows p1 p2 ->
    let p3 := fold_left (fun p m => collect_fuel fuel m p) l p2 in plan_inv (n :: A) p3 /\ plan_grows p2 p3 /\ forall m, m ∈ l -> col p3 m).
  { induction l as [|m l IHl]; intros p2 Hl Hi2 Hg2; cbv zeta; simpl; [split_and!; [done|reflexivity|intros m Hm; inversion Hm]|].
    pose proof (Hl m ltac:(left)) as Hm. pose proof (count_parts_size _ _ Hm) as Hms.
    destruct (IH m p2 (n :: A)) as (H1 & H2 & H3); [lia|done| |intros a [->|Ha%HA]%elem_of_cons; lia|].
    { apply (pg_present _ _ Hg2). apply (pi_present _ _ Hi1 n); [|done]. apply (pg_present _ _ Hg1). by exists v. }
    destruct (IHl (collect_fuel fuel m p2)) as (H4 & H5 & H6); [intros x Hx; apply Hl; by right|done|by etransitivity|].
    split_and!; [done|by etransitivity|]. intros x [->|Hx]%elem_of_cons; [by apply (pg_col _ _ H5)|by apply H6]. }
  destruct (Hfold (collect_parts n) p1) as (Hi2 & Hg2 & Hcs); [intros m; by rewrite collect_parts_elem|done|reflexivity|].
  set (p2 := fold_left _ (collect_parts n) p1) in *.
  destruct (finish_collect n p2 A) as (Hi3 & Hp3 & Hc3 & Hb3); [done|by apply (pg_col _ _ Hg2)|by rewrite (pg_bound _ _ Hg2)| |done|].
  { intros m Hm. apply Hcs. by apply collect_parts_elem. }
  split_and!; [done| |apply Hc3; by apply (pg_col _ _ Hg2)].
  assert (Hncol : forall m, col p m -> m <> n) by (intros m (w & Hw & Hcw) ->; simplify_eq; congruence).
  split.
  - intros m. rewrite Hp3, (pg_present _ _ Hg2). apply (pg_present _ _ Hg1).
  - intros m Hm. apply Hc3, (pg_col _ _ Hg2). by apply (pg_col _ _ Hg1).
  - intros m Hm. rewrite Hb3 by auto. rewrite (pg_bound _ _ Hg2) by by apply (pg_col _ _ Hg1). by apply (pg_bound _ _ Hg1).
Qed.

Lemma plan_ok cs : plan_inv [] (new_plan cs).
Proof.
  unfold new_plan. destruct (count_all_ok cs (mkPlan [] [])) as (H1 & [H2 H3] & H4 & _).
  { intros n [v Hv]. done. }
  { by split. }
  set (p := fold_left (fun p b => count_node (NBool b) p) cs (mkPlan [] [])) in *. cbv zeta.
  assert (Hi : plan_inv [] p).
  { split; [intros n m Hn Hm; apply (H1 n Hn); [apply not_elem_of_nil|done]| | |by rewrite H2].
    - intros n (v & Hv & Hc). destruct (H3 _ _ Hv). congruence.
    - intros n i Hb. unfold bound in Hb. destruct (visit_of p n) as [v|] eqn:Ev; [|done]. destruct (H3 _ _ Ev). congruence. }
  clear H1 H2 H3. revert Hi H4. generalize p. clear p. induction cs as [|b cs IH]; intros p Hi Hp; [done|]. simpl.
  destruct (collect_ok (node_size (NBool b)) (NBool b) p [] ltac:(done) Hi (Hp b ltac:(left))) as (G1 & G2 & _); [intros a Ha; inversion Ha|].
  apply IH; [done|]. intros x Hx. apply (pg_present _ _ G2). apply Hp. by right.
Qed.

(** *** The writers *)
Ltac elem_part := simpl; rewrite ?elem_of_cons; tauto.

Section Writer.
Variables (p : SmtCsePlan) (env : Env).

(** The references below a node have their values in the environment. *)
Definition refs_ok (n : Node) : Prop := forall m j, below n m -> bound p m = Some j -> env !! j = Some (node_val m).
Definition root_ok (n : Node) (skip : option nat) : Prop := forall j, reference p n skip = Some j -> env !! j = Some (node_val n).

Lemma reference_bound n skip j : reference p n skip = Some j -> bound p n = Some j.
Proof. unfold reference. destruct (bound p n); [|done]. case_bool_decide; naive_solver. Qed.
Lemma part_ok n m skip : refs_ok n -> m ∈ count_parts n -> refs_ok m /\ root_ok m skip.
Proof.
  intros H Hm. split; [intros k j Hk; apply H; by eapply below_step|]. intros j Hj%reference_bound. apply H; [by apply below_part|done].
Qed.

Lemma all_bool_val vs bs : Forall2 (fun v b => bool_val env v = Some b) vs bs -> bool_val env (FAnd vs) = Some (forallb id bs).
Proof. induction 1 as [|v b vs bs Hv _ IH]; [done|]. simpl. rewrite Hv. simpl in IH. by rewrite IH. Qed.

Lemma write_ok :
  (forall e se sb, refs_ok (NWord e) -> root_ok (NWord e) se -> word_val env (write_expr p e se sb) = Some (smt_word e)) /\
  (forall b se sb, refs_ok (NBool b) -> root_ok (NBool b) sb -> bool_val env (write_bool p b se sb) = Some (smt_bool b)).
Proof.
  assert (Hpart : forall n m skip, refs_ok n -> m ∈ count_parts n -> refs_ok m /\ root_ok m skip) by apply part_ok.
  apply expr_bexpr_ind; intros; simpl write_expr; simpl write_bool;
    (match goal with |- context [reference p ?n ?s] => destruct (reference p n s) as [j|] eqn:Er end;
      [match goal with H : root_ok _ _ |- _ => apply H in Er end; simpl; by rewrite Er|]); try done.
  - destruct (Hpart _ (NWord e) se H0 ltac:(elem_part)). simpl. by rewrite H.
  - destruct (Hpart _ (NWord l) se H1 ltac:(elem_part)), (Hpart _ (NWord r) se H1 ltac:(elem_part)). simpl. by rewrite H, H0.
  - destruct (Hpart _ (NWord l) None H2 ltac:(elem_part)), (Hpart _ (NWord r) None H2 ltac:(elem_part)),
      (Hpart _ (NWord m) None H2 ltac:(elem_part)). simpl. by rewrite H, H0, H1.
  - destruct (Hpart _ (NBool c) sb H2 ltac:(elem_part)), (Hpart _ (NWord t) se H2 ltac:(elem_part)),
      (Hpart _ (NWord e) se H2 ltac:(elem_part)). simpl. by rewrite H, H0, H1.
  - destruct (Hpart _ (NBool b) sb H0 ltac:(elem_part)). simpl. by rewrite H.
  - rewrite (all_bool_val _ (map smt_bool bs)).
    + f_equal. simpl. clear. induction bs as [|b bs IH]; [done|]. simpl. by rewrite <- IH.
    + assert (Hsub : forall b, b ∈ bs -> refs_ok (NBool b) /\ root_ok (NBool b) sb).
      { intros b Hb. apply (Hpart (NBool (BAnd bs))); [done|]. simpl. apply list_elem_of_fmap. eauto. }
      clear - H Hsub. induction H as [|b bs Hb _ IH]; simpl; constructor.
      * destruct (Hsub b ltac:(left)). by apply Hb.
      * apply IH. intros x Hx. apply Hsub. by right.
  - destruct (Hpart _ (NWord l) se H1 ltac:(elem_part)), (Hpart _ (NWord r) se H1 ltac:(elem_part)). simpl. by rewrite H, H0.
Qed.
End Writer.

Lemma run_app env ds1 ds2 : run_definitions env (ds1 ++ ds2) = run_definitions env ds1 ≫= fun env => run_definitions env ds2.
Proof. revert env. induction ds1 as [|d ds1 IH]; intros env; [done|]. simpl. destruct (definition_val env d); [apply IH|done]. Qed.

Lemma definitions_ok p : plan_inv [] p -> forall k, (k <= length (bindings p))%nat ->
  run_definitions [] (imap (write_binding p) (take k (bindings p))) = Some (node_val <$> take k (bindings p)).
Proof.
  intros Hi. induction k as [|k IH]; intros Hk; [done|]. destruct (lookup_lt_is_Some_2 (bindings p) k ltac:(lia)) as [n Hn].
  rewrite (take_S_r _ _ _ Hn), imap_app, run_app, IH, fmap_app by lia. cbn [mbind option_bind]. rewrite length_take_le by lia. simpl. rewrite Nat.add_0_r.
  pose proof (pi_back _ _ Hi _ _ Hn) as Hbn. destruct (pi_bound _ _ Hi _ _ Hbn) as (_ & _ & _ & Hlt).
  assert (Hrefs : refs_ok p (node_val <$> take k (bindings p)) n).
  { intros m j Hm Hj. destruct (pi_bound _ _ Hi _ _ Hj) as (Hin & _). specialize (Hlt m j Hm Hj).
    by rewrite list_lookup_fmap, lookup_take_lt, Hin. }
  assert (Hroot : root_ok p (node_val <$> take k (bindings p)) n (Some k)).
  { intros j. unfold reference. rewrite Hbn. by rewrite bool_decide_true. }
  destruct (write_ok p (node_val <$> take k (bindings p))) as [Hw Hb]. destruct n as [e|b]; simpl; [rewrite Hw by done|rewrite Hb by done]; done.
Qed.

Lemma assertions_ok p cs : plan_inv [] p ->
  all_val (node_val <$> bindings p) (map (fun b => write_bool p b None None) cs) = Some (forallb smt_bool cs).
Proof.
  intros Hi. assert (Hb : forall n j, bound p n = Some j -> (node_val <$> bindings p) !! j = Some (node_val n)).
  { intros n j Hj. destruct (pi_bound _ _ Hi _ _ Hj) as (Hin & _). by rewrite list_lookup_fmap, Hin. }
  induction cs as [|b cs IH]; [done|]. simpl. destruct (write_ok p (node_val <$> bindings p)) as [_ Hw].
  rewrite Hw; [by rewrite IH|intros m j _; apply Hb|intros j Hj%reference_bound; by apply Hb].
Qed.

(** Without bindings the plain writers are used. *)
Lemma smt_ok env : (forall e, word_val env (word_smt e) = Some (smt_word e)) /\ (forall b, bool_val env (bool_smt b) = Some (smt_bool b)).
Proof.
  apply expr_bexpr_ind; intros; simpl word_smt; simpl bool_smt; try done; try (simpl; repeat match goal with H : _ = Some _ |- _ => rewrite H end; done).
  rewrite (all_bool_val env _ (map smt_bool bs)).
  - f_equal. simpl. clear. induction bs as [|b bs IH]; [done|]. simpl. by rewrite <- IH.
  - induction H; simpl; constructor; auto.
Qed.

Lemma script_correct cs s : write_smt_assertions cs = inl s -> script_val s = Some (forallb smt_bool cs).
Proof.
  unfold write_smt_assertions. destruct cs as [|b cs]; [by intros [= <-]|]. generalize (b :: cs). clear b cs. intros cs.
  destruct (existsb _ cs); [done|]. pose proof (plan_ok cs) as Hi. cbv zeta. destruct (bindings (new_plan cs)) as [|n ns] eqn:En.
  - intros [= <-]. unfold script_val. simpl. induction cs as [|b cs IH]; [done|]. simpl. destruct (smt_ok []) as [_ Hb]. rewrite Hb.
    assert (Hall : forall cs, all_val [] (map bool_smt cs) = Some (forallb smt_bool cs)); [|by rewrite Hall].
    clear - Hb. induction cs as [|b cs IH]; [done|]. simpl. by rewrite Hb, IH.
  - intros Hs. assert (Hs' : s = mkScript (imap (write_binding (new_plan cs)) (bindings (new_plan cs))) (map (fun b => write_bool (new_plan cs) b None None) cs))
      by (rewrite En; congruence). subst s. unfold script_val. cbn [definitions assertions].
    pose proof (definitions_ok _ Hi (length (bindings (new_plan cs))) ltac:(done)) as Hd. rewrite take_ge in Hd by done. rewrite Hd.
    by apply assertions_ok.
Qed.
End Semantics.

(** ** The evaluator's reading *)
Section Agreement.
Context `{SA : SignedArith, HF : HashFns}.
Variable model : SymbolicModel.
Abbreviation den := (denote_word model).
Abbreviation denb := (denote_bool model).

(** No division by zero is evaluated: the branches that are not taken and the
    inputs of hashes do not count. *)
Fixpoint divisions_guarded (e : SymExpr) : Prop :=
  match e with
  | EConst _ | EVar _ | EGasLeft _ | EKeccak _ _ _ | EHash _ _ _ => True
  | ENot v => divisions_guarded v
  | EBinOp op l r => divisions_guarded l /\ divisions_guarded r /\ (is_division op = true -> den r <> Some ZERO)
  | ETernOp _ l r m => divisions_guarded l /\ divisions_guarded r /\ divisions_guarded m
  | EIte c t f => bool_guarded c /\ (denb c = Some true -> divisions_guarded t) /\ (denb c = Some false -> divisions_guarded f)
  end
with bool_guarded (b : SymBoolExpr) : Prop :=
  match b with
  | BConst _ => True
  | BNot v => bool_guarded v
  | BAnd vs => (fix go vs := match vs with [] => True | v :: r => bool_guarded v /\ (denb v = Some true -> go r) end) vs
  | BCmp _ l r => divisions_guarded l /\ divisions_guarded r
  end.

Variable h : SymExpr -> Prop.
Hypothesis named : forall x, h x -> same_node x x -> den x = option_map (model_value model) (hash_name x).
Abbreviation sigma := (model_value model).

Lemma smt_wide_eval op l r m : smt_wide op m l r m = ternop_eval op l r m.
Proof.
  unfold smt_wide, ternop_eval. destruct (is_zero m) eqn:Ez; [done|]. unfold is_zero in Ez. rewrite Ez. apply Z.eqb_neq in Ez.
  pose proof (uval_range l). pose proof (uval_range r). pose proof (uval_range m). cbv zeta.
  destruct op; unfold add_mod, mul_mod; f_equal; f_equal; apply Z.mod_small; nia.
Qed.
Lemma smt_binop_eval op a b : (is_division op = true -> b <> ZERO) -> smt_binop op a b = binop_eval op a b.
Proof.
  intros H. unfold smt_binop. destruct (is_division op && is_zero b) eqn:E; [|done]. apply andb_prop in E as [E1 E2%is_zero_true]. by destruct (H E1).
Qed.

Lemma smt_agrees :
  (forall e, word_hashes h e -> divisions_guarded e -> forall v, den e = Some v -> smt_word sigma e = v) /\
  (forall b, bool_hashes h b -> bool_guarded b -> forall v, denb b = Some v -> smt_bool sigma b = v).
Proof.
  apply expr_bexpr_ind.
  - by intros k _ _ v [= <-].
  - by intros s _ _ v [= <-].
  - by intros s _ _ v [= <-].
  - intros n l bs _ _ (Hh & _)%keccak_hashes _ v Hv. rewrite (named _ Hh) in Hv by done. by simplify_eq/=.
  - by intros n a bs _ _ _ v [= <-].
  - intros e IH Pe Ge v. simpl in *. destruct (den e) as [w|]; [|done]. intros [= <-]. by rewrite (IH Pe Ge w).
  - intros op l r IHl IHr [Pl Pr] (Gl & Gr & Gd) v (a & b & Ha & Hb & ->)%den_binop_inv. simpl. rewrite (IHl Pl Gl a Ha), (IHr Pr Gr b Hb).
    apply smt_binop_eval. intros Hd ->. by apply Gd.
  - intros op l r m IHl IHr IHm (Pl & Pr & Pm) (Gl & Gr & Gm) v. simpl. destruct (den l) as [a|], (den r) as [b|], (den m) as [k|]; try done.
    intros [= <-]. rewrite (IHl Pl Gl a), (IHr Pr Gr b), (IHm Pm Gm k) by done. apply smt_wide_eval.
  - intros c t f IHc IHt IHf (Qc & Pt & Pf) (Gc & Gt & Gf) v (b & Hb & Hv)%den_ite_inv. simpl. rewrite (IHc Qc Gc b Hb). destruct b; auto.
  - by intros b _ _ v [= <-].
  - intros b IH Qb Gb v. simpl in *. destruct (denb b) as [w|]; [|done]. intros [= <-]. by rewrite (IH Qb Gb w).
  - intros bs IH Qb%and_hashes Gb v. rewrite denote_BAnd. revert Qb Gb v. induction IH as [|b bs Hb _ IH]; intros Qb Gb v; [by intros [= <-]|].
    apply Forall_cons_1 in Qb as [Q1 Q2]. destruct Gb as [G1 G2]. simpl. destruct (denb b) as [[]|] eqn:Eb; [| |done].
    + intros Hv. rewrite (Hb Q1 G1 true) by done. simpl. apply (IH Q2 (G2 eq_refl) v Hv).
    + intros [= <-]. by rewrite (Hb Q1 G1 false).
  - intros op l r IHl IHr [Pl Pr] [Gl Gr] v (a & b & Ha & Hb & ->)%den_cmp_inv. simpl. by rewrite (IHl Pl Gl a Ha), (IHr Pr Gr b Hb).
Qed.
End Agreement.
