(* ===== verification/SymFallback.v ===== *)
(** * SymFallback: local searches for models

    Models runtime/solver/fallback/mod.rs: the models that the solver tries
    before it starts a process.  Candidates come from constants, powers of two
    and single bits that masks force ([MaskHints]); [FallbackSearch] walks a
    bounded product of them; the variables outside of the search are completed
    from the constraints ([complete_fallback_support_model]); and the branches
    of Solidity's checked multiplication are built directly
    ([checked_mul_guard_branch_model]) under a budget of visited nodes. *)

From Stdlib Require Import ZArith Lia Bool String.
From stdpp Require Import base list option gmap sets sorting.
From S2P Require Import Prelude SymWord SymExpr SymSimpl SymSound SymCmp SymContext SymVisit SymFacts.
Local Open Scope Z_scope.

(** The names of symbols and which of them are inputs of the replay. *)
Class SymbolInfo := {
  symbol_name : Symbol -> string;
  is_replayable_input : Symbol -> bool
}.

Definition HARD_ARITH_FALLBACK_MAX_VARS : nat := 4.
Definition HARD_ARITH_FALLBACK_MAX_ASSIGNMENTS : Z := 50000.
Definition FALLBACK_MODEL_MAX_VARS : nat := 5.
Definition FALLBACK_MODEL_MAX_CANDIDATES_PER_VAR : nat := 24.
Definition FALLBACK_MODEL_MAX_ASSIGNMENTS : Z := 24 * 24.
Definition MAX_CHECKED_MUL_SUPPORT_VISITS : Z := 256.

(** A model under construction, and as the evaluator sees it. *)
Abbreviation Model := (gmap Symbol U256).
Definition lookup_model (m : Model) : SymbolicModel := fun s => m !! s.

Record MaskHints := mkHints { hint_one : U256; hint_zero : U256 }.

Module SFallback.
Import SFacts.

(** ** Visits in order *)
(** The distinct words of a node, in the order of [visit_unique]. *)
Definition walk_step (st : VisitState) : VisitState + list SymExpr :=
  match visit_step (fun _ => false) st with
  | inl st' => inl st'
  | inr _ => inr (rev (visited_words st))
  end.
Definition visit_exprs (n : Node) : list SymExpr :=
  default [] (iterate walk_step (S (node_size n)) (mkVisit [n] [] [])).

(** [SymbolicVars], an [IndexSet]: in the order of insertion. *)
Definition insert_var (v : Symbol) (vars : list Symbol) : list Symbol := if existsb (Pos.eqb v) vars then vars else vars ++ [v].
Definition extend_vars (vars : list Symbol) (vs : list Symbol) : list Symbol := fold_left (fun vars v => insert_var v vars) vs vars.
Definition collect_with (f : SymExpr -> option Symbol) (n : Node) (vars : list Symbol) : list Symbol :=
  extend_vars vars (omap f (visit_exprs n)).
Definition collect_vars (b : SymBoolExpr) : list Symbol -> list Symbol := collect_with get_var (NBool b).
Definition collect_eval_vars_bool (b : SymBoolExpr) : list Symbol -> list Symbol := collect_with get_eval_var (NBool b).
Definition collect_eval_vars (e : SymExpr) : list Symbol -> list Symbol := collect_with get_eval_var (NWord e).
Definition collect_bool_fallback_vars (b : SymBoolExpr) : list Symbol -> list Symbol := collect_with get_eval_var (NBool b).
Definition collect_bool_hard_arith_vars (b : SymBoolExpr) (vars : list Symbol) : list Symbol :=
  fold_left (fun vars e => if is_hard_arith_node e then collect_eval_vars e vars else vars) (visit_exprs (NBool b)) vars.
Definition subset_vars (xs ys : list Symbol) : bool := forallb (fun x => existsb (Pos.eqb x) ys) xs.

(** Sets of constants and candidates, which are only read in sorted order. *)
Definition insert_value (v : U256) (s : gset Z) : gset Z := {[uval v]} ∪ s.
Definition sorted_values (s : gset Z) : list U256 := map U (merge_sort Z.le (elements s)).
Definition collect_bool_constants (b : SymBoolExpr) (constants : gset Z) : gset Z :=
  fold_left (fun constants e => match e with EConst v => insert_value v constants | _ => constants end) (visit_exprs (NBool b)) constants.
Definition sorted_constants (constraints : list SymBoolExpr) : list U256 :=
  sorted_values (fold_left (fun cs b => collect_bool_constants b cs) constraints ∅).

(** ** Bits forced by masks *)
Definition zero_mask_equality (var : Symbol) (masked z : SymExpr) : option U256 :=
  if const_is z is_zero then
    match masked with
    | EBinOp And l r =>
        match get_var l with
        | Some name => if (name =? var)%positive then as_const r else None
        | None => None
        end
    | _ => None
    end
  else None.
Definition apply_equality (var : Symbol) (l r : SymExpr) (inverted : bool) (h : MaskHints) : MaskHints :=
  match (match zero_mask_equality var l r with Some mask => Some mask | None => zero_mask_equality var r l end) with
  | Some mask =>
      if inverted then if is_power_of_two mask then mkHints (u_or (hint_one h) mask) (hint_zero h) else h
      else mkHints (hint_one h) (u_or (hint_zero h) mask)
  | None => h
  end.
Fixpoint apply_bool (var : Symbol) (b : SymBoolExpr) (inverted : bool) (h : MaskHints) : MaskHints :=
  match b with
  | BConst _ => h
  | BNot v => apply_bool var v (negb inverted) h
  | BAnd vs =>
      if inverted then h
      else (fix go vs h := match vs with [] => h | v :: r => go r (apply_bool var v false h) end) vs h
  | BCmp Eq l r => apply_equality var l r inverted h
  | BCmp _ _ _ => h
  end.
Definition for_var (var : Symbol) (constraints : list SymBoolExpr) : MaskHints :=
  fold_left (fun h b => apply_bool var b false h) constraints (mkHints ZERO ZERO).
Definition hints_conflict (h : MaskHints) : bool := negb (is_zero (u_and (hint_one h) (hint_zero h))).
Definition with_hints (h : MaskHints) (candidate : U256) : U256 := u_and (u_or candidate (hint_one h)) (u_not (hint_zero h)).
Definition push_fallback_candidate (h : MaskHints) (candidate : U256) (candidates : gset Z) : gset Z :=
  insert_value (with_hints h candidate) candidates.

(** ** Candidates of a variable *)
Definition full (candidates : gset Z) : bool := (FALLBACK_MODEL_MAX_CANDIDATES_PER_VAR <=? size candidates)%nat.
(** The loops stop after the round in which the set becomes full. *)
Fixpoint push_rounds (h : MaskHints) (rounds : list (list U256)) (candidates : gset Z) : gset Z :=
  match rounds with
  | [] => candidates
  | round :: rest =>
      let candidates := fold_left (fun s v => push_fallback_candidate h v s) round candidates in
      if full candidates then candidates else push_rounds h rest candidates
  end.
Definition near (constant : U256) : list U256 := [constant; wrapping_add constant ONE; wrapping_sub constant ONE].
Definition powers : list U256 := map (fun bit => u_shl ONE (Z.of_nat bit)) (seq 0 256).
Definition extremes : list U256 :=
  [ZERO; ONE; U 2; U 3; MAX; wrapping_sub MAX ONE; wrapping_sub MAX (U 2)].
Definition fallback_candidates_for_var (constraints : list SymBoolExpr) (constants : list U256) (var : Symbol) : option (list U256) :=
  let h := for_var var constraints in
  if hints_conflict h then None
  else
    let candidates := fold_left (fun s v => push_fallback_candidate h v s) extremes ∅ in
    let candidates := push_rounds h (map near constants) candidates in
    let candidates := push_rounds h (map (fun p => [p]) powers) candidates in
    Some (take FALLBACK_MODEL_MAX_CANDIDATES_PER_VAR (sorted_values candidates)).

Section Search.
Context `{SA : SignedArith, HF : HashFns, SI : SymbolInfo}.

(** ** Evaluation of partial models *)
Definition eval_word_in (m : Model) (e : SymExpr) : U256 + SymbolicError := eval_model_word (lookup_model m) e.
Definition complete_for (m : Model) (vars : list Symbol) : bool := forallb (fun v => is_some (m !! v)) vars.
Definition eval_model_if_complete (m : Model) (e : SymExpr) : option U256 + SymbolicError :=
  if complete_for m (collect_eval_vars e []) then
    match eval_word_in m e with inl v => inl (Some v) | inr err => inr err end
  else inl None.
Definition eval_model_if_complete_bool (m : Model) (b : SymBoolExpr) : option bool + SymbolicError :=
  if complete_for m (collect_eval_vars_bool b []) then
    match eval_model_bool (lookup_model m) b with inl v => inl (Some v) | inr err => inr err end
  else inl None.
(** [eval_model(..).unwrap_or(false)]. *)
Definition eval_true (m : Model) (b : SymBoolExpr) : bool :=
  match eval_model_bool (lookup_model m) b with inl v => v | inr _ => false end.
Definition known (m : Model) (e : SymExpr) : option U256 :=
  match eval_model_if_complete m e with inl (Some v) => Some v | _ => None end.

Definition assign_symbol (s : Symbol) (value : U256) (m : Model) : bool * Model :=
  match m !! s with
  | Some existing => (u_eqb existing value, m)
  | None => (true, <[s := value]> m)
  end.
Definition assign_model_value (e : SymExpr) (value : U256) (m : Model) : bool * Model :=
  match e with
  | EConst existing => (u_eqb existing value, m)
  | EVar s | EGasLeft s => assign_symbol s value m
  | _ => (false, m)
  end.

(** ** Completion from the constraints *)
Definition support_cmp_op (op : SymCmpOp) (inverted : bool) : option SymCmpOp :=
  if negb inverted then Some op
  else match op with
  | Ult => Some Uge | Ugt => Some Ule | Ule => Some Ugt | Uge => Some Ult
  | Eq | Slt | Sgt => None
  end.
Definition support_target_for_known_left (op : SymCmpOp) (value : U256) : option U256 :=
  match op with
  | Eq | Ule | Uge => Some value
  | Ult => u_checked_add value ONE
  | Ugt => u_checked_sub value ONE
  | Slt | Sgt => None
  end.
Definition support_target_for_known_right (op : SymCmpOp) (value : U256) : option U256 :=
  match op with
  | Eq | Ule | Uge => Some value
  | Ult => u_checked_sub value ONE
  | Ugt => u_checked_add value ONE
  | Slt | Sgt => None
  end.

Definition assign_checked_sub_minuend (minuend sub_expr : SymExpr) (m : Model) : bool * Model :=
  match sub_expr with
  | EBinOp Sub sub_minuend amount =>
      if expr_eqb sub_minuend minuend then
        match known m amount with
        | Some amount => assign_model_value minuend amount m
        | None => (false, m)
        end
      else (false, m)
  | _ => (false, m)
  end.
Definition complete_checked_sub_guard (op : SymCmpOp) (l r : SymExpr) (m : Model) : bool * Model :=
  match op with
  | Uge => assign_checked_sub_minuend l r m
  | Ule => assign_checked_sub_minuend r l m
  | _ => (false, m)
  end.
Definition assign_checked_add_base (sum base : SymExpr) (m : Model) : bool * Model :=
  match sum with
  | EBinOp Add l r =>
      if expr_eqb l base && is_some (known m r) then assign_model_value base ZERO m
      else if expr_eqb r base && is_some (known m l) then assign_model_value base ZERO m
      else (false, m)
  | _ => (false, m)
  end.
Definition complete_default_support_comparison (op : SymCmpOp) (l r : SymExpr) (m : Model) : bool * Model :=
  match op with
  | Uge => assign_checked_add_base l r m
  | Ule => assign_checked_add_base r l m
  | _ => (false, m)
  end.
Definition complete_support_comparison (op : SymCmpOp) (l r : SymExpr) (m : Model) : bool * Model :=
  let '(done, m) := complete_checked_sub_guard op l r m in
  if done then (true, m)
  else
    match (match known m l with Some v => support_target_for_known_left op v | None => None end) with
    | Some target => assign_model_value r target m
    | None =>
        match (match known m r with Some v => support_target_for_known_right op v | None => None end) with
        | Some target => assign_model_value l target m
        | None => (false, m)
        end
    end.
Fixpoint complete_support_bool (b : SymBoolExpr) (inverted defaults_only : bool) (m : Model) : bool * Model :=
  match b with
  | BConst _ => (false, m)
  | BNot v => complete_support_bool v (negb inverted) defaults_only m
  | BAnd vs =>
      if inverted then (false, m)
      else
        (fix go vs changed m := match vs with
         | [] => (changed, m)
         | v :: r => let '(c, m) := complete_support_bool v false defaults_only m in go r (changed || c) m
         end) vs false m
  | BCmp op l r =>
      match support_cmp_op op inverted with
      | None => (false, m)
      | Some op => if defaults_only then complete_default_support_comparison op l r m else complete_support_comparison op l r m
      end
  end.

(** *** The budget of visited nodes *)
Fixpoint charge_words (words : list SymExpr) (remaining : Z) : bool * Z :=
  match words with
  | [] => (true, remaining)
  | _ :: rest => if remaining =? 0 then (false, remaining) else charge_words rest (remaining - 1)
  end.
Definition charge_support_constraint (b : SymBoolExpr) (remaining : Z) : bool * Z :=
  if remaining =? 0 then (false, remaining) else charge_words (visit_exprs (NBool b)) (remaining - 1).

(** What a pass leaves: its result, the model and the budget. *)
Definition Pass (A : Type) : Type := A * Model * Z.

(** One pass over the constraints with [complete_support_bool]; [None] when a
    constraint is false or the budget is spent. *)
Fixpoint support_pass (defaults_only : bool) (constraints : list SymBoolExpr) (changed : bool) (m : Model) (remaining : Z)
  : Pass (option bool) :=
  match constraints with
  | [] => (Some changed, m, remaining)
  | b :: rest =>
      let '(paid, remaining) := charge_support_constraint b remaining in
      if negb paid then (None, m, remaining)
      else
        match eval_model_if_complete_bool m b with
        | inl (Some true) => support_pass defaults_only rest changed m remaining
        | inl (Some false) | inr _ => (None, m, remaining)
        | inl None =>
            let '(c, m) := complete_support_bool b false defaults_only m in
            support_pass defaults_only rest (changed || c) m remaining
        end
  end.
Definition complete_support_constraints_once (constraints : list SymBoolExpr) (m : Model) (remaining : Z) : Pass (option bool) :=
  support_pass false constraints false m remaining.

(** All constraints are true, each paid for. *)
Fixpoint all_true (constraints : list SymBoolExpr) (m : Model) (remaining : Z) : bool * Z :=
  match constraints with
  | [] => (true, remaining)
  | b :: rest =>
      let '(paid, remaining) := charge_support_constraint b remaining in
      if paid && eval_true m b then all_true rest m remaining else (false, remaining)
  end.
Fixpoint support_rounds (rounds : nat) (constraints : list SymBoolExpr) (m : Model) (remaining : Z) : Pass bool :=
  let finish m remaining := let '(ok, remaining) := all_true constraints m remaining in (ok, m, remaining) in
  match rounds with
  | O => finish m remaining
  | S rounds =>
      let '(r, m, remaining) := complete_support_constraints_once constraints m remaining in
      match r with
      | None => (false, m, remaining)
      | Some true => support_rounds rounds constraints m remaining
      | Some false =>
          let '(r, m, remaining) := support_pass true constraints false m remaining in
          match r with
          | None => (false, m, remaining)
          | Some true => support_rounds rounds constraints m remaining
          | Some false => finish m remaining
          end
      end
  end.
Definition complete_fallback_support_model (constraints : list SymBoolExpr) (m : Model) (remaining : Z) : Pass bool :=
  support_rounds (length constraints) constraints m remaining.

Fixpoint propagate_rounds (rounds : nat) (constraints : list SymBoolExpr) (m : Model) (remaining : Z) : Pass bool :=
  match rounds with
  | O => (true, m, remaining)
  | S rounds =>
      let '(r, m, remaining) := complete_support_constraints_once constraints m remaining in
      match r with
      | Some true => propagate_rounds rounds constraints m remaining
      | Some false => (true, m, remaining)
      | None => (false, m, remaining)
      end
  end.
Definition propagate_fallback_support_constraints (constraints : list SymBoolExpr) (m : Model) (remaining : Z) : Pass bool :=
  propagate_rounds (length constraints) constraints m remaining.

(** The variables of the constraints that are paid for get the value 0. *)
Fixpoint charged_eval_vars (constraints : list SymBoolExpr) (vars : list Symbol) (remaining : Z) : option (list Symbol) * Z :=
  match constraints with
  | [] => (Some vars, remaining)
  | b :: rest =>
      let '(paid, remaining) := charge_support_constraint b remaining in
      if paid then charged_eval_vars rest (collect_eval_vars_bool b vars) remaining else (None, remaining)
  end.
Definition zero_missing (vars : list Symbol) (m : Model) : Model :=
  fold_left (fun m v => match m !! v with Some _ => m | None => <[v := ZERO]> m end) vars m.
Definition complete_model_with_zeroes (constraints : list SymBoolExpr) (m : Model) (remaining : Z) : Pass bool :=
  match charged_eval_vars constraints [] remaining with
  | (Some vars, remaining) => (true, zero_missing vars m, remaining)
  | (None, remaining) => (false, m, remaining)
  end.

(** ** Bounds of single variables *)
Definition swap_sides (op : SymCmpOp) : SymCmpOp :=
  match op with Ult => Ugt | Ule => Uge | Ugt => Ult | Uge => Ule | _ => op end.
(** The comparison of an unassigned variable with a known value. *)
Definition scalar_comparison (m : Model) (b : SymBoolExpr) : option (SymCmpOp * Symbol * U256) :=
  let '(b, inverted) := match b with BNot inner => (inner, true) | _ => (b, false) end in
  match b with
  | BCmp op l r =>
      match support_cmp_op op inverted with
      | None | Some (Slt | Sgt) => None
      | Some op =>
          let unassigned e := match e with EVar v => match m !! v with Some _ => None | None => Some v end | _ => None end in
          match unassigned l, known m r with
          | Some v, Some value => Some (op, v, value)
          | _, _ =>
              match unassigned r, known m l with
              | Some v, Some value => Some (swap_sides op, v, value)
              | _, _ => None
              end
          end
      end
  | _ => None
  end.
Definition tighten (op : SymCmpOp) (value : U256) (bounds : U256 * U256) : U256 * U256 :=
  let '(lower, upper) := bounds in
  match op with
  | Eq => (u_max lower value, u_min upper value)
  | Ule | Ult => (lower, u_min upper value)
  | Uge | Ugt => (u_max lower value, upper)
  | Slt | Sgt => bounds
  end.
Fixpoint seed_bounds (constraints : list SymBoolExpr) (m : Model) (bounds : gmap Symbol (U256 * U256)) : option (gmap Symbol (U256 * U256)) :=
  match constraints with
  | [] => Some bounds
  | b :: rest =>
      match scalar_comparison m b with
      | None => seed_bounds rest m bounds
      | Some (op, var, value) =>
          match support_target_for_known_right op value with
          | None => None
          | Some value =>
              let '(lower, upper) := tighten op value (default (ZERO, MAX) (bounds !! var)) in
              if u_ltb upper lower then None else seed_bounds rest m (<[var := (lower, upper)]> bounds)
          end
      end
  end.
Definition seed_bounded_support_vars (constraints : list SymBoolExpr) (m : Model) : bool * Model :=
  match seed_bounds constraints m ∅ with
  | None => (false, m)
  | Some bounds => if (size bounds =? 0)%nat then (false, m) else (true, (fst <$> bounds) ∪ m)
  end.

(** ** The product of the candidates *)
Record FallbackSearch := mkSearch {
  fs_constraints : list SymBoolExpr;
  fs_constraint_vars : list (list Symbol);
  fs_searched_vars : list Symbol;
  fs_max_assignments : Z
}.
Definition fallback_partial_model_satisfies_known_constraints (s : FallbackSearch) (m : Model) : bool :=
  forallb (fun '(b, vars) => negb (subset_vars vars (fs_searched_vars s)) || negb (complete_for m vars) || eval_true m b)
    (zip (fs_constraints s) (fs_constraint_vars s)).

(** A full assignment: the greedy completion, then once more from the bounds. *)
Definition complete_assignment (s : FallbackSearch) (m : Model) : option Model :=
  match complete_fallback_support_model (fs_constraints s) m usize_max with
  | (true, completed, _) => Some completed
  | (false, _, remaining) =>
      match seed_bounded_support_vars (fs_constraints s) m with
      | (true, seeded) =>
          match complete_fallback_support_model (fs_constraints s) seeded remaining with
          | (true, completed, _) => Some completed
          | _ => None
          end
      | _ => None
      end
  end.
(** [FallbackSearch::model] over the variables that are left with their
    candidates; the model and the number of assignments are threaded. *)
Fixpoint search_model (s : FallbackSearch) (vars : list (Symbol * list U256)) (m : Model) (assignments : Z) : option Model * Model * Z :=
  match vars with
  | [] => (complete_assignment s m, m, assignments)
  | (var, candidates) :: rest =>
      (fix try candidates m assignments := match candidates with
       | [] => (None, delete var m, assignments)
       | candidate :: candidates =>
           if fs_max_assignments s <=? assignments then (None, m, assignments)
           else
             let assignments := assignments + 1 in
             let m := <[var := candidate]> m in
             if fallback_partial_model_satisfies_known_constraints s m then
               match search_model s rest m assignments with
               | (Some found, m, assignments) => (Some found, m, assignments)
               | (None, m, assignments) => try candidates m assignments
               end
             else try candidates m assignments
       end) candidates m assignments
  end.

Definition constraint_variables (constraints : list SymBoolExpr) : list (list Symbol) := map (fun b => collect_vars b []) constraints.
(** The search of both bounded entry points. *)
Definition search_over (constraints : list SymBoolExpr) (vars : list Symbol) (max_assignments : Z) : option Model :=
  match mapM (fallback_candidates_for_var constraints (sorted_constants constraints)) vars with
  | None => None
  | Some candidates =>
      fst (fst (search_model (mkSearch constraints (constraint_variables constraints) vars max_assignments) (zip vars candidates) ∅ 0))
  end.

(** *** Which variables to search *)
Definition is_scalar_bound (vars : list Symbol) (b : SymBoolExpr) : bool :=
  let '(inner, inverted) := match b with BNot inner => (inner, true) | _ => (b, false) end in
  match inner with
  | BCmp op l r =>
      match support_cmp_op op inverted with
      | None | Some (Slt | Sgt) => false
      | Some _ =>
          existsb (fun '(variable, bound) =>
            match variable with EVar _ => subset_vars (collect_eval_vars bound []) vars | _ => false end) [(l, r); (r, l)]
      end
  | _ => false
  end.
Definition add_zero_invalid_support_vars (vars : list Symbol) (constraints : list SymBoolExpr) : list Symbol :=
  fold_left (fun vars b =>
    if eval_true ∅ b then vars
    else if is_scalar_bound vars b then vars
    else
      let missing := List.filter (fun v => negb (existsb (Pos.eqb v) vars)) (collect_vars b []) in
      if (HARD_ARITH_FALLBACK_MAX_VARS <? length vars + length missing)%nat then vars else extend_vars vars missing) constraints vars.
Definition hard_arith_fallback_vars (constraints : list SymBoolExpr) : list Symbol :=
  fold_left (fun vars b => collect_bool_hard_arith_vars b vars) constraints [].
Fixpoint has_underscore (s : string) : bool :=
  match s with EmptyString => false | String c s => Ascii.eqb c (Ascii.ascii_of_nat 95) || has_underscore s end.
Definition searched_name (name : string) : bool :=
  String.prefix "calldata" name || String.prefix "sequence" name || String.prefix "create_address" name ||
  String.prefix "create2_address" name || negb (has_underscore name).
Definition fallback_search_vars (vars : list Symbol) (constraints : list SymBoolExpr) : list Symbol :=
  if (length vars <=? HARD_ARITH_FALLBACK_MAX_VARS)%nat then vars
  else
    let hard := hard_arith_fallback_vars constraints in
    if (0 <? length hard)%nat && (length hard <=? HARD_ARITH_FALLBACK_MAX_VARS)%nat then add_zero_invalid_support_vars hard constraints
    else List.filter (fun v => searched_name (symbol_name v)) vars.
Definition fallback_vars (constraints : list SymBoolExpr) : list Symbol :=
  fold_left (fun vars b => collect_bool_fallback_vars b vars) constraints [].
Definition in_range (vars : list Symbol) : bool :=
  (0 <? length vars)%nat && (length vars <=? HARD_ARITH_FALLBACK_MAX_VARS)%nat.

Definition constraints_prefer_hard_arith_fallback_first (constraints : list SymBoolExpr) : bool :=
  if negb (existsb contains_hard_arith constraints) || existsb contains_symbolic_hash constraints then false
  else in_range (fallback_search_vars (fallback_vars constraints) constraints).
Definition hard_arith_fallback_model (constraints : list SymBoolExpr) : option Model :=
  if negb (existsb contains_hard_arith constraints) || existsb contains_symbolic_hash constraints then None
  else
    let vars := fallback_search_vars (fallback_vars constraints) constraints in
    if in_range vars then search_over constraints vars HARD_ARITH_FALLBACK_MAX_ASSIGNMENTS else None.

(** The number of variables is checked after each constraint. *)
Fixpoint few_vars (constraints : list SymBoolExpr) (vars : list Symbol) : option (list Symbol) :=
  match constraints with
  | [] => Some vars
  | b :: rest =>
      let vars := collect_bool_fallback_vars b vars in
      if (FALLBACK_MODEL_MAX_VARS <? length vars)%nat then None else few_vars rest vars
  end.
Definition fallback_bounded_model (constraints : list SymBoolExpr) : option Model :=
  if existsb contains_hard_arith constraints then None
  else
    match few_vars constraints [] with
    | None => None
    | Some vars =>
        if (length vars <? 2)%nat then None
        else if existsb contains_symbolic_hash constraints || existsb contains_gasleft_bool constraints then None
        else search_over constraints vars FALLBACK_MODEL_MAX_ASSIGNMENTS
    end.

(** ** One variable *)
Definition single (var : Symbol) (value : U256) : Model := {[var := value]}.
Definition first_model (constraints : list SymBoolExpr) (var : Symbol) (values : list U256) : option Model :=
  option_map (single var) (List.find (fun v => eval_model_constraints (lookup_model (single var v)) constraints) values).
Definition single_candidates (h : MaskHints) (constants : list U256) : list U256 :=
  let candidates := fold_left (fun s v => push_fallback_candidate h v s) (concat (map near constants)) ∅ in
  sorted_values
    (fold_left (fun s v => push_fallback_candidate h v s)
       (concat (map (fun power => power :: concat (map (fun c => [u_or power c; wrapping_add power c]) (take 64 constants))) powers))
       candidates).
Definition fallback_single_var_model (constraints : list SymBoolExpr) : option Model :=
  match fold_left (fun vars b => collect_vars b vars) constraints [] with
  | [var] =>
      let h := for_var var constraints in
      if hints_conflict h then None
      else
        let '(completed, m, _) := complete_fallback_support_model constraints ∅ usize_max in
        if completed && (size m =? 1)%nat && is_some (m !! var) then Some m
        else
          match first_model constraints var (map (with_hints h) [ZERO; ONE; U 2; MAX; wrapping_sub MAX ONE; wrapping_sub MAX (U 2)]) with
          | Some m => Some m
          | None => first_model constraints var (single_candidates h (sorted_constants constraints))
          end
  | _ => None
  end.

(** ** Checked multiplications *)
(** [(d * e) / d == e] with the guard [d == 0]: the operands and the guard. *)
Definition guarded_product (guarded_quotient expected : SymExpr) : option (SymExpr * SymExpr * SymBoolExpr) :=
  match guarded_quotient with
  | EIte zero_condition z quotient =>
      if const_is z is_zero then
        match SBool.zero_check_operand zero_condition, udiv_operands quotient with
        | Some zero_operand, Some (numerator, denominator) =>
            if expr_eqb denominator zero_operand then
              match numerator with
              | EBinOp Mul pl pr =>
                  if (expr_eqb pl denominator && expr_eqb pr expected) || (expr_eqb pr denominator && expr_eqb pl expected)
                  then Some (zero_operand, expected, zero_condition) else None
              | _ => None
              end
            else None
        | _, _ => None
        end
      else None
  | _ => None
  end.
Definition checked_mul_guard_operands (condition : SymBoolExpr) : option (SymExpr * SymExpr * SymBoolExpr) :=
  match condition with
  | BCmp Eq l r => match guarded_product l r with Some g => Some g | None => guarded_product r l end
  | _ => None
  end.
Definition guard_of_words (quotient_word zero_word : SymExpr) : option (SymExpr * SymExpr) :=
  match bool_word_condition quotient_word, bool_word_condition zero_word with
  | Some quotient_matches, Some zero_condition =>
      match checked_mul_guard_operands quotient_matches with
      | Some (zero_operand, expected, guard) => if bexpr_eqb zero_condition guard then Some (zero_operand, expected) else None
      | None => None
      end
  | _, _ => None
  end.
Definition checked_mul_guard_word_comparison (l r : SymExpr) : option (SymExpr * SymExpr) :=
  match (if const_is r is_zero then Some l else if const_is l is_zero then Some r else None) with
  | Some (EBinOp Or a b) => match guard_of_words a b with Some g => Some g | None => guard_of_words b a end
  | _ => None
  end.
Fixpoint guard_among (all values : list SymBoolExpr) : option (SymExpr * SymExpr) :=
  match values with
  | [] => None
  | BNot quotient_matches :: rest =>
      match checked_mul_guard_operands quotient_matches with
      | Some (zero_operand, expected, guard) =>
          if existsb (fun v => match v with BNot inner => bexpr_eqb inner guard | _ => false end) all
          then Some (zero_operand, expected) else guard_among all rest
      | None => guard_among all rest
      end
  | _ :: rest => guard_among all rest
  end.
Definition checked_mul_guard_conjunction (values : list SymBoolExpr) : option (SymExpr * SymExpr) := guard_among values values.
(** The operands of a guard, and whether the branch has it true. *)
Definition checked_mul_guard_branch (b : SymBoolExpr) : option (SymExpr * SymExpr * bool) :=
  let tag t := option_map (fun '(zero_operand, expected) => (zero_operand, expected, t)) in
  match b with
  | BCmp Eq l r => tag false (checked_mul_guard_word_comparison l r)
  | BNot (BCmp Eq l r) => tag true (checked_mul_guard_word_comparison l r)
  | BNot (BAnd values) => tag true (checked_mul_guard_conjunction values)
  | BAnd values => tag false (checked_mul_guard_conjunction values)
  | _ => None
  end.

(** *** The branches of the constraints *)
Definition branch_parts (b : SymBoolExpr) : list SymBoolExpr :=
  match b with BNot inner => [inner] | BAnd values => rev values | _ => [] end.
Record BranchScan := mkScan {
  bs_seen : list SymBoolExpr;
  bs_pending : list SymBoolExpr;       (* top of the stack first *)
  bs_remaining : Z;
  bs_nested : list SymBoolExpr         (* the last one first *)
}.
(** The constraints themselves, in order. *)
Fixpoint scan_constraints (constraints : list SymBoolExpr) (st : BranchScan) (candidates : list (SymExpr * SymExpr * bool))
  : option (BranchScan * list (SymExpr * SymExpr * bool)) :=
  match constraints with
  | [] => Some (st, candidates)
  | b :: rest =>
      if existsb (bexpr_eqb b) (bs_seen st) then scan_constraints rest st candidates
      else if bs_remaining st =? 0 then None
      else
        scan_constraints rest (mkScan (b :: bs_seen st) (branch_parts b ++ bs_pending st) (bs_remaining st - 1) (bs_nested st))
          (match checked_mul_guard_branch b with Some c => candidates ++ [c] | None => candidates end)
  end.
(** Their parts, from the stack. *)
Definition scan_step (st : BranchScan) : BranchScan + option BranchScan :=
  match bs_pending st with
  | [] => inr (Some st)
  | b :: rest =>
      if existsb (bexpr_eqb b) (bs_seen st) then inl (mkScan (bs_seen st) rest (bs_remaining st) (bs_nested st))
      else if bs_remaining st =? 0 then inr None
      else inl (mkScan (b :: bs_seen st) (branch_parts b ++ rest) (bs_remaining st - 1) (b :: bs_nested st))
  end.
Definition guard_branches (constraints : list SymBoolExpr) : option (list (SymExpr * SymExpr * bool) * Z) :=
  match scan_constraints constraints (mkScan [] [] MAX_CHECKED_MUL_SUPPORT_VISITS []) [] with
  | None => None
  | Some (st, candidates) =>
      match iterate scan_step (S (list_sum (map bsize (bs_pending st)))) st with
      | Some (Some st) => Some (candidates ++ omap checked_mul_guard_branch (bs_nested st), bs_remaining st)
      | _ => None
      end
  end.

(** *** One attempt *)
(** Return a result, or go on with the budget that is left. *)
Inductive Attempt := Return (r : option Model) | Continue (remaining : Z).
Definition next_or_none (remaining : Z) : Attempt := if remaining =? 0 then Return None else Continue remaining.

(** The operands of the guard get their values, unless the model has them. *)
Fixpoint assign_seeds (constraints : list SymBoolExpr) (seeds : list (SymExpr * U256)) (m : Model) (remaining : Z) : Model * Z + Attempt :=
  match seeds with
  | [] => inl (m, remaining)
  | (operand, value) :: rest =>
      let '(assigned, m) :=
        match eval_model_if_complete m operand with
        | inl (Some _) => (true, m)
        | inl None => assign_model_value operand value m
        | inr _ => (false, m)
        end in
      if negb assigned then inr (Continue remaining)
      else
        match propagate_fallback_support_constraints constraints m remaining with
        | (true, m, remaining) => assign_seeds constraints rest m remaining
        | (false, _, remaining) => inr (next_or_none remaining)
        end
  end.
Definition validate (original : list SymBoolExpr) (m : Model) (remaining : Z) : Attempt :=
  match all_true original m remaining with
  | (true, _) => Return (Some m)
  | (false, remaining) => next_or_none remaining
  end.
Definition attempt (constraints original : list SymBoolExpr) (eval_vars : list Symbol) (seeds : list (SymExpr * U256)) (remaining : Z) : Attempt :=
  match propagate_fallback_support_constraints constraints ∅ remaining with
  | (false, _, remaining) => next_or_none remaining
  | (true, m, remaining) =>
      match assign_seeds constraints seeds m remaining with
      | inr a => a
      | inl (m, remaining) =>
          if complete_for m eval_vars then validate original m remaining
          else
            match complete_fallback_support_model constraints m remaining with
            | (false, _, remaining) => next_or_none remaining
            | (true, m, remaining) =>
                match complete_model_with_zeroes original m remaining with
                | (false, _, remaining) => next_or_none remaining
                | (true, m, remaining) => validate original m remaining
                end
            end
      end
  end.
Fixpoint first_attempt (constraints original : list SymBoolExpr) (eval_vars : list Symbol) (attempts : list (list (SymExpr * U256))) (remaining : Z)
  : option Model :=
  match attempts with
  | [] => None
  | seeds :: rest =>
      match attempt constraints original eval_vars seeds remaining with
      | Return r => r
      | Continue remaining => first_attempt constraints original eval_vars rest remaining
      end
  end.

(** Both orders of the operands, for both values of each branch. *)
Definition seeds_of (candidate : SymExpr * SymExpr * bool) : list (list (SymExpr * U256)) :=
  let '(zero_operand, expected, guard_is_true) := candidate in
  concat (map (fun '(zero_default, expected_default) =>
      [[(zero_operand, zero_default); (expected, expected_default)]; [(expected, expected_default); (zero_operand, zero_default)]])
    (if guard_is_true : bool then [(ZERO, ZERO); (ONE, ONE)] else [(MAX, U 2); (U 2, MAX)])).
Definition checked_mul_guard_branch_model (constraints original : list SymBoolExpr) (replayable_storage : list Symbol) : option Model :=
  let eval_vars := fold_left (fun vars b => collect_eval_vars_bool b vars) original [] in
  if existsb (fun v => negb (is_replayable_input v) && negb (existsb (Pos.eqb v) replayable_storage)) eval_vars then None
  else
    match guard_branches constraints with
    | None => None
    | Some (candidates, remaining) => first_attempt constraints original eval_vars (concat (map seeds_of candidates)) remaining
    end.
End Search.
End SFallback.
