(* ===== verification/SymFallbackSound.v ===== *)
(** * SymFallbackSound: what the local searches return

    A model that a search returns makes the constraints it was given true;
    completion only adds assignments; the searches stay within their limits;
    and the bits that masks force are those of every model, so a conflict
    between them rules all models out. *)

From Stdlib Require Import ZArith Lia Bool String.
From stdpp Require Import base list option gmap sets sorting.
From S2P Require Import Prelude SymWord SymExpr SymSimpl SymSound SymCmp SymContext SymVisit SymFacts SymFallback.
Local Open Scope Z_scope.
Import SFacts SFallback.

(** ** The words of a node *)
Lemma visit_exprs_total n : is_Some (iterate walk_step (S (node_size n)) (mkVisit [n] [] [])).
Proof.
  apply (iterate_total walk_step (fun _ => True) (fun st => nodes_size (pending st))); [|done|unfold nodes_size; simpl; lia].
  intros st s' _. unfold walk_step. destruct (visit_step (fun _ => false) st) as [st'|b] eqn:E; [|done]. intros [= <-]. split; [done|].
  destruct st as [[|[e|b] rest] vb vw]; unfold visit_step in E; cbn [pending visited_bools visited_words] in *; [done|..].
  - pose proof (parts_size (NWord e)). revert E. repeat case_match; intros; simplify_eq; cbn [pending];
      rewrite ?nodes_size_app; change (nodes_size (NWord e :: rest)) with (node_size (NWord e) + nodes_size rest)%nat; simpl in *; lia.
  - pose proof (parts_size (NBool b)). revert E. repeat case_match; intros; simplify_eq; cbn [pending];
      rewrite ?nodes_size_app; change (nodes_size (NBool b :: rest)) with (node_size (NBool b) + nodes_size rest)%nat; lia.
Qed.

(** A walk that looks for a word runs along the list of all words. *)
Lemma visit_along visitor fuel st words :
  iterate walk_step fuel st = Some words -> Forall (fun e => visitor e = false) (visited_words st) ->
  iterate (visit_step visitor) fuel st = Some (existsb visitor words).
Proof.
  revert st. induction fuel as [|fuel IH]; intros [[|[e|b] rest] vb vw]; cbn [iterate]; unfold walk_step, visit_step; cbn [pending visited_bools visited_words]; try done.
  - intros [= <-] Hq. f_equal. symmetry. apply not_true_iff_false. intros (x & Hx & Ht)%existsb_exists.
    rewrite List.Forall_forall in Hq. rewrite Hq in Ht; [done|]. by apply in_rev.
  - destruct (existsb (expr_eqb e) vw) eqn:Ev; [intros H Hq; by apply IH|]. intros H Hq. destruct (visitor e) eqn:Ee.
    + f_equal. symmetry. apply existsb_exists. exists e. split; [|done]. apply list_elem_of_In.
      enough (Hin : forall fuel st words, iterate walk_step fuel st = Some words -> forall x, x ∈ visited_words st -> x ∈ words).
      { eapply Hin; [exact H|]. constructor. }
      clear. intros fuel. induction fuel as [|fuel IH]; intros st words; [done|]. cbn [iterate]. unfold walk_step.
      destruct (visit_step _ st) as [st'|r] eqn:E; [|intros [= <-] x Hx; by rewrite list_elem_of_In, <- in_rev, <- list_elem_of_In].
      intros H x Hx. apply (IH _ _ H). revert E. unfold visit_step. destruct (pending st) as [|[]]; [done|..]; repeat case_match; intros; simplify_eq; simpl; set_solver.
    + apply IH; [exact H|]. by constructor.
  - destruct (existsb (bexpr_eqb b) vb); intros H Hq; by apply IH.
Qed.
Lemma visit_unique_words visitor n : visit_unique visitor n = existsb visitor (visit_exprs n).
Proof.
  unfold visit_unique, visit_exprs. destruct (visit_exprs_total n) as [words Hw]. rewrite Hw.
  by rewrite (visit_along visitor _ _ _ Hw) by done.
Qed.
Lemma visit_exprs_occurs n e : e ∈ visit_exprs n <-> occurs (expr_eqb e) n.
Proof.
  rewrite <- visit_unique_spec, visit_unique_words, existsb_exists, list_elem_of_In. split; [|by intros (x & Hx & ->%expr_eqb_eq)].
  intros H. exists e. split; [done|]. by apply expr_eqb_eq.
Qed.

Section Fallback.
Context `{SA : SignedArith, HF : HashFns, SI : SymbolInfo}.

(** ** Returned models are models *)
(** All constraints are true under the assignments. *)
Definition satisfies (m : Model) (cs : list SymBoolExpr) : Prop := eval_model_constraints (lookup_model m) cs = true.
Lemma satisfies_spec m cs : satisfies m cs <-> Forall (fun b => eval_true m b = true) cs.
Proof.
  unfold satisfies. rewrite eval_constraints_spec, !List.Forall_forall. unfold eval_true.
  split; intros H b Hb; specialize (H b Hb); revert H; rewrite eval_bool_spec; [by intros ->|]. by destruct (denote_bool _ b) as [[]|].
Qed.

Lemma all_true_satisfies cs m r r' : all_true cs m r = (true, r') -> satisfies m cs.
Proof.
  rewrite satisfies_spec. revert r. induction cs as [|b cs IH]; intros r; [by constructor|]. simpl.
  destruct (charge_support_constraint b r) as [[] r1]; simpl; [|done]. destruct (eval_true m b) eqn:E; [|done]. intros H. constructor; [done|by eapply IH].
Qed.
Lemma support_satisfies cs m r m' r' : complete_fallback_support_model cs m r = (true, m', r') -> satisfies m' cs.
Proof.
  unfold complete_fallback_support_model. generalize (length cs). intros n. revert m r.
  assert (Hfin : forall m r, (let '(ok, r) := all_true cs m r in (ok, m, r)) = (true, m', r') -> satisfies m' cs).
  { intros m r. destruct (all_true cs m r) as [ok r1] eqn:E. intros [= -> -> ->]. by eapply all_true_satisfies. }
  induction n as [|n IH]; intros m r; simpl; [apply Hfin|].
  destruct (complete_support_constraints_once cs m r) as [[[[]|] m1] r1]; [apply IH| |done].
  destruct (support_pass true cs false m1 r1) as [[[[]|] m2] r2]; [apply IH|apply Hfin|done].
Qed.
Lemma assignment_satisfies s m m' : complete_assignment s m = Some m' -> satisfies m' (fs_constraints s).
Proof.
  unfold complete_assignment. destruct (complete_fallback_support_model _ m usize_max) as [[[] m1] r1] eqn:E1; [intros [= <-]; by eapply support_satisfies|].
  destruct (seed_bounded_support_vars _ m) as [[] m2]; [|done].
  destruct (complete_fallback_support_model _ m2 r1) as [[[] m3] r3] eqn:E2; [|done]. intros [= <-]. by eapply support_satisfies.
Qed.

(** The loop over the candidates of one variable. *)
Lemma search_satisfies s vars m a found m' a' : search_model s vars m a = (Some found, m', a') -> satisfies found (fs_constraints s).
Proof.
  revert m a. induction vars as [|[var candidates] rest IH]; intros m a; simpl; [intros [= H _ _]; by eapply assignment_satisfies|].
  revert m a. induction candidates as [|c candidates IHc]; intros m a; [done|]. destruct (fs_max_assignments s <=? a); [done|].
  destruct (fallback_partial_model_satisfies_known_constraints s _); [|apply IHc].
  destruct (search_model s rest _ _) as [[[found'|] m1] a1] eqn:E; [|apply IHc]. intros [= -> -> ->]. by eapply IH.
Qed.
Lemma search_over_satisfies cs vars max m : search_over cs vars max = Some m -> satisfies m cs.
Proof.
  unfold search_over. destruct (mapM _ vars) as [candidates|]; [|done]. set (s := mkSearch _ _ _ _).
  destruct (search_model s (zip vars candidates) ∅ 0) as [[[found|] m1] a1] eqn:E; [|done]. simpl. intros [= <-].
  by apply search_satisfies in E.
Qed.
Lemma hard_arith_satisfies cs m : hard_arith_fallback_model cs = Some m -> satisfies m cs.
Proof. unfold hard_arith_fallback_model. repeat case_match; try done. apply search_over_satisfies. Qed.
Lemma bounded_satisfies cs m : fallback_bounded_model cs = Some m -> satisfies m cs.
Proof. unfold fallback_bounded_model. repeat case_match; try done. apply search_over_satisfies. Qed.
Lemma first_satisfies cs var values m : first_model cs var values = Some m -> satisfies m cs.
Proof.
  unfold first_model. destruct (List.find _ values) as [v|] eqn:E; [|done]. intros [= <-]. by apply find_some in E as [_ ?].
Qed.
Lemma single_satisfies cs m : fallback_single_var_model cs = Some m -> satisfies m cs.
Proof.
  unfold fallback_single_var_model. destruct (fold_left _ cs []) as [|var [|]]; try done. destruct (hints_conflict _); [done|].
  destruct (complete_fallback_support_model cs ∅ usize_max) as [[c m1] r1] eqn:E. destruct (c && _ && _) eqn:Ec.
  { intros [= <-]. destruct c; [|done]. by eapply support_satisfies. }
  destruct (first_model cs var (map _ _)) as [m2|] eqn:E1; [intros [= <-]; by eapply first_satisfies|apply first_satisfies].
Qed.
Lemma guard_satisfies cs original storage m : checked_mul_guard_branch_model cs original storage = Some m -> satisfies m original.
Proof.
  unfold checked_mul_guard_branch_model. case_match; [done|]. destruct (guard_branches cs) as [[candidates r]|]; [|done].
  generalize (concat (map seeds_of candidates)). intros attempts. revert r. induction attempts as [|seeds attempts IH]; intros r; [done|]. simpl.
  set (vars := fold_left _ original []).
  assert (Hg : forall r m, next_or_none r <> Return (Some m)) by (intros r0 m0; unfold next_or_none; by case_match).
  assert (Hv : forall m r m', validate original m r = Return (Some m') -> satisfies m' original).
  { intros m0 r0 m0'. unfold validate. destruct (all_true original m0 r0) as [[] r1] eqn:E; [intros [= <-]; by eapply all_true_satisfies|by intros ?%Hg]. }
  assert (Hs : forall seeds m r m', assign_seeds cs seeds m r <> inr (Return (Some m'))).
  { clear - Hg. intros seeds. induction seeds as [|[o v] seeds IH]; intros m r m'; simpl; [done|].
    destruct (match eval_model_if_complete m o with inl (Some _) => _ | inl None => _ | inr _ => _ end) as [[] m1]; simpl; [|done].
    destruct (propagate_fallback_support_constraints cs m1 r) as [[[] m2] r2]; [apply IH|]. by intros [= ?%Hg]. }
  destruct (attempt cs original vars seeds r) as [o|r'] eqn:E; [|apply IH]. intros ->. revert E. unfold attempt.
  destruct (propagate_fallback_support_constraints cs ∅ r) as [[[] m1] r1]; [|by intros ?%Hg].
  destruct (assign_seeds cs seeds m1 r1) as [[m2 r2]|a] eqn:Ea; [|intros ->; by apply Hs in Ea].
  destruct (complete_for m2 vars); [apply Hv|].
  destruct (complete_fallback_support_model cs m2 r2) as [[[] m3] r3]; [|by intros ?%Hg].
  destruct (complete_model_with_zeroes original m3 r3) as [[[] m4] r4]; [apply Hv|by intros ?%Hg].
Qed.

(** ** Completion only adds, and pays from the budget *)
(** What a pass leaves of its model and its budget. *)
Definition extends {A} (m : Model) (r : Z) (p : Pass A) : Prop := m ⊆ snd (fst p) /\ (0 <= r -> 0 <= snd p <= r).
Lemma extends_here {A} (x : A) m r : extends m r (x, m, r).
Proof. by split; [|simpl; lia]. Qed.
Lemma extends_trans {A} m r m1 r1 (p : Pass A) : m ⊆ m1 -> (0 <= r -> 0 <= r1 <= r) -> extends m1 r1 p -> extends m r p.
Proof. intros Hm Hr [H1 H2]. split; [by etransitivity|]. intros H. specialize (Hr H). specialize (H2 ltac:(lia)). lia. Qed.

Lemma assign_symbol_adds s v m : m ⊆ snd (assign_symbol s v m).
Proof. unfold assign_symbol. destruct (m !! s) eqn:E; [done|]. by apply insert_subseteq. Qed.
Lemma assign_value_adds e v m : m ⊆ snd (assign_model_value e v m).
Proof. destruct e; simpl; done || apply assign_symbol_adds. Qed.
Lemma comparison_adds op l r m : m ⊆ snd (complete_support_comparison op l r m).
Proof.
  assert (Hsub : m ⊆ snd (complete_checked_sub_guard op l r m)).
  { assert (H : forall x y, m ⊆ snd (assign_checked_sub_minuend x y m)); [|by destruct op; simpl].
    intros x y. unfold assign_checked_sub_minuend. destruct y as [| | | | | |[]| |]; try done. repeat case_match; try done. apply assign_value_adds. }
  unfold complete_support_comparison. destruct (complete_checked_sub_guard op l r m) as [[] m1]; [done|]. simpl in Hsub.
  assert (H : forall e v, m ⊆ snd (assign_model_value e v m1)) by (intros e v; etransitivity; [exact Hsub|apply assign_value_adds]).
  destruct (match known m1 l with Some _ => _ | None => _ end); [apply H|]. by destruct (match known m1 r with Some _ => _ | None => _ end).
Qed.
Lemma default_comparison_adds op l r m : m ⊆ snd (complete_default_support_comparison op l r m).
Proof.
  assert (H : forall x y, m ⊆ snd (assign_checked_add_base x y m)); [|by destruct op; simpl].
  intros x y. unfold assign_checked_add_base. destruct x as [| | | | | |[]| |]; try done. repeat case_match; try done; apply assign_value_adds.
Qed.
Lemma support_bool_adds b inverted defaults m : m ⊆ snd (complete_support_bool b inverted defaults m).
Proof.
  revert b inverted m. refine (bexpr_ind' (fun _ => True) (fun b => forall inverted m, m ⊆ snd (complete_support_bool b inverted defaults m))
    _ _ _ _ _ _ _ _ _ _ _ _ _); try done.
  - intros b IH inverted m. apply IH.
  - intros bs IH inverted m. simpl. destruct inverted; [done|]. generalize false at 2. revert m. induction IH as [|b bs Hb _ IH]; intros m changed; [done|].
    specialize (Hb false m). destruct (complete_support_bool b false defaults m) as [c m1]. simpl in Hb. etransitivity; [exact Hb|apply IH].
  - intros op l r _ _ inverted m. simpl. destruct (support_cmp_op op inverted); [|done]. destruct defaults; [apply default_comparison_adds|apply comparison_adds].
Qed.

Lemma charge_bounds b r : 0 <= r -> 0 <= snd (charge_support_constraint b r) <= r.
Proof.
  intros Hr. unfold charge_support_constraint. destruct (Z.eqb_spec r 0); [simpl; lia|]. assert (Hn : 0 <= r - 1) by lia.
  enough (H : forall words r, 0 <= r -> 0 <= snd (charge_words words r) <= r) by (specialize (H (visit_exprs (NBool b)) (r - 1) Hn); lia).
  clear. intros words. induction words as [|w words IH]; intros r Hr; simpl; [lia|]. destruct (Z.eqb_spec r 0); [simpl; lia|].
  specialize (IH (r - 1) ltac:(lia)). lia.
Qed.
Lemma pass_extends defaults cs changed m r : extends m r (support_pass defaults cs changed m r).
Proof.
  revert changed m r. induction cs as [|b cs IH]; intros changed m r; [apply extends_here|]. simpl. pose proof (charge_bounds b r) as Hc.
  destruct (charge_support_constraint b r) as [[] r1]; simpl in *; [|by split]. destruct (eval_model_if_complete_bool m b) as [[[]|]|].
  - by eapply extends_trans.
  - by split.
  - pose proof (support_bool_adds b false defaults m) as Ha. destruct (complete_support_bool b false defaults m) as [c m1]. by eapply extends_trans.
  - by split.
Qed.
Lemma all_true_bounds cs m r : 0 <= r -> 0 <= snd (all_true cs m r) <= r.
Proof.
  revert r. induction cs as [|b cs IH]; intros r Hr; simpl; [lia|]. pose proof (charge_bounds b r Hr) as Hc.
  destruct (charge_support_constraint b r) as [p r1]. simpl in Hc. destruct (p && eval_true m b); [|done]. specialize (IH r1 ltac:(lia)). lia.
Qed.
Lemma support_extends cs m r : extends m r (complete_fallback_support_model cs m r).
Proof.
  unfold complete_fallback_support_model. generalize (length cs). intros n. revert m r.
  assert (Hfin : forall m r, extends m r (let '(ok, r) := all_true cs m r in (ok, m, r))).
  { intros m r. pose proof (all_true_bounds cs m r) as H. by destruct (all_true cs m r). }
  induction n as [|n IH]; intros m r; simpl; [apply Hfin|].
  pose proof (pass_extends false cs false m r) as [H1 H2]. unfold complete_support_constraints_once.
  destruct (support_pass false cs false m r) as [[[[]|] m1] r1]; simpl in *; [by eapply extends_trans| |by split].
  pose proof (pass_extends true cs false m1 r1) as [H3 H4].
  destruct (support_pass true cs false m1 r1) as [[[[]|] m2] r2]; simpl in *.
  - eapply extends_trans; [exact H1|exact H2|]. by eapply extends_trans.
  - eapply extends_trans; [exact H1|exact H2|]. by eapply extends_trans.
  - by apply (extends_trans m r m1 r1).
Qed.
Lemma propagate_extends cs m r : extends m r (propagate_fallback_support_constraints cs m r).
Proof.
  unfold propagate_fallback_support_constraints. generalize (length cs). intros n. revert m r. induction n as [|n IH]; intros m r; simpl; [apply extends_here|].
  pose proof (pass_extends false cs false m r) as [H1 H2]. unfold complete_support_constraints_once.
  destruct (support_pass false cs false m r) as [[[[]|] m1] r1]; simpl in *; [by eapply extends_trans|by split|by split].
Qed.

(** ** The number of assignments *)
Lemma search_limit s vars m a : a <= fs_max_assignments s -> a <= snd (search_model s vars m a) <= fs_max_assignments s.
Proof.
  revert m a. induction vars as [|[var candidates] rest IH]; intros m a Ha; simpl; [lia|].
  revert m a Ha. induction candidates as [|c candidates IHc]; intros m a Ha; [simpl; lia|]. destruct (Z.leb_spec (fs_max_assignments s) a); [simpl; lia|].
  assert (H1 : a + 1 <= fs_max_assignments s) by lia. destruct (fallback_partial_model_satisfies_known_constraints s _).
  - pose proof (IH (<[var := c]> m) (a + 1) H1) as H2. destruct (search_model s rest _ _) as [[[found|] m1] a1]; simpl in H2; [simpl; lia|].
    specialize (IHc m1 a1 ltac:(lia)). lia.
  - specialize (IHc (<[var := c]> m) (a + 1) H1). lia.
Qed.

(** ** Bits forced by masks *)
Definition respects (h : MaskHints) (v : U256) : Prop := forall i, 0 <= i < 256 ->
  (Z.testbit (uval (hint_one h)) i = true -> Z.testbit (uval v) i = true) /\
  (Z.testbit (uval (hint_zero h)) i = true -> Z.testbit (uval v) i = false).
Lemma with_hints_bit h v i : 0 <= i < 256 -> Z.testbit (uval (with_hints h v)) i =
  (Z.testbit (uval v) i || Z.testbit (uval (hint_one h)) i) && negb (Z.testbit (uval (hint_zero h)) i).
Proof. intros Hi. unfold with_hints. by rewrite testbit_u_and, testbit_u_or, testbit_u_not by done. Qed.
Lemma respects_fixed h v : respects h v -> with_hints h v = v.
Proof.
  intros Hr. apply u_bits_eq. intros i Hi. rewrite with_hints_bit by done. destruct (Hr i Hi) as [H1 H2].
  destruct (Z.testbit (uval (hint_one h)) i), (Z.testbit (uval (hint_zero h)) i), (Z.testbit (uval v) i); naive_solver.
Qed.
Lemma conflict_bit h i : 0 <= i < 256 -> Z.testbit (uval (hint_one h)) i = true -> Z.testbit (uval (hint_zero h)) i = true -> hints_conflict h = true.
Proof.
  intros Hi H1 H2. unfold hints_conflict, is_zero. destruct (Z.eqb_spec (uval (u_and (hint_one h) (hint_zero h))) 0) as [E|]; [|done].
  pose proof (testbit_u_and (hint_one h) (hint_zero h) i Hi) as Hb. by rewrite E, H1, H2, Z.bits_0 in Hb.
Qed.
Lemma with_hints_respects h c : hints_conflict h = false -> respects h (with_hints h c).
Proof.
  intros Hc i Hi. rewrite with_hints_bit by done. split; intros H; rewrite H; [|by rewrite andb_false_r]. rewrite orb_true_r. simpl.
  destruct (Z.testbit (uval (hint_zero h)) i) eqn:Hz; [|done]. by rewrite (conflict_bit h i Hi H Hz) in Hc.
Qed.

Section Hints.
Variable model : SymbolicModel.
Variable var : Symbol.
Abbreviation den := (denote_word model).
Abbreviation denb := (denote_bool model).
(** Nodes that are named by the variable have its value. *)
Hypothesis named : forall e v, get_var e = Some var -> den e = Some v -> v = model_value model var.

Lemma zero_mask_bits masked z mask v : zero_mask_equality var masked z = Some mask -> denb (BCmp Eq masked z) = Some v ->
  v = is_zero (u_and (model_value model var) mask).
Proof.
  unfold zero_mask_equality. destruct (const_is z is_zero) eqn:Ez; [|done]. destruct masked as [| | | | | |[] l r| |]; try done.
  destruct (get_var l) as [name|] eqn:En; [|done]. destruct (Pos.eqb_spec name var) as [->|]; [|done].
  destruct r as [k| | | | | | | |]; try done. intros [= ->]. destruct z as [z| | | | | | | |]; try done. cbn [const_is as_const] in Ez.
  simpl. destruct (den l) as [x|] eqn:Ex; [|done]. rewrite (named l x En Ex). unfold const_is in Ez. simpl in Ez. intros [= <-].
  unfold is_zero in *. apply Z.eqb_eq in Ez. unfold u_eqb. by rewrite Ez.
Qed.

Lemma apply_equality_respects l r inverted h : respects h (model_value model var) ->
  denb (BCmp Eq l r) = Some (negb inverted) -> respects (apply_equality var l r inverted h) (model_value model var).
Proof.
  intros Hr Hd. unfold apply_equality. set (x := model_value model var) in *.
  assert (Hm : forall mask, match zero_mask_equality var l r with Some mask => Some mask | None => zero_mask_equality var r l end = Some mask ->
    negb inverted = is_zero (u_and x mask)).
  { intros mask. destruct (zero_mask_equality var l r) eqn:E; [intros [= ->]; by eapply zero_mask_bits|].
    intros H. eapply zero_mask_bits; [exact H|]. revert Hd. simpl. destruct (den l), (den r); try done. intros [= <-]. f_equal. unfold u_eqb. apply Z.eqb_sym. }
  destruct (match zero_mask_equality var l r with Some _ => _ | None => _ end) as [mask|]; [|done]. specialize (Hm mask eq_refl).
  assert (Hbit : forall i, 0 <= i < 256 -> Z.testbit (uval (u_and x mask)) i = Z.testbit (uval x) i && Z.testbit (uval mask) i) by (intros; by apply testbit_u_and).
  destruct inverted; simpl in Hm.
  - destruct (is_power_of_two mask) eqn:Ep; [|done]. intros i Hi. cbn [hint_one hint_zero]. rewrite testbit_u_or by done. split; [|by apply Hr].
    intros [H|H]%orb_prop; [by apply Hr|]. destruct (Z.testbit (uval x) i) eqn:Ex; [done|]. exfalso. unfold is_zero in Hm. symmetry in Hm. apply Z.eqb_neq in Hm. apply Hm.
    unfold is_power_of_two in Ep. apply andb_prop in Ep as [_ Ep%Z.eqb_eq]. rewrite Ep, Z.pow2_bits_eqb in H by apply Z.log2_nonneg. apply Z.eqb_eq in H.
    rewrite <- uval_ZERO. f_equal. apply u_bits_eq. intros j Hj. rewrite Hbit, uval_ZERO, Z.bits_0 by done.
    rewrite Ep, Z.pow2_bits_eqb by apply Z.log2_nonneg. destruct (Z.eqb_spec (Z.log2 (uval mask)) j) as [<-|]; [by rewrite H, Ex|by rewrite andb_false_r].
  - intros i Hi. cbn [hint_one hint_zero]. rewrite testbit_u_or by done. split; [by apply Hr|]. intros [H|H]%orb_prop; [by apply Hr|].
    unfold is_zero in Hm. symmetry in Hm. apply Z.eqb_eq in Hm. specialize (Hbit i Hi). rewrite Hm, Z.bits_0, H, andb_true_r in Hbit. done.
Qed.

Lemma apply_bool_respects b : forall inverted h, respects h (model_value model var) -> denb b = Some (negb inverted) ->
  respects (apply_bool var b inverted h) (model_value model var).
Proof.
  revert b. refine (bexpr_ind' (fun _ => True) _ _ _ _ _ _ _ _ _ _ _ _ _ _); try done.
  - intros b IH inverted h Hr Hd. simpl in Hd. destruct (denb b) as [v|] eqn:E; [|done]. injection Hd as Hd. apply IH; [done|]. f_equal. by destruct v, inverted.
  - intros bs IH inverted h Hr Hd. simpl. destruct inverted; [done|]. rewrite denote_BAnd in Hd. revert h Hr Hd. induction IH as [|b bs Hb _ IH]; intros h Hr Hd; [done|].
    simpl in Hd. destruct (denb b) as [[]|] eqn:E; try done. apply IH; [by apply Hb|done].
  - intros op l r _ _ inverted h Hr Hd. destruct op; try done. by apply apply_equality_respects.
Qed.
(** The forced bits are those of every model of the constraints. *)
Lemma hints_respected cs : Forall (fun b => denb b = Some true) cs -> respects (for_var var cs) (model_value model var).
Proof.
  intros Hcs. unfold for_var. assert (H0 : respects (mkHints ZERO ZERO) (model_value model var)).
  { intros i Hi. cbn [hint_one hint_zero]. by rewrite uval_ZERO, Z.bits_0. }
  revert H0. generalize (mkHints ZERO ZERO). induction Hcs as [|b cs Hb _ IH]; intros h Hr; [done|]. simpl. apply IH. by apply apply_bool_respects.
Qed.
Lemma conflict_unsat cs : hints_conflict (for_var var cs) = true -> ~ Forall (fun b => denb b = Some true) cs.
Proof.
  intros Hc Hcs%hints_respected. unfold hints_conflict, is_zero in Hc. apply negb_true_iff, Z.eqb_neq in Hc. apply Hc. rewrite <- uval_ZERO. f_equal.
  apply u_bits_eq. intros i Hi. rewrite testbit_u_and, uval_ZERO, Z.bits_0 by done. destruct (Hcs i Hi) as [H1 H2].
  destruct (Z.testbit (uval (hint_one _)) i), (Z.testbit (uval (hint_zero _)) i); try done. by rewrite H1 in H2; [specialize (H2 eq_refl)|].
Qed.
End Hints.

(** ** Candidates *)
Definition within (h : MaskHints) (s : gset Z) : Prop := forall z, z ∈ s -> exists v, respects h v /\ z = uval v.
Lemma push_within h v s : hints_conflict h = false -> within h s -> within h (push_fallback_candidate h v s).
Proof.
  intros Hc Hs z. unfold push_fallback_candidate, insert_value. rewrite elem_of_union, elem_of_singleton.
  intros [->|Hz]; [|by apply Hs]. exists (with_hints h v). split; [by apply with_hints_respects|done].
Qed.
Lemma pushes_within h vs s : hints_conflict h = false -> within h s -> within h (fold_left (fun s v => push_fallback_candidate h v s) vs s).
Proof. intros Hc. revert s. induction vs as [|v vs IH]; intros s Hs; [done|]. simpl. by apply IH, push_within. Qed.
Lemma rounds_within h rounds s : hints_conflict h = false -> within h s -> within h (push_rounds h rounds s).
Proof.
  intros Hc. revert s. induction rounds as [|r rounds IH]; intros s Hs; [done|]. simpl. pose proof (pushes_within h r s Hc Hs). case_match; [done|by apply IH].
Qed.
(** At most the limit of them, each with the forced bits, in increasing order. *)
Lemma candidates_spec cs constants var l : fallback_candidates_for_var cs constants var = Some l ->
  (length l <= FALLBACK_MODEL_MAX_CANDIDATES_PER_VAR)%nat /\ Forall (respects (for_var var cs)) l /\ Sorted Z.le (map uval l).
Proof.
  unfold fallback_candidates_for_var. set (h := for_var var cs). destruct (hints_conflict h) eqn:Hc; [done|].
  set (s := push_rounds h _ (push_rounds h _ _)). assert (Hs : within h s) by by repeat apply rounds_within; try done; apply pushes_within.
  clearbody s. intros [= <-]. split; [rewrite length_take; lia|]. unfold sorted_values. set (zs := merge_sort Z.le (elements s)).
  assert (Hz : Forall (fun z => exists v, respects h v /\ z = uval v) zs).
  { apply list.Forall_forall. intros z Hz. apply Hs. apply elem_of_elements. unfold zs in Hz. by rewrite merge_sort_Permutation in Hz. }
  assert (Hsort : Sorted Z.le zs) by (apply Sorted_merge_sort; intros x y; lia). clearbody zs.
  assert (Hback : map uval (map U zs) = zs).
  { clear Hsort. induction Hz as [|z zs (v & _ & ->) _ IH]; [done|]. simpl. rewrite IH. f_equal. apply uval_U_small, uval_range. }
  split.
  - apply Forall_take, List.Forall_map. eapply List.Forall_impl; [|exact Hz]. intros z (v & Hv & ->). replace (U (uval v)) with v; [done|].
    apply uval_inj. symmetry. apply uval_U_small, uval_range.
  - rewrite <- firstn_map, Hback. clear - Hsort. rewrite <- (take_drop FALLBACK_MODEL_MAX_CANDIDATES_PER_VAR zs) in Hsort at 1.
    apply StronglySorted_Sorted. apply Sorted_StronglySorted in Hsort; [|intros x y z; lia]. by apply StronglySorted_app_1_l in Hsort.
Qed.

(** ** Targets of completion *)
(** The value that is assigned makes the comparison true. *)
Lemma target_left op v t : support_target_for_known_left op v = Some t -> cmpop_eval op v t = true.
Proof.
  assert (Hone := uval_ONE). destruct op; simpl; unfold u_checked_add, u_checked_sub; rewrite ?Hone; try (case_match; [|done]); try done; intros [= <-]; unfold u_eqb, u_ltb, u_leb;
    rewrite ?uval_U_small by (pose proof (uval_range v); lia); lia.
Qed.
Lemma target_right op v t : support_target_for_known_right op v = Some t -> cmpop_eval op t v = true.
Proof.
  assert (Hone := uval_ONE). destruct op; simpl; unfold u_checked_add, u_checked_sub; rewrite ?Hone; try (case_match; [|done]); try done; intros [= <-]; unfold u_eqb, u_ltb, u_leb;
    rewrite ?uval_U_small by (pose proof (uval_range v); lia); lia.
Qed.

(** ** The scan for guards ends *)
Definition pending_size (st : BranchScan) : nat := list_sum (map bsize (bs_pending st)).
Lemma branch_parts_size b : (list_sum (map bsize (branch_parts b)) < bsize b)%nat.
Proof.
  destruct b as [|b|bs|]; simpl; try lia. rewrite map_rev. assert (Hp : rev (map bsize bs) ≡ₚ map bsize bs) by (symmetry; apply Permutation_rev).
  rewrite Hp. clear Hp. induction bs as [|b bs IH]; simpl; lia.
Qed.
Lemma scan_total st : is_Some (iterate scan_step (S (pending_size st)) st).
Proof.
  apply (iterate_total scan_step (fun _ => True) pending_size); [|done|lia]. intros [seen pend r nested] s' _. unfold scan_step, pending_size. simpl.
  destruct pend as [|b rest]; [done|]. pose proof (branch_parts_size b) as Hb. destruct (existsb (bexpr_eqb b) seen); [intros [= <-]; split; [done|]; simpl; destruct b; simpl; lia|].
  destruct (r =? 0); [done|]. intros [= <-]. split; [done|]. simpl. rewrite map_app, list_sum_app. lia.
Qed.
End Fallback.
