(* ===== verification/SymSolver.v ===== *)
(** * SymSolver: queries, caches and validated models

    Models [SmtLibSubprocessSolver] (runtime/solver/mod.rs): the normalised
    cache keys, the satisfiability and model caches, the direct contradictions,
    the local witnesses and the fall back to the solver processes.  The
    processes are a parameter whose [unsat] answers are trusted for the script
    they are given; local witnesses come from [SymFallback] and are validated.

    An [Unsat] result is right for every model that tells the hashes of the
    constraints apart and evaluates no division by zero in the query, and a
    returned model satisfies the constraints it was asked for. *)

From Stdlib Require Import ZArith Lia Bool String.
From stdpp Require Import base list option gmap sets.
From S2P Require Import Prelude SymWord SymExpr SymSimpl SymSound SymCmp SymPath SymExec SymContext SymVisit SymMonotone SymPoly SymHashes SymFacts SymNorm SymNormSound SymSmt SymFallback.
Local Open Scope Z_scope.

(** ** What is asked of the processes *)
Inductive ProcessAnswer :=
  | PSat (parsed : SymbolicModel + SymbolicError)   (* the model that follows, when asked for *)
  | PUnsat
  | PUnknown
  | POther                                          (* an unexpected first line *)
  | PError (e : SymbolicError).

(** The configured commands and their runs: the answer to the [n]th script. *)
Class SolverProcess := {
  process : nat -> SmtScript -> bool -> ProcessAnswer
}.
Class SolverProcessLaws `{SignedArith, SolverProcess} : Prop := {
  process_unsat n script model sigma : process n script model = PUnsat -> script_val sigma script <> Some true
}.

Definition SYMBOLIC_SOLVER_MODEL_CACHE_MAX_ENTRIES : Z := 512.
Abbreviation CacheKey := (list SymBoolExpr).

Record Solver := mkSolver {
  max_queries : Z;
  queries : Z;
  heuristic_witnesses : Z;
  replayable_storage : list Symbol;
  normalization_cache : SOrdered.NormalizationCache;
  sat_cache : list (CacheKey * bool);
  model_cache : list (CacheKey * SymbolicModel);
  sat_queries : Z;
  model_queries : Z;
  sat_cache_hits : Z;
  model_cache_hits : Z;
  smt_queries : Z
}.

(** The error [Solver("counterexample path became unsat")], and the others. *)
Inductive QueryError := BecameUnsat | QueryFailed (e : SymbolicError).

Module SSolver.
Import SFacts SNorm SOrdered SSmt SOrder SFallback.

(** *** Fields *)
Definition set_queries q s := mkSolver (max_queries s) q (heuristic_witnesses s) (replayable_storage s) (normalization_cache s) (sat_cache s) (model_cache s) (sat_queries s) (model_queries s) (sat_cache_hits s) (model_cache_hits s) (smt_queries s).
Definition set_witnesses w s := mkSolver (max_queries s) (queries s) w (replayable_storage s) (normalization_cache s) (sat_cache s) (model_cache s) (sat_queries s) (model_queries s) (sat_cache_hits s) (model_cache_hits s) (smt_queries s).
Definition set_storage v s := mkSolver (max_queries s) (queries s) (heuristic_witnesses s) v (normalization_cache s) (sat_cache s) (model_cache s) (sat_queries s) (model_queries s) (sat_cache_hits s) (model_cache_hits s) (smt_queries s).
Definition set_normalization c s := mkSolver (max_queries s) (queries s) (heuristic_witnesses s) (replayable_storage s) c (sat_cache s) (model_cache s) (sat_queries s) (model_queries s) (sat_cache_hits s) (model_cache_hits s) (smt_queries s).
Definition set_sat_cache c s := mkSolver (max_queries s) (queries s) (heuristic_witnesses s) (replayable_storage s) (normalization_cache s) c (model_cache s) (sat_queries s) (model_queries s) (sat_cache_hits s) (model_cache_hits s) (smt_queries s).
Definition set_model_cache c s := mkSolver (max_queries s) (queries s) (heuristic_witnesses s) (replayable_storage s) (normalization_cache s) (sat_cache s) c (sat_queries s) (model_queries s) (sat_cache_hits s) (model_cache_hits s) (smt_queries s).
Definition set_counters sq mq sh mh q s := mkSolver (max_queries s) (queries s) (heuristic_witnesses s) (replayable_storage s) (normalization_cache s) (sat_cache s) (model_cache s) sq mq sh mh q.
Definition count_sat_query s := set_counters (sat_queries s + 1) (model_queries s) (sat_cache_hits s) (model_cache_hits s) (smt_queries s) s.
Definition count_model_query s := set_counters (sat_queries s) (model_queries s + 1) (sat_cache_hits s) (model_cache_hits s) (smt_queries s) s.
Definition count_sat_hit s := set_counters (sat_queries s) (model_queries s) (sat_cache_hits s + 1) (model_cache_hits s) (smt_queries s) s.
Definition count_model_hit s := set_counters (sat_queries s) (model_queries s) (sat_cache_hits s) (model_cache_hits s + 1) (smt_queries s) s.
Definition count_smt_query s := set_counters (sat_queries s) (model_queries s) (sat_cache_hits s) (model_cache_hits s) (smt_queries s + 1) s.
Definition count_witness s := set_witnesses (heuristic_witnesses s + 1) s.

(** *** Caches *)
Definition key_eqb (x y : CacheKey) : bool := bool_decide (x = y).
Definition cache_get {V} (k : CacheKey) (cache : list (CacheKey * V)) : option V := assoc key_eqb k cache.
Definition cache_remove {V} (k : CacheKey) (cache : list (CacheKey * V)) : list (CacheKey * V) :=
  List.filter (fun '(k', _) => negb (key_eqb k k')) cache.
(** [cache_result]: an existing entry is replaced, a new one needs room. *)
Definition cache_result {V} (k : CacheKey) (v : V) (max_entries : Z) (cache : list (CacheKey * V)) : list (CacheKey * V) :=
  match cache_get k cache with
  | Some _ => (k, v) :: cache_remove k cache
  | None => if Z.of_nat (length cache) <? max_entries then (k, v) :: cache else cache
  end.
Definition cache_sat_result (k : CacheKey) (result : bool) (s : Solver) : Solver :=
  set_sat_cache (cache_result k result SYMBOLIC_SOLVER_SAT_CACHE_MAX_ENTRIES (sat_cache s)) s.
Definition cache_model_result (k : CacheKey) (model : SymbolicModel) (s : Solver) : Solver :=
  set_model_cache (cache_result k model SYMBOLIC_SOLVER_MODEL_CACHE_MAX_ENTRIES (model_cache s)) s.
Definition remove_model (k : CacheKey) (s : Solver) : Solver := set_model_cache (cache_remove k (model_cache s)) s.

Definition has_cached_unsat_subset (s : Solver) (k : CacheKey) : bool :=
  existsb (fun '(cached, result) => negb result && sorted_bool_exprs_are_subset cached k) (sat_cache s).

Definition clear_context_caches (s : Solver) : Solver :=
  set_model_cache [] (set_sat_cache [] (set_normalization (clear (normalization_cache s)) s)).
Definition from_config (max_queries : Z) : Solver := mkSolver max_queries 0 0 [] (mkNormCache [] []) [] [] 0 0 0 0 0.

Definition reserve_query (s : Solver) : option SymbolicError :=
  if max_queries s <=? queries s then Some (SolverQueryLimit (max_queries s)) else None.

(** *** Constraints over one opaque hash *)
(** [collect_solver_vars]: the symbols of a constraint, and whether it has a hash. *)
Fixpoint visit_word_vars (e : SymExpr) (vars : list Symbol) : bool * list Symbol :=
  match e with
  | EConst _ => (false, vars)
  | EVar symbol | EGasLeft symbol => (false, insert_var symbol vars)
  | EKeccak name _ _ | EHash name _ _ => (true, insert_var name vars)
  | ENot v => visit_word_vars v vars
  | EBinOp _ l r =>
      let '(a, vars) := visit_word_vars l vars in
      let '(b, vars) := visit_word_vars r vars in (a || b, vars)
  | ETernOp _ l r m =>
      let '(a, vars) := visit_word_vars l vars in
      let '(b, vars) := visit_word_vars r vars in
      let '(c, vars) := visit_word_vars m vars in (a || b || c, vars)
  | EIte c t f =>
      let '(a, vars) := visit_bool_vars c vars in
      let '(b, vars) := visit_word_vars t vars in
      let '(d, vars) := visit_word_vars f vars in (a || b || d, vars)
  end
with visit_bool_vars (b : SymBoolExpr) (vars : list Symbol) : bool * list Symbol :=
  match b with
  | BConst _ => (false, vars)
  | BNot v => visit_bool_vars v vars
  | BAnd vs =>
      (fix go vs found vars := match vs with
       | [] => (found, vars)
       | v :: r => let '(a, vars) := visit_bool_vars v vars in go r (found || a) vars
       end) vs false vars
  | BCmp _ l r =>
      let '(a, vars) := visit_word_vars l vars in
      let '(b, vars) := visit_word_vars r vars in (a || b, vars)
  end.
Definition collect_solver_vars (b : SymBoolExpr) : bool * list Symbol := visit_bool_vars b [].

Section Queries.
Context `{SA : SignedArith, HF : HashFns, PP : PolyParts, BO : BoolOrder, SP : SolverProcess, SI : SymbolInfo}.
(** The bounds of the normaliser. *)
Variables fuel rounds : nat.

Definition hash_candidate (b : SymBoolExpr) : option Symbol :=
  match collect_solver_vars b with (true, [symbol]) => Some symbol | _ => None end.
Definition symbol_constraint_count (constraints : list SymBoolExpr) (symbol : Symbol) : nat :=
  length (List.filter (fun b => existsb (Pos.eqb symbol) (snd (collect_solver_vars b))) constraints).
Definition abstract_hash (symbol : Symbol) (e : SymExpr) : SymExpr :=
  match e with
  | EKeccak name _ _ | EHash name _ _ => if (name =? symbol)%positive then EVar symbol else e
  | _ => e
  end.
Definition removable (constraints : list SymBoolExpr) (b : SymBoolExpr) : bool :=
  match hash_candidate b with
  | Some symbol =>
      (symbol_constraint_count constraints symbol =? 1)%nat &&
      is_some (fallback_single_var_model [fold_exprs_shared (abstract_hash symbol) b])
  | None => false
  end.
Definition remove_witnessed_isolated_hash_constraints (constraints : list SymBoolExpr) : list SymBoolExpr :=
  if negb (existsb contains_hash constraints) then constraints
  else List.filter (fun b => negb (removable constraints b)) constraints.

Definition normalize_sat_constraints (constraints : list SymBoolExpr) (cache : NormalizationCache)
  : list SymBoolExpr * NormalizationCache :=
  let '(normalized, cache) := normalize_constraints_for_solver_cached fuel rounds constraints cache in
  (remove_witnessed_isolated_hash_constraints (remove_implied_monotonic_constraints normalized), cache).

Definition validated (original : list SymBoolExpr) (candidate : option Model) : option SymbolicModel :=
  match candidate with
  | Some model => if eval_model_constraints (lookup_model model) original then Some (lookup_model model) else None
  | None => None
  end.
Definition validated_hard_arith_fallback_model (normalized original : list SymBoolExpr) : option SymbolicModel :=
  validated original (hard_arith_fallback_model normalized).

(** [query_normalized]: the script is built before the processes run. *)
Definition query_normalized (smt : list SymBoolExpr) (model : bool) (s : Solver) : ProcessAnswer * Solver :=
  let s := count_smt_query s in
  match write_smt_assertions smt with
  | inr e => (PError e, s)
  | inl script => (process (Z.to_nat (smt_queries s)) script model, s)
  end.

Definition default_model : SymbolicModel := fun _ => None.

(** *** [is_sat_inner] *)
Definition SatM := Solver -> (BranchFeasibility + SymbolicError) * Solver.
Definition answer (k : CacheKey) (result : bool) : SatM := fun s =>
  (inl (if result then FeasibleSat else FeasibleUnsat), cache_sat_result k result s).

(** The complement of the last constraint is unsatisfiable over a satisfiable
    rest. *)
Definition complement_is_unsat (constraints : list SymBoolExpr) (s : Solver) : bool * Solver :=
  match last constraints with
  | None => (false, s)
  | Some condition =>
      let base := removelast constraints in
      let '(normalized_base, cache) := normalize_sat_constraints base (normalization_cache s) in
      let s := set_normalization cache s in
      match cache_get normalized_base (sat_cache s) with
      | Some true =>
          let '(complement, cache) := normalize_sat_constraints (base ++ [SBool.not_bool condition]) (normalization_cache s) in
          let s := set_normalization cache s in
          (has_cached_unsat_subset s complement, s)
      | _ => (false, s)
      end
  end.

(** After the solver: an unknown answer leaves one more local search. *)
Definition sat_of_answer (smt constraints : list SymBoolExpr) (a : ProcessAnswer) : SatM := fun s =>
  let unknown :=
    match validated_hard_arith_fallback_model smt constraints with
    | Some _ => answer smt true (count_witness s)
    | None => (inr SolverUnknown, s)
    end in
  match a with
  | PError SolverUnknown | PUnknown => unknown
  | PError e => (inr e, s)
  | PSat _ => answer smt true s
  | PUnsat => answer smt false s
  | POther => (inr SymExpr.Solver, s)
  end.

Definition local_answer (smt constraints : list SymBoolExpr) (s : Solver) : option bool :=
  if constraints_are_directly_unsat smt then Some false
  else if product_monotonic_unsat_normalized smt then Some false
  else if negb (match constraints with [] => true | _ => false end) && eval_model_constraints default_model constraints &&
          negb (existsb contains_gasleft_bool constraints) then Some true
  else if is_some (validated constraints (fallback_single_var_model smt)) then Some true
  else if is_some (validated constraints (fallback_bounded_model smt)) then Some true
  else if is_some (checked_mul_guard_branch_model smt constraints (replayable_storage s)) then Some true
  else None.

Definition is_sat_inner (constraints : list SymBoolExpr) (defer_hard_arith_without_witness : bool) : SatM := fun s =>
  let s := count_sat_query s in
  let '(smt, cache) := normalize_sat_constraints constraints (normalization_cache s) in
  let s := set_normalization cache s in
  match cache_get smt (sat_cache s) with
  | Some result => (inl (if result then FeasibleSat else FeasibleUnsat), count_sat_hit s)
  | None =>
      if has_cached_unsat_subset s smt then answer smt false (count_sat_hit s)
      else
        let '(complement_unsat, s) := if defer_hard_arith_without_witness then complement_is_unsat constraints s else (false, s) in
        if complement_unsat then answer smt true (count_sat_hit s)
        else
          match reserve_query s with
          | Some e => (inr e, s)
          | None =>
              let s := set_queries (queries s + 1) s in
              match local_answer smt constraints s with
              | Some result => answer smt result s
              | None =>
                  let ask s := let '(a, s) := query_normalized smt false s in sat_of_answer smt constraints a s in
                  if constraints_prefer_hard_arith_fallback_first smt then
                    match validated_hard_arith_fallback_model smt constraints with
                    | Some _ => answer smt true (count_witness s)
                    | None => if defer_hard_arith_without_witness then (inl NeedsSolver, s) else ask s
                    end
                  else ask s
              end
          end
  end.

(** *** [model] *)
Definition ModelM := Solver -> (SymbolicModel + QueryError) * Solver.
Definition answer_model (k : CacheKey) (model : SymbolicModel) : ModelM := fun s =>
  (inl model, cache_model_result k model (cache_sat_result k true s)).
Definition heuristic_model (smt constraints : list SymBoolExpr) : ModelM := fun s =>
  match validated_hard_arith_fallback_model smt constraints with
  | Some model => answer_model smt model (count_witness s)
  | None => (inr (QueryFailed SolverUnknown), s)
  end.
Definition model_of_answer (smt constraints : list SymBoolExpr) (a : ProcessAnswer) : ModelM := fun s =>
  match a with
  | PError SolverUnknown | PUnknown => heuristic_model smt constraints s
  | PError e => (inr (QueryFailed e), s)
  | PSat (inl model) =>
      if eval_model_constraints model constraints then answer_model smt model s else (inr (QueryFailed SymExpr.Solver), s)
  | PSat (inr e) => (inr (QueryFailed e), s)
  | PUnsat => (inr BecameUnsat, cache_sat_result smt false (remove_model smt s))
  | POther => (inr (QueryFailed SymExpr.Solver), s)
  end.

Definition search_model (smt constraints : list SymBoolExpr) : ModelM := fun s =>
  match validated constraints (fallback_single_var_model smt) with
  | Some model => answer_model smt model s
  | None =>
  match validated constraints (fallback_bounded_model smt) with
  | Some model => answer_model smt model s
  | None =>
  match checked_mul_guard_branch_model smt constraints (replayable_storage s) with
  | Some model => (inl (lookup_model model), cache_sat_result smt true s)
  | None =>
      let ask s := let '(a, s) := query_normalized smt true s in model_of_answer smt constraints a s in
      if constraints_prefer_hard_arith_fallback_first smt then
        match validated_hard_arith_fallback_model smt constraints with
        | Some model => answer_model smt model (count_witness s)
        | None => ask s
        end
      else ask s
  end end end.

(** A cached model is used when it still satisfies the constraints; otherwise
    it and the satisfiability it stood for are dropped. *)
Definition cached_model (smt constraints : list SymBoolExpr) (s : Solver) : option SymbolicModel * Solver :=
  match cache_get smt (model_cache s) with
  | Some model =>
      if eval_model_constraints model constraints then (Some model, cache_sat_result smt true (count_model_hit s))
      else (None, set_sat_cache (cache_remove smt (sat_cache s)) (remove_model smt s))
  | None => (None, s)
  end.

Definition model (constraints : list SymBoolExpr) : ModelM := fun s =>
  if existsb contains_gasleft_bool constraints then (inr (QueryFailed gasleft_error), s)
  else
    let s := count_model_query s in
    let '(smt, cache) := normalize_constraints_for_solver_cached fuel rounds constraints (normalization_cache s) in
    let s := set_normalization cache s in
    if match cache_get smt (sat_cache s) with Some false => true | _ => false end then (inr BecameUnsat, remove_model smt s)
    else if has_cached_unsat_subset s smt then (inr BecameUnsat, remove_model smt (cache_sat_result smt false s))
    else
      match cached_model smt constraints s with
      | (Some m, s) => (inl m, s)
      | (None, s) =>
          match reserve_query s with
          | Some e => (inr (QueryFailed e), s)
          | None => search_model smt constraints (set_queries (queries s + 1) s)
          end
      end.

(** *** Entry points *)
Definition with_replayable_storage {A} (storage : list Symbol) (operation : Solver -> A * Solver) (s : Solver) : A * Solver :=
  let previous := replayable_storage s in
  let '(result, s) := operation (set_storage storage s) in
  (result, set_storage previous s).
Definition into_result (r : BranchFeasibility + SymbolicError) : bool + SymbolicError :=
  match r with
  | inl FeasibleSat => inl true
  | inl FeasibleUnsat => inl false
  | inl NeedsSolver => inr SolverUnknown
  | inr e => inr e
  end.
Definition is_sat_with_replayable_storage (constraints : list SymBoolExpr) (storage : list Symbol) : Solver -> (bool + SymbolicError) * Solver :=
  with_replayable_storage storage (fun s => let '(r, s) := is_sat_inner constraints false s in (into_result r, s)).
Definition branch_feasibility_with_replayable_storage (constraints : list SymBoolExpr) (storage : list Symbol) : SatM :=
  with_replayable_storage storage (is_sat_inner constraints true).
Definition model_with_replayable_storage (constraints : list SymBoolExpr) (storage : list Symbol) : ModelM :=
  with_replayable_storage storage (model constraints).
End Queries.
End SSolver.
