(* ===== verification/SymSolverSound.v ===== *)
(** * SymSolverSound: what the solver's answers mean

    The invariant of [SmtLibSubprocessSolver]: its normalisation caches hold
    results of the normaliser, a cached [unsat] key has no model, and the caches
    and the query counter stay within their limits.  Every operation keeps it.
    An unsatisfiable answer is right for the constraints that were asked, and
    the answers do not depend on what the normalisation caches hold. *)

From Stdlib Require Import ZArith Lia Bool String.
From stdpp Require Import base list option gmap sets.
From S2P Require Import Prelude SymWord SymExpr SymSimpl SymSound SymCmp SymPath SymExec SymContext SymVisit SymMonotone SymPoly SymHashes SymFacts SymNorm SymNormSound SymSmt SymFallback SymFallbackSound SymSolver.
Local Open Scope Z_scope.
Import SFacts SNorm SOrdered SSmt SOrder SFallback SSolver.

(** ** Caches *)
Section Cache.
Context {V : Type}.
Implicit Types cache : list (list SymBoolExpr * V).

Lemma key_eqb_spec x y : key_eqb x y = true <-> x = y.
Proof. unfold key_eqb. by rewrite bool_decide_eq_true. Qed.
Lemma cache_get_in k v cache : cache_get k cache = Some v -> (k, v) ∈ cache.
Proof.
  unfold cache_get. induction cache as [|[k' v'] cache IH]; [done|]. simpl. destruct (key_eqb k k') eqn:E; [|rewrite elem_of_cons; auto].
  apply key_eqb_spec in E as ->. intros [= ->]. constructor.
Qed.
Lemma cache_remove_incl k x cache : x ∈ cache_remove k cache -> x ∈ cache.
Proof. unfold cache_remove. rewrite !list_elem_of_In. by intros [? _]%filter_In. Qed.
Lemma cache_result_incl k v max x cache : x ∈ cache_result k v max cache -> x = (k, v) \/ x ∈ cache.
Proof.
  unfold cache_result. destruct (cache_get k cache); [|case_match; [|by auto]]; rewrite elem_of_cons; [|done].
  intros [?|?%cache_remove_incl]; auto.
Qed.
Lemma cache_remove_shorter k v cache : cache_get k cache = Some v -> (length (cache_remove k cache) < length cache)%nat.
Proof.
  unfold cache_get, cache_remove. induction cache as [|[k' v'] cache IH]; [done|]. simpl. destruct (key_eqb k k'); simpl.
  - intros _. pose proof (filter_length_le (fun '(k'', _) => negb (key_eqb k k'')) cache). lia.
  - intros H%IH. lia.
Qed.
(** An entry is replaced, or added when there is room. *)
Lemma cache_result_bound k v max cache : Z.of_nat (length cache) <= max -> Z.of_nat (length (cache_result k v max cache)) <= max.
Proof.
  unfold cache_result. intros H. destruct (cache_get k cache) eqn:E; [apply cache_remove_shorter in E; simpl; lia|].
  destruct (Z.ltb_spec (Z.of_nat (length cache)) max); simpl; lia.
Qed.
Lemma cache_remove_bound k max cache : Z.of_nat (length cache) <= max -> Z.of_nat (length (cache_remove k cache)) <= max.
Proof. unfold cache_remove. pose proof (filter_length_le (fun '(k', _) => negb (key_eqb k k')) cache). lia. Qed.
End Cache.

(** ** The invariant *)
Section Sound.
Context `{SA : SignedArith, HF : HashFns} {SL : SignedArithLaws} {SC : SignedCmpLaw} `{PP : PolyParts} {PL : PolyLaws} `{BO : BoolOrder}.
Context `{SP : SolverProcess} {SPL : SolverProcessLaws} `{SI : SymbolInfo}.
Hypothesis order : order_law.
Variables fuel rounds : nat.

(** No model that tells the hashes apart and divides by no zero satisfies the key. *)
Definition key_unsat (key : list SymBoolExpr) : Prop := forall model h, hash_stable model h ->
  Forall (good model h) key -> Forall (bool_guarded model) key -> False.

Definition entries_max {A} (max : Z) (l : list A) : Prop := Z.of_nat (length l) <= max.

Record solver_ok (s : Solver) : Prop := {
  so_normalization : norm_cache_ok fuel (normalization_cache s);
  so_unsat : forall k, (k, false) ∈ sat_cache s -> key_unsat k;
  so_sat_max : entries_max SYMBOLIC_SOLVER_SAT_CACHE_MAX_ENTRIES (sat_cache s);
  so_model_max : entries_max SYMBOLIC_SOLVER_MODEL_CACHE_MAX_ENTRIES (model_cache s);
  so_normalized_max : entries_max SYMBOLIC_SOLVER_SAT_CACHE_MAX_ENTRIES (nc_normalized (normalization_cache s));
  so_requires_max : entries_max SYMBOLIC_SOLVER_SAT_CACHE_MAX_ENTRIES (nc_requires (normalization_cache s));
  so_queries : queries s <= max_queries s
}.

(** *** The normalisation caches stay within their limit *)
Definition norm_max (cache : NormalizationCache) : Prop :=
  entries_max SYMBOLIC_SOLVER_SAT_CACHE_MAX_ENTRIES (nc_normalized cache) /\
  entries_max SYMBOLIC_SOLVER_SAT_CACHE_MAX_ENTRIES (nc_requires cache).
Lemma room_cons {A} (x : A) l : room l = true -> entries_max SYMBOLIC_SOLVER_SAT_CACHE_MAX_ENTRIES (x :: l).
Proof. unfold room, entries_max. intros H%Nat.ltb_lt. cbn [length]. lia. Qed.
Lemma requires_max b cache : norm_max cache -> norm_max (snd (requires_cached b cache)).
Proof.
  intros [H1 H2]. unfold requires_cached. case_match; [done|]. simpl. destruct (room (nc_requires cache)) eqn:E; [|done]. split; [done|by apply room_cons].
Qed.
Lemma retained_max l cache : norm_max cache -> norm_max (snd (retained_cached l cache)).
Proof.
  revert cache. induction l as [|b l IH]; intros cache H; [done|]. cbn [retained_cached]. pose proof (requires_max b cache H) as H1.
  destruct (requires_cached b cache) as [r c1]. specialize (IH c1 H1). by destruct (retained_cached l c1).
Qed.
Lemma one_max b st : norm_max (fst st) -> norm_max (fst (snd (normalize_one_cached fuel b st))).
Proof.
  destruct st as [cache changed]. intros [H1 H2]. unfold normalize_one_cached. destruct (assoc _ _ _); [done|]. simpl.
  destruct (room (nc_normalized cache)) eqn:E; [|done]. split; [by apply room_cons|done].
Qed.
Lemma batch_max cs out st : norm_max (fst st) -> norm_max (fst (snd (batch_with (normalize_one_cached fuel) cs out st))).
Proof.
  revert out st. induction cs as [|b cs IH]; intros out st H; cbn [batch_with]; [done|]. pose proof (one_max b st H) as H1.
  destruct (normalize_one_cached fuel b st) as [n st']. destruct (is_false n); [done|]. by apply IH.
Qed.
Lemma normalize_max cs cache : norm_max cache -> norm_max (snd (normalize_constraints_for_solver_cached fuel rounds cs cache)).
Proof.
  intros H. unfold normalize_constraints_for_solver_cached. pose proof (batch_max cs [] (cache, []) H) as H1.
  destruct (batch_with _ _ _ _) as [normalized [c1 changed]]. unfold normalize_contextually. case_match; [done|].
  pose proof (retained_max normalized c1 H1) as H2. by destruct (retained_cached normalized c1).
Qed.

(** *** The query of a list of constraints, without the caches *)
Definition sat_query (cs : list SymBoolExpr) : list SymBoolExpr :=
  remove_witnessed_isolated_hash_constraints (remove_implied_monotonic_constraints (normalize_constraints_for_solver fuel rounds cs)).
Lemma normalize_sat_query cs cache : norm_cache_ok fuel cache -> norm_max cache ->
  let r := normalize_sat_constraints fuel rounds cs cache in fst r = sat_query cs /\ norm_cache_ok fuel (snd r) /\ norm_max (snd r).
Proof.
  intros H Hm. unfold normalize_sat_constraints. destruct (normalize_cached_eq fuel rounds cs cache H) as [E1 E2]. pose proof (normalize_max cs cache Hm) as E3.
  destruct (normalize_constraints_for_solver_cached _ _ _ _) as [n c]. simpl in *. by subst n.
Qed.

(** *** Every field update keeps it *)
Lemma ok_normalization c s : solver_ok s -> norm_cache_ok fuel c -> norm_max c -> solver_ok (set_normalization c s).
Proof. intros [] ? []. by split. Qed.
Lemma ok_counters a b c d e s : solver_ok s -> solver_ok (set_counters a b c d e s).
Proof. intros []. by split. Qed.
Lemma ok_witness s : solver_ok s -> solver_ok (count_witness s).
Proof. intros []. by split. Qed.
Lemma ok_storage v s : solver_ok s -> solver_ok (set_storage v s).
Proof. intros []. by split. Qed.
Lemma ok_sat k (r : bool) s : (r = false -> key_unsat k) -> solver_ok s -> solver_ok (cache_sat_result k r s).
Proof.
  intros Hk []. split; try done; simpl; [|by apply cache_result_bound].
  intros k' [[= -> <-]|H]%cache_result_incl; [by apply Hk|by apply so_unsat0].
Qed.
Lemma ok_model k m s : solver_ok s -> solver_ok (cache_model_result k m s).
Proof. intros []. split; try done. by apply cache_result_bound. Qed.
Lemma ok_remove_model k s : solver_ok s -> solver_ok (remove_model k s).
Proof. intros []. split; try done. by apply cache_remove_bound. Qed.
Lemma ok_remove_sat k s : solver_ok s -> solver_ok (set_sat_cache (cache_remove k (sat_cache s)) s).
Proof. intros []. split; try done; simpl; [|by apply cache_remove_bound]. intros k' H%cache_remove_incl. by apply so_unsat0. Qed.
Lemma ok_query s : reserve_query s = None -> solver_ok s -> solver_ok (set_queries (queries s + 1) s).
Proof. unfold reserve_query. destruct (Z.leb_spec (max_queries s) (queries s)); [done|]. intros _ []. split; try done. simpl. lia. Qed.
Lemma ok_clear s : solver_ok s -> solver_ok (clear_context_caches s).
Proof. intros []. by split; try done; intros k ?%not_elem_of_nil. Qed.
Lemma ok_from_config n : 0 <= n -> solver_ok (from_config n).
Proof. intros Hn. by split; try done; intros k ?%not_elem_of_nil. Qed.

(** ** Where an unsatisfiable key comes from *)
Lemma unsat_subset k k' : k ⊆ k' -> key_unsat k -> key_unsat k'.
Proof.
  intros Hsub Hk model h Hs Hg Hd. apply (Hk model h Hs); apply list.Forall_forall; intros b Hb%Hsub; rewrite list.Forall_forall in *; auto.
Qed.
Lemma cached_subset_unsat s k : solver_ok s -> has_cached_unsat_subset s k = true -> key_unsat k.
Proof.
  intros Hs H. unfold has_cached_unsat_subset in H. apply existsb_exists in H as ([k' []] & Hin & Hx); [done|]. apply (unsat_subset k'); [by apply subset_spec|].
  apply (so_unsat s Hs). by apply list_elem_of_In.
Qed.
Lemma direct_unsat k : constraints_are_directly_unsat k = true -> key_unsat k.
Proof. intros H model h Hs Hg _. by apply (directly_unsat_sound model h order k H). Qed.
Lemma product_unsat k : product_monotonic_unsat_normalized k = true -> key_unsat k.
Proof. intros H model h Hs Hg _. apply (monotonic_unsat_sound model k H). by eapply good_model. Qed.
Lemma process_unsat_key k m s s' : query_normalized k m s = (PUnsat, s') -> key_unsat k.
Proof.
  unfold query_normalized. destruct (write_smt_assertions k) as [script|e] eqn:E; [|done]. intros [= H _] model h Hs Hg Hd.
  apply (process_unsat _ _ _ (model_value model) H). rewrite (script_correct _ _ _ E). f_equal. apply forallb_forall. intros b Hb.
  rewrite List.Forall_forall in Hg, Hd. destruct (Hg b Hb) as [Hq Hv].
  by apply (proj2 (smt_agrees model h (hs_named _ _ Hs))); [| |exact Hv]; auto.
Qed.

Lemma ok_ask k m s : solver_ok s -> solver_ok (snd (query_normalized k m s)).
Proof. intros H. unfold query_normalized. case_match; by apply ok_counters. Qed.

(** ** Every operation keeps the invariant *)
Lemma ok_answer k (result : bool) s r s' : (result = false -> key_unsat k) -> solver_ok s ->
  answer k result s = (r, s') -> solver_ok s' /\ (r = inl FeasibleUnsat -> key_unsat k).
Proof. intros Hk Hs [= <- <-]. split; [by apply ok_sat|]. by destruct result; [done|auto]. Qed.

Lemma ok_complement cs s : solver_ok s -> solver_ok (snd (complement_is_unsat fuel rounds cs s)).
Proof.
  intros Hs. unfold complement_is_unsat. destruct (last cs) as [condition|]; [|done].
  assert (Hn : forall cs s, solver_ok s -> solver_ok (set_normalization (snd (normalize_sat_constraints fuel rounds cs (normalization_cache s))) s)).
  { clear. intros cs s Hs. destruct (normalize_sat_query cs (normalization_cache s)) as (_ & ? & ?); [apply Hs|by split; apply Hs|]. by apply ok_normalization. }
  pose proof (Hn (removelast cs) s Hs) as H1. destruct (normalize_sat_constraints _ _ (removelast cs) _) as [nb c]. simpl in H1.
  destruct (cache_get nb _) as [[]|]; try done.
  pose proof (Hn (removelast cs ++ [SBool.not_bool condition]) _ H1) as H2. destruct (normalize_sat_constraints _ _ (_ ++ _) _) as [nc c']. done.
Qed.

Lemma ok_sat_of_answer k m cs s a s1 r s' : query_normalized k m s = (a, s1) -> solver_ok s ->
  sat_of_answer k cs a s1 = (r, s') -> solver_ok s' /\ (r = inl FeasibleUnsat -> key_unsat k).
Proof.
  intros Hq Hs. pose proof (ok_ask k m s Hs) as H1. rewrite Hq in H1. simpl in H1. unfold sat_of_answer.
  assert (Hun : match validated_hard_arith_fallback_model k cs with Some _ => answer k true (count_witness s1) | None => (inr SolverUnknown, s1) end = (r, s') ->
    solver_ok s' /\ (r = inl FeasibleUnsat -> key_unsat k)).
  { destruct (validated_hard_arith_fallback_model k cs); [apply ok_answer; [done|by apply ok_witness]|by intros [= <- <-]]. }
  destruct a as [p| | | |[]]; try done; try (by intros [= <- <-]); apply ok_answer; try done. intros _. by eapply process_unsat_key.
Qed.

Lemma local_answer_unsat k cs s : local_answer k cs s = Some false -> key_unsat k.
Proof.
  unfold local_answer. destruct (constraints_are_directly_unsat k) eqn:E1; [intros _; by apply direct_unsat|].
  destruct (product_monotonic_unsat_normalized k) eqn:E2; [intros _; by apply product_unsat|]. by repeat case_match.
Qed.

Lemma is_sat_inner_ok cs defer s r s' : solver_ok s -> is_sat_inner fuel rounds cs defer s = (r, s') ->
  solver_ok s' /\ (r = inl FeasibleUnsat -> key_unsat (sat_query cs)).
Proof.
  intros Hs. unfold is_sat_inner. pose proof (ok_counters (sat_queries s + 1) (model_queries s) (sat_cache_hits s) (model_cache_hits s) (smt_queries s) s Hs) as H0.
  fold (count_sat_query s) in H0. generalize dependent (count_sat_query s). clear s Hs. intros s Hs.
  destruct (normalize_sat_query cs (normalization_cache s)) as (E & H1 & H2); [apply Hs|by split; apply Hs|].
  destruct (normalize_sat_constraints fuel rounds cs (normalization_cache s)) as [k c]. simpl in E, H1, H2. rewrite <- E. clear E.
  pose proof (ok_normalization c s Hs H1 H2) as Hn. generalize dependent (set_normalization c s). clear s Hs c H1 H2. intros s Hs.
  destruct (cache_get k (sat_cache s)) as [b|] eqn:Eb.
  { intros [= <- <-]. split; [by apply ok_counters|]. destruct b; [done|]. intros _. by apply (so_unsat s Hs), cache_get_in. }
  destruct (has_cached_unsat_subset s k) eqn:Esub.
  { apply ok_answer; [intros _; by apply (cached_subset_unsat s)|by apply ok_counters]. }
  pose proof (ok_complement cs s Hs) as Hc.
  assert (Hc' : solver_ok (snd (if defer then complement_is_unsat fuel rounds cs s else (false, s)))) by by destruct defer.
  clear Hc. destruct (if defer then _ else _) as [unsat s1]. simpl in Hc'. destruct unsat; [apply ok_answer; [done|by apply ok_counters]|].
  destruct (reserve_query s1) eqn:Er; [by intros [= <- <-]|]. pose proof (ok_query s1 Er Hc') as Hq.
  destruct (local_answer k cs _) as [b|] eqn:El; [apply ok_answer; [intros ->; by eapply local_answer_unsat|done]|].
  cbv zeta. set (s2 := set_queries (queries s1 + 1) s1) in *.
  assert (Hask : (let '(a, s3) := query_normalized k false s2 in sat_of_answer k cs a s3) = (r, s') -> solver_ok s' /\ (r = inl FeasibleUnsat -> key_unsat k)).
  { destruct (query_normalized k false s2) as [a s3] eqn:Ea. by eapply ok_sat_of_answer. }
  destruct (constraints_prefer_hard_arith_fallback_first k); [|done].
  destruct (validated_hard_arith_fallback_model k cs); [apply ok_answer; [done|by apply ok_witness]|]. destruct defer; [by intros [= <- <-]|done].
Qed.

(** What a model query returns. *)
Definition model_post (k cs : list SymBoolExpr) (r : SymbolicModel + QueryError) : Prop :=
  match r with
  | inl m => eval_model_constraints m cs = true
  | inr BecameUnsat => key_unsat k
  | inr (QueryFailed _) => True
  end.
Lemma ok_answer_model k cs m s r s' : eval_model_constraints m cs = true -> solver_ok s ->
  answer_model k m s = (r, s') -> solver_ok s' /\ model_post k cs r.
Proof. intros Hm Hs [= <- <-]. split; [|done]. by apply ok_model, ok_sat. Qed.
Lemma validated_spec cs o m : validated cs o = Some m -> eval_model_constraints m cs = true.
Proof. unfold validated. destruct o as [m'|]; [|done]. destruct (eval_model_constraints (lookup_model m') cs) eqn:E; [by intros [= <-]|done]. Qed.
Lemma hard_arith_spec k cs m : validated_hard_arith_fallback_model k cs = Some m -> eval_model_constraints m cs = true.
Proof. apply validated_spec. Qed.
Lemma ok_heuristic k cs s r s' : solver_ok s -> heuristic_model k cs s = (r, s') -> solver_ok s' /\ model_post k cs r.
Proof.
  intros Hs. unfold heuristic_model. destruct (validated_hard_arith_fallback_model k cs) as [m|] eqn:E; [|by intros [= <- <-]].
  apply ok_answer_model; [by eapply hard_arith_spec|by apply ok_witness].
Qed.
Lemma ok_model_of_answer k cs s a s1 r s' : query_normalized k true s = (a, s1) -> solver_ok s ->
  model_of_answer k cs a s1 = (r, s') -> solver_ok s' /\ model_post k cs r.
Proof.
  intros Hq Hs. pose proof (ok_ask k true s Hs) as H1. rewrite Hq in H1. simpl in H1. unfold model_of_answer.
  destruct a as [[m|e]| | | |[]]; try (by intros [= <- <-]); try (by apply ok_heuristic).
  - destruct (eval_model_constraints m cs) eqn:E; [by apply ok_answer_model|by intros [= <- <-]].
  - intros [= <- <-]. apply process_unsat_key in Hq. split; [|done]. by apply ok_sat, ok_remove_model.
Qed.
Lemma ok_search k cs s r s' : solver_ok s -> search_model k cs s = (r, s') -> solver_ok s' /\ model_post k cs r.
Proof.
  intros Hs. unfold search_model. destruct (validated cs (fallback_single_var_model k)) as [m|] eqn:E1; [apply ok_answer_model; [by eapply validated_spec|done]|].
  destruct (validated cs (fallback_bounded_model k)) as [m|] eqn:E2; [apply ok_answer_model; [by eapply validated_spec|done]|].
  destruct (checked_mul_guard_branch_model k cs _) as [m|] eqn:E3; [intros [= <- <-]; split; [by apply ok_sat|by eapply guard_satisfies]|].
  cbv zeta. assert (Hask : (let '(a, s3) := query_normalized k true s in model_of_answer k cs a s3) = (r, s') -> solver_ok s' /\ model_post k cs r).
  { destruct (query_normalized k true s) as [a s3] eqn:Ea. by eapply ok_model_of_answer. }
  destruct (constraints_prefer_hard_arith_fallback_first k); [|done].
  destruct (validated_hard_arith_fallback_model k cs) as [m|] eqn:E4; [|done]. apply ok_answer_model; [by eapply hard_arith_spec|by apply ok_witness].
Qed.
Lemma ok_cached_model k cs s o s' : solver_ok s -> cached_model k cs s = (o, s') ->
  solver_ok s' /\ forall m, o = Some m -> eval_model_constraints m cs = true.
Proof.
  intros Hs. unfold cached_model. destruct (cache_get k (model_cache s)) as [m|]; [|by intros [= <- <-]].
  destruct (eval_model_constraints m cs) eqn:E; intros [= <- <-].
  - split; [apply ok_sat; [done|by apply ok_counters]|by intros ? [= <-]].
  - split; [|done]. by apply (ok_remove_sat k (remove_model k s)), ok_remove_model.
Qed.

Lemma model_ok cs s r s' : solver_ok s -> SSolver.model fuel rounds cs s = (r, s') ->
  solver_ok s' /\ model_post (normalize_constraints_for_solver fuel rounds cs) cs r.
Proof.
  intros Hs. unfold SSolver.model. destruct (existsb contains_gasleft_bool cs); [by intros [= <- <-]|].
  assert (Hs0 : solver_ok (count_model_query s)) by by apply ok_counters.
  generalize dependent (count_model_query s). clear s Hs. intros s Hs. cbv zeta.
  destruct (normalize_cached_eq fuel rounds cs (normalization_cache s)) as [E H1]; [apply Hs|].
  assert (H2 : norm_max (normalization_cache s)) by by split; apply Hs. apply (normalize_max cs) in H2.
  destruct (normalize_constraints_for_solver_cached fuel rounds cs (normalization_cache s)) as [k c]. simpl in E, H1, H2. rewrite <- E. clear E.
  pose proof (ok_normalization c s Hs H1 H2) as Hn. generalize dependent (set_normalization c s). clear s Hs c H1 H2. intros s Hs.
  assert (Hrest : match cached_model k cs s with
    | (Some m, s) => (inl m, s)
    | (None, s) => match reserve_query s with Some e => (inr (QueryFailed e), s) | None => search_model k cs (set_queries (queries s + 1) s) end
    end = (r, s') -> solver_ok s' /\ model_post k cs r).
  { destruct (cached_model k cs s) as [[m|] s1] eqn:Ec; destruct (ok_cached_model _ _ _ _ _ Hs Ec) as [H1 H2].
    - intros [= <- <-]. split; [done|]. by apply H2.
    - destruct (reserve_query s1) eqn:Er; [by intros [= <- <-]|]. apply ok_search. by apply ok_query. }
  assert (Hunsat : forall s1, solver_ok s1 -> key_unsat k -> (inr BecameUnsat, s1) = (r, s') -> solver_ok s' /\ model_post k cs r) by by intros s1 H1 H2 [= <- <-].
  destruct (cache_get k (sat_cache s)) as [[]|] eqn:Eb.
  2: { apply Hunsat; [by apply ok_remove_model|by apply (so_unsat s Hs), cache_get_in]. }
  all: destruct (has_cached_unsat_subset s k) eqn:Es; [|done]; apply (cached_subset_unsat s k Hs) in Es; apply Hunsat; [|done];
    by apply ok_remove_model, ok_sat.
Qed.

(** Running an operation over path-local storage puts the previous back. *)
Lemma ok_with_storage {A} storage (operation : Solver -> A * Solver) (post : A -> Prop) s r s' :
  (forall s r s', solver_ok s -> operation s = (r, s') -> solver_ok s' /\ post r) ->
  solver_ok s -> with_replayable_storage storage operation s = (r, s') -> solver_ok s' /\ post r /\ replayable_storage s' = replayable_storage s.
Proof.
  intros Hop Hs. unfold with_replayable_storage. destruct (operation _) as [x s1] eqn:E. apply Hop in E as [H1 H2]; [|by apply ok_storage].
  intros [= <- <-]. split_and!; [by apply ok_storage|done|done].
Qed.

(** ** From a key to the constraints *)
(** The removals keep a part of the normalised constraints. *)
Lemma sat_query_incl cs : sat_query cs ⊆ normalize_constraints_for_solver fuel rounds cs.
Proof.
  intros b. unfold sat_query, remove_witnessed_isolated_hash_constraints.
  assert (Hm : b ∈ remove_implied_monotonic_constraints (normalize_constraints_for_solver fuel rounds cs) -> b ∈ normalize_constraints_for_solver fuel rounds cs).
  { unfold remove_implied_monotonic_constraints. intros H%remove_implied_from_incl. done. }
  case_match; [done|]. rewrite list_elem_of_In. intros [H1 _]%filter_In. by apply Hm, list_elem_of_In.
Qed.

Lemma hashes_rewritten model (T : SymExpr -> Prop) :
  (forall e, word_hashes T e -> word_hashes (rewritten model T) e) /\ (forall b, bool_hashes T b -> bool_hashes (rewritten model T) b).
Proof.
  apply expr_bexpr_ind; try done.
  - intros n l bs IHl IHb (Hh & Hl & Hb)%keccak_hashes. apply keccak_hashes. split_and!; [by apply rewritten_self|auto|].
    rewrite List.Forall_forall in *. auto.
  - intros n a bs IHb (Hh & Hb)%hash_hashes. apply hash_hashes. split; [by apply rewritten_self|]. rewrite List.Forall_forall in *. auto.
  - intros op l r IHl IHr [Hl Hr]. split; auto.
  - intros op l r m IHl IHr IHm (Hl & Hr & Hm). split_and!; auto.
  - intros c t f IHc IHt IHf (Hc & Ht & Hf). split_and!; auto.
  - intros bs IH H%and_hashes. apply and_hashes. rewrite List.Forall_forall in *. auto.
  - intros op l r IHl IHr [Hl Hr]. split; auto.
Qed.

(** The constraints have no model that tells their hashes apart by their inputs
    and divides by no zero in the query [k] that is sent. *)
Definition unsatisfiable_via (k cs : list SymBoolExpr) : Prop := forall model T, hashes_faithful model T -> Forall (bool_hashes T) cs ->
  Forall (bool_guarded model) k -> ~ Forall (fun b => denote_bool model b = Some true) cs.

Lemma key_unsat_constraints k cs : k ⊆ normalize_constraints_for_solver fuel rounds cs -> key_unsat k -> unsatisfiable_via k cs.
Proof.
  intros Hsub Hk model T HT Hh Hd Hcs. apply rewritten_stable in HT as Hst. apply (Hk model (rewritten model T) Hst); [|done].
  assert (Hg : Forall (good model (rewritten model T)) cs).
  { rewrite List.Forall_forall in *. intros b Hb. split; [by apply hashes_rewritten, Hh|by apply Hcs]. }
  destruct (normalize_cached_good model _ Hst fuel rounds cs (mkNormCache [] [])) as [H1 _]; [done|done|].
  destruct (normalize_cached_eq fuel rounds cs (mkNormCache [] [])) as [H2 _]; [done|]. rewrite H2 in H1.
  apply list.Forall_forall. intros b Hb%Hsub. rewrite list.Forall_forall in H1. auto.
Qed.
End Sound.

(** ** The limit of queries *)
Section Limit.
Context `{SA : SignedArith, HF : HashFns, PP : PolyParts, BO : BoolOrder, SP : SolverProcess, SI : SymbolInfo}.
Variables fuel rounds : nat.

(** Nothing is asked. *)
Definition quiet (s s' : Solver) : Prop := queries s' = queries s /\ max_queries s' = max_queries s /\ smt_queries s' = smt_queries s.
Definition spent (s : Solver) : Prop := queries s = max_queries s.
Lemma spent_reserve s : spent s -> reserve_query s = Some (SolverQueryLimit (max_queries s)).
Proof. unfold spent, reserve_query. intros ->. by rewrite Z.leb_refl. Qed.
Lemma complement_quiet cs s : quiet s (snd (complement_is_unsat fuel rounds cs s)).
Proof. unfold complement_is_unsat. repeat case_match; simplify_eq; done. Qed.

(** With no queries left, only the caches answer. *)
Lemma spent_is_sat cs defer s r s' : spent s -> is_sat_inner fuel rounds cs defer s = (r, s') ->
  quiet s s' /\ (r = inl FeasibleSat \/ r = inl FeasibleUnsat \/ r = inr (SolverQueryLimit (max_queries s))).
Proof.
  intros Hs. unfold is_sat_inner. destruct (normalize_sat_constraints fuel rounds cs _) as [k c]. set (s1 := set_normalization c (count_sat_query s)).
  assert (H1 : quiet s s1) by done. assert (Hs1 : spent s1) by done. clearbody s1.
  destruct (cache_get k (sat_cache s1)) as [[]|]; [intros [= <- <-]; split; [exact H1|by auto]|intros [= <- <-]; split; [exact H1|by auto]|].
  destruct (has_cached_unsat_subset s1 k); [intros [= <- <-]; split; [exact H1|by auto]|]. pose proof (complement_quiet cs s1) as Hc.
  assert (Hc' : quiet s1 (snd (if defer then complement_is_unsat fuel rounds cs s1 else (false, s1)))) by by destruct defer. clear Hc.
  destruct (if defer then _ else _) as [unsat s2]. simpl in Hc'. destruct H1 as (Q1 & M1 & S1), Hc' as (Q2 & M2 & S2).
  destruct unsat; [intros [= <- <-]; split; [|by auto]; unfold quiet; simpl; by rewrite Q2, M2, S2|].
  rewrite spent_reserve by (unfold spent in *; congruence). intros [= <- <-]. split; [unfold quiet; by rewrite Q2, M2, S2|]. rewrite M2, M1. by auto.
Qed.
Lemma spent_model cs s r s' : spent s -> SSolver.model fuel rounds cs s = (r, s') ->
  quiet s s' /\ match r with inl _ | inr BecameUnsat => True | inr (QueryFailed e) => e = gasleft_error \/ e = SolverQueryLimit (max_queries s) end.
Proof.
  intros Hs. unfold SSolver.model. destruct (existsb contains_gasleft_bool cs); [intros [= <- <-]; split; [done|by left]|].
  destruct (normalize_constraints_for_solver_cached fuel rounds cs _) as [k c]. set (s1 := set_normalization c (count_model_query s)).
  assert (H1 : quiet s s1) by done. assert (Hs1 : spent s1) by done. clearbody s1.
  destruct (match cache_get k (sat_cache s1) with Some false => true | _ => false end); [by intros [= <- <-]|].
  destruct (has_cached_unsat_subset s1 k); [by intros [= <- <-]|].
  assert (Hc : quiet s1 (snd (cached_model k cs s1))) by (unfold cached_model; repeat case_match; done).
  destruct (cached_model k cs s1) as [[m|] s2]; simpl in Hc; destruct H1 as (Q1 & M1 & S1), Hc as (Q2 & M2 & S2).
  - intros [= <- <-]. split; [|done]. unfold quiet. by rewrite Q2, M2, S2.
  - rewrite spent_reserve by (unfold spent in *; congruence). intros [= <- <-]. split; [unfold quiet; by rewrite Q2, M2, S2|]. rewrite M2, M1. by auto.
Qed.
End Limit.
