(* ===== verification/SymSolverProps.v ===== *)
(** * SymSolverProps: the properties of the solver

    The claims about the queries: the facts the normaliser collects, the
    normalisation, the SMT script, the local searches and the answers of
    [SmtLibSubprocessSolver], with an instance of the parameters at which the
    hypotheses hold. *)

From Stdlib Require Import ZArith Lia Bool String.
From stdpp Require Import base list option gmap sets relations countable.
From S2P Require Import Prelude SymWord SymExpr SymSimpl SymSound SymCmp SymProps SymPath SymExec SymContext SymVisit SymMonotone SymPoly SymHashes SymFacts SymNorm SymNormSound SymSmt SymFallback SymFallbackSound SymSolver SymSolverSound.
Local Open Scope Z_scope.
Import SFacts SNorm SOrdered SSmt SOrder SFallback SSolver.

Section SolverClaims.
Context `{SA : SignedArith, HF : HashFns} {SL : SignedArithLaws} {SC : SignedCmpLaw} `{PP : PolyParts} {PL : PolyLaws} `{BO : BoolOrder}.
Context `{SP : SolverProcess} {SPL : SolverProcessLaws} `{SI : SymbolInfo}.

(** ** Solvers in use *)
Inductive solver_step (fuel rounds : nat) : Solver -> Solver -> Prop :=
  | step_is_sat cs storage s : solver_step fuel rounds s (snd (is_sat_with_replayable_storage fuel rounds cs storage s))
  | step_feasibility cs storage s : solver_step fuel rounds s (snd (branch_feasibility_with_replayable_storage fuel rounds cs storage s))
  | step_model cs storage s : solver_step fuel rounds s (snd (model_with_replayable_storage fuel rounds cs storage s))
  | step_clear s : solver_step fuel rounds s (clear_context_caches s).
Definition reachable (fuel rounds : nat) (max : Z) (s : Solver) : Prop := rtc (solver_step fuel rounds) (from_config max) s.

Lemma is_sat_storage_ok fuel rounds cs storage s r s' : order_law -> solver_ok fuel s ->
  is_sat_with_replayable_storage fuel rounds cs storage s = (r, s') ->
  solver_ok fuel s' /\ (r = inl false -> key_unsat (sat_query fuel rounds cs)) /\ replayable_storage s' = replayable_storage s.
Proof.
  intros Ho Hs. apply (ok_with_storage fuel storage _ (fun r => r = inl false -> key_unsat (sat_query fuel rounds cs))); [|done].
  clear s r s' Hs. intros s r s' Hs. destruct (is_sat_inner fuel rounds cs false s) as [r0 s0] eqn:E. intros [= <- <-].
  destruct (is_sat_inner_ok Ho fuel rounds _ _ _ _ _ Hs E) as [H1 H2]. split; [done|]. destruct r0 as [[]|]; try done. by auto.
Qed.
Lemma feasibility_storage_ok fuel rounds cs storage s r s' : order_law -> solver_ok fuel s ->
  branch_feasibility_with_replayable_storage fuel rounds cs storage s = (r, s') ->
  solver_ok fuel s' /\ (r = inl FeasibleUnsat -> key_unsat (sat_query fuel rounds cs)) /\ replayable_storage s' = replayable_storage s.
Proof.
  intros Ho Hs. apply (ok_with_storage fuel storage _ (fun r => r = inl FeasibleUnsat -> key_unsat (sat_query fuel rounds cs))); [|done].
  intros s0 r0 s1 H0 E. by apply (is_sat_inner_ok Ho fuel rounds _ _ _ _ _ H0 E).
Qed.
Lemma model_storage_ok fuel rounds cs storage s r s' : solver_ok fuel s ->
  model_with_replayable_storage fuel rounds cs storage s = (r, s') ->
  solver_ok fuel s' /\ model_post (normalize_constraints_for_solver fuel rounds cs) cs r /\ replayable_storage s' = replayable_storage s.
Proof.
  intros Hs. apply (ok_with_storage fuel storage _ (model_post (normalize_constraints_for_solver fuel rounds cs) cs)); [|done].
  intros s0 r0 s1 H0 E. by apply (model_ok fuel rounds _ _ _ _ H0 E).
Qed.
Lemma reachable_ok fuel rounds max s : order_law -> 0 <= max -> reachable fuel rounds max s -> solver_ok fuel s.
Proof.
  intros Ho Hm. unfold reachable. generalize (ok_from_config fuel max Hm). generalize (from_config max). intros s0 H0.
  induction 1 as [|x y z [cs storage x'|cs storage x'|cs storage x'|x'] _ IH]; [done|..]; apply IH.
  - destruct (is_sat_with_replayable_storage fuel rounds cs storage x') eqn:E. by eapply is_sat_storage_ok.
  - destruct (branch_feasibility_with_replayable_storage fuel rounds cs storage x') eqn:E. by eapply feasibility_storage_ok.
  - destruct (model_with_replayable_storage fuel rounds cs storage x') eqn:E. by eapply model_storage_ok.
  - by apply ok_clear.
Qed.

(** ** Answers *)

(** C3: a solver that has answered any queries before says "unsatisfiable" (to
    a query, to a branch, or when it is asked for a model) only if the
    constraints have no model: none that gives the hashes of the constraints
    values which their inputs tell apart, and that divides by no zero in the
    query the solver keeps. *)
Theorem unsat_answers_sound fuel rounds max s cs storage :
  order_law -> 0 <= max -> reachable fuel rounds max s ->
  (forall s', is_sat_with_replayable_storage fuel rounds cs storage s = (inl false, s') -> unsatisfiable_via (sat_query fuel rounds cs) cs) /\
  (forall s', branch_feasibility_with_replayable_storage fuel rounds cs storage s = (inl FeasibleUnsat, s') ->
     unsatisfiable_via (sat_query fuel rounds cs) cs) /\
  (forall s', model_with_replayable_storage fuel rounds cs storage s = (inr BecameUnsat, s') ->
     unsatisfiable_via (normalize_constraints_for_solver fuel rounds cs) cs).
Proof.
  intros Ho Hm Hs%reachable_ok; [|done..]. split_and!; intros s' E.
  - apply (key_unsat_constraints fuel rounds); [apply sat_query_incl|]. by apply (is_sat_storage_ok fuel rounds _ _ _ _ _ Ho Hs) in E as (_ & H & _); apply H.
  - apply (key_unsat_constraints fuel rounds); [apply sat_query_incl|]. by apply (feasibility_storage_ok fuel rounds _ _ _ _ _ Ho Hs) in E as (_ & H & _); apply H.
  - apply (key_unsat_constraints fuel rounds); [done|]. by apply (model_storage_ok fuel rounds _ _ _ _ _ Hs) in E as (_ & H & _).
Qed.

(** C17: a model that the solver returns, from its cache, a local search or a
    process, makes every constraint it was asked for true; the constraints
    that depend on the gas left get an error and no model, and the storage
    symbols of the caller are put back. *)
Theorem returned_models_satisfy fuel rounds max s cs storage r s' :
  order_law -> 0 <= max -> reachable fuel rounds max s -> model_with_replayable_storage fuel rounds cs storage s = (r, s') ->
  (forall m, r = inl m -> Forall (fun b => denote_bool m b = Some true) cs) /\
  (existsb contains_gasleft_bool cs = true -> r = inr (QueryFailed gasleft_error)) /\
  replayable_storage s' = replayable_storage s.
Proof.
  intros Ho Hm Hs%reachable_ok E; [|done..]. pose proof (model_storage_ok fuel rounds _ _ _ _ _ Hs E) as (_ & Hp & Hst). split_and!; [| |done].
  - intros m ->. by apply eval_constraints_spec.
  - intros Hg. revert E. unfold model_with_replayable_storage, with_replayable_storage, SSolver.model. rewrite Hg. by intros [= <- _].
Qed.

(** C22: whatever is asked, the caches of a solver stay within their limits, it
    starts at most the configured number of queries, and once these are spent
    no process is asked any more: an answer comes from the caches or is the
    error of the limit. *)
Theorem solver_stays_within_limits fuel rounds max s :
  order_law -> 0 <= max -> reachable fuel rounds max s ->
  (Z.of_nat (length (sat_cache s)) <= 4096 /\ Z.of_nat (length (model_cache s)) <= 512 /\
   Z.of_nat (length (nc_normalized (normalization_cache s))) <= 4096 /\ Z.of_nat (length (nc_requires (normalization_cache s))) <= 4096) /\
  queries s <= max_queries s /\
  (queries s = max_queries s -> forall cs,
     (forall defer r s', is_sat_inner fuel rounds cs defer s = (r, s') -> quiet s s' /\
        (r = inl FeasibleSat \/ r = inl FeasibleUnsat \/ r = inr (SolverQueryLimit (max_queries s)))) /\
     (forall e s', SSolver.model fuel rounds cs s = (inr (QueryFailed e), s') -> quiet s s' /\ (e = gasleft_error \/ e = SolverQueryLimit (max_queries s)))).
Proof.
  intros Ho Hm Hs%reachable_ok; [|done..]. split; [split_and!; apply Hs|]. split; [apply Hs|]. intros Hq cs. split.
  - intros defer r s'. by apply spent_is_sat.
  - intros e s' E. by apply (spent_model fuel rounds _ _ _ _ Hq) in E.
Qed.

(** ** Queries *)

(** C8: normalisation loses no model: constraints that are true under a model
    which gives their hashes values that the inputs tell apart are normalised
    to constraints that are true under it, and the result does not depend on
    what earlier normalisations left in the cache. *)
Theorem normalization_keeps_models fuel rounds cs cache model T :
  norm_cache_ok fuel cache -> hashes_faithful model T -> Forall (bool_hashes T) cs ->
  let normalized := fst (normalize_constraints_for_solver_cached fuel rounds cs cache) in
  (Forall (fun b => denote_bool model b = Some true) cs -> Forall (fun b => denote_bool model b = Some true) normalized) /\
  normalized = fst (normalize_constraints_for_solver_cached fuel rounds cs (mkNormCache [] [])) /\
  norm_cache_ok fuel (snd (normalize_constraints_for_solver_cached fuel rounds cs cache)).
Proof.
  intros Hc HT Hh. cbv zeta. destruct (normalize_cached_eq fuel rounds cs cache Hc) as [E1 E2].
  destruct (normalize_cached_eq fuel rounds cs (mkNormCache [] [])) as [E3 _]; [done|]. split_and!; [|by rewrite E1, E3|done].
  intros Hcs. eapply good_model, (normalize_cached_good model (rewritten model T)); [by apply rewritten_stable|done|].
  rewrite List.Forall_forall in *. intros b Hb. split; [by apply hashes_rewritten, Hh|by apply Hcs].
Qed.

(** C18: the script sent to a solver, with its definitions for shared parts,
    means the conjunction of the constraints: under every assignment its
    definitions have values, each of the parts before it, and its assertion
    has the truth value of the constraints. *)
Theorem script_means_conjunction sigma cs script :
  write_smt_assertions cs = inl script -> script_val sigma script = Some (forallb (smt_bool sigma) cs).
Proof. exact (script_correct sigma cs script). Qed.

(** C19: what a context derives from true constraints holds of the values: an
    interval contains the value of the word, words for which multiplication is
    found not to overflow have a product below 2^256, and a word is within the
    rounding bounds of its anchor. *)
Theorem context_facts_hold model cs n promote e :
  Forall (fun b => denote_bool model b = Some true) cs ->
  let c := SCtx.from_constraints_with_lower_bounds cs n promote in
  (forall i v, SBoundsOf.interval c e = Some i -> denote_word model e = Some v -> uval (wi_min i) <= uval v <= uval (wi_max i)) /\
  (forall r a b, SBoundsOf.mul_cannot_overflow_256 c e r = true -> denote_word model e = Some a -> denote_word model r = Some b ->
     uval a * uval b < word_modulus) /\
  (forall anchor b v, SBoundsOf.rounding_bounds c e anchor = Some b -> denote_word model e = Some v ->
     exists a, denote_word model (rb_anchor b) = Some a /\ uval a - uval (rb_below b) <= uval v <= uval a + uval (rb_above b)).
Proof.
  intros Hcs c. assert (Hc : ctx_ok model c) by by apply from_constraints_ok. split_and!.
  - intros i v. apply (interval_sound model c Hc).
  - intros r a b H. by apply (mul_cannot_overflow_sound model c Hc).
  - intros anchor b v H. by apply (rounding_sound model c Hc e anchor).
Qed.

(** C20: products that are ordered by the constraints: a contradiction that is
    found is one, and the constraints that are removed as implied are true in
    every model of the ones that are kept, so both have the same models. *)
Theorem monotonic_products_sound model cs :
  (product_monotonic_unsat_normalized cs = true -> ~ Forall (fun b => denote_bool model b = Some true) cs) /\
  (Forall (fun b => is_Some (denote_bool model b)) cs ->
   Forall (fun b => denote_bool model b = Some true) (remove_implied_monotonic_constraints cs) <->
   Forall (fun b => denote_bool model b = Some true) cs).
Proof.
  split; [apply monotonic_unsat_sound|]. intros Hd. split; [by apply (remove_implied_from_models model [] cs)|].
  intros H. apply list.Forall_forall. intros b Hb%remove_implied_from_incl. rewrite list.Forall_forall in H. by apply H.
Qed.

(** ** Local searches *)

(** C21: the local searches return only models of the constraints they were
    given, and after at most the limit of assignments; completion from the
    constraints never changes a value that the search has assigned; and bits
    of a variable that masks force both to one and to zero, for which a search
    gives up, leave no model. *)
Theorem local_searches_sound cs original storage :
  (forall m, fallback_single_var_model cs = Some m -> eval_model_constraints (lookup_model m) cs = true) /\
  (forall m, fallback_bounded_model cs = Some m -> eval_model_constraints (lookup_model m) cs = true) /\
  (forall m, hard_arith_fallback_model cs = Some m -> eval_model_constraints (lookup_model m) cs = true) /\
  (forall m, checked_mul_guard_branch_model cs original storage = Some m -> eval_model_constraints (lookup_model m) original = true) /\
  (forall s vars m, 0 <= fs_max_assignments s -> snd (SFallback.search_model s vars m 0) <= fs_max_assignments s) /\
  (forall m r ok m' r', complete_fallback_support_model cs m r = (ok, m', r') -> m ⊆ m') /\
  (forall model var, (forall e v, get_var e = Some var -> denote_word model e = Some v -> v = model_value model var) ->
     hints_conflict (for_var var cs) = true -> ~ Forall (fun b => denote_bool model b = Some true) cs).
Proof.
  split_and!.
  - exact (single_satisfies cs).
  - exact (bounded_satisfies cs).
  - exact (hard_arith_satisfies cs).
  - exact (guard_satisfies cs original storage).
  - intros s vars m H. by apply search_limit.
  - intros m r ok m' r' E. pose proof (support_extends cs m r) as [H _]. by rewrite E in H.
  - intros model var Hn. by apply conflict_unsat.
Qed.
End SolverClaims.

(** ** Witnesses *)
#[local] Existing Instance evm_signed.
#[local] Existing Instance evm_signed_laws.
#[local] Existing Instance toy_hash.
#[local] Instance evm_signed_cmp : SignedCmpLaw.
Proof. by split. Qed.
#[local] Instance plain_parts : PolyParts := {| iter_terms := id; node_address := fun e => Z.of_nat (esize e) |}.
#[local] Instance plain_parts_laws : PolyLaws.
Proof. by split. Qed.

(** A tree of a condition, from which a hash without collisions. *)
Fixpoint word_tree (e : SymExpr) : gen_tree Z :=
  match e with
  | EConst v => GenNode 0 [GenLeaf (uval v)]
  | EVar s => GenNode 1 [GenLeaf (Zpos s)]
  | EGasLeft s => GenNode 2 [GenLeaf (Zpos s)]
  | EKeccak n l bs => GenNode 3 (GenLeaf (Zpos n) :: word_tree l :: map word_tree bs)
  | EHash n a bs => GenNode 4 (GenLeaf (Zpos n) :: GenLeaf (Z.of_nat a) :: map word_tree bs)
  | ENot v => GenNode 5 [word_tree v]
  | EBinOp op l r => GenNode 6 [GenLeaf (Z.of_N (expr_binop_key op)); word_tree l; word_tree r]
  | ETernOp op l r m => GenNode 7 [GenLeaf (Z.of_N (expr_ternop_key op)); word_tree l; word_tree r; word_tree m]
  | EIte c t f => GenNode 8 [bool_tree c; word_tree t; word_tree f]
  end
with bool_tree (b : SymBoolExpr) : gen_tree Z :=
  match b with
  | BConst v => GenNode 0 [GenLeaf (if v then 1 else 0)]
  | BNot v => GenNode 1 [bool_tree v]
  | BAnd vs => GenNode 2 (map bool_tree vs)
  | BCmp op l r => GenNode 3 [GenLeaf (Z.of_N (cmp_op_key op)); word_tree l; word_tree r]
  end.
Lemma map_tree_inj {A} (f : A -> gen_tree Z) xs ys : Forall (fun x => forall y, f x = f y -> x = y) xs -> map f xs = map f ys -> xs = ys.
Proof. intros H. revert ys. induction H as [|x xs Hx _ IH]; intros [|y ys]; try done. simpl. intros [= ?%Hx ?%IH]. congruence. Qed.
Lemma trees_injective : (forall e e', word_tree e = word_tree e' -> e = e') /\ (forall b b', bool_tree b = bool_tree b' -> b = b').
Proof.
  assert (Hop : forall op op', Z.of_N (expr_binop_key op) = Z.of_N (expr_binop_key op') -> op = op') by by intros [] [].
  assert (Hcmp : forall op op', Z.of_N (cmp_op_key op) = Z.of_N (cmp_op_key op') -> op = op') by by intros [] [].
  apply expr_bexpr_ind.
  - intros v []; try done. simpl. intros [= H]. f_equal. by apply uval_inj.
  - intros s []; try done. simpl. by intros [= ->].
  - intros s []; try done. simpl. by intros [= ->].
  - intros n l bs Hl Hb []; try done. simpl. intros [= -> ->%Hl ->%(map_tree_inj _ _ _ Hb)]. done.
  - intros n a bs Hb []; try done. simpl. intros [= -> ->%Nat2Z.inj ->%(map_tree_inj _ _ _ Hb)]. done.
  - intros v Hv []; try done. simpl. by intros [= ->%Hv].
  - intros op l r Hl Hr []; try done. simpl. by intros [= ->%Hop ->%Hl ->%Hr].
  - intros op l r m Hl Hr Hm [| | | | | | |op' | ]; try done. simpl. intros [= Ho ->%Hl ->%Hr ->%Hm]. f_equal. revert Ho. by destruct op, op'.
  - intros c t f Hc Ht Hf []; try done. simpl. by intros [= ->%Hc ->%Ht ->%Hf].
  - intros v [w| | |]; try done. simpl. intros [= H]. f_equal. by destruct v, w.
  - intros v Hv []; try done. simpl. by intros [= ->%Hv].
  - intros vs Hvs []; try done. simpl. by intros [= ->%(map_tree_inj _ _ _ Hvs)].
  - intros op l r Hl Hr []; try done. simpl. by intros [= ->%Hcmp ->%Hl ->%Hr].
Qed.
#[local] Instance tree_order : BoolOrder := {|
  SymNorm.stable_hash := fun b => Zpos (encode (bool_tree b));
  algorithm_name := fun a => if (a =? 0)%nat then "sha256"%string else "ripemd160"%string |}.
Lemma tree_order_law : order_law.
Proof. intros a b H _. simpl in H. injection H as H. by apply (inj encode), trees_injective in H. Qed.

(** Processes that know nothing, and inputs that can be replayed. *)
#[local] Instance no_process : SolverProcess := {| process := fun _ _ _ => PUnknown |}.
#[local] Instance no_process_laws : SolverProcessLaws.
Proof. by split. Qed.
#[local] Instance calldata_symbols : SymbolInfo := {| symbol_name := fun _ => "calldata"%string; is_replayable_input := fun _ => true |}.

(** [x < 5] and [10 < x]. *)
Definition contradiction : list SymBoolExpr := [BCmp Ult vx (EConst (U 5)); BCmp Ult (EConst (U 10)) vx].
Definition no_hash : SymExpr -> Prop := fun _ => False.
Lemma no_hash_faithful model : hashes_faithful model no_hash.
Proof. by split. Qed.
Definition above_ten : list SymBoolExpr := [BCmp Ult (EConst (U 10)) vx].
(** [x * x] and [y * (x * x + y)], which share the product. *)
Definition square : SymExpr := EBinOp Mul vx vx.
Definition shared_products : list SymBoolExpr :=
  [BCmp Ult vy (EBinOp Mul vy (EBinOp Add square (EBinOp Xor vy square))); BCmp Ult (EBinOp Xor vy square) (EBinOp Mul vy vx)].
(** A solver after two queries. *)
Definition used_solver : Solver :=
  snd (is_sat_with_replayable_storage 4 4 contradiction [] (snd (model_with_replayable_storage 4 4 above_ten [] (from_config 3)))).
Lemma used_reachable : reachable 4 4 3 used_solver.
Proof.
  unfold used_solver. set (s := snd (model_with_replayable_storage 4 4 above_ten [] (from_config 3))).
  apply (rtc_r _ s); [|apply step_is_sat]. apply rtc_once, step_model.
Qed.

Lemma unsat_answers_sound_witness :
  fst (is_sat_with_replayable_storage 4 4 contradiction [] used_solver) = inl false /\
  ~ Forall (fun b => denote_bool sample_model b = Some true) contradiction.
Proof.
  assert (E : fst (is_sat_with_replayable_storage 4 4 contradiction [] used_solver) = inl false) by (vm_compute; reflexivity). split; [exact E|].
  apply (proj1 (unsat_answers_sound 4 4 3 used_solver contradiction [] tree_order_law ltac:(lia) used_reachable)
    (snd (is_sat_with_replayable_storage 4 4 contradiction [] used_solver))) with (T := no_hash).
  - rewrite <- E. apply surjective_pairing.
  - apply no_hash_faithful.
  - repeat constructor.
  - assert (K : sat_query 4 4 contradiction = [BConst false]) by (vm_compute; reflexivity). rewrite K. repeat constructor.
Defined.

Lemma returned_models_satisfy_witness :
  match fst (model_with_replayable_storage 4 4 above_ten [] used_solver) with
  | inl m => Forall (fun b => denote_bool m b = Some true) above_ten
  | inr _ => False
  end.
Proof.
  pose proof (returned_models_satisfy 4 4 3 used_solver above_ten [] _ _ tree_order_law ltac:(lia) used_reachable (surjective_pairing _)) as (H & _ & _).
  assert (E : match fst (model_with_replayable_storage 4 4 above_ten [] used_solver) with inl _ => true | inr _ => false end = true) by (vm_compute; reflexivity).
  destruct (fst (model_with_replayable_storage 4 4 above_ten [] used_solver)) as [m|e]; [by apply H|discriminate E].
Defined.

Lemma solver_stays_within_limits_witness : queries used_solver = 2 /\ queries used_solver <= max_queries used_solver.
Proof.
  split; [vm_compute; reflexivity|]. exact (proj1 (proj2 (solver_stays_within_limits 4 4 3 used_solver tree_order_law ltac:(lia) used_reachable))).
Defined.

Lemma normalization_keeps_models_witness :
  Forall (fun b => denote_bool sample_model b = Some true)
    (fst (normalize_constraints_for_solver_cached 4 4 (above_ten ++ [BCmp Ult vy vx]) (mkNormCache [] []))).
Proof.
  apply (normalization_keeps_models 4 4 (above_ten ++ [BCmp Ult vy vx]) (mkNormCache [] []) sample_model no_hash);
    [by split|apply no_hash_faithful|repeat constructor|]. repeat constructor; vm_compute; reflexivity.
Defined.

(** Two definitions for the shared parts. *)
Lemma script_means_conjunction_witness :
  match write_smt_assertions shared_products with
  | inl script => length (definitions script) = 2%nat /\ script_val (fun _ => U 3) script = Some (forallb (smt_bool (fun _ => U 3)) shared_products)
  | inr _ => False
  end.
Proof.
  destruct (write_smt_assertions shared_products) as [script|e] eqn:E; [|vm_compute in E; discriminate E].
  split; [|by apply script_means_conjunction]. assert (L : match write_smt_assertions shared_products with inl s => length (definitions s) | inr _ => 0%nat end = 2%nat) by (vm_compute; reflexivity).
  by rewrite E in L.
Defined.

Lemma context_facts_hold_witness :
  let c := SCtx.from_constraints_with_lower_bounds above_ten 1 false in
  exists i, SBoundsOf.interval c (EBinOp And vx (EConst (U 1023))) = Some i /\ uval (wi_min i) <= uval (U 300) <= uval (wi_max i).
Proof.
  intros c. assert (E : is_Some (SBoundsOf.interval c (EBinOp And vx (EConst (U 1023))))) by (vm_compute; eauto). destruct E as [i E]. exists i. split; [exact E|].
  apply (proj1 (context_facts_hold sample_model above_ten 1 false (EBinOp And vx (EConst (U 1023))) ltac:(repeat constructor; vm_compute; reflexivity)) i (U 300) E).
  cbn [denote_word vx]. by_word.
Defined.

(** [y <= x] makes [y * 2 <= x * 2] redundant when the products fit. *)
Definition ordered_products : list SymBoolExpr :=
  [BCmp Ule vy vx; BCmp Ule vx (EConst (U 1000)); BNot (BCmp Ugt (EBinOp Mul vy vy) (EBinOp Mul vx vx))].
Lemma monotonic_products_sound_witness :
  length (remove_implied_monotonic_constraints ordered_products) = 2%nat /\
  (Forall (fun b => denote_bool sample_model b = Some true) (remove_implied_monotonic_constraints ordered_products) <->
   Forall (fun b => denote_bool sample_model b = Some true) ordered_products).
Proof.
  split; [vm_compute; reflexivity|]. apply (proj2 (monotonic_products_sound sample_model ordered_products)). repeat constructor; eexists; vm_compute; reflexivity.
Defined.

Lemma local_searches_sound_witness :
  match fallback_single_var_model above_ten with
  | Some m => eval_model_constraints (lookup_model m) above_ten = true
  | None => False
  end.
Proof.
  assert (E : match fallback_single_var_model above_ten with Some _ => true | None => false end = true) by (vm_compute; reflexivity).
  destruct (fallback_single_var_model above_ten) as [m|] eqn:F; [|discriminate E]. exact (proj1 (local_searches_sound above_ten above_ten []) m F).
Defined.
