(* ===== verification/Pool.v ===== *)
(** * Pool: the transaction pool of anvil

    Models crates/anvil/src/eth/pool/transactions.rs and pool/mod.rs.  A pool
    keeps transactions whose required markers are all satisfied in the ready
    queue and the others in the pending queue.  [HashMap]s are [gmap]s,
    [HashSet]s are [gset]s and [Arc]s are their contents.  The order in which a
    [HashSet] or [HashMap] is iterated is not specified by Rust: [IterOrder] is
    a parameter that may be any enumeration.  [assert!] and [expect] are the
    [Panic] of [Outcome].  The [added_at] time stamp, which is only printed, and
    the trace messages are left out. *)

From Stdlib Require Import ZArith Lia.
From stdpp Require Import base list gmap sets option strings.
From S2P Require Import Prelude.
Local Open Scope Z_scope.
Local Open Scope outcome_scope.

(** ** Data *)
Definition TxHash := Z.
Definition Address := Z.
(** A unique identifying marker of a transaction: bytes. *)
Definition TxMarker := list Z.

(** What the pool reads of a signed transaction. *)
Record PendingTransaction := {
  pt_hash : TxHash;
  pt_sender : Address;
  pt_nonce : Z;
  pt_max_fee_per_gas : Z
}.

Inductive TransactionOrder := Fifo | Fees.

Record PoolTransaction := {
  pending_transaction : PendingTransaction;
  requires : list TxMarker;
  provides : list TxMarker;
  priority : Z;
  is_replay : bool
}.

Definition hash (tx : PoolTransaction) : TxHash := pt_hash (pending_transaction tx).
Definition max_fee_per_gas (tx : PoolTransaction) : Z := pt_max_fee_per_gas (pending_transaction tx).
Definition sender (tx : PoolTransaction) : Address := pt_sender (pending_transaction tx).

Definition order_priority (order : TransactionOrder) (tx : PendingTransaction) : Z :=
  match order with Fifo => 0 | Fees => pt_max_fee_per_gas tx end.

(** [to_lowercase] on the ASCII letters; no other character has a lower case
    that occurs in the two names. *)
Definition lower_ascii (c : Ascii.ascii) : Ascii.ascii :=
  let n := Ascii.nat_of_ascii c in
  if ((65 <=? n) && (n <=? 90))%nat then Ascii.ascii_of_nat (n + 32) else c.
Fixpoint to_lowercase (s : string) : string :=
  match s with
  | EmptyString => EmptyString
  | String c r => String (lower_ascii c) (to_lowercase r)
  end.
Definition order_from_str (s : string) : option TransactionOrder :=
  let s := to_lowercase s in
  if decide (s = "fees"%string) then Some Fees
  else if decide (s = "fifo"%string) then Some Fifo
  else None.

Inductive PoolError :=
  | CyclicTransaction
  | ReplacementUnderpriced (hash : TxHash)
  | AlreadyImported (hash : TxHash).

(** [to_marker]: 8 little-endian bytes of the nonce, then the 20 bytes of the
    address. *)
Fixpoint le_bytes (n : nat) (z : Z) : list Z :=
  match n with O => [] | S n' => z mod 256 :: le_bytes n' (z / 256) end.
Definition to_marker (nonce : Z) (from : Address) : TxMarker :=
  le_bytes 8 nonce ++ rev (le_bytes 20 from).

(** What a transaction of [from] waits for, given the nonce on chain. *)
Definition required_marker (provided_nonce on_chain_nonce : Z) (from : Address) : list TxMarker :=
  if provided_nonce =? on_chain_nonce then []
  else let prev_nonce := Z.max 0 (provided_nonce - 1) in
       if on_chain_nonce <=? prev_nonce then [to_marker prev_nonce from] else [].

(** The pool transaction that [add_pending_transaction] submits, for an
    account whose nonces are sequential (no Tempo or Base nonce lanes). *)
Definition pool_transaction (order : TransactionOrder) (on_chain_nonce : Z) (tx : PendingTransaction)
  : PoolTransaction :=
  {| pending_transaction := tx;
     requires := required_marker (pt_nonce tx) on_chain_nonce (pt_sender tx);
     provides := [to_marker (pt_nonce tx) (pt_sender tx)];
     priority := order_priority order tx;
     is_replay := false |}.

(** Iteration orders. *)
Class IterOrder := {
  iter_hashes : gset TxHash -> list TxHash;
  iter_markers : gset TxMarker -> list TxMarker
}.
Class IterOrderLaws `{IterOrder} := {
  iter_hashes_perm : forall s, iter_hashes s ≡ₚ elements s;
  iter_markers_perm : forall s, iter_markers s ≡ₚ elements s
}.

(** ** The pending queue *)
Record PendingPoolTransaction := {
  ppt_transaction : PoolTransaction;
  missing_markers : gset TxMarker
}.

Definition new_pending (tx : PoolTransaction) (provided : gmap TxMarker TxHash) : PendingPoolTransaction :=
  {| ppt_transaction := tx;
     missing_markers := list_to_set (filter (fun m => provided !! m = None) (requires tx)) |}.

Definition mark (marker : TxMarker) (tx : PendingPoolTransaction) : PendingPoolTransaction :=
  {| ppt_transaction := ppt_transaction tx; missing_markers := missing_markers tx ∖ {[marker]} |}.

Definition is_ready (tx : PendingPoolTransaction) : bool := bool_decide (missing_markers tx = ∅).

Module Pending.
Record PendingTransactions := {
  required_markers : gmap TxMarker (gset TxHash);
  waiting_markers : gmap (list TxMarker) TxHash;
  waiting_queue : gmap TxHash PendingPoolTransaction
}.

Definition empty : PendingTransactions :=
  {| required_markers := ∅; waiting_markers := ∅; waiting_queue := ∅ |}.

Definition contains (st : PendingTransactions) (h : TxHash) : bool :=
  bool_decide (is_Some (waiting_queue st !! h)).

Section Ops.
Context `{IterOrder}.

Definition transactions (st : PendingTransactions) : list PoolTransaction :=
  omap (fun h => ppt_transaction <$> waiting_queue st !! h) (iter_hashes (dom (waiting_queue st))).

(** The body of the loop over the hashes that wait for [m]. *)
Definition unlock_one (m : TxMarker) (h : TxHash)
    (acc : PendingTransactions * list PendingPoolTransaction)
  : Outcome (PendingTransactions * list PendingPoolTransaction) :=
  let '(st, unlocked) := acc in
  match waiting_queue st !! h with
  | None => Panic
  | Some tx =>
      let tx := mark m tx in
      if is_ready tx then
        Ret ({| required_markers := required_markers st;
                waiting_markers := delete (provides (ppt_transaction tx)) (waiting_markers st);
                waiting_queue := delete h (waiting_queue st) |}, unlocked ++ [tx])
      else
        Ret ({| required_markers := required_markers st;
                waiting_markers := waiting_markers st;
                waiting_queue := <[h := tx]> (waiting_queue st) |}, unlocked)
  end.

Definition unlock_marker (m : TxMarker)
    (acc : PendingTransactions * list PendingPoolTransaction)
  : Outcome (PendingTransactions * list PendingPoolTransaction) :=
  let '(st, unlocked) := acc in
  match required_markers st !! m with
  | None => Ret (st, unlocked)
  | Some hashes =>
      ofold (unlock_one m) (iter_hashes hashes)
        ({| required_markers := delete m (required_markers st);
            waiting_markers := waiting_markers st;
            waiting_queue := waiting_queue st |}, unlocked)
  end.

Definition mark_and_unlock (markers : list TxMarker) (st : PendingTransactions)
  : Outcome (PendingTransactions * list PendingPoolTransaction) :=
  ofold unlock_marker markers (st, []).

Definition remove_required (h : TxHash) (m : TxMarker) (required : gmap TxMarker (gset TxHash))
  : gmap TxMarker (gset TxHash) :=
  match required !! m with
  | None => required
  | Some s => if decide (s ∖ {[h]} = ∅) then delete m required else <[m := s ∖ {[h]}]> required
  end.

Definition remove_one (acc : PendingTransactions * list PoolTransaction) (h : TxHash)
  : PendingTransactions * list PoolTransaction :=
  let '(st, removed) := acc in
  match waiting_queue st !! h with
  | None => (st, removed)
  | Some tx =>
      ({| required_markers :=
            foldl (fun req m => remove_required h m req) (required_markers st)
              (iter_markers (missing_markers tx));
          waiting_markers := delete (provides (ppt_transaction tx)) (waiting_markers st);
          waiting_queue := delete h (waiting_queue st) |}, removed ++ [ppt_transaction tx])
  end.

Definition remove (hashes : list TxHash) (st : PendingTransactions)
  : PendingTransactions * list PoolTransaction :=
  foldl remove_one (st, []) hashes.

(** *** Transitive dependents *)
Definition required_by (st : PendingTransactions) : gmap TxMarker (list TxHash) :=
  foldl (fun acc h =>
    match waiting_queue st !! h with
    | None => acc
    | Some tx => foldl (fun acc m => <[m := default [] (acc !! m) ++ [h]]> acc) acc (requires (ppt_transaction tx))
    end) ∅ (iter_hashes (dom (waiting_queue st))).

(** [if to_remove.insert(hash) && let Some(tx) = ..]: [markers] has its top first. *)
Definition collect_dependent (st : PendingTransactions)
    (acc : gset TxHash * list TxMarker) (h : TxHash) : gset TxHash * list TxMarker :=
  let '(to_remove, markers) := acc in
  if decide (h ∈ to_remove) then (to_remove, markers)
  else ({[h]} ∪ to_remove,
        match waiting_queue st !! h with
        | Some tx => rev (provides (ppt_transaction tx)) ++ markers
        | None => markers
        end).

Record DependentState := {
  dep_required_by : gmap TxMarker (list TxHash);
  dep_to_remove : gset TxHash;
  dep_markers : list TxMarker
}.

Definition dependents_step (st : PendingTransactions) (s : DependentState)
  : DependentState + gset TxHash :=
  match dep_markers s with
  | [] => inr (dep_to_remove s)
  | m :: rest =>
      inl match dep_required_by s !! m with
          | None => {| dep_required_by := dep_required_by s; dep_to_remove := dep_to_remove s;
                       dep_markers := rest |}
          | Some dependents =>
              let '(to_remove, markers) := foldl (collect_dependent st) (dep_to_remove s, rest) dependents in
              {| dep_required_by := delete m (dep_required_by s); dep_to_remove := to_remove;
                 dep_markers := markers |}
          end
  end.

(** Markers that removing waiting transactions can still push. *)
Definition provided_total (st : PendingTransactions) (hs : gset TxHash) : nat :=
  sum_list_with (fun h => match waiting_queue st !! h with
                          | Some tx => length (provides (ppt_transaction tx)) | None => O end)
    (elements hs).

Definition dependents_fuel (st : PendingTransactions) (markers : list TxMarker) : nat :=
  S (length markers + provided_total st (dom (waiting_queue st))).

(** [None] would be a loop that does not end. *)
Definition remove_with_dependents (hashes : list TxHash) (invalidated : list TxMarker)
    (st : PendingTransactions) : option (PendingTransactions * list PoolTransaction) :=
  let '(to_remove, markers) := foldl (collect_dependent st) (∅, rev invalidated) hashes in
  match iterate (dependents_step st) (dependents_fuel st (rev invalidated))
          {| dep_required_by := required_by st; dep_to_remove := to_remove; dep_markers := markers |} with
  | Some to_remove => Some (remove (iter_hashes to_remove) st)
  | None => None
  end.

(** The end of [add_transaction]: marker bookkeeping and the queue. *)
Definition insert_tx (tx : PendingPoolTransaction) (st : PendingTransactions) : PendingTransactions :=
  let t := ppt_transaction tx in
  {| required_markers :=
       foldl (fun req m => <[m := {[hash t]} ∪ default ∅ (req !! m)]> req) (required_markers st)
         (iter_markers (missing_markers tx));
     waiting_markers := <[provides t := hash t]> (waiting_markers st);
     waiting_queue := <[hash t := tx]> (waiting_queue st) |}.

Definition add_transaction (tx : PendingPoolTransaction) (st : PendingTransactions)
  : Outcome (PendingTransactions + PoolError) :=
  let t := ppt_transaction tx in
  if is_ready tx then Panic
  else if contains st (hash t) then Panic
  else
    match waiting_markers st !! provides t ≫= (fun h => waiting_queue st !! h) with
    | Some replace =>
        if max_fee_per_gas t <=? max_fee_per_gas (ppt_transaction replace)
        then Ret (inr (ReplacementUnderpriced (hash t)))
        else Ret (inl (insert_tx tx (fst (remove [hash (ppt_transaction replace)] st))))
    | None => Ret (inl (insert_tx tx st))
    end.
End Ops.
End Pending.

(** ** The ready queue *)
Record PoolTransactionRef := { ref_transaction : PoolTransaction; ref_id : Z }.

(** [Ord for PoolTransactionRef]: by priority, then the older (smaller) id is
    the greater. *)
Definition ref_cmp (a b : PoolTransactionRef) : comparison :=
  match Z.compare (priority (ref_transaction a)) (priority (ref_transaction b)) with
  | Eq => Z.compare (ref_id b) (ref_id a)
  | c => c
  end.

(** A [BTreeSet<PoolTransactionRef>]: its elements in ascending order. *)
Module BTree.
Definition t := list PoolTransactionRef.
(** [insert] keeps the element that is there. *)
Fixpoint insert (x : PoolTransactionRef) (l : t) : t :=
  match l with
  | [] => [x]
  | y :: r => match ref_cmp x y with
              | Lt => x :: l
              | Eq => l
              | Gt => y :: insert x r
              end
  end.
Fixpoint remove (x : PoolTransactionRef) (l : t) : t :=
  match l with
  | [] => []
  | y :: r => match ref_cmp x y with
              | Lt => l
              | Eq => r
              | Gt => y :: remove x r
              end
  end.
(** [iter().next_back()]. *)
Definition next_back (l : t) : option PoolTransactionRef := last l.
End BTree.

(** [Vec::swap_remove] at the first position of [h], when there is one. *)
Fixpoint position (h : TxHash) (l : list TxHash) : option nat :=
  match l with
  | [] => None
  | x :: r => if decide (x = h) then Some O else S <$> position h r
  end.
Definition swap_remove (i : nat) (l : list TxHash) : list TxHash :=
  match last l with
  | None => l
  | Some x => take (length l - 1) (<[i := x]> l)
  end.
Definition remove_unlock (h : TxHash) (l : list TxHash) : list TxHash :=
  match position h l with None => l | Some i => swap_remove i l end.

Module Ready.
Record ReadyTransaction := {
  transaction : PoolTransactionRef;
  unlocks : list TxHash;
  requires_offset : Z
}.

Definition rt_tx (rt : ReadyTransaction) : PoolTransaction := ref_transaction (transaction rt).

Record ReadyTransactions := {
  id : Z;
  provided_markers : gmap TxMarker TxHash;
  ready_tx : gmap TxHash ReadyTransaction;
  independent_transactions : BTree.t
}.

Definition empty : ReadyTransactions :=
  {| id := 0; provided_markers := ∅; ready_tx := ∅; independent_transactions := [] |}.

(** [clear] keeps the id counter. *)
Definition clear (st : ReadyTransactions) : ReadyTransactions :=
  {| id := id st; provided_markers := ∅; ready_tx := ∅; independent_transactions := [] |}.

Definition contains (st : ReadyTransactions) (h : TxHash) : bool :=
  bool_decide (is_Some (ready_tx st !! h)).

Definition u64_modulus : Z := 2 ^ 64.
Definition next_id (st : ReadyTransactions) : Z := (id st + 1) mod u64_modulus.

Definition set_unlocks (rt : ReadyTransaction) (u : list TxHash) : ReadyTransaction :=
  {| transaction := transaction rt; unlocks := u; requires_offset := requires_offset rt |}.

(** *** Iteration in block order *)
Record TransactionsIterator := {
  all : gmap TxHash ReadyTransaction;
  awaiting : gmap TxHash (Z * PoolTransactionRef);
  independent : BTree.t
}.

Definition get_transactions (st : ReadyTransactions) : TransactionsIterator :=
  {| all := ready_tx st; awaiting := ∅; independent := independent_transactions st |}.

Definition independent_or_awaiting (satisfied : Z) (r : PoolTransactionRef) (it : TransactionsIterator)
  : TransactionsIterator :=
  if Z.of_nat (length (requires (ref_transaction r))) <=? satisfied then
    {| all := all it; awaiting := awaiting it; independent := BTree.insert r (independent it) |}
  else
    {| all := all it; awaiting := <[hash (ref_transaction r) := (satisfied, r)]> (awaiting it);
       independent := independent it |}.

Definition unlock_next (it : TransactionsIterator) (h : TxHash) : TransactionsIterator :=
  match awaiting it !! h with
  | Some (satisfied, r) =>
      independent_or_awaiting (satisfied + 1) r
        {| all := all it; awaiting := delete h (awaiting it); independent := independent it |}
  | None =>
      match all it !! h with
      | Some next => independent_or_awaiting (requires_offset next + 1) (transaction next) it
      | None => it
      end
  end.

(** One round of the loop of [next]: [inr None] is the end of the iterator. *)
Definition next_step (it : TransactionsIterator)
  : TransactionsIterator + option (PoolTransaction * TransactionsIterator) :=
  match BTree.next_back (independent it) with
  | None => inr None
  | Some best =>
      let it := {| all := all it; awaiting := awaiting it;
                   independent := BTree.remove best (independent it) |} in
      match all it !! hash (ref_transaction best) with
      | None => inl it
      | Some ready => inr (Some (ref_transaction best, foldl unlock_next it (unlocks ready)))
      end
  end.

(** Every round that does not return removes an independent transaction. *)
Definition next (it : TransactionsIterator) : option (option (PoolTransaction * TransactionsIterator)) :=
  iterate next_step (S (length (independent it))) it.

(** The first [n] transactions of the iterator. *)
Fixpoint take_transactions (n : nat) (it : TransactionsIterator) : list PoolTransaction :=
  match n with
  | O => []
  | S n' => match next it with
            | Some (Some (tx, it')) => tx :: take_transactions n' it'
            | _ => []
            end
  end.

(** *** Removal *)
Record RemoveState := {
  rm_hashes : list TxHash; (* top first *)
  rm_ready : ReadyTransactions;
  rm_removed : list PoolTransaction
}.

(** Drop [h] from the unlocks of the provider of [m]. *)
Definition unlink (h : TxHash) (st : ReadyTransactions) (m : TxMarker) : ReadyTransactions :=
  match provided_markers st !! m ≫= (fun p => (p,.) <$> ready_tx st !! p) with
  | None => st
  | Some (p, rt) =>
      {| id := id st; provided_markers := provided_markers st;
         ready_tx := <[p := set_unlocks rt (remove_unlock h (unlocks rt))]> (ready_tx st);
         independent_transactions := independent_transactions st |}
  end.

Definition delete_marks (marks : list TxMarker) (provided : gmap TxMarker TxHash) : gmap TxMarker TxHash :=
  foldl (fun p m => delete m p) provided marks.

Definition invalidated (marker_filter : option (gset TxMarker)) (tx : PoolTransaction) : list TxMarker :=
  match marker_filter with
  | None => provides tx
  | Some f => filter (fun m => m ∉ f) (provides tx)
  end.

(** The queue without the entry [rt] of [h]. *)
Definition remove_entry (marker_filter : option (gset TxMarker)) (h : TxHash) (rt : ReadyTransaction)
    (st : ReadyTransactions) : ReadyTransactions :=
  let tx := rt_tx rt in
  let st := {| id := id st;
               provided_markers := delete_marks (invalidated marker_filter tx) (provided_markers st);
               ready_tx := delete h (ready_tx st);
               independent_transactions := independent_transactions st |} in
  let st := foldl (unlink h) st (requires tx) in
  {| id := id st; provided_markers := provided_markers st; ready_tx := ready_tx st;
     independent_transactions := BTree.remove (transaction rt) (independent_transactions st) |}.

Definition remove_step (marker_filter : option (gset TxMarker)) (s : RemoveState)
  : RemoveState + (ReadyTransactions * list PoolTransaction) :=
  match rm_hashes s with
  | [] => inr (rm_ready s, rm_removed s)
  | h :: rest =>
      inl match ready_tx (rm_ready s) !! h with
          | None => {| rm_hashes := rest; rm_ready := rm_ready s; rm_removed := rm_removed s |}
          | Some rt =>
              {| rm_hashes := if bool_decide (invalidated marker_filter (rt_tx rt) = []) then rest
                              else rev (unlocks rt) ++ rest;
                 rm_ready := remove_entry marker_filter h rt (rm_ready s);
                 rm_removed := rm_removed s ++ [rt_tx rt] |}
          end
  end.

(** Unlocks that removals can still push. *)
Definition unlocks_total (st : ReadyTransactions) : nat :=
  msum (fun rt => length (unlocks rt)) (ready_tx st).

Definition remove_with_markers (hashes : list TxHash) (marker_filter : option (gset TxMarker))
    (st : ReadyTransactions) : option (ReadyTransactions * list PoolTransaction) :=
  iterate (remove_step marker_filter) (S (length hashes + unlocks_total st))
    {| rm_hashes := rev hashes; rm_ready := st; rm_removed := [] |}.

Definition clear_transactions (hashes : list TxHash) (st : ReadyTransactions)
  : option (ReadyTransactions * list PoolTransaction) :=
  remove_with_markers hashes None st.
(** *** Pruning *)
Record PruneState := {
  pr_remove : list TxMarker; (* top first *)
  pr_ready : ReadyTransactions;
  pr_removed : list PoolTransaction
}.

(** The closure [previous_markers] and the loop over the required markers. *)
Definition prune_previous (h : TxHash) (acc : ReadyTransactions * list TxMarker) (m : TxMarker)
  : ReadyTransactions * list TxMarker :=
  let '(st, remove) := acc in
  match provided_markers st !! m ≫= (fun p => (p,.) <$> ready_tx st !! p) with
  | None => (st, remove)
  | Some (p, rt) =>
      let u := remove_unlock h (unlocks rt) in
      ({| id := id st; provided_markers := provided_markers st;
          ready_tx := <[p := set_unlocks rt u]> (ready_tx st);
          independent_transactions := independent_transactions st |},
       if bool_decide (u = []) then rev (provides (rt_tx rt)) ++ remove else remove)
  end.

Definition bump_offset (st : ReadyTransactions) (h : TxHash) : ReadyTransactions :=
  match ready_tx st !! h with
  | None => st
  | Some rt =>
      let rt := {| transaction := transaction rt; unlocks := unlocks rt;
                   requires_offset := requires_offset rt + 1 |} in
      {| id := id st; provided_markers := provided_markers st; ready_tx := <[h := rt]> (ready_tx st);
         independent_transactions :=
           if requires_offset rt =? Z.of_nat (length (requires (rt_tx rt)))
           then BTree.insert (transaction rt) (independent_transactions st)
           else independent_transactions st |}
  end.

(** The loop that takes the markers of a pruned transaction away; the
    assertion says that each of them belonged to it. *)
Definition prune_provided (current : TxMarker) (h : TxHash) (m : TxMarker)
    (provided : gmap TxMarker TxHash) : Outcome (gmap TxMarker TxHash) :=
  if decide (provided !! m = if decide (current = m) then None else Some h)
  then Ret (delete m provided) else Panic.

(** The queue without the entry [rt] of [h0], which provides [m]; the markers
    that are left to prune. *)
Definition prune_entry (m : TxMarker) (h0 : TxHash) (rt : ReadyTransaction) (rest : list TxMarker)
    (st : ReadyTransactions) : Outcome (ReadyTransactions * list TxMarker) :=
  let tx := rt_tx rt in
  let st2 := {| id := id st; provided_markers := delete m (provided_markers st);
                ready_tx := delete h0 (ready_tx st);
                independent_transactions := BTree.remove (transaction rt) (independent_transactions st) |} in
  let '(st3, remove) := foldl (prune_previous (hash tx)) (st2, rest) (requires tx) in
  let st4 := foldl bump_offset st3 (unlocks rt) in
  let* provided := ofold (prune_provided m (hash tx)) (provides tx) (provided_markers st4) in
  Ret ({| id := id st4; provided_markers := provided; ready_tx := ready_tx st4;
          independent_transactions := independent_transactions st4 |}, remove).

Definition prune_step (s : PruneState)
  : PruneState + Outcome (ReadyTransactions * list PoolTransaction) :=
  match pr_remove s with
  | [] => inr (Ret (pr_ready s, pr_removed s))
  | m :: rest =>
      let st := pr_ready s in
      match provided_markers st !! m ≫= (fun h => (h,.) <$> ready_tx st !! h) with
      | None =>
          inl {| pr_remove := rest;
                 pr_ready := {| id := id st; provided_markers := delete m (provided_markers st);
                                ready_tx := ready_tx st;
                                independent_transactions := independent_transactions st |};
                 pr_removed := pr_removed s |}
      | Some (h0, rt) =>
          match prune_entry m h0 rt rest st with
          | Panic => inr Panic
          | Ret (st, remove) =>
              inl {| pr_remove := remove; pr_ready := st; pr_removed := pr_removed s ++ [rt_tx rt] |}
          end
      end
  end.

(** Markers that removing ready transactions can still push: a removal looks
    at each required marker once and pushes the markers of its provider. *)
Definition max_provides (ready : gmap TxHash ReadyTransaction) : nat :=
  map_fold (fun _ rt n => Nat.max (length (provides (rt_tx rt))) n) O ready.
Definition requires_total (ready : gmap TxHash ReadyTransaction) : nat :=
  msum (fun rt => length (requires (rt_tx rt))) ready.
Definition prune_fuel (st : ReadyTransactions) : nat :=
  (2 + requires_total (ready_tx st) * max_provides (ready_tx st))%nat.

Definition prune_tags (marker : TxMarker) (st : ReadyTransactions)
  : option (Outcome (ReadyTransactions * list PoolTransaction)) :=
  iterate prune_step (prune_fuel st)
    {| pr_remove := [marker]; pr_ready := st; pr_removed := [] |}.

(** *** Insertion *)
Section Insert.
Context `{IterOrder}.

Definition replaced_hashes (tx : PoolTransaction) (st : ReadyTransactions) : gset TxHash :=
  list_to_set (omap (fun m => provided_markers st !! m) (provides tx)).

(** The loop over the transactions to replace: the unlocked hashes, or the
    underpriced error. *)
Fixpoint check_replaced (tx : PoolTransaction) (unlocked : list TxHash) (rts : list ReadyTransaction)
  : list TxHash + PoolError :=
  match rts with
  | [] => inl unlocked
  | rt :: rest =>
      if bool_decide (provides (rt_tx rt) = provides tx) &&
         (max_fee_per_gas tx <=? max_fee_per_gas (rt_tx rt))
      then inr (ReplacementUnderpriced (hash tx))
      else check_replaced tx (unlocked ++ unlocks rt) rest
  end.

(** [None] would be a removal loop that does not end. *)
Definition replaced_transactions (tx : PoolTransaction) (st : ReadyTransactions)
  : option ((ReadyTransactions * list PoolTransaction * list TxHash) + PoolError) :=
  let hashes := replaced_hashes tx st in
  if decide (hashes = ∅) then Some (inl (st, [], []))
  else
    match check_replaced tx [] (omap (fun h => ready_tx st !! h) (iter_hashes hashes)) with
    | inr e => Some (inr e)
    | inl unlocked =>
        match remove_with_markers (iter_hashes hashes) (Some (list_to_set (provides tx))) st with
        | None => None
        | Some (st, removed) => Some (inl (st, removed, unlocked))
        end
    end.

(** Links from the providers of the required markers. *)
Definition link (h : TxHash) (m : TxMarker) (acc : gmap TxHash ReadyTransaction * bool * Z)
    (provided : gmap TxMarker TxHash) : Outcome (gmap TxHash ReadyTransaction * bool * Z) :=
  let '(ready, independent, offset) := acc in
  match provided !! m with
  | Some other =>
      match ready !! other with
      | None => Panic
      | Some rt => Ret (<[other := set_unlocks rt (unlocks rt ++ [h])]> ready, false, offset)
      end
  | None => Ret (ready, independent, offset + 1)
  end.

Definition insert_marks (marks : list TxMarker) (h : TxHash) (provided : gmap TxMarker TxHash)
  : gmap TxMarker TxHash := foldl (fun p m => <[m := h]> p) provided marks.

Definition insert_ready (tx : PoolTransaction) (new_unlocks : list TxHash) (st : ReadyTransactions)
  : Outcome ReadyTransactions :=
  let i := id st in
  let h := hash tx in
  let* (ready, independent, offset) :=
    ofold (fun m acc => link h m acc (provided_markers st)) (requires tx) (ready_tx st, true, 0) in
  let r := {| ref_transaction := tx; ref_id := i |} in
  Ret {| id := next_id st;
         provided_markers := insert_marks (provides tx) h (provided_markers st);
         ready_tx := <[h := {| transaction := r; unlocks := new_unlocks; requires_offset := offset |}]> ready;
         independent_transactions :=
           if independent then BTree.insert r (independent_transactions st)
           else independent_transactions st |}.

(** The new state and the replaced transactions, or the error (which leaves
    the state as it was). *)
Definition add_transaction (ptx : PendingPoolTransaction) (st : ReadyTransactions)
  : option (Outcome ((ReadyTransactions * list PoolTransaction) + PoolError)) :=
  let tx := ppt_transaction ptx in
  if negb (is_ready ptx) then Some Panic
  else if contains st (hash tx) then Some Panic
  else
    match replaced_transactions tx st with
    | None => None
    | Some (inr e) => Some (Ret (inr e))
    | Some (inl (st, removed, new_unlocks)) =>
        Some (let* st := insert_ready tx new_unlocks st in Ret (inl (st, removed)))
    end.
End Insert.
End Ready.

(** ** The pool *)
Module Inner.
Record PoolInner := {
  ready_transactions : Ready.ReadyTransactions;
  pending_transactions : Pending.PendingTransactions
}.

Definition empty : PoolInner :=
  {| ready_transactions := Ready.empty; pending_transactions := Pending.empty |}.

Definition clear (p : PoolInner) : PoolInner :=
  {| ready_transactions := Ready.clear (ready_transactions p); pending_transactions := Pending.empty |}.

Definition contains (p : PoolInner) (h : TxHash) : bool :=
  Pending.contains (pending_transactions p) h || Ready.contains (ready_transactions p) h.

Definition get_transaction (p : PoolInner) (h : TxHash) : option PendingTransaction :=
  match Pending.waiting_queue (pending_transactions p) !! h with
  | Some tx => Some (pending_transaction (ppt_transaction tx))
  | None => (fun rt => pending_transaction (Ready.rt_tx rt)) <$> Ready.ready_tx (ready_transactions p) !! h
  end.

(** The outcome of an insertion into the ready queue. *)
Record AddedReady := {
  added_hash : TxHash;
  promoted : list TxHash;
  discarded : list TxHash;
  replaced : list PoolTransaction  (* [removed] *)
}.

Inductive AddedTransaction :=
  | AddedToReady (r : AddedReady)
  | AddedToPending (h : TxHash).

Definition set_pool (r : Ready.ReadyTransactions) (q : Pending.PendingTransactions) : PoolInner :=
  {| ready_transactions := r; pending_transactions := q |}.

Section Ops.
Context `{IterOrder}.

(** [None] would be a removal loop that does not end. *)
Definition remove_invalid (hashes : list TxHash) (p : PoolInner) : option (PoolInner * list PoolTransaction) :=
  if bool_decide (hashes = []) then Some (p, [])
  else match Ready.remove_with_markers hashes None (ready_transactions p) with
       | None => None
       | Some (r, removed) =>
           let '(q, removed') := Pending.remove hashes (pending_transactions p) in
           Some (set_pool r q, removed ++ removed')
       end.

Definition drop_transaction (h : TxHash) (p : PoolInner) : option (PoolInner * option PoolTransaction) :=
  match Ready.remove_with_markers [h] None (ready_transactions p) with
  | None => None
  | Some (r, removed) =>
      match Pending.remove_with_dependents [h] (concat (map provides removed)) (pending_transactions p) with
      | None => None
      | Some (q, removed') =>
          Some (set_pool r q, snd <$> list_find (fun tx => hash tx = h) (removed ++ removed'))
      end
  end.

(** *** Adding a ready transaction *)
Record AddState := {
  ad_queue : list PendingPoolTransaction;
  ad_pool : PoolInner;
  ad_ready : AddedReady;
  ad_is_new : bool
}.

(** A step of the queue; the outer [None] is an inner loop that does not end. *)
Definition add_step (s : AddState) : AddState + option (Outcome (PoolInner * (AddedReady + PoolError))) :=
  match ad_queue s with
  | [] => inr (Some (Ret (ad_pool s, inl (ad_ready s))))
  | current :: rest =>
      let tx := ppt_transaction current in
      match Pending.mark_and_unlock (provides tx) (pending_transactions (ad_pool s)) with
      | Panic => inr (Some Panic)
      | Ret (q, unlocked) =>
          match Ready.add_transaction current (ready_transactions (ad_pool s)) with
          | None => inr None
          | Some Panic => inr (Some Panic)
          | Some (Ret (inl (r, replaced_txs))) =>
              inl {| ad_queue := rest ++ unlocked;
                     ad_pool := set_pool r q;
                     ad_ready := {| added_hash := added_hash (ad_ready s);
                                    promoted := if ad_is_new s then promoted (ad_ready s)
                                                else promoted (ad_ready s) ++ [hash tx];
                                    discarded := discarded (ad_ready s);
                                    replaced := replaced (ad_ready s) ++ replaced_txs |};
                     ad_is_new := false |}
          | Some (Ret (inr e)) =>
              let pool := set_pool (ready_transactions (ad_pool s)) q in
              if ad_is_new s then inr (Some (Ret (pool, inr e)))
              else inl {| ad_queue := rest ++ unlocked;
                          ad_pool := pool;
                          ad_ready := {| added_hash := added_hash (ad_ready s);
                                         promoted := promoted (ad_ready s);
                                         discarded := discarded (ad_ready s) ++ [hash tx];
                                         replaced := replaced (ad_ready s) |};
                          ad_is_new := false |}
          end
      end
  end.

Definition add_ready_transaction (ptx : PendingPoolTransaction) (p : PoolInner)
  : option (Outcome (PoolInner * (AddedTransaction + PoolError))) :=
  let h := hash (ppt_transaction ptx) in
  match iterate add_step (3 + size (Pending.waiting_queue (pending_transactions p)))
          {| ad_queue := [ptx]; ad_pool := p;
             ad_ready := {| added_hash := h; promoted := []; discarded := []; replaced := [] |};
             ad_is_new := true |} with
  | None | Some None => None
  | Some (Some Panic) => Some Panic
  | Some (Some (Ret (p, inr e))) => Some (Ret (p, inr e))
  | Some (Some (Ret (p, inl ready))) =>
      if existsb (fun tx => hash tx =? h) (replaced ready) then
        match Ready.clear_transactions (promoted ready) (ready_transactions p) with
        | None => None
        | Some (r, _) => Some (Ret (set_pool r (pending_transactions p), inr CyclicTransaction))
        end
      else Some (Ret (p, inl (AddedToReady ready)))
  end.

Definition add_transaction (tx : PoolTransaction) (p : PoolInner)
  : option (Outcome (PoolInner * (AddedTransaction + PoolError))) :=
  if contains p (hash tx) then Some (Ret (p, inr (AlreadyImported (hash tx))))
  else
    let ptx := new_pending tx (Ready.provided_markers (ready_transactions p)) in
    if negb (is_ready ptx) then
      Some (let* r := Pending.add_transaction ptx (pending_transactions p) in
            match r with
            | inl q => Ret (set_pool (ready_transactions p) q, inl (AddedToPending (hash tx)))
            | inr e => Ret (p, inr e)
            end)
    else add_ready_transaction ptx p.

(** *** Pruning *)
Record PruneResult := {
  prune_promoted : list AddedTransaction;
  prune_failed : list TxHash;
  prune_pruned : list PoolTransaction
}.

Fixpoint prune_loop (markers : list TxMarker) (p : PoolInner)
    (imports : list PendingPoolTransaction) (pruned : list PoolTransaction)
  : option (Outcome (PoolInner * list PendingPoolTransaction * list PoolTransaction)) :=
  match markers with
  | [] => Some (Ret (p, imports, pruned))
  | m :: rest =>
      match Pending.mark_and_unlock [m] (pending_transactions p) with
      | Panic => Some Panic
      | Ret (q, unlocked) =>
          match Ready.prune_tags m (ready_transactions p) with
          | None => None
          | Some Panic => Some Panic
          | Some (Ret (r, removed)) =>
              prune_loop rest (set_pool r q) (imports ++ unlocked) (pruned ++ removed)
          end
      end
  end.

Fixpoint import_loop (imports : list PendingPoolTransaction) (p : PoolInner)
    (done : list AddedTransaction) (failed : list TxHash)
  : option (Outcome (PoolInner * list AddedTransaction * list TxHash)) :=
  match imports with
  | [] => Some (Ret (p, done, failed))
  | tx :: rest =>
      match add_ready_transaction tx p with
      | None => None
      | Some Panic => Some Panic
      | Some (Ret (p, inl res)) => import_loop rest p (done ++ [res]) failed
      | Some (Ret (p, inr _)) => import_loop rest p done (failed ++ [hash (ppt_transaction tx)])
      end
  end.

Definition prune_markers (markers : list TxMarker) (p : PoolInner)
  : option (Outcome (PoolInner * PruneResult)) :=
  match prune_loop markers p [] [] with
  | None => None
  | Some Panic => Some Panic
  | Some (Ret (p, imports, pruned)) =>
      match import_loop imports p [] [] with
      | None => None
      | Some Panic => Some Panic
      | Some (Ret (p, done, failed)) =>
          Some (Ret (p, {| prune_promoted := done; prune_failed := failed; prune_pruned := pruned |}))
      end
  end.

(** *** After a block *)
Record MinedBlockOutcome := {
  included : list PoolTransaction;
  stale : list PoolTransaction;
  invalid : list PoolTransaction;
  not_yet_valid : list PoolTransaction
}.

(** The pool after the block and whether mining can go on right away; the
    delayed notification for [not_yet_valid] is left to the miner. *)
Definition on_mined_block (o : MinedBlockOutcome) (p : PoolInner) : option (Outcome (PoolInner * bool)) :=
  let made_progress := negb (bool_decide (included o = [])) || negb (bool_decide (stale o = []))
                       || negb (bool_decide (invalid o = [])) in
  let retry_ready := made_progress && bool_decide (not_yet_valid o = []) in
  match remove_invalid (map hash (invalid o)) p with
  | None => None
  | Some (p, _) =>
      match prune_markers (concat (map provides (included o ++ stale o))) p with
      | None => None
      | Some Panic => Some Panic
      | Some (Ret (p, _)) =>
          Some (Ret (p, retry_ready && negb (bool_decide (Ready.ready_tx (ready_transactions p) = ∅))))
      end
  end.

Definition txpool_status (p : PoolInner) : Z * Z :=
  (Z.of_nat (size (Ready.ready_tx (ready_transactions p))),
   Z.of_nat (size (Pending.waiting_queue (pending_transactions p)))).
End Ops.
End Inner.

(** ** Listeners

    [try_send] belongs to the channel; [None] is a disconnected receiver, a
    full channel keeps its sender. *)
Module Listeners.
Section Notify.
Context {Sender : Type} (try_send : Sender -> TxHash -> Sender * bool).

(** The loop of [notify_listener] from index [n - 1] down: [swap_remove(n)]
    takes the element out and the last one fills its place. *)
Definition swap_take (n : nat) (l : list Sender) : option (Sender * list Sender) :=
  match l !! n, last l with
  | Some x, Some y => Some (x, take (length l - 1) (<[n := y]> l))
  | _, _ => None
  end.

Fixpoint notify_loop (n : nat) (h : TxHash) (l : list Sender) : list Sender :=
  match n with
  | O => l
  | S n' =>
      match swap_take n' l with
      | None => l
      | Some (x, l) =>
          let '(x', retain) := try_send x h in
          notify_loop n' h (if retain then l ++ [x'] else l)
      end
  end.

Definition notify_listener (h : TxHash) (l : list Sender) : list Sender := notify_loop (length l) h l.

Definition notify_ready (added : Inner.AddedTransaction) (l : list Sender) : list Sender :=
  match added with
  | Inner.AddedToPending _ => l
  | Inner.AddedToReady r => foldl (fun l h => notify_listener h l) l (Inner.added_hash r :: Inner.promoted r)
  end.
End Notify.
End Listeners.
