(* ===== verification/PoolPending.v ===== *)
(** * PoolPending: the pending queue keeps its marker index exact

    [wf] relates the three maps of [PendingTransactions]: the marker index is
    the inverse of the missing markers, the identifying markers name the queue
    entries, and no entry is ready.  Every operation keeps it, and under it
    [mark_and_unlock] never hits an [expect]. *)

From Stdlib Require Import ZArith Lia.
From stdpp Require Import base list gmap sets option.
From S2P Require Import Prelude Pool.
Local Open Scope Z_scope.
Import Pending.

Create HintDb pool.

Definition waits_for (required : gmap TxMarker (gset TxHash)) (m : TxMarker) (h : TxHash) : Prop :=
  h ∈ default ∅ (required !! m).

Record wf (st : PendingTransactions) : Prop := {
  wf_hash : forall h p, waiting_queue st !! h = Some p -> hash (ppt_transaction p) = h;
  wf_required : forall m h,
    waits_for (required_markers st) m h <->
    exists p, waiting_queue st !! h = Some p /\ m ∈ missing_markers p;
  wf_marks : forall h p, waiting_queue st !! h = Some p ->
    waiting_markers st !! provides (ppt_transaction p) = Some h;
  wf_marks_inv : forall ps h, waiting_markers st !! ps = Some h ->
    exists p, waiting_queue st !! h = Some p /\ provides (ppt_transaction p) = ps;
  wf_missing : forall h p, waiting_queue st !! h = Some p -> missing_markers p <> ∅;
  wf_nonempty : forall m s, required_markers st !! m = Some s -> s <> ∅
}.

(** What marking [ms] leaves of a waiting transaction. *)
Definition after_marks (ms : gset TxMarker) (p : PendingPoolTransaction) : option PendingPoolTransaction :=
  if decide (missing_markers p ∖ ms = ∅) then None
  else Some {| ppt_transaction := ppt_transaction p; missing_markers := missing_markers p ∖ ms |}.

(** The transactions that marking [ms] makes ready. *)
Definition unlocked_by (ms : gset TxMarker) (q : gmap TxHash PendingPoolTransaction)
    (u : PendingPoolTransaction) : Prop :=
  exists h p, q !! h = Some p /\ missing_markers p ∖ ms = ∅ /\
    u = {| ppt_transaction := ppt_transaction p; missing_markers := ∅ |}.

Lemma empty_wf : wf Pending.empty.
Proof.
  split; simpl; try (intros ? ? ?%lookup_empty_Some; done).
  intros m h. unfold waits_for. rewrite lookup_empty. simpl. split; [set_solver|].
  intros (p & ?%lookup_empty_Some & _). done.
Qed.

Lemma after_marks_None ms p : after_marks ms p = None <-> missing_markers p ∖ ms = ∅.
Proof. unfold after_marks. case_decide; naive_solver. Qed.
Lemma after_marks_Some ms p p' :
  after_marks ms p = Some p' <->
  missing_markers p ∖ ms <> ∅ /\ ppt_transaction p' = ppt_transaction p /\
  missing_markers p' = missing_markers p ∖ ms.
Proof.
  unfold after_marks. case_decide; [naive_solver|]. split.
  - intros [= <-]. done.
  - intros (_ & H1 & H2). destruct p'. simpl in *. congruence.
Qed.

Section PendingOps.
Context `{IO : IterOrder} {IOL : IterOrderLaws}.

Lemma elem_of_iter_hashes h s : h ∈ iter_hashes s <-> h ∈ s.
Proof. rewrite (iter_hashes_perm s). apply elem_of_elements. Qed.
Lemma elem_of_iter_markers m s : m ∈ iter_markers s <-> m ∈ s.
Proof. rewrite (iter_markers_perm s). apply elem_of_elements. Qed.
Lemma NoDup_iter_hashes s : NoDup (iter_hashes s).
Proof. rewrite (iter_hashes_perm s). apply NoDup_elements. Qed.

(** ** Marking *)

(** The state in the middle of the loop for [m]: the index no longer has
    [m], and exactly the hashes of [todo] still miss it. *)
Record marking (m : TxMarker) (todo : list TxHash) (st : PendingTransactions) : Prop := {
  mk_nodup : NoDup todo;
  mk_hash : forall h p, waiting_queue st !! h = Some p -> hash (ppt_transaction p) = h;
  mk_todo : forall h, h ∈ todo <-> exists p, waiting_queue st !! h = Some p /\ m ∈ missing_markers p;
  mk_gone : required_markers st !! m = None;
  mk_required : forall m' h, m' <> m -> (waits_for (required_markers st) m' h <->
    exists p, waiting_queue st !! h = Some p /\ m' ∈ missing_markers p);
  mk_marks : forall h p, waiting_queue st !! h = Some p ->
    waiting_markers st !! provides (ppt_transaction p) = Some h;
  mk_marks_inv : forall ps h, waiting_markers st !! ps = Some h ->
    exists p, waiting_queue st !! h = Some p /\ provides (ppt_transaction p) = ps;
  mk_missing : forall h p, waiting_queue st !! h = Some p -> missing_markers p <> ∅;
  mk_nonempty : forall m s, required_markers st !! m = Some s -> s <> ∅
}.

Definition step_state (m : TxMarker) (h : TxHash) (p : PendingPoolTransaction) (st : PendingTransactions)
  : PendingTransactions :=
  if is_ready (mark m p) then
    {| required_markers := required_markers st;
       waiting_markers := delete (provides (ppt_transaction p)) (waiting_markers st);
       waiting_queue := delete h (waiting_queue st) |}
  else
    {| required_markers := required_markers st; waiting_markers := waiting_markers st;
       waiting_queue := <[h := mark m p]> (waiting_queue st) |}.

Lemma is_ready_mark m p : is_ready (mark m p) = bool_decide (missing_markers p ∖ {[m]} = ∅).
Proof. done. Qed.

Lemma step_queue m h p st :
  waiting_queue st !! h = Some p ->
  omap (after_marks {[m]}) (waiting_queue (step_state m h p st)) = omap (after_marks {[m]}) (waiting_queue st).
Proof.
  intros Hp. unfold step_state. rewrite is_ready_mark. apply map_eq. intros h'. rewrite !lookup_omap.
  case_bool_decide as Hr; simpl; destruct (decide (h' = h)) as [->|].
  - rewrite lookup_delete_eq, Hp. simpl. symmetry. by apply after_marks_None.
  - by rewrite lookup_delete_ne.
  - rewrite lookup_insert_eq, Hp. simpl. unfold after_marks. simpl.
    replace (missing_markers p ∖ {[m]} ∖ {[m]}) with (missing_markers p ∖ {[m]}) by set_solver. done.
  - by rewrite lookup_insert_ne.
Qed.

Lemma step_unlocked m h p st u :
  waiting_queue st !! h = Some p ->
  (unlocked_by {[m]} (waiting_queue st) u <->
   unlocked_by {[m]} (waiting_queue (step_state m h p st)) u \/
   (is_ready (mark m p) = true /\ u = mark m p)).
Proof.
  intros Hp. unfold step_state, unlocked_by. rewrite is_ready_mark. unfold mark.
  case_bool_decide as Hr; simpl; split.
  - intros (h' & p' & Hl & Hm & ->). destruct (decide (h' = h)) as [->|].
    + right. simplify_eq. by rewrite Hr.
    + left. exists h', p'. by rewrite lookup_delete_ne.
  - intros [(h' & p' & Hl & Hm & ->)|[_ ->]].
    + apply lookup_delete_Some in Hl as [_ Hl]. by exists h', p'.
    + exists h, p. by rewrite Hr.
  - intros (h' & p' & Hl & Hm & ->). destruct (decide (h' = h)) as [->|]; [simplify_eq|].
    left. exists h', p'. by rewrite lookup_insert_ne.
  - intros [(h' & p' & Hl & Hm & ->)|[? _]]; [|done].
    apply lookup_insert_Some in Hl as [[-> <-]|[_ Hl]]; [|by exists h', p'].
    simpl in Hm. set_solver.
Qed.

Lemma step_marking m h p todo st :
  marking m (h :: todo) st -> waiting_queue st !! h = Some p -> marking m todo (step_state m h p st).
Proof.
  intros [Hnd Hh Ht Hg Hr Hm Hmi Hne Hse] Hp. pose proof (NoDup_cons_1_1 _ _ Hnd) as Hnin; apply NoDup_cons_1_2 in Hnd.
  unfold step_state. rewrite is_ready_mark. case_bool_decide as Hrd; split; simpl; try done.
  - intros h' p' [_ ?]%lookup_delete_Some. eauto.
  - intros h'. split.
    + intros Hin. destruct (proj1 (Ht h')) as (p' & ? & ?); [by right|]. exists p'.
      rewrite lookup_delete_ne; [done|]. by intros ->.
    + intros (p' & [Hn Hl]%lookup_delete_Some & ?). assert (h' ∈ h :: todo) as [?|?]%elem_of_cons by (apply Ht; eauto); [by subst|done].
  - intros m' h' Hm'. rewrite Hr by done. split.
    + intros (p' & Hl & Hmem). exists p'. split; [|done]. apply lookup_delete_Some. split; [|done].
      intros <-. simplify_eq. set_solver.
    + intros (p' & [_ ?]%lookup_delete_Some & ?). eauto.
  - intros h' p' [Hn Hl]%lookup_delete_Some. rewrite lookup_delete_ne; [by apply Hm|].
    intros E. pose proof (Hm _ _ Hl) as H1. rewrite <- E, (Hm _ _ Hp) in H1. congruence.
  - intros ps h' [Hn Hl]%lookup_delete_Some. destruct (Hmi _ _ Hl) as (p' & Hl' & <-).
    exists p'. split; [|done]. apply lookup_delete_Some. split; [|done]. intros ->. congruence.
  - intros h' p' [_ ?]%lookup_delete_Some. eauto.
  - intros h' p' [[-> <-]|[_ ?]]%lookup_insert_Some; [by apply (Hh h' p)|eauto].
  - intros h'. split.
    + intros Hin. destruct (proj1 (Ht h')) as (p' & ? & ?); [by right|]. exists p'.
      rewrite lookup_insert_ne; [done|]. by intros ->.
    + intros (p' & [[-> <-]|[Hn Hl]]%lookup_insert_Some & Hmem); [simpl in Hmem; set_solver|].
      assert (h' ∈ h :: todo) as [?|?]%elem_of_cons by (apply Ht; eauto); [by subst|done].
  - intros m' h' Hm'. rewrite Hr by done. split.
    + intros (p' & Hl & Hmem). destruct (decide (h' = h)) as [->|].
      * exists (mark m p). rewrite lookup_insert_eq. simplify_eq. split; [done|]. simpl. set_solver.
      * exists p'. by rewrite lookup_insert_ne.
    + intros (p' & [[-> <-]|[_ ?]]%lookup_insert_Some & Hmem); [|eauto]. exists p. split; [done|]. simpl in Hmem. set_solver.
  - intros h' p' [[-> <-]|[_ ?]]%lookup_insert_Some; [by apply (Hm h' p)|eauto].
  - intros ps h' Hl. destruct (Hmi _ _ Hl) as (p' & Hl' & <-). destruct (decide (h' = h)) as [->|].
    + exists (mark m p). rewrite lookup_insert_eq. simplify_eq. done.
    + exists p'. by rewrite lookup_insert_ne.
  - intros h' p' [[-> <-]|[_ ?]]%lookup_insert_Some; [done|eauto].
Qed.

Lemma unlock_loop m todo st acc :
  marking m todo st ->
  exists st' un, ofold (unlock_one m) todo (st, acc) = Ret (st', acc ++ un) /\
    marking m [] st' /\
    waiting_queue st' = omap (after_marks {[m]}) (waiting_queue st) /\
    required_markers st' = required_markers st /\
    NoDup (map (fun u => hash (ppt_transaction u)) un) /\
    forall u, u ∈ un <-> unlocked_by {[m]} (waiting_queue st) u.
Proof.
  revert st acc. induction todo as [|h todo IH]; intros st acc Hmk.
  - assert (Hkeep : forall h p, waiting_queue st !! h = Some p -> missing_markers p ∖ {[m]} = missing_markers p).
    { intros h p Hl. assert (m ∉ missing_markers p); [|set_solver]. intros Hm.
      assert (h ∈ []) by (apply (mk_todo _ _ _ Hmk); eauto). set_solver. }
    exists st, []. rewrite app_nil_r. split_and!; try done.
    + apply map_eq. intros h. rewrite lookup_omap. destruct (waiting_queue st !! h) as [p|] eqn:El; [|done].
      simpl. symmetry. apply after_marks_Some. rewrite (Hkeep _ _ El).
      split; [|done]. by apply (mk_missing _ _ _ Hmk h).
    + constructor.
    + intros u. split; [set_solver|]. intros (h & p & Hl & He & _). rewrite (Hkeep _ _ Hl) in He.
      by destruct (mk_missing _ _ _ Hmk _ _ Hl).
  - destruct (proj1 (mk_todo _ _ _ Hmk h) (list_elem_of_here _ _)) as (p & Hp & Hmem).
    pose proof (step_marking _ _ _ _ _ Hmk Hp) as Hmk'.
    destruct (IH (step_state m h p st) (if is_ready (mark m p) then acc ++ [mark m p] else acc) Hmk')
      as (st' & un & Hf & Hmk'' & Hq & Hreq & Hnd & Hun).
    exists st', ((if is_ready (mark m p) then [mark m p] else []) ++ un). split_and!.
    + simpl. rewrite Hp. destruct (is_ready (mark m p)) eqn:Er; simpl.
      * unfold step_state in Hf. rewrite Er in Hf. rewrite Hf. by rewrite <- app_assoc.
      * unfold step_state in Hf. rewrite Er in Hf. by rewrite Hf.
    + done.
    + rewrite Hq. by apply step_queue.
    + rewrite Hreq. unfold step_state. by destruct (is_ready (mark m p)).
    + destruct (is_ready (mark m p)) eqn:Er; [|done]. simpl. constructor; [|done].
      rewrite list_elem_of_In, in_map_iff. intros (u & Hu & Hin). apply list_elem_of_In, Hun in Hin as (h' & p' & Hl & _ & ->).
      simpl in Hu. rewrite (mk_hash _ _ _ Hmk _ _ Hp) in Hu. rewrite (mk_hash _ _ _ Hmk' _ _ Hl) in Hu. subst h'.
      unfold step_state in Hl. rewrite Er in Hl. simpl in Hl. by rewrite lookup_delete_eq in Hl.
    + intros u. rewrite elem_of_app, Hun, (step_unlocked m h p st u Hp).
      destruct (is_ready (mark m p)); set_solver.
Qed.

(** The specification of marking a list of markers. *)
Record marked (ms : list TxMarker) (st st' : PendingTransactions) (un : list PendingPoolTransaction) : Prop := {
  md_wf : wf st';
  md_queue : waiting_queue st' = omap (after_marks (list_to_set ms)) (waiting_queue st);
  md_nodup : NoDup (map (fun u => hash (ppt_transaction u)) un);
  md_unlocked : forall u, u ∈ un <-> unlocked_by (list_to_set ms) (waiting_queue st) u
}.

Lemma unlock_marker_spec m st acc :
  wf st -> exists st' un, unlock_marker m (st, acc) = Ret (st', acc ++ un) /\ marked [m] st st' un.
Proof.
  intros [Hh Hr Hm Hmi Hne Hse]. unfold unlock_marker.
  assert (Hset : (list_to_set [m] : gset TxMarker) = {[m]}) by set_solver.
  destruct (required_markers st !! m) as [hs|] eqn:Em.
  - destruct (unlock_loop m (iter_hashes hs)
      {| required_markers := delete m (required_markers st); waiting_markers := waiting_markers st;
         waiting_queue := waiting_queue st |} acc) as (st' & un & Hf & Hmk & Hq & Hreq & Hnd & Hun).
    + split; simpl; try done; [apply NoDup_iter_hashes| |by rewrite lookup_delete_eq| |].
      * intros h. rewrite elem_of_iter_hashes, <- Hr. unfold waits_for. by rewrite Em.
      * intros m' h Hne'. rewrite <- Hr. unfold waits_for. by rewrite lookup_delete_ne.
      * intros m' s [_ ?]%lookup_delete_Some. eauto.
    + exists st', un. rewrite Hf. split; [done|]. split; rewrite ?Hset; try done.
      destruct Hmk as [_ Hh' Ht' Hg' Hr' Hm' Hmi' Hne' Hse']. split; try done.
      intros m' h. destruct (decide (m' = m)) as [->|]; [|by apply Hr'].
      unfold waits_for. rewrite Hg'. simpl. split; [set_solver|]. intros H. apply Ht' in H. set_solver.
  - assert (Hkeep : forall h p, waiting_queue st !! h = Some p -> missing_markers p ∖ {[m]} = missing_markers p).
    { intros h p Hl. assert (m ∉ missing_markers p); [|set_solver]. intros Hin.
      assert (waits_for (required_markers st) m h) as Hw by (apply Hr; eauto). unfold waits_for in Hw. rewrite Em in Hw. set_solver. }
    exists st, []. rewrite app_nil_r. split; [done|]. split; rewrite ?Hset; [done| |constructor|].
    + apply map_eq. intros h. rewrite lookup_omap. destruct (waiting_queue st !! h) as [p|] eqn:El; [|done].
      simpl. symmetry. apply after_marks_Some. rewrite (Hkeep _ _ El). split; [|done]. by apply (Hne h).
    + intros u. split; [set_solver|]. intros (h & p & Hl & He & _). rewrite (Hkeep _ _ Hl) in He.
      by destruct (Hne _ _ Hl).
Qed.

Lemma omap_after_marks (ms ns : gset TxMarker) (q : gmap TxHash PendingPoolTransaction) :
  omap (after_marks ns) (omap (after_marks ms) q) = omap (after_marks (ms ∪ ns)) q.
Proof.
  apply map_eq. intros h. rewrite !lookup_omap. destruct (q !! h) as [p|]; [|done]. simpl. unfold after_marks at 2.
  assert (E : missing_markers p ∖ ms ∖ ns = missing_markers p ∖ (ms ∪ ns)) by set_solver.
  case_decide as Hm; simpl; unfold after_marks; simpl; rewrite ?E; [|done].
  rewrite decide_True; [done|]. set_solver.
Qed.

Lemma unlocked_by_app ms ns q u :
  unlocked_by (ms ∪ ns) q u <-> unlocked_by ms q u \/ unlocked_by ns (omap (after_marks ms) q) u.
Proof.
  unfold unlocked_by. split.
  - intros (h & p & Hl & He & ->). destruct (decide (missing_markers p ∖ ms = ∅)); [left; eauto|]. right.
    exists h, {| ppt_transaction := ppt_transaction p; missing_markers := missing_markers p ∖ ms |}.
    rewrite lookup_omap, Hl. split_and!; [|simpl; set_solver|done].
    by apply after_marks_Some.
  - intros [(h & p & Hl & He & ->)|(h & p' & Hl & He & ->)].
    + exists h, p. split_and!; [done|set_solver|done].
    + rewrite lookup_omap in Hl. destruct (q !! h) as [p|] eqn:El; [|done]. simpl in Hl.
      apply after_marks_Some in Hl as (_ & Ht & Hm). exists h, p. split_and!; [done|set_solver|congruence].
Qed.

Lemma mark_and_unlock_from ms st acc :
  wf st -> exists st' un, ofold unlock_marker ms (st, acc) = Ret (st', acc ++ un) /\ marked ms st st' un.
Proof.
  revert st acc. induction ms as [|m ms IH]; intros st acc Hwf.
  - exists st, []. rewrite app_nil_r. split; [done|]. split; [done| |constructor|].
    + apply map_eq. intros h. rewrite lookup_omap. destruct (waiting_queue st !! h) as [p|] eqn:El; [|done].
      simpl. symmetry. apply after_marks_Some. pose proof (wf_missing _ Hwf _ _ El).
      assert (E : missing_markers p ∖ ∅ = missing_markers p) by set_solver. by rewrite E.
    + intros u. split; [set_solver|]. intros (h & p & Hl & He & _). pose proof (wf_missing _ Hwf _ _ Hl). set_solver.
  - destruct (unlock_marker_spec m st acc Hwf) as (st1 & un1 & E1 & [Hwf1 Hq1 Hnd1 Hun1]).
    destruct (IH st1 (acc ++ un1) Hwf1) as (st2 & un2 & E2 & [Hwf2 Hq2 Hnd2 Hun2]).
    exists st2, (un1 ++ un2). cbn [ofold]. rewrite E1. cbn [obind]. rewrite E2, app_assoc. split; [done|].
    assert (Hset : (list_to_set (m :: ms) : gset TxMarker) = list_to_set [m] ∪ list_to_set ms) by set_solver.
    split; [done| | |].
    + by rewrite Hq2, Hq1, omap_after_marks, <- Hset.
    + rewrite map_app. apply list.NoDup_app. split_and!; [done| |done].
      intros h Hh1 Hh2. apply list_elem_of_In, in_map_iff in Hh1 as (u1 & Hu1 & Hin1).
      apply list_elem_of_In, in_map_iff in Hh2 as (u2 & Hu2 & Hin2).
      apply list_elem_of_In, Hun1 in Hin1 as (h1 & p1 & Hl1 & He1 & ->).
      apply list_elem_of_In, Hun2 in Hin2 as (h2 & p2 & Hl2 & He2 & ->). simpl in *.
      rewrite (wf_hash _ Hwf _ _ Hl1) in Hu1. rewrite (wf_hash _ Hwf1 _ _ Hl2) in Hu2. subst.
      rewrite Hq1, lookup_omap, Hl1 in Hl2. simpl in Hl2. apply after_marks_Some in Hl2 as [Hc _].
      by apply Hc.
    + intros u. rewrite elem_of_app, Hun1, Hun2, Hq1, Hset. symmetry. apply unlocked_by_app.
Qed.

Lemma mark_and_unlock_spec ms st :
  wf st -> exists st' un, mark_and_unlock ms st = Ret (st', un) /\ marked ms st st' un.
Proof. apply mark_and_unlock_from. Qed.

(** Marking what nobody misses changes nothing. *)
Lemma mark_none_missing ms st :
  wf st -> (forall h p m, waiting_queue st !! h = Some p -> m ∈ missing_markers p -> m ∉ ms) ->
  mark_and_unlock ms st = Ret (st, []).
Proof.
  unfold mark_and_unlock. intros Hwf. induction ms as [|m ms IH]; intros Hno; [done|].
  cbn [ofold unlock_marker]. destruct (required_markers st !! m) as [hs|] eqn:Em.
  - exfalso. destruct (set_choose_L hs (wf_nonempty _ Hwf _ _ Em)) as [h Hh].
    destruct (proj1 (wf_required _ Hwf m h)) as (p & Hp & Hm); [unfold waits_for; by rewrite Em|].
    apply (Hno h p m Hp Hm). left.
  - cbn [obind]. apply IH. intros h p m' Hl Hin Hms. eapply Hno; eauto. by right.
Qed.

(** ** Removal *)
Lemma remove_required_waits h m req m' h' :
  waits_for (remove_required h m req) m' h' <-> waits_for req m' h' /\ ~ (m' = m /\ h' = h).
Proof.
  unfold remove_required, waits_for. destruct (req !! m) as [s|] eqn:E.
  - case_decide as Hs; destruct (decide (m' = m)) as [->|];
      rewrite ?lookup_delete_eq, ?lookup_insert_eq, ?lookup_delete_ne, ?lookup_insert_ne, ?E by done; simpl; set_solver.
  - split; [|by intros [? _]]. intros Hw. split; [done|]. intros [-> ->]. rewrite E in Hw. set_solver.
Qed.

Lemma remove_required_fold h ms req m' h' :
  waits_for (foldl (fun req m => remove_required h m req) req ms) m' h' <->
  waits_for req m' h' /\ ~ (m' ∈ ms /\ h' = h).
Proof.
  revert req. induction ms as [|m ms IH]; intros req; simpl; [set_solver|].
  rewrite IH, remove_required_waits. set_solver.
Qed.

Lemma remove_required_nonempty h ms req :
  (forall m s, req !! m = Some s -> s <> ∅) ->
  forall m s, foldl (fun req m => remove_required h m req) req ms !! m = Some s -> s <> ∅.
Proof.
  revert req. induction ms as [|m0 ms IH]; intros req Hreq; simpl; [done|]. apply IH.
  intros m s. unfold remove_required. destruct (req !! m0) as [s0|] eqn:E; [|apply Hreq].
  case_decide as Hs; [intros [_ ?]%lookup_delete_Some; eauto|].
  intros [[<- <-]|[_ ?]]%lookup_insert_Some; eauto.
Qed.

Lemma remove_one_wf st removed h :
  wf st -> wf (fst (remove_one (st, removed) h)) /\
    waiting_queue (fst (remove_one (st, removed) h)) = delete h (waiting_queue st) /\
    snd (remove_one (st, removed) h) =
      removed ++ match waiting_queue st !! h with Some p => [ppt_transaction p] | None => [] end.
Proof.
  intros Hwf. pose proof Hwf as [Hh Hr Hm Hmi Hne Hse]. simpl.
  destruct (waiting_queue st !! h) as [p|] eqn:Ep; simpl.
  2: { split_and!; [done|by rewrite delete_id|by rewrite app_nil_r]. }
  split_and!; try done. split; simpl.
  - intros h' p' [_ ?]%lookup_delete_Some. eauto.
  - intros m h'. rewrite remove_required_fold, Hr. setoid_rewrite elem_of_iter_markers. split.
    + intros [(p' & Hl & Hin) Hn]. exists p'. split; [|done]. apply lookup_delete_Some. split; [|done].
      intros <-. simplify_eq. by apply Hn.
    + intros (p' & [Hn Hl]%lookup_delete_Some & Hin). split; [eauto|]. by intros [_ ->].
  - intros h' p' [Hn Hl]%lookup_delete_Some. rewrite lookup_delete_ne; [by apply Hm|].
    intros E. pose proof (Hm _ _ Hl) as H1. rewrite <- E, (Hm _ _ Ep) in H1. congruence.
  - intros ps h' [Hn Hl]%lookup_delete_Some. destruct (Hmi _ _ Hl) as (p' & Hl' & <-).
    exists p'. split; [|done]. apply lookup_delete_Some. split; [|done]. intros ->. congruence.
  - intros h' p' [_ ?]%lookup_delete_Some. eauto.
  - by apply remove_required_nonempty.
Qed.

Lemma remove_from hashes st removed :
  wf st ->
  wf (fst (foldl remove_one (st, removed) hashes)) /\
  waiting_queue (fst (foldl remove_one (st, removed) hashes)) =
    filter (fun '(h, _) => h ∉ hashes) (waiting_queue st).
Proof.
  revert st removed. induction hashes as [|h hashes IH]; intros st removed Hwf.
  { simpl. split; [done|]. symmetry. apply map_filter_id. intros; set_solver. }
  change (foldl remove_one (st, removed) (h :: hashes)) with
    (foldl remove_one (remove_one (st, removed) h) hashes).
  destruct (remove_one_wf st removed h Hwf) as (H1 & H2 & _).
  destruct (remove_one (st, removed) h) as [st1 removed1]. cbn [fst] in H1, H2.
  destruct (IH st1 removed1 H1) as [H3 H4]. split; [done|].
  rewrite H4, H2. apply map_eq. intros h'. apply option_eq. intros p.
  rewrite !map_lookup_filter_Some, lookup_delete_Some. set_solver.
Qed.

Lemma removed_from hashes st removed tx :
  wf st ->
  tx ∈ snd (foldl remove_one (st, removed) hashes) <->
  tx ∈ removed \/ exists h p, h ∈ hashes /\ waiting_queue st !! h = Some p /\ tx = ppt_transaction p.
Proof.
  revert st removed. induction hashes as [|h hashes IH]; intros st removed Hwf.
  { simpl. split; [by left|]. intros [?|(h & p & ? & _)]; [done|set_solver]. }
  change (foldl remove_one (st, removed) (h :: hashes)) with
    (foldl remove_one (remove_one (st, removed) h) hashes).
  destruct (remove_one_wf st removed h Hwf) as (H1 & H2 & H3).
  destruct (remove_one (st, removed) h) as [st1 removed1]. cbn [fst snd] in H1, H2, H3.
  rewrite (IH st1 removed1 H1), H3, H2, elem_of_app. setoid_rewrite lookup_delete_Some. split.
  - intros [[?|Hin]|(h' & p & Hin & [_ Hl] & ->)]; [by left| |right; exists h', p; set_solver].
    right. destruct (waiting_queue st !! h) as [p|] eqn:E; [|set_solver]. exists h, p. set_solver.
  - intros [?|(h' & p & Hin & Hl & ->)]; [by left; left|]. destruct (decide (h' = h)) as [->|].
    + left. right. rewrite Hl. set_solver.
    + right. exists h', p. set_solver.
Qed.

Lemma remove_spec hashes st :
  wf st ->
  wf (fst (remove hashes st)) /\
  waiting_queue (fst (remove hashes st)) = filter (fun '(h, _) => h ∉ hashes) (waiting_queue st).
Proof. apply remove_from. Qed.

(** ** Insertion *)
Lemma insert_required_fold (h h' : TxHash) (m' : TxMarker) (ms : list TxMarker) (req : gmap TxMarker (gset TxHash)) :
  waits_for (foldl (fun req m => <[m := {[h]} ∪ default ∅ (req !! m)]> req) req ms) m' h' <->
  waits_for req m' h' \/ (m' ∈ ms /\ h' = h).
Proof.
  revert req. induction ms as [|m ms IH]; intros req; simpl; [set_solver|].
  rewrite IH. unfold waits_for. destruct (decide (m' = m)) as [->|].
  - rewrite lookup_insert_eq. simpl. set_solver.
  - rewrite lookup_insert_ne by done. set_solver.
Qed.

Lemma insert_tx_wf tx st :
  wf st -> missing_markers tx <> ∅ ->
  waiting_queue st !! hash (ppt_transaction tx) = None ->
  waiting_markers st !! provides (ppt_transaction tx) = None ->
  wf (insert_tx tx st).
Proof.
  intros [Hh Hr Hm Hmi Hne Hse] Hmis Hnew Hmark. split; simpl.
  - intros h p [[<- <-]|[_ ?]]%lookup_insert_Some; [done|eauto].
  - intros m h. rewrite insert_required_fold, Hr, elem_of_iter_markers. split.
    + intros [(p & Hl & Hin)|[Hin ->]].
      * exists p. rewrite lookup_insert_ne; [done|]. intros <-. congruence.
      * exists tx. by rewrite lookup_insert_eq.
    + intros (p & [[<- <-]|[_ ?]]%lookup_insert_Some & ?); [by right|left; eauto].
  - intros h p [[<- <-]|[Hn Hl]]%lookup_insert_Some; [by rewrite lookup_insert_eq|].
    rewrite lookup_insert_ne; [by apply Hm|]. intros E. pose proof (Hm _ _ Hl) as H1. rewrite <- E in H1. congruence.
  - intros ps h [[<- <-]|[Hn Hl]]%lookup_insert_Some.
    + exists tx. by rewrite lookup_insert_eq.
    + destruct (Hmi _ _ Hl) as (p & Hp & <-). exists p. rewrite lookup_insert_ne; [done|]. intros <-. congruence.
  - intros h p [[<- <-]|[_ ?]]%lookup_insert_Some; [done|eauto].
  - generalize (iter_markers (missing_markers tx)) as ms. intros ms. revert Hse. generalize (required_markers st) as req.
    induction ms as [|m0 ms IH]; intros req Hse; simpl; [done|]. apply IH.
    intros m s [[<- <-]|[_ ?]]%lookup_insert_Some; [set_solver|eauto].
Qed.

Lemma pending_add_spec tx st :
  wf st -> is_ready tx = false -> waiting_queue st !! hash (ppt_transaction tx) = None ->
  exists r, add_transaction tx st = Ret r /\
    match r with
    | inr e => e = ReplacementUnderpriced (hash (ppt_transaction tx)) /\
               exists h p, waiting_queue st !! h = Some p /\
                 provides (ppt_transaction p) = provides (ppt_transaction tx) /\
                 max_fee_per_gas (ppt_transaction tx) <= max_fee_per_gas (ppt_transaction p)
    | inl st' =>
        wf st' /\
        waiting_queue st' =
          <[hash (ppt_transaction tx) := tx]>
            (filter (fun '(_, p) => provides (ppt_transaction p) <> provides (ppt_transaction tx)) (waiting_queue st)) /\
        forall h p, waiting_queue st !! h = Some p ->
          provides (ppt_transaction p) = provides (ppt_transaction tx) ->
          max_fee_per_gas (ppt_transaction p) < max_fee_per_gas (ppt_transaction tx)
    end.
Proof.
  intros Hwf Hrdy Hnew. unfold add_transaction, contains. rewrite Hrdy, Hnew.
  rewrite bool_decide_false by (by intros [? ?]).
  assert (Hmis : missing_markers tx <> ∅).
  { unfold is_ready in Hrdy. by apply bool_decide_eq_false in Hrdy. }
  assert (Huniq : forall h p, waiting_queue st !! h = Some p ->
    provides (ppt_transaction p) = provides (ppt_transaction tx) ->
    waiting_markers st !! provides (ppt_transaction tx) = Some h).
  { intros h p Hl <-. by apply (wf_marks _ Hwf). }
  destruct (waiting_markers st !! provides (ppt_transaction tx)) as [h0|] eqn:Em; simpl.
  - destruct (wf_marks_inv _ Hwf _ _ Em) as (p0 & Hp0 & Hprov). rewrite Hp0.
    destruct (Z.leb_spec (max_fee_per_gas (ppt_transaction tx)) (max_fee_per_gas (ppt_transaction p0))).
    { eexists. split; [done|]. split; [done|]. by exists h0, p0. }
    eexists. split; [done|]. rewrite (wf_hash _ Hwf _ _ Hp0).
    destruct (remove_spec [h0] st Hwf) as [Hwf' Hq].
    split_and!.
    + apply insert_tx_wf; [done|done| |].
      * rewrite Hq. apply map_lookup_filter_None. by left.
      * destruct (waiting_markers (fst (remove [h0] st)) !! provides (ppt_transaction tx)) as [h1|] eqn:E1; [|done].
        destruct (wf_marks_inv _ Hwf' _ _ E1) as (p1 & Hp1 & Hpr1). rewrite Hq in Hp1.
        apply map_lookup_filter_Some in Hp1 as [Hp1 Hne1]. rewrite (Huniq _ _ Hp1 Hpr1) in Em. set_solver.
    + simpl. rewrite Hq. f_equal. apply map_eq. intros h. apply option_eq. intros p.
      rewrite !map_lookup_filter_Some. split; intros [Hl Hc]; (split; [done|]).
      * intros E. rewrite (Huniq _ _ Hl E) in Em. set_solver.
      * intros ->%list_elem_of_singleton. congruence.
    + intros h p Hl E. pose proof (Huniq _ _ Hl E) as Hu. simplify_eq. lia.
  - eexists. split; [done|]. split_and!.
    + by apply insert_tx_wf.
    + simpl. f_equal. symmetry. apply map_filter_id. intros h p Hl E. by pose proof (Huniq _ _ Hl E).
    + intros h p Hl E. by pose proof (Huniq _ _ Hl E).
Qed.

(** ** Transitive dependents *)
Abbreviation needs st h m := (exists p, waiting_queue st !! h = Some p /\ m ∈ requires (ppt_transaction p)).

Lemma push_required (h h' : TxHash) (m : TxMarker) (ms : list TxMarker) (acc : gmap TxMarker (list TxHash)) :
  (h' ∈ default [] (acc !! m) \/ (m ∈ ms /\ h' = h)) ->
  h' ∈ default [] (foldl (fun acc m => <[m := default [] (acc !! m) ++ [h]]> acc) acc ms !! m).
Proof.
  revert acc. induction ms as [|m0 ms IH]; intros acc H; simpl; [set_solver|]. apply IH.
  destruct (decide (m = m0)) as [->|].
  - rewrite lookup_insert_eq. simpl. set_solver.
  - rewrite lookup_insert_ne by done. set_solver.
Qed.

Lemma required_by_complete st h m : needs st h m -> h ∈ default [] (required_by st !! m).
Proof.
  intros (p & Hp & Hm). unfold required_by.
  assert (Hin : h ∈ iter_hashes (dom (waiting_queue st))).
  { apply elem_of_iter_hashes, elem_of_dom. eauto. }
  revert Hin. generalize (iter_hashes (dom (waiting_queue st))) as hs.
  set (f := fun (acc : gmap TxMarker (list TxHash)) h => match waiting_queue st !! h with
      | None => acc
      | Some tx => foldl (fun acc m => <[m := default [] (acc !! m) ++ [h]]> acc) acc (requires (ppt_transaction tx))
      end).
  assert (Hkeep : forall hs (acc : gmap TxMarker (list TxHash)), h ∈ default [] (acc !! m) -> h ∈ default [] (foldl f acc hs !! m)).
  { induction hs as [|h' hs IH]; intros acc Ha; simpl; [done|]. apply IH. unfold f.
    destruct (waiting_queue st !! h'); [|done]. apply push_required. by left. }
  intros hs. generalize (∅ : gmap TxMarker (list TxHash)) as acc.
  induction hs as [|h' hs IH]; intros acc Hin; [set_solver|]. simpl.
  apply elem_of_cons in Hin as [<-|Hin]; [|by apply IH]. apply Hkeep. unfold f. rewrite Hp.
  apply push_required. by right.
Qed.

Definition potential (st : PendingTransactions) (to_remove : gset TxHash) (markers : list TxMarker) : nat :=
  (length markers + provided_total st (dom (waiting_queue st) ∖ to_remove))%nat.

Lemma provided_total_split st (X : gset TxHash) h :
  h ∈ X -> provided_total st X =
    (match waiting_queue st !! h with Some tx => length (provides (ppt_transaction tx)) | None => 0 end
     + provided_total st (X ∖ {[h]}))%nat.
Proof.
  intros Hh. unfold provided_total. replace X with ({[h]} ∪ X ∖ {[h]}) at 1.
  - rewrite elements_union_singleton by set_solver. done.
  - apply set_eq. intros x. destruct (decide (x = h)); set_solver.
Qed.

Lemma collect_potential st to_remove markers hs :
  potential st (fst (foldl (collect_dependent st) (to_remove, markers) hs))
               (snd (foldl (collect_dependent st) (to_remove, markers) hs)) = potential st to_remove markers.
Proof.
  revert to_remove markers. induction hs as [|h hs IH]; intros to_remove markers; [done|]. simpl.
  case_decide as Hin; [apply IH|]. rewrite IH. unfold potential.
  destruct (waiting_queue st !! h) as [p|] eqn:Ep.
  - rewrite (provided_total_split st (dom (waiting_queue st) ∖ to_remove) h), Ep.
    + replace (dom (waiting_queue st) ∖ to_remove ∖ {[h]}) with (dom (waiting_queue st) ∖ ({[h]} ∪ to_remove)) by set_solver.
      rewrite length_app, length_rev. lia.
    + apply elem_of_difference. split; [|done]. apply elem_of_dom. eauto.
  - do 2 f_equal. assert (h ∉ dom (waiting_queue st)) by (by apply not_elem_of_dom). set_solver.
Qed.

Lemma collect_mono st to_remove markers hs :
  to_remove ⊆ fst (foldl (collect_dependent st) (to_remove, markers) hs) /\
  (forall h, h ∈ hs -> h ∈ fst (foldl (collect_dependent st) (to_remove, markers) hs)) /\
  (forall m, m ∈ markers -> m ∈ snd (foldl (collect_dependent st) (to_remove, markers) hs)) /\
  (forall h p m, h ∈ fst (foldl (collect_dependent st) (to_remove, markers) hs) -> h ∉ to_remove ->
     waiting_queue st !! h = Some p -> m ∈ provides (ppt_transaction p) ->
     m ∈ snd (foldl (collect_dependent st) (to_remove, markers) hs)).
Proof.
  revert to_remove markers. induction hs as [|h hs IH]; intros to_remove markers; simpl.
  { split_and!; set_solver. }
  case_decide as Hin.
  - destruct (IH to_remove markers) as (H1 & H2 & H3 & H4). split_and!; [done| |done|done].
    intros h' [->|?]%elem_of_cons; [set_solver|auto].
  - set (ms := match waiting_queue st !! h with Some tx => rev (provides (ppt_transaction tx)) ++ markers | None => markers end).
    destruct (IH ({[h]} ∪ to_remove) ms) as (H1 & H2 & H3 & H4). split_and!.
    + set_solver.
    + intros h' [->|?]%elem_of_cons; [set_solver|auto].
    + intros m Hm. apply H3. unfold ms. case_match; set_solver.
    + intros h' p m Hh' Hn Hp Hm. destruct (decide (h' = h)) as [->|]; [|by eapply H4; eauto; set_solver].
      apply H3. unfold ms. rewrite Hp. apply elem_of_app. left. by apply elem_of_rev.
Qed.

(** [m] is dealt with: everything that needs it is to be removed. *)
Abbreviation dealt st T m := (forall h, needs st h m -> h ∈ T).

Record dep_inv (st : PendingTransactions) (goals : list TxMarker) (s : DependentState) : Prop := {
  di_goals : forall m, m ∈ goals -> m ∈ dep_markers s \/ dealt st (dep_to_remove s) m;
  di_removed : forall h p m, h ∈ dep_to_remove s -> waiting_queue st !! h = Some p ->
    m ∈ provides (ppt_transaction p) -> m ∈ dep_markers s \/ dealt st (dep_to_remove s) m;
  di_index : forall m, dealt st (dep_to_remove s) m \/
    forall h, needs st h m -> h ∈ default [] (dep_required_by s !! m)
}.

Lemma dependents_step_inv st goals s s' :
  dep_inv st goals s -> dependents_step st s = inl s' ->
  (dep_inv st goals s' /\ dep_to_remove s ⊆ dep_to_remove s') /\
  (potential st (dep_to_remove s') (dep_markers s') < potential st (dep_to_remove s) (dep_markers s))%nat.
Proof.
  intros [Hg Hr Hi]. unfold dependents_step. destruct s as [req T [|m rest]]; simpl in *; [done|].
  destruct (req !! m) as [deps|] eqn:Em.
  - pose proof (collect_potential st T rest deps) as Hpot.
    destruct (collect_mono st T rest deps) as (H1 & H2 & H3 & H4).
    destruct (foldl (collect_dependent st) (T, rest) deps) as [T' rest'] eqn:Ef. simpl in *.
    intros [= <-]. simpl. split; [|unfold potential in *; simpl; lia]. split; [|done].
    assert (Hm : dealt st T' m).
    { destruct (Hi m) as [Hd|Hd]; intros h Hh; [apply H1; by apply Hd|].
      apply H2. specialize (Hd h Hh). by rewrite Em in Hd. }
    assert (Hmove : forall x, x ∈ m :: rest \/ dealt st T x -> x ∈ rest' \/ dealt st T' x).
    { intros x [[->|Hx]%elem_of_cons|Hx]; [by right|left; auto|right]. intros h Hh. apply H1; by apply Hx. }
    split; simpl; auto.
    + intros h p x Hh Hp Hx. destruct (decide (h ∈ T)); [by eapply Hmove, Hr|]. left. by eapply H4.
    + intros x. destruct (decide (x = m)) as [->|]; [by left|]. destruct (Hi x) as [Hd|Hd].
      * left. intros h Hh. apply H1; by apply Hd.
      * right. intros h Hh. rewrite lookup_delete_ne by done. by apply Hd.
  - intros [= <-]. simpl. split; [|unfold potential; simpl; lia]. split; [|done].
    assert (Hm : dealt st T m).
    { destruct (Hi m) as [Hd|Hd]; intros h Hh; [by apply Hd|]. specialize (Hd h Hh). rewrite Em in Hd. set_solver. }
    assert (Hmove : forall x, x ∈ m :: rest \/ dealt st T x -> x ∈ rest \/ dealt st T x).
    { intros x [[->|Hx]%elem_of_cons|Hx]; auto. }
    split; simpl; eauto.
Qed.

Lemma remove_with_dependents_spec hashes invalidated st :
  wf st ->
  exists st' removed, remove_with_dependents hashes invalidated st = Some (st', removed) /\
    wf st' /\ waiting_queue st' ⊆ waiting_queue st /\
    (forall h, h ∈ hashes -> waiting_queue st' !! h = None) /\
    (forall h p m, waiting_queue st' !! h = Some p -> m ∈ requires (ppt_transaction p) ->
       m ∉ invalidated /\
       forall h' p', waiting_queue st !! h' = Some p' -> waiting_queue st' !! h' = None ->
         m ∉ provides (ppt_transaction p')) /\
    (forall tx, tx ∈ removed <-> exists h p, waiting_queue st !! h = Some p /\ waiting_queue st' !! h = None /\
       tx = ppt_transaction p).
Proof.
  intros Hwf. unfold remove_with_dependents.
  pose proof (collect_potential st ∅ (rev invalidated) hashes) as Hpot.
  destruct (collect_mono st ∅ (rev invalidated) hashes) as (_ & H2 & H3 & H4).
  destruct (foldl (collect_dependent st) (∅, rev invalidated) hashes) as [T ms] eqn:Ef. cbn [fst snd] in *.
  set (s0 := {| dep_required_by := required_by st; dep_to_remove := T; dep_markers := ms |}).
  assert (Hinv0 : dep_inv st invalidated s0).
  { split; simpl.
    - intros m Hm. left. apply H3. by apply elem_of_rev.
    - intros h p m Hh Hp Hm. left. eapply H4; eauto. set_solver.
    - intros m. right. intros h Hh. by apply required_by_complete. }
  destruct (iterate_total (dependents_step st) (fun s => dep_inv st invalidated s /\ T ⊆ dep_to_remove s)
    (fun s => potential st (dep_to_remove s) (dep_markers s))) with (fuel := dependents_fuel st (rev invalidated)) (s := s0)
    as [R HR].
  { intros s s' [Hs Hsub] Hstep. destruct (dependents_step_inv _ _ _ _ Hs Hstep) as [[? ?] ?]. split; [|done]. split; [done|set_solver]. }
  { done. }
  { unfold s0. simpl. rewrite Hpot. unfold potential, dependents_fuel.
    replace (dom (waiting_queue st) ∖ ∅) with (dom (waiting_queue st)) by set_solver. lia. }
  rewrite HR.
  assert (Hfin : T ⊆ R /\ (forall m, m ∈ invalidated -> dealt st R m) /\
    (forall h p m, h ∈ R -> waiting_queue st !! h = Some p -> m ∈ provides (ppt_transaction p) -> dealt st R m)).
  { refine (iterate_ind (dependents_step st) (fun s => dep_inv st invalidated s /\ T ⊆ dep_to_remove s)
      (fun R => T ⊆ R /\ (forall m, m ∈ invalidated -> dealt st R m) /\
        (forall h p m, h ∈ R -> waiting_queue st !! h = Some p -> m ∈ provides (ppt_transaction p) -> dealt st R m))
      _ _ _ s0 R _ HR); [| |done].
    - intros s s' [Hs Hsub] Hstep. destruct (dependents_step_inv _ _ _ _ Hs Hstep) as [[? ?] ?]. split; [done|set_solver].
    - intros s r [[Hg Hr _] Hsub] Hstep. unfold dependents_step in Hstep.
      destruct (dep_markers s) eqn:Ems; [|done]. injection Hstep as <-. split_and!; [done| |].
      + intros m Hm. destruct (Hg m Hm) as [?|?]; [set_solver|done].
      + intros h p m Hh Hp Hm. destruct (Hr h p m Hh Hp Hm) as [?|?]; [set_solver|done]. }
  destruct Hfin as (HTR & Hinval & Hprov).
  destruct (remove_spec (iter_hashes R) st Hwf) as [Hwf' Hq].
  pose proof (fun tx => removed_from (iter_hashes R) st [] tx Hwf) as Hrem.
  change (foldl remove_one (st, []) (iter_hashes R)) with (remove (iter_hashes R) st) in Hrem.
  destruct (remove (iter_hashes R) st) as [st' removed]. cbn [fst snd] in *. exists st', removed. split_and!; try done.
  - rewrite Hq. apply map_filter_subseteq.
  - intros h Hh. rewrite Hq. apply map_lookup_filter_None. right. intros p _. rewrite elem_of_iter_hashes. intros Hc. apply Hc, HTR. auto.
  - intros h p m Hl Hm. rewrite Hq in Hl. apply map_lookup_filter_Some in Hl as [Hl Hn]. rewrite elem_of_iter_hashes in Hn.
    split; [intros Hi; apply Hn, (Hinval m Hi); eauto|].
    intros h' p' Hl' Hgone Hm'. apply Hn. apply (Hprov h' p' m); eauto.
    rewrite Hq in Hgone. apply map_lookup_filter_None in Hgone as [?|Hgone]; [congruence|].
    specialize (Hgone _ Hl'). rewrite elem_of_iter_hashes in Hgone. destruct (decide (h' ∈ R)); [done|]. by exfalso; apply Hgone.
  - intros tx. rewrite Hrem. split.
    + intros [?|(h & p & Hin & Hl & ->)]; [set_solver|]. exists h, p. split_and!; [done| |done].
      rewrite Hq. apply map_lookup_filter_None. right. intros p' _ Hc. by apply Hc.
    + intros (h & p & Hl & Hg & ->). right. exists h, p. split_and!; [|done|done].
      rewrite Hq in Hg. apply map_lookup_filter_None in Hg as [?|Hg]; [congruence|].
      specialize (Hg _ Hl). destruct (decide (h ∈ iter_hashes R)); [done|]. by exfalso; apply Hg.
Qed.
(** Nothing else is removed: any set of transactions that contains the named
    ones and is closed under requiring contains all that are removed. *)
Lemma push_required_inv (h h' : TxHash) (m : TxMarker) (ms : list TxMarker) (acc : gmap TxMarker (list TxHash)) :
  h' ∈ default [] (foldl (fun acc m => <[m := default [] (acc !! m) ++ [h]]> acc) acc ms !! m) ->
  h' ∈ default [] (acc !! m) \/ (m ∈ ms /\ h' = h).
Proof.
  revert acc. induction ms as [|m0 ms IH]; intros acc H; simpl in *; [by left|].
  destruct (IH _ H) as [Hin|[? ?]]; [|right; set_solver]. destruct (decide (m0 = m)) as [->|].
  - rewrite lookup_insert_eq in Hin. simpl in Hin. set_solver.
  - rewrite lookup_insert_ne in Hin by done. by left.
Qed.

Lemma required_by_sound st h m : h ∈ default [] (required_by st !! m) -> needs st h m.
Proof.
  unfold required_by. generalize (iter_hashes (dom (waiting_queue st))) as hs. intros hs.
  cut (forall acc : gmap TxMarker (list TxHash), (h ∈ default [] (acc !! m) -> needs st h m) ->
    h ∈ default [] (foldl (fun acc h => match waiting_queue st !! h with
      | None => acc
      | Some tx => foldl (fun acc m => <[m := default [] (acc !! m) ++ [h]]> acc) acc (requires (ppt_transaction tx))
      end) acc hs !! m) -> needs st h m).
  { intros Hc. apply Hc. rewrite lookup_empty. set_solver. }
  induction hs as [|h' hs IH]; intros acc Ha; [done|]. cbn [foldl]. apply IH.
  destruct (waiting_queue st !! h') as [p|] eqn:Ep; [|done].
  intros [?|[Hm ->]]%push_required_inv; [auto|]. eauto.
Qed.

Section Minimal.
Context (st : PendingTransactions) (P : TxHash -> Prop).
Hypothesis P_closed : forall a p m b, P a -> waiting_queue st !! a = Some p ->
  m ∈ provides (ppt_transaction p) -> needs st b m -> P b.

Abbreviation marks_ok ms := (forall m, m ∈ ms -> forall h, needs st h m -> P h).

Lemma collect_minimal to_remove markers hs :
  (forall h, h ∈ to_remove -> P h) -> marks_ok markers -> (forall h, h ∈ hs -> P h) ->
  let r := foldl (collect_dependent st) (to_remove, markers) hs in
  (forall h, h ∈ fst r -> P h) /\ marks_ok (snd r).
Proof.
  revert to_remove markers. induction hs as [|h hs IH]; intros T ms HT Hms Hhs; [done|]. cbn [foldl collect_dependent].
  assert (Hh : P h) by (apply Hhs; by left). assert (Hrest : forall x, x ∈ hs -> P x) by (intros; apply Hhs; by right).
  case_decide; [by apply IH|]. apply IH; [set_solver| |done].
  destruct (waiting_queue st !! h) as [p|] eqn:Ep; [|done]. intros m. rewrite elem_of_app, elem_of_rev.
  intros [Hm|Hm] b Hb; [by eapply P_closed|by eapply Hms].
Qed.

Lemma dependents_step_minimal s s' :
  (forall h, h ∈ dep_to_remove s -> P h) /\ marks_ok (dep_markers s) /\
    (forall m h, h ∈ default [] (dep_required_by s !! m) -> needs st h m) ->
  dependents_step st s = inl s' ->
  (forall h, h ∈ dep_to_remove s' -> P h) /\ marks_ok (dep_markers s') /\
    (forall m h, h ∈ default [] (dep_required_by s' !! m) -> needs st h m).
Proof.
  intros (HT & Hms & Hi). unfold dependents_step. destruct s as [req T [|m rest]]; simpl in *; [done|].
  assert (Hrest : marks_ok rest) by (intros x Hx; apply Hms; by right).
  destruct (req !! m) as [deps|] eqn:Em; [|by intros [= <-]].
  destruct (collect_minimal T rest deps) as [H1 H2]; [done|done| |].
  { intros h Hh. apply (Hms m); [left|]. apply Hi. by rewrite Em. }
  destruct (foldl (collect_dependent st) (T, rest) deps) as [T' rest']. intros [= <-]. simpl in *. split_and!; [done|done|].
  intros x h. destruct (decide (m = x)) as [<-|]; [rewrite lookup_delete_eq; set_solver|]. rewrite lookup_delete_ne by done. apply Hi.
Qed.

Lemma remove_with_dependents_minimal hashes invalidated st' removed :
  wf st -> remove_with_dependents hashes invalidated st = Some (st', removed) ->
  (forall h, h ∈ hashes -> P h) -> marks_ok invalidated ->
  forall h p, waiting_queue st !! h = Some p -> waiting_queue st' !! h = None -> P h.
Proof.
  intros Hwf. unfold remove_with_dependents. intros Hrm Hhs Hinv.
  destruct (collect_minimal ∅ (rev invalidated) hashes) as [H1 H2]; [set_solver| |done|].
  { intros m Hm. apply Hinv. by apply elem_of_rev. }
  destruct (foldl (collect_dependent st) (∅, rev invalidated) hashes) as [T ms]. cbn [fst snd] in *.
  destruct (iterate _ _ _) as [R|] eqn:HR; [|done].
  assert (HP : forall h, h ∈ R -> P h).
  { refine (iterate_ind (dependents_step st) _ (fun R => forall h, h ∈ R -> P h) dependents_step_minimal _ _ _ R _ HR).
    - intros s r (HT & _) Hst. unfold dependents_step in Hst. destruct (dep_markers s); [|done]. by injection Hst as <-.
    - split_and!; [done|done|]. intros m h. apply required_by_sound. }
  destruct (remove_spec (iter_hashes R) st Hwf) as [_ Hq]. destruct (remove (iter_hashes R) st) as [q rem].
  injection Hrm as <- <-. cbn [fst] in Hq. intros h p Hl Hn. rewrite Hq in Hn.
  apply map_lookup_filter_None in Hn as [?|Hn]; [congruence|]. specialize (Hn _ Hl). rewrite elem_of_iter_hashes in Hn.
  apply HP. destruct (decide (h ∈ R)); [done|]. by exfalso; apply Hn.
Qed.
End Minimal.

End PendingOps.
