(* ===== verification/PoolReady.v ===== *)
(** * PoolReady: the ready queue keeps its provider index exact

    [rwf] says that [provided_markers] maps exactly the markers of the ready
    transactions to the transaction that provides them.  Insertion (with
    replacement), removal and pruning keep it, their worklists end, and the
    [expect]s and [assert]s of the source hold. *)

From Stdlib Require Import ZArith Lia.
From stdpp Require Import base list gmap sets option sorting.
From S2P Require Import Prelude Pool PoolPending.
Local Open Scope Z_scope.
Import Ready.

(** What the pool expects of a transaction: it names each marker it provides
    once and does not require one of its own markers. *)
Record tx_ok (tx : PoolTransaction) : Prop := {
  tx_provides_nodup : NoDup (provides tx);
  tx_no_self : forall m, m ∈ requires tx -> m ∉ provides tx
}.

(** The index depends only on the transactions, not on their links. *)
Definition txs (st : ReadyTransactions) : gmap TxHash PoolTransaction := rt_tx <$> ready_tx st.

(** [F]: markers whose entry may be stale during a replacement. *)
Record rwf_upto (F : gset TxMarker) (provided : gmap TxMarker TxHash) (t : gmap TxHash PoolTransaction) : Prop := {
  rwf_hash : forall h tx, t !! h = Some tx -> hash tx = h;
  rwf_ok : forall h tx, t !! h = Some tx -> tx_ok tx;
  rwf_provides : forall h tx m, t !! h = Some tx -> m ∈ provides tx -> provided !! m = Some h;
  rwf_provided : forall m h, provided !! m = Some h -> m ∈ F \/ exists tx, t !! h = Some tx /\ m ∈ provides tx
}.
Definition rwf (st : ReadyTransactions) : Prop := rwf_upto ∅ (provided_markers st) (txs st).

Lemma empty_rwf : rwf Ready.empty.
Proof. split; unfold txs; simpl; intros *; rewrite ?fmap_empty, ?lookup_empty; done. Qed.

(** ** Link updates keep the transactions *)
Lemma length_remove_unlock h l : (length (remove_unlock h l) <= length l)%nat.
Proof.
  unfold remove_unlock, swap_remove. destruct (position h l); [|done].
  destruct (last l); [|done]. rewrite length_take, length_insert. lia.
Qed.

Lemma txs_set_unlocks st p rt u :
  ready_tx st !! p = Some rt -> rt_tx <$> <[p := set_unlocks rt u]> (ready_tx st) = txs st.
Proof.
  intros Hp. unfold txs. rewrite fmap_insert. apply map_eq. intros h.
  destruct (decide (h = p)) as [->|]; [|by rewrite lookup_insert_ne].
  rewrite lookup_insert_eq, lookup_fmap, Hp. done.
Qed.

Lemma lookup_txs st h : txs st !! h = rt_tx <$> ready_tx st !! h.
Proof. apply lookup_fmap. Qed.

Lemma txs_Some st h rt : ready_tx st !! h = Some rt -> txs st !! h = Some (rt_tx rt).
Proof. intros H. by rewrite lookup_txs, H. Qed.

(** ** Removal *)
Lemma lookup_delete_marks marks provided m :
  delete_marks marks provided !! m = if decide (m ∈ marks) then None else provided !! m.
Proof.
  unfold delete_marks. revert provided. induction marks as [|m0 marks IH]; intros provided; cbn [foldl].
  { case_decide; [set_solver|done]. }
  rewrite IH. destruct (decide (m = m0)) as [->|].
  - rewrite lookup_delete_eq. repeat case_decide; set_solver.
  - rewrite lookup_delete_ne by done. repeat case_decide; set_solver.
Qed.

Lemma unlink_facts h st m :
  txs (unlink h st m) = txs st /\ provided_markers (unlink h st m) = provided_markers st /\
  id (unlink h st m) = id st /\
  (unlocks_total (unlink h st m) <= unlocks_total st)%nat.
Proof.
  unfold unlink. destruct (provided_markers st !! m) as [p|]; simpl; [|done].
  destruct (ready_tx st !! p) as [rt|] eqn:Ep; simpl; [|done]. split_and!; try done.
  - by apply txs_set_unlocks.
  - unfold unlocks_total. simpl.
    pose proof (msum_update (fun rt => length (unlocks rt)) (ready_tx st) p rt
      (set_unlocks rt (remove_unlock h (unlocks rt))) Ep) as Hs. simpl in Hs.
    pose proof (length_remove_unlock h (unlocks rt)). lia.
Qed.

Lemma unlink_fold_facts h ms st :
  txs (foldl (unlink h) st ms) = txs st /\ provided_markers (foldl (unlink h) st ms) = provided_markers st /\
  id (foldl (unlink h) st ms) = id st /\
  (unlocks_total (foldl (unlink h) st ms) <= unlocks_total st)%nat.
Proof.
  revert st. induction ms as [|m ms IH]; intros st; [done|]. simpl.
  destruct (unlink_facts h st m) as (H1 & H2 & H3 & H4). destruct (IH (unlink h st m)) as (H5 & H6 & H7 & H8).
  split_and!; try congruence. lia.
Qed.

Definition filter_set (marker_filter : option (gset TxMarker)) : gset TxMarker := default ∅ marker_filter.

Lemma elem_of_invalidated mf tx m :
  m ∈ invalidated mf tx <-> m ∈ provides tx /\ m ∉ filter_set mf.
Proof.
  unfold invalidated, filter_set. destruct mf as [F|]; simpl; [|set_solver].
  rewrite list_elem_of_filter. tauto.
Qed.

Lemma rwf_remove F provided t h tx marks :
  rwf_upto F provided t -> t !! h = Some tx -> (forall m, m ∈ marks <-> m ∈ provides tx /\ m ∉ F) ->
  rwf_upto F (delete_marks marks provided) (delete h t).
Proof.
  intros [Hh Hok Hp Hpi] Ht Hm. split.
  - intros h' tx' [_ ?]%lookup_delete_Some. eauto.
  - intros h' tx' [_ ?]%lookup_delete_Some. eauto.
  - intros h' tx' m [Hne Hl]%lookup_delete_Some Hin. rewrite lookup_delete_marks, decide_False; [eauto|].
    intros [Hin' _]%Hm. pose proof (Hp _ _ _ Hl Hin). pose proof (Hp _ _ _ Ht Hin'). congruence.
  - intros m h'. rewrite lookup_delete_marks. case_decide as Hd; [done|]. intros Hl.
    destruct (Hpi _ _ Hl) as [?|(tx' & Hl' & Hin)]; [by left|].
    destruct (decide (h = h')) as [<-|]; [|right; exists tx'; by rewrite lookup_delete_ne].
    simplify_eq. left. destruct (decide (m ∈ F)); [done|]. exfalso. apply Hd, Hm. done.
Qed.

(** [removed] lists exactly what [st0] has and [st] has not. *)
Definition accounted (st0 st : ReadyTransactions) (removed : list PoolTransaction) : Prop :=
  (forall h tx, txs st0 !! h = Some tx -> txs st !! h = Some tx \/ tx ∈ removed) /\
  (forall tx, tx ∈ removed -> txs st0 !! hash tx = Some tx /\ txs st !! hash tx = None).

Lemma accounted_refl st : accounted st st [].
Proof. split; [by left|set_solver]. Qed.

Lemma accounted_delete st0 st st' removed h tx :
  accounted st0 st removed -> txs st ⊆ txs st0 -> txs st !! h = Some tx -> hash tx = h ->
  txs st' = delete h (txs st) -> accounted st0 st' (removed ++ [tx]).
Proof.
  intros [H1 H2] Hs Hl Hh E. split.
  - intros h' tx' Hl'. destruct (H1 h' tx' Hl') as [Hin|Hin]; [|right; set_solver].
    destruct (decide (h' = h)) as [->|]; [right; set_solver|left]. by rewrite E, lookup_delete_ne.
  - intros tx' [Hin|Hin]%elem_of_app.
    + destruct (H2 tx' Hin) as [? Hn]. split; [done|]. rewrite E. apply lookup_delete_None. by right.
    + assert (tx' = tx) as -> by set_solver. rewrite E, Hh. split; [by eapply lookup_weaken|apply lookup_delete_eq].
Qed.

(** What the removal loop keeps: [rwf_upto] and a subset of the transactions. *)
Record removing (mf : option (gset TxMarker)) (st0 : ReadyTransactions) (s : RemoveState) : Prop := {
  rmi_wf : rwf_upto (filter_set mf) (provided_markers (rm_ready s)) (txs (rm_ready s));
  rmi_sub : txs (rm_ready s) ⊆ txs st0;
  rmi_provided : provided_markers (rm_ready s) ⊆ provided_markers st0;
  rmi_id : id (rm_ready s) = id st0;
  rmi_account : accounted st0 (rm_ready s) (rm_removed s)
}.

Lemma remove_entry_facts mf h rt st :
  ready_tx st !! h = Some rt ->
  txs (remove_entry mf h rt st) = delete h (txs st) /\
  provided_markers (remove_entry mf h rt st) = delete_marks (invalidated mf (rt_tx rt)) (provided_markers st) /\
  id (remove_entry mf h rt st) = id st /\
  (length (unlocks rt) + unlocks_total (remove_entry mf h rt st) <= unlocks_total st)%nat.
Proof.
  intros Hh. unfold remove_entry.
  set (st1 := {| id := id st; provided_markers := delete_marks (invalidated mf (rt_tx rt)) (provided_markers st);
                 ready_tx := delete h (ready_tx st); independent_transactions := independent_transactions st |}).
  destruct (unlink_fold_facts h (requires (rt_tx rt)) st1) as (H1 & H2 & H3 & H4).
  split_and!; [|done|done|].
  - transitivity (txs st1); [exact H1|]. unfold txs. simpl. apply fmap_delete.
  - change (unlocks_total {| id := _; provided_markers := _; ready_tx := ?r; independent_transactions := _ |})
      with (msum (fun rt => length (unlocks rt)) r).
    assert (Htot : unlocks_total st = (length (unlocks rt) + unlocks_total st1)%nat) by
      exact (msum_delete (fun rt => length (unlocks rt)) (ready_tx st) h rt Hh).
    unfold unlocks_total in H4 at 1. lia.
Qed.

Lemma remove_step_facts mf st0 s s' :
  removing mf st0 s -> remove_step mf s = inl s' ->
  (removing mf st0 s' /\ txs (rm_ready s') ⊆ txs (rm_ready s)) /\
  (length (rm_hashes s') + unlocks_total (rm_ready s') < length (rm_hashes s) + unlocks_total (rm_ready s))%nat.
Proof.
  intros [Hwf Hsub Hprov Hid Hacc]. unfold remove_step. destruct s as [[|h rest] st rem]; simpl in *; [done|].
  intros [= <-]. destruct (ready_tx st !! h) as [rt|] eqn:Eh; cbn [rm_ready rm_hashes]; [|split; [done|lia]].
  destruct (remove_entry_facts mf h rt st Eh) as (H1 & H2 & H3 & H4).
  split.
  - split; [split; cbn [rm_ready]|]; rewrite ?H1, ?H2, ?H3.
    + eapply rwf_remove; [done|by apply txs_Some|]. intros m. apply elem_of_invalidated.
    + etrans; [apply delete_subseteq|done].
    + etrans; [|exact Hprov]. apply map_subseteq_spec. intros m h'. rewrite lookup_delete_marks. by case_decide.
    + done.
    + cbn [rm_removed]. apply (accounted_delete _ st _ _ h); [done|done|by apply txs_Some| |done].
      by apply (rwf_hash _ _ _ Hwf), txs_Some.
    + apply delete_subseteq.
  - case_bool_decide; rewrite ?length_app, ?length_rev; lia.
Qed.

Lemma remove_with_markers_spec hashes mf st :
  rwf_upto (filter_set mf) (provided_markers st) (txs st) ->
  exists st' removed, remove_with_markers hashes mf st = Some (st', removed) /\
    rwf_upto (filter_set mf) (provided_markers st') (txs st') /\
    txs st' ⊆ txs st /\ provided_markers st' ⊆ provided_markers st /\ id st' = id st /\
    (forall h, h ∈ hashes -> txs st' !! h = None) /\ accounted st st' removed.
Proof.
  intros Hwf. unfold remove_with_markers.
  set (s0 := {| rm_hashes := rev hashes; rm_ready := st; rm_removed := [] |}).
  assert (H0 : removing mf st s0) by (split; try done; apply accounted_refl).
  set (Inv := fun s => removing mf st s /\ forall h, h ∈ hashes -> h ∈ rm_hashes s \/ txs (rm_ready s) !! h = None).
  assert (HInv0 : Inv s0).
  { split; [done|]. intros h Hh. left. by apply elem_of_rev. }
  assert (Hstep : forall s s', Inv s -> remove_step mf s = inl s' -> Inv s' /\
    (length (rm_hashes s') + unlocks_total (rm_ready s') < length (rm_hashes s) + unlocks_total (rm_ready s))%nat).
  { intros s s' [Hr Hh] Hs. destruct (remove_step_facts _ _ _ _ Hr Hs) as [[Hr' Hsub] Hlt]. split; [|done]. split; [done|].
    intros h Hin. destruct (Hh h Hin) as [Hin'|Hn].
    - unfold remove_step in Hs. destruct s as [[|h0 rest] r rem]; simpl in *; [done|]. injection Hs as <-.
      apply elem_of_cons in Hin' as [->|Hin'].
      + right. destruct (ready_tx r !! h0) as [rt|] eqn:Eh; simpl in *; [|by rewrite lookup_txs, Eh].
        destruct (remove_entry_facts mf h0 rt r Eh) as (-> & _). apply lookup_delete_eq.
      + left. destruct (ready_tx r !! h0); simpl; [|done]. case_bool_decide; [done|]. apply elem_of_app. by right.
    - right. by eapply lookup_weaken_None. }
  destruct (iterate_total (remove_step mf) Inv (fun s => (length (rm_hashes s) + unlocks_total (rm_ready s))%nat) Hstep
    (S (length hashes + unlocks_total st)) s0 HInv0) as [[st' removed] HR].
  { simpl. rewrite length_rev. lia. }
  rewrite HR. exists st', removed. split; [done|].
  refine (iterate_ind (remove_step mf) Inv (fun '(st', removed) => rwf_upto (filter_set mf) (provided_markers st') (txs st') /\
    txs st' ⊆ txs st /\ provided_markers st' ⊆ provided_markers st /\ id st' = id st /\
    (forall h, h ∈ hashes -> txs st' !! h = None) /\ accounted st st' removed) _ _ _ s0 (st', removed) HInv0 HR).
  - intros s s' Hs Hst. by destruct (Hstep s s' Hs Hst).
  - intros s [r rem] [[Hw Hs Hp Hi Ha] Hh] Hst. unfold remove_step in Hst.
    destruct (rm_hashes s) eqn:Eh; [|done]. injection Hst as <- <-. split_and!; try done.
    intros h Hin. destruct (Hh h Hin) as [?|?]; [set_solver|done].
Qed.

(** *** Exactly the dependents of the removed transactions are removed

    The links of the queue: [b] waits for a marker of [a]; a removal follows
    them unless none of the markers is invalidated. *)
Lemma position_Some h l i : position h l = Some i -> l !! i = Some h.
Proof.
  revert i. induction l as [|x l IH]; intros i; simpl; [done|]. case_decide as E; [by intros [= <-]; subst|].
  intros (j & Hj & ->)%fmap_Some. simpl. auto.
Qed.

Lemma elem_of_remove_unlock h l x :
  (x ∈ remove_unlock h l -> x ∈ l) /\ (x ∈ l -> x <> h -> x ∈ remove_unlock h l).
Proof.
  unfold remove_unlock, swap_remove. destruct (position h l) as [i|] eqn:Hp; [|done]. apply position_Some in Hp.
  destruct (last l) as [z|] eqn:Hl; [|done]. apply last_Some in Hl as [l' ->].
  rewrite length_app. replace (length l' + length [z] - 1)%nat with (length l') by (simpl; lia).
  destruct (decide (i < length l')%nat) as [Hi|Hi].
  - rewrite lookup_app_l in Hp by done. rewrite insert_app_l by done.
    rewrite take_app_length' by (by rewrite length_insert). split.
    + intros (j & Hj)%list_elem_of_lookup. destruct (decide (i = j)) as [<-|Hne].
      * rewrite list_lookup_insert_eq in Hj by done. set_solver.
      * rewrite list_lookup_insert_ne in Hj by done. apply elem_of_app. left. by eapply list_elem_of_lookup_2.
    + intros [(j & Hj)%list_elem_of_lookup|Hz]%elem_of_app Hx.
      * apply (list_elem_of_lookup_2 _ j). rewrite list_lookup_insert_ne by congruence. done.
      * apply list_elem_of_singleton in Hz as ->. apply (list_elem_of_lookup_2 _ i). by apply list_lookup_insert_eq.
  - rewrite lookup_app_r in Hp by lia. apply list_lookup_singleton_Some in Hp as [Hi' ->].
    replace i with (length l') by lia. rewrite take_insert_ge by lia. rewrite take_app_length. set_solver.
Qed.

(** Every entry of [st] is one of [st0] with some links of gone entries less. *)
Definition links_kept (st0 st : ReadyTransactions) : Prop :=
  forall h rt, ready_tx st !! h = Some rt -> exists rt0, ready_tx st0 !! h = Some rt0 /\ rt_tx rt = rt_tx rt0 /\
    (forall x, x ∈ unlocks rt -> x ∈ unlocks rt0) /\
    (forall x, x ∈ unlocks rt0 -> is_Some (ready_tx st !! x) -> x ∈ unlocks rt).

Lemma unlink_keeps h st0 st m :
  links_kept st0 st -> ready_tx st !! h = None ->
  links_kept st0 (unlink h st m) /\ ready_tx (unlink h st m) !! h = None.
Proof.
  intros Hk Hh. unfold unlink. destruct (provided_markers st !! m) as [p|]; simpl; [|done].
  destruct (ready_tx st !! p) as [rt|] eqn:Ep; simpl; [|done].
  assert (Hne : h <> p) by congruence. split; [|by rewrite lookup_insert_ne].
  assert (Hsome : forall x, is_Some (<[p:=set_unlocks rt (remove_unlock h (unlocks rt))]> (ready_tx st) !! x) <-> is_Some (ready_tx st !! x)).
  { intros x. destruct (decide (p = x)) as [<-|]; [|by rewrite lookup_insert_ne]. rewrite lookup_insert_eq, Ep. by split. }
  intros h' rt'. cbn [ready_tx]. intros [[<- <-]|[_ Hl]]%lookup_insert_Some; simpl.
  - destruct (Hk _ _ Ep) as (rt0 & H0 & Ht & Hs & Hc). exists rt0. split_and!; [done|done| |].
    + intros x Hx%elem_of_remove_unlock. auto.
    + intros x Hx Hi%Hsome. apply elem_of_remove_unlock; [by apply Hc|]. intros ->. rewrite Hh in Hi. by destruct Hi.
  - destruct (Hk _ _ Hl) as (rt0 & H0 & Ht & Hs & Hc). exists rt0. split_and!; try done.
    intros x Hx Hi%Hsome. auto.
Qed.

Lemma remove_entry_keeps mf h rt st0 st :
  links_kept st0 st -> links_kept st0 (remove_entry mf h rt st).
Proof.
  intros Hk. unfold remove_entry. set (st1 := {| id := id st; provided_markers := _; ready_tx := delete h (ready_tx st);
    independent_transactions := independent_transactions st |}).
  assert (H1 : links_kept st0 st1 /\ ready_tx st1 !! h = None).
  { split; [|apply lookup_delete_eq]. intros h' rt'. cbn [ready_tx st1]. intros [_ Hl]%lookup_delete_Some.
    destruct (Hk _ _ Hl) as (rt0 & ? & ? & ? & Hc). exists rt0. split_and!; try done.
    intros x Hx [y [_ Hy]%lookup_delete_Some]. apply Hc; eauto. }
  enough (H2 : links_kept st0 (foldl (unlink h) st1 (requires (rt_tx rt)))) by exact H2.
  revert H1. generalize st1 as s. induction (requires (rt_tx rt)) as [|m ms IH]; intros s [Hs Hh]; [done|].
  cbn [foldl]. apply IH. by apply unlink_keeps.
Qed.

Section Cascade.
Context (mf : option (gset TxMarker)) (st0 : ReadyTransactions) (hashes : list TxHash).

(** A removal of [a] takes [b] with it. *)
Definition cascades (a b : TxHash) : Prop :=
  exists rt, ready_tx st0 !! a = Some rt /\ invalidated mf (rt_tx rt) <> [] /\ b ∈ unlocks rt /\ is_Some (ready_tx st0 !! b).

Record cascading (s : RemoveState) : Prop := {
  ca_links : links_kept st0 (rm_ready s);
  ca_reached : forall h, h ∈ rm_hashes s -> ready_tx st0 !! h = None \/ exists h0, h0 ∈ hashes /\ rtc cascades h0 h;
  ca_removed : forall h tx, txs st0 !! h = Some tx -> txs (rm_ready s) !! h = None -> exists h0, h0 ∈ hashes /\ rtc cascades h0 h;
  ca_closed : forall a b, cascades a b -> txs (rm_ready s) !! a = None ->
    b ∈ rm_hashes s \/ txs (rm_ready s) !! b = None
}.

Lemma remove_step_cascading s s' : cascading s -> remove_step mf s = inl s' -> cascading s'.
Proof.
  intros [Hl Hr Hm Hc]. unfold remove_step. destruct s as [[|h rest] st rem]; cbn [rm_hashes rm_ready] in *; [done|].
  intros [= <-]. destruct (ready_tx st !! h) as [rt|] eqn:Eh; cbn [rm_ready].
  - destruct (remove_entry_facts mf h rt st Eh) as (H1 & _). destruct (Hl _ _ Eh) as (rt0 & H0 & Ht & Hs & Hk).
    assert (Hh : exists h0, h0 ∈ hashes /\ rtc cascades h0 h) by (destruct (Hr h) as [?|?]; [left|congruence|done]).
    assert (Hpush : invalidated mf (rt_tx rt) <> [] -> forall b, b ∈ unlocks rt -> is_Some (ready_tx st0 !! b) -> cascades h b).
    { intros Hi b Hb Hsm. exists rt0. rewrite <- Ht. auto. }
    split; cbn [rm_ready rm_hashes].
    + by apply remove_entry_keeps.
    + intros x. case_bool_decide as Ei; [intros; apply Hr; by right|].
      rewrite elem_of_app, elem_of_rev. intros [Hx|Hx]; [|apply Hr; by right].
      destruct (ready_tx st0 !! x) eqn:Ex; [right|by left]. destruct Hh as (h0 & Hin & Hrtc). exists h0. split; [done|].
      eapply rtc_r; [done|]. apply Hpush; [done|done|by rewrite Ex].
    + intros x tx Hx. rewrite H1. destruct (decide (h = x)) as [<-|Hne]; [done|]. rewrite lookup_delete_ne by done. by eapply Hm.
    + intros a b Hab. rewrite H1. destruct (decide (h = a)) as [<-|Hne].
      * intros _. destruct Hab as (rt' & E' & Hi & Hb & Hsb). rewrite H0 in E'. injection E' as <-.
        destruct (ready_tx st !! b) as [rb|] eqn:Eb.
        { left. rewrite bool_decide_eq_false_2 by (by rewrite Ht). apply elem_of_app. left.
          apply elem_of_rev. apply Hk; [done|by rewrite Eb]. }
        { right. apply lookup_delete_None. right. by rewrite lookup_txs, Eb. }
      * rewrite lookup_delete_ne by done. intros Ha.
        destruct (Hc a b Hab Ha) as [[->|Hb]%elem_of_cons|Hb]; [right; apply lookup_delete_eq|left|right].
        { case_bool_decide; [done|]. apply elem_of_app. by right. }
        { apply lookup_delete_None. by right. }
  - split; cbn [rm_ready rm_hashes]; [done|intros; apply Hr; by right|done|].
    intros a b Hab Ha. destruct (Hc a b Hab Ha) as [[->|Hb]%elem_of_cons|Hb]; [right; by rewrite lookup_txs, Eh|by left|by right].
Qed.

Lemma remove_with_markers_exact st' removed :
  remove_with_markers hashes mf st0 = Some (st', removed) ->
  (forall h tx, txs st0 !! h = Some tx -> txs st' !! h = None -> exists h0, h0 ∈ hashes /\ rtc cascades h0 h) /\
  (forall a b, cascades a b -> txs st' !! a = None -> txs st' !! b = None).
Proof.
  intros Hrm. refine (iterate_ind (remove_step mf) cascading (fun '(st', _) =>
    (forall h tx, txs st0 !! h = Some tx -> txs st' !! h = None -> exists h0, h0 ∈ hashes /\ rtc cascades h0 h) /\
    (forall a b, cascades a b -> txs st' !! a = None -> txs st' !! b = None))
    remove_step_cascading _ _ _ _ _ Hrm).
  - intros s [r rem] [_ _ Hm Hc] Hst. unfold remove_step in Hst. destruct (rm_hashes s) eqn:Eh; [|done].
    injection Hst as <- <-. split; [done|]. intros a b Hab Ha. destruct (Hc a b Hab Ha) as [?|?]; [set_solver|done].
  - split; cbn [rm_ready rm_hashes].
    + intros h rt Hl. exists rt. split_and!; done.
    + intros h. rewrite elem_of_rev. intros Hh. right. exists h. split; [done|]. reflexivity.
    + intros h tx Hl Hn. congruence.
    + intros a b (rt & Hl & _) Hn. rewrite lookup_txs, Hl in Hn. done.
Qed.
End Cascade.


(** ** Pruning *)
Lemma prune_previous_facts h st remove m :
  let r := prune_previous h (st, remove) m in
  txs (fst r) = txs st /\ provided_markers (fst r) = provided_markers st /\ id (fst r) = id st /\
  (forall x, x ∈ remove -> x ∈ snd r) /\
  forall B, (forall h tx, txs st !! h = Some tx -> (length (provides tx) <= B)%nat) ->
    (length (snd r) <= length remove + B)%nat.
Proof.
  unfold prune_previous. destruct (provided_markers st !! m) as [p|]; simpl; [|split_and!; auto with lia].
  destruct (ready_tx st !! p) as [rt|] eqn:Ep; simpl; [|split_and!; auto with lia]. split_and!; try done.
  - by apply txs_set_unlocks.
  - case_bool_decide; set_solver.
  - intros B HB. specialize (HB p (rt_tx rt) (txs_Some _ _ _ Ep)).
    case_bool_decide; rewrite ?length_app, ?length_rev; lia.
Qed.

Lemma prune_previous_fold_facts h ms st remove :
  let r := foldl (prune_previous h) (st, remove) ms in
  txs (fst r) = txs st /\ provided_markers (fst r) = provided_markers st /\ id (fst r) = id st /\
  (forall x, x ∈ remove -> x ∈ snd r) /\
  forall B, (forall h tx, txs st !! h = Some tx -> (length (provides tx) <= B)%nat) ->
    (length (snd r) <= length remove + length ms * B)%nat.
Proof.
  revert st remove. induction ms as [|m ms IH]; intros st remove; [simpl; split_and!; auto with lia|].
  cbn [foldl]. destruct (prune_previous_facts h st remove m) as (H1 & H2 & H3 & Hk & H4).
  destruct (prune_previous h (st, remove) m) as [st1 remove1]. cbn [fst snd] in *.
  destruct (IH st1 remove1) as (H5 & H6 & H7 & Hk' & H8). cbn zeta. split_and!; try congruence; [by auto|].
  intros B HB. specialize (H4 B HB). rewrite <- H1 in HB. specialize (H8 B HB). simpl. lia.
Qed.

Lemma bump_offset_facts st h :
  txs (bump_offset st h) = txs st /\ provided_markers (bump_offset st h) = provided_markers st /\
  id (bump_offset st h) = id st.
Proof.
  unfold bump_offset. destruct (ready_tx st !! h) as [rt|] eqn:Eh; [|done]. simpl. split_and!; try done.
  unfold txs. simpl. rewrite fmap_insert. apply map_eq. intros h'.
  destruct (decide (h' = h)) as [->|]; [|by rewrite lookup_insert_ne].
  rewrite lookup_insert_eq, lookup_fmap, Eh. done.
Qed.

Lemma bump_fold_facts hs st :
  txs (foldl bump_offset st hs) = txs st /\ provided_markers (foldl bump_offset st hs) = provided_markers st /\
  id (foldl bump_offset st hs) = id st.
Proof.
  revert st. induction hs as [|h hs IH]; intros st; [done|]. simpl.
  destruct (bump_offset_facts st h) as (H1 & H2 & H3). destruct (IH (bump_offset st h)) as (H4 & H5 & H6).
  split_and!; congruence.
Qed.

(** The assertion of the marker loop holds. *)
Lemma prune_provided_ok m h ms provided :
  NoDup ms -> (forall m', m' ∈ ms -> provided !! m' = if decide (m = m') then None else Some h) ->
  ofold (prune_provided m h) ms provided = Ret (delete_marks ms provided).
Proof.
  intros Hnd. revert provided. induction ms as [|m0 ms IH]; intros provided Hp; [done|].
  pose proof (NoDup_cons_1_1 _ _ Hnd) as Hnin. apply NoDup_cons_1_2 in Hnd. cbn [ofold].
  unfold prune_provided at 1. rewrite decide_True by (apply Hp; left). cbn [obind]. apply IH; [done|].
  intros m' Hm'. rewrite lookup_delete_ne; [apply Hp; by right|]. by intros ->.
Qed.

Lemma prune_entry_facts m h0 rt rest st :
  rwf st -> provided_markers st !! m = Some h0 -> ready_tx st !! h0 = Some rt ->
  exists st' remove, prune_entry m h0 rt rest st = Ret (st', remove) /\
    rwf st' /\ txs st' = delete h0 (txs st) /\ provided_markers st' ⊆ provided_markers st /\
    provided_markers st' !! m = None /\ id st' = id st /\ (forall x, x ∈ rest -> x ∈ remove) /\
    forall B, (forall h tx, txs st !! h = Some tx -> (length (provides tx) <= B)%nat) ->
      (length remove <= length rest + length (requires (rt_tx rt)) * B)%nat.
Proof.
  intros Hwf Hm Hh. unfold prune_entry.
  assert (Ht : txs st !! h0 = Some (rt_tx rt)) by (by apply txs_Some).
  set (st2 := {| id := id st; provided_markers := delete m (provided_markers st); ready_tx := delete h0 (ready_tx st);
                 independent_transactions := BTree.remove (transaction rt) (independent_transactions st) |}).
  assert (Htx2 : txs st2 = delete h0 (txs st)) by (unfold txs; simpl; apply fmap_delete).
  destruct (prune_previous_fold_facts (hash (rt_tx rt)) (requires (rt_tx rt)) st2 rest) as (H1 & H2 & H3 & Hk & H4).
  destruct (foldl (prune_previous (hash (rt_tx rt))) (st2, rest) (requires (rt_tx rt))) as [st3 remove]. cbn [fst snd] in *.
  destruct (bump_fold_facts (unlocks rt) st3) as (H5 & H6 & H7).
  destruct (rwf_provided _ _ _ Hwf _ _ Hm) as [?|(tx & Htx & Hmem)]; [set_solver|].
  assert (tx = rt_tx rt) as -> by congruence.
  assert (Hprov4 : provided_markers (foldl bump_offset st3 (unlocks rt)) = delete m (provided_markers st)) by (by rewrite H6, H2).
  rewrite Hprov4, prune_provided_ok.
  - eexists _, _. split; [reflexivity|].
    assert (Htx' : forall i p ind, txs {| id := i; provided_markers := p; ready_tx := ready_tx (foldl bump_offset st3 (unlocks rt));
       independent_transactions := ind |} = delete h0 (txs st)).
    { intros. change (txs (foldl bump_offset st3 (unlocks rt)) = delete h0 (txs st)). by rewrite H5, H1. }
    assert (Hlook : forall m', delete_marks (provides (rt_tx rt)) (delete m (provided_markers st)) !! m' =
                               delete_marks (provides (rt_tx rt)) (provided_markers st) !! m').
    { intros m'. rewrite !lookup_delete_marks. case_decide; [done|]. rewrite lookup_delete_ne; [done|]. by intros <-. }
    split_and!.
    + unfold rwf. rewrite Htx'. cbn [provided_markers].
      assert (Hd : delete_marks (provides (rt_tx rt)) (delete m (provided_markers st)) = delete_marks (provides (rt_tx rt)) (provided_markers st)) by (by apply map_eq).
      rewrite Hd. eapply rwf_remove; [exact Hwf|exact Ht|]. set_solver.
    + apply Htx'.
    + cbn [provided_markers]. apply map_subseteq_spec. intros m' h'. rewrite lookup_delete_marks. case_decide; [done|].
      by intros [_ ?]%lookup_delete_Some.
    + cbn [provided_markers]. rewrite lookup_delete_marks. by rewrite decide_True.
    + cbn [id]. by rewrite H7, H3.
    + exact Hk.
    + intros B HB. apply H4. intros h tx. rewrite Htx2. intros [_ ?]%lookup_delete_Some. eauto.
  - by apply (rwf_ok _ _ _ Hwf _ _ Ht).
  - intros m' Hm'. rewrite (rwf_hash _ _ _ Hwf _ _ Ht). case_decide as E; [subst; apply lookup_delete_eq|].
    rewrite lookup_delete_ne by done. by apply (rwf_provides _ _ _ Hwf _ _ _ Ht).
Qed.

Lemma max_provides_bound ready h rt :
  ready !! h = Some rt -> (length (provides (rt_tx rt)) <= max_provides ready)%nat.
Proof.
  unfold max_provides. revert h rt.
  apply (map_fold_weak_ind (fun n (m : gmap TxHash ReadyTransaction) =>
    forall h rt, m !! h = Some rt -> (length (provides (rt_tx rt)) <= n)%nat)); [done|].
  intros h0 rt0 m n Hn IH h rt [[<- <-]|[_ Hl]]%lookup_insert_Some; [lia|]. specialize (IH _ _ Hl). lia.
Qed.

Definition tx_requires_total (t : gmap TxHash PoolTransaction) : nat := msum (fun tx => length (requires tx)) t.

Lemma requires_total_txs st : requires_total (ready_tx st) = tx_requires_total (txs st).
Proof.
  unfold requires_total, tx_requires_total, txs, msum. by rewrite map_fold_fmap.
Qed.

Lemma prune_tags_spec marker st :
  rwf st ->
  exists st' removed, prune_tags marker st = Some (Ret (st', removed)) /\
    rwf st' /\ txs st' ⊆ txs st /\ provided_markers st' ⊆ provided_markers st /\
    provided_markers st' !! marker = None /\ id st' = id st /\ accounted st st' removed.
Proof.
  intros Hwf. unfold prune_tags. set (B := max_provides (ready_tx st)).
  assert (HB : forall h tx, txs st !! h = Some tx -> (length (provides tx) <= B)%nat).
  { intros h tx. rewrite lookup_txs. intros (rt & Hr & ->)%fmap_Some. by eapply max_provides_bound. }
  set (s0 := {| pr_remove := [marker]; pr_ready := st; pr_removed := [] |}).
  set (Inv := fun s => rwf (pr_ready s) /\ txs (pr_ready s) ⊆ txs st /\
    provided_markers (pr_ready s) ⊆ provided_markers st /\ id (pr_ready s) = id st /\
    accounted st (pr_ready s) (pr_removed s) /\
    (marker ∈ pr_remove s \/ provided_markers (pr_ready s) !! marker = None)).
  set (mu := fun s => (length (pr_remove s) + tx_requires_total (txs (pr_ready s)) * B)%nat).
  assert (HInv0 : Inv s0) by (split_and!; try done; [apply accounted_refl|left; left]).
  assert (Hstep : forall s s', Inv s -> prune_step s = inl s' -> Inv s' /\ (mu s' < mu s)%nat).
  { intros [[|m rest] r rem] s' (Hw & Hs & Hp & Hi & Ha & Hm); unfold prune_step; simpl in Hw, Hs, Hp, Hi, Ha, Hm |- *; [done|].
    destruct (provided_markers r !! m) as [h0|] eqn:Em; simpl.
    2: { intros [= <-]. assert (E : delete m (provided_markers r) = provided_markers r) by (by apply delete_id).
         unfold Inv, mu. simpl. rewrite E. change (txs {| id := _; provided_markers := _; ready_tx := ready_tx r;
           independent_transactions := _ |}) with (txs r). unfold rwf. simpl. split; [|lia]. split_and!; try done.
         destruct Hm as [[->|?]%elem_of_cons|?]; auto. }
    destruct (rwf_provided _ _ _ Hw _ _ Em) as [?|(tx & Htx & Hmem)]; [set_solver|].
    pose proof Htx as Htx'. rewrite lookup_txs in Htx. apply fmap_Some in Htx as (rt & Ert & ->). rewrite Ert. simpl.
    destruct (prune_entry_facts m h0 rt rest r Hw Em Ert) as (r' & remove & -> & Hw' & Ht' & Hp' & Hm' & Hi' & Hk & Hlen).
    intros [= <-]. unfold Inv, mu. simpl. split.
    - split_and!; [done| | |congruence| |].
      + rewrite Ht'. etrans; [apply delete_subseteq|done].
      + by etrans.
      + apply (accounted_delete _ r _ _ h0); try done. by apply (rwf_hash _ _ _ Hw).
      + destruct Hm as [[->|Hin]%elem_of_cons|Hn]; [by right|left; auto|right]. by eapply lookup_weaken_None.
    - specialize (Hlen B). rewrite Ht'. unfold tx_requires_total.
      rewrite (msum_delete _ (txs r) h0 (rt_tx rt) Htx').
      assert (Hle : (length remove <= length rest + length (requires (rt_tx rt)) * B)%nat).
      { apply Hlen. intros h tx Hl. apply (HB h). by eapply lookup_weaken. }
      lia. }
  destruct (iterate_total prune_step Inv mu Hstep (prune_fuel st) s0 HInv0) as [R HR].
  { unfold mu, prune_fuel, s0. simpl. rewrite requires_total_txs. fold B. lia. }
  rewrite HR.
  assert (Hfin : exists st' removed, R = Ret (st', removed) /\ Inv {| pr_remove := []; pr_ready := st'; pr_removed := removed |}).
  { refine (iterate_ind prune_step Inv (fun R => exists st' removed, R = Ret (st', removed) /\
      Inv {| pr_remove := []; pr_ready := st'; pr_removed := removed |}) _ _ _ s0 R HInv0 HR).
    - intros s s' Hs Hst. by destruct (Hstep s s' Hs Hst).
    - intros [[|m rest] r rem] R' (Hw & Hs & Hp & Hi & Ha & Hm); unfold prune_step; simpl in Hw, Hs, Hp, Hi, Ha, Hm |- *.
      { intros [= <-]. by exists r, rem. }
      destruct (provided_markers r !! m) as [h0|] eqn:Em; simpl; [|done].
      destruct (ready_tx r !! h0) as [rt|] eqn:Ert; simpl; [|done].
      by destruct (prune_entry_facts m h0 rt rest r Hw Em Ert) as (r' & remove & -> & _). }
  destruct Hfin as (st' & removed & -> & Hw & Hs & Hp & Hi & Ha & Hm). simpl in *.
  exists st', removed. split_and!; try done. destruct Hm; [set_solver|done].
Qed.

(** ** Insertion *)
Lemma lookup_insert_marks marks h provided m :
  insert_marks marks h provided !! m = if decide (m ∈ marks) then Some h else provided !! m.
Proof.
  unfold insert_marks. revert provided. induction marks as [|m0 marks IH]; intros provided; cbn [foldl].
  { case_decide; [set_solver|done]. }
  rewrite IH. destruct (decide (m = m0)) as [->|].
  - rewrite lookup_insert_eq. repeat case_decide; set_solver.
  - rewrite lookup_insert_ne by done. repeat case_decide; set_solver.
Qed.

Section ReadyInsert.
Context `{IO : IterOrder} {IOL : IterOrderLaws}.

Lemma check_replaced_err tx unlocked rts e :
  check_replaced tx unlocked rts = inr e ->
  e = ReplacementUnderpriced (hash tx) /\
  exists rt, rt ∈ rts /\ provides (rt_tx rt) = provides tx /\ max_fee_per_gas tx <= max_fee_per_gas (rt_tx rt).
Proof.
  revert unlocked. induction rts as [|rt rts IH]; intros unlocked; simpl; [done|].
  destruct (bool_decide _ && _) eqn:E.
  - intros [= <-]. apply andb_prop in E as [Ep%bool_decide_eq_true Ef%Z.leb_le].
    split; [done|]. exists rt. split_and!; [left|done|done].
  - intros H. destruct (IH _ H) as (-> & rt' & Hin & ? & ?). split; [done|]. exists rt'. split_and!; [by right|done|done].
Qed.

Lemma check_replaced_ok tx unlocked rts u :
  check_replaced tx unlocked rts = inl u ->
  forall rt, rt ∈ rts -> provides (rt_tx rt) = provides tx -> max_fee_per_gas (rt_tx rt) < max_fee_per_gas tx.
Proof.
  revert unlocked. induction rts as [|rt rts IH]; intros unlocked; simpl; [set_solver|].
  destruct (bool_decide _ && _) eqn:E; [done|]. intros H rt' [->|Hin]%elem_of_cons Hp; [|by eapply IH].
  apply andb_false_iff in E as [Ep%bool_decide_eq_false|Ef%Z.leb_gt]; [done|lia].
Qed.

Lemma elem_of_replaced h tx st :
  h ∈ replaced_hashes tx st <-> exists m, m ∈ provides tx /\ provided_markers st !! m = Some h.
Proof.
  unfold replaced_hashes. rewrite elem_of_list_to_set, list_elem_of_omap. done.
Qed.

Lemma links_ok h ms provided ready ind off :
  (forall m p, m ∈ ms -> provided !! m = Some p -> is_Some (ready !! p)) ->
  exists ready' ind' off', ofold (fun m acc => link h m acc provided) ms (ready, ind, off) = Ret (ready', ind', off') /\
    rt_tx <$> ready' = rt_tx <$> ready.
Proof.
  revert ready ind off. induction ms as [|m ms IH]; intros ready ind off Hp; [by eexists _, _, _|].
  cbn [ofold]. unfold link at 1. destruct (provided !! m) as [p|] eqn:Em.
  - destruct (Hp m p (list_elem_of_here _ _) Em) as [rt Ert]. rewrite Ert. cbn [obind].
    assert (Hfm : rt_tx <$> <[p := set_unlocks rt (unlocks rt ++ [h])]> ready = rt_tx <$> ready).
    { rewrite fmap_insert. apply map_eq. intros h'. destruct (decide (h' = p)) as [->|]; [|by rewrite lookup_insert_ne].
      rewrite lookup_insert_eq, lookup_fmap, Ert. done. }
    destruct (IH (<[p := set_unlocks rt (unlocks rt ++ [h])]> ready) false off) as (r' & i' & o' & -> & Hr).
    + intros m' p' Hm' Hp'. destruct (Hp m' p' (list_elem_of_further _ _ _ Hm') Hp') as [rt' Hrt'].
      destruct (decide (p' = p)) as [->|]; [rewrite lookup_insert_eq; eauto|rewrite lookup_insert_ne by done; eauto].
    + eexists _, _, _. split; [done|]. congruence.
  - cbn [obind]. apply IH. intros m' p' Hm'. apply Hp. by right.
Qed.

Lemma insert_ready_spec tx u st :
  rwf_upto (list_to_set (provides tx)) (provided_markers st) (txs st) ->
  (forall h tx' m, txs st !! h = Some tx' -> m ∈ provides tx' -> m ∉ provides tx) ->
  tx_ok tx -> txs st !! hash tx = None ->
  exists st', insert_ready tx u st = Ret st' /\ rwf st' /\ txs st' = <[hash tx := tx]> (txs st) /\
    provided_markers st' = insert_marks (provides tx) (hash tx) (provided_markers st).
Proof.
  intros [Hh Hok Hp Hpi] Hdis Htx Hnew. unfold insert_ready.
  destruct (links_ok (hash tx) (requires tx) (provided_markers st) (ready_tx st) true 0) as (r' & i' & o' & -> & Hr).
  { intros m p Hm Hmp. destruct (Hpi m p Hmp) as [Hin%elem_of_list_to_set|(tx' & Hl & _)].
    - by destruct (tx_no_self _ Htx m Hm).
    - rewrite lookup_txs in Hl. apply fmap_Some in Hl as (rt & -> & _). eauto. }
  cbn [obind]. eexists. split; [reflexivity|].
  assert (Htxs : forall i p ind rt, rt_tx rt = tx -> txs {| id := i; provided_markers := p; ready_tx := <[hash tx := rt]> r';
     independent_transactions := ind |} = <[hash tx := tx]> (txs st)).
  { intros i p ind rt Hrt. unfold txs. cbn [ready_tx]. rewrite fmap_insert, Hr, Hrt. done. }
  split_and!; [|by apply Htxs|done]. unfold rwf. rewrite Htxs by done. cbn [provided_markers]. split.
  - intros h tx' [[<- <-]|[_ ?]]%lookup_insert_Some; [done|eauto].
  - intros h tx' [[<- <-]|[_ ?]]%lookup_insert_Some; [done|eauto].
  - intros h tx' m [[<- <-]|[_ Hl]]%lookup_insert_Some Hm; rewrite lookup_insert_marks.
    + by rewrite decide_True.
    + rewrite decide_False; [eauto|]. by eapply Hdis.
  - intros m h. rewrite lookup_insert_marks. case_decide as Hm.
    + intros [= <-]. right. exists tx. by rewrite lookup_insert_eq.
    + intros Hmp. destruct (Hpi m h Hmp) as [Hin%elem_of_list_to_set|(tx' & Hl & Hin)]; [done|]. right.
      exists tx'. rewrite lookup_insert_ne; [done|]. intros <-. congruence.
Qed.

(** Every transaction that shares a marker with the new one is replaced. *)
Lemma replaced_transactions_spec tx st :
  rwf st ->
  exists r, replaced_transactions tx st = Some r /\
    match r with
    | inr e => e = ReplacementUnderpriced (hash tx) /\
               exists h tx', txs st !! h = Some tx' /\ provides tx' = provides tx /\
                 max_fee_per_gas tx <= max_fee_per_gas tx'
    | inl (st', removed, u) =>
        rwf_upto (list_to_set (provides tx)) (provided_markers st') (txs st') /\
        txs st' ⊆ txs st /\ provided_markers st' ⊆ provided_markers st /\
        (forall h tx' m, txs st' !! h = Some tx' -> m ∈ provides tx' -> m ∉ provides tx) /\
        accounted st st' removed /\
        (forall h tx', txs st !! h = Some tx' -> provides tx' = provides tx -> provides tx <> [] ->
           max_fee_per_gas tx' < max_fee_per_gas tx)
    end.
Proof.
  intros Hwf. unfold replaced_transactions.
  assert (Hshare : forall h tx' m, txs st !! h = Some tx' -> m ∈ provides tx' -> m ∈ provides tx -> h ∈ replaced_hashes tx st).
  { intros h tx' m Hl Hm Hm'. apply elem_of_replaced. exists m. split; [done|]. by apply (rwf_provides _ _ _ Hwf _ _ _ Hl). }
  assert (Hweak : rwf_upto (list_to_set (provides tx)) (provided_markers st) (txs st)).
  { destruct Hwf as [H1 H2 H3 H4]. split; try done. intros m h Hl. destruct (H4 m h Hl); [set_solver|by right]. }
  case_decide as He.
  - eexists. split; [done|]. cbn beta iota. split_and!; try done; [|apply accounted_refl|].
    + intros h tx' m Hl Hm Hm'. specialize (Hshare _ _ _ Hl Hm Hm'). set_solver.
    + intros h tx' Hl Hp Hne. destruct (provides tx) as [|m0 ms] eqn:Ep; [done|].
      assert (h ∈ replaced_hashes tx st); [|set_solver].
      apply (Hshare h tx' m0 Hl); [rewrite Hp|]; left.
  - set (rts := omap (fun h => ready_tx st !! h) (iter_hashes (replaced_hashes tx st))).
    assert (Hrts : forall rt, rt ∈ rts <-> exists h, h ∈ replaced_hashes tx st /\ ready_tx st !! h = Some rt).
    { intros rt. unfold rts. rewrite list_elem_of_omap. setoid_rewrite elem_of_iter_hashes. done. }
    destruct (check_replaced tx [] rts) as [u|e] eqn:Ec.
    + destruct (remove_with_markers_spec (iter_hashes (replaced_hashes tx st)) (Some (list_to_set (provides tx))) st Hweak)
        as (st' & removed & -> & Hw' & Hs' & Hp' & _ & Hgone & Hacc).
      eexists. split; [done|]. cbn beta iota. split_and!; try done.
      * intros h tx' m Hl Hm Hm'. assert (Hin : h ∈ replaced_hashes tx st) by (by eapply Hshare; [eapply lookup_weaken| |]).
        rewrite Hgone in Hl; [done|]. by apply elem_of_iter_hashes.
      * intros h tx' Hl Hp Hne. pose proof Hl as Hl'. rewrite lookup_txs in Hl'. apply fmap_Some in Hl' as (rt & Ert & ->).
        apply (check_replaced_ok _ _ _ _ Ec rt); [|done]. apply Hrts. exists h. split; [|done].
        destruct (provides tx) as [|m0 ms] eqn:Ep; [done|]. apply (Hshare h (rt_tx rt) m0 Hl); [rewrite Hp|]; left.
    + apply check_replaced_err in Ec as (-> & rt & Hin & Hp & Hf). eexists. split; [done|]. split; [done|].
      apply Hrts in Hin as (h & _ & Hl). exists h, (rt_tx rt). split_and!; [by apply txs_Some|done|done].
Qed.

Lemma ready_add_spec ptx st :
  rwf st -> is_ready ptx = true -> tx_ok (ppt_transaction ptx) -> txs st !! hash (ppt_transaction ptx) = None ->
  let tx := ppt_transaction ptx in
  exists r, add_transaction ptx st = Some (Ret r) /\
    match r with
    | inr e => e = ReplacementUnderpriced (hash tx) /\
               exists h tx', txs st !! h = Some tx' /\ provides tx' = provides tx /\
                 max_fee_per_gas tx <= max_fee_per_gas tx'
    | inl (st', removed) =>
        rwf st' /\ txs st' !! hash tx = Some tx /\
        (forall h tx', txs st' !! h = Some tx' -> h = hash tx \/ txs st !! h = Some tx') /\
        (forall m, is_Some (provided_markers st' !! m) -> m ∈ provides tx \/ is_Some (provided_markers st !! m)) /\
        (forall h tx', txs st !! h = Some tx' -> txs st' !! h = Some tx' \/ tx' ∈ removed) /\
        (forall h tx', txs st !! h = Some tx' -> provides tx' = provides tx -> provides tx <> [] ->
           max_fee_per_gas tx' < max_fee_per_gas tx)
    end.
Proof.
  intros Hwf Hr Hok Hnew tx. unfold add_transaction. rewrite Hr. cbn [negb].
  assert (Hc : contains st (hash tx) = false).
  { unfold contains. apply bool_decide_eq_false. intros [rt Hrt]. apply txs_Some in Hrt. unfold tx in Hrt. congruence. }
  fold tx. rewrite Hc. destruct (replaced_transactions_spec tx st Hwf) as ([[[st1 removed] u]|e] & -> & Hspec).
  - destruct Hspec as (Hw1 & Hs1 & Hp1 & Hd1 & [Hacc _] & Hfee).
    destruct (insert_ready_spec tx u st1 Hw1 Hd1 Hok) as (st' & -> & Hw' & Ht' & Hp').
    { by eapply lookup_weaken_None. }
    eexists. split; [reflexivity|]. cbn beta iota. split_and!; try done.
    + rewrite Ht'. apply lookup_insert_eq.
    + intros h tx'. rewrite Ht'. intros [[<- <-]|[_ Hl]]%lookup_insert_Some; [by left|right]. by eapply lookup_weaken.
    + intros m. rewrite Hp', lookup_insert_marks. case_decide; [by left|]. intros [h Hl]. right. exists h. by eapply lookup_weaken.
    + intros h tx' Hl. destruct (Hacc h tx' Hl) as [Hin|]; [left|by right]. rewrite Ht', lookup_insert_ne; [done|].
      intros E. rewrite <- E in Hl. unfold tx in Hl. congruence.
  - eexists. split; [reflexivity|]. exact Hspec.
Qed.
End ReadyInsert.
