(* ===== verification/PoolInv.v ===== *)
(** * PoolInv: the pool as a whole

    The invariant [pool_inv] ties the two queues together: no transaction is in
    both, and a waiting transaction misses only markers that no ready
    transaction provides.  Every operation keeps it, returns, and does not
    panic; errors leave the pool as it was. *)

From Stdlib Require Import ZArith Lia.
From stdpp Require Import base list gmap sets option.
From S2P Require Import Prelude Pool PoolPending PoolReady.
Local Open Scope Z_scope.
Import Inner.

Abbreviation waiting p := (Pending.waiting_queue (pending_transactions p)).
Abbreviation ready p := (txs (ready_transactions p)).
Abbreviation provided p := (Ready.provided_markers (ready_transactions p)).

Record pool_inv (p : PoolInner) : Prop := {
  pi_pending : wf (pending_transactions p);
  pi_ready : rwf (ready_transactions p);
  pi_disjoint : forall h tx, ready p !! h = Some tx -> waiting p !! h = None;
  pi_missing : forall h w m, waiting p !! h = Some w -> m ∈ missing_markers w -> provided p !! m = None;
  pi_ok : forall h w, waiting p !! h = Some w -> tx_ok (ppt_transaction w)
}.

Lemma empty_queues_inv (r : Ready.ReadyTransactions) :
  txs r = ∅ -> Ready.provided_markers r = ∅ -> pool_inv (set_pool r Pending.empty).
Proof.
  intros Ht Hp. split; simpl.
  - apply empty_wf.
  - unfold rwf. rewrite Ht, Hp. split; intros *; by rewrite lookup_empty.
  - intros h tx. by rewrite Ht, lookup_empty.
  - intros h w m. by rewrite lookup_empty.
  - intros h w. by rewrite lookup_empty.
Qed.

Lemma empty_inv : pool_inv Inner.empty.
Proof. apply (empty_queues_inv Ready.empty); [unfold txs; simpl; apply fmap_empty|done]. Qed.

Lemma clear_inv p : pool_inv (Inner.clear p).
Proof. apply (empty_queues_inv (Ready.clear _)); [unfold txs; simpl; apply fmap_empty|done]. Qed.

(** Shrinking both queues keeps the invariant. *)
Lemma pool_inv_shrink p r q :
  pool_inv p -> rwf r -> wf q ->
  txs r ⊆ ready p -> Ready.provided_markers r ⊆ provided p ->
  (forall h w, Pending.waiting_queue q !! h = Some w ->
     exists w0, waiting p !! h = Some w0 /\ ppt_transaction w = ppt_transaction w0 /\
       missing_markers w ⊆ missing_markers w0) ->
  pool_inv (set_pool r q).
Proof.
  intros [Hp Hr Hd Hm Hok] Hr' Hq' Ht Hprov Hsub. split; simpl; try done.
  - intros h tx Hl. destruct (Pending.waiting_queue q !! h) as [w|] eqn:E; [|done].
    destruct (Hsub h w E) as (w0 & Hw0 & _). pose proof (Hd h tx (lookup_weaken _ _ _ _ Hl Ht)). congruence.
  - intros h w m Hl Hin. destruct (Hsub h w Hl) as (w0 & Hw0 & _ & Hmis).
    eapply lookup_weaken_None; [|exact Hprov]. eapply Hm; [exact Hw0|]. set_solver.
  - intros h w Hl. destruct (Hsub h w Hl) as (w0 & Hw0 & -> & _). eauto.
Qed.

Lemma sub_queue (q q0 : gmap TxHash PendingPoolTransaction) :
  q ⊆ q0 -> forall h w, q !! h = Some w -> exists w0, q0 !! h = Some w0 /\
    ppt_transaction w = ppt_transaction w0 /\ missing_markers w ⊆ missing_markers w0.
Proof. intros Hs h w Hl. exists w. split_and!; [by eapply lookup_weaken|done|done]. Qed.

(** A transaction on its way into the ready queue. *)
Record promotable (p : PoolInner) (u : PendingPoolTransaction) : Prop := {
  pr_rdy : is_ready u = true;
  pr_tx_ok : tx_ok (ppt_transaction u);
  pr_not_ready : ready p !! hash (ppt_transaction u) = None;
  pr_not_waiting : waiting p !! hash (ppt_transaction u) = None
}.
Abbreviation uhash := (fun u => hash (ppt_transaction u)).

Section PoolOps.
Context `{IO : IterOrder} {IOL : IterOrderLaws}.

(** ** Marking *)
Record mark_effect (ms : list TxMarker) (p : PoolInner) (q : Pending.PendingTransactions)
    (un : list PendingPoolTransaction) : Prop := {
  me_wf : wf q;
  me_sub : forall h w, Pending.waiting_queue q !! h = Some w ->
    exists w0, waiting p !! h = Some w0 /\ ppt_transaction w = ppt_transaction w0 /\
      missing_markers w = missing_markers w0 ∖ list_to_set ms;
  me_nodup : NoDup (map uhash un);
  me_unlocked : forall u, u ∈ un -> is_ready u = true /\ tx_ok (ppt_transaction u) /\
    is_Some (waiting p !! uhash u) /\ Pending.waiting_queue q !! uhash u = None;
  me_cover : forall h w, waiting p !! h = Some w ->
    is_Some (Pending.waiting_queue q !! h) \/ ppt_transaction w ∈ map ppt_transaction un;
  me_size : (length un + size (Pending.waiting_queue q) <= size (waiting p))%nat
}.

Lemma marked_effect ms p q un :
  pool_inv p -> marked ms (pending_transactions p) q un -> mark_effect ms p q un.
Proof.
  intros [Hp _ _ _ Hok] [Hw Hq Hnd Hun].
  assert (Hu : forall u, u ∈ un -> is_ready u = true /\ tx_ok (ppt_transaction u) /\
    is_Some (waiting p !! uhash u) /\ Pending.waiting_queue q !! uhash u = None).
  { intros u (h & w & Hl & He & ->)%Hun. simpl. rewrite (wf_hash _ Hp _ _ Hl), Hl, Hq, lookup_omap, Hl. simpl.
    split_and!; [by apply bool_decide_eq_true|eauto|eauto|by apply after_marks_None]. }
  split; try done.
  - intros h w Hl. rewrite Hq, lookup_omap in Hl. destruct (waiting p !! h) as [w0|] eqn:E; [|done]. simpl in Hl.
    apply after_marks_Some in Hl as (_ & H1 & H2). eauto.
  - intros h w Hl. rewrite Hq, lookup_omap, Hl. simpl. destruct (after_marks (list_to_set ms) w) as [w'|] eqn:E; [eauto|].
    right. apply after_marks_None in E. apply list_elem_of_In, in_map_iff.
    exists {| ppt_transaction := ppt_transaction w; missing_markers := ∅ |}. split; [done|].
    apply list_elem_of_In, Hun. exists h, w. split_and!; done.
  - rewrite <- (length_map uhash un). rewrite <- (size_list_to_set (C := gset TxHash) (map uhash un)) by done.
    rewrite <- !size_dom. rewrite <- size_union.
    + apply subseteq_size. intros h. rewrite elem_of_union, elem_of_list_to_set, !elem_of_dom.
      intros [Hin|[w Hl]].
      * apply list_elem_of_In, in_map_iff in Hin as (u & <- & Hin%list_elem_of_In). by apply Hu in Hin as (_ & _ & ? & _).
      * rewrite Hq, lookup_omap in Hl. destruct (waiting p !! h); [eauto|done].
    + intros h. rewrite elem_of_list_to_set, elem_of_dom. intros Hin [w Hl].
      apply list_elem_of_In, in_map_iff in Hin as (u & <- & Hin%list_elem_of_In). apply Hu in Hin as (_ & _ & _ & ?). congruence.
Qed.

Lemma mark_spec ms p :
  pool_inv p -> exists q un, Pending.mark_and_unlock ms (pending_transactions p) = Ret (q, un) /\ mark_effect ms p q un.
Proof.
  intros Hp. destruct (mark_and_unlock_spec ms _ (pi_pending _ Hp)) as (q & un & -> & Hm).
  exists q, un. split; [done|]. by apply marked_effect.
Qed.

(** ** The queue of [add_ready_transaction] *)
Record add_inv (s : AddState) : Prop := {
  ai_pool : pool_inv (ad_pool s);
  ai_nodup : NoDup (map uhash (ad_queue s));
  ai_queue : forall u, u ∈ ad_queue s -> promotable (ad_pool s) u
}.

(** After the providers of [ms] joined the ready queue. *)
Lemma pool_inv_promote ms p q un r tx :
  pool_inv p -> mark_effect ms p q un -> rwf r ->
  waiting p !! hash tx = None -> ms = provides tx ->
  (forall h tx', txs r !! h = Some tx' -> h = hash tx \/ ready p !! h = Some tx') ->
  (forall m, is_Some (Ready.provided_markers r !! m) -> m ∈ provides tx \/ is_Some (provided p !! m)) ->
  pool_inv (set_pool r q).
Proof.
  intros [Hp Hr Hd Hm Hok] [Hw Hsub _ _ _ _] Hr' Hnw -> Ht Hprov. split; simpl; try done.
  - intros h tx' Hl. destruct (Pending.waiting_queue q !! h) as [w|] eqn:E; [|done].
    destruct (Hsub h w E) as (w0 & Hw0 & _). destruct (Ht h tx' Hl) as [->|Hl']; [congruence|].
    pose proof (Hd _ _ Hl'). congruence.
  - intros h w m Hl Hin. destruct (Hsub h w Hl) as (w0 & Hw0 & _ & Hmis). rewrite Hmis in Hin.
    apply elem_of_difference in Hin as [Hin Hnm]. rewrite elem_of_list_to_set in Hnm.
    destruct (Ready.provided_markers r !! m) as [h'|] eqn:E; [|done]. exfalso.
    destruct (Hprov m) as [?|[h'' Hl'']]; [eauto|done|]. pose proof (Hm _ _ _ Hw0 Hin). congruence.
  - intros h w Hl. destruct (Hsub h w Hl) as (w0 & Hw0 & -> & _). eauto.
Qed.

(** The rest of the queue and what was unlocked stay promotable. *)
Lemma queue_promote ms p q un r tx rest :
  pool_inv p -> mark_effect ms p q un ->
  (forall h tx', txs r !! h = Some tx' -> h = hash tx \/ ready p !! h = Some tx') ->
  waiting p !! hash tx = None ->
  NoDup (hash tx :: map uhash rest) -> (forall u, u ∈ rest -> promotable p u) ->
  NoDup (map uhash (rest ++ un)) /\ forall u, u ∈ rest ++ un -> promotable (set_pool r q) u.
Proof.
  intros Hinv [Hw Hsub Hnd Hu _ _] Ht Hnw Hndr Hrest.
  pose proof (NoDup_cons_1_1 _ _ Hndr) as Hnin. apply NoDup_cons_1_2 in Hndr.
  assert (Hnr : forall h, h <> hash tx -> ready p !! h = None -> txs r !! h = None).
  { intros h Hne Hn. destruct (txs r !! h) as [tx'|] eqn:E; [|done]. destruct (Ht h tx' E); [done|congruence]. }
  split.
  - rewrite map_app. apply list.NoDup_app. split_and!; [done| |done].
    intros h Hh1 Hh2. apply list_elem_of_In, in_map_iff in Hh1 as (u1 & <- & Hin1%list_elem_of_In).
    apply list_elem_of_In, in_map_iff in Hh2 as (u2 & Heq & Hin2%list_elem_of_In).
    pose proof (pr_not_waiting _ _ (Hrest _ Hin1)) as Hn. apply Hu in Hin2 as (_ & _ & [w Hs] & _).
    simpl in *. rewrite Heq in Hs. congruence.
  - intros u [Hin|Hin]%elem_of_app.
    + destruct (Hrest u Hin) as [H1 H2 H3 H4]. split; simpl; try done.
      * apply Hnr; [|done]. intros E. apply Hnin. rewrite <- E. apply list_elem_of_In, in_map_iff. exists u.
        split; [done|]. by apply list_elem_of_In.
      * destruct (Pending.waiting_queue q !! hash (ppt_transaction u)) as [w|] eqn:E; [|done].
        destruct (Hsub _ _ E) as (w0 & ? & _). congruence.
    + destruct (Hu u Hin) as (H1 & H2 & [w Hl] & H4). split; simpl; try done.
      apply Hnr.
      * intros E. simpl in Hl. rewrite E in Hl. congruence.
      * destruct (ready p !! hash (ppt_transaction u)) as [tx'|] eqn:E; [|done].
        pose proof (pi_disjoint _ Hinv _ _ E). simpl in Hl. congruence.
Qed.

Definition add_measure (s : AddState) : nat :=
  (length (ad_queue s) + size (waiting (ad_pool s)))%nat.

(** What a step that goes on did: it inserted the head [cur] of the queue
    or discarded it, and queued what its markers unlocked. *)
Record add_progress (s s' : AddState) (cur : PendingPoolTransaction)
    (rest un : list PendingPoolTransaction) : Prop := {
  ap_queue : ad_queue s = cur :: rest;
  ap_queue' : ad_queue s' = rest ++ un;
  ap_mark : mark_effect (provides (ppt_transaction cur)) (ad_pool s) (pending_transactions (ad_pool s')) un;
  ap_ready : forall h tx', ready (ad_pool s') !! h = Some tx' -> h = uhash cur \/ ready (ad_pool s) !! h = Some tx';
  ap_kept : forall h tx', ready (ad_pool s) !! h = Some tx' ->
    ready (ad_pool s') !! h = Some tx' \/ tx' ∈ replaced (ad_ready s');
  ap_replaced : forall tx', tx' ∈ replaced (ad_ready s) -> tx' ∈ replaced (ad_ready s');
  ap_discarded : forall h, h ∈ discarded (ad_ready s) -> h ∈ discarded (ad_ready s');
  ap_hash : added_hash (ad_ready s') = added_hash (ad_ready s);
  ap_new : ad_is_new s' = false;
  ap_done : ready (ad_pool s') !! uhash cur = Some (ppt_transaction cur) \/
            (ad_is_new s = false /\ uhash cur ∈ discarded (ad_ready s'))
}.

Lemma add_step_ok s :
  add_inv s ->
  match add_step s with
  | inl s' => add_inv s' /\ (add_measure s' < add_measure s)%nat /\
              exists cur rest un, add_progress s s' cur rest un
  | inr None => False
  | inr (Some Panic) => False
  | inr (Some (Ret (p', inl _))) => pool_inv p' /\ ad_queue s = [] /\ p' = ad_pool s
  | inr (Some (Ret (p', inr e))) =>
      pool_inv p' /\ ad_is_new s = true /\
      exists current rest, ad_queue s = current :: rest /\
        e = ReplacementUnderpriced (uhash current) /\
        ready_transactions p' = ready_transactions (ad_pool s) /\
        exists h tx', ready (ad_pool s) !! h = Some tx' /\ provides tx' = provides (ppt_transaction current) /\
          max_fee_per_gas (ppt_transaction current) <= max_fee_per_gas tx' /\
          exists un, Pending.mark_and_unlock (provides (ppt_transaction current)) (pending_transactions (ad_pool s))
                     = Ret (pending_transactions p', un)
  end.
Proof.
  intros [Hp Hnd Hq]. destruct s as [queue p rdy new]. simpl in *. unfold add_step. simpl.
  destruct queue as [|cur rest]; simpl; [done|].
  set (tx := ppt_transaction cur). pose proof (Hq cur (list_elem_of_here _ _)) as [Hrdy Hok Hnr Hnw].
  destruct (mark_spec (provides tx) p Hp) as (q & un & Emark & He). rewrite Emark.
  destruct (ready_add_spec cur (ready_transactions p) (pi_ready _ Hp) Hrdy Hok Hnr) as (r & -> & Hr).
  destruct r as [[r removed]|e].
  - destruct Hr as (Hw & Hin & Hold & Hprov & Hacc & _).
    destruct (queue_promote _ _ _ _ r tx rest Hp He Hold Hnw Hnd) as [Hnd' Hq'].
    { intros u Hu. apply Hq. by right. }
    split_and!; [|unfold add_measure; simpl; rewrite length_app; pose proof (me_size _ _ _ _ He); lia|].
    { split; simpl; [|done|done]. by eapply (pool_inv_promote _ _ _ _ r tx). }
    exists cur, rest, un. split; simpl; try done; [|set_solver|by left].
    intros h tx' Hl. destruct (Hacc h tx' Hl); [by left|right; set_solver].
  - destruct Hr as (-> & h & tx' & Hl & Hprov & Hfee).
    assert (Hkeep : pool_inv (set_pool (ready_transactions p) q)).
    { eapply (pool_inv_shrink p); [done|by apply pi_ready|by apply (me_wf _ _ _ _ He)|done|done|].
      intros h' w Hw. destruct (me_sub _ _ _ _ He h' w Hw) as (w0 & ? & ? & ->). exists w0. split_and!; [done|done|set_solver]. }
    destruct new; simpl.
    + split_and!; [done|done|]. exists cur, rest. split_and!; [done|done|done|]. exists h, tx'. split_and!; try done.
      exists un. exact Emark.
    + destruct (queue_promote _ _ _ _ (ready_transactions p) tx rest Hp He (fun h tx Hh => or_intror Hh) Hnw Hnd) as [Hnd' Hq'].
      { intros u Hu. apply Hq. by right. }
      split_and!; [|unfold add_measure; simpl; rewrite length_app; pose proof (me_size _ _ _ _ He); lia|].
      { by split. }
      exists cur, rest, un. split; simpl; try done; [by right|by left|set_solver|right; set_solver].
Qed.
(** ** The whole loop *)
Definition pooled (p : PoolInner) (h : TxHash) (tx : PoolTransaction) : Prop :=
  ready p !! h = Some tx \/ ppt_transaction <$> waiting p !! h = Some tx.
Definition fresh (p : PoolInner) (h : TxHash) : Prop := ready p !! h = None /\ waiting p !! h = None.

Record add_run (p0 : PoolInner) (ptx : PendingPoolTransaction) (s : AddState) : Prop := {
  ar_inv : add_inv s;
  ar_hash : added_hash (ad_ready s) = uhash ptx;
  ar_fresh : forall h, h <> uhash ptx -> fresh p0 h -> fresh (ad_pool s) h /\ h ∉ map uhash (ad_queue s);
  ar_new : ad_is_new s = true -> ad_queue s = [ptx] /\ ad_pool s = p0;
  ar_added : ad_is_new s = false ->
    ready (ad_pool s) !! uhash ptx = Some (ppt_transaction ptx) \/ ppt_transaction ptx ∈ replaced (ad_ready s);
  ar_cover : forall h tx, pooled p0 h tx ->
    pooled (ad_pool s) h tx \/ tx ∈ map ppt_transaction (ad_queue s) \/
    tx ∈ replaced (ad_ready s) \/ h ∈ discarded (ad_ready s)
}.

Lemma uhash_in u l : u ∈ l -> uhash u ∈ map uhash l.
Proof. intros. apply list_elem_of_In, in_map_iff. exists u. split; [done|]. by apply list_elem_of_In. Qed.

Lemma pooled_hash p h tx : pool_inv p -> pooled p h tx -> hash tx = h.
Proof.
  intros Hp [Hr|(w & Hl & ->)%fmap_Some].
  - by apply (rwf_hash _ _ _ (pi_ready _ Hp)).
  - by apply (wf_hash _ (pi_pending _ Hp)).
Qed.

Lemma progress_cover s s' cur rest un h tx :
  add_inv s -> add_progress s s' cur rest un -> pooled (ad_pool s) h tx ->
  pooled (ad_pool s') h tx \/ tx ∈ map ppt_transaction (ad_queue s') \/ tx ∈ replaced (ad_ready s').
Proof.
  intros Hi Hp [Hr|Hw].
  - destruct (ap_kept _ _ _ _ _ Hp _ _ Hr); [left; by left|auto].
  - apply fmap_Some in Hw as (w & Hl & ->). destruct (me_cover _ _ _ _ (ap_mark _ _ _ _ _ Hp) _ _ Hl) as [[w' Hl']|Hin].
    + left. right. rewrite Hl'. simpl. destruct (me_sub _ _ _ _ (ap_mark _ _ _ _ _ Hp) _ _ Hl') as (w0 & H0 & -> & _). congruence.
    + right. left. rewrite (ap_queue' _ _ _ _ _ Hp), map_app. apply elem_of_app. by right.
Qed.

Lemma progress_fresh s s' cur rest un h :
  add_progress s s' cur rest un -> fresh (ad_pool s) h -> h ∉ map uhash (ad_queue s) ->
  fresh (ad_pool s') h /\ h ∉ map uhash (ad_queue s').
Proof.
  intros Hp [Hr Hw] Hq. rewrite (ap_queue _ _ _ _ _ Hp) in Hq. cbn [map] in Hq. apply not_elem_of_cons in Hq as [Hne Hq].
  split; [split|].
  - destruct (ready (ad_pool s') !! h) as [tx|] eqn:E; [|done].
    destruct (ap_ready _ _ _ _ _ Hp _ _ E); [done|congruence].
  - destruct (waiting (ad_pool s') !! h) as [w|] eqn:E; [|done].
    destruct (me_sub _ _ _ _ (ap_mark _ _ _ _ _ Hp) _ _ E) as (w0 & ? & _). congruence.
  - rewrite (ap_queue' _ _ _ _ _ Hp), map_app. intros [Hin|Hin]%elem_of_app; [done|].
    apply list_elem_of_In, in_map_iff in Hin as (u & <- & Hin%list_elem_of_In).
    apply (me_unlocked _ _ _ _ (ap_mark _ _ _ _ _ Hp)) in Hin as (_ & _ & [w Hl] & _). simpl in *. congruence.
Qed.

Lemma add_run_step p0 ptx s s' cur rest un :
  pool_inv p0 -> add_run p0 ptx s -> add_inv s' -> add_progress s s' cur rest un -> add_run p0 ptx s'.
Proof.
  intros H0 [Hi Hh Hf Hn Ha Hc] Hi' Hp. split; [done|by rewrite (ap_hash _ _ _ _ _ Hp)| | | |].
  - intros h Hne Hfr. destruct (Hf h Hne Hfr). by eapply progress_fresh.
  - rewrite (ap_new _ _ _ _ _ Hp). done.
  - intros _. destruct (ad_is_new s) eqn:En.
    + destruct (Hn eq_refl) as [Hq _]. rewrite (ap_queue _ _ _ _ _ Hp) in Hq. injection Hq as -> ->.
      destruct (ap_done _ _ _ _ _ Hp) as [?|[? _]]; [by left|congruence].
    + destruct (Ha eq_refl) as [Hr|Hr]; [by apply (ap_kept _ _ _ _ _ Hp)|right; by apply (ap_replaced _ _ _ _ _ Hp)].
  - intros h tx Hpl. destruct (Hc h tx Hpl) as [Hpl'|[Hq|[Hr|Hd]]].
    + destruct (progress_cover _ _ _ _ _ _ _ Hi Hp Hpl') as [?|[?|?]]; auto.
    + rewrite (ap_queue _ _ _ _ _ Hp) in Hq. cbn [map] in Hq. apply elem_of_cons in Hq as [->|Hq].
      * rewrite <- (pooled_hash _ _ _ H0 Hpl). destruct (ap_done _ _ _ _ _ Hp) as [?|[_ ?]]; [|auto].
        left. by left.
      * right. left. rewrite (ap_queue' _ _ _ _ _ Hp), map_app. apply elem_of_app. by left.
    + right. right. left. by apply (ap_replaced _ _ _ _ _ Hp).
    + right. right. right. by apply (ap_discarded _ _ _ _ _ Hp).
Qed.

Definition add_start (ptx : PendingPoolTransaction) (p : PoolInner) : AddState :=
  {| ad_queue := [ptx]; ad_pool := p;
     ad_ready := {| added_hash := uhash ptx; promoted := []; discarded := []; replaced := [] |};
     ad_is_new := true |}.

Lemma add_start_run ptx p : pool_inv p -> promotable p ptx -> add_run p ptx (add_start ptx p).
Proof.
  intros Hp Hpr. split; simpl; try done.
  - split; simpl; [done| |].
    + apply NoDup_singleton.
    + intros u ->%list_elem_of_singleton. done.
  - intros h Hne Hf. split; [done|]. by intros ->%list_elem_of_singleton.
  - by left.
Qed.

(** The result of the loop. *)
Definition add_result (p0 : PoolInner) (ptx : PendingPoolTransaction)
    (r : option (Outcome (PoolInner * (AddedReady + PoolError)))) : Prop :=
  match r with
  | Some (Ret (p', inl a)) =>
      exists s, add_run p0 ptx s /\ ad_queue s = [] /\ ad_is_new s = false /\ p' = ad_pool s /\ a = ad_ready s
  | Some (Ret (p', inr e)) =>
      p' = p0 /\ e = ReplacementUnderpriced (uhash ptx) /\
      exists h tx', ready p0 !! h = Some tx' /\ provides tx' = provides (ppt_transaction ptx) /\
        max_fee_per_gas (ppt_transaction ptx) <= max_fee_per_gas tx'
  | _ => False
  end.

Lemma add_loop_result ptx p :
  pool_inv p -> promotable p ptx ->
  exists r, iterate add_step (3 + size (waiting p)) (add_start ptx p) = Some r /\ add_result p ptx r.
Proof.
  intros Hp Hpr. pose proof (add_start_run ptx p Hp Hpr) as H0.
  assert (Hstep : forall s s', add_run p ptx s -> add_step s = inl s' ->
    add_run p ptx s' /\ (add_measure s' < add_measure s)%nat).
  { intros s s' Hr Hs. pose proof (add_step_ok s (ar_inv _ _ _ Hr)) as Hok. rewrite Hs in Hok.
    destruct Hok as (Hi' & Hlt & cur & rest & un & Hpg). split; [|done]. by eapply add_run_step. }
  destruct (iterate_total add_step (add_run p ptx) add_measure Hstep (3 + size (waiting p)) _ H0) as [R HR].
  { unfold add_measure. simpl. lia. }
  exists R. split; [done|].
  refine (iterate_ind add_step (add_run p ptx) (add_result p ptx) (fun s s' H H' => proj1 (Hstep s s' H H')) _ _ _ _ H0 HR).
  clear R HR. intros s r Hr Hs. pose proof (add_step_ok s (ar_inv _ _ _ Hr)) as Hok. rewrite Hs in Hok.
  destruct r as [[[p' [a|e]]|]|]; try done.
  - destruct Hok as (_ & Hq & ->). exists s. split_and!; try done.
    + destruct (ad_is_new s) eqn:En; [|done]. destruct (ar_new _ _ _ Hr En). congruence.
    + unfold add_step in Hs. rewrite Hq in Hs. by injection Hs.
  - destruct Hok as (_ & En & cur & rest & Hq & -> & Hrt & h & tx' & Hl & Hprov & Hfee & un & Hmark).
    destruct (ar_new _ _ _ Hr En) as [Hq' Hpl]. rewrite Hpl in *. rewrite Hq in Hq'. injection Hq' as -> ->.
    split_and!; [|done|eauto].
    assert (Hq0 : pending_transactions p' = pending_transactions p).
    { rewrite mark_none_missing in Hmark; [by injection Hmark|by apply pi_pending|].
      intros h' w m Hw Hm Hin. pose proof (pi_missing _ Hp _ _ _ Hw Hm) as Hn.
      rewrite <- Hprov in Hin. rewrite (rwf_provides _ _ _ (pi_ready _ Hp) _ _ _ Hl Hin) in Hn. done. }
    destruct p', p. simpl in *. congruence.
Qed.

(** What [add_ready_transaction] promises. *)
Definition add_ready_post (p : PoolInner) (ptx : PendingPoolTransaction) (p' : PoolInner)
    (r : AddedTransaction + PoolError) : Prop :=
  let tx := ppt_transaction ptx in
  pool_inv p' /\ (forall h, h <> hash tx -> fresh p h -> fresh p' h) /\
  match r with
  | inl (AddedToReady a) =>
      added_hash a = hash tx /\ ready p' !! hash tx = Some tx /\
      forall h tx', pooled p h tx' -> pooled p' h tx' \/ tx' ∈ replaced a \/ h ∈ discarded a
  | inr (ReplacementUnderpriced h) =>
      h = hash tx /\ p' = p /\
      exists h' tx', ready p !! h' = Some tx' /\ provides tx' = provides tx /\
        max_fee_per_gas tx <= max_fee_per_gas tx'
  | inr CyclicTransaction => True
  | _ => False
  end.

Lemma add_ready_spec ptx p :
  pool_inv p -> promotable p ptx ->
  exists p' r, add_ready_transaction ptx p = Some (Ret (p', r)) /\ add_ready_post p ptx p' r.
Proof.
  intros Hp Hpr. unfold add_ready_transaction. fold (add_start ptx p).
  destruct (add_loop_result ptx p Hp Hpr) as (r & -> & Hr). destruct r as [[[p' [a|e]]|]|]; try done.
  - destruct Hr as (s & Hrun & Hq & Hn & -> & ->). destruct (existsb _ _) eqn:Ex.
    + destruct (remove_with_markers_spec (promoted (ad_ready s)) None (ready_transactions (ad_pool s)))
        as (r' & rem & Hc & Hw & Hs & Hprov & _); [exact (pi_ready _ (ai_pool _ (ar_inv _ _ _ Hrun)))|].
      unfold Ready.clear_transactions. rewrite Hc. eexists _, _. split; [reflexivity|]. split_and!; [| |done].
      * apply (pool_inv_shrink (ad_pool s)); [apply Hrun|exact Hw|apply Hrun|done|done|]. by apply sub_queue.
      * intros h Hne Hf. destruct (ar_fresh _ _ _ Hrun h Hne Hf) as [[H1 H2] _]. split; simpl; [|done].
        by eapply lookup_weaken_None.
    + eexists _, _. split; [reflexivity|]. unfold add_ready_post. cbn beta iota zeta.
      split_and!; [apply Hrun| |apply Hrun| |].
      * intros h Hne Hf. by destruct (ar_fresh _ _ _ Hrun h Hne Hf).
      * destruct (ar_added _ _ _ Hrun Hn) as [?|Hin]; [done|]. exfalso.
        apply not_true_iff_false in Ex. apply Ex, existsb_exists. exists (ppt_transaction ptx).
        split; [by apply list_elem_of_In|apply Z.eqb_refl].
      * intros h tx' Hpl. destruct (ar_cover _ _ _ Hrun h tx' Hpl) as [?|[Hin|[?|?]]]; auto.
        rewrite Hq in Hin. set_solver.
  - destruct Hr as (-> & -> & Hex). eexists _, _. split; [reflexivity|].
    split_and!; try done.
Qed.

(** ** Adding a transaction *)
Lemma new_pending_missing (tx : PoolTransaction) (pv : gmap TxMarker TxHash) (m : TxMarker) :
  m ∈ missing_markers (new_pending tx pv) <-> m ∈ requires tx /\ pv !! m = None.
Proof. unfold new_pending. simpl. rewrite elem_of_list_to_set, list_elem_of_filter. tauto. Qed.

Lemma not_contains p h : Inner.contains p h = false <-> fresh p h.
Proof.
  unfold Inner.contains, Pending.contains, Ready.contains, fresh. rewrite orb_false_iff, !bool_decide_eq_false.
  rewrite lookup_txs, fmap_None, !eq_None_not_Some. tauto.
Qed.

(** The queue that a transaction joins and what becomes of the others. *)
Definition add_post (p : PoolInner) (tx : PoolTransaction) (p' : PoolInner)
    (r : AddedTransaction + PoolError) : Prop :=
  pool_inv p' /\
  match r with
  | inl (AddedToReady a) =>
      (forall m, m ∈ requires tx -> is_Some (provided p !! m)) /\
      added_hash a = hash tx /\ ready p' !! hash tx = Some tx /\
      forall h tx', pooled p h tx' -> pooled p' h tx' \/ tx' ∈ replaced a \/ h ∈ discarded a
  | inl (AddedToPending h) =>
      h = hash tx /\ (exists m, m ∈ requires tx /\ provided p !! m = None) /\
      ready_transactions p' = ready_transactions p /\
      waiting p' !! h = Some (new_pending tx (provided p)) /\
      forall h' tx', pooled p h' tx' -> pooled p' h' tx' \/
        (provides tx' = provides tx /\ max_fee_per_gas tx' < max_fee_per_gas tx)
  | inr (AlreadyImported h) => h = hash tx /\ p' = p /\ ~ fresh p h
  | inr (ReplacementUnderpriced h) =>
      h = hash tx /\ p' = p /\
      exists h' tx', pooled p h' tx' /\ provides tx' = provides tx /\
        max_fee_per_gas tx <= max_fee_per_gas tx'
  | inr CyclicTransaction => True
  end.

Lemma add_waiting_post tx p :
  pool_inv p -> tx_ok tx -> fresh p (hash tx) -> is_ready (new_pending tx (provided p)) = false ->
  exists p' r,
    obind (Pending.add_transaction (new_pending tx (provided p)) (pending_transactions p)) (fun r =>
      match r with
      | inl q => Ret (set_pool (ready_transactions p) q, inl (AddedToPending (hash tx)))
      | inr e => Ret (p, inr e)
      end) = Ret (p', r) /\ add_post p tx p' r.
Proof.
  intros Hp Hok [Hfr Hfw] Hn.
  destruct (pending_add_spec _ _ (pi_pending _ Hp) Hn Hfw) as ([q|e] & -> & Hr); simpl in Hr.
  - destruct Hr as (Hw & Hq & Hfee). eexists _, _. split; [reflexivity|].
    assert (Hold : forall h w, Pending.waiting_queue q !! h = Some w ->
      (h = hash tx /\ w = new_pending tx (provided p)) \/ waiting p !! h = Some w).
    { intros h w. rewrite Hq. intros [[<- <-]|[_ [? _]%map_lookup_filter_Some]]%lookup_insert_Some; [by left|by right]. }
    split; [split; simpl; [done|by apply pi_ready| | |]|].
    + intros h tx' Hl. destruct (Pending.waiting_queue q !! h) as [w|] eqn:E; [|done].
      destruct (Hold h w E) as [[-> _]|Hl']; [congruence|]. pose proof (pi_disjoint _ Hp _ _ Hl). congruence.
    + intros h w m Hl Hm. destruct (Hold h w Hl) as [[_ ->]|Hl']; [apply new_pending_missing in Hm as [_ Hm]; exact Hm|].
      by apply (pi_missing _ Hp _ _ _ Hl').
    + intros h w Hl. destruct (Hold h w Hl) as [[_ ->]|Hl']; [done|by apply (pi_ok _ Hp _ _ Hl')].
    + simpl. split_and!; [done| |done|rewrite Hq; apply lookup_insert_eq|].
      * apply bool_decide_eq_false in Hn. apply set_choose_L in Hn as [m Hm]. exists m. by apply new_pending_missing.
      * intros h' tx' [Hr|Hw']; [left; by left|]. pose proof Hw' as (w & Hl & ->)%fmap_Some.
        destruct (decide (provides (ppt_transaction w) = provides tx)) as [E|E]; [right; split; [done|by eapply Hfee]|].
        left. right. simpl. rewrite Hq, lookup_insert_ne by (intros <-; simpl in *; congruence). apply fmap_Some. exists w.
        split; [|done]. by apply map_lookup_filter_Some.
  - destruct Hr as (-> & h & w & Hl & Hprov & Hfee). eexists _, _. split; [reflexivity|]. split; [done|].
    split_and!; try done. exists h, (ppt_transaction w). split_and!; [right; by rewrite Hl|done|done].
Qed.

Lemma add_transaction_post tx p :
  pool_inv p -> tx_ok tx ->
  exists p' r, Inner.add_transaction tx p = Some (Ret (p', r)) /\ add_post p tx p' r.
Proof.
  intros Hp Hok. unfold Inner.add_transaction. destruct (Inner.contains p (hash tx)) eqn:Hc.
  - eexists _, _. split; [reflexivity|]. split; [done|]. split_and!; [done|done|].
    intros Hf%not_contains. congruence.
  - apply not_contains in Hc as Hf. destruct (is_ready (new_pending tx (provided p))) eqn:Hn; cbn [negb].
    + destruct (add_ready_spec (new_pending tx (provided p)) p Hp) as (p' & r & -> & Hi & Hfr & Hr).
      { split; [done|done|apply Hf|apply Hf]. }
      eexists _, _. split; [reflexivity|]. split; [done|]. cbn beta iota zeta in Hr.
      destruct r as [[a|]|[| |]]; try done.
      * destruct Hr as (H1 & H2 & H3). split_and!; try done. intros m Hm.
        destruct (provided p !! m) eqn:E; [done|]. exfalso. apply bool_decide_eq_true in Hn.
        assert (Hin : m ∈ missing_markers (new_pending tx (provided p))) by (by apply new_pending_missing).
        rewrite Hn in Hin. set_solver.
      * destruct Hr as (H1 & H2 & h' & tx' & H3 & H4 & H5). split_and!; try done. exists h', tx'.
        split_and!; [by left|done|done].
    + destruct (add_waiting_post tx p Hp Hok Hf Hn) as (p' & r & E & Hr). exists p', r. split; [|done]. by f_equal.
Qed.

(** ** Removal *)
Lemma pooled_fun p h tx tx' : pool_inv p -> pooled p h tx -> pooled p h tx' -> tx = tx'.
Proof.
  intros Hp [H1|(w1 & H1 & ->)%fmap_Some] [H2|(w2 & H2 & ->)%fmap_Some]; try congruence.
  - pose proof (pi_disjoint _ Hp _ _ H1). congruence.
  - pose proof (pi_disjoint _ Hp _ _ H2). congruence.
Qed.

Lemma list_find_hash (h : TxHash) (l : list PoolTransaction) tx :
  snd <$> list_find (fun tx => hash tx = h) l = Some tx -> tx ∈ l /\ hash tx = h.
Proof.
  intros ([i x] & (Hl & Hx & _)%list_find_Some & ->)%fmap_Some. split; [|done]. by eapply list_elem_of_lookup_2.
Qed.

(** What a drop of [h] takes with it: ready transactions that wait for a marker
    of a dropped ready one, and waiting transactions that require a marker of a
    dropped one. *)
Inductive dropped_with (p : PoolInner) (h : TxHash) : TxHash -> Prop :=
  | dropped_self : dropped_with p h h
  | dropped_ready a b : dropped_with p h a -> cascades None (ready_transactions p) a b -> dropped_with p h b
  | dropped_waiting a tx m b w : dropped_with p h a -> pooled p a tx -> m ∈ provides tx ->
      waiting p !! b = Some w -> m ∈ requires (ppt_transaction w) -> dropped_with p h b.

Definition drop_post (p : PoolInner) (h : TxHash) (p' : PoolInner) (found : option PoolTransaction) : Prop :=
  pool_inv p' /\
  (forall tx, found = Some tx <-> pooled p h tx) /\
  (forall h' tx', pooled p' h' tx' -> pooled p h' tx') /\
  (forall h', fresh p' h' <-> fresh p h' \/ dropped_with p h h').

Section Dropped.
Context (h : TxHash) (p : PoolInner) (r : Ready.ReadyTransactions) (rem : list PoolTransaction)
  (q : Pending.PendingTransactions) (rem' : list PoolTransaction).
Hypothesis Hp : pool_inv p.
Hypothesis Hr : Ready.remove_with_markers [h] None (ready_transactions p) = Some (r, rem).
Hypothesis Hq : Pending.remove_with_dependents [h] (concat (map provides rem)) (pending_transactions p) = Some (q, rem').
Hypothesis Hacc : accounted (ready_transactions p) r rem.

Lemma gone_ready_dropped x tx : ready p !! x = Some tx -> txs r !! x = None -> dropped_with p h x.
Proof.
  intros Hx Hn. destruct (remove_with_markers_exact None _ _ _ _ Hr) as [Hmin _].
  destruct (Hmin x tx Hx Hn) as (h0 & ->%list_elem_of_singleton & Hrtc). clear Hx Hn.
  revert x Hrtc. apply (rtc_ind_r (dropped_with p h)); [constructor|]. intros a b _ Hab IH. by eapply dropped_ready.
Qed.

Lemma gone_waiting_dropped x w :
  waiting p !! x = Some w -> Pending.waiting_queue q !! x = None -> dropped_with p h x.
Proof.
  apply (remove_with_dependents_minimal (pending_transactions p) (dropped_with p h)) with (3 := Hq);
    [|apply pi_pending, Hp| |].
  - intros a u m b Ha Hu Hm (w' & Hb & Hreq). eapply dropped_waiting; eauto. right. by rewrite Hu.
  - intros x' ->%list_elem_of_singleton. constructor.
  - intros m (l & Hl & Hm)%list_elem_of_In%in_concat b (w' & Hb & Hreq).
    apply in_map_iff in Hl as (tx & <- & Htx). apply list_elem_of_In in Htx, Hm. destruct (proj2 Hacc _ Htx) as [H1 H2].
    eapply dropped_waiting; [by eapply gone_ready_dropped|by left|..]; eauto.
Qed.

Lemma dropped_gone x :
  fresh (set_pool r q) h -> txs r ⊆ ready p -> Pending.waiting_queue q ⊆ waiting p ->
  (forall h' w m, Pending.waiting_queue q !! h' = Some w -> m ∈ requires (ppt_transaction w) ->
     forall h'' tx'', pooled p h'' tx'' -> fresh (set_pool r q) h'' -> m ∉ provides tx'') ->
  dropped_with p h x -> fresh (set_pool r q) x.
Proof.
  intros Hh Hsr Hsq Hdep. induction 1 as [|a b _ IH Hab|a tx m b w _ IH Hpl Hm Hb Hreq]; [done| |].
  - destruct (remove_with_markers_exact None _ _ _ _ Hr) as [_ Hclo].
    split; [by apply (Hclo a b Hab), IH|]. simpl. eapply lookup_weaken_None; [|exact Hsq].
    destruct Hab as (_ & _ & _ & _ & rb & Hrb). by eapply pi_disjoint, txs_Some.
  - split; simpl.
    + eapply lookup_weaken_None; [|exact Hsr]. destruct (ready p !! b) eqn:E; [|done].
      pose proof (pi_disjoint _ Hp _ _ E). congruence.
    + destruct (Pending.waiting_queue q !! b) as [w'|] eqn:E; [|done]. exfalso.
      pose proof (lookup_weaken _ _ _ _ E Hsq). assert (w' = w) as -> by congruence. by eapply Hdep.
Qed.
End Dropped.

Lemma drop_transaction_post h p :
  pool_inv p -> exists p' found, drop_transaction h p = Some (p', found) /\ drop_post p h p' found.
Proof.
  intros Hp. unfold drop_transaction.
  destruct (remove_with_markers_spec [h] None (ready_transactions p) (pi_ready _ Hp))
    as (r & rem & Er & Hw & Hs & Hprov & _ & Hgone & Hacc). rewrite Er. pose proof Hacc as [Hacc1 Hacc2].
  destruct (remove_with_dependents_spec [h] (concat (map provides rem)) (pending_transactions p) (pi_pending _ Hp))
    as (q & rem' & Eq & Hwq & Hsq & Hgq & Hdep & Hremq). rewrite Eq.
  eexists _, _. split; [reflexivity|].
  assert (Hall : forall h' tx, pooled p h' tx -> pooled (set_pool r q) h' tx \/ tx ∈ rem ++ rem').
  { intros h' tx [Hr|(w & Hl & ->)%fmap_Some].
    - destruct (Hacc1 _ _ Hr); [left; by left|right; set_solver].
    - destruct (Pending.waiting_queue q !! h') as [w'|] eqn:E.
      + left. right. simpl. rewrite E. pose proof (lookup_weaken _ _ _ _ E Hsq). simpl. congruence.
      + right. apply elem_of_app. right. apply Hremq. eauto. }
  assert (Hback : forall tx, tx ∈ rem ++ rem' -> pooled p (hash tx) tx).
  { intros tx [Hin|Hin]%elem_of_app.
    - left. by apply Hacc2.
    - apply Hremq in Hin as (h' & w & Hl & _ & ->). right. by rewrite (wf_hash _ (pi_pending _ Hp) _ _ Hl), Hl. }
  split_and!.
  - apply (pool_inv_shrink p); try done. by apply sub_queue.
  - intros tx. split.
    + intros [Hin <-]%list_find_hash. by apply Hback.
    + intros Hpl. destruct (Hall _ _ Hpl) as [[Hr|Hq]|Hin].
      * simpl in Hr. rewrite Hgone in Hr; [done|left].
      * simpl in Hq. rewrite Hgq in Hq; [done|left].
      * pose proof (pooled_hash _ _ _ Hp Hpl) as Hh.
        destruct (list_find_elem_of (fun tx => hash tx = h) (rem ++ rem') tx Hin Hh) as [[i x] Hf].
        rewrite Hf. simpl. f_equal. apply list_find_Some in Hf as (Hl & Hx & _).
        apply (pooled_fun p h); [done| |done]. rewrite <- Hx. by eapply Hback, list_elem_of_lookup_2.
  - intros h' tx' [Hr|(w & Hl & ->)%fmap_Some]; [left; by eapply lookup_weaken|right].
    by rewrite (lookup_weaken _ _ _ _ Hl Hsq).
  - intros h'. assert (Hdrop : dropped_with p h h' -> fresh (set_pool r q) h').
    { apply (dropped_gone h p r rem q Hp Er); [split; [apply Hgone|apply Hgq]; left|done|done|].
      intros h1 w m Hl Hm h'' tx'' Hpl [Hf1 Hf2] Hin. destruct (Hdep h1 w m Hl Hm) as [Hni Hnp].
      destruct Hpl as [Hr|(w'' & Hl'' & ->)%fmap_Some]; [|by apply (Hnp h'' w'')].
      apply Hni. destruct (Hacc1 _ _ Hr) as [?|Hrem]; [simpl in *; congruence|].
      apply list_elem_of_In, in_concat. exists (provides tx''). split; [|by apply list_elem_of_In].
      apply in_map. by apply list_elem_of_In. }
    split; [|intros [[Hf1 Hf2]|?]; [|by auto]; split; simpl; by eapply lookup_weaken_None].
    intros [Hf1 Hf2]. simpl in *. destruct (ready p !! h') as [tx|] eqn:E1.
    + right. by eapply gone_ready_dropped.
    + destruct (waiting p !! h') as [w|] eqn:E2; [right|by left]. by eapply (gone_waiting_dropped h p r rem q rem').
Qed.

Lemma remove_invalid_post hashes p :
  pool_inv p -> exists p' removed, remove_invalid hashes p = Some (p', removed) /\ pool_inv p' /\
    (forall h, h ∈ hashes -> fresh p' h) /\
    ready p' ⊆ ready p /\ waiting p' ⊆ waiting p /\
    (forall tx, tx ∈ removed <-> pooled p (hash tx) tx /\ fresh p' (hash tx)).
Proof.
  intros Hp. unfold remove_invalid. case_bool_decide as He.
  { subst hashes. exists p, []. split_and!; [done|done|set_solver|done|done|]. intros tx. split; [set_solver|].
    intros [[?|(w & ? & _)%fmap_Some] [? ?]]; congruence. }
  destruct (remove_with_markers_spec hashes None (ready_transactions p) (pi_ready _ Hp))
    as (r & rem & -> & Hw & Hs & Hprov & _ & Hgone & Hacc1 & Hacc2).
  destruct (remove_spec hashes (pending_transactions p) (pi_pending _ Hp)) as [Hwq Hq].
  pose proof (fun tx => removed_from hashes (pending_transactions p) [] tx (pi_pending _ Hp)) as Hremq.
  change (foldl Pending.remove_one (pending_transactions p, []) hashes) with
    (Pending.remove hashes (pending_transactions p)) in Hremq.
  destruct (Pending.remove hashes (pending_transactions p)) as [q rem']. cbn [fst snd] in *.
  eexists _, _. split; [reflexivity|].
  assert (Hsq : Pending.waiting_queue q ⊆ waiting p) by (rewrite Hq; apply map_filter_subseteq).
  split_and!.
  - apply (pool_inv_shrink p); try done. by apply sub_queue.
  - intros h Hin. split; simpl; [by apply Hgone|]. rewrite Hq. apply map_lookup_filter_None. right. intros w _ Hc. by apply Hc.
  - done.
  - done.
  - intros tx. rewrite elem_of_app, Hremq. split.
    + intros [Hin|[?|(h & w & Hin & Hl & ->)]]; [|set_solver|].
      * destruct (Hacc2 _ Hin) as [H1 H2]. split; [by left|]. split; [done|]. simpl.
        eapply lookup_weaken_None; [|exact Hsq]. by eapply pi_disjoint.
      * rewrite (wf_hash _ (pi_pending _ Hp) _ _ Hl). split; [right; by rewrite Hl|].
        split; simpl; [by apply Hgone|]. rewrite Hq. apply map_lookup_filter_None. right. intros ? _ Hc. by apply Hc.
    + intros [[Hr|(w & Hl & ->)%fmap_Some] [Hf1 Hf2]]; simpl in *.
      * left. destruct (Hacc1 _ _ Hr); [congruence|done].
      * right. right. exists (hash (ppt_transaction w)), w. split_and!; [|done|done].
        rewrite Hq in Hf2. apply map_lookup_filter_None in Hf2 as [?|Hg]; [congruence|].
        specialize (Hg _ Hl). destruct (decide (hash (ppt_transaction w) ∈ hashes)); [done|]. by exfalso; apply Hg.
Qed.

(** ** Pruning *)
Definition importable (p : PoolInner) (imports : list PendingPoolTransaction) : Prop :=
  NoDup (map uhash imports) /\ forall u, u ∈ imports -> promotable p u.

(** Shrinking the ready queue while marking the waiting one. *)
Lemma mark_shrink ms p q un r :
  pool_inv p -> mark_effect ms p q un -> rwf r -> txs r ⊆ ready p -> Ready.provided_markers r ⊆ provided p ->
  pool_inv (set_pool r q).
Proof.
  intros Hp He Hr Ht Hprov. apply (pool_inv_shrink p); try done; [apply He|].
  intros h w Hl. destruct (me_sub _ _ _ _ He h w Hl) as (w0 & ? & ? & ->). exists w0. split_and!; [done|done|set_solver].
Qed.

Lemma importable_mark ms p q un r imports :
  pool_inv p -> mark_effect ms p q un -> txs r ⊆ ready p -> importable p imports ->
  importable (set_pool r q) (imports ++ un).
Proof.
  intros Hp He Ht [Hnd Hpr]. split.
  - rewrite map_app. apply list.NoDup_app. split_and!; [done| |apply He].
    intros h Hh1 Hh2. apply list_elem_of_In, in_map_iff in Hh1 as (u1 & <- & Hin1%list_elem_of_In).
    apply list_elem_of_In, in_map_iff in Hh2 as (u2 & Heq & Hin2%list_elem_of_In).
    pose proof (pr_not_waiting _ _ (Hpr _ Hin1)) as Hn. apply (me_unlocked _ _ _ _ He) in Hin2 as (_ & _ & [w Hs] & _).
    simpl in *. rewrite Heq in Hs. congruence.
  - intros u [Hin|Hin]%elem_of_app.
    + destruct (Hpr u Hin) as [H1 H2 H3 H4]. split; simpl; try done; [by eapply lookup_weaken_None|].
      destruct (Pending.waiting_queue q !! hash (ppt_transaction u)) as [w|] eqn:E; [|done].
      destruct (me_sub _ _ _ _ He _ _ E) as (w0 & ? & _). congruence.
    + destruct (me_unlocked _ _ _ _ He u Hin) as (H1 & H2 & [w Hl] & H4). split; simpl; try done.
      eapply lookup_weaken_None; [|exact Ht]. destruct (ready p !! hash (ppt_transaction u)) as [tx|] eqn:E; [|done].
      pose proof (pi_disjoint _ Hp _ _ E). simpl in Hl. congruence.
Qed.

Record pruned_pool (markers : list TxMarker) (p : PoolInner) (imports : list PendingPoolTransaction)
    (p' : PoolInner) (imports' : list PendingPoolTransaction) (pruned pruned' : list PoolTransaction) : Prop := {
  pp_inv : pool_inv p';
  pp_imports : importable p' imports';
  pp_ready : ready p' ⊆ ready p;
  pp_provided : provided p' ⊆ provided p;
  pp_gone : forall m, m ∈ markers -> provided p' !! m = None;
  pp_waiting : forall h, waiting p !! h = None -> h ∉ map uhash imports ->
    waiting p' !! h = None /\ h ∉ map uhash imports';
  pp_kept : forall tx, tx ∈ pruned -> tx ∈ pruned';
  pp_queued : forall tx, tx ∈ map ppt_transaction imports -> tx ∈ map ppt_transaction imports';
  pp_cover : forall h tx, pooled p h tx -> pooled p' h tx \/ tx ∈ map ppt_transaction imports' \/ tx ∈ pruned'
}.

Lemma prune_loop_spec markers p imports pruned :
  pool_inv p -> importable p imports ->
  exists p' imports' pruned', prune_loop markers p imports pruned = Some (Ret (p', imports', pruned')) /\
    pruned_pool markers p imports p' imports' pruned pruned'.
Proof.
  revert p imports pruned. induction markers as [|m markers IH]; intros p imports pruned Hp Hi.
  { exists p, imports, pruned. split; [done|]. split; try done; [set_solver|by left]. }
  cbn [prune_loop]. destruct (mark_spec [m] p Hp) as (q & un & -> & He).
  destruct (prune_tags_spec m (ready_transactions p) (pi_ready _ Hp)) as (r & rem & -> & Hw & Ht & Hprov & Hm & _ & Hacc & _).
  destruct (IH (set_pool r q) (imports ++ un) (pruned ++ rem)) as (p' & imports' & pruned' & -> & [H1 H2 H3 H4 H5 H6 H7 H8 H9]).
  { by eapply mark_shrink. }
  { by eapply importable_mark. }
  exists p', imports', pruned'. split; [done|]. split; try done.
  - by etrans.
  - by etrans.
  - intros m' [->|Hin]%elem_of_cons; [|by apply H5]. eapply lookup_weaken_None; [exact Hm|exact H4].
  - intros h Hnw Hni. apply H6; simpl.
    + destruct (Pending.waiting_queue q !! h) as [w|] eqn:E; [|done]. destruct (me_sub _ _ _ _ He _ _ E) as (w0 & ? & _). congruence.
    + rewrite map_app. intros [?|Hin]%elem_of_app; [done|].
      apply list_elem_of_In, in_map_iff in Hin as (u & <- & Hin%list_elem_of_In).
      apply (me_unlocked _ _ _ _ He) in Hin as (_ & _ & [w Hl] & _). simpl in *. congruence.
  - intros tx Hin. apply H7. set_solver.
  - intros tx Hin. apply H8. rewrite map_app. set_solver.
  - intros h tx [Hr|(w & Hl & ->)%fmap_Some].
    + destruct (Hacc _ _ Hr) as [Hr'|Hin]; [apply H9; by left|]. right. right. apply H7. set_solver.
    + destruct (me_cover _ _ _ _ He _ _ Hl) as [[w' Hl']|Hin].
      * destruct (me_sub _ _ _ _ He _ _ Hl') as (w0 & Hl0 & Heq & _). apply H9. right. simpl. rewrite Hl'. simpl. congruence.
      * right. left. apply H8. rewrite map_app. set_solver.
Qed.

(** The transactions an insertion outcome reports as gone. *)
Definition gone_from (r : AddedTransaction) (h : TxHash) (tx : PoolTransaction) : Prop :=
  match r with
  | AddedToReady a => tx ∈ replaced a \/ h ∈ discarded a
  | AddedToPending _ => False
  end.

(** The imports end up in the pool or are reported, unless an import failed. *)
Definition imported (p : PoolInner) (imports : list PendingPoolTransaction) (p' : PoolInner)
    (done : list AddedTransaction) (h : TxHash) (tx : PoolTransaction) : Prop :=
  pooled p h tx \/ (tx ∈ map ppt_transaction imports /\ h = hash tx) ->
  pooled p' h tx \/ exists a, a ∈ done /\ gone_from a h tx.

Record import_post (imports : list PendingPoolTransaction) (p p' : PoolInner)
    (done0 done : list AddedTransaction) (failed0 failed : list TxHash) : Prop := {
  ip_inv : pool_inv p';
  ip_fresh : forall h, h ∉ map uhash imports -> fresh p h -> fresh p' h;
  ip_done : forall a, a ∈ done0 -> a ∈ done;
  ip_failed : forall h, h ∈ failed0 -> h ∈ failed;
  ip_cover : failed = [] -> forall h tx, imported p imports p' done h tx
}.

(** The first import, and then the rest. *)
Lemma import_post_cons u imports p p1 p' r done0 done failed0 failed :
  add_ready_post p u p1 r ->
  import_post imports p1 p' (match r with inl a => done0 ++ [a] | inr _ => done0 end) done
    (match r with inl _ => failed0 | inr _ => failed0 ++ [uhash u] end) failed ->
  import_post (u :: imports) p p' done0 done failed0 failed.
Proof.
  intros (Hi & Hf & Hr) [H1 H2 H3 H4 H5]. split; [done| | | |].
  - intros h [Hne Hni]%not_elem_of_cons Hfr. apply H2; [done|]. by apply Hf.
  - intros a Ha. apply H3. destruct r; [set_solver|done].
  - intros h Hh. apply H4. destruct r; [done|set_solver].
  - intros Hnil h tx Hin. destruct r as [[a|]|e]; [|done|].
    + destruct Hr as (_ & Hadd & Hcov).
      assert (Hgo : pooled p1 h tx \/ gone_from (AddedToReady a) h tx \/ (tx ∈ map ppt_transaction imports /\ h = hash tx)).
      { destruct Hin as [Hpl|[[->|Htx]%elem_of_cons ->]]; [|left; by left|by right; right].
        destruct (Hcov h tx Hpl) as [?|?]; [by left|by right; left]. }
      destruct Hgo as [Hpl|[Hg|Himp]]; [by apply H5; [|left]| |by apply H5; [|right]].
      right. exists (AddedToReady a). split; [apply H3; set_solver|done].
    + exfalso. assert (Hx : uhash u ∈ failed) by (apply H4; set_solver). rewrite Hnil in Hx. set_solver.
Qed.

Lemma import_loop_spec imports p done0 failed0 :
  pool_inv p -> importable p imports ->
  exists p' done failed, import_loop imports p done0 failed0 = Some (Ret (p', done, failed)) /\
    import_post imports p p' done0 done failed0 failed.
Proof.
  revert p done0 failed0. induction imports as [|u imports IH]; intros p done0 failed0 Hp [Hnd Hpr].
  { exists p, done0, failed0. split; [done|]. split; try done. intros _ h tx [?|[? _]]; [by left|set_solver]. }
  cbn [import_loop]. destruct (add_ready_spec u p Hp (Hpr u (list_elem_of_here _ _))) as (p1 & r & -> & Hpost).
  pose proof Hpost as (Hi1 & Hf1 & _).
  cbn [map] in Hnd. pose proof (NoDup_cons_1_1 _ _ Hnd) as Hnin. apply NoDup_cons_1_2 in Hnd.
  assert (Himp : importable p1 imports).
  { split; [done|]. intros u' Hin. destruct (Hpr u' (list_elem_of_further _ _ _ Hin)) as [H1 H2 H3 H4].
    destruct (Hf1 (uhash u')); [|done|by split].
    intros E. apply Hnin. rewrite <- E. by apply uhash_in. }
  destruct r as [a|e];
    [destruct (IH p1 (done0 ++ [a]) failed0 Hi1 Himp) as (p' & dn & fl & -> & Hip)
    |destruct (IH p1 done0 (failed0 ++ [uhash u]) Hi1 Himp) as (p' & dn & fl & -> & Hip)];
    (exists p', dn, fl; split; [done|]; by eapply import_post_cons).
Qed.

Lemma prune_markers_spec markers p :
  pool_inv p -> exists p' r, prune_markers markers p = Some (Ret (p', r)) /\ pool_inv p' /\
    (forall h, fresh p h -> fresh p' h) /\
    (forall h tx m, ready p !! h = Some tx -> m ∈ provides tx -> m ∈ markers -> fresh p' h) /\
    (prune_failed r = [] -> forall h tx, pooled p h tx ->
       pooled p' h tx \/ tx ∈ prune_pruned r \/ exists a, a ∈ prune_promoted r /\ gone_from a h tx).
Proof.
  intros Hp. unfold prune_markers.
  destruct (prune_loop_spec markers p [] [] Hp) as (p1 & imports & pruned & -> & Hpp); [split; [constructor|set_solver]|].
  destruct (import_loop_spec imports p1 [] [] (pp_inv _ _ _ _ _ _ _ Hpp) (pp_imports _ _ _ _ _ _ _ Hpp))
    as (p' & dn & fl & -> & [Hi Hf _ _ Hcov]).
  eexists _, _. split; [reflexivity|]. split_and!; [done| | |].
  - intros h [Hr Hw]. destruct (pp_waiting _ _ _ _ _ _ _ Hpp h Hw) as [Hnw Hni]; [set_solver|].
    apply Hf; [done|]. split; [|done]. eapply lookup_weaken_None; [exact Hr|apply Hpp].
  - intros h tx m Hr Hm Hin.
    destruct (pp_waiting _ _ _ _ _ _ _ Hpp h) as [Hnw Hni]; [by eapply pi_disjoint|set_solver|].
    apply Hf; [done|]. split; [|done]. destruct (ready p1 !! h) as [tx'|] eqn:E; [|done]. exfalso.
    pose proof (lookup_weaken _ _ _ _ E (pp_ready _ _ _ _ _ _ _ Hpp)) as E'. rewrite Hr in E'. injection E' as <-.
    pose proof (rwf_provides _ _ _ (pi_ready _ (pp_inv _ _ _ _ _ _ _ Hpp)) _ _ _ E Hm) as Hprov.
    by rewrite (pp_gone _ _ _ _ _ _ _ Hpp m Hin) in Hprov.
  - cbn [prune_failed prune_pruned prune_promoted]. intros Hnil h tx Hpl.
    destruct (pp_cover _ _ _ _ _ _ _ Hpp h tx Hpl) as [Hpl1|[Himp|Hpr]]; [| |right; by left].
    + destruct (Hcov Hnil h tx (or_introl Hpl1)); [by left|right; by right].
    + pose proof (pooled_hash _ _ _ Hp Hpl) as Hh.
      destruct (Hcov Hnil h tx (or_intror (conj Himp (eq_sym Hh)))); [by left|right; by right].
Qed.

Definition mined_post (o : MinedBlockOutcome) (p p' : PoolInner) (again : bool) : Prop :=
  pool_inv p' /\ (forall h, fresh p h -> fresh p' h) /\
  (forall h, h ∈ map hash (invalid o) -> fresh p' h) /\
  (forall tx, tx ∈ included o ++ stale o -> provides tx <> [] -> ready p !! hash tx = Some tx -> fresh p' (hash tx)) /\
  (again = true <-> not_yet_valid o = [] /\ ready p' <> ∅ /\
     ~ (included o = [] /\ stale o = [] /\ invalid o = [])).

Lemma on_mined_block_spec o p :
  pool_inv p -> exists p' again, on_mined_block o p = Some (Ret (p', again)) /\ mined_post o p p' again.
Proof.
  intros Hp. unfold on_mined_block.
  destruct (remove_invalid_post (map hash (invalid o)) p Hp) as (p1 & rem & -> & Hp1 & Hg & Hs & Hsw & Hrem).
  destruct (prune_markers_spec (concat (map provides (included o ++ stale o))) p1 Hp1) as (p' & r & -> & Hp' & Hfresh & Hgone & _).
  eexists _, _. split; [reflexivity|]. split_and!; [done| |intros h Hh; by apply Hfresh, Hg| |].
  - intros h [H1 H2]. apply Hfresh. split; by eapply lookup_weaken_None.
  - intros tx Hin Hne Hr. destruct (provides tx) as [|m ms] eqn:Em; [done|].
    destruct (ready p1 !! hash tx) as [tx1|] eqn:E.
    + apply (Hgone _ tx1 m E).
      * rewrite (lookup_weaken _ _ _ _ E Hs) in Hr. injection Hr as ->. rewrite Em. left.
      * apply list_elem_of_In, in_concat. exists (provides tx). split; [by apply in_map, list_elem_of_In|].
        rewrite Em. by left.
    + apply Hfresh. split; [done|]. eapply lookup_weaken_None; [|exact Hsw]. by eapply pi_disjoint.
  - assert (Hempty : ready p' = ∅ <-> Ready.ready_tx (ready_transactions p') = ∅).
    { unfold txs. split; [by intros E%fmap_empty_inv|intros ->; apply fmap_empty]. }
    rewrite !andb_true_iff, !orb_true_iff, !negb_true_iff, !bool_decide_eq_true, !bool_decide_eq_false, Hempty.
    destruct (included o), (stale o), (invalid o); naive_solver.
Qed.

End PoolOps.
