(* ===== verification/PoolProps.v ===== *)
(** * PoolProps: what the transaction pool guarantees

    The pool as a state machine ([pool_step], [reachable]) and the theorems
    about its operations: no operation panics or loops on a reachable pool, an
    error leaves the pool alone, nothing gets lost silently, a dropped or mined
    transaction is gone, blocks take the best transaction first and listeners
    are dropped only when disconnected. *)

From Stdlib Require Import ZArith Lia Sorted.
From stdpp Require Import base list gmap sets option strings.
From S2P Require Import Prelude Pool PoolPending PoolReady PoolInv.
Local Open Scope Z_scope.
Import Inner.

(** ** The state machine *)
Inductive PoolOp :=
  | OpAdd (tx : PoolTransaction)
  | OpDrop (h : TxHash)
  | OpRemoveInvalid (hashes : list TxHash)
  | OpPrune (markers : list TxMarker)
  | OpMined (o : MinedBlockOutcome)
  | OpClear.

Definition op_ok (o : PoolOp) : Prop := match o with OpAdd tx => tx_ok tx | _ => True end.

Section Machine.
Context `{IO : IterOrder}.

Definition apply_op (o : PoolOp) (p : PoolInner) : option (Outcome PoolInner) :=
  match o with
  | OpAdd tx => match Inner.add_transaction tx p with
                | Some r => Some (obind r (fun '(p', _) => Ret p'))
                | None => None
                end
  | OpDrop h => (fun '(p', _) => Ret p') <$> drop_transaction h p
  | OpRemoveInvalid hs => (fun '(p', _) => Ret p') <$> remove_invalid hs p
  | OpPrune ms => (fun r => obind r (fun '(p', _) => Ret p')) <$> prune_markers ms p
  | OpMined o => (fun r => obind r (fun '(p', _) => Ret p')) <$> on_mined_block o p
  | OpClear => Some (Ret (Inner.clear p))
  end.

Inductive reachable : PoolInner -> Prop :=
  | reach_empty : reachable Inner.empty
  | reach_op o p p' : reachable p -> op_ok o -> apply_op o p = Some (Ret p') -> reachable p'.

Context {IOL : IterOrderLaws}.

Lemma apply_op_inv o p : pool_inv p -> op_ok o -> exists p', apply_op o p = Some (Ret p') /\ pool_inv p'.
Proof.
  intros Hp Ho. destruct o as [tx|h|hs|ms|m|]; simpl in *.
  - destruct (add_transaction_post tx p Hp Ho) as (p' & r & -> & Hi & _). by exists p'.
  - destruct (drop_transaction_post h p Hp) as (p' & r & -> & Hi & _). by exists p'.
  - destruct (remove_invalid_post hs p Hp) as (p' & r & -> & Hi & _). by exists p'.
  - destruct (prune_markers_spec ms p Hp) as (p' & r & -> & Hi & _). by exists p'.
  - destruct (on_mined_block_spec m p Hp) as (p' & r & -> & Hi & _). by exists p'.
  - eexists. split; [done|]. apply clear_inv.
Qed.

Lemma reachable_inv p : reachable p -> pool_inv p.
Proof.
  induction 1 as [|o p p' _ IH Ho Ha]; [apply empty_inv|].
  destruct (apply_op_inv o p IH Ho) as (p'' & Ha' & Hi). congruence.
Qed.
End Machine.

(** ** Markers *)
Lemma le_bytes_inj n a b : 0 <= a < 2 ^ (8 * Z.of_nat n) -> 0 <= b < 2 ^ (8 * Z.of_nat n) ->
  le_bytes n a = le_bytes n b -> a = b.
Proof.
  revert a b. induction n as [|n IH]; intros a b Ha Hb; [simpl in *; lia|].
  intros [= Hm Ht]. rewrite (Z.div_mod a 256), (Z.div_mod b 256), Hm by lia. f_equal. f_equal. apply IH; [| |done].
  all: replace (2 ^ (8 * Z.of_nat (S n))) with (2 ^ (8 * Z.of_nat n) * 256) in * by
    (rewrite <- (Z.pow_add_r 2 _ 8) by lia; f_equal; lia).
  - split; [apply Z.div_pos; lia|apply Z.div_lt_upper_bound; lia].
  - split; [apply Z.div_pos; lia|apply Z.div_lt_upper_bound; lia].
Qed.

Lemma length_le_bytes n z : length (le_bytes n z) = n.
Proof. revert z. induction n as [|n IH]; intros z; simpl; [done|]. by rewrite IH. Qed.

Lemma to_marker_eq n1 a1 n2 a2 :
  0 <= n1 < 2 ^ 64 -> 0 <= n2 < 2 ^ 64 -> 0 <= a1 < 2 ^ 160 -> 0 <= a2 < 2 ^ 160 ->
  to_marker n1 a1 = to_marker n2 a2 -> n1 = n2 /\ a1 = a2.
Proof.
  intros H1 H2 H3 H4 E. unfold to_marker in E.
  apply app_inj_1 in E as [E1 E2]; [|by rewrite !length_le_bytes].
  split; [by apply (le_bytes_inj 8)|]. apply (le_bytes_inj 20); [done|done|].
  by rewrite <- (rev_involutive (le_bytes 20 a1)), E2, rev_involutive.
Qed.

Lemma pool_transaction_ok order on_chain tx :
  0 <= pt_nonce tx < 2 ^ 64 -> 0 <= on_chain < 2 ^ 64 -> 0 <= pt_sender tx < 2 ^ 160 ->
  tx_ok (pool_transaction order on_chain tx).
Proof.
  intros Hn Ho Hs. split; simpl; [apply NoDup_singleton|]. unfold required_marker.
  destruct (Z.eqb_spec (pt_nonce tx) on_chain) as [|Hne]; [set_solver|].
  destruct (Z.leb_spec on_chain (Z.max 0 (pt_nonce tx - 1))); [|set_solver].
  intros m ->%list_elem_of_singleton E%list_elem_of_singleton.
  apply to_marker_eq in E as [E _]; lia.
Qed.

(** ** Block order *)
Definition ref_lt (a b : PoolTransactionRef) : Prop := ref_cmp a b = Lt.

Lemma ref_cmp_spec a b :
  match ref_cmp a b with
  | Lt => priority (ref_transaction a) < priority (ref_transaction b) \/
          (priority (ref_transaction a) = priority (ref_transaction b) /\ ref_id b < ref_id a)
  | Eq => priority (ref_transaction a) = priority (ref_transaction b) /\ ref_id a = ref_id b
  | Gt => priority (ref_transaction b) < priority (ref_transaction a) \/
          (priority (ref_transaction a) = priority (ref_transaction b) /\ ref_id a < ref_id b)
  end.
Proof.
  unfold ref_cmp. destruct (Z.compare_spec (priority (ref_transaction a)) (priority (ref_transaction b))); [|lia|lia].
  destruct (Z.compare_spec (ref_id b) (ref_id a)); lia.
Qed.

Ltac ref_cases := repeat match goal with
  | H : context [ref_cmp ?a ?b] |- _ => pose proof (ref_cmp_spec a b); destruct (ref_cmp a b); try done
  | |- context [ref_cmp ?a ?b] => pose proof (ref_cmp_spec a b); destruct (ref_cmp a b); try done
  end.

#[local] Instance ref_lt_trans : Transitive ref_lt.
Proof. intros a b c H1 H2. unfold ref_lt in *. ref_cases; lia. Qed.

Lemma ref_cmp_antisym a b : ref_cmp a b = CompOpp (ref_cmp b a).
Proof. ref_cases; lia. Qed.

Abbreviation sorted_refs := (StronglySorted ref_lt).

Lemma elem_of_btree_insert x y l : y ∈ BTree.insert x l -> y = x \/ y ∈ l.
Proof. induction l as [|z l IH]; simpl; [set_solver|]. destruct (ref_cmp x z); set_solver. Qed.

Lemma btree_insert_sorted x l : sorted_refs l -> sorted_refs (BTree.insert x l).
Proof.
  induction 1 as [|y l Hs IH Hall]; simpl; [repeat constructor|].
  destruct (ref_cmp x y) eqn:E; [by constructor| |].
  - constructor; [by constructor|]. constructor; [exact E|]. eapply Forall_impl; [exact Hall|]. intros z. by apply ref_lt_trans.
  - constructor; [done|]. rewrite Forall_forall in *. intros z [->|Hin]%elem_of_btree_insert; [|by apply Hall].
    unfold ref_lt. by rewrite ref_cmp_antisym, E.
Qed.

Lemma elem_of_btree_remove x y l : y ∈ BTree.remove x l -> y ∈ l.
Proof. induction l as [|z l IH]; simpl; [set_solver|]. destruct (ref_cmp x z); set_solver. Qed.

Lemma btree_remove_sorted x l : sorted_refs l -> sorted_refs (BTree.remove x l).
Proof.
  induction 1 as [|y l Hs IH Hall]; simpl; [constructor|].
  destruct (ref_cmp x y) eqn:E; [done|by constructor|].
  constructor; [done|]. rewrite Forall_forall in *. intros z Hz%elem_of_btree_remove. by apply Hall.
Qed.

Lemma btree_next_back x l : sorted_refs l -> BTree.next_back l = Some x ->
  x ∈ l /\ (forall y, y ∈ l -> y = x \/ ref_lt y x) /\ exists l', l = l' ++ [x].
Proof.
  unfold BTree.next_back. intros Hs (l' & ->)%last_Some. split_and!; [set_solver| |eauto].
  intros y [Hin| ->%list_elem_of_singleton]%elem_of_app; [right|by left].
  clear -Hs Hin. induction l' as [|z l' IH]; [set_solver|]. inversion_clear Hs as [|? ? Hs' Hall].
  apply elem_of_cons in Hin as [->|Hin]; [|by apply IH]. rewrite Forall_forall in Hall. apply Hall. set_solver.
Qed.

Lemma btree_remove_last x l : sorted_refs (l ++ [x]) -> BTree.remove x (l ++ [x]) = l.
Proof.
  induction l as [|y l IH]; simpl; intros Hs.
  - replace (ref_cmp x x) with Eq; [done|]. ref_cases; lia.
  - inversion_clear Hs as [|? ? Hs' Hall]. rewrite Forall_forall in Hall.
    assert (Hlt : ref_lt y x) by (apply Hall; set_solver). unfold ref_lt in Hlt.
    rewrite ref_cmp_antisym, Hlt. simpl. by rewrite IH.
Qed.

Section Iterator.
Import Ready.

Lemma independent_or_awaiting_sorted n r it :
  sorted_refs (independent it) -> sorted_refs (independent (independent_or_awaiting n r it)).
Proof. intros Hs. unfold independent_or_awaiting. case_match; simpl; [by apply btree_insert_sorted|done]. Qed.

Lemma unlock_next_sorted hs it :
  sorted_refs (independent it) -> sorted_refs (independent (foldl unlock_next it hs)) /\
  all (foldl unlock_next it hs) = all it.
Proof.
  revert it. induction hs as [|h hs IH]; intros it Hs; [done|]. simpl.
  assert (H : sorted_refs (independent (unlock_next it h)) /\ all (unlock_next it h) = all it).
  { unfold unlock_next. destruct (awaiting it !! h) as [[n r]|].
    - split; [by apply independent_or_awaiting_sorted|]. unfold independent_or_awaiting. by case_match.
    - destruct (all it !! h) as [rt|]; [|done].
      split; [by apply independent_or_awaiting_sorted|]. unfold independent_or_awaiting. by case_match. }
  destruct H as [H1 H2]. destruct (IH _ H1) as [H3 H4]. split; [done|congruence].
Qed.

(** What one call of [next] yields. *)
Definition next_post (it : TransactionsIterator) (r : option (PoolTransaction * TransactionsIterator)) : Prop :=
  match r with
  | None => forall x, x ∈ independent it -> all it !! hash (ref_transaction x) = None
  | Some (tx, it') =>
      sorted_refs (independent it') /\ all it' = all it /\
      exists best, best ∈ independent it /\ tx = ref_transaction best /\ is_Some (all it !! hash tx) /\
        forall y, y ∈ independent it -> is_Some (all it !! hash (ref_transaction y)) -> y = best \/ ref_lt y best
  end.

Lemma next_spec_fuel n it :
  (length (independent it) < n)%nat -> sorted_refs (independent it) ->
  exists r, iterate next_step n it = Some r /\ next_post it r.
Proof.
  revert it. induction n as [|n IH]; intros it Hlen Hs; [lia|]. cbn [iterate]. unfold next_step at 1.
  destruct (BTree.next_back (independent it)) as [best|] eqn:Eb.
  2: { exists None. split; [done|]. unfold BTree.next_back in Eb. apply last_None in Eb. unfold next_post. rewrite Eb. set_solver. }
  destruct (btree_next_back _ _ Hs Eb) as (Hin & Hbest & l' & El).
  assert (Hrem : BTree.remove best (independent it) = l') by (rewrite El in *; by apply btree_remove_last).
  assert (Hs' : sorted_refs l') by (rewrite <- Hrem; by apply btree_remove_sorted).
  rewrite Hrem. cbn [all awaiting independent]. destruct (all it !! hash (ref_transaction best)) as [rt|] eqn:Ea.
  - eexists. split; [reflexivity|]. cbn beta iota.
    destruct (unlock_next_sorted (unlocks rt) {| all := all it; awaiting := awaiting it; independent := l' |} Hs') as [H1 H2].
    split_and!; [done|done|]. exists best. split_and!; [done|done|by rewrite Ea|]. intros y Hy _. by apply Hbest.
  - destruct (IH {| all := all it; awaiting := awaiting it; independent := l' |}) as (r & -> & Hr); [|done|].
    { simpl. rewrite El, length_app in Hlen. simpl in Hlen. lia. }
    exists r. split; [done|]. destruct r as [[tx it']|]; simpl in *.
    + destruct Hr as (H1 & H2 & b & Hb & -> & Hsm & Hmax). split_and!; [done|done|]. exists b.
      split_and!; [rewrite El; set_solver|done|done|]. intros y Hy Hsy. rewrite El in Hy.
      apply elem_of_app in Hy as [Hy| ->%list_elem_of_singleton]; [by apply Hmax|]. rewrite Ea in Hsy. by destruct Hsy.
    + intros x Hx. rewrite El in Hx. apply elem_of_app in Hx as [Hx| ->%list_elem_of_singleton]; [by apply Hr|done].
Qed.
End Iterator.

(** ** The independent set of every reachable pool is sorted *)
Section Sortedness.
Import Ready.
Definition ready_sorted (st : ReadyTransactions) : Prop := sorted_refs (independent_transactions st).

Lemma unlink_independent h ms st : independent_transactions (foldl (unlink h) st ms) = independent_transactions st.
Proof.
  revert st. induction ms as [|m ms IH]; intros st; [done|]. simpl. rewrite IH. unfold unlink.
  destruct (provided_markers st !! m); simpl; [|done]. by destruct (ready_tx st !! _).
Qed.

Lemma remove_with_markers_sorted hs mf st st' rem :
  ready_sorted st -> remove_with_markers hs mf st = Some (st', rem) -> ready_sorted st'.
Proof.
  intros Hs H. refine (iterate_ind (remove_step mf) (fun s => ready_sorted (rm_ready s)) (fun r => ready_sorted (fst r))
    _ _ _ _ (st', rem) _ H); [| |done].
  - intros [[|h hs'] r rm] s' Hr [= <-]. simpl in *. destruct (ready_tx r !! h); simpl; [|done].
    unfold ready_sorted, remove_entry. cbn [independent_transactions]. rewrite unlink_independent. by apply btree_remove_sorted.
  - intros [[|h hs'] r rm] r' Hr [= <-]. done.
Qed.

Lemma prune_previous_independent h ms acc :
  independent_transactions (fst (foldl (prune_previous h) acc ms)) = independent_transactions (fst acc).
Proof.
  revert acc. induction ms as [|m ms IH]; intros [st rm]; [done|]. cbn [foldl]. rewrite IH. simpl.
  destruct (provided_markers st !! m); simpl; [|done]. by destruct (ready_tx st !! _).
Qed.

Lemma bump_offset_sorted hs st : ready_sorted st -> ready_sorted (foldl bump_offset st hs).
Proof.
  revert st. induction hs as [|h hs IH]; intros st Hs; [done|]. simpl. apply IH. unfold bump_offset, ready_sorted.
  destruct (ready_tx st !! h); simpl; [|done]. case_match; [by apply btree_insert_sorted|done].
Qed.

Lemma prune_tags_sorted m st st' rem :
  ready_sorted st -> prune_tags m st = Some (Ret (st', rem)) -> ready_sorted st'.
Proof.
  intros Hs H. refine (iterate_ind prune_step (fun s => ready_sorted (pr_ready s))
    (fun r => forall st' rem, r = Ret (st', rem) -> ready_sorted st') _ _ _ _ _ _ H st' rem eq_refl); [| |done].
  - intros [[|m' ms] r rm] s' Hr; [done|]. unfold prune_step. simpl in *.
    destruct (provided_markers r !! m') as [h0|]; simpl; [|by intros [= <-]].
    destruct (ready_tx r !! h0) as [rt|]; simpl; [|by intros [= <-]]. unfold prune_entry.
    set (st2 := {| id := id r; provided_markers := delete m' _; ready_tx := _; independent_transactions := _ |}).
    pose proof (prune_previous_independent (hash (rt_tx rt)) (requires (rt_tx rt)) (st2, ms)) as Hp.
    destruct (foldl (prune_previous (hash (rt_tx rt))) (st2, ms) (requires (rt_tx rt))) as [st3 rm3]. simpl in Hp.
    destruct (ofold _ _ _); simpl; [|done]. intros [= <-]. simpl. apply (bump_offset_sorted (unlocks rt) st3).
    unfold ready_sorted. rewrite Hp. by apply btree_remove_sorted.
  - intros [[|m' ms] r rm] r' Hr; unfold prune_step; simpl in *; [by intros [= <-] ? ? [= <- <-]|].
    destruct (provided_markers r !! m') as [h0|]; simpl; [|done].
    destruct (ready_tx r !! h0) as [rt|]; simpl; [|done]. destruct (prune_entry m' h0 rt ms r) as [[? ?]|]; [done|].
    intros [= <-]. done.
Qed.

Section WithOrder.
Context `{IO : IterOrder}.

Lemma ready_add_sorted ptx st st' rem :
ready_sorted st -> Ready.add_transaction ptx st = Some (Ret (inl (st', rem))) -> ready_sorted st'.
Proof.
unfold Ready.add_transaction. intros Hs. destruct (negb _); [done|]. destruct (contains _ _); [done|].
destruct (replaced_transactions _ _) as [[[[st1 rem1] u]|e]|] eqn:Er; try done.
assert (Hs1 : ready_sorted st1).
{ unfold replaced_transactions in Er. case_decide; [by injection Er as <- <- <-|].
  destruct (check_replaced _ _ _); [|done]. destruct (remove_with_markers _ _ _) as [[st2 rem2]|] eqn:Em; [|done].
  injection Er as <- <- <-. by eapply remove_with_markers_sorted. }
unfold insert_ready. destruct (ofold _ _ _) as [[[rd ind] off]|]; simpl; [|done]. intros [= <- <-].
unfold ready_sorted. simpl. destruct ind; [by apply btree_insert_sorted|done].
Qed.

Definition pool_sorted (p : PoolInner) : Prop := ready_sorted (ready_transactions p).

Lemma add_ready_sorted ptx p p' r :
pool_sorted p -> add_ready_transaction ptx p = Some (Ret (p', r)) -> pool_sorted p'.
Proof.
intros Hs. unfold add_ready_transaction.
destruct (iterate add_step _ _) as [R|] eqn:E; [|done].
assert (HR : forall p' r, R = Some (Ret (p', r)) -> pool_sorted p').
{ refine (iterate_ind add_step (fun s => pool_sorted (ad_pool s)) (fun R => forall p' r, R = Some (Ret (p', r)) -> pool_sorted p')
    _ _ _ _ _ _ E); [| |done].
  - intros [[|cur q] pl rd nw] s' Hp; unfold add_step; simpl in *; [done|].
    destruct (Pending.mark_and_unlock _ _) as [[q' un]|]; [|done].
    destruct (Ready.add_transaction cur _) as [[[[r1 rem]|e]|]|] eqn:Ea; try done.
    + intros [= <-]. simpl. by eapply ready_add_sorted.
    + destruct nw; [done|]. by intros [= <-].
  - intros [[|cur q] pl rd nw] r' Hp; unfold add_step; simpl in *; [by intros [= <-] ? ? [= <- <-]|].
    destruct (Pending.mark_and_unlock _ _) as [[q' un]|]; [|by intros [= <-]].
    destruct (Ready.add_transaction cur _) as [[[[r1 rem]|e]|]|]; try done; try by intros [= <-].
    destruct nw; [|done]. by intros [= <-] ? ? [= <- <-]. }
destruct R as [[[p1 [a|e]]|]|]; try done.
- destruct (existsb _ _).
  + destruct (clear_transactions _ _) as [[r1 rem]|] eqn:Ec; [|done]. intros [= <- <-].
    eapply remove_with_markers_sorted; [|exact Ec]. by eapply HR.
  + intros [= <- <-]. by eapply HR.
- intros [= <- <-]. by eapply HR.
Qed.

Lemma remove_invalid_sorted hs p p' rem : pool_sorted p -> remove_invalid hs p = Some (p', rem) -> pool_sorted p'.
Proof.
intros Hs. unfold remove_invalid. case_bool_decide; [by intros [= <- <-]|].
destruct (remove_with_markers _ _ _) as [[r rm]|] eqn:E; [|done]. destruct (Pending.remove _ _). intros [= <- <-].
by eapply remove_with_markers_sorted.
Qed.

Lemma prune_loop_sorted ms p imp pr p' imp' pr' :
pool_sorted p -> prune_loop ms p imp pr = Some (Ret (p', imp', pr')) -> pool_sorted p'.
Proof.
revert p imp pr. induction ms as [|m ms IH]; intros p imp pr Hs; cbn [prune_loop]; [by intros [= <- <- <-]|].
destruct (Pending.mark_and_unlock _ _) as [[q un]|]; [|done].
destruct (prune_tags _ _) as [[[r rem]|]|] eqn:E; try done. apply IH. by eapply prune_tags_sorted.
Qed.

Lemma import_loop_sorted imp p d f p' d' f' :
pool_sorted p -> import_loop imp p d f = Some (Ret (p', d', f')) -> pool_sorted p'.
Proof.
revert p d f. induction imp as [|u imp IH]; intros p d f Hs; cbn [import_loop]; [by intros [= <- <- <-]|].
destruct (add_ready_transaction u p) as [[[p1 [r|e]]|]|] eqn:E; try done; apply IH; by eapply add_ready_sorted.
Qed.

Lemma prune_markers_sorted ms p p' r :
pool_sorted p -> prune_markers ms p = Some (Ret (p', r)) -> pool_sorted p'.
Proof.
intros Hs. unfold prune_markers. destruct (prune_loop _ _ _ _) as [[[[p1 imp] pr]|]|] eqn:E; try done.
destruct (import_loop _ _ _ _) as [[[[p2 dn] fl]|]|] eqn:E2; try done. intros [= <- <-].
eapply import_loop_sorted; [|exact E2]. by eapply prune_loop_sorted.
Qed.

Lemma apply_op_sorted o p p' : pool_sorted p -> apply_op o p = Some (Ret p') -> pool_sorted p'.
Proof.
intros Hs. destruct o as [tx|h|hs|ms|m|]; simpl.
- unfold Inner.add_transaction. destruct (Inner.contains _ _); [by intros [= <-]|]. destruct (negb _).
  + destruct (Pending.add_transaction _ _) as [[q|e]|]; simpl; by intros [= <-].
  + destruct (add_ready_transaction _ _) as [[[p1 r]|]|] eqn:E; simpl; try done. intros [= <-]. by eapply add_ready_sorted.
- unfold drop_transaction. destruct (remove_with_markers _ _ _) as [[r rm]|] eqn:E; [|done].
  destruct (Pending.remove_with_dependents _ _ _) as [[q rm']|]; simpl; [|done]. intros [= <-].
  by eapply remove_with_markers_sorted.
- destruct (remove_invalid _ _) as [[p1 rm]|] eqn:E; simpl; [|done]. intros [= <-]. by eapply remove_invalid_sorted.
- destruct (prune_markers _ _) as [[[p1 r]|]|] eqn:E; simpl; try done. intros [= <-]. by eapply prune_markers_sorted.
- unfold on_mined_block. destruct (remove_invalid _ _) as [[p1 rm]|] eqn:E; simpl; [|done].
  destruct (prune_markers _ _) as [[[p2 r]|]|] eqn:E2; simpl; try done. intros [= <-].
  eapply prune_markers_sorted; [|exact E2]. by eapply remove_invalid_sorted.
- intros [= <-]. constructor.
Qed.

Lemma reachable_sorted p : reachable p -> pool_sorted p.
Proof. induction 1 as [|o p p' _ IH _ Ha]; [constructor|]. by eapply apply_op_sorted. Qed.
End WithOrder.
End Sortedness.


(** ** Listeners *)
Section ListenerLemmas.
Context {Sender : Type} (try_send : Sender -> TxHash -> Sender * bool).

(** The senders that are kept, after the send. *)
Definition kept (h : TxHash) (x : Sender) : option Sender :=
  let '(x', retain) := try_send x h in if retain then Some x' else None.

Lemma swap_take_prefix (pre post : list Sender) x :
  exists post', Listeners.swap_take (length pre) (pre ++ x :: post) = Some (x, pre ++ post') /\ post' ≡ₚ post.
Proof.
  unfold Listeners.swap_take. rewrite list_lookup_middle by done. rewrite last_app. simpl.
  destruct post as [|y post _] using rev_ind.
  - simpl. exists []. split; [|done]. f_equal. f_equal.
    rewrite list_insert_id by (by apply list_lookup_middle). rewrite length_app, app_nil_r. simpl.
    rewrite Nat.add_sub. by rewrite take_app_length.
  - replace (x :: post ++ [y]) with ((x :: post) ++ [y]) by done. rewrite last_snoc.
    exists (y :: post). split; [|apply Permutation_cons_append]. f_equal. f_equal.
    rewrite insert_app_r_alt by lia. rewrite Nat.sub_diag. simpl.
    rewrite take_app_ge by (rewrite !length_app; simpl; rewrite length_app; simpl; lia).
    f_equal. rewrite !length_app. simpl. rewrite length_app. simpl.
    replace (length pre + S (length post + 1) - 1 - length pre)%nat with (length (y :: post)) by (simpl; lia).
    change (y :: post ++ [y]) with ((y :: post) ++ [y]). by rewrite take_app_length.
Qed.

Lemma notify_loop_spec h (pre post : list Sender) :
  Listeners.notify_loop try_send (length pre) h (pre ++ post) ≡ₚ omap (kept h) pre ++ post.
Proof.
  revert post. induction pre as [|x pre IH] using rev_ind; intros post; [done|].
  rewrite length_app, Nat.add_comm. simpl. rewrite <- app_assoc. simpl.
  destruct (swap_take_prefix pre post x) as (post' & -> & Hp).
  rewrite omap_app. simpl. unfold kept at 2. destruct (try_send x h) as [x' retain]. simpl.
  destruct retain; simpl.
  - rewrite <- app_assoc, IH, Hp, <- app_assoc. simpl.
    apply Permutation_app_head. symmetry. apply Permutation_cons_append.
  - by rewrite IH, Hp, app_nil_r.
Qed.
End ListenerLemmas.

(** ** What the pool guarantees *)
Section PoolClaims.
Context `{IO : IterOrder} {IOL : IterOrderLaws}.

(** C10: on a pool that was reached by operations, every operation returns, no
    assertion fails and the pool stays consistent: the two queues are disjoint,
    every marker index agrees with the transactions, and a waiting transaction
    misses only markers that no ready transaction provides. *)
Theorem pool_operations_never_fail o p :
  reachable p -> op_ok o -> exists p', apply_op o p = Some (Ret p') /\ pool_inv p' /\ reachable p'.
Proof.
  intros Hr Ho. destruct (apply_op_inv o p (reachable_inv p Hr) Ho) as (p' & Ha & Hi).
  exists p'. split_and!; [done|done|]. by eapply reach_op.
Qed.


(** C24: dropping a transaction returns it exactly when the pool has it, and
    takes with it exactly what depends on it: the ready transactions linked to
    it and the waiting ones that require a marker of one that is dropped. *)
Theorem drop_transaction_outcome h p :
  reachable p -> exists p' found, drop_transaction h p = Some (p', found) /\ drop_post p h p' found.
Proof. intros Hr. by apply drop_transaction_post, reachable_inv. Qed.

(** C25: after a block, the invalid transactions and the ready ones that were
    included or stale are gone, nothing that was not pooled appears, and mining
    goes on right away exactly when there was progress, nothing has to wait
    and a transaction is ready. *)
Theorem mined_block_outcome o p :
  reachable p -> exists p' again, on_mined_block o p = Some (Ret (p', again)) /\ mined_post o p p' again.
Proof. intros Hr. by apply on_mined_block_spec, reachable_inv. Qed.

(** Pruning the markers of a block loses nothing: when every promotion
    succeeds, a pooled transaction stays pooled, is reported as pruned, or is
    reported as replaced or discarded by a promotion. *)
Theorem pruning_accounts_for_all markers p :
  reachable p -> exists p' r, prune_markers markers p = Some (Ret (p', r)) /\
    (forall h tx m, ready p !! h = Some tx -> m ∈ provides tx -> m ∈ markers -> fresh p' h) /\
    (prune_failed r = [] -> forall h tx, pooled p h tx ->
       pooled p' h tx \/ tx ∈ prune_pruned r \/ exists a, a ∈ prune_promoted r /\ gone_from a h tx).
Proof.
  intros Hr. destruct (prune_markers_spec markers p (reachable_inv p Hr)) as (p' & r & H1 & _ & _ & H2 & H3). eauto.
Qed.

(** A block takes the best independent transaction first: the iterator
    over the ready queue ends, and what it yields has the highest priority,
    the oldest of equal ones, among the independent transactions that are still
    ready; it stays sorted for the next call. *)
Theorem best_transaction_first p :
  reachable p ->
  exists r, Ready.next (Ready.get_transactions (ready_transactions p)) = Some r /\
    next_post (Ready.get_transactions (ready_transactions p)) r.
Proof.
  intros Hr. apply next_spec_fuel; [lia|]. by apply reachable_sorted.
Qed.

(** Marking provided markers unlocks exactly the waiting transactions
    that missed nothing else, each once, and takes the markers off the others. *)
Theorem mark_and_unlock_exact ms p :
  reachable p ->
  exists q un, Pending.mark_and_unlock ms (pending_transactions p) = Ret (q, un) /\
    NoDup (map (fun u => hash (ppt_transaction u)) un) /\
    (forall u, u ∈ un <-> exists h w, waiting p !! h = Some w /\ missing_markers w ⊆ list_to_set ms /\
       u = {| ppt_transaction := ppt_transaction w; missing_markers := ∅ |}) /\
    (forall h w', Pending.waiting_queue q !! h = Some w' <->
       exists w, waiting p !! h = Some w /\ ~ missing_markers w ⊆ list_to_set ms /\
         w' = {| ppt_transaction := ppt_transaction w; missing_markers := missing_markers w ∖ list_to_set ms |}).
Proof.
  intros Hr. destruct (mark_and_unlock_spec ms _ (pi_pending _ (reachable_inv p Hr))) as (q & un & E & [_ Hq Hn Hu]).
  assert (Hsub : forall w : PendingPoolTransaction, missing_markers w ∖ list_to_set ms = ∅ <-> missing_markers w ⊆ list_to_set ms)
    by (intros w; split; [apply empty_difference_subseteq_L|apply subseteq_empty_difference_L]).
  exists q, un. split_and!; [done|done| |].
  - intros u. rewrite Hu. unfold unlocked_by. split; intros (h & w & Hl & Hs & ->); exists h, w; (split_and!; [done|by apply Hsub|done]).
  - intros h w'. rewrite Hq, lookup_omap. split.
    + destruct (waiting p !! h) as [w|] eqn:El; [|done]. simpl. intros (Hne & H1 & H2)%after_marks_Some. exists w.
      split_and!; [done|by rewrite <- Hsub|]. destruct w'. simpl in *. congruence.
    + intros (w & -> & Hne & ->). simpl. apply after_marks_Some. split_and!; [by rewrite Hsub|done|done].
Qed.
End PoolClaims.

(** Markers are unique: nonce and sender can be read back from them, and the
    transactions of an account with sequential nonces never require what they
    provide, so that they satisfy the assumption of the pool theorems. *)
Theorem markers_identify order on_chain tx n1 a1 n2 a2 :
  0 <= n1 < 2 ^ 64 -> 0 <= n2 < 2 ^ 64 -> 0 <= a1 < 2 ^ 160 -> 0 <= a2 < 2 ^ 160 ->
  0 <= pt_nonce tx < 2 ^ 64 -> 0 <= on_chain < 2 ^ 64 -> 0 <= pt_sender tx < 2 ^ 160 ->
  (to_marker n1 a1 = to_marker n2 a2 <-> n1 = n2 /\ a1 = a2) /\ tx_ok (pool_transaction order on_chain tx).
Proof.
  intros. split; [|by apply pool_transaction_ok]. split; [by apply to_marker_eq|by intros [-> ->]].
Qed.

(** Notifying listeners keeps exactly those whose channel is not
    disconnected, whatever their order, and sends to each once. *)
Theorem notify_keeps_connected {Sender : Type} (try_send : Sender -> TxHash -> Sender * bool) h l :
  Listeners.notify_listener try_send h l ≡ₚ omap (kept try_send h) l.
Proof.
  unfold Listeners.notify_listener. pose proof (notify_loop_spec try_send h l []) as H. by rewrite !app_nil_r in H.
Qed.

(** ** Witnesses *)
#[local] Instance elements_order : IterOrder := {| iter_hashes := elements; iter_markers := elements |}.
#[local] Instance elements_order_laws : IterOrderLaws.
Proof. split; done. Qed.

Definition tx0 : PendingTransaction := {| pt_hash := 100; pt_sender := 5; pt_nonce := 0; pt_max_fee_per_gas := 10 |}.
Definition tx1 : PendingTransaction := {| pt_hash := 101; pt_sender := 5; pt_nonce := 1; pt_max_fee_per_gas := 10 |}.
Definition pool_tx0 : PoolTransaction := pool_transaction Fees 0 tx0.
Definition pool_tx1 : PoolTransaction := pool_transaction Fees 0 tx1.

Lemma pool_tx_ok : tx_ok pool_tx0 /\ tx_ok pool_tx1.
Proof. split; apply pool_transaction_ok; simpl; lia. Qed.

Lemma pool_operations_never_fail_witness :
  exists p', apply_op (OpAdd pool_tx1) Inner.empty = Some (Ret p') /\ pool_inv p' /\ reachable p'.
Proof. apply pool_operations_never_fail; [constructor|apply pool_tx_ok]. Defined.


(** The pool with [tx1] waiting for [tx0]. *)
Lemma waiting_pool : exists p, apply_op (OpAdd pool_tx1) Inner.empty = Some (Ret p) /\ reachable p /\
  Pending.contains (pending_transactions p) 101 = true.
Proof.
  eexists. split; [vm_compute; reflexivity|]. split; [|vm_compute; reflexivity].
  eapply (reach_op (OpAdd pool_tx1)); [constructor|apply pool_tx_ok|vm_compute; reflexivity].
Qed.

(** The pool with [tx0] ready. *)
Lemma ready_pool : exists p, apply_op (OpAdd pool_tx0) Inner.empty = Some (Ret p) /\ reachable p /\
  Ready.contains (ready_transactions p) 100 = true.
Proof.
  eexists. split; [vm_compute; reflexivity|]. split; [|vm_compute; reflexivity].
  eapply (reach_op (OpAdd pool_tx0)); [constructor|apply pool_tx_ok|vm_compute; reflexivity].
Qed.

Lemma drop_transaction_outcome_witness :
  exists p p' found, Pending.contains (pending_transactions p) 101 = true /\
    drop_transaction 101 p = Some (p', found) /\ drop_post p 101 p' found.
Proof.
  destruct waiting_pool as (p & _ & Hr & Hc). destruct (drop_transaction_outcome 101 p Hr) as (p' & found & H1 & H2).
  exists p, p', found. split; [exact Hc|]. split; [exact H1|exact H2].
Defined.

Lemma mined_block_outcome_witness :
  exists p p' again, reachable p /\ mined_post {| included := [pool_tx0]; stale := []; invalid := []; not_yet_valid := [] |} p p' again.
Proof.
  destruct waiting_pool as (p & _ & Hr & _).
  destruct (mined_block_outcome {| included := [pool_tx0]; stale := []; invalid := []; not_yet_valid := [] |} p Hr)
    as (p' & again & _ & H). exists p, p', again. split; [exact Hr|exact H].
Defined.

Lemma pruning_accounts_for_all_witness :
  exists p p' r, reachable p /\ prune_markers [to_marker 0 5] p = Some (Ret (p', r)).
Proof.
  destruct waiting_pool as (p & _ & Hr & _). destruct (pruning_accounts_for_all [to_marker 0 5] p Hr) as (p' & r & H & _).
  exists p, p', r. split; [exact Hr|exact H].
Defined.

Lemma best_transaction_first_witness :
  exists p r, Ready.contains (ready_transactions p) 100 = true /\
    Ready.next (Ready.get_transactions (ready_transactions p)) = Some r /\
    next_post (Ready.get_transactions (ready_transactions p)) r.
Proof.
  destruct ready_pool as (p & _ & Hr & Hc). destruct (best_transaction_first p Hr) as (r & H1 & H2).
  exists p, r. split; [exact Hc|]. split; [exact H1|exact H2].
Defined.

Lemma mark_and_unlock_exact_witness :
  exists p q un, reachable p /\ Pending.mark_and_unlock [to_marker 0 5] (pending_transactions p) = Ret (q, un).
Proof.
  destruct waiting_pool as (p & _ & Hr & _). destruct (mark_and_unlock_exact [to_marker 0 5] p Hr) as (q & un & H & _).
  exists p, q, un. split; [exact Hr|exact H].
Defined.

Lemma markers_identify_witness : tx_ok (pool_transaction Fees 0 tx1) /\ (to_marker 1 5 = to_marker 2 5 <-> 1 = 2 /\ 5 = 5).
Proof.
  destruct (markers_identify Fees 0 tx1 1 5 2 5) as [H1 H2]; [simpl; lia..|]. split; [exact H2|exact H1].
Defined.

(** ** A cycle *)
Definition cyc_tx (h : TxHash) (req prov : list TxMarker) : PoolTransaction :=
  {| pending_transaction := {| pt_hash := h; pt_sender := 0; pt_nonce := 0; pt_max_fee_per_gas := 1 |};
     requires := req; provides := prov; priority := 0; is_replay := false |}.
Definition waiting_tx : PoolTransaction := cyc_tx 1 [[1]] [[2]].
Definition cycle_tx : PoolTransaction := cyc_tx 2 [] [[1]; [2]].

(** When a transaction is promoted that replaces the one that unlocked it,
    the insertion fails as cyclic and both are gone: the promoted transaction is
    not moved back to the pending queue. *)
Theorem cyclic_insertion_loses_waiting :
  exists p1 p2, Inner.add_transaction waiting_tx Inner.empty = Some (Ret (p1, inl (AddedToPending 1))) /\
    Inner.add_transaction cycle_tx p1 = Some (Ret (p2, inr CyclicTransaction)) /\
    Inner.contains p1 1 = true /\ Inner.contains p2 1 = false /\ Inner.contains p2 2 = false.
Proof. eexists _, _. split; [vm_compute; reflexivity|]. split; [vm_compute; reflexivity|]. split_and!; vm_compute; reflexivity. Qed.
