(* ===== verification/Time.v ===== *)
(** * Time: the block clock of anvil

    Models crates/anvil/src/eth/backend/time.rs.  The state behind the lock is
    [TimeState]; every method that takes the lock is one function on it, so an
    interleaving of calls is a sequence of such functions.  A reading of the
    wall clock is the argument [now].  [u64] and [i128] keep their widths:
    saturating and wrapping operations are written out. *)

From Stdlib Require Import ZArith Lia.
From stdpp Require Import base option list relations.
From S2P Require Import Prelude.
Local Open Scope Z_scope.

(** ** Machine integers *)
Definition U64_MAX : Z := 2 ^ 64 - 1.
Definition I128_MAX : Z := 2 ^ 127 - 1.
Definition I128_MIN : Z := - 2 ^ 127.
Definition u64_saturating_add (a b : Z) : Z := Z.min U64_MAX (a + b).
Definition u64_saturating_sub (a b : Z) : Z := Z.max 0 (a - b).
Definition u64_wrapping_add (a b : Z) : Z := (a + b) mod 2 ^ 64.
Definition i128_saturate (a : Z) : Z := Z.max I128_MIN (Z.min I128_MAX a).
Definition i128_saturating_add (a b : Z) : Z := i128_saturate (a + b).
Definition i128_saturating_sub (a b : Z) : Z := i128_saturate (a - b).
(** [as u64] on an [i128] keeps the low 64 bits. *)
Definition i128_as_u64 (a : Z) : Z := a mod 2 ^ 64.

(** [duration_since_unix_epoch]. *)
Record Duration := { as_secs : Z; as_millis : Z }.

(** ** State *)
Record TimestampOverride := { ov_timestamp : Z; ov_generation : Z }.

Record TimeState := {
  offset : Z;
  time_increase : Z;
  offset_reset_generation : Z;
  last_timestamp : Z;
  last_block_wall_time : Z;
  next_exact_timestamp : option TimestampOverride;
  interval : option Z;
  next_override_generation : Z
}.

Definition default_state : TimeState :=
  {| offset := 0; time_increase := 0; offset_reset_generation := 0; last_timestamp := 0;
     last_block_wall_time := 0; next_exact_timestamp := None; interval := None;
     next_override_generation := 0 |}.

Record PendingBlockTimestamp := {
  timestamp : Z;
  exact_generation : option Z;
  prepared_offset : Z;
  pending_reset_generation : Z;
  next_offset : option Z;
  pending_increase : Z
}.

Record TimeSnapshot := {
  ts_offset : Z;
  ts_last_timestamp : Z;
  ts_next_block_timestamp : option Z;
  ts_time_increase : Z
}.

Record PendingTimeIncrease := { seconds : Z; inc_reset_generation : Z }.

(** ** Absolute changes *)
Definition wall_millis (now : Duration) : Z := if as_millis now <=? U64_MAX then as_millis now else U64_MAX.

Definition reset_timestamp (now : Duration) (start_timestamp : Z) (mark_new_head : bool)
    (off : option Z) (next_block_timestamp : option Z) (increase : Z) (s : TimeState) : TimeState :=
  let next_generation := u64_wrapping_add (next_override_generation s) 1 in
  {| last_timestamp := start_timestamp;
     time_increase := increase;
     last_block_wall_time := if mark_new_head then wall_millis now else last_block_wall_time s;
     offset := default (start_timestamp - as_secs now) off;
     offset_reset_generation := u64_wrapping_add (offset_reset_generation s) 1;
     next_override_generation := next_generation;
     next_exact_timestamp :=
       (fun t => {| ov_timestamp := t; ov_generation := next_generation |}) <$> next_block_timestamp;
     interval := interval s |}.

Definition reset (now : Duration) (start_timestamp : Z) (s : TimeState) : TimeState :=
  reset_timestamp now start_timestamp true None None 0 s.
Definition set_time (now : Duration) (t : Z) (s : TimeState) : TimeState :=
  reset_timestamp now t false None None 0 s.
Definition new (now : Duration) (start_timestamp : Z) : TimeState := reset now start_timestamp default_state.

Definition snapshot (s : TimeState) : TimeSnapshot :=
  {| ts_offset := offset s; ts_last_timestamp := last_timestamp s;
     ts_next_block_timestamp := ov_timestamp <$> next_exact_timestamp s;
     ts_time_increase := time_increase s |}.
Definition restore (now : Duration) (sn : TimeSnapshot) (s : TimeState) : TimeState :=
  reset_timestamp now (ts_last_timestamp sn) true (Some (ts_offset sn))
    (ts_next_block_timestamp sn) (ts_time_increase sn) s.

Definition mark_block_created (now : Duration) (s : TimeState) : TimeState :=
  {| offset := offset s; time_increase := time_increase s;
     offset_reset_generation := offset_reset_generation s; last_timestamp := last_timestamp s;
     last_block_wall_time := wall_millis now; next_exact_timestamp := next_exact_timestamp s;
     interval := interval s; next_override_generation := next_override_generation s |}.

(** ** Relative changes *)
Definition set_offset (o inc : Z) (s : TimeState) : TimeState :=
  {| offset := o; time_increase := inc;
     offset_reset_generation := offset_reset_generation s; last_timestamp := last_timestamp s;
     last_block_wall_time := last_block_wall_time s; next_exact_timestamp := next_exact_timestamp s;
     interval := interval s; next_override_generation := next_override_generation s |}.

Definition add_offset (by_ : Z) (s : TimeState) : TimeState * Z :=
  let next := i128_saturating_add (offset s) by_ in
  (set_offset next (u64_saturating_add (time_increase s) by_) s, next).
Definition increase_time (secs : Z) (s : TimeState) : TimeState * Z := add_offset secs s.

Definition apply_time_increase (secs : Z) (s : TimeState) : TimeState * PendingTimeIncrease :=
  (set_offset (i128_saturating_add (offset s) secs) (u64_saturating_add (time_increase s) secs) s,
   {| seconds := secs; inc_reset_generation := offset_reset_generation s |}).

Definition revert_time_increase (pending : PendingTimeIncrease) (s : TimeState) : TimeState :=
  if offset_reset_generation s =? inc_reset_generation pending then
    set_offset (i128_saturating_sub (offset s) (seconds pending))
      (u64_saturating_sub (time_increase s) (seconds pending)) s
  else s.

(** ** Controls of the next block *)
(** The error carries the rejected time stamp. *)
Definition set_next_block_timestamp (t : Z) (s : TimeState) : TimeState + Z :=
  if t <? last_timestamp s then inr t
  else
    let generation := u64_wrapping_add (next_override_generation s) 1 in
    inl {| offset := offset s; time_increase := time_increase s;
           offset_reset_generation := offset_reset_generation s; last_timestamp := last_timestamp s;
           last_block_wall_time := last_block_wall_time s;
           next_exact_timestamp := Some {| ov_timestamp := t; ov_generation := generation |};
           interval := interval s; next_override_generation := generation |}.

Definition with_interval (i : option Z) (s : TimeState) : TimeState :=
  {| offset := offset s; time_increase := time_increase s;
     offset_reset_generation := offset_reset_generation s; last_timestamp := last_timestamp s;
     last_block_wall_time := last_block_wall_time s; next_exact_timestamp := next_exact_timestamp s;
     interval := i; next_override_generation := next_override_generation s |}.
Definition set_block_timestamp_interval (i : Z) (s : TimeState) : TimeState := with_interval (Some i) s.
Definition remove_block_timestamp_interval (s : TimeState) : TimeState * bool :=
  (with_interval None s, match interval s with Some _ => true | None => false end).

(** ** The next time stamp *)
Definition compute_next_timestamp (s : TimeState) (current : Z) (pin_timestamp : bool)
  : Z * option Z * option Z :=
  let exact_timestamp := next_exact_timestamp s in
  let last := last_timestamp s in
  let '(next, update_offset) :=
    match exact_timestamp with
    | Some next => (ov_timestamp next, true)
    | None =>
        match interval s with
        | Some interval => (u64_saturating_add last interval, false)
        | None =>
            let wall := i128_as_u64 (i128_saturating_add current (offset s)) in
            (Z.max wall (u64_saturating_add last (time_increase s)), false)
        end
    end in
  let allow_equal := bool_decide (is_Some exact_timestamp) || pin_timestamp || bool_decide (is_Some (interval s)) in
  let too_low := if allow_equal then next <? last else next <=? last in
  let next := if too_low then u64_saturating_add last 1 else next in
  (next, ov_generation <$> exact_timestamp, if update_offset : bool then Some (next - current) else None).

Definition prepare_next_timestamp_inner (now : Duration) (schedule : option (Z * Z)) (pin_timestamp : bool)
    (s : TimeState) : PendingBlockTimestamp :=
  let current := as_secs now in
  let '(t, generation, next_off) :=
    match schedule with
    | Some (increment, minimum) =>
        let t := Z.max
          match next_exact_timestamp s with
          | None => u64_saturating_add
                      (u64_saturating_add (last_timestamp s) (default increment (interval s)))
                      (time_increase s)
          | Some next => ov_timestamp next
          end minimum in
        (t, ov_generation <$> next_exact_timestamp s, Some (t - current))
    | None => compute_next_timestamp s current pin_timestamp
    end in
  {| timestamp := t; exact_generation := generation; prepared_offset := offset s;
     pending_reset_generation := offset_reset_generation s; next_offset := next_off;
     pending_increase := time_increase s |}.

Definition prepare_next_timestamp (now : Duration) (pin_timestamp : bool) (s : TimeState) : PendingBlockTimestamp :=
  prepare_next_timestamp_inner now None pin_timestamp s.
Definition prepare_next_timestamp_with_increment (now : Duration) (increment minimum : Z) (s : TimeState)
  : PendingBlockTimestamp :=
  prepare_next_timestamp_inner now (Some (increment, minimum)) false s.

Definition commit_next_timestamp (pending : PendingBlockTimestamp) (s : TimeState) : TimeState :=
  let consumed :=
    match exact_generation pending, next_exact_timestamp s with
    | Some generation, Some exact => ov_generation exact =? generation
    | _, _ => false
    end in
  let same_reset := offset_reset_generation s =? pending_reset_generation pending in
  {| offset := match next_offset pending with
               | Some next => if same_reset then
                   i128_saturating_add next (i128_saturating_sub (offset s) (prepared_offset pending))
                 else offset s
               | None => offset s
               end;
     time_increase := if same_reset then u64_saturating_sub (time_increase s) (pending_increase pending)
                      else time_increase s;
     offset_reset_generation := offset_reset_generation s;
     last_timestamp := if same_reset then timestamp pending else last_timestamp s;
     last_block_wall_time := last_block_wall_time s;
     next_exact_timestamp := if consumed then None else next_exact_timestamp s;
     interval := interval s;
     next_override_generation := next_override_generation s |}.

Definition next_timestamp (now : Duration) (s : TimeState) : TimeState * Z :=
  let pending := prepare_next_timestamp now false s in
  (commit_next_timestamp pending s, timestamp pending).

Definition current_wall_timestamp (now : Duration) (s : TimeState) : Z :=
  i128_as_u64 (i128_saturating_add (as_secs now) (offset s)).
Definition current_call_timestamp (now : Duration) (s : TimeState) : Z :=
  timestamp (prepare_next_timestamp now false s).

(** ** Calls as steps *)
(** The calls that other tasks may make while a block is being built. *)
Inductive ControlOp :=
  | CIncrease (secs : Z)
  | CSetNext (t : Z)
  | CSetInterval (i : Z)
  | CRemoveInterval
  | CMarkCreated (now : Duration).

Definition control (o : ControlOp) (s : TimeState) : TimeState :=
  match o with
  | CIncrease secs => fst (increase_time secs s)
  | CSetNext t => match set_next_block_timestamp t s with inl s' => s' | inr _ => s end
  | CSetInterval i => set_block_timestamp_interval i s
  | CRemoveInterval => fst (remove_block_timestamp_interval s)
  | CMarkCreated now => mark_block_created now s
  end.
Definition controls (os : list ControlOp) (s : TimeState) : TimeState := foldl (fun s o => control o s) s os.

Inductive TimeOp :=
  | TControl (o : ControlOp)
  | TApply (secs : Z)
  | TRevert (pending : PendingTimeIncrease)
  | TBlock (now : Duration) (pin : bool)
  | TBlockAt (now : Duration) (increment minimum : Z)
  | TReset (now : Duration) (t : Z)
  | TSetTime (now : Duration) (t : Z)
  | TRestore (now : Duration) (sn : TimeSnapshot).

Definition time_op (o : TimeOp) (s : TimeState) : TimeState :=
  match o with
  | TControl o => control o s
  | TApply secs => fst (apply_time_increase secs s)
  | TRevert p => revert_time_increase p s
  | TBlock now pin => commit_next_timestamp (prepare_next_timestamp now pin s) s
  | TBlockAt now i m => commit_next_timestamp (prepare_next_timestamp_with_increment now i m s) s
  | TReset now t => reset now t s
  | TSetTime now t => set_time now t s
  | TRestore now sn => restore now sn s
  end.

(** ** Well-formed states: every field in its type, and the pending override
    carries the latest generation. *)
Definition u64 (z : Z) : Prop := 0 <= z <= U64_MAX.
Definition i128 (z : Z) : Prop := I128_MIN <= z <= I128_MAX.

Record time_ok (s : TimeState) : Prop := {
  ok_offset : i128 (offset s);
  ok_increase : u64 (time_increase s);
  ok_reset_gen : u64 (offset_reset_generation s);
  ok_last : u64 (last_timestamp s);
  ok_wall : u64 (last_block_wall_time s);
  ok_interval : forall i, interval s = Some i -> u64 i;
  ok_override_gen : u64 (next_override_generation s);
  ok_exact : forall o, next_exact_timestamp s = Some o ->
    u64 (ov_timestamp o) /\ ov_generation o = next_override_generation s
}.

Definition duration_ok (now : Duration) : Prop := u64 (as_secs now) /\ 0 <= as_millis now.
Definition snapshot_ok (sn : TimeSnapshot) : Prop :=
  i128 (ts_offset sn) /\ u64 (ts_last_timestamp sn) /\ u64 (ts_time_increase sn) /\
  forall t, ts_next_block_timestamp sn = Some t -> u64 t.

Definition control_ok (o : ControlOp) : Prop :=
  match o with
  | CIncrease z | CSetNext z | CSetInterval z => u64 z
  | CRemoveInterval => True
  | CMarkCreated now => duration_ok now
  end.
Definition op_ok (o : TimeOp) : Prop :=
  match o with
  | TControl o => control_ok o
  | TApply z => u64 z
  | TRevert p => u64 (seconds p)
  | TBlock now _ => duration_ok now
  | TBlockAt now i m => duration_ok now /\ u64 i /\ u64 m
  | TReset now t | TSetTime now t => duration_ok now /\ u64 t
  | TRestore now sn => duration_ok now /\ snapshot_ok sn
  end.

(** The arithmetic of the two widths, for [lia]. *)
Ltac widths :=
  unfold u64, i128, u64_saturating_add, u64_saturating_sub, i128_saturating_add, i128_saturating_sub, i128_saturate,
    U64_MAX, I128_MIN, I128_MAX in *; lia.

Lemma wrapping_u64 a b : u64 (u64_wrapping_add a b).
Proof. unfold u64_wrapping_add, u64, U64_MAX. pose proof (Z.mod_pos_bound (a + b) (2 ^ 64)). lia. Qed.

Lemma wrapping_succ_ne g : u64 g -> u64_wrapping_add g 1 <> g.
Proof.
  unfold u64, U64_MAX, u64_wrapping_add. intros Hg E. destruct (Z.eq_dec g (2 ^ 64 - 1)) as [->|].
  - by vm_compute in E.
  - rewrite Z.mod_small in E; lia.
Qed.

Lemma as_u64_range z : u64 (i128_as_u64 z).
Proof. unfold i128_as_u64, u64, U64_MAX. pose proof (Z.mod_pos_bound z (2 ^ 64)). lia. Qed.

Lemma wall_millis_ok now : duration_ok now -> u64 (wall_millis now).
Proof. intros [_ H]. unfold wall_millis. destruct (Z.leb_spec (as_millis now) U64_MAX); unfold u64, U64_MAX in *; lia. Qed.

Lemma reset_ok now t mark off next inc s :
  time_ok s -> duration_ok now -> u64 t -> u64 inc -> (forall o, off = Some o -> i128 o) ->
  (forall n, next = Some n -> u64 n) -> time_ok (reset_timestamp now t mark off next inc s).
Proof.
  intros [? ? ? ? ? ? ? ?] Hd Ht Hi Ho Hn. pose proof (wall_millis_ok now Hd). destruct Hd as [Hs _].
  split; simpl; try done; try apply wrapping_u64.
  - destruct off as [o|]; simpl; [auto|widths].
  - by destruct mark.
  - intros o (n & E & ->)%fmap_Some. simpl. auto.
Qed.

Lemma compute_timestamp s current pin :
  time_ok s -> u64 current ->
  let '(t, g, off) := compute_next_timestamp s current pin in
  u64 t /\ last_timestamp s <= t /\ g = ov_generation <$> next_exact_timestamp s /\
  (forall o, off = Some o -> i128 o /\ o = t - current).
Proof.
  intros [? ? ? Hl ? Hi ? He] Hc. unfold compute_next_timestamp.
  destruct (next_exact_timestamp s) as [o|]; simpl.
  - destruct (He o eq_refl) as [Ho _]. destruct (Z.ltb_spec (ov_timestamp o) (last_timestamp s)); split_and!; try done; try widths;
      intros ? [= <-]; (split; [widths|done]).
  - assert (Hgo : forall n ae, u64 n -> let next := if ae : bool then n <? last_timestamp s else n <=? last_timestamp s in
      let t := if next : bool then u64_saturating_add (last_timestamp s) 1 else n in u64 t /\ last_timestamp s <= t).
    { intros n ae Hn. simpl. destruct ae.
      - destruct (Z.ltb_spec n (last_timestamp s)); widths.
      - destruct (Z.leb_spec n (last_timestamp s)); widths. }
    destruct (interval s) as [i|] eqn:Ei; simpl.
    + destruct (Hgo (u64_saturating_add (last_timestamp s) i) (pin || true)); [specialize (Hi i eq_refl); widths|].
      split_and!; done.
    + pose proof (as_u64_range (i128_saturating_add current (offset s))) as Hw.
      destruct (Hgo (Z.max (i128_as_u64 (i128_saturating_add current (offset s)))
        (u64_saturating_add (last_timestamp s) (time_increase s))) (pin || false)); [widths|].
      split_and!; done.
Qed.

Lemma prepare_ok now sched pin s :
  time_ok s -> duration_ok now -> (forall i m, sched = Some (i, m) -> u64 i /\ u64 m) ->
  let p := prepare_next_timestamp_inner now sched pin s in
  u64 (timestamp p) /\ (forall o, next_offset p = Some o -> i128 o) /\
  match sched with None => last_timestamp s <= timestamp p | Some (_, m) => m <= timestamp p end /\
  exact_generation p = ov_generation <$> next_exact_timestamp s /\
  prepared_offset p = offset s /\ pending_reset_generation p = offset_reset_generation s /\
  pending_increase p = time_increase s.
Proof.
  intros Hs [Hd _] Hsch. unfold prepare_next_timestamp_inner. destruct sched as [[i m]|].
  - destruct (Hsch i m eq_refl) as [Hi Hm]. simpl. destruct Hs as [? ? ? Hl ? Hiv ? He].
    assert (Ht : u64 match next_exact_timestamp s with
      | Some next => ov_timestamp next
      | None => u64_saturating_add (u64_saturating_add (last_timestamp s) (default i (interval s))) (time_increase s) end).
    { destruct (next_exact_timestamp s) as [o|]; [by destruct (He o eq_refl)|].
      assert (u64 (default i (interval s))) by (destruct (interval s); simpl; auto). widths. }
    split_and!; try done; try widths. intros ? [= <-]. widths.
  - pose proof (compute_timestamp s (as_secs now) pin Hs Hd) as Hc.
    destruct (compute_next_timestamp s (as_secs now) pin) as [[t g] off]. simpl. destruct Hc as (H1 & H2 & H3 & H4).
    split_and!; try done. intros o Ho. by apply H4.
Qed.

Lemma commit_ok p s :
  time_ok s -> u64 (timestamp p) -> (forall o, next_offset p = Some o -> i128 o) -> u64 (pending_increase p) ->
  time_ok (commit_next_timestamp p s).
Proof.
  intros [Ho ? ? ? ? ? ? He] Ht Hoff Hinc. split; simpl; try done.
  - destruct (next_offset p) as [o|]; [|done]. specialize (Hoff o eq_refl).
    destruct (_ =? _); [|done]. widths.
  - destruct (_ =? _); widths.
  - by destruct (_ =? _).
  - intros o Hex. apply He. by destruct (match exact_generation p with Some _ => _ | None => _ end).
Qed.

Lemma control_time_ok o s : time_ok s -> control_ok o -> time_ok (control o s).
Proof.
  intros Hs Ho. pose proof Hs as [? ? ? ? ? ? ? He]. destruct o; simpl in *.
  - split; simpl; try done; widths.
  - unfold set_next_block_timestamp. destruct (Z.ltb_spec t (last_timestamp s)); [done|].
    split; simpl; try done; [apply wrapping_u64|]. by intros ? [= <-].
  - split; simpl; try done. by intros ? [= <-].
  - split; simpl; done.
  - split; simpl; try done. by apply wall_millis_ok.
Qed.

Lemma time_op_ok o s : time_ok s -> op_ok o -> time_ok (time_op o s).
Proof.
  intros Hs Ho. destruct o as [o|z|p|now pin|now i m|now t|now t|now sn]; simpl in *.
  - by apply control_time_ok.
  - destruct Hs. split; simpl; try done; widths.
  - unfold revert_time_increase. destruct (_ =? _); [|done]. destruct Hs. split; simpl; try done; widths.
  - destruct (prepare_ok now None pin s Hs Ho) as (H1 & H2 & _ & _ & _ & _ & H3); [done|].
    apply commit_ok; try done. unfold prepare_next_timestamp. rewrite H3. apply Hs.
  - destruct Ho as (Hd & Hi & Hm). destruct (prepare_ok now (Some (i, m)) false s Hs Hd) as (H1 & H2 & _ & _ & _ & _ & H3);
      [by intros ? ? [= <- <-]|].
    apply commit_ok; try done. unfold prepare_next_timestamp_with_increment. rewrite H3. apply Hs.
  - destruct Ho. by apply reset_ok.
  - destruct Ho. by apply reset_ok.
  - destruct Ho as [Hd (H1 & H2 & H3 & H4)]. apply reset_ok; try done. by intros ? [= <-].
Qed.


Lemma control_keeps o s :
  last_timestamp (control o s) = last_timestamp s /\
  offset_reset_generation (control o s) = offset_reset_generation s.
Proof. destruct o; simpl; try done. unfold set_next_block_timestamp. by destruct (t <? last_timestamp s). Qed.

Lemma controls_keep os s :
  last_timestamp (controls os s) = last_timestamp s /\
  offset_reset_generation (controls os s) = offset_reset_generation s.
Proof.
  revert s. induction os as [|o os IH]; intros s; [done|]. simpl. destruct (IH (control o s)) as [-> ->]. apply control_keeps.
Qed.



Lemma now_example : duration_ok {| as_secs := 1700000000; as_millis := 1700000000000 |}.
Proof. unfold duration_ok, u64, U64_MAX. simpl. lia. Qed.

Lemma default_ok : time_ok default_state.
Proof. split; simpl; unfold u64, i128, U64_MAX, I128_MIN, I128_MAX; try lia; done. Qed.

Definition clock : TimeState := new {| as_secs := 1700000000; as_millis := 1700000000000 |} 100.

Lemma clock_ok : time_ok clock.
Proof. apply reset_ok; [apply default_ok|apply now_example|widths|widths|done|done]. Qed.


(** A block on the default path is strictly later than its parent, or the
    parent is at the end of time. *)
Theorem default_block_strictly_later now s :
  time_ok s -> duration_ok now -> next_exact_timestamp s = None -> interval s = None ->
  let '(s', t) := next_timestamp now s in
  last_timestamp s' = t /\ (last_timestamp s < t \/ last_timestamp s = U64_MAX) /\
  u64_saturating_add (last_timestamp s) (time_increase s) <= t /\
  (current_wall_timestamp now s <= t) /\ time_increase s' = 0.
Proof.
  intros Hs [Hd _] Hx Hi. unfold next_timestamp, prepare_next_timestamp, prepare_next_timestamp_inner,
    compute_next_timestamp, current_wall_timestamp. rewrite Hx, Hi. simpl. rewrite !Z.eqb_refl.
  pose proof (as_u64_range (i128_saturating_add (as_secs now) (offset s))) as Hw.
  destruct Hs as [? ? ? Hl ? _ _ _]. split; [done|].
  destruct (Z.leb_spec (Z.max (i128_as_u64 (i128_saturating_add (as_secs now) (offset s)))
    (u64_saturating_add (last_timestamp s) (time_increase s))) (last_timestamp s)); split_and!; try widths.
Qed.

Lemma default_block_strictly_later_witness :
  let '(s', t) := next_timestamp {| as_secs := 1700000000; as_millis := 1700000000000 |} clock in
  last_timestamp s' = t /\ (last_timestamp clock < t \/ last_timestamp clock = U64_MAX) /\
  u64_saturating_add (last_timestamp clock) (time_increase clock) <= t /\
  (current_wall_timestamp {| as_secs := 1700000000; as_millis := 1700000000000 |} clock <= t) /\ time_increase s' = 0.
Proof. apply default_block_strictly_later; [apply clock_ok|apply now_example|reflexivity|reflexivity]. Defined.

(** What a run of controls did to the additive state. *)
Fixpoint increases (os : list ControlOp) : Z :=
  match os with
  | [] => 0
  | CIncrease z :: os => z + increases os
  | _ :: os => increases os
  end.

Lemma increases_nonneg os : Forall control_ok os -> 0 <= increases os.
Proof. induction 1 as [|o os Ho _ IH]; simpl; [lia|]. destruct o; simpl in *; widths. Qed.

Lemma controls_additive os s :
  Forall control_ok os -> time_ok s -> offset s + increases os <= I128_MAX -> time_increase s + increases os <= U64_MAX ->
  offset (controls os s) = offset s + increases os /\
  time_increase (controls os s) = time_increase s + increases os /\ time_ok (controls os s).
Proof.
  intros Hos. revert s. induction Hos as [|o os Ho Hos IH]; intros s Hs; simpl; [intros; split_and!; [lia|lia|done]|].
  pose proof (increases_nonneg os Hos) as Hnn. intros Ho1 Hi1.
  pose proof (control_time_ok o s Hs Ho) as Hok.
  assert (Hstep : offset (control o s) + increases os = offset s + increases (o :: os) /\
    time_increase (control o s) + increases os = time_increase s + increases (o :: os)).
  { destruct Hs. destruct o; simpl in *; try (split; lia); [widths|].
    unfold set_next_block_timestamp. destruct (t <? last_timestamp s); simpl; lia. }
  simpl in Hstep. destruct (IH (control o s) Hok) as (H1 & H2 & H3); [lia|lia|]. split_and!; [lia|lia|done].
Qed.

(** A temporary increase that is reverted leaves what the calls made in
    between left, as if it had never been applied. *)
Theorem reverted_increase_leaves_no_trace secs os s :
  time_ok s -> u64 secs -> Forall control_ok os ->
  offset s + secs + increases os <= I128_MAX -> time_increase s + secs + increases os <= U64_MAX ->
  let '(s1, pending) := apply_time_increase secs s in
  let reverted := revert_time_increase pending (controls os s1) in
  offset reverted = offset (controls os s) /\ time_increase reverted = time_increase (controls os s).
Proof.
  intros Hs Hsec Hos Ho Hi. simpl. pose proof (increases_nonneg os Hos) as Hnn.
  set (s1 := set_offset _ _ s).
  assert (Hs1 : time_ok s1) by (destruct Hs; split; simpl; try done; widths).
  assert (E1 : offset s1 = offset s + secs) by (destruct Hs; simpl; widths).
  assert (E2 : time_increase s1 = time_increase s + secs) by (destruct Hs; simpl; widths).
  destruct (controls_additive os s1 Hos Hs1) as (H1 & H2 & _); [lia|lia|].
  destruct (controls_additive os s Hos Hs) as (H3 & H4 & _); [widths|widths|].
  unfold revert_time_increase. simpl. rewrite (proj2 (controls_keep os s1)). simpl. rewrite Z.eqb_refl. simpl.
  rewrite H1, H2, H3, H4, E1, E2. destruct Hs. widths.
Qed.

Lemma reverted_increase_leaves_no_trace_witness :
  let '(s1, pending) := apply_time_increase 3600 clock in
  let reverted := revert_time_increase pending (controls [CSetInterval 12; CIncrease 5] s1) in
  offset reverted = offset (controls [CSetInterval 12; CIncrease 5] clock) /\
  time_increase reverted = time_increase (controls [CSetInterval 12; CIncrease 5] clock).
Proof.
  apply (reverted_increase_leaves_no_trace 3600 [CSetInterval 12; CIncrease 5] clock); [apply clock_ok|widths| | |].
  - repeat constructor; simpl; done.
  - vm_compute. done.
  - vm_compute. done.
Defined.

(** A snapshot that is restored brings the clock back: the offset, the head,
    the override and the pending increase are those of the snapshot, and a
    block that was prepared before the restore no longer moves the clock. *)
Theorem restored_snapshot_is_current now later s s' :
  time_ok s' ->
  let r := restore later (snapshot s) s' in
  snapshot r = snapshot s /\
  forall pin, let late := commit_next_timestamp (prepare_next_timestamp now pin s') r in
    offset late = offset r /\ last_timestamp late = last_timestamp r /\ time_increase late = time_increase r.
Proof.
  intros Hs'. simpl. split.
  - unfold snapshot, restore, reset_timestamp. simpl. by destruct (next_exact_timestamp s).
  - intros pin. unfold prepare_next_timestamp, prepare_next_timestamp_inner.
    destruct (compute_next_timestamp s' (as_secs now) pin) as [[t g] off]. simpl.
    pose proof (wrapping_succ_ne _ (ok_reset_gen _ Hs')) as Hne. apply Z.eqb_neq in Hne. rewrite Hne.
    by destruct off.
Qed.

Lemma restored_snapshot_is_current_witness :
  snapshot (restore {| as_secs := 1700000000; as_millis := 1700000000000 |} (snapshot clock)
              (time_op (TControl (CIncrease 50)) clock)) = snapshot clock.
Proof.
  apply (restored_snapshot_is_current {| as_secs := 0; as_millis := 0 |} {| as_secs := 1700000000; as_millis := 1700000000000 |} clock).
  apply time_op_ok; [apply clock_ok|]. simpl. done.
Defined.

(** The overrides that were accepted in a run of controls. *)
Definition accepts (o : ControlOp) (s : TimeState) : Z :=
  match o with CSetNext t => if t <? last_timestamp s then 0 else 1 | _ => 0 end.
Definition accepted (os : list ControlOp) (s : TimeState) : Z :=
  foldr (fun o n => accepts o s + n) 0 os.

Lemma accepts_range o s : 0 <= accepts o s <= 1.
Proof. unfold accepts. destruct o; try lia. destruct (_ <? _); lia. Qed.

Lemma accepts_control o o' s : accepts o (control o' s) = accepts o s.
Proof. unfold accepts. destruct o; try done. by rewrite (proj1 (control_keeps o' s)). Qed.

Lemma accepted_control os o s : accepted os (control o s) = accepted os s.
Proof. induction os as [|o' os IH]; simpl; [done|]. by rewrite IH, accepts_control. Qed.

Lemma accepted_nonneg os s : 0 <= accepted os s.
Proof. induction os as [|o os IH]; simpl; [lia|]. pose proof (accepts_range o s). lia. Qed.

Lemma controls_generation os s :
  time_ok s ->
  next_override_generation (controls os s) = (next_override_generation s + accepted os s) mod 2 ^ 64 /\
  (accepted os s = 0 -> next_exact_timestamp (controls os s) = next_exact_timestamp s) /\
  (0 < accepted os s -> is_Some (next_exact_timestamp (controls os s))).
Proof.
  assert (Hone : forall o s, (accepts o s = 0 /\ next_override_generation (control o s) = next_override_generation s /\
      next_exact_timestamp (control o s) = next_exact_timestamp s) \/
    (accepts o s = 1 /\ next_override_generation (control o s) = (next_override_generation s + 1) mod 2 ^ 64 /\
      is_Some (next_exact_timestamp (control o s)))).
  { intros o s0. destruct o; simpl; try by left. unfold set_next_block_timestamp.
    destruct (t <? last_timestamp s0); [by left|]. right. simpl. unfold u64_wrapping_add. eauto. }
  enough (Hgen : forall os s, next_override_generation s = next_override_generation s mod 2 ^ 64 ->
    next_override_generation (controls os s) = (next_override_generation s + accepted os s) mod 2 ^ 64 /\
    (accepted os s = 0 -> next_exact_timestamp (controls os s) = next_exact_timestamp s) /\
    ((0 < accepted os s \/ is_Some (next_exact_timestamp s)) -> is_Some (next_exact_timestamp (controls os s)))).
  { intros Hs. destruct (Hgen os s) as (H1 & H2 & H3); [|eauto].
    symmetry. apply Z.mod_small. pose proof (ok_override_gen _ Hs). unfold u64, U64_MAX in *. lia. }
  clear s os. induction os as [|o os IH]; intros s Hs.
  { simpl. rewrite Z.add_0_r. split_and!; [done|done|]. intros [?|?]; [lia|done]. }
  pose proof (accepted_nonneg os s) as Hnn. simpl. destruct (Hone o s) as [(Ha & Hg & Hx)|(Ha & Hg & Hx)].
  - destruct (IH (control o s)) as (H1 & H2 & H3); [by rewrite Hg|]. rewrite accepted_control in *. rewrite Ha, H1, Hg.
    rewrite Hx in H2, H3. split_and!; [f_equal; lia|intros; apply H2; lia|]. intros [?|?]; apply H3; [left; lia|by right].
  - destruct (IH (control o s)) as (H1 & H2 & H3); [rewrite Hg; symmetry; by rewrite Z.mod_mod|].
    rewrite accepted_control in *. rewrite Ha, H1, Hg.
    split_and!; [|lia|intros _; apply H3; by right]. rewrite Z.add_mod_idemp_l by lia. f_equal. lia.
Qed.

(** Committing a block consumes the controls it was prepared with and no
    others: the head becomes the prepared time stamp, an override is used once,
    and increases or overrides made while the block was built stay for the next
    block. *)
Theorem commit_consumes_only_prepared now pin os s :
  time_ok s -> duration_ok now -> Forall control_ok os ->
  offset s + increases os <= I128_MAX -> time_increase s + increases os <= U64_MAX -> accepted os s < 2 ^ 64 ->
  let pending := prepare_next_timestamp now pin s in
  let s' := controls os s in
  let c := commit_next_timestamp pending s' in
  last_timestamp c = timestamp pending /\ time_increase c = increases os /\
  (accepted os s = 0 -> next_exact_timestamp c = None) /\
  (0 < accepted os s -> is_Some (next_exact_timestamp s') /\ next_exact_timestamp c = next_exact_timestamp s') /\
  (forall o, next_exact_timestamp s = Some o -> last_timestamp s <= ov_timestamp o -> increases os <= U64_MAX ->
     timestamp pending = ov_timestamp o /\ offset c = ov_timestamp o - as_secs now + increases os).
Proof.
  intros Hs Hd Hos Ho Hi Hacc pending s' c. unfold c, pending.
  destruct (controls_additive os s Hos Hs Ho Hi) as (H1 & H2 & H3).
  destruct (controls_generation os s Hs) as (Hg & Hx0 & Hx1). destruct (controls_keep os s) as [_ Hr].
  destruct (prepare_ok now None pin s Hs Hd) as (_ & _ & _ & Pe & Po & Pr & Pi); [done|].
  pose proof (increases_nonneg os Hos) as Hnn. pose proof (accepted_nonneg os s) as Hna.
  unfold prepare_next_timestamp, s'. simpl. rewrite Pe, Po, Pr, Pi, H1, H2, Hr, Z.eqb_refl.
  split_and!; [done|destruct Hs; widths| | |].
  - intros Hz. rewrite (Hx0 Hz). destruct (next_exact_timestamp s); simpl; [by rewrite Z.eqb_refl|done].
  - intros Hpos. destruct (Hx1 Hpos) as [o' Ho']. split; [by rewrite Ho'|]. rewrite Ho'.
    destruct (next_exact_timestamp s) as [o|] eqn:Ex; simpl; [|done].
    destruct (ok_exact _ H3 _ Ho') as [_ Hg']. destruct (ok_exact _ Hs _ Ex) as [_ Hg0]. rewrite Hg', Hg0, Hg.
    destruct (Z.eqb_spec ((next_override_generation s + accepted os s) mod 2 ^ 64) (next_override_generation s)) as [E|]; [|done].
    exfalso. pose proof (ok_override_gen _ Hs) as Hgr. unfold u64, U64_MAX in Hgr.
    destruct (Z_lt_ge_dec (next_override_generation s + accepted os s) (2 ^ 64)).
    + rewrite Z.mod_small in E; lia.
    + rewrite <- (Z_mod_plus_full _ (-1)), Z.mod_small in E; lia.
  - intros o Ex Hle Hu. unfold prepare_next_timestamp_inner, compute_next_timestamp. rewrite Ex. simpl.
    destruct (Z.ltb_spec (ov_timestamp o) (last_timestamp s)); [lia|]. split; [done|]. simpl.
    destruct (ok_exact _ Hs _ Ex) as [Hov _]. destruct Hd as [Hd _]. destruct Hs. widths.
Qed.

Lemma commit_consumes_only_prepared_witness :
  let s := controls [CSetNext 200] clock in
  let os := [CIncrease 7; CSetNext 300] in
  let c := commit_next_timestamp (prepare_next_timestamp {| as_secs := 1700000000; as_millis := 1700000000000 |} false s) (controls os s) in
  last_timestamp c = 200 /\ time_increase c = 7 /\ ov_timestamp <$> next_exact_timestamp c = Some 300.
Proof.
  intros s os c.
  destruct (commit_consumes_only_prepared {| as_secs := 1700000000; as_millis := 1700000000000 |} false os s)
    as (H1 & H2 & _ & H3 & _).
  - apply control_time_ok; [apply clock_ok|done].
  - apply now_example.
  - repeat constructor; simpl; done.
  - vm_compute. done.
  - vm_compute. done.
  - vm_compute. done.
  - split; [exact H1|]. split; [exact H2|]. destruct H3 as [_ H3]; [vm_compute; done|]. unfold c. rewrite H3. reflexivity.
Defined.

(** Setting the next time stamp fails exactly below the head, and then
    changes nothing; an accepted override decides the next block. *)
Theorem next_block_timestamp_override now pin t s :
  match set_next_block_timestamp t s with
  | inr e => t < last_timestamp s /\ e = t
  | inl s' => last_timestamp s <= t /\ timestamp (prepare_next_timestamp now pin s') = t /\
              last_timestamp s' = last_timestamp s /\ offset s' = offset s /\
              next_exact_timestamp (commit_next_timestamp (prepare_next_timestamp now pin s') s') = None
  end.
Proof.
  unfold set_next_block_timestamp. destruct (Z.ltb_spec t (last_timestamp s)); [done|].
  unfold prepare_next_timestamp, prepare_next_timestamp_inner, compute_next_timestamp. simpl.
  destruct (Z.ltb_spec t (last_timestamp s)); [lia|]. simpl. rewrite Z.eqb_refl. done.
Qed.
