(* ===== verification/Printer.v ===== *)
(** * Printer: the pretty printer of the formatter

    Models crates/fmt/src/pp (mod.rs, ring.rs, convenience.rs, helpers.rs), the
    Oppen-style printer that all of the Solidity formatter writes through.
    Callers push words, breaks and boxes; [scan_*] buffers them in a ring until
    their size is known and [print_*] writes them.  Strings are their UTF-8
    bytes, [len] the number of bytes.  The [FMT_DEBUG] marks are off, as in a
    normal build.  Every panic is a value that says which one it was. *)

From Stdlib Require Import ZArith Lia Ascii String.
From stdpp Require Import base list option strings.
From S2P Require Import Prelude.
Local Open Scope Z_scope.

(** ** Panics *)
Inductive PanicReason :=
  | EmptyBuffer          (* [first], [last] or [pop] of an empty ring *)
  | BadIndex             (* an index outside of the ring *)
  | EmptyScanStack       (* [front().unwrap()] *)
  | EmptyPrintStack      (* [print_stack.pop().unwrap()] *)
  | NegativeIndentation  (* [usize::try_from] of a negative number *)
  | Unreachable.

Inductive Res (A : Type) :=
  | Ok (a : A)
  | Panics (r : PanicReason).
Arguments Ok {A} a.
Arguments Panics {A} r.

Definition rbind {A B} (m : Res A) (k : A -> Res B) : Res B :=
  match m with Ok a => k a | Panics r => Panics r end.
Declare Scope res_scope.
Notation "'do' x '<-' c ';' k" := (rbind c (fun x => k))
  (at level 200, x pattern, c at level 100, k at level 200) : res_scope.
Local Open Scope res_scope.

(** ** The ring buffer *)
Module Ring.
Record RingBuffer (T : Type) := { data : list T; roffset : nat }.
Arguments data {T}.
Arguments roffset {T}.

Section Ops.
Context {T : Type}.
Definition new : RingBuffer T := {| data := []; roffset := 0 |}.
Definition is_empty (b : RingBuffer T) : bool := match data b with [] => true | _ => false end.
Definition len (b : RingBuffer T) : nat := length (data b).
(** The buffer and the abstract index of the new element. *)
Definition push (x : T) (b : RingBuffer T) : RingBuffer T * nat :=
  ({| data := data b ++ [x]; roffset := roffset b |}, (roffset b + length (data b))%nat).
(** The offset is kept. *)
Definition clear (b : RingBuffer T) : RingBuffer T := {| data := []; roffset := roffset b |}.
Definition index_range (b : RingBuffer T) : list nat := seq (roffset b) (length (data b)).
Definition first (b : RingBuffer T) : Res T :=
  match data b with [] => Panics EmptyBuffer | x :: _ => Ok x end.
Definition set_first (x : T) (b : RingBuffer T) : Res (RingBuffer T) :=
  match data b with [] => Panics EmptyBuffer | _ :: r => Ok {| data := x :: r; roffset := roffset b |} end.
Definition pop_first (b : RingBuffer T) : Res (T * RingBuffer T) :=
  match data b with
  | [] => Panics EmptyBuffer
  | x :: r => Ok (x, {| data := r; roffset := S (roffset b) |})
  end.
Definition last (b : RingBuffer T) : Res T :=
  match list.last (data b) with None => Panics EmptyBuffer | Some x => Ok x end.
Definition set_last (x : T) (b : RingBuffer T) : Res (RingBuffer T) :=
  match data b with
  | [] => Panics EmptyBuffer
  | l => Ok {| data := take (length l - 1) l ++ [x]; roffset := roffset b |}
  end.
Definition second_last (b : RingBuffer T) : Res T :=
  match data b !! (length (data b) - 2)%nat with
  | Some x => if (length (data b) <? 2)%nat then Panics BadIndex else Ok x
  | None => Panics BadIndex
  end.
Definition pop_last (b : RingBuffer T) : Res (RingBuffer T) :=
  match data b with
  | [] => Panics EmptyBuffer
  | l => Ok {| data := take (length l - 1) l; roffset := roffset b |}
  end.
(** [Index]: [checked_sub(..).unwrap()] and the bounds of the deque. *)
Definition index (i : nat) (b : RingBuffer T) : Res T :=
  if (i <? roffset b)%nat then Panics BadIndex
  else match data b !! (i - roffset b)%nat with Some x => Ok x | None => Panics BadIndex end.
Definition set_index (i : nat) (x : T) (b : RingBuffer T) : Res (RingBuffer T) :=
  if (i <? roffset b)%nat then Panics BadIndex
  else if (i - roffset b <? length (data b))%nat
  then Ok {| data := <[(i - roffset b)%nat := x]> (data b); roffset := roffset b |}
  else Panics BadIndex.
End Ops.
End Ring.
Import Ring.

(** ** Tokens *)
Definition MIN_SPACE : Z := 40.
Definition SIZE_INFINITY : Z := 65535.

Inductive Breaks := Consistent | Inconsistent.
Inductive IndentStyle := Visual | Block (offset : Z).

Record BreakToken := {
  boffset : Z;
  blank_space : Z;
  pre_break : option string;
  post_break : option string;
  if_nonempty : bool;
  never_break : bool
}.
Record BeginToken := { indent_style : IndentStyle; breaks : Breaks }.

Inductive Token :=
  | TString (s : string)
  | TBreak (b : BreakToken)
  | TBegin (b : BeginToken)
  | TEnd.

Inductive PrintFrame := Fits (b : Breaks) | Broken (indent : Z) (b : Breaks).

Record BufEntry := { token : Token; size : Z }.

Record Printer := {
  out : string;
  space : Z;
  buf : RingBuffer BufEntry;
  left_total : Z;
  right_total : Z;
  scan_stack : list nat;           (* front first *)
  print_stack : list PrintFrame;   (* top first *)
  indent : Z;
  pending_indentation : Z;
  last_printed : option Token;
  margin : Z;
  indent_config : option nat
}.

Definition new (mrg : Z) (use_tab_with_size : option nat) : Printer :=
  let m := Z.max MIN_SPACE (Z.min mrg (SIZE_INFINITY - 1)) in
  {| out := ""; space := m; buf := Ring.new; left_total := 0; right_total := 0; scan_stack := [];
     print_stack := []; indent := 0; pending_indentation := 0; last_printed := None; margin := m;
     indent_config := use_tab_with_size |}.

(** Field updates. *)
Definition set_buf (b : RingBuffer BufEntry) (p : Printer) : Printer :=
  {| out := out p; space := space p; buf := b; left_total := left_total p; right_total := right_total p;
     scan_stack := scan_stack p; print_stack := print_stack p; indent := indent p;
     pending_indentation := pending_indentation p; last_printed := last_printed p; margin := margin p;
     indent_config := indent_config p |}.
Definition set_scan (b : RingBuffer BufEntry) (l r : Z) (st : list nat) (p : Printer) : Printer :=
  {| out := out p; space := space p; buf := b; left_total := l; right_total := r;
     scan_stack := st; print_stack := print_stack p; indent := indent p;
     pending_indentation := pending_indentation p; last_printed := last_printed p; margin := margin p;
     indent_config := indent_config p |}.
Definition set_print (o : string) (sp : Z) (st : list PrintFrame) (ind pend : Z) (p : Printer) : Printer :=
  {| out := o; space := sp; buf := buf p; left_total := left_total p; right_total := right_total p;
     scan_stack := scan_stack p; print_stack := st; indent := ind;
     pending_indentation := pend; last_printed := last_printed p; margin := margin p;
     indent_config := indent_config p |}.
Definition set_last_printed (t : Token) (p : Printer) : Printer :=
  {| out := out p; space := space p; buf := buf p; left_total := left_total p; right_total := right_total p;
     scan_stack := scan_stack p; print_stack := print_stack p; indent := indent p;
     pending_indentation := pending_indentation p; last_printed := Some t; margin := margin p;
     indent_config := indent_config p |}.

(** ** Printing *)
Fixpoint repeat_char (n : nat) (c : ascii) : string :=
  match n with O => EmptyString | S n' => String c (repeat_char n' c) end.

Definition newline : ascii := "010"%char.
Definition tab : ascii := "009"%char.
Definition blank : ascii := " "%char.

Fixpoint ends_with_char (c : ascii) (s : string) : bool :=
  match s with
  | EmptyString => false
  | String x EmptyString => Ascii.eqb x c
  | String _ r => ends_with_char c r
  end.

(** What [print_indent] writes for [n] pending columns. A tab width of zero
    divides by zero in the source; the theorems about printing exclude it. *)
Definition indentation (cfg : option nat) (n : nat) : string :=
  match cfg with
  | Some tab_width => repeat_char (n / tab_width) tab +:+ repeat_char (n mod tab_width) blank
  | None => repeat_char n blank
  end.

Definition print_indent (p : Printer) : Printer :=
  set_print (out p +:+ indentation (indent_config p) (Z.to_nat (pending_indentation p)))
    (space p) (print_stack p) (indent p) 0 p.

Definition str_len (s : string) : Z := Z.of_nat (String.length s).

Definition print_string (s : string) (p : Printer) : Printer :=
  let p := print_indent p in
  set_print (out p +:+ s) (space p - str_len s) (print_stack p) (indent p) (pending_indentation p) p.

Definition get_top (p : Printer) : PrintFrame :=
  match print_stack p with f :: _ => f | [] => Broken 0 Inconsistent end.

Definition print_begin (t : BeginToken) (sz : Z) (p : Printer) : Res Printer :=
  if space p <? sz then
    let stack := Broken (indent p) (breaks t) :: print_stack p in
    match indent_style t with
    | Block off => if indent p + off <? 0 then Panics NegativeIndentation
                   else Ok (set_print (out p) (space p) stack (indent p + off) (pending_indentation p) p)
    | Visual =>
        let ind := if ends_with_char newline (out p) then pending_indentation p else margin p - space p in
        Ok (set_print (out p) (space p) stack ind (pending_indentation p) p)
    end
  else Ok (set_print (out p) (space p) (Fits (breaks t) :: print_stack p) (indent p) (pending_indentation p) p).

Definition print_end (p : Printer) : Res Printer :=
  match print_stack p with
  | [] => Panics EmptyPrintStack
  | Broken ind _ :: st => Ok (set_print (out p) (space p) st ind (pending_indentation p) p)
  | Fits _ :: st => Ok (set_print (out p) (space p) st (indent p) (pending_indentation p) p)
  end.

Definition print_break (t : BreakToken) (sz : Z) (p : Printer) : Res Printer :=
  let fits := never_break t ||
    match get_top p with
    | Fits _ => true
    | Broken _ Consistent => false
    | Broken _ Inconsistent => sz <=? space p
    end in
  if fits then
    Ok (set_print (out p) (space p - blank_space t) (print_stack p) (indent p)
          (pending_indentation p + blank_space t) p)
  else
    let p := match pre_break t with
             | Some s => let p := print_indent p in
                         set_print (out p +:+ s) (space p) (print_stack p) (indent p) (pending_indentation p) p
             | None => p
             end in
    let ind := indent p + boffset t in
    if ind <? 0 then Panics NegativeIndentation
    else
      let p := set_print (out p +:+ String newline EmptyString) (Z.max (margin p - ind) MIN_SPACE)
                 (print_stack p) (indent p) ind p in
      Ok match post_break t with Some s => print_string s p | None => p end.

Definition print_token (e : BufEntry) (p : Printer) : Res Printer :=
  match token e with
  | TString s => Ok (print_string s (set_scan (buf p) (left_total p + size e) (right_total p) (scan_stack p) p))
  | TBreak t => print_break t (size e) (set_scan (buf p) (left_total p + blank_space t) (right_total p) (scan_stack p) p)
  | TBegin t => print_begin t (size e) p
  | TEnd => print_end p
  end.

(** ** Scanning *)
(** The loop of [advance_left]: [entries] is the content of the ring. *)
Fixpoint advance_loop (entries : list BufEntry) (p : Printer) : Res Printer :=
  match entries with
  | [] => Panics EmptyBuffer
  | left_ :: rest =>
      if size left_ <? 0 then Ok p
      else
        do p <- print_token left_ (set_buf {| data := rest; roffset := S (roffset (buf p)) |} p);
        let p := set_last_printed (token left_) p in
        match rest with
        | [] => Ok p
        | _ => advance_loop rest p
        end
  end.
Definition advance_left (p : Printer) : Res Printer := advance_loop (data (buf p)) p.

(** The loop of [check_stream]. *)
Definition check_stream_step (p : Printer) : Printer + Res Printer :=
  if negb (space p <? right_total p - left_total p) then inr (Ok p)
  else
    match scan_stack p with
    | [] => inr (Panics EmptyScanStack)
    | front :: st =>
        let forced :=
          if (front =? roffset (buf p))%nat then
            do e <- first (buf p);
            do b <- set_first {| token := token e; size := SIZE_INFINITY |} (buf p);
            Ok (set_scan b (left_total p) (right_total p) st p)
          else Ok p in
        match (do p <- forced; advance_left p) with
        | Panics r => inr (Panics r)
        | Ok p => if is_empty (buf p) then inr (Ok p) else inl p
        end
    end.
(** Every round takes an entry out of the ring; [None] would be a loop that
    does not end. *)
Definition check_stream (p : Printer) : option (Res Printer) :=
  iterate check_stream_step (S (len (buf p))) p.

(** The loop of [check_stack]: [rstack] is the stack from its back. *)
Fixpoint check_stack_loop (right_total : Z) (rstack : list nat) (depth : nat) (b : RingBuffer BufEntry)
  : Res (list nat * RingBuffer BufEntry) :=
  match rstack with
  | [] => Ok ([], b)
  | i :: rest =>
      do e <- index i b;
      match token e with
      | TBegin _ =>
          match depth with
          | O => Ok (rstack, b)
          | S depth' =>
              do b <- set_index i {| token := token e; size := size e + right_total |} b;
              check_stack_loop right_total rest depth' b
          end
      | TEnd =>
          do b <- set_index i {| token := token e; size := 1 |} b;
          check_stack_loop right_total rest (S depth) b
      | _ =>
          do b <- set_index i {| token := token e; size := size e + right_total |} b;
          match depth with
          | O => Ok (rest, b)
          | _ => check_stack_loop right_total rest depth b
          end
      end
  end.
Definition check_stack (depth : nat) (p : Printer) : Res Printer :=
  do (rstack, b) <- check_stack_loop (right_total p) (rev (scan_stack p)) depth (buf p);
  Ok (set_scan b (left_total p) (right_total p) (rev rstack) p).

Definition scan_eof (p : Printer) : Res Printer :=
  match scan_stack p with
  | [] => Ok p
  | _ => do p <- check_stack 0 p; advance_left p
  end.

(** Push an entry that waits for its size. *)
Definition push_pending (e : BufEntry) (p : Printer) : Printer :=
  let '(b, right_) := push e (buf p) in
  set_scan b (left_total p) (right_total p) (scan_stack p ++ [right_]) p.

(** The start of a stream: nothing is buffered. *)
Definition restart (p : Printer) : Printer := set_scan (clear (buf p)) 1 1 (scan_stack p) p.

Definition scan_begin (t : BeginToken) (p : Printer) : Res Printer :=
  let p := match scan_stack p with [] => restart p | _ => p end in
  Ok (push_pending {| token := TBegin t; size := - right_total p |} p).

Definition pop_back (l : list nat) : list nat := take (length l - 1) l.

Definition scan_end (p : Printer) : Res Printer :=
  match scan_stack p with
  | [] => print_end p
  | _ =>
      let push_end p := push_pending {| token := TEnd; size := -1 |} p in
      if is_empty (buf p) then Ok (push_end p)
      else
        do e <- last (buf p);
        match token e with
        | TBreak t =>
            do begin_break <-
              (if (2 <=? len (buf p))%nat then
                 do e2 <- second_last (buf p);
                 Ok match token e2 with TBegin _ => true | _ => false end
               else Ok false);
            if begin_break : bool then
              do b <- pop_last (buf p);
              do b <- pop_last b;
              Ok (set_scan b (left_total p) (right_total p - blank_space t) (pop_back (pop_back (scan_stack p))) p)
            else if if_nonempty t then
              do b <- pop_last (buf p);
              Ok (push_end (set_scan b (left_total p) (right_total p - blank_space t) (pop_back (scan_stack p)) p))
            else Ok (push_end p)
        | _ => Ok (push_end p)
        end
  end.

Definition scan_break (t : BreakToken) (p : Printer) : Res Printer :=
  do p <- match scan_stack p with [] => Ok (restart p) | _ => check_stack 0 p end;
  let p := push_pending {| token := TBreak t; size := - right_total p |} p in
  Ok (set_scan (buf p) (left_total p) (right_total p + blank_space t) (scan_stack p) p).

(** [None] would be a [check_stream] loop that does not end. *)
Definition scan_string (s : string) (p : Printer) : option (Res Printer) :=
  match scan_stack p with
  | [] => Some (Ok (print_string s p))
  | _ =>
      let '(b, _) := push {| token := TString s; size := str_len s |} (buf p) in
      check_stream (set_scan b (left_total p) (right_total p + str_len s) (scan_stack p) p)
  end.

(** ** Convenience calls *)
Definition default_break : BreakToken :=
  {| boffset := 0; blank_space := 0; pre_break := None; post_break := None; if_nonempty := false; never_break := false |}.
Definition break_tok (n off : Z) : BreakToken :=
  {| boffset := off; blank_space := n; pre_break := None; post_break := None; if_nonempty := false; never_break := false |}.

Definition rbox (ind : Z) (b : Breaks) : Printer -> Res Printer :=
  scan_begin {| indent_style := Block ind; breaks := b |}.
Definition ibox (ind : Z) : Printer -> Res Printer := rbox ind Inconsistent.
Definition cbox (ind : Z) : Printer -> Res Printer := rbox ind Consistent.
Definition visual_align : Printer -> Res Printer := scan_begin {| indent_style := Visual; breaks := Consistent |}.
Definition break_offset (n off : Z) : Printer -> Res Printer := scan_break (break_tok n off).
Definition end_ : Printer -> Res Printer := scan_end.
Definition eof (p : Printer) : Res string := do p <- scan_eof p; Ok (out p).
Definition word (w : string) : Printer -> option (Res Printer) := scan_string w.
Definition spaces (n : Z) : Printer -> Res Printer := break_offset n 0.
Definition zerobreak : Printer -> Res Printer := spaces 0.
Definition space_ : Printer -> Res Printer := spaces 1.
Definition hardbreak : Printer -> Res Printer := spaces SIZE_INFINITY.
Definition hardbreak_tok_offset (off : Z) : Token := TBreak (break_tok SIZE_INFINITY off).
Definition hardbreak_if_nonempty : Printer -> Res Printer :=
  scan_break {| boffset := 0; blank_space := SIZE_INFINITY; pre_break := None; post_break := None;
                if_nonempty := true; never_break := false |}.
Definition neverbreak : Printer -> Res Printer :=
  scan_break {| boffset := 0; blank_space := 0; pre_break := None; post_break := None;
                if_nonempty := false; never_break := true |}.
Definition nbsp : Printer -> option (Res Printer) := word " ".

(** *** Looking back *)
Definition is_neverbreak (t : Token) : bool := match t with TBreak b => never_break b | _ => false end.
Definition is_hardbreak (t : Token) : bool :=
  match t with TBreak b => (blank_space b =? SIZE_INFINITY) && negb (never_break b) | _ => false end.
Definition is_space (t : Token) : bool :=
  match t with
  | TBreak b => (boffset b =? 0) && (blank_space b =? 1)
  | TString s => ends_with_char blank s
  | _ => false
  end.

Definition last_token_still_buffered (p : Printer) : option Token :=
  token <$> list.last (data (buf p)).
Definition last_token (p : Printer) : option Token :=
  match last_token_still_buffered p with Some t => Some t | None => last_printed p end.
Definition last_token_is_neverbreak (p : Printer) : bool :=
  match last_token p with Some t => is_neverbreak t | None => false end.
Definition last_token_is_break (p : Printer) : bool :=
  match last_token p with Some (TBreak _) => true | _ => false end.
Definition last_token_is_space (p : Printer) : bool :=
  match last_token p with
  | Some t => is_space t || ends_with_char blank (out p)
  | None => ends_with_char blank (out p)
  end.
Definition is_beginning_of_line (p : Printer) : bool :=
  match last_token p with
  | Some (TString s) => ends_with_char newline s
  | Some t => is_hardbreak t
  | None => bool_decide (out p = EmptyString) || ends_with_char newline (out p)
  end.

(** [trim().is_empty()]: only Unicode white space, in UTF-8. *)
Fixpoint is_blank_str (s : string) : bool :=
  match s with
  | EmptyString => true
  | String c s1 =>
      let n := nat_of_ascii c in
      if ((n =? 32) || ((9 <=? n) && (n <=? 13)))%nat then is_blank_str s1
      else match s1 with
           | EmptyString => false
           | String c2 s2 =>
               let m := nat_of_ascii c2 in
               if ((n =? 194) && ((m =? 133) || (m =? 160)))%nat then is_blank_str s2
               else match s2 with
                    | EmptyString => false
                    | String c3 s3 =>
                        let k := nat_of_ascii c3 in
                        if (((n =? 225) && (m =? 154) && (k =? 128))
                            || ((n =? 226) && (m =? 128) && (((128 <=? k) && (k <=? 138)) || (k =? 168) || (k =? 169) || (k =? 175)))
                            || ((n =? 226) && (m =? 129) && (k =? 159))
                            || ((n =? 227) && (m =? 128) && (k =? 128)))%nat
                        then is_blank_str s3 else false
                    end
           end
  end.

(** What follows the last newline, when there is one. *)
Fixpoint after_last_newline (s : string) : option string :=
  match s with
  | EmptyString => None
  | String c r => match after_last_newline r with
                  | Some t => Some t
                  | None => if Ascii.eqb c newline then Some r else None
                  end
  end.

Definition token_has_non_whitespace_content (t : Token) : bool :=
  match t with
  | TString s => negb (is_blank_str s)
  | TBreak b => match pre_break b with Some s => negb (is_blank_str s) | None => false end
  | _ => false
  end.

(** The loop over the buffered tokens, newest first. *)
Fixpoint bol_loop (tokens : list Token) (o : string) : bool :=
  match tokens with
  | [] => is_blank_str (default o (after_last_newline o))
  | t :: rest =>
      if is_hardbreak t then true
      else match t with
           | TString s =>
               match after_last_newline s with
               | Some line => is_blank_str line
               | None => if token_has_non_whitespace_content t then false else bol_loop rest o
               end
           | _ => if token_has_non_whitespace_content t then false else bol_loop rest o
           end
  end.
Definition is_bol_or_only_ind (p : Printer) : bool := bol_loop (rev (map token (data (buf p)))) (out p).

Fixpoint ends_with_loop (c : ascii) (tokens : list Token) (o : string) : bool :=
  match tokens with
  | [] => ends_with_char c o
  | TString s :: _ => ends_with_char c s
  | _ :: rest => ends_with_loop c rest o
  end.
Definition ends_with (c : ascii) (p : Printer) : bool :=
  ends_with_loop c (rev (map token (data (buf p)))) (out p).

(** The room on the current or the next line. *)
Fixpoint space_left_loop (tokens : list Token) (p : Printer) : Z :=
  let fallback := if space p <? 0 then margin p else space p in
  match tokens with
  | [] => fallback
  | t :: rest =>
      match t with
      | TBreak b => if (SIZE_INFINITY <=? blank_space b) && negb (never_break b) then margin p else fallback
      | TEnd => space_left_loop rest p
      | _ => fallback
      end
  end.
Definition space_left (p : Printer) : Z := space_left_loop (rev (map token (data (buf p)))) p.

(** *** Changing what is buffered *)
Definition replace_last_token_still_buffered (t : Token) (p : Printer) : Res Printer :=
  do e <- last (buf p);
  do b <- set_last {| token := t; size := size e |} (buf p);
  Ok (set_buf b p).

Definition offset_ (off : Z) (p : Printer) : Res Printer :=
  if is_empty (buf p) then Ok p
  else
    do e <- last (buf p);
    match token e with
    | TBreak t =>
        replace_last_token_still_buffered
          (TBreak {| boffset := boffset t + off; blank_space := blank_space t; pre_break := pre_break t;
                     post_break := post_break t; if_nonempty := if_nonempty t; never_break := never_break t |}) p
    | TBegin _ | TString _ => Ok p
    | TEnd => Panics Unreachable
    end.

Definition hardbreak_if_not_bol (p : Printer) : Res Printer :=
  if is_bol_or_only_ind p then Ok p
  else match last_token_still_buffered p with
       | Some (TBreak last_) =>
           if negb (boffset last_ =? 0)
           then replace_last_token_still_buffered (hardbreak_tok_offset (boffset last_)) p
           else hardbreak p
       | _ => hardbreak p
       end.
Definition space_if_not_bol (p : Printer) : Res Printer := if is_bol_or_only_ind p then Ok p else space_ p.
Definition space_or_nbsp (brk : bool) (p : Printer) : option (Res Printer) :=
  if brk then Some (space_ p) else nbsp p.

(** ** Documents *)
Inductive Command :=
  | Word (s : string)
  | Break (t : BreakToken)
  | Begin (t : BeginToken)
  | End.

Definition command (c : Command) (p : Printer) : option (Res Printer) :=
  match c with
  | Word s => word s p
  | Break t => Some (scan_break t p)
  | Begin t => Some (scan_begin t p)
  | End => Some (end_ p)
  end.

Fixpoint commands (cs : list Command) (p : Printer) : option (Res Printer) :=
  match cs with
  | [] => Some (Ok p)
  | c :: cs => match command c p with
               | Some (Ok p) => commands cs p
               | r => r
               end
  end.

(** The text of a document. *)
Definition render (mrg : Z) (tabs : option nat) (cs : list Command) : option (Res string) :=
  match commands cs (new mrg tabs) with
  | Some (Ok p) => Some (eof p)
  | Some (Panics r) => Some (Panics r)
  | None => None
  end.

Example render_fits :
  render 80 None [Begin {| indent_style := Block 4; breaks := Consistent |}; Word "f("; Break (break_tok 0 0);
    Word "a,"; Break (break_tok 1 0); Word "b"; Break (break_tok 0 (-4)); Word ")"; End]
  = Some (Ok "f(a, b)"%string).
Proof. vm_compute. reflexivity. Qed.

(** The search for the last token that is not the end of a box. *)
Fixpoint replace_loop (t : Token) (predicate : Token -> bool) (rentries : list BufEntry) : list BufEntry :=
  match rentries with
  | [] => []
  | e :: rest =>
      match token e with
      | TEnd => e :: replace_loop t predicate rest
      | tok => if predicate tok then {| token := t; size := size e |} :: rest else rentries
      end
  end.
Definition find_and_replace_last_token_still_buffered (t : Token) (predicate : Token -> bool) (p : Printer) : Printer :=
  set_buf {| data := rev (replace_loop t predicate (rev (data (buf p)))); roffset := roffset (buf p) |} p.
