(* ===== verification/PrinterProofs.v ===== *)
(** * PrinterProofs: the pretty printer keeps every character

    The invariant of the scanner: the scan stack lists exactly the entries of
    the ring whose size is not known yet ([pending]), their sizes can be
    completed to non-negative ones ([chain]), boxes nest ([nest]) and at the end
    of the document nothing is left behind ([shape]).  From it: no call panics,
    except for a negative indentation that the caller asked for, every loop
    ends, and the output has the characters of the words, in order, with only
    white space between them. *)

From Stdlib Require Import ZArith Lia Ascii String.
From stdpp Require Import base list option strings sets.
From S2P Require Import Prelude Printer.
Local Open Scope Z_scope.
Import Ring.

(** ** Entries whose size is not known *)
Fixpoint pending (o : nat) (D : list BufEntry) : list nat :=
  match D with
  | [] => []
  | e :: D' => if size e <? 0 then o :: pending (S o) D' else pending (S o) D'
  end.

Lemma pending_app o D E : pending o (D ++ E) = pending o D ++ pending (o + length D) E.
Proof.
  revert o. induction D as [|e D IH]; intros o; simpl; [by rewrite Nat.add_0_r|].
  rewrite (IH (S o)). replace (S o + length D)%nat with (o + S (length D))%nat by lia. by destruct (size e <? 0).
Qed.

Lemma pending_snoc o D e :
  pending o (D ++ [e]) = pending o D ++ if size e <? 0 then [(o + length D)%nat] else [].
Proof. rewrite pending_app. simpl. by destruct (size e <? 0). Qed.

(** What [check_stack] does to the ring, newest entry first. *)
Definition complete (rt : Z) (e : BufEntry) : BufEntry := {| token := token e; size := size e + rt |}.
Definition close (e : BufEntry) : BufEntry := {| token := token e; size := 1 |}.

Fixpoint resolve (rt : Z) (depth : nat) (rD : list BufEntry) : list BufEntry :=
  match rD with
  | [] => []
  | e :: rest =>
      if size e <? 0 then
        match token e with
        | TBegin _ => match depth with O => rD | S d => complete rt e :: resolve rt d rest end
        | TEnd => close e :: resolve rt (S depth) rest
        | _ => complete rt e :: match depth with O => rest | _ => resolve rt depth rest end
        end
      else e :: resolve rt depth rest
  end.

(** The constraints on the pending entries: a break or a box that waits for its
    size can be completed. *)
Definition width (t : Token) : Z := match t with TBreak b => blank_space b | _ => 0 end.
Definition is_end (t : Token) : bool := match t with TEnd => true | _ => false end.
Definition waits (e : BufEntry) : bool := (size e <? 0) && negb (is_end (token e)).
Definition entry_ok (e : BufEntry) : Prop :=
  match token e with TString _ => 0 <= size e | TBreak b => 0 <= blank_space b | _ => True end.

(** [rt] is the size of the stream up to the newest entry. *)
Fixpoint chain (rt : Z) (rD : list BufEntry) : Prop :=
  match rD with
  | [] => True
  | e :: rest =>
      entry_ok e /\
      (waits e = true -> 1 <= - size e /\ - size e + width (token e) <= rt) /\
      chain (if waits e then - size e else rt) rest
  end.

Lemma width_nonneg e : entry_ok e -> 0 <= width (token e).
Proof. unfold entry_ok, width. destruct (token e); lia. Qed.

Lemma chain_mono rt rt' rD : rt <= rt' -> chain rt rD -> chain rt' rD.
Proof.
  revert rt rt'. induction rD as [|e rD IH]; intros rt rt' Hle; simpl; [done|]. intros (H1 & H2 & H3). split_and!; [done| |].
  - intros Hw. destruct (H2 Hw). lia.
  - destruct (waits e); [done|]. by eapply IH.
Qed.

Lemma chain_older rt rD e : chain rt (rD ++ [e]) -> chain rt rD.
Proof.
  revert rt. induction rD as [|e' rD IH]; intros rt; simpl; [done|]. intros (H1 & H2 & H3). split_and!; [done|done|]. by apply IH.
Qed.

Lemma chain_tail rt e rD : chain rt (e :: rD) -> chain rt rD.
Proof.
  simpl. intros (H1 & H2 & H3). destruct (waits e); [|done]. destruct (H2 eq_refl) as [_ Hle].
  pose proof (width_nonneg e H1). eapply chain_mono; [|exact H3]. lia.
Qed.

(** A pending entry that is not the end of a box completes to its width. *)
Lemma complete_nonneg rt e rD :
  chain rt (e :: rD) -> size e < 0 -> token e <> TEnd -> (size (complete rt e) <? 0) = false.
Proof.
  simpl. intros (H1 & H2 & _) Hs Ht. pose proof (width_nonneg e H1).
  assert (Hw : waits e = true).
  { unfold waits. apply Z.ltb_lt in Hs. rewrite Hs. by destruct (token e). }
  destruct (H2 Hw). apply Z.ltb_ge. lia.
Qed.

Lemma rev_pending o e rD :
  rev (pending o (rev (e :: rD))) = (if size e <? 0 then [(o + length rD)%nat] else []) ++ rev (pending o (rev rD)).
Proof. simpl. rewrite pending_snoc, rev_app_distr, length_rev. by destruct (size e <? 0). Qed.

Lemma index_snoc o rD (e : BufEntry) E :
  index (o + length rD) {| data := rev (e :: rD) ++ E; roffset := o |} = Ok e.
Proof.
  unfold index. simpl. destruct (Nat.ltb_spec (o + length rD) o); [lia|].
  replace (o + length rD - o)%nat with (length (rev rD)) by (rewrite length_rev; lia).
  rewrite <- app_assoc. simpl. by rewrite list_lookup_middle.
Qed.

Lemma set_index_snoc o rD (e e' : BufEntry) E :
  set_index (o + length rD) e' {| data := rev (e :: rD) ++ E; roffset := o |} =
  Ok {| data := rev rD ++ e' :: E; roffset := o |}.
Proof.
  unfold set_index. simpl. destruct (Nat.ltb_spec (o + length rD) o); [lia|].
  rewrite !length_app, length_rev. simpl.
  destruct (Nat.ltb_spec (o + length rD - o) (length rD + 1 + length E)); [|lia]. f_equal. f_equal.
  replace (o + length rD - o)%nat with (length (rev rD) + 0)%nat by (rewrite length_rev; lia).
  rewrite <- app_assoc. by rewrite insert_app_r.
Qed.

Lemma check_stack_loop_resolve rt o rD depth E :
  chain rt rD ->
  check_stack_loop rt (rev (pending o (rev rD))) depth {| data := rev rD ++ E; roffset := o |} =
  Ok (rev (pending o (rev (resolve rt depth rD))), {| data := rev (resolve rt depth rD) ++ E; roffset := o |}).
Proof.
  revert depth E. induction rD as [|e rD IH]; intros depth E Hc; [done|].
  pose proof (chain_tail _ _ _ Hc) as Hc'. rewrite rev_pending. cbn [resolve].
  destruct (Z.ltb_spec (size e) 0) as [Hs|Hs].
  - cbn [app check_stack_loop]. rewrite index_snoc. cbn [rbind].
    assert (Hgo : forall e' d, (size e' <? 0) = false ->
      check_stack_loop rt (rev (pending o (rev rD))) d {| data := rev rD ++ e' :: E; roffset := o |} =
      Ok (rev (pending o (rev (e' :: resolve rt d rD))), {| data := rev (e' :: resolve rt d rD) ++ E; roffset := o |})).
    { intros e' d He'. rewrite (IH d (e' :: E) Hc'), rev_pending, He'. simpl. by rewrite <- app_assoc. }
    destruct (token e) as [s|b|b|] eqn:Et; rewrite ?set_index_snoc; cbn [rbind].
    + exfalso. simpl in Hc. destruct Hc as [Hok _]. unfold entry_ok in Hok. rewrite Et in Hok. lia.
    + assert (Hne : token e <> TEnd) by congruence. pose proof (complete_nonneg _ _ _ Hc Hs Hne) as Hn. unfold complete in *.
      rewrite Et in *. destruct depth as [|d]; [|by apply Hgo]. rewrite rev_pending, Hn. simpl. by rewrite <- app_assoc.
    + assert (Hne : token e <> TEnd) by congruence. pose proof (complete_nonneg _ _ _ Hc Hs Hne) as Hn. unfold complete in *.
      rewrite Et in *. destruct depth as [|d]; [|cbn [rbind]; by apply Hgo].
      rewrite rev_pending. apply Z.ltb_lt in Hs. by rewrite Hs.
    + unfold close. rewrite Et. by apply Hgo.
  - cbn [app]. replace (rev (e :: rD) ++ E) with (rev rD ++ e :: E) by (simpl; by rewrite <- app_assoc).
    rewrite (IH depth (e :: E) Hc'), rev_pending. apply Z.ltb_ge in Hs. rewrite Hs. simpl. by rewrite <- app_assoc.
Qed.

(** ** The shape of what is pending, newest first *)
Definition is_begin (t : Token) : bool := match t with TBegin _ => true | _ => false end.

(** The newest pending entry opens a box, or nothing is pending. *)
Fixpoint settled (rD : list BufEntry) : Prop :=
  match rD with
  | [] => True
  | e :: rest => if size e <? 0 then is_begin (token e) = true else settled rest
  end.

(** Outside of closed boxes, a pending break is the oldest pending entry of its
    box: [d] counts the box ends on the way. *)
Fixpoint shape (d : nat) (rD : list BufEntry) : Prop :=
  match rD with
  | [] => True
  | e :: rest =>
      if size e <? 0 then
        match token e with
        | TBegin _ => shape (pred d) rest
        | TEnd => shape (S d) rest
        | _ => (d = O -> settled rest) /\ shape d rest
        end
      else shape d rest
  end.

(** The boxes that are open and pending. *)
Fixpoint opens (d : nat) (rD : list BufEntry) : nat :=
  match rD with
  | [] => O
  | e :: rest =>
      if size e <? 0 then
        match token e with
        | TBegin _ => match d with O => S (opens 0 rest) | S d' => opens d' rest end
        | TEnd => opens (S d) rest
        | _ => opens d rest
        end
      else opens d rest
  end.

(** Boxes and breaks that directly follow each other are pending together. *)
Definition glue (older newer : Token) : bool :=
  match older, newer with
  | TBegin _, TBegin _ | TBreak _, TBegin _ | TBegin _, TBreak _ => true
  | _, _ => false
  end.
Definition layout (t : Token) : bool := match t with TBegin _ | TBreak _ => true | _ => false end.
Definition top_pending (rD : list BufEntry) : Prop :=
  match rD with e :: _ => layout (token e) = true -> size e < 0 | [] => True end.
Fixpoint adj (rD : list BufEntry) : Prop :=
  match rD with
  | e2 :: ((e1 :: _) as rest) => (glue (token e1) (token e2) = true -> size e2 < 0 -> size e1 < 0) /\ adj rest
  | _ => True
  end.

(** A pending box is not preceded by known entries only. *)
Fixpoint has_pending (rD : list BufEntry) : bool :=
  match rD with [] => false | e :: rest => (size e <? 0) || has_pending rest end.
Fixpoint rooted (rD : list BufEntry) : Prop :=
  match rD with
  | [] => True
  | e :: rest => (is_begin (token e) = true -> size e < 0 -> rest = [] \/ has_pending rest = true) /\ rooted rest
  end.

Lemma has_pending_false o rD : pending o (rev rD) = [] <-> has_pending rD = false.
Proof.
  enough (Hr : rev (pending o (rev rD)) = [] <-> has_pending rD = false).
  { rewrite <- Hr. split; [by intros ->|]. intros H. apply (f_equal (@rev nat)) in H. by rewrite rev_involutive in H. }
  induction rD as [|e rD IH]; [done|]. rewrite rev_pending. simpl. by destruct (size e <? 0).
Qed.

Lemma stuck_rooted rD e : size e < 0 -> rooted (rD ++ [e]).
Proof.
  intros Hs. induction rD as [|e' rD IH]; simpl; [split; [by left|done]|]. split; [|done]. intros _ _. right.
  clear IH. induction rD as [|e2 rD IH]; simpl; [apply Z.ltb_lt in Hs; by rewrite Hs|]. rewrite IH. by destruct (size e2 <? 0).
Qed.

Ltac entry_cases e := destruct (size e <? 0); [destruct (token e)|].

Lemma shape_S d rD : shape d rD -> shape (S d) rD.
Proof.
  revert d. induction rD as [|e rD IH]; intros d; simpl; [done|].
  entry_cases e; try naive_solver. destruct d; simpl; [done|apply IH].
Qed.

Lemma opens_S d rD : opens (S d) rD = (opens d rD - 1)%nat.
Proof. revert d. induction rD as [|e rD IH]; intros d; simpl; [done|]. entry_cases e; auto. destruct d; simpl; [lia|auto]. Qed.

Lemma settled_older rD e : settled (rD ++ [e]) -> settled rD.
Proof. induction rD as [|e' rD IH]; simpl; [done|]. by destruct (size e' <? 0). Qed.

Lemma shape_older d rD e : shape d (rD ++ [e]) -> shape d rD.
Proof.
  revert d. induction rD as [|e' rD IH]; intros d; simpl; [done|].
  entry_cases e'; try apply IH; intros [H1 H2]; (split; [intros; by eapply settled_older, H1|by apply IH]).
Qed.

Lemma opens_older d rD e : (opens d rD <= opens d (rD ++ [e]))%nat.
Proof.
  revert d. induction rD as [|e' rD IH]; intros d; [simpl; lia|]. simpl. entry_cases e'; auto.
  destruct d; [specialize (IH 0%nat); lia|auto].
Qed.

Lemma adj_older rD e : adj (rD ++ [e]) -> adj rD.
Proof. induction rD as [|e2 [|e1 rD] IH]; simpl; [done|done|]. intros [H1 H2]. split; [done|]. by apply IH. Qed.

Lemma top_pending_older rD e : top_pending (rD ++ [e]) -> rD <> [] -> top_pending rD.
Proof. by destruct rD. Qed.

(** ** What [resolve] keeps *)
Section Resolve.
Variable rt : Z.

Lemma resolve_tokens d rD : map token (resolve rt d rD) = map token rD.
Proof.
  revert d. induction rD as [|e rD IH]; intros d; [done|]. cbn [resolve]. destruct (size e <? 0); [|simpl; by rewrite IH].
  destruct (token e) eqn:Et; simpl; rewrite ?Et; [| | |by rewrite IH].
  - destruct d; simpl; rewrite ?Et, ?IH; done.
  - destruct d; simpl; rewrite ?Et, ?IH; done.
  - destruct d; simpl; rewrite ?Et, ?IH; done.
Qed.

Lemma waits_nonneg e : (size e <? 0) = false -> waits e = false.
Proof. unfold waits. by intros ->. Qed.

Lemma chain_settled_entry e rest :
  entry_ok e -> (size e <? 0) = false -> chain rt rest -> chain rt (e :: rest).
Proof. intros H1 H2 H3. simpl. rewrite (waits_nonneg e H2). done. Qed.

(** An entry that gets its size. *)
Lemma resolved_entry e rest :
  chain rt (e :: rest) -> size e < 0 ->
  (token e <> TEnd -> (size (complete rt e) <? 0) = false /\ entry_ok (complete rt e)) /\
  (token e = TEnd -> (size (close e) <? 0) = false /\ entry_ok (close e)).
Proof.
  intros Hc Hs. split.
  - intros Hne. split; [by eapply complete_nonneg|]. pose proof (complete_nonneg _ _ _ Hc Hs Hne) as Hn. simpl in Hc.
    destruct Hc as [Hok _]. unfold entry_ok, complete in *. simpl in *. apply Z.ltb_ge in Hn. by destruct (token e).
  - intros Ht. split; [done|]. unfold entry_ok, close. simpl. by rewrite Ht.
Qed.

(** The invariants hold after [resolve]; nothing but open boxes is on top. *)
Record resolved_ok (d : nat) (rD rD' : list BufEntry) : Prop := {
  rs_chain : chain rt rD';
  rs_shape : shape 0 rD';
  rs_opens : opens 0 rD' = opens d rD;
  rs_settled : settled rD';
  rs_adj : adj rD'
}.

Lemma resolve_rooted d rD : chain rt rD -> rooted rD -> rooted (resolve rt d rD).
Proof.
  revert d. induction rD as [|e rD IH]; intros d Hc Hr; [done|]. pose proof (chain_tail _ _ _ Hc) as Hc'.
  pose proof Hr as [H1 H2]. cbn [resolve]. destruct (Z.ltb_spec (size e) 0) as [Hs|Hs].
  - destruct (resolved_entry e rD Hc Hs) as [Hne Hend].
    assert (Hgo : forall e' l, (size e' <? 0) = false -> rooted l -> rooted (e' :: l)).
    { intros e' l Hn%Z.ltb_ge Hl. split; [intros; lia|done]. }
    destruct (token e) as [s|b|b|] eqn:Et; [| |destruct d; [done|]|].
    + apply Hgo; [by apply Hne|]. destruct d; auto.
    + apply Hgo; [by apply Hne|]. destruct d; auto.
    + apply Hgo; [by apply Hne|]. auto.
    + apply Hgo; [by apply Hend|]. auto.
  - split; [intros; lia|]. auto.
Qed.

Lemma resolved_cons d e e' rest rest' :
  entry_ok e' -> (size e' <? 0) = false -> resolved_ok d rest rest' -> opens d rest = opens d (e :: rest) ->
  resolved_ok d (e :: rest) (e' :: rest').
Proof.
  intros Hok Hs [H1 H2 H3 H4 H5] Ho. split.
  - by apply chain_settled_entry.
  - simpl. by rewrite Hs.
  - simpl opens at 1. rewrite Hs. congruence.
  - simpl. by rewrite Hs.
  - destruct rest' as [|e1 r]; [done|]. split; [|done]. intros _ Hlt. apply Z.ltb_ge in Hs. lia.
Qed.

Lemma resolve_ok d rD : chain rt rD -> shape d rD -> adj rD -> resolved_ok d rD (resolve rt d rD).
Proof.
  revert d. induction rD as [|e rD IH]; intros d Hc Hsh Hadj; [by split|].
  pose proof (chain_tail _ _ _ Hc) as Hc'.
  assert (Hadj' : adj rD) by (destruct rD; [done|apply Hadj]).
  cbn [resolve]. cbn [shape] in Hsh. destruct (Z.ltb_spec (size e) 0) as [Hs|Hs].
  - destruct (resolved_entry e rD Hc Hs) as [Hne Hend].
    assert (Hb : forall d', d' = d -> token e <> TEnd -> (forall b, token e <> TBegin b) ->
      opens d rD = opens d (e :: rD)).
    { intros ? _ H1 H2. simpl. destruct (size e <? 0); [|done]. destruct (token e); try done. by edestruct H2. }
    destruct (token e) as [s|b|b|] eqn:Et.
    + exfalso. simpl in Hc. destruct Hc as [Hok _]. unfold entry_ok in Hok. rewrite Et in Hok. lia.
    + destruct Hne as [Hn Hok]; [done|]. destruct Hsh as [Hset Hsh]. destruct d as [|d].
      * apply resolved_cons; [done|done|by split; auto|by apply (Hb 0%nat)].
      * apply resolved_cons; [done|done|by apply IH|by apply (Hb (S d))].
    + destruct d as [|d].
      * split; try done; simpl; apply Z.ltb_lt in Hs; rewrite Hs, Et; done.
      * destruct Hne as [Hn Hok]; [done|]. destruct (IH d Hc' Hsh Hadj') as [H1 H2 H3 H4 H5].
        apply Z.ltb_lt in Hs. split.
        -- by apply chain_settled_entry.
        -- cbn [shape]. by rewrite Hn.
        -- cbn [opens]. rewrite Hn, Hs, Et. done.
        -- cbn [settled]. by rewrite Hn.
        -- destruct (resolve rt d rD) as [|e1 r]; [done|]. split; [|done]. intros _ Hlt. apply Z.ltb_ge in Hn. lia.
    + destruct Hend as [Hn Hok]; [done|]. destruct (IH (S d) Hc' Hsh Hadj') as [H1 H2 H3 H4 H5].
      apply Z.ltb_lt in Hs. split.
      * by apply chain_settled_entry.
      * done.
      * cbn [opens]. rewrite ?Hn,  Hs, Et. done.
      * done.
      * destruct (resolve rt (S d) rD) as [|e1 r]; [done|]. split; [|done]. intros _ Hlt. apply Z.ltb_ge in Hn. lia.
  - apply Z.ltb_ge in Hs. apply resolved_cons; [apply Hc|done|by apply IH|simpl; by rewrite Hs].
Qed.
End Resolve.

Lemma nothing_pending o rD : settled rD -> opens 0 rD = O -> pending o (rev rD) = [].
Proof.
  intros Hs Ho. enough (Hr : rev (pending o (rev rD)) = []) by (apply (f_equal (@rev nat)) in Hr; by rewrite rev_involutive in Hr).
  induction rD as [|e rD IH]; [done|]. rewrite rev_pending. simpl in Hs, Ho. destruct (size e <? 0).
  - destruct (token e); done.
  - by apply IH.
Qed.

(** ** Content *)
Definition white (c : ascii) : bool := Ascii.eqb c blank || Ascii.eqb c tab || Ascii.eqb c newline.

(** The characters of a text that are not white space. *)
Fixpoint ink (s : string) : list ascii :=
  match s with EmptyString => [] | String c r => if white c then ink r else c :: ink r end.

Lemma ink_app a b : ink (a +:+ b) = ink a ++ ink b.
Proof. induction a as [|c a IH]; simpl; [done|]. rewrite IH. by destruct (white c). Qed.

Lemma ink_repeat n c : white c = true -> ink (repeat_char n c) = [].
Proof. intros Hc. induction n as [|n IH]; simpl; [done|]. by rewrite Hc. Qed.

Lemma ink_indentation cfg n : ink (indentation cfg n) = [].
Proof. unfold indentation. destruct cfg; rewrite ?ink_app, !ink_repeat; done. Qed.

Definition token_ink (t : Token) : list ascii := match t with TString s => ink s | _ => [] end.
Definition entries_ink (D : list BufEntry) : list ascii := concat (map (fun e => token_ink (token e)) D).

(** Breaks without text of their own. *)
Definition plain (t : Token) : Prop :=
  match t with TBreak b => pre_break b = None /\ post_break b = None | _ => True end.

(** Offsets that can not make an indentation negative. *)
Definition nonneg (t : Token) : Prop :=
  match t with
  | TBegin b => match indent_style b with Block off => 0 <= off | Visual => True end
  | TBreak b => 0 <= boffset b
  | _ => True
  end.

(** ** Printing *)
Definition frame_ok (f : PrintFrame) : Prop := match f with Fits _ => True | Broken i _ => 0 <= i end.
Record print_ok (p : Printer) : Prop := {
  po_indent : 0 <= indent p;
  po_pending : 0 <= pending_indentation p;
  po_space : space p <= margin p;
  po_margin : MIN_SPACE <= margin p;
  po_frames : Forall frame_ok (print_stack p)
}.

(** The depth of boxes after a run of entries. *)
Fixpoint nest (k : nat) (D : list BufEntry) : option nat :=
  match D with
  | [] => Some k
  | e :: D' =>
      match token e with
      | TBegin _ => nest (S k) D'
      | TEnd => match k with O => None | S k' => nest k' D' end
      | _ => nest k D'
      end
  end.

Lemma nest_app k D E : nest k (D ++ E) = nest k D ≫= (fun k' => nest k' E).
Proof. revert k. induction D as [|e D IH]; intros k; simpl; [done|]. destruct (token e); auto. by destruct k. Qed.

(** The scanner's part of the state. *)
Record same_scan (p p' : Printer) : Prop := {
  ss_buf : buf p' = buf p;
  ss_stack : scan_stack p' = scan_stack p;
  ss_right : right_total p' = right_total p;
  ss_config : indent_config p' = indent_config p
}.

(** A step that prints [t]: from depth [k] to [k']. *)
Definition printed (t : Token) (k' : nat) (p : Printer) (r : Res Printer) : Prop :=
  match r with
  | Ok p' => print_ok p' /\ same_scan p p' /\ length (print_stack p') = k' /\ ink (out p') = ink (out p) ++ token_ink t
  | Panics r => r = NegativeIndentation /\ ~ nonneg t
  end.

Lemma str_len_nonneg s : 0 <= str_len s.
Proof. unfold str_len. lia. Qed.

Lemma print_string_ok s p : print_ok p -> printed (TString s) (length (print_stack p)) p (Ok (print_string s p)).
Proof.
  intros [H1 H2 H3 H4 H5]. pose proof (str_len_nonneg s). split_and!.
  - split; simpl; try done; lia.
  - by split.
  - done.
  - simpl. by rewrite !ink_app, ink_indentation, app_nil_r.
Qed.

Lemma print_begin_ok t sz p : print_ok p -> printed (TBegin t) (S (length (print_stack p))) p (print_begin t sz p).
Proof.
  intros [H1 H2 H3 H4 H5]. unfold print_begin. destruct (Z.ltb_spec (space p) sz).
  - destruct (indent_style t) as [|off] eqn:Es.
    + split_and!; [|by split|done|simpl; by rewrite app_nil_r]. split; simpl; try done; [|by constructor].
      destruct (ends_with_char newline (out p)); lia.
    + destruct (Z.ltb_spec (indent p + off) 0).
      * split; [done|]. simpl. rewrite Es. lia.
      * split_and!; [|by split|done|simpl; by rewrite app_nil_r]. split; simpl; try done. by constructor.
  - split_and!; [|by split|done|simpl; by rewrite app_nil_r]. split; simpl; try done. by constructor.
Qed.

Lemma print_end_ok k p : print_ok p -> length (print_stack p) = S k -> printed TEnd k p (print_end p).
Proof.
  intros [H1 H2 H3 H4 H5] Hk. unfold print_end. destruct (print_stack p) as [|f st]; [done|]. injection Hk as <-.
  apply Forall_cons_1 in H5 as [Hf Hst].
  destruct f; (split_and!; [by split|by split|done|simpl; by rewrite app_nil_r]).
Qed.

Lemma print_break_ok t sz p :
  print_ok p -> 0 <= blank_space t -> plain (TBreak t) ->
  printed (TBreak t) (length (print_stack p)) p (print_break t sz p).
Proof.
  intros [H1 H2 H3 H4 H5] Hb [Hpre Hpost]. unfold print_break. rewrite Hpre, Hpost.
  destruct (never_break t || _).
  - split_and!; [split; simpl; try done; lia|by split|done|simpl; by rewrite app_nil_r].
  - destruct (Z.ltb_spec (indent p + boffset t) 0).
    + split; [done|]. simpl. lia.
    + split_and!; [split; simpl; try done; unfold MIN_SPACE in *; lia|by split|done|].
      simpl. by rewrite ink_app.
Qed.

(** [left_total] is not part of what printing keeps. *)
Lemma printed_left t k l p r :
  printed t k (set_scan (buf p) l (right_total p) (scan_stack p) p) r -> printed t k p r.
Proof. destruct r; [|done]. intros (H1 & [H2 H3 H4 H5] & H6 & H7). split_and!; try done. Qed.

Lemma print_token_ok e k' p :
  print_ok p -> entry_ok e -> plain (token e) -> nest (length (print_stack p)) [e] = Some k' ->
  printed (token e) k' p (print_token e p).
Proof.
  intros Hp He Hpl Hn. unfold print_token. simpl in Hn. unfold entry_ok in He.
  destruct (token e) as [s|b|b|] eqn:Et.
  - injection Hn as <-. eapply printed_left. eapply (print_string_ok s (set_scan _ _ _ _ p)). by destruct Hp.
  - injection Hn as <-. eapply printed_left. apply (print_break_ok b (size e) (set_scan _ _ _ _ p)); [by destruct Hp|done|done].
  - injection Hn as <-. by apply print_begin_ok.
  - destruct (length (print_stack p)) eqn:El; [done|]. injection Hn as <-. by apply print_end_ok.
Qed.

(** ** The scanner *)
Section Scanner.
(** [G]: no offset of the document is negative. *)
Variable G : Prop.
Definition fine (e : BufEntry) : Prop := plain (token e) /\ (G -> nonneg (token e)).

(** The ring, newest entry first, for a stream of size [rt]. *)
Record ring_ok (rt : Z) (rD : list BufEntry) : Prop := {
  ro_chain : chain rt rD;
  ro_shape : shape 0 rD;
  ro_adj : adj rD;
  ro_fine : Forall fine rD
}.

Lemma ring_older rt rD e : ring_ok rt (rD ++ [e]) -> ring_ok rt rD.
Proof.
  intros [H1 H2 H3 H5]. apply Forall_app in H5 as [H5 _].
  split; [by eapply chain_older|by eapply shape_older|by eapply adj_older|exact H5].
Qed.

Lemma ring_last rt rD e : ring_ok rt (rD ++ [e]) -> entry_ok e /\ fine e.
Proof.
  intros [H1 _ _ H5]. apply Forall_app in H5 as [_ H5]. apply Forall_cons_1 in H5 as [H5 _]. split; [|exact H5]. clear -H1.
  revert rt H1. induction rD as [|e' rD IH]; intros rt; simpl; [by intros [? _]|]. intros (_ & _ & H). by eapply IH.
Qed.

(** The state with [D] to print, where [n] boxes are open and [text] is what
    the document says so far. *)
Record stream (n : nat) (text : list ascii) (o : nat) (D : list BufEntry) (p : Printer) : Prop := {
  st_print : print_ok p;
  st_stack : scan_stack p = pending o D;
  st_ring : ring_ok (right_total p) (rev D);
  st_nest : nest (length (print_stack p)) D = Some n;
  st_opens : (opens 0 (rev D) <= n)%nat;
  st_ink : ink (out p) ++ entries_ink D = text;
  st_right : D = [] \/ 1 <= right_total p
}.

(** [D] is what the ring holds. *)
Definition stream_of (n : nat) (text : list ascii) (p : Printer) : Prop :=
  stream n text (roffset (buf p)) (data (buf p)) p.

Definition stuck (D : list BufEntry) : Prop := match D with [] => True | e :: _ => size e < 0 end.

Definition outcome (Q : Printer -> Prop) (r : Res Printer) : Prop :=
  match r with Ok p => Q p | Panics r => r = NegativeIndentation /\ ~ G end.

(** The first round of the loop of [advance_left]. *)
Lemma print_first n e rest p :
  0 <= size e -> entry_ok e -> fine e -> print_ok p -> nest (length (print_stack p)) (e :: rest) = Some n ->
  (exists r, advance_loop (e :: rest) p = Panics r /\ r = NegativeIndentation /\ ~ G) \/
  (exists p1, advance_loop (e :: rest) p =
      rbind (Ok (set_last_printed (token e) p1)) (fun p => match rest with [] => Ok p | _ => advance_loop rest p end) /\
    exists k', nest k' rest = Some n /\ print_ok p1 /\ length (print_stack p1) = k' /\
    buf p1 = {| data := rest; roffset := S (roffset (buf p)) |} /\ scan_stack p1 = scan_stack p /\
    right_total p1 = right_total p /\ indent_config p1 = indent_config p /\
    ink (out p1) = ink (out p) ++ token_ink (token e)).
Proof.
  intros Hs He Hf Hp Hn. cbn [advance_loop]. destruct (Z.ltb_spec (size e) 0); [lia|].
  change (e :: rest) with ([e] ++ rest) in Hn. rewrite nest_app in Hn.
  destruct (nest (length (print_stack p)) [e]) as [k'|] eqn:Ek; [|done]. cbn [mbind option_bind] in Hn.
  set (p0 := set_buf _ p).
  assert (Hpt : printed (token e) k' p0 (print_token e p0)).
  { apply print_token_ok; [by destruct Hp|done|apply Hf|done]. }
  destruct (print_token e p0) as [p1|r].
  - right. exists p1. split; [done|]. exists k'. destruct Hpt as (Hp1 & [Hb1 Hs1 Hr1 Hc1] & Hl1 & Hi1). done.
  - left. exists r. destruct Hpt as [-> Hnn]. split_and!; [done|done|]. intros HG. by apply Hnn, Hf.
Qed.

(** Entries whose size is known are printed until one is stuck. *)
Lemma advance_loop_ok n text e rest p :
  0 <= size e -> entry_ok e -> fine e -> print_ok p ->
  scan_stack p = pending (S (roffset (buf p))) rest -> ring_ok (right_total p) (rev rest) ->
  nest (length (print_stack p)) (e :: rest) = Some n -> (opens 0 (rev rest) <= n)%nat ->
  ink (out p) ++ entries_ink (e :: rest) = text -> 1 <= right_total p ->
  outcome (fun p' => stream_of n text p' /\ stuck (data (buf p')) /\
    data (buf p') `suffix_of` rest /\ scan_stack p' = scan_stack p /\ indent_config p' = indent_config p)
    (advance_loop (e :: rest) p).
Proof.
  revert e p. induction rest as [|e2 rest IH]; intros e p Hs He Hf Hp Hst Hr Hn Ho Hi Hrt.
  - destruct (print_first n e [] p Hs He Hf Hp Hn) as [(r & -> & Hpan)|(p1 & -> & k' & Hn' & Hp1 & Hl1 & Hb1 & Hs1 & Hr1 & Hc1 & Hi1)];
      [exact Hpan|]. cbn [rbind].
    split_and!; simpl; [|by rewrite Hb1|by rewrite Hb1|done|done].
    unfold stream_of. split; simpl; rewrite ?Hb1; simpl; [by destruct Hp1|by rewrite Hs1, Hst|by rewrite Hr1|by rewrite Hl1|lia| |by left].
    rewrite Hi1, <- Hi. unfold entries_ink. simpl. by rewrite !app_nil_r.
  - destruct (print_first n e (e2 :: rest) p Hs He Hf Hp Hn) as [(r & -> & Hpan)|(p1 & -> & k' & Hn' & Hp1 & Hl1 & Hb1 & Hs1 & Hr1 & Hc1 & Hi1)];
      [exact Hpan|]. cbn [rbind].
    assert (Hrest : stream n text (roffset (buf p1)) (e2 :: rest) (set_last_printed (token e) p1)).
    { split; simpl; rewrite ?Hb1; [by destruct Hp1|by rewrite Hs1|by rewrite Hr1|by rewrite Hl1|done| |right; lia].
      rewrite Hi1, <- Hi, <- app_assoc. done. }
    destruct (Z.ltb_spec (size e2) 0) as [H2|H2].
    + cbn [advance_loop]. rewrite (proj2 (Z.ltb_lt _ _) H2). split_and!; simpl; rewrite ?Hb1; simpl; [|lia|done|done|done].
      unfold stream_of. simpl. rewrite Hb1. simpl. rewrite Hb1 in Hrest. exact Hrest.
    + destruct Hrest as [R1 R2 R3 R4 R5 R6 R7]. destruct (ring_last _ _ _ R3) as [He2 Hf2].
      pose proof (ring_older _ _ _ R3) as R3'. simpl in R2. apply Z.ltb_ge in H2 as H2b. rewrite H2b in R2.
      pose proof (IH e2 (set_last_printed (token e) p1) H2 He2 Hf2 R1 R2 R3' R4) as HIH.
      destruct (advance_loop (e2 :: rest) (set_last_printed (token e) p1)) as [p'|r]; [|apply HIH].
      * destruct HIH as (A1 & A2 & A3 & A4 & A5); [| |simpl; lia|].
        -- etrans; [|exact R5]. simpl. apply opens_older.
        -- done.
        -- split_and!; [done|done|by apply suffix_cons_r|by rewrite A4|by rewrite A5].
      * etrans; [|exact R5]. simpl. apply opens_older.
      * done.
      * simpl. lia.
Qed.
(** ** Between two calls *)
Record doc_ok (n : nat) (text : list ascii) (p : Printer) : Prop := {
  do_stream : stream_of n text p;
  do_top : top_pending (rev (data (buf p)));
  do_rooted : rooted (rev (data (buf p)));
  do_empty : scan_stack p = [] -> data (buf p) = []
}.

Lemma pending_ge o D i : i ∈ pending o D -> (o <= i)%nat.
Proof.
  revert o. induction D as [|e D IH]; intros o; simpl; [set_solver|].
  destruct (size e <? 0); [rewrite elem_of_cons; intros [->|?%IH]; lia|]. intros ?%IH. lia.
Qed.

Lemma top_pending_suffix D D' : D' `suffix_of` D -> top_pending (rev D) -> top_pending (rev D').
Proof. intros [l ->]. rewrite rev_app_distr. by destruct (rev D'). Qed.

Lemma stuck_pending o D : stuck D -> pending o D = [] -> D = [].
Proof. destruct D as [|e D]; [done|]. simpl. intros Hs%Z.ltb_lt. by rewrite Hs. Qed.

Lemma check_stream_step_ok n text p :
  stream_of n text p -> top_pending (rev (data (buf p))) -> rooted (rev (data (buf p))) -> scan_stack p <> [] ->
  match check_stream_step p with
  | inl p' => (stream_of n text p' /\ top_pending (rev (data (buf p'))) /\ rooted (rev (data (buf p'))) /\ scan_stack p' <> [] /\
               indent_config p' = indent_config p) /\
              (length (data (buf p')) < length (data (buf p)))%nat
  | inr r => outcome (fun p' => doc_ok n text p' /\ indent_config p' = indent_config p) r
  end.
Proof.
  intros Hst Htop Hroot Hne. unfold check_stream_step. destruct (negb _); [split; [by split|done]|].
  destruct Hst as [S1 S2 S3 S4 S5 S6 S7]. destruct (data (buf p)) as [|e rest] eqn:ED; [by rewrite S2 in Hne|].
  assert (Hrt : 1 <= right_total p) by (destruct S7; [done|lia]).
  destruct (ring_last _ _ _ S3) as [He Hf]. pose proof (ring_older _ _ _ S3) as S3'.
  assert (Hop : (opens 0 (rev rest) <= n)%nat) by (etrans; [|exact S5]; simpl; apply opens_older).
  assert (Hgo : forall e' p0, token e' = token e -> 0 <= size e' -> entry_ok e' ->
    p0 = set_scan {| data := e' :: rest; roffset := roffset (buf p) |} (left_total p) (right_total p)
           (pending (S (roffset (buf p))) rest) p ->
    match match advance_left p0 with
          | Ok p => if is_empty (buf p) then inr (Ok p) else inl p
          | Panics r => inr (Panics r) end with
    | inl p' => (stream_of n text p' /\ top_pending (rev (data (buf p'))) /\ rooted (rev (data (buf p'))) /\ scan_stack p' <> [] /\
                 indent_config p' = indent_config p) /\ (length (data (buf p')) < length (e :: rest))%nat
    | inr r => outcome (fun p' => doc_ok n text p' /\ indent_config p' = indent_config p) r
    end).
  { intros e' p0 Ht Hs' He' ->. set (q := set_scan _ _ _ _ p).
    change (advance_left q) with (advance_loop (e' :: rest) q).
    assert (Hf' : fine e') by (unfold fine; by rewrite Ht).
    assert (Hq : print_ok q) by (by destruct S1).
    assert (Hn' : nest (length (print_stack q)) (e' :: rest) = Some n) by (cbn [nest]; rewrite Ht; exact S4).
    assert (Hi' : ink (out q) ++ entries_ink (e' :: rest) = text).
    { rewrite <- S6. unfold entries_ink. cbn [map concat]. by rewrite Ht. }
    pose proof (advance_loop_ok n text e' rest q Hs' He' Hf' Hq eq_refl S3' Hn' Hop Hi' Hrt) as Hadv.
    destruct (advance_loop (e' :: rest) q) as [p'|r]; [|exact Hadv].
    destruct Hadv as (A1 & A2 & A3 & A4 & A5).
    assert (Htop' : top_pending (rev (data (buf p')))).
    { eapply (top_pending_suffix (e :: rest)); [by apply suffix_cons_r|done]. }
    assert (Hroot' : rooted (rev (data (buf p')))).
    { destruct (data (buf p')) as [|e1 D1]; [done|]. by apply stuck_rooted. }
    destruct (is_empty (buf p')) eqn:Em.
    - unfold is_empty in Em. split; [|done]. split; [done|done|done|]. intros _. by destruct (data (buf p')).
    - split; [|apply suffix_length in A3; simpl; lia]. split_and!; try done. intros Hz.
      rewrite (st_stack _ _ _ _ _ A1) in Hz. apply stuck_pending in Hz; [|done]. unfold is_empty in Em. by rewrite Hz in Em. }
  simpl in S2. destruct (scan_stack p) as [|front st] eqn:Es; [done|].
  destruct (Z.ltb_spec (size e) 0) as [Hs|Hs].
  - injection S2 as -> ->. rewrite Nat.eqb_refl. unfold first, set_first. rewrite ED. cbn [rbind].
    apply (Hgo {| token := token e; size := SIZE_INFINITY |}); [done|done| |done].
    unfold entry_ok in *. simpl. by destruct (token e).
  - assert (Hge : (S (roffset (buf p)) <= front)%nat) by (apply (pending_ge _ rest); rewrite <- S2; left).
    destruct (Nat.eqb_spec front (roffset (buf p))); [lia|]. cbn [rbind]. apply (Hgo e); try done.
    rewrite <- S2, <- Es. destruct p as [? ? b ? ? ? ? ? ? ? ? ?]. unfold set_scan. simpl in *. by destruct b; simpl in *; subst.
Qed.

Lemma check_stream_ok n text p :
  stream_of n text p -> top_pending (rev (data (buf p))) -> rooted (rev (data (buf p))) -> scan_stack p <> [] ->
  exists r, check_stream p = Some r /\ outcome (fun p' => doc_ok n text p' /\ indent_config p' = indent_config p) r.
Proof.
  intros Hst Htop Hroot Hne. unfold check_stream.
  set (Inv := fun p' => stream_of n text p' /\ top_pending (rev (data (buf p'))) /\ rooted (rev (data (buf p'))) /\ scan_stack p' <> [] /\
    indent_config p' = indent_config p).
  assert (H0 : Inv p) by done.
  assert (Hstep : forall q q', Inv q -> check_stream_step q = inl q' ->
    Inv q' /\ (length (data (buf q')) < length (data (buf q)))%nat).
  { intros q q' (I1 & I2 & I3 & I5 & I4) Hq. pose proof (check_stream_step_ok n text q I1 I2 I3 I5) as Hok. rewrite Hq in Hok.
    destruct Hok as ((? & ? & ? & ? & Hc) & ?). split; [|done]. split_and!; try done. congruence. }
  destruct (iterate_total check_stream_step Inv (fun q => length (data (buf q))) Hstep (S (len (buf p))) p H0) as [R HR].
  { unfold len. lia. }
  exists R. split; [done|].
  refine (iterate_ind check_stream_step Inv _ (fun s s' H H' => proj1 (Hstep s s' H H')) _ _ _ _ H0 HR).
  intros q r (I1 & I2 & I3 & I5 & I4) Hq. pose proof (check_stream_step_ok n text q I1 I2 I3 I5) as Hok. rewrite Hq in Hok.
  destruct r; [|done]. destruct Hok as [? ?]. split; [done|]. congruence.
Qed.

(** ** The calls *)
Lemma entries_ink_app D E : entries_ink (D ++ E) = entries_ink D ++ entries_ink E.
Proof. unfold entries_ink. by rewrite map_app, concat_app. Qed.

Lemma nest_tokens k D D' : map token D = map token D' -> nest k D = nest k D'.
Proof.
  revert k D'. induction D as [|e D IH]; intros k [|e' D'] H; try done. simpl in H. injection H as H1 H2. simpl. rewrite H1.
  destruct (token e'); auto. destruct k; auto.
Qed.

Lemma ink_tokens D D' : map token D = map token D' -> entries_ink D = entries_ink D'.
Proof.
  intros H. unfold entries_ink. f_equal. revert D' H.
  induction D as [|e D IH]; intros [|e' D'] H; try done. simpl in H. injection H as H1 H2. simpl. rewrite H1. f_equal. auto.
Qed.

Lemma fine_tokens D D' : map token D = map token D' -> Forall fine D -> Forall fine D'.
Proof.
  intros H HF. revert D' H. induction HF as [|e D He HF IH]; intros [|e' D'] H; try done. simpl in H. injection H as H1 H2.
  constructor; [|by apply IH]. unfold fine in *. by rewrite <- H1.
Qed.

(** Pushing an entry that waits for its size. *)
Lemma push_ok n n' text o rD p e l r' :
  stream n text o (rev rD) p -> size e < 0 -> fine e -> 1 <= r' ->
  chain r' (e :: rD) -> shape 0 (e :: rD) -> adj (e :: rD) -> rooted (e :: rD) ->
  nest n [e] = Some n' -> (opens 0 (e :: rD) <= n')%nat -> token_ink (token e) = [] ->
  doc_ok n' text (set_scan {| data := rev rD ++ [e]; roffset := o |} l r' (scan_stack p ++ [(o + length rD)%nat]) p).
Proof.
  intros [S1 S2 S3 S4 S5 S6 S7] Hs Hf Hr Hc Hsh Ha Hro Hn Ho Hi. apply Z.ltb_lt in Hs as Hsb.
  assert (Erev : rev (rev rD ++ [e]) = e :: rD) by (by rewrite rev_app_distr, rev_involutive).
  assert (Hring : ring_ok r' (e :: rD)).
  { split; try done. constructor; [done|]. rewrite rev_involutive in S3. apply S3. }
  split; [split| | |]; simpl; rewrite ?Erev; try done.
  - by destruct S1.
  - by rewrite pending_snoc, Hsb, S2, length_rev.
  - by rewrite nest_app, S4.
  - rewrite entries_ink_app, app_assoc, S6. unfold entries_ink. simpl. by rewrite Hi, !app_nil_r.
  - by right.
  - by intros _.
  - by destruct (scan_stack p).
Qed.

Lemma adj_cons e rD :
  adj rD -> match rD with [] => True | e1 :: _ => glue (token e1) (token e) = true -> size e < 0 -> size e1 < 0 end ->
  adj (e :: rD).
Proof. by destruct rD. Qed.

Lemma restart_stream n text p : doc_ok n text p -> scan_stack p = [] ->
  stream n text (roffset (buf p)) (rev []) (restart p) /\ right_total (restart p) = 1 /\ scan_stack (restart p) = [].
Proof.
  intros [[S1 S2 S3 S4 S5 S6 S7] _ _ He] Hs. rewrite (He Hs) in *. split_and!; [|done|done].
  split; simpl; try done; [by destruct S1|by right].
Qed.

Lemma right_pos n text p : stream_of n text p -> scan_stack p <> [] -> 1 <= right_total p.
Proof. intros [_ S2 _ _ _ _ S7] Hne. destruct S7 as [E|]; [|done]. rewrite S2, E in Hne. done. Qed.

Lemma fold_push e p :
  push_pending e p = set_scan {| data := rev (rev (data (buf p))) ++ [e]; roffset := roffset (buf p) |} (left_total p) (right_total p)
    (scan_stack p ++ [(roffset (buf p) + length (rev (data (buf p))))%nat]) p.
Proof. unfold push_pending, push. by rewrite rev_involutive, length_rev. Qed.

Lemma stream_rev n text p : stream_of n text p -> stream n text (roffset (buf p)) (rev (rev (data (buf p)))) p.
Proof. by rewrite rev_involutive. Qed.

Lemma scan_begin_ok n text t p :
  doc_ok n text p -> (G -> nonneg (TBegin t)) ->
  outcome (fun p' => doc_ok (S n) text p' /\ indent_config p' = indent_config p) (scan_begin t p).
Proof.
  intros Hd Hg. unfold scan_begin. destruct (scan_stack p) as [|i st] eqn:Es.
  - destruct (restart_stream n text p Hd Es) as (Hst & Hr & Hs). split; [|done]. unfold push_pending, push. simpl.
    apply (push_ok n (S n) text (roffset (buf p)) [] (restart p)); try done; simpl.
    + split; [|done]. by left.
    + lia.
  - assert (Hne : scan_stack p <> []) by congruence. pose proof (right_pos _ _ _ (do_stream _ _ _ Hd) Hne) as Hr.
    split; [|done]. rewrite fold_push. destruct Hd as [Hst Htop Hroot _].
    assert (Hneg : - right_total p < 0) by lia. apply Z.ltb_lt in Hneg as Hnb.
    pose proof (stream_rev _ _ _ Hst) as Hst'. destruct Hst as [S1 S2 [R1 R2 R3 R4] S4 S5 S6 S7].
    eapply (push_ok n (S n) text); try done.
    + split_and!; [done| |].
      * intros _. simpl. lia.
      * unfold waits. cbn [size token]. rewrite Hnb. simpl. by rewrite Z.opp_involutive.
    + simpl. by rewrite Hnb.
    + apply adj_cons; [done|]. destruct (rev (data (buf p))) as [|e1 r1]; [done|]. intros Hgl _. apply Htop.
      simpl in Hgl. by destruct (token e1).
    + split; [|done]. intros _ _. right. rewrite S2 in Hne.
      destruct (has_pending (rev (data (buf p)))) eqn:Eh; [done|]. apply (has_pending_false (roffset (buf p))) in Eh.
      by rewrite rev_involutive in Eh.
    + simpl. rewrite Hnb. lia.
Qed.

Lemma scan_string_ok n text s p :
  doc_ok n text p ->
  exists r, scan_string s p = Some r /\
    outcome (fun p' => doc_ok n (text ++ ink s) p' /\ indent_config p' = indent_config p) r.
Proof.
  intros Hd. unfold scan_string. destruct (scan_stack p) as [|i st] eqn:Es.
  - eexists. split; [reflexivity|]. destruct Hd as [[S1 S2 S3 S4 S5 S6 S7] H1 H2 He].
    destruct (print_string_ok s p S1) as (P1 & [P2 P3 P4 P5] & P6 & P7). rewrite (He Es) in *. cbn [token_ink] in P7.
    split; [|done]. 
    assert (Hdata : data (buf (print_string s p)) = []) by (by rewrite P2, (He Es)).
    split; [unfold stream_of; split|by rewrite Hdata|by rewrite Hdata|by rewrite Hdata]; rewrite ?Hdata; try done.
    rewrite P7, <- S6. unfold entries_ink. simpl. by rewrite !app_nil_r.
  - assert (Hne : scan_stack p <> []) by congruence. pose proof (right_pos _ _ _ (do_stream _ _ _ Hd) Hne) as Hr.
    pose proof (str_len_nonneg s) as Hl. destruct Hd as [[S1 S2 [R1 R2 R3 R4] S4 S5 S6 S7] H1 H2 He].
    unfold push. set (q := set_scan _ _ _ _ p).
    assert (Hq : stream_of n (text ++ ink s) q /\ top_pending (rev (data (buf q))) /\ rooted (rev (data (buf q))) /\ scan_stack q <> []).
    { assert (Hb : (str_len s <? 0) = false) by (by apply Z.ltb_ge).
      unfold q, stream_of. cbn [buf set_scan data roffset scan_stack]. rewrite rev_app_distr. cbn [rev app].
      split_and!; [split|done|split; [done|done]|done].
      - by destruct S1.
      - cbn [scan_stack set_scan]. rewrite pending_snoc. cbn [size]. rewrite Hb, app_nil_r, <- S2. done.
      - rewrite rev_app_distr. cbn [rev app right_total set_scan]. split.
        + apply chain_settled_entry; [done|done|]. eapply chain_mono; [|exact R1]. lia.
        + simpl. by rewrite Hb.
        + apply adj_cons; [done|]. destruct (rev (data (buf p))); [done|]. simpl. lia.
        + constructor; [done|done].
      - cbn [print_stack set_scan]. by rewrite nest_app, S4.
      - rewrite rev_app_distr. simpl. by rewrite Hb.
      - cbn [out set_scan]. rewrite entries_ink_app, app_assoc, S6. unfold entries_ink. simpl. by rewrite app_nil_r.
      - right. simpl. lia. }
    destruct Hq as (Q1 & Q2 & Q3 & Q4).
    destruct (check_stream_ok n (text ++ ink s) q Q1 Q2 Q3 Q4) as (r & -> & Hr'). by exists r.
Qed.

(** [check_stack] on the whole state. *)
Lemma check_stack_ok n text p :
  stream_of n text p -> rooted (rev (data (buf p))) ->
  let rD := resolve (right_total p) 0 (rev (data (buf p))) in
  check_stack 0 p = Ok (set_scan {| data := rev rD; roffset := roffset (buf p) |} (left_total p) (right_total p)
                          (pending (roffset (buf p)) (rev rD)) p) /\
  stream n text (roffset (buf p)) (rev rD)
    (set_scan {| data := rev rD; roffset := roffset (buf p) |} (left_total p) (right_total p)
       (pending (roffset (buf p)) (rev rD)) p) /\
  resolved_ok (right_total p) 0 (rev (data (buf p))) rD /\ rooted rD.
Proof.
  intros [S1 S2 [R1 R2 R3 R4] S4 S5 S6 S7] Hroot rD.
  pose proof (resolve_ok (right_total p) 0 _ R1 R2 R3) as Hok.
  pose proof (resolve_tokens (right_total p) 0 (rev (data (buf p)))) as Htok.
  assert (Htok' : map token (rev rD) = map token (data (buf p))).
  { unfold rD. by rewrite map_rev, Htok, map_rev, rev_involutive. }
  split_and!; [| |done|by apply resolve_rooted].
  - unfold check_stack. rewrite S2.
    pose proof (check_stack_loop_resolve (right_total p) (roffset (buf p)) (rev (data (buf p))) 0 [] R1) as Hl.
    rewrite rev_involutive, !app_nil_r in Hl.
    replace (buf p) with {| data := data (buf p); roffset := roffset (buf p) |} at 3 by (by destruct (buf p)).
    rewrite Hl. cbn [rbind]. by rewrite rev_involutive.
  - split; simpl; try done.
    + by destruct S1.
    + rewrite rev_involutive. destruct Hok as [K1 K2 K3 K4 K5]. split; try done.
      eapply fine_tokens; [|exact R4]. by rewrite <- Htok.
    + by rewrite (nest_tokens _ _ _ Htok').
    + rewrite rev_involutive. pose proof (rs_opens _ _ _ _ Hok) as E. fold rD in E. lia.
    + by rewrite (ink_tokens _ _ Htok').
    + destruct S7 as [E|]; [left|by right]. unfold rD. by rewrite E.
Qed.

Lemma scan_break_ok n text t p :
  doc_ok n text p -> 0 <= blank_space t -> plain (TBreak t) -> (G -> nonneg (TBreak t)) ->
  outcome (fun p' => doc_ok n text p' /\ indent_config p' = indent_config p) (scan_break t p).
Proof.
  intros Hd Hb Hpl Hg. unfold scan_break.
  assert (Hpush : forall q rD, stream n text (roffset (buf q)) (rev rD) q -> data (buf q) = rev rD -> 1 <= right_total q ->
    settled rD -> shape 0 rD -> adj rD -> rooted rD -> chain (right_total q) rD -> (opens 0 rD <= n)%nat ->
    match rD with e1 :: _ => is_begin (token e1) = true -> size e1 < 0 | [] => True end ->
    let p' := push_pending {| token := TBreak t; size := - right_total q |} q in
    doc_ok n text (set_scan (buf p') (left_total p') (right_total p' + blank_space t) (scan_stack p') p')).
  { intros q rD Hst HD Hr Hset Hsh Ha Hro Hc Ho Htop. unfold push_pending, push. rewrite HD, length_rev. cbn zeta.
    cbn [buf set_scan left_total right_total scan_stack].
    assert (Hneg : - right_total q < 0) by lia. apply Z.ltb_lt in Hneg as Hnb.
    apply (push_ok n n text (roffset (buf q)) rD q {| token := TBreak t; size := - right_total q |} (left_total q)
      (right_total q + blank_space t)); try done; [lia| | | |].
    - split_and!; [done| |].
      + intros _. simpl. lia.
      + unfold waits. cbn [size token]. rewrite Hnb. simpl. by rewrite Z.opp_involutive.
    - cbn [shape size token]. rewrite Hnb. done.
    - apply adj_cons; [done|]. destruct rD as [|e1 r1]; [done|]. intros Hgl _. apply Htop. simpl in Hgl. by destruct (token e1).
    - cbn [opens size token]. by rewrite Hnb. }
  destruct (scan_stack p) as [|i st] eqn:Es.
  - destruct (restart_stream n text p Hd Es) as (Hst & Hr & Hs). cbn [rbind]. split; [|done].
    apply (Hpush (restart p) []); try done; simpl; lia.
  - assert (Hne : scan_stack p <> []) by congruence. pose proof (right_pos _ _ _ (do_stream _ _ _ Hd) Hne) as Hr.
    destruct Hd as [Hst Htop Hroot _]. destruct (check_stack_ok n text p Hst Hroot) as (-> & Hst' & [K1 K2 K3 K4 K5] & Hro').
    cbn [rbind]. split; [|done]. eapply (Hpush (set_scan _ _ _ _ p)); try done.
    + rewrite K3. apply Hst.
    + destruct (rev (data (buf p))) as [|e1 r1]; [done|]. simpl. destruct (Z.ltb_spec (size e1) 0) as [H1|H1].
      * destruct (token e1) eqn:Et; simpl; rewrite ?Et; done.
      * intros Hbg. exfalso. simpl in Htop. destruct (token e1) eqn:Et; try done. specialize (Htop eq_refl). lia.
Qed.

(** At the end of the document everything is printed. *)
Lemma eof_ok text p :
  doc_ok 0 text p ->
  match eof p with Ok s => ink s = text | Panics r => r = NegativeIndentation /\ ~ G end.
Proof.
  intros [Hst Htop Hroot He]. unfold eof, scan_eof. destruct (scan_stack p) as [|i st] eqn:Es.
  - cbn [rbind]. destruct Hst as [_ _ _ _ _ S6 _]. rewrite (He eq_refl) in S6. by rewrite app_nil_r in S6.
  - assert (Hne : scan_stack p <> []) by congruence. pose proof (right_pos _ _ _ Hst Hne) as Hr.
    destruct (check_stack_ok 0 text p Hst Hroot) as (-> & Hst' & [K1 K2 K3 K4 K5] & _). cbn [rbind].
    assert (Hop : opens 0 (resolve (right_total p) 0 (rev (data (buf p)))) = O).
    { rewrite K3. pose proof (st_opens _ _ _ _ _ Hst). lia. }
    pose proof (nothing_pending (roffset (buf p)) _ K4 Hop) as Hnp.
    set (D := rev (resolve (right_total p) 0 (rev (data (buf p))))) in *.
    set (q := set_scan {| data := D; roffset := roffset (buf p) |} _ _ _ p) in *.
    change (advance_left q) with (advance_loop D q).
    assert (HD : D <> []).
    { unfold D. intros E. apply (f_equal (map token)) in E. rewrite map_rev, resolve_tokens, map_rev, rev_involutive in E.
      rewrite (st_stack _ _ _ _ _ Hst) in Hne. by destruct (data (buf p)). }
    clearbody D. destruct D as [|e rest]; [done|]. destruct Hst' as [S1 S2 S3 S4 S5 S6 S7].
    simpl in Hnp. destruct (Z.ltb_spec (size e) 0) as [|Hs]; [done|].
    assert (Hsz : (size e <? 0) = false) by (by apply Z.ltb_ge).
    destruct (ring_last _ _ _ S3) as [Hek Hf]. pose proof (ring_older _ _ _ S3) as S3'.
    assert (Hop' : (opens 0 (rev rest) <= 0)%nat) by (etrans; [apply (opens_older _ _ e)|exact S5]).
    assert (S2' : scan_stack q = pending (S (roffset (buf q))) rest) by (rewrite S2; simpl; by rewrite Hsz).
    pose proof (advance_loop_ok 0 text e rest q Hs Hek Hf S1 S2' S3' S4 Hop' S6 Hr) as Hadv.
    destruct (advance_loop (e :: rest) q) as [p'|r]; cbn [rbind]; [|exact Hadv].
    destruct Hadv as ([_ T2 _ _ _ T6 _] & A2 & _ & A4 & _).
    rewrite A4, S2' in T2. cbn [roffset buf] in T2.
    assert (Hz : pending (roffset (buf p')) (data (buf p')) = []) by (rewrite <- T2; exact Hnp).
    rewrite (stuck_pending _ _ A2 Hz) in T6. by rewrite app_nil_r in T6.
Qed.

(** *** The end of a box *)
Lemma pop_back_snoc (l : list nat) x : pop_back (l ++ [x]) = l.
Proof. unfold pop_back. rewrite length_app, Nat.add_sub. by rewrite take_app_length. Qed.

Lemma pop_last_snoc (l : list BufEntry) e o :
  pop_last {| data := l ++ [e]; roffset := o |} = Ok {| data := l; roffset := o |}.
Proof.
  unfold pop_last. cbn [data roffset]. destruct (l ++ [e]) as [|x y] eqn:E; [by destruct l|]. rewrite <- E. f_equal. f_equal.
  by rewrite length_app, Nat.add_sub, take_app_length.
Qed.

Lemma push_end_ok n text rD p l r' :
  stream (S n) text (roffset (buf p)) (rev rD) p -> data (buf p) = rev rD -> 1 <= r' -> l = left_total p -> r' = right_total p ->
  chain r' rD -> shape 0 rD -> adj rD -> rooted rD -> (opens 0 rD <= S n)%nat ->
  doc_ok n text (push_pending {| token := TEnd; size := -1 |} p).
Proof.
  intros Hst HD Hr -> -> Hc Hsh Ha Hro Ho. unfold push_pending, push. rewrite HD, length_rev.
  apply (push_ok (S n) n text (roffset (buf p)) rD p); try done.
  - by apply shape_S.
  - apply adj_cons; [done|]. destruct rD as [|e1 r1]; [done|]. simpl. by destruct (token e1).
  - simpl. rewrite opens_S. lia.
Qed.

(** What [scan_end] finds at the end of the ring. *)
Lemma scan_end_plain n text p :
  doc_ok (S n) text p -> scan_stack p <> [] -> doc_ok n text (push_pending {| token := TEnd; size := -1 |} p).
Proof.
  intros [Hst Htop Hroot He] Hne. pose proof (right_pos _ _ _ Hst Hne) as Hr.
  pose proof (stream_rev _ _ _ Hst) as Hst'. destruct Hst as [S1 S2 [R1 R2 R3 R4] S4 S5 S6 S7].
  by eapply (push_end_ok n text (rev (data (buf p))) p (left_total p) (right_total p)); rewrite ?rev_involutive.
Qed.

Lemma scan_end_empty_box n text p t e2 e r2 :
  doc_ok (S n) text p -> data (buf p) = (rev r2 ++ [e2]) ++ [e] -> token e = TBreak t -> is_begin (token e2) = true ->
  doc_ok n text (set_scan {| data := rev r2; roffset := roffset (buf p) |} (left_total p) (right_total p - blank_space t)
    (pop_back (pop_back (scan_stack p))) p).
Proof.
  intros [[S1 S2 [R1 R2 R3 R4] S4 S5 S6 S7] Htop Hroot He] HD Ht Hb2. rewrite HD in *.
  assert (Erev : rev ((rev r2 ++ [e2]) ++ [e]) = e :: e2 :: r2) by (by rewrite !rev_app_distr, rev_involutive).
  rewrite Erev in *. cbn [top_pending] in Htop. assert (Hs : size e < 0) by (apply Htop; by rewrite Ht).
  destruct R3 as [Hg2 R3']. assert (Hs2 : size e2 < 0).
  { apply Hg2; [rewrite Ht; by destruct (token e2)|done]. }
  apply Z.ltb_lt in Hs as Hsb. apply Z.ltb_lt in Hs2 as Hsb2.
  assert (Hstack : pop_back (pop_back (scan_stack p)) = pending (roffset (buf p)) (rev r2)).
  { rewrite S2, !pending_snoc, Hsb, Hsb2. by rewrite !pop_back_snoc. }
  destruct R1 as (_ & Hw & Hc). unfold waits in Hw, Hc. rewrite Hsb, Ht in Hw, Hc. cbn [andb negb is_end width] in Hw, Hc.
  destruct (Hw eq_refl) as [Hw1 Hw2]. apply chain_tail in Hc.
  cbn [shape] in R2. rewrite Hsb, Ht, Hsb2 in R2. destruct R2 as [_ R2].
  cbn [opens] in S5. rewrite Hsb, Ht, Hsb2 in S5.
  destruct (token e2) as [| |b2|] eqn:Et2; try done. cbn [pred] in R2.
  apply Forall_cons_1 in R4 as [_ R4]. apply Forall_cons_1 in R4 as [_ R4].
  destruct Hroot as [_ [Hroot2 Hroot]]. rewrite Hstack.
  split; [split| | |]; cbn [buf set_scan data roffset print_stack out right_total scan_stack]; rewrite ?rev_involutive; try done.
  - by destruct S1.
  - split; try done; [|by destruct r2; [|apply R3']]. eapply chain_mono; [|exact Hc]. lia.
  - rewrite !nest_app in S4. destruct (nest (length (print_stack p)) (rev r2)) as [k|]; [|done].
    cbn [mbind option_bind nest] in S4. rewrite Et2 in S4. cbn [mbind option_bind] in S4. rewrite Ht in S4. by injection S4 as ->.
  - lia.
  - rewrite <- S6, !entries_ink_app. unfold entries_ink at 3 4. simpl. by rewrite Et2, Ht, !app_nil_r.
  - right. lia.
  - destruct r2 as [|e1 r1]; [done|]. cbn [top_pending]. intros Hl. destruct R3' as [Hg1 _]. apply Hg1; [|done].
    rewrite Et2. simpl. by destruct (token e1).
  - intros Hp%has_pending_false. rewrite Et2 in Hroot2. destruct (Hroot2 eq_refl Hs2) as [->|Hh]; [done|congruence].
Qed.

Lemma scan_end_drop_break n text p t e r :
  doc_ok (S n) text p -> data (buf p) = rev r ++ [e] -> token e = TBreak t ->
  doc_ok n text (push_pending {| token := TEnd; size := -1 |}
    (set_scan {| data := rev r; roffset := roffset (buf p) |} (left_total p) (right_total p - blank_space t)
       (pop_back (scan_stack p)) p)).
Proof.
  intros [[S1 S2 [R1 R2 R3 R4] S4 S5 S6 S7] Htop Hroot He] HD Ht. rewrite HD in *.
  assert (Erev : rev (rev r ++ [e]) = e :: r) by (by rewrite rev_app_distr, rev_involutive).
  rewrite Erev in *. assert (Hs : size e < 0) by (apply Htop; by rewrite Ht). apply Z.ltb_lt in Hs as Hsb.
  assert (Hstack : pop_back (scan_stack p) = pending (roffset (buf p)) (rev r)).
  { rewrite S2, pending_snoc, Hsb. by rewrite pop_back_snoc. }
  destruct R1 as (_ & Hw & Hc). unfold waits in Hw, Hc. rewrite Hsb, Ht in Hw, Hc. cbn [andb negb is_end width] in Hw, Hc.
  destruct (Hw eq_refl) as [Hw1 Hw2].
  cbn [shape] in R2. rewrite Hsb, Ht in R2. destruct R2 as [_ R2].
  cbn [opens] in S5. rewrite Hsb, Ht in S5.
  apply Forall_cons_1 in R4 as [_ R4]. destruct Hroot as [_ Hroot].
  assert (Ha : adj r) by (destruct r; [done|apply R3]).
  assert (Hc' : chain (right_total p - blank_space t) r) by (eapply chain_mono; [|exact Hc]; lia).
  eapply (push_end_ok n text r _ (left_total p) (right_total p - blank_space t));
    cbn [buf set_scan data roffset left_total right_total]; try done; [|lia].
  split; cbn [buf set_scan data roffset print_stack out right_total scan_stack]; rewrite ?rev_involutive; try done.
  - by destruct S1.
  - rewrite nest_app in S4. destruct (nest (length (print_stack p)) (rev r)) as [k|]; [|done].
    cbn [mbind option_bind nest] in S4. by rewrite Ht in S4.
  - rewrite <- S6, entries_ink_app. unfold entries_ink at 3. simpl. by rewrite Ht, !app_nil_r.
  - right. lia.
Qed.

Lemma scan_end_ok n text p :
  doc_ok (S n) text p ->
  outcome (fun p' => doc_ok n text p' /\ indent_config p' = indent_config p) (scan_end p).
Proof.
  intros Hd. unfold scan_end. destruct (scan_stack p) as [|i st] eqn:Es.
  - destruct Hd as [[S1 S2 S3 S4 S5 S6 S7] H1 H2 He]. rewrite (He Es) in *. injection S4 as S4.
    pose proof (print_end_ok n p S1 S4) as Hpe. destruct (print_end p) as [p'|r].
    + destruct Hpe as (P1 & [P2 P3 P4 P5] & P6 & P7). split; [|done].
      assert (Hdata : data (buf p') = []) by (by rewrite P2, (He Es)).
      split; [unfold stream_of; split|by rewrite Hdata|by rewrite Hdata|by rewrite Hdata]; rewrite ?Hdata; try done.
      * by rewrite P3, Es.
      * by rewrite P6.
      * simpl. lia.
      * rewrite P7. cbn [token_ink]. by rewrite app_nil_r.
      * by left.
    + destruct Hpe as [-> Hnn]. by destruct Hnn.
  - assert (Hne : scan_stack p <> []) by congruence. rewrite <- Es.
    destruct (is_empty (buf p)); [split; [by apply scan_end_plain|done]|].
    unfold last. destruct (list.last (data (buf p))) as [e|] eqn:El.
    2: { apply last_None in El. rewrite (st_stack _ _ _ _ _ (do_stream _ _ _ Hd)), El in Hne. done. }
    cbn [rbind]. destruct (token e) as [s|t|b|] eqn:Et; try (split; [by apply scan_end_plain|done]).
    apply last_Some in El as [l El].
    assert (Hlast : outcome (fun p' => doc_ok n text p' /\ indent_config p' = indent_config p)
      (if if_nonempty t then
         rbind (pop_last (buf p)) (fun b => Ok (push_pending {| token := TEnd; size := -1 |}
           (set_scan b (left_total p) (right_total p - blank_space t) (pop_back (scan_stack p)) p)))
       else Ok (push_pending {| token := TEnd; size := -1 |} p))).
    { destruct (if_nonempty t); [|split; [by apply scan_end_plain|done]].
      replace (buf p) with {| data := l ++ [e]; roffset := roffset (buf p) |} by (rewrite <- El; by destruct (buf p)).
      rewrite pop_last_snoc. cbn [rbind]. split; [|done]. rewrite <- (rev_involutive l).
      eapply scan_end_drop_break; [done| |done]. by rewrite rev_involutive. }
    destruct l as [|e2 l2 _] using rev_ind.
    + unfold len. rewrite El. simpl length. cbn [Nat.leb rbind]. exact Hlast.
    + assert (Hlen : (2 <=? len (buf p))%nat = true).
      { apply Nat.leb_le. unfold len. rewrite El, !length_app. simpl. lia. }
      assert (Hsec : second_last (buf p) = Ok e2).
      { unfold second_last. rewrite El, !length_app. simpl length.
        replace (length l2 + 1 + 1 - 2)%nat with (length l2) by lia.
        rewrite <- app_assoc. simpl app. rewrite list_lookup_middle by done.
        destruct (Nat.ltb_spec (length l2 + 1 + 1) 2); [lia|done]. }
      rewrite Hlen, Hsec. cbn [rbind].
      destruct (token e2) as [s2|t2|b2|] eqn:Et2; try exact Hlast.
      replace (buf p) with {| data := (l2 ++ [e2]) ++ [e]; roffset := roffset (buf p) |} by (rewrite <- El; by destruct (buf p)).
      rewrite pop_last_snoc. cbn [rbind]. rewrite pop_last_snoc. cbn [rbind]. split; [|done]. rewrite <- (rev_involutive l2).
      eapply scan_end_empty_box; [done|by rewrite rev_involutive|done|by rewrite Et2].
Qed.

(** ** Documents *)
Definition command_ok (c : Command) : Prop :=
  match c with
  | Break t => 0 <= blank_space t /\ plain (TBreak t) /\ (G -> nonneg (TBreak t))
  | Begin t => G -> nonneg (TBegin t)
  | _ => True
  end.
Definition command_ink (c : Command) : list ascii := match c with Word s => ink s | _ => [] end.

(** The open boxes after a list of commands. *)
Fixpoint depth (n : nat) (cs : list Command) : option nat :=
  match cs with
  | [] => Some n
  | Begin _ :: cs => depth (S n) cs
  | End :: cs => match n with O => None | S n' => depth n' cs end
  | _ :: cs => depth n cs
  end.

Lemma commands_ok cs n n' text p :
  doc_ok n text p -> Forall command_ok cs -> depth n cs = Some n' ->
  exists r, commands cs p = Some r /\
    outcome (fun p' => doc_ok n' (text ++ concat (map command_ink cs)) p') r.
Proof.
  revert n text p. induction cs as [|c cs IH]; intros n text p Hd Hcs Hn.
  { exists (Ok p). split; [done|]. simpl in *. injection Hn as <-. by rewrite app_nil_r. }
  apply Forall_cons_1 in Hcs as [Hc Hcs].
  assert (Hgo : forall r n1 text1, outcome (fun p' => doc_ok n1 text1 p' /\ indent_config p' = indent_config p) r ->
    depth n1 cs = Some n' -> text1 ++ concat (map command_ink cs) = text ++ concat (map command_ink (c :: cs)) ->
    exists r', match r with Ok q => commands cs q | _ => Some r end = Some r' /\
      outcome (fun p' => doc_ok n' (text ++ concat (map command_ink (c :: cs))) p') r').
  { intros r n1 text1 Hr Hdep Htxt. rewrite <- Htxt. destruct r as [q|r]; [|by exists (Panics r)].
    destruct Hr as [Hq _]. by apply (IH n1 text1 q). }
  destruct c as [s|t|t|]; cbn [commands command] in *; cbn [depth] in Hn.
  - destruct (scan_string_ok n text s p Hd) as (r & Hr & Hok). unfold word. rewrite Hr.
    destruct (Hgo r n (text ++ ink s) Hok Hn) as (r' & Hr' & Ho'); [simpl; by rewrite app_assoc|].
    exists r'. by destruct r.
  - destruct Hc as (H1 & H2 & H3). pose proof (scan_break_ok n text t p Hd H1 H2 H3) as Hok.
    destruct (Hgo _ n text Hok Hn eq_refl) as (r' & Hr' & Ho'). exists r'. by destruct (scan_break t p).
  - pose proof (scan_begin_ok n text t p Hd Hc) as Hok.
    destruct (Hgo _ (S n) text Hok Hn eq_refl) as (r' & Hr' & Ho'). exists r'. by destruct (scan_begin t p).
  - destruct n as [|n]; [done|]. pose proof (scan_end_ok n text p Hd) as Hok. unfold end_.
    destruct (Hgo _ n text Hok Hn eq_refl) as (r' & Hr' & Ho'). exists r'. by destruct (scan_end p).
Qed.

Lemma new_ok mrg tabs : doc_ok 0 [] (Printer.new mrg tabs).
Proof.
  split; [split| | |]; simpl; try done; [|by left]. split; simpl; try done; unfold MIN_SPACE, SIZE_INFINITY; lia.
Qed.

Lemma render_ok mrg tabs cs :
  Forall command_ok cs -> depth 0 cs = Some O ->
  exists r, render mrg tabs cs = Some r /\
    match r with Ok s => ink s = concat (map command_ink cs) | Panics r => r = NegativeIndentation /\ ~ G end.
Proof.
  intros Hcs Hd. unfold render. destruct (commands_ok cs 0 0 [] (Printer.new mrg tabs) (new_ok mrg tabs) Hcs Hd) as (r & -> & Hr).
  destruct r as [p|r]; [|by exists (Panics r)]. eexists. split; [reflexivity|]. by apply eof_ok.
Qed.
End Scanner.

(** ** What the printer guarantees *)
(** A document: breaks carry no text of their own and ask for at least no
    space, and every box that is opened is closed. *)
Record document (cs : list Command) : Prop := {
  doc_breaks : Forall (fun c => match c with Break t => 0 <= blank_space t /\ plain (TBreak t) | _ => True end) cs;
  doc_nested : depth 0 cs = Some O
}.
Definition command_nonneg (c : Command) : Prop :=
  match c with Break t => nonneg (TBreak t) | Begin t => nonneg (TBegin t) | _ => True end.

Lemma document_commands (G : Prop) cs :
  document cs -> (G -> Forall command_nonneg cs) -> Forall (command_ok G) cs.
Proof.
  intros [Hb _] Hg. rewrite Forall_forall in *. intros c Hc. specialize (Hb c Hc). destruct c as [|t|t|]; simpl; try done.
  - destruct Hb as [H1 H2]. split; [done|split; [done|]]. intros HG. specialize (Hg HG). by apply (Hg _ Hc).
  - intros HG. specialize (Hg HG). by apply (Hg _ Hc).
Qed.


Definition sample : list Command :=
  [Begin {| indent_style := Block 4; breaks := Consistent |}; Word "f("; Break (break_tok 0 0);
   Word "a,"; Break (break_tok 1 0); Word "b"; Break (break_tok 0 0); Word ")"; End].

Lemma sample_document : document sample.
Proof. split; [repeat constructor; simpl; done|reflexivity]. Qed.


(** With offsets that are not negative, printing does not panic at all. *)
Theorem render_never_panics mrg tabs cs :
  document cs -> Forall command_nonneg cs -> tabs <> Some O ->
  exists s, render mrg tabs cs = Some (Ok s) /\ ink s = concat (map command_ink cs).
Proof.
  intros Hd Hn _. destruct (render_ok True mrg tabs cs) as (r & Hr & Hs); [by apply document_commands|apply Hd|].
  destruct r as [s|r]; [by exists s|]. by destruct Hs as [_ []].
Qed.

Lemma render_never_panics_witness :
  exists s, render 40 (Some 4%nat) sample = Some (Ok s) /\ ink s = concat (map command_ink sample).
Proof. apply render_never_panics; [apply sample_document|repeat constructor; simpl; done|discriminate]. Defined.

(** Calls in sequence. *)
Definition then_ (r : option (Res Printer)) (k : Printer -> option (Res Printer)) : option (Res Printer) :=
  match r with Some (Ok p) => k p | r => r end.
Definition sequence (ks : list (Printer -> option (Res Printer))) (p : Printer) : option (Res Printer) :=
  foldl then_ (Some (Ok p)) ks.

(** [hardbreak_if_not_bol] replaces a buffered break by a wider one without
    correcting the size of the stream; when the box turns out to be empty the
    replaced break is taken back at its new width, the size of the stream
    becomes negative and the document is lost. *)
Theorem replaced_break_loses_document :
  exists p, sequence [fun p => Some (cbox 0 p); word "x"; fun p => Some (cbox 0 p); fun p => Some (break_offset 1 2 p);
              fun p => Some (hardbreak_if_not_bol p); fun p => Some (end_ p); fun p => Some (space_ p); word "y";
              fun p => Some (space_ p); word "z"; fun p => Some (end_ p)] (Printer.new 80 None) = Some (Ok p) /\
    right_total p < 0 /\ eof p = Ok EmptyString.
Proof. eexists. split; [vm_compute; reflexivity|]. split; vm_compute; reflexivity. Qed.
